(* ===== verification/_CoqProject ===== *)
-Q . S2P
Prelude.v
Wire.v
Effects.v
Res.v
Timer.v
Chan.v
Mpsc.v
LockMgr.v
Deadlock.v
Sync.v
Amutex.v
Arwlock.v
Latch.v
Flow.v
Saga.v
Prob.v
Deque.v
Rcu.v
LrLock.v
LwLock.v
Mbox.v
Ptab.v
Sup.v
Links.v
LinksRun.v
Reg.v
Reaper.v
Fsm.v
Svr.v
SvrSlot.v
Future.v
FutureSafe.v
FutureRun.v
