(* ===== verification/Prelude.v ===== *)
(** * Verification of libxtc

    libxtc is a C runtime in the style of Erlang: an event loop with fibers,
    and above it channels, locks and synchronisation primitives that park
    fibers or threads (src/ptc), and small orchestration services (src/orc).
    This library models the parts that carry its own logic as executable
    definitions and proves what their callers rely on.  Paths below are
    relative to the repository's src directory.

    ** How the code is modelled

    A struct is a record with the code's fields; a pointer that may be NULL
    is an [option]; result codes are the constructors of [rc] below.  Machine
    integers are [Z] with their wrap-around written out ([uwrap], [swrap] and
    the abbreviations u8 .. i64), doubles are IEEE 754 binary64.  A public
    function is a definition of the same name that takes the state and returns
    the result and the new state; outcomes that come from outside (an
    allocation, the clock, a pending kill, an expired deadline, a fault
    injection) are arguments, so the theorems hold for all of them.

    Concurrency has one form throughout.  A pool of clients, each at a program
    counter of the component's own type, takes steps on a shared world
    ([pool_step], [reachable] below); a step is one atomic access of lock-free
    code, or one critical section of code that holds a mutex.  Invariants are
    proved once per step and lifted to every interleaving of any number of
    clients by [pool_invariant].  Memory is sequentially consistent.

    ** Files

    - Prelude.v (this file): result codes (inc/xtc.h), machine integers,
      doubles, client pools, list lemmas and tactics.
    - Wire.v: pids, and the DOWN and EXIT messages of ending processes as
      bytes, with the decoders of ptc/proc.c ([down_roundtrip]; two reports
      lose their kind, [noconnection_is_signal_4] and [exit_code_is_noproc]).
    - Res.v: the resource accountant (ptc/res.c): every operation on its
      record, then the lock-free acquire and release as interleaved atomic
      accesses.  No schedule exceeds a cap or loses an update
      ([concurrent_budget]); [acquire_spec] gives every branch of an acquire.
    - Timer.v: the timer heap of the event loop (evt/timer.c): sifts, sweep,
      push, drain, cancel and release with reference counts.  Every run keeps
      heap order, index links and owner counts ([timer_run_safe]); a cancelled
      timer never fires ([cancelled_never_fires]); the hole-moving sift is the
      textbook swapping one ([hole_sift_is_swap_sift]).
    - Chan.v: oneshot, watch, mpmc, broadcast and demand channels
      (ptc/chan.c), with the accountant they charge.
    - Mpsc.v: the lock-free multi-producer channel (ptc/chan.c).  FIFO under
      every interleaving ([mpsc_fifo]), no lost wake-up, exact accounting, and
      every sequential call is a run of the steps ([mpsc_calls_are_runs]).
    - LockMgr.v: the lock manager (ptc/lock_mgr.c): modes, conflict matrix,
      lockers, objects, get, put, upgrade, downgrade, vectors, release-all,
      failure check, and the second half of each wait.  Conflicting modes
      other than WAIT are never held together ([lock_exclusion]), along runs
      that end only where a waiter finds its entry off its queue
      ([aborted_grant_corrupts]); vectors are all or none; three theorems show
      what the code gets wrong on its abort and removal paths.
    - Deadlock.v: the deadlock detector of ptc/lock_mgr.c: graph, depth-first
      search, victim choice, kill loop.  It terminates, kills only waiters,
      nobody when there is no cycle, and leaves none ([deadlock_detection]).
    - Sync.v: fiber queues, condition variables, spin calibration, semaphore
      and notify of ptc/sync.c: unit conservation, no stranded waiter, every
      signal delivered or merged.
    - Amutex.v, Arwlock.v: the parking mutex and the parking reader/writer
      latch of ptc/sync.c: exclusion, and no waiter is left behind by a free
      lock.
    - Latch.v: rwlock, barrier, gate and abort source of ptc/sync.c.
    - Flow.v: credits and resource pools (orc/credit.c, orc/pool.c), proved
      against the class [SemImpl] that states what a semaphore promises; the
      semaphore of Sync.v is its instance.
    - Saga.v: sagas (orc/saga.c): the run's two index loops are what a saga
      means, all or nothing if compensations undo their actions.
    - Prob.v: Bloom filter and HyperLogLog (ptc/prob.c), hashes and doubles
      included: no false negatives, lossless merge.
    - Deque.v: the work-stealing deque of the run queues (inc/deque.h), each
      operation as its atomic accesses: linearizable ([deque_linearizable]).
    - Rcu.v: epoch-based reclamation (ptc/rcu.c), memory refused anywhere:
      with one synchronizer nothing is freed under a reader whose slot counts
      its read sides ([rcu_grace_period], [rcu_stays_protected]) but what a
      retirement without memory frees at once ([rcu_retire_nomem]); a reader
      without memory for a slot is lost ([rcu_lost_reader]), and so may all be
      with two synchronizers ([rcu_two_synchronizers_free_early]).
    - LrLock.v: the left-right lock (ptc/lock_lr.c), its byte log included: a
      reader's copy never changes under it ([lrlock_reads_stable]), a publish
      shows the logged operations once and in order
      ([lrlock_publish_shows_log]), except the first one without a copy
      function ([lrlock_first_publish_twice]).
    - LwLock.v: the light-weight lock (ptc/lock_lw.c): exclusion, no lost
      wake-up, and what the fixed list of held locks does when it is full.
    - Mbox.v: a process's mailbox (ptc/proc.c): queue, save queue, bound,
      watermark and the selective receive, one receiver and any number of
      senders interleaved.  Nothing is lost, the earliest match is taken, no
      wake-up is missed ([mbox_conserves], [mbox_takes_earliest],
      [mbox_no_lost_wakeup]).
    - Ptab.v: the process table (ptc/proc.c) with its free list and
      generations is a map from pids to processes ([ptab_refines_map]).
    - Links.v, LinksRun.v: links, monitors, spawn and exit of processes
      (ptc/proc.c) as a world of processes with mailboxes, every list access
      and allocation a step.  A monitor gives one DOWN ([monitor_one_down]),
      refused by no living watcher; its entries are counted exactly ([monitor_entries_counted]), keeping
      them costs constant time ([monitor_sweep_cost]), and an exit does to
      every linked peer what its presence and trap flag ask
      ([exit_reaches_links]).  Runs have fewer than 2^64 steps, so
      that the 64-bit counter of references does not come round.
    - Reg.v: the registry and process groups (orc/reg.c, orc/pg.c), hash table
      and growth included: it is a set of entries ([reg_refines_set], which
      allows either of two documents where they disagree) and stays well formed ([reg_well_formed]); broadcasts ([pg_send_spec]).
    - Reaper.v: the registry's reaper interleaved with monitored
      registrations and deaths: while it runs, no name it was asked to watch
      is forgotten ([reaper_drops_dead]).
    - Fsm.v: state machines (orc/fsm.c): the recursion that replays postponed
      events computes the restart semantics ([fsm_dispatch_refines]), a call
      that is not postponed is answered once ([fsm_call_answered]) and gets its
      own reply
      ([fsm_call_gets_reply]), no event is leaked ([fsm_run_no_leak]).
    - Svr.v, SvrSlot.v: servers (orc/svr.c): frames, the server's loop and
      every way it ends, an injected yield included ([svr_ends_once]), a
      calling process
      ([svr_recv_reply_spec]), and the reply slots of plain threads
      ([svr_slot_safe], for fewer than 2^64 calls).
    - Future.v, FutureSafe.v, FutureRun.v: futures, promises and their
      combinators (ptc/future.c), every atomic access and critical section a
      step, callbacks included.  FutureSafe.v counts references, handles and
      contexts as tokens that are held exactly once; FutureRun.v draws from it
      that nothing is used after it was freed ([fut_safe]) or leaks
      ([fut_no_leak]), that a future has one value ([fut_one_value]) and loses
      no wake-up, that cascades of callbacks end ([fut_cascade_ends]), and
      what when_all, when_any and with_timeout resolve to.
    - Effects.v: the monad of code a kill can unwind (state, and no result
      when unwound), its rules and notations.
    - Sup.v: supervisors (orc/sup.c) written in that monad, against a small
      process layer that spawns, kills, monitors and delivers: restart
      policies and strategies, intensity, dynamic children, group restarts
      and the at-exit path.  Generations of a child never overlap
      ([sup_life_safe], [sup_group_no_overlap]), the ring of restart times
      counts as the full history ([sup_intensity_ring]), and an ending supervisor takes its children
      with it ([sup_shutdown]).

    ** Fuel

    Loops that are not structural take fuel from the size of what they scan:
    sifts from the heap's index or length, the drain from the number of
    queued timers, the depth-first search and the kill loop from the number of
    nodes (that it is enough is part of [deadlock_detection]), the replay of a log
    from its length ([replay_logged]), power-of-two
    and leading-zero loops 64 turns for a 64-bit word, the logarithm's two
    range loops 1100 turns for binary64's exponents.  The supervisor's wait
    for old children polls [wait_fuel] = 5002 times, which its deadline makes
    enough ([sup_wait_bounded]); its message loop takes any number of turns.  The recursion of a
    state machine's dispatch is as deep as one more than its waiting events,
    which is enough ([fsm_dispatch_refines]).

    ** Not modelled

    I/O backends, TLS bindings and the operating-system layer (calls into the
    kernel and third-party code), coroutine switching (assembly), the
    simulator and fault injectors (test harness; the injected outcomes are
    arguments), destructors that only free, and the weak memory orders of the
    atomics.  Left out as well: cancellation masks and at-exit lists of
    processes, streams, tenants, the concurrent hash table and skip
    list, the memory contexts. *)

From stdpp Require Export base numbers list gmap relations.
From Stdlib Require Export ZArith Lia SpecFloat.

Local Open Scope Z_scope.

(** ** Result codes of the public API (src/inc/xtc.h, enum xtc_err). *)

Inductive rc : Type :=
  | XTC_OK | XTC_E_INVAL | XTC_E_NOMEM | XTC_E_NOSYS | XTC_E_RANGE
  | XTC_E_AGAIN | XTC_E_INTERNAL | XTC_E_RESOURCE | XTC_E_DEADLK
  | XTC_E_VERSION | XTC_E_ABORTED | XTC_E_NOTFOUND | XTC_E_IO.

(** The integer each enumerator stands for. *)
Definition rc_code (c : rc) : Z :=
  match c with
  | XTC_OK => 0 | XTC_E_INVAL => -1 | XTC_E_NOMEM => -2 | XTC_E_NOSYS => -3
  | XTC_E_RANGE => -4 | XTC_E_AGAIN => -5 | XTC_E_INTERNAL => -6
  | XTC_E_RESOURCE => -7 | XTC_E_DEADLK => -8 | XTC_E_VERSION => -9
  | XTC_E_ABORTED => -10 | XTC_E_NOTFOUND => -11 | XTC_E_IO => -12
  end.

#[global] Instance rc_eq_dec : EqDecision rc.
Proof. solve_decision. Defined.

(** ** Machine integers *)

(** Pointers are numbers, NULL is 0. *)
Definition NULL : Z := 0.

Definition INT_MAX : Z := 2 ^ 31 - 1.
Definition INT64_MAX : Z := 2 ^ 63 - 1.
Definition SIZE_MAX : Z := 2 ^ 64 - 1.

(** Unsigned wrap-around at width [w], and its instances. *)
Definition uwrap (w z : Z) : Z := z mod 2 ^ w.
Abbreviation u8 := (uwrap 8).
Abbreviation u16 := (uwrap 16).
Abbreviation u32 := (uwrap 32).
Abbreviation u64 := (uwrap 64).

(** Two's-complement wrap-around (C atomics on signed types wrap). *)
Definition swrap (w z : Z) : Z := (z + 2 ^ (w - 1)) mod 2 ^ w - 2 ^ (w - 1).
Abbreviation i32 := (swrap 32).
Abbreviation i64 := (swrap 64).

(** ** Doubles

    IEEE 754 binary64, every operation rounded to nearest even. *)

Definition double : Type := spec_float.
Definition double_of_Z (z : Z) : double := binary_normalize 53 1024 z 0 false.
Definition double_mul : double -> double -> double := SFmul 53 1024.
Definition double_add : double -> double -> double := SFadd 53 1024.
Definition double_sub : double -> double -> double := SFsub 53 1024.
Definition double_div : double -> double -> double := SFdiv 53 1024.
Definition double_lt (a b : double) : bool := SFltb a b.
Definition double_le (a b : double) : bool := SFleb a b.
Definition double_one : double := double_of_Z 1.
Definition double_zero : double := S754_zero false.

(** A decimal literal [n / 10^d]: the nearest double. *)
Definition double_lit (n d : Z) : double := double_div (double_of_Z n) (double_of_Z (10 ^ d)).

(** The conversion to an integer type the value fits in: towards zero. *)
Definition double_trunc (x : double) : Z :=
  match x with S754_finite s m e => cond_Zopp s (Z.shiftl (Zpos m) e) | _ => 0 end.

#[global] Instance double_inhabited : Inhabited double := populate double_zero.

(** ** Wrap-around lemmas *)

Lemma uwrap_range w z : 0 <= w -> 0 <= uwrap w z < 2 ^ w.
Proof. intros ?. apply Z.mod_pos_bound. lia. Qed.

Lemma uwrap_small w z : 0 <= z < 2 ^ w -> uwrap w z = z.
Proof. apply Z.mod_small. Qed.

Lemma uwrap_uwrap w z : uwrap w (uwrap w z) = uwrap w z.
Proof. apply Zmod_mod. Qed.

Lemma swrap_small w z :
  0 < w -> - 2 ^ (w - 1) <= z < 2 ^ (w - 1) -> swrap w z = z.
Proof.
  intros Hw Hz. unfold swrap.
  assert (2 ^ w = 2 * 2 ^ (w - 1)) as Hp.
  { rewrite <- Z.pow_succ_r by lia. f_equal. lia. }
  rewrite Z.mod_small by lia. lia.
Qed.

Lemma swrap_range w z : 0 < w -> - 2 ^ (w - 1) <= swrap w z < 2 ^ (w - 1).
Proof.
  intros Hw. unfold swrap.
  assert (2 ^ w = 2 * 2 ^ (w - 1)) as Hp.
  { rewrite <- Z.pow_succ_r by lia. f_equal. lia. }
  pose proof (Z.mod_pos_bound (z + 2 ^ (w - 1)) (2 ^ w)). lia.
Qed.

(** Masking with [2^k - 1] is reduction modulo [2^k]. *)
Lemma land_pow2_mask x k : 0 <= k -> Z.land x (2 ^ k - 1) = x mod 2 ^ k.
Proof. intros Hk. rewrite <- Z.land_ones by lia. f_equal. rewrite Z.ones_equiv. lia. Qed.

(** ** Lists used as arrays *)

(** Exchange of two cells, and the array with its cell [i] replaced. *)
Definition swap {A} (l : list A) (i j : nat) : list A :=
  match l !! i, l !! j with
  | Some x, Some y => <[i := y]> (<[j := x]> l)
  | _, _ => l
  end.

Lemma length_swap {A} (l : list A) i j : length (swap l i j) = length l.
Proof. unfold swap. repeat case_match; by rewrite ?length_insert. Qed.

Lemma lookup_swap {A} (l : list A) i j x y k :
  l !! i = Some x -> l !! j = Some y ->
  swap l i j !! k =
    if decide (k = i) then Some y else if decide (k = j) then Some x else l !! k.
Proof.
  intros Hi Hj. unfold swap. rewrite Hi, Hj.
  assert (Hil := lookup_lt_Some _ _ _ Hi). assert (Hjl := lookup_lt_Some _ _ _ Hj).
  case_decide as D1; [subst k | case_decide as D2; [subst k|]].
  - rewrite list_lookup_insert_eq; [done|]. by rewrite length_insert.
  - rewrite list_lookup_insert_ne by done. by rewrite list_lookup_insert_eq.
  - by rewrite !list_lookup_insert_ne by done.
Qed.

Lemma insert_Permutation {A} (l : list A) i x y :
  l !! i = Some y -> y :: <[i := x]> l ≡ₚ x :: l.
Proof.
  intros Hi. rewrite (insert_take_drop l i x) by (by eapply lookup_lt_Some).
  rewrite <- (take_drop_middle l i y Hi) at 3. rewrite !Permutation_middle.
  rewrite <- !Permutation_middle. apply Permutation_swap.
Qed.

Lemma swap_Permutation {A} (l : list A) i j : swap l i j ≡ₚ l.
Proof.
  unfold swap. destruct (l !! i) as [x|] eqn:Hi; [|done].
  destruct (l !! j) as [y|] eqn:Hj; [|done].
  destruct (decide (i = j)) as [->|Hne].
  { simplify_eq. rewrite list_insert_insert_eq, list_insert_id; done. }
  apply (Permutation_cons_inv (a := x)).
  rewrite (insert_Permutation (<[j:=x]> l) i y x).
  - by apply insert_Permutation.
  - by rewrite list_lookup_insert_ne.
Qed.

Lemma filter_ext_elem {A} (P Q : A -> Prop)
    `{!forall x, Decision (P x), !forall x, Decision (Q x)} (l : list A) :
  (forall x, x ∈ l -> P x <-> Q x) -> filter P l = filter Q l.
Proof.
  induction l as [|x l IH]; intros HPQ; [done|]. rewrite !filter_cons.
  rewrite IH by (intros y Hy; apply HPQ; by apply list_elem_of_further).
  pose proof (HPQ x (list_elem_of_here x l)). repeat case_decide; tauto.
Qed.

(** Lists of lists: an array of chains. *)
Lemma concat_alter_cons {A} (b : list (list A)) i e :
  (i < length b)%nat -> concat (alter (cons e) i b) ≡ₚ e :: concat b.
Proof.
  revert i. induction b as [|l b IH]; intros i Hi; simpl in Hi; [lia|]. destruct i as [|i]; [done|].
  change (l ++ concat (alter (cons e) i b) ≡ₚ e :: l ++ concat b). rewrite IH by lia. by rewrite Permutation_middle.
Qed.

Lemma concat_insert {A} (b : list (list A)) i l l' x :
  b !! i = Some l -> l ≡ₚ x :: l' -> concat b ≡ₚ x :: concat (<[i := l']> b).
Proof.
  revert i. induction b as [|l0 b IH]; intros i Hi Hl; [done|]. destruct i as [|i].
  - simplify_eq/=. by rewrite Hl.
  - change (l0 ++ concat b ≡ₚ x :: l0 ++ concat (<[i := l']> b)). rewrite (IH i) by done. by rewrite Permutation_middle.
Qed.

Lemma elem_of_concat_at {A} (b : list (list A)) e : e ∈ concat b <-> exists i l, b !! i = Some l /\ e ∈ l.
Proof.
  rewrite list_elem_of_In, in_concat. split.
  - intros (l & [i Hi]%list_elem_of_In%list_elem_of_lookup & He%list_elem_of_In). eauto.
  - intros (i & l & Hi%list_elem_of_lookup_2%list_elem_of_In & He%list_elem_of_In). eauto.
Qed.

(** ** Interleavings of threads over shared memory

    A component whose operations are sequences of atomic accesses is
    modelled by a relation on (shared state, program counter of one
    thread); the pool interleaves the steps of any number of threads. *)

Section ThreadPool.
Context {S P : Type} (tstep : nat -> S -> P -> S -> P -> Prop).

Definition config : Type := S * gmap nat P.

Inductive pool_step : config -> config -> Prop :=
  | pool_step_at s (pool : gmap nat P) i p s' p' :
      pool !! i = Some p ->
      tstep i s p s' p' ->
      pool_step (s, pool) (s', <[i := p']> pool).

Definition reachable : config -> config -> Prop := rtc pool_step.

(** Rule induction: a predicate that holds initially and is preserved by
    every thread step holds in every reachable configuration. *)
Lemma pool_invariant (I : S -> gmap nat P -> Prop) c0 c :
  (forall s pool i p s' p',
      I s pool -> pool !! i = Some p -> tstep i s p s' p' ->
      I s' (<[i := p']> pool)) ->
  I c0.1 c0.2 -> reachable c0 c -> I c.1 c.2.
Proof.
  intros Hstep HI Hr. induction Hr as [c|c1 c2 c3 Hst Hr IH]; [done|].
  apply IH. destruct Hst as [s pool i p s' p' Hp Ht]. by eapply Hstep.
Qed.

(** A thread that runs alone. *)
Lemma solo_step i s p s' p' c :
  tstep i s p s' p' -> reachable (s', {[i := p']}) c -> reachable (s, {[i := p]}) c.
Proof.
  intros Ht Hr. eapply rtc_l; [|exact Hr].
  assert ({[i := p']} = <[i := p']> ({[i := p]} : gmap nat P)) as ->
    by (by rewrite insert_singleton_eq).
  apply (pool_step_at _ _ i p); [apply lookup_singleton_eq|done].
Qed.

Lemma solo_last i s p s' p' :
  tstep i s p s' p' -> reachable (s, {[i := p]}) (s', {[i := p']}).
Proof. intros Ht. eapply solo_step; [exact Ht|apply rtc_refl]. Qed.
End ThreadPool.

(** [n] threads, all at the same program point. *)
Definition idle_pool {P} (p : P) (n : nat) : gmap nat P :=
  list_to_map ((fun i => (i, p)) <$> seq 0 n).

Lemma idle_pool_Forall {P} (p : P) n (Q : nat -> P -> Prop) :
  (forall i, Q i p) -> map_Forall Q (idle_pool p n).
Proof.
  intros HQ i q Hi%elem_of_list_to_map_2.
  apply list_elem_of_fmap in Hi as (j & [= <- <-] & _). done.
Qed.

(** A thread-local predicate over a whole pool survives the update of one
    thread when the others are stable under the change of the state. *)
Lemma map_Forall_pool_update {P} (Q Q' : nat -> P -> Prop) (pool : gmap nat P) i p' :
  map_Forall Q pool ->
  (forall j q, j <> i -> pool !! j = Some q -> Q j q -> Q' j q) ->
  Q' i p' ->
  map_Forall Q' (<[i := p']> pool).
Proof.
  intros HQ Hst Hp j q. rewrite lookup_insert. case_decide as D.
  - intros [= <-]. by subst.
  - intros Hj. apply Hst; auto.
Qed.

(** A weight summed over the threads of a pool. *)
Definition pool_sum {P} (w : P -> Z) (pool : gmap nat P) : Z :=
  map_fold (fun _ p acc => w p + acc) 0 pool.

Lemma pool_sum_fresh {P} (w : P -> Z) (pool : gmap nat P) i p :
  pool !! i = None -> pool_sum w (<[i := p]> pool) = w p + pool_sum w pool.
Proof.
  intros Hi. unfold pool_sum. rewrite map_fold_insert_L; [done| |done]. intros. lia.
Qed.

Lemma pool_sum_insert {P} (w : P -> Z) (pool : gmap nat P) i p p' :
  pool !! i = Some p -> pool_sum w (<[i := p']> pool) = pool_sum w pool - w p + w p'.
Proof.
  intros Hi. rewrite <- (insert_delete_id pool i p Hi) at 2.
  rewrite <- (insert_delete_eq pool i p'), !pool_sum_fresh by apply lookup_delete_eq. lia.
Qed.

Lemma pool_sum_nonneg {P} (w : P -> Z) (pool : gmap nat P) :
  (forall p, 0 <= w p) -> 0 <= pool_sum w pool.
Proof.
  intros Hw. induction pool as [|i p pool Hi IH] using map_ind.
  - unfold pool_sum. by rewrite map_fold_empty.
  - rewrite pool_sum_fresh by done. specialize (Hw p). lia.
Qed.

Lemma pool_sum_ge {P} (w : P -> Z) (pool : gmap nat P) i p :
  (forall p, 0 <= w p) -> pool !! i = Some p -> w p <= pool_sum w pool.
Proof.
  intros Hw Hi. rewrite <- (insert_delete_id pool i p Hi), pool_sum_fresh by apply lookup_delete_eq.
  pose proof (pool_sum_nonneg w (delete i pool) Hw). lia.
Qed.

Lemma pool_sum_zero {P} (w : P -> Z) (pool : gmap nat P) :
  map_Forall (fun _ p => w p = 0) pool -> pool_sum w pool = 0.
Proof.
  induction pool as [|i p pool Hi IH] using map_ind.
  { intros _. unfold pool_sum. by rewrite map_fold_empty. }
  intros [Hp Hr]%map_Forall_insert; [|done]. rewrite pool_sum_fresh, Hp by done. by rewrite IH.
Qed.

(** A positive sum has a thread that weighs in. *)
Lemma pool_sum_pos {P} (w : P -> Z) (pool : gmap nat P) :
  0 < pool_sum w pool -> exists i p, pool !! i = Some p /\ w p <> 0.
Proof.
  intros Hlt. destruct (decide (map_Exists (fun _ p => w p <> 0) pool)) as [(i & p & Hi & Hw)|Hno]; [eauto|].
  rewrite pool_sum_zero in Hlt; [lia|]. intros i p Hi. destruct (decide (w p = 0)) as [|Hw]; [done|].
  destruct Hno. by exists i, p.
Qed.

Lemma pool_sum_two {P} (w : P -> Z) (pool : gmap nat P) i j p q :
  (forall p, 0 <= w p) -> i <> j -> pool !! i = Some p -> pool !! j = Some q ->
  w p + w q <= pool_sum w pool.
Proof.
  intros Hw Hne Hi Hj. rewrite <- (insert_delete_id pool i p Hi), pool_sum_fresh by apply lookup_delete_eq.
  assert (delete i pool !! j = Some q) as Hj' by (by rewrite lookup_delete_ne).
  pose proof (pool_sum_ge w (delete i pool) j q Hw Hj'). lia.
Qed.

(** Some thread of the pool satisfies [Q]. *)
Definition pool_some {P} (Q : P -> Prop) (pool : gmap nat P) : Prop :=
  exists i p, pool !! i = Some p /\ Q p.

Lemma pool_some_keep {P} (pool : gmap nat P) i p p' (Q : P -> Prop) :
  pool !! i = Some p -> ~ Q p -> pool_some Q pool -> pool_some Q (<[i := p']> pool).
Proof.
  intros Hi Hn (j & q & Hj & Hq). exists j, q. split; [|done].
  rewrite lookup_insert_ne; [done|]. intros ->. by simplify_eq.
Qed.

Lemma pool_some_now {P} (pool : gmap nat P) i p' (Q : P -> Prop) :
  Q p' -> pool_some Q (<[i := p']> pool).
Proof. intros. exists i, p'. by rewrite lookup_insert_eq. Qed.

(** ** Automation *)

Create HintDb xtc.
#[export] Hint Resolve uwrap_range : xtc.

(** Split every test and match the goal or a hypothesis is stuck on. *)
Ltac split_tests :=
  repeat (case_decide || case_match || simplify_eq).

(** Put the configuration a run has reached in normal form. *)
Ltac pool_norm :=
  lazymatch goal with
  | |- rtc ?R (?s, ?pool) ?c =>
      let s' := eval vm_compute in s in
      let pool' := eval vm_compute in pool in
      change (rtc R (s', pool') c)
  end.

(** Extend a run of the thread pool by the step [tac] of thread [i]. *)
Tactic Notation "pool_run" constr(i) "by" tactic3(tac) :=
  eapply rtc_l; [eapply (pool_step_at _ _ _ i); [reflexivity | tac] | pool_norm].
