(* ===== verification/Wire.v ===== *)
(** * Process identifiers and the messages of the runtime as bytes

    Pids (inc/xtc_proc.h), integers in memory order, and the packed DOWN and
    EXIT messages that ptc/proc.c sends when a process ends, with the two
    decoders.  What a process sends is what a receiver decodes, and nothing a
    decoder is given makes it read past the message. *)

From S2P Require Import Prelude.

Local Open Scope Z_scope.

(** ** Pids *)

Record xtc_pid := mk_pid { pid_loop_id : Z; pid_local_id : Z; pid_gen : Z }.

#[global] Instance xtc_pid_eq_dec : EqDecision xtc_pid.
Proof. solve_decision. Defined.
#[global] Instance xtc_pid_countable : Countable xtc_pid.
Proof.
  apply (inj_countable' (fun p => (pid_loop_id p, pid_local_id p, pid_gen p)) (fun x => mk_pid x.1.1 x.1.2 x.2)).
  by intros [].
Defined.

Definition XTC_PID_NONE : xtc_pid := mk_pid 0 0 0.

Definition xtc_pid_eq (a b : xtc_pid) : bool :=
  (pid_loop_id a =? pid_loop_id b) && (pid_local_id a =? pid_local_id b) && (pid_gen a =? pid_gen b).

Definition xtc_pid_is_none (p : xtc_pid) : bool :=
  (pid_loop_id p =? 0) && (pid_local_id p =? 0) && (pid_gen p =? 0).

Lemma xtc_pid_eq_spec a b : xtc_pid_eq a b = bool_decide (a = b).
Proof.
  destruct a as [a1 a2 a3], b as [b1 b2 b3]. unfold xtc_pid_eq. simpl.
  apply eq_bool_prop_intro. rewrite !andb_True, bool_decide_spec, !Is_true_true, !Z.eqb_eq. naive_solver.
Qed.

Lemma xtc_pid_is_none_spec p : xtc_pid_is_none p = bool_decide (p = XTC_PID_NONE).
Proof. unfold xtc_pid_is_none. rewrite <- xtc_pid_eq_spec. done. Qed.

(** ** Integers in memory: [n] bytes, the lowest first *)

Definition byte_ok (b : Z) : Prop := 0 <= b < 256.

Fixpoint to_le (n : nat) (z : Z) : list Z :=
  match n with
  | O => []
  | S n => z mod 256 :: to_le n (z / 256)
  end.

Fixpoint of_le (l : list Z) : Z :=
  match l with
  | [] => 0
  | b :: l => b + 256 * of_le l
  end.

Lemma length_to_le n z : length (to_le n z) = n.
Proof. revert z. induction n as [|n IH]; intros z; simpl; [done|]. by rewrite IH. Qed.

Lemma of_le_to_le n z : of_le (to_le n z) = z mod 256 ^ Z.of_nat n.
Proof.
  revert z. induction n as [|n IH]; intros z; simpl to_le; simpl of_le.
  { by rewrite Z.mod_1_r. }
  rewrite IH, Nat2Z.inj_succ, Z.pow_succ_r by lia. rewrite Z.rem_mul_r by lia. lia.
Qed.

Lemma to_le_bytes n z : Forall byte_ok (to_le n z).
Proof. revert z. induction n as [|n IH]; intros z; constructor; [|done]. apply Z.mod_pos_bound. lia. Qed.

(** The bytes [off, off + n) of a message. *)
Definition bytes_at (off n : nat) (m : list Z) : list Z := take n (drop off m).
Definition field (off n : nat) (m : list Z) : Z := of_le (bytes_at off n m).

Lemma bytes_at_here n m m' : length m = n -> bytes_at 0 n (m ++ m') = m.
Proof. intros <-. unfold bytes_at. rewrite drop_0. by rewrite take_app_length. Qed.

Lemma bytes_at_skip off n m m' : (length m <= off)%nat -> bytes_at off n (m ++ m') = bytes_at (off - length m) n m'.
Proof. intros H. unfold bytes_at. by rewrite drop_app_ge. Qed.

Lemma bytes_at_cons off n b m : bytes_at (S off) n (b :: m) = bytes_at off n m.
Proof. done. Qed.

Lemma field_kind b m : field 0 1 (b :: m) = b.
Proof. unfold field, bytes_at. simpl. lia. Qed.

(** ** Pids as bytes: 4 + 4 + 8 *)

Definition pid_ok (p : xtc_pid) : Prop :=
  0 <= pid_loop_id p < 2 ^ 32 /\ 0 <= pid_local_id p < 2 ^ 32 /\ 0 <= pid_gen p < 2 ^ 64.

Definition pid_bytes (p : xtc_pid) : list Z := to_le 4 (pid_loop_id p) ++ to_le 4 (pid_local_id p) ++ to_le 8 (pid_gen p).
Definition pid_of (m : list Z) : xtc_pid := mk_pid (field 0 4 m) (field 4 4 m) (field 8 8 m).

Lemma length_pid_bytes p : length (pid_bytes p) = 16%nat.
Proof. unfold pid_bytes. by rewrite !length_app, !length_to_le. Qed.

Lemma field_here n z m : field 0 n (to_le n z ++ m) = z mod 256 ^ Z.of_nat n.
Proof. unfold field. by rewrite bytes_at_here, of_le_to_le by apply length_to_le. Qed.

Lemma field_skip off n m m' : (length m <= off)%nat -> field off n (m ++ m') = field (off - length m) n m'.
Proof. intros H. unfold field. by rewrite bytes_at_skip. Qed.

Lemma pid_of_bytes p : pid_ok p -> pid_of (pid_bytes p) = p.
Proof.
  intros (H1 & H2 & H3). unfold pid_of, pid_bytes.
  rewrite field_here, (field_skip 4), (field_skip 8), (field_skip (8 - _)), !length_to_le by (rewrite ?length_to_le; lia).
  simpl Nat.sub. rewrite field_here. rewrite <- (app_nil_r (to_le 8 _)), field_here.
  change (256 ^ Z.of_nat 4) with (2 ^ 32). change (256 ^ Z.of_nat 8) with (2 ^ 64).
  rewrite !Z.mod_small by lia. by destruct p.
Qed.

(** ** DOWN and EXIT *)

Definition XTC_DOWN_NOPROC : Z := -100000.

(** The kinds of an exit ([xtc_down_kind_t]). *)
Definition XTC_DOWN_KIND_CLEAN : Z := 0.
Definition XTC_DOWN_KIND_EXIT : Z := 1.
Definition XTC_DOWN_KIND_SIGNAL : Z := 2.
Definition XTC_DOWN_KIND_NOPROC : Z := 3.
Definition XTC_DOWN_KIND_NOCONNECTION : Z := 4.

Definition KIND_D : Z := 68.
Definition KIND_E : Z := 69.

Record xtc_down_info : Type := mk_info {
  di_pid : xtc_pid;
  di_kind : Z;
  di_signal : Z;
  di_exit_code : Z;
  di_reason : Z;
  di_ref : Z;
}.

(** The packed structs that [__notify_links_and_monitors] and [xtc_monitor]
    fill; [reason] is an [int]. *)
Definition down_signal (ref : Z) (pid : xtc_pid) (reason kind : Z) : list Z :=
  KIND_D :: to_le 8 ref ++ pid_bytes pid ++ to_le 4 reason ++ [u8 kind].
Definition exit_signal (reason : Z) (pid : xtc_pid) (kind : Z) : list Z :=
  KIND_E :: to_le 4 reason ++ pid_bytes pid ++ [u8 kind].

Definition int_field (off : nat) (m : list Z) : Z := i32 (field off 4 m).

(** The decoders; [None]: a NULL message.  [out_ok]: the result struct is
    there and large enough for its size. *)
Definition xtc_down_decode (msg : option (list Z)) : option (xtc_pid * Z) :=
  match msg with
  | None => None
  | Some m =>
      if decide (length m < 29)%nat then None
      else if decide (field 0 1 m <> KIND_D) then None
      else Some (pid_of (bytes_at 9 16 m), int_field 25 m)
  end.

Definition xtc_down_is_noproc (reason : Z) : bool := bool_decide (reason = XTC_DOWN_NOPROC).

(** The kind from the byte on the wire; [-1]: the byte is absent. *)
Definition classify (reason ek : Z) : Z :=
  if xtc_down_is_noproc reason then XTC_DOWN_KIND_NOPROC
  else if decide (ek = 2) then XTC_DOWN_KIND_SIGNAL
  else if decide (ek = 1) then XTC_DOWN_KIND_EXIT
  else if decide (ek = 0) then XTC_DOWN_KIND_CLEAN
  else if decide (reason = 0) then XTC_DOWN_KIND_CLEAN
  else if decide (1 <= reason /\ reason <= 255) then XTC_DOWN_KIND_SIGNAL
  else XTC_DOWN_KIND_EXIT.

Definition info_of (pid : xtc_pid) (reason ref ek : Z) : xtc_down_info :=
  let kind := classify reason ek in
  mk_info pid kind
    (if decide (kind = XTC_DOWN_KIND_SIGNAL) then reason else 0)
    (if decide (kind = XTC_DOWN_KIND_EXIT) then reason else 0)
    reason ref.

Definition xtc_down_decode_ex (msg : option (list Z)) (out_ok : bool) : option xtc_down_info :=
  match msg with
  | None => None
  | Some m =>
      if decide (length m < 1)%nat then None
      else if negb out_ok then None
      else if decide (field 0 1 m = KIND_D) then
        if decide (length m < 29)%nat then None
        else Some (info_of (pid_of (bytes_at 9 16 m)) (int_field 25 m) (field 1 8 m)
                     (if decide (30 <= length m)%nat then field 29 1 m else -1))
      else if decide (field 0 1 m = KIND_E) then
        if decide (length m < 21)%nat then None
        else Some (info_of (pid_of (bytes_at 5 16 m)) (int_field 1 m) 0
                     (if decide (22 <= length m)%nat then field 21 1 m else -1))
      else None
  end.

(** ** What is decoded *)

(** Reads of a message put together from its fields. *)
Ltac read_fields :=
  repeat first
    [ rewrite bytes_at_here by (rewrite ?length_pid_bytes, ?length_to_le; done)
    | rewrite bytes_at_cons
    | rewrite bytes_at_skip by (rewrite ?length_pid_bytes, ?length_to_le; lia); rewrite ?length_pid_bytes, ?length_to_le; simpl Nat.sub ].

Definition int_ok (z : Z) : Prop := - 2 ^ 31 <= z < 2 ^ 31.

Lemma i32_mod z : int_ok z -> i32 (z mod 256 ^ Z.of_nat 4) = z.
Proof.
  intros Hz. change (256 ^ Z.of_nat 4) with (2 ^ 32). unfold swrap. rewrite Zplus_mod_idemp_l.
  apply (swrap_small 32); [lia|]. unfold int_ok in Hz. lia.
Qed.

Lemma length_down_signal ref pid reason kind : length (down_signal ref pid reason kind) = 30%nat.
Proof. unfold down_signal. by rewrite length_cons, !length_app, !length_to_le, length_pid_bytes. Qed.

Lemma length_exit_signal reason pid kind : length (exit_signal reason pid kind) = 22%nat.
Proof. unfold exit_signal. by rewrite length_cons, !length_app, !length_to_le, length_pid_bytes. Qed.

Lemma down_decoded ref pid reason kind :
  pid_ok pid -> int_ok reason -> 0 <= ref < 2 ^ 64 -> 0 <= kind < 256 ->
  xtc_down_decode (Some (down_signal ref pid reason kind)) = Some (pid, reason) /\
  xtc_down_decode_ex (Some (down_signal ref pid reason kind)) true = Some (info_of pid reason ref kind).
Proof.
  intros Hp Hr Hf Hk. unfold xtc_down_decode, xtc_down_decode_ex. rewrite length_down_signal.
  rewrite !(decide_False (P := (30 < _)%nat)), (decide_True (P := (30 <= 30)%nat)) by lia.
  assert (field 0 1 (down_signal ref pid reason kind) = KIND_D) as -> by apply field_kind.
  rewrite (decide_False (P := KIND_D <> KIND_D)), decide_True by tauto. simpl negb. cbv iota.
  unfold int_field, field, down_signal. read_fields.
  rewrite pid_of_bytes, !of_le_to_le, i32_mod by done.
  change (256 ^ Z.of_nat 8) with (2 ^ 64). rewrite (Z.mod_small ref) by done.
  split; [done|]. simpl of_le. by rewrite Z.add_0_r, (uwrap_small 8).
Qed.

Lemma exit_decoded reason pid kind :
  pid_ok pid -> int_ok reason -> 0 <= kind < 256 ->
  xtc_down_decode (Some (exit_signal reason pid kind)) = None /\
  xtc_down_decode_ex (Some (exit_signal reason pid kind)) true = Some (info_of pid reason 0 kind).
Proof.
  intros Hp Hr Hk. unfold xtc_down_decode, xtc_down_decode_ex. rewrite length_exit_signal.
  rewrite (decide_False (P := (22 < 1)%nat)), (decide_False (P := (22 < 21)%nat)), (decide_True (P := (22 <= 22)%nat)) by lia.
  rewrite (decide_True (P := (22 < 29)%nat)) by lia. split; [done|]. simpl negb. cbv iota.
  assert (field 0 1 (exit_signal reason pid kind) = KIND_E) as -> by apply field_kind.
  rewrite decide_False, decide_True by done.
  unfold int_field, field, exit_signal. read_fields.
  rewrite pid_of_bytes, !of_le_to_le, i32_mod by done. simpl of_le. by rewrite Z.add_0_r, (uwrap_small 8).
Qed.

(** The pairs of a reason and a kind that the decoder tells apart.  Two that
    are sent are not among them: the kind NOCONNECTION of a broken connection
    ([noconnection_is_signal_4]), and an exit or signal whose number is the
    reserved reason of NOPROC ([exit_code_is_noproc]). *)
Definition told_apart (reason kind : Z) : Prop :=
  match kind with
  | 0 => reason = 0
  | 1 | 2 => reason <> XTC_DOWN_NOPROC
  | 3 => reason = XTC_DOWN_NOPROC
  | _ => False
  end.

Lemma classify_told reason kind : told_apart reason kind -> classify reason kind = kind.
Proof.
  unfold told_apart, classify, xtc_down_is_noproc. intros H.
  destruct (decide (kind = 0)) as [->|]; [by subst|]. destruct (decide (kind = 1)) as [->|]; [by rewrite bool_decide_false|].
  destruct (decide (kind = 2)) as [->|]; [by rewrite bool_decide_false|].
  destruct (decide (kind = 3)) as [->|]; [by rewrite bool_decide_true|].
  destruct kind as [|[[]|[]|]|]; naive_solver.
Qed.

(** A message cut short is refused. *)
Lemma down_cut ref pid reason kind n :
  (n < 29)%nat -> xtc_down_decode_ex (Some (take n (down_signal ref pid reason kind))) true = None.
Proof.
  intros Hn. unfold xtc_down_decode_ex. rewrite length_take, length_down_signal.
  case_decide; [done|]. simpl negb. cbv iota. rewrite decide_True.
  - by rewrite decide_True by lia.
  - destruct n; [lia|]. done.
Qed.

Lemma exit_cut reason pid kind n :
  (n < 21)%nat -> xtc_down_decode_ex (Some (take n (exit_signal reason pid kind))) true = None.
Proof.
  intros Hn. unfold xtc_down_decode_ex. rewrite length_take, length_exit_signal.
  case_decide; [done|]. simpl negb. cbv iota. destruct n; [lia|].
  rewrite decide_False by done. rewrite decide_True by done. by rewrite decide_True by lia.
Qed.



(** A broken connection to another operating-system process is sent with its
    own kind, which the decoder does not know: it is reported as signal 4. *)
Example noconnection_is_signal_4 :
  di_kind <$> xtc_down_decode_ex (Some (down_signal 1 (mk_pid 1 2 3) 4 XTC_DOWN_KIND_NOCONNECTION)) true =
    Some XTC_DOWN_KIND_SIGNAL.
Proof. done. Qed.

(** A process that exits with the reserved code is reported as one that was
    gone before it was monitored. *)
Example exit_code_is_noproc :
  di_kind <$> xtc_down_decode_ex (Some (down_signal 1 (mk_pid 1 2 3) XTC_DOWN_NOPROC XTC_DOWN_KIND_EXIT)) true =
    Some XTC_DOWN_KIND_NOPROC.
Proof. done. Qed.
