(* ===== verification/Effects.v ===== *)
(** * Code that threads state and can be unwound

    A computation over a state [S]: it ends with a value, or it is unwound
    (the fiber that runs it was killed) and leaves the state as it was at that
    point.  [wp] is its weakest postcondition, with a rule per construct;
    [keeps] says that it preserves a predicate of the state, however it
    ends. *)

From S2P Require Import Prelude.

Definition M (S A : Type) : Type := S -> option A * S.

Section Monad.
Context {S : Type}.

Definition ret {A} (a : A) : M S A := fun s => (Some a, s).
Definition bind {A B} (m : M S A) (k : A -> M S B) : M S B :=
  fun s => match m s with (Some a, s') => k a s' | (None, s') => (None, s') end.
Definition get : M S S := fun s => (Some s, s).
Definition gets {A} (f : S -> A) : M S A := fun s => (Some (f s), s).
Definition modify (f : S -> S) : M S unit := fun s => (Some tt, f s).
Definition unwind {A} : M S A := fun s => (None, s).
Definition when (b : bool) (m : M S unit) : M S unit := if b then m else ret tt.

(** A loop over the elements of a list. *)
Fixpoint each {A} (l : list A) (f : A -> M S unit) : M S unit :=
  match l with [] => ret tt | x :: l => bind (f x) (fun _ => each l f) end.

Definition wp {A} (m : M S A) (Q : option A -> S -> Prop) (s : S) : Prop := Q (m s).1 (m s).2.

Definition keeps {A} (I : S -> Prop) (m : M S A) : Prop := forall s, I s -> I (m s).2.
End Monad.

Declare Scope effect_scope.
Delimit Scope effect_scope with eff.
Notation "'let*' x ':=' m 'in' k" := (bind m (fun x => k))
  (at level 10, x pattern, m at level 100, k at level 200) : effect_scope.
Notation "m ;; k" := (bind m (fun _ => k)) (at level 100, k at level 200, right associativity) : effect_scope.

(** ** Weakest postconditions *)

Section Wp.
Context {S : Type}.
Implicit Types (s : S).

Lemma wp_ret {A} (a : A) (Q : option A -> S -> Prop) s : Q (Some a) s -> wp (ret a) Q s.
Proof. done. Qed.

Lemma wp_bind {A B} (m : M S A) (k : A -> M S B) (Q : option B -> S -> Prop) s :
  wp m (fun oa s' => match oa with Some a => wp (k a) Q s' | None => Q None s' end) s -> wp (bind m k) Q s.
Proof. unfold wp, bind. by destruct (m s) as [[a|] s']. Qed.

Lemma wp_mono {A} (m : M S A) (P Q : option A -> S -> Prop) s :
  wp m P s -> (forall oa s', P oa s' -> Q oa s') -> wp m Q s.
Proof. intros HP HPQ. by apply HPQ. Qed.

(** Cut: a known postcondition of the first part. *)
Lemma wp_cut {A B} (m : M S A) (k : A -> M S B) (P : option A -> S -> Prop) (Q : option B -> S -> Prop) s :
  wp m P s -> (forall a s', P (Some a) s' -> wp (k a) Q s') -> (forall s', P None s' -> Q None s') -> wp (bind m k) Q s.
Proof. intros HP Hk Hn. apply wp_bind. eapply wp_mono; [exact HP|]. intros [a|] s'; auto. Qed.

Lemma wp_each {A} (I : list A -> S -> Prop) (E : S -> Prop) (f : A -> M S unit) l s :
  I l s ->
  (forall x l s, I (x :: l) s -> wp (f x) (fun o s' => match o with Some _ => I l s' | None => E s' end) s) ->
  wp (each l f) (fun o s' => match o with Some _ => I [] s' | None => E s' end) s.
Proof.
  intros HI Hf. revert s HI. induction l as [|x l IH]; intros s HI; [done|].
  apply wp_bind. eapply wp_mono; [by apply Hf|]. intros [[]|] s' H; [by apply IH|done].
Qed.

Lemma wp_and {A} (m : M S A) (P Q : option A -> S -> Prop) s :
  wp m P s -> wp m Q s -> wp m (fun o s' => P o s' /\ Q o s') s.
Proof. done. Qed.
End Wp.

(** ** Preservation *)

Section Keeps.
Context {S : Type} (I : S -> Prop).

Lemma keeps_ret {A} (a : A) : keeps I (ret a).
Proof. by intros s. Qed.

Lemma keeps_unwind {A} : keeps I (@unwind S A).
Proof. by intros s. Qed.

Lemma keeps_get : keeps I get.
Proof. by intros s. Qed.

Lemma keeps_gets {A} (f : S -> A) : keeps I (gets f).
Proof. by intros s. Qed.

Lemma keeps_bind {A B} (m : M S A) (k : A -> M S B) : keeps I m -> (forall a, keeps I (k a)) -> keeps I (bind m k).
Proof.
  intros Hm Hk s HI. unfold bind. specialize (Hm s HI). destruct (m s) as [[a|] s']; [by apply Hk|done].
Qed.

Lemma keeps_when b m : keeps I m -> keeps I (when b m).
Proof. destruct b; [done|]. intros _. apply keeps_ret. Qed.

Lemma keeps_each {A} (l : list A) f : (forall x, keeps I (f x)) -> keeps I (each l f).
Proof. intros Hf. induction l as [|x l IH]; [apply keeps_ret|]. apply keeps_bind; [apply Hf|by intros _]. Qed.

Lemma keeps_wp {A} (m : M S A) s : keeps I m -> I s -> wp m (fun _ s' => I s') s.
Proof. intros Hm. apply Hm. Qed.
End Keeps.

Create HintDb effects.
#[export] Hint Resolve keeps_ret keeps_unwind keeps_get keeps_gets keeps_bind keeps_when keeps_each : effects.

(** Two continuations that agree where the first part ends. *)
Lemma bind_ext {S A B} (m : M S A) (k k' : A -> M S B) s :
  (forall a s', m s = (Some a, s') -> k a s' = k' a s') -> bind m k s = bind m k' s.
Proof. intros H. unfold bind. destruct (m s) as [[a|] s'] eqn:E; [by apply H|done]. Qed.
