(* ===== verification/Res.v ===== *)
(** * The resource accountant (src/ptc/res.c, src/inc/xtc_res.h)

    [xtc_res] meters six kinds of resources against caps.  The first part
    models every public operation as a function on the accountant's
    record (NULL pointers are [None]); the second part models the lock-free
    acquire and release as interleaved atomic accesses and proves that no
    schedule breaks the cap or loses an update.  Doubles are the
    Prelude's IEEE binary64 values. *)

From S2P Require Import Prelude.

Local Open Scope Z_scope.

(** ** Size-tagged input structs (src/inc/xtc_int.h) *)

(** Little-endian value of a run of bytes. *)
Definition le_word (bs : list Z) : Z := foldr (fun b acc => b + 256 * acc) 0 bs.

Fixpoint le_bytes (n : nat) (z : Z) : list Z :=
  match n with
  | O => []
  | S n' => z mod 256 :: le_bytes n' (z / 256)
  end.

(** [__xtc_sized_in]: the result code and the bytes written to [dst]
    ([None] when [dst] is untouched); [dflt = None] means zeroes. *)
Definition __xtc_sized_in (dflt : option (list Z)) (full : nat) (src : list Z)
    (min : Z) : rc * option (list Z) :=
  let sz := le_word (take 8 src) in
  if decide (sz < 8 \/ sz < min) then (XTC_E_INVAL, None)
  else
    let tail := take (Z.to_nat sz - full) (drop full src) in
    if decide (Z.of_nat full < sz /\ Exists (fun b => b <> 0) tail)
    then (XTC_E_VERSION, None)
    else
      let n := Nat.min (Z.to_nat sz) full in
      let base := match dflt with
                  | Some d => take full d
                  | None => replicate full 0
                  end in
      let dst := take n src ++ drop n base in
      (XTC_OK, Some (le_bytes 8 (Z.of_nat full) ++ drop 8 dst)).

(** ** The accountant's data *)

Record xtc_res_caps := mk_caps {
  caps_size : Z;
  caps_tasks : Z;
  caps_channels : Z;
  caps_chan_slots : Z;
  caps_fds : Z;
  caps_mem_bytes : Z;
  caps_inbox_msgs : Z;
}.

Definition sizeof_caps : nat := 56.

Definition XTC_RES_CAPS_DEFAULT : xtc_res_caps :=
  mk_caps (Z.of_nat sizeof_caps) 100000 4096 1000000 65536 (1024 * 1024 * 1024) 65536.

(** The kinds, as the enum numbers them. *)
Definition XTC_RES_TASKS : Z := 0.
Definition XTC_RES_CHANNELS : Z := 1.
Definition XTC_RES_CHAN_SLOTS : Z := 2.
Definition XTC_RES_FDS : Z := 3.
Definition XTC_RES_MEM_BYTES : Z := 4.
Definition XTC_RES_INBOX_MSGS : Z := 5.
Definition XTC_RES__COUNT : Z := 6.

(** Memory image of the caps struct (size_t, then six int64_t). *)
Definition caps_bytes (c : xtc_res_caps) : list Z :=
  le_bytes 8 (caps_size c) ++ le_bytes 8 (caps_tasks c) ++
  le_bytes 8 (caps_channels c) ++ le_bytes 8 (caps_chan_slots c) ++
  le_bytes 8 (caps_fds c) ++ le_bytes 8 (caps_mem_bytes c) ++
  le_bytes 8 (caps_inbox_msgs c).

Definition caps_field (bs : list Z) (j : nat) : Z :=
  i64 (le_word (take 8 (drop (8 * j) bs))).

Definition caps_of_bytes (bs : list Z) : xtc_res_caps :=
  mk_caps (le_word (take 8 bs)) (caps_field bs 1) (caps_field bs 2)
    (caps_field bs 3) (caps_field bs 4) (caps_field bs 5) (caps_field bs 6).

(** A call of the alert callback: function, kind, used, cap, user pointer. *)
Record alert_event := mk_alert {
  ev_fn : positive; ev_kind : Z; ev_used : Z; ev_cap : Z; ev_user : Z;
}.

Record xtc_res := mk_res {
  res_caps : xtc_res_caps;
  res_used : list Z;
  res_high : list Z;
  res_rejects : list Z;
  res_alert_pct : list double;
  res_alert_armed : list Z;
  res_alert_fn : option positive;
  res_alert_user : Z;
}.


Definition set_used (r : xtc_res) (l : list Z) : xtc_res :=
  mk_res (res_caps r) l (res_high r) (res_rejects r) (res_alert_pct r)
    (res_alert_armed r) (res_alert_fn r) (res_alert_user r).
Definition set_high (r : xtc_res) (l : list Z) : xtc_res :=
  mk_res (res_caps r) (res_used r) l (res_rejects r) (res_alert_pct r)
    (res_alert_armed r) (res_alert_fn r) (res_alert_user r).
Definition set_rejects (r : xtc_res) (l : list Z) : xtc_res :=
  mk_res (res_caps r) (res_used r) (res_high r) l (res_alert_pct r)
    (res_alert_armed r) (res_alert_fn r) (res_alert_user r).
Definition set_armed (r : xtc_res) (l : list Z) : xtc_res :=
  mk_res (res_caps r) (res_used r) (res_high r) (res_rejects r) (res_alert_pct r)
    l (res_alert_fn r) (res_alert_user r).
Definition set_caps (r : xtc_res) (c : xtc_res_caps) : xtc_res :=
  mk_res c (res_used r) (res_high r) (res_rejects r) (res_alert_pct r)
    (res_alert_armed r) (res_alert_fn r) (res_alert_user r).

Definition kidx (k : Z) : nat := Z.to_nat k.
Definition kind_ok (k : Z) : Prop := 0 <= k < XTC_RES__COUNT.
#[global] Instance kind_ok_dec k : Decision (kind_ok k).
Proof. unfold kind_ok. apply _. Defined.

(** ** Operations *)

Definition __cap_for (c : xtc_res_caps) (k : Z) : Z :=
  match k with
  | 0 => caps_tasks c
  | 1 => caps_channels c
  | 2 => caps_chan_slots c
  | 3 => caps_fds c
  | 4 => caps_mem_bytes c
  | 5 => caps_inbox_msgs c
  | _ => 0
  end.

(** [xtc_res_init]; [mem_max] is what [__os_mem_max] reports, [caps] the
    caller's struct as bytes. *)
Definition xtc_res_init (r : option xtc_res) (caps : option (list Z))
    (mem_max : Z) : rc * option xtc_res :=
  match r with
  | None => (XTC_E_INVAL, None)
  | Some r0 =>
      let init c :=
        mk_res c (replicate 6 0) (replicate 6 0) (replicate 6 0)
          (replicate 6 double_zero) (replicate 6 1) None 0 in
      let d := XTC_RES_CAPS_DEFAULT in
      match caps with
      | None =>
          let d' := if decide (0 < mem_max /\ mem_max < caps_mem_bytes d)
                    then mk_caps (caps_size d) (caps_tasks d) (caps_channels d)
                           (caps_chan_slots d) (caps_fds d) mem_max
                           (caps_inbox_msgs d)
                    else d in
          (XTC_OK, Some (init d'))
      | Some src =>
          match __xtc_sized_in (Some (caps_bytes d)) sizeof_caps src 0 with
          | (XTC_OK, Some bs) => (XTC_OK, Some (init (caps_of_bytes bs)))
          | (c, _) => (c, Some r0)
          end
      end
  end.

(** The headroom and cap tests of the acquire loop: the value to install,
    or [None] when the request is rejected. *)
Definition acquire_next (cap cur n : Z) : option Z :=
  if decide (0 < cur /\ INT64_MAX - cur < n) then None
  else
    let next := cur + n in
    if decide (0 < cap /\ cap < next) then None else Some next.

Definition alert_threshold (pct : double) (cap : Z) : Z :=
  double_trunc (double_mul pct (double_of_Z cap)).

(** The threshold alert at the end of an acquire. *)
Definition acquire_alert (r : xtc_res) (k next cap : Z) : xtc_res * list alert_event :=
  match res_alert_fn r with
  | Some fn =>
      let pct := res_alert_pct r !!! kidx k in
      if decide (double_lt double_zero pct = true /\ 0 < cap) then
        if decide (alert_threshold pct cap <= next) then
          if decide (res_alert_armed r !!! kidx k = 1) then
            (set_armed r (<[kidx k := 0]> (res_alert_armed r)),
             [mk_alert fn k next cap (res_alert_user r)])
          else (r, [])
        else (r, [])
      else (r, [])
  | None => (r, [])
  end.

(** The best-effort update of the high-water mark. *)
Definition raise_high (r : xtc_res) (k next : Z) : xtc_res :=
  if decide (res_high r !!! kidx k < next)
  then set_high r (<[kidx k := next]> (res_high r)) else r.

Definition xtc_res_acquire (r : option xtc_res) (k n : Z)
  : rc * option xtc_res * list alert_event :=
  match r with
  | None => (XTC_E_INVAL, None, [])
  | Some r =>
      if decide (n < 0 \/ ~ kind_ok k) then (XTC_E_INVAL, Some r, [])
      else
        let cap := __cap_for (res_caps r) k in
        let cur := res_used r !!! kidx k in
        match acquire_next cap cur n with
        | None =>
            (XTC_E_RESOURCE,
             Some (set_rejects r (<[kidx k := i64 (res_rejects r !!! kidx k + 1)]>
                                    (res_rejects r))), [])
        | Some next =>
            let r1 := set_used r (<[kidx k := next]> (res_used r)) in
            let r2 := raise_high r1 k next in
            let '(r3, evs) := acquire_alert r2 k next cap in
            (XTC_OK, Some r3, evs)
        end
  end.

(** The value a release installs: subtraction floored at zero. *)
Definition release_next (prev n : Z) : Z := if decide (n < prev) then prev - n else 0.

Definition release_rearm (r : xtc_res) (k : Z) : xtc_res :=
  let cap := __cap_for (res_caps r) k in
  let pct := res_alert_pct r !!! kidx k in
  if decide (double_lt double_zero pct = true /\ 0 < cap) then
    if decide (res_used r !!! kidx k < alert_threshold pct cap)
    then set_armed r (<[kidx k := 1]> (res_alert_armed r)) else r
  else r.

Definition xtc_res_release (r : option xtc_res) (k n : Z) : option xtc_res :=
  match r with
  | None => None
  | Some r =>
      if decide (n <= 0 \/ ~ kind_ok k) then Some r
      else
        let prev := res_used r !!! kidx k in
        Some (release_rearm (set_used r (<[kidx k := release_next prev n]> (res_used r))) k)
  end.

Definition res_read (f : xtc_res -> list Z) (r : option xtc_res) (k : Z) : Z :=
  match r with
  | None => 0
  | Some r => if decide (kind_ok k) then f r !!! kidx k else 0
  end.

Definition xtc_res_used := res_read res_used.
Definition xtc_res_high := res_read res_high.
Definition xtc_res_rejects := res_read res_rejects.

Definition xtc_res_set_cap (r : option xtc_res) (k cap : Z) : option xtc_res :=
  match r with
  | None => None
  | Some r =>
      if decide (~ kind_ok k \/ cap < 0) then Some r
      else
        let c := res_caps r in
        let put t ch cs f m i := Some (set_caps r (mk_caps (caps_size c) t ch cs f m i)) in
        match k with
        | 0 => put cap (caps_channels c) (caps_chan_slots c) (caps_fds c) (caps_mem_bytes c) (caps_inbox_msgs c)
        | 1 => put (caps_tasks c) cap (caps_chan_slots c) (caps_fds c) (caps_mem_bytes c) (caps_inbox_msgs c)
        | 2 => put (caps_tasks c) (caps_channels c) cap (caps_fds c) (caps_mem_bytes c) (caps_inbox_msgs c)
        | 3 => put (caps_tasks c) (caps_channels c) (caps_chan_slots c) cap (caps_mem_bytes c) (caps_inbox_msgs c)
        | 4 => put (caps_tasks c) (caps_channels c) (caps_chan_slots c) (caps_fds c) cap (caps_inbox_msgs c)
        | 5 => put (caps_tasks c) (caps_channels c) (caps_chan_slots c) (caps_fds c) (caps_mem_bytes c) cap
        | _ => Some r
        end
  end.

Definition xtc_res_set_alert (r : option xtc_res) (k : Z) (pct : double)
  : rc * option xtc_res :=
  match r with
  | None => (XTC_E_INVAL, None)
  | Some r =>
      if decide (~ kind_ok k) then (XTC_E_INVAL, Some r)
      else if negb (double_lt double_zero pct && double_lt pct double_one)
      then (XTC_E_INVAL, Some r)
      else
        (XTC_OK,
         Some (mk_res (res_caps r) (res_used r) (res_high r) (res_rejects r)
                 (<[kidx k := pct]> (res_alert_pct r))
                 (<[kidx k := 1]> (res_alert_armed r))
                 (res_alert_fn r) (res_alert_user r)))
  end.

Definition xtc_res_set_alert_fn (r : option xtc_res) (fn : option positive)
    (user : Z) : rc * option xtc_res :=
  match r with
  | None => (XTC_E_INVAL, None)
  | Some r =>
      (XTC_OK,
       Some (mk_res (res_caps r) (res_used r) (res_high r) (res_rejects r)
               (res_alert_pct r) (res_alert_armed r) fn user))
  end.

(** ** The lock-free loops as atomic accesses

    One kind [k] with a fixed cap and alert configuration.  [acct] is the
    shared memory of the kind; [acct_taken] and [acct_given] are ghost
    totals of the units the successful compare-exchanges added and
    removed, [acct_alerts] the calls of the alert callback. *)

Record acct := mk_acct {
  acct_used : Z;
  acct_high : Z;
  acct_rejects : Z;
  acct_armed : Z;
  acct_alerts : list alert_event;
  acct_taken : Z;
  acct_given : Z;
}.

(** Program points of [xtc_res_acquire] and [xtc_res_release]. *)
Inductive res_pc : Type :=
  | Idle
  | AcqTop (n : Z)                  (** top of the acquire loop *)
  | AcqReject                       (** about to count a reject *)
  | AcqCas (n cur next : Z)         (** about to compare-exchange [used] *)
  | AcqHigh (next : Z)              (** about to read [high] *)
  | AcqHighCas (next high : Z)      (** about to raise [high] *)
  | AcqAlert (next : Z)             (** about to test the alert *)
  | AcqRet (c : rc)
  | RelTop (n : Z)                  (** about to read [used] *)
  | RelCas (n prev : Z)             (** about to compare-exchange [used] *)
  | RelRearm                        (** about to re-read [used] *)
  | RelStore                        (** about to store [alert_armed] *)
  | RelRet.

Section Concurrent.
Context (k cap : Z) (fn : option positive) (pct : double) (user : Z).

Definition alert_on : Prop := double_lt double_zero pct = true /\ 0 < cap.

Inductive res_step : nat -> acct -> res_pc -> acct -> res_pc -> Prop :=
  (* a thread calls one of the operations with arguments past the guards *)
  | rs_call_acquire i s n : 0 <= n <= INT64_MAX -> res_step i s Idle s (AcqTop n)
  | rs_call_release i s n : 0 < n -> res_step i s Idle s (RelTop n)
  (* acquire *)
  | rs_acq_reject i s n :
      acquire_next cap (acct_used s) n = None ->
      res_step i s (AcqTop n) s AcqReject
  | rs_acq_load i s n next :
      acquire_next cap (acct_used s) n = Some next ->
      res_step i s (AcqTop n) s (AcqCas n (acct_used s) next)
  | rs_acq_count i u h rj ar al tk gv :
      res_step i (mk_acct u h rj ar al tk gv) AcqReject
        (mk_acct u h (i64 (rj + 1)) ar al tk gv) (AcqRet XTC_E_RESOURCE)
  | rs_acq_cas i n cur next h rj ar al tk gv :
      res_step i (mk_acct cur h rj ar al tk gv) (AcqCas n cur next)
        (mk_acct next h rj ar al (tk + n) gv) (AcqHigh next)
  | rs_acq_cas_fail i s n cur next :   (* another thread won, or spurious *)
      res_step i s (AcqCas n cur next) s (AcqTop n)
  | rs_acq_high i s next :
      res_step i s (AcqHigh next) s (AcqHighCas next (acct_high s))
  | rs_acq_high_cas i u high rj ar al tk gv next :
      high < next ->
      res_step i (mk_acct u high rj ar al tk gv) (AcqHighCas next high)
        (mk_acct u next rj ar al tk gv) (AcqAlert next)
  | rs_acq_high_skip i s next high :   (* not higher, or the CAS lost *)
      next <= high \/ acct_high s <> high ->
      res_step i s (AcqHighCas next high) s (AcqAlert next)
  | rs_acq_alert i u h rj al tk gv next f :
      fn = Some f -> alert_on -> alert_threshold pct cap <= next ->
      res_step i (mk_acct u h rj 1 al tk gv) (AcqAlert next)
        (mk_acct u h rj 0 (al ++ [mk_alert f k next cap user]) tk gv)
        (AcqRet XTC_OK)
  | rs_acq_no_alert i s next :
      fn = None \/ ~ alert_on \/ next < alert_threshold pct cap \/ acct_armed s <> 1 ->
      res_step i s (AcqAlert next) s (AcqRet XTC_OK)
  (* release *)
  | rs_rel_load i s n :
      res_step i s (RelTop n) s (RelCas n (acct_used s))
  | rs_rel_cas i n prev h rj ar al tk gv :
      res_step i (mk_acct prev h rj ar al tk gv) (RelCas n prev)
        (mk_acct (release_next prev n) h rj ar al tk (gv + Z.min prev n)) RelRearm
  | rs_rel_cas_fail i s n prev :       (* [prev] is reloaded by the CAS *)
      res_step i s (RelCas n prev) s (RelCas n (acct_used s))
  | rs_rel_rearm i s :
      alert_on -> acct_used s < alert_threshold pct cap ->
      res_step i s RelRearm s RelStore
  | rs_rel_no_rearm i s :
      ~ alert_on \/ alert_threshold pct cap <= acct_used s ->
      res_step i s RelRearm s RelRet
  | rs_rel_store i u h rj ar al tk gv :
      res_step i (mk_acct u h rj ar al tk gv) RelStore
        (mk_acct u h rj 1 al tk gv) RelRet
  (* the call returns and the thread may call again *)
  | rs_acq_ret i s c : res_step i s (AcqRet c) s Idle
  | rs_rel_ret i s : res_step i s RelRet s Idle.

Definition acct_init : acct := mk_acct 0 0 0 1 [] 0 0.

(** A value the counter may hold. *)
Definition in_budget (v : Z) : Prop :=
  0 <= v <= INT64_MAX /\ (0 < cap -> v <= cap).

Definition alert_ok (e : alert_event) : Prop :=
  in_budget (ev_used e) /\ alert_threshold pct cap <= ev_used e /\
  ev_cap e = cap /\ ev_kind e = k.

Definition acct_inv (s : acct) : Prop :=
  in_budget (acct_used s) /\ in_budget (acct_high s) /\
  acct_used s = acct_taken s - acct_given s /\
  Forall alert_ok (acct_alerts s).

(** What a thread in the middle of an operation knows. *)
Definition pc_inv (p : res_pc) : Prop :=
  match p with
  | AcqTop n => 0 <= n <= INT64_MAX
  | AcqCas n cur next => 0 <= n <= INT64_MAX /\ acquire_next cap cur n = Some next
  | AcqHigh next | AcqHighCas next _ | AcqAlert next => in_budget next
  | RelTop n | RelCas n _ => 0 < n
  | _ => True
  end.

Lemma acquire_next_Some cur n next :
  acquire_next cap cur n = Some next ->
  next = cur + n /\ (0 < cur -> n <= INT64_MAX - cur) /\ (0 < cap -> next <= cap).
Proof. unfold acquire_next. intros H. repeat case_decide; simplify_eq; lia. Qed.

Lemma acquire_next_budget cur n next :
  in_budget cur -> 0 <= n <= INT64_MAX ->
  acquire_next cap cur n = Some next -> in_budget next.
Proof. intros [H1 H2] Hn E%acquire_next_Some. unfold in_budget. lia. Qed.

Lemma release_next_budget prev n :
  in_budget prev -> 0 < n -> in_budget (release_next prev n).
Proof. unfold in_budget, release_next. intros [H1 H2] Hn. case_decide; lia. Qed.

Lemma res_step_inv i s p s' p' :
  acct_inv s -> pc_inv p -> res_step i s p s' p' -> acct_inv s' /\ pc_inv p'.
Proof.
  intros (Hu & Hh & Hb & Hal) Hp Hst.
  destruct Hst; simpl in *; unfold acct_inv; simpl; try tauto.
  - (* a successful acquire CAS *)
    destruct Hp as [Hn E]. pose proof (acquire_next_Some _ _ _ E).
    pose proof (acquire_next_budget _ _ _ Hu Hn E). split_and!; auto; lia.
  - (* the alert callback runs *)
    split_and!; auto. apply Forall_app. split; [done|].
    by apply Forall_singleton.
  - (* a successful release CAS *)
    pose proof (release_next_budget _ _ Hu Hp).
    split_and!; auto. unfold release_next. case_decide; lia.
Qed.

Lemma res_pool_inv c :
  forall c0,
  acct_inv c0.1 -> map_Forall (fun _ p => pc_inv p) c0.2 ->
  reachable res_step c0 c -> acct_inv c.1 /\ map_Forall (fun _ p => pc_inv p) c.2.
Proof.
  intros c0 H0 H1 Hr.
  apply (pool_invariant res_step
           (fun s pool => acct_inv s /\ map_Forall (fun _ p => pc_inv p) pool)
           c0 c); [|done|done].
  intros s pool i p s' p' [Hs Hp] Hi Hst.
  destruct (res_step_inv _ _ _ _ _ Hs (Hp _ _ Hi) Hst) as [Hs' Hp'].
  split; [done|]. eapply map_Forall_pool_update; eauto.
Qed.
End Concurrent.

(** ** Invariant and functional behaviour of the operations *)

Definition res_wf (r : xtc_res) : Prop :=
  length (res_used r) = 6%nat /\ length (res_high r) = 6%nat /\
  length (res_rejects r) = 6%nat /\ length (res_alert_pct r) = 6%nat /\
  length (res_alert_armed r) = 6%nat /\
  (forall k, kind_ok k -> 0 <= res_used r !!! kidx k <= INT64_MAX).

(** The request of [n] units fits: under the type's maximum and the cap. *)
Definition fits (r : xtc_res) (k n : Z) : Prop :=
  res_used r !!! kidx k + n <= INT64_MAX /\
  (0 < __cap_for (res_caps r) k ->
   res_used r !!! kidx k + n <= __cap_for (res_caps r) k).
#[global] Instance fits_dec r k n : Decision (fits r k n).
Proof. unfold fits. apply _. Defined.

Lemma kind_update (l : list Z) k j v :
  length l = 6%nat -> kind_ok k -> kind_ok j ->
  <[kidx k := v]> l !!! kidx j = if decide (j = k) then v else l !!! kidx j.
Proof.
  unfold kind_ok, kidx, XTC_RES__COUNT. intros Hl Hk Hj.
  rewrite list_lookup_total_insert, Hl. repeat case_decide; try lia; done.
Qed.

Lemma acquire_next_fits r k n :
  res_wf r -> kind_ok k -> 0 <= n <= INT64_MAX ->
  acquire_next (__cap_for (res_caps r) k) (res_used r !!! kidx k) n =
    if decide (fits r k n) then Some (res_used r !!! kidx k + n) else None.
Proof.
  intros (_ & _ & _ & _ & _ & Hu) Hk Hn. specialize (Hu k Hk).
  unfold acquire_next, fits. repeat case_decide; try done; exfalso; lia.
Qed.

Lemma acquire_alert_frame r k next cap r' evs :
  acquire_alert r k next cap = (r', evs) ->
  res_used r' = res_used r /\ res_high r' = res_high r /\
  res_rejects r' = res_rejects r /\ res_caps r' = res_caps r /\
  res_alert_pct r' = res_alert_pct r /\ res_alert_fn r' = res_alert_fn r /\
  length (res_alert_armed r') = length (res_alert_armed r).
Proof.
  unfold acquire_alert. intros H.
  repeat (case_match || case_decide); simplify_eq; simpl; rewrite ?length_insert; done.
Qed.

Lemma release_rearm_frame r k :
  res_used (release_rearm r k) = res_used r /\
  res_high (release_rearm r k) = res_high r /\
  res_rejects (release_rearm r k) = res_rejects r /\
  res_caps (release_rearm r k) = res_caps r /\
  res_alert_pct (release_rearm r k) = res_alert_pct r /\
  length (res_alert_armed (release_rearm r k)) = length (res_alert_armed r).
Proof. unfold release_rearm. repeat case_decide; simpl; rewrite ?length_insert; done. Qed.

Lemma kidx_lt k : kind_ok k -> (kidx k < 6)%nat.
Proof. unfold kind_ok, kidx, XTC_RES__COUNT. lia. Qed.

Lemma wf_set_used r k v :
  res_wf r -> kind_ok k -> 0 <= v <= INT64_MAX ->
  res_wf (set_used r (<[kidx k := v]> (res_used r))).
Proof.
  intros (?&?&?&?&?&Hu) Hk Hv. unfold res_wf. simpl. rewrite length_insert.
  split_and!; auto. intros j Hj. rewrite kind_update by done. case_decide; auto.
Qed.

Lemma raise_high_spec r k v :
  res_wf r -> kind_ok k ->
  res_wf (raise_high r k v) /\ res_caps (raise_high r k v) = res_caps r /\
  res_used (raise_high r k v) = res_used r /\
  res_rejects (raise_high r k v) = res_rejects r /\
  (forall j, kind_ok j -> res_high (raise_high r k v) !!! kidx j =
     if decide (j = k) then Z.max (res_high r !!! kidx j) v
     else res_high r !!! kidx j).
Proof.
  intros Hwf Hk. pose proof Hwf as (?&?&?&?&?&?).
  unfold raise_high. case_decide as Dh; split_and!; try done.
  - unfold res_wf. simpl. rewrite length_insert. by split_and!.
  - intros j Hj. simpl. rewrite kind_update by done. case_decide; [subst; lia|done].
  - intros j Hj. case_decide; [subst; lia|done].
Qed.

Lemma wf_acquire_alert r k next cap r' evs :
  res_wf r -> acquire_alert r k next cap = (r', evs) -> res_wf r'.
Proof.
  intros (?&?&?&?&?&?) E%acquire_alert_frame.
  destruct E as (F1 & F2 & F3 & F4 & F5 & F6 & F7).
  unfold res_wf. rewrite F1, F2, F3, F5, F7. by split_and!.
Qed.

Lemma acquire_spec_aux r k n :
  res_wf r -> kind_ok k -> 0 <= n <= INT64_MAX ->
  exists r' evs,
    xtc_res_acquire (Some r) k n =
      (if decide (fits r k n) then XTC_OK else XTC_E_RESOURCE, Some r', evs) /\
    res_wf r' /\ res_caps r' = res_caps r /\
    (forall j, kind_ok j ->
       res_used r' !!! kidx j =
         (if decide (j = k /\ fits r k n) then res_used r !!! kidx j + n
          else res_used r !!! kidx j) /\
       res_high r' !!! kidx j =
         (if decide (j = k /\ fits r k n)
          then Z.max (res_high r !!! kidx j) (res_used r !!! kidx j + n)
          else res_high r !!! kidx j) /\
       res_rejects r' !!! kidx j =
         (if decide (j = k /\ ~ fits r k n) then i64 (res_rejects r !!! kidx j + 1)
          else res_rejects r !!! kidx j)).
Proof.
  intros Hwf Hk Hn. pose proof Hwf as (L1 & L2 & L3 & L4 & L5 & Hu).
  unfold xtc_res_acquire. rewrite decide_False by (intros [?|?]; [lia|done]).
  rewrite acquire_next_fits by done.
  destruct (decide (fits r k n)) as [Hf|Hf].
  - set (v := res_used r !!! kidx k + n).
    assert (0 <= v <= INT64_MAX) as Hv by (specialize (Hu k Hk); destruct Hf; lia).
    destruct (raise_high_spec _ k v (wf_set_used r k v Hwf Hk Hv) Hk)
      as (W & C & U & R & H).
    destruct (acquire_alert _ k v _) as [r3 evs] eqn:E.
    pose proof (wf_acquire_alert _ _ _ _ _ _ W E) as W3.
    apply acquire_alert_frame in E as (F1 & F2 & F3 & F4 & _).
    exists r3, evs. split_and!; [done|done|by rewrite F4, C|].
    intros j Hj. rewrite F1, F2, F3, U, R, (H j Hj). simpl.
    rewrite kind_update by done. repeat case_decide; subst; naive_solver.
  - eexists _, []. split_and!; [done| |done|].
    + unfold res_wf. simpl. rewrite length_insert. by split_and!.
    + intros j Hj. simpl. rewrite kind_update by done.
      repeat case_decide; subst; naive_solver.
Qed.

(** On valid arguments [xtc_res_acquire] succeeds exactly when the
    request fits under both INT64_MAX and the cap.  Success charges [n] to
    that kind only, raises its high-water mark to the maximum and leaves
    the reject counters; refusal changes nothing but that kind's reject
    counter.  The invariant is preserved on both branches. *)
Theorem acquire_spec r k n :
  res_wf r -> kind_ok k -> 0 <= n <= INT64_MAX ->
  exists r' evs,
    xtc_res_acquire (Some r) k n =
      (if decide (fits r k n) then XTC_OK else XTC_E_RESOURCE, Some r', evs) /\
    res_wf r' /\ res_caps r' = res_caps r /\
    (forall j, kind_ok j ->
       res_used r' !!! kidx j =
         (if decide (j = k /\ fits r k n) then res_used r !!! kidx j + n
          else res_used r !!! kidx j) /\
       res_high r' !!! kidx j =
         (if decide (j = k /\ fits r k n)
          then Z.max (res_high r !!! kidx j) (res_used r !!! kidx j + n)
          else res_high r !!! kidx j) /\
       res_rejects r' !!! kidx j =
         (if decide (j = k /\ ~ fits r k n) then i64 (res_rejects r !!! kidx j + 1)
          else res_rejects r !!! kidx j)).
Proof. apply acquire_spec_aux. Qed.

(** C36: whatever the interleaving of any number of threads' acquires and
    releases on one kind (weak compare-exchanges may fail spuriously), the
    counter stays within [0, INT64_MAX] and under a positive cap, the
    high-water mark does too, no update is lost (the counter is exactly
    what the successful exchanges added minus what they removed), and every
    alert was raised at or above the threshold. *)
Theorem concurrent_budget k cap fn pct user n s' pool' :
  reachable (res_step k cap fn pct user) (acct_init, idle_pool Idle n) (s', pool') ->
  in_budget cap (acct_used s') /\ in_budget cap (acct_high s') /\
  acct_used s' = acct_taken s' - acct_given s' /\
  Forall (alert_ok k cap pct) (acct_alerts s').
Proof.
  intros Hr. apply (res_pool_inv k cap fn pct user) in Hr as [Hi _]; [done| |].
  - unfold acct_inv, in_budget, acct_init, INT64_MAX. simpl. split_and!; auto; lia.
  - by apply idle_pool_Forall.
Qed.

(** Two threads ask for 2 units each under a cap of 3: the loser's
    compare-exchange fails, it reloads and is refused. *)
Lemma concurrent_budget_witness :
  exists s' pool',
    reachable (res_step 2 3 None double_zero 0) (acct_init, idle_pool Idle 2) (s', pool') /\
    pool' !! 0%nat = Some (AcqRet XTC_E_RESOURCE) /\
    acct_used s' = 2 /\ in_budget 3 (acct_used s').
Proof.
  assert (exists s' pool',
    reachable (res_step 2 3 None double_zero 0) (acct_init, idle_pool Idle 2) (s', pool') /\
    pool' !! 0%nat = Some (AcqRet XTC_E_RESOURCE) /\ acct_used s' = 2)
    as (s' & pool' & Hr & Hp & Hu).
  { eexists _, _. split.
    { pool_run 0%nat by (apply (rs_call_acquire _ _ _ _ _ _ _ 2); vm_compute; split; congruence).
      pool_run 1%nat by (apply (rs_call_acquire _ _ _ _ _ _ _ 2); vm_compute; split; congruence).
      pool_run 0%nat by (eapply rs_acq_load; reflexivity).
      pool_run 1%nat by (eapply rs_acq_load; reflexivity).
      pool_run 1%nat by (apply rs_acq_cas).
      pool_run 0%nat by (apply rs_acq_cas_fail).
      pool_run 0%nat by (apply rs_acq_reject; reflexivity).
      pool_run 0%nat by (apply rs_acq_count).
      apply rtc_refl. }
    split; reflexivity. }
  exists s', pool'. split_and!; [done..|].
  exact (proj1 (concurrent_budget _ _ _ _ _ _ _ _ Hr)).
Defined.

(** A freshly initialised accountant with the default caps. *)
Definition res0 : xtc_res :=
  mk_res XTC_RES_CAPS_DEFAULT (replicate 6 0) (replicate 6 0) (replicate 6 0)
    (replicate 6 double_zero) (replicate 6 1) None 0.

Lemma wf_fresh c : res_wf (mk_res c (replicate 6 0) (replicate 6 0) (replicate 6 0)
    (replicate 6 double_zero) (replicate 6 1) None 0).
Proof.
  unfold res_wf. split_and!; try done. intros k Hk. cbn [res_used].
  rewrite lookup_total_replicate_2 by (by apply kidx_lt). unfold INT64_MAX. lia.
Qed.

Lemma acquire_spec_witness :
  kind_ok XTC_RES_CHANNELS /\
  exists r' evs,
    xtc_res_acquire (Some res0) XTC_RES_CHANNELS 4096 = (XTC_OK, Some r', evs) /\
    res_wf r' /\ res_used r' !!! 1%nat = 4096.
Proof.
  split; [done|].
  destruct (acquire_spec res0 XTC_RES_CHANNELS 4096 (wf_fresh _) ltac:(done)
              ltac:(vm_compute; split; congruence)) as (r' & evs & E & W & _ & H).
  rewrite decide_True in E by (vm_compute; split; congruence).
  exists r', evs. split_and!; [done|done|].
  destruct (H XTC_RES_CHANNELS ltac:(done)) as (Hu & _).
  rewrite decide_True in Hu by (vm_compute; split; [done|split; congruence]).
  exact Hu.
Defined.

Lemma release_spec r k n :
  res_wf r -> kind_ok k -> 0 < n ->
  exists r', xtc_res_release (Some r) k n = Some r' /\ res_wf r' /\
    res_caps r' = res_caps r /\ res_high r' = res_high r /\
    res_rejects r' = res_rejects r /\
    (forall j, kind_ok j -> res_used r' !!! kidx j =
       if decide (j = k) then Z.max 0 (res_used r !!! kidx j - n)
       else res_used r !!! kidx j).
Proof.
  intros Hwf Hk Hn. unfold xtc_res_release.
  rewrite decide_False by (intros [?|?]; [lia|done]).
  set (v := release_next _ n).
  assert (v = Z.max 0 (res_used r !!! kidx k - n)) as Hv.
  { unfold v, release_next. case_decide; lia. }
  assert (res_wf (set_used r (<[kidx k := v]> (res_used r)))) as W.
  { apply wf_set_used; [done..|]. pose proof Hwf as (_&_&_&_&_&Hu).
    specialize (Hu k Hk). lia. }
  destruct (release_rearm_frame (set_used r (<[kidx k := v]> (res_used r))) k)
    as (F1 & F2 & F3 & F4 & F5 & F6).
  eexists. split; [done|]. destruct W as (?&?&?&?&?&?).
  split_and!; try done.
  - unfold res_wf. rewrite F1, F2, F3, F5, F6. by split_and!.
  - intros j Hj. rewrite F1. simpl. rewrite kind_update by (try done; apply Hwf).
    case_decide; [by subst|done].
Qed.

(** Charging [n > 0] units and giving them back restores every counter:
    acquire then release of the same amount is the identity on [used] of
    all six kinds, whatever other kinds hold. *)
Theorem acquire_release_roundtrip r k n r1 evs :
  res_wf r -> kind_ok k -> 0 < n <= INT64_MAX ->
  xtc_res_acquire (Some r) k n = (XTC_OK, Some r1, evs) ->
  exists r2, xtc_res_release (Some r1) k n = Some r2 /\ res_wf r2 /\
    forall j, kind_ok j -> res_used r2 !!! kidx j = res_used r !!! kidx j.
Proof.
  intros Hwf Hk Hn E.
  destruct (acquire_spec_aux r k n Hwf Hk) as (r' & evs' & E' & W1 & _ & H1); [lia|].
  rewrite E in E'. case_decide as Hf; [|done]. simplify_eq.
  destruct (release_spec r' k n W1 Hk) as (r2 & -> & W2 & _ & _ & _ & H2); [lia|].
  exists r2. split_and!; [done..|]. intros j Hj. rewrite (H2 j Hj).
  destruct (H1 j Hj) as [-> _]. destruct Hwf as (_&_&_&_&_&Hu). specialize (Hu k Hk).
  repeat case_decide; subst; try naive_solver lia.
Qed.

Lemma acquire_release_roundtrip_witness :
  exists r1 evs r2,
    xtc_res_acquire (Some res0) XTC_RES_FDS 7 = (XTC_OK, Some r1, evs) /\
    xtc_res_release (Some r1) XTC_RES_FDS 7 = Some r2 /\ res_wf r2.
Proof.
  pose (out := xtc_res_acquire (Some res0) XTC_RES_FDS 7).
  destruct (acquire_release_roundtrip res0 XTC_RES_FDS 7 (default res0 out.1.2) out.2
              (wf_fresh _) ltac:(done) ltac:(vm_compute; split; congruence)
              ltac:(vm_compute; reflexivity)) as (r2 & E & W & _).
  exists (default res0 out.1.2), out.2, r2. split_and!; [vm_compute; reflexivity|exact E|exact W].
Defined.

(** The memory of kind [k] in an accountant, with the ghost fields. *)
Definition acct_of (r : xtc_res) (k : Z) (al : list alert_event) (tk gv : Z) : acct :=
  mk_acct (res_used r !!! kidx k) (res_high r !!! kidx k) (res_rejects r !!! kidx k)
    (res_alert_armed r !!! kidx k) al tk gv.

Definition kind_step (r : xtc_res) (k : Z) :=
  res_step k (__cap_for (res_caps r) k) (res_alert_fn r)
    (res_alert_pct r !!! kidx k) (res_alert_user r).

Lemma kind_update_eq (l : list Z) k v :
  length l = 6%nat -> kind_ok k -> <[kidx k := v]> l !!! kidx k = v.
Proof. intros. rewrite kind_update by done. by rewrite decide_True. Qed.

Lemma raise_high_run r k v al tk gv i :
  res_wf r -> kind_ok k ->
  reachable (kind_step r k) (acct_of r k al tk gv, {[i := AcqHigh v]})
    (acct_of (raise_high r k v) k al tk gv, {[i := AcqAlert v]}).
Proof.
  intros Hwf Hk. destruct Hwf as (?&L&?&?&?&?).
  eapply solo_step; [apply rs_acq_high|]. apply solo_last.
  unfold raise_high, acct_of, kind_step. case_decide.
  - simpl. rewrite kind_update_eq by done. by apply rs_acq_high_cas.
  - apply rs_acq_high_skip. left. simpl. lia.
Qed.

Lemma acquire_alert_run r k v al tk gv i r' evs :
  res_wf r -> kind_ok k ->
  acquire_alert r k v (__cap_for (res_caps r) k) = (r', evs) ->
  reachable (kind_step r k) (acct_of r k al tk gv, {[i := AcqAlert v]})
    (acct_of r' k (al ++ evs) tk gv, {[i := AcqRet XTC_OK]}).
Proof.
  intros Hwf Hk E. destruct Hwf as (?&?&?&?&L&?). unfold acquire_alert in E.
  apply solo_last. unfold acct_of, kind_step.
  repeat (case_match || case_decide); simplify_eq; rewrite ?app_nil_r;
    try (apply rs_acq_no_alert; unfold alert_on; simpl; naive_solver lia).
  simpl. rewrite kind_update_eq by done.
  match goal with H : res_alert_armed r !!! _ = 1 |- _ => rewrite H end.
  by apply rs_acq_alert.
Qed.

(** The sequential function is one of the behaviours of the
    interleaving model: a thread that runs alone from the top of the loop
    takes the accountant from the caller's state to exactly the state,
    result code and alert calls that [xtc_res_acquire] computes. *)
Theorem acquire_is_a_run r k n al tk gv i c r' evs :
  res_wf r -> kind_ok k -> 0 <= n <= INT64_MAX ->
  xtc_res_acquire (Some r) k n = (c, Some r', evs) ->
  reachable (kind_step r k) (acct_of r k al tk gv, {[i := AcqTop n]})
    (acct_of r' k (al ++ evs) (tk + (if decide (c = XTC_OK) then n else 0)) gv,
     {[i := AcqRet c]}).
Proof.
  intros Hwf Hk Hn E. unfold xtc_res_acquire in E.
  rewrite decide_False in E by (intros [?|?]; [lia|done]).
  destruct (acquire_next _ _ n) as [v|] eqn:En.
  - destruct (acquire_alert _ k v _) as [r3 evs'] eqn:Ea. simplify_eq. simpl.
    pose proof Hwf as (L&_&_&_&_&Hu).
    assert (0 <= v <= INT64_MAX) as Hv.
    { rewrite acquire_next_fits in En by done. specialize (Hu k Hk).
      case_decide as Hf; [|done]. destruct Hf. simplify_eq. lia. }
    pose proof (wf_set_used r k v Hwf Hk Hv) as W1.
    pose proof (raise_high_spec _ k v W1 Hk) as (W2 & C2 & _).
    eapply solo_step; [by apply rs_acq_load|].
    eapply solo_step; [apply rs_acq_cas|].
    pose proof (raise_high_run _ k v al (tk + n) gv i W1 Hk) as R1.
    unfold acct_of at 1 in R1. simpl in R1. rewrite kind_update_eq in R1 by done.
    etransitivity; [exact R1|].
    simpl in C2. rewrite <- C2 in Ea. pose proof (acquire_alert_run _ k v al (tk + n) gv i _ _ W2 Hk Ea) as R2.
    unfold kind_step, raise_high in R2 |- *. case_decide; exact R2.
  - simplify_eq. simpl. rewrite app_nil_r, Z.add_0_r.
    eapply solo_step; [by apply rs_acq_reject|]. apply solo_last.
    unfold acct_of. simpl. rewrite kind_update_eq by (try done; apply Hwf).
    apply rs_acq_count.
Qed.

Lemma acquire_is_a_run_witness :
  exists c r' evs,
    xtc_res_acquire (Some res0) XTC_RES_CHANNELS 4097 = (c, Some r', evs) /\
    reachable (kind_step res0 XTC_RES_CHANNELS)
      (acct_of res0 XTC_RES_CHANNELS [] 0 0, {[3%nat := AcqTop 4097]})
      (acct_of r' XTC_RES_CHANNELS evs 0 0, {[3%nat := AcqRet c]}) /\
    c = XTC_E_RESOURCE.
Proof.
  pose (out := xtc_res_acquire (Some res0) XTC_RES_CHANNELS 4097).
  exists out.1.1, (default res0 out.1.2), out.2.
  split_and!; [vm_compute; reflexivity| |vm_compute; reflexivity].
  exact (acquire_is_a_run res0 XTC_RES_CHANNELS 4097 [] 0 0 3%nat out.1.1
           (default res0 out.1.2) out.2 (wf_fresh _) ltac:(done)
           ltac:(vm_compute; split; congruence) ltac:(vm_compute; reflexivity)).
Defined.

(** *** Caller structs of an older size *)

Lemma length_le_bytes n z : length (le_bytes n z) = n.
Proof. revert z. induction n as [|n IH]; intros z; simpl; [done|]. by rewrite IH. Qed.

(** Reading word [j] of a struct whose first [n] bytes came from [l]. *)
Lemma word_of_prefix {A} (l l' : list A) (n j : nat) :
  (8 * j + 8 <= n)%nat -> (n <= length l)%nat ->
  take 8 (drop (8 * j) (take n l ++ l')) = take 8 (drop (8 * j) l).
Proof.
  intros H1 H2. rewrite !take_drop_commute, take_app_le by (rewrite length_take; lia).
  rewrite take_take. do 2 f_equal. lia.
Qed.

Lemma word_of_suffix {A} (l d : list A) (n j : nat) :
  (n <= 8 * j)%nat -> (n <= length l)%nat ->
  take 8 (drop (8 * j) (take n l ++ drop n d)) = take 8 (drop (8 * j) d).
Proof.
  intros H1 H2. rewrite drop_app_ge by (rewrite length_take; lia).
  rewrite length_take, drop_drop. do 2 f_equal. lia.
Qed.

Lemma word_past_size {A} (h l : list A) (j : nat) :
  (1 <= j)%nat -> length h = 8%nat ->
  take 8 (drop (8 * j) (h ++ drop 8 l)) = take 8 (drop (8 * j) l).
Proof.
  intros H1 H2. rewrite drop_app_ge by lia. rewrite drop_drop, H2. do 2 f_equal. lia.
Qed.

(** The bytes [__xtc_sized_in] installs for a caller whose struct ends after
    [m] eight-byte words: its own words, then the library's defaults. *)
Lemma sized_in_words src (m j : nat) :
  (1 <= m <= 7)%nat -> (8 * m <= length src)%nat ->
  le_word (take 8 src) = 8 * Z.of_nat m ->
  exists bs,
    __xtc_sized_in (Some (caps_bytes XTC_RES_CAPS_DEFAULT)) sizeof_caps src 0 = (XTC_OK, Some bs) /\
    ((1 <= j)%nat ->
     caps_field bs j = if decide (j < m)%nat then caps_field src j
                       else caps_field (caps_bytes XTC_RES_CAPS_DEFAULT) j).
Proof.
  intros Hm Hl Hsz. unfold __xtc_sized_in. rewrite Hsz, decide_False by lia.
  rewrite decide_False by (unfold sizeof_caps; lia).
  replace (Z.to_nat (8 * Z.of_nat m)) with (8 * m)%nat by lia.
  replace (Nat.min (8 * m) sizeof_caps) with (8 * m)%nat by (unfold sizeof_caps; lia).
  eexists. split; [reflexivity|]. intros Hj. unfold caps_field at 1.
  rewrite word_past_size by (try lia; by rewrite length_le_bytes).
  rewrite (take_ge (caps_bytes _)) by done.
  case_decide; [rewrite word_of_prefix by lia|rewrite word_of_suffix by lia]; done.
Qed.

Lemma kind_cases k : kind_ok k -> k = 0 \/ k = 1 \/ k = 2 \/ k = 3 \/ k = 4 \/ k = 5.
Proof. unfold kind_ok, XTC_RES__COUNT. lia. Qed.

Lemma cap_for_of_bytes bs k :
  kind_ok k -> __cap_for (caps_of_bytes bs) k = caps_field bs (Z.to_nat (k + 1)).
Proof. intros Hk%kind_cases. by destruct_or! Hk; subst k. Qed.

Lemma cap_for_default k :
  kind_ok k ->
  caps_field (caps_bytes XTC_RES_CAPS_DEFAULT) (Z.to_nat (k + 1)) =
  __cap_for XTC_RES_CAPS_DEFAULT k.
Proof. intros Hk%kind_cases. by destruct_or! Hk; subst k; vm_compute. Qed.

(** [xtc_res_init] with a caps struct that ends after [m] words (an
    older caller, [1 <= m <= 7] counting the size word) succeeds, takes
    each cap inside the struct from the caller and every later cap from
    the library defaults, and yields a well-formed empty accountant. *)
Theorem init_sized_caps r0 src (m : nat) mem_max :
  (1 <= m <= 7)%nat -> (8 * m <= length src)%nat ->
  le_word (take 8 src) = 8 * Z.of_nat m ->
  exists r, xtc_res_init (Some r0) (Some src) mem_max = (XTC_OK, Some r) /\ res_wf r /\
    forall k, kind_ok k ->
      res_used r !!! kidx k = 0 /\
      __cap_for (res_caps r) k =
        if decide (k + 1 < Z.of_nat m) then caps_field src (Z.to_nat (k + 1))
        else __cap_for XTC_RES_CAPS_DEFAULT k.
Proof.
  intros Hm Hl Hsz.
  assert (forall j, (1 <= j)%nat -> exists bs, _) as HF
    by (intros j Hj; exact (sized_in_words src m j Hm Hl Hsz)).
  destruct (HF 1%nat ltac:(lia)) as (bs & E & _). unfold xtc_res_init. rewrite E.
  eexists. split_and!; [done|apply wf_fresh|]. intros k Hk. split.
  { cbn [res_used]. apply lookup_total_replicate_2, kidx_lt, Hk. }
  destruct (HF (Z.to_nat (k + 1)) ltac:(unfold kind_ok in Hk; lia)) as (bs' & E' & HB).
  rewrite E in E'. simplify_eq. simpl.
  rewrite cap_for_of_bytes, HB by (unfold kind_ok in Hk; done || lia).
  rewrite <- (cap_for_default k Hk).
  unfold kind_ok in Hk. repeat case_decide; try lia; done.
Qed.

Lemma init_sized_caps_witness :
  exists r, xtc_res_init (Some res0) (Some (le_bytes 8 24 ++ le_bytes 8 5 ++ le_bytes 8 9)) 0
              = (XTC_OK, Some r) /\
    __cap_for (res_caps r) XTC_RES_CHANNELS = 9 /\
    __cap_for (res_caps r) XTC_RES_FDS = 65536.
Proof.
  destruct (init_sized_caps res0 (le_bytes 8 24 ++ le_bytes 8 5 ++ le_bytes 8 9) 3 0
              ltac:(lia) ltac:(vm_compute; lia) ltac:(vm_compute; reflexivity))
    as (r & E & _ & H).
  exists r. split_and!; [exact E| |].
  - rewrite (proj2 (H XTC_RES_CHANNELS ltac:(done))). vm_compute. reflexivity.
  - rewrite (proj2 (H XTC_RES_FDS ltac:(done))). vm_compute. reflexivity.
Defined.
