(* ===== verification/Timer.v ===== *)
(** * The timer heap of the event loop (src/evt/timer.c)

    A binary min-heap of (deadline, node) slots in an array, nodes reached
    through pointers ([positive]) in the loop's store.  A sift moves a hole
    instead of swapping and keeps each node's [heap_idx] in step; a cancel
    on the loop's thread removes the node, a cancel elsewhere only marks it
    and the owner drops it later.  Every node has up to two owners (the
    heap and a handle) counted in [refs]; the last release frees it. *)

From S2P Require Import Prelude.

Local Open Scope Z_scope.

(** ** Data *)

Definition XTC_TIMER_FIRED : Z := 1.
Definition XTC_TIMER_CANCELLED : Z := 2.

Record xtc_timer_slot := mk_slot { sl_deadline : Z; sl_t : positive }.
#[global] Instance slot_inhabited : Inhabited xtc_timer_slot :=
  populate (mk_slot 0 1%positive).

(** [struct xtc_timer]; the callback fields do not affect the heap. *)
Record xtc_timer := mk_timer {
  t_deadline : Z;
  t_cb : Z;
  t_user : Z;
  t_heap_idx : Z;
  t_cancelled : Z;
  t_fired : Z;
  t_from_slab : bool;
  t_refs : Z;
}.

Definition with_idx (i : Z) (t : xtc_timer) : xtc_timer :=
  mk_timer (t_deadline t) (t_cb t) (t_user t) i (t_cancelled t) (t_fired t)
    (t_from_slab t) (t_refs t).
Definition with_fired (f : Z) (t : xtc_timer) : xtc_timer :=
  mk_timer (t_deadline t) (t_cb t) (t_user t) (t_heap_idx t) (t_cancelled t) f
    (t_from_slab t) (t_refs t).
Definition with_cancelled (c : Z) (t : xtc_timer) : xtc_timer :=
  mk_timer (t_deadline t) (t_cb t) (t_user t) (t_heap_idx t) c (t_fired t)
    (t_from_slab t) (t_refs t).
Definition with_deadline (d : Z) (t : xtc_timer) : xtc_timer :=
  mk_timer d (t_cb t) (t_user t) (t_heap_idx t) (t_cancelled t) (t_fired t)
    (t_from_slab t) (t_refs t).
Definition with_refs (r : Z) (t : xtc_timer) : xtc_timer :=
  mk_timer (t_deadline t) (t_cb t) (t_user t) (t_heap_idx t) (t_cancelled t)
    (t_fired t) (t_from_slab t) r.

(** The live nodes, by address. *)
Abbreviation store := (gmap positive xtc_timer).

(** The loop's timer fields.  [timers] is the whole array, of length
    [cap_timers]; its first [n_timers] cells are the heap. *)
Record xtc_loop := mk_loop {
  timers : list xtc_timer_slot;
  n_timers : nat;
  cap_timers : nat;
  timer_slab : bool;
  nodes : store;
}.

Definition set_heap (L : xtc_loop) (h : list xtc_timer_slot) (n : nat) (ns : store) : xtc_loop :=
  mk_loop h n (cap_timers L) (timer_slab L) ns.
Definition set_nodes (L : xtc_loop) (ns : store) : xtc_loop :=
  mk_loop (timers L) (n_timers L) (cap_timers L) (timer_slab L) ns.

(** [p->heap_idx = i] *)
Definition set_idx (ns : store) (p : positive) (i : Z) : store := alter (with_idx i) p ns.

(** ** Heap manipulation *)

Definition parent (i : nat) : nat := ((i - 1) / 2)%nat.

(** Store slot [x] in the hole at [i]. *)
Definition hole_fill (h : list xtc_timer_slot) (ns : store) (i : nat) (x : xtc_timer_slot)
  : list xtc_timer_slot * store :=
  (<[i := x]> h, set_idx ns (sl_t x) (Z.of_nat i)).

(** Move the slot at [c] into the hole at [i]. *)
Definition hole_move (h : list xtc_timer_slot) (ns : store) (i c : nat)
  : list xtc_timer_slot * store :=
  (<[i := h !!! c]> h, set_idx ns (sl_t (h !!! c)) (Z.of_nat i)).

(** [__sift_up]; the hole's index bounds the iterations. *)
Fixpoint sift_up_loop (fuel : nat) (h : list xtc_timer_slot) (ns : store) (i : nat)
    (x : xtc_timer_slot) : list xtc_timer_slot * store :=
  match fuel with
  | O => hole_fill h ns i x
  | S fuel' =>
      if decide (0 < i)%nat then
        if decide (sl_deadline (h !!! parent i) <= sl_deadline x)
        then hole_fill h ns i x
        else
          let '(h', ns') := hole_move h ns i (parent i) in
          sift_up_loop fuel' h' ns' (parent i) x
      else hole_fill h ns i x
  end.
Definition __sift_up (h : list xtc_timer_slot) (ns : store) (i : nat) (x : xtc_timer_slot) :=
  sift_up_loop i h ns i x.

(** The smaller child of [i] below [n], the left one on a tie. *)
Definition smaller_child (h : list xtc_timer_slot) (n i : nat) : nat :=
  let l := (2 * i + 1)%nat in
  let r := (l + 1)%nat in
  if decide ((r < n)%nat /\ sl_deadline (h !!! r) < sl_deadline (h !!! l)) then r else l.

(** [__sift_down]; the heap size bounds the iterations. *)
Fixpoint sift_down_loop (fuel : nat) (h : list xtc_timer_slot) (ns : store) (n i : nat)
    (x : xtc_timer_slot) : list xtc_timer_slot * store :=
  match fuel with
  | O => hole_fill h ns i x
  | S fuel' =>
      if decide (n <= 2 * i + 1)%nat then hole_fill h ns i x
      else
        let c := smaller_child h n i in
        if decide (sl_deadline x <= sl_deadline (h !!! c))
        then hole_fill h ns i x
        else
          let '(h', ns') := hole_move h ns i c in
          sift_down_loop fuel' h' ns' n c x
  end.
Definition __sift_down (h : list xtc_timer_slot) (ns : store) (n i : nat) (x : xtc_timer_slot) :=
  sift_down_loop n h ns n i x.

(** [__grow]; [ok] is the outcome of the reallocation, whose new cells hold
    arbitrary slots. *)
Definition __grow (L : xtc_loop) (ok : rc) : rc * xtc_loop :=
  let new_cap := if decide (cap_timers L = 0%nat) then 8%nat else (cap_timers L * 2)%nat in
  match ok with
  | XTC_OK =>
      (XTC_OK,
       mk_loop (timers L ++ replicate (new_cap - cap_timers L) inhabitant)
         (n_timers L) new_cap (timer_slab L) (nodes L))
  | e => (e, L)
  end.

(** Drop one reference; the last one frees the node. *)
Definition __xtc_timer_park_release (ns : store) (t : option positive) : store :=
  match t with
  | None => ns
  | Some p =>
      match ns !! p with
      | None => ns
      | Some n =>
          if decide (t_refs n = 0) then ns
          else if decide (t_refs n = 1) then delete p ns
          else <[p := with_refs (t_refs n - 1) n]> ns
      end
  end.

Definition fired_of (ns : store) (p : positive) : Z :=
  match ns !! p with Some n => t_fired n | None => 0 end.

Definition __is_cancelled (ns : store) (p : positive) : bool :=
  bool_decide (fired_of ns p = XTC_TIMER_CANCELLED).

(** Remove the node at heap index [i]; the caller drops the reference. *)
Definition __heap_remove_at (L : xtc_loop) (i : nat) : xtc_loop :=
  let h := timers L in
  let last := (n_timers L - 1)%nat in
  let ns := set_idx (nodes L) (sl_t (h !!! i)) (-1) in
  if decide (i = last) then set_heap L h last ns
  else
    let '(h', ns') :=
      if decide ((0 < i)%nat /\ sl_deadline (h !!! last) < sl_deadline (h !!! parent i))
      then __sift_up h ns i (h !!! last)
      else __sift_down h ns last i (h !!! last) in
    set_heap L h' last ns'.

(** The compaction of a sweep over the heap's slots [todo]: the slots kept
    so far, cancelled nodes released. *)
Fixpoint sweep_loop (todo kept : list xtc_timer_slot) (ns : store)
  : list xtc_timer_slot * store :=
  match todo with
  | [] => (kept, ns)
  | s :: todo' =>
      if __is_cancelled ns (sl_t s)
      then sweep_loop todo' kept
             (__xtc_timer_park_release (set_idx ns (sl_t s) (-1)) (Some (sl_t s)))
      else sweep_loop todo' (kept ++ [s]) (set_idx ns (sl_t s) (Z.of_nat (length kept)))
  end.

(** [for (i = k - 1; i >= 0; i--) __sift_down(h, n, i, h[i])] *)
Fixpoint heapify_loop (k : nat) (h : list xtc_timer_slot) (ns : store) (n : nat)
  : list xtc_timer_slot * store :=
  match k with
  | O => (h, ns)
  | S i => let '(h', ns') := __sift_down h ns n i (h !!! i) in heapify_loop i h' ns' n
  end.

Definition __sweep_cancelled (L : xtc_loop) : xtc_loop :=
  let '(kept, ns) := sweep_loop (take (n_timers L) (timers L)) [] (nodes L) in
  let n := length kept in
  let '(h, ns') := heapify_loop (n / 2) (kept ++ drop n (timers L)) ns n in
  set_heap L h n ns'.

(** The capacity policy of a push: sweep a full heap, then grow it unless
    the sweep left it at most half full. *)
Definition make_room (L : xtc_loop) (realloc : rc) : rc * xtc_loop :=
  if decide (cap_timers L <= n_timers L)%nat then
    let L' := if decide (0 < n_timers L)%nat then __sweep_cancelled L else L in
    if decide (cap_timers L' = 0%nat \/ (cap_timers L' / 2 < n_timers L')%nat)
    then __grow L' realloc else (XTC_OK, L')
  else (XTC_OK, L).

Definition __heap_push (L : xtc_loop) (p : positive) (realloc : rc) : rc * xtc_loop :=
  match make_room L realloc with
  | (XTC_OK, L1) =>
      let ns := nodes L1 in
      let ns := if decide (fired_of ns p = XTC_TIMER_FIRED)
                then alter (with_fired 0) p ns else ns in
      match ns !! p with
      | None => (XTC_OK, L1)      (* a dangling node pointer: excluded by callers *)
      | Some t =>
          let '(h, ns') := __sift_up (timers L1) ns (n_timers L1) (mk_slot (t_deadline t) p) in
          (XTC_OK, set_heap L1 h (S (n_timers L1)) ns')
      end
  | (e, L1) => (e, L1)
  end.

Definition __xtc_timer_heap_push := __heap_push.

Definition __heap_top_unsafe (L : xtc_loop) : option positive :=
  if decide (n_timers L = 0%nat) then None else Some (sl_t (timers L !!! 0%nat)).

Definition __heap_pop_unsafe (L : xtc_loop) : option positive * xtc_loop :=
  if decide (n_timers L = 0%nat) then (None, L)
  else
    let top := sl_t (timers L !!! 0%nat) in
    let ns := set_idx (nodes L) top (-1) in
    let n := (n_timers L - 1)%nat in
    if decide (0 < n)%nat then
      let '(h, ns') := __sift_down (timers L) ns n 0 (timers L !!! n) in
      (Some top, set_heap L h n ns')
    else (Some top, set_heap L (timers L) n ns).

(** Pop the root and drop the heap's reference to it. *)
Definition drop_top (L : xtc_loop) : xtc_loop :=
  let L' := (__heap_pop_unsafe L).2 in
  set_nodes L' (__xtc_timer_park_release (nodes L') (Some (sl_t (timers L !!! 0%nat)))).

(** What another thread's cancel does to a node that is still armed. *)
Definition remote_cancel (ns : store) (p : positive) : store :=
  if decide (fired_of ns p = 0)
  then alter (fun t => with_cancelled 1 (with_fired XTC_TIMER_CANCELLED t)) p ns else ns.

(** [__xtc_timer_heap_pop_due].  [race] says, iteration by iteration, whether
    a cancel on another thread hits the top between the test and the claim.
    Every iteration shrinks the heap, so its size bounds the iterations. *)
Fixpoint pop_due_loop (fuel : nat) (race : list bool) (L : xtc_loop) (now_ns : Z)
  : option positive * xtc_loop :=
  match fuel with
  | O => (None, L)
  | S fuel' =>
      match __heap_top_unsafe L with
      | None => (None, L)
      | Some top =>
          if __is_cancelled (nodes L) top then
            pop_due_loop fuel' (tail race) (drop_top L) now_ns
          else if decide (now_ns < sl_deadline (timers L !!! 0%nat)) then (None, L)
          else
            let L1 := if default false (head race)
                      then set_nodes L (remote_cancel (nodes L) top) else L in
            if decide (fired_of (nodes L1) top = 0) then
              __heap_pop_unsafe (set_nodes L1 (alter (with_fired XTC_TIMER_FIRED) top (nodes L1)))
            else pop_due_loop fuel' (tail race) (drop_top L1) now_ns
      end
  end.
Definition __xtc_timer_heap_pop_due (race : list bool) (L : xtc_loop) (now_ns : Z) :=
  pop_due_loop (S (n_timers L)) race L now_ns.

Fixpoint next_deadline_loop (fuel : nat) (L : xtc_loop) : Z * xtc_loop :=
  match fuel with
  | O => (-1, L)
  | S fuel' =>
      if decide (n_timers L = 0%nat) then (-1, L)
      else
        let dead := sl_t (timers L !!! 0%nat) in
        if __is_cancelled (nodes L) dead then next_deadline_loop fuel' (drop_top L)
        else (sl_deadline (timers L !!! 0%nat), L)
  end.
Definition __xtc_timer_heap_next_deadline (L : xtc_loop) :=
  next_deadline_loop (S (n_timers L)) L.

(** ** Public operations *)

(** [__timer_slab_ensure]; [created] is the outcome of the slab's creation. *)
Definition __timer_slab_ensure (L : xtc_loop) (created : rc) : rc * xtc_loop :=
  if timer_slab L then (XTC_OK, L)
  else match created with
       | XTC_OK => (XTC_OK, mk_loop (timers L) (n_timers L) (cap_timers L) true (nodes L))
       | e => (e, L)
       end.

(** The outcomes [xtc_timer_set] gets from the slab, the clock and the
    reallocation of the heap array. *)
Record set_env := mk_set_env {
  env_slab : rc;
  env_node : option positive;
  env_clock : rc;
  env_now : Z;
  env_realloc : rc;
}.

Definition xtc_timer_set (L : option xtc_loop) (delay_ns cb user : Z)
    (want_handle : bool) (env : set_env) : rc * option xtc_loop * option positive :=
  match L with
  | None => (XTC_E_INVAL, None, None)
  | Some L =>
      if decide (delay_ns < 0) then (XTC_E_INVAL, Some L, None)
      else
        match __timer_slab_ensure L (env_slab env) with
        | (XTC_OK, L1) =>
            match env_node env with
            | None => (XTC_E_RESOURCE, Some L1, None)
            | Some p =>
                match env_clock env with
                | XTC_OK =>
                    let t := mk_timer (i64 (env_now env + delay_ns)) cb user (-1) 0 0 true
                               (if want_handle then 2 else 1) in
                    let L2 := set_nodes L1 (<[p := t]> (nodes L1)) in
                    match __xtc_timer_heap_push L2 p (env_realloc env) with
                    | (XTC_OK, L3) =>
                        (XTC_OK, Some L3, if want_handle then Some p else None)
                    | (e, L3) => (e, Some (set_nodes L3 (delete p (nodes L3))), None)
                    end
                | e => (e, Some L1, None)
                end
            end
        | (e, L1) => (e, Some L1, None)
        end
  end.

(** [__xtc_timer_try_cancel]; [on_owner] is the test
    [__xtc_current_loop_get() == loop]. *)
Definition __xtc_timer_try_cancel (L : xtc_loop) (p : positive) (on_owner : bool)
  : Z * xtc_loop :=
  if decide (fired_of (nodes L) p = 0) then
    let L1 := set_nodes L (remote_cancel (nodes L) p) in
    match nodes L1 !! p with
    | Some t =>
        if decide (on_owner = true /\ 0 <= t_heap_idx t) then
          let L2 := __heap_remove_at L1 (Z.to_nat (t_heap_idx t)) in
          (1, set_nodes L2 (__xtc_timer_park_release (nodes L2) (Some p)))
        else (1, L1)
    | None => (1, L1)
    end
  else (0, L).

Definition xtc_timer_cancel (L : xtc_loop) (p : option positive) (on_owner : bool)
  : rc * xtc_loop :=
  match p with
  | None => (XTC_E_INVAL, L)
  | Some p => (XTC_OK, (__xtc_timer_try_cancel L p on_owner).2)
  end.

Definition xtc_timer_release (L : xtc_loop) (p : option positive) : rc * xtc_loop :=
  match p with
  | None => (XTC_E_INVAL, L)
  | Some p =>
      match nodes L !! p with
      | Some t =>
          if t_from_slab t
          then (XTC_OK, set_nodes L (__xtc_timer_park_release (nodes L) (Some p)))
          else (XTC_E_INVAL, L)
      | None => (XTC_E_INVAL, L)
      end
  end.

#[global] Arguments __xtc_timer_park_release : simpl never.
#[global] Arguments __heap_remove_at : simpl never.
#[global] Arguments __heap_pop_unsafe : simpl never.
#[global] Arguments remote_cancel : simpl never.

(** ** The swap-based sifts the hole-based ones replaced *)

Fixpoint swap_sift_up (fuel : nat) (a : list xtc_timer_slot) (i : nat) : list xtc_timer_slot :=
  match fuel with
  | O => a
  | S fuel' =>
      if decide (0 < i)%nat then
        if decide (sl_deadline (a !!! parent i) <= sl_deadline (a !!! i)) then a
        else swap_sift_up fuel' (swap a i (parent i)) (parent i)
      else a
  end.

Fixpoint swap_sift_down (fuel : nat) (a : list xtc_timer_slot) (n i : nat)
  : list xtc_timer_slot :=
  match fuel with
  | O => a
  | S fuel' =>
      if decide (n <= 2 * i + 1)%nat then a
      else
        let c := smaller_child a n i in
        if decide (sl_deadline (a !!! i) <= sl_deadline (a !!! c)) then a
        else swap_sift_down fuel' (swap a i c) n c
  end.

(** ** Facts about holes *)

Lemma parent_lt i : (0 < i)%nat -> (parent i < i)%nat.
Proof.
  unfold parent. intros Hi. apply Nat.Div0.div_lt_upper_bound. lia.
Qed.

Lemma parent_child i j : (0 < j)%nat -> parent j = i <-> (j = 2 * i + 1 \/ j = 2 * i + 2)%nat.
Proof.
  unfold parent. intros Hj. split; intros H.
  - pose proof (Nat.div_mod_eq (j - 1) 2). pose proof (Nat.mod_upper_bound (j - 1) 2). lia.
  - destruct H as [->| ->]; [replace (2 * i + 1 - 1)%nat with (i * 2)%nat by lia|
                             replace (2 * i + 2 - 1)%nat with (1 + i * 2)%nat by lia].
    + by rewrite Nat.div_mul.
    + by rewrite Nat.div_add.
Qed.

Lemma smaller_child_cases h n i :
  (smaller_child h n i = 2 * i + 1 \/ (smaller_child h n i = 2 * i + 2 /\ 2 * i + 2 < n))%nat.
Proof. unfold smaller_child. case_decide; lia. Qed.

Lemma smaller_child_spec h n i :
  (2 * i + 1 < n)%nat ->
  (smaller_child h n i < n)%nat /\ parent (smaller_child h n i) = i /\
  (i < smaller_child h n i)%nat /\
  (forall j, (0 < j < n)%nat -> parent j = i ->
     sl_deadline (h !!! smaller_child h n i) <= sl_deadline (h !!! j)).
Proof.
  intros Hn.
  assert (0 < smaller_child h n i)%nat by (destruct (smaller_child_cases h n i); lia).
  split_and!.
  - destruct (smaller_child_cases h n i); lia.
  - apply parent_child; [done|]. destruct (smaller_child_cases h n i); lia.
  - destruct (smaller_child_cases h n i); lia.
  - intros j [Hj Hjn] [->| ->]%parent_child; [| |done]; unfold smaller_child;
      replace (2 * i + 1 + 1)%nat with (2 * i + 2)%nat by lia; case_decide; lia.
Qed.

Lemma swap_hole (h : list xtc_timer_slot) i c x :
  (i < length h)%nat -> (c < length h)%nat -> i <> c ->
  swap (<[i := x]> h) i c = <[c := x]> (<[i := h !!! c]> h).
Proof.
  intros Hi Hc Hne. unfold swap.
  rewrite list_lookup_insert_eq, list_lookup_insert_ne by done.
  rewrite (list_lookup_lookup_total_lt h c) by done.
  rewrite list_insert_insert_ne by done. by rewrite list_insert_insert_eq.
Qed.

(** The sift that moves a hole computes the same array as the swap-based
    sift of the array with [x] already in place. *)
Lemma sift_up_loop_swap fuel h ns i x :
  (i < length h)%nat ->
  (sift_up_loop fuel h ns i x).1 = swap_sift_up fuel (<[i := x]> h) i.
Proof.
  revert h ns i. induction fuel as [|fuel IH]; intros h ns i Hi; simpl; [done|].
  case_decide as Hpos; [|done]. pose proof (parent_lt i Hpos).
  rewrite list_lookup_total_insert_ne, list_lookup_total_insert_eq by lia.
  case_decide; [done|]. rewrite IH by (rewrite length_insert; lia).
  by rewrite swap_hole by lia.
Qed.

Lemma smaller_child_insert h n i x :
  smaller_child (<[i := x]> h) n i = smaller_child h n i.
Proof. unfold smaller_child. by rewrite !list_lookup_total_insert_ne by lia. Qed.

Lemma sift_down_loop_swap fuel h ns n i x :
  (i < length h)%nat -> (n <= length h)%nat ->
  (sift_down_loop fuel h ns n i x).1 = swap_sift_down fuel (<[i := x]> h) n i.
Proof.
  revert h ns i. induction fuel as [|fuel IH]; intros h ns i Hi Hn; simpl; [done|].
  case_decide as Hc; [done|].
  destruct (smaller_child_spec h n i) as (H1 & _ & H2 & _); [lia|].
  rewrite smaller_child_insert, list_lookup_total_insert_eq, list_lookup_total_insert_ne by lia.
  case_decide; [done|]. rewrite IH by (rewrite length_insert; lia).
  by rewrite swap_hole by lia.
Qed.

(** ** Heap order of the sifts *)

(** Every cell below [n] whose parent is at or past [b] respects it. *)
Definition heap_from (b : nat) (a : list xtc_timer_slot) (n : nat) : Prop :=
  forall j, (0 < j < n)%nat -> (b <= parent j)%nat ->
    sl_deadline (a !!! parent j) <= sl_deadline (a !!! j).

Abbreviation heap_ordered := (heap_from 0).

Lemma lookup_total_swap (a : list xtc_timer_slot) i j k :
  (i < length a)%nat -> (j < length a)%nat ->
  swap a i j !!! k =
    if decide (k = i) then a !!! j else if decide (k = j) then a !!! i else a !!! k.
Proof.
  intros Hi Hj. rewrite !list_lookup_total_alt.
  rewrite (lookup_swap a i j (a !!! i) (a !!! j))
    by (by apply list_lookup_lookup_total_lt).
  repeat case_decide; simpl; done || by rewrite list_lookup_total_alt.
Qed.

Lemma swap_sift_up_heap fuel a n i :
  (i <= fuel)%nat -> (i < n)%nat -> (n <= length a)%nat ->
  (forall j, (0 < j < n)%nat -> j <> i ->
     sl_deadline (a !!! parent j) <= sl_deadline (a !!! j)) ->
  ((0 < i)%nat -> forall j, (0 < j < n)%nat -> parent j = i ->
     sl_deadline (a !!! parent i) <= sl_deadline (a !!! j)) ->
  heap_ordered (swap_sift_up fuel a i) n.
Proof.
  revert a i. induction fuel as [|fuel IH]; intros a i Hf Hi Hn Hord Hgp; simpl.
  { intros j Hj _. apply Hord; lia. }
  case_decide as Hpos; [|intros j Hj _; apply Hord; lia].
  case_decide as Hle.
  { intros j Hj _. destruct (decide (j = i)) as [->|]; [done|]. by apply Hord. }
  pose proof (parent_lt i Hpos) as Hp. apply IH; rewrite ?length_swap; try lia.
  - intros j Hj Hjp. rewrite !lookup_total_swap by lia.
    pose proof (parent_lt j ltac:(lia)).
    destruct (decide (j = i)) as [->|Hji]; [repeat case_decide; lia|].
    specialize (Hord j Hj Hji).
    repeat case_decide; subst; try lia; [by apply Hgp|].
    match goal with H : parent j = _ |- _ => rewrite H in Hord end. lia.
  - intros Hpp j Hj Hjp. rewrite !lookup_total_swap by lia.
    pose proof (parent_lt (parent i) Hpp). pose proof (parent_lt j ltac:(lia)).
    pose proof (Hord (parent i) ltac:(lia) ltac:(lia)).
    destruct (decide (j = i)) as [->|Hji]; [repeat case_decide; lia|].
    specialize (Hord j Hj Hji). rewrite Hjp in Hord. repeat case_decide; lia.
Qed.

Lemma swap_sift_down_heap fuel a n i b :
  (n <= fuel + i)%nat -> (i < n)%nat -> (n <= length a)%nat -> (b <= i)%nat ->
  (forall j, (0 < j < n)%nat -> (b <= parent j)%nat -> parent j <> i ->
     sl_deadline (a !!! parent j) <= sl_deadline (a !!! j)) ->
  ((0 < i)%nat -> (b <= parent i)%nat -> forall j, (0 < j < n)%nat -> parent j = i ->
     sl_deadline (a !!! parent i) <= sl_deadline (a !!! j)) ->
  heap_from b (swap_sift_down fuel a n i) n.
Proof.
  revert a i. induction fuel as [|fuel IH]; intros a i Hf Hi Hn Hb Hord Hgp; simpl; [lia|].
  case_decide as Hleaf.
  { intros j Hj Hbj. apply Hord; try done. intros ?%parent_child; lia. }
  destruct (smaller_child_spec a n i) as (Hc & Hpc & Hic & Hmin); [lia|].
  set (c := smaller_child a n i) in *. clearbody c. case_decide as Hle.
  { intros j Hj Hbj. destruct (decide (parent j = i)) as [E|]; [|by apply Hord].
    rewrite E. specialize (Hmin j Hj E). lia. }
  apply IH; rewrite ?length_swap; try lia.
  - intros j Hj Hbj Hjc. rewrite !lookup_total_swap by lia.
    pose proof (parent_lt j ltac:(lia)).
    destruct (decide (parent j = i)) as [E|E].
    + specialize (Hmin j Hj E). repeat case_decide; subst; lia.
    + destruct (decide (j = i)) as [->|Hji].
      * repeat case_decide; try lia. apply Hgp; done || lia.
      * specialize (Hord j Hj Hbj E). repeat case_decide; subst; done || lia.
  - intros _ _ j Hj Hjc. rewrite Hpc, !lookup_total_swap by lia.
    pose proof (parent_lt j ltac:(lia)).
    assert (sl_deadline (a !!! parent j) <= sl_deadline (a !!! j)) by (apply Hord; lia).
    rewrite Hjc in *. repeat case_decide; subst; done || lia.
Qed.

(** ** Node indices and contents across a sift

    Both sifts are a sequence of moves of the hole ended by a fill; what
    they do to the nodes is proved once, by induction on that sequence. *)

Inductive hole_moves (n : nat) (x : xtc_timer_slot)
  : list xtc_timer_slot -> store -> nat -> list xtc_timer_slot -> store -> Prop :=
  | hm_fill h ns i :
      (i < n)%nat ->
      hole_moves n x h ns i (hole_fill h ns i x).1 (hole_fill h ns i x).2
  | hm_move h ns i c h' ns' :
      (i < n)%nat -> (c < n)%nat -> i <> c ->
      hole_moves n x (hole_move h ns i c).1 (hole_move h ns i c).2 c h' ns' ->
      hole_moves n x h ns i h' ns'.

Lemma sift_up_moves fuel n h ns i x :
  (i < n)%nat ->
  hole_moves n x h ns i (sift_up_loop fuel h ns i x).1 (sift_up_loop fuel h ns i x).2.
Proof.
  revert h ns i. induction fuel as [|fuel IH]; intros h ns i Hi; simpl; [by constructor|].
  case_decide as Hpos; [|by constructor]. case_decide; [by constructor|].
  pose proof (parent_lt i Hpos). apply (hm_move n x h ns i (parent i)); try lia.
  apply IH. lia.
Qed.

Lemma sift_down_moves fuel n h ns i x :
  (i < n)%nat ->
  hole_moves n x h ns i (sift_down_loop fuel h ns n i x).1 (sift_down_loop fuel h ns n i x).2.
Proof.
  revert h ns i. induction fuel as [|fuel IH]; intros h ns i Hi; simpl; [by constructor|].
  case_decide as Hl; [by constructor|]. case_decide; [by constructor|].
  destruct (smaller_child_spec h n i) as (H1 & _ & H2 & _); [lia|].
  eapply hm_move; [done|exact H1|lia|]. apply IH. lia.
Qed.

Lemma take_swap (l : list xtc_timer_slot) n i j :
  (i < n)%nat -> (j < n)%nat -> take n (swap l i j) = swap (take n l) i j.
Proof.
  intros Hi Hj. unfold swap. rewrite !lookup_take_lt by done.
  repeat case_match; try done. by rewrite !take_insert_lt.
Qed.

(** The heap part is permuted, the rest of the array is untouched. *)
Lemma hole_moves_array n x h ns i h' ns' :
  hole_moves n x h ns i h' ns' -> (n <= length h)%nat ->
  length h' = length h /\ drop n h' = drop n h /\
  take n h' ≡ₚ take n (<[i := x]> h).
Proof.
  induction 1 as [h ns i Hi|h ns i c h' ns' Hi Hc Hne Hm IH]; intros Hn; simpl in *.
  { split_and!; [by rewrite length_insert|by rewrite drop_insert_lt by lia|done]. }
  rewrite length_insert in IH. destruct (IH Hn) as (L & D & P).
  rewrite drop_insert_lt in D by lia. split_and!; [done|done|].
  rewrite P, <- (swap_hole h i c x), take_swap by lia. apply swap_Permutation.
Qed.

Definition idx_is (ns : store) (p : positive) (i : nat) : Prop :=
  exists t, ns !! p = Some t /\ t_heap_idx t = Z.of_nat i.

(** Nodes equal in everything but [heap_idx]. *)
Definition same_nodes (ns ns' : store) : Prop :=
  forall p, with_idx 0 <$> ns' !! p = with_idx 0 <$> ns !! p.

#[global] Instance same_nodes_equiv : Equivalence same_nodes.
Proof.
  split; unfold same_nodes; [done|by intros ? ? H p|].
  intros ns1 ns2 ns3 H1 H2 p. by rewrite H2, H1.
Qed.

Lemma same_nodes_set_idx ns p i : same_nodes ns (set_idx ns p i).
Proof.
  intros q. unfold set_idx. rewrite lookup_alter. case_decide; [subst|done].
  by destruct (ns !! q).
Qed.

Lemma lookup_set_idx_ne ns p q i : p <> q -> set_idx ns p i !! q = ns !! q.
Proof. intros. unfold set_idx. by rewrite lookup_alter_ne. Qed.

Lemma lookup_set_idx_Some ns q i p t :
  set_idx ns q i !! p = Some t -> t_heap_idx t = i \/ (q <> p /\ ns !! p = Some t).
Proof.
  unfold set_idx. rewrite lookup_alter. case_decide as D; [|auto].
  subst. intros (t0 & _ & ->)%fmap_Some. by left.
Qed.

Lemma idx_is_set_idx ns p i : is_Some (ns !! p) -> idx_is (set_idx ns p (Z.of_nat i)) p i.
Proof.
  intros [t Ht]. unfold idx_is, set_idx. rewrite lookup_alter_eq, Ht.
  by exists (with_idx (Z.of_nat i) t).
Qed.

(** Distinct cells of the heap hold distinct nodes. *)
Definition nodes_distinct (a : list xtc_timer_slot) (n : nat) : Prop :=
  forall j k, (j < n)%nat -> (k < n)%nat -> sl_t (a !!! j) = sl_t (a !!! k) -> j = k.

Lemma nodes_distinct_swap a n i c :
  (n <= length a)%nat -> (i < n)%nat -> (c < n)%nat ->
  nodes_distinct a n -> nodes_distinct (swap a i c) n.
Proof.
  intros Hn Hi Hc Hd j k Hj Hk. rewrite !lookup_total_swap by lia.
  repeat case_decide; subst; intros E; apply Hd in E; lia.
Qed.

Lemma idx_is_set_idx_ne ns p q i j :
  p <> q -> idx_is ns q j -> idx_is (set_idx ns p i) q j.
Proof. intros Hne (t & Ht & E). exists t. by rewrite lookup_set_idx_ne. Qed.

Lemma idx_is_Some ns p i : idx_is ns p i -> is_Some (ns !! p).
Proof. intros (t & -> & _). by eexists. Qed.

Lemma hole_moves_nodes n x h ns i h' ns' :
  hole_moves n x h ns i h' ns' -> (n <= length h)%nat ->
  nodes_distinct (<[i := x]> h) n -> is_Some (ns !! sl_t x) ->
  (forall j, (j < n)%nat -> j <> i -> idx_is ns (sl_t (h !!! j)) j) ->
  (forall j, (j < n)%nat -> idx_is ns' (sl_t (h' !!! j)) j) /\
  same_nodes ns ns' /\
  (forall p, (forall j, (j < n)%nat -> sl_t (<[i := x]> h !!! j) <> p) -> ns' !! p = ns !! p).
Proof.
  induction 1 as [h ns i Hi|h ns i c h' ns' Hi Hc Hne Hm IH];
    intros Hn Hd Hx Hidx; simpl in *.
  - assert (forall j, (j < n)%nat -> j <> i -> sl_t x <> sl_t (h !!! j)) as Hxj.
    { intros j Hj Hji E. specialize (Hd i j Hi Hj).
      rewrite list_lookup_total_insert_eq, list_lookup_total_insert_ne in Hd by lia.
      specialize (Hd E). lia. }
    split_and!; [|apply same_nodes_set_idx|].
    + intros j Hj. destruct (decide (j = i)) as [->|Hji].
      * rewrite list_lookup_total_insert_eq by lia. by apply idx_is_set_idx.
      * rewrite list_lookup_total_insert_ne by done. apply idx_is_set_idx_ne; auto.
    + intros p Hp. apply lookup_set_idx_ne.
      specialize (Hp i Hi). by rewrite list_lookup_total_insert_eq in Hp by lia.
  - assert (forall j, (j < n)%nat -> j <> i -> j <> c -> sl_t (h !!! c) <> sl_t (h !!! j)) as Hcj.
    { intros j Hj Hji Hjc E. specialize (Hd c j Hc Hj).
      rewrite !list_lookup_total_insert_ne in Hd by done. specialize (Hd E). lia. }
    assert (sl_t (h !!! c) <> sl_t x) as Hxc.
    { intros E. specialize (Hd c i Hc Hi).
      rewrite list_lookup_total_insert_eq, list_lookup_total_insert_ne in Hd by lia.
      specialize (Hd E). lia. }
    rewrite length_insert, <- (swap_hole h i c x) in IH by lia.
    destruct IH as (I1 & I2 & I3); try done.
    + apply nodes_distinct_swap; rewrite ?length_insert; done.
    + by rewrite lookup_set_idx_ne.
    + intros j Hj Hjc. destruct (decide (j = i)) as [->|Hji].
      * rewrite list_lookup_total_insert_eq by lia. eapply idx_is_set_idx, idx_is_Some, Hidx; done.
      * rewrite list_lookup_total_insert_ne by done. apply idx_is_set_idx_ne; auto.
    + split_and!; [done|etransitivity; [apply same_nodes_set_idx|done]|].
      intros p Hp. rewrite I3.
      * apply lookup_set_idx_ne. specialize (Hp c Hc).
        by rewrite list_lookup_total_insert_ne in Hp by lia.
      * intros j Hj. rewrite lookup_total_swap by (rewrite length_insert; lia).
        repeat case_decide; subst; auto.
Qed.

(** ** The invariant of the loop's heap *)

(** The slots of the heap, in array order. *)
Definition queued (L : xtc_loop) : list xtc_timer_slot := take (n_timers L) (timers L).

(** Everything but the order: sizes, and the two-way link between cells and
    nodes ([heap_idx] and the copied deadline). *)
Record heap_shape (L : xtc_loop) : Prop := mk_heap_shape {
  hs_cap : length (timers L) = cap_timers L;
  hs_n : (n_timers L <= cap_timers L)%nat;
  hs_idx : forall j, (j < n_timers L)%nat -> idx_is (nodes L) (sl_t (timers L !!! j)) j;
  hs_in : forall p t, nodes L !! p = Some t ->
    t_heap_idx t = -1 \/
    exists j, (j < n_timers L)%nat /\ t_heap_idx t = Z.of_nat j /\ sl_t (timers L !!! j) = p;
  hs_deadline : forall j t, (j < n_timers L)%nat ->
    nodes L !! sl_t (timers L !!! j) = Some t -> t_deadline t = sl_deadline (timers L !!! j);
}.

Definition heap_wf (L : xtc_loop) : Prop :=
  heap_shape L /\ heap_ordered (timers L) (n_timers L).

Lemma shape_distinct L : heap_shape L -> nodes_distinct (timers L) (n_timers L).
Proof.
  intros [_ _ Hidx _ _] j k Hj Hk E.
  destruct (Hidx j Hj) as (t & Ht & I1). destruct (Hidx k Hk) as (t' & Ht' & I2).
  rewrite E in Ht. simplify_eq. lia.
Qed.

Lemma queued_lookup L j :
  heap_shape L -> (j < n_timers L)%nat -> queued L !! j = Some (timers L !!! j).
Proof.
  intros [Hc Hn _ _ _] Hj. unfold queued. rewrite lookup_take_lt by done.
  apply list_lookup_lookup_total_lt. lia.
Qed.

Lemma elem_of_take_total (l : list xtc_timer_slot) n s :
  (n <= length l)%nat -> s ∈ take n l <-> exists j, (j < n)%nat /\ l !!! j = s.
Proof.
  intros Hn. rewrite list_elem_of_lookup. setoid_rewrite lookup_take_Some.
  setoid_rewrite list_lookup_alt. split.
  - intros (j & (_ & E) & Hj). by exists j.
  - intros (j & Hj & E). exists j. split_and!; [lia|done|done].
Qed.

Lemma elem_of_queued L s :
  heap_shape L -> s ∈ queued L <-> exists j, (j < n_timers L)%nat /\ timers L !!! j = s.
Proof. intros [Hc Hn _ _ _]. apply elem_of_take_total. lia. Qed.

Lemma heap_root_min a n j :
  heap_ordered a n -> (j < n)%nat -> sl_deadline (a !!! 0%nat) <= sl_deadline (a !!! j).
Proof.
  intros Ho. induction j as [j IH] using lt_wf_ind. intros Hj.
  destruct (decide (j = 0%nat)) as [->|Hj0]; [lia|].
  pose proof (parent_lt j ltac:(lia)). specialize (IH (parent j) ltac:(lia) ltac:(lia)).
  specialize (Ho j ltac:(lia) ltac:(lia)). lia.
Qed.

Lemma root_le_queued L s :
  heap_wf L -> s ∈ queued L -> sl_deadline (timers L !!! 0%nat) <= sl_deadline s.
Proof.
  intros [Hs Ho] (j & Hj & <-)%elem_of_queued; [|done]. by eapply heap_root_min.
Qed.

(** A sift that re-places slot [x] over a heap of [n'] cells yields a heap
    of the right shape, holding the slots of [<[i := x]>] of the old array. *)
Lemma resift_shape L ns0 n' i x h' ns' :
  length (timers L) = cap_timers L -> (n' <= cap_timers L)%nat ->
  hole_moves n' x (timers L) ns0 i h' ns' ->
  nodes_distinct (<[i := x]> (timers L)) n' ->
  (forall j, (j < n')%nat -> j <> i -> idx_is ns0 (sl_t (timers L !!! j)) j) ->
  is_Some (ns0 !! sl_t x) ->
  (forall p t, ns0 !! p = Some t -> t_heap_idx t = -1 \/
     exists j, (j < n')%nat /\ sl_t (<[i := x]> (timers L) !!! j) = p) ->
  (forall j t, (j < n')%nat -> ns0 !! sl_t (<[i := x]> (timers L) !!! j) = Some t ->
     t_deadline t = sl_deadline (<[i := x]> (timers L) !!! j)) ->
  heap_shape (set_heap L h' n' ns') /\
  queued (set_heap L h' n' ns') ≡ₚ take n' (<[i := x]> (timers L)) /\
  same_nodes ns0 ns'.
Proof.
  intros Hc Hn Hm Hd Hidx Hx Hin Hdl.
  destruct (hole_moves_array _ _ _ _ _ _ _ Hm) as (Hl & _ & Hp); [lia|].
  destruct (hole_moves_nodes _ _ _ _ _ _ _ Hm) as (I1 & I2 & I3); try done; [lia|].
  assert (HA := fun s => elem_of_take_total (<[i := x]> (timers L)) n' s
                         ltac:(rewrite length_insert; lia)).
  assert (HB := fun s => elem_of_take_total h' n' s ltac:(lia)).
  split_and!; [|done|done]. constructor; simpl; [lia|done|done| |].
  - intros p t Ht.
    destruct (decide (p ∈ sl_t <$> take n' h')) as [Hs|Hno].
    + apply list_elem_of_fmap in Hs as (s & -> & Hs). right. apply HB in Hs as (k & Hk & <-). exists k. split_and!; [done| |done].
      destruct (I1 k Hk) as (t' & Ht' & E). by simplify_eq.
    + left. rewrite (I3 p) in Ht.
      2: { intros j Hj <-. apply Hno, list_elem_of_fmap_2. rewrite Hp, HA. eauto. }
      destruct (Hin p t Ht) as [?|(j & Hj & <-)]; [done|].
      exfalso. apply Hno, list_elem_of_fmap_2. rewrite Hp, HA. eauto.
  - intros j t Hj Ht.
    assert (h' !!! j ∈ take n' h') as Hs by (apply HB; eauto).
    rewrite Hp, HA in Hs. destruct Hs as (k & Hk & E). rewrite <- E in Ht |- *.
    specialize (I2 (sl_t (<[i := x]> (timers L) !!! k))). rewrite Ht in I2.
    destruct (ns0 !! sl_t (<[i := x]> (timers L) !!! k)) as [t0|] eqn:E0; [|done].
    rewrite <- (Hdl k t0 Hk E0). simpl in I2. by destruct t, t0; simplify_eq.
Qed.

(** The order is restored by whichever sift [__heap_remove_at] picks. *)
Lemma remove_up_ordered h ns n i :
  heap_ordered h (S n) -> (S n <= length h)%nat -> (i < n)%nat -> (0 < i)%nat ->
  sl_deadline (h !!! n) < sl_deadline (h !!! parent i) ->
  heap_ordered (__sift_up h ns i (h !!! n)).1 n.
Proof.
  intros Ho Hl Hi Hpos Hlt. unfold __sift_up. rewrite sift_up_loop_swap by lia.
  pose proof (parent_lt i Hpos) as Hpi. pose proof (Ho i ltac:(lia) ltac:(lia)) as Hoi.
  apply swap_sift_up_heap; rewrite ?length_insert; try lia.
  - intros j Hj Hji. pose proof (Ho j ltac:(lia) ltac:(lia)) as Hoj.
    rewrite (list_lookup_total_insert_ne _ _ j) by done.
    destruct (decide (parent j = i)) as [E|E].
    + rewrite E in *. rewrite list_lookup_total_insert_eq by lia. lia.
    + by rewrite list_lookup_total_insert_ne by done.
  - intros _ j Hj E. pose proof (parent_lt j ltac:(lia)).
    pose proof (Ho j ltac:(lia) ltac:(lia)) as Hoj. rewrite E in *.
    rewrite !list_lookup_total_insert_ne by lia. lia.
Qed.

Lemma remove_down_ordered h ns n i :
  heap_ordered h (S n) -> (S n <= length h)%nat -> (i < n)%nat ->
  ((0 < i)%nat -> sl_deadline (h !!! parent i) <= sl_deadline (h !!! n)) ->
  heap_ordered (__sift_down h ns n i (h !!! n)).1 n.
Proof.
  intros Ho Hl Hi Hge. unfold __sift_down. rewrite sift_down_loop_swap by lia.
  apply swap_sift_down_heap; rewrite ?length_insert; try lia.
  - intros j Hj _ E. rewrite (list_lookup_total_insert_ne _ i (parent j)) by done.
    destruct (decide (j = i)) as [->|Hji].
    + rewrite list_lookup_total_insert_eq by lia. apply Hge. lia.
    + rewrite list_lookup_total_insert_ne by done. apply Ho; lia.
  - intros Hpos _ j Hj E. pose proof (parent_lt j ltac:(lia)). pose proof (parent_lt i Hpos).
    pose proof (Ho j ltac:(lia) ltac:(lia)) as Hoj. pose proof (Ho i ltac:(lia) ltac:(lia)).
    rewrite E in *. rewrite !list_lookup_total_insert_ne by lia. lia.
Qed.

Lemma queued_last L n :
  heap_shape L -> n_timers L = S n ->
  queued L = take n (timers L) ++ [timers L !!! n].
Proof.
  intros [Hc Hn _ _ _] E. unfold queued. rewrite E.
  apply take_S_r, list_lookup_lookup_total_lt. lia.
Qed.

(** What removing slot [i] does to the heap. *)
Definition removes (L : xtc_loop) (i : nat) (L' : xtc_loop) : Prop :=
  heap_wf L' /\ S (n_timers L') = n_timers L /\ cap_timers L' = cap_timers L /\
  timer_slab L' = timer_slab L /\ (timers L !!! i) :: queued L' ≡ₚ queued L /\
  same_nodes (nodes L) (nodes L').

Lemma remove_last_spec L n :
  heap_wf L -> n_timers L = S n ->
  removes L n (set_heap L (timers L) n (set_idx (nodes L) (sl_t (timers L !!! n)) (-1))).
Proof.
  intros [Hs Ho] En. pose proof Hs as [Hc Hn Hidx Hin Hdl].
  pose proof (shape_distinct L Hs) as Hd.
  split_and!; [|by simpl|done|done| |apply same_nodes_set_idx].
  - split; [|intros j Hj Hb; apply Ho; simpl in Hj; lia].
    constructor; simpl; [done|lia| | |].
    + intros j Hj. apply idx_is_set_idx_ne; [|apply Hidx; lia].
      intros E. apply Hd in E; lia.
    + intros p t [?|[Hp Ht]]%lookup_set_idx_Some; [by left|]. destruct (Hin p t Ht) as [?|(j & Hj & E1 & E2)]; [by left|right].
      exists j. split_and!; try done. assert (j <> n) by congruence. lia.
    + intros j t Hj. rewrite lookup_set_idx_ne; [apply Hdl; lia|].
      intros E. apply Hd in E; lia.
  - rewrite (queued_last L n Hs En). unfold queued. simpl. apply Permutation_cons_append.
Qed.

Lemma remove_at_spec L i :
  heap_wf L -> (i < n_timers L)%nat -> removes L i (__heap_remove_at L i).
Proof.
  intros Hwf Hi. pose proof Hwf as [Hs Ho]. pose proof Hs as [Hc Hn Hidx Hin Hdl].
  pose proof (shape_distinct L Hs) as Hd.
  destruct (n_timers L) as [|n] eqn:En; [lia|].
  unfold __heap_remove_at. rewrite En in *. replace (S n - 1)%nat with n by lia.
  case_decide as Hlast; [subst i; by apply remove_last_spec|].
  set (ns := set_idx (nodes L) (sl_t (timers L !!! i)) (-1)). set (x := timers L !!! n).
  set (r := if decide _ then _ else _).
  assert (hole_moves n x (timers L) ns i r.1 r.2) as Hm.
  { unfold r. case_decide; [apply sift_up_moves|apply sift_down_moves]; lia. }
  assert (heap_ordered r.1 n) as Hord.
  { unfold r, x. case_decide as D.
    - apply remove_up_ordered; done || lia.
    - apply remove_down_ordered; try done; [lia|lia|]. intros Hpos.
      apply Z.nlt_ge. intros ?. by apply D. }
  clearbody r. destruct r as [h' ns']. simpl in *.
  assert (forall j, (j < n)%nat -> exists k, (k < S n)%nat /\ k <> i /\
            <[i := x]> (timers L) !!! j = timers L !!! k /\ (j <> i -> k = j) /\ (j = i -> k = n)) as HA.
  { intros j Hj. destruct (decide (j = i)) as [->|Hji]; [exists n|exists j].
    - rewrite list_lookup_total_insert_eq by lia. split_and!; done || lia.
    - rewrite list_lookup_total_insert_ne by done. split_and!; done || lia. }
  destruct (resift_shape L ns n i x h' ns') as (S1 & S2 & S3); try done; try lia.
  - intros j k Hj Hk. destruct (HA j Hj) as (j' & ? & _ & -> & ? & ?).
    destruct (HA k Hk) as (k' & ? & _ & -> & ? & ?). intros E. apply Hd in E; lia.
  - intros j Hj Hji. apply idx_is_set_idx_ne; [|apply Hidx; lia]. intros E. apply Hd in E; lia.
  - unfold ns. rewrite lookup_set_idx_ne; [eapply idx_is_Some, Hidx; lia|].
    intros E. apply Hd in E; lia.
  - intros p t [?|[Hp Ht]]%lookup_set_idx_Some; [by left|]. destruct (Hin p t Ht) as [?|(j & Hj & _ & <-)]; [by left|right].
    destruct (decide (j = n)) as [->|Hjn]; [exists i|exists j; split; [lia|]].
    + split; [lia|]. by rewrite list_lookup_total_insert_eq by lia.
    + rewrite list_lookup_total_insert_ne; [done|]. by intros ->.
  - intros j t Hj. destruct (HA j Hj) as (k & Hk & Hki & -> & _).
    unfold ns. rewrite lookup_set_idx_ne; [by apply Hdl|]. intros E. apply Hd in E; lia.
  - split_and!; try done.
    + rewrite S2, (queued_last L n Hs En), take_insert_lt by lia.
      rewrite (insert_Permutation (take n (timers L)) i x (timers L !!! i)).
      * apply Permutation_cons_append.
      * rewrite lookup_take_lt by lia. apply list_lookup_lookup_total_lt. lia.
    + etransitivity; [apply same_nodes_set_idx|exact S3].
Qed.

Lemma pop_is_remove L :
  (0 < n_timers L)%nat ->
  __heap_pop_unsafe L = (Some (sl_t (timers L !!! 0%nat)), __heap_remove_at L 0).
Proof.
  intros Hn. unfold __heap_pop_unsafe, __heap_remove_at.
  rewrite decide_False by lia.
  destruct (decide (0%nat = (n_timers L - 1)%nat)) as [E|E].
  - rewrite decide_False by lia. by rewrite <- E.
  - rewrite decide_True by lia. rewrite (decide_False (P := (0 < 0)%nat /\ _)) by lia.
    by destruct (__sift_down _ _ _ _ _).
Qed.

(** *** Pushing *)

Lemma push_up_ordered h ns n x :
  heap_ordered h n -> (n < length h)%nat ->
  heap_ordered (__sift_up h ns n x).1 (S n).
Proof.
  intros Ho Hl. unfold __sift_up. rewrite sift_up_loop_swap by lia.
  apply swap_sift_up_heap; rewrite ?length_insert; try lia.
  - intros j Hj Hjn. pose proof (parent_lt j ltac:(lia)).
    rewrite !list_lookup_total_insert_ne by lia. apply Ho; lia.
  - intros _ j Hj E. pose proof (parent_lt j ltac:(lia)). lia.
Qed.

(** What queuing node [p] with deadline [d] does to the heap. *)
Definition adds (L : xtc_loop) (s : xtc_timer_slot) (L' : xtc_loop) : Prop :=
  heap_wf L' /\ n_timers L' = S (n_timers L) /\ cap_timers L' = cap_timers L /\
  timer_slab L' = timer_slab L /\ queued L' ≡ₚ s :: queued L /\
  same_nodes (nodes L) (nodes L').

Lemma push_node_spec L p t :
  heap_wf L -> (n_timers L < cap_timers L)%nat ->
  nodes L !! p = Some t -> t_heap_idx t = -1 ->
  let '(h, ns') := __sift_up (timers L) (nodes L) (n_timers L) (mk_slot (t_deadline t) p) in
  adds L (mk_slot (t_deadline t) p) (set_heap L h (S (n_timers L)) ns').
Proof.
  intros [Hs Ho] Hlt Hp Hi. pose proof Hs as [Hc Hn Hidx Hin Hdl].
  pose proof (shape_distinct L Hs) as Hd. set (x := mk_slot (t_deadline t) p).
  set (n := n_timers L) in *.
  pose proof (push_up_ordered (timers L) (nodes L) n x Ho ltac:(lia)) as Hord.
  pose proof (sift_up_moves n (S n) (timers L) (nodes L) n x ltac:(lia)) as Hm.
  fold (__sift_up (timers L) (nodes L) n x) in Hm.
  destruct (__sift_up (timers L) (nodes L) n x) as [h ns']. simpl in *.
  assert (forall j, (j < n)%nat -> sl_t (timers L !!! j) <> p) as Hnew.
  { intros j Hj E. destruct (Hidx j Hj) as (t' & Ht' & E'). rewrite E in Ht'. simplify_eq. lia. }
  destruct (resift_shape L (nodes L) (S n) n x h ns') as (S1 & S2 & S3); try done; try lia.
  - intros j k Hj Hk. rewrite !list_lookup_total_insert.
    repeat case_decide; simpl; intros E; try lia.
    + symmetry in E. apply Hnew in E; [done|lia].
    + apply Hnew in E; [done|lia].
    + apply Hd in E; fold n; lia.
  - intros j Hj Hjn. apply Hidx. lia.
  - intros q t' Hq. destruct (Hin q t' Hq) as [?|(j & Hj & _ & E)]; [by left|right].
    exists j. split; [lia|]. by rewrite list_lookup_total_insert_ne by lia.
  - intros j t' Hj. rewrite list_lookup_total_insert. case_decide as D.
    + simpl. intros. by simplify_eq.
    + apply Hdl. lia.
  - split_and!; try done. rewrite S2. unfold queued. fold n.
    rewrite (take_S_r _ n x) by (apply list_lookup_insert_eq; lia).
    rewrite take_insert_ge by lia. symmetry. apply Permutation_cons_append.
Qed.

(** Changing a node in fields the heap does not use keeps the heap. *)
Lemma heap_wf_alter L f p :
  (forall t, t_heap_idx (f t) = t_heap_idx t) -> (forall t, t_deadline (f t) = t_deadline t) ->
  heap_wf L -> heap_wf (set_nodes L (alter f p (nodes L))).
Proof.
  intros Hf1 Hf2 [[Hc Hn Hidx Hin Hdl] Ho]. split; [|done]. constructor; simpl; try done.
  - intros j Hj. destruct (Hidx j Hj) as (t & Ht & E). unfold idx_is.
    rewrite lookup_alter. case_decide as D; [rewrite D, Ht; exists (f t)|exists t];
      simpl; by rewrite ?Hf1.
  - intros q t. rewrite lookup_alter. case_decide as D; [|apply Hin].
    subst. intros (t0 & H0 & ->)%fmap_Some. rewrite Hf1. by apply Hin.
  - intros j t Hj. rewrite lookup_alter. case_decide as D; [|by apply Hdl].
    intros (t0 & H0 & ->)%fmap_Some. rewrite Hf2. rewrite D in H0. by apply Hdl.
Qed.

(** The deadline of a node that is not queued is free. *)
Lemma heap_wf_delay L p t d :
  nodes L !! p = Some t -> t_heap_idx t = -1 ->
  heap_wf L -> heap_wf (set_nodes L (alter (with_deadline d) p (nodes L))).
Proof.
  intros Hp Hi [[Hc Hn Hidx Hin Hdl] Ho].
  assert (forall j, (j < n_timers L)%nat -> p <> sl_t (timers L !!! j)) as Hne.
  { intros j Hj ->. destruct (Hidx j Hj) as (t' & Ht & E). rewrite Hp in Ht. simplify_eq. lia. }
  split; [|done]. constructor; simpl; try done.
  - intros j Hj. destruct (Hidx j Hj) as (t' & Ht & E). unfold idx_is. rewrite lookup_alter_ne by auto. by exists t'.
  - intros q t'. rewrite lookup_alter. case_decide as D; [|apply Hin].
    subst q. rewrite Hp. simpl. intros [= <-]. by left.
  - intros j t' Hj. rewrite lookup_alter_ne by auto. by apply Hdl.
Qed.

(** Dropping a reference keeps the heap as long as the node it frees is not
    queued any more. *)
Lemma heap_wf_release L p :
  heap_wf L -> p ∉ sl_t <$> queued L ->
  heap_wf (set_nodes L (__xtc_timer_park_release (nodes L) (Some p))).
Proof.
  intros Hwf Hp. unfold __xtc_timer_park_release.
  destruct (nodes L !! p) as [t|] eqn:Et; [|by destruct L].
  case_decide; [by destruct L|]. case_decide.
  - destruct Hwf as [Hs Ho]. pose proof Hs as [Hc Hn Hidx Hin Hdl]. split; [|done].
    assert (forall j, (j < n_timers L)%nat -> p <> sl_t (timers L !!! j)) as Hne.
    { intros j Hj ->. apply Hp, list_elem_of_fmap_2, elem_of_queued; eauto. }
    constructor; simpl; try done.
    + intros j Hj. destruct (Hidx j Hj) as (t' & Ht' & E). exists t'.
      by rewrite lookup_delete_ne by auto.
    + intros q t' Hq. apply (Hin q). by apply lookup_delete_Some in Hq as [_ Hq].
    + intros j t' Hj Hq. apply (Hdl j); [done|]. by apply lookup_delete_Some in Hq as [_ Hq].
  - assert (<[p := with_refs (t_refs t - 1) t]> (nodes L) =
            alter (fun u => with_refs (t_refs u - 1) u) p (nodes L)) as ->.
    { apply map_eq. intros q. rewrite lookup_insert, lookup_alter.
      case_decide; [subst; by rewrite Et|done]. }
    by apply heap_wf_alter.
Qed.

(** ** Reference counts

    [ext p] is the number of owners of node [p] outside the heap: the
    handle returned by [xtc_timer_set] (or the task's park slot), and the
    drain that popped it and has not released it yet. *)

Definition inheap (L : xtc_loop) (p : positive) : Z :=
  if decide (p ∈ sl_t <$> queued L) then 1 else 0.

Definition bump (ext : positive -> Z) (p : positive) (d : Z) : positive -> Z :=
  fun q => if decide (q = p) then ext q + d else ext q.

(** Every live node is counted exactly once per owner, and a freed node has
    no owner left. *)
Definition owned (ext : positive -> Z) (L : xtc_loop) : Prop :=
  (forall p t, nodes L !! p = Some t ->
     t_refs t = inheap L p + ext p /\ 0 <= ext p /\ 1 <= t_refs t) /\
  (forall p, nodes L !! p = None -> ext p = 0).

Definition timer_inv (ext : positive -> Z) (L : xtc_loop) : Prop := heap_wf L /\ owned ext L.

Lemma owned_ext ext ext' L : (forall p, ext p = ext' p) -> owned ext L -> owned ext' L.
Proof.
  intros E [H1 H2]. split; [intros p t Ht|intros p Hp]; rewrite <- E; auto.
Qed.

Lemma queued_NoDup L : heap_shape L -> NoDup (sl_t <$> queued L).
Proof.
  intros Hs. apply NoDup_alt. intros i j p Hi Hj.
  rewrite list_lookup_fmap in Hi, Hj.
  apply fmap_Some in Hi as (s & Hi & ->). apply fmap_Some in Hj as (s' & Hj & E).
  assert (Hli := lookup_lt_Some _ _ _ Hi). assert (Hlj := lookup_lt_Some _ _ _ Hj).
  unfold queued in Hli, Hlj. rewrite length_take in Hli, Hlj.
  rewrite queued_lookup in Hi, Hj by (done || lia). simplify_eq.
  apply (shape_distinct L Hs); [lia..|done].
Qed.

Lemma same_nodes_fired ns ns' p : same_nodes ns ns' -> fired_of ns' p = fired_of ns p.
Proof.
  intros H. specialize (H p). unfold fired_of.
  destruct (ns' !! p) as [t'|], (ns !! p) as [t|]; simpl in H; try done.
  by destruct t, t'; simplify_eq.
Qed.

Lemma same_nodes_lookup ns ns' p t' :
  same_nodes ns ns' -> ns' !! p = Some t' ->
  exists t, ns !! p = Some t /\ t_refs t' = t_refs t /\ t_fired t' = t_fired t /\
            t_deadline t' = t_deadline t /\ t_from_slab t' = t_from_slab t.
Proof.
  intros H E. specialize (H p). rewrite E in H.
  destruct (ns !! p) as [t|]; simpl in H; [|done]. exists t.
  by destruct t, t'; simplify_eq.
Qed.

Lemma same_nodes_None ns ns' p : same_nodes ns ns' -> ns' !! p = None -> ns !! p = None.
Proof. intros H E. specialize (H p). rewrite E in H. by destruct (ns !! p). Qed.

Lemma owned_same_nodes ext ext' L L' :
  same_nodes (nodes L) (nodes L') ->
  (forall p, inheap L' p + ext' p = inheap L p + ext p) -> (forall p, 0 <= ext' p) ->
  (forall p, nodes L' !! p = None -> ext' p = 0) ->
  owned ext L -> owned ext' L'.
Proof.
  intros Hsn He H0 Hz [H1 H2]. split; [|done]. intros p t' Ht'.
  destruct (same_nodes_lookup _ _ _ _ Hsn Ht') as (t & Ht & Hr & _).
  specialize (H1 p t Ht). specialize (He p). specialize (H0 p). lia.
Qed.

Lemma removes_inheap L i L' p :
  heap_wf L -> (i < n_timers L)%nat -> removes L i L' ->
  inheap L' p = if decide (p = sl_t (timers L !!! i)) then 0 else inheap L p.
Proof.
  intros [Hs _] Hi ([Hs' _] & _ & _ & _ & HP & _). unfold inheap.
  pose proof (queued_NoDup L Hs) as Hnd. apply (fmap_Permutation sl_t) in HP. simpl in HP.
  rewrite <- HP in Hnd. apply NoDup_cons in Hnd as [Hni _].
  assert (p ∈ sl_t <$> queued L <->
          p = sl_t (timers L !!! i) \/ p ∈ sl_t <$> queued L') as Hin
    by (by rewrite <- HP, elem_of_cons).
  repeat case_decide; naive_solver.
Qed.

Lemma owned_nonneg ext L p : owned ext L -> 0 <= ext p.
Proof.
  intros [H1 H2]. destruct (nodes L !! p) as [t|] eqn:E; [apply (H1 p t E)|].
  by rewrite H2.
Qed.

Lemma removes_owned ext L i L' :
  heap_wf L -> (i < n_timers L)%nat -> removes L i L' ->
  owned ext L -> owned (bump ext (sl_t (timers L !!! i)) 1) L'.
Proof.
  intros Hwf Hi HR Hown. pose proof HR as (_&_&_&_&HP&HS).
  assert (inheap L (sl_t (timers L !!! i)) = 1) as H1.
  { unfold inheap. rewrite decide_True; [done|]. apply list_elem_of_fmap_2.
    rewrite <- HP. apply list_elem_of_here. }
  eapply (owned_same_nodes ext); [exact HS| | | |done].
  - intros p. rewrite (removes_inheap L i L' p Hwf Hi HR). unfold bump.
    case_decide; subst; lia.
  - intros p. pose proof (owned_nonneg ext L p Hown). unfold bump. case_decide; lia.
  - intros p Hp%(same_nodes_None _ _ _ HS). unfold bump. case_decide as D.
    + subst. destruct Hwf as [[_ _ Hidx _ _] _].
      destruct (Hidx i Hi) as (t & Ht & _). congruence.
    + by apply Hown.
Qed.

Lemma release_owned ext L p :
  owned ext L -> 1 <= ext p ->
  owned (bump ext p (-1)) (set_nodes L (__xtc_timer_park_release (nodes L) (Some p))).
Proof.
  intros [H1 H2] Hp. unfold __xtc_timer_park_release.
  destruct (nodes L !! p) as [t|] eqn:Et; [|specialize (H2 p Et); lia].
  destruct (H1 p t Et) as (Hr & _ & Hge). rewrite decide_False by lia.
  assert (0 <= inheap L p <= 1) as Hh by (unfold inheap; case_decide; lia).
  case_decide as D.
  - split; simpl; unfold bump.
    + intros q u Hq%lookup_delete_Some. destruct Hq as [Hne Hq].
      rewrite decide_False by done. change (inheap (set_nodes L _) q) with (inheap L q). auto.
    + intros q Hq%lookup_delete_None. case_decide; [subst; lia|]. naive_solver.
  - split; simpl; unfold bump.
    + intros q u. rewrite lookup_insert. change (inheap (set_nodes L _) q) with (inheap L q).
      repeat case_decide; subst; intros; simplify_eq/=; try lia; auto.
    + intros q [Hq Hne]%lookup_insert_None. rewrite decide_False by done. auto.
Qed.

(** ** Draining the heap *)

(** Nodes unchanged except [p], which lost its heap index and a reference. *)
Definition same_but (p : positive) (ns ns' : store) : Prop :=
  forall q, q <> p -> with_idx 0 <$> ns' !! q = with_idx 0 <$> ns !! q.

Lemma lookup_release_ne ns p q :
  p <> q -> __xtc_timer_park_release ns (Some p) !! q = ns !! q.
Proof.
  intros. unfold __xtc_timer_park_release. case_match; [|done].
  repeat case_decide; rewrite ?lookup_delete_ne, ?lookup_insert_ne by done; done.
Qed.

Lemma removed_not_queued L i L' :
  heap_wf L -> (i < n_timers L)%nat -> removes L i L' ->
  sl_t (timers L !!! i) ∉ sl_t <$> queued L'.
Proof.
  intros Hwf Hi HR Hin. pose proof (removes_inheap L i L' (sl_t (timers L !!! i)) Hwf Hi HR) as E.
  unfold inheap in E. rewrite !decide_True in E by done. done.
Qed.

Lemma drop_top_spec ext L :
  timer_inv ext L -> (0 < n_timers L)%nat ->
  timer_inv ext (drop_top L) /\ S (n_timers (drop_top L)) = n_timers L /\
  (timers L !!! 0%nat) :: queued (drop_top L) ≡ₚ queued L /\
  same_but (sl_t (timers L !!! 0%nat)) (nodes L) (nodes (drop_top L)) /\
  sl_t (timers L !!! 0%nat) ∉ sl_t <$> queued (drop_top L).
Proof.
  intros [Hwf Hown] Hn. unfold drop_top. rewrite pop_is_remove by done. simpl.
  pose proof (remove_at_spec L 0 Hwf Hn) as HR.
  pose proof (removed_not_queued L 0 _ Hwf Hn HR) as Hnq.
  pose proof (removes_owned ext L 0 _ Hwf Hn HR Hown) as Ho.
  destruct HR as (Hwf' & Hn' & _ & _ & HP & HS).
  split_and!; [split| | | |]; try done.
  - by apply heap_wf_release.
  - eapply owned_ext; [|apply release_owned; [exact Ho|]].
    + intros q. unfold bump. repeat case_decide; lia.
    + unfold bump. rewrite decide_True by done. pose proof (owned_nonneg _ _ (sl_t (timers L !!! 0%nat)) Hown). lia.
  - intros q Hq. simpl. rewrite lookup_release_ne by done. apply HS.
Qed.

Lemma same_but_fired p q ns ns' : q <> p -> same_but p ns ns' -> fired_of ns' q = fired_of ns q.
Proof.
  intros Hq H. specialize (H q Hq). unfold fired_of.
  destruct (ns' !! q) as [t'|], (ns !! q) as [t|]; simpl in H; try done.
  by destruct t, t'; simplify_eq.
Qed.

Lemma alter_owned ext L f p :
  (forall t, t_refs (f t) = t_refs t) ->
  owned ext L -> owned ext (set_nodes L (alter f p (nodes L))).
Proof.
  intros Hf [H1 H2]. split.
  - intros q t. simpl. rewrite lookup_alter.
    change (inheap (set_nodes L _) q) with (inheap L q).
    case_decide as D; [|apply H1]. subst. intros (t0 & H0 & ->)%fmap_Some. rewrite Hf. auto.
  - intros q. simpl. rewrite lookup_alter. case_decide as D; [|apply H2].
    subst. intros Hq%fmap_None. auto.
Qed.

Lemma timer_inv_alter ext L f p :
  (forall t, t_heap_idx (f t) = t_heap_idx t) -> (forall t, t_deadline (f t) = t_deadline t) ->
  (forall t, t_refs (f t) = t_refs t) ->
  timer_inv ext L -> timer_inv ext (set_nodes L (alter f p (nodes L))).
Proof. intros ? ? ? [? ?]. split; [by apply heap_wf_alter|by apply alter_owned]. Qed.

Lemma timer_inv_delay ext L p t d :
  nodes L !! p = Some t -> t_heap_idx t = -1 ->
  timer_inv ext L -> timer_inv ext (set_nodes L (alter (with_deadline d) p (nodes L))).
Proof. intros ? ? [? ?]. split; [by eapply heap_wf_delay|by apply alter_owned]. Qed.

Lemma timer_inv_remote_cancel ext L p :
  timer_inv ext L -> timer_inv ext (set_nodes L (remote_cancel (nodes L) p)).
Proof.
  intros H. unfold remote_cancel. case_decide; [by apply timer_inv_alter|by destruct L].
Qed.


Lemma fired_with_fired v p ns :
  is_Some (ns !! p) -> fired_of (alter (with_fired v) p ns) p = v.
Proof. intros [t Ht]. unfold fired_of. by rewrite lookup_alter_eq, Ht. Qed.

Lemma fired_alter_ne f p q ns : p <> q -> fired_of (alter f p ns) q = fired_of ns q.
Proof. intros. unfold fired_of. by rewrite lookup_alter_ne. Qed.

Lemma remote_cancel_fired ns p : is_Some (ns !! p) -> fired_of (remote_cancel ns p) p <> 0.
Proof.
  intros [t Ht]. unfold remote_cancel. case_decide as D; [|done].
  unfold fired_of. rewrite lookup_alter_eq, Ht. done.
Qed.

Lemma remote_cancel_fired_ne ns p q : p <> q -> fired_of (remote_cancel ns p) q = fired_of ns q.
Proof. intros. unfold remote_cancel. case_decide; [by apply fired_alter_ne|done]. Qed.

Lemma top_is_Some L : heap_wf L -> (0 < n_timers L)%nat ->
  is_Some (nodes L !! sl_t (timers L !!! 0%nat)).
Proof. intros [[_ _ Hidx _ _] _] Hn. eapply idx_is_Some, Hidx, Hn. Qed.

(** The state after one claim or drop, seen from the caller. *)
Definition pop_result (race : list bool) (ext : positive -> Z) (L : xtc_loop) (now_ns : Z)
    (r : option positive) (L' : xtc_loop) : Prop :=
  exists dropped,
    Forall (fun s => fired_of (nodes L) (sl_t s) <> 0 \/ true ∈ race) dropped /\
    match r with
    | Some p =>
        timer_inv (bump ext p 1) L' /\
        exists d, queued L ≡ₚ dropped ++ mk_slot d p :: queued L' /\ d <= now_ns /\
          fired_of (nodes L) p = 0 /\ fired_of (nodes L') p = XTC_TIMER_FIRED /\
          (forall s, s ∈ queued L' -> d <= sl_deadline s)
    | None =>
        timer_inv ext L' /\ queued L ≡ₚ dropped ++ queued L' /\
        (forall s, s ∈ queued L' -> now_ns < sl_deadline s)
    end.

(** Claiming the root. *)
Lemma claim_spec race ext L now_ns :
  timer_inv ext L -> (0 < n_timers L)%nat ->
  sl_deadline (timers L !!! 0%nat) <= now_ns ->
  fired_of (nodes L) (sl_t (timers L !!! 0%nat)) = 0 ->
  let top := sl_t (timers L !!! 0%nat) in
  let out := __heap_pop_unsafe (set_nodes L (alter (with_fired XTC_TIMER_FIRED) top (nodes L))) in
  pop_result race ext L now_ns out.1 out.2.
Proof.
  intros Hinv Hn Hdue Hf top out. unfold out. rewrite pop_is_remove by done. simpl.
  set (L1 := set_nodes L _).
  assert (timer_inv ext L1) as [Hwf1 Ho1] by (by apply timer_inv_alter).
  pose proof (remove_at_spec L1 0 Hwf1 Hn) as HR.
  pose proof (removes_owned ext L1 0 _ Hwf1 Hn HR Ho1) as Ho'.
  destruct HR as (Hwf' & _ & _ & _ & HP & HS).
  exists []. split; [done|]. split; [by split|]. exists (sl_deadline (timers L !!! 0%nat)).
  split_and!; [|done|done| |].
  - simpl. change (queued L) with (queued L1). rewrite <- HP. unfold top.
    simpl. by destruct (timers L !!! 0%nat).
  - rewrite (same_nodes_fired _ _ _ HS). simpl.
    apply fired_with_fired, top_is_Some; [apply Hinv|done].
  - intros s Hs. apply (root_le_queued L); [apply Hinv|].
    change (queued L) with (queued L1). rewrite <- HP. by apply list_elem_of_further.
Qed.

(** Dropping the root and going round again. *)
Lemma pop_result_drop race ext L L1 now_ns r L' :
  timer_inv ext L1 -> (0 < n_timers L1)%nat -> queued L1 = queued L ->
  timers L1 = timers L ->
  (forall q, q <> sl_t (timers L !!! 0%nat) -> fired_of (nodes L1) q = fired_of (nodes L) q) ->
  (fired_of (nodes L) (sl_t (timers L !!! 0%nat)) <> 0 \/ true ∈ race) ->
  pop_result (tail race) ext (drop_top L1) now_ns r L' ->
  pop_result race ext L now_ns r L'.
Proof.
  intros Hinv Hn Hq Ht Hfr Hd (dropped & Hdr & Hres).
  destruct (drop_top_spec ext L1 Hinv Hn) as (_ & _ & HP & HS & Hnq).
  rewrite Ht in *. set (top := timers L !!! 0%nat) in *.
  assert (forall s, s ∈ dropped -> s ∈ queued (drop_top L1)) as Hsub.
  { intros s Hs. destruct r as [p|]; destruct Hres as [_ Hres];
      [destruct Hres as (d & HP' & _)|destruct Hres as (HP' & _)];
      rewrite HP'; apply elem_of_app; by left. }
  assert (forall s, s ∈ queued (drop_top L1) ->
            fired_of (nodes (drop_top L1)) (sl_t s) = fired_of (nodes L) (sl_t s)) as Hff.
  { intros s Hs. assert (sl_t s <> sl_t top) as Hne.
    { intros E. apply Hnq. rewrite <- E. by apply list_elem_of_fmap_2. }
    rewrite (same_but_fired _ _ _ _ Hne HS). by apply Hfr. }
  exists (top :: dropped). split.
  { constructor; [done|]. rewrite Forall_forall in Hdr |- *. intros s Hs.
    destruct (Hdr s Hs) as [H|H]; [left; by rewrite <- Hff by auto|right].
    destruct race; [done|]. by apply list_elem_of_further. }
  rewrite <- Hq. destruct r as [p|]; destruct Hres as [Hi Hres]; (split; [done|]).
  - destruct Hres as (d & HP' & Hres). exists d.
    split; [by rewrite <- HP, HP'|].
    assert (mk_slot d p ∈ queued (drop_top L1)) as Hin.
    { rewrite HP'. apply elem_of_app. right. apply list_elem_of_here. }
    apply Hff in Hin. simpl in Hin. by rewrite <- Hin.
  - destruct Hres as (HP' & Hres). split; [by rewrite <- HP, HP'|done].
Qed.

Lemma pop_due_loop_spec fuel race ext L now_ns :
  (n_timers L < fuel)%nat -> timer_inv ext L ->
  pop_result race ext L now_ns (pop_due_loop fuel race L now_ns).1
                               (pop_due_loop fuel race L now_ns).2.
Proof.
  revert race L. induction fuel as [|fuel IH]; intros race L Hf Hinv; [lia|]. simpl.
  unfold __heap_top_unsafe. case_decide as Hn.
  { exists []. split; [done|]. split; [done|]. split; [done|].
    intros s. cbn [snd]. unfold queued. rewrite Hn. by intros ?%elem_of_nil. }
  set (top := sl_t (timers L !!! 0%nat)).
  assert (Hpos : (0 < n_timers L)%nat) by lia.
  destruct (__is_cancelled (nodes L) top) eqn:Hc.
  { apply bool_decide_eq_true in Hc.
    eapply (pop_result_drop race ext L L); try done; [left; fold top; by rewrite Hc|].
    apply IH; [|by apply drop_top_spec]. pose proof (drop_top_spec ext L Hinv Hpos) as (_ & E & _). lia. }
  case_decide as Hdue.
  { exists []. split; [done|]. split; [done|]. split; [done|]. simpl. intros s Hs.
    pose proof (root_le_queued L s (proj1 Hinv) Hs). lia. }
  set (L1 := if default false (head race) then _ else L).
  assert (timer_inv ext L1 /\ n_timers L1 = n_timers L /\ timers L1 = timers L) as (Hi1 & Hn1 & Ht1).
  { unfold L1. destruct (default false (head race)); [|done].
    split; [by apply timer_inv_remote_cancel|done]. }
  case_decide as Hf1.
  - assert (L1 = L) as HL.
    { unfold L1 in *. destruct (default false (head race)); [|done]. exfalso.
      apply (remote_cancel_fired (nodes L) top); [|done]. by apply top_is_Some; [apply Hinv|]. }
    rewrite HL in *. apply claim_spec; done || lia.
  - eapply (pop_result_drop race ext L L1); try done; [lia|unfold queued; by rewrite Hn1, Ht1| | |].
    + intros q Hq. unfold L1. destruct (default false (head race)); [|done].
      simpl. by apply remote_cancel_fired_ne.
    + unfold L1 in Hf1. destruct race as [|[] race]; simpl in Hf1; auto.
      right. apply list_elem_of_here.
    + apply IH; [|by apply drop_top_spec; [|lia]].
      pose proof (drop_top_spec ext L1 Hi1 ltac:(lia)) as (_ & E & _). lia.
Qed.

Lemma next_deadline_loop_spec fuel ext L :
  (n_timers L < fuel)%nat -> timer_inv ext L ->
  let out := next_deadline_loop fuel L in
  timer_inv ext out.2 /\
  exists dropped, queued L ≡ₚ dropped ++ queued out.2 /\
    Forall (fun s => fired_of (nodes L) (sl_t s) = XTC_TIMER_CANCELLED) dropped /\
    (queued out.2 = [] /\ out.1 = -1 \/
     exists s, s ∈ queued out.2 /\ out.1 = sl_deadline s /\
       fired_of (nodes L) (sl_t s) <> XTC_TIMER_CANCELLED /\
       forall s', s' ∈ queued out.2 -> out.1 <= sl_deadline s').
Proof.
  revert L. induction fuel as [|fuel IH]; intros L Hf Hinv; [lia|]. simpl.
  case_decide as Hn.
  { split; [done|]. exists []. split_and!; [done|done|left]. split; [|done].
    cbn [snd]. unfold queued. by rewrite Hn. }
  assert (Hpos : (0 < n_timers L)%nat) by lia.
  destruct (__is_cancelled _ _) eqn:Hc.
  - apply bool_decide_eq_true in Hc.
    destruct (drop_top_spec ext L Hinv Hpos) as (Hi & Hn' & HP & HS & Hnq).
    destruct (IH (drop_top L)) as (I1 & dropped & I2 & I3 & I4); [lia|done|].
    assert (forall s, s ∈ queued (drop_top L) ->
              fired_of (nodes (drop_top L)) (sl_t s) = fired_of (nodes L) (sl_t s)) as Hff.
    { intros s Hs. eapply same_but_fired; [|exact HS]. intros E.
      apply Hnq. rewrite <- E. by apply list_elem_of_fmap_2. }
    split; [done|]. exists ((timers L !!! 0%nat) :: dropped). split_and!.
    + by rewrite <- HP, I2.
    + constructor; [done|]. rewrite Forall_forall in I3 |- *. intros s Hs.
      rewrite <- Hff; [auto|]. rewrite I2. apply elem_of_app. by left.
    + destruct I4 as [I4|(s & Hs & ? & Hfs & ?)]; [by left|right]. exists s.
      split_and!; try done. rewrite <- Hff; [done|]. rewrite I2. apply elem_of_app. by right.
  - apply bool_decide_eq_false in Hc. split; [done|]. exists []. split_and!; [done|done|right].
    exists (timers L !!! 0%nat). split_and!; [|done|done|].
    + apply elem_of_queued; [apply Hinv|]. by exists 0%nat.
    + intros s' Hs'. apply root_le_queued; [apply Hinv|done].
Qed.

(** ** Sweeping *)

(** Rebuilding the heap bottom-up from any well-shaped array. *)
Lemma heapify_spec k L :
  heap_shape L -> (k <= n_timers L / 2)%nat -> heap_from k (timers L) (n_timers L) ->
  let r := heapify_loop k (timers L) (nodes L) (n_timers L) in
  let L' := set_heap L r.1 (n_timers L) r.2 in
  heap_wf L' /\ queued L' ≡ₚ queued L /\ same_nodes (nodes L) (nodes L').
Proof.
  revert L. induction k as [|i IH]; intros L Hs Hk Ho; simpl.
  { destruct L. by split_and!. }
  pose proof Hs as [Hc Hn Hidx Hin Hdl].
  assert (i < n_timers L)%nat as Hi.
  { pose proof (Nat.Div0.div_le_mono (n_timers L) (n_timers L) 2). 
    pose proof (Nat.div_mod_eq (n_timers L) 2). lia. }
  set (x := timers L !!! i).
  assert (<[i := x]> (timers L) = timers L) as Hid
    by (apply list_insert_id, list_lookup_lookup_total_lt; lia).
  pose proof (sift_down_moves (n_timers L) (n_timers L) (timers L) (nodes L) i x Hi) as Hm.
  assert (heap_from i (__sift_down (timers L) (nodes L) (n_timers L) i x).1 (n_timers L)) as Ho'.
  { unfold __sift_down. rewrite sift_down_loop_swap, Hid by lia.
    apply swap_sift_down_heap; try lia.
    - intros j Hj Hb Hne. apply Ho; lia.
    - intros Hpos Hb. pose proof (parent_lt i Hpos). lia. }
  fold (__sift_down (timers L) (nodes L) (n_timers L) i x) in Hm.
  destruct (__sift_down (timers L) (nodes L) (n_timers L) i x) as [h' ns']. simpl in *.
  destruct (resift_shape L (nodes L) (n_timers L) i x h' ns') as (S1 & S2 & S3);
    rewrite ?Hid; try done.
  - by apply shape_distinct.
  - intros j Hj _. by apply Hidx.
  - eapply idx_is_Some, Hidx, Hi.
  - intros p t Ht. destruct (Hin p t Ht) as [?|(j & Hj & _ & ?)]; [by left|right]. by exists j.
  - rewrite Hid in S2.
    destruct (IH (set_heap L h' (n_timers L) ns') S1 ltac:(simpl; lia) Ho') as (J1 & J2 & J3).
    split_and!; [done|by rewrite <- S2|]. by etransitivity.
Qed.

Lemma heap_from_half a n : heap_from (n / 2) a n.
Proof.
  intros j Hj Hb. exfalso. unfold parent in Hb.
  pose proof (Nat.div_mod_eq n 2). pose proof (Nat.div_mod_eq (j - 1) 2).
  pose proof (Nat.mod_upper_bound n 2). pose proof (Nat.mod_upper_bound (j - 1) 2). lia.
Qed.

(** The node of [p] after a sweep that found it cancelled. *)
Definition swept (ns : store) (p : positive) : option xtc_timer :=
  __xtc_timer_park_release (set_idx ns p (-1)) (Some p) !! p.

Abbreviation kept_of ns := (filter (fun s => fired_of ns (sl_t s) <> XTC_TIMER_CANCELLED)).

(** A sweep step on one node does not disturb the others. *)
Lemma sweep_frame ns ns' p (todo : list xtc_timer_slot) :
  p ∉ sl_t <$> todo -> (forall q, q <> p -> ns' !! q = ns !! q) ->
  kept_of ns' todo = kept_of ns todo /\
  (forall u, u ∈ todo -> ns' !! sl_t u = ns !! sl_t u) /\
  (forall u, u ∈ todo -> fired_of ns' (sl_t u) = fired_of ns (sl_t u)).
Proof.
  intros Hp Hns. assert (forall u, u ∈ todo -> ns' !! sl_t u = ns !! sl_t u) as Hu.
  { intros u Hu. apply Hns. intros E. apply Hp. rewrite <- E. by apply list_elem_of_fmap_2. }
  assert (forall u, u ∈ todo -> fired_of ns' (sl_t u) = fired_of ns (sl_t u)) as Hf
    by (intros u Hin; unfold fired_of; by rewrite Hu).
  split_and!; [|done|done]. apply filter_ext_elem. intros u Hin. by rewrite Hf.
Qed.

Lemma swept_ext ns ns' p : ns' !! p = ns !! p -> swept ns' p = swept ns p.
Proof.
  intros E. unfold swept, __xtc_timer_park_release, set_idx. rewrite !lookup_alter_eq, E.
  destruct (ns !! p) as [t|] eqn:E'; simpl; [|by rewrite !lookup_alter_eq, E, E'].
  repeat case_decide; rewrite ?lookup_alter_eq, ?lookup_delete_eq, ?lookup_insert_eq, ?E, ?E'; done.
Qed.

Lemma sweep_loop_spec todo kept ns :
  NoDup (sl_t <$> todo) ->
  let r := sweep_loop todo kept ns in
  r.1 = kept ++ kept_of ns todo /\
  (forall p, p ∉ sl_t <$> todo -> r.2 !! p = ns !! p) /\
  (forall s, s ∈ todo -> fired_of ns (sl_t s) = XTC_TIMER_CANCELLED ->
     r.2 !! sl_t s = swept ns (sl_t s)) /\
  (forall k s, kept_of ns todo !! k = Some s ->
     r.2 !! sl_t s = with_idx (Z.of_nat (length kept + k)) <$> ns !! sl_t s).
Proof.
  revert kept ns. induction todo as [|s todo IH]; intros kept ns Hnd; simpl.
  { rewrite app_nil_r. split_and!; [done|done| |done]. by intros s ?%elem_of_nil. }
  apply NoDup_cons in Hnd as [Hns Hnd]. rewrite filter_cons.
  destruct (__is_cancelled ns (sl_t s)) eqn:Hc.
  - apply bool_decide_eq_true in Hc. rewrite decide_False by (intros Hx; by apply Hx).
    set (ns' := __xtc_timer_park_release _ _).
    assert (forall q, q <> sl_t s -> ns' !! q = ns !! q) as Hne.
    { intros q Hq. unfold ns'. by rewrite lookup_release_ne, lookup_set_idx_ne. }
    destruct (sweep_frame ns ns' (sl_t s) todo Hns Hne) as (F1 & F2 & F3).
    destruct (IH kept ns' Hnd) as (I1 & I2 & I3 & I4). rewrite F1 in I1, I4.
    split_and!; [done| | |].
    + intros p [Hp1 Hp2]%not_elem_of_cons. rewrite I2 by done. by apply Hne.
    + intros u [->|Hu]%elem_of_cons Hcu; [by rewrite I2|].
      rewrite I3 by (done || by rewrite F3). by apply swept_ext, F2.
    + intros k u Hk. rewrite (I4 k u Hk). f_equal. apply F2.
      apply list_elem_of_lookup_2, list_elem_of_filter in Hk. by apply Hk.
  - apply bool_decide_eq_false in Hc. rewrite decide_True by done.
    set (ns' := set_idx ns (sl_t s) _).
    assert (forall q, q <> sl_t s -> ns' !! q = ns !! q) as Hne
      by (intros q Hq; by apply lookup_set_idx_ne).
    destruct (sweep_frame ns ns' (sl_t s) todo Hns Hne) as (F1 & F2 & F3).
    destruct (IH (kept ++ [s]) ns' Hnd) as (I1 & I2 & I3 & I4). rewrite F1 in I1, I4.
    split_and!.
    + by rewrite I1, <- app_assoc.
    + intros p [Hp1 Hp2]%not_elem_of_cons. rewrite I2 by done. by apply Hne.
    + intros u [->|Hu]%elem_of_cons Hcu; [done|].
      rewrite I3 by (done || by rewrite F3). by apply swept_ext, F2.
    + intros [|k] u Hk; simpl in Hk.
      * simplify_eq. rewrite I2, Nat.add_0_r by done. apply lookup_alter_eq.
      * rewrite (I4 k u Hk), length_app. simpl.
        rewrite F2 by (apply list_elem_of_lookup_2, list_elem_of_filter in Hk; by apply Hk).
        do 2 f_equal. lia.
Qed.

Lemma swept_cases ns p t0 :
  ns !! p = Some t0 -> 1 <= t_refs t0 ->
  (t_refs t0 = 1 /\ swept ns p = None) \/
  (t_refs t0 <> 1 /\ exists t, swept ns p = Some t /\ t_heap_idx t = -1 /\ t_refs t = t_refs t0 - 1 /\
     t_fired t = t_fired t0).
Proof.
  intros E Hr. unfold swept, __xtc_timer_park_release, set_idx. rewrite lookup_alter_eq, E. simpl.
  rewrite decide_False by lia. case_decide.
  - left. split; [done|apply lookup_delete_eq].
  - right. split; [done|]. rewrite lookup_insert_eq. by eexists.
Qed.

(** The heap right after the compaction loop of a sweep, before it is
    rebuilt. *)
Definition compacted (L : xtc_loop) : xtc_loop :=
  let r := sweep_loop (queued L) [] (nodes L) in
  set_heap L (r.1 ++ drop (length r.1) (timers L)) (length r.1) r.2.

Lemma queued_compacted L : queued (compacted L) = (sweep_loop (queued L) [] (nodes L)).1.
Proof. unfold compacted, queued. simpl. by rewrite take_app_length. Qed.

(** Where a node of the loop stands after the compaction. *)
Lemma compacted_nodes L p :
  heap_shape L ->
  let kept := kept_of (nodes L) (queued L) in
  ((p ∉ sl_t <$> queued L) /\ nodes (compacted L) !! p = nodes L !! p) \/
  (p ∈ (sl_t <$> queued L) /\ (p ∉ sl_t <$> kept) /\ fired_of (nodes L) p = XTC_TIMER_CANCELLED /\
     nodes (compacted L) !! p = swept (nodes L) p) \/
  (p ∈ (sl_t <$> queued L) /\ exists k s, kept !! k = Some s /\ sl_t s = p /\
     nodes (compacted L) !! p = with_idx (Z.of_nat k) <$> nodes L !! p).
Proof.
  intros Hs. destruct (sweep_loop_spec (queued L) [] (nodes L) (queued_NoDup L Hs))
    as (H1 & H2 & H3 & H4). simpl in *.
  destruct (decide (p ∈ sl_t <$> queued L)) as [Hq|Hq]; [right|left; split; [done|by apply H2]].
  pose proof Hq as Hq'. apply list_elem_of_fmap in Hq' as (s & -> & Hin).
  destruct (decide (fired_of (nodes L) (sl_t s) = XTC_TIMER_CANCELLED)) as [Hc|Hc]; [left|right].
  - split_and!; [done| |done|by apply H3].
    intros (u & E & [Hu _]%list_elem_of_filter)%list_elem_of_fmap. by rewrite <- E in Hu.
  - assert (s ∈ kept_of (nodes L) (queued L)) as [k Hk]%list_elem_of_lookup_1
      by (by apply list_elem_of_filter).
    split; [done|]. exists k, s. split_and!; [done|done|by apply H4].
Qed.

Lemma compacted_shape ext L : timer_inv ext L -> heap_shape (compacted L).
Proof.
  intros [[Hs _] [Hown _]]. pose proof Hs as [Hc Hn Hidx Hin Hdl].
  destruct (sweep_loop_spec (queued L) [] (nodes L) (queued_NoDup L Hs))
    as (H1 & _ & _ & H4). simpl in *.
  set (kept := kept_of (nodes L) (queued L)) in *.
  assert (length kept <= n_timers L)%nat as Hk.
  { etransitivity; [apply length_filter|]. unfold queued. rewrite length_take. lia. }
  assert (forall j, (j < length kept)%nat ->
            timers (compacted L) !!! j = kept !!! j /\ kept !! j = Some (kept !!! j) /\
            kept !!! j ∈ queued L) as HA.
  { intros j Hj. pose proof (list_lookup_lookup_total_lt kept j Hj) as E.
    unfold compacted. simpl. rewrite H1. split_and!; [|done|].
    - by rewrite lookup_total_app_l.
    - apply list_elem_of_lookup_2, list_elem_of_filter in E. apply E. }
  assert (n_timers (compacted L) = length kept) as Hn' by (unfold compacted; simpl; by rewrite H1).
  assert (forall j, (j < length kept)%nat -> exists t,
            nodes L !! sl_t (kept !!! j) = Some t /\ t_deadline t = sl_deadline (kept !!! j)) as HB.
  { intros j Hj. destruct (HA j Hj) as (_ & _ & Hq).
    apply elem_of_queued in Hq as (i & Hi & E); [|done].
    destruct (Hidx i Hi) as (t & Ht & _). rewrite E in Ht. exists t. split; [done|].
    rewrite <- E in Ht |- *. by apply Hdl. }
  constructor; rewrite ?Hn'.
  - unfold compacted. simpl. rewrite length_app, length_drop, H1. lia.
  - unfold compacted. simpl. lia.
  - intros j Hj. destruct (HA j Hj) as (-> & E & _). destruct (HB j Hj) as (t & Ht & _).
    unfold compacted. simpl. exists (with_idx (Z.of_nat j) t). by rewrite (H4 j _ E), Ht.
  - intros p t Ht. destruct (compacted_nodes L p Hs) as [[Hq E]|[(Hq & _ & Hcc & E)|(Hq & k & s & Hks & <- & E)]];
      rewrite E in Ht.
    + destruct (Hin p t Ht) as [?|(j & Hj & _ & <-)]; [by left|].
      exfalso. apply Hq, list_elem_of_fmap_2, elem_of_queued; eauto.
    + left. apply list_elem_of_fmap in Hq as (s & -> & (j & Hj & <-)%elem_of_queued); [|done].
      destruct (Hidx j Hj) as (t0 & Ht0 & _).
      destruct (swept_cases _ _ _ Ht0) as [[_ ?]|(_ & t' & ? & ? & _)];
        [by apply (Hown _ _ Ht0)|congruence|congruence].
    + right. exists k. assert (Hl := lookup_lt_Some _ _ _ Hks). destruct (HA k Hl) as (-> & E' & _).
      apply fmap_Some in Ht as (t0 & _ & ->). simpl.
      change (kept !! k = Some s) in Hks. rewrite E' in Hks. by simplify_eq.
  - intros j t Hj. destruct (HA j Hj) as (-> & E & _). destruct (HB j Hj) as (t0 & Ht0 & Ed).
    unfold compacted. simpl. rewrite (H4 j _ E), Ht0. simpl. intros. by simplify_eq.
Qed.

Lemma compacted_owned ext L : timer_inv ext L -> owned ext (compacted L).
Proof.
  intros [[Hs Ho] [H1 H2]]. pose proof Hs as [_ _ Hidx _ _].
  assert (queued (compacted L) = kept_of (nodes L) (queued L)) as Hq'.
  { rewrite queued_compacted. by apply sweep_loop_spec, queued_NoDup. }
  assert (forall p, inheap (compacted L) p =
            if decide (p ∈ sl_t <$> kept_of (nodes L) (queued L)) then 1 else 0) as Hh
    by (intros p; unfold inheap; by rewrite Hq').
  assert (forall p, p ∈ sl_t <$> queued L -> exists t, nodes L !! p = Some t /\
            t_refs t = 1 + ext p /\ 0 <= ext p /\ 1 <= t_refs t) as Hin.
  { intros p Hp. pose proof Hp as Hp'. apply list_elem_of_fmap in Hp' as (s & -> & Hs').
    apply elem_of_queued in Hs' as (j & Hj & <-); [|done].
    destruct (Hidx j Hj) as (t & Ht & _). exists t. split; [done|].
    destruct (H1 _ t Ht) as (E & ? & ?). unfold inheap in E. by rewrite decide_True in E. }
  split; intros p.
  - intros t Ht. rewrite Hh.
    destruct (compacted_nodes L p Hs) as [[Hq E]|[(Hq & Hnk & _ & E)|(Hq & k & s & Hks & <- & E)]];
      rewrite E in Ht.
    + destruct (H1 p t Ht) as (Er & ? & ?). unfold inheap in Er.
      rewrite decide_False in Er by done. rewrite decide_False; [lia|].
      intros (u & -> & [_ Hu]%list_elem_of_filter)%list_elem_of_fmap.
      by apply Hq, list_elem_of_fmap_2.
    + rewrite decide_False by done. destruct (Hin p Hq) as (t0 & Ht0 & ? & ? & ?).
      destruct (swept_cases _ _ _ Ht0) as [[? E']|(? & t' & E' & _ & Er & _)]; [done|congruence|].
      rewrite E' in Ht. simplify_eq. lia.
    + rewrite decide_True by (by eapply list_elem_of_fmap_2, list_elem_of_lookup_2).
      destruct (Hin _ Hq) as (t0 & Ht0 & ? & ? & ?). rewrite Ht0 in Ht. simplify_eq/=. lia.
  - intros Ht. destruct (compacted_nodes L p Hs) as [[Hq E]|[(Hq & _ & _ & E)|(Hq & k & s & Hks & <- & E)]];
      rewrite E in Ht; [by apply H2| |].
    + destruct (Hin p Hq) as (t0 & Ht0 & ? & ? & ?).
      destruct (swept_cases _ _ _ Ht0) as [[? E']|(? & t' & E' & _)]; [done|lia|congruence].
    + destruct (Hin _ Hq) as (t0 & Ht0 & _). by rewrite Ht0 in Ht.
Qed.

Lemma inheap_Permutation L L' p : queued L ≡ₚ queued L' -> inheap L p = inheap L' p.
Proof.
  intros H%(fmap_Permutation sl_t). unfold inheap.
  assert (p ∈ (sl_t <$> queued L) <-> p ∈ (sl_t <$> queued L')) as Hi by (by rewrite H).
  repeat case_decide; tauto.
Qed.

Lemma sweep_unfold L :
  let r := heapify_loop (n_timers (compacted L) / 2) (timers (compacted L))
             (nodes (compacted L)) (n_timers (compacted L)) in
  __sweep_cancelled L = set_heap (compacted L) r.1 (n_timers (compacted L)) r.2.
Proof.
  unfold __sweep_cancelled, compacted, queued.
  destruct (sweep_loop _ _ _) as [kept ns]. unfold set_heap. cbn -[heapify_loop Nat.div].
  by destruct (heapify_loop _ _ _ _).
Qed.

Lemma sweep_spec ext L :
  timer_inv ext L ->
  timer_inv ext (__sweep_cancelled L) /\
  queued (__sweep_cancelled L) ≡ₚ kept_of (nodes L) (queued L) /\
  cap_timers (__sweep_cancelled L) = cap_timers L /\
  timer_slab (__sweep_cancelled L) = timer_slab L /\
  same_nodes (nodes (compacted L)) (nodes (__sweep_cancelled L)).
Proof.
  intros Hinv. pose proof (compacted_shape ext L Hinv) as Hs.
  pose proof (compacted_owned ext L Hinv) as Hown.
  assert (queued (compacted L) = kept_of (nodes L) (queued L)) as Hq.
  { rewrite queued_compacted. apply sweep_loop_spec, queued_NoDup, Hinv. }
  destruct (heapify_spec (n_timers (compacted L) / 2) (compacted L) Hs ltac:(lia)
              (heap_from_half _ _)) as (W & Q & S).
  rewrite sweep_unfold. split_and!; [split; [done|]|by rewrite Q, Hq|done|done|done].
  eapply owned_same_nodes; [exact S| | | |exact Hown].
  - intros p. by rewrite (inheap_Permutation _ _ p Q).
  - intros p. by eapply owned_nonneg.
  - intros p Hp. apply Hown. by eapply same_nodes_None.
Qed.

(** ** Pushing through the capacity policy *)

Lemma grow_spec ext L ok :
  timer_inv ext L ->
  (ok = XTC_OK -> (__grow L ok).1 = XTC_OK /\ timer_inv ext (__grow L ok).2 /\
     queued (__grow L ok).2 = queued L /\ (n_timers (__grow L ok).2 < cap_timers (__grow L ok).2)%nat /\
     nodes (__grow L ok).2 = nodes L) /\
  (ok <> XTC_OK -> __grow L ok = (ok, L)).
Proof.
  intros [[[Hc Hn Hidx Hin Hdl] Ho] Hown]. split; [intros ->|by destruct ok].
  unfold __grow. set (nc := if decide _ then _ else _).
  assert (cap_timers L <= nc /\ n_timers L < nc)%nat as [Hnc Hlt] by (unfold nc; case_decide; lia).
  simpl. set (h' := timers L ++ _).
  assert (forall j, (j < n_timers L)%nat -> h' !!! j = timers L !!! j) as HA
    by (intros j Hj; apply lookup_total_app_l; lia).
  assert (take (n_timers L) h' = take (n_timers L) (timers L)) as HQ
    by (apply take_app_le; lia).
  split_and!; try done.
  split; [split|].
  - constructor; simpl; [|lia| | |].
    + unfold h'. rewrite length_app, length_replicate. lia.
    + intros j Hj. rewrite HA by done. auto.
    + intros p t Ht. destruct (Hin p t Ht) as [?|(j & Hj & ? & ?)]; [by left|right].
      exists j. by rewrite HA.
    + intros j t Hj. rewrite HA by done. auto.
  - intros j Hj Hb. simpl in *. pose proof (parent_lt j ltac:(lia)).
    rewrite !HA by lia. by apply Ho.
  - destruct Hown as [H1 H2]. split; [|done]. intros p t Ht.
    unfold inheap, queued. simpl. rewrite HQ. by apply H1.
Qed.

Lemma unqueued L p t :
  heap_shape L -> nodes L !! p = Some t -> t_heap_idx t = -1 -> p ∉ sl_t <$> queued L.
Proof.
  intros Hs Ht Hi (s & -> & (j & Hj & <-)%elem_of_queued)%list_elem_of_fmap; [|done].
  destruct (hs_idx L Hs j Hj) as (u & Hu & E). simplify_eq. lia.
Qed.

(** A node outside the heap is untouched by a sweep. *)
Lemma sweep_other ext L p t :
  timer_inv ext L -> nodes L !! p = Some t -> t_heap_idx t = -1 ->
  exists t', nodes (__sweep_cancelled L) !! p = Some t' /\ t_heap_idx t' = -1 /\
    t_deadline t' = t_deadline t /\ t_fired t' = t_fired t.
Proof.
  intros Hinv Ht Hi. pose proof Hinv as [[Hs _] _].
  destruct (sweep_spec ext L Hinv) as ([[Hs' _] _] & Hq & _ & _ & HS).
  pose proof (unqueued L p t Hs Ht Hi) as Hp.
  destruct (compacted_nodes L p Hs) as [[_ E]|[(? & _)|(? & _)]]; [|done|done].
  specialize (HS p). rewrite E, Ht in HS. apply fmap_Some in HS as (t' & Ht' & Et).
  exists t'. split; [done|]. split; [|by destruct t, t'; simplify_eq].
  destruct (hs_in _ Hs' p t' Ht') as [?|(j & Hj & _ & <-)]; [done|].
  exfalso. apply Hp, list_elem_of_fmap_2.
  assert (timers (__sweep_cancelled L) !!! j ∈ queued (__sweep_cancelled L)) as Hx
    by (apply elem_of_queued; eauto).
  rewrite Hq in Hx. by apply list_elem_of_filter in Hx as [_ Hx].
Qed.

(** The slots a push starts from: the whole heap, or its live part after a
    sweep. *)
Definition room_of (L : xtc_loop) (q : list xtc_timer_slot) : Prop :=
  q ≡ₚ queued L \/ q ≡ₚ kept_of (nodes L) (queued L).

Lemma make_room_spec ext L realloc p t :
  timer_inv ext L -> nodes L !! p = Some t -> t_heap_idx t = -1 ->
  let r := make_room L realloc in
  timer_inv ext r.2 /\ room_of L (queued r.2) /\
  (r.1 = XTC_OK -> (n_timers r.2 < cap_timers r.2)%nat) /\
  (r.1 <> XTC_OK -> r.1 = realloc) /\
  exists t', nodes r.2 !! p = Some t' /\ t_heap_idx t' = -1 /\
    t_deadline t' = t_deadline t /\ t_fired t' = t_fired t.
Proof.
  intros Hinv Ht Hi. unfold make_room.
  case_decide as Hfull; [|split_and!; try done; [by left|simpl; lia|by exists t]].
  set (L' := if decide (0 < n_timers L)%nat then _ else L).
  assert (timer_inv ext L' /\ room_of L (queued L') /\
    exists t', nodes L' !! p = Some t' /\ t_heap_idx t' = -1 /\
      t_deadline t' = t_deadline t /\ t_fired t' = t_fired t) as (H1 & H2 & H3).
  { unfold L'. case_decide; [|split_and!; [done|by left|by exists t]].
    split_and!; [by apply sweep_spec|right; by eapply sweep_spec|by eapply sweep_other]. }
  clearbody L'. case_decide as Hg.
  - destruct (grow_spec ext L' realloc H1) as [G1 G2].
    destruct (decide (realloc = XTC_OK)) as [E|E].
    + destruct (G1 E) as (-> & ? & Hq & ? & Hn). split_and!; try done; by rewrite ?Hq, ?Hn.
    + rewrite G2 by done. by split_and!.
  - simpl. pose proof H1 as [[[_ Hn _ _ _] _] _]. split_and!; try done.
    intros _. pose proof (Nat.div_mod_eq (cap_timers L') 2). lia.
Qed.

(** The reference the caller gave up is the heap's now. *)
Lemma adds_inv ext L d p L' :
  timer_inv ext L -> adds L (mk_slot d p) L' -> p ∉ sl_t <$> queued L -> 1 <= ext p ->
  is_Some (nodes L !! p) -> timer_inv (bump ext p (-1)) L'.
Proof.
  intros [_ Hown] (W & _ & _ & _ & HQ & HS) Hp He [t Ht]. split; [done|].
  apply (fmap_Permutation sl_t) in HQ. simpl in HQ.
  eapply owned_same_nodes; [exact HS| | | |exact Hown].
  - intros q. unfold inheap, bump.
    assert (q ∈ (sl_t <$> queued L') <-> q = p \/ q ∈ (sl_t <$> queued L)) as Hq
      by (by rewrite HQ, elem_of_cons).
    repeat case_decide; subst; try lia; naive_solver.
  - intros q. pose proof (owned_nonneg ext L q Hown). unfold bump. case_decide; subst; lia.
  - intros q Hq%(same_nodes_None _ _ _ HS). unfold bump. case_decide; [congruence|].
    by apply Hown.
Qed.

Lemma heap_push_aux ext L p t realloc c L' :
  timer_inv ext L -> nodes L !! p = Some t -> t_heap_idx t = -1 -> 1 <= ext p ->
  __xtc_timer_heap_push L p realloc = (c, L') ->
  exists q, room_of L q /\
    (c = XTC_OK -> timer_inv (bump ext p (-1)) L' /\
       queued L' ≡ₚ mk_slot (t_deadline t) p :: q) /\
    (c <> XTC_OK -> c = realloc /\ timer_inv ext L' /\ queued L' = q).
Proof.
  intros Hinv Ht Hi Hext E.
  destruct (make_room_spec ext L realloc p t Hinv Ht Hi) as (H1 & H2 & H3 & H4 & t' & Ht' & Hi' & Hd' & Hf').
  unfold __xtc_timer_heap_push, __heap_push in E.
  destruct (make_room L realloc) as [c1 L1]. simpl in *.
  exists (queued L1). split; [done|]. destruct (decide (c1 = XTC_OK)) as [->|Hc1].
  2: { destruct c1; simplify_eq; split; try done; intros; split_and!; auto. }
  set (L2 := set_nodes L1 (if decide (fired_of (nodes L1) p = XTC_TIMER_FIRED)
                           then alter (with_fired 0) p (nodes L1) else nodes L1)).
  assert (timer_inv ext L2 /\ exists t2, nodes L2 !! p = Some t2 /\ t_heap_idx t2 = -1 /\
            t_deadline t2 = t_deadline t) as (Hi2 & t2 & Ht2 & Hx2 & Hd2).
  { unfold L2. case_decide; [|destruct L1; split; [done|by exists t']].
    split; [by apply timer_inv_alter|]. simpl. rewrite lookup_alter_eq, Ht'. by eexists. }
  change (if decide (fired_of (nodes L1) p = XTC_TIMER_FIRED) then _ else _) with (nodes L2) in E.
  rewrite Ht2 in E. pose proof (push_node_spec L2 p t2 (proj1 Hi2) (H3 eq_refl) Ht2 Hx2) as HA.
  change (timers L1) with (timers L2) in E. change (n_timers L1) with (n_timers L2) in E.
  destruct (__sift_up _ _ _ _) as [h ns'] eqn:Es. simplify_eq.
  split; [intros _|done]. rewrite <- Hd2.
  split; [|by destruct HA as (_ & _ & _ & _ & HQ & _)].
  eapply adds_inv; [exact Hi2|exact HA| |done|by eexists].
  apply (unqueued L2 p t2); [apply Hi2|done|done].
Qed.

(** [__xtc_timer_heap_push] of an owned, unqueued node either queues it
    -- the heap then holds exactly that slot and the slots it held before,
    less cancelled ones if a full heap was swept -- or fails with the
    allocator's code and leaves the node unqueued and still owned by the
    caller.  The heap order, indices and reference counts hold afterwards. *)
Theorem heap_push_spec ext L p t realloc c L' :
  timer_inv ext L -> nodes L !! p = Some t -> t_heap_idx t = -1 -> 1 <= ext p ->
  __xtc_timer_heap_push L p realloc = (c, L') ->
  exists q, room_of L q /\
    (c = XTC_OK -> timer_inv (bump ext p (-1)) L' /\
       queued L' ≡ₚ mk_slot (t_deadline t) p :: q) /\
    (c <> XTC_OK -> c = realloc /\ timer_inv ext L' /\ queued L' = q).
Proof. apply heap_push_aux. Qed.

(** ** The public operations keep the invariant *)

Lemma insert_fresh ext L p t :
  timer_inv ext L -> nodes L !! p = None -> t_heap_idx t = -1 -> 1 <= t_refs t ->
  timer_inv (bump ext p (t_refs t)) (set_nodes L (<[p := t]> (nodes L))).
Proof.
  intros [[[Hc Hn Hidx Hin Hdl] Ho] [H1 H2]] Hp Hi Hr. 
  assert (forall j, (j < n_timers L)%nat -> p <> sl_t (timers L !!! j)) as Hne.
  { intros j Hj ->. destruct (Hidx j Hj) as (u & Hu & _). congruence. }
  assert (inheap L p = 0) as Hh.
  { unfold inheap. rewrite decide_False; [done|].
    intros (s & -> & (j & Hj & <-)%elem_of_queued)%list_elem_of_fmap; [by eapply Hne|by constructor]. }
  split; [split; [constructor|done]|split]; simpl; try done.
  - intros j Hj. destruct (Hidx j Hj) as (u & Hu & E). exists u. by rewrite lookup_insert_ne by auto.
  - intros q u. rewrite lookup_insert. case_decide; [intros; simplify_eq; by left|apply Hin].
  - intros j u Hj. rewrite lookup_insert_ne by auto. by apply Hdl.
  - intros q u. change (inheap (set_nodes L _) q) with (inheap L q). rewrite lookup_insert.
    unfold bump. repeat case_decide; subst; try done; [|by apply H1].
    intros [= <-]. rewrite (H2 _ Hp). lia.
  - intros q [Hq Hnq]%lookup_insert_None. unfold bump. rewrite decide_False by done. by apply H2.
Qed.

Lemma delete_unqueued ext L p :
  timer_inv ext L -> p ∉ sl_t <$> queued L ->
  timer_inv (fun q => if decide (q = p) then 0 else ext q) (set_nodes L (delete p (nodes L))).
Proof.
  intros [[Hs Ho] [H1 H2]] Hp. pose proof Hs as [Hc Hn Hidx Hin Hdl].
  assert (forall j, (j < n_timers L)%nat -> p <> sl_t (timers L !!! j)) as Hne.
  { intros j Hj ->. apply Hp, list_elem_of_fmap_2, elem_of_queued; eauto. }
  split; [split; [constructor|done]|split]; simpl; try done.
  - intros j Hj. destruct (Hidx j Hj) as (u & Hu & E). exists u. by rewrite lookup_delete_ne by auto.
  - intros q u [_ Hq]%lookup_delete_Some. by apply Hin.
  - intros j u Hj [_ Hq]%lookup_delete_Some. by apply Hdl.
  - intros q u [Hq Hu]%lookup_delete_Some. change (inheap (set_nodes L _) q) with (inheap L q).
    rewrite decide_False by done. by apply H1.
  - intros q Hq%lookup_delete_None. case_decide; [done|]. apply H2. naive_solver.
Qed.

Lemma slab_ensure_inv ext L created :
  timer_inv ext L ->
  let r := __timer_slab_ensure L created in
  timer_inv ext r.2 /\ queued r.2 = queued L /\ nodes r.2 = nodes L.
Proof.
  intros Hinv. unfold __timer_slab_ensure. destruct (timer_slab L); [done|].
  destruct created; try done. destruct Hinv as [[[] Ho] Hown].
  split_and!; [split; [split; [by constructor|done]|exact Hown]|done|done].
Qed.

Lemma not_queued ext L p :
  timer_inv ext L -> nodes L !! p = None -> p ∉ sl_t <$> queued L.
Proof.
  intros [[Hs _] _] Hp (s & -> & (j & Hj & <-)%elem_of_queued)%list_elem_of_fmap; [|done].
  destruct (hs_idx L Hs j Hj) as (u & Hu & E). congruence.
Qed.

Lemma room_of_ext L L2 p q :
  queued L2 = queued L -> p ∉ sl_t <$> queued L ->
  (forall r, r <> p -> nodes L2 !! r = nodes L !! r) -> room_of L2 q -> room_of L q.
Proof.
  intros Hq Hp Hn [H|H]; rewrite Hq in H; [by left|right].
  by destruct (sweep_frame _ _ _ _ Hp Hn) as [<- _].
Qed.

Lemma room_of_not_queued L p q : room_of L q -> p ∉ sl_t <$> queued L -> p ∉ sl_t <$> q.
Proof.
  intros [H|H] Hp (s & -> & Hs)%list_elem_of_fmap; apply Hp; rewrite H in Hs.
  - by apply list_elem_of_fmap_2.
  - apply list_elem_of_filter in Hs as [_ Hs]. by apply list_elem_of_fmap_2.
Qed.

Lemma timer_set_aux ext L delay cb user want env c L' h :
  timer_inv ext L ->
  (forall p, env_node env = Some p -> nodes L !! p = None) ->
  xtc_timer_set (Some L) delay cb user want env = (c, Some L', h) ->
  exists q, room_of L q /\
    (c <> XTC_OK -> h = None /\ timer_inv ext L' /\ queued L' = q) /\
    (c = XTC_OK -> 0 <= delay /\ exists p,
       env_node env = Some p /\ h = (if want then Some p else None) /\
       timer_inv (bump ext p (if want then 1 else 0)) L' /\
       queued L' ≡ₚ mk_slot (i64 (env_now env + delay)) p :: q).
Proof.
  intros Hinv Hfresh E. unfold xtc_timer_set in E.
  assert (room_of L (queued L)) as Hq0 by (by left).
  case_decide as Hd; [simplify_eq; exists (queued L'); by split_and!|].
  pose proof (slab_ensure_inv ext L (env_slab env) Hinv) as (Hi1 & Hq1 & Hn1).
  destruct (__timer_slab_ensure L (env_slab env)) as [c1 L1]. simpl in Hi1, Hq1, Hn1.
  destruct (decide (c1 = XTC_OK)) as [->|Hc1].
  2: { exists (queued L). by destruct c1; simplify_eq; split_and!. }
  destruct (env_node env) as [p|] eqn:En; [|exists (queued L); simplify_eq; by split_and!].
  destruct (decide (env_clock env = XTC_OK)) as [Eck|Eck].
  2: { exists (queued L). destruct (env_clock env) eqn:Ec; try done; simplify_eq; by split_and!. }
  rewrite Eck in E. set (t := mk_timer _ _ _ _ _ _ _ _) in E.
  set (L2 := set_nodes L1 _) in E.
  assert (timer_inv (bump ext p (t_refs t)) L2) as Hi2.
  { apply insert_fresh; [done|rewrite Hn1; by apply Hfresh|done|by simpl; destruct want]. }
  assert (ext p = 0) as He by (apply Hinv; by apply Hfresh).
  destruct (__xtc_timer_heap_push L2 p (env_realloc env)) as [c2 L3] eqn:Ep.
  destruct (heap_push_aux _ L2 p t _ _ _ Hi2 ltac:(apply lookup_insert_eq) ltac:(done)
              ltac:(unfold bump; rewrite decide_True by done; simpl; destruct want; lia) Ep)
    as (q & Hroom & Hok & Hfail).
  assert (p ∉ sl_t <$> queued L) as Hpq by (by apply (not_queued ext); [|apply Hfresh]).
  assert (room_of L q) as Hroom'.
  { apply (room_of_ext L L2 p); [exact Hq1|done| |done].
    intros r Hr. unfold L2. simpl. by rewrite lookup_insert_ne, Hn1. }
  exists q. split; [done|].
  assert (p ∉ sl_t <$> q) as Hpq' by (by eapply room_of_not_queued).
  destruct (decide (c2 = XTC_OK)) as [->|Hc2].
  - simplify_eq. destruct (Hok eq_refl) as [Hi3 HQ3]. split; [done|]. intros _. split; [lia|].
    exists p. split_and!; [done|done| |done]. destruct Hi3 as [W3 O3]. split; [done|].
    eapply owned_ext; [|exact O3]. intros r. unfold bump. simpl. destruct want; repeat case_decide; lia.
  - destruct (Hfail Hc2) as (_ & Hi3 & <-).
    assert (c <> XTC_OK /\ h = None /\ L' = set_nodes L3 (delete p (nodes L3))) as (? & -> & ->)
      by (by destruct c2; simplify_eq).
    split; [intros _|done]. split_and!; [done| |done].
    destruct (delete_unqueued _ L3 p Hi3 Hpq') as [W3 O3]. split; [done|].
    eapply owned_ext; [|exact O3]. intros r. unfold bump. simpl. repeat case_decide; subst; lia.
Qed.

(** [xtc_timer_set] with a fresh node keeps the heap's invariant on
    every path.  A negative delay, a failed slab, clock or reallocation
    returns its code, queues nothing and leaves no node behind; success
    queues one slot at [now + delay] (as the 64-bit addition gives it) and
    leaves the caller exactly one reference when it asked for a handle. *)
Theorem timer_set_spec ext L delay cb user want env c L' h :
  timer_inv ext L ->
  (forall p, env_node env = Some p -> nodes L !! p = None) ->
  xtc_timer_set (Some L) delay cb user want env = (c, Some L', h) ->
  exists q, room_of L q /\
    (c <> XTC_OK -> h = None /\ timer_inv ext L' /\ queued L' = q) /\
    (c = XTC_OK -> 0 <= delay /\ exists p,
       env_node env = Some p /\ h = (if want then Some p else None) /\
       timer_inv (bump ext p (if want then 1 else 0)) L' /\
       queued L' ≡ₚ mk_slot (i64 (env_now env + delay)) p :: q).
Proof. apply timer_set_aux. Qed.

Lemma remote_cancel_lookup ns p t :
  ns !! p = Some t -> t_fired t = 0 ->
  remote_cancel ns p !! p = Some (with_cancelled 1 (with_fired XTC_TIMER_CANCELLED t)).
Proof.
  intros Ht Hf. unfold remote_cancel, fired_of. rewrite Ht, decide_True by done.
  by rewrite lookup_alter_eq, Ht.
Qed.

Lemma release_fired ns p t :
  ns !! p = Some t -> 2 <= t_refs t ->
  fired_of (__xtc_timer_park_release ns (Some p)) p = t_fired t.
Proof.
  intros Ht Hr. unfold __xtc_timer_park_release, fired_of. rewrite Ht.
  rewrite !decide_False by lia. by rewrite lookup_insert_eq.
Qed.

(** The owner-thread half of a cancel: unlink the node, drop the heap's
    reference; the caller's own reference keeps the node alive. *)
Lemma cancel_unlink ext L p t :
  timer_inv ext L -> nodes L !! p = Some t -> 1 <= ext p -> 0 <= t_heap_idx t ->
  let L2 := __heap_remove_at L (Z.to_nat (t_heap_idx t)) in
  let L3 := set_nodes L2 (__xtc_timer_park_release (nodes L2) (Some p)) in
  timer_inv ext L3 /\ (forall q, fired_of (nodes L3) q = fired_of (nodes L) q) /\
  exists d, queued L ≡ₚ mk_slot d p :: queued L3 /\ (p ∉ sl_t <$> queued L3).
Proof.
  intros Hinv Ht He Hidx. set (i := Z.to_nat (t_heap_idx t)).
  assert (i < n_timers L /\ sl_t (timers L !!! i) = p)%nat as [Hi Ep].
  { destruct (hs_in L (proj1 (proj1 Hinv)) p _ Ht) as [H|(j & Hj & H & Hp)]; [lia|].
    assert (i = j) as -> by (unfold i; lia). done. }
  pose proof (remove_at_spec L i (proj1 Hinv) Hi) as HR.
  pose proof (removed_not_queued L i _ (proj1 Hinv) Hi HR) as Hnq.
  pose proof (removes_owned ext L i _ (proj1 Hinv) Hi HR (proj2 Hinv)) as Hown.
  destruct HR as (W2 & _ & _ & _ & HP & HS). rewrite Ep in *.
  set (L2 := __heap_remove_at L i) in *. cbv zeta.
  split_and!; [split| |].
  - by apply heap_wf_release.
  - eapply owned_ext; [|apply release_owned; [exact Hown|]];
      [intros q|]; unfold bump; repeat case_decide; done || lia.
  - intros q. rewrite <- (same_nodes_fired _ _ q HS). simpl.
    destruct (decide (q = p)) as [->|Hq].
    + destruct (nodes L2 !! p) as [t2|] eqn:Ht2; [|pose proof (same_nodes_None _ _ _ HS Ht2); congruence].
      destruct (proj1 Hown p t2 Ht2) as (Er & _). unfold bump, inheap in Er.
      rewrite decide_False, decide_True in Er by done.
      rewrite (release_fired _ _ _ Ht2) by lia. unfold fired_of. by rewrite Ht2.
    + unfold fired_of. by rewrite lookup_release_ne by done.
  - exists (sl_deadline (timers L !!! i)). split; [|done].
    rewrite <- HP, <- Ep. by destruct (timers L !!! i).
Qed.

Lemma try_cancel_aux ext L p t on_owner r L' :
  timer_inv ext L -> nodes L !! p = Some t -> 1 <= ext p ->
  __xtc_timer_try_cancel L p on_owner = (r, L') ->
  timer_inv ext L' /\ (r = 1 <-> t_fired t = 0) /\ (r = 0 \/ r = 1) /\
  (r = 0 -> L' = L) /\
  (r = 1 -> fired_of (nodes L') p = XTC_TIMER_CANCELLED /\
     (forall q, q <> p -> fired_of (nodes L') q = fired_of (nodes L) q) /\
     (if decide (on_owner = true /\ 0 <= t_heap_idx t)
      then exists d, queued L ≡ₚ mk_slot d p :: queued L' /\ (p ∉ sl_t <$> queued L')
      else queued L' = queued L)).
Proof.
  intros Hinv Ht He E. unfold __xtc_timer_try_cancel in E.
  assert (fired_of (nodes L) p = t_fired t) as Hft by (unfold fired_of; by rewrite Ht).
  rewrite Hft in E. case_decide as Hf; [|simplify_eq; split_and!; try done; lia].
  set (L1 := set_nodes L (remote_cancel (nodes L) p)) in *.
  pose proof (timer_inv_remote_cancel ext L p Hinv) as Hi1. fold L1 in Hi1.
  pose proof (remote_cancel_lookup (nodes L) p t Ht Hf) as Hl1.
  change (remote_cancel (nodes L) p) with (nodes L1) in Hl1. rewrite Hl1 in E. simpl in E.
  assert (fired_of (nodes L1) p = XTC_TIMER_CANCELLED) as Hf1 by (unfold fired_of; by rewrite Hl1).
  assert (forall q, q <> p -> fired_of (nodes L1) q = fired_of (nodes L) q) as Hfq
    by (intros q Hq; by apply remote_cancel_fired_ne).
  case_decide as Ho; simplify_eq; [|split_and!; try done; lia].
  destruct (cancel_unlink ext L1 p _ Hi1 Hl1 He (proj2 Ho)) as (H1 & H2 & H3).
  split_and!; [done|done|by right|done|]. intros _. split_and!; [by rewrite H2| |done].
  intros q Hq. rewrite H2. by apply Hfq.
Qed.

(** [__xtc_timer_try_cancel] by an owner of the node returns 1 exactly
    when the timer was still armed; it then marks it CANCELLED for good.  On
    the loop's own thread the node has also left the heap on return, and
    only that node; on another thread (or once the node has left the heap)
    the heap is untouched.  Heap order, indices and reference counts are
    kept, and the caller's reference stays valid. *)
Theorem try_cancel_spec ext L p t on_owner r L' :
  timer_inv ext L -> nodes L !! p = Some t -> 1 <= ext p ->
  __xtc_timer_try_cancel L p on_owner = (r, L') ->
  timer_inv ext L' /\ (r = 1 <-> t_fired t = 0) /\ (r = 0 \/ r = 1) /\
  (r = 0 -> L' = L) /\
  (r = 1 -> fired_of (nodes L') p = XTC_TIMER_CANCELLED /\
     (forall q, q <> p -> fired_of (nodes L') q = fired_of (nodes L) q) /\
     (if decide (on_owner = true /\ 0 <= t_heap_idx t)
      then exists d, queued L ≡ₚ mk_slot d p :: queued L' /\ (p ∉ sl_t <$> queued L')
      else queued L' = queued L)).
Proof. apply try_cancel_aux. Qed.

(** ** A cancel is final

    A node that someone outside the heap still owns stays CANCELLED through
    every operation of the loop. *)

Definition keeps (ext : positive -> Z) (L L' : xtc_loop) : Prop :=
  forall q, 1 <= ext q -> fired_of (nodes L) q = XTC_TIMER_CANCELLED ->
    fired_of (nodes L') q = XTC_TIMER_CANCELLED.

Lemma keeps_trans ext L1 L2 L3 : keeps ext L1 L2 -> keeps ext L2 L3 -> keeps ext L1 L3.
Proof. unfold keeps. auto. Qed.

Lemma keeps_same_nodes ext L L' : same_nodes (nodes L) (nodes L') -> keeps ext L L'.
Proof. intros H q _ Hq. by rewrite (same_nodes_fired _ _ q H). Qed.

Lemma keeps_drop_top ext L :
  timer_inv ext L -> (0 < n_timers L)%nat -> keeps ext L (drop_top L).
Proof.
  intros Hinv Hn q He Hf. unfold drop_top. rewrite pop_is_remove by done.
  set (top := sl_t (timers L !!! 0%nat)).
  destruct (decide (q = top)) as [->|Hne].
  - destruct (hs_idx L (proj1 (proj1 Hinv)) 0%nat Hn) as (t & Ht & Hi). fold top in Ht.
    destruct (cancel_unlink ext L top t Hinv Ht He ltac:(lia)) as (_ & H & _).
    rewrite Hi in H. simpl in *. by rewrite H.
  - pose proof (remove_at_spec L 0 (proj1 Hinv) Hn) as (_&_&_&_&_&HS). simpl.
    unfold fired_of. rewrite lookup_release_ne by done.
    by rewrite <- Hf, <- (same_nodes_fired _ _ q HS).
Qed.

Lemma keeps_remote_cancel ext L p : keeps ext L (set_nodes L (remote_cancel (nodes L) p)).
Proof.
  intros q _ Hf. simpl. destruct (decide (p = q)) as [->|Hne].
  - unfold remote_cancel. rewrite decide_False by (by rewrite Hf). done.
  - by rewrite remote_cancel_fired_ne.
Qed.

Lemma keeps_pop_due fuel race ext L now_ns :
  (n_timers L < fuel)%nat -> timer_inv ext L ->
  keeps ext L (pop_due_loop fuel race L now_ns).2.
Proof.
  revert race L. induction fuel as [|fuel IH]; intros race L Hf Hinv; [lia|]. simpl.
  unfold __heap_top_unsafe. case_decide as Hn; [by intros q|].
  assert (Hpos : (0 < n_timers L)%nat) by lia.
  case_match; [|case_decide; [by intros q|]].
  - eapply keeps_trans; [by apply keeps_drop_top|].
    destruct (drop_top_spec ext L Hinv Hpos) as (Hi & E & _). apply IH; [lia|done].
  - set (L1 := if default false (head race) then _ else L).
    assert (timer_inv ext L1 /\ n_timers L1 = n_timers L /\ keeps ext L L1) as (Hi1 & Hn1 & Hk1).
    { unfold L1. destruct (default false (head race)); [|split_and!; [done|done|by intros q]].
      split_and!; [by apply timer_inv_remote_cancel|done|apply keeps_remote_cancel]. }
    apply (keeps_trans _ _ _ _ Hk1). clearbody L1. case_decide as Hf1.
    + intros q Hq Hc. rewrite pop_is_remove by (simpl; lia). simpl.
      set (L2 := set_nodes L1 _).
      assert (timer_inv ext L2) as Hi2 by (by apply timer_inv_alter).
      pose proof (remove_at_spec L2 0 (proj1 Hi2) ltac:(simpl; lia)) as (_&_&_&_&_&HS).
      rewrite (same_nodes_fired _ _ q HS). simpl. rewrite fired_alter_ne; [done|].
      intros E. rewrite <- E, Hf1 in Hc. done.
    + eapply keeps_trans; [apply keeps_drop_top; done || lia|].
      destruct (drop_top_spec ext L1 Hi1 ltac:(lia)) as (Hi & E & _). apply IH; [lia|done].
Qed.

Lemma keeps_next_deadline fuel ext L :
  (n_timers L < fuel)%nat -> timer_inv ext L -> keeps ext L (next_deadline_loop fuel L).2.
Proof.
  revert L. induction fuel as [|fuel IH]; intros L Hf Hinv; [lia|]. simpl.
  case_decide as Hn; [by intros q|]. case_match; [|by intros q].
  eapply keeps_trans; [apply keeps_drop_top; done || lia|].
  destruct (drop_top_spec ext L Hinv ltac:(lia)) as (Hi & E & _). apply IH; [lia|done].
Qed.

Lemma keeps_sweep ext L : timer_inv ext L -> keeps ext L (__sweep_cancelled L).
Proof.
  intros Hinv. destruct (sweep_spec ext L Hinv) as (_ & _ & _ & _ & HS).
  eapply keeps_trans; [|by apply keeps_same_nodes].
  intros q He Hf. destruct (nodes L !! q) as [t|] eqn:Ht; [|unfold fired_of in Hf; by rewrite Ht in Hf].
  unfold fired_of. unfold fired_of in Hf. rewrite Ht in Hf.
  destruct (compacted_nodes L q (proj1 (proj1 Hinv))) as [[_ E]|[(Hq & _ & _ & E)|(_ & k & u & _ & _ & E)]];
    rewrite E; [by rewrite Ht| |by rewrite Ht].
  destruct (proj1 (proj2 Hinv) q t Ht) as (Hr & _). unfold inheap in Hr. rewrite decide_True in Hr by done.
  destruct (swept_cases _ _ _ Ht) as [[? _]|(_ & t' & -> & _ & _ & Hft)]; [lia|lia|congruence].
Qed.

Lemma keeps_heap_push ext L p t realloc :
  timer_inv ext L -> nodes L !! p = Some t -> t_heap_idx t = -1 ->
  keeps ext L (__xtc_timer_heap_push L p realloc).2.
Proof.
  intros Hinv Ht Hi. unfold __xtc_timer_heap_push, __heap_push.
  destruct (make_room_spec ext L realloc p t Hinv Ht Hi) as (H1 & _ & H3 & _ & t' & Ht' & Hi' & _).
  assert (keeps ext L (make_room L realloc).2) as Hk.
  { unfold make_room. case_decide; [|by intros q]. set (L' := if decide _ then _ else L).
    assert (keeps ext L L') by (unfold L'; case_decide; [by apply keeps_sweep|by intros q]).
    case_decide; [|done]. unfold __grow. by destruct realloc. }
  destruct (make_room L realloc) as [c1 L1]. simpl in *.
  destruct c1; try done. eapply keeps_trans; [exact Hk|].
  set (L2 := set_nodes L1 (if decide (fired_of (nodes L1) p = XTC_TIMER_FIRED)
                           then alter (with_fired 0) p (nodes L1) else nodes L1)).
  assert (keeps ext L1 L2) as Hk2.
  { unfold L2. case_decide as D; [|by destruct L1; intros q]. intros q _ Hq. simpl.
    rewrite fired_alter_ne; [done|]. intros ->. by rewrite D in Hq. }
  assert (timer_inv ext L2) as Hi2.
  { unfold L2. case_decide; [by apply timer_inv_alter|by destruct L1]. }
  change (if decide (fired_of (nodes L1) p = XTC_TIMER_FIRED) then _ else _) with (nodes L2).
  apply (keeps_trans _ _ _ _ Hk2). destruct (nodes L2 !! p) as [t2|] eqn:Ht2.
  2: { intros q _ Hq. exfalso. unfold L2 in Ht2. case_decide; simpl in Ht2.
       - by rewrite lookup_alter_eq, Ht' in Ht2.
       - congruence. }
  assert (t_heap_idx t2 = -1) as Hx2.
  { unfold L2 in Ht2. case_decide; simpl in Ht2; [rewrite lookup_alter_eq, Ht' in Ht2|]; by simplify_eq/=. }
  pose proof (push_node_spec L2 p t2 (proj1 Hi2) (H3 eq_refl) Ht2 Hx2) as HA.
  change (timers L1) with (timers L2). change (n_timers L1) with (n_timers L2).
  destruct (__sift_up _ _ _ _) as [h ns']. apply keeps_same_nodes. apply HA.
Qed.

(** Releasing an owner's reference: a queued node has the heap's too, so it
    is not freed. *)
Lemma release_inv ext L p :
  timer_inv ext L -> 1 <= ext p ->
  timer_inv (bump ext p (-1)) (set_nodes L (__xtc_timer_park_release (nodes L) (Some p))).
Proof.
  intros [Hwf Ho] Hp. split; [|by apply release_owned].
  destruct (decide (p ∈ sl_t <$> queued L)) as [Hq|Hq]; [|by apply heap_wf_release].
  unfold __xtc_timer_park_release. destruct (nodes L !! p) as [t|] eqn:Et; [|by destruct L].
  destruct (proj1 Ho p t Et) as (Hr & _). unfold inheap in Hr. rewrite decide_True in Hr by done.
  rewrite !decide_False by lia.
  assert (<[p := with_refs (t_refs t - 1) t]> (nodes L) =
          alter (fun u => with_refs (t_refs u - 1) u) p (nodes L)) as ->.
  { apply map_eq. intros q. rewrite lookup_insert, lookup_alter.
    case_decide; [subst; by rewrite Et|done]. }
  by apply heap_wf_alter.
Qed.

(** ** Runs of the timer subsystem *)

(** What the users of the heap can see of one operation. *)
Inductive timer_label : Type :=
  | LSet (p : positive)          (** queued by [xtc_timer_set] *)
  | LFire (p : positive)         (** claimed by the owner's drain *)
  | LCancel (p : positive) (r : Z)
  | LRelease (p : positive)      (** an owner outside the heap lets go *)
  | LTau.

(** One operation, with the owners outside the heap before and after. *)
Inductive timer_step : (positive -> Z) * xtc_loop -> timer_label ->
    (positive -> Z) * xtc_loop -> Prop :=
  | ts_set ext L delay cb user want env L' h p :
      env_node env = Some p -> nodes L !! p = None ->
      xtc_timer_set (Some L) delay cb user want env = (XTC_OK, Some L', h) ->
      timer_step (ext, L) (LSet p) (bump ext p (if want then 1 else 0), L')
  | ts_set_fail ext L delay cb user want env c L' h :
      (forall p, env_node env = Some p -> nodes L !! p = None) ->
      xtc_timer_set (Some L) delay cb user want env = (c, Some L', h) -> c <> XTC_OK ->
      timer_step (ext, L) LTau (ext, L')
  | ts_fire ext L race now p L' :
      __xtc_timer_heap_pop_due race L now = (Some p, L') ->
      timer_step (ext, L) (LFire p) (bump ext p 1, L')
  | ts_none_due ext L race now L' :
      __xtc_timer_heap_pop_due race L now = (None, L') ->
      timer_step (ext, L) LTau (ext, L')
  | ts_peek ext L :
      timer_step (ext, L) LTau (ext, (__xtc_timer_heap_next_deadline L).2)
  | ts_repush ext L p t now realloc c L' :
      (* the drain's late-fire path: the popped node goes back, a microsecond
         later; if the heap cannot grow it stays with the drain, which fires it *)
      nodes L !! p = Some t -> t_fired t = XTC_TIMER_FIRED -> t_heap_idx t = -1 ->
      1 <= ext p ->
      __xtc_timer_heap_push (set_nodes L (alter (with_deadline (i64 (now + 1000))) p (nodes L))) p realloc = (c, L') ->
      timer_step (ext, L) LTau (if decide (c = XTC_OK) then bump ext p (-1) else ext, L')
  | ts_cancel ext L p t on_owner r L' :
      nodes L !! p = Some t -> 1 <= ext p ->
      __xtc_timer_try_cancel L p on_owner = (r, L') ->
      timer_step (ext, L) (LCancel p r) (ext, L')
  | ts_release ext L p :
      1 <= ext p ->
      timer_step (ext, L) (LRelease p)
        (bump ext p (-1), set_nodes L (__xtc_timer_park_release (nodes L) (Some p))).

Inductive timer_run : (positive -> Z) * xtc_loop -> list timer_label ->
    (positive -> Z) * xtc_loop -> Prop :=
  | run_nil s : timer_run s [] s
  | run_cons s1 l s2 ls s3 :
      timer_step s1 l s2 -> timer_run s2 ls s3 -> timer_run s1 (l :: ls) s3.

Definition loop0 : xtc_loop := mk_loop [] 0 0 false ∅.

Lemma loop0_inv : timer_inv (fun _ => 0) loop0.
Proof. split; [split; [constructor|]|split]; simpl; try done; try lia. Qed.

Lemma timer_step_inv s l s' :
  timer_step s l s' -> timer_inv s.1 s.2 -> timer_inv s'.1 s'.2.
Proof.
  intros Hst Hinv. destruct Hst; cbn [fst snd] in *.
  - destruct (timer_set_aux ext L delay cb user want env XTC_OK L' h Hinv) as (q & _ & _ & H');
      [naive_solver|done|]. destruct (H' eq_refl) as (_ & p' & ? & _ & ? & _). by simplify_eq.
  - by destruct (timer_set_aux ext L delay cb user want env c L' h Hinv) as (q & _ & (_ & ? & _) & _).
  - pose proof (pop_due_loop_spec (S (n_timers L)) race ext L now ltac:(lia) Hinv) as (d & _ & Hp).
    unfold __xtc_timer_heap_pop_due in *. rewrite H in Hp. by destruct Hp.
  - pose proof (pop_due_loop_spec (S (n_timers L)) race ext L now ltac:(lia) Hinv) as (d & _ & Hp).
    unfold __xtc_timer_heap_pop_due in *. rewrite H in Hp. by destruct Hp.
  - by apply (next_deadline_loop_spec (S (n_timers L)) ext L); [lia|].
  - pose proof (timer_inv_delay ext L p t (i64 (now + 1000)) H H1 Hinv) as Hinv'.
    destruct (heap_push_aux ext _ p (with_deadline (i64 (now + 1000)) t) realloc c L' Hinv') as (q & _ & HO & HF); try done.
    { simpl. by rewrite lookup_alter_eq, H. }
    case_decide as Hc; [by apply HO|by apply HF].
  - by eapply try_cancel_aux.
  - by apply release_inv.
Qed.

Lemma timer_run_inv s ls s' :
  timer_run s ls s' -> timer_inv s.1 s.2 -> timer_inv s'.1 s'.2.
Proof. induction 1; [done|]. intros. eauto using timer_step_inv. Qed.

Lemma keeps_set ext L delay cb user want env c L' h :
  timer_inv ext L -> (forall p, env_node env = Some p -> nodes L !! p = None) ->
  xtc_timer_set (Some L) delay cb user want env = (c, Some L', h) -> keeps ext L L'.
Proof.
  intros Hinv Hfr. unfold xtc_timer_set. case_decide; [intros; simplify_eq; by intros q|].
  destruct (slab_ensure_inv ext L (env_slab env) Hinv) as (H1 & _ & Hn1).
  destruct (__timer_slab_ensure L (env_slab env)) as [c1 L1]. simpl in *.
  assert (keeps ext L L1) as Hk1 by (intros q; by rewrite Hn1).
  destruct c1; intros E; try by simplify_eq.
  destruct (env_node env) as [p|] eqn:Ep; [|by simplify_eq].
  specialize (Hfr p eq_refl). rewrite <- Hn1 in Hfr.
  destruct (env_clock env); try by simplify_eq.
  set (t := mk_timer _ _ _ _ _ _ _ _) in E. set (L2 := set_nodes L1 _) in E.
  assert (timer_inv (bump ext p (t_refs t)) L2) as H2.
  { apply insert_fresh; [done|done|done|]. simpl. destruct want; lia. }
  pose proof (keeps_heap_push (bump ext p (t_refs t)) L2 p t (env_realloc env) H2) as Hk.
  specialize (Hk ltac:(simpl; by rewrite lookup_insert_eq) eq_refl).
  assert (forall q, 1 <= ext q -> fired_of (nodes L) q = XTC_TIMER_CANCELLED ->
    q <> p /\ fired_of (nodes (__xtc_timer_heap_push L2 p (env_realloc env)).2) q = XTC_TIMER_CANCELLED) as HK.
  { intros q Hq Hc.
    assert (q <> p) as Hne.
    { intros ->. rewrite Hn1 in Hfr. unfold fired_of in Hc. by rewrite Hfr in Hc. }
    split; [done|]. apply Hk; [unfold bump; by rewrite decide_False|].
    simpl. unfold fired_of. rewrite lookup_insert_ne by done. by rewrite Hn1. }
  destruct (__xtc_timer_heap_push L2 p (env_realloc env)) as [c3 L3]. simpl in HK.
  intros q Hq Hc. destruct (HK q Hq Hc) as [Hne Hf].
  destruct c3; simplify_eq/=; try done; unfold fired_of; by rewrite lookup_delete_ne.
Qed.

Lemma bump_ge ext p d q : 1 <= ext q -> 0 <= d -> 1 <= bump ext p d q.
Proof. intros. unfold bump. case_decide; lia. Qed.

(** A step other than [q]'s release keeps an owned, cancelled [q] owned and
    cancelled, and does not fire it. *)
Lemma timer_step_cancelled s l s' q :
  timer_step s l s' -> timer_inv s.1 s.2 -> l <> LRelease q ->
  1 <= s.1 q -> fired_of (nodes s.2) q = XTC_TIMER_CANCELLED ->
  l <> LFire q /\ 1 <= s'.1 q /\ fired_of (nodes s'.2) q = XTC_TIMER_CANCELLED.
Proof.
  intros Hst Hinv Hl Hq Hc. destruct Hst; cbn [fst snd] in *.
  - split_and!; [done|apply bump_ge; [done|destruct want; lia]|].
    eapply keeps_set; [exact Hinv| |done|done|done]. naive_solver.
  - split_and!; [done|done|]. eapply keeps_set; [exact Hinv| |done|done|done]. naive_solver.
  - pose proof (pop_due_loop_spec (S (n_timers L)) race ext L now ltac:(lia) Hinv) as (d & _ & Hp).
    pose proof (keeps_pop_due (S (n_timers L)) race ext L now ltac:(lia) Hinv q Hq Hc) as Hk.
    unfold __xtc_timer_heap_pop_due in *. rewrite H in Hp, Hk.
    destruct Hp as (_ & dd & _ & _ & Hz & _). split_and!; [|by apply bump_ge|done].
    intros [= ->]. by rewrite Hz in Hc.
  - pose proof (keeps_pop_due (S (n_timers L)) race ext L now ltac:(lia) Hinv q Hq Hc) as Hk.
    unfold __xtc_timer_heap_pop_due in *. by rewrite H in Hk.
  - pose proof (keeps_next_deadline (S (n_timers L)) ext L ltac:(lia) Hinv q Hq Hc). done.
  - assert (q <> p) as Hne by (intros ->; unfold fired_of in Hc; rewrite H, H0 in Hc; done).
    pose proof (timer_inv_delay ext L p t (i64 (now + 1000)) H H1 Hinv) as Hinv'.
    pose proof (keeps_heap_push ext _ p (with_deadline (i64 (now + 1000)) t) realloc Hinv'
      ltac:(simpl; by rewrite lookup_alter_eq, H) H1 q Hq) as Hk. rewrite H3 in Hk.
    split_and!; [done|case_decide; [unfold bump; by rewrite decide_False|done]|].
    apply Hk. simpl. by rewrite fired_alter_ne.
  - destruct (try_cancel_aux ext L p t on_owner r L' Hinv H H0 H1) as (_ & _ & [->| ->] & Hz & Ho).
    + by rewrite (Hz eq_refl).
    + destruct (Ho eq_refl) as (Hf & Hne & _). split_and!; [done|done|].
      destruct (decide (q = p)) as [->|D]; [done|]. by rewrite Hne.
  - assert (p <> q) by congruence. split_and!; [done|unfold bump; by rewrite decide_False|].
    cbn. unfold fired_of. by rewrite lookup_release_ne.
Qed.

(** *** The claims *)

(** C4: from an empty heap, every run of sets (succeeding or failing at any
    point), drains with concurrent cancels, deadline peeks, late re-pushes,
    cancels on or off the owner thread and releases keeps the heap order,
    the index link between every cell and its node, and the count of every
    node's owners (so no node is freed while it has one). *)
Theorem timer_run_safe ls ext L :
  timer_run (fun _ => 0, loop0) ls (ext, L) -> timer_inv ext L.
Proof. intros Hr. apply (timer_run_inv _ _ _ Hr loop0_inv). Qed.

(** A cancel is final.  Once an owned timer is CANCELLED, no run of the
    loop fires it, until that owner releases the node. *)
Theorem cancelled_never_fires ext L p ls s' :
  timer_inv ext L -> 1 <= ext p -> fired_of (nodes L) p = XTC_TIMER_CANCELLED ->
  timer_run (ext, L) ls s' -> (LRelease p ∉ ls) -> LFire p ∉ ls.
Proof.
  intros Hinv Hp Hc Hr. remember (ext, L) as s eqn:Es.
  assert (timer_inv s.1 s.2 /\ 1 <= s.1 p /\ fired_of (nodes s.2) p = XTC_TIMER_CANCELLED)
    as (Hi & H1 & H2) by (by subst). clear Es Hinv Hp Hc.
  induction Hr as [s|s1 l s2 ls s3 Hst Hr IH]; intros Hl; [set_solver|].
  destruct (timer_step_cancelled _ _ _ p Hst Hi) as (Hf & H3 & H4); [set_solver|done|done|].
  apply not_elem_of_cons. split; [congruence|].
  apply IH; [by eapply timer_step_inv|done|done|set_solver].
Qed.

(** [__xtc_timer_heap_pop_due] drops cancelled roots (including ones a
    concurrent cancel wins against its claim) until it can claim an armed
    root that is due, which it marks FIRED and returns with the heap's
    reference -- a minimum of what remains -- or until nothing that is left
    is due.  The heap, indices and counts are kept; without a concurrent
    cancel only nodes whose state is no longer armed are dropped. *)
Theorem pop_due_spec race ext L now_ns :
  timer_inv ext L ->
  pop_result race ext L now_ns (__xtc_timer_heap_pop_due race L now_ns).1
                               (__xtc_timer_heap_pop_due race L now_ns).2.
Proof. intros Hinv. apply pop_due_loop_spec; [lia|done]. Qed.

(** [__xtc_timer_heap_next_deadline] drops only cancelled roots and
    returns the earliest deadline left, of a node that is not cancelled, or
    -1 exactly when the heap is left empty. *)
Theorem next_deadline_spec ext L :
  timer_inv ext L ->
  let out := __xtc_timer_heap_next_deadline L in
  timer_inv ext out.2 /\
  exists dropped, queued L ≡ₚ dropped ++ queued out.2 /\
    Forall (fun s => fired_of (nodes L) (sl_t s) = XTC_TIMER_CANCELLED) dropped /\
    (queued out.2 = [] /\ out.1 = -1 \/
     exists s, s ∈ queued out.2 /\ out.1 = sl_deadline s /\
       fired_of (nodes L) (sl_t s) <> XTC_TIMER_CANCELLED /\
       forall s', s' ∈ queued out.2 -> out.1 <= sl_deadline s').
Proof. intros Hinv. apply next_deadline_loop_spec; [lia|done]. Qed.

(** The sifts that move a hole compute the same array as the swap-based
    sifts they replaced, so equal deadlines keep popping in the same order. *)
Theorem hole_sift_is_swap_sift h ns n i x :
  (i < length h)%nat -> (n <= length h)%nat ->
  (__sift_up h ns i x).1 = swap_sift_up i (<[i := x]> h) i /\
  (__sift_down h ns n i x).1 = swap_sift_down n (<[i := x]> h) n i.
Proof. intros. split; [by apply sift_up_loop_swap|by apply sift_down_loop_swap]. Qed.

(** *** A concrete loop for the witnesses: three timers, one cancelled *)

Definition demo_env (p : positive) : set_env := mk_set_env XTC_OK (Some p) XTC_OK 100 XTC_OK.

Definition demo_set (L : xtc_loop) (delay : Z) (p : positive) : xtc_loop :=
  default L (xtc_timer_set (Some L) delay 7 8 true (demo_env p)).1.2.

Definition demo1 : xtc_loop := demo_set loop0 50 1.
Definition demo2 : xtc_loop := demo_set demo1 20 2.
Definition demo3 : xtc_loop := demo_set demo2 30 3.
Definition demo4 : xtc_loop := (__xtc_timer_try_cancel demo3 2 false).2.

Definition demo_ext3 : positive -> Z := bump (bump (bump (fun _ => 0) 1 1) 2 1) 3 1.

Lemma demo_run : timer_run (fun _ => 0, loop0) [LSet 1; LSet 2; LSet 3; LCancel 2 1]
                   (demo_ext3, demo4).
Proof.
  eapply run_cons; [eapply (ts_set _ loop0 50 7 8 true (demo_env 1)); vm_compute; reflexivity|].
  eapply run_cons; [eapply (ts_set _ demo1 20 7 8 true (demo_env 2)); vm_compute; reflexivity|].
  eapply run_cons; [eapply (ts_set _ demo2 30 7 8 true (demo_env 3)); vm_compute; reflexivity|].
  eapply run_cons; [|apply run_nil].
  eapply (ts_cancel _ demo3 2 _ false); [vm_compute; reflexivity|vm_compute; discriminate|].
  vm_compute. reflexivity.
Qed.

Lemma demo_inv : timer_inv demo_ext3 demo4.
Proof. apply (timer_run_inv _ _ _ demo_run loop0_inv). Qed.

(** The drain at time 200, a node popped by it, and the loop it leaves. *)
Definition demo_pop := __xtc_timer_heap_pop_due [false] demo4 200.

Lemma timer_run_safe_witness : timer_inv demo_ext3 demo4.
Proof. exact (timer_run_safe _ _ _ demo_run). Defined.

Lemma cancelled_never_fires_witness :
  fired_of (nodes demo4) 2 = XTC_TIMER_CANCELLED /\ (LFire 2 ∉ [LFire 3]).
Proof.
  split; [vm_compute; reflexivity|].
  apply (cancelled_never_fires demo_ext3 demo4 2 [LFire 3] (bump demo_ext3 3 1, demo_pop.2)).
  - exact demo_inv.
  - vm_compute. discriminate.
  - vm_compute. reflexivity.
  - eapply run_cons; [|apply run_nil]. eapply (ts_fire _ _ [false] 200). vm_compute. reflexivity.
  - rewrite list_elem_of_singleton. discriminate.
Defined.

(** Timer 2 was due first but is cancelled: timer 3 fires, timer 1 is left. *)
Lemma pop_due_spec_witness :
  demo_pop.1 = Some 3%positive /\ pop_result [false] demo_ext3 demo4 200 demo_pop.1 demo_pop.2.
Proof.
  split; [vm_compute; reflexivity|]. exact (pop_due_spec [false] demo_ext3 demo4 200 demo_inv).
Defined.

Lemma next_deadline_spec_witness :
  (__xtc_timer_heap_next_deadline demo4).1 = 130 /\
  timer_inv demo_ext3 (__xtc_timer_heap_next_deadline demo4).2.
Proof.
  split; [vm_compute; reflexivity|]. exact (proj1 (next_deadline_spec demo_ext3 demo4 demo_inv)).
Defined.

Lemma hole_sift_is_swap_sift_witness :
  (__sift_up (timers demo3) (nodes demo3) 2 (mk_slot 5 3)).1 =
  swap_sift_up 2 (<[2%nat := mk_slot 5 3]> (timers demo3)) 2.
Proof.
  refine (proj1 (hole_sift_is_swap_sift (timers demo3) (nodes demo3) 3 2 (mk_slot 5 3) _ _));
    vm_compute; lia.
Defined.

Lemma timer_set_spec_witness :
  exists L', xtc_timer_set (Some demo4) 5 7 8 false (demo_env 4) = (XTC_OK, Some L', None) /\
    timer_inv (bump demo_ext3 4 0) L'.
Proof.
  destruct (xtc_timer_set (Some demo4) 5 7 8 false (demo_env 4)) as [[c [L'|]] h] eqn:E;
    [|vm_compute in E; discriminate].
  assert (c = XTC_OK /\ h = None) as [-> ->] by (vm_compute in E; by simplify_eq).
  exists L'. split; [done|].
  destruct (timer_set_spec demo_ext3 demo4 5 7 8 false (demo_env 4) XTC_OK L' None demo_inv)
    as (q & _ & _ & H); [|exact E|].
  - intros p [= <-]. vm_compute. reflexivity.
  - destruct (H eq_refl) as (_ & p & [= <-] & _ & Hi & _). exact Hi.
Defined.

Lemma heap_push_spec_witness :
  exists q, room_of demo_pop.2 q /\
    queued (__xtc_timer_heap_push demo_pop.2 3 XTC_OK).2 ≡ₚ mk_slot 130 3 :: q.
Proof.
  assert (timer_inv (bump demo_ext3 3 1) demo_pop.2) as Hi.
  { pose proof (pop_due_loop_spec (S (n_timers demo4)) [false] demo_ext3 demo4 200
                  ltac:(lia) demo_inv) as Hp.
    change (pop_due_loop (S (n_timers demo4)) [false] demo4 200) with demo_pop in Hp.
    assert (demo_pop.1 = Some 3%positive) as E by (vm_compute; reflexivity).
    rewrite E in Hp. destruct Hp as (d & _ & H & _). exact H. }
  destruct (nodes demo_pop.2 !! 3%positive) as [t|] eqn:Et; [|vm_compute in Et; discriminate].
  assert (t_heap_idx t = -1 /\ t_deadline t = 130) as [Hi3 Hd]
    by (vm_compute in Et; simplify_eq; done).
  set (r := __xtc_timer_heap_push demo_pop.2 3 XTC_OK).
  destruct (heap_push_spec (bump demo_ext3 3 1) demo_pop.2 3 t XTC_OK r.1 r.2 Hi Et Hi3)
    as (q & Hq & H & _); [vm_compute; discriminate|apply surjective_pairing|].
  exists q. split; [exact Hq|]. rewrite <- Hd. apply H. vm_compute. reflexivity.
Defined.

Lemma try_cancel_spec_witness :
  exists L', __xtc_timer_try_cancel demo4 1 true = (1, L') /\ timer_inv demo_ext3 L' /\
    fired_of (nodes L') 1 = XTC_TIMER_CANCELLED.
Proof.
  destruct (__xtc_timer_try_cancel demo4 1 true) as [r L'] eqn:E.
  assert (r = 1) as -> by (vm_compute in E; by simplify_eq).
  destruct (nodes demo4 !! 1%positive) as [t|] eqn:Et; [|vm_compute in Et; discriminate].
  destruct (try_cancel_spec demo_ext3 demo4 1 t true 1 L' demo_inv Et) as (H1 & _ & _ & _ & H2);
    [vm_compute; discriminate|exact E|].
  exists L'. split; [done|]. split; [exact H1|]. apply (H2 eq_refl).
Defined.
