(* ===== verification/Chan.v ===== *)
(** * Channels: oneshot, watch, mpmc, broadcast and demand (src/ptc/chan.c)

    One module per channel kind; the lock-free mpsc channel is in Mpsc.v.
    A pointer is [Z] with NULL as 0, a struct pointer that may be NULL is an
    [option].  The accountant a channel points to through its [res] field is
    passed beside the channel ([None] when the field is NULL).  Channels
    that hold their mutex through an operation are functions on their
    record; the oneshot's atomics are also modelled as interleaved steps.
    Wakers are numbers, and an operation returns the wakers it fires. *)

From S2P Require Import Prelude Res.

Local Open Scope Z_scope.

(** ** The accountant, as the channels use it *)

(** [if (res != NULL) rc = xtc_res_acquire(res, k, n)] *)
Definition charge (r : option xtc_res) (k n : Z) : rc * option xtc_res :=
  match r with
  | None => (XTC_OK, None)
  | Some _ => (xtc_res_acquire r k n).1
  end.

(** [if (res != NULL) xtc_res_release(res, k, n)] *)
Definition uncharge (r : option xtc_res) (k n : Z) : option xtc_res :=
  match r with
  | None => None
  | Some _ => xtc_res_release r k n
  end.

Definition acct_wf (r : option xtc_res) : Prop :=
  match r with None => True | Some r => res_wf r end.

(** Units of kind [k] in use; none when there is no accountant. *)
Definition in_use (r : option xtc_res) (k : Z) : Z := xtc_res_used r k.
#[global] Arguments in_use : simpl never.

(** [r'] holds [d] more units of kind [k] than [r] and is otherwise equal in
    use; it is NULL exactly when [r] is. *)
Definition moved (r r' : option xtc_res) (k d : Z) : Prop :=
  acct_wf r' /\ (r' = None <-> r = None) /\
  forall j, kind_ok j -> r <> None ->
    in_use r' j = in_use r j + (if decide (j = k) then d else 0).

Lemma moved_refl r k : acct_wf r -> moved r r k 0.
Proof. intros. split_and!; [done|done|]. intros. case_decide; lia. Qed.

Lemma moved_trans r1 r2 r3 k d e : moved r1 r2 k d -> moved r2 r3 k e -> moved r1 r3 k (d + e).
Proof.
  intros (W1 & N1 & H1) (W2 & N2 & H2). split_and!; [done|tauto|].
  intros j Hj Hn. rewrite H2, H1 by tauto. case_decide; lia.
Qed.

Lemma in_use_Some r k : kind_ok k -> in_use (Some r) k = res_used r !!! kidx k.
Proof. intros. unfold in_use, xtc_res_used, res_read. by rewrite decide_True. Qed.

Lemma moved_Some r r1 k d :
  res_wf r1 ->
  (forall j, kind_ok j -> res_used r1 !!! kidx j =
     res_used r !!! kidx j + (if decide (j = k) then d else 0)) ->
  moved (Some r) (Some r1) k d.
Proof.
  intros Hwf H. split_and!; [done|split; discriminate|].
  intros j Hj _. rewrite !in_use_Some by done. auto.
Qed.

(** Charging one unit either adds it or refuses and changes no use. *)
Lemma charge_spec r k n c r' :
  acct_wf r -> kind_ok k -> 0 <= n <= INT64_MAX -> charge r k n = (c, r') ->
  (c = XTC_OK /\ moved r r' k n) \/ (c = XTC_E_RESOURCE /\ r <> None /\ moved r r' k 0).
Proof.
  intros Hwf Hk Hn E. destruct r as [r|]; [|simpl in E; simplify_eq; left; by split_and!].
  destruct (acquire_spec_aux r k n Hwf Hk Hn) as (r1 & evs & Ea & Hwf' & _ & H).
  unfold charge in E. rewrite Ea in E. simpl in E. simplify_eq.
  case_decide as Hf; [left|right]; split_and!; try done; apply moved_Some; try done;
    intros j Hj; destruct (H j Hj) as [-> _]; repeat case_decide; subst; naive_solver lia.
Qed.

(** Releasing units that are in use. *)
Lemma uncharge_spec r k n :
  acct_wf r -> kind_ok k -> 0 <= n -> (r <> None -> n <= in_use r k) ->
  moved r (uncharge r k n) k (- n).
Proof.
  intros Hwf Hk Hn Hle. destruct r as [r|]; [|by split_and!].
  specialize (Hle ltac:(done)). unfold uncharge.
  destruct (decide (n = 0)) as [->|Hne].
  { unfold xtc_res_release. rewrite decide_True by (left; lia). by apply moved_refl. }
  destruct (release_spec r k n Hwf Hk) as (r1 & E & Hwf' & _ & _ & _ & H); [lia|].
  rewrite E. rewrite in_use_Some in Hle by done. apply moved_Some; [done|]. intros j Hj.
  rewrite (H j Hj).
  repeat case_decide; subst; try done; lia.
Qed.

Lemma moved_use r r' k d :
  moved r r' k d -> kind_ok k -> r <> None -> in_use r' k = in_use r k + d.
Proof. intros (_ & _ & H) Hk Hn. rewrite H by done. by rewrite decide_True. Qed.

Lemma in_use_nonneg r : acct_wf r -> forall k, kind_ok k -> 0 <= in_use r k.
Proof.
  intros Hwf k Hk. destruct r as [r|]; [|done]. rewrite in_use_Some by done. by apply Hwf.
Qed.

(** A unit that was charged can be given back. *)
Lemma uncharge_after r r1 k n :
  acct_wf r -> moved r r1 k n -> kind_ok k -> 0 <= n -> moved r (uncharge r1 k n) k 0.
Proof.
  intros Hwf Hm Hk Hn. pose proof (in_use_nonneg r Hwf k Hk). pose proof Hm as (W & N & _). replace 0 with (n + - n) by lia.
  eapply moved_trans; [exact Hm|]. apply uncharge_spec; [done|done|done|].
  intros Hr1. rewrite (moved_use _ _ _ _ Hm) by (done || tauto). lia.
Qed.

(** Units of kind [k] in use beyond the [n] slots a channel's messages hold;
    [None] when there is no accountant. *)
Definition use_beyond (r : option xtc_res) (n : nat) (k : Z) : option Z :=
  match r with
  | None => None
  | Some _ => Some (in_use r k - (if decide (k = XTC_RES_CHAN_SLOTS) then Z.of_nat n else 0))
  end.

Lemma use_beyond_moved r r' d n n' k :
  moved r r' XTC_RES_CHAN_SLOTS d -> Z.of_nat n' = Z.of_nat n + d -> kind_ok k ->
  use_beyond r' n' k = use_beyond r n k.
Proof.
  intros (_ & HN & Hu) Hn Hk. unfold use_beyond.
  destruct r as [r|], r' as [r'|]; [|by destruct HN as [HN _]; specialize (HN eq_refl)
    |by destruct HN as [_ HN]; specialize (HN eq_refl)|done].
  rewrite (Hu k) by done. f_equal. case_decide; lia.
Qed.

Lemma kinds_ok : kind_ok XTC_RES_CHANNELS /\ kind_ok XTC_RES_CHAN_SLOTS.
Proof. done. Qed.

(** ** Ring buffers

    The [n] cells from [rd] on, in reading order, of a ring of [cap] cells. *)

Definition ring_list (slots : list Z) (cap rd n : nat) : list Z :=
  (fun i => slots !!! ((rd + i) mod cap)%nat) <$> seq 0 n.

Lemma length_ring_list slots cap rd n : length (ring_list slots cap rd n) = n.
Proof. unfold ring_list. by rewrite length_fmap, length_seq. Qed.

Lemma ring_index_ne cap rd i j :
  (i < cap)%nat -> (j < cap)%nat -> i <> j -> ((rd + i) mod cap <> (rd + j) mod cap)%nat.
Proof.
  intros Hi Hj Hne E.
  pose proof (Nat.div_mod_eq (rd + i) cap). pose proof (Nat.div_mod_eq (rd + j) cap).
  assert (cap * ((rd + i) / cap) + j = cap * ((rd + j) / cap) + i)%nat by lia.
  set (a := ((rd + i) / cap)%nat) in *. set (b := ((rd + j) / cap)%nat) in *.
  destruct (Nat.lt_trichotomy a b) as [Hab|[Hab|Hab]].
  - pose proof (Nat.mul_le_mono_l (S a) b cap Hab). lia.
  - rewrite Hab in *. lia.
  - pose proof (Nat.mul_le_mono_l (S b) a cap Hab). lia.
Qed.

Lemma ring_push slots cap rd n m :
  length slots = cap -> (n < cap)%nat ->
  ring_list (<[((rd + n) mod cap)%nat := m]> slots) cap rd (S n) = ring_list slots cap rd n ++ [m].
Proof.
  intros Hl Hn. unfold ring_list. rewrite seq_S, fmap_app. simpl. f_equal.
  - apply list_fmap_ext. intros k i Hi%lookup_seq. simpl in Hi.
    rewrite list_lookup_total_insert_ne; [done|]. apply ring_index_ne; lia.
  - rewrite list_lookup_total_insert_eq; [done|]. rewrite Hl. apply Nat.mod_upper_bound. lia.
Qed.

Lemma ring_pop slots cap rd n :
  (0 < cap)%nat -> (0 < n)%nat -> (rd < cap)%nat ->
  ring_list slots cap rd n =
    slots !!! rd :: ring_list slots cap ((rd + 1) mod cap) (n - 1).
Proof.
  intros Hc Hn Hr. destruct n as [|n]; [lia|]. unfold ring_list. simpl.
  rewrite Nat.add_0_r, Nat.mod_small by done. f_equal.
  rewrite <- seq_shift, <- list_fmap_compose. replace (n - 0)%nat with n by lia.
  apply list_fmap_ext. intros k i _. simpl. f_equal.
  rewrite Nat.Div0.add_mod_idemp_l. f_equal. lia.
Qed.

(** ** A bounded FIFO, as its clients see it

    What a queue of messages promises: an accepted send appends, a receive
    takes the oldest message, and everything else leaves the queue alone. *)

Class Fifo (Q : Type) := mk_Fifo {
  fifo_wf : Q -> Prop;
  fifo_list : Q -> list Z;
  fifo_others : Q -> Z -> option Z;   (** units in use that no queued message holds *)
  fifo_send : Q -> Z -> rc * Q;
  fifo_recv : Q -> rc * option Z * Q;
}.

Class FifoLaws (Q : Type) `{Fifo Q} : Prop := mk_FifoLaws {
  fifo_send_spec q m c q' :
    fifo_wf q -> fifo_send q m = (c, q') ->
    fifo_wf q' /\ (forall k, kind_ok k -> fifo_others q' k = fifo_others q k) /\
    fifo_list q' = if decide (c = XTC_OK) then fifo_list q ++ [m] else fifo_list q;
  fifo_recv_spec q c v q' :
    fifo_wf q -> fifo_recv q = (c, v, q') ->
    fifo_wf q' /\ (forall k, kind_ok k -> fifo_others q' k = fifo_others q k) /\
    ((c = XTC_OK /\ exists x, v = Some x /\ fifo_list q = x :: fifo_list q') \/
     (c <> XTC_OK /\ v = None /\ fifo_list q = [] /\ fifo_list q' = []));
}.

(** Clients of a queue: any sequence of sends and receives. *)
Inductive fifo_op : Type := OpSend (m : Z) | OpRecv.

Section FifoClient.
Context {Q : Type} `{FifoLaws Q}.

(** The messages accepted and the messages delivered by a run. *)
Fixpoint fifo_run (q : Q) (ops : list fifo_op) : list Z * list Z * Q :=
  match ops with
  | [] => ([], [], q)
  | OpSend m :: ops =>
      let '(c, q1) := fifo_send q m in
      let '(acc, del, q') := fifo_run q1 ops in
      (if decide (c = XTC_OK) then m :: acc else acc, del, q')
  | OpRecv :: ops =>
      let '(_, v, q1) := fifo_recv q in
      let '(acc, del, q') := fifo_run q1 ops in
      (acc, match v with Some x => x :: del | None => del end, q')
  end.

(** What was queued or accepted is what was delivered followed by what is
    still queued, in order: nothing is lost, duplicated or reordered. *)
Lemma fifo_run_exact q ops acc del q' :
  fifo_wf q -> fifo_run q ops = (acc, del, q') ->
  fifo_wf q' /\ (forall k, kind_ok k -> fifo_others q' k = fifo_others q k) /\
  fifo_list q ++ acc = del ++ fifo_list q'.
Proof.
  revert q acc del q'. induction ops as [|[m|] ops IH]; intros q acc del q' Hwf; simpl.
  - intros [= <- <- <-]. by rewrite app_nil_r.
  - destruct (fifo_send q m) as [c q1] eqn:Es.
    destruct (fifo_send_spec _ _ _ _ Hwf Es) as (Hwf1 & Eo & El).
    destruct (fifo_run q1 ops) as [[acc1 del1] q2] eqn:Er. intros [= <- <- <-].
    destruct (IH _ _ _ _ Hwf1 Er) as (Hwf2 & Eo2 & E). rewrite <- E, El.
    split_and!; [done|by intros k Hk; rewrite Eo2, Eo|]. case_decide; [by rewrite <- app_assoc|done].
  - destruct (fifo_recv q) as [[c v] q1] eqn:Es.
    destruct (fifo_recv_spec _ _ _ _ Hwf Es) as (Hwf1 & Eo & Hv).
    destruct (fifo_run q1 ops) as [[acc1 del1] q2] eqn:Er. intros [= <- <- <-].
    destruct (IH _ _ _ _ Hwf1 Er) as (Hwf2 & Eo2 & E).
    split_and!; [done|by intros k Hk; rewrite Eo2, Eo|].
    destruct Hv as [(_ & x & -> & ->)|(_ & -> & -> & El)]; simpl; [by rewrite E|].
    by rewrite <- E, El.
Qed.
End FifoClient.

(** ** mpmc: a mutex-protected ring *)

Module Mpmc.

Record xtc_chan_mpmc := mk_mpmc {
  mq_cap : nat;
  mq_slots : list Z;
  mq_head : nat;         (** next write *)
  mq_tail : nat;         (** next read *)
  mq_n : nat;
  mq_closed : bool;
}.

(** [out] is the test [out != NULL], [a1] and [a2] the outcomes of the two
    allocations. *)
Definition xtc_chan_mpmc_create (r : option xtc_res) (capacity : nat) (out : bool) (a1 a2 : rc)
  : rc * option xtc_chan_mpmc * option xtc_res :=
  if decide (out = false \/ capacity = 0%nat) then (XTC_E_INVAL, None, r)
  else
    match charge r XTC_RES_CHANNELS 1 with
    | (XTC_OK, r1) =>
        if decide (a1 <> XTC_OK) then (a1, None, uncharge r1 XTC_RES_CHANNELS 1)
        else if decide (a2 <> XTC_OK) then (a2, None, uncharge r1 XTC_RES_CHANNELS 1)
        else (XTC_OK, Some (mk_mpmc capacity (replicate capacity NULL) 0 0 0 false), r1)
    | (e, r1) => (e, None, r1)
    end.

(** The accountant after the channel is destroyed. *)
Definition xtc_chan_mpmc_destroy (c : option xtc_chan_mpmc) (r : option xtc_res)
  : option xtc_res :=
  match c with
  | None => r
  | Some c => uncharge (uncharge r XTC_RES_CHAN_SLOTS (Z.of_nat (mq_n c))) XTC_RES_CHANNELS 1
  end.

(** [spurious] is the fault injector's draw: report a channel that is not
    full as full. *)
Definition xtc_chan_mpmc_try_send (c : option xtc_chan_mpmc) (msg : Z) (spurious : bool)
    (r : option xtc_res) : rc * option xtc_chan_mpmc * option xtc_res :=
  match c with
  | None => (XTC_E_INVAL, None, r)
  | Some c =>
      if decide (msg = NULL) then (XTC_E_INVAL, Some c, r)
      else
        match charge r XTC_RES_CHAN_SLOTS 1 with
        | (XTC_OK, r1) =>
            let '(rc, c') :=
              if mq_closed c then (XTC_E_INVAL, c)
              else if decide ((mq_cap c <= mq_n c)%nat \/ spurious = true) then (XTC_E_AGAIN, c)
              else (XTC_OK,
                    mk_mpmc (mq_cap c) (<[mq_head c := msg]> (mq_slots c))
                      ((mq_head c + 1) mod mq_cap c) (mq_tail c) (S (mq_n c)) (mq_closed c)) in
            (rc, Some c', if decide (rc <> XTC_OK) then uncharge r1 XTC_RES_CHAN_SLOTS 1 else r1)
        | (e, r1) => (e, Some c, r1)
        end
  end.

(** [out] is [out != NULL]; the value written to it is returned. *)
Definition xtc_chan_mpmc_try_recv (c : option xtc_chan_mpmc) (out : bool)
    (r : option xtc_res) : rc * option Z * option xtc_chan_mpmc * option xtc_res :=
  match c with
  | None => (XTC_E_INVAL, None, None, r)
  | Some c =>
      if out then
        if decide (0 < mq_n c)%nat then
          (XTC_OK, Some (mq_slots c !!! mq_tail c),
           Some (mk_mpmc (mq_cap c) (mq_slots c) (mq_head c)
                   ((mq_tail c + 1) mod mq_cap c) (mq_n c - 1) (mq_closed c)),
           uncharge r XTC_RES_CHAN_SLOTS 1)
        else (if mq_closed c then XTC_E_INVAL else XTC_E_AGAIN, None, Some c, r)
      else (XTC_E_INVAL, None, Some c, r)
  end.

Definition xtc_chan_mpmc_close (c : option xtc_chan_mpmc) : rc * option xtc_chan_mpmc :=
  match c with
  | None => (XTC_E_INVAL, None)
  | Some c => (XTC_OK, Some (mk_mpmc (mq_cap c) (mq_slots c) (mq_head c) (mq_tail c) (mq_n c) true))
  end.

Definition xtc_chan_mpmc_len (c : option xtc_chan_mpmc) : nat :=
  match c with None => 0%nat | Some c => mq_n c end.

#[global] Arguments xtc_chan_mpmc_try_send : simpl never.
#[global] Arguments xtc_chan_mpmc_try_recv : simpl never.

(** The queued messages, oldest first. *)
Definition mq_list (c : xtc_chan_mpmc) : list Z :=
  ring_list (mq_slots c) (mq_cap c) (mq_tail c) (mq_n c).

Record mq_wf (c : xtc_chan_mpmc) (r : option xtc_res) : Prop := mk_mq_wf {
  mq_len : length (mq_slots c) = mq_cap c;
  mq_ring : mq_head c = ((mq_tail c + mq_n c) mod mq_cap c)%nat;
  mq_rd : (mq_tail c < mq_cap c)%nat;
  mq_bound : (mq_n c <= mq_cap c)%nat;
  mq_acct : acct_wf r;
  mq_units : r <> None -> Z.of_nat (mq_n c) <= in_use r XTC_RES_CHAN_SLOTS;
}.

(** A channel, its accountant, and the fault injector's draws to come. *)
Definition mq_state : Type := (xtc_chan_mpmc * option xtc_res) * list bool.

Lemma moved_acct r r' k d : moved r r' k d -> acct_wf r' /\ (r' <> None <-> r <> None).
Proof. intros (? & ? & _). tauto. Qed.

(** Every branch of a send on a live channel. *)
Lemma mq_send_spec c m sp r code c' r' :
  mq_wf c r -> xtc_chan_mpmc_try_send (Some c) m sp r = (code, Some c', r') ->
  mq_wf c' r' /\
  (code = XTC_OK <-> m <> NULL /\ (charge r XTC_RES_CHAN_SLOTS 1).1 = XTC_OK /\
     mq_closed c = false /\ (mq_n c < mq_cap c)%nat /\ sp = false) /\
  (code = XTC_OK -> mq_list c' = mq_list c ++ [m] /\ mq_n c' = S (mq_n c) /\
     moved r r' XTC_RES_CHAN_SLOTS 1) /\
  (code <> XTC_OK -> c' = c /\ moved r r' XTC_RES_CHAN_SLOTS 0).
Proof.
  intros Hwf. pose proof Hwf as [Hl Hh Hrd Hb Ha Hu]. unfold xtc_chan_mpmc_try_send.
  case_decide as Hm.
  { intros [= <- <- <-]. split_and!; try done; [naive_solver|]. intros _. split; [done|].
    by apply moved_refl. }
  destruct (charge r XTC_RES_CHAN_SLOTS 1) as [e r1] eqn:Ec.
  destruct (charge_spec r XTC_RES_CHAN_SLOTS 1 e r1 Ha ltac:(done) ltac:(by vm_compute) Ec)
    as [[-> Hmv]|(-> & Hn & Hmv)].
  2: { intros [= <- <- <-]. pose proof (moved_acct _ _ _ _ Hmv) as [Ha1 Hn1].
       split_and!; try done; [|naive_solver].
       constructor; try done. intros Hr1. rewrite (moved_use _ _ _ _ Hmv) by (done || tauto).
       specialize (Hu Hn). lia. }
  pose proof (moved_acct _ _ _ _ Hmv) as [Ha1 Hn1].
  assert (moved r (uncharge r1 XTC_RES_CHAN_SLOTS 1) XTC_RES_CHAN_SLOTS 0) as Hback.
  { by apply uncharge_after. }
  assert (mq_wf c (uncharge r1 XTC_RES_CHAN_SLOTS 1)) as Hwf0.
  { pose proof (moved_acct _ _ _ _ Hback) as [Ha2 Hn2]. constructor; try done.
    intros Hr. rewrite (moved_use _ _ _ _ Hback) by (done || tauto). rewrite Z.add_0_r. apply Hu. tauto. }
  destruct (mq_closed c) eqn:Ecl; [|case_decide as Hf]; simpl; intros [= <- <- <-].
  - split_and!; try done. naive_solver.
  - split_and!; try done. split; [done|]. intros (_ & _ & _ & ? & ?). destruct Hf; [lia|congruence].
  - assert ((mq_n c < mq_cap c)%nat /\ sp = false) as [Hlt ->] by (destruct sp; naive_solver lia).
    split_and!; try done.
    + constructor; simpl; try done; try lia.
      * by rewrite length_insert.
      * rewrite Hh, Nat.Div0.add_mod_idemp_l. f_equal. lia.
      * intros Hr. rewrite (moved_use _ _ _ _ Hmv) by (done || tauto). specialize (Hu ltac:(tauto)). lia.
    + intros _. split_and!; [|done|done]. unfold mq_list. simpl. rewrite Hh. by apply ring_push.
Qed.

Lemma mq_recv_spec c r code v c' r' :
  mq_wf c r -> xtc_chan_mpmc_try_recv (Some c) true r = (code, v, Some c', r') ->
  mq_wf c' r' /\
  ((0 < mq_n c)%nat -> code = XTC_OK /\ (exists x, v = Some x /\ mq_list c = x :: mq_list c') /\
     mq_n c = S (mq_n c') /\ moved r r' XTC_RES_CHAN_SLOTS (-1)) /\
  (mq_n c = 0%nat -> code = (if mq_closed c then XTC_E_INVAL else XTC_E_AGAIN) /\
     v = None /\ c' = c /\ r' = r).
Proof.
  intros Hwf. pose proof Hwf as [Hl Hh Hrd Hb Ha Hu]. unfold xtc_chan_mpmc_try_recv.
  case_decide as Hn; intros [= <- <- <- <-]; [|split_and!; [done|lia|done]].
  assert (moved r (uncharge r XTC_RES_CHAN_SLOTS 1) XTC_RES_CHAN_SLOTS (-1)) as Hm.
  { apply uncharge_spec; [done|done|lia|]. intros Hr. specialize (Hu Hr). lia. }
  pose proof (moved_acct _ _ _ _ Hm) as [Ha2 Hn2].
  assert (((mq_tail c + 1) mod mq_cap c < mq_cap c)%nat) by (apply Nat.mod_upper_bound; lia).
  split_and!; [constructor; simpl; try done; try lia| |lia].
  - rewrite Hh, Nat.Div0.add_mod_idemp_l. f_equal. lia.
  - intros Hr. rewrite (moved_use _ _ _ _ Hm) by (done || tauto). specialize (Hu ltac:(tauto)). lia.
  - intros _. split_and!; [done| |simpl; lia|done]. eexists. split; [done|].
    unfold mq_list. simpl. apply ring_pop; lia.
Qed.

#[global] Instance mq_fifo : Fifo mq_state := {|
  fifo_wf q := mq_wf q.1.1 q.1.2;
  fifo_list q := mq_list q.1.1;
  fifo_others q := use_beyond q.1.2 (mq_n q.1.1);
  fifo_send q m :=
    let '(c, c', r') := xtc_chan_mpmc_try_send (Some q.1.1) m (default false (head q.2)) q.1.2 in
    (c, (default q.1.1 c', r', tail q.2));
  fifo_recv q :=
    let '(c, v, c', r') := xtc_chan_mpmc_try_recv (Some q.1.1) true q.1.2 in
    (c, v, (default q.1.1 c', r', q.2));
|}.

#[global] Instance mq_fifo_laws : FifoLaws mq_state.
Proof.
  constructor.
  - intros [[c r] sp] m code [[c' r'] sp']. simpl. intros Hwf.
    destruct (xtc_chan_mpmc_try_send (Some c) m (default false (head sp)) r)
      as [[code1 [c1|]] r1] eqn:E;
      [|exfalso; revert E; unfold xtc_chan_mpmc_try_send; repeat case_match; intros; simplify_eq].
    intros ?; simplify_eq/=.
    destruct (mq_send_spec _ _ _ _ _ _ _ Hwf E) as (Hwf' & _ & Hok & Hno). split; [done|].
    case_decide as D.
    + destruct (Hok D) as (El & En & Hm). split; [|done]. intros k. eapply use_beyond_moved; [exact Hm|lia].
    + destruct (Hno D) as (-> & Hm). split; [|done]. intros k. eapply use_beyond_moved; [exact Hm|lia].
  - intros [[c r] sp] code v [[c' r'] sp']. simpl. intros Hwf.
    destruct (xtc_chan_mpmc_try_recv (Some c) true r) as [[[code1 v1] [c1|]] r1] eqn:E;
      [|exfalso; revert E; unfold xtc_chan_mpmc_try_recv; repeat case_match; intros; simplify_eq].
    intros ?; simplify_eq/=.
    destruct (mq_recv_spec _ _ _ _ _ _ Hwf E) as (Hwf' & Hok & Hno). split; [done|].
    destruct (decide (0 < mq_n c)%nat) as [Hn|Hn].
    + destruct (Hok Hn) as (-> & Hx & En & Hm). split; [|by left].
      intros k. eapply use_beyond_moved; [exact Hm|lia].
    + destruct (Hno ltac:(lia)) as (-> & -> & -> & ->). split; [done|]. right.
      assert (mq_list c = []) by (unfold mq_list, ring_list; by replace (mq_n c) with 0%nat by lia).
      split_and!; try done. by destruct (mq_closed c).
Qed.

(** Creation either hands out an empty channel charged as one channel, or
    fails and leaves the accountant's uses as they were. *)
Lemma mq_create_spec r capacity out a1 a2 code c r' :
  acct_wf r ->
  xtc_chan_mpmc_create r capacity out a1 a2 = (code, c, r') ->
  (code = XTC_OK /\ exists q, c = Some q /\ mq_wf q r' /\ mq_list q = [] /\ mq_n q = 0%nat /\
     mq_cap q = capacity /\ mq_closed q = false /\ moved r r' XTC_RES_CHANNELS 1) \/
  (code <> XTC_OK /\ c = None /\ moved r r' XTC_RES_CHANNELS 0).
Proof.
  intros Hwf. pose proof (in_use_nonneg r Hwf) as Hu. unfold xtc_chan_mpmc_create. case_decide as Hi.
  { intros [= <- <- <-]. right. split_and!; [done|done|by apply moved_refl]. }
  destruct (charge r XTC_RES_CHANNELS 1) as [e r1] eqn:Ec.
  destruct (charge_spec r XTC_RES_CHANNELS 1 e r1 Hwf ltac:(done) ltac:(by vm_compute) Ec)
    as [[-> Hm]|(-> & Hn & Hm)]; [|intros [= <- <- <-]; right; by split_and!].
  assert (moved r (uncharge r1 XTC_RES_CHANNELS 1) XTC_RES_CHANNELS 0) as Hback.
  { by apply uncharge_after. }
  case_decide as H1; [intros [= <- <- <-]; right; by split_and!|].
  case_decide as H2; [intros [= <- <- <-]; right; by split_and!|].
  intros [= <- <- <-]. left. split; [done|]. eexists. split; [done|].
  pose proof (moved_acct _ _ _ _ Hm) as [Ha Hnn].
  assert (0 < capacity)%nat by (destruct capacity; [exfalso; apply Hi; by right|lia]).
  split_and!; try done. constructor; simpl; try done; try lia.
  - by rewrite length_replicate.
  - by rewrite Nat.Div0.mod_0_l.
  - intros Hr. destruct Hm as (_ & _ & Hm). rewrite (Hm XTC_RES_CHAN_SLOTS) by (done || tauto).
    specialize (Hu XTC_RES_CHAN_SLOTS ltac:(done)). simpl. lia.
Qed.

Lemma mq_destroy_spec c r r0 :
  mq_wf c r -> acct_wf r0 ->
  (forall k, kind_ok k -> use_beyond r (mq_n c) k =
     use_beyond r0 0 k ≫= fun u => Some (u + if decide (k = XTC_RES_CHANNELS) then 1 else 0)) ->
  forall k, kind_ok k -> in_use (xtc_chan_mpmc_destroy (Some c) r) k = in_use r0 k.
Proof.
  intros [_ _ _ _ Ha Hu] Hwf0 Hb k Hk. unfold xtc_chan_mpmc_destroy.
  pose proof (in_use_nonneg r0 Hwf0) as Hp.
  assert (r0 = None -> r = None) as Hn0.
  { intros ->. specialize (Hb k Hk). by destruct r. }
  destruct r as [r|]; [|destruct r0; [specialize (Hb k Hk); done|done]].
  destruct r0 as [r0|]; [|naive_solver].
  assert (forall k, kind_ok k -> in_use (Some r) k = in_use (Some r0) k +
    (if decide (k = XTC_RES_CHANNELS) then 1 else 0) +
    (if decide (k = XTC_RES_CHAN_SLOTS) then Z.of_nat (mq_n c) else 0)) as Hb'.
  { intros j Hj. specialize (Hb j Hj). unfold use_beyond in Hb. cbn [mbind option_bind] in Hb. apply (inj Some) in Hb.
    repeat case_decide; lia. }
  destruct (uncharge_spec (Some r) XTC_RES_CHAN_SLOTS (Z.of_nat (mq_n c)) Ha ltac:(done) ltac:(lia) Hu)
    as (W1 & N1 & H1).
  destruct (uncharge_spec (uncharge (Some r) XTC_RES_CHAN_SLOTS (Z.of_nat (mq_n c)))
              XTC_RES_CHANNELS 1 W1) as (W2 & N2 & H2); [done|lia| |].
  { intros _. rewrite H1, Hb' by done. simpl. specialize (Hp XTC_RES_CHANNELS ltac:(done)). lia. }
  rewrite H2, H1, Hb' by (done || naive_solver). repeat case_decide; subst; try done; lia.
Qed.

(** An mpmc channel from creation to destruction, for any sequence of
    sends and receives (full, closed-accountant and injected refusals
    included): the accepted messages are exactly the delivered ones followed
    by the queued ones, in order, at most [capacity] are queued, and
    destroying the channel leaves every kind of the accountant as it was
    before the channel existed. *)
Theorem mpmc_lifecycle r capacity a1 a2 c r1 faults ops acc del c' r2 faults' :
  acct_wf r ->
  xtc_chan_mpmc_create r capacity true a1 a2 = (XTC_OK, Some c, r1) ->
  fifo_run ((c, r1), faults) ops = (acc, del, ((c', r2), faults')) ->
  acc = del ++ mq_list c' /\ xtc_chan_mpmc_len (Some c') = length (mq_list c') /\
  (length (mq_list c') <= mq_cap c')%nat /\
  forall k, kind_ok k -> in_use (xtc_chan_mpmc_destroy (Some c') r2) k = in_use r k.
Proof.
  intros Hwf Ec Er.
  destruct (mq_create_spec _ _ _ _ _ _ _ _ Hwf Ec) as [(_ & q & [= ->] & Hq & El & En & _ & _ & Hm)|[? _]];
    [|done].
  assert (fifo_wf ((q, r1), faults)) as Hq0 by exact Hq.
  destruct (fifo_run_exact _ _ _ _ _ Hq0 Er) as (Hq' & Eo & E).
  simpl in Eo, E, Hq'. rewrite El in E. unfold mq_list. rewrite length_ring_list.
  split_and!; [done|done|apply Hq'|]. apply mq_destroy_spec; [done|done|].
  intros k Hk. rewrite Eo, En by done. destruct Hm as (_ & N1 & H1).
  destruct r as [r|], r1 as [r1|]; simpl; try (exfalso; naive_solver); [|done].
  rewrite H1 by done. f_equal. repeat case_decide; lia.
Qed.

(** Capacity two, the fault injector refusing the second send. *)
Definition mq_demo : list fifo_op :=
  [OpSend 5; OpSend 6; OpSend 7; OpSend 8; OpRecv; OpSend 9; OpRecv].

Definition mq_start := xtc_chan_mpmc_create (Some res0) 2 true XTC_OK XTC_OK.
Definition mq_demo_run :=
  fifo_run ((default (mk_mpmc 0 [] 0 0 0 false) mq_start.1.2, mq_start.2), [false; true]) mq_demo.

Lemma mpmc_lifecycle_witness :
  mq_demo_run.1 = ([5; 7; 9], [5; 7]) /\ mq_list mq_demo_run.2.1.1 = [9] /\
  [5; 7; 9] = [5; 7] ++ mq_list mq_demo_run.2.1.1.
Proof.
  split; [vm_compute; reflexivity|]. split; [vm_compute; reflexivity|].
  refine (proj1 (mpmc_lifecycle (Some res0) 2 XTC_OK XTC_OK
    (default (mk_mpmc 0 [] 0 0 0 false) mq_start.1.2) mq_start.2 [false; true] mq_demo
    [5; 7; 9] [5; 7] mq_demo_run.2.1.1 mq_demo_run.2.1.2 mq_demo_run.2.2 (wf_fresh _) _ _));
    vm_compute; reflexivity.
Defined.

End Mpmc.

(** ** demand: a ring whose sends are gated by the consumer's requests *)

Module Demand.

Record xtc_chan_demand := mk_demand {
  dq_slots : list Z;
  dq_cap : nat;
  dq_head : nat;             (** next recv index *)
  dq_tail : nat;             (** next send index *)
  dq_n : nat;
  dq_demand : Z;             (** a size_t *)
  dq_closed : bool;
  dq_prod_waker : Z;
  dq_cons_waker : Z;
  dq_has_prod_waker : bool;
  dq_has_cons_waker : bool;
}.

Definition set_demand (c : xtc_chan_demand) (d : Z) : xtc_chan_demand :=
  mk_demand (dq_slots c) (dq_cap c) (dq_head c) (dq_tail c) (dq_n c) d (dq_closed c)
    (dq_prod_waker c) (dq_cons_waker c) (dq_has_prod_waker c) (dq_has_cons_waker c).
Definition set_ring (c : xtc_chan_demand) (slots : list Z) (head tail n : nat) : xtc_chan_demand :=
  mk_demand slots (dq_cap c) head tail n (dq_demand c) (dq_closed c)
    (dq_prod_waker c) (dq_cons_waker c) (dq_has_prod_waker c) (dq_has_cons_waker c).

Definition xtc_chan_demand_create (r : option xtc_res) (capacity : nat) (out : bool) (a1 a2 : rc)
  : rc * option xtc_chan_demand * option xtc_res :=
  if decide (out = false \/ capacity = 0%nat) then (XTC_E_INVAL, None, r)
  else
    match charge r XTC_RES_CHANNELS 1 with
    | (XTC_OK, r1) =>
        if decide (a1 <> XTC_OK) then (a1, None, uncharge r1 XTC_RES_CHANNELS 1)
        else if decide (a2 <> XTC_OK) then (a2, None, uncharge r1 XTC_RES_CHANNELS 1)
        else (XTC_OK,
              Some (mk_demand (replicate capacity NULL) capacity 0 0 0 0 false 0 0 false false), r1)
    | (e, r1) => (e, None, r1)
    end.

Definition xtc_chan_demand_destroy (c : option xtc_chan_demand) (r : option xtc_res)
  : option xtc_res :=
  match c with
  | None => r
  | Some _ => uncharge r XTC_RES_CHANNELS 1
  end.

(** [if (has_waker) xtc_waker_wake(&waker)] *)
Definition wake_if (has : bool) (w : Z) : list Z := if has then [w] else [].

Definition xtc_chan_demand_ask (c : option xtc_chan_demand) (n : Z)
  : rc * option xtc_chan_demand * list Z :=
  match c with
  | None => (XTC_E_INVAL, None, [])
  | Some c =>
      if decide (n = 0) then (XTC_OK, Some c, [])
      else if dq_closed c then (XTC_E_INVAL, Some c, [])
      else (XTC_OK, Some (set_demand c (u64 (dq_demand c + n))),
            wake_if (dq_has_prod_waker c) (dq_prod_waker c))
  end.

Definition xtc_chan_demand_send (c : option xtc_chan_demand) (msg : Z) (r : option xtc_res)
  : rc * option xtc_chan_demand * option xtc_res * list Z :=
  match c with
  | None => (XTC_E_INVAL, None, r, [])
  | Some c =>
      if dq_closed c then (XTC_E_INVAL, Some c, r, [])
      else if decide (dq_demand c = 0 \/ dq_n c = dq_cap c) then (XTC_E_AGAIN, Some c, r, [])
      else
        match charge r XTC_RES_CHAN_SLOTS 1 with
        | (XTC_OK, r1) =>
            let c1 := set_ring c (<[dq_tail c := msg]> (dq_slots c)) (dq_head c)
                        ((dq_tail c + 1) mod dq_cap c) (S (dq_n c)) in
            (XTC_OK, Some (set_demand c1 (u64 (dq_demand c1 - 1))), r1,
             wake_if (dq_has_cons_waker c) (dq_cons_waker c))
        | (e, r1) => (e, Some c, r1, [])
        end
  end.

(** The value written to [*out] is returned; [*out] is NULL when there is
    none. *)
Definition xtc_chan_demand_try_recv (c : option xtc_chan_demand) (out : bool) (r : option xtc_res)
  : rc * option Z * option xtc_chan_demand * option xtc_res :=
  match c with
  | None => (XTC_E_INVAL, None, None, r)
  | Some c =>
      if out then
        if decide (dq_n c = 0%nat)
        then (if dq_closed c then XTC_E_INVAL else XTC_E_AGAIN, Some NULL, Some c, r)
        else (XTC_OK, Some (dq_slots c !!! dq_head c),
              Some (set_ring c (dq_slots c) ((dq_head c + 1) mod dq_cap c) (dq_tail c) (dq_n c - 1)),
              uncharge r XTC_RES_CHAN_SLOTS 1)
      else (XTC_E_INVAL, None, Some c, r)
  end.

Definition xtc_chan_demand_outstanding (c : option xtc_chan_demand) : Z :=
  match c with None => 0 | Some c => dq_demand c end.

Definition xtc_chan_demand_len (c : option xtc_chan_demand) : nat :=
  match c with None => 0%nat | Some c => dq_n c end.

Definition xtc_chan_demand_set_producer_waker (c : option xtc_chan_demand) (w : option Z)
  : rc * option xtc_chan_demand * list Z :=
  match c, w with
  | Some c, Some w =>
      (XTC_OK,
       Some (mk_demand (dq_slots c) (dq_cap c) (dq_head c) (dq_tail c) (dq_n c) (dq_demand c)
               (dq_closed c) w (dq_cons_waker c) true (dq_has_cons_waker c)),
       wake_if (bool_decide (0 < dq_demand c)) w)
  | _, _ => (XTC_E_INVAL, c, [])
  end.

Definition xtc_chan_demand_set_consumer_waker (c : option xtc_chan_demand) (w : option Z)
  : rc * option xtc_chan_demand * list Z :=
  match c, w with
  | Some c, Some w =>
      (XTC_OK,
       Some (mk_demand (dq_slots c) (dq_cap c) (dq_head c) (dq_tail c) (dq_n c) (dq_demand c)
               (dq_closed c) (dq_prod_waker c) w (dq_has_prod_waker c) true),
       wake_if (bool_decide (0 < dq_n c)%nat) w)
  | _, _ => (XTC_E_INVAL, c, [])
  end.

Definition xtc_chan_demand_close (c : option xtc_chan_demand)
  : rc * option xtc_chan_demand * list Z :=
  match c with
  | None => (XTC_E_INVAL, None, [])
  | Some c =>
      (XTC_OK,
       Some (mk_demand (dq_slots c) (dq_cap c) (dq_head c) (dq_tail c) (dq_n c) (dq_demand c)
               true (dq_prod_waker c) (dq_cons_waker c) (dq_has_prod_waker c)
               (dq_has_cons_waker c)),
       wake_if (dq_has_cons_waker c) (dq_cons_waker c))
  end.

#[global] Arguments xtc_chan_demand_send : simpl never.
#[global] Arguments xtc_chan_demand_try_recv : simpl never.

Definition dq_list (c : xtc_chan_demand) : list Z :=
  ring_list (dq_slots c) (dq_cap c) (dq_head c) (dq_n c).

Record dq_wf (c : xtc_chan_demand) (r : option xtc_res) : Prop := mk_dq_wf {
  dq_len : length (dq_slots c) = dq_cap c;
  dq_ring : dq_tail c = ((dq_head c + dq_n c) mod dq_cap c)%nat;
  dq_rd : (dq_head c < dq_cap c)%nat;
  dq_bound : (dq_n c <= dq_cap c)%nat;
  dq_range : 0 <= dq_demand c <= SIZE_MAX;
  dq_acct : acct_wf r;
  dq_units : r <> None -> Z.of_nat (dq_n c) <= in_use r XTC_RES_CHAN_SLOTS;
}.

Lemma dq_send_spec c m r code c' r' w :
  dq_wf c r -> xtc_chan_demand_send (Some c) m r = (code, Some c', r', w) ->
  dq_wf c' r' /\
  (code = XTC_OK -> dq_list c' = dq_list c ++ [m] /\ dq_n c' = S (dq_n c) /\
     0 < dq_demand c /\ dq_demand c' = dq_demand c - 1 /\ dq_closed c = false /\
     w = wake_if (dq_has_cons_waker c) (dq_cons_waker c) /\ moved r r' XTC_RES_CHAN_SLOTS 1) /\
  (code <> XTC_OK -> c' = c /\ w = [] /\ moved r r' XTC_RES_CHAN_SLOTS 0).
Proof.
  intros Hwf. pose proof Hwf as [Hl Ht Hrd Hb Hd Ha Hu]. unfold xtc_chan_demand_send.
  destruct (dq_closed c) eqn:Ecl.
  { intros [= <- <- <- <-]. split_and!; try done. intros _. split_and!; try done. by apply moved_refl. }
  case_decide as Hf.
  { intros [= <- <- <- <-]. split_and!; try done. intros _. split_and!; try done. by apply moved_refl. }
  destruct (charge r XTC_RES_CHAN_SLOTS 1) as [e r1] eqn:Ec.
  destruct (charge_spec r XTC_RES_CHAN_SLOTS 1 e r1 Ha ltac:(done) ltac:(by vm_compute) Ec)
    as [[-> Hm]|(-> & Hn & Hm)]; pose proof Hm as (Ha1 & Hn1 & _); intros [= <- <- <- <-].
  - assert (0 < dq_demand c /\ (dq_n c < dq_cap c)%nat) as [Hpos Hlt].
    { assert (dq_n c <> dq_cap c) by tauto. assert (dq_demand c <> 0) by tauto. lia. }
    assert (u64 (dq_demand c - 1) = dq_demand c - 1) as Eu.
    { apply uwrap_small. unfold SIZE_MAX in Hd. lia. }
    split_and!; [constructor; simpl; try done; try lia| |done].
    + by rewrite length_insert.
    + rewrite Ht, Nat.Div0.add_mod_idemp_l. f_equal. lia.
    + intros Hr. rewrite (moved_use _ _ _ _ Hm) by (done || tauto). specialize (Hu ltac:(tauto)). lia.
    + intros _. split_and!; try done. unfold dq_list. simpl. rewrite Ht. by apply ring_push.
  - split_and!; try done. constructor; try done. intros Hr.
    rewrite (moved_use _ _ _ _ Hm) by (done || tauto). specialize (Hu ltac:(tauto)). lia.
Qed.

Lemma dq_recv_spec c r code v c' r' :
  dq_wf c r -> xtc_chan_demand_try_recv (Some c) true r = (code, v, Some c', r') ->
  dq_wf c' r' /\ dq_demand c' = dq_demand c /\
  ((0 < dq_n c)%nat -> code = XTC_OK /\ (exists x, v = Some x /\ dq_list c = x :: dq_list c') /\
     dq_n c = S (dq_n c') /\ moved r r' XTC_RES_CHAN_SLOTS (-1)) /\
  (dq_n c = 0%nat -> code = (if dq_closed c then XTC_E_INVAL else XTC_E_AGAIN) /\
     v = Some NULL /\ c' = c /\ r' = r).
Proof.
  intros Hwf. pose proof Hwf as [Hl Hh Hrd Hb Hd Ha Hu]. unfold xtc_chan_demand_try_recv.
  case_decide as Hn; intros [= <- <- <- <-]; [split_and!; [done|done|lia|done]|].
  assert (moved r (uncharge r XTC_RES_CHAN_SLOTS 1) XTC_RES_CHAN_SLOTS (-1)) as Hm.
  { apply uncharge_spec; [done|done|lia|]. intros Hr. specialize (Hu Hr). lia. }
  pose proof Hm as (Ha2 & Hn2 & _).
  assert (((dq_head c + 1) mod dq_cap c < dq_cap c)%nat) by (apply Nat.mod_upper_bound; lia).
  split_and!; [constructor; simpl; try done; try lia|done| |lia].
  - rewrite Hh, Nat.Div0.add_mod_idemp_l. f_equal. lia.
  - intros Hr. rewrite (moved_use _ _ _ _ Hm) by (done || tauto). specialize (Hu ltac:(tauto)). lia.
  - intros _. split_and!; [done| |simpl; lia|done]. eexists. split; [done|].
    unfold dq_list. simpl. apply ring_pop; lia.
Qed.

Definition dq_state : Type := xtc_chan_demand * option xtc_res.

#[global] Instance dq_fifo : Fifo dq_state := {|
  fifo_wf q := dq_wf q.1 q.2;
  fifo_list q := dq_list q.1;
  fifo_others q := use_beyond q.2 (dq_n q.1);
  fifo_send q m :=
    let '(c, c', r', _) := xtc_chan_demand_send (Some q.1) m q.2 in (c, (default q.1 c', r'));
  fifo_recv q :=
    let '(c, v, c', r') := xtc_chan_demand_try_recv (Some q.1) true q.2 in
    (c, if decide (c = XTC_OK) then v else None, (default q.1 c', r'));
|}.

#[global] Instance dq_fifo_laws : FifoLaws dq_state.
Proof.
  constructor.
  - intros [c r] m code [c' r']. simpl. intros Hwf.
    destruct (xtc_chan_demand_send (Some c) m r) as [[[code1 [c1|]] r1] w] eqn:E;
      [|exfalso; revert E; unfold xtc_chan_demand_send; repeat case_match; intros; simplify_eq].
    intros ?; simplify_eq/=.
    destruct (dq_send_spec _ _ _ _ _ _ _ Hwf E) as (Hwf' & Hok & Hno). split; [done|].
    case_decide as D.
    + destruct (Hok D) as (El & En & _ & _ & _ & _ & Hm). split; [|done].
      intros k. eapply use_beyond_moved; [exact Hm|lia].
    + destruct (Hno D) as (-> & _ & Hm). split; [|done].
      intros k. eapply use_beyond_moved; [exact Hm|lia].
  - intros [c r] code v [c' r']. simpl. intros Hwf.
    destruct (xtc_chan_demand_try_recv (Some c) true r) as [[[code1 v1] [c1|]] r1] eqn:E;
      [|exfalso; revert E; unfold xtc_chan_demand_try_recv; repeat case_match; intros; simplify_eq].
    intros ?; simplify_eq/=.
    destruct (dq_recv_spec _ _ _ _ _ _ Hwf E) as (Hwf' & _ & Hok & Hno). split; [done|].
    destruct (decide (0 < dq_n c)%nat) as [Hn|Hn].
    + destruct (Hok Hn) as (-> & Hx & En & Hm). split; [|by left].
      intros k. eapply use_beyond_moved; [exact Hm|lia].
    + destruct (Hno ltac:(lia)) as (-> & -> & -> & ->). split; [done|]. right.
      assert (dq_list c = []) by (unfold dq_list, ring_list; by replace (dq_n c) with 0%nat by lia).
      split_and!; try done; by destruct (dq_closed c).
Qed.

(** What the two ends of a demand channel do. *)
Inductive demand_op : Type := DAsk (n : Z) | DSend (m : Z) | DRecv | DClose.

(** Totals of a run: units granted by asks that succeeded, messages accepted
    and messages delivered. *)
Record demand_log := mk_dlog { dl_granted : Z; dl_sent : list Z; dl_got : list Z }.

Definition demand_step (q : dq_state) (o : demand_op) : demand_log * dq_state :=
  match o with
  | DAsk n =>
      let '(c, q', _) := xtc_chan_demand_ask (Some q.1) n in
      (mk_dlog (if decide (c = XTC_OK) then n else 0) [] [], (default q.1 q', q.2))
  | DSend m =>
      let '(c, q') := fifo_send q m in
      (mk_dlog 0 (if decide (c = XTC_OK) then [m] else []) [], q')
  | DRecv =>
      let '(_, v, q') := fifo_recv q in
      (mk_dlog 0 [] (option_list v), q')
  | DClose =>
      let '(_, q', _) := xtc_chan_demand_close (Some q.1) in
      (mk_dlog 0 [] [], (default q.1 q', q.2))
  end.

Fixpoint demand_run (q : dq_state) (ops : list demand_op) : demand_log * dq_state :=
  match ops with
  | [] => (mk_dlog 0 [] [], q)
  | o :: ops =>
      let '(l, q1) := demand_step q o in
      let '(l', q2) := demand_run q1 ops in
      (mk_dlog (dl_granted l + dl_granted l') (dl_sent l ++ dl_sent l') (dl_got l ++ dl_got l'), q2)
  end.

Definition asked (o : demand_op) : Z := match o with DAsk n => n | _ => 0 end.

(** What one operation does to the queue, the demand and the accountant. *)
Definition demand_effect (q : dq_state) (l : demand_log) (q' : dq_state) : Prop :=
  dq_wf q'.1 q'.2 /\ dq_cap q'.1 = dq_cap q.1 /\
  dq_list q.1 ++ dl_sent l = dl_got l ++ dq_list q'.1 /\
  dq_demand q'.1 + Z.of_nat (length (dl_sent l)) = dq_demand q.1 + dl_granted l /\
  (forall k, kind_ok k -> use_beyond q'.2 (dq_n q'.1) k = use_beyond q.2 (dq_n q.1) k).

Lemma dq_send_cap c m r code c' r' w :
  xtc_chan_demand_send (Some c) m r = (code, Some c', r', w) -> dq_cap c' = dq_cap c.
Proof. unfold xtc_chan_demand_send. repeat case_match; intros; by simplify_eq/=. Qed.

Lemma dq_recv_cap c r code v c' r' :
  xtc_chan_demand_try_recv (Some c) true r = (code, v, Some c', r') -> dq_cap c' = dq_cap c.
Proof. unfold xtc_chan_demand_try_recv. repeat case_match; intros; by simplify_eq/=. Qed.

Lemma demand_step_effect q o l q' :
  dq_wf q.1 q.2 -> demand_step q o = (l, q') -> 0 <= asked o ->
  dq_demand q.1 + asked o <= SIZE_MAX -> demand_effect q l q' /\ 0 <= dl_granted l <= asked o.
Proof.
  destruct q as [c r]. intros Hwf E Ha Hr. simpl in Hwf. pose proof Hwf as [Hl Ht Hrd Hb Hd Hac Hu].
  simpl in Hr. destruct o as [n|m| |]; simpl in E, Ha, Hr; unfold demand_effect.
  - repeat case_match; simplify_eq/=; (split; [|lia]); split_and!; try done; try lia; try by rewrite app_nil_r.
    + constructor; simpl; try done.
      rewrite uwrap_small; unfold SIZE_MAX in *; lia.
    + rewrite uwrap_small; unfold SIZE_MAX in *; lia.
  - destruct (xtc_chan_demand_send (Some c) m r) as [[[code [c1|]] r1] w] eqn:Es;
      [|exfalso; revert Es; unfold xtc_chan_demand_send; repeat case_match; intros; simplify_eq].
    simplify_eq/=. destruct (dq_send_spec _ _ _ _ _ _ _ Hwf Es) as (Hwf' & Hok & Hno).
    split; [|lia]. rewrite (dq_send_cap _ _ _ _ _ _ _ Es). case_decide as D.
    + destruct (Hok D) as (-> & En & _ & Ed & _ & _ & Hm). split_and!; try done; [simpl; lia|].
      intros k. eapply use_beyond_moved; [exact Hm|lia].
    + destruct (Hno D) as (-> & _ & Hm). split_and!; try done; [by rewrite app_nil_r|].
      intros k. eapply use_beyond_moved; [exact Hm|lia].
  - destruct (xtc_chan_demand_try_recv (Some c) true r) as [[[code v] [c1|]] r1] eqn:Es;
      [|exfalso; revert Es; unfold xtc_chan_demand_try_recv; repeat case_match; intros; simplify_eq].
    simplify_eq/=. destruct (dq_recv_spec _ _ _ _ _ _ Hwf Es) as (Hwf' & Ed & Hok & Hno).
    split; [|lia]. rewrite (dq_recv_cap _ _ _ _ _ _ Es), app_nil_r.
    destruct (decide (0 < dq_n c)%nat) as [Hn|Hn].
    + destruct (Hok Hn) as (-> & (x & -> & Hx) & En & Hm). simpl. split_and!; try done; [lia|].
      intros k. eapply use_beyond_moved; [exact Hm|lia].
    + destruct (Hno ltac:(lia)) as (-> & -> & -> & ->).
      rewrite decide_False by (by destruct (dq_closed c)). split_and!; try done.
  - simplify_eq/=. split; [|lia]. split_and!; try done; try lia; try by rewrite app_nil_r.
Qed.

Lemma demand_run_effect ops q l q' :
  dq_wf q.1 q.2 -> demand_run q ops = (l, q') -> Forall (fun o => 0 <= asked o) ops ->
  dq_demand q.1 + foldr (fun o z => asked o + z) 0 ops <= SIZE_MAX -> demand_effect q l q'.
Proof.
  revert q l q'. induction ops as [|o ops IH]; intros q l q' Hwf; simpl.
  { intros [= <- <-] _ _. unfold demand_effect. simpl. rewrite app_nil_r. split_and!; try done; lia. }
  destruct (demand_step q o) as [l1 q1] eqn:E1. destruct (demand_run q1 ops) as [l2 q2] eqn:E2.
  intros [= <- <-] [Ho Hops]%Forall_cons Hle.
  assert (0 <= foldr (fun o z => asked o + z) 0 ops) as Hpos.
  { clear -Hops. induction Hops; simpl; lia. }
  destruct (demand_step_effect _ _ _ _ Hwf E1 Ho) as [(W1 & C1 & L1 & D1 & U1) Hg]; [lia|].
  destruct (IH q1 l2 q2 W1 E2 Hops) as (W2 & C2 & L2 & D2 & U2); [lia|].
  unfold demand_effect. simpl. rewrite length_app. split_and!; [done|congruence| |lia|].
  - by rewrite app_assoc, L1, <- app_assoc, L2, app_assoc.
  - intros k Hk. by rewrite U2, U1.
Qed.

Lemma dq_create_spec r capacity out a1 a2 code c r' :
  acct_wf r -> xtc_chan_demand_create r capacity out a1 a2 = (code, c, r') ->
  (code = XTC_OK /\ exists q, c = Some q /\ dq_wf q r' /\ dq_list q = [] /\ dq_n q = 0%nat /\
     dq_cap q = capacity /\ dq_demand q = 0 /\ moved r r' XTC_RES_CHANNELS 1) \/
  (code <> XTC_OK /\ c = None /\ moved r r' XTC_RES_CHANNELS 0).
Proof.
  intros Hwf. pose proof (in_use_nonneg r Hwf) as Hu. unfold xtc_chan_demand_create.
  case_decide as Hi.
  { intros [= <- <- <-]. right. split_and!; [done|done|by apply moved_refl]. }
  destruct (charge r XTC_RES_CHANNELS 1) as [e r1] eqn:Ec.
  destruct (charge_spec r XTC_RES_CHANNELS 1 e r1 Hwf ltac:(done) ltac:(by vm_compute) Ec)
    as [[-> Hm]|(-> & Hn & Hm)]; [|intros [= <- <- <-]; right; by split_and!].
  assert (moved r (uncharge r1 XTC_RES_CHANNELS 1) XTC_RES_CHANNELS 0) as Hback
    by (by apply uncharge_after).
  case_decide as H1; [intros [= <- <- <-]; right; by split_and!|].
  case_decide as H2; [intros [= <- <- <-]; right; by split_and!|].
  intros [= <- <- <-]. left. split; [done|]. eexists. split; [done|].
  pose proof Hm as (Ha & Hnn & Hk).
  assert (0 < capacity)%nat by (destruct capacity; [exfalso; apply Hi; by right|lia]).
  split_and!; try done. constructor; simpl; try done; try lia.
  - by rewrite length_replicate.
  - by rewrite Nat.Div0.mod_0_l.
  - intros Hr. rewrite (Hk XTC_RES_CHAN_SLOTS) by (done || tauto).
    specialize (Hu XTC_RES_CHAN_SLOTS ltac:(done)). simpl. lia.
Qed.

(** Demand channels.  From creation, after any sequence of asks, sends,
    receives and a close (the asks together below SIZE_MAX): the messages
    accepted are exactly those delivered followed by those buffered; the
    number accepted plus the outstanding demand is the demand granted, so a
    producer never sends more than was asked for; and the accountant holds
    one slot per buffered message. *)
Theorem demand_backpressure r capacity a1 a2 c r1 ops l c' r2 :
  acct_wf r ->
  xtc_chan_demand_create r capacity true a1 a2 = (XTC_OK, Some c, r1) ->
  Forall (fun o => 0 <= asked o) ops -> foldr (fun o z => asked o + z) 0 ops <= SIZE_MAX ->
  demand_run (c, r1) ops = (l, (c', r2)) ->
  dl_sent l = dl_got l ++ dq_list c' /\ (xtc_chan_demand_len (Some c') <= capacity)%nat /\
  Z.of_nat (length (dl_sent l)) + xtc_chan_demand_outstanding (Some c') = dl_granted l /\
  Z.of_nat (length (dl_sent l)) <= dl_granted l /\
  (r <> None -> in_use r2 XTC_RES_CHAN_SLOTS =
     in_use r XTC_RES_CHAN_SLOTS + Z.of_nat (xtc_chan_demand_len (Some c'))).
Proof.
  intros Hwf Ec Hpos Hle Er.
  destruct (dq_create_spec _ _ _ _ _ _ _ _ Hwf Ec) as [(_ & q & [= ->] & Hq & El & En & Ecap & Ed & Hm)|[? _]];
    [|done].
  destruct (demand_run_effect ops (q, r1) l (c', r2) Hq Er Hpos) as (W & C & L & D & U);
    [simpl; lia|].
  simpl in *. rewrite El in L. rewrite Ed in D. destruct W as [_ _ _ Wb Wd _ _].
  split_and!; [done|lia|lia|lia|]. intros Hr. destruct Hm as (_ & HN & Hm).
  specialize (U XTC_RES_CHAN_SLOTS ltac:(done)). rewrite En in U.
  assert (r1 <> None) as Hr1 by tauto. destruct r1 as [r1|]; [|done].
  destruct r2 as [r2|]; [|done]. unfold use_beyond in U. apply (inj Some) in U.
  rewrite decide_True in U by done. rewrite (Hm XTC_RES_CHAN_SLOTS) in U by done. simpl in U. lia.
Qed.

(** Unlike the other channels, destroying a demand channel returns its
    CHANNELS unit only: every slot unit its buffered messages hold stays in
    use for good. *)
Theorem demand_destroy_keeps_slots c r :
  dq_wf c (Some r) -> 1 <= in_use (Some r) XTC_RES_CHANNELS ->
  in_use (xtc_chan_demand_destroy (Some c) (Some r)) XTC_RES_CHANNELS =
    in_use (Some r) XTC_RES_CHANNELS - 1 /\
  in_use (xtc_chan_demand_destroy (Some c) (Some r)) XTC_RES_CHAN_SLOTS =
    in_use (Some r) XTC_RES_CHAN_SLOTS /\
  Z.of_nat (dq_n c) <= in_use (xtc_chan_demand_destroy (Some c) (Some r)) XTC_RES_CHAN_SLOTS.
Proof.
  intros Hwf Hc. destruct (uncharge_spec (Some r) XTC_RES_CHANNELS 1) as (_ & _ & H);
    [apply Hwf|done|lia|done|].
  unfold xtc_chan_demand_destroy. rewrite !H by done.
  rewrite decide_True by done. rewrite decide_False by done.
  pose proof (dq_units _ _ Hwf ltac:(done)). lia.
Qed.

Definition dq_start := xtc_chan_demand_create (Some res0) 2 true XTC_OK XTC_OK.
Definition dq_first : xtc_chan_demand :=
  default (mk_demand [] 0 0 0 0 0 false 0 0 false false) dq_start.1.2.
Definition dq_demo : list demand_op :=
  [DSend 4; DAsk 3; DSend 5; DSend 6; DSend 7; DRecv; DSend 8; DClose; DSend 9].
Definition dq_demo_run := demand_run (dq_first, dq_start.2) dq_demo.

Lemma demand_backpressure_witness :
  dl_sent dq_demo_run.1 = [5; 6; 8] /\ dl_granted dq_demo_run.1 = 3 /\
  in_use dq_demo_run.2.2 XTC_RES_CHAN_SLOTS = 0 + 2 /\
  Z.of_nat (length (dl_sent dq_demo_run.1)) <= dl_granted dq_demo_run.1.
Proof.
  split; [vm_compute; reflexivity|]. split; [vm_compute; reflexivity|].
  split; [vm_compute; reflexivity|].
  refine (proj1 (proj2 (proj2 (proj2 (demand_backpressure (Some res0) 2 XTC_OK XTC_OK dq_first
    dq_start.2 dq_demo dq_demo_run.1 dq_demo_run.2.1 dq_demo_run.2.2 (wf_fresh _) _ _ _ _))))).
  - vm_compute. reflexivity.
  - repeat constructor; vm_compute; discriminate.
  - vm_compute. discriminate.
  - vm_compute. reflexivity.
Defined.

(** The two messages left in the channel above hold their slots for ever. *)
Lemma demand_destroy_keeps_slots_witness :
  exists r, dq_demo_run.2.2 = Some r /\
    in_use (xtc_chan_demand_destroy (Some dq_demo_run.2.1) (Some r)) XTC_RES_CHAN_SLOTS =
      in_use (Some r) XTC_RES_CHAN_SLOTS /\ in_use (Some r) XTC_RES_CHAN_SLOTS = 2.
Proof.
  destruct (dq_create_spec (Some res0) 2 true XTC_OK XTC_OK XTC_OK (Some dq_first) dq_start.2
              (wf_fresh _) ltac:(vm_compute; reflexivity)) as [(_ & q & [= <-] & Hq & _)|[? _]];
    [|done].
  destruct (demand_run_effect dq_demo (dq_first, dq_start.2) dq_demo_run.1 dq_demo_run.2 Hq)
    as (W & _); [vm_compute; reflexivity|repeat constructor; vm_compute; discriminate|
                 vm_compute; discriminate|].
  destruct dq_demo_run.2.2 as [r|] eqn:E; [|vm_compute in E; discriminate].
  exists r. split; [reflexivity|].
  split; [|rewrite <- E; vm_compute; reflexivity].
  refine (proj1 (proj2 (demand_destroy_keeps_slots dq_demo_run.2.1 r W _))).
  rewrite <- E. vm_compute. discriminate.
Defined.

End Demand.

(** ** broadcast: a lossy ring with one cursor per subscriber *)

Module Broadcast.

(** [recvs] is the chain of subscribers from the list head; [cursors] holds
    the cursor field of every live subscriber. *)
Record xtc_chan_broadcast := mk_bc {
  bc_cap : nat;
  bc_slots : list Z;
  bc_seqs : list Z;
  bc_pos : Z;                       (** a uint64_t *)
  bc_recvs : list positive;
  bc_cursors : gmap positive Z;
}.

Definition set_recvs (c : xtc_chan_broadcast) (rs : list positive) (cs : gmap positive Z)
  : xtc_chan_broadcast :=
  mk_bc (bc_cap c) (bc_slots c) (bc_seqs c) (bc_pos c) rs cs.

Definition xtc_chan_broadcast_create (r : option xtc_res) (capacity : nat) (out : bool)
    (a1 a2 a3 : rc) : rc * option xtc_chan_broadcast * option xtc_res :=
  if decide (out = false \/ capacity = 0%nat) then (XTC_E_INVAL, None, r)
  else
    match charge r XTC_RES_CHANNELS 1 with
    | (XTC_OK, r1) =>
        if decide (a1 <> XTC_OK) then (a1, None, uncharge r1 XTC_RES_CHANNELS 1)
        else if decide (a2 <> XTC_OK) then (a2, None, uncharge r1 XTC_RES_CHANNELS 1)
        else if decide (a3 <> XTC_OK) then (a3, None, uncharge r1 XTC_RES_CHANNELS 1)
        else (XTC_OK,
              Some (mk_bc capacity (replicate capacity NULL) (replicate capacity 0) 0 [] ∅), r1)
    | (e, r1) => (e, None, r1)
    end.

(** Frees every subscriber on the chain, then the channel. *)
Definition xtc_chan_broadcast_destroy (c : option xtc_chan_broadcast) (r : option xtc_res)
  : option xtc_res * gmap positive Z :=
  match c with
  | None => (r, ∅)
  | Some c => (uncharge r XTC_RES_CHANNELS 1,
               foldr (fun p m => delete p m) (bc_cursors c) (bc_recvs c))
  end.

Definition bc_index (c : xtc_chan_broadcast) (seq : Z) : nat :=
  Z.to_nat (seq mod Z.of_nat (bc_cap c)).

Definition xtc_chan_broadcast_send (c : option xtc_chan_broadcast) (msg : Z)
  : rc * option xtc_chan_broadcast :=
  match c with
  | None => (XTC_E_INVAL, None)
  | Some c =>
      let seq := bc_pos c in
      (XTC_OK,
       Some (mk_bc (bc_cap c) (<[bc_index c seq := msg]> (bc_slots c))
               (<[bc_index c seq := u64 (seq + 1)]> (bc_seqs c)) (u64 (seq + 1))
               (bc_recvs c) (bc_cursors c)))
  end.

(** [alloc] is the address the allocator returns, or its error. *)
Definition xtc_chan_broadcast_subscribe (c : option xtc_chan_broadcast) (out : bool)
    (alloc : rc + positive) : rc * option positive * option xtc_chan_broadcast :=
  match c with
  | None => (XTC_E_INVAL, None, None)
  | Some c =>
      if out then
        match alloc with
        | inl e => (e, None, Some c)
        | inr p => (XTC_OK, Some p,
                    Some (set_recvs c (p :: bc_recvs c) (<[p := bc_pos c]> (bc_cursors c))))
        end
      else (XTC_E_INVAL, None, Some c)
  end.

(** Unlink the first node equal to [r] from the chain. *)
Fixpoint unlink (r : positive) (l : list positive) : list positive :=
  match l with
  | [] => []
  | p :: l' => if decide (p = r) then l' else p :: unlink r l'
  end.

Definition xtc_chan_broadcast_unsubscribe (c : xtc_chan_broadcast) (r : option positive)
  : xtc_chan_broadcast :=
  match r with
  | None => c
  | Some p => set_recvs c (unlink p (bc_recvs c)) (delete p (bc_cursors c))
  end.

(** The code, [*out], [*lagged] and the channel with the cursor moved. *)
Definition xtc_chan_broadcast_recv (c : xtc_chan_broadcast) (r : option positive) (out : bool)
  : rc * option Z * Z * xtc_chan_broadcast :=
  match r, out with
  | Some p, true =>
      match bc_cursors c !! p with
      | None => (XTC_E_INVAL, None, 0, c)      (* a freed subscriber: excluded by callers *)
      | Some cursor =>
          let pos := bc_pos c in
          if decide (pos <= cursor) then (XTC_E_AGAIN, None, 0, c)
          else
            let behind := decide (Z.of_nat (bc_cap c) < u64 (pos - cursor)) in
            let lagged := if behind then i32 (u64 (pos - cursor - Z.of_nat (bc_cap c))) else 0 in
            let cursor := if behind then u64 (pos - Z.of_nat (bc_cap c)) else cursor in
            (XTC_OK, Some (bc_slots c !!! bc_index c cursor), lagged,
             set_recvs c (bc_recvs c) (<[p := u64 (cursor + 1)]> (bc_cursors c)))
      end
  | _, _ => (XTC_E_INVAL, None, 0, c)
  end.

(** The channel after the messages [h] were sent, oldest first. *)
Record bc_inv (c : xtc_chan_broadcast) (h : list Z) : Prop := mk_bc_inv {
  bi_cap : (0 < bc_cap c)%nat;
  bi_len : length (bc_slots c) = bc_cap c;
  bi_pos : bc_pos c = Z.of_nat (length h);
  bi_small : Z.of_nat (length h) < 2 ^ 63;
  bi_small_cap : Z.of_nat (bc_cap c) < 2 ^ 63;
  bi_window : forall i m, (length h <= i + bc_cap c)%nat -> h !! i = Some m ->
    bc_slots c !!! (i mod bc_cap c)%nat = m;
  bi_cursors : forall p k, bc_cursors c !! p = Some k -> 0 <= k <= bc_pos c;
  bi_chain : forall p, p ∈ bc_recvs c <-> is_Some (bc_cursors c !! p);
  bi_nodup : NoDup (bc_recvs c);
}.

Lemma bc_index_nat c (i : nat) : (0 < bc_cap c)%nat -> bc_index c (Z.of_nat i) = (i mod bc_cap c)%nat.
Proof. intros. unfold bc_index. rewrite <- Nat2Z.inj_mod. lia. Qed.

Lemma bc_send_inv c h m :
  bc_inv c h -> Z.of_nat (length h) + 1 < 2 ^ 63 ->
  exists c', xtc_chan_broadcast_send (Some c) m = (XTC_OK, Some c') /\ bc_inv c' (h ++ [m]) /\
    bc_cursors c' = bc_cursors c /\ bc_cap c' = bc_cap c.
Proof.
  intros [Hc Hl Hp Hs Hsc Hw Hcur Hch Hnd] Hs'. eexists. split; [done|].
  assert (u64 (bc_pos c + 1) = bc_pos c + 1) as Eu by (apply uwrap_small; lia).
  rewrite Hp, bc_index_nat by done.
  split; [constructor; simpl; rewrite <- ?Hp, ?Eu, ?length_app; simpl; try done; try lia|done].
  - by rewrite length_insert.
  - intros i x Hi Hx. rewrite list_lookup_total_insert, Hl.
    destruct (decide (i = length h)) as [->|Hne].
    + rewrite decide_True; [|split; [done|apply Nat.mod_upper_bound; lia]].
      rewrite lookup_app_r, Nat.sub_diag in Hx by lia. by simplify_eq/=.
    + assert (i < length h)%nat by (apply lookup_lt_Some in Hx; rewrite length_app in Hx; simpl in Hx; lia).
      rewrite lookup_app_l in Hx by done.
      rewrite decide_False; [by apply Hw; [lia|]|]. intros [E _].
      pose proof (ring_index_ne (bc_cap c) i (length h - i) 0) as Hne'.
      rewrite Nat.add_0_r in Hne'. replace (i + (length h - i))%nat with (length h) in Hne' by lia.
      apply Hne'; [lia|lia|lia|done].
  - intros p k Hk. specialize (Hcur p k Hk). lia.
Qed.

(** The position the next receive reads, and how many it skips. *)
Definition bc_skip (c : xtc_chan_broadcast) (k : Z) : Z :=
  Z.max 0 (bc_pos c - Z.of_nat (bc_cap c) - k).

Lemma bc_recv_aux c h p k :
  bc_inv c h -> bc_cursors c !! p = Some k ->
  (k = bc_pos c /\ xtc_chan_broadcast_recv c (Some p) true = (XTC_E_AGAIN, None, 0, c)) \/
  (k < bc_pos c /\ exists m c',
     xtc_chan_broadcast_recv c (Some p) true = (XTC_OK, Some m, i32 (bc_skip c k), c') /\
     h !! Z.to_nat (k + bc_skip c k) = Some m /\ bc_inv c' h /\
     bc_cap c' = bc_cap c /\ bc_cursors c' = <[p := k + bc_skip c k + 1]> (bc_cursors c)).
Proof.
  intros Hinv Hk. pose proof Hinv as [Hc Hl Hp Hs Hsc Hw Hcur Hch Hnd].
  destruct (Hcur p k Hk) as [Hk0 Hk1]. unfold xtc_chan_broadcast_recv. rewrite Hk.
  case_decide as Hd; [left; split; [lia|done]|]. right. split; [lia|].
  assert (u64 (bc_pos c - k) = bc_pos c - k) as -> by (apply uwrap_small; lia).
  set (cur := if decide _ then u64 (bc_pos c - Z.of_nat (bc_cap c)) else k).
  assert (cur = k + bc_skip c k) as Ecur.
  { unfold cur, bc_skip. case_decide; [rewrite uwrap_small by lia|]; lia. }
  assert ((if decide (Z.of_nat (bc_cap c) < bc_pos c - k)
           then i32 (u64 (bc_pos c - k - Z.of_nat (bc_cap c))) else 0) = i32 (bc_skip c k)) as ->.
  { unfold bc_skip. case_decide; [rewrite uwrap_small by lia; f_equal; lia|].
    by rewrite Z.max_l by lia. }
  rewrite Ecur. set (i := k + bc_skip c k).
  assert (0 <= i < bc_pos c /\ bc_pos c <= i + Z.of_nat (bc_cap c)) as [Hi1 Hi2]
    by (unfold i, bc_skip; lia).
  destruct (lookup_lt_is_Some_2 h (Z.to_nat i)) as [m Hm]; [lia|].
  rewrite uwrap_small by lia.
  assert (bc_slots c !!! bc_index c i = m) as ->.
  { rewrite <- (Z2Nat.id i) by lia. rewrite bc_index_nat by done. apply Hw; [lia|done]. }
  exists m. eexists. split; [reflexivity|]. split_and!; [done| |done|done].
  - constructor; simpl; try done.
    + intros q k' . rewrite lookup_insert. case_decide; [intros [= <-]; lia|]. apply Hcur.
    + intros q. rewrite Hch, lookup_insert. case_decide; subst; [|done].
      split; [by eexists|]. by rewrite Hk.
Qed.

(** A broadcast receive against the history of everything sent.  A
    subscriber at the end gets XTC_E_AGAIN; otherwise it gets the next
    message, or, when it fell more than [capacity] behind, the oldest one
    still in the ring with the number skipped, and its cursor moves just
    past what it got.  No other subscriber is affected. *)
Theorem broadcast_recv_spec c h p k :
  bc_inv c h -> bc_cursors c !! p = Some k ->
  (k = bc_pos c /\ xtc_chan_broadcast_recv c (Some p) true = (XTC_E_AGAIN, None, 0, c)) \/
  (k < bc_pos c /\ exists m c',
     xtc_chan_broadcast_recv c (Some p) true = (XTC_OK, Some m, i32 (bc_skip c k), c') /\
     h !! Z.to_nat (k + bc_skip c k) = Some m /\ bc_inv c' h /\
     bc_cap c' = bc_cap c /\ bc_cursors c' = <[p := k + bc_skip c k + 1]> (bc_cursors c)).
Proof. apply bc_recv_aux. Qed.

(** What one subscriber sees while anyone publishes. *)
Inductive bc_op : Type := BSend (m : Z) | BRecv.

(** The (skipped, message) pairs subscriber [p] receives over a run, and the
    messages published. *)
Fixpoint bc_run (c : xtc_chan_broadcast) (p : positive) (ops : list bc_op)
  : list (Z * Z) * list Z * xtc_chan_broadcast :=
  match ops with
  | [] => ([], [], c)
  | BSend m :: ops =>
      let c1 := default c (xtc_chan_broadcast_send (Some c) m).2 in
      let '(got, sent, c2) := bc_run c1 p ops in (got, m :: sent, c2)
  | BRecv :: ops =>
      let '(_, v, lag, c1) := xtc_chan_broadcast_recv c (Some p) true in
      let '(got, sent, c2) := bc_run c1 p ops in
      (match v with Some m => (lag, m) :: got | None => got end, sent, c2)
  end.

(** Reading [got] off the history [h] from position [k]: each pair skips
    some messages and then takes the next one; the position afterwards. *)
Fixpoint reads (h : list Z) (k : Z) (got : list (Z * Z)) : option Z :=
  match got with
  | [] => Some k
  | (lag, m) :: got =>
      if decide (0 <= lag /\ h !! Z.to_nat (k + lag) = Some m)
      then reads h (k + lag + 1) got else None
  end.

#[global] Arguments xtc_chan_broadcast_send : simpl never.
#[global] Arguments xtc_chan_broadcast_recv : simpl never.

(** Over any run of publishes and receives (fewer than 2^31 messages),
    what one subscriber gets is read off the history of all publishes from
    its cursor on: in order, without repetition, each gap reported exactly
    by the lag of the message after it; its cursor ends just past the last
    one and never beyond the history. *)
Theorem broadcast_run_reads c h p k ops got sent c' :
  bc_inv c h -> bc_cursors c !! p = Some k ->
  Z.of_nat (length h + length ops) <= INT_MAX ->
  bc_run c p ops = (got, sent, c') ->
  exists k', bc_inv c' (h ++ sent) /\ bc_cursors c' !! p = Some k' /\
    reads (h ++ sent) k got = Some k' /\ k <= k' <= Z.of_nat (length (h ++ sent)).
Proof.
  unfold INT_MAX. revert c h k got sent c'.
  induction ops as [|[m|] ops IH]; intros c h k got sent c' Hinv Hk Hle; cbn [bc_run length] in *.
  - intros [= <- <- <-]. exists k. rewrite app_nil_r. split_and!; try done.
    destruct (bi_cursors _ _ Hinv p k Hk). rewrite (bi_pos _ _ Hinv) in *. lia.
  - destruct (bc_send_inv c h m Hinv) as (c1 & -> & Hinv1 & Ecur & _); [lia|]. simpl.
    destruct (bc_run c1 p ops) as [[got1 sent1] c2] eqn:E. intros [= <- <- <-].
    destruct (IH c1 (h ++ [m]) k got1 sent1 c2) as (k' & H1 & H2 & H3 & H4);
      [done|by rewrite Ecur|rewrite length_app; simpl; lia|done|].
    rewrite <- app_assoc in *. by exists k'.
  - pose proof (bi_pos _ _ Hinv) as Hp. pose proof (bi_cursors _ _ Hinv p k Hk) as Hkr.
    destruct (bc_recv_aux c h p k Hinv Hk) as [[_ ->]|(Hlt & m & c1 & -> & Hm & Hinv1 & _ & Ecur)].
    + destruct (bc_run c p ops) as [[got1 sent1] c2] eqn:E. intros [= <- <- <-].
      destruct (IH c h k got1 sent1 c2) as (k' & H); [done|done|lia|done|]. by exists k'.
    + destruct (bc_run c1 p ops) as [[got1 sent1] c2] eqn:E. intros [= <- <- <-].
      set (s := bc_skip c k) in *.
      assert (i32 s = s /\ 0 <= s) as [Es Hs0].
      { split; [apply swrap_small|]; unfold s, bc_skip; lia. }
      destruct (IH c1 h (k + s + 1) got1 sent1 c2) as (k' & H1 & H2 & H3 & H4);
        [done|by rewrite Ecur, lookup_insert_eq|lia|done|].
      exists k'. rewrite Es. simpl. rewrite decide_True; [by split_and!; [..|lia|lia]|].
      split; [done|]. by apply lookup_app_l_Some.
Qed.

(** A fresh channel of two cells, one subscriber, three publishes. *)
Definition bc0 : xtc_chan_broadcast :=
  mk_bc 2 [NULL; NULL] [0; 0] 0 [1%positive] {[1%positive := 0]}.

Lemma bc0_inv : bc_inv bc0 [].
Proof.
  constructor; simpl; try done; try lia.
  - intros p k [<- <-]%lookup_singleton_Some. lia.
  - intros p. rewrite list_elem_of_singleton, lookup_singleton_is_Some. split; congruence.
  - apply NoDup_singleton.
Qed.

Lemma broadcast_run_reads_witness :
  (bc_run bc0 1 [BSend 5; BSend 6; BSend 7; BRecv; BRecv; BRecv]).1.1 = [(1, 6); (0, 7)] /\
  exists k', reads [5; 6; 7] 0 [(1, 6); (0, 7)] = Some k'.
Proof.
  split; [vm_compute; reflexivity|].
  destruct (broadcast_run_reads bc0 [] 1 0 [BSend 5; BSend 6; BSend 7; BRecv; BRecv; BRecv]
              [(1, 6); (0, 7)] [5; 6; 7]
              (bc_run bc0 1 [BSend 5; BSend 6; BSend 7; BRecv; BRecv; BRecv]).2) as (k' & _ & _ & H & _).
  - exact bc0_inv.
  - reflexivity.
  - vm_compute. discriminate.
  - vm_compute. reflexivity.
  - exists k'. exact H.
Defined.

Lemma broadcast_recv_spec_witness :
  xtc_chan_broadcast_recv bc0 (Some 1%positive) true = (XTC_E_AGAIN, None, 0, bc0).
Proof.
  destruct (broadcast_recv_spec bc0 [] 1 0 bc0_inv eq_refl) as [[_ H]|[H _]]; [exact H|].
  vm_compute in H. discriminate.
Defined.

End Broadcast.

(** ** watch: the latest value wins *)

Module Watch.

Record xtc_chan_watch := mk_watch { wa_value : Z; wa_has_value : Z }.

Definition xtc_chan_watch_create (r : option xtc_res) (out : bool) (a1 : rc)
  : rc * option xtc_chan_watch * option xtc_res :=
  if out then
    match charge r XTC_RES_CHANNELS 1 with
    | (XTC_OK, r1) =>
        if decide (a1 <> XTC_OK) then (a1, None, uncharge r1 XTC_RES_CHANNELS 1)
        else (XTC_OK, Some (mk_watch NULL 0), r1)
    | (e, r1) => (e, None, r1)
    end
  else (XTC_E_INVAL, None, r).

Definition xtc_chan_watch_destroy (c : option xtc_chan_watch) (r : option xtc_res)
  : option xtc_res :=
  match c with None => r | Some _ => uncharge r XTC_RES_CHANNELS 1 end.

Definition xtc_chan_watch_send (c : option xtc_chan_watch) (value : Z)
  : rc * option xtc_chan_watch :=
  match c with
  | None => (XTC_E_INVAL, None)
  | Some _ => (XTC_OK, Some (mk_watch value 1))
  end.

Definition xtc_chan_watch_recv (c : option xtc_chan_watch) (out : bool) : rc * option Z :=
  match c, out with
  | Some c, true =>
      if decide (wa_has_value c = 0) then (XTC_E_AGAIN, None) else (XTC_OK, Some (wa_value c))
  | _, _ => (XTC_E_INVAL, None)
  end.

(** The atomic accesses of [send] and [recv]; [stored] is the history of the
    value field. *)
Inductive watch_pc : Type :=
  | WIdle
  | WFlag                         (** value stored, about to set [has_value] *)
  | WLoad                         (** [has_value] seen, about to load the value *)
  | WRet (c : rc) (v : option Z).

Inductive watch_step : nat -> xtc_chan_watch * list Z -> watch_pc ->
    xtc_chan_watch * list Z -> watch_pc -> Prop :=
  | ws_store i v h st m : watch_step i (mk_watch v h, st) WIdle (mk_watch m h, st ++ [m]) WFlag
  | ws_flag i v h st : watch_step i (mk_watch v h, st) WFlag (mk_watch v 1, st) (WRet XTC_OK None)
  | ws_again i v st : watch_step i (mk_watch v 0, st) WIdle (mk_watch v 0, st) (WRet XTC_E_AGAIN None)
  | ws_seen i v h st : h <> 0 -> watch_step i (mk_watch v h, st) WIdle (mk_watch v h, st) WLoad
  | ws_load i v h st : watch_step i (mk_watch v h, st) WLoad (mk_watch v h, st) (WRet XTC_OK (Some v))
  | ws_ret i s c v : watch_step i s (WRet c v) s WIdle.

(** The value field is the last one stored, once anything was. *)
Definition watch_inv (s : xtc_chan_watch * list Z) (pool : gmap nat watch_pc) : Prop :=
  wa_value s.1 = default NULL (last s.2) /\ (wa_has_value s.1 <> 0 -> s.2 <> []) /\
  map_Forall (fun _ p => match p with
    | WFlag | WLoad => s.2 <> []
    | WRet _ (Some v) => v ∈ s.2
    | _ => True end) pool.

Lemma last_elem (l : list Z) d : l <> [] -> default d (last l) ∈ l.
Proof.
  intros Hl. destruct l as [|x l _] using rev_ind; [done|]. rewrite last_snoc. simpl.
  set_solver.
Qed.

Lemma watch_step_inv s pool i p s' p' :
  watch_inv s pool -> pool !! i = Some p -> watch_step i s p s' p' ->
  watch_inv s' (<[i := p']> pool).
Proof.
  intros (Hv & Hh & Hp) Hi Hst. pose proof (Hp _ _ Hi) as Hpi.
  unfold watch_inv. destruct Hst; simpl in *; split_and!; try done;
    try (eapply map_Forall_pool_update; [exact Hp|done|]; simpl; try done; try (by auto)).
  - by rewrite last_snoc.
  - intros _. by destruct st.
  - eapply map_Forall_pool_update; [exact Hp| |by destruct st]. intros j [] _ _; try done.
    + by destruct st.
    + by destruct st.
    + destruct v0; set_solver.
  - subst v. by apply last_elem.
Qed.

(** Whatever the interleaving of watch sends and receives, a receive
    that returns XTC_OK returns a value some send stored, never the
    channel's initial NULL: the value is written before it is announced. *)
Theorem watch_recv_stored n s pool i v :
  reachable watch_step ((mk_watch NULL 0, []), idle_pool WIdle n) (s, pool) ->
  pool !! i = Some (WRet XTC_OK (Some v)) -> v ∈ s.2.
Proof.
  intros Hr Hi.
  assert (watch_inv s pool) as (_ & _ & Hp).
  { apply (pool_invariant watch_step watch_inv _ _ (fun s p i q s' q' => watch_step_inv s p i q s' q')) in Hr;
      [done|]. split_and!; try done. by apply idle_pool_Forall. }
  apply (Hp _ _ Hi).
Qed.

Lemma watch_recv_stored_witness :
  exists s pool,
    reachable watch_step ((mk_watch NULL 0, []), idle_pool WIdle 2) (s, pool) /\ 7 ∈ s.2.
Proof.
  assert (exists s pool,
    reachable watch_step ((mk_watch NULL 0, []), idle_pool WIdle 2) (s, pool) /\
    pool !! 1%nat = Some (WRet XTC_OK (Some 7))) as (s & pool & Hr & Hi).
  { eexists _, _. split.
    { pool_run 0%nat by (apply (ws_store _ _ _ _ 7)). pool_run 0%nat by (apply ws_flag).
      pool_run 1%nat by (apply ws_seen; discriminate). pool_run 1%nat by (apply ws_load).
      apply rtc_refl. }
    reflexivity. }
  exists s, pool. split; [exact Hr|]. exact (watch_recv_stored _ _ _ _ _ Hr Hi).
Defined.

End Watch.

(** ** oneshot: one message, atomics only *)

Module Oneshot.

Record xtc_chan_oneshot := mk_oneshot {
  os_state : Z;            (** 0 empty, 1 written, 2 closed *)
  os_value : Z;
  os_waker : Z;
  os_has_waker : Z;
}.

Definition xtc_chan_oneshot_create (r : option xtc_res) (out : bool) (a1 : rc)
  : rc * option xtc_chan_oneshot * option xtc_res :=
  if out then
    match charge r XTC_RES_CHANNELS 1 with
    | (XTC_OK, r1) =>
        if decide (a1 <> XTC_OK) then (a1, None, uncharge r1 XTC_RES_CHANNELS 1)
        else (XTC_OK, Some (mk_oneshot 0 NULL 0 0), r1)
    | (e, r1) => (e, None, r1)
    end
  else (XTC_E_INVAL, None, r).

Definition xtc_chan_oneshot_destroy (c : option xtc_chan_oneshot) (r : option xtc_res)
  : option xtc_res :=
  match c with None => r | Some _ => uncharge r XTC_RES_CHANNELS 1 end.

(** The code, the channel and the wakers fired. *)
Definition xtc_chan_oneshot_send (c : option xtc_chan_oneshot) (msg : Z)
  : rc * option xtc_chan_oneshot * list Z :=
  match c with
  | None => (XTC_E_INVAL, None, [])
  | Some c =>
      if decide (os_state c = 0) then
        (XTC_OK, Some (mk_oneshot 1 msg (os_waker c) (os_has_waker c)),
         if decide (os_has_waker c = 0) then [] else [os_waker c])
      else (XTC_E_INVAL, Some c, [])
  end.

Definition xtc_chan_oneshot_try_recv (c : option xtc_chan_oneshot) (out : bool) : rc * option Z :=
  match c, out with
  | Some c, true =>
      if decide (os_state c = 1) then (XTC_OK, Some (os_value c)) else (XTC_E_AGAIN, None)
  | _, _ => (XTC_E_INVAL, None)
  end.

Definition xtc_chan_oneshot_set_waker (c : option xtc_chan_oneshot) (w : option Z)
  : rc * option xtc_chan_oneshot * list Z :=
  match c, w with
  | Some c, Some w =>
      (XTC_OK, Some (mk_oneshot (os_state c) (os_value c) w 1),
       if decide (os_state c = 1) then [w] else [])
  | _, _ => (XTC_E_INVAL, c, [])
  end.

(** Shared memory with two ghost histories: the messages whose send won the
    exchange of [state], and the wakers fired. *)
Record os_world := mk_osw {
  ow_chan : xtc_chan_oneshot;
  ow_accepted : list Z;
  ow_wakes : list Z;
}.

Inductive os_pc : Type :=
  | OIdle
  | OStore (m : Z)                (** [state] won, about to store the value *)
  | OWake                         (** about to test [has_waker] *)
  | OValue                        (** [state] is 1, about to load the value *)
  | OFlag                         (** waker copied, about to set [has_waker] *)
  | OCheck                        (** about to test [state] *)
  | ORet (c : rc) (v : option Z).

Inductive os_step : nat -> os_world -> os_pc -> os_world -> os_pc -> Prop :=
  (* send *)
  | oss_win i v w h acc wk m :
      os_step i (mk_osw (mk_oneshot 0 v w h) acc wk) OIdle
        (mk_osw (mk_oneshot 1 v w h) (acc ++ [m]) wk) (OStore m)
  | oss_lose i s :
      os_state (ow_chan s) <> 0 -> os_step i s OIdle s (ORet XTC_E_INVAL None)
  | oss_store i st v w h acc wk m :
      os_step i (mk_osw (mk_oneshot st v w h) acc wk) (OStore m)
        (mk_osw (mk_oneshot st m w h) acc wk) OWake
  | oss_wake i st v w h acc wk :
      h <> 0 ->
      os_step i (mk_osw (mk_oneshot st v w h) acc wk) OWake
        (mk_osw (mk_oneshot st v w h) acc (wk ++ [w])) (ORet XTC_OK None)
  | oss_nowake i s :
      os_has_waker (ow_chan s) = 0 -> os_step i s OWake s (ORet XTC_OK None)
  (* try_recv *)
  | oss_again i s :
      os_state (ow_chan s) <> 1 -> os_step i s OIdle s (ORet XTC_E_AGAIN None)
  | oss_written i s : os_state (ow_chan s) = 1 -> os_step i s OIdle s OValue
  | oss_value i s : os_step i s OValue s (ORet XTC_OK (Some (os_value (ow_chan s))))
  (* set_waker *)
  | oss_copy i st v w h acc wk w' :
      os_step i (mk_osw (mk_oneshot st v w h) acc wk) OIdle
        (mk_osw (mk_oneshot st v w' h) acc wk) OFlag
  | oss_flag i st v w h acc wk :
      os_step i (mk_osw (mk_oneshot st v w h) acc wk) OFlag
        (mk_osw (mk_oneshot st v w 1) acc wk) OCheck
  | oss_fire i st v w h acc wk :
      st = 1 ->
      os_step i (mk_osw (mk_oneshot st v w h) acc wk) OCheck
        (mk_osw (mk_oneshot st v w h) acc (wk ++ [w])) (ORet XTC_OK None)
  | oss_quiet i s :
      os_state (ow_chan s) <> 1 -> os_step i s OCheck s (ORet XTC_OK None)
  (* the next call *)
  | oss_ret i s c v : os_step i s (ORet c v) s OIdle.

Definition osw0 : os_world := mk_osw (mk_oneshot 0 NULL 0 0) [] [].

(** A thread that will still look at the waker of an accepted message. *)
Definition os_pending (p : os_pc) : Prop :=
  match p with OStore _ | OWake | OCheck => True | _ => False end.

Definition os_mem_inv (s : os_world) : Prop :=
  let c := ow_chan s in
  (os_state c = 0 /\ ow_accepted s = [] /\ os_value c = NULL) \/
  (os_state c = 1 /\ exists m, ow_accepted s = [m] /\ (os_value c = NULL \/ os_value c = m)).

Definition os_pc_inv (s : os_world) (p : os_pc) : Prop :=
  match p with
  | OStore m => ow_accepted s = [m]
  | ORet _ (Some v) => v = NULL \/ ow_accepted s = [v]
  | _ => True
  end.

Definition os_inv (s : os_world) (pool : gmap nat os_pc) : Prop :=
  os_mem_inv s /\ map_Forall (fun _ => os_pc_inv s) pool /\
  (* the value is in place unless its sender is still about to store it *)
  (forall m, ow_accepted s = [m] ->
     os_value (ow_chan s) = m \/ exists i, pool !! i = Some (OStore m)) /\
  (* a registered waker of an accepted message fires *)
  (os_has_waker (ow_chan s) <> 0 -> ow_accepted s <> [] ->
     ow_wakes s <> [] \/ pool_some os_pending pool).

Lemma os_step_mem i s p s' p' :
  os_mem_inv s -> os_pc_inv s p -> os_step i s p s' p' ->
  os_mem_inv s' /\ os_pc_inv s' p' /\
  (ow_accepted s' = ow_accepted s \/ ow_accepted s = []).
Proof.
  unfold os_mem_inv. intros Hm Hp Hst. destruct Hst; simpl in *; try by auto.
  - (* the winning send *)
    destruct Hm as [(_ & -> & ->)|[? _]]; [|done]. simpl. split_and!; auto.
    right. split; [done|]. exists m. auto.
  - (* the store of the value *)
    split_and!; auto. destruct Hm as [(_ & E & _)|(-> & m' & E & _)]; [congruence|].
    right. split; [done|]. exists m'. split; [done|]. right. congruence.
  - (* the load of the value *)
    split_and!; auto. destruct Hm as [(_ & _ & ->)|(_ & m & -> & [->| ->])]; auto.
Qed.

Lemma os_pc_stable s s' q :
  ow_accepted s' = ow_accepted s \/ ow_accepted s = [] -> os_pc_inv s q -> os_pc_inv s' q.
Proof.
  intros [E|E]; destruct q as [|m| | | | |c [v|]]; simpl; rewrite ?E; try done.
  intros [->|?]; [by left|done].
Qed.

Lemma os_step_value s (pool : gmap nat os_pc) i p s' p' :
  pool !! i = Some p -> os_pc_inv s p -> os_mem_inv s -> os_step i s p s' p' ->
  (forall m, ow_accepted s = [m] ->
     os_value (ow_chan s) = m \/ pool_some (fun q => q = OStore m) pool) ->
  forall m, ow_accepted s' = [m] ->
    os_value (ow_chan s') = m \/ pool_some (fun q => q = OStore m) (<[i := p']> pool).
Proof.
  intros Hi Hp Hmem Hst HV m Hm. destruct Hst; simpl in *;
    try (destruct (HV m Hm) as [?|Hx]; [by left|]; right;
         eapply pool_some_keep; [exact Hi|discriminate|exact Hx]).
  - destruct Hmem as [(_ & E & _)|[? _]]; [|done]. simpl in E. subst acc. simplify_eq/=. right.
    by apply pool_some_now.
  - left. congruence.
Qed.

Lemma os_step_wakes s (pool : gmap nat os_pc) i p s' p' :
  pool !! i = Some p -> os_mem_inv s -> os_step i s p s' p' ->
  (os_has_waker (ow_chan s) <> 0 -> ow_accepted s <> [] ->
     ow_wakes s <> [] \/ pool_some os_pending pool) ->
  os_has_waker (ow_chan s') <> 0 -> ow_accepted s' <> [] ->
    ow_wakes s' <> [] \/ pool_some os_pending (<[i := p']> pool).
Proof.
  intros Hi Hmem Hst HW Hh Ha. destruct Hst; simpl in *; try contradiction;
    try (right; by apply pool_some_now);
    try (left; by destruct wk);
    try (destruct (HW Hh Ha) as [?|Hx]; [by left|]; right;
         eapply pool_some_keep; [exact Hi|intros []|exact Hx]).
  (* the registration saw no message *)
  destruct Hmem as [(_ & ? & _)|[? _]]; contradiction.
Qed.

Lemma os_step_inv s pool i p s' p' :
  os_inv s pool -> pool !! i = Some p -> os_step i s p s' p' -> os_inv s' (<[i := p']> pool).
Proof.
  intros (Hm & Hp & HV & HW) Hi Hst. pose proof (Hp _ _ Hi) as Hpi. simpl in Hpi.
  destruct (os_step_mem _ _ _ _ _ Hm Hpi Hst) as (Hm' & Hp' & Hacc). split_and!; [done| | |].
  - eapply map_Forall_pool_update; [exact Hp| |exact Hp']. intros j q _ _. by apply os_pc_stable.
  - intros m E.
    assert (forall m, ow_accepted s = [m] -> os_value (ow_chan s) = m \/
              pool_some (fun q => q = OStore m) pool) as HV'.
    { intros m' E'. destruct (HV m' E') as [?|[j Hj]]; [by left|right; by exists j, (OStore m')]. }
    destruct (os_step_value _ _ _ _ _ _ Hi Hpi Hm Hst HV' m E) as [?|(j & q & Hj & ->)];
      [by left|right; by exists j].
  - exact (os_step_wakes _ _ _ _ _ _ Hi Hm Hst HW).
Qed.

Lemma os_reach_inv n s pool :
  reachable os_step (osw0, idle_pool OIdle n) (s, pool) -> os_inv s pool.
Proof.
  intros Hr. apply (pool_invariant os_step os_inv _ _ (fun s p i q s' q' => os_step_inv s p i q s' q')) in Hr;
    [done|]. split_and!; simpl; try done; [by left|by apply idle_pool_Forall].
Qed.

(** Under any interleaving of sends, receives and waker registrations on
    a oneshot: at most one send is accepted; a receive never returns a
    message other than the accepted one (it may return NULL while that
    send's store is pending, and only then: with no send between its two
    stores, the accepted message is in place); and once no thread is about
    to look at the waker, an accepted message whose receiver registered a
    waker has fired one. *)
Theorem oneshot_safe n s pool :
  reachable os_step (osw0, idle_pool OIdle n) (s, pool) ->
  (length (ow_accepted s) <= 1)%nat /\
  (forall i c v, pool !! i = Some (ORet c (Some v)) -> v = NULL \/ ow_accepted s = [v]) /\
  (forall m, ow_accepted s = [m] -> (forall i, pool !! i <> Some (OStore m)) ->
     xtc_chan_oneshot_try_recv (Some (ow_chan s)) true = (XTC_OK, Some m)) /\
  (os_has_waker (ow_chan s) <> 0 -> ow_accepted s <> [] ->
     (forall i p, pool !! i = Some p -> ~ os_pending p) -> ow_wakes s <> []).
Proof.
  intros Hr. destruct (os_reach_inv _ _ _ Hr) as (Hm & Hp & HV & HW). split_and!.
  - destruct Hm as [(_ & -> & _)|(_ & m & -> & _)]; simpl; lia.
  - intros i c v Hi. apply (Hp _ _ Hi).
  - intros m E Hn. destruct (HV m E) as [Ev|[i Hi]]; [|by destruct (Hn i)].
    unfold xtc_chan_oneshot_try_recv. destruct Hm as [(_ & ? & _)|(-> & _)]; [congruence|].
    rewrite decide_True by done. by rewrite Ev.
  - intros H1 H2 H3. destruct (HW H1 H2) as [?|(i & p & Hi & Hq)]; [done|].
    by destruct (H3 i p Hi).
Qed.

(** A sender that won, stored and woke nobody; a receiver that got it. *)
Lemma oneshot_safe_witness :
  exists s pool,
    reachable os_step (osw0, idle_pool OIdle 2) (s, pool) /\
    pool !! 1%nat = Some (ORet XTC_OK (Some 5)) /\ (5 = NULL \/ ow_accepted s = [5]).
Proof.
  assert (exists s pool,
    reachable os_step (osw0, idle_pool OIdle 2) (s, pool) /\
    pool !! 1%nat = Some (ORet XTC_OK (Some 5))) as (s & pool & Hr & Hi).
  { eexists _, _. split.
    { pool_run 0%nat by (apply (oss_win _ _ _ _ _ _ 5)). pool_run 0%nat by (apply oss_store).
      pool_run 1%nat by (apply oss_written; reflexivity). pool_run 1%nat by (apply oss_value).
      apply rtc_refl. }
    reflexivity. }
  exists s, pool. split; [exact Hr|]. split; [exact Hi|].
  exact (proj1 (proj2 (oneshot_safe _ _ _ Hr)) _ _ _ Hi).
Defined.

(** The window is real.  A receiver scheduled between a sender's
    exchange of [state] and its store of the value returns XTC_OK with NULL
    for a message that is not NULL. *)
Theorem oneshot_null_window :
  exists s pool,
    reachable os_step (osw0, idle_pool OIdle 2) (s, pool) /\
    ow_accepted s = [5] /\ pool !! 1%nat = Some (ORet XTC_OK (Some NULL)).
Proof.
  eexists _, _. split.
  { pool_run 0%nat by (apply (oss_win _ _ _ _ _ _ 5)).
    pool_run 1%nat by (apply oss_written; reflexivity). pool_run 1%nat by (apply oss_value).
    apply rtc_refl. }
  split; reflexivity.
Qed.

End Oneshot.
