(* ===== verification/Mpsc.v ===== *)
(** * The lock-free bounded mpsc channel (src/ptc/chan.c, lines 98-304)

    Any number of senders reserve a cell by advancing [head] with a
    compare-exchange and then publish their message in it; the single
    consumer (thread 0) takes the cell at [tail].  The operations are given
    twice: as functions on the channel's record, and as the sequence of
    atomic accesses each one makes, which the thread pool interleaves.  The
    accountant is shared with other users, who charge and release slots of
    their own at any time. *)

From S2P Require Import Prelude Res Chan.

Local Open Scope Z_scope.

Record xtc_chan_mpsc := mk_mpsc {
  mp_cap : nat;
  mp_slots : list Z;
  mp_head : Z;                 (** a uint64_t: cells reserved so far *)
  mp_tail : Z;                 (** a uint64_t: cells consumed so far *)
  mp_closed : Z;
  mp_waker : Z;
  mp_has_waker : Z;
}.

(** [while (p < capacity) p <<= 1]; 64 doublings exhaust a size_t. *)
Fixpoint round_up (fuel : nat) (p capacity : Z) : Z :=
  match fuel with
  | O => p
  | S fuel => if decide (p < capacity) then round_up fuel (u64 (Z.shiftl p 1)) capacity else p
  end.

Definition xtc_chan_mpsc_create (r : option xtc_res) (capacity : Z) (out : bool) (a1 a2 : rc)
  : rc * option xtc_chan_mpsc * option xtc_res :=
  if decide (out = false \/ capacity = 0) then (XTC_E_INVAL, None, r)
  else if decide (SIZE_MAX / 2 + 1 < capacity) then (XTC_E_RANGE, None, r)
  else
    let capacity := round_up 64 1 capacity in
    match charge r XTC_RES_CHANNELS 1 with
    | (XTC_OK, r1) =>
        if decide (a1 <> XTC_OK) then (a1, None, uncharge r1 XTC_RES_CHANNELS 1)
        else if decide (a2 <> XTC_OK) then (a2, None, uncharge r1 XTC_RES_CHANNELS 1)
        else (XTC_OK,
              Some (mk_mpsc (Z.to_nat capacity) (replicate (Z.to_nat capacity) NULL) 0 0 0 0 0), r1)
    | (e, r1) => (e, None, r1)
    end.

Definition xtc_chan_mpsc_len (c : option xtc_chan_mpsc) : Z :=
  match c with None => 0 | Some c => u64 (mp_head c - mp_tail c) end.

Definition xtc_chan_mpsc_destroy (c : option xtc_chan_mpsc) (r : option xtc_res)
  : option xtc_res :=
  match c with
  | None => r
  | Some c =>
      uncharge (uncharge r XTC_RES_CHAN_SLOTS (i64 (xtc_chan_mpsc_len (Some c)))) XTC_RES_CHANNELS 1
  end.

(** [h & (cap - 1)] *)
Definition slot_of (c : xtc_chan_mpsc) (h : Z) : nat :=
  Z.to_nat (Z.land h (Z.of_nat (mp_cap c) - 1)).

(** The updates of the shared fields. *)
Definition with_head (c : xtc_chan_mpsc) (h : Z) : xtc_chan_mpsc :=
  mk_mpsc (mp_cap c) (mp_slots c) h (mp_tail c) (mp_closed c) (mp_waker c) (mp_has_waker c).
Definition with_tail (c : xtc_chan_mpsc) (t : Z) : xtc_chan_mpsc :=
  mk_mpsc (mp_cap c) (mp_slots c) (mp_head c) t (mp_closed c) (mp_waker c) (mp_has_waker c).
Definition with_slot (c : xtc_chan_mpsc) (h v : Z) : xtc_chan_mpsc :=
  mk_mpsc (mp_cap c) (<[slot_of c h := v]> (mp_slots c)) (mp_head c) (mp_tail c) (mp_closed c)
    (mp_waker c) (mp_has_waker c).
Definition with_closed (c : xtc_chan_mpsc) : xtc_chan_mpsc :=
  mk_mpsc (mp_cap c) (mp_slots c) (mp_head c) (mp_tail c) 1 (mp_waker c) (mp_has_waker c).
Definition with_waker (c : xtc_chan_mpsc) (w h : Z) : xtc_chan_mpsc :=
  mk_mpsc (mp_cap c) (mp_slots c) (mp_head c) (mp_tail c) (mp_closed c) w h.

Definition fired (c : xtc_chan_mpsc) : list Z :=
  if decide (mp_has_waker c = 0) then [] else [mp_waker c].

(** [xtc_chan_mpsc_try_send] run without interference (the exchange of
    [head] succeeds at once): code, channel, accountant and wakers fired. *)
Definition xtc_chan_mpsc_try_send (c : option xtc_chan_mpsc) (msg : Z) (spurious : bool)
    (r : option xtc_res) : rc * option xtc_chan_mpsc * option xtc_res * list Z :=
  match c with
  | None => (XTC_E_INVAL, None, r, [])
  | Some c =>
      if decide (mp_closed c <> 0) then (XTC_E_INVAL, Some c, r, [])
      else if decide (msg = NULL) then (XTC_E_INVAL, Some c, r, [])
      else
        match charge r XTC_RES_CHAN_SLOTS 1 with
        | (XTC_OK, r1) =>
            let head := mp_head c in
            if decide (Z.of_nat (mp_cap c) <= u64 (head - mp_tail c) \/ spurious = true)
            then (XTC_E_AGAIN, Some c, uncharge r1 XTC_RES_CHAN_SLOTS 1, [])
            else
              let c1 := with_slot (with_head c (u64 (head + 1))) head msg in
              (XTC_OK, Some c1, r1, fired c1)
        | (e, r1) => (e, Some c, r1, [])
        end
  end.

Definition xtc_chan_mpsc_try_recv (c : option xtc_chan_mpsc) (out : bool) (r : option xtc_res)
  : rc * option Z * option xtc_chan_mpsc * option xtc_res :=
  match c with
  | None => (XTC_E_INVAL, None, None, r)
  | Some c =>
      if out then
        let tail := mp_tail c in
        if decide (mp_head c <= tail)
        then (if decide (mp_closed c <> 0) then XTC_E_INVAL else XTC_E_AGAIN, None, Some c, r)
        else
          let v := mp_slots c !!! slot_of c tail in
          if decide (v = NULL) then (XTC_E_AGAIN, None, Some c, r)
          else (XTC_OK, Some v, Some (with_tail (with_slot c tail NULL) (u64 (tail + 1))),
                uncharge r XTC_RES_CHAN_SLOTS 1)
      else (XTC_E_INVAL, None, Some c, r)
  end.

Definition xtc_chan_mpsc_set_waker (c : option xtc_chan_mpsc) (w : option Z)
  : rc * option xtc_chan_mpsc * list Z :=
  match c, w with
  | Some c, Some w =>
      (XTC_OK, Some (with_waker c w 1), if decide (mp_tail c < mp_head c) then [w] else [])
  | _, _ => (XTC_E_INVAL, c, [])
  end.

Definition xtc_chan_mpsc_close (c : option xtc_chan_mpsc)
  : rc * option xtc_chan_mpsc * list Z :=
  match c with
  | None => (XTC_E_INVAL, None, [])
  | Some c => (XTC_OK, Some (with_closed c), fired (with_closed c))
  end.

(** ** The operations as atomic accesses *)

(** Shared memory and its ghost history: the messages in the order their
    cells were reserved, which of them are published, the messages taken,
    whether the consumer has emptied the cell at [tail] already, the
    publication flags as of the last wake, and the slots other users of the
    accountant hold. *)
Record mp_world := mk_mpw {
  mw_chan : xtc_chan_mpsc;
  mw_res : option xtc_res;
  mw_sent : list Z;
  mw_pub : list bool;
  mw_rcvd : list Z;
  mw_cleared : bool;
  mw_woken : list bool;
  mw_others : Z;
}.

Inductive mp_pc : Type :=
  | MIdle
  (* try_send *)
  | SCharge (m : Z)
  | SHead (m : Z)                  (** top of the reservation loop *)
  | STail (m h : Z)
  | SCas (m h : Z)
  | SPub (m h : Z)                 (** cell [h] reserved, not yet stored *)
  | SWake (h : Z)                  (** stored, about to test [has_waker] *)
  | SFull                          (** about to give the slot unit back *)
  (* try_recv *)
  | RHead (t : Z)
  | RClosed
  | RSlot (t : Z)
  | RClear (t v : Z)
  | RTail (t v : Z)
  | RRel (v : Z)
  (* set_waker and close *)
  | KFlag (w : Z)
  | KHead
  | KTail (h : Z)
  | CWake
  | MRet (c : rc) (v : option Z).

Definition mw_set (s : mp_world) (c : xtc_chan_mpsc) : mp_world :=
  mk_mpw c (mw_res s) (mw_sent s) (mw_pub s) (mw_rcvd s) (mw_cleared s) (mw_woken s) (mw_others s).
Definition mw_account (s : mp_world) (r : option xtc_res) (others : Z) : mp_world :=
  mk_mpw (mw_chan s) r (mw_sent s) (mw_pub s) (mw_rcvd s) (mw_cleared s) (mw_woken s) others.
(** A wake covers everything published so far. *)
Definition mw_wake (s : mp_world) : mp_world :=
  mk_mpw (mw_chan s) (mw_res s) (mw_sent s) (mw_pub s) (mw_rcvd s) (mw_cleared s) (mw_pub s)
    (mw_others s).

(** [if (has_waker) xtc_waker_wake(&waker)] *)
Definition mw_wake_if (s : mp_world) : mp_world :=
  if decide (mp_has_waker (mw_chan s) = 0) then s else mw_wake s.

Inductive mp_step : nat -> mp_world -> mp_pc -> mp_world -> mp_pc -> Prop :=
  (* try_send: the tests *)
  | ms_send_inval i s m :
      mp_closed (mw_chan s) <> 0 \/ m = NULL ->
      mp_step i s MIdle s (MRet XTC_E_INVAL None)
  | ms_send i s m :
      mp_closed (mw_chan s) = 0 -> m <> NULL -> mp_step i s MIdle s (SCharge m)
  | ms_charged i s m r' :
      charge (mw_res s) XTC_RES_CHAN_SLOTS 1 = (XTC_OK, r') ->
      mp_step i s (SCharge m) (mw_account s r' (mw_others s)) (SHead m)
  | ms_refused i s m c r' :
      charge (mw_res s) XTC_RES_CHAN_SLOTS 1 = (c, r') -> c <> XTC_OK ->
      mp_step i s (SCharge m) (mw_account s r' (mw_others s)) (MRet c None)
  (* try_send: the reservation loop *)
  | ms_head i s m : mp_step i s (SHead m) s (STail m (mp_head (mw_chan s)))
  | ms_full i s m h spurious :
      Z.of_nat (mp_cap (mw_chan s)) <= u64 (h - mp_tail (mw_chan s)) \/ spurious = true ->
      mp_step i s (STail m h) s SFull
  | ms_room i s m h :
      u64 (h - mp_tail (mw_chan s)) < Z.of_nat (mp_cap (mw_chan s)) ->
      mp_step i s (STail m h) s (SCas m h)
  | ms_reserve i s m h :
      mp_head (mw_chan s) = h ->
      mp_step i s (SCas m h)
        (mk_mpw (with_head (mw_chan s) (u64 (h + 1))) (mw_res s) (mw_sent s ++ [m])
           (mw_pub s ++ [false]) (mw_rcvd s) (mw_cleared s) (mw_woken s) (mw_others s))
        (SPub m h)
  | ms_lost i s m h : mp_step i s (SCas m h) s (SHead m)
  | ms_publish i s m h :
      mp_step i s (SPub m h)
        (mk_mpw (with_slot (mw_chan s) h m) (mw_res s) (mw_sent s)
           (<[Z.to_nat h := true]> (mw_pub s)) (mw_rcvd s) (mw_cleared s) (mw_woken s)
           (mw_others s))
        (SWake h)
  | ms_wake i s h : mp_step i s (SWake h) (mw_wake_if s) (MRet XTC_OK None)
  | ms_give_back i s :
      mp_step i s SFull (mw_account s (uncharge (mw_res s) XTC_RES_CHAN_SLOTS 1) (mw_others s))
        (MRet XTC_E_AGAIN None)
  (* try_recv, by the one consumer *)
  | ms_recv s : mp_step 0 s MIdle s (RHead (mp_tail (mw_chan s)))
  | ms_empty i s t : mp_head (mw_chan s) <= t -> mp_step i s (RHead t) s RClosed
  | ms_drained i s :
      mp_step i s RClosed s
        (MRet (if decide (mp_closed (mw_chan s) <> 0) then XTC_E_INVAL else XTC_E_AGAIN) None)
  | ms_some i s t : t < mp_head (mw_chan s) -> mp_step i s (RHead t) s (RSlot t)
  | ms_unpublished i s t :
      mp_slots (mw_chan s) !!! slot_of (mw_chan s) t = NULL ->
      mp_step i s (RSlot t) s (MRet XTC_E_AGAIN None)
  | ms_load i s t v :
      mp_slots (mw_chan s) !!! slot_of (mw_chan s) t = v -> v <> NULL ->
      mp_step i s (RSlot t) s (RClear t v)
  | ms_clear i s t v :
      mp_step i s (RClear t v)
        (mk_mpw (with_slot (mw_chan s) t NULL) (mw_res s) (mw_sent s) (mw_pub s) (mw_rcvd s) true
           (mw_woken s) (mw_others s))
        (RTail t v)
  | ms_advance i s t v :
      mp_step i s (RTail t v)
        (mk_mpw (with_tail (mw_chan s) (u64 (t + 1))) (mw_res s) (mw_sent s) (mw_pub s)
           (mw_rcvd s ++ [v]) false (mw_woken s) (mw_others s))
        (RRel v)
  | ms_release i s v :
      mp_step i s (RRel v) (mw_account s (uncharge (mw_res s) XTC_RES_CHAN_SLOTS 1) (mw_others s))
        (MRet XTC_OK (Some v))
  (* set_waker *)
  | ms_waker i s w :
      mp_step i s MIdle (mw_set s (with_waker (mw_chan s) w (mp_has_waker (mw_chan s)))) (KFlag w)
  | ms_flag i s w :
      mp_step i s (KFlag w) (mw_set s (with_waker (mw_chan s) (mp_waker (mw_chan s)) 1)) KHead
  | ms_look_head i s : mp_step i s KHead s (KTail (mp_head (mw_chan s)))
  | ms_look_tail i s h :
      mp_step i s (KTail h) (if decide (mp_tail (mw_chan s) < h) then mw_wake s else s)
        (MRet XTC_OK None)
  (* close *)
  | ms_close i s : mp_step i s MIdle (mw_set s (with_closed (mw_chan s))) CWake
  | ms_close_wake i s : mp_step i s CWake (mw_wake_if s) (MRet XTC_OK None)
  (* other users of the accountant, and the next call *)
  | ms_other_charge i s n r' :
      0 <= n <= INT64_MAX -> charge (mw_res s) XTC_RES_CHAN_SLOTS n = (XTC_OK, r') ->
      mp_step i s MIdle (mw_account s r' (mw_others s + n)) MIdle
  | ms_other_release i s n :
      0 <= n <= mw_others s ->
      mp_step i s MIdle
        (mw_account s (uncharge (mw_res s) XTC_RES_CHAN_SLOTS n) (mw_others s - n)) MIdle
  | ms_ret i s c v : mp_step i s (MRet c v) s MIdle.

Definition mpw0 (c : xtc_chan_mpsc) (r : option xtc_res) : mp_world :=
  mk_mpw c r [] [] [] false [] (in_use r XTC_RES_CHAN_SLOTS).

(** ** The invariant *)

(** What the cell of reservation [n] holds. *)
Definition cell (s : mp_world) (n : nat) : Z :=
  if decide (mw_pub s !! n = Some true /\ ~ (mw_cleared s = true /\ n = length (mw_rcvd s)))
  then mw_sent s !!! n else NULL.

Record mp_mem (s : mp_world) : Prop := mk_mp_mem {
  mm_cap : exists e : nat, mp_cap (mw_chan s) = (2 ^ e)%nat /\ (e <= 63)%nat;
  mm_len : length (mp_slots (mw_chan s)) = mp_cap (mw_chan s);
  mm_head : mp_head (mw_chan s) = Z.of_nat (length (mw_sent s));
  mm_tail : mp_tail (mw_chan s) = Z.of_nat (length (mw_rcvd s));
  mm_pub : length (mw_pub s) = length (mw_sent s);
  mm_order : (length (mw_rcvd s) <= length (mw_sent s) <= length (mw_rcvd s) + mp_cap (mw_chan s))%nat;
  mm_fifo : mw_rcvd s `prefix_of` mw_sent s;
  mm_nonnull : NULL ∉ mw_sent s;
  mm_taken : forall n, (n < length (mw_rcvd s))%nat -> mw_pub s !! n = Some true;
  mm_cells : forall n,
    (length (mw_rcvd s) <= n < length (mw_rcvd s) + mp_cap (mw_chan s))%nat ->
    mp_slots (mw_chan s) !!! (n mod mp_cap (mw_chan s))%nat = cell s n;
}.

(** What thread [i] knows at its program point. *)
Definition mp_pc_inv (s : mp_world) (i : nat) (p : mp_pc) : Prop :=
  let tl := length (mw_rcvd s) in
  match p with
  | SCharge m | SHead m => m <> NULL
  | STail m h => m <> NULL /\ 0 <= h <= Z.of_nat (length (mw_sent s))
  | SCas m h => m <> NULL /\ 0 <= h <= Z.of_nat (length (mw_sent s)) /\
      h < Z.of_nat tl + Z.of_nat (mp_cap (mw_chan s))
  | SPub m h => exists n, h = Z.of_nat n /\ mw_sent s !! n = Some m /\ mw_pub s !! n = Some false
  | SWake h => exists n, h = Z.of_nat n /\ mw_pub s !! n = Some true
  | RHead t => i = 0%nat /\ t = Z.of_nat tl
  | RClosed => i = 0%nat
  | RSlot t => i = 0%nat /\ t = Z.of_nat tl /\ (tl < length (mw_sent s))%nat
  | RClear t v => i = 0%nat /\ t = Z.of_nat tl /\ mw_sent s !! tl = Some v /\
      mw_pub s !! tl = Some true
  | RTail t v => i = 0%nat /\ t = Z.of_nat tl /\ mw_sent s !! tl = Some v /\
      mw_pub s !! tl = Some true /\ mw_cleared s = true
  | _ => True
  end.

(** Slot units held by a thread outside the queue. *)
Definition holds (p : mp_pc) : Z :=
  match p with
  | SHead _ | STail _ _ | SCas _ _ | SFull | RRel _ => 1
  | _ => 0
  end.

(** A thread that will look at the waker for the message of cell [n]. *)
Definition looks (n : nat) (p : mp_pc) : Prop :=
  match p with
  | SWake h => h = Z.of_nat n
  | KHead => True
  | KTail h => Z.of_nat n < h
  | _ => False
  end.

Record mp_inv (s : mp_world) (pool : gmap nat mp_pc) : Prop := mk_mp_inv {
  mi_mem : mp_mem s;
  mi_pcs : map_Forall (mp_pc_inv s) pool;
  mi_cleared : mw_cleared s = true -> exists t v, pool !! 0%nat = Some (RTail t v);
  mi_distinct : forall i j m m' h,
    pool !! i = Some (SPub m h) -> pool !! j = Some (SPub m' h) -> i = j;
  mi_unpub : forall n, mw_pub s !! n = Some false ->
    pool_some (fun p => exists m, p = SPub m (Z.of_nat n)) pool;
  mi_acct : acct_wf (mw_res s) /\ 0 <= mw_others s;
  mi_units : mw_res s <> None ->
    in_use (mw_res s) XTC_RES_CHAN_SLOTS =
      mw_others s + (mp_head (mw_chan s) - mp_tail (mw_chan s)) + pool_sum holds pool;
  mi_wakes : mp_has_waker (mw_chan s) <> 0 ->
    forall n, (length (mw_rcvd s) <= n)%nat -> mw_pub s !! n = Some true ->
    mw_woken s !! n = Some true \/ pool_some (looks n) pool;
}.

Lemma slot_of_nat c n e :
  mp_cap c = (2 ^ e)%nat -> slot_of c (Z.of_nat n) = (n mod mp_cap c)%nat.
Proof.
  intros Hc. unfold slot_of. rewrite Hc, Nat2Z.inj_pow. change (Z.of_nat 2) with 2.
  rewrite land_pow2_mask by lia.
  rewrite <- (Nat2Z.id (n mod 2 ^ e)), Nat2Z.inj_mod, Nat2Z.inj_pow. done.
Qed.

Lemma slot_of_cap c c' h : mp_cap c = mp_cap c' -> slot_of c h = slot_of c' h.
Proof. unfold slot_of. by intros ->. Qed.

Lemma mp_cap_pos s : mp_mem s -> (0 < mp_cap (mw_chan s))%nat.
Proof.
  intros [[e [-> _]] _ _ _ _ _ _ _ _ _]. pose proof (Nat.pow_nonzero 2 e). lia.
Qed.

(** Two cells of the window never share a slot. *)
Lemma window_ne s n m :
  mp_mem s -> (length (mw_rcvd s) <= n < length (mw_rcvd s) + mp_cap (mw_chan s))%nat ->
  (length (mw_rcvd s) <= m < length (mw_rcvd s) + mp_cap (mw_chan s))%nat -> n <> m ->
  (n mod mp_cap (mw_chan s) <> m mod mp_cap (mw_chan s))%nat.
Proof.
  intros Hm Hn Hmr Hne.
  pose proof (ring_index_ne (mp_cap (mw_chan s)) (length (mw_rcvd s))
    (n - length (mw_rcvd s)) (m - length (mw_rcvd s))) as H.
  replace (length (mw_rcvd s) + (n - length (mw_rcvd s)))%nat with n in H by lia.
  replace (length (mw_rcvd s) + (m - length (mw_rcvd s)))%nat with m in H by lia.
  apply H; lia.
Qed.

(** Storing in the cell of window position [n] changes that cell only. *)
Lemma store_cells s n v k :
  mp_mem s -> (length (mw_rcvd s) <= n < length (mw_rcvd s) + mp_cap (mw_chan s))%nat ->
  (length (mw_rcvd s) <= k < length (mw_rcvd s) + mp_cap (mw_chan s))%nat ->
  mp_slots (with_slot (mw_chan s) (Z.of_nat n) v) !!! (k mod mp_cap (mw_chan s))%nat =
    if decide (k = n) then v else cell s k.
Proof.
  intros Hm Hn Hk. destruct (mm_cap _ Hm) as [e [He _]]. simpl.
  rewrite (slot_of_nat _ _ e He). case_decide as D.
  - subst k. apply list_lookup_total_insert_eq. rewrite (mm_len _ Hm).
    apply Nat.mod_upper_bound. pose proof (mp_cap_pos _ Hm). lia.
  - rewrite list_lookup_total_insert_ne; [by apply mm_cells|]. apply window_ne; auto.
Qed.

(** *** The four steps that change the queue *)

Lemma mem_reserve s m :
  mp_mem s -> m <> NULL ->
  (length (mw_sent s) < length (mw_rcvd s) + mp_cap (mw_chan s))%nat ->
  Z.of_nat (length (mw_sent s)) + 1 < 2 ^ 63 ->
  mp_mem (mk_mpw (with_head (mw_chan s) (u64 (mp_head (mw_chan s) + 1))) (mw_res s)
            (mw_sent s ++ [m]) (mw_pub s ++ [false]) (mw_rcvd s) (mw_cleared s) (mw_woken s)
            (mw_others s)).
Proof.
  intros Hm Hnn Hlt Hb. pose proof Hm as [Hc Hl Hh Ht Hp Ho Hf Hn Htk Hcl].
  constructor; simpl; rewrite ?length_app; simpl; try done; try lia.
  - rewrite uwrap_small; rewrite Hh; lia.
  - by apply prefix_app_r.
  - set_solver.
  - intros n Hlen. apply lookup_app_l_Some. by apply Htk.
  - intros n Hr. rewrite Hcl by done. unfold cell. simpl.
    destruct (decide (n < length (mw_sent s))%nat) as [Hlt'|Hge].
    + rewrite lookup_app_l, lookup_total_app_l by lia. done.
    + rewrite (lookup_ge_None_2 (mw_pub s) n) by lia. rewrite decide_False by naive_solver.
      rewrite decide_False; [done|]. intros [E _].
      apply lookup_app_Some in E as [E|[_ E]]; [by rewrite lookup_ge_None_2 in E by lia|].
      apply list_lookup_singleton_Some in E as [_ ?]. done.
Qed.

Lemma mem_publish s m n :
  mp_mem s -> mw_sent s !! n = Some m -> mw_pub s !! n = Some false ->
  ~ (mw_cleared s = true /\ n = length (mw_rcvd s)) ->
  mp_mem (mk_mpw (with_slot (mw_chan s) (Z.of_nat n) m) (mw_res s) (mw_sent s)
            (<[n := true]> (mw_pub s)) (mw_rcvd s) (mw_cleared s) (mw_woken s) (mw_others s)).
Proof.
  intros Hm Hs Hpn Hcn. pose proof Hm as [Hc Hl Hh Ht Hp Ho Hf Hn Htk Hcl].
  assert (length (mw_rcvd s) <= n)%nat.
  { destruct (decide (length (mw_rcvd s) <= n)%nat); [done|]. rewrite Htk in Hpn by lia. done. }
  assert (n < length (mw_sent s))%nat by (by eapply lookup_lt_Some).
  constructor; simpl; rewrite ?length_insert; try done.
  - intros k Hk. rewrite list_lookup_insert_ne by lia. by apply Htk.
  - intros k Hk. pose proof (store_cells s n m k Hm ltac:(lia) ltac:(lia)) as E. simpl in E.
    rewrite E. unfold cell. simpl. case_decide as D.
    + subst k. rewrite list_lookup_insert_eq by lia. rewrite decide_True by done.
      symmetry. by apply list_lookup_total_correct.
    + by rewrite list_lookup_insert_ne by done.
Qed.

Lemma mem_clear s v :
  mp_mem s -> mw_sent s !! length (mw_rcvd s) = Some v ->
  mw_pub s !! length (mw_rcvd s) = Some true ->
  mp_mem (mk_mpw (with_slot (mw_chan s) (Z.of_nat (length (mw_rcvd s))) NULL) (mw_res s)
            (mw_sent s) (mw_pub s) (mw_rcvd s) true (mw_woken s) (mw_others s)).
Proof.
  intros Hm Hs Hpn. pose proof Hm as [Hc Hl Hh Ht Hp Ho Hf Hn Htk Hcl].
  pose proof (mp_cap_pos _ Hm). constructor; simpl; rewrite ?length_insert; try done.
  intros k Hk. pose proof (store_cells s (length (mw_rcvd s)) NULL k Hm ltac:(lia) ltac:(lia)) as E.
  simpl in E. rewrite E. unfold cell. simpl. case_decide as D.
  - rewrite decide_False; [done|]. subst k. tauto.
  - apply decide_ext; tauto.
Qed.

Lemma mem_advance s v :
  mp_mem s -> mw_sent s !! length (mw_rcvd s) = Some v ->
  mw_pub s !! length (mw_rcvd s) = Some true -> mw_cleared s = true ->
  Z.of_nat (length (mw_sent s)) < 2 ^ 63 ->
  mp_mem (mk_mpw (with_tail (mw_chan s) (u64 (Z.of_nat (length (mw_rcvd s)) + 1))) (mw_res s)
            (mw_sent s) (mw_pub s) (mw_rcvd s ++ [v]) false (mw_woken s) (mw_others s)).
Proof.
  intros Hm Hs Hpn Hclr Hb. pose proof Hm as [Hc Hl Hh Ht Hp Ho Hf Hn Htk Hcl].
  pose proof (mp_cap_pos _ Hm) as Hpos. assert (length (mw_rcvd s) < length (mw_sent s))%nat
    by (by eapply lookup_lt_Some).
  constructor; simpl; rewrite ?length_app; simpl; try done; try lia.
  - rewrite uwrap_small; lia.
  - destruct Hf as [k E]. rewrite E in Hs |- *.
    rewrite lookup_app_r, Nat.sub_diag in Hs by done. destruct k as [|x k]; [done|].
    simplify_eq/=. exists k. by rewrite <- app_assoc.
  - intros n Hlt. destruct (decide (n = length (mw_rcvd s))) as [->|]; [done|]. apply Htk. lia.
  - intros n Hr. destruct (decide (n = length (mw_rcvd s) + mp_cap (mw_chan s))%nat) as [->|Hne].
    + replace ((length (mw_rcvd s) + mp_cap (mw_chan s)) mod mp_cap (mw_chan s))%nat
        with (length (mw_rcvd s) mod mp_cap (mw_chan s))%nat.
      2: { rewrite <- (Nat.Div0.mod_add (length (mw_rcvd s)) 1 (mp_cap (mw_chan s))). f_equal. lia. }
      rewrite Hcl by lia. unfold cell. simpl. rewrite decide_False by tauto.
      rewrite decide_False; [done|]. intros [E _]. apply lookup_lt_Some in E. lia.
    + rewrite Hcl by lia. unfold cell. simpl. apply decide_ext.
      assert (n <> length (mw_rcvd s)) by lia. split; intros [? _]; split; try done; naive_solver.
Qed.

(** *** Steps that leave the queue alone *)

Definition same_queue (s s' : mp_world) : Prop :=
  mp_cap (mw_chan s') = mp_cap (mw_chan s) /\ mp_slots (mw_chan s') = mp_slots (mw_chan s) /\
  mp_head (mw_chan s') = mp_head (mw_chan s) /\ mp_tail (mw_chan s') = mp_tail (mw_chan s) /\
  mw_sent s' = mw_sent s /\ mw_pub s' = mw_pub s /\ mw_rcvd s' = mw_rcvd s /\
  mw_cleared s' = mw_cleared s.

#[global] Instance same_queue_refl : Reflexive same_queue.
Proof. intros s. by split_and!. Qed.

Lemma same_queue_wake_if s : same_queue s (mw_wake_if s).
Proof. unfold mw_wake_if. case_decide; by split_and!. Qed.

Lemma mem_same s s' : same_queue s s' -> mp_mem s -> mp_mem s'.
Proof.
  intros (E1 & E2 & E3 & E4 & E5 & E6 & E7 & E8) [Hc Hl Hh Ht Hp Ho Hf Hn Htk Hcl].
  constructor; unfold cell in *; rewrite ?E1, ?E2, ?E3, ?E4, ?E5, ?E6, ?E7, ?E8; auto.
Qed.

Lemma pc_same s s' i p : same_queue s s' -> mp_pc_inv s i p -> mp_pc_inv s' i p.
Proof.
  intros (E1 & E2 & E3 & E4 & E5 & E6 & E7 & E8).
  destruct p; simpl; rewrite ?E1, ?E5, ?E6, ?E7, ?E8; auto.
Qed.

Lemma cleared_pub s pool :
  mp_inv s pool -> mw_cleared s = true -> mw_pub s !! length (mw_rcvd s) = Some true.
Proof.
  intros Hi Hc. destruct (mi_cleared _ _ Hi Hc) as (t & v & H0).
  apply (mi_pcs _ _ Hi) in H0. simpl in H0. tauto.
Qed.

(** The room test, made against a stale [head] and an older [tail], is sound:
    the difference of the 64-bit counters is below the capacity only if the
    cell is in the window. *)
Lemma room_sound s h :
  mp_mem s -> 0 <= h <= Z.of_nat (length (mw_sent s)) -> Z.of_nat (length (mw_sent s)) < 2 ^ 63 ->
  u64 (h - mp_tail (mw_chan s)) < Z.of_nat (mp_cap (mw_chan s)) ->
  h < Z.of_nat (length (mw_rcvd s)) + Z.of_nat (mp_cap (mw_chan s)).
Proof.
  intros Hm Hh Hb Hu. rewrite (mm_tail _ Hm) in Hu. pose proof (mm_order _ Hm) as Ho.
  destruct (mm_cap _ Hm) as (e & He & Hle).
  assert (Z.of_nat (mp_cap (mw_chan s)) <= 2 ^ 63) as Hcap.
  { rewrite He, Nat2Z.inj_pow. apply Z.pow_le_mono_r; lia. }
  destruct (decide (h < Z.of_nat (length (mw_rcvd s)))) as [Hlt|Hge]; [lia|].
  unfold uwrap in Hu. rewrite Z.mod_small in Hu; lia.
Qed.

(** A step's effect on the queue. *)
Lemma step_mem s pool i p s' p' :
  mp_inv s pool -> pool !! i = Some p -> mp_step i s p s' p' ->
  Z.of_nat (length (mw_sent s')) < 2 ^ 63 -> mp_mem s'.
Proof.
  intros Hinv Hi Hst Hb. pose proof (mi_mem _ _ Hinv) as Hm.
  pose proof (mi_pcs _ _ Hinv _ _ Hi) as Hp. simpl in Hp.
  destruct Hst; try exact Hm; try (apply (mem_same s); [by split_and!|exact Hm]);
    try (apply (mem_same s); [apply same_queue_wake_if|exact Hm]).
  - (* reserve *)
    simpl in Hb. rewrite length_app in Hb. simpl in Hb. destruct Hp as (Hnn & _ & Hlt).
    rewrite (mm_head _ Hm) in H. subst h. rewrite <- (mm_head _ Hm). apply mem_reserve; auto; lia.
  - (* publish *)
    destruct Hp as (n & -> & Hs & Hpn). rewrite Nat2Z.id. apply mem_publish; auto.
    intros [Hc ->]. rewrite (cleared_pub _ _ Hinv Hc) in Hpn. done.
  - (* clear *)
    destruct Hp as (_ & -> & Hs & Hpn). by eapply mem_clear.
  - (* advance *)
    destruct Hp as (_ & -> & Hs & Hpn & Hc). by apply mem_advance.
  - case_decide; [|exact Hm]. apply (mem_same s); [by split_and!|exact Hm].
Qed.

(** A step's effect on the thread that makes it. *)
Lemma step_pc s pool i p s' p' :
  mp_inv s pool -> pool !! i = Some p -> mp_step i s p s' p' ->
  Z.of_nat (length (mw_sent s')) < 2 ^ 63 -> mp_pc_inv s' i p'.
Proof.
  intros Hinv Hi Hst Hb. pose proof (mi_mem _ _ Hinv) as Hm.
  pose proof (mi_pcs _ _ Hinv _ _ Hi) as Hp. simpl in Hp.
  destruct Hst; simpl in *; try done; try tauto.
  - (* head loaded *) rewrite (mm_head _ Hm). split; [done|lia].
  - (* room *) destruct Hp as [Hnn Hh]. split_and!; try done; try lia. by apply room_sound.
  - (* reserve *)
    destruct Hp as (Hnn & Hh & _). exists (length (mw_sent s)). rewrite (mm_head _ Hm) in H.
    split_and!; [done|by rewrite lookup_app_r, Nat.sub_diag by lia|].
    by rewrite <- (mm_pub _ Hm), lookup_app_r, Nat.sub_diag by lia.
  - (* publish *)
    destruct Hp as (n & -> & _ & Hpn). exists n. rewrite Nat2Z.id. split; [done|].
    apply list_lookup_insert_eq. by eapply lookup_lt_Some.
  - (* receive starts *) by rewrite (mm_tail _ Hm).
  - (* not empty *) destruct Hp as [-> ->]. rewrite (mm_head _ Hm) in H. split_and!; [done|done|lia].
  - (* load *)
    destruct Hp as (-> & -> & Hlt). destruct (mm_cap _ Hm) as [e [He _]].
    pose proof (mp_cap_pos _ Hm).
    rewrite (slot_of_nat _ _ e He), (mm_cells _ Hm) in H by lia. unfold cell in H.
    case_decide as D; [|congruence]. destruct D as [Hpub _]. split_and!; try done.
    destruct (lookup_lt_is_Some_2 (mw_sent s) (length (mw_rcvd s))) as [x Hx]; [lia|].
    rewrite Hx. f_equal. rewrite <- H. symmetry. by apply list_lookup_total_correct.
Qed.

(** The consumer's program points. *)
Definition consumer_pc (p : mp_pc) : Prop :=
  match p with
  | RHead _ | RClosed | RSlot _ | RClear _ _ | RTail _ _ => True
  | _ => False
  end.

Lemma consumer_is_0 s i p : mp_pc_inv s i p -> consumer_pc p -> i = 0%nat.
Proof. destruct p; simpl; tauto. Qed.

Lemma pc_reserved s i q m h :
  mp_mem s -> mp_pc_inv s i q ->
  mp_pc_inv (mk_mpw (with_head (mw_chan s) h) (mw_res s) (mw_sent s ++ [m]) (mw_pub s ++ [false])
    (mw_rcvd s) (mw_cleared s) (mw_woken s) (mw_others s)) i q.
Proof.
  intros Hm. destruct q; simpl; rewrite ?length_app; simpl; try done; try (intros; split_and!; try tauto; lia).
  - intros (n & -> & Hs & Hp). exists n. split_and!; [done|by apply lookup_app_l_Some..].
  - intros (n & -> & Hp). exists n. split; [done|by apply lookup_app_l_Some].
  - intros (-> & -> & Hs & Hp). split_and!; [done|done|by apply lookup_app_l_Some..].
  - intros (-> & -> & Hs & Hp & Hc). split_and!; [done|done|by apply lookup_app_l_Some..|done].
Qed.

Lemma pc_published s i q n c :
  mp_cap c = mp_cap (mw_chan s) -> (forall m, q <> SPub m (Z.of_nat n)) ->
  mp_pc_inv s i q ->
  mp_pc_inv (mk_mpw c (mw_res s) (mw_sent s) (<[n := true]> (mw_pub s)) (mw_rcvd s)
    (mw_cleared s) (mw_woken s) (mw_others s)) i q.
Proof.
  intros Hc Hq.
  assert (forall k, mw_pub s !! k = Some true -> <[n := true]> (mw_pub s) !! k = Some true) as Hk.
  { intros k Hk. destruct (decide (n = k)) as [->|]; [|by rewrite list_lookup_insert_ne].
    apply list_lookup_insert_eq. by eapply lookup_lt_Some. }
  destruct q; simpl; rewrite ?Hc; try done.
  - intros (k & -> & Hs & Hp). exists k. split_and!; [done|done|].
    rewrite list_lookup_insert_ne; [done|]. intros ->. by eapply Hq.
  - intros (k & -> & Hp). exists k. auto.
  - intros (? & ? & ? & ?). split_and!; auto.
  - intros (? & ? & ? & ? & ?). split_and!; auto.
Qed.

Lemma step_others s pool i p s' p' j q :
  mp_inv s pool -> pool !! i = Some p -> mp_step i s p s' p' ->
  j <> i -> pool !! j = Some q -> mp_pc_inv s' j q.
Proof.
  intros Hinv Hi Hst Hne Hj. pose proof (mi_mem _ _ Hinv) as Hm.
  pose proof (mi_pcs _ _ Hinv _ _ Hi) as Hp. pose proof (mi_pcs _ _ Hinv _ _ Hj) as Hq.
  simpl in Hp, Hq.
  assert (consumer_pc p -> ~ consumer_pc q) as Hone.
  { intros C1 C2. apply Hne. by rewrite (consumer_is_0 _ _ _ Hp C1), (consumer_is_0 _ _ _ Hq C2). }
  destruct Hst; try exact Hq; try (apply (pc_same s); [by split_and!|exact Hq]);
    try (apply (pc_same s); [apply same_queue_wake_if|exact Hq]).
  - by apply pc_reserved.
  - destruct Hp as (n & -> & _). rewrite Nat2Z.id. apply pc_published; [done| |done].
    intros m' ->. apply Hne. by apply (mi_distinct _ _ Hinv _ _ _ _ _ Hj Hi).
  - specialize (Hone I). destruct q; try done; by destruct Hone.
  - specialize (Hone I). destruct q; simpl in *; rewrite ?length_app; simpl; try done;
      try (by destruct Hone); split_and!; try tauto; lia.
  - case_decide; [|exact Hq]. apply (pc_same s); [by split_and!|exact Hq].
Qed.

Lemma step_cleared s pool i p s' p' :
  mp_inv s pool -> pool !! i = Some p -> mp_step i s p s' p' ->
  mw_cleared s' = true -> exists t v, <[i := p']> pool !! 0%nat = Some (RTail t v).
Proof.
  intros Hinv Hi Hst Hc. pose proof (mi_pcs _ _ Hinv _ _ Hi) as Hp. simpl in Hp.
  assert (mw_cleared s = true -> (forall t v, p <> RTail t v) ->
          exists t v, <[i := p']> pool !! 0%nat = Some (RTail t v)) as Hkeep.
  { intros Hcl Hn. destruct (mi_cleared _ _ Hinv Hcl) as (t & v & H0). exists t, v.
    rewrite lookup_insert_ne; [done|]. intros ->. simplify_eq. by eapply Hn. }
  destruct Hst; simpl in Hc; try (apply Hkeep; [exact Hc|discriminate]); try done.
  - unfold mw_wake_if in Hc. apply Hkeep; [by destruct (decide _)|discriminate].
  - destruct Hp as (-> & _). exists t, v. apply lookup_insert_eq.
  - apply Hkeep; [by destruct (decide _)|discriminate].
  - unfold mw_wake_if in Hc. apply Hkeep; [by destruct (decide _)|discriminate].
Qed.

Lemma step_distinct s pool i p s' p' :
  mp_inv s pool -> pool !! i = Some p -> mp_step i s p s' p' ->
  forall j k m m' h, <[i := p']> pool !! j = Some (SPub m h) ->
    <[i := p']> pool !! k = Some (SPub m' h) -> j = k.
Proof.
  intros Hinv Hi Hst j k m m' h. rewrite !lookup_insert.
  assert (forall l x y, pool !! l = Some (SPub x y) -> y < mp_head (mw_chan s)) as Hlt.
  { intros l x y Hl. apply (mi_pcs _ _ Hinv) in Hl as (n & -> & Hs & _).
    rewrite (mm_head _ (mi_mem _ _ Hinv)). apply lookup_lt_Some in Hs. lia. }
  repeat case_decide; subst; try done.
  - destruct Hst; try done. intros [= -> ->] Hk. specialize (Hlt _ _ _ Hk). lia.
  - destruct Hst; try done. intros Hk [= -> ->]. specialize (Hlt _ _ _ Hk). lia.
  - apply (mi_distinct _ _ Hinv).
Qed.

Lemma step_unpub s pool i p s' p' :
  mp_inv s pool -> pool !! i = Some p -> mp_step i s p s' p' ->
  forall n, mw_pub s' !! n = Some false ->
    pool_some (fun p => exists m, p = SPub m (Z.of_nat n)) (<[i := p']> pool).
Proof.
  intros Hinv Hi Hst n Hn. pose proof (mi_mem _ _ Hinv) as Hm.
  pose proof (mi_pcs _ _ Hinv _ _ Hi) as Hp. simpl in Hp.
  assert (mw_pub s !! n = Some false -> (forall m, p <> SPub m (Z.of_nat n)) ->
    pool_some (fun p => exists m, p = SPub m (Z.of_nat n)) (<[i := p']> pool)) as Hkeep.
  { intros Hf Hne. eapply pool_some_keep; [exact Hi| |by apply (mi_unpub _ _ Hinv)].
    intros [m Em]. by eapply Hne. }
  destruct Hst; simpl in Hn; try (apply Hkeep; [exact Hn|discriminate]).
  - (* reserve *)
    apply lookup_app_Some in Hn as [Hn|[Hle Hn]]; [apply Hkeep; [done|discriminate]|].
    apply list_lookup_singleton_Some in Hn as [Hz _]. apply pool_some_now. exists m. f_equal.
    rewrite (mm_head _ Hm) in H. rewrite (mm_pub _ Hm) in *. lia.
  - (* publish *)
    destruct Hp as (k & -> & _ & Hk). rewrite Nat2Z.id in Hn.
    destruct (decide (k = n)) as [->|Hne].
    + rewrite list_lookup_insert_eq in Hn by (by eapply lookup_lt_Some). done.
    + rewrite list_lookup_insert_ne in Hn by done. apply Hkeep; [done|]. intros x [= _ ?]. lia.
  - unfold mw_wake_if in Hn. apply Hkeep; [by destruct (decide _)|discriminate].
  - apply Hkeep; [by destruct (decide _)|discriminate].
  - unfold mw_wake_if in Hn. apply Hkeep; [by destruct (decide _)|discriminate].
Qed.

Lemma holds_nonneg p : 0 <= holds p.
Proof. destruct p; simpl; lia. Qed.

(** The accountant's books: charges and releases of this channel and of the
    other users always match what the queue and the threads hold. *)
Definition books (s : mp_world) (out : Z) : Prop :=
  acct_wf (mw_res s) /\ 0 <= mw_others s /\
  (mw_res s <> None -> in_use (mw_res s) XTC_RES_CHAN_SLOTS = mw_others s + out).

Lemma books_charge s n c r' out d :
  books s out -> 0 <= n <= INT64_MAX -> 0 <= d ->
  charge (mw_res s) XTC_RES_CHAN_SLOTS n = (c, r') ->
  books (mw_account s r' (mw_others s + d)) (out + (if decide (c = XTC_OK) then n else 0) - d).
Proof.
  intros (Hwf & Ho & Hu) Hn Hd E.
  destruct (charge_spec (mw_res s) XTC_RES_CHAN_SLOTS n c r' Hwf ltac:(done) Hn E) as [[-> Hm]|(-> & Hnn & Hm)];
    pose proof Hm as (Hwf' & HN & _); (unfold books; simpl; split_and!; [done|lia|]); intros Hr;
    rewrite (moved_use _ _ _ _ Hm), Hu by (done || tauto); simpl; lia.
Qed.

Lemma books_uncharge s n out d :
  books s out -> 0 <= n -> n <= mw_others s + out -> 0 <= mw_others s - d ->
  books (mw_account s (uncharge (mw_res s) XTC_RES_CHAN_SLOTS n) (mw_others s - d)) (out - n + d).
Proof.
  intros (Hwf & Ho & Hu) Hn Hle Hd.
  assert (moved (mw_res s) (uncharge (mw_res s) XTC_RES_CHAN_SLOTS n) XTC_RES_CHAN_SLOTS (- n)) as Hm.
  { apply uncharge_spec; [done|done|done|]. intros Hr. rewrite Hu by done. lia. }
  pose proof Hm as (Hwf' & HN & _). unfold books. simpl. split_and!; [done|lia|]. intros Hr.
  rewrite (moved_use _ _ _ _ Hm), Hu by (done || tauto). lia.
Qed.

(** Units held by queued messages and by threads in the middle of a call. *)
Definition outstanding (s : mp_world) (pool : gmap nat mp_pc) : Z :=
  mp_head (mw_chan s) - mp_tail (mw_chan s) + pool_sum holds pool.

Lemma inv_books s pool : mp_inv s pool -> books s (outstanding s pool).
Proof.
  intros Hi. destruct (mi_acct _ _ Hi). split_and!; [done|done|].
  intros Hr. rewrite (mi_units _ _ Hi Hr). unfold outstanding. lia.
Qed.

Lemma books_eq s out out' : books s out -> out = out' -> books s out'.
Proof. by intros ? <-. Qed.

Lemma books_same s s' out :
  books s out -> mw_res s' = mw_res s -> mw_others s' = mw_others s -> books s' out.
Proof. unfold books. by intros ? -> ->. Qed.

Lemma mw_wake_if_eq s : mw_wake_if s = s \/ mw_wake_if s = mw_wake s.
Proof. unfold mw_wake_if. case_decide; auto. Qed.

Lemma step_books s pool i p s' p' :
  mp_inv s pool -> pool !! i = Some p -> mp_step i s p s' p' ->
  Z.of_nat (length (mw_sent s')) < 2 ^ 63 -> books s' (outstanding s' (<[i := p']> pool)).
Proof.
  intros Hinv Hi Hst Hb. pose proof (inv_books _ _ Hinv) as HB.
  pose proof (mi_mem _ _ Hinv) as Hm. pose proof (mi_pcs _ _ Hinv _ _ Hi) as Hp. simpl in Hp.
  unfold outstanding. rewrite (pool_sum_insert holds pool i p p' Hi).
  pose proof (pool_sum_ge holds pool i p holds_nonneg Hi) as Hge.
  assert (mp_tail (mw_chan s) <= mp_head (mw_chan s)) as Hord.
  { rewrite (mm_head _ Hm), (mm_tail _ Hm). pose proof (mm_order _ Hm). lia. }
  unfold outstanding in HB. pose proof HB as (_ & Hoth & _).
  destruct Hst; simpl in Hge;
    try (eapply books_eq; [exact HB|simpl; lia]);
    try (eapply books_eq; [eapply books_same; [exact HB|done..]|simpl; lia]).
  - (* charged *)
    pose proof (books_charge s 1 _ _ _ 0 HB ltac:(by vm_compute) ltac:(lia) H) as HB'.
    rewrite Z.add_0_r in HB'. eapply books_eq; [exact HB'|simpl; lia].
  - (* refused *)
    pose proof (books_charge s 1 _ _ _ 0 HB ltac:(by vm_compute) ltac:(lia) H) as HB'.
    rewrite Z.add_0_r, decide_False in HB' by done. eapply books_eq; [exact HB'|simpl; lia].
  - (* reserve *)
    eapply books_eq; [eapply books_same; [exact HB|done..]|]. simpl in *.
    rewrite length_app in Hb. simpl in Hb. rewrite (mm_head _ Hm) in *.
    rewrite uwrap_small; lia.
  - destruct (mw_wake_if_eq s) as [-> | ->]; (eapply books_eq; [eapply books_same; [exact HB|done..]|simpl; lia]).
  - (* give back *)
    pose proof (books_uncharge s 1 _ 0 HB ltac:(lia) ltac:(lia) ltac:(lia)) as HB'.
    rewrite Z.sub_0_r in HB'. eapply books_eq; [exact HB'|simpl; lia].
  - (* advance *)
    eapply books_eq; [eapply books_same; [exact HB|done..]|]. simpl in *.
    destruct Hp as (_ & -> & Hs & _). apply lookup_lt_Some in Hs. rewrite (mm_tail _ Hm).
    rewrite uwrap_small; lia.
  - (* release *)
    pose proof (books_uncharge s 1 _ 0 HB ltac:(lia) ltac:(lia) ltac:(lia)) as HB'.
    rewrite Z.sub_0_r in HB'. eapply books_eq; [exact HB'|simpl; lia].
  - case_decide; (eapply books_eq; [eapply books_same; [exact HB|done..]|simpl; lia]).
  - destruct (mw_wake_if_eq s) as [-> | ->]; (eapply books_eq; [eapply books_same; [exact HB|done..]|simpl; lia]).
  - (* another user charges *)
    pose proof (books_charge s n _ _ _ n HB H ltac:(lia) H0) as HB'.
    eapply books_eq; [exact HB'|simpl; lia].
  - (* another user releases *)
    pose proof (books_uncharge s n _ n HB ltac:(lia)) as HB'.
    pose proof (pool_sum_nonneg holds pool holds_nonneg).
    eapply books_eq; [apply HB'; lia|simpl; lia].
Qed.

Lemma step_wakes s pool i p s' p' :
  mp_inv s pool -> pool !! i = Some p -> mp_step i s p s' p' ->
  mp_has_waker (mw_chan s') <> 0 ->
  forall n, (length (mw_rcvd s') <= n)%nat -> mw_pub s' !! n = Some true ->
  mw_woken s' !! n = Some true \/ pool_some (looks n) (<[i := p']> pool).
Proof.
  intros Hinv Hi Hst Hw n Hn Hpub. pose proof (mi_mem _ _ Hinv) as Hm.
  pose proof (mi_pcs _ _ Hinv _ _ Hi) as Hp. simpl in Hp.
  assert (mp_has_waker (mw_chan s) <> 0 -> (length (mw_rcvd s) <= n)%nat ->
          mw_pub s !! n = Some true -> ~ looks n p ->
          mw_woken s !! n = Some true \/ pool_some (looks n) (<[i := p']> pool)) as Hkeep.
  { intros H1 H2 H3 H4. destruct (mi_wakes _ _ Hinv H1 n H2 H3) as [?|Hs]; [by left|].
    right. by eapply pool_some_keep. }
  destruct Hst; simpl in *; try (by apply Hkeep; auto).
  - (* reserve *)
    apply lookup_app_Some in Hpub as [Hpub|[_ Hpub]]; [by apply Hkeep; auto|].
    apply list_lookup_singleton_Some in Hpub as [_ ?]. done.
  - (* publish *)
    destruct Hp as (k & -> & _ & Hk). rewrite Nat2Z.id in Hpub.
    destruct (decide (k = n)) as [->|Hne]; [right; by apply pool_some_now|].
    rewrite list_lookup_insert_ne in Hpub by done. by apply Hkeep; auto.
  - (* the sender looks *)
    unfold mw_wake_if in *. case_decide; [by destruct Hw|]. by left.
  - (* advance *)
    rewrite length_app in Hn. simpl in Hn. apply Hkeep; auto. lia.
  - (* the flag is set *)
    right. by apply pool_some_now.
  - (* the registration loads [head] *)
    right. apply pool_some_now. simpl. rewrite (mm_head _ Hm), <- (mm_pub _ Hm).
    apply lookup_lt_Some in Hpub. lia.
  - (* the registration compares *)
    case_decide as Hd; [by left|]. rewrite (mm_tail _ Hm) in Hd.
    apply Hkeep; auto. simpl. lia.
  - unfold mw_wake_if in *. case_decide; [by destruct Hw|]. by left.
Qed.

Lemma sent_grows i s p s' p' : mp_step i s p s' p' -> (length (mw_sent s) <= length (mw_sent s'))%nat.
Proof.
  destruct 1; simpl; try lia.
  - rewrite length_app. lia.
  - destruct (mw_wake_if_eq s) as [-> | ->]; simpl; lia.
  - case_decide; simpl; lia.
  - destruct (mw_wake_if_eq s) as [-> | ->]; simpl; lia.
Qed.

Lemma mp_step_inv s pool i p s' p' :
  mp_inv s pool -> pool !! i = Some p -> mp_step i s p s' p' ->
  Z.of_nat (length (mw_sent s')) < 2 ^ 63 -> mp_inv s' (<[i := p']> pool).
Proof.
  intros Hinv Hi Hst Hb. pose proof (step_books _ _ _ _ _ _ Hinv Hi Hst Hb) as (B1 & B2 & B3).
  constructor.
  - exact (step_mem _ _ _ _ _ _ Hinv Hi Hst Hb).
  - eapply map_Forall_pool_update; [apply (mi_pcs _ _ Hinv)| |exact (step_pc _ _ _ _ _ _ Hinv Hi Hst Hb)].
    intros j q Hne Hj _. exact (step_others _ _ _ _ _ _ _ _ Hinv Hi Hst Hne Hj).
  - exact (step_cleared _ _ _ _ _ _ Hinv Hi Hst).
  - exact (step_distinct _ _ _ _ _ _ Hinv Hi Hst).
  - exact (step_unpub _ _ _ _ _ _ Hinv Hi Hst).
  - done.
  - intros Hr. rewrite (B3 Hr). unfold outstanding. lia.
  - exact (step_wakes _ _ _ _ _ _ Hinv Hi Hst).
Qed.

(** Every configuration reached from a new channel with fewer than 2^63
    messages sent satisfies the invariant. *)
Lemma mp_reach_inv c r n s pool :
  mp_inv (mpw0 c r) (idle_pool MIdle n) ->
  reachable mp_step (mpw0 c r, idle_pool MIdle n) (s, pool) ->
  Z.of_nat (length (mw_sent s)) < 2 ^ 63 -> mp_inv s pool.
Proof.
  intros H0 Hr Hb.
  pose proof (pool_invariant mp_step
    (fun s pool => Z.of_nat (length (mw_sent s)) < 2 ^ 63 -> mp_inv s pool)) as HI.
  apply (HI (mpw0 c r, idle_pool MIdle n) (s, pool)); auto.
  intros s1 pool1 i p s2 p2 IH Hi Hst Hb2. pose proof (sent_grows _ _ _ _ _ Hst).
  eapply mp_step_inv; eauto. apply IH. lia.
Qed.

(** ** Creation *)

Lemma round_up_pow2 fuel k capacity :
  (k <= 63)%nat -> 1 <= capacity <= 2 ^ 63 -> (63 <= k + fuel)%nat -> 2 ^ Z.of_nat k < 2 * capacity ->
  exists e : nat, (e <= 63)%nat /\ round_up fuel (2 ^ Z.of_nat k) capacity = 2 ^ Z.of_nat e /\
    capacity <= 2 ^ Z.of_nat e < 2 * capacity.
Proof.
  revert k. induction fuel as [|fuel IH]; intros k Hk Hc Hf Hlt; simpl.
  { replace k with 63%nat in * by lia. exists 63%nat. split_and!; try done; lia. }
  case_decide as D; [|exists k; split_and!; try done; lia].
  assert (k < 63)%nat as Hk'.
  { destruct (decide (k = 63%nat)) as [->|]; [|lia]. simpl in D. lia. }
  rewrite Z.shiftl_mul_pow2 by lia. rewrite <- Z.pow_add_r by lia.
  replace (Z.of_nat k + 1) with (Z.of_nat (S k)) by lia.
  rewrite uwrap_small.
  - apply IH; try lia. rewrite Nat2Z.inj_succ, Z.pow_succ_r by lia. lia.
  - split; [lia|]. apply Z.pow_lt_mono_r; lia.
Qed.

Lemma mp_create_aux r capacity out a1 a2 code c r' :
  acct_wf r -> 0 <= capacity <= SIZE_MAX ->
  xtc_chan_mpsc_create r capacity out a1 a2 = (code, c, r') ->
  (code = XTC_OK /\ exists q, c = Some q /\ moved r r' XTC_RES_CHANNELS 1 /\
     (exists e : nat, mp_cap q = (2 ^ e)%nat /\ (e <= 63)%nat) /\
     capacity <= Z.of_nat (mp_cap q) < 2 * capacity /\
     forall n, mp_inv (mpw0 q r') (idle_pool MIdle n)) \/
  (code <> XTC_OK /\ c = None /\ moved r r' XTC_RES_CHANNELS 0).
Proof.
  intros Hwf Hc. unfold xtc_chan_mpsc_create. case_decide as Hi.
  { intros [= <- <- <-]. right. split_and!; [done|done|by apply moved_refl]. }
  case_decide as Hrg.
  { intros [= <- <- <-]. right. split_and!; [done|done|by apply moved_refl]. }
  assert (capacity <> 0) by tauto.
  destruct (round_up_pow2 64 0 capacity) as (e & He & Er & Hcap);
    [lia|change (SIZE_MAX / 2 + 1) with (2 ^ 63) in Hrg; lia|lia|simpl; lia|].
  change (2 ^ Z.of_nat 0) with 1 in Er. rewrite Er.
  destruct (charge r XTC_RES_CHANNELS 1) as [ec r1] eqn:Ec.
  destruct (charge_spec r XTC_RES_CHANNELS 1 ec r1 Hwf ltac:(done) ltac:(by vm_compute) Ec)
    as [[-> Hm]|(-> & Hn & Hm)]; [|intros [= <- <- <-]; right; by split_and!].
  assert (moved r (uncharge r1 XTC_RES_CHANNELS 1) XTC_RES_CHANNELS 0) as Hback
    by (by apply uncharge_after).
  case_decide as H1; [intros [= <- <- <-]; right; by split_and!|].
  case_decide as H2; [intros [= <- <- <-]; right; by split_and!|].
  intros [= <- <- <-]. left. split; [done|].
  assert (Z.to_nat (2 ^ Z.of_nat e) = (2 ^ e)%nat) as En.
  { change 2 with (Z.of_nat 2) at 1. rewrite <- Nat2Z.inj_pow. apply Nat2Z.id. }
  eexists. split; [done|]. split; [done|]. split; [exists e; by rewrite En|]. simpl.
  split; [rewrite Z2Nat.id by (apply Z.pow_nonneg; lia); lia|]. intros n.
  assert (0 < 2 ^ e)%nat by (pose proof (Nat.pow_nonzero 2 e); lia).
  destruct Hm as (Hwf1 & _ & _).
  constructor; simpl; try done.
  - constructor; simpl; try done; try lia.
    + exists e. by rewrite En.
    + by rewrite length_replicate.
    + apply not_elem_of_nil.
    + intros k Hk. rewrite En in *. transitivity NULL.
      * apply lookup_total_replicate_2. apply Nat.mod_upper_bound. lia.
      * unfold cell. case_decide as D; [by destruct D as [D _]|done].
  - by apply idle_pool_Forall.
  - intros i j m m' h Hij. exfalso. pose proof (idle_pool_Forall MIdle n (fun _ p => p = MIdle)) as Hid.
    specialize (Hid ltac:(done) _ _ Hij). done.
  - split; [done|]. by apply in_use_nonneg.
  - intros Hr. rewrite pool_sum_zero; [simpl; lia|]. by apply idle_pool_Forall.
Qed.

(** [xtc_chan_mpsc_create] rounds the capacity up to the next power of
    two (at most 2^63, refusing larger ones), hands out an empty channel
    charged as one channel, or fails with the accountant's uses unchanged. *)
Theorem mpsc_create_spec r capacity out a1 a2 code c r' :
  acct_wf r -> 0 <= capacity <= SIZE_MAX ->
  xtc_chan_mpsc_create r capacity out a1 a2 = (code, c, r') ->
  (code = XTC_OK /\ exists q, c = Some q /\ moved r r' XTC_RES_CHANNELS 1 /\
     (exists e : nat, mp_cap q = (2 ^ e)%nat /\ (e <= 63)%nat) /\
     capacity <= Z.of_nat (mp_cap q) < 2 * capacity /\
     forall n, mp_inv (mpw0 q r') (idle_pool MIdle n)) \/
  (code <> XTC_OK /\ c = None /\ moved r r' XTC_RES_CHANNELS 0).
Proof. apply mp_create_aux. Qed.

(** ** What holds in every execution *)

(** No thread is inside a call. *)
Definition outside (p : mp_pc) : bool := match p with MIdle | MRet _ _ => true | _ => false end.
Definition quiet (pool : gmap nat mp_pc) : Prop := map_Forall (fun _ p => outside p = true) pool.

Lemma quiet_holds pool : quiet pool -> pool_sum holds pool = 0.
Proof. intros Hq. apply pool_sum_zero. intros i p Hi. specialize (Hq i p Hi). by destruct p. Qed.

Section Executions.
Context (r : option xtc_res) (capacity : Z) (a1 a2 : rc) (c : xtc_chan_mpsc)
        (r0 : option xtc_res) (n : nat) (s : mp_world) (pool : gmap nat mp_pc).
Context (Hwf : acct_wf r) (Hcap : 0 <= capacity <= SIZE_MAX).
Context (Hnew : xtc_chan_mpsc_create r capacity true a1 a2 = (XTC_OK, Some c, r0)).
Context (Hrun : reachable mp_step (mpw0 c r0, idle_pool MIdle n) (s, pool)).
Context (Hbound : Z.of_nat (length (mw_sent s)) < 2 ^ 63).

Lemma exec_inv : mp_inv s pool.
Proof.
  destruct (mp_create_aux _ _ _ _ _ _ _ _ Hwf Hcap Hnew) as [(_ & q & [= <-] & _ & _ & _ & Hi)|[? _]];
    [|done].
  by apply (mp_reach_inv _ _ _ _ _ (Hi n)).
Qed.

(** C3: the mpsc channel is a FIFO under every interleaving of senders and
    the consumer.  The messages taken are a prefix of the messages in the
    order their cells were reserved (none lost, repeated, reordered or
    NULL), and the reserved ones not yet taken never exceed the capacity,
    which [xtc_chan_mpsc_len] reports. *)
Theorem mpsc_fifo :
  mw_rcvd s `prefix_of` mw_sent s /\ (NULL ∉ mw_sent s) /\
  (length (mw_sent s) - length (mw_rcvd s) <= mp_cap (mw_chan s))%nat /\
  xtc_chan_mpsc_len (Some (mw_chan s)) = Z.of_nat (length (mw_sent s) - length (mw_rcvd s)).
Proof using All.
  destruct (mi_mem _ _ exec_inv) as [_ _ Hh Ht _ Ho Hf Hn _ _].
  split_and!; [done|done|lia|]. simpl. rewrite Hh, Ht, uwrap_small; lia.
Qed.

(** When no call is in progress, a receive takes the oldest message that
    is left, and reports an empty channel (or a closed one) exactly when
    every message sent has been taken: nothing is ever stuck in the ring. *)
Theorem mpsc_quiet_recv :
  quiet pool ->
  match mw_sent s !! length (mw_rcvd s) with
  | Some m => exists c' r', xtc_chan_mpsc_try_recv (Some (mw_chan s)) true (mw_res s) =
                              (XTC_OK, Some m, Some c', r')
  | None => mw_rcvd s = mw_sent s /\
      xtc_chan_mpsc_try_recv (Some (mw_chan s)) true (mw_res s) =
        (if decide (mp_closed (mw_chan s) <> 0) then XTC_E_INVAL else XTC_E_AGAIN, None,
         Some (mw_chan s), mw_res s)
  end.
Proof using All.
  intros Hq. pose proof exec_inv as Hinv. pose proof (mi_mem _ _ Hinv) as Hm.
  pose proof Hm as [[e [He _]] _ Hh Ht Hp Ho Hf Hn _ Hcl]. unfold xtc_chan_mpsc_try_recv.
  rewrite Hh, Ht. destruct (mw_sent s !! length (mw_rcvd s)) as [m|] eqn:Em.
  - assert (length (mw_rcvd s) < length (mw_sent s))%nat by (by eapply lookup_lt_Some).
    rewrite decide_False by lia. pose proof (mp_cap_pos _ Hm).
    rewrite (slot_of_nat _ _ e He), Hcl by lia.
    assert (mw_cleared s = false) as Hc.
    { destruct (mw_cleared s) eqn:Ec; [|done].
      destruct (mi_cleared _ _ Hinv Ec) as (t & v & Hz). by specialize (Hq _ _ Hz). }
    assert (mw_pub s !! length (mw_rcvd s) = Some true) as Hpub.
    { destruct (lookup_lt_is_Some_2 (mw_pub s) (length (mw_rcvd s))) as [[|] E]; [lia|done|].
      exfalso. destruct (mi_unpub _ _ Hinv _ E) as (i & p & Hi & [x ->]).
      by specialize (Hq _ _ Hi). }
    assert (cell s (length (mw_rcvd s)) = m) as ->.
    { unfold cell. rewrite decide_True by (split; [done|]; rewrite Hc; naive_solver).
      by apply list_lookup_total_correct. }
    assert (m <> NULL) by (intros ->; apply Hn; by eapply list_elem_of_lookup_2).
    rewrite decide_False by done. eauto.
  - assert (length (mw_rcvd s) = length (mw_sent s)) as El
      by (apply lookup_ge_None_1 in Em; lia).
    rewrite decide_True by lia. split; [|done].
    destruct Hf as [k E]. rewrite E in El |- *. rewrite length_app in El.
    assert (length k = 0)%nat by lia. destruct k; [by rewrite app_nil_r|done].
Qed.

(** The accountant's books balance in every execution, whatever its
    other users do: the slots in use are those of the other users, one per
    message in the channel and one per call in progress that holds one.  So
    destroying a quiet channel returns exactly the other users' slots. *)
Theorem mpsc_accounting :
  mw_res s <> None ->
  in_use (mw_res s) XTC_RES_CHAN_SLOTS =
    mw_others s + Z.of_nat (length (mw_sent s) - length (mw_rcvd s)) + pool_sum holds pool /\
  (quiet pool -> 1 <= in_use (mw_res s) XTC_RES_CHANNELS ->
     in_use (xtc_chan_mpsc_destroy (Some (mw_chan s)) (mw_res s)) XTC_RES_CHAN_SLOTS = mw_others s).
Proof using All.
  intros Hr. pose proof exec_inv as Hinv. pose proof (mi_mem _ _ Hinv) as Hm.
  pose proof (mi_units _ _ Hinv Hr) as Hu. destruct (mi_acct _ _ Hinv) as [Hwr Hoth].
  rewrite (mm_head _ Hm), (mm_tail _ Hm) in Hu. pose proof (mm_order _ Hm).
  split; [rewrite Hu; lia|]. intros Hq Hch. rewrite (quiet_holds _ Hq) in Hu.
  unfold xtc_chan_mpsc_destroy. simpl xtc_chan_mpsc_len.
  rewrite (mm_head _ Hm), (mm_tail _ Hm), uwrap_small, swrap_small by lia.
  set (k := Z.of_nat (length (mw_sent s)) - Z.of_nat (length (mw_rcvd s))) in *.
  destruct (uncharge_spec (mw_res s) XTC_RES_CHAN_SLOTS k Hwr ltac:(done) ltac:(lia)
              ltac:(intros; lia)) as (W1 & N1 & U1).
  destruct (uncharge_spec (uncharge (mw_res s) XTC_RES_CHAN_SLOTS k) XTC_RES_CHANNELS 1 W1)
    as (_ & _ & U2); [done|lia|intros _; rewrite U1 by done; simpl; lia|].
  rewrite U2, U1 by (done || tauto). simpl. lia.
Qed.

(** No wake-up is lost.  Once a waker is registered and no call is in
    progress, every published message the consumer has not taken was
    covered by a wake issued after its publication. *)
Theorem mpsc_no_lost_wakeup :
  quiet pool -> mp_has_waker (mw_chan s) <> 0 ->
  forall k, (length (mw_rcvd s) <= k < length (mw_sent s))%nat ->
    mw_pub s !! k = Some true /\ mw_woken s !! k = Some true.
Proof using All.
  intros Hq Hw k Hk. pose proof exec_inv as Hinv. pose proof (mm_pub _ (mi_mem _ _ Hinv)) as Hp.
  assert (mw_pub s !! k = Some true) as Hpub.
  { destruct (lookup_lt_is_Some_2 (mw_pub s) k) as [[|] E]; [lia|done|].
    exfalso. destruct (mi_unpub _ _ Hinv _ E) as (i & p & Hi & [x ->]). by specialize (Hq _ _ Hi). }
  split; [done|].
  destruct (mi_wakes _ _ Hinv Hw k ltac:(lia) Hpub) as [?|(i & p & Hi & Hl)]; [done|].
  specialize (Hq _ _ Hi). by destruct p.
Qed.

End Executions.

(** ** The functions are the uninterrupted runs of the steps *)

Lemma send_is_a_run s i m spurious code c' r' ws :
  xtc_chan_mpsc_try_send (Some (mw_chan s)) m spurious (mw_res s) = (code, Some c', r', ws) ->
  exists s', reachable mp_step (s, {[i := MIdle]}) (s', {[i := MRet code None]}) /\
    mw_chan s' = c' /\ mw_res s' = r'.
Proof.
  unfold xtc_chan_mpsc_try_send. case_decide as Hc.
  { intros [= <- <- <- <-]. exists s. split; [|done]. apply solo_last, (ms_send_inval _ _ m). auto. }
  case_decide as Hm.
  { intros [= <- <- <- <-]. exists s. split; [|done]. apply solo_last, (ms_send_inval _ _ m). auto. }
  destruct (charge (mw_res s) XTC_RES_CHAN_SLOTS 1) as [e r1] eqn:Ec.
  destruct (decide (e = XTC_OK)) as [->|He].
  2: { intros E. assert ((code, Some c', r', ws) = (e, Some (mw_chan s), r1, [])) as E'
         by (rewrite <- E; by destruct e).
       clear E. simplify_eq. eexists. split.
       - eapply solo_step; [apply (ms_send _ _ m); [lia|done]|].
         apply solo_last. by apply ms_refused.
       - done. }
  case_decide as Hf.
  - intros [= <- <- <- <-]. eexists. split.
    + eapply solo_step; [apply (ms_send _ _ m); [lia|done]|].
      eapply solo_step; [by apply ms_charged|]. eapply solo_step; [apply ms_head|].
      eapply solo_step; [by eapply (ms_full _ _ _ _ spurious)|]. apply solo_last, ms_give_back.
    + done.
  - intros [= <- <- <- <-]. eexists. split.
    + eapply solo_step; [apply (ms_send _ _ m); [lia|done]|].
      eapply solo_step; [by apply ms_charged|]. eapply solo_step; [apply ms_head|].
      eapply solo_step; [apply ms_room; simpl; lia|].
      eapply solo_step; [by apply ms_reserve|]. eapply solo_step; [apply ms_publish|].
      apply solo_last, ms_wake.
    + destruct (mw_wake_if_eq) with (s := mk_mpw
        (with_slot (with_head (mw_chan s) (u64 (mp_head (mw_chan s) + 1))) (mp_head (mw_chan s)) m)
        r1 (mw_sent s ++ [m]) (<[Z.to_nat (mp_head (mw_chan s)) := true]> (mw_pub s ++ [false]))
        (mw_rcvd s) (mw_cleared s) (mw_woken s) (mw_others s)) as [E|E];
      simpl in E |- *; by rewrite E.
Qed.

Lemma recv_is_a_run s code v c' r' :
  xtc_chan_mpsc_try_recv (Some (mw_chan s)) true (mw_res s) = (code, v, Some c', r') ->
  exists s', reachable mp_step (s, {[0%nat := MIdle]}) (s', {[0%nat := MRet code v]}) /\
    mw_chan s' = c' /\ mw_res s' = r'.
Proof.
  unfold xtc_chan_mpsc_try_recv. case_decide as Hh.
  { intros [= <- <- <- <-]. exists s. split; [|done].
    eapply solo_step; [apply ms_recv|]. eapply solo_step; [by apply ms_empty|].
    apply solo_last, ms_drained. }
  case_decide as Hv; intros [= <- <- <- <-].
  - exists s. split; [|done]. eapply solo_step; [apply ms_recv|].
    eapply solo_step; [apply ms_some; lia|]. by apply solo_last, ms_unpublished.
  - eexists. split.
    + eapply solo_step; [apply ms_recv|]. eapply solo_step; [apply ms_some; lia|].
      eapply solo_step; [by apply ms_load|]. eapply solo_step; [apply ms_clear|].
      eapply solo_step; [apply ms_advance|]. apply solo_last, ms_release.
    + done.
Qed.

(** Each function on the channel's record is a run of the atomic steps
    by one thread that nobody interrupts, with the same code, value,
    channel and accountant: on every branch of a send by any thread and of
    a receive by the consumer. *)
Theorem mpsc_calls_are_runs s :
  (forall i m spurious code c' r' ws,
     xtc_chan_mpsc_try_send (Some (mw_chan s)) m spurious (mw_res s) = (code, Some c', r', ws) ->
     exists s', reachable mp_step (s, {[i := MIdle]}) (s', {[i := MRet code None]}) /\
       mw_chan s' = c' /\ mw_res s' = r') /\
  (forall code v c' r',
     xtc_chan_mpsc_try_recv (Some (mw_chan s)) true (mw_res s) = (code, v, Some c', r') ->
     exists s', reachable mp_step (s, {[0%nat := MIdle]}) (s', {[0%nat := MRet code v]}) /\
       mw_chan s' = c' /\ mw_res s' = r').
Proof. split; intros; [by eapply send_is_a_run|by apply recv_is_a_run]. Qed.

(** ** A concrete execution for the witnesses

    The consumer registers a waker; two senders race for cell 0, the loser
    reserves cell 1 and publishes first; the consumer takes the first
    message. *)

Definition mp_start := xtc_chan_mpsc_create (Some res0) 2 true XTC_OK XTC_OK.
Definition mp_first : xtc_chan_mpsc := default (mk_mpsc 0 [] 0 0 0 0 0) mp_start.1.2.

Definition demo_facts (s : mp_world) (pool : gmap nat mp_pc) : Prop :=
  bool_decide (quiet pool) = true /\ mw_sent s = [5; 6] /\ mw_rcvd s = [5] /\
  mp_has_waker (mw_chan s) = 1 /\ in_use (mw_res s) XTC_RES_CHANNELS = 1 /\
  bool_decide (is_Some (mw_res s)) = true.

Lemma mp_demo_run :
  exists s pool,
    reachable mp_step (mpw0 mp_first mp_start.2, idle_pool MIdle 3) (s, pool) /\ demo_facts s pool.
Proof.
  eexists _, _. split.
  { pool_run 0%nat by (apply (ms_waker _ _ 9)). pool_run 0%nat by (apply ms_flag).
    pool_run 0%nat by (apply ms_look_head). pool_run 0%nat by (apply ms_look_tail).
    pool_run 1%nat by (apply (ms_send _ _ 5); [reflexivity|discriminate]).
    pool_run 1%nat by (apply ms_charged; vm_compute; reflexivity).
    pool_run 1%nat by (apply ms_head). pool_run 1%nat by (apply ms_room; vm_compute; reflexivity).
    pool_run 2%nat by (apply (ms_send _ _ 6); [reflexivity|discriminate]).
    pool_run 2%nat by (apply ms_charged; vm_compute; reflexivity).
    pool_run 2%nat by (apply ms_head). pool_run 2%nat by (apply ms_room; vm_compute; reflexivity).
    pool_run 1%nat by (apply ms_reserve; vm_compute; reflexivity).
    pool_run 2%nat by (apply ms_lost).
    pool_run 2%nat by (apply ms_head). pool_run 2%nat by (apply ms_room; vm_compute; reflexivity).
    pool_run 2%nat by (apply ms_reserve; vm_compute; reflexivity).
    pool_run 2%nat by (apply ms_publish). pool_run 2%nat by (apply ms_wake).
    pool_run 1%nat by (apply ms_publish). pool_run 1%nat by (apply ms_wake).
    pool_run 0%nat by (apply ms_ret). pool_run 0%nat by (apply ms_recv).
    pool_run 0%nat by (apply ms_some; vm_compute; reflexivity).
    pool_run 0%nat by (apply (ms_load _ _ _ 5); [vm_compute; reflexivity|discriminate]).
    pool_run 0%nat by (apply ms_clear). pool_run 0%nat by (apply ms_advance).
    pool_run 0%nat by (apply ms_release). apply rtc_refl. }
  unfold demo_facts. split_and!; vm_compute; reflexivity.
Qed.

Lemma mp_start_eq :
  xtc_chan_mpsc_create (Some res0) 2 true XTC_OK XTC_OK = (XTC_OK, Some mp_first, mp_start.2).
Proof. vm_compute. reflexivity. Qed.

Lemma mpsc_create_spec_witness :
  mp_cap mp_first = 2%nat /\
  (forall n, mp_inv (mpw0 mp_first mp_start.2) (idle_pool MIdle n)).
Proof.
  split; [vm_compute; reflexivity|].
  destruct (mpsc_create_spec (Some res0) 2 true XTC_OK XTC_OK XTC_OK (Some mp_first) mp_start.2
              (wf_fresh _) ltac:(vm_compute; split; discriminate) mp_start_eq)
    as [(_ & q & E & _ & _ & _ & H)|[H _]].
  - injection E as <-. exact H.
  - destruct H. reflexivity.
Defined.

Lemma mpsc_fifo_witness :
  exists s pool,
    reachable mp_step (mpw0 mp_first mp_start.2, idle_pool MIdle 3) (s, pool) /\
    mw_sent s = [5; 6] /\ mw_rcvd s = [5] /\ mw_rcvd s `prefix_of` mw_sent s.
Proof.
  destruct mp_demo_run as (s & pool & Hr & _ & Es & Er & _). exists s, pool.
  split; [exact Hr|]. split; [exact Es|]. split; [exact Er|].
  refine (proj1 (mpsc_fifo (Some res0) 2 XTC_OK XTC_OK mp_first mp_start.2 3 s pool
    (wf_fresh _) _ mp_start_eq Hr _)).
  - vm_compute. split; discriminate.
  - rewrite Es. vm_compute. reflexivity.
Defined.

Lemma mpsc_quiet_recv_witness :
  exists s pool c' r',
    reachable mp_step (mpw0 mp_first mp_start.2, idle_pool MIdle 3) (s, pool) /\
    xtc_chan_mpsc_try_recv (Some (mw_chan s)) true (mw_res s) = (XTC_OK, Some 6, Some c', r').
Proof.
  destruct mp_demo_run as (s & pool & Hr & Hq & Es & Er & _).
  pose proof (mpsc_quiet_recv (Some res0) 2 XTC_OK XTC_OK mp_first mp_start.2 3 s pool
    (wf_fresh _) ltac:(vm_compute; split; discriminate) mp_start_eq Hr
    ltac:(rewrite Es; vm_compute; reflexivity) (proj1 (bool_decide_eq_true _) Hq)) as H.
  rewrite Es, Er in H. simpl in H. destruct H as (c' & r' & H). exists s, pool, c', r'.
  split; [exact Hr|exact H].
Defined.

Lemma mpsc_accounting_witness :
  exists s pool,
    reachable mp_step (mpw0 mp_first mp_start.2, idle_pool MIdle 3) (s, pool) /\
    in_use (xtc_chan_mpsc_destroy (Some (mw_chan s)) (mw_res s)) XTC_RES_CHAN_SLOTS = mw_others s.
Proof.
  destruct mp_demo_run as (s & pool & Hr & Hq & Es & Er & _ & Hch & Hres).
  exists s, pool. split; [exact Hr|].
  refine (proj2 (mpsc_accounting (Some res0) 2 XTC_OK XTC_OK mp_first mp_start.2 3 s pool
    (wf_fresh _) _ mp_start_eq Hr _ _) (proj1 (bool_decide_eq_true _) Hq) _).
  - vm_compute. split; discriminate.
  - rewrite Es. vm_compute. reflexivity.
  - apply bool_decide_eq_true in Hres. destruct Hres as [x Hx]. rewrite Hx. discriminate.
  - rewrite Hch. lia.
Defined.

Lemma mpsc_no_lost_wakeup_witness :
  exists s pool,
    reachable mp_step (mpw0 mp_first mp_start.2, idle_pool MIdle 3) (s, pool) /\
    mw_pub s !! 1%nat = Some true /\ mw_woken s !! 1%nat = Some true.
Proof.
  destruct mp_demo_run as (s & pool & Hr & Hq & Es & Er & Hw & _).
  exists s, pool. split; [exact Hr|].
  refine (mpsc_no_lost_wakeup (Some res0) 2 XTC_OK XTC_OK mp_first mp_start.2 3 s pool
    (wf_fresh _) _ mp_start_eq Hr _ (proj1 (bool_decide_eq_true _) Hq) _ 1%nat _).
  - vm_compute. split; discriminate.
  - rewrite Es. vm_compute. reflexivity.
  - rewrite Hw. discriminate.
  - rewrite Es, Er. simpl. lia.
Defined.

Lemma mpsc_calls_are_runs_witness :
  exists s', reachable mp_step (mpw0 mp_first mp_start.2, {[0%nat := MIdle]})
    (s', {[0%nat := MRet XTC_E_AGAIN None]}).
Proof.
  destruct (mpsc_calls_are_runs (mpw0 mp_first mp_start.2)) as [_ H].
  destruct (H XTC_E_AGAIN None mp_first mp_start.2 ltac:(vm_compute; reflexivity)) as (s' & Hr & _).
  exists s'. exact Hr.
Defined.
