(* ===== verification/LockMgr.v ===== *)
(** * The lock manager (src/ptc/lock_mgr.c, src/inc/xtc_lockmgr.h)

    Locks in nine modes on byte-string objects, held by numbered lockers.
    Each hash partition is a chain of objects; an object has a chain of
    granted entries (newest first) and a queue of waiting ones.  Every
    operation runs under the partition's mutex, so an operation is a
    function on the manager; a request that must wait is split at the
    wait: the first half queues the entry, the second runs when its owner
    wakes.  The chains are lists here; unlinking an entry from a chain it
    is not on, which in the code rewires the two chains into each other, is
    the outcome [Corrupted].  The deadlock detector is in Deadlock.v. *)

From S2P Require Import Prelude.

Local Open Scope Z_scope.

(** ** Modes and the conflict matrix *)

Definition XTC_LOCK_NL : Z := 0.
Definition XTC_LOCK_S : Z := 1.
Definition XTC_LOCK_X : Z := 2.
Definition XTC_LOCK_WAIT : Z := 3.
Definition XTC_LOCK_IX : Z := 4.
Definition XTC_LOCK_IS : Z := 5.
Definition XTC_LOCK_IWR : Z := 6.
Definition XTC_LOCK_RU : Z := 7.
Definition XTC_LOCK_WW : Z := 8.
Definition XTC_LOCK_NMODES : Z := 9.

(** A row-major matrix of [mx_n * mx_n] bytes, indexed [held * n + req]. *)
Record matrix := mk_matrix { mx_n : Z; mx_conflicts : list Z }.

Definition XTC_DEFAULT_CONFLICTS_9 : list Z :=
  (*          NL S  X  WT IX IS IW RU WW *)
  (* NL  *) [ 0; 0; 0; 0; 0; 0; 0; 0; 0 ] ++
  (* S   *) [ 0; 0; 1; 0; 1; 0; 1; 0; 1 ] ++
  (* X   *) [ 0; 1; 1; 1; 1; 1; 1; 1; 1 ] ++
  (* WT  *) [ 0; 0; 0; 0; 0; 0; 0; 0; 0 ] ++
  (* IX  *) [ 0; 1; 1; 0; 0; 0; 0; 1; 1 ] ++
  (* IS  *) [ 0; 0; 1; 0; 0; 0; 0; 0; 1 ] ++
  (* IWR *) [ 0; 1; 1; 0; 0; 0; 0; 1; 1 ] ++
  (* RU  *) [ 0; 0; 1; 0; 1; 0; 1; 0; 0 ] ++
  (* WW  *) [ 0; 1; 1; 0; 1; 1; 1; 0; 1 ].

Definition default_matrix : matrix := mk_matrix XTC_LOCK_NMODES XTC_DEFAULT_CONFLICTS_9.

(** [m->conflicts[i * n + j] != 0] *)
Definition mx_at (M : matrix) (i j : Z) : bool :=
  bool_decide (mx_conflicts M !!! Z.to_nat (i * mx_n M + j) <> 0).

Definition __conflicts (M : matrix) (held req : Z) : bool :=
  if decide (mx_n M <= held \/ mx_n M <= req) then true else mx_at M held req.

Definition __dominates (M : matrix) (p q : Z) : bool :=
  if decide (mx_n M <= p \/ mx_n M <= q) then false
  else forallb (fun k => implb (mx_at M q k) (mx_at M p k) && implb (mx_at M k q) (mx_at M k p))
         (seqZ 0 (mx_n M)).

Definition __is_write_mode (mode : Z) : bool :=
  bool_decide (mode = XTC_LOCK_X \/ mode = XTC_LOCK_IX \/ mode = XTC_LOCK_IWR \/
               mode = XTC_LOCK_WW).

(** FNV-1a, never zero. *)
Definition __hash (data : list Z) : Z :=
  let h := foldl (fun h b => u32 (Z.lxor h b * 16777619)) 2166136261 data in
  if decide (h = 0) then 1 else h.

(** ** Data *)

Record lock_entry := mk_entry {
  le_id : positive;              (** its address *)
  le_locker : Z;
  le_mode : Z;
  le_granted : bool;
  le_aborted : bool;
}.

Record lock_obj := mk_obj {
  lo_key : list Z;
  lo_hash : Z;
  lo_granted : list lock_entry;
  lo_waiting : list lock_entry;
}.

Record locker_rec := mk_locker {
  lr_id : Z;
  lr_ctime : Z;
  lr_timeout : Z;
  lr_deadline : Z;
  lr_n_held : Z;
  lr_n_write_held : Z;
  lr_failed : Z;
}.

(** The manager's counters ([xtc_lockmgr_stat] copies them out). *)
Record lm_stats := mk_stats {
  st_held : Z; st_waiting : Z; st_objects : Z; st_lockers : Z;
  st_acquires : Z; st_releases : Z; st_deadlocks : Z; st_timeouts : Z;
}.

Record xtc_lockmgr := mk_lockmgr {
  lm_matrix : matrix;
  lm_parts : list (list lock_obj);
  lm_lockers : list (list locker_rec);     (** 256 chains, by the id's low byte *)
  lm_next_locker : Z;
  lm_stats_of : lm_stats;
}.

Definition set_parts (m : xtc_lockmgr) (ps : list (list lock_obj)) : xtc_lockmgr :=
  mk_lockmgr (lm_matrix m) ps (lm_lockers m) (lm_next_locker m) (lm_stats_of m).
Definition set_lockers (m : xtc_lockmgr) (ls : list (list locker_rec)) : xtc_lockmgr :=
  mk_lockmgr (lm_matrix m) (lm_parts m) ls (lm_next_locker m) (lm_stats_of m).
Definition set_stats (m : xtc_lockmgr) (st : lm_stats) : xtc_lockmgr :=
  mk_lockmgr (lm_matrix m) (lm_parts m) (lm_lockers m) (lm_next_locker m) st.

(** Atomic additions to the counters (ints and uint64_t). *)
Definition stat_add (m : xtc_lockmgr) (held waiting objects lockers acquires releases deadlocks
    timeouts : Z) : xtc_lockmgr :=
  let st := lm_stats_of m in
  set_stats m (mk_stats (i32 (st_held st + held)) (i32 (st_waiting st + waiting))
    (i32 (st_objects st + objects)) (i32 (st_lockers st + lockers))
    (u64 (st_acquires st + acquires)) (u64 (st_releases st + releases))
    (u64 (st_deadlocks st + deadlocks)) (u64 (st_timeouts st + timeouts))).

(** ** Lockers *)

Definition bucket (id : Z) : nat := Z.to_nat (Z.land id 255).

Definition __locker_find (m : xtc_lockmgr) (id : Z) : option locker_rec :=
  head (filter (fun r => lr_id r = id) (lm_lockers m !!! bucket id)).

(** Update the first record of [id] in its chain. *)
Fixpoint chain_update (f : locker_rec -> locker_rec) (id : Z) (l : list locker_rec)
  : list locker_rec :=
  match l with
  | [] => []
  | r :: l' => if decide (lr_id r = id) then f r :: l' else r :: chain_update f id l'
  end.

Definition locker_update (m : xtc_lockmgr) (id : Z) (f : locker_rec -> locker_rec) : xtc_lockmgr :=
  set_lockers m (alter (chain_update f id) (bucket id) (lm_lockers m)).

(** [lr->n_held += h, lr->n_write_held += w] if the locker is known. *)
Definition locker_count (m : xtc_lockmgr) (id h w : Z) : xtc_lockmgr :=
  locker_update m id (fun r =>
    mk_locker (lr_id r) (lr_ctime r) (lr_timeout r) (lr_deadline r) (i32 (lr_n_held r + h))
      (i32 (lr_n_write_held r + w)) (lr_failed r)).

Definition b2z (b : bool) : Z := if b then 1 else 0.

(** [alloc] is the allocation's outcome, [now] the clock. *)
Definition xtc_lockmgr_id (m : option xtc_lockmgr) (out : bool) (alloc : rc) (now : Z)
  : rc * option Z * option xtc_lockmgr :=
  match m with
  | None => (XTC_E_INVAL, None, None)
  | Some m =>
      if out then
        match alloc with
        | XTC_OK =>
            let id := u64 (lm_next_locker m + 1) in
            let r := mk_locker id now (-1) (-1) 0 0 0 in
            let m1 := mk_lockmgr (lm_matrix m) (lm_parts m)
                        (alter (cons r) (bucket id) (lm_lockers m)) id (lm_stats_of m) in
            (XTC_OK, Some id, Some (stat_add m1 0 0 0 1 0 0 0 0))
        | e => (e, None, Some m)
        end
      else (XTC_E_INVAL, None, Some m)
  end.

Definition xtc_lockmgr_id_set_timeout (m : option xtc_lockmgr) (id timeout_ns : Z)
  : rc * option xtc_lockmgr :=
  match m with
  | None => (XTC_E_INVAL, None)
  | Some m =>
      match __locker_find m id with
      | None => (XTC_E_INVAL, Some m)
      | Some _ =>
          (XTC_OK, Some (locker_update m id (fun r =>
             mk_locker (lr_id r) (lr_ctime r) timeout_ns
               (if decide (timeout_ns < 0) then -1 else i64 (lr_ctime r + timeout_ns))
               (lr_n_held r) (lr_n_write_held r) (lr_failed r))))
      end
  end.

(** ** Objects *)

Definition obj_is (key : list Z) (hash : Z) (o : lock_obj) : bool :=
  bool_decide (lo_hash o = hash /\ lo_key o = key).

Definition part_index (m : xtc_lockmgr) (hash : Z) : nat :=
  Z.to_nat (hash mod Z.of_nat (length (lm_parts m))).

Definition __obj_lookup (p : list lock_obj) (key : list Z) (hash : Z) : option lock_obj :=
  head (filter (fun o => obj_is key hash o = true) p).

(** Find or create the object; [ok] is the outcome of its two allocations.
    A new one goes to the head of the chain. *)
Definition __obj_get (m : xtc_lockmgr) (key : list Z) (hash : Z) (ok : bool)
  : option lock_obj * xtc_lockmgr :=
  let i := part_index m hash in
  match __obj_lookup (lm_parts m !!! i) key hash with
  | Some o => (Some o, m)
  | None =>
      if ok then
        let o := mk_obj key hash [] [] in
        (Some o, stat_add (set_parts m (alter (cons o) i (lm_parts m))) 0 0 1 0 0 0 0 0)
      else (None, m)
  end.

(** Store [o] back in its chain, or drop it from the chain when both its
    lists are empty and [free] says the code calls [__obj_maybe_free]. *)
Definition put_obj (p : list lock_obj) (o : lock_obj) (gone : bool) : list lock_obj :=
  p ≫= fun o' => if obj_is (lo_key o) (lo_hash o) o'
                 then (if gone then [] else [o]) else [o'].

Definition obj_empty (o : lock_obj) : bool :=
  match lo_granted o, lo_waiting o with [], [] => true | _, _ => false end.

Definition store_obj (m : xtc_lockmgr) (o : lock_obj) : xtc_lockmgr :=
  set_parts m (alter (fun p => put_obj p o false) (part_index m (lo_hash o)) (lm_parts m)).

(** Store [o], then [__obj_maybe_free]. *)
Definition __obj_maybe_free (m : xtc_lockmgr) (o : lock_obj) : xtc_lockmgr :=
  if obj_empty o
  then stat_add (set_parts m (alter (fun p => put_obj p o true) (part_index m (lo_hash o))
                                (lm_parts m))) 0 0 (-1) 0 0 0 0 0
  else store_obj m o.

Definition __has_conflict_granted (M : matrix) (o : lock_obj) (locker mode : Z) : bool :=
  existsb (fun e => negb (bool_decide (le_locker e = locker)) && __conflicts M (le_mode e) mode)
    (lo_granted o).

Definition __has_waiters (o : lock_obj) : bool :=
  match lo_waiting o with [] => false | _ => true end.

Definition __find_granted (o : lock_obj) (locker : Z) : option lock_entry :=
  head (filter (fun e => le_locker e = locker) (lo_granted o)).

(** [prior->mode = mode] on the locker's newest granted entry. *)
Fixpoint set_first_mode (locker mode : Z) (l : list lock_entry) : list lock_entry :=
  match l with
  | [] => []
  | e :: l' =>
      if decide (le_locker e = locker)
      then mk_entry (le_id e) (le_locker e) mode (le_granted e) (le_aborted e) :: l'
      else e :: set_first_mode locker mode l'
  end.

Definition set_granted (o : lock_obj) (l : list lock_entry) : lock_obj :=
  mk_obj (lo_key o) (lo_hash o) l (lo_waiting o).
Definition set_waiting (o : lock_obj) (l : list lock_entry) : lock_obj :=
  mk_obj (lo_key o) (lo_hash o) (lo_granted o) l.

(** ** Acquiring, up to the wait *)

Inductive acquire : Type :=
  | AHeld                               (** the held mode dominates the request *)
  | ARaised (o : lock_obj) (dw : Z)     (** the held entry's mode was raised *)
  | AGranted (o : lock_obj)             (** a new granted entry *)
  | AAgain
  | ANomem
  | AQueued (o : lock_obj).             (** a new waiting entry *)

(** The first half of [__do_acquire_locked]; [alloc] is the entry the slab
    hands out. *)
Definition obj_acquire (M : matrix) (o : lock_obj) (locker mode timeout_ns : Z)
    (alloc : option positive) : acquire :=
  let prior := __find_granted o locker in
  let normal :=
    if negb (__has_conflict_granted M o locker mode) &&
       (bool_decide (is_Some prior) || negb (__has_waiters o))
    then match alloc with
         | None => ANomem
         | Some id => AGranted (set_granted o (mk_entry id locker mode true false :: lo_granted o))
         end
    else if decide (timeout_ns = 0) then AAgain
    else match alloc with
         | None => ANomem
         | Some id =>
             let e := mk_entry id locker mode false false in
             AQueued (set_waiting o (if decide (is_Some prior) then e :: lo_waiting o
                                     else lo_waiting o ++ [e]))
         end in
  match prior with
  | Some e =>
      if __conflicts M (le_mode e) mode then normal
      else if __dominates M (le_mode e) mode then AHeld
      else if __dominates M mode (le_mode e) && negb (__has_conflict_granted M o locker mode)
      then ARaised (set_granted o (set_first_mode locker mode (lo_granted o)))
             (b2z (__is_write_mode mode) - b2z (__is_write_mode (le_mode e)))
      else normal
  | None => normal
  end.

(** A call that returned, or one that is parked on its entry. *)
Inductive outcome : Type :=
  | Returned (c : rc) (m : xtc_lockmgr)
  | Parked (id : positive) (m : xtc_lockmgr).

(** [__do_acquire_locked] up to its wait loop. *)
Definition __do_acquire_locked (m : xtc_lockmgr) (o : lock_obj) (locker mode timeout_ns : Z)
    (alloc : option positive) : outcome :=
  match obj_acquire (lm_matrix m) o locker mode timeout_ns alloc with
  | AHeld => Returned XTC_OK m
  | ARaised o' dw => Returned XTC_OK (store_obj (locker_count m locker 0 dw) o')
  | AGranted o' =>
      Returned XTC_OK
        (locker_count (stat_add (store_obj m o') 1 0 0 0 1 0 0 0) locker 1
           (b2z (__is_write_mode mode)))
  | AAgain => Returned XTC_E_AGAIN m
  | ANomem => Returned XTC_E_NOMEM m
  | AQueued o' =>
      match alloc with
      | Some id => Parked id (stat_add (store_obj m o') 0 1 0 0 0 0 0 0)
      | None => Returned XTC_E_NOMEM m
      end
  end.

(** [xtc_lock_get] up to its wait; [None] is the XTC_E_INVAL of a NULL
    manager. *)
Definition xtc_lock_get (m : option xtc_lockmgr) (locker : Z) (obj : option (list Z))
    (mode timeout_ns : Z) (obj_ok : bool) (alloc : option positive) : option outcome :=
  match m, obj with
  | Some m, Some key =>
      if decide (key = []) then Some (Returned XTC_E_INVAL m)
      else if decide (mode <= XTC_LOCK_NL \/ mx_n (lm_matrix m) <= mode)
      then Some (Returned XTC_E_INVAL m)
      else if decide (mode = XTC_LOCK_WAIT) then Some (Returned XTC_E_INVAL m)
      else
        match __obj_get m key (__hash key) obj_ok with
        | (None, m1) => Some (Returned XTC_E_NOMEM m1)
        | (Some o, m1) => Some (__do_acquire_locked m1 o locker mode timeout_ns alloc)
        end
  | Some m, None => Some (Returned XTC_E_INVAL m)
  | None, _ => None
  end.

(** ** Releasing and promoting *)

Definition grant (w : lock_entry) : lock_entry :=
  mk_entry (le_id w) (le_locker w) (le_mode w) true (le_aborted w).

(** The promotion loop over the waiting queue; [kept] are the waiters passed
    over so far, [skip] the fault injector's coin for each waiter.  The
    granted list, the waiting list and the waiters woken. *)
Fixpoint promote (M : matrix) (skip : positive -> bool) (o : lock_obj)
    (kept todo : list lock_entry) : lock_obj * list positive :=
  match todo with
  | [] => (set_waiting o kept, [])
  | w :: todo' =>
      if __has_conflict_granted M o (le_locker w) (le_mode w)
      then (set_waiting o (kept ++ todo), [])
      else if skip (le_id w) &&
              existsb (fun l => negb (__has_conflict_granted M o (le_locker l) (le_mode l))) todo'
      then promote M skip o (kept ++ [w]) todo'
      else
        let '(o', woken) := promote M skip (set_granted o (grant w :: lo_granted o)) kept todo' in
        (o', le_id w :: woken)
  end.

Definition promote_waiters (M : matrix) (skip : positive -> bool) (o : lock_obj) :=
  promote M skip o [] (lo_waiting o).

Definition remove_id (id : positive) (l : list lock_entry) : list lock_entry :=
  filter (fun e => le_id e <> id) l.

Definition on_list (id : positive) (l : list lock_entry) : bool :=
  bool_decide (id ∈ (le_id <$> l)).

(** [__release_entry_locked]: unlink_entry [e], promote, maybe free the object. *)
Definition __release_entry_locked (m : xtc_lockmgr) (o : lock_obj) (e : lock_entry)
    (skip : positive -> bool) : xtc_lockmgr * list positive :=
  let '(m1, o1) :=
    if le_granted e
    then (locker_count (stat_add m (-1) 0 0 0 0 1 0 0) (le_locker e) (-1)
            (- b2z (__is_write_mode (le_mode e))),
          set_granted o (remove_id (le_id e) (lo_granted o)))
    else (stat_add m 0 (-1) 0 0 0 0 0 0, set_waiting o (remove_id (le_id e) (lo_waiting o))) in
  let '(o2, woken) := promote_waiters (lm_matrix m) skip o1 in
  (__obj_maybe_free m1 o2, woken).

Definition xtc_lock_put (m : option xtc_lockmgr) (locker : Z) (obj : option (list Z))
    (skip : positive -> bool) : rc * option xtc_lockmgr * list positive :=
  match m, obj with
  | Some m, Some key =>
      if decide (key = []) then (XTC_E_INVAL, Some m, [])
      else
        match __obj_lookup (lm_parts m !!! part_index m (__hash key)) key (__hash key) with
        | Some o =>
            match __find_granted o locker with
            | Some e => let '(m', woken) := __release_entry_locked m o e skip in
                        (XTC_OK, Some m', woken)
            | None => (XTC_E_INVAL, Some m, [])
            end
        | None => (XTC_E_INVAL, Some m, [])
        end
  | m, _ => (XTC_E_INVAL, m, [])
  end.

(** ** The wait, when its owner wakes

    The tests of one turn of the wait loop, in order, for a fiber
    ([fiber = true]: [cancel] says a kill is pending under the raised mask)
    and for a thread; [None] parks again. *)
Definition wait_check (fiber cancel timed_out : bool) (e : lock_entry) : option rc :=
  if fiber && cancel then Some XTC_E_ABORTED
  else if le_aborted e then Some XTC_E_DEADLK
  else if le_granted e then Some XTC_OK
  else if timed_out then Some XTC_E_AGAIN
  else None.

(** The second half of [__do_acquire_locked], for the waiter [e] of object
    [o] whose loop ended with [rc].  [None] when [e] must leave the waiting
    queue but is on the granted chain. *)
Definition finish_wait (m : xtc_lockmgr) (o : lock_obj) (e : lock_entry) (rc : rc)
    (skip : positive -> bool) : option (Prelude.rc * xtc_lockmgr * list positive) :=
  let timeouts := if decide (rc = XTC_E_AGAIN) then 1 else 0 in
  let killed_granted := bool_decide (rc = XTC_E_ABORTED /\ le_granted e = true) in
  let rc' := if killed_granted then XTC_OK else rc in
  if decide (rc' <> XTC_OK \/ le_granted e = false) then
    if on_list (le_id e) (lo_waiting o) then
      Some (rc', __obj_maybe_free (stat_add m 0 (-1) 0 0 0 0 0 timeouts)
                   (set_waiting o (remove_id (le_id e) (lo_waiting o))), [])
    else None
  else
    let m1 := locker_count (stat_add m 1 (-1) 0 0 1 0 0 0) (le_locker e) 1
                (b2z (__is_write_mode (le_mode e))) in
    if killed_granted then
      let '(m2, woken) := __release_entry_locked m1 o e skip in
      Some (XTC_E_ABORTED, m2, woken)
    else Some (XTC_OK, m1, []).

(** One resumption of the waiter [id] on object [key]. *)
Inductive resumption : Type :=
  | StillParked
  | Resumed (c : rc) (m : xtc_lockmgr) (woken : list positive)
  | Corrupted.

Definition find_entry (o : lock_obj) (id : positive) : option lock_entry :=
  head (filter (fun e => le_id e = id) (lo_waiting o ++ lo_granted o)).

Definition resume_get (m : xtc_lockmgr) (key : list Z) (id : positive)
    (fiber cancel timed_out : bool) (skip : positive -> bool) : resumption :=
  match __obj_lookup (lm_parts m !!! part_index m (__hash key)) key (__hash key) with
  | None => Corrupted
  | Some o =>
      match find_entry o id with
      | None => Corrupted
      | Some e =>
          match wait_check fiber cancel timed_out e with
          | None => StillParked
          | Some c =>
              match finish_wait m o e c skip with
              | Some (c', m', woken) => Resumed c' m' woken
              | None => Corrupted
              end
          end
      end
  end.

(** ** Releasing everything a locker holds *)

Definition abort_waiters (locker : Z) (o : lock_obj) : lock_obj :=
  set_waiting o
    ((fun e => if decide (le_locker e = locker)
               then mk_entry (le_id e) (le_locker e) (le_mode e) (le_granted e) true else e)
     <$> lo_waiting o).

(** The loop over the granted chain as it was: release the locker's entries
    one after the other.  [None] once the object has been freed. *)
Fixpoint release_each (m : xtc_lockmgr) (key : list Z) (hash : Z) (todo : list lock_entry)
    (locker : Z) (skip : positive -> bool) : xtc_lockmgr * list positive * Z :=
  match todo with
  | [] => (m, [], 0)
  | e :: todo' =>
      if decide (le_locker e = locker) then
        match __obj_lookup (lm_parts m !!! part_index m hash) key hash with
        | Some o =>
            let '(m1, woken1) := __release_entry_locked m o e skip in
            let '(m2, woken2, n) := release_each m1 key hash todo' locker skip in
            (m2, woken1 ++ woken2, 1 + n)
        | None => (m, [], 0)
        end
      else release_each m key hash todo' locker skip
  end.

Definition aborted_ids (locker : Z) (o : lock_obj) : list positive :=
  le_id <$> filter (fun e => le_locker e = locker) (lo_waiting o).

(** One object of the release-all loop: abort, then release. *)
Definition release_obj (m : xtc_lockmgr) (o : lock_obj) (locker : Z) (skip : positive -> bool)
  : xtc_lockmgr * list positive * Z :=
  let m1 := store_obj m (abort_waiters locker o) in
  let '(m2, woken, n) := release_each m1 (lo_key o) (lo_hash o) (lo_granted o) locker skip in
  (m2, aborted_ids locker o ++ woken, n).

Fixpoint release_objs (m : xtc_lockmgr) (os : list lock_obj) (locker : Z)
    (skip : positive -> bool) : xtc_lockmgr * list positive * Z :=
  match os with
  | [] => (m, [], 0)
  | o :: os' =>
      let '(m1, w1, n1) := release_obj m o locker skip in
      let '(m2, w2, n2) := release_objs m1 os' locker skip in
      (m2, w1 ++ w2, n1 + n2)
  end.

(** All partitions in order: the count released. *)
Definition xtc_lock_release_all (m : option xtc_lockmgr) (locker : Z) (skip : positive -> bool)
  : Z * option xtc_lockmgr * list positive :=
  match m with
  | None => (rc_code XTC_E_INVAL, None, [])
  | Some m =>
      let '(m', woken, n) := release_objs m (concat (lm_parts m)) locker skip in
      (n, Some m', woken)
  end.

(** What the deadlock detector does to its victim. *)
Definition kill_victim (m : xtc_lockmgr) (vid : Z) (skip : positive -> bool)
  : xtc_lockmgr * list positive :=
  let '(m', woken, _) := release_objs m (concat (lm_parts m)) vid skip in
  (stat_add m' 0 0 0 0 0 0 1 0, woken).

Definition xtc_lockmgr_failchk (m : option xtc_lockmgr) (locker : Z) (skip : positive -> bool)
  : rc * option xtc_lockmgr * list positive :=
  match m with
  | None => (XTC_E_INVAL, None, [])
  | Some m =>
      match __locker_find m locker with
      | None => (XTC_E_INVAL, Some m, [])
      | Some _ =>
          let m1 := locker_update m locker (fun r =>
            mk_locker (lr_id r) (lr_ctime r) (lr_timeout r) (lr_deadline r) (lr_n_held r)
              (lr_n_write_held r) 1) in
          let '(_, m2, woken) := xtc_lock_release_all (Some m1) locker skip in
          (XTC_OK, m2, woken)
      end
  end.

(** Drop the first record of [id] from its chain. *)
Fixpoint chain_remove (id : Z) (l : list locker_rec) : list locker_rec :=
  match l with
  | [] => []
  | r :: l' => if decide (lr_id r = id) then l' else r :: chain_remove id l'
  end.

Definition xtc_lockmgr_id_free (m : option xtc_lockmgr) (id : Z) (skip : positive -> bool)
  : rc * option xtc_lockmgr * list positive :=
  match m with
  | None => (XTC_E_INVAL, None, [])
  | Some m =>
      match xtc_lock_release_all (Some m) id skip with
      | (_, Some m1, woken) =>
          match __locker_find m1 id with
          | Some _ =>
              (XTC_OK,
               Some (stat_add (set_lockers m1 (alter (chain_remove id) (bucket id) (lm_lockers m1)))
                       0 0 0 (-1) 0 0 0 0), woken)
          | None => (XTC_E_INVAL, Some m1, woken)
          end
      | (_, None, woken) => (XTC_E_INVAL, None, woken)
      end
  end.

(** ** Changing the mode of a held lock *)

Definition lookup_held (m : xtc_lockmgr) (key : list Z) (locker : Z)
  : option (lock_obj * lock_entry) :=
  match __obj_lookup (lm_parts m !!! part_index m (__hash key)) key (__hash key) with
  | Some o => match __find_granted o locker with Some e => Some (o, e) | None => None end
  | None => None
  end.

(** The bound an upgrade's wait gets from the locker's deadline. *)
Definition upgrade_bound (m : xtc_lockmgr) (locker now : Z) : Z :=
  match __locker_find m locker with
  | Some lr => if decide (0 <= lr_deadline lr)
               then (if decide (now < lr_deadline lr) then lr_deadline lr - now else 0)
               else -1
  | None => -1
  end.

(** After an acquire that granted the new mode: release the locker's
    next-newest entry, the one that was upgraded. *)
Definition next_entry (o : lock_obj) (locker : Z) : option lock_entry :=
  head (tail (filter (fun e => le_locker e = locker) (lo_granted o))).

Definition drop_upgraded (m : xtc_lockmgr) (key : list Z) (locker : Z) (skip : positive -> bool)
  : xtc_lockmgr * list positive :=
  match __obj_lookup (lm_parts m !!! part_index m (__hash key)) key (__hash key) with
  | Some o =>
      match next_entry o locker with
      | Some e => __release_entry_locked m o e skip
      | None => (m, [])
      end
  | None => (m, [])
  end.

(** [xtc_lock_upgrade] up to its wait; [None] as in [xtc_lock_get]. *)
Definition xtc_lock_upgrade (m : option xtc_lockmgr) (locker : Z) (obj : option (list Z))
    (new_mode now : Z) (alloc : option positive) (skip : positive -> bool) : option outcome :=
  match m, obj with
  | Some m, Some key =>
      if decide (key = []) then Some (Returned XTC_E_INVAL m)
      else if decide (new_mode <= XTC_LOCK_NL \/ mx_n (lm_matrix m) <= new_mode)
      then Some (Returned XTC_E_INVAL m)
      else
        match lookup_held m key locker with
        | None => Some (Returned XTC_E_INVAL m)
        | Some (o, cur) =>
            if decide (new_mode = le_mode cur \/
                       __dominates (lm_matrix m) new_mode (le_mode cur) = false)
            then Some (Returned XTC_E_INVAL m)
            else if __has_conflict_granted (lm_matrix m) o locker new_mode then
              match __do_acquire_locked m o locker new_mode (upgrade_bound m locker now) alloc with
              | Returned XTC_OK m1 =>
                  Some (Returned XTC_OK (drop_upgraded m1 key locker skip).1)
              | r => Some r
              end
            else
              Some (Returned XTC_OK
                (store_obj
                   (locker_count m locker 0
                      (b2z (__is_write_mode new_mode) - b2z (__is_write_mode (le_mode cur))))
                   (set_granted o (set_first_mode locker new_mode (lo_granted o)))))
        end
  | Some m, None => Some (Returned XTC_E_INVAL m)
  | None, _ => None
  end.

Definition resume_upgrade (m : xtc_lockmgr) (key : list Z) (locker : Z) (id : positive)
    (fiber cancel timed_out : bool) (skip : positive -> bool) : resumption :=
  match resume_get m key id fiber cancel timed_out skip with
  | Resumed XTC_OK m1 woken =>
      let '(m2, woken2) := drop_upgraded m1 key locker skip in
      Resumed XTC_OK m2 (woken ++ woken2)
  | r => r
  end.

(** The promotion loop of a downgrade has no fault injection. *)
Definition xtc_lock_downgrade (m : option xtc_lockmgr) (locker : Z) (obj : option (list Z))
    (new_mode : Z) : rc * option xtc_lockmgr * list positive :=
  match m, obj with
  | Some m, Some key =>
      if decide (key = []) then (XTC_E_INVAL, Some m, [])
      else if decide (new_mode < XTC_LOCK_NL \/ mx_n (lm_matrix m) <= new_mode)
      then (XTC_E_INVAL, Some m, [])
      else
        match lookup_held m key locker with
        | None => (XTC_E_INVAL, Some m, [])
        | Some (o, cur) =>
            if __dominates (lm_matrix m) (le_mode cur) new_mode then
              let dw := if __is_write_mode (le_mode cur) && negb (__is_write_mode new_mode)
                        then -1 else 0 in
              let o1 := set_granted o (set_first_mode locker new_mode (lo_granted o)) in
              let '(o2, woken) := promote_waiters (lm_matrix m) (fun _ => false) o1 in
              (XTC_OK, Some (store_obj (locker_count m locker 0 dw) o2), woken)
            else (XTC_E_INVAL, Some m, [])
        end
  | m, _ => (XTC_E_INVAL, m, [])
  end.

(** ** Compound requests *)

(** [OP_OTHER]: any other value of the request's op field. *)
Inductive lock_op : Type := OP_GET | OP_PUT | OP_PUT_ALL | OP_UPGRADE | OP_DOWNGRADE | OP_OTHER.
#[global] Instance lock_op_eq_dec : EqDecision lock_op.
Proof. solve_decision. Defined.

Record xtc_lock_req := mk_req {
  rq_op : lock_op; rq_mode : Z; rq_obj : option (list Z); rq_timeout : Z;
}.

(** Entries the locker holds on [obj] and the newest one's mode. *)
Definition __held_snapshot (m : xtc_lockmgr) (locker : Z) (key : list Z) : Z * Z :=
  match __obj_lookup (lm_parts m !!! part_index m (__hash key)) key (__hash key) with
  | None => (0, XTC_LOCK_NL)
  | Some o =>
      let held := filter (fun e => le_locker e = locker) (lo_granted o) in
      (Z.of_nat (length held), match head held with Some e => le_mode e | None => XTC_LOCK_NL end)
  end.

Definition req_valid (M : matrix) (r : xtc_lock_req) : bool :=
  match rq_op r, rq_obj r with
  | OP_PUT_ALL, _ => true
  | OP_OTHER, _ => false
  | _, None => false
  | OP_GET, Some key =>
      negb (bool_decide (key = [])) &&
      negb (bool_decide (rq_mode r <= XTC_LOCK_NL \/ rq_mode r = XTC_LOCK_WAIT \/
                         mx_n M <= rq_mode r))
  | _, Some key => negb (bool_decide (key = []))
  end.

(** What the vector's operations get from outside: allocations, the clock,
    the fault injector, and how a GET or UPGRADE that has to wait ends. *)
Record vec_env := mk_vec_env {
  ve_obj : bool;
  ve_alloc : list positive;
  ve_now : Z;
  ve_skip : positive -> bool;
  ve_wait : xtc_lockmgr -> positive -> rc * xtc_lockmgr;
}.

Definition settle (env : vec_env) (m : xtc_lockmgr) (o : option outcome) : rc * xtc_lockmgr :=
  match o with
  | Some (Returned c m') => (c, m')
  | Some (Parked id m') => ve_wait env m' id
  | None => (XTC_E_INVAL, m)
  end.

Definition vec_op (env : vec_env) (m : xtc_lockmgr) (locker : Z) (r : xtc_lock_req)
    (alloc : option positive) : rc * xtc_lockmgr :=
  match rq_op r with
  | OP_GET => settle env m (xtc_lock_get (Some m) locker (rq_obj r) (rq_mode r) (rq_timeout r)
                              (ve_obj env) alloc)
  | OP_PUT => let '(c, m', _) := xtc_lock_put (Some m) locker (rq_obj r) (ve_skip env) in
              (c, default m m')
  | OP_PUT_ALL => let '(_, m', _) := xtc_lock_release_all (Some m) locker (ve_skip env) in
                  (XTC_OK, default m m')
  | OP_UPGRADE => settle env m (xtc_lock_upgrade (Some m) locker (rq_obj r) (rq_mode r)
                                  (ve_now env) alloc (ve_skip env))
  | OP_DOWNGRADE => let '(c, m', _) := xtc_lock_downgrade (Some m) locker (rq_obj r) (rq_mode r) in
                    (c, default m m')
  | OP_OTHER => (XTC_E_INVAL, m)
  end.

(** The GETs since the last barrier, newest first, with what they found. *)
Definition undo_log : Type := list (list Z * (Z * Z)).

(** The execution loop: code, manager, undo log, retained prefix, executed. *)
Fixpoint vec_exec (env : vec_env) (m : xtc_lockmgr) (locker : Z) (reqs : list xtc_lock_req)
    (allocs : list positive) (undo : undo_log) (keep executed : nat)
  : rc * xtc_lockmgr * undo_log * nat * nat :=
  match reqs with
  | [] => (XTC_OK, m, undo, keep, executed)
  | r :: reqs' =>
      let before := match rq_obj r with Some key => __held_snapshot m locker key | None => (0, 0) end in
      match vec_op env m locker r (head allocs) with
      | (XTC_OK, m') =>
          if decide (rq_op r = OP_GET)
          then vec_exec env m' locker reqs' (tail allocs) ((default [] (rq_obj r), before) :: undo)
                 keep (S executed)
          else vec_exec env m' locker reqs' (tail allocs) [] (S executed) (S executed)
      | (c, m') => (c, m', undo, keep, executed)
      end
  end.

(** Undo the logged GETs, newest first. *)
Fixpoint vec_rollback (env : vec_env) (m : xtc_lockmgr) (locker : Z) (undo : undo_log)
  : xtc_lockmgr :=
  match undo with
  | [] => m
  | (key, (n_before, mode_before)) :: undo' =>
      let '(n_now, mode_now) := __held_snapshot m locker key in
      let m1 :=
        if decide (n_before < n_now)
        then default m (xtc_lock_put (Some m) locker (Some key) (ve_skip env)).1.2
        else if decide (0 < n_now /\ mode_now <> mode_before)
        then default m (xtc_lock_downgrade (Some m) locker (Some key) mode_before).1.2
        else m in
      vec_rollback env m1 locker undo'
  end.

(** The code, the manager and [*out_executed]. *)
Definition xtc_lock_vec (m : option xtc_lockmgr) (locker : Z) (reqs : option (list xtc_lock_req))
    (calloc : bool) (env : vec_env) : rc * option xtc_lockmgr * option nat :=
  match m, reqs with
  | Some m, Some reqs =>
      if decide (reqs = []) then (XTC_E_INVAL, Some m, None)
      else if forallb (req_valid (lm_matrix m)) reqs then
        if calloc then
          let '(c, m1, undo, keep, executed) :=
            vec_exec env m locker reqs (ve_alloc env) [] 0 0 in
          if decide (c = XTC_OK) then (XTC_OK, Some m1, Some executed)
          else (c, Some (vec_rollback env m1 locker undo), Some keep)
        else (XTC_E_NOMEM, Some m, Some 0%nat)
      else (XTC_E_INVAL, Some m, Some 0%nat)
  | m, _ => (XTC_E_INVAL, m, None)
  end.

(** ** Creation and statistics *)

(** The options the manager's state depends on. *)
Record lm_opts := mk_lm_opts { op_n_partitions : Z; op_conflicts : option (list Z); op_n_modes : Z }.

(** [a1], [a2], [a3]: the allocations of the manager, the slab and the
    partition table. *)
Definition xtc_lockmgr_create (opts : option lm_opts) (out : bool) (a1 a2 a3 : rc)
  : rc * option xtc_lockmgr :=
  if out then
    let o := default (mk_lm_opts 64 None 0) opts in
    if decide (a1 <> XTC_OK) then (a1, None)
    else
      let n_parts := if decide (op_n_partitions o <= 0) then 64 else op_n_partitions o in
      if decide (a2 <> XTC_OK) then (a2, None)
      else
        let M := match op_conflicts o with
                 | Some c => if decide (0 < op_n_modes o) then mk_matrix (op_n_modes o) c
                             else default_matrix
                 | None => default_matrix
                 end in
        if decide (a3 <> XTC_OK) then (a3, None)
        else (XTC_OK, Some (mk_lockmgr M (replicate (Z.to_nat n_parts) []) (replicate 256 []) 0
                              (mk_stats 0 0 0 0 0 0 0 0)))
  else (XTC_E_INVAL, None).

Definition xtc_lockmgr_stat (m : option xtc_lockmgr) (out : bool) : rc * option lm_stats :=
  match m, out with
  | Some m, true => (XTC_OK, Some (lm_stats_of m))
  | _, _ => (XTC_E_INVAL, None)
  end.

Definition xtc_lockmgr_n_held (m : option xtc_lockmgr) : Z :=
  match m with Some m => st_held (lm_stats_of m) | None => 0 end.

Definition xtc_lockmgr_n_waiting (m : option xtc_lockmgr) : Z :=
  match m with Some m => st_waiting (lm_stats_of m) | None => 0 end.

#[global] Arguments xtc_lock_get : simpl never.
#[global] Arguments xtc_lock_put : simpl never.
#[global] Arguments xtc_lock_upgrade : simpl never.
#[global] Arguments xtc_lock_downgrade : simpl never.

(** ** Strength of modes *)

Lemma dominates_spec M p q :
  __dominates M p q = true <->
  p < mx_n M /\ q < mx_n M /\
  forall k, 0 <= k < mx_n M ->
    (mx_at M q k = true -> mx_at M p k = true) /\ (mx_at M k q = true -> mx_at M k p = true).
Proof.
  unfold __dominates. case_decide as D; [split; [done|lia]|].
  rewrite List.forallb_forall. split.
  - intros H. split_and!; [lia|lia|]. intros k Hk.
    specialize (H k). rewrite <- list_elem_of_In, elem_of_seqZ in H. specialize (H ltac:(lia)).
    destruct (mx_at M q k), (mx_at M p k), (mx_at M k q), (mx_at M k p); simpl in H; done.
  - intros (_ & _ & H) k Hk. rewrite <- list_elem_of_In, elem_of_seqZ in Hk.
    specialize (H k ltac:(lia)).
    destruct (mx_at M q k), (mx_at M p k), (mx_at M k q), (mx_at M k p); simpl; tauto.
Qed.

Lemma dominates_refl M p : p < mx_n M -> __dominates M p p = true.
Proof. intros. apply dominates_spec. auto. Qed.

Lemma dominates_trans M p q r :
  __dominates M p q = true -> __dominates M q r = true -> __dominates M p r = true.
Proof.
  rewrite !dominates_spec. intros (? & ? & H1) (? & ? & H2). split_and!; [done|done|].
  intros k Hk. specialize (H1 k Hk). specialize (H2 k Hk). tauto.
Qed.

(** A mode that [p] dominates conflicts with nothing [p] does not. *)
Lemma dominated_compatible M p q k :
  __dominates M p q = true -> 0 <= k -> 0 <= p -> 0 <= q ->
  __conflicts M k p = false -> __conflicts M k q = false.
Proof.
  rewrite dominates_spec. intros (Hp & Hq & H) Hk _ _. unfold __conflicts.
  case_decide as D; [done|]. rewrite decide_False by lia. intros E.
  destruct (mx_at M k q) eqn:Eq; [|done]. destruct (H k ltac:(lia)) as [_ H2]. by rewrite (H2 Eq) in E.
Qed.

(** ** Mutual exclusion *)

(** Two modes that may be held at once by different lockers; the placeholder
    mode WAIT blocks nobody and is left out. *)
Definition compatible (M : matrix) (a b : Z) : Prop :=
  a <> XTC_LOCK_WAIT -> b <> XTC_LOCK_WAIT -> __conflicts M a b = false.

Definition mode_ok (M : matrix) (a : Z) : Prop := 0 <= a < mx_n M.

(** What the manager needs of its matrix: it is symmetric on the modes that
    can block, and what WAIT dominates blocks nobody. *)
Definition blocking_modes (M : matrix) : list Z :=
  filter (fun a => a <> XTC_LOCK_WAIT) (seqZ 0 (mx_n M)).

Definition matrix_ok_b (M : matrix) : bool :=
  forallb (fun a => forallb (fun b =>
    Bool.eqb (mx_at M a b) (mx_at M b a) &&
    implb (__dominates M XTC_LOCK_WAIT a) (negb (mx_at M b a)))
    (blocking_modes M)) (blocking_modes M).

Record matrix_ok (M : matrix) : Prop := mk_matrix_ok {
  mo_sym : forall a b, mode_ok M a -> mode_ok M b -> a <> XTC_LOCK_WAIT -> b <> XTC_LOCK_WAIT ->
    mx_at M a b = mx_at M b a;
  mo_wait : forall a b, mode_ok M a -> mode_ok M b -> a <> XTC_LOCK_WAIT -> b <> XTC_LOCK_WAIT ->
    __dominates M XTC_LOCK_WAIT a = true -> mx_at M b a = false;
}.

Lemma matrix_ok_check M : matrix_ok_b M = true -> matrix_ok M.
Proof.
  unfold matrix_ok_b. rewrite List.forallb_forall. intros H.
  assert (forall a, mode_ok M a -> a <> XTC_LOCK_WAIT -> List.In a (blocking_modes M)) as Hin.
  { intros a Ha Hw. apply list_elem_of_In, list_elem_of_filter. split; [done|].
    apply elem_of_seqZ. unfold mode_ok in Ha. lia. }
  assert (forall a b, mode_ok M a -> mode_ok M b -> a <> XTC_LOCK_WAIT -> b <> XTC_LOCK_WAIT ->
    Bool.eqb (mx_at M a b) (mx_at M b a) &&
    implb (__dominates M XTC_LOCK_WAIT a) (negb (mx_at M b a)) = true) as Hab.
  { intros a b Ha Hb Hwa Hwb. specialize (H a (Hin a Ha Hwa)). rewrite List.forallb_forall in H.
    apply H. auto. }
  constructor; intros a b Ha Hb Hwa Hwb; specialize (Hab a b Ha Hb Hwa Hwb);
    apply andb_true_iff in Hab as [H1 H2].
  - by apply Bool.eqb_prop in H1.
  - intros Hd. rewrite Hd in H2. simpl in H2. by apply negb_true_iff in H2.
Qed.

Lemma default_matrix_ok : matrix_ok default_matrix.
Proof. apply matrix_ok_check. vm_compute. reflexivity. Qed.

(** The addresses of an object's entries. *)
Definition obj_ids (o : lock_obj) : list positive := le_id <$> lo_granted o ++ lo_waiting o.

Record obj_ok (M : matrix) (o : lock_obj) : Prop := mk_obj_ok {
  ok_ids : NoDup (obj_ids o);
  ok_flags : Forall (fun e => le_granted e = true) (lo_granted o) /\
             Forall (fun e => le_granted e = false) (lo_waiting o);
  ok_modes : Forall (fun e => mode_ok M (le_mode e)) (lo_granted o ++ lo_waiting o);
  ok_excl : forall e f, e ∈ lo_granted o -> f ∈ lo_granted o -> le_locker e <> le_locker f ->
    compatible M (le_mode e) (le_mode f);
}.

Lemma no_conflict_spec M o locker mode :
  __has_conflict_granted M o locker mode = false <->
  forall e, e ∈ lo_granted o -> le_locker e <> locker -> __conflicts M (le_mode e) mode = false.
Proof.
  unfold __has_conflict_granted. split.
  - intros H e He Hne. apply not_true_iff_false. intros Hc. apply not_true_iff_false in H.
    apply H. rewrite List.existsb_exists. exists e. rewrite <- list_elem_of_In. split; [done|].
    rewrite Hc, bool_decide_false by done. done.
  - intros H. apply not_true_iff_false. rewrite List.existsb_exists.
    intros (e & He & Hb). rewrite <- list_elem_of_In in He. apply andb_true_iff in Hb as [Hl Hc].
    rewrite (H e He) in Hc; [done|]. intros E. by rewrite bool_decide_true in Hl.
Qed.

Lemma compatible_sym M a b :
  matrix_ok M -> mode_ok M a -> mode_ok M b -> compatible M a b -> compatible M b a.
Proof.
  unfold compatible, __conflicts, mode_ok. intros Hs Ha Hb H Hna Hnb.
  specialize (H Hnb Hna). rewrite decide_False in H by lia. rewrite decide_False by lia. by rewrite (mo_sym _ Hs).
Qed.

(** Adding a granted entry that no other holder conflicts with. *)
Lemma excl_cons M o e :
  matrix_ok M -> obj_ok M o -> mode_ok M (le_mode e) -> le_granted e = true ->
  le_id e ∉ obj_ids o ->
  __has_conflict_granted M o (le_locker e) (le_mode e) = false ->
  obj_ok M (set_granted o (e :: lo_granted o)).
Proof.
  intros Hs [Hid [Hg Hw] Hm Hx] He Hge Hfresh Hnc. rewrite no_conflict_spec in Hnc.
  constructor; simpl; [by constructor|by split; [constructor|]|by constructor|].
  assert (forall f, f ∈ lo_granted o -> le_locker f <> le_locker e ->
            compatible M (le_mode f) (le_mode e)) as Hc by (intros f Hf Hne _ _; auto).
  intros f g [->|Hf]%elem_of_cons [->|Hg']%elem_of_cons Hne; auto; [done|].
  apply compatible_sym; auto. apply Forall_app in Hm as [Hm _]. rewrite Forall_forall in Hm. auto.
Qed.

(** Changing the mode of the locker's newest entry to one the others allow. *)
Lemma set_first_mode_elem locker mode l f :
  f ∈ set_first_mode locker mode l ->
  f ∈ l \/ (le_locker f = locker /\ le_mode f = mode /\ exists e, e ∈ l /\ le_granted f = le_granted e).
Proof.
  induction l as [|e l IH]; simpl; [by left|]. case_decide as D.
  - intros [->|Hf]%elem_of_cons; [|left; by right]. right. simpl. split_and!; [done|done|].
    exists e. split; [left|done].
  - intros [->|Hf]%elem_of_cons; [left; left|]. destruct (IH Hf) as [?|(? & ? & x & ? & ?)].
    + left. by right.
    + right. split_and!; [done|done|]. exists x. split; [by right|done].
Qed.

Lemma set_first_mode_ids locker mode l : le_id <$> set_first_mode locker mode l = le_id <$> l.
Proof.
  induction l as [|e l IH]; [done|]. cbn [set_first_mode]. case_decide; [done|].
  rewrite !fmap_cons. by f_equal.
Qed.

Lemma set_mode_ok M o locker mode :
  matrix_ok M -> obj_ok M o -> mode_ok M mode ->
  (forall e, e ∈ lo_granted o -> le_locker e <> locker -> compatible M (le_mode e) mode) ->
  obj_ok M (set_granted o (set_first_mode locker mode (lo_granted o))).
Proof.
  intros HM [Hid [Hg Hw] Hm Hx] Hmode Hc. apply Forall_app in Hm as [Hm1 Hm2].
  rewrite Forall_forall in Hg, Hm1.
  constructor; simpl.
  - unfold obj_ids in *. simpl. by rewrite fmap_app, set_first_mode_ids, <- fmap_app.
  - split; [|done]. rewrite Forall_forall. intros f [Hf|(_ & _ & e & He & ->)]%set_first_mode_elem; auto.
  - apply Forall_app. split; [|done]. rewrite Forall_forall.
    intros f [Hf|(_ & -> & _)]%set_first_mode_elem; auto.
  - intros e f [He|(He & -> & _)]%set_first_mode_elem [Hf|(Hf & -> & _)]%set_first_mode_elem Hne;
      [auto|rewrite Hf in Hne; auto| |by rewrite He, Hf in Hne].
    rewrite He in Hne. apply compatible_sym; auto.
Qed.

Lemma Forall_filter_elem {A} (P Q : A -> Prop) `{!forall x, Decision (Q x)} (l : list A) :
  Forall P l -> Forall P (filter Q l).
Proof. rewrite !Forall_forall. intros Hl x [_ Hx]%list_elem_of_filter. auto. Qed.

Lemma remove_id_sublist id l : remove_id id l `sublist_of` l.
Proof. apply sublist_filter. Qed.

Lemma remove_granted_ok M o id :
  obj_ok M o -> obj_ok M (set_granted o (remove_id id (lo_granted o))).
Proof.
  intros [Hid [Hg Hw] Hm Hx]. apply Forall_app in Hm as [Hm1 Hm2].
  constructor; simpl.
  - eapply sublist_NoDup; [exact Hid|]. apply fmap_sublist, sublist_app; [|reflexivity].
    apply remove_id_sublist.
  - split; [by apply Forall_filter_elem|done].
  - apply Forall_app. split; [by apply Forall_filter_elem|done].
  - intros e f [_ He]%list_elem_of_filter [_ Hf]%list_elem_of_filter. auto.
Qed.

(** A waiting queue with the same or fewer entries. *)
Definition waiter_ok (M : matrix) (e : lock_entry) : Prop :=
  le_granted e = false /\ mode_ok M (le_mode e).

Lemma set_waiting_ok M o l :
  obj_ok M o -> NoDup (le_id <$> lo_granted o ++ l) -> Forall (waiter_ok M) l ->
  obj_ok M (set_waiting o l).
Proof.
  intros [Hid [Hg Hw] Hm Hx] Hnd Hl. apply Forall_app in Hm as [Hm1 _].
  apply Forall_and in Hl as [Hl1 Hl2].
  constructor; simpl; [done|done|by apply Forall_app|done].
Qed.

Lemma obj_ok_waiting M o : obj_ok M o -> Forall (waiter_ok M) (lo_waiting o).
Proof. intros [Hid [Hg Hw] Hm Hx]. apply Forall_app in Hm as [_ Hm]. by apply Forall_and. Qed.

Lemma remove_waiting_ok M o id :
  obj_ok M o -> obj_ok M (set_waiting o (remove_id id (lo_waiting o))).
Proof.
  intros Ho. apply set_waiting_ok; [done| |by apply Forall_filter_elem, obj_ok_waiting].
  eapply sublist_NoDup; [apply Ho|]. apply fmap_sublist, sublist_app; [reflexivity|].
  apply remove_id_sublist.
Qed.

Lemma promote_ok M skip o kept todo :
  matrix_ok M -> obj_ok M (set_waiting o (kept ++ todo)) ->
  obj_ok M (promote M skip o kept todo).1.
Proof.
  intros HM. revert o kept. induction todo as [|w todo IH]; intros o kept Ho; simpl.
  { by rewrite app_nil_r in Ho. }
  destruct (__has_conflict_granted M o (le_locker w) (le_mode w)) eqn:Hc; [done|].
  case_match.
  - apply IH. by rewrite <- app_assoc.
  - assert (obj_ok M (set_waiting (set_granted o (grant w :: lo_granted o)) (kept ++ todo))) as Ho'.
    { assert (Hids := ok_ids _ _ Ho). unfold obj_ids in Hids. simpl in Hids.
      pose proof (obj_ok_waiting _ _ Ho) as Hl. simpl in Hl. 
      assert (NoDup (le_id w :: (le_id <$> lo_granted o ++ kept ++ todo))) as Hp.
      { change (NoDup (le_id <$> w :: lo_granted o ++ kept ++ todo)). eapply NoDup_Permutation_proper;
          [|exact Hids]. apply Permutation_map. by rewrite !app_assoc, Permutation_middle. }
      apply NoDup_cons in Hp as [Hfresh Hnd].
      rewrite Forall_app, Forall_cons in Hl. destruct Hl as (Hk & Hw & Ht).
      apply (excl_cons M (set_waiting o (kept ++ todo)) (grant w)); try done; [|apply Hw].
      apply (set_waiting_ok M (set_waiting o (kept ++ w :: todo)));
        [done|done|by apply Forall_app]. }
    specialize (IH _ _ Ho').
    by destruct (promote M skip _ kept todo) as [o' woken].
Qed.

Lemma promote_waiters_ok M skip o :
  matrix_ok M -> obj_ok M o -> obj_ok M (promote_waiters M skip o).1.
Proof. intros HM Ho. apply promote_ok; [done|]. simpl. by destruct o. Qed.

Lemma abort_waiters_ok M locker o : obj_ok M o -> obj_ok M (abort_waiters locker o).
Proof.
  intros Ho. apply set_waiting_ok; [done| |].
  - pose proof (ok_ids _ _ Ho) as Hid. unfold obj_ids in Hid. rewrite fmap_app in *.
    rewrite <- list_fmap_compose. rewrite (list_fmap_ext _ le_id (lo_waiting o)); [exact Hid|].
    intros i e _. simpl. by case_decide.
  - apply Forall_fmap. eapply Forall_impl; [by apply obj_ok_waiting|]. intros e. simpl. by case_decide.
Qed.

(** ** The partition table as a map from keys to objects *)

(** The object of [key], if it exists. *)
Definition obj_at (m : xtc_lockmgr) (key : list Z) : option lock_obj :=
  __obj_lookup (lm_parts m !!! part_index m (__hash key)) key (__hash key).

(** Every object sits once, in the partition its key hashes to. *)
Definition chain_ok (n : nat) (i : nat) (p : list lock_obj) : Prop :=
  NoDup (lo_key <$> p) /\
  Forall (fun o => lo_hash o = __hash (lo_key o) /\
                   Z.to_nat (lo_hash o mod Z.of_nat n) = i) p.

Record tab_ok (m : xtc_lockmgr) : Prop := mk_tab_ok {
  tab_parts : lm_parts m <> [];
  tab_chains : forall i p, lm_parts m !! i = Some p -> chain_ok (length (lm_parts m)) i p;
}.

Lemma obj_is_spec key hash o : obj_is key hash o = true <-> lo_hash o = hash /\ lo_key o = key.
Proof. unfold obj_is. by rewrite bool_decide_eq_true. Qed.

Lemma part_index_lt m hash : tab_ok m -> (part_index m hash < length (lm_parts m))%nat.
Proof.
  intros Hm. unfold part_index. assert (lm_parts m <> []) as Hne by apply Hm.
  destruct (lm_parts m) as [|p l]; [done|].
  pose proof (Z.mod_pos_bound hash (Z.of_nat (length (p :: l)))) as Hb. simpl length in *. lia.
Qed.

Lemma part_lookup m hash :
  tab_ok m -> lm_parts m !! part_index m hash = Some (lm_parts m !!! part_index m hash).
Proof. intros Hm. apply list_lookup_lookup_total_lt. by apply part_index_lt. Qed.

Lemma obj_lookup_elem p key hash o :
  __obj_lookup p key hash = Some o -> o ∈ p /\ lo_hash o = hash /\ lo_key o = key.
Proof.
  unfold __obj_lookup. intros H. apply head_Some_elem_of, list_elem_of_filter in H as [H Hp].
  by rewrite obj_is_spec in H.
Qed.

Lemma obj_at_key m key o : obj_at m key = Some o -> lo_key o = key /\ lo_hash o = __hash key.
Proof. unfold obj_at. intros (_ & ? & ?)%obj_lookup_elem. done. Qed.

Lemma obj_lookup_cons x p key hash :
  __obj_lookup (x :: p) key hash =
    if obj_is key hash x then Some x else __obj_lookup p key hash.
Proof.
  unfold __obj_lookup. rewrite filter_cons. case_decide as D; [by rewrite D|].
  apply not_true_iff_false in D. by rewrite D.
Qed.

Lemma put_obj_cons x p o gone :
  put_obj (x :: p) o gone =
    (if obj_is (lo_key o) (lo_hash o) x then (if gone then [] else [o]) else [x]) ++ put_obj p o gone.
Proof. done. Qed.

(** Looking a key up in a chain updated by [put_obj]. *)
Lemma obj_lookup_put p o gone key :
  lo_hash o = __hash (lo_key o) -> is_Some (__obj_lookup p (lo_key o) (lo_hash o)) ->
  __obj_lookup (put_obj p o gone) key (__hash key) =
    if decide (key = lo_key o) then (if gone then None else Some o)
    else __obj_lookup p key (__hash key).
Proof.
  intros Hh. assert (forall x, obj_is (lo_key o) (lo_hash o) x = true -> key <> lo_key o ->
    obj_is key (__hash key) x = false) as Hne.
  { intros x [_ Hk]%obj_is_spec Hn. apply not_true_iff_false. rewrite obj_is_spec. naive_solver. }
  assert (obj_is key (__hash key) o = bool_decide (key = lo_key o)) as Ho.
  { unfold obj_is. apply bool_decide_ext. naive_solver. }
  assert (forall p, __obj_lookup (put_obj p o true) key (__hash key) =
    if decide (key = lo_key o) then None else __obj_lookup p key (__hash key)) as Hgone.
  { clear p. induction p as [|x p IH]; [by case_decide|]. rewrite put_obj_cons.
    destruct (obj_is (lo_key o) (lo_hash o) x) eqn:Hx; simpl; rewrite obj_lookup_cons.
    - rewrite IH. case_decide; [done|]. by rewrite (Hne x).
    - rewrite (obj_lookup_cons x p). rewrite IH. case_decide as D; [|done].
      subst key. rewrite <- Hh, Hx. done. }
  intros Hs. destruct gone; [apply Hgone|].
  induction p as [|x p IH]; [by destruct Hs|]. rewrite put_obj_cons.
  rewrite obj_lookup_cons in Hs.
  destruct (obj_is (lo_key o) (lo_hash o) x) eqn:Hx; simpl; rewrite !obj_lookup_cons.
  - rewrite Ho. case_decide as D; [by rewrite bool_decide_true|].
    rewrite bool_decide_false by done. rewrite (Hne x Hx D).
    clear IH Hs. induction p as [|y p IHp]; [done|]. rewrite put_obj_cons.
    destruct (obj_is (lo_key o) (lo_hash o) y) eqn:Hy; simpl; rewrite !obj_lookup_cons.
    + rewrite Ho, bool_decide_false by done. by rewrite (Hne y Hy D).
    + by rewrite IHp.
  - rewrite IH by done. case_decide as D; [|done]. subst key. by rewrite <- Hh, Hx.
Qed.

Lemma obj_at_alter m f i key :
  tab_ok m ->
  obj_at (set_parts m (alter f i (lm_parts m))) key =
    if decide (part_index m (__hash key) = i)
    then __obj_lookup (f (lm_parts m !!! i)) key (__hash key) else obj_at m key.
Proof.
  intros Hm. unfold obj_at, part_index. simpl. rewrite length_alter.
  fold (part_index m (__hash key)). case_decide as D.
  - subst i. f_equal. apply list_lookup_total_correct. rewrite list_lookup_alter_eq.
    by rewrite part_lookup.
  - f_equal. apply list_lookup_total_correct. rewrite list_lookup_alter_ne by done.
    by apply part_lookup.
Qed.

Lemma tab_ok_alter m f i :
  tab_ok m ->
  (forall p, lm_parts m !! i = Some p -> chain_ok (length (lm_parts m)) i p ->
     chain_ok (length (lm_parts m)) i (f p)) ->
  tab_ok (set_parts m (alter f i (lm_parts m))).
Proof.
  intros [Hne Hc] Hf. constructor; simpl.
  - intros E. apply Hne, nil_length_inv. by rewrite <- (length_alter f _ i), E.
  - rewrite length_alter. intros j p. destruct (decide (j = i)) as [->|Hj].
    + rewrite list_lookup_alter_eq. intros (q & Hq & ->)%fmap_Some. apply Hf; auto.
    + rewrite list_lookup_alter_ne by done. apply Hc.
Qed.

(** Only the partitions and the matrix matter to the table. *)
Lemma tab_ok_same m m' : lm_parts m' = lm_parts m -> tab_ok m -> tab_ok m'.
Proof. intros E [H1 H2]. constructor; rewrite E; done. Qed.

Lemma obj_at_same m m' key : lm_parts m' = lm_parts m -> obj_at m' key = obj_at m key.
Proof. unfold obj_at, part_index. by intros ->. Qed.

Lemma put_obj_keys p o gone :
  Forall (fun x => lo_key x ∈ (lo_key <$> p)) (put_obj p o gone).
Proof.
  induction p as [|x p IH]; [constructor|]. rewrite put_obj_cons. apply Forall_app. split.
  - destruct (obj_is _ _ x) eqn:Hx; [destruct gone|]; [constructor| |]; apply Forall_singleton, elem_of_cons;
      left; [|done]. by apply obj_is_spec in Hx as [_ <-].
  - eapply Forall_impl; [exact IH|]. intros y Hy. apply elem_of_cons. by right.
Qed.

Lemma put_obj_chain n i p o gone :
  lo_hash o = __hash (lo_key o) -> chain_ok n i p -> chain_ok n i (put_obj p o gone).
Proof.
  intros Hh [Hnd Hall]. split.
  - clear Hall. induction p as [|x p IH]; [constructor|]. rewrite put_obj_cons.
    rewrite fmap_cons, NoDup_cons in Hnd. destruct Hnd as [Hx Hnd]. specialize (IH Hnd).
    pose proof (put_obj_keys p o gone) as Hs. rewrite Forall_forall in Hs.
    assert (lo_key x ∉ (lo_key <$> put_obj p o gone)) as Hx'.
    { intros (y & Hy & Hin)%list_elem_of_fmap. apply Hx. rewrite Hy. auto. }
    destruct (obj_is _ _ x) eqn:Hxo; [destruct gone|]; simpl; [done| |].
    + apply obj_is_spec in Hxo as [_ Hk]. constructor; [by rewrite <- Hk|done].
    + by constructor.
  - clear Hnd. induction p as [|x p IH]; [constructor|]. rewrite put_obj_cons.
    apply Forall_cons in Hall as [Hx Hall]. apply Forall_app. split; [|auto].
    destruct (obj_is _ _ x) eqn:Hxo; [destruct gone|]; [constructor| |];
      apply Forall_singleton; [|done]. split; [done|].
    apply obj_is_spec in Hxo as [Hk _]. rewrite <- Hk. apply Hx.
Qed.

(** Storing an object that exists. *)
Lemma put_obj_at m o gone key :
  tab_ok m -> is_Some (obj_at m (lo_key o)) -> lo_hash o = __hash (lo_key o) ->
  obj_at (set_parts m (alter (fun p => put_obj p o gone) (part_index m (lo_hash o)) (lm_parts m))) key =
    if decide (key = lo_key o) then (if gone then None else Some o) else obj_at m key.
Proof.
  intros Hm Hs Hh. rewrite obj_at_alter by done. case_decide as D.
  - rewrite obj_lookup_put; [|done|].
    + case_decide; [done|]. unfold obj_at. by rewrite D.
    + rewrite Hh. exact Hs.
  - case_decide as D2; [|done]. subst key. by rewrite Hh in D.
Qed.

Lemma put_obj_tab m o gone :
  tab_ok m -> lo_hash o = __hash (lo_key o) ->
  tab_ok (set_parts m (alter (fun p => put_obj p o gone) (part_index m (lo_hash o)) (lm_parts m))).
Proof. intros Hm Hh. apply tab_ok_alter; [done|]. intros p _ Hp. by apply put_obj_chain. Qed.

(** ** The manager's invariant *)

Record lm_ok (m : xtc_lockmgr) : Prop := mk_lm_ok {
  ok_tab : tab_ok m;
  ok_objs : forall key o, obj_at m key = Some o -> obj_ok (lm_matrix m) o;
}.

(** [m'] differs from [m] at most in its counters and its lockers. *)
Definition same_table (m m' : xtc_lockmgr) : Prop :=
  lm_parts m' = lm_parts m /\ lm_matrix m' = lm_matrix m.

Lemma lm_ok_same m m' : same_table m m' -> lm_ok m -> lm_ok m'.
Proof.
  intros [E1 E2] [H1 H2]. constructor; [by eapply tab_ok_same|].
  intros key o. rewrite (obj_at_same m) by done. rewrite E2. apply H2.
Qed.

Lemma obj_at_hash m key o : obj_at m key = Some o -> lo_hash o = __hash (lo_key o).
Proof. intros [-> ->]%obj_at_key. done. Qed.

(** [m'] is [m] with the object of [key] replaced by [ob]. *)
Definition updates (m m' : xtc_lockmgr) (key : list Z) (ob : option lock_obj) : Prop :=
  lm_matrix m' = lm_matrix m /\ tab_ok m' /\
  forall k, obj_at m' k = if decide (k = key) then ob else obj_at m k.

Lemma updates_ok m m' key ob :
  lm_ok m -> updates m m' key ob -> (forall o, ob = Some o -> obj_ok (lm_matrix m) o) -> lm_ok m'.
Proof.
  intros [H1 H2] (E & Ht & Hk) Ho. constructor; [done|]. intros k o. rewrite Hk, E.
  case_decide; eauto.
Qed.

Lemma updates_same m m1 m2 key ob :
  updates m m1 key ob -> same_table m1 m2 -> updates m m2 key ob.
Proof.
  intros (E & Ht & Hk) [P Q]. split_and!; [by rewrite Q|by eapply tab_ok_same|].
  intros k. rewrite (obj_at_same m1) by done. apply Hk.
Qed.

Lemma same_updates m m1 m2 key ob :
  same_table m m1 -> updates m1 m2 key ob -> updates m m2 key ob.
Proof.
  intros [P Q] (E & Ht & Hk). split_and!; [by rewrite E, Q|done|].
  intros k. rewrite Hk. by rewrite (obj_at_same m m1).
Qed.

Lemma updates_trans m m1 m2 key o1 o2 :
  updates m m1 key o1 -> updates m1 m2 key o2 -> updates m m2 key o2.
Proof.
  intros (E1 & _ & K1) (E2 & T2 & K2). split_and!; [congruence|done|].
  intros k. rewrite K2, K1. by case_decide.
Qed.

Lemma store_updates m o :
  tab_ok m -> is_Some (obj_at m (lo_key o)) -> lo_hash o = __hash (lo_key o) ->
  updates m (store_obj m o) (lo_key o) (Some o).
Proof.
  intros Hm Hs Hh. split_and!; [done|by apply put_obj_tab|]. intros k. by apply (put_obj_at m o false).
Qed.

(** What is left of an object when [__obj_maybe_free] is done. *)
Definition kept_obj (o : lock_obj) : option lock_obj := if obj_empty o then None else Some o.

Lemma stat_add_same m a b c d e f g h : same_table m (stat_add m a b c d e f g h).
Proof. done. Qed.
Lemma locker_count_same m id h w : same_table m (locker_count m id h w).
Proof. done. Qed.

Lemma maybe_free_updates m o :
  tab_ok m -> is_Some (obj_at m (lo_key o)) -> lo_hash o = __hash (lo_key o) ->
  updates m (__obj_maybe_free m o) (lo_key o) (kept_obj o).
Proof.
  intros Hm Hs Hh. unfold __obj_maybe_free, kept_obj. destruct (obj_empty o); [|by apply store_updates].
  eapply updates_same; [|apply stat_add_same].
  split_and!; [done|by apply put_obj_tab|]. intros k. by apply (put_obj_at m o true).
Qed.

(** ** What each operation does to the table *)

Definition fresh_obj (key : list Z) : lock_obj := mk_obj key (__hash key) [] [].

Lemma fresh_obj_ok M key : obj_ok M (fresh_obj key).
Proof. constructor; simpl; [constructor|done|constructor|]. intros e f He. by apply elem_of_nil in He. Qed.

Lemma obj_lookup_None p key hash :
  __obj_lookup p key hash = None -> Forall (fun o => obj_is key hash o = false) p.
Proof.
  induction p as [|x p IH]; [constructor|]. rewrite obj_lookup_cons.
  destruct (obj_is key hash x) eqn:E; [done|]. constructor; auto.
Qed.

Lemma obj_get_updates m key ok :
  tab_ok m ->
  match __obj_get m key (__hash key) ok with
  | (Some o, m1) => o = default (fresh_obj key) (obj_at m key) /\ updates m m1 key (Some o)
  | (None, m1) => m1 = m /\ ok = false
  end.
Proof.
  intros Hm. unfold __obj_get. fold (obj_at m key). destruct (obj_at m key) as [o|] eqn:Ho.
  - split; [done|]. split_and!; [done|done|]. intros k. case_decide; by subst.
  - destruct ok; [|done]. split; [done|]. fold (fresh_obj key).
    eapply updates_same; [|apply stat_add_same]. set (i := part_index m (__hash key)).
    assert (Forall (fun o => obj_is key (__hash key) o = false) (lm_parts m !!! i)) as Hnone
      by (by apply obj_lookup_None).
    split_and!; [done| |].
    + apply tab_ok_alter; [done|]. intros p Hp [Hnd Hall].
      assert (lm_parts m !!! i = p) as <- by (by apply list_lookup_total_correct).
      split; [|constructor; [by unfold i, part_index|done]].
      rewrite fmap_cons. constructor; [|done]. intros (o & Hk & Hin)%list_elem_of_fmap.
      rewrite Forall_forall in Hnone, Hall. specialize (Hnone o Hin). destruct (Hall o Hin) as [Hh _].
      apply not_true_iff_false in Hnone. apply Hnone, obj_is_spec. rewrite Hh, <- Hk. done.
    + intros k. rewrite obj_at_alter by done. fold i. case_decide as D; [|case_decide; by subst].
      rewrite obj_lookup_cons. unfold obj_at. rewrite D. unfold obj_is. simpl. case_decide as Dk.
      * subst k. by rewrite bool_decide_true.
      * rewrite bool_decide_false; [done|]. naive_solver.
Qed.

(** Taking an entry off the chain its flag says it is on. *)
Definition unlink_entry (o : lock_obj) (e : lock_entry) : lock_obj :=
  if le_granted e then set_granted o (remove_id (le_id e) (lo_granted o))
  else set_waiting o (remove_id (le_id e) (lo_waiting o)).

Lemma unlink_entry_ok M o e : obj_ok M o -> obj_ok M (unlink_entry o e).
Proof. intros. unfold unlink_entry. case_match; [by apply remove_granted_ok|by apply remove_waiting_ok]. Qed.

Lemma promote_key M skip o kept todo :
  lo_key (promote M skip o kept todo).1 = lo_key o /\
  lo_hash (promote M skip o kept todo).1 = lo_hash o.
Proof.
  revert o kept. induction todo as [|w todo IH]; intros o kept; simpl; [done|].
  case_match; [done|]. case_match; [apply IH|].
  specialize (IH (set_granted o (grant w :: lo_granted o)) kept). by destruct (promote M skip _ kept todo).
Qed.

Lemma free_same_updates m m1 o key :
  tab_ok m -> same_table m m1 -> is_Some (obj_at m key) -> lo_key o = key ->
  lo_hash o = __hash key -> updates m (__obj_maybe_free m1 o) key (kept_obj o).
Proof.
  intros Hm [E1 E2] Hs <- Hh. eapply same_updates; [by split|].
  apply maybe_free_updates; [by eapply tab_ok_same| |done]. by rewrite (obj_at_same m).
Qed.

Lemma store_same_updates m m1 o key :
  tab_ok m -> same_table m m1 -> is_Some (obj_at m key) -> lo_key o = key ->
  lo_hash o = __hash key -> updates m (store_obj m1 o) key (Some o).
Proof.
  intros Hm [E1 E2] Hs <- Hh. eapply same_updates; [by split|].
  apply store_updates; [by eapply tab_ok_same| |done]. by rewrite (obj_at_same m).
Qed.

(** The object after releasing [e]. *)
Definition released (M : matrix) (skip : positive -> bool) (o : lock_obj) (e : lock_entry)
  : lock_obj := (promote_waiters M skip (unlink_entry o e)).1.

Lemma released_key M skip o e :
  lo_key (released M skip o e) = lo_key o /\ lo_hash (released M skip o e) = lo_hash o.
Proof.
  unfold released, promote_waiters.
  destruct (promote_key M skip (unlink_entry o e) [] (lo_waiting (unlink_entry o e))) as [-> ->].
  unfold unlink_entry. by case_match.
Qed.

Lemma released_ok M skip o e : matrix_ok M -> obj_ok M o -> obj_ok M (released M skip o e).
Proof. intros. by apply promote_waiters_ok, unlink_entry_ok. Qed.

Lemma release_entry_updates m m1 key o e skip :
  tab_ok m -> same_table m m1 -> is_Some (obj_at m key) -> lo_key o = key -> lo_hash o = __hash key ->
  updates m (__release_entry_locked m1 o e skip).1 key (kept_obj (released (lm_matrix m) skip o e)).
Proof.
  intros Hm [E1 E2] Hs Hk Hh. destruct (released_key (lm_matrix m) skip o e) as [Hk1 Hk2].
  unfold __release_entry_locked, released, unlink_entry in *. rewrite E2.
  destruct (le_granted e); destruct (promote_waiters _ _ _) as [o2 woken]; simpl in *;
    (apply free_same_updates; [done|by split|done| |]); by rewrite ?Hk1, ?Hk2.
Qed.

Lemma release_entry_ok m m1 key o e skip :
  matrix_ok (lm_matrix m) -> lm_ok m -> same_table m m1 -> obj_at m key = Some o ->
  lm_ok (__release_entry_locked m1 o e skip).1.
Proof.
  intros HM Hm Hs Ho. destruct (obj_at_key _ _ _ Ho) as [Hk Hh].
  refine (updates_ok _ _ _ _ Hm (release_entry_updates m m1 key o e skip (ok_tab _ Hm) Hs _ Hk Hh) _).
  { by eexists. }
  unfold kept_obj. intros o'. case_match; [done|]. intros [= <-].
  apply released_ok; [done|]. by eapply ok_objs.
Qed.

(** ** The first half of a request *)

Lemma find_granted_spec o locker e :
  __find_granted o locker = Some e -> e ∈ lo_granted o /\ le_locker e = locker.
Proof. intros H. by apply head_Some_elem_of, list_elem_of_filter in H as [? ?]. Qed.

Lemma find_granted_None o locker :
  __find_granted o locker = None -> forall e, e ∈ lo_granted o -> le_locker e <> locker.
Proof.
  unfold __find_granted. rewrite head_None. intros H e He Hl.
  assert (e ∈ filter (fun e => le_locker e = locker) (lo_granted o)) as Hin
    by (by apply list_elem_of_filter). rewrite H in Hin. by apply elem_of_nil in Hin.
Qed.

(** Every way the first half of [__do_acquire_locked] ends. *)
Definition acquire_spec_of (M : matrix) (o : lock_obj) (locker mode timeout_ns : Z)
    (alloc : option positive) (r : acquire) : Prop :=
  let blocked := __has_conflict_granted M o locker mode = true \/
                 (__find_granted o locker = None /\ lo_waiting o <> []) in
  match r with
  | AHeld => exists e, __find_granted o locker = Some e /\ __dominates M (le_mode e) mode = true
  | ARaised o' dw =>
      exists e, __find_granted o locker = Some e /\ __dominates M mode (le_mode e) = true /\
        __dominates M (le_mode e) mode = false /\ __has_conflict_granted M o locker mode = false /\
        o' = set_granted o (set_first_mode locker mode (lo_granted o)) /\
        dw = b2z (__is_write_mode mode) - b2z (__is_write_mode (le_mode e))
  | AGranted o' =>
      ~ blocked /\ exists id, alloc = Some id /\
        o' = set_granted o (mk_entry id locker mode true false :: lo_granted o)
  | AAgain => blocked /\ timeout_ns = 0
  | ANomem => alloc = None /\ (~ blocked \/ timeout_ns <> 0)
  | AQueued o' =>
      blocked /\ timeout_ns <> 0 /\ exists id, alloc = Some id /\
        o' = set_waiting o
               (if decide (is_Some (__find_granted o locker))
                then mk_entry id locker mode false false :: lo_waiting o
                else lo_waiting o ++ [mk_entry id locker mode false false])
  end.

Lemma obj_acquire_spec M o locker mode timeout_ns alloc :
  acquire_spec_of M o locker mode timeout_ns alloc
    (obj_acquire M o locker mode timeout_ns alloc).
Proof.
  unfold obj_acquire, acquire_spec_of.
  set (prior := __find_granted o locker).
  set (free := negb (__has_conflict_granted M o locker mode) &&
               (bool_decide (is_Some prior) || negb (__has_waiters o))).
  assert (free = true <-> ~ (__has_conflict_granted M o locker mode = true \/
                             (prior = None /\ lo_waiting o <> []))) as Hfree.
  { unfold free, __has_waiters. destruct (__has_conflict_granted M o locker mode); simpl; [naive_solver|].
    destruct prior; simpl; [naive_solver|]. destruct (lo_waiting o); simpl; naive_solver. }
  assert (acquire_spec_of M o locker mode timeout_ns alloc
    (if free then match alloc with
       | None => ANomem
       | Some id => AGranted (set_granted o (mk_entry id locker mode true false :: lo_granted o)) end
     else if decide (timeout_ns = 0) then AAgain
     else match alloc with
       | None => ANomem
       | Some id => AQueued (set_waiting o
           (if decide (is_Some prior) then mk_entry id locker mode false false :: lo_waiting o
            else lo_waiting o ++ [mk_entry id locker mode false false])) end)) as Hnormal.
  { unfold acquire_spec_of. fold prior.
    assert (free = false -> __has_conflict_granted M o locker mode = true \/
              (prior = None /\ lo_waiting o <> [])) as Hb.
    { unfold free, __has_waiters. destruct (__has_conflict_granted M o locker mode); simpl; [naive_solver|].
      destruct prior; simpl; [naive_solver|]. destruct (lo_waiting o); simpl; naive_solver. }
    destruct free.
    - destruct alloc; naive_solver.
    - case_decide; [naive_solver|]. destruct alloc; naive_solver. }
  unfold acquire_spec_of in Hnormal. fold prior in Hnormal.
  destruct prior as [e|] eqn:Hp; [|exact Hnormal].
  destruct (__conflicts M (le_mode e) mode); [exact Hnormal|].
  destruct (__dominates M (le_mode e) mode) eqn:Hd; [eauto|].
  destruct (__dominates M mode (le_mode e)) eqn:Hd2; simpl; [|exact Hnormal].
  destruct (__has_conflict_granted M o locker mode) eqn:Hc; simpl; [exact Hnormal|].
  exists e. done.
Qed.

(** The slab hands out an address no live entry has. *)
Definition alloc_fresh (m : xtc_lockmgr) (alloc : option positive) : Prop :=
  forall id key o, alloc = Some id -> obj_at m key = Some o -> id ∉ obj_ids o.

(** The object an acquire leaves behind, when it changes it. *)
Definition acquired_obj (r : acquire) : option lock_obj :=
  match r with
  | ARaised o' _ | AGranted o' | AQueued o' => Some o'
  | AHeld | AAgain | ANomem => None
  end.

Lemma no_conflict_compatible M o locker mode :
  __has_conflict_granted M o locker mode = false ->
  forall e, e ∈ lo_granted o -> le_locker e <> locker -> compatible M (le_mode e) mode.
Proof. rewrite no_conflict_spec. intros H e He Hne _ _. auto. Qed.

Lemma obj_acquire_ok M o locker mode timeout_ns alloc o' :
  matrix_ok M -> obj_ok M o -> mode_ok M mode ->
  (forall id, alloc = Some id -> id ∉ obj_ids o) ->
  acquired_obj (obj_acquire M o locker mode timeout_ns alloc) = Some o' ->
  obj_ok M o' /\ lo_key o' = lo_key o /\ lo_hash o' = lo_hash o.
Proof.
  intros HM Ho Hmode Hfresh. pose proof (obj_acquire_spec M o locker mode timeout_ns alloc) as Hs.
  destruct (obj_acquire M o locker mode timeout_ns alloc) as [|o1 dw|o1| | |o1]; simpl in *;
    intros E; simplify_eq.
  - destruct Hs as (e & He & Hd & Hnd & Hc & -> & _). split; [|done]. apply set_mode_ok; try done.
    by apply no_conflict_compatible.
  - destruct Hs as (Hb & id & -> & ->). split; [|done]. apply excl_cons; simpl; auto.
    by apply not_true_is_false; intros ?; apply Hb; left.
  - destruct Hs as (_ & _ & id & -> & ->). split; [|done].
    pose proof (Hfresh id eq_refl) as Hid. pose proof (ok_ids _ _ Ho) as Hnd.
    set (e := mk_entry id locker mode false false) in *.
    assert (Forall (waiter_ok M) [e]) as He by (by apply Forall_singleton).
    assert (NoDup (le_id <$> e :: lo_granted o ++ lo_waiting o)) as Hnd' by (by constructor).
    pose proof (obj_ok_waiting _ _ Ho) as Hw.
    apply set_waiting_ok; [done| |].
    + eapply NoDup_Permutation_proper; [|exact Hnd']. apply Permutation_map.
      case_decide; [symmetry; apply Permutation_middle|].
      rewrite app_assoc. symmetry. apply Permutation_cons_append.
    + case_decide; [by constructor; [apply Forall_singleton in He|]|by apply Forall_app].
Qed.

(** The outcome's manager. *)
Definition outcome_mgr (r : outcome) : xtc_lockmgr :=
  match r with Returned _ m | Parked _ m => m end.

Lemma do_acquire_updates m o locker mode timeout_ns alloc :
  tab_ok m -> obj_at m (lo_key o) = Some o ->
  let r := obj_acquire (lm_matrix m) o locker mode timeout_ns alloc in
  (forall o', acquired_obj r = Some o' -> lo_key o' = lo_key o /\ lo_hash o' = lo_hash o) ->
  updates m (outcome_mgr (__do_acquire_locked m o locker mode timeout_ns alloc)) (lo_key o)
    (Some (default o (acquired_obj r))).
Proof.
  intros Hm Ho r Hkey. unfold r in *. destruct (obj_at_key _ _ _ Ho) as [_ Hh].
  assert (updates m m (lo_key o) (Some o)) as Hid.
  { split_and!; [done|done|]. intros k. case_decide; by subst. }
  unfold __do_acquire_locked.
  pose proof (obj_acquire_spec (lm_matrix m) o locker mode timeout_ns alloc) as Hs.
  destruct (obj_acquire (lm_matrix m) o locker mode timeout_ns alloc) as [|o1 dw|o1| | |o1];
    simpl in *; try done.
  - destruct (Hkey o1 eq_refl) as [Hk1 Hk2].
    apply store_same_updates; [done|done|by eexists|done|by rewrite Hk2].
  - destruct (Hkey o1 eq_refl) as [Hk1 Hk2].
    eapply updates_same; [|apply locker_count_same]. eapply updates_same; [|apply stat_add_same].
    apply store_same_updates; [done|done|by eexists|done|by rewrite Hk2].
  - destruct Hs as (_ & _ & id & -> & _). simpl. destruct (Hkey o1 eq_refl) as [Hk1 Hk2].
    eapply updates_same; [|apply stat_add_same].
    apply store_same_updates; [done|done|by eexists|done|by rewrite Hk2].
Qed.

Lemma do_acquire_ok m key o locker mode timeout_ns alloc :
  matrix_ok (lm_matrix m) -> lm_ok m -> obj_at m key = Some o -> mode_ok (lm_matrix m) mode ->
  alloc_fresh m alloc ->
  lm_ok (outcome_mgr (__do_acquire_locked m o locker mode timeout_ns alloc)).
Proof.
  intros HM Hm Ho Hmode Hfr. destruct (obj_at_key _ _ _ Ho) as [Hk _]. subst key.
  assert (obj_ok (lm_matrix m) o) as Hok by (by eapply ok_objs).
  assert (forall o', acquired_obj (obj_acquire (lm_matrix m) o locker mode timeout_ns alloc) = Some o' ->
    obj_ok (lm_matrix m) o' /\ lo_key o' = lo_key o /\ lo_hash o' = lo_hash o) as Hacq.
  { intros o'. apply obj_acquire_ok; try done. intros id Hid. by eapply Hfr. }
  eapply updates_ok; [done|apply do_acquire_updates; [apply Hm|done|]|].
  - intros o' Ho'. by apply Hacq.
  - intros o' [= <-]. destruct (acquired_obj _) as [o1|]; simpl; [|done]. by apply Hacq.
Qed.

(** ** Every operation keeps the invariant *)

Section Preserves.
Context (m : xtc_lockmgr) (HM : matrix_ok (lm_matrix m)) (Hm : lm_ok m).

Lemma obj_get_ok key ok o m1 :
  __obj_get m key (__hash key) ok = (Some o, m1) ->
  lm_ok m1 /\ obj_at m1 key = Some o /\ lm_matrix m1 = lm_matrix m /\
  obj_ids o = default [] (obj_ids <$> obj_at m key).
Proof.
  intros E. pose proof (obj_get_updates m key ok (ok_tab _ Hm)) as H. rewrite E in H.
  destruct H as [-> Hu]. pose proof Hu as (E2 & _ & Hk).
  split_and!; [|by rewrite Hk, decide_True|done|by destruct (obj_at m key)].
  eapply updates_ok; [done|done|]. intros o [= <-].
  destruct (obj_at m key) as [o|] eqn:Ho; simpl; [by eapply ok_objs|apply fresh_obj_ok].
Qed.

Lemma lock_get_ok locker obj mode timeout_ns ook alloc r :
  alloc_fresh m alloc -> xtc_lock_get (Some m) locker obj mode timeout_ns ook alloc = Some r ->
  lm_ok (outcome_mgr r) /\ lm_matrix (outcome_mgr r) = lm_matrix m.
Proof.
  intros Hfr. unfold xtc_lock_get. destruct obj as [key|]; [|by intros [= <-]].
  case_decide; [by intros [= <-]|]. case_decide as D; [by intros [= <-]|].
  case_decide; [by intros [= <-]|].
  destruct (__obj_get m key (__hash key) ook) as [[o|] m1] eqn:E.
  - destruct (obj_get_ok key ook o m1 E) as (Hm1 & Ho & EM & Hids). intros [= <-].
    unfold XTC_LOCK_NL in D. rewrite <- EM in *.
    assert (lo_key o = key) as <- by (by eapply obj_at_key).
    assert (forall id, alloc = Some id -> id ∉ obj_ids o) as Hid.
    { intros id Hid. rewrite Hids. destruct (obj_at m (lo_key o)) as [o0|] eqn:Ho0; simpl.
      - by eapply Hfr. 
      - apply not_elem_of_nil. }
    assert (forall o', acquired_obj (obj_acquire (lm_matrix m1) o locker mode timeout_ns alloc) = Some o' ->
      obj_ok (lm_matrix m1) o' /\ lo_key o' = lo_key o /\ lo_hash o' = lo_hash o) as Hacq.
    { intros o'. apply obj_acquire_ok; [done|by eapply ok_objs|by unfold mode_ok; lia|done]. }
    assert (updates m1 (outcome_mgr (__do_acquire_locked m1 o locker mode timeout_ns alloc)) (lo_key o)
      (Some (default o (acquired_obj (obj_acquire (lm_matrix m1) o locker mode timeout_ns alloc))))) as Hu.
    { apply do_acquire_updates; [apply Hm1|done|]. intros o' Ho'. by apply Hacq. }
    split; [|apply Hu]. eapply updates_ok; [exact Hm1|exact Hu|].
    intros o' [= <-]. destruct (acquired_obj _) as [o1|]; simpl; [by apply Hacq|by eapply ok_objs].
  - pose proof (obj_get_updates m key ook (ok_tab _ Hm)) as H'. rewrite E in H'.
    destruct H' as [-> _]. by intros [= <-].
Qed.

Lemma release_entry_mgr o e skip key :
  obj_at m key = Some o ->
  lm_ok (__release_entry_locked m o e skip).1 /\
  lm_matrix (__release_entry_locked m o e skip).1 = lm_matrix m.
Proof.
  intros Ho. split; [by eapply (release_entry_ok m m)|]. destruct (obj_at_key _ _ _ Ho) as [Hk Hh].
  by apply (release_entry_updates m m key o e skip (ok_tab _ Hm)).
Qed.

Lemma lock_put_ok locker obj skip c m' woken :
  xtc_lock_put (Some m) locker obj skip = (c, Some m', woken) ->
  lm_ok m' /\ lm_matrix m' = lm_matrix m.
Proof.
  unfold xtc_lock_put. destruct obj as [key|]; [|by intros [= <- <- <-]].
  case_decide; [by intros [= <- <- <-]|]. fold (obj_at m key).
  destruct (obj_at m key) as [o|] eqn:Ho; [|by intros [= <- <- <-]].
  destruct (__find_granted o locker) as [e|]; [|by intros [= <- <- <-]].
  pose proof (release_entry_mgr o e skip key Ho) as Hr.
  destruct (__release_entry_locked m o e skip). by intros [= <- <- <-].
Qed.

Lemma drop_upgraded_ok key locker skip :
  lm_ok (drop_upgraded m key locker skip).1 /\
  lm_matrix (drop_upgraded m key locker skip).1 = lm_matrix m.
Proof.
  unfold drop_upgraded. fold (obj_at m key). destruct (obj_at m key) as [o|] eqn:Ho; [|done].
  destruct (next_entry o locker) as [e|]; [|done]. by apply (release_entry_mgr o e skip key).
Qed.

Lemma lookup_held_spec key locker o e :
  lookup_held m key locker = Some (o, e) ->
  obj_at m key = Some o /\ __find_granted o locker = Some e.
Proof.
  unfold lookup_held. fold (obj_at m key). destruct (obj_at m key) as [o'|]; [|done].
  destruct (__find_granted o' locker) eqn:E; [|done]. intros [= <- <-]. done.
Qed.

(** A mode weaker than one held is one the other holders allow. *)
Lemma weaken_ok o cur locker mode :
  obj_ok (lm_matrix m) o -> __find_granted o locker = Some cur -> mode_ok (lm_matrix m) mode ->
  __dominates (lm_matrix m) (le_mode cur) mode = true ->
  obj_ok (lm_matrix m) (set_granted o (set_first_mode locker mode (lo_granted o))).
Proof.
  intros Ho [Hcur Hl]%find_granted_spec Hmode Hd. apply set_mode_ok; try done.
  intros e He Hne Hw1 Hw2. destruct Ho as [_ _ Hmodes Hx]. apply Forall_app in Hmodes as [Hmodes _].
  rewrite Forall_forall in Hmodes. pose proof (Hmodes e He). pose proof (Hmodes cur Hcur).
  unfold mode_ok in *.
  destruct (decide (le_mode cur = XTC_LOCK_WAIT)) as [Hcw|Hcw].
  - unfold __conflicts. rewrite decide_False by lia. rewrite Hcw in Hd. by apply (mo_wait _ HM).
  - eapply dominated_compatible; [exact Hd|lia|lia|lia|]. apply Hx; try done. by rewrite Hl.
Qed.

Lemma lock_downgrade_ok locker obj mode c m' woken :
  xtc_lock_downgrade (Some m) locker obj mode = (c, Some m', woken) ->
  lm_ok m' /\ lm_matrix m' = lm_matrix m.
Proof.
  unfold xtc_lock_downgrade. destruct obj as [key|]; [|by intros [= <- <- <-]].
  case_decide; [by intros [= <- <- <-]|]. case_decide as D; [by intros [= <- <- <-]|].
  destruct (lookup_held m key locker) as [[o cur]|] eqn:Hl; [|by intros [= <- <- <-]].
  apply lookup_held_spec in Hl as [Ho Hcur]. unfold XTC_LOCK_NL in D.
  destruct (__dominates _ _ _) eqn:Hd; [|by intros [= <- <- <-]].
  set (o1 := set_granted o _).
  assert (obj_ok (lm_matrix m) o1) as Ho1.
  { eapply weaken_ok; [by eapply ok_objs|done|unfold mode_ok; lia|done]. }
  pose proof (promote_waiters_ok (lm_matrix m) (fun _ => false) o1 HM Ho1) as Hp.
  pose proof (promote_key (lm_matrix m) (fun _ => false) o1 [] (lo_waiting o1)) as [Hk1 Hk2].
  unfold promote_waiters in *. destruct (promote _ _ o1 _ _) as [o2 w]. simpl in *.
  intros [= <- <- <-]. destruct (obj_at_key _ _ _ Ho) as [Hk Hh].
  assert (updates m (store_obj (locker_count m locker 0
    (if __is_write_mode (le_mode cur) && negb (__is_write_mode mode) then -1 else 0)) o2) key (Some o2)) as Hu.
  { apply store_same_updates; [apply Hm|done|by eexists|by rewrite Hk1|by rewrite Hk2]. }
  split; [|apply Hu]. eapply updates_ok; [done|done|]. by intros ? [= <-].
Qed.

Lemma do_acquire_mgr key o locker mode timeout_ns alloc :
  obj_at m key = Some o -> mode_ok (lm_matrix m) mode -> alloc_fresh m alloc ->
  lm_ok (outcome_mgr (__do_acquire_locked m o locker mode timeout_ns alloc)) /\
  lm_matrix (outcome_mgr (__do_acquire_locked m o locker mode timeout_ns alloc)) = lm_matrix m.
Proof.
  intros Ho Hmode Hfr. split; [by eapply do_acquire_ok|].
  destruct (obj_at_key _ _ _ Ho) as [<- _].
  refine (proj1 (do_acquire_updates m o locker mode timeout_ns alloc (ok_tab _ Hm) Ho _)).
  intros o' Ho'. eapply obj_acquire_ok; try done; [by eapply ok_objs|].
  intros id Hid. by eapply Hfr.
Qed.
End Preserves.

Section Preserves2.
Context (m : xtc_lockmgr) (HM : matrix_ok (lm_matrix m)) (Hm : lm_ok m).

Lemma lock_upgrade_ok locker obj mode now alloc skip r :
  alloc_fresh m alloc -> xtc_lock_upgrade (Some m) locker obj mode now alloc skip = Some r ->
  lm_ok (outcome_mgr r) /\ lm_matrix (outcome_mgr r) = lm_matrix m.
Proof.
  intros Hfr. unfold xtc_lock_upgrade. destruct obj as [key|]; [|by intros [= <-]].
  case_decide; [by intros [= <-]|]. case_decide as D; [by intros [= <-]|].
  unfold XTC_LOCK_NL in D.
  destruct (lookup_held m key locker) as [[o cur]|] eqn:Hl; [|by intros [= <-]].
  apply lookup_held_spec in Hl as [Ho Hcur].
  case_decide; [by intros [= <-]|].
  assert (mode_ok (lm_matrix m) mode) as Hmode by (unfold mode_ok; lia).
  destruct (__has_conflict_granted (lm_matrix m) o locker mode) eqn:Hc.
  - destruct (do_acquire_mgr m HM Hm key o locker mode (upgrade_bound m locker now) alloc
      Ho Hmode Hfr) as [Ha Hb].
    destruct (__do_acquire_locked _ _ _ _ _ _) as [c m1|id m1]; simpl in *; [|by intros [= <-]].
    destruct c; try by intros [= <-]. intros [= <-]. simpl. rewrite <- Hb.
    apply drop_upgraded_ok; [by rewrite Hb|done].
  - intros [= <-]. simpl. destruct (obj_at_key _ _ _ Ho) as [Hk Hh]. set (o1 := set_granted o _).
    assert (updates m (store_obj (locker_count m locker 0
      (b2z (__is_write_mode mode) - b2z (__is_write_mode (le_mode cur)))) o1) key (Some o1)) as Hu.
    { by apply store_same_updates; [apply Hm| |eexists| |]. }
    split; [|apply Hu]. eapply updates_ok; [done|done|]. intros ? [= <-].
    apply set_mode_ok; try done; [by eapply ok_objs|by apply no_conflict_compatible].
Qed.

Lemma finish_wait_ok key o e c skip c' m' woken :
  obj_at m key = Some o -> finish_wait m o e c skip = Some (c', m', woken) ->
  lm_ok m' /\ lm_matrix m' = lm_matrix m.
Proof.
  intros Ho. unfold finish_wait. destruct (obj_at_key _ _ _ Ho) as [Hk Hh].
  assert (obj_ok (lm_matrix m) o) as Hok by (by eapply ok_objs).
  case_decide.
  - destruct (on_list _ _); [|done]. intros [= <- <- <-].
    set (o1 := set_waiting o _). set (m1 := stat_add m _ _ _ _ _ _ _ _).
    assert (updates m (__obj_maybe_free m1 o1) key (kept_obj o1)) as Hu.
    { by apply free_same_updates; [apply Hm| |eexists| |]. }
    split; [|apply Hu]. eapply updates_ok; [done|done|]. unfold kept_obj. intros o'.
    destruct (obj_empty o1); [done|]. intros [= <-]. by apply remove_waiting_ok.
  - set (m1 := locker_count _ _ _ _). assert (same_table m m1) as Hs by done.
    destruct (bool_decide _).
    + destruct (__release_entry_locked m1 o e skip) as [m2 w] eqn:E. intros [= <- <- <-].
      assert (m2 = (__release_entry_locked m1 o e skip).1) as -> by (by rewrite E).
      split; [by eapply release_entry_ok|].
      by apply (release_entry_updates m m1 key o e skip (ok_tab _ Hm)).
    + intros [= <- <- <-]. split; [by eapply lm_ok_same|apply Hs].
Qed.

Lemma resume_get_ok key id fiber cancel timed_out skip c m' woken :
  resume_get m key id fiber cancel timed_out skip = Resumed c m' woken ->
  lm_ok m' /\ lm_matrix m' = lm_matrix m.
Proof.
  unfold resume_get. fold (obj_at m key). destruct (obj_at m key) as [o|] eqn:Ho; [|done].
  destruct (find_entry o id) as [e|]; [|done]. destruct (wait_check _ _ _ e) as [c0|]; [|done].
  destruct (finish_wait m o e c0 skip) as [[[c1 m1] w1]|] eqn:E; [|done].
  intros [= -> -> ->]. by eapply finish_wait_ok.
Qed.

Lemma locker_update_ok id f : lm_ok (locker_update m id f).
Proof. by apply (lm_ok_same m). Qed.
End Preserves2.

Lemma resume_upgrade_ok m key locker id fiber cancel timed_out skip c m' woken :
  matrix_ok (lm_matrix m) -> lm_ok m ->
  resume_upgrade m key locker id fiber cancel timed_out skip = Resumed c m' woken ->
  lm_ok m' /\ lm_matrix m' = lm_matrix m.
Proof.
  intros HM Hm. unfold resume_upgrade.
  destruct (resume_get m key id fiber cancel timed_out skip) as [|c1 m1 w1|] eqn:E; [done| |done].
  destruct (resume_get_ok m HM Hm _ _ _ _ _ _ _ _ _ E) as [H1 H2].
  destruct (decide (c1 = XTC_OK)) as [->|Hc].
  - pose proof (drop_upgraded_ok m1 ltac:(by rewrite H2) H1 key locker skip) as [H3 H4].
    destruct (drop_upgraded m1 key locker skip) as [m2 w2]. intros [= <- <- <-].
    simpl in *. by rewrite H4.
  - destruct c1; try done; by intros [= <- <- <-].
Qed.

(** ** Releasing everything *)

Lemma release_each_ok m key todo locker skip :
  matrix_ok (lm_matrix m) -> lm_ok m ->
  lm_ok (release_each m key (__hash key) todo locker skip).1.1 /\
  lm_matrix (release_each m key (__hash key) todo locker skip).1.1 = lm_matrix m /\
  (forall k, k <> key ->
     obj_at (release_each m key (__hash key) todo locker skip).1.1 k = obj_at m k).
Proof.
  revert m. induction todo as [|e todo IH]; intros m HM Hm; cbn [release_each]; [done|].
  case_decide; [|by apply IH]. fold (obj_at m key).
  destruct (obj_at m key) as [o|] eqn:Ho; [|done].
  destruct (release_entry_mgr m HM Hm o e skip key Ho) as [H1 H2].
  destruct (obj_at_key _ _ _ Ho) as [Hk Hh].
  pose proof (release_entry_updates m m key o e skip (ok_tab _ Hm)) as Hu.
  destruct (__release_entry_locked m o e skip) as [m1 w1]. simpl in *.
  destruct (Hu ltac:(done) ltac:(by eexists) Hk Hh) as (_ & _ & Hu'). clear Hu.
  specialize (IH m1 ltac:(by rewrite H2) H1) as (I1 & I2 & I3).
  destruct (release_each m1 key (__hash key) todo locker skip) as [[m2 w2] n]. simpl in *.
  split_and!; [done|by rewrite I2|]. intros k Hk'. rewrite I3 by done. rewrite Hu'. by case_decide.
Qed.

Lemma release_obj_ok m o locker skip :
  matrix_ok (lm_matrix m) -> lm_ok m -> obj_at m (lo_key o) = Some o ->
  lm_ok (release_obj m o locker skip).1.1 /\
  lm_matrix (release_obj m o locker skip).1.1 = lm_matrix m /\
  (forall k, k <> lo_key o -> obj_at (release_obj m o locker skip).1.1 k = obj_at m k).
Proof.
  intros HM Hm Ho. unfold release_obj. destruct (obj_at_key _ _ _ Ho) as [_ Hh].
  set (m1 := store_obj m (abort_waiters locker o)).
  assert (updates m m1 (lo_key o) (Some (abort_waiters locker o))) as Hu.
  { by apply (store_same_updates m m); [apply Hm| |eexists| |]. }
  assert (lm_ok m1) as Hm1.
  { eapply updates_ok; [done|done|]. intros ? [= <-]. apply abort_waiters_ok. by eapply ok_objs. }
  assert (lm_matrix m1 = lm_matrix m) as EM by apply Hu.
  pose proof (release_each_ok m1 (lo_key o) (lo_granted o) locker skip ltac:(by rewrite EM) Hm1)
    as (H1 & H2 & H3).
  rewrite Hh. destruct (release_each m1 _ _ _ _ _) as [[m2 w] n]. simpl in *.
  split_and!; [done|by rewrite H2|]. intros k Hk. rewrite H3 by done.
  destruct Hu as (_ & _ & Hu). rewrite Hu. by case_decide.
Qed.

Lemma chains_NoDup n start ps :
  (forall i p, ps !! i = Some p -> chain_ok n (start + i) p) -> NoDup (lo_key <$> concat ps).
Proof.
  revert start. induction ps as [|p ps IH]; intros start Hc; [constructor|].
  simpl. rewrite fmap_app. apply NoDup_app.
  pose proof (Hc 0%nat p eq_refl) as [Hnd Hall]. rewrite Nat.add_0_r in Hall.
  split_and!; [done| |].
  - intros k (o & -> & Ho)%list_elem_of_fmap (o' & Hk & Ho')%list_elem_of_fmap.
    rewrite Forall_forall in Hall. destruct (Hall o Ho) as [Hh Hi].
    apply list_elem_of_In, in_concat in Ho' as (q & Hq & Ho').
    apply list_elem_of_In, list_elem_of_lookup in Hq as [j Hj]. apply list_elem_of_In in Ho'.
    destruct (Hc (S j) q Hj) as [_ Hall']. rewrite Forall_forall in Hall'.
    destruct (Hall' o' Ho') as [Hh' Hi']. rewrite Hh, Hk in Hi. rewrite Hh' in Hi'. lia.
  - apply (IH (S start)). intros i q Hq. replace (S start + i)%nat with (start + S i)%nat by lia.
    by apply Hc.
Qed.

Lemma table_NoDup m : tab_ok m -> NoDup (lo_key <$> concat (lm_parts m)).
Proof. intros Hm. apply (chains_NoDup (length (lm_parts m)) 0). apply Hm. Qed.

Lemma NoDup_fmap_inj {A B} (f : A -> B) (l : list A) x y :
  NoDup (f <$> l) -> x ∈ l -> y ∈ l -> f x = f y -> x = y.
Proof.
  intros Hnd [i Hi]%list_elem_of_lookup [j Hj]%list_elem_of_lookup E.
  assert (i = j) as ->; [|by simplify_eq].
  eapply NoDup_lookup; [done|rewrite list_lookup_fmap, Hi; done|].
  rewrite list_lookup_fmap, Hj. simpl. by rewrite E.
Qed.

(** The table's objects are the ones the lookup finds. *)
Lemma table_elem m o : tab_ok m -> o ∈ concat (lm_parts m) <-> obj_at m (lo_key o) = Some o.
Proof.
  intros Hm. split.
  - intros Hin. assert (o ∈ concat (lm_parts m)) as Hin0 by done.
    apply list_elem_of_In, in_concat in Hin as (p & Hp & Ho).
    apply list_elem_of_In, list_elem_of_lookup in Hp as [i Hi]. apply list_elem_of_In in Ho.
    destruct (tab_chains _ Hm i p Hi) as [Hnd Hall]. rewrite Forall_forall in Hall.
    destruct (Hall o Ho) as [Hh Hidx]. unfold obj_at. rewrite <- Hh.
    assert (part_index m (lo_hash o) = i) as -> by done.
    assert (lm_parts m !!! i = p) as -> by (by apply list_lookup_total_correct).
    destruct (__obj_lookup p (lo_key o) (lo_hash o)) as [o'|] eqn:E.
    + apply obj_lookup_elem in E as (Ho' & _ & Hk). f_equal. by eapply NoDup_fmap_inj.
    + apply obj_lookup_None in E. rewrite Forall_forall in E. specialize (E o Ho).
      apply not_true_iff_false in E. by destruct E; apply obj_is_spec.
  - intros E. apply obj_lookup_elem in E as (Ho & _).
    apply list_elem_of_In, in_concat. exists (lm_parts m !!! part_index m (__hash (lo_key o))).
    rewrite <- !list_elem_of_In. split; [|done]. eapply list_elem_of_lookup_2. by apply part_lookup.
Qed.

Lemma release_objs_ok m os locker skip :
  matrix_ok (lm_matrix m) -> lm_ok m -> NoDup (lo_key <$> os) ->
  Forall (fun o => obj_at m (lo_key o) = Some o) os ->
  lm_ok (release_objs m os locker skip).1.1 /\
  lm_matrix (release_objs m os locker skip).1.1 = lm_matrix m /\
  (forall k, k ∉ (lo_key <$> os) -> obj_at (release_objs m os locker skip).1.1 k = obj_at m k).
Proof.
  revert m. induction os as [|o os IH]; intros m HM Hm Hnd Hos; [done|]. cbn [release_objs].
  rewrite fmap_cons, NoDup_cons in Hnd. destruct Hnd as [Hnew Hnd].
  apply Forall_cons in Hos as [Ho Hos].
  destruct (release_obj_ok m o locker skip HM Hm Ho) as (H1 & H2 & H3).
  destruct (release_obj m o locker skip) as [[m1 w1] n1]. simpl in *.
  assert (Forall (fun o' => obj_at m1 (lo_key o') = Some o') os) as Hos1.
  { rewrite Forall_forall in *. intros o' Ho'. rewrite H3; [by apply Hos|].
    intros E. apply Hnew. rewrite <- E. apply list_elem_of_fmap. eauto. }
  specialize (IH m1 ltac:(by rewrite H2) H1 Hnd Hos1) as (I1 & I2 & I3).
  destruct (release_objs m1 os locker skip) as [[m2 w2] n2]. simpl in *.
  split_and!; [done|by rewrite I2|]. intros k [Hk1 Hk2]%not_elem_of_cons.
  rewrite I3 by done. by apply H3.
Qed.

Lemma table_objs m : tab_ok m -> Forall (fun o => obj_at m (lo_key o) = Some o) (concat (lm_parts m)).
Proof. intros Hm. rewrite Forall_forall. intros o Ho. by apply table_elem. Qed.

Lemma release_all_ok m locker skip n m' woken :
  matrix_ok (lm_matrix m) -> lm_ok m ->
  xtc_lock_release_all (Some m) locker skip = (n, Some m', woken) ->
  lm_ok m' /\ lm_matrix m' = lm_matrix m.
Proof.
  intros HM Hm. unfold xtc_lock_release_all.
  destruct (release_objs_ok m (concat (lm_parts m)) locker skip HM Hm) as (H1 & H2 & _).
  { by apply table_NoDup, Hm. } { by apply table_objs, Hm. }
  destruct (release_objs _ _ _ _) as [[m1 w] k]. by intros [= <- <- <-].
Qed.

(** ** Runs

    One call of the manager: any of its operations by any locker with any
    arguments, or the detector killing a victim. *)
Inductive lm_call (m : xtc_lockmgr) : xtc_lockmgr -> Prop :=
  | step_get locker obj mode timeout_ns ook alloc r :
      alloc_fresh m alloc ->
      xtc_lock_get (Some m) locker obj mode timeout_ns ook alloc = Some r ->
      lm_call m (outcome_mgr r)
  | step_put locker obj skip c m' woken :
      xtc_lock_put (Some m) locker obj skip = (c, Some m', woken) -> lm_call m m'
  | step_upgrade locker obj mode now alloc skip r :
      alloc_fresh m alloc ->
      xtc_lock_upgrade (Some m) locker obj mode now alloc skip = Some r ->
      lm_call m (outcome_mgr r)
  | step_downgrade locker obj mode c m' woken :
      xtc_lock_downgrade (Some m) locker obj mode = (c, Some m', woken) -> lm_call m m'
  | step_release_all locker skip n m' woken :
      xtc_lock_release_all (Some m) locker skip = (n, Some m', woken) -> lm_call m m'
  | step_victim vid skip : lm_call m (kill_victim m vid skip).1
  | step_failchk locker skip c m' woken :
      xtc_lockmgr_failchk (Some m) locker skip = (c, Some m', woken) -> lm_call m m'
  | step_id out alloc now c id m' :
      xtc_lockmgr_id (Some m) out alloc now = (c, id, Some m') -> lm_call m m'
  | step_id_set_timeout id timeout_ns c m' :
      xtc_lockmgr_id_set_timeout (Some m) id timeout_ns = (c, Some m') -> lm_call m m'
  | step_id_free id skip c m' woken :
      xtc_lockmgr_id_free (Some m) id skip = (c, Some m', woken) -> lm_call m m'.

(** A waiter wakes up in [xtc_lock_get], or in [xtc_lock_upgrade] of a locker. *)
Definition resume (m : xtc_lockmgr) (key : list Z) (id : positive) (upgrader : option Z)
    (fiber cancel timed_out : bool) (skip : positive -> bool) : resumption :=
  match upgrader with
  | None => resume_get m key id fiber cancel timed_out skip
  | Some locker => resume_upgrade m key locker id fiber cancel timed_out skip
  end.

(** One step: a call, or a waiter that leaves its wait. *)
Inductive lm_step (m : xtc_lockmgr) : xtc_lockmgr -> Prop :=
  | step_call m' : lm_call m m' -> lm_step m m'
  | step_resume key id upgrader fiber cancel timed_out skip c m' woken :
      resume m key id upgrader fiber cancel timed_out skip = Resumed c m' woken -> lm_step m m'.

(** The waits of a manager: which entry is queued for which key. *)
Definition waits (m : xtc_lockmgr) : list (list Z * positive) :=
  o ← concat (lm_parts m); (fun e => (lo_key o, le_id e)) <$> lo_waiting o.

(** Runs with the waiters that are parked.  Whoever was queued stays parked
    until it has left its wait itself.  [None]: a waiter left its wait by
    unlinking its entry from a queue it was not on, or found it gone. *)
Inductive run_step :
    option (xtc_lockmgr * list (list Z * positive)) -> option (xtc_lockmgr * list (list Z * positive)) -> Prop :=
  | rs_call m ps m' : lm_call m m' -> run_step (Some (m, ps)) (Some (m', ps ++ waits m'))
  | rs_parked m ps key id upgrader fiber cancel timed_out skip :
      (key, id) ∈ ps -> resume m key id upgrader fiber cancel timed_out skip = StillParked -> run_step (Some (m, ps)) (Some (m, ps))
  | rs_resume m ps key id upgrader fiber cancel timed_out skip c m' woken :
      (key, id) ∈ ps -> resume m key id upgrader fiber cancel timed_out skip = Resumed c m' woken ->
      run_step (Some (m, ps)) (Some (m', filter (fun x => x <> (key, id)) ps ++ waits m'))
  | rs_corrupt m ps key id upgrader fiber cancel timed_out skip :
      (key, id) ∈ ps -> resume m key id upgrader fiber cancel timed_out skip = Corrupted -> run_step (Some (m, ps)) None.

Lemma locker_ops_same m :
  (forall out alloc now c id m',
     xtc_lockmgr_id (Some m) out alloc now = (c, id, Some m') -> same_table m m') /\
  (forall id timeout_ns c m',
     xtc_lockmgr_id_set_timeout (Some m) id timeout_ns = (c, Some m') -> same_table m m').
Proof.
  split.
  - intros out alloc now c id m'. unfold xtc_lockmgr_id.
    destruct out; [|by intros [= <- <- <-]]. destruct alloc; by intros [= <- <- <-].
  - intros id timeout_ns c m'. unfold xtc_lockmgr_id_set_timeout.
    destruct (__locker_find m id); by intros [= <- <-].
Qed.

Lemma failchk_ok m locker skip c m' woken :
  matrix_ok (lm_matrix m) -> lm_ok m ->
  xtc_lockmgr_failchk (Some m) locker skip = (c, Some m', woken) ->
  lm_ok m' /\ lm_matrix m' = lm_matrix m.
Proof.
  intros HM Hm. unfold xtc_lockmgr_failchk.
  destruct (__locker_find m locker); [|by intros [= <- <- <-]].
  set (m1 := locker_update m locker _).
  destruct (xtc_lock_release_all (Some m1) locker skip) as [[n [m2|]] w] eqn:E; [|done].
  intros [= <- <- <-]. apply (release_all_ok m1) in E; [done|done|]. by apply locker_update_ok.
Qed.

Lemma id_free_ok m id skip c m' woken :
  matrix_ok (lm_matrix m) -> lm_ok m ->
  xtc_lockmgr_id_free (Some m) id skip = (c, Some m', woken) ->
  lm_ok m' /\ lm_matrix m' = lm_matrix m.
Proof.
  intros HM Hm. unfold xtc_lockmgr_id_free.
  destruct (xtc_lock_release_all (Some m) id skip) as [[n [m2|]] w] eqn:E; [|done].
  apply (release_all_ok m) in E as [H1 H2]; [|done|done].
  destruct (__locker_find m2 id); intros [= <- <- <-]; (split; [|done]); [|done].
  by apply (lm_ok_same m2).
Qed.

Lemma victim_ok m vid skip :
  matrix_ok (lm_matrix m) -> lm_ok m ->
  lm_ok (kill_victim m vid skip).1 /\ lm_matrix (kill_victim m vid skip).1 = lm_matrix m.
Proof.
  intros HM Hm. unfold kill_victim.
  destruct (release_all_ok m vid skip (release_objs m (concat (lm_parts m)) vid skip).2
    (release_objs m (concat (lm_parts m)) vid skip).1.1
    (release_objs m (concat (lm_parts m)) vid skip).1.2 HM Hm) as [H1 H2].
  { unfold xtc_lock_release_all. by destruct (release_objs _ _ _ _) as [[? ?] ?]. }
  destruct (release_objs _ _ _ _) as [[m1 w] n]. simpl in *. split; [|done]. by apply (lm_ok_same m1).
Qed.

Lemma lm_call_ok m m' :
  matrix_ok (lm_matrix m) -> lm_ok m -> lm_call m m' -> lm_ok m' /\ lm_matrix m' = lm_matrix m.
Proof.
  intros HM Hm Hst. destruct Hst.
  - by eapply lock_get_ok.
  - by eapply lock_put_ok.
  - by eapply lock_upgrade_ok.
  - by eapply lock_downgrade_ok.
  - by eapply release_all_ok.
  - by apply victim_ok.
  - by eapply failchk_ok.
  - destruct (locker_ops_same m) as [H1 _]. specialize (H1 _ _ _ _ _ _ H).
    split; [by apply (lm_ok_same m)|apply H1].
  - destruct (locker_ops_same m) as [_ H1]. specialize (H1 _ _ _ _ H).
    split; [by apply (lm_ok_same m)|apply H1].
  - by eapply id_free_ok.
Qed.

Lemma lm_step_ok m m' :
  matrix_ok (lm_matrix m) -> lm_ok m -> lm_step m m' -> lm_ok m' /\ lm_matrix m' = lm_matrix m.
Proof.
  intros HM Hm [? Hc|key id [locker|] fiber cancel timed_out skip c m1 woken Hr].
  - by apply lm_call_ok.
  - by eapply resume_upgrade_ok.
  - by eapply resume_get_ok.
Qed.

(** A waiter can only go wrong once its entry has left the queue: it was
    granted after it was aborted, or it is gone. *)
Definition strayed (m : xtc_lockmgr) (key : list Z) (id : positive) : Prop :=
  match obj_at m key with
  | Some o => match find_entry o id with
              | Some e => e ∈ lo_granted o /\ le_granted e = true /\ le_aborted e = true
              | None => True
              end
  | None => True
  end.

Lemma find_entry_elem o id e : find_entry o id = Some e -> le_id e = id /\ (e ∈ lo_waiting o \/ e ∈ lo_granted o).
Proof.
  unfold find_entry. intros H. assert (e ∈ filter (fun x => le_id x = id) (lo_waiting o ++ lo_granted o)) as He.
  { destruct (filter _ _) as [|x l]; [done|]. injection H as ->. left. }
  apply list_elem_of_filter in He as [-> He]. split; [done|]. by apply elem_of_app.
Qed.

Lemma resume_corrupted m key id upgrader fiber cancel timed_out skip :
  lm_ok m -> resume m key id upgrader fiber cancel timed_out skip = Corrupted -> strayed m key id.
Proof.
  intros Hm Hr. assert (resume_get m key id fiber cancel timed_out skip = Corrupted) as H.
  { destruct upgrader as [locker|]; [|done]. unfold resume, resume_upgrade in Hr.
    destruct (resume_get _ _ _ _ _ _ _) as [|[] ? ?|]; try done. by destruct (drop_upgraded _ _ _ _). }
  unfold resume_get in H. fold (obj_at m key) in H. unfold strayed. destruct (obj_at m key) as [o|] eqn:Ho; [|done].
  destruct (find_entry o id) as [e|] eqn:He; [|done]. destruct (find_entry_elem o id e He) as [_ Hin].
  destruct (ok_flags _ _ (ok_objs _ Hm _ _ Ho)) as [Hg Hw]. rewrite Forall_forall in Hg, Hw.
  destruct (wait_check fiber cancel timed_out e) as [c|] eqn:Hc; [|done]. destruct Hin as [Hin|Hin].
  - exfalso. unfold finish_wait in H. rewrite (Hw e Hin), (decide_True (P := _ \/ false = false)) in H by auto.
    replace (on_list (le_id e) (lo_waiting o)) with true in H; [done|]. symmetry. unfold on_list.
    apply bool_decide_true, list_elem_of_fmap. by exists e.
  - split_and!; [done|by apply Hg|]. unfold finish_wait in H. rewrite (Hg e Hin) in H.
    unfold wait_check in Hc. rewrite (Hg e Hin) in Hc. destruct (fiber && cancel); [simplify_eq|].
    + rewrite bool_decide_true, decide_False in H by naive_solver. by destruct (__release_entry_locked _ _ _ _).
    + destruct (le_aborted e); [done|]. by simplify_eq.
Qed.

Lemma run_step_ok m ps m' ps' :
  matrix_ok (lm_matrix m) -> lm_ok m -> run_step (Some (m, ps)) (Some (m', ps')) -> lm_ok m' /\ lm_matrix m' = lm_matrix m.
Proof.
  intros HM Hm Hst. inversion Hst; subst; [by apply lm_call_ok|done|]. apply lm_step_ok; [done|done|]. by eapply step_resume.
Qed.

(** Nothing runs after a corruption. *)
Lemma run_none s : rtc run_step None s -> s = None.
Proof. intros H. by inversion H as [|? ? ? Hst]; [|inversion Hst]. Qed.

Lemma run_ok m ps s :
  matrix_ok (lm_matrix m) -> lm_ok m -> rtc run_step (Some (m, ps)) s ->
  match s with
  | Some (m', _) => lm_ok m' /\ lm_matrix m' = lm_matrix m
  | None => exists m0 ps0 key id, rtc run_step (Some (m, ps)) (Some (m0, ps0)) /\ (key, id) ∈ ps0 /\ strayed m0 key id
  end.
Proof.
  intros HM Hm Hr. remember (Some (m, ps)) as s0 eqn:E. revert m ps HM Hm E.
  induction Hr as [|x y z Hst Hr IH]; intros m ps HM Hm ->; [done|]. destruct y as [[m1 ps1]|].
  - destruct (run_step_ok m ps m1 ps1 HM Hm Hst) as [H1 H2]. specialize (IH m1 ps1 ltac:(by rewrite H2) H1 eq_refl).
    destruct z as [[m' ps']|]; [by rewrite <-H2|]. destruct IH as (m0 & ps0 & key & id & ? & ?).
    exists m0, ps0, key, id. split; [by eapply rtc_l|done].
  - rewrite (run_none z Hr). inversion Hst; subst. exists m, ps, key, id. split_and!; [apply rtc_refl|done|]. by eapply resume_corrupted.
Qed.

Lemma lm_run_ok m m' :
  matrix_ok (lm_matrix m) -> lm_ok m -> rtc lm_step m m' -> lm_ok m' /\ lm_matrix m' = lm_matrix m.
Proof.
  intros HM Hm Hr. revert HM Hm. induction Hr as [|x y z Hst Hr IH]; intros HM Hm; [done|].
  destruct (lm_step_ok x y HM Hm Hst) as [H1 H2]. rewrite <- H2. apply IH; [by rewrite H2|done].
Qed.

(** A new manager. *)
Lemma create_ok opts a1 a2 a3 m :
  xtc_lockmgr_create opts true a1 a2 a3 = (XTC_OK, Some m) ->
  lm_ok m /\ forall key, obj_at m key = None.
Proof.
  unfold xtc_lockmgr_create. case_decide; [by intros [= -> ?]|]. case_decide; [by intros [= -> ?]|].
  case_decide; [by intros [= -> ?]|]. intros [= <-].
  set (n := if decide _ then _ else _). assert (0 < n) as Hn by (unfold n; case_decide; lia).
  set (m := mk_lockmgr _ _ _ _ _).
  assert (tab_ok m) as Ht.
  { constructor; simpl.
    - destruct (Z.to_nat n) eqn:E; [lia|done].
    - intros i p [-> _]%lookup_replicate. split; [constructor|constructor]. }
  assert (forall key, obj_at m key = None) as Hnone.
  { intros key. unfold obj_at. pose proof (part_lookup m (__hash key) Ht) as Hp. simpl in Hp.
    apply lookup_replicate in Hp as [Hp _]. simpl. by rewrite Hp. }
  split; [|done]. constructor; [done|]. intros key o. by rewrite Hnone.
Qed.

(** [e] is a lock on [key] that its locker holds. *)
Definition holds (m : xtc_lockmgr) (key : list Z) (e : lock_entry) : Prop :=
  exists o, o ∈ concat (lm_parts m) /\ lo_key o = key /\ e ∈ lo_granted o.

Lemma holds_at m key e :
  tab_ok m -> holds m key e <-> exists o, obj_at m key = Some o /\ e ∈ lo_granted o.
Proof.
  intros Hm. split.
  - intros (o & Ho & <- & He). exists o. split; [by apply table_elem|done].
  - intros (o & Ho & He). exists o. destruct (obj_at_key _ _ _ Ho) as [Hk _]. split_and!; [|done|done].
    apply table_elem; [done|]. by rewrite Hk.
Qed.

(** C1: mutual exclusion.  Start from a new manager with any conflict matrix
    that is symmetric on the modes other than WAIT, and in which what WAIT
    dominates blocks nobody (the default matrix is one), and run any sequence
    of gets, puts, upgrades, downgrades, wake-ups, timeouts, kills, victim
    aborts, release-alls and locker operations, with every memory and fault
    injection outcome.  As long as the run goes on, two different lockers never
    hold locks on the same key in conflicting modes, WAIT aside.  It goes on
    until a waiter wakes up whose entry has left its queue: it was granted
    after it had been aborted ([aborted_grant_corrupts]), or it was released
    before its owner ran.  Nothing else ends a run, and nothing is said of what
    comes after.  WAIT is left out because a holder may downgrade itself to it,
    and an X lock, which it excludes only in one direction, is then granted
    beside it ([downgraded_to_wait]). *)
Theorem lock_exclusion opts a1 a2 a3 m s :
  xtc_lockmgr_create opts true a1 a2 a3 = (XTC_OK, Some m) -> matrix_ok (lm_matrix m) ->
  rtc run_step (Some (m, [])) s ->
  match s with
  | Some (m', _) =>
      forall key e f, holds m' key e -> holds m' key f -> le_locker e <> le_locker f ->
        le_mode e <> XTC_LOCK_WAIT -> le_mode f <> XTC_LOCK_WAIT ->
        __conflicts (lm_matrix m) (le_mode e) (le_mode f) = false
  | None =>
      exists m0 ps0 key id, rtc run_step (Some (m, [])) (Some (m0, ps0)) /\ (key, id) ∈ ps0 /\ strayed m0 key id
  end.
Proof.
  intros [Hm _]%create_ok HM Hr. pose proof (run_ok m [] s HM Hm Hr) as H. destruct s as [[m' ps']|]; [|exact H].
  destruct H as [Hm' <-]. intros key e f He Hf Hne He' Hf'.
  apply holds_at in He as (o & Ho & He); [|apply Hm'].
  apply holds_at in Hf as (o' & Ho' & Hf); [|apply Hm']. simplify_eq.
  by apply (ok_excl _ _ (ok_objs _ Hm' _ _ Ho)).
Qed.

(** ** Requests *)

(** The object of [key] as the operations see it: an absent one is empty. *)
Definition view (m : xtc_lockmgr) (key : list Z) : lock_obj :=
  default (fresh_obj key) (obj_at m key).

(** The request must wait for another holder, or behind earlier waiters. *)
Definition blocked (M : matrix) (o : lock_obj) (locker mode : Z) : Prop :=
  __has_conflict_granted M o locker mode = true \/
  (__find_granted o locker = None /\ lo_waiting o <> []).

Lemma find_granted_set_mode o locker mode e :
  __find_granted o locker = Some e ->
  __find_granted (set_granted o (set_first_mode locker mode (lo_granted o))) locker =
    Some (mk_entry (le_id e) (le_locker e) mode (le_granted e) (le_aborted e)).
Proof.
  unfold __find_granted. simpl. induction (lo_granted o) as [|x l IH]; [done|].
  cbn [set_first_mode]. rewrite filter_cons. case_decide as D.
  - intros [= ->]. rewrite filter_cons. simpl. by rewrite decide_True.
  - intros H. rewrite filter_cons. rewrite decide_False by done. auto.
Qed.

(** The granted entry an immediate success leaves to the locker. *)
Definition obtained (M : matrix) (o : lock_obj) (locker mode : Z) : Prop :=
  exists e, __find_granted o locker = Some e /\ __dominates M (le_mode e) mode = true /\
    forall f, f ∈ lo_granted o -> le_locker f <> locker -> le_mode f <> XTC_LOCK_WAIT ->
      __conflicts M (le_mode f) mode = false.

Lemma held_obtained M o locker mode e :
  matrix_ok M -> obj_ok M o -> mode_ok M mode -> mode <> XTC_LOCK_WAIT ->
  __find_granted o locker = Some e -> __dominates M (le_mode e) mode = true ->
  obtained M o locker mode.
Proof.
  intros HM Ho Hmode Hw He Hd. exists e. split_and!; [done|done|].
  apply find_granted_spec in He as [He Hl].
  intros f Hf Hne Hfw. destruct Ho as [_ _ Hmodes Hx]. apply Forall_app in Hmodes as [Hmodes _].
  rewrite Forall_forall in Hmodes. pose proof (Hmodes f Hf) as Hfm. pose proof (Hmodes e He) as Hem.
  unfold mode_ok in *. destruct (decide (le_mode e = XTC_LOCK_WAIT)) as [Hcw|Hcw].
  - unfold __conflicts. rewrite decide_False by lia. rewrite Hcw in Hd. by apply (mo_wait _ HM).
  - eapply dominated_compatible; [exact Hd|lia|lia|lia|]. apply Hx; try done. by rewrite Hl.
Qed.

(** What the first half of an acquire leaves, by outcome. *)
Lemma do_acquire_cases m o locker mode timeout_ns alloc :
  matrix_ok (lm_matrix m) -> lm_ok m -> obj_at m (lo_key o) = Some o ->
  mode_ok (lm_matrix m) mode -> mode <> XTC_LOCK_WAIT ->
  (forall id, alloc = Some id -> id ∉ obj_ids o) ->
  match __do_acquire_locked m o locker mode timeout_ns alloc with
  | Returned XTC_OK m' =>
      exists o', updates m m' (lo_key o) (Some o') /\ obtained (lm_matrix m) o' locker mode
  | Returned XTC_E_AGAIN m' => blocked (lm_matrix m) o locker mode /\ timeout_ns = 0 /\ m' = m
  | Returned XTC_E_NOMEM m' => alloc = None /\ m' = m
  | Returned _ _ => False
  | Parked id m' =>
      blocked (lm_matrix m) o locker mode /\ timeout_ns <> 0 /\ alloc = Some id /\
      let e := mk_entry id locker mode false false in
      updates m m' (lo_key o)
        (Some (set_waiting o (if decide (is_Some (__find_granted o locker))
                              then e :: lo_waiting o else lo_waiting o ++ [e])))
  end.
Proof.
  intros HM Hm Ho Hmode Hnw Hid.
  assert (obj_ok (lm_matrix m) o) as Hok by (by eapply ok_objs).
  pose proof (fun o' => obj_acquire_ok (lm_matrix m) o locker mode timeout_ns alloc o' HM Hok Hmode Hid)
    as Hacq.
  pose proof (do_acquire_updates m o locker mode timeout_ns alloc (ok_tab _ Hm) Ho
    (fun o' H => proj2 (Hacq o' H))) as Hu.
  pose proof (obj_acquire_spec (lm_matrix m) o locker mode timeout_ns alloc) as Hs.
  unfold __do_acquire_locked in *.
  destruct (obj_acquire (lm_matrix m) o locker mode timeout_ns alloc) as [|o1 dw|o1| | |o1];
    cbn [acquired_obj acquire_spec_of default] in *.
  - destruct Hs as (e & He & Hd). exists o. split; [exact Hu|]. by eapply held_obtained.
  - destruct Hs as (e & He & Hd & Hnd & Hc & -> & _). eexists. split; [exact Hu|].
    eapply held_obtained; try done; [by apply Hacq|by apply find_granted_set_mode|].
    apply dominates_refl. apply Hmode.
  - destruct Hs as (Hb & id & -> & ->). eexists. split; [exact Hu|].
    eapply held_obtained; try done; [by apply Hacq| |].
    + unfold __find_granted. simpl. rewrite filter_cons, decide_True by done. done.
    + apply dominates_refl. apply Hmode.
  - by destruct Hs as [Hb Ht].
  - by destruct Hs as [Hb Ht].
  - destruct Hs as (Hb & Ht & id & -> & ->). split_and!; done.
Qed.

(** The value of [xtc_lock_get] once its arguments are valid. *)
Lemma lock_get_valid m locker key mode timeout_ns ook alloc :
  key <> [] -> XTC_LOCK_NL < mode < mx_n (lm_matrix m) -> mode <> XTC_LOCK_WAIT ->
  xtc_lock_get (Some m) locker (Some key) mode timeout_ns ook alloc =
    match __obj_get m key (__hash key) ook with
    | (None, m1) => Some (Returned XTC_E_NOMEM m1)
    | (Some o, m1) => Some (__do_acquire_locked m1 o locker mode timeout_ns alloc)
    end.
Proof.
  intros Hk Hmode Hw. unfold xtc_lock_get. rewrite !decide_False by (done || lia). done.
Qed.

(** What a lock request does.  On a manager in a reachable state a valid
    request touches only its own object and ends in one of four ways.  OK:
    the locker's newest lock on the key is at least as strong as the mode
    asked for, and no other holder conflicts with that mode.  XTC_E_AGAIN:
    the request had to wait and its timeout is 0; nothing changed.  No
    memory.  Parked: it had to wait, and its entry is queued, first if the
    locker already holds the object, last otherwise, with the holders
    untouched.  A request that does not have to wait never parks. *)
Theorem lock_get_spec m locker key mode timeout_ns ook alloc :
  matrix_ok (lm_matrix m) -> lm_ok m -> alloc_fresh m alloc ->
  key <> [] -> XTC_LOCK_NL < mode < mx_n (lm_matrix m) -> mode <> XTC_LOCK_WAIT ->
  exists r, xtc_lock_get (Some m) locker (Some key) mode timeout_ns ook alloc = Some r /\
  (forall k, k <> key -> obj_at (outcome_mgr r) k = obj_at m k) /\
  match r with
  | Returned XTC_OK m' => obtained (lm_matrix m) (view m' key) locker mode
  | Returned XTC_E_AGAIN m' =>
      blocked (lm_matrix m) (view m key) locker mode /\ timeout_ns = 0 /\ view m' key = view m key
  | Returned XTC_E_NOMEM m' =>
      (alloc = None \/ (ook = false /\ obj_at m key = None)) /\ view m' key = view m key
  | Returned _ _ => False
  | Parked id m' =>
      blocked (lm_matrix m) (view m key) locker mode /\ timeout_ns <> 0 /\ alloc = Some id /\
      let e := mk_entry id locker mode false false in
      view m' key =
        set_waiting (view m key)
          (if decide (is_Some (__find_granted (view m key) locker))
           then e :: lo_waiting (view m key) else lo_waiting (view m key) ++ [e])
  end.
Proof.
  intros HM Hm Hfr Hk Hmode Hw. rewrite lock_get_valid by done.
  pose proof (obj_get_updates m key ook (ok_tab _ Hm)) as Hg.
  destruct (__obj_get m key (__hash key) ook) as [[o|] m1] eqn:E; (eexists; split; [done|]).
  - destruct Hg as [Eo Hu]. destruct (obj_get_ok m Hm key ook o m1 E) as (Hm1 & Ho & EM & Hids).
    assert (lo_key o = key) as Hko by (by eapply obj_at_key). fold (view m key) in Eo.
    assert (forall id, alloc = Some id -> id ∉ obj_ids o) as Hid.
    { intros id Hid. rewrite Hids. destruct (obj_at m key) as [o0|] eqn:Ho0; simpl;
        [by eapply Hfr|apply not_elem_of_nil]. }
    assert (mode_ok (lm_matrix m1) mode) as Hmok.
    { rewrite EM. unfold mode_ok, XTC_LOCK_NL in *. lia. }
    rewrite <- EM in HM. subst key.
    pose proof (do_acquire_cases m1 o locker mode timeout_ns alloc HM Hm1 Ho Hmok Hw Hid) as Hc.
    assert (forall k, k <> lo_key o -> obj_at m1 k = obj_at m k) as Hother.
    { intros k Hne. destruct Hu as (_ & _ & Hu). by rewrite Hu, decide_False. }
    assert (view m1 (lo_key o) = o) as Hv by (unfold view; by rewrite Ho).
    assert (forall m' o', updates m1 m' (lo_key o) (Some o') ->
      (forall k, k <> lo_key o -> obj_at m' k = obj_at m k) /\ view m' (lo_key o) = o') as Hfin.
    { intros m' o' (_ & _ & Hu'). split.
      - intros k Hne. rewrite Hu', decide_False by done. by apply Hother.
      - unfold view. by rewrite Hu', decide_True. }
    rewrite EM in Hc. rewrite <- Eo.
    destruct (__do_acquire_locked m1 o locker mode timeout_ns alloc) as [c m'|id m']; simpl.
    + destruct c; try done.
      * destruct Hc as (o' & Hu' & Hob). destruct (Hfin _ _ Hu') as [H1 H2].
        split; [done|]. by rewrite H2.
      * destruct Hc as (-> & ->). split_and!; [done|by left|done].
      * destruct Hc as (Hb & -> & ->). split_and!; done.
    + destruct Hc as (Hb & Ht & Ha & Hu'). destruct (Hfin _ _ Hu') as [H1 H2]. split_and!; done.
  - destruct Hg as [-> ->]. split; [done|]. split; [|done]. right.
    unfold __obj_get in E. fold (obj_at m key) in E. by destruct (obj_at m key).
Qed.

(** ** Promotion *)

(** The head waiter, if any, conflicts with another locker's lock. *)
Definition head_blocked (M : matrix) (o : lock_obj) : Prop :=
  match lo_waiting o with
  | [] => True
  | w :: _ => __has_conflict_granted M o (le_locker w) (le_mode w) = true
  end.

(** [o'] is [o] with its first [k] waiters granted, newest first. *)
Definition promotes (o : lock_obj) (k : nat) (o' : lock_obj) : Prop :=
  o' = mk_obj (lo_key o) (lo_hash o) (reverse (grant <$> take k (lo_waiting o)) ++ lo_granted o)
         (drop k (lo_waiting o)).

Definition no_faults : positive -> bool := fun _ => false.

Lemma promote_prefix M o todo :
  exists k, promotes (set_waiting o todo) k (promote M no_faults o [] todo).1 /\
    (promote M no_faults o [] todo).2 = le_id <$> take k todo /\
    head_blocked M (promote M no_faults o [] todo).1.
Proof.
  revert o. induction todo as [|w todo IH]; intros o; cbn [promote].
  { exists 0%nat. done. }
  destruct (__has_conflict_granted M o (le_locker w) (le_mode w)) eqn:Hc.
  { exists 0%nat. simpl. split_and!; [done|done|]. unfold head_blocked. simpl. done. }
  cbn [no_faults andb]. destruct (IH (set_granted o (grant w :: lo_granted o))) as (k & Hp & Hw & Hb).
  destruct (promote M no_faults _ [] todo) as [o' woken]. simpl in *.
  exists (S k). split_and!; [|by rewrite Hw|done].
  unfold promotes in *. rewrite Hp. simpl. f_equal.
  rewrite reverse_cons, <- app_assoc. done.
Qed.

Lemma promote_waiters_prefix M o :
  exists k, promotes o k (promote_waiters M no_faults o).1 /\
    (promote_waiters M no_faults o).2 = le_id <$> take k (lo_waiting o) /\
    head_blocked M (promote_waiters M no_faults o).1.
Proof.
  destruct (promote_prefix M o (lo_waiting o)) as (k & H1 & H2 & H3). exists k. split_and!; [|done|done].
  destruct o. done.
Qed.

Lemma head_blocked_promote M skip o :
  head_blocked M o -> promote_waiters M skip o = (o, []).
Proof.
  unfold head_blocked, promote_waiters. destruct o as [key h g [|w ws]]; simpl; [done|].
  by intros ->.
Qed.

Lemma view_updates m m' key ob :
  updates m m' key ob ->
  view m' key = default (fresh_obj key) ob /\ forall k, k <> key -> view m' k = view m k.
Proof.
  intros (_ & _ & Hu). unfold view. split; [by rewrite Hu, decide_True|].
  intros k Hk. by rewrite Hu, decide_False.
Qed.

Lemma view_kept key o :
  lo_key o = key -> lo_hash o = __hash key -> default (fresh_obj key) (kept_obj o) = o.
Proof.
  unfold kept_obj, obj_empty. destruct o as [k h [|g gs] [|w ws]]; simpl; try done.
  intros -> ->. done.
Qed.

Lemma released_view m m1 key o e skip :
  tab_ok m -> same_table m m1 -> obj_at m key = Some o ->
  view (__release_entry_locked m1 o e skip).1 key = released (lm_matrix m) skip o e /\
  forall k, k <> key -> view (__release_entry_locked m1 o e skip).1 k = view m k.
Proof.
  intros Hm Hs Ho. destruct (obj_at_key _ _ _ Ho) as [Hk Hh].
  destruct (view_updates _ _ _ _ (release_entry_updates m m1 key o e skip Hm Hs ltac:(by eexists) Hk Hh))
    as [-> Hv]. split; [|done].
  destruct (released_key (lm_matrix m) skip o e) as [E1 E2]. by rewrite view_kept; rewrite ?E1, ?E2.
Qed.

Lemma remove_id_notin id l : id ∉ (le_id <$> l) -> remove_id id l = l.
Proof.
  induction l as [|x l IH]; [done|]. rewrite fmap_cons, not_elem_of_cons. intros [Hx Hl].
  unfold remove_id. rewrite filter_cons, decide_True by done. f_equal. by apply IH.
Qed.

Lemma remove_id_Permutation e l :
  NoDup (le_id <$> l) -> e ∈ l -> l ≡ₚ e :: remove_id (le_id e) l.
Proof.
  induction l as [|x l IH]; intros Hnd He; [by apply elem_of_nil in He|].
  rewrite fmap_cons, NoDup_cons in Hnd. destruct Hnd as [Hx Hnd].
  unfold remove_id. rewrite filter_cons. apply elem_of_cons in He as [->|He].
  - rewrite decide_False by (by intros []). by fold (remove_id (le_id x) l); rewrite remove_id_notin.
  - rewrite decide_True.
    + rewrite (IH Hnd He) at 1. apply Permutation_swap.
    + intros E. apply Hx. rewrite E. apply list_elem_of_fmap. eauto.
Qed.

Lemma granted_ids M o : obj_ok M o -> NoDup (le_id <$> lo_granted o).
Proof. intros Ho. pose proof (ok_ids _ _ Ho) as H. unfold obj_ids in H. rewrite fmap_app in H. by apply NoDup_app in H as [H _]. Qed.

(** What a release does.  [xtc_lock_put] drops exactly the locker's newest
    lock on the key, then grants, in queue order, the longest prefix of the
    waiting queue such that every waiter of it is compatible with the
    holders at its turn, wakes exactly those waiters, and leaves at the
    head of the queue, if anyone, a waiter some other holder blocks: no
    grantable waiter is left asleep at the head.  Without such a lock it
    refuses and changes nothing. *)
Theorem lock_put_spec m locker key :
  matrix_ok (lm_matrix m) -> lm_ok m -> key <> [] ->
  match __find_granted (view m key) locker with
  | Some e =>
      exists m' k,
        let o1 := set_granted (view m key) (remove_id (le_id e) (lo_granted (view m key))) in
        xtc_lock_put (Some m) locker (Some key) no_faults =
          (XTC_OK, Some m', le_id <$> take k (lo_waiting o1)) /\
        lo_granted (view m key) ≡ₚ e :: lo_granted o1 /\
        promotes o1 k (view m' key) /\ head_blocked (lm_matrix m) (view m' key) /\
        (forall k', k' <> key -> view m' k' = view m k')
  | None => xtc_lock_put (Some m) locker (Some key) no_faults = (XTC_E_INVAL, Some m, [])
  end.
Proof.
  intros HM Hm Hk. unfold xtc_lock_put. rewrite decide_False by done. fold (obj_at m key).
  unfold view. destruct (obj_at m key) as [o|] eqn:Ho; simpl; [|done].
  destruct (__find_granted o locker) as [e|] eqn:He; [|done].
  assert (obj_ok (lm_matrix m) o) as Hok by (by eapply ok_objs).
  apply find_granted_spec in He as [He _].
  assert (le_granted e = true) as Hg.
  { destruct (ok_flags _ _ Hok) as [Hf _]. rewrite Forall_forall in Hf. auto. }
  destruct (released_view m m key o e no_faults (ok_tab _ Hm) ltac:(done) Ho) as [Hv1 Hv2].
  unfold released, unlink_entry in Hv1. rewrite Hg in Hv1.
  set (o1 := set_granted o (remove_id (le_id e) (lo_granted o))) in *.
  destruct (promote_waiters_prefix (lm_matrix m) o1) as (k & Hp & Hw & Hb).
  assert ((__release_entry_locked m o e no_faults).2 = (promote_waiters (lm_matrix m) no_faults o1).2) as Hw'.
  { unfold __release_entry_locked. rewrite Hg. fold o1. by destruct (promote_waiters _ _ o1). }
  destruct (__release_entry_locked m o e no_faults) as [m' woken]. simpl in *.
  exists m', k. fold (view m' key). rewrite Hv1. split_and!; [by rewrite Hw', Hw| |done|done|].
  - apply remove_id_Permutation; [by eapply granted_ids|done].
  - intros k' Hk'. by apply Hv2.
Qed.

(** ** Undoing the gets of a vector *)

(** What a successful get that did not wait changed. *)
Inductive got (M : matrix) (locker : Z) (o : lock_obj) : lock_obj -> Prop :=
  | got_held : is_Some (__find_granted o locker) -> got M locker o o
  | got_raised e mode :
      __find_granted o locker = Some e -> __dominates M mode (le_mode e) = true ->
      mode <> le_mode e -> 
      got M locker o (set_granted o (set_first_mode locker mode (lo_granted o)))
  | got_new e :
      le_locker e = locker -> le_granted e = true -> le_id e ∉ obj_ids o ->
      got M locker o (set_granted o (e :: lo_granted o)).

(** Same matrix, same holders and waiters everywhere. *)
Definition view_eq (m m' : xtc_lockmgr) : Prop :=
  lm_matrix m = lm_matrix m' /\ forall key, view m key = view m' key.

#[global] Instance view_eq_equivalence : Equivalence view_eq.
Proof.
  split.
  - by intros m.
  - intros m m' [H1 H2]. by split.
  - intros m1 m2 m3 [H1 H2] [H3 H4]. split; [congruence|]. intros key. by rewrite H2.
Qed.

Lemma view_obj_ok m key : lm_ok m -> obj_ok (lm_matrix m) (view m key).
Proof.
  intros Hm. unfold view. destruct (obj_at m key) as [o|] eqn:E; simpl; [by eapply ok_objs|].
  apply fresh_obj_ok.
Qed.

Lemma view_key m key : lo_key (view m key) = key /\ lo_hash (view m key) = __hash key.
Proof. unfold view. destruct (obj_at m key) eqn:E; [by apply (obj_at_key m)|done]. Qed.

(** An object somebody holds exists. *)
Lemma view_granted m key e : e ∈ lo_granted (view m key) -> obj_at m key = Some (view m key).
Proof.
  unfold view. destruct (obj_at m key); [done|]. simpl. intros H. by apply elem_of_nil in H.
Qed.

Lemma do_acquire_now m o locker mode alloc :
  matrix_ok (lm_matrix m) -> lm_ok m -> obj_at m (lo_key o) = Some o ->
  mode_ok (lm_matrix m) mode -> (forall id, alloc = Some id -> id ∉ obj_ids o) ->
  exists c m' o', __do_acquire_locked m o locker mode 0 alloc = Returned c m' /\
    updates m m' (lo_key o) (Some o') /\ obj_ok (lm_matrix m) o' /\
    (if decide (c = XTC_OK) then got (lm_matrix m) locker o o' else o' = o) /\
    (forall id, id ∈ obj_ids o' -> id ∈ obj_ids o \/ alloc = Some id).
Proof.
  intros HM Hm Ho Hmode Hid.
  assert (obj_ok (lm_matrix m) o) as Hok by (by eapply ok_objs).
  pose proof (fun o' => obj_acquire_ok (lm_matrix m) o locker mode 0 alloc o' HM Hok Hmode Hid) as Hacq.
  pose proof (do_acquire_updates m o locker mode 0 alloc (ok_tab _ Hm) Ho
    (fun o' H => proj2 (Hacq o' H))) as Hu.
  pose proof (obj_acquire_spec (lm_matrix m) o locker mode 0 alloc) as Hs.
  unfold __do_acquire_locked in *.
  destruct (obj_acquire (lm_matrix m) o locker mode 0 alloc) as [|o1 dw|o1| | |o1];
    cbn [acquired_obj acquire_spec_of default] in *.
  - destruct Hs as (e & He & Hd). eexists _, _, o. split_and!; [done|exact Hu|done| |auto].
    rewrite decide_True by done. constructor. by eexists.
  - destruct Hs as (e & He & Hd & Hnd & Hc & -> & _). eexists _, _, _.
    split_and!; [done|exact Hu|by apply Hacq| |].
    + rewrite decide_True by done. apply (got_raised _ _ _ e); [done|done|].
      intros ->. by rewrite dominates_refl in Hnd by apply Hmode.
    + intros id. unfold obj_ids. simpl. rewrite !fmap_app, set_first_mode_ids. auto.
  - destruct Hs as (Hb & id & -> & ->). eexists _, _, _.
    split_and!; [done|exact Hu|by apply Hacq| |].
    + rewrite decide_True by done. constructor; simpl; auto.
    + intros id'. unfold obj_ids. simpl. intros [->|?]%elem_of_cons; auto.
  - eexists _, _, o. split_and!; [done|exact Hu|done|by rewrite decide_False|auto].
  - eexists _, _, o. split_and!; [done|exact Hu|done|by rewrite decide_False|auto].
  - by destruct Hs as (_ & ? & _).
Qed.

Lemma lock_get_now m locker key mode ook alloc :
  matrix_ok (lm_matrix m) -> lm_ok m -> alloc_fresh m alloc ->
  key <> [] -> XTC_LOCK_NL < mode < mx_n (lm_matrix m) -> mode <> XTC_LOCK_WAIT ->
  exists c m', xtc_lock_get (Some m) locker (Some key) mode 0 ook alloc = Some (Returned c m') /\
    lm_ok m' /\ lm_matrix m' = lm_matrix m /\ (forall k, k <> key -> view m' k = view m k) /\
    (if decide (c = XTC_OK) then got (lm_matrix m) locker (view m key) (view m' key)
     else view m' key = view m key) /\
    (forall k id, id ∈ obj_ids (view m' k) -> id ∈ obj_ids (view m k) \/ alloc = Some id).
Proof.
  intros HM Hm Hfr Hk Hmode Hw. rewrite lock_get_valid by done.
  pose proof (obj_get_updates m key ook (ok_tab _ Hm)) as Hg.
  destruct (__obj_get m key (__hash key) ook) as [[o|] m1] eqn:E.
  - destruct Hg as [Eo Hu]. fold (view m key) in Eo.
    destruct (obj_get_ok m Hm key ook o m1 E) as (Hm1 & Ho & EM & Hids).
    assert (lo_key o = key) as Hko by (by eapply obj_at_key). subst key.
    assert (forall id, alloc = Some id -> id ∉ obj_ids o) as Hid.
    { intros id Hid. rewrite Hids. destruct (obj_at m (lo_key o)) as [o0|] eqn:Ho0; simpl;
        [by eapply Hfr|apply not_elem_of_nil]. }
    assert (mode_ok (lm_matrix m1) mode) as Hmok.
    { rewrite EM. unfold mode_ok, XTC_LOCK_NL in *. lia. }
    assert (matrix_ok (lm_matrix m1)) as HM1 by (by rewrite EM).
    destruct (do_acquire_now m1 o locker mode alloc HM1 Hm1 Ho Hmok Hid)
      as (c & m' & o' & Ha & Hu' & Hok' & Hgot & Hids').
    exists c, m'. rewrite Ha, <- Eo. pose proof (updates_trans _ _ _ _ _ _ Hu Hu') as Hu2.
    destruct (view_updates _ _ _ _ Hu2) as [Hv Hv']. rewrite Hv. simpl.
    assert (lm_ok m') as Hm'.
    { eapply updates_ok; [exact Hm1|exact Hu'|]. by intros ? [= <-]. }
    split_and!; [done|done| |done| |].
    + by destruct Hu2 as (-> & _).
    + rewrite EM in Hgot. done.
    + intros k id. destruct (decide (k = lo_key o)) as [->|Hne].
      * rewrite Hv, <- Eo. apply Hids'.
      * rewrite Hv' by done. auto.
  - destruct Hg as [-> ->]. exists XTC_E_NOMEM, m. split_and!; try done. auto.
Qed.

(** Who holds what, as [__held_snapshot] counts it. *)
Definition snapshot (o : lock_obj) (locker : Z) : Z * Z :=
  let held := filter (fun e => le_locker e = locker) (lo_granted o) in
  (Z.of_nat (length held), match head held with Some e => le_mode e | None => XTC_LOCK_NL end).

Lemma held_snapshot_view m locker key :
  __held_snapshot m locker key = snapshot (view m key) locker.
Proof.
  unfold __held_snapshot, snapshot, view. fold (obj_at m key). by destruct (obj_at m key).
Qed.

Lemma set_first_mode_filter locker mode l e :
  head (filter (fun e => le_locker e = locker) l) = Some e ->
  exists l', filter (fun e => le_locker e = locker) l = e :: l' /\
    filter (fun e => le_locker e = locker) (set_first_mode locker mode l) =
      mk_entry (le_id e) (le_locker e) mode (le_granted e) (le_aborted e) :: l' /\
    set_first_mode locker (le_mode e) (set_first_mode locker mode l) = l.
Proof.
  induction l as [|x l IH]; [done|]. cbn [set_first_mode]. rewrite filter_cons. case_decide as D.
  - intros [= ->]. eexists. split_and!; [done| |].
    + rewrite filter_cons. simpl. by rewrite decide_True.
    + cbn [set_first_mode]. simpl. rewrite decide_True by done. by destruct e.
  - intros H. destruct (IH H) as (l' & H1 & H2 & H3). exists l'. split_and!; [done| |].
    + by rewrite filter_cons, decide_False.
    + cbn [set_first_mode]. by rewrite decide_False, H3.
Qed.

(** Undo one get: the object is back as it was. *)
Definition undo_one (env : vec_env) (m : xtc_lockmgr) (locker : Z) (key : list Z) (n0 mode0 : Z)
  : xtc_lockmgr :=
  let '(n_now, mode_now) := __held_snapshot m locker key in
  if decide (n0 < n_now)
  then default m (xtc_lock_put (Some m) locker (Some key) (ve_skip env)).1.2
  else if decide (0 < n_now /\ mode_now <> mode0)
  then default m (xtc_lock_downgrade (Some m) locker (Some key) mode0).1.2
  else m.

Lemma rollback_cons env m locker key n0 mode0 undo :
  vec_rollback env m locker ((key, (n0, mode0)) :: undo) =
  vec_rollback env (undo_one env m locker key n0 mode0) locker undo.
Proof. unfold undo_one. simpl. by destruct (__held_snapshot m locker key). Qed.

Lemma put_newest_view m locker key skip e o :
  matrix_ok (lm_matrix m) -> lm_ok m -> key <> [] ->
  view m key = set_granted o (e :: lo_granted o) -> le_locker e = locker -> le_granted e = true ->
  le_id e ∉ obj_ids o -> head_blocked (lm_matrix m) o ->
  exists m' w, xtc_lock_put (Some m) locker (Some key) skip = (XTC_OK, Some m', w) /\
    view m' key = o /\ forall k, k <> key -> view m' k = view m k.
Proof.
  intros HM Hm Hk Hv Hl Hg Hfr Hb.
  assert (obj_at m key = Some (set_granted o (e :: lo_granted o))) as Ho.
  { rewrite <- Hv. apply (view_granted m key e). rewrite Hv. left. }
  unfold xtc_lock_put. rewrite decide_False by done. fold (obj_at m key). rewrite Ho.
  assert (__find_granted (set_granted o (e :: lo_granted o)) locker = Some e) as ->.
  { unfold __find_granted. simpl. by rewrite filter_cons, decide_True. }
  destruct (released_view m m key _ e skip (ok_tab _ Hm) ltac:(done) Ho) as [H1 H2].
  destruct (__release_entry_locked m (set_granted o (e :: lo_granted o)) e skip) as [m' w].
  exists m', w. split_and!; [done| |done]. simpl in H1. rewrite H1.
  unfold released, unlink_entry. rewrite Hg. simpl.
  assert (set_granted (set_granted o (e :: lo_granted o)) (remove_id (le_id e) (e :: lo_granted o)) = o) as ->.
  { unfold remove_id. rewrite filter_cons, decide_False by (by intros []).
    fold (remove_id (le_id e) (lo_granted o)). rewrite remove_id_notin; [by destruct o|].
    intros Hin. apply Hfr. unfold obj_ids. rewrite fmap_app. apply elem_of_app. by left. }
  by rewrite head_blocked_promote.
Qed.

Lemma downgrade_back_view m locker key e mode o :
  matrix_ok (lm_matrix m) -> lm_ok m -> key <> [] -> obj_ok (lm_matrix m) o ->
  view m key = set_granted o (set_first_mode locker mode (lo_granted o)) ->
  __find_granted o locker = Some e -> __dominates (lm_matrix m) mode (le_mode e) = true ->
  head_blocked (lm_matrix m) o ->
  exists m' w, xtc_lock_downgrade (Some m) locker (Some key) (le_mode e) = (XTC_OK, Some m', w) /\
    view m' key = o /\ forall k, k <> key -> view m' k = view m k.
Proof.
  intros HM Hm Hk Hok Hv He Hd Hb.
  pose proof (find_granted_set_mode o locker mode e He) as Hf.
  destruct (find_granted_spec _ _ _ Hf) as [Hin Hlk]. simpl in Hin.
  assert (obj_at m key = Some (view m key)) as Ho by (rewrite Hv; rewrite <- Hv at 1; by eapply view_granted; rewrite Hv).
  rewrite Hv in Ho. destruct (obj_at_key _ _ _ Ho) as [Hkey Hhash]. simpl in Hkey, Hhash.
  destruct (find_granted_spec _ _ _ He) as [Hin0 Hl].
  assert (mode_ok (lm_matrix m) (le_mode e)) as Hmok.
  { destruct Hok as [_ _ Hmodes _]. apply Forall_app in Hmodes as [Hmodes _].
    rewrite Forall_forall in Hmodes. auto. }
  unfold xtc_lock_downgrade. rewrite decide_False by done.
  rewrite decide_False by (unfold mode_ok, XTC_LOCK_NL in *; lia).
  unfold lookup_held. fold (obj_at m key). rewrite Ho, Hf. simpl. rewrite Hd.
  destruct (set_first_mode_filter locker mode (lo_granted o) e He) as (l' & _ & _ & Hback).
  rewrite Hback.
  assert (set_granted (set_granted o (set_first_mode locker mode (lo_granted o))) (lo_granted o) = o) as ->
    by (by destruct o).
  rewrite head_blocked_promote by done.
  eexists _, _. split; [done|].
  match goal with |- view ?m' key = o /\ _ => assert (updates m m' key (Some o)) as Hu end.
  { apply store_same_updates; [apply Hm|done|by eexists|done|done]. }
  by destruct (view_updates _ _ _ _ Hu) as [-> H2].
Qed.

Lemma undo_one_spec env m locker key o :
  matrix_ok (lm_matrix m) -> lm_ok m -> key <> [] ->
  obj_ok (lm_matrix m) o -> head_blocked (lm_matrix m) o -> got (lm_matrix m) locker o (view m key) ->
  let m' := undo_one env m locker key (snapshot o locker).1 (snapshot o locker).2 in
  lm_ok m' /\ lm_matrix m' = lm_matrix m /\ view m' key = o /\ forall k, k <> key -> view m' k = view m k.
Proof.
  intros HM Hm Hk Hok Hb Hgot m'. unfold m', undo_one. rewrite held_snapshot_view. unfold snapshot. simpl.
  inversion Hgot as [[e He] Heq|e mode He Hd Hne Heq|e Hl Hg Hid Heq].
  - rewrite decide_False by lia. rewrite decide_False by (intros [_ []]; done). done.
  - simpl. unfold __find_granted in He.
    destruct (set_first_mode_filter locker mode (lo_granted o) e He) as (l' & H1 & H2 & H3).
    rewrite H1, H2. simpl. rewrite decide_False by lia. rewrite decide_True by (split; [lia|done]).
    destruct (downgrade_back_view m locker key e mode o HM Hm Hk Hok (eq_sym Heq) He Hd Hb)
      as (m2 & w & E & Hv1 & Hv2). rewrite E. simpl.
    destruct (lock_downgrade_ok m HM Hm _ _ _ _ _ _ E) as [? ?]. done.
  - simpl. assert (filter (fun e => le_locker e = locker) (e :: lo_granted o) =
      e :: filter (fun e => le_locker e = locker) (lo_granted o)) as -> by (by rewrite filter_cons, decide_True).
    simpl. rewrite decide_True by lia.
    destruct (put_newest_view m locker key (ve_skip env) e o HM Hm Hk (eq_sym Heq) Hl Hg Hid Hb)
      as (m2 & w & E & Hv1 & Hv2). rewrite E. simpl.
    destruct (lock_put_ok m HM Hm _ _ _ _ _ _ E) as [? ?]. done.
Qed.

Lemma set_first_mode_keeps locker mode l e f :
  head (filter (fun e => le_locker e = locker) l) = Some e -> f ∈ l ->
  f ∈ set_first_mode locker mode l \/
  (f = e /\ mk_entry (le_id e) (le_locker e) mode (le_granted e) (le_aborted e)
              ∈ set_first_mode locker mode l).
Proof.
  induction l as [|x l IH]; [done|]. cbn [set_first_mode]. rewrite filter_cons.
  case_decide as D.
  - intros [= ->] [->|Hf]%elem_of_cons; [right; split; [done|left]|left; by right].
  - intros He [->|Hf]%elem_of_cons; [left; left|]. destruct (IH He Hf) as [?|[? ?]].
    + left. by right.
    + right. split; [done|by right].
Qed.

(** A get never unblocks anybody. *)
Lemma got_blocked M locker o o' :
  obj_ok M o -> got M locker o o' -> head_blocked M o -> head_blocked M o'.
Proof.
  unfold head_blocked. intros Ho Hgot.
  assert (lo_waiting o' = lo_waiting o) as -> by (by destruct Hgot).
  destruct (lo_waiting o) as [|w ws] eqn:Ew; [done|].
  assert (mode_ok M (le_mode w)) as Hw.
  { pose proof (obj_ok_waiting _ _ Ho) as H. rewrite Ew in H. apply Forall_cons in H as [[_ H] _]. done. }
  rewrite <- !not_false_iff_true, !no_conflict_spec. intros Hn Hc. apply Hn. clear Hn.
  intros f Hf Hne. destruct Hgot as [_|e mode He Hd Hdiff|e Hl Hg Hid].
  - by apply Hc.
  - simpl in Hc. destruct (set_first_mode_keeps locker mode _ e f He Hf) as [Hin|[-> Hin]]; [by apply Hc|].
    specialize (Hc _ Hin Hne). simpl in Hc. apply dominates_spec in Hd as (Hd1 & Hd2 & Hd).
    unfold __conflicts in *. unfold mode_ok in Hw. rewrite decide_False in Hc by lia. rewrite decide_False by lia.
    destruct (Hd (le_mode w) Hw) as [Hd' _]. destruct (mx_at M (le_mode e) (le_mode w)); [|done].
    rewrite Hd' in Hc; done.
  - apply Hc; [by right|done].
Qed.

(** Every queue's head is blocked: no promotion is pending. *)
Definition quiet (m : xtc_lockmgr) : Prop := forall key, head_blocked (lm_matrix m) (view m key).

Definition allocs_fresh (m : xtc_lockmgr) (allocs : list positive) : Prop :=
  NoDup allocs /\ forall id key, id ∈ allocs -> id ∉ obj_ids (view m key).

Definition get_now (r : xtc_lock_req) : Prop := rq_op r = OP_GET /\ rq_timeout r = 0.

Lemma get_now_valid M r :
  get_now r -> req_valid M r = true ->
  exists key, rq_obj r = Some key /\ key <> [] /\ XTC_LOCK_NL < rq_mode r < mx_n M /\
    rq_mode r <> XTC_LOCK_WAIT.
Proof.
  intros [Hop _]. unfold req_valid. rewrite Hop. destruct (rq_obj r) as [key|]; [|done].
  intros [H1 H2]%andb_true_iff. apply negb_true_iff, bool_decide_eq_false in H1, H2.
  exists key. split_and!; try done; lia.
Qed.

Section VecRollback.
Context (env : vec_env) (locker : Z) (m0 : xtc_lockmgr).

(** Undoing [undo] from any manager that looks like [m] gives [m0]. *)
Definition undoes (m : xtc_lockmgr) (undo : undo_log) : Prop :=
  forall m', lm_ok m' -> view_eq m' m -> view_eq (vec_rollback env m' locker undo) m0.

Lemma undoes_get m m1 key undo :
  matrix_ok (lm_matrix m) -> lm_ok m -> quiet m -> key <> [] ->
  lm_matrix m1 = lm_matrix m -> (forall k, k <> key -> view m1 k = view m k) ->
  got (lm_matrix m) locker (view m key) (view m1 key) ->
  undoes m undo -> undoes m1 ((key, __held_snapshot m locker key) :: undo).
Proof.
  intros HM Hm Hq Hk EM Hoth Hgot Hun m' Hm' [EM' Hv]. rewrite held_snapshot_view.
  rewrite (surjective_pairing (snapshot _ _)), rollback_cons.
  assert (lm_matrix m' = lm_matrix m) as EM2 by congruence.
  destruct (undo_one_spec env m' locker key (view m key)) as (H1 & H2 & H3 & H4);
    rewrite ?EM2, ?Hv; try done; [by apply view_obj_ok|].
  apply Hun; [done|]. split; [congruence|]. intros k. destruct (decide (k = key)) as [->|Hne]; [done|].
  rewrite H4, Hv, Hoth by done. done.
Qed.

Lemma quiet_got m m1 key :
  lm_ok m -> quiet m -> lm_matrix m1 = lm_matrix m -> (forall k, k <> key -> view m1 k = view m k) ->
  got (lm_matrix m) locker (view m key) (view m1 key) -> quiet m1.
Proof.
  intros Hm Hq EM Hoth Hgot k. rewrite EM. destruct (decide (k = key)) as [->|Hne].
  - eapply got_blocked; [by apply view_obj_ok|done|apply Hq].
  - rewrite Hoth by done. apply Hq.
Qed.

Lemma vec_exec_undoes reqs m allocs undo keep executed c m1 undo1 keep1 ex1 :
  matrix_ok (lm_matrix m) -> lm_ok m -> quiet m -> allocs_fresh m allocs ->
  Forall (fun r => get_now r /\ req_valid (lm_matrix m) r = true) reqs ->
  undoes m undo ->
  vec_exec env m locker reqs allocs undo keep executed = (c, m1, undo1, keep1, ex1) ->
  c <> XTC_OK -> lm_ok m1 /\ undoes m1 undo1 /\ keep1 = keep.
Proof.
  revert m allocs undo executed.
  induction reqs as [|r reqs IH]; intros m allocs undo executed HM Hm Hq Hal Hreqs Hun.
  { by intros [= <- <- <- <- <-]. }
  apply Forall_cons in Hreqs as [[Hget Hval] Hreqs].
  destruct (get_now_valid _ _ Hget Hval) as (key & Hobj & Hk & Hmode & Hw). destruct Hget as [Hop Ht].
  cbn [vec_exec]. unfold vec_op. rewrite Hop, Hobj, Ht.
  assert (alloc_fresh m (head allocs)) as Hfr.
  { intros id k o Hid Ho Hin. apply head_Some_elem_of in Hid. destruct Hal as [_ Hal].
    apply (Hal id k Hid). unfold view. by rewrite Ho. }
  destruct (lock_get_now m locker key (rq_mode r) (ve_obj env) (head allocs) HM Hm Hfr Hk Hmode Hw)
    as (c' & m' & -> & Hm' & EM & Hoth & Hgot & Hids). cbn [settle].
  case_decide as Hc.
  - subst c'. rewrite decide_True by done. cbn [default]. apply IH; try done.
    + by rewrite EM.
    + exact (quiet_got m m' key Hm Hq EM Hoth Hgot).
    + destruct Hal as [Hnd Hal]. split; [destruct allocs; [done|by apply NoDup_cons in Hnd as [_ ?]]|].
      intros id k Hid Hin. destruct allocs as [|a allocs]; [by apply elem_of_nil in Hid|].
      simpl in *. apply NoDup_cons in Hnd as [Ha _].
      destruct (Hids k id Hin) as [Hin'|[= ->]]; [|done]. by apply (Hal id k); [right|].
    + by rewrite EM.
    + exact (undoes_get m m' key undo HM Hm Hq Hk EM Hoth Hgot Hun).
  - assert (view_eq m' m) as Hve.
    { split; [done|]. intros k. destruct (decide (k = key)) as [->|]; auto. }
    assert (undoes m' undo) as Hun'.
    { intros m2 Hm2 Hv2. apply Hun; [done|]. by transitivity m'. }
    destruct c'; try done; intros [= <- <- <- <- <-] _; done.
Qed.
End VecRollback.

(** C35: a vector of gets is all or nothing.  For a vector of get requests
    that do not wait (timeout 0), on a manager with no promotion pending:
    if [xtc_lock_vec] fails, whatever request failed and for whatever
    reason, every object has the holders and waiters it had before the
    call, entry for entry, and 0 requests are reported as executed. *)
Theorem lock_vec_all_or_none m locker reqs calloc env c m' ex :
  matrix_ok (lm_matrix m) -> lm_ok m -> quiet m -> allocs_fresh m (ve_alloc env) ->
  Forall get_now reqs ->
  xtc_lock_vec (Some m) locker (Some reqs) calloc env = (c, Some m', ex) -> c <> XTC_OK ->
  view_eq m' m /\ (ex = Some 0%nat \/ reqs = []).
Proof.
  intros HM Hm Hq Hal Hget. unfold xtc_lock_vec. case_decide as Hnil; [intros [= <- <- <-] _; split; [done|by right]|].
  destruct (forallb (req_valid (lm_matrix m)) reqs) eqn:Hv;
    [|intros [= <- <- <-] _; split; [done|by left]].
  destruct calloc; [|intros [= <- <- <-] _; split; [done|by left]].
  destruct (vec_exec env m locker reqs (ve_alloc env) [] 0 0) as [[[[c1 m1] undo] keep] ex1] eqn:E.
  case_decide as Hc; [by intros [= <- <- <-]|]. intros [= <- <- <-] _.
  destruct (vec_exec_undoes env locker m reqs m (ve_alloc env) [] 0 0 c1 m1 undo keep ex1)
    as (Hm1 & Hun & ->); try done.
  - rewrite List.forallb_forall in Hv. rewrite Forall_forall in *. intros r Hr. split; [auto|].
    apply Hv. by apply list_elem_of_In.
  - by intros m2 _ Hv2.
  - split; [|by left]. by apply Hun.
Qed.

(** ** Releasing everything a locker holds *)

Lemma promote_elems M skip o kept todo :
  let o' := (promote M skip o kept todo).1 in
  (forall e, e ∈ lo_granted o' -> e ∈ lo_granted o \/ exists w, w ∈ todo /\ e = grant w) /\
  (forall e, e ∈ lo_granted o -> e ∈ lo_granted o') /\
  (forall e, e ∈ lo_waiting o' -> e ∈ kept ++ todo).
Proof.
  revert o kept. induction todo as [|w todo IH]; intros o kept; cbn [promote].
  { simpl. rewrite app_nil_r. auto. }
  case_match; [simpl; auto|]. case_match.
  - destruct (IH o (kept ++ [w])) as (H1 & H2 & H3). split_and!.
    + intros e He. destruct (H1 e He) as [?|(x & ? & ?)]; [by left|]. right. exists x. split; [by right|done].
    + done.
    + intros e He. specialize (H3 e He). by rewrite <- app_assoc in H3.
  - destruct (IH (set_granted o (grant w :: lo_granted o)) kept) as (H1 & H2 & H3).
    destruct (promote M skip _ kept todo) as [o' woken]. simpl in *. split_and!.
    + intros e He. destruct (H1 e He) as [[->|?]%elem_of_cons|(x & ? & ?)].
      * right. exists w. split; [left|done].
      * by left.
      * right. exists x. split; [by right|done].
    + intros e He. apply H2. by right.
    + intros e He. specialize (H3 e He). rewrite !elem_of_app, ?elem_of_cons in *. naive_solver.
Qed.

Lemma released_elems M skip o e :
  le_granted e = true ->
  (forall f, f ∈ lo_granted (released M skip o e) ->
     (f ∈ lo_granted o /\ le_id f <> le_id e) \/ exists w, w ∈ lo_waiting o /\ f = grant w) /\
  (forall f, f ∈ lo_granted o -> le_id f <> le_id e -> f ∈ lo_granted (released M skip o e)) /\
  (forall f, f ∈ lo_waiting (released M skip o e) -> f ∈ lo_waiting o).
Proof.
  intros Hg. unfold released, promote_waiters, unlink_entry. rewrite Hg.
  set (o1 := set_granted o _).
  destruct (promote_elems M skip o1 [] (lo_waiting o1)) as (H1 & H2 & H3). split_and!.
  - intros f Hf. destruct (H1 f Hf) as [[Hn Hin]%list_elem_of_filter|?]; auto.
  - intros f Hf Hn. apply H2. simpl. by apply list_elem_of_filter.
  - intros f Hf. by specialize (H3 f Hf).
Qed.

Definition idle_locker (locker : Z) (o : lock_obj) : Prop :=
  forall w, w ∈ lo_waiting o -> le_locker w <> locker.

Definition count_held (locker : Z) (l : list lock_entry) : Z :=
  Z.of_nat (length (filter (fun e => le_locker e = locker) l)).

Lemma release_each_all m key todo locker skip :
  matrix_ok (lm_matrix m) -> lm_ok m -> idle_locker locker (view m key) ->
  NoDup (le_id <$> todo) ->
  (forall e, e ∈ lo_granted (view m key) -> le_locker e = locker -> e ∈ todo) ->
  (forall e, e ∈ todo -> le_locker e = locker -> e ∈ lo_granted (view m key)) ->
  (forall e, e ∈ lo_granted (view (release_each m key (__hash key) todo locker skip).1.1 key) ->
     le_locker e <> locker) /\
  (release_each m key (__hash key) todo locker skip).2 = count_held locker todo.
Proof.
  revert m. induction todo as [|e todo IH]; intros m HM Hm Hidle Hnd Hsub Hsup; cbn [release_each].
  { split; [|done]. intros e He Hl. specialize (Hsub e He Hl). by apply elem_of_nil in Hsub. }
  rewrite fmap_cons, NoDup_cons in Hnd. destruct Hnd as [Hnew Hnd].
  assert (forall f, f ∈ todo -> le_id f <> le_id e) as Hne.
  { intros f Hf E. apply Hnew. rewrite <- E. apply list_elem_of_fmap. eauto. }
  unfold count_held. rewrite filter_cons. case_decide as D.
  - assert (e ∈ lo_granted (view m key)) as He by (apply Hsup; [left|done]).
    pose proof (view_granted m key e He) as Ho. fold (obj_at m key). rewrite Ho.
    destruct (release_entry_mgr m HM Hm (view m key) e skip key Ho) as [Hm1 EM].
    destruct (released_view m m key (view m key) e skip (ok_tab _ Hm) ltac:(done) Ho) as [Hv _].
    assert (le_granted e = true) as Hg.
    { pose proof (view_obj_ok m key Hm) as [_ [Hf _] _ _]. rewrite Forall_forall in Hf. auto. }
    destruct (released_elems (lm_matrix m) skip (view m key) e Hg) as (R1 & R2 & R3).
    destruct (__release_entry_locked m (view m key) e skip) as [m1 w1]. simpl in *.
    destruct (IH m1) as [I1 I2].
    + by rewrite EM.
    + done.
    + intros w Hw. rewrite Hv in Hw. auto.
    + done.
    + intros f Hf Hl. rewrite Hv in Hf. destruct (R1 f Hf) as [[Hf' Hid]|(w & Hw & ->)].
      * specialize (Hsub f Hf' Hl). apply elem_of_cons in Hsub as [->|?]; done.
      * exfalso. by apply (Hidle w).
    + intros f Hf Hl. rewrite Hv. apply R2; [|by apply Hne]. apply Hsup; [by right|done].
    + destruct (release_each m1 key (__hash key) todo locker skip) as [[m2 w2] n]. simpl in *.
      split; [done|]. rewrite I2. unfold count_held. lia.
  - apply IH; try done.
    + intros f Hf Hl. specialize (Hsub f Hf Hl). apply elem_of_cons in Hsub as [->|?]; done.
    + intros f Hf Hl. apply Hsup; [by right|done].
Qed.

Lemma release_obj_all m o locker skip :
  matrix_ok (lm_matrix m) -> lm_ok m -> obj_at m (lo_key o) = Some o -> idle_locker locker o ->
  (forall e, e ∈ lo_granted (view (release_obj m o locker skip).1.1 (lo_key o)) ->
     le_locker e <> locker) /\
  (release_obj m o locker skip).2 = count_held locker (lo_granted o).
Proof.
  intros HM Hm Ho Hidle. unfold release_obj. destruct (obj_at_key _ _ _ Ho) as [_ Hh].
  assert (abort_waiters locker o = o) as Hab.
  { unfold abort_waiters. destruct o as [k h g w]. unfold set_waiting. simpl. f_equal.
    rewrite <- (list_fmap_id w) at 2. apply list_fmap_ext. intros i e He. simpl.
    rewrite decide_False; [done|]. apply Hidle. simpl. by eapply list_elem_of_lookup_2. }
  rewrite Hab, Hh. set (m1 := store_obj m o).
  assert (updates m m1 (lo_key o) (Some o)) as Hu.
  { by apply (store_same_updates m m); [apply Hm| |eexists| |]. }
  assert (obj_ok (lm_matrix m) o) as Hok by (by eapply ok_objs).
  assert (lm_ok m1) as Hm1 by (eapply updates_ok; [done|done|]; by intros ? [= <-]).
  destruct (view_updates _ _ _ _ Hu) as [Hv _]. simpl in Hv.
  assert (lm_matrix m1 = lm_matrix m) as EM by apply Hu.
  destruct (release_each_all m1 (lo_key o) (lo_granted o) locker skip) as [H1 H2];
    rewrite ?EM, ?Hv; try done; [by eapply granted_ids|].
  destruct (release_each m1 (lo_key o) (__hash (lo_key o)) (lo_granted o) locker skip) as [[m2 w] n].
  done.
Qed.

Lemma release_objs_all m os locker skip :
  matrix_ok (lm_matrix m) -> lm_ok m -> NoDup (lo_key <$> os) ->
  Forall (fun o => obj_at m (lo_key o) = Some o) os -> Forall (idle_locker locker) os ->
  (forall o e, o ∈ os -> e ∈ lo_granted (view (release_objs m os locker skip).1.1 (lo_key o)) ->
     le_locker e <> locker) /\
  (release_objs m os locker skip).2 = count_held locker (concat (lo_granted <$> os)).
Proof.
  revert m. induction os as [|o os IH]; intros m HM Hm Hnd Hos Hidle.
  { split; [|done]. intros o e Ho. by apply elem_of_nil in Ho. }
  rewrite fmap_cons, NoDup_cons in Hnd. destruct Hnd as [Hnew Hnd].
  apply Forall_cons in Hos as [Ho Hos]. apply Forall_cons in Hidle as [Hi Hidle].
  cbn [release_objs].
  destruct (release_obj_ok m o locker skip HM Hm Ho) as (H1 & H2 & H3).
  destruct (release_obj_all m o locker skip HM Hm Ho Hi) as [H4 H5].
  destruct (release_obj m o locker skip) as [[m1 w1] n1]. cbn [fst snd] in *.
  assert (Forall (fun o' => obj_at m1 (lo_key o') = Some o') os) as Hos1.
  { rewrite Forall_forall in *. intros o' Ho'. rewrite H3; [by apply Hos|].
    intros E. apply Hnew. rewrite <- E. apply list_elem_of_fmap. eauto. }
  destruct (IH m1 ltac:(by rewrite H2) H1 Hnd Hos1 Hidle) as (I1 & I2).
  destruct (release_objs_ok m1 os locker skip ltac:(by rewrite H2) H1 Hnd Hos1) as (_ & _ & I3).
  destruct (release_objs m1 os locker skip) as [[m2 w2] n2]. cbn [fst snd] in *. split.
  - intros o' e [->|Ho']%elem_of_cons; [|by apply I1].
    unfold view. rewrite I3 by done. apply H4.
  - rewrite H5, I2, fmap_cons. cbn [concat]. unfold count_held. rewrite filter_app, length_app. lia.
Qed.

(** Release-all (also the failchk and the locker-free path) releases what
    it says: for a locker with no request waiting, [xtc_lock_release_all]
    returns the number of locks the locker held over the whole table, and
    afterwards the locker holds nothing. *)
Theorem release_all_spec m locker skip :
  matrix_ok (lm_matrix m) -> lm_ok m ->
  (forall o, o ∈ concat (lm_parts m) -> idle_locker locker o) ->
  exists m' woken,
    xtc_lock_release_all (Some m) locker skip =
      (count_held locker (concat (lo_granted <$> concat (lm_parts m))), Some m', woken) /\
    forall key e, holds m' key e -> le_locker e <> locker.
Proof.
  intros HM Hm Hidle. unfold xtc_lock_release_all.
  pose proof (table_NoDup m (ok_tab _ Hm)) as Hnd. pose proof (table_objs m (ok_tab _ Hm)) as Hos.
  destruct (release_objs_ok m (concat (lm_parts m)) locker skip HM Hm Hnd Hos) as (H1 & _ & H3).
  destruct (release_objs_all m (concat (lm_parts m)) locker skip HM Hm Hnd Hos) as [H4 H5].
  { by rewrite Forall_forall. }
  destruct (release_objs m (concat (lm_parts m)) locker skip) as [[m1 w] n]. simpl in *. subst n.
  exists m1, w. split; [done|]. intros key e (o & Ho & He)%holds_at; [|apply H1].
  destruct (obj_at m key) as [o0|] eqn:E0.
  - destruct (obj_at_key _ _ _ E0) as [Hk _]. apply (H4 o0).
    + apply table_elem; [apply Hm|]. by rewrite Hk.
    + rewrite Hk. unfold view. by rewrite Ho.
  - exfalso. rewrite H3 in Ho; [congruence|]. intros (o1 & -> & Ho1)%list_elem_of_fmap.
    apply table_elem in Ho1; [congruence|apply Hm].
Qed.

(** ** Runs that go wrong *)

(** A one-partition manager with the default modes, a key, and the fresh
    states of two lockers that both hold it in shared mode. *)
Definition demo_new : xtc_lockmgr :=
  match xtc_lockmgr_create (Some (mk_lm_opts 1 None 0)) true XTC_OK XTC_OK XTC_OK with
  | (_, Some m) => m
  | _ => mk_lockmgr default_matrix [] [] 0 (mk_stats 0 0 0 0 0 0 0 0)
  end.

Definition demo_key : list Z := [42].

Definition demo_get (m : xtc_lockmgr) (locker mode : Z) (id : positive) : xtc_lockmgr :=
  match xtc_lock_get (Some m) locker (Some demo_key) mode (-1) true (Some id) with
  | Some r => outcome_mgr r
  | None => m
  end.

Definition demo_upgrade (m : xtc_lockmgr) (locker mode : Z) (id : positive) : xtc_lockmgr :=
  match xtc_lock_upgrade (Some m) locker (Some demo_key) mode 0 (Some id) no_faults with
  | Some r => outcome_mgr r
  | None => m
  end.

Definition demo_shared : xtc_lockmgr := demo_get (demo_get demo_new 1 XTC_LOCK_S 1) 2 XTC_LOCK_S 2.

Definition demo_resume (m : xtc_lockmgr) (id : positive) : xtc_lockmgr :=
  match resume_get m demo_key id true false false no_faults with
  | Resumed _ m' _ => m'
  | _ => m
  end.

(** Freshness of an address is decided by looking at the table. *)
Definition fresh_id_b (m : xtc_lockmgr) (id : positive) : bool :=
  forallb (fun o => negb (bool_decide (id ∈ obj_ids o))) (concat (lm_parts m)).

Lemma fresh_id_check m id : tab_ok m -> fresh_id_b m id = true -> alloc_fresh m (Some id).
Proof.
  intros Hm Hf id' key o [= <-] Ho. unfold fresh_id_b in Hf. rewrite List.forallb_forall in Hf.
  destruct (obj_at_key _ _ _ Ho) as [Hk _]. specialize (Hf o). rewrite <- list_elem_of_In in Hf.
  rewrite table_elem, Hk in Hf by done. specialize (Hf Ho).
  by apply negb_true_iff, bool_decide_eq_false in Hf.
Qed.

Lemma demo_new_ok : lm_ok demo_new /\ lm_matrix demo_new = default_matrix.
Proof.
  split; [|reflexivity].
  exact (proj1 (create_ok (Some (mk_lm_opts 1 None 0)) XTC_OK XTC_OK XTC_OK demo_new eq_refl)).
Qed.

(** Runs of the demonstration manager. *)
Definition demo_run (m : xtc_lockmgr) : Prop := rtc lm_step demo_new m.

Lemma demo_run_ok m : demo_run m -> lm_ok m.
Proof.
  intros Hr. destruct demo_new_ok as [Hok HM].
  apply (lm_run_ok demo_new m); [rewrite HM; apply default_matrix_ok|done|done].
Qed.

Lemma demo_run_step m m' : demo_run m -> lm_step m m' -> demo_run m'.
Proof. intros. by eapply rtc_r. Qed.

Lemma demo_run_get m locker mode id :
  demo_run m -> fresh_id_b m id = true -> demo_run (demo_get m locker mode id).
Proof.
  intros Hr Hf. unfold demo_get.
  destruct (xtc_lock_get (Some m) locker (Some demo_key) mode (-1) true (Some id)) as [r|] eqn:E; [|done].
  eapply demo_run_step; [done|]. eapply step_call, step_get; [|exact E].
  apply fresh_id_check; [|done]. apply demo_run_ok in Hr. apply Hr.
Qed.

Lemma demo_run_upgrade m locker mode id :
  demo_run m -> fresh_id_b m id = true -> demo_run (demo_upgrade m locker mode id).
Proof.
  intros Hr Hf. unfold demo_upgrade.
  destruct (xtc_lock_upgrade _ _ _ _ _ _ _) as [r|] eqn:E; [|done].
  eapply demo_run_step; [done|]. eapply step_call, step_upgrade; [|exact E].
  apply fresh_id_check; [|done]. apply demo_run_ok in Hr. apply Hr.
Qed.

Lemma demo_run_resume m id : demo_run m -> demo_run (demo_resume m id).
Proof.
  intros Hr. unfold demo_resume. destruct (resume_get _ _ _ _ _ _ _) eqn:E; try done.
  eapply demo_run_step; [done|]. by eapply (step_resume _ _ _ None).
Qed.

Lemma demo_run_victim m vid : demo_run m -> demo_run (kill_victim m vid no_faults).1.
Proof. intros Hr. eapply demo_run_step; [done|]. apply step_call. constructor. Qed.

Definition demo_put (m : xtc_lockmgr) (locker : Z) : xtc_lockmgr :=
  default m (xtc_lock_put (Some m) locker (Some demo_key) no_faults).1.2.

Lemma demo_run_put m locker : demo_run m -> demo_run (demo_put m locker).
Proof.
  intros Hr. unfold demo_put.
  destruct (xtc_lock_put (Some m) locker (Some demo_key) no_faults) as [[c [m'|]] w] eqn:E; [|done].
  eapply demo_run_step; [done|]. by eapply step_call, step_put.
Qed.

Lemma demo_shared_run : demo_run demo_shared.
Proof. repeat apply demo_run_get; [constructor|vm_compute; reflexivity|vm_compute; reflexivity]. Qed.

(** Locker 1 waits to upgrade and is made the victim; before it runs, locker
    2 releases. *)
Definition demo_aborted_grant : xtc_lockmgr :=
  demo_put (kill_victim (demo_upgrade demo_shared 1 XTC_LOCK_X 3) 1 no_faults).1 2.

(** An aborted waiter can be granted before it runs, and then it takes
    itself off the wrong chain.  Two lockers hold the key shared, locker 1
    waits to upgrade, the detector aborts it, and before it runs locker 2's
    release grants its entry.  That entry is now on the granted chain with
    its aborted flag set, and whenever its owner wakes, fiber or thread, it
    ends with XTC_E_DEADLK and unlinks the entry from the waiting queue it
    is no longer on. *)
Theorem aborted_grant_corrupts :
  demo_run demo_aborted_grant /\
  lo_granted (view demo_aborted_grant demo_key) = [mk_entry 3 1 XTC_LOCK_X true true] /\
  lo_waiting (view demo_aborted_grant demo_key) = [] /\
  forall fiber timed_out skip,
    resume_get demo_aborted_grant demo_key 3 fiber false timed_out skip = Corrupted.
Proof.
  split_and!; [|vm_compute; reflexivity|vm_compute; reflexivity|].
  - apply demo_run_put, demo_run_victim, demo_run_upgrade; [apply demo_shared_run|].
    vm_compute. reflexivity.
  - intros [] [] skip; vm_compute; reflexivity.
Qed.

Lemma tracked_get m ps locker mode id :
  demo_run m -> fresh_id_b m id = true -> rtc run_step (Some (demo_new, [])) (Some (m, ps)) ->
  exists ps', rtc run_step (Some (demo_new, [])) (Some (demo_get m locker mode id, ps')).
Proof.
  intros Hr Hf Hps. unfold demo_get. destruct (xtc_lock_get _ _ _ _ _ _ _) as [r|] eqn:E; [|by eauto].
  eexists. eapply rtc_r; [exact Hps|]. eapply rs_call, step_get; [|exact E]. apply fresh_id_check; [|done]. apply demo_run_ok in Hr. apply Hr.
Qed.

Lemma demo_shared_tracked : exists ps, rtc run_step (Some (demo_new, [])) (Some (demo_shared, ps)).
Proof.
  destruct (tracked_get demo_new [] 1 XTC_LOCK_S 1) as [ps Hps]; [apply rtc_refl|vm_compute; reflexivity|apply rtc_refl|].
  eapply tracked_get; [|vm_compute; reflexivity|exact Hps]. apply demo_run_get; [apply rtc_refl|vm_compute; reflexivity].
Qed.

(** A run that ends so: locker 1 parks for its upgrade, is made the victim,
    is granted by locker 2's release, and wakes up. *)
Example aborted_grant_run : rtc run_step (Some (demo_new, [])) None.
Proof.
  destruct demo_shared_tracked as [ps Hps]. etransitivity; [exact Hps|].
  eapply rtc_l; [eapply rs_call, (step_upgrade _ 1 (Some demo_key) XTC_LOCK_X 0 (Some 3%positive) no_faults); [|vm_compute; reflexivity]|].
  { apply fresh_id_check; [apply demo_run_ok, demo_shared_run|vm_compute; reflexivity]. }
  eapply rtc_l; [apply rs_call, (step_victim _ 1 no_faults)|]. eapply rtc_l; [eapply rs_call, (step_put _ 2 (Some demo_key) no_faults); vm_compute; reflexivity|].
  apply rtc_once, (rs_corrupt _ _ demo_key 3 (Some 1) true false false no_faults); [|vm_compute; reflexivity].
  rewrite !elem_of_app. left. left. right. vm_compute. left.
Qed.

(** A holder of X downgrades itself to WAIT, and another gets X beside it: WAIT
    blocks nobody, while a held X excludes a request for WAIT. *)
Example downgraded_to_wait :
  let m1 := default demo_new (xtc_lock_downgrade (Some (demo_get demo_new 1 XTC_LOCK_X 1)) 1 (Some demo_key) XTC_LOCK_WAIT).1.2 in
  lo_granted (view (demo_get m1 2 XTC_LOCK_X 2) demo_key) =
    [mk_entry 2 2 XTC_LOCK_X true false; mk_entry 1 1 XTC_LOCK_WAIT true false] /\
  __conflicts default_matrix XTC_LOCK_X XTC_LOCK_WAIT = true /\ __conflicts default_matrix XTC_LOCK_WAIT XTC_LOCK_X = false.
Proof. vm_compute. done. Qed.

(** Lockers 1 and 2 both wait to upgrade; 2, at the head, is made the victim
    and runs. *)
Definition demo_lost_grant : xtc_lockmgr :=
  demo_resume (kill_victim (demo_upgrade (demo_upgrade demo_shared 1 XTC_LOCK_X 3) 2 XTC_LOCK_X 4)
                 2 no_faults).1 4.

(** A waiter that leaves the queue does not let the next one in.  Two
    lockers hold the key shared and both wait to upgrade; the detector
    aborts the one at the head, which leaves the queue with XTC_E_DEADLK.
    Now locker 1 is the only holder and the only waiter, nothing conflicts
    with its request, nobody else holds or waits for anything, and still it
    stays parked: its grant was only ever tried when the victim's shared
    lock was released, while the victim's own entry stood before it. *)
Theorem removed_waiter_strands_next :
  demo_run demo_lost_grant /\
  concat (lm_parts demo_lost_grant) =
    [mk_obj demo_key (__hash demo_key) [mk_entry 1 1 XTC_LOCK_S true false]
       [mk_entry 3 1 XTC_LOCK_X false false]] /\
  __has_conflict_granted default_matrix (view demo_lost_grant demo_key) 1 XTC_LOCK_X = false /\
  forall fiber skip, resume_get demo_lost_grant demo_key 3 fiber false false skip = StillParked.
Proof.
  split_and!; [|vm_compute; reflexivity|vm_compute; reflexivity|].
  - apply demo_run_resume, demo_run_victim, demo_run_upgrade; [|vm_compute; reflexivity].
    apply demo_run_upgrade; [apply demo_shared_run|vm_compute; reflexivity].
  - intros [] skip; vm_compute; reflexivity.
Qed.

(** The fault injector's reordering can leave everybody asleep.  Holder 9
    keeps an IS lock; 1, 2 and 3 wait for S, X and S.  The injector defers
    waiter 1 because waiter 3 could be promoted in its place, but the loop
    stops at waiter 2, which conflicts: nobody is promoted although two of
    the waiters could be; without the injector waiter 1 is. *)
Theorem skip_head_promotes_nobody :
  let w i mode := mk_entry i (Zpos i) mode false false in
  let o := mk_obj demo_key (__hash demo_key) [mk_entry 9 9 XTC_LOCK_IS true false]
             [w 1%positive XTC_LOCK_S; w 2%positive XTC_LOCK_X; w 3%positive XTC_LOCK_S] in
  promote_waiters default_matrix (fun i => bool_decide (i = 1%positive)) o = (o, []) /\
  (promote_waiters default_matrix no_faults o).2 = [1%positive].
Proof. split; vm_compute; reflexivity. Qed.

(** ** Instances *)

Lemma quiet_check m :
  tab_ok m -> forallb (fun o => negb (__has_waiters o)) (concat (lm_parts m)) = true -> quiet m.
Proof.
  intros Hm H key. unfold view. destruct (obj_at m key) as [o|] eqn:Ho; [|done]. simpl.
  destruct (obj_at_key _ _ _ Ho) as [Hk _]. rewrite List.forallb_forall in H. specialize (H o).
  rewrite <- list_elem_of_In, table_elem, Hk in H by done. specialize (H Ho).
  unfold head_blocked, __has_waiters in *. by destruct (lo_waiting o).
Qed.

Lemma allocs_fresh_check m l :
  tab_ok m -> NoDup l -> forallb (fresh_id_b m) l = true -> allocs_fresh m l.
Proof.
  intros Hm Hnd H. split; [done|]. intros id key Hid. unfold view.
  destruct (obj_at m key) as [o|] eqn:Ho; simpl; [|apply not_elem_of_nil].
  rewrite List.forallb_forall in H. specialize (H id). rewrite <- list_elem_of_In in H.
  by apply (fresh_id_check m id Hm (H Hid) id key o).
Qed.

Lemma demo_shared_ok : lm_ok demo_shared /\ matrix_ok (lm_matrix demo_shared).
Proof.
  split; [apply demo_run_ok, demo_shared_run|].
  assert (lm_matrix demo_shared = default_matrix) as -> by (vm_compute; reflexivity).
  apply default_matrix_ok.
Qed.

Lemma lock_exclusion_witness :
  holds demo_shared demo_key (mk_entry 1 1 XTC_LOCK_S true false) /\
  holds demo_shared demo_key (mk_entry 2 2 XTC_LOCK_S true false) /\
  __conflicts default_matrix XTC_LOCK_S XTC_LOCK_S = false.
Proof.
  assert (forall e, e ∈ lo_granted (view demo_shared demo_key) -> holds demo_shared demo_key e) as Hh.
  { intros e He. exists (view demo_shared demo_key). split_and!; [|reflexivity|done].
    assert (concat (lm_parts demo_shared) = [view demo_shared demo_key]) as -> by (vm_compute; reflexivity).
    left. }
  assert (lo_granted (view demo_shared demo_key) =
    [mk_entry 2 2 XTC_LOCK_S true false; mk_entry 1 1 XTC_LOCK_S true false]) as Eg
    by (vm_compute; reflexivity).
  assert (holds demo_shared demo_key (mk_entry 1 1 XTC_LOCK_S true false)) as H1
    by (apply Hh; rewrite Eg; right; left).
  assert (holds demo_shared demo_key (mk_entry 2 2 XTC_LOCK_S true false)) as H2
    by (apply Hh; rewrite Eg; left).
  split_and!; [exact H1|exact H2|].
  destruct demo_shared_tracked as [ps Hps].
  apply (lock_exclusion (Some (mk_lm_opts 1 None 0)) XTC_OK XTC_OK XTC_OK demo_new (Some (demo_shared, ps))
           eq_refl default_matrix_ok Hps demo_key _ _ H1 H2); simpl; discriminate.
Defined.

Lemma lock_get_spec_witness :
  exists r, xtc_lock_get (Some demo_shared) 3 (Some demo_key) XTC_LOCK_X 5 true (Some 7%positive) = Some r /\
    exists m', r = Parked 7 m'.
Proof.
  destruct demo_shared_ok as [Hok HM].
  assert (alloc_fresh demo_shared (Some 7%positive)) as Hf
    by (apply fresh_id_check; [apply Hok|vm_compute; reflexivity]).
  destruct (lock_get_spec demo_shared 3 demo_key XTC_LOCK_X 5 true (Some 7%positive) HM Hok Hf
    ltac:(discriminate) ltac:(vm_compute; split; reflexivity) ltac:(discriminate))
    as (r & Hr & _ & _).
  exists r. split; [exact Hr|]. revert Hr. vm_compute. intros [= <-]. eexists. reflexivity.
Defined.

Lemma lock_put_spec_witness :
  __find_granted (view demo_shared demo_key) 1 = Some (mk_entry 1 1 XTC_LOCK_S true false) /\
  exists m', xtc_lock_put (Some demo_shared) 1 (Some demo_key) no_faults = (XTC_OK, Some m', []).
Proof.
  split; [vm_compute; reflexivity|]. destruct demo_shared_ok as [Hok HM].
  pose proof (lock_put_spec demo_shared 1 demo_key HM Hok ltac:(discriminate)) as H.
  assert (__find_granted (view demo_shared demo_key) 1 = Some (mk_entry 1 1 XTC_LOCK_S true false)) as E
    by (vm_compute; reflexivity).
  rewrite E in H. destruct H as (m' & k & Hp & _). exists m'. rewrite Hp.
  assert (lo_waiting (view demo_shared demo_key) = []) as Ew by (vm_compute; reflexivity).
  cbn [lo_waiting set_granted]. by rewrite Ew, take_nil.
Defined.

Definition demo_env : vec_env :=
  mk_vec_env true [7%positive; 8%positive] 0 no_faults (fun m _ => (XTC_E_AGAIN, m)).

Definition demo_reqs : list xtc_lock_req :=
  [mk_req OP_GET XTC_LOCK_S (Some [7]) 0; mk_req OP_GET XTC_LOCK_X (Some demo_key) 0].

Lemma lock_vec_all_or_none_witness :
  exists m', xtc_lock_vec (Some demo_shared) 3 (Some demo_reqs) true demo_env =
    (XTC_E_AGAIN, Some m', Some 0%nat) /\ view_eq m' demo_shared.
Proof.
  destruct demo_shared_ok as [Hok HM].
  set (r := xtc_lock_vec (Some demo_shared) 3 (Some demo_reqs) true demo_env).
  assert (r = (XTC_E_AGAIN, Some (default demo_shared r.1.2), Some 0%nat)) as Er
    by (vm_compute; reflexivity).
  exists (default demo_shared r.1.2). split; [exact Er|].
  refine (proj1 (lock_vec_all_or_none demo_shared 3 demo_reqs true demo_env XTC_E_AGAIN _ (Some 0%nat)
    HM Hok _ _ _ Er _)).
  - apply quiet_check; [apply Hok|vm_compute; reflexivity].
  - apply allocs_fresh_check; [apply Hok| |vm_compute; reflexivity].
    apply (bool_decide_eq_true_1 (NoDup [7%positive; 8%positive])). vm_compute. reflexivity.
  - repeat constructor.
  - discriminate.
Defined.

Lemma release_all_spec_witness :
  exists m' woken, xtc_lock_release_all (Some demo_shared) 2 no_faults = (1, Some m', woken) /\
    forall key e, holds m' key e -> le_locker e <> 2.
Proof.
  destruct demo_shared_ok as [Hok HM].
  destruct (release_all_spec demo_shared 2 no_faults HM Hok) as (m' & woken & E & H).
  - intros o Ho. assert (concat (lm_parts demo_shared) = [view demo_shared demo_key]) as Ec
      by (vm_compute; reflexivity). rewrite Ec, list_elem_of_singleton in Ho. subst o.
    intros w Hw. assert (lo_waiting (view demo_shared demo_key) = []) as Ew by (vm_compute; reflexivity).
    rewrite Ew in Hw. apply elem_of_nil in Hw. destruct Hw.
  - exists m', woken. split; [|exact H]. rewrite E.
    assert (count_held 2 (concat (lo_granted <$> concat (lm_parts demo_shared))) = 1) as Ec
      by (vm_compute; reflexivity). rewrite Ec. reflexivity.
Defined.
