(* ===== verification/Deadlock.v ===== *)
(** * The deadlock detector (src/ptc/lock_mgr.c, xtc_lockmgr_check_deadlocks)

    The detector copies the waits-for relation of the lock table into a
    graph, looks for a cycle by depth-first search, kills one locker on the
    search's path, drops the victim's edges and searches again until no
    cycle is left.  Array indices that may be -1 are [option nat]. *)

From S2P Require Import Prelude LockMgr.

Local Open Scope Z_scope.

(** ** The graph *)

Definition MAX_LOCKERS : nat := 4096.

Record dd_node := mk_node {
  dn_id : Z;
  dn_ctime : Z;
  dn_deadline : Z;
  dn_n_held : Z;
  dn_n_write_held : Z;
  dn_expired : bool;
  dn_out_first : option nat;
}.

Record dd_edge := mk_edge { de_next : option nat; de_to : nat }.

(** The arrays up to [n_nodes] and [n_edges]. *)
Record dd_state := mk_dd { dd_nodes : list dd_node; dd_edges : list dd_edge }.

Definition dd_empty : dd_state := mk_dd [] [].

(** The first node of locker [id]. *)
Fixpoint node_find (id : Z) (l : list dd_node) : option nat :=
  match l with
  | [] => None
  | n :: l' => if decide (dn_id n = id) then Some 0%nat else S <$> node_find id l'
  end.

Definition __dd_node_idx (st : dd_state) (id : Z) (lr : option locker_rec) (now : Z)
  : option nat * dd_state :=
  match node_find id (dd_nodes st) with
  | Some i => (Some i, st)
  | None =>
      if decide (MAX_LOCKERS <= length (dd_nodes st))%nat then (None, st)
      else
        let n := match lr with
                 | Some r => mk_node id (lr_ctime r) (lr_deadline r) (lr_n_held r) (lr_n_write_held r)
                               (bool_decide (0 < lr_deadline r /\ lr_deadline r < now)) None
                 | None => mk_node id 0 (-1) 0 0 false None
                 end in
        (Some (length (dd_nodes st)), mk_dd (dd_nodes st ++ [n]) (dd_edges st))
  end.

(** The targets on the edge chain from [i]; a chain's links point to earlier
    edges, so [n_edges] turns reach its end. *)
Fixpoint chain (fuel : nat) (es : list dd_edge) (i : option nat) : list nat :=
  match fuel, i with
  | S fuel', Some i =>
      match es !! i with
      | Some e => de_to e :: chain fuel' es (de_next e)
      | None => []
      end
  | _, _ => []
  end.

Definition out_first (st : dd_state) (u : nat) : option nat := dd_nodes st !! u ≫= dn_out_first.

Definition out_edges (st : dd_state) (u : nat) : list nat :=
  chain (length (dd_edges st)) (dd_edges st) (out_first st u).

Definition set_out_first (i : option nat) (n : dd_node) : dd_node :=
  mk_node (dn_id n) (dn_ctime n) (dn_deadline n) (dn_n_held n) (dn_n_write_held n) (dn_expired n) i.

Definition __dd_add_edge (st : dd_state) (from to : option nat) : dd_state :=
  match from, to with
  | Some from, Some to =>
      if decide (MAX_LOCKERS * 8 <= length (dd_edges st))%nat then st
      else if decide (to ∈ out_edges st from) then st
      else mk_dd (alter (set_out_first (Some (length (dd_edges st)))) from (dd_nodes st))
             (dd_edges st ++ [mk_edge (out_first st from) to])
  | _, _ => st
  end.

(** One holder seen from one waiter. *)
Definition add_holder (m : xtc_lockmgr) (now : Z) (w : lock_entry) (from : option nat)
    (st : dd_state) (g : lock_entry) : dd_state :=
  if decide (le_locker g = le_locker w) then st
  else if __conflicts (lm_matrix m) (le_mode g) (le_mode w) then
    let '(to, st1) := __dd_node_idx st (le_locker g) (__locker_find m (le_locker g)) now in
    __dd_add_edge st1 from to
  else st.

Definition add_waiter (m : xtc_lockmgr) (now : Z) (o : lock_obj) (st : dd_state) (w : lock_entry)
  : dd_state :=
  let '(from, st1) := __dd_node_idx st (le_locker w) (__locker_find m (le_locker w)) now in
  foldl (add_holder m now w from) st1 (lo_granted o).

Definition dd_build (m : xtc_lockmgr) (now : Z) : dd_state :=
  foldl (fun st o => foldl (add_waiter m now o) st (lo_waiting o)) dd_empty (concat (lm_parts m)).

(** ** The search *)

(** [color]: 0 not seen, 1 on the path, 2 done.  [None]: out of fuel. *)
Fixpoint __dd_dfs (fuel : nat) (adj : nat -> list nat) (u : nat) (color : list Z)
    (parent : list (option nat)) : option (option nat * list Z * list (option nat)) :=
  match fuel with
  | O => None
  | S fuel' =>
      (fix edges (vs : list nat) (color : list Z) (parent : list (option nat)) :=
         match vs with
         | [] => Some (None, <[u := 2]> color, parent)
         | v :: vs' =>
             if decide (color !! v = Some 1) then Some (Some u, color, parent)
             else if decide (color !! v = Some 0) then
               match __dd_dfs fuel' adj v color (<[v := Some u]> parent) with
               | Some (None, color', parent') => edges vs' color' parent'
               | r => r
               end
             else edges vs' color parent
         end) (adj u) (<[u := 1]> color) parent
  end.

(** The loop over the roots. *)
Fixpoint dd_scan (fuel : nat) (adj : nat -> list nat) (roots : list nat) (color : list Z)
    (parent : list (option nat)) : option (option nat * list Z * list (option nat)) :=
  match roots with
  | [] => Some (None, color, parent)
  | i :: roots' =>
      if decide (color !! i = Some 0) then
        match __dd_dfs fuel adj i color parent with
        | Some (None, color', parent') => dd_scan fuel adj roots' color' parent'
        | r => r
        end
      else dd_scan fuel adj roots' color parent
  end.

Definition dd_search (st : dd_state) : option (option nat * list Z * list (option nat)) :=
  let n := length (dd_nodes st) in
  dd_scan (S n) (out_edges st) (seq 0 n) (replicate n 0) (replicate n None).

(** ** Choosing a victim *)

Inductive victim_policy : Type :=
  | XTC_LOCK_VICTIM_DEFAULT | XTC_LOCK_VICTIM_OLDEST | XTC_LOCK_VICTIM_YOUNGEST
  | XTC_LOCK_VICTIM_MIN_LOCKS | XTC_LOCK_VICTIM_MAX_LOCKS | XTC_LOCK_VICTIM_MIN_WRITE
  | XTC_LOCK_VICTIM_MAX_WRITE | XTC_LOCK_VICTIM_EXPIRE | XTC_LOCK_VICTIM_RANDOM
  | XTC_LOCK_VICTIM_CUSTOM.

#[global] Instance victim_policy_eq_dec : EqDecision victim_policy.
Proof. solve_decision. Defined.

(** The policy, the picker of the custom one and the random numbers, each
    drawn once. *)
Record dd_opts := mk_dd_opts {
  do_victim : victim_policy;
  do_pick : option (list nat -> Z);
  do_rand : nat -> Z;
}.

(** The score and the number of random draws so far. *)
Definition __dd_score (opts : dd_opts) (n : dd_node) (draws : nat) : Z * nat :=
  match do_victim opts with
  | XTC_LOCK_VICTIM_OLDEST => (- dn_ctime n, draws)
  | XTC_LOCK_VICTIM_YOUNGEST => (dn_ctime n, draws)
  | XTC_LOCK_VICTIM_MIN_LOCKS => (- dn_n_held n, draws)
  | XTC_LOCK_VICTIM_MAX_LOCKS => (dn_n_held n, draws)
  | XTC_LOCK_VICTIM_MIN_WRITE => (- dn_n_write_held n, draws)
  | XTC_LOCK_VICTIM_MAX_WRITE => (dn_n_write_held n, draws)
  | XTC_LOCK_VICTIM_EXPIRE => (if dn_expired n then 1 else -1, draws)
  | _ => (do_rand opts draws, S draws)
  end.

Definition dd_blank : dd_node := mk_node 0 0 0 0 0 false None.

#[global] Instance dd_node_inhabited : Inhabited dd_node := populate dd_blank.

(** The loop over the path: up the parents until the root or [cycle_in]. *)
Fixpoint pick_loop (fuel : nat) (opts : dd_opts) (st : dd_state) (parent : list (option nat))
    (cycle_in u victim : nat) (best : Z) (seen : bool) (draws : nat)
  : option (nat * bool * nat) :=
  match fuel with
  | O => None
  | S fuel' =>
      let '(s, draws) := __dd_score opts (dd_nodes st !!! u) draws in
      let take := if decide (do_victim opts = XTC_LOCK_VICTIM_EXPIRE)
                  then dn_expired (dd_nodes st !!! u) && (negb seen || bool_decide (best < s))
                  else bool_decide (best < s) in
      let victim := if take then u else victim in
      let best := if take then s else best in
      let seen := if decide (do_victim opts = XTC_LOCK_VICTIM_EXPIRE) then take || seen else seen in
      match parent !!! u with
      | None => Some (victim, seen, draws)
      | Some u' =>
          if decide (u' = cycle_in) then Some (victim, seen, draws)
          else pick_loop fuel' opts st parent cycle_in u' victim best seen draws
      end
  end.

(** The candidates of the custom picker, at most 64, and the last node. *)
Fixpoint candidates (fuel : nat) (parent : list (option nat)) (cycle_in u : nat)
    (cand : list nat) : option (list nat * nat) :=
  match fuel with
  | O => None
  | S fuel' =>
      let cand := if decide (length cand < 64)%nat then cand ++ [u] else cand in
      match parent !!! u with
      | None => Some (cand, u)
      | Some u' => if decide (u' = cycle_in) then Some (cand, u')
                   else candidates fuel' parent cycle_in u' cand
      end
  end.

Definition pick_scored (opts : dd_opts) (st : dd_state) (cycle_in u : nat)
    (parent : list (option nat)) (draws : nat) : option (option nat * nat) :=
  let '(best, draws) := __dd_score opts (dd_nodes st !!! u) draws in
  match pick_loop (S (length (dd_nodes st))) opts st parent cycle_in u cycle_in best false draws with
  | None => None
  | Some (victim, seen, draws) =>
      if decide (do_victim opts = XTC_LOCK_VICTIM_EXPIRE /\ seen = false)
      then Some (None, draws) else Some (Some victim, draws)
  end.

(** [None]: out of fuel; [Some (None, _)]: no victim. *)
Definition __dd_pick_victim (opts : dd_opts) (st : dd_state) (cycle_in : nat)
    (parent : list (option nat)) (draws : nat) : option (option nat * nat) :=
  match do_victim opts, do_pick opts with
  | XTC_LOCK_VICTIM_CUSTOM, Some pick =>
      match candidates (S (length (dd_nodes st))) parent cycle_in cycle_in [] with
      | None => None
      | Some (cand, u) =>
          let p := pick cand in
          if decide (0 <= p < Z.of_nat (length cand))
          then Some (Some (cand !!! Z.to_nat p), draws)
          else pick_scored opts st cycle_in u parent draws
      end
  | _, _ => pick_scored opts st cycle_in cycle_in parent draws
  end.

(** ** The detector *)

Definition drop_edges (st : dd_state) (u : nat) : dd_state :=
  mk_dd (alter (set_out_first None) u (dd_nodes st)) (dd_edges st).

(** The loop: search, kill, search again.  The manager, the number killed
    and the lockers killed, in order. *)
Fixpoint dd_loop (fuel : nat) (opts : dd_opts) (skip : positive -> bool) (m : xtc_lockmgr)
    (st : dd_state) (draws : nat) (killed : list Z) : option (xtc_lockmgr * dd_state * list Z) :=
  match fuel with
  | O => None
  | S fuel' =>
      match dd_search st with
      | None => None
      | Some (None, _, _) => Some (m, st, killed)
      | Some (Some cycle_in, _, parent) =>
          match __dd_pick_victim opts st cycle_in parent draws with
          | None => None
          | Some (None, draws) => dd_loop fuel' opts skip m (drop_edges st cycle_in) draws killed
          | Some (Some victim, draws) =>
              let vid := dn_id (dd_nodes st !!! victim) in
              dd_loop fuel' opts skip (kill_victim m vid skip).1 (drop_edges st victim) draws
                (killed ++ [vid])
          end
      end
  end.

(** [a1], [a2], [a3]: the three allocations. *)
Definition xtc_lockmgr_check_deadlocks (m : option xtc_lockmgr) (a1 a2 a3 : rc) (now : Z)
    (opts : dd_opts) (skip : positive -> bool) : option (rc * option xtc_lockmgr * list Z) :=
  match m with
  | None => Some (XTC_E_INVAL, None, [])
  | Some m =>
      if decide (a1 <> XTC_OK) then Some (a1, Some m, [])
      else if decide (a2 <> XTC_OK) then Some (a2, Some m, [])
      else if decide (a3 <> XTC_OK) then Some (a3, Some m, [])
      else
        let st := dd_build m now in
        match dd_loop (S (length (dd_nodes st))) opts skip m st 0 [] with
        | Some (m', _, killed) => Some (XTC_OK, Some m', killed)
        | None => None
        end
  end.

#[global] Opaque MAX_LOCKERS.

(** ** The search finds a cycle exactly when there is one *)

Section Dfs.
Context (n : nat) (adj : nat -> list nat).
Hypothesis adj_lt : forall u v, v ∈ adj u -> (v < n)%nat.

Definition edge (u v : nat) : Prop := v ∈ adj u.

(** Finished nodes, last first: each one's targets finished before it. *)
Inductive topo : list nat -> Prop :=
  | topo_nil : topo []
  | topo_cons u l : u ∉ l -> (forall v, edge u v -> v ∈ l) -> topo l -> topo (u :: l).

Lemma topo_step l u v : topo l -> u ∈ l -> edge u v ->
  exists l1 l2, l = l1 ++ u :: l2 /\ v ∈ l2 /\ topo l2.
Proof.
  intros Ht. revert u. induction Ht as [|x l Hx Hsucc Ht IH]; intros u Hu He; [by apply elem_of_nil in Hu|].
  apply elem_of_cons in Hu as [->|Hu].
  - exists [], l. split_and!; auto.
  - destruct (IH u Hu He) as (l1 & l2 & -> & Hv & Ht2). by exists (x :: l1), l2.
Qed.

(** From a finished node every path goes strictly down the list. *)
Lemma topo_path l u v : topo l -> u ∈ l -> tc edge u v ->
  exists l1 l2, l = l1 ++ u :: l2 /\ v ∈ l2.
Proof.
  intros Ht Hu Hp. revert l Ht Hu. induction Hp as [u v He|u w v He Hp IH]; intros l Ht Hu.
  - destruct (topo_step l u v Ht Hu He) as (l1 & l2 & ? & ? & _). eauto.
  - destruct (topo_step l u w Ht Hu He) as (l1 & l2 & -> & Hw & Ht2).
    destruct (IH l2 Ht2 Hw) as (l3 & l4 & -> & Hv). exists l1, (l3 ++ w :: l4). split; [done|].
    apply elem_of_app. right. by right.
Qed.

Lemma topo_NoDup l : topo l -> NoDup l.
Proof. induction 1; by constructor. Qed.

Lemma topo_acyclic l u : topo l -> u ∈ l -> ~ tc edge u u.
Proof.
  intros Ht Hu Hp. destruct (topo_path l u u Ht Hu Hp) as (l1 & l2 & -> & Hin).
  apply topo_NoDup, NoDup_app in Ht as (_ & _ & Hnd). by apply NoDup_cons in Hnd as [? _].
Qed.

(** The path to the node being searched, top first, as the parents tell it. *)
Inductive spine (parent : list (option nat)) : list nat -> Prop :=
  | spine_root r : parent !! r = Some None -> spine parent [r]
  | spine_cons x y s : parent !! x = Some (Some y) -> edge y x -> spine parent (y :: s) ->
      spine parent (x :: y :: s).

Lemma spine_reach parent x s v : spine parent (x :: s) -> v ∈ x :: s -> rtc edge v x.
Proof.
  revert x. induction s as [|y s IH]; intros x Hs Hv.
  - apply list_elem_of_singleton in Hv as ->. done.
  - inversion Hs as [|? ? ? Hp He Hs']; subst. apply elem_of_cons in Hv as [->|Hv]; [done|].
    eapply rtc_r; [by apply IH|done].
Qed.

(** The parents of the nodes on the path are all that matters. *)
Lemma spine_agree p p' s :
  spine p s -> (forall x, x ∈ s -> p' !! x = p !! x) -> spine p' s.
Proof.
  induction 1 as [r Hr|x y s Hx He Hs IH]; intros Ha.
  - constructor. rewrite Ha; [done|left].
  - constructor; [rewrite Ha; [done|left]|done|]. apply IH. intros z Hz. apply Ha. by right.
Qed.

(** Colours: [s] the path, [l] the finished nodes. *)
Record colored (color : list Z) (s l : list nat) : Prop := mk_colored {
  co_len : length color = n;
  co_gray : forall v, color !! v = Some 1 <-> v ∈ s;
  co_black : forall v, color !! v = Some 2 <-> v ∈ l;
  co_range : forall v c, color !! v = Some c -> c = 0 \/ c = 1 \/ c = 2;
  co_topo : topo l;
}.

Definition whites (color : list Z) : nat := length (filter (fun c => c = 0) color).

Lemma whites_insert color u c :
  color !! u = Some 0 -> c <> 0 -> whites color = S (whites (<[u := c]> color)).
Proof.
  unfold whites. revert u. induction color as [|x color IH]; intros [|u] Hu Hc; try done; simpl in *.
  - injection Hu as ->. rewrite !filter_cons. rewrite decide_True, decide_False by done. done.
  - rewrite !filter_cons. case_decide; simpl; [f_equal|]; auto.
Qed.

Lemma whites_insert_le color u c : c <> 0 -> (whites (<[u := c]> color) <= whites color)%nat.
Proof.
  intros Hc. unfold whites. revert u. induction color as [|x color IH]; intros [|u]; try done; simpl.
  - rewrite !filter_cons. rewrite (decide_False (P := c = 0)) by done. case_decide; simpl; lia.
  - rewrite !filter_cons. specialize (IH u). case_decide; simpl; lia.
Qed.

Lemma colored_gray color s l u :
  colored color s l -> color !! u = Some 0 -> colored (<[u := 1]> color) (u :: s) l.
Proof.
  intros [Hl Hg Hb Hr Ht] Hu. assert (u < length color)%nat as Hlt by (by eapply lookup_lt_Some).
  constructor; [by rewrite length_insert| | | |done]; intros v.
  - rewrite elem_of_cons. destruct (decide (v = u)) as [->|Hne].
    + rewrite list_lookup_insert_eq by done. naive_solver.
    + rewrite list_lookup_insert_ne by done. rewrite Hg. naive_solver.
  - destruct (decide (v = u)) as [->|Hne].
    + rewrite list_lookup_insert_eq by done. rewrite <- Hb, Hu. done.
    + by rewrite list_lookup_insert_ne.
  - intros c. destruct (decide (v = u)) as [->|Hne].
    + rewrite list_lookup_insert_eq by done. naive_solver.
    + rewrite list_lookup_insert_ne by done. apply Hr.
Qed.

Lemma colored_black color s l u :
  colored color (u :: s) l -> u ∉ s -> (forall v, edge u v -> v ∈ l) ->
  colored (<[u := 2]> color) s (u :: l).
Proof.
  intros [Hl Hg Hb Hr Ht] Hus Hsucc. assert (color !! u = Some 1) as Hu by (apply Hg; left).
  assert (u < length color)%nat as Hlt by (by eapply lookup_lt_Some).
  constructor; [by rewrite length_insert| | | |].
  - intros v. destruct (decide (v = u)) as [->|Hne].
    + rewrite list_lookup_insert_eq by done. naive_solver.
    + rewrite list_lookup_insert_ne by done. rewrite Hg, elem_of_cons. naive_solver.
  - intros v. rewrite elem_of_cons. destruct (decide (v = u)) as [->|Hne].
    + rewrite list_lookup_insert_eq by done. naive_solver.
    + rewrite list_lookup_insert_ne by done. rewrite Hb. naive_solver.
  - intros v c. destruct (decide (v = u)) as [->|Hne].
    + rewrite list_lookup_insert_eq by done. naive_solver.
    + rewrite list_lookup_insert_ne by done. apply Hr.
  - constructor; [|done|done]. intros Hin. apply Hb in Hin. congruence.
Qed.

(** A path that closes: its top has an edge back into it. *)
Definition closes (parent : list (option nat)) (x : nat) (s : list nat) : Prop :=
  spine parent (x :: s) /\ NoDup (x :: s) /\ Forall (fun v => (v < n)%nat) (x :: s) /\
  length parent = n /\ exists v, edge x v /\ v ∈ x :: s.

Definition dfs_post (u : nat) (s l : list nat) (color : list Z) (parent : list (option nat))
    (res : option nat * list Z * list (option nat)) : Prop :=
  match res with
  | (None, color', parent') =>
      exists l', colored color' s l' /\ u ∈ l' /\ (forall v, v ∈ l -> v ∈ l') /\
        (forall x, x ∈ u :: s -> parent' !! x = parent !! x) /\
        (forall x, color' !! x = Some 0 -> color !! x = Some 0 /\ parent' !! x = parent !! x) /\
        (whites color' <= whites color)%nat /\ length parent' = n
  | (Some x, _, parent') => exists s', closes parent' x s'
  end.

Lemma white_not_on_path color s l v : colored color s l -> color !! v = Some 0 -> v ∉ s.
Proof. intros Hc Hv Hin. apply (co_gray _ _ _ Hc) in Hin. congruence. Qed.

Lemma spine_push parent u v s :
  spine parent (u :: s) -> edge u v -> v ∉ u :: s -> (v < length parent)%nat ->
  spine (<[v := Some u]> parent) (v :: u :: s).
Proof.
  intros Hs He Hv Hlt. constructor; [by rewrite list_lookup_insert_eq|done|].
  eapply spine_agree; [done|]. intros x Hx. rewrite list_lookup_insert_ne; [done|]. by intros ->.
Qed.

Lemma path_lt color s l : colored color s l -> Forall (fun v => (v < n)%nat) s.
Proof.
  intros Hc. rewrite Forall_forall. intros v Hv. rewrite <- (co_len _ _ _ Hc).
  eapply lookup_lt_Some. by apply (co_gray _ _ _ Hc).
Qed.

(** All edges followed: the node is finished. *)
Lemma dfs_post_done u s l color parent :
  colored color (u :: s) l -> u ∉ s -> (forall v, edge u v -> v ∈ l) -> length parent = n ->
  dfs_post u s l color parent (None, <[u := 2]> color, parent).
Proof.
  intros Hc Hus Hall Hlen. exists (u :: l). split_and!; [by apply colored_black|left| |done| | |done].
  - intros v Hv. by right.
  - intros x. destruct (decide (x = u)) as [->|Hne]; [|by rewrite list_lookup_insert_ne].
    rewrite list_lookup_insert_eq; [done|]. eapply lookup_lt_Some, (co_gray _ _ _ Hc). left.
  - by apply whites_insert_le.
Qed.

(** An edge back into the path closes it. *)
Lemma gray_edge_closes u v s l color parent :
  colored color (u :: s) l -> u ∉ s -> NoDup s -> spine parent (u :: s) -> length parent = n ->
  edge u v -> color !! v = Some 1 -> closes parent u s.
Proof.
  intros Hc Hus Hnd Hsp Hlen Huv Hv. unfold closes. split_and!; [done|by constructor|by eapply path_lt|done|].
  exists v. split; [done|]. by apply (co_gray _ _ _ Hc).
Qed.

(** An edge to a node that is neither white nor on the path is to a finished one. *)
Lemma other_edge_black u v s l color :
  colored color s l -> edge u v -> color !! v <> Some 1 -> color !! v <> Some 0 -> v ∈ l.
Proof.
  intros Hc Huv D1 D2. apply (co_black _ _ _ Hc). destruct (lookup_lt_is_Some_2 color v) as [c Hcv].
  { rewrite (co_len _ _ _ Hc). by apply (adj_lt u). }
  destruct (co_range _ _ _ Hc v c Hcv) as [->|[->| ->]]; done.
Qed.

(** The search below [v], then the rest of [u]'s edges. *)
Lemma dfs_post_next u v s l1 l2 color1 color2 parent1 parent2 res :
  color1 !! v = Some 0 -> (v ∉ u :: s) ->
  colored color2 (u :: s) l2 -> v ∈ l2 -> (forall x, x ∈ l1 -> x ∈ l2) ->
  (forall x, x ∈ u :: s -> parent2 !! x = parent1 !! x) ->
  (forall x, color2 !! x = Some 0 -> color1 !! x = Some 0 /\ parent2 !! x = <[v := Some u]> parent1 !! x) ->
  (whites color2 <= whites color1)%nat ->
  dfs_post u s l2 color2 parent2 res -> dfs_post u s l1 color1 parent1 res.
Proof.
  intros Hv0 Hv Hc2 Hv2 Hsub Hag Hwh2 Hw2 Hpost. destruct res as [[[x|] color3] parent3]; [done|].
  destruct Hpost as (l3 & Hc3 & Hu3 & Hsub3 & Hag3 & Hwh3 & Hw3 & Hlen3).
  exists l3. split_and!; [done|done|auto| | |lia|done].
  { intros x Hx. rewrite Hag3 by done. by apply Hag. }
  intros x Hx. destruct (Hwh3 x Hx) as [Hx2 ->]. destruct (Hwh2 x Hx2) as [Hx1 ->].
  split; [done|]. rewrite list_lookup_insert_ne; [done|]. intros ->.
  apply (co_black _ _ _ Hc2) in Hv2. congruence.
Qed.

(** The post-condition from the colours before [u] was entered. *)
Lemma dfs_post_enter u s l color parent res :
  color !! u = Some 0 -> dfs_post u s l (<[u := 1]> color) parent res -> dfs_post u s l color parent res.
Proof.
  intros Hu Hpost. destruct res as [[[x|] color3] parent3]; [done|].
  destruct Hpost as (l3 & Hc3 & Hu3 & Hsub3 & Hag3 & Hwh3 & Hw3 & Hlen3).
  pose proof (whites_insert color u 1 Hu ltac:(done)). exists l3. split_and!; try done; [|lia].
  intros x Hx. destruct (Hwh3 x Hx) as [Hx1 ->]. split; [|done].
  rewrite list_lookup_insert_ne in Hx1; [done|]. intros ->. apply (co_black _ _ _ Hc3) in Hu3. congruence.
Qed.

Lemma dfs_ok fuel u color parent s l :
  colored color s l -> color !! u = Some 0 -> NoDup s -> spine parent (u :: s) ->
  length parent = n -> (whites color <= fuel)%nat ->
  exists res, __dd_dfs fuel adj u color parent = Some res /\ dfs_post u s l color parent res.
Proof.
  revert u color parent s l. induction fuel as [|fuel IH]; intros u color parent s l Hc Hu Hnd Hsp Hlen Hf.
  { rewrite (whites_insert color u 1 Hu) in Hf by done. lia. }
  assert (u ∉ s) as Hus by (by eapply white_not_on_path).
  pose proof (whites_insert color u 1 Hu ltac:(done)) as Hw.
  cbn [__dd_dfs].
  match goal with |- exists res, ?F (adj u) _ _ = _ /\ _ => set (edges := F) end.
  assert (forall vs color1 parent1 l1,
    colored color1 (u :: s) l1 -> (forall v, edge u v -> v ∈ vs \/ v ∈ l1) ->
    (forall v, v ∈ vs -> edge u v) -> spine parent1 (u :: s) -> length parent1 = n ->
    (whites color1 <= fuel)%nat ->
    exists res, edges vs color1 parent1 = Some res /\ dfs_post u s l1 color1 parent1 res) as Hedges.
  { induction vs as [|v vs IHvs]; intros color1 parent1 l1 Hc1 Hall Hvs Hsp1 Hlen1 Hf1; cbn [edges].
    - eexists. split; [done|]. apply dfs_post_done; [done|done| |done].
      intros v Hv. destruct (Hall v Hv) as [Hin|?]; [by apply elem_of_nil in Hin|done].
    - assert (edge u v) as Huv by (apply Hvs; left). case_decide as D1.
      { eexists. split; [done|]. exists s. by eapply gray_edge_closes. }
      case_decide as D2.
      + assert (v ∉ u :: s) as Hv by (by eapply white_not_on_path).
        destruct (IH v color1 (<[v := Some u]> parent1) (u :: s) l1) as (res & -> & Hpost);
          [done|done|by constructor| |by rewrite length_insert|done|].
        { apply spine_push; [done|done|done|]. rewrite Hlen1. by apply (adj_lt u). }
        destruct res as [[[x|] color2] parent2]; [by exists (Some x, color2, parent2)|].
        destruct Hpost as (l2 & Hc2 & Hv2 & Hsub & Hagree & Hwh2 & Hw2 & Hlen2).
        assert (forall x, x ∈ u :: s -> parent2 !! x = parent1 !! x) as Hag.
        { intros x Hx. rewrite Hagree by (by right). rewrite list_lookup_insert_ne; [done|]. by intros ->. }
        destruct (IHvs color2 parent2 l2) as (res & -> & Hpost); [done| | |by eapply spine_agree|done|lia|].
        * intros v' Hv'. destruct (Hall v' Hv') as [[->|?]%elem_of_cons|?]; auto.
        * intros v' Hv'. apply Hvs. by right.
        * eexists. split; [done|]. by eapply dfs_post_next.
      + pose proof (other_edge_black _ _ _ _ _ Hc1 Huv D1 D2). apply IHvs; try done.
        * intros v' Hv'. destruct (Hall v' Hv') as [[->|?]%elem_of_cons|?]; auto.
        * intros v' Hv'. apply Hvs. by right. }
  destruct (Hedges (adj u) (<[u := 1]> color) parent l) as (res & -> & Hpost); [by apply colored_gray|auto|done|done|done|lia|].
  eexists. split; [done|]. by apply dfs_post_enter.
Qed.

Lemma scan_ok fuel roots color parent l :
  colored color [] l -> length parent = n -> (n <= fuel)%nat -> 
  (forall v, color !! v = Some 0 -> parent !! v = Some None) ->
  exists res, dd_scan fuel adj roots color parent = Some res /\
    match res with
    | (None, color', _) => exists l', colored color' [] l' /\ (forall v, v ∈ l -> v ∈ l') /\
        (forall v, v ∈ roots -> (v < n)%nat -> v ∈ l')
    | (Some x, _, parent') => exists s, closes parent' x s
    end.
Proof.
  revert color parent l. induction roots as [|i roots IH]; intros color parent l Hc Hlen Hf Hpar; cbn [dd_scan].
  { eexists. split; [done|]. exists l. split_and!; [done|done|]. intros v Hv. by apply elem_of_nil in Hv. }
  assert (whites color <= n)%nat as Hwn.
  { rewrite <- (co_len _ _ _ Hc). unfold whites. apply length_filter. }
  case_decide as D.
  - destruct (dfs_ok fuel i color parent [] l Hc D) as (res & -> & Hpost);
      [constructor|by constructor; apply Hpar|done|lia|].
    destruct res as [[[x|] color2] parent2]; [by exists (Some x, color2, parent2)|].
    destruct Hpost as (l2 & Hc2 & Hi & Hsub & _ & Hwh & _ & Hlen2).
    destruct (IH color2 parent2 l2) as (res & -> & Hres); try done.
    { intros v Hv. destruct (Hwh v Hv) as [Hv0 ->]. by apply Hpar. }
    eexists. split; [done|]. destruct res as [[[x|] color3] parent3]; [done|].
    destruct Hres as (l3 & Hc3 & Hsub3 & Hroots). exists l3. split_and!; [done|auto|].
    intros v [->|Hv]%elem_of_cons Hlt; auto.
  - destruct (IH color parent l) as (res & -> & Hres); try done.
    eexists. split; [done|]. destruct res as [[[x|] color3] parent3]; [done|].
    destruct Hres as (l3 & Hc3 & Hsub3 & Hroots). exists l3. split_and!; [done|auto|].
    intros v [->|Hv]%elem_of_cons Hlt; [|auto]. apply Hsub3, (co_black _ _ _ Hc).
    destruct (lookup_lt_is_Some_2 color i) as [c Hcv]; [by rewrite (co_len _ _ _ Hc)|].
    destruct (co_range _ _ _ Hc i c Hcv) as [->|[->| ->]]; [done| |done].
    apply (co_gray _ _ _ Hc) in Hcv. by apply elem_of_nil in Hcv.
Qed.

(** The search from fresh colours. *)
Lemma search_ok fuel :
  (n <= fuel)%nat ->
  exists res, dd_scan fuel adj (seq 0 n) (replicate n 0) (replicate n None) = Some res /\
    match res with
    | (None, _, _) => forall u, ~ tc edge u u
    | (Some x, _, parent') => exists s, closes parent' x s
    end.
Proof.
  intros Hf. destruct (scan_ok fuel (seq 0 n) (replicate n 0) (replicate n None) []) as (res & -> & Hres).
  - constructor; [by rewrite length_replicate| | | |constructor]; intros v.
    + split; [intros [? _]%lookup_replicate; done|intros H; by apply elem_of_nil in H].
    + split; [intros [? _]%lookup_replicate; done|intros H; by apply elem_of_nil in H].
    + intros c [-> _]%lookup_replicate. auto.
  - by rewrite length_replicate.
  - done.
  - intros v [_ Hv]%lookup_replicate. by apply lookup_replicate.
  - eexists. split; [done|]. destruct res as [[[x|] color2] parent2]; [done|].
    destruct Hres as (l & Hc & _ & Hall). intros u Hp.
    assert (u < n)%nat as Hu.
    { assert (exists w, edge w u) as [w He]; [|by apply (adj_lt w)].
      clear -Hp. induction Hp; eauto. }
    apply (topo_acyclic l u (co_topo _ _ _ Hc)); [|done]. apply Hall; [|done].
    apply elem_of_seq. lia.
Qed.

Lemma closes_cycle parent x s : closes parent x s -> tc edge x x.
Proof.
  intros (Hs & _ & _ & _ & v & He & Hv). eapply tc_rtc_r; [by apply tc_once|].
  by eapply spine_reach.
Qed.
End Dfs.

(** ** The choice of a victim ends and stays on the path *)

Lemma pick_loop_ok adj fuel opts st parent x u t victim best seen draws :
  spine adj parent (u :: t) -> x ∉ t -> (length (u :: t) <= fuel)%nat ->
  exists v seen' draws',
    pick_loop fuel opts st parent x u victim best seen draws = Some (v, seen', draws') /\
    (v = victim \/ v ∈ u :: t).
Proof.
  revert fuel u victim best seen draws. induction t as [|y t IH];
    intros [|fuel] u victim best seen draws Hs Hx Hf; simpl in Hf; try lia; cbn [pick_loop];
    destruct (__dd_score opts (dd_nodes st !!! u) draws) as [sc d]; cbv zeta;
    match goal with |- context [if ?b then u else victim] => set (take := b) end.
  - inversion Hs as [r Hr|]; subst. rewrite (list_lookup_total_correct _ _ _ Hr).
    eexists _, _, _. split; [done|]. destruct take; [right; left|by left].
  - inversion Hs as [|a b c Hp He Hs']; subst. rewrite (list_lookup_total_correct _ _ _ Hp).
    apply not_elem_of_cons in Hx as [Hxy Hx]. rewrite decide_False by done.
    match goal with |- context [pick_loop fuel opts st parent x y ?v ?b ?s ?d] =>
      destruct (IH fuel y v b s d Hs' Hx ltac:(simpl in *; lia)) as (v' & s' & d' & -> & Hv) end.
    eexists _, _, _. split; [done|]. destruct Hv as [->|Hv]; [|right; by right].
    destruct take; [right; left|by left].
Qed.

Lemma candidates_ok adj fuel parent x u t cand :
  spine adj parent (u :: t) -> x ∉ t -> (length (u :: t) <= fuel)%nat ->
  exists cand' last, candidates fuel parent x u cand = Some (cand', last) /\
    (forall v, v ∈ cand' -> v ∈ cand \/ v ∈ u :: t) /\ last ∈ u :: t /\ spine adj parent [last].
Proof.
  revert fuel u cand. induction t as [|y t IH];
    intros [|fuel] u cand Hs Hx Hf; simpl in Hf; try lia; cbn [candidates]; cbv zeta.
  - inversion Hs as [r Hr|]; subst. rewrite (list_lookup_total_correct _ _ _ Hr).
    eexists _, _. split_and!; [done| |left|done]. intros v. case_decide; [|by left].
    rewrite elem_of_app. naive_solver.
  - inversion Hs as [|a b c Hp He Hs']; subst. rewrite (list_lookup_total_correct _ _ _ Hp).
    apply not_elem_of_cons in Hx as [Hxy Hx]. rewrite (decide_False (P := y = x)) by done.
    match goal with |- context [candidates fuel parent x y ?c] =>
      destruct (IH fuel y c Hs' Hx ltac:(simpl in *; lia)) as (c' & last & -> & Hc & Hlast & Hl) end.
    eexists _, _. split_and!; [done| |by right|done].
    intros v Hv. destruct (Hc v Hv) as [Hin|?]; [|right; by right]. revert Hin.
    case_decide; [|by left]. rewrite elem_of_app, list_elem_of_singleton. intros [?| ->]; [by left|].
    right. left.
Qed.

Lemma pick_scored_ok adj opts st parent x u t draws :
  spine adj parent (u :: t) -> x ∉ t -> (length (u :: t) <= S (length (dd_nodes st)))%nat ->
  exists r draws', pick_scored opts st x u parent draws = Some (r, draws') /\
    (forall v, r = Some v -> v = x \/ v ∈ u :: t) /\
    (r = None -> do_victim opts = XTC_LOCK_VICTIM_EXPIRE).
Proof.
  intros Hs Hx Hf. unfold pick_scored.
  destruct (__dd_score opts (dd_nodes st !!! u) draws) as [sc d].
  destruct (pick_loop_ok adj (S (length (dd_nodes st))) opts st parent x u t x sc false d Hs Hx Hf)
    as (v & seen & d' & -> & Hv).
  case_decide as D; eexists _, _; (split_and!; [done| |]); try done.
  - by intros _; destruct D.
  - by intros v' [= ->].
Qed.

Lemma NoDup_lt_length (l : list nat) n :
  NoDup l -> Forall (fun v => (v < n)%nat) l -> (length l <= n)%nat.
Proof.
  intros Hnd Hl. rewrite <- (length_seq n 0). apply submseteq_length, NoDup_submseteq; [done|].
  intros v Hv. rewrite Forall_forall in Hl. apply elem_of_seq. specialize (Hl v Hv). lia.
Qed.

Lemma pick_victim_ok adj opts st parent x s draws :
  closes (length (dd_nodes st)) adj parent x s ->
  exists r draws', __dd_pick_victim opts st x parent draws = Some (r, draws') /\
    (forall v, r = Some v -> v ∈ x :: s) /\
    (r = None -> do_victim opts = XTC_LOCK_VICTIM_EXPIRE).
Proof.
  intros (Hs & Hnd & Hlt & _ & _). pose proof (NoDup_lt_length _ _ Hnd Hlt) as Hlen.
  apply NoDup_cons in Hnd as [Hx _].
  assert (length (x :: s) <= S (length (dd_nodes st)))%nat as Hfuel by lia.
  assert (exists r draws', pick_scored opts st x x parent draws = Some (r, draws') /\
    (forall v, r = Some v -> v ∈ x :: s) /\
    (r = None -> do_victim opts = XTC_LOCK_VICTIM_EXPIRE)) as Hdef.
  { destruct (pick_scored_ok adj opts st parent x x s draws Hs Hx Hfuel) as (r & d & E & Hv & Hn).
    exists r, d. split_and!; [done| |done]. intros v Hr. destruct (Hv v Hr) as [->|?]; [left|done]. }
  unfold __dd_pick_victim. destruct (do_victim opts) eqn:Ep; try exact Hdef.
  destruct (do_pick opts) as [pick|]; [|exact Hdef].
  destruct (candidates_ok adj _ parent x x s [] Hs Hx Hfuel) as (cand & last & -> & Hc & Hlast & Hl).
  case_decide as D.
  - destruct (lookup_lt_is_Some_2 cand (Z.to_nat (pick cand)) ltac:(lia)) as [v Hv].
    eexists _, _. split_and!; [done| |done]. intros v' [= <-].
    rewrite (list_lookup_total_correct _ _ _ Hv).
    destruct (Hc v) as [Hin|?]; [by eapply list_elem_of_lookup_2|by apply elem_of_nil in Hin|done].
  - destruct (pick_scored_ok adj opts st parent x last [] draws Hl) as (r & d & E & Hv & Hn);
      [apply not_elem_of_nil|simpl; lia|].
    exists r, d. split_and!; [done| |by rewrite <- Ep]. intros v Hr.
    destruct (Hv v Hr) as [->| ->%list_elem_of_singleton]; [left|done].
Qed.

(** ** The graph's shape *)

Record st_ok (st : dd_state) : Prop := mk_st_ok {
  so_edges : forall i e, dd_edges st !! i = Some e ->
    (de_to e < length (dd_nodes st))%nat /\ (forall j, de_next e = Some j -> (j < i)%nat);
  so_nodes : forall u n i, dd_nodes st !! u = Some n -> dn_out_first n = Some i ->
    (i < length (dd_edges st))%nat;
}.

Lemma chain_lt st fuel i v :
  st_ok st -> v ∈ chain fuel (dd_edges st) i -> (v < length (dd_nodes st))%nat.
Proof.
  intros Hst. revert i. induction fuel as [|fuel IH]; intros i; cbn [chain].
  { intros H. by apply elem_of_nil in H. }
  destruct i as [i|]; [|intros H; by apply elem_of_nil in H].
  destruct (dd_edges st !! i) as [e|] eqn:E; [|intros H; by apply elem_of_nil in H].
  intros [->|Hv]%elem_of_cons; [by apply (so_edges _ Hst i e)|by apply (IH (de_next e))].
Qed.

Lemma out_edges_lt st u v : st_ok st -> v ∈ out_edges st u -> (v < length (dd_nodes st))%nat.
Proof. intros Hst. by apply chain_lt. Qed.

(** Any fuel above the starting index reaches the end of the chain, and later
    edges do not matter to it. *)
Lemma chain_enough st es' fuel1 fuel2 i :
  st_ok st -> (forall j, i = Some j -> (j < fuel1)%nat /\ (j < fuel2)%nat /\ (j < length (dd_edges st))%nat) ->
  chain fuel1 (dd_edges st) i = chain fuel2 (dd_edges st ++ es') i.
Proof.
  intros Hst. revert fuel2 i. induction fuel1 as [|fuel1 IH]; intros fuel2 i Hi.
  { destruct i as [j|]; [|by destruct fuel2]. destruct (Hi j eq_refl). lia. }
  destruct i as [j|]; [|by destruct fuel2]. destruct (Hi j eq_refl) as (H1 & H2 & H3).
  destruct fuel2 as [|fuel2]; [lia|]. cbn [chain]. rewrite lookup_app_l by done.
  destruct (dd_edges st !! j) as [e|] eqn:E; [|done]. f_equal. apply IH.
  intros k Hk. destruct (so_edges _ Hst j e E) as [_ Hn]. specialize (Hn k Hk). lia.
Qed.

Lemma out_first_lt st u i : st_ok st -> out_first st u = Some i -> (i < length (dd_edges st))%nat.
Proof.
  intros Hst. unfold out_first. destruct (dd_nodes st !! u) as [n|] eqn:E; [|done].
  simpl. intros Hi. by eapply so_nodes.
Qed.

Lemma out_edges_first st u v : v ∈ out_edges st u -> is_Some (out_first st u).
Proof.
  unfold out_edges. destruct (out_first st u); [by eexists|].
  destruct (length (dd_edges st)); simpl; intros H; by apply elem_of_nil in H.
Qed.

Lemma drop_edges_ok st u : st_ok st -> st_ok (drop_edges st u).
Proof.
  intros [H1 H2]. constructor; simpl.
  - intros i e He. rewrite length_alter. by apply H1.
  - intros v n i. rewrite list_lookup_alter. case_decide; [|apply H2]. subst v.
    destruct (dd_nodes st !! u) eqn:E; [|done]. simpl. intros [= <-]. done.
Qed.

Lemma out_first_drop st u v :
  out_first (drop_edges st u) v = if decide (v = u) then None else out_first st v.
Proof.
  unfold out_first. simpl. rewrite list_lookup_alter. repeat case_decide; subst; try done.
  by destruct (dd_nodes st !! v).
Qed.

(** Nodes that still have edges. *)
Definition live (st : dd_state) : nat :=
  length (filter (fun n => is_Some (dn_out_first n)) (dd_nodes st)).

Lemma live_drop st u : is_Some (out_first st u) -> live st = S (live (drop_edges st u)).
Proof.
  unfold live, out_first. simpl. generalize (dd_nodes st) as l. intros l. revert u.
  induction l as [|n l IH]; intros [|u] [i Hi]; try done; simpl in *.
  - rewrite !filter_cons. rewrite (decide_True (P := is_Some (dn_out_first n))) by (by rewrite Hi).
    rewrite decide_False by (intros [? ?]; done). done.
  - rewrite !filter_cons. specialize (IH u ltac:(by eexists)). case_decide; simpl; [f_equal|]; auto.
Qed.


(** Dropping a node's edges only removes edges. *)
Lemma drop_edge st u a b :
  edge (out_edges (drop_edges st u)) a b <-> edge (out_edges st) a b /\ a <> u.
Proof.
  unfold edge, out_edges. rewrite out_first_drop. simpl. case_decide as D.
  - destruct (length (dd_edges st)); simpl; split; intros H; try (by apply elem_of_nil in H); naive_solver.
  - naive_solver.
Qed.

Definition id_at (st : dd_state) (i : nat) (a : Z) : Prop :=
  exists n, dd_nodes st !! i = Some n /\ dn_id n = a.

Lemma id_at_alter st u f es i a :
  (forall n, dn_id (f n) = dn_id n) ->
  id_at (mk_dd (alter f u (dd_nodes st)) es) i a <-> id_at st i a.
Proof.
  intros Hf. unfold id_at. simpl. rewrite list_lookup_alter. case_decide as D; [|done]. subst i.
  destruct (dd_nodes st !! u) as [n|]; simpl; [|naive_solver]. split.
  - intros (x & [= <-] & <-). exists n. by rewrite Hf.
  - intros (x & [= <-] & <-). exists (f n). by rewrite Hf.
Qed.

Lemma id_at_drop st u i a : id_at (drop_edges st u) i a <-> id_at st i a.
Proof. by apply (id_at_alter st u (set_out_first None) (dd_edges st)). Qed.

(** On a closing path every node has an edge. *)
Lemma closes_live st parent x s v :
  closes (length (dd_nodes st)) (out_edges st) parent x s -> v ∈ x :: s -> is_Some (out_first st v).
Proof.
  intros (Hs & _ & _ & _ & w & Hw & _) Hv. assert (exists y, edge (out_edges st) v y) as [y Hy].
  { assert (rtc (edge (out_edges st)) v x) as Hr by (by eapply spine_reach).
    destruct (rtc_inv _ _ Hr) as [<-|(y & Hy & _)]; eauto. }
  by eapply out_edges_first.
Qed.

Lemma closes_node st parent x s v :
  closes (length (dd_nodes st)) (out_edges st) parent x s -> v ∈ x :: s ->
  id_at st v (dn_id (dd_nodes st !!! v)) /\ exists y, edge (out_edges st) v y.
Proof.
  intros (Hs & _ & Hlt & _ & w & Hw & _) Hv. rewrite Forall_forall in Hlt. specialize (Hlt v Hv). split.
  - exists (dd_nodes st !!! v). split; [|done]. by apply list_lookup_lookup_total_lt.
  - assert (rtc (edge (out_edges st)) v x) as Hr by (by eapply spine_reach).
    destruct (rtc_inv _ _ Hr) as [<-|(y & Hy & _)]; eauto.
Qed.

(** ** The loop *)

Definition acyclic (st : dd_state) : Prop := forall u, ~ tc (edge (out_edges st)) u u.

Lemma dd_search_ok st :
  st_ok st ->
  exists res, dd_search st = Some res /\
    match res with
    | (None, _, _) => acyclic st
    | (Some x, _, parent) => exists s, closes (length (dd_nodes st)) (out_edges st) parent x s
    end.
Proof.
  intros Hst. unfold dd_search. apply (search_ok (length (dd_nodes st)) (out_edges st)); [|lia].
  intros u v Hv. by eapply out_edges_lt.
Qed.

(** The loop ends within one turn per node with edges, and leaves no cycle.
    Every victim had an edge.  Unless the policy is EXPIRE, which may drop
    edges without a kill, only the victims lose theirs. *)
Lemma dd_loop_ok fuel opts skip m st draws killed :
  st_ok st -> (live st < fuel)%nat ->
  exists m' st' more, dd_loop fuel opts skip m st draws killed = Some (m', st', killed ++ more) /\
    acyclic st' /\
    m' = foldl (fun m vid => (kill_victim m vid skip).1) m more /\
    (forall vid, vid ∈ more -> exists i j, id_at st i vid /\ edge (out_edges st) i j) /\
    (acyclic st -> more = []) /\
    (do_victim opts <> XTC_LOCK_VICTIM_EXPIRE -> forall i j, edge (out_edges st) i j ->
       (forall a, id_at st i a -> a ∉ more) -> edge (out_edges st') i j).
Proof.
  revert m st draws killed. induction fuel as [|fuel IH]; intros m st draws killed Hst Hf; [lia|].
  cbn [dd_loop]. destruct (dd_search_ok st Hst) as (res & -> & Hres).
  destruct res as [[[x|] color] parent].
  - destruct Hres as [s Hcl].
    assert (~ acyclic st) as Hcyc by (intros Ha; apply (Ha x); by eapply closes_cycle).
    destruct (pick_victim_ok (out_edges st) opts st parent x s draws Hcl) as (r & d & -> & Hv & Hn).
    assert (forall v, v ∈ x :: s -> (live (drop_edges st v) < fuel)%nat) as Hlive.
    { intros v Hin. pose proof (live_drop st v (closes_live st parent x s v Hcl Hin)). lia. }
    destruct r as [v|].
    + specialize (Hv v eq_refl). set (vid := dn_id (dd_nodes st !!! v)).
      destruct (closes_node st parent x s v Hcl Hv) as [Hid [y Hy]]. fold vid in Hid.
      destruct (IH (kill_victim m vid skip).1 (drop_edges st v) d (killed ++ [vid]))
        as (m' & st' & more & -> & Ha & Hm & Hmore & _ & Hkeep); [by apply drop_edges_ok|by apply Hlive|].
      exists m', st', (vid :: more). rewrite <- app_assoc. split_and!; [done|done|done| |by intros|].
      * intros vid' [->|Hin]%elem_of_cons; [by eauto|].
        destruct (Hmore vid' Hin) as (i & j & Hi & Hij). exists i, j.
        split; [by eapply id_at_drop|]. by apply drop_edge in Hij as [? _].
      * intros Hp i j Hij Hnot. apply Hkeep; [done| |].
        -- apply drop_edge. split; [done|]. intros ->. apply (Hnot vid Hid). left.
        -- intros a Hia Hin. apply (Hnot a); [by eapply id_at_drop|by right].
    + destruct (IH m (drop_edges st x) d killed)
        as (m' & st' & more & -> & Ha & Hm & Hmore & _ & _); [by apply drop_edges_ok|apply Hlive; left|].
      exists m', st', more. split_and!; [done|done|done| |by intros|].
      * intros vid Hin. destruct (Hmore vid Hin) as (i & j & Hi & Hij). exists i, j.
        split; [by eapply id_at_drop|]. by apply drop_edge in Hij as [? _].
      * intros He. by destruct He; apply Hn.
  - exists m, st, []. rewrite app_nil_r. split_and!; try done.
    intros vid Hin. by apply elem_of_nil in Hin.
Qed.

(** ** The graph is the waits-for relation *)

(** [a] waits for [b]: a request of [a] is queued on an object where [b]
    holds a conflicting lock. *)
Definition waits_on (M : matrix) (o : lock_obj) (w : lock_entry) (g : lock_entry) (a b : Z) : Prop :=
  le_locker w = a /\ le_locker g = b /\ a <> b /\ __conflicts M (le_mode g) (le_mode w) = true.

Definition waits_for (m : xtc_lockmgr) (a b : Z) : Prop :=
  exists o, o ∈ concat (lm_parts m) /\ exists w, w ∈ lo_waiting o /\ exists g, g ∈ lo_granted o /\
    waits_on (lm_matrix m) o w g a b.

Definition edge_ids (st : dd_state) (a b : Z) : Prop :=
  exists i j, id_at st i a /\ id_at st j b /\ j ∈ out_edges st i.

Record good (st : dd_state) : Prop := mk_good {
  gd_ok : st_ok st;
  gd_ids : NoDup (dn_id <$> dd_nodes st);
}.

(** The detector's tables are not full. *)
Definition room (st : dd_state) : Prop :=
  (length (dd_nodes st) < MAX_LOCKERS)%nat /\ (length (dd_edges st) < MAX_LOCKERS * 8)%nat.

Definition grows (st st' : dd_state) : Prop :=
  (length (dd_nodes st) <= length (dd_nodes st'))%nat /\
  (length (dd_edges st) <= length (dd_edges st'))%nat /\
  (forall i a, id_at st i a -> id_at st' i a).

#[global] Instance grows_preorder : PreOrder grows.
Proof.
  split.
  - intros st. by split_and!.
  - intros s1 s2 s3 (H1 & H2 & H3) (H4 & H5 & H6). split_and!; [lia|lia|auto].
Qed.

Lemma grows_room st st' : grows st st' -> room st' -> room st.
Proof. intros (H1 & H2 & _) [H3 H4]. split; lia. Qed.

Lemma node_find_Some id l i : node_find id l = Some i -> exists n, l !! i = Some n /\ dn_id n = id.
Proof.
  revert i. induction l as [|n l IH]; intros i; [done|]. simpl. case_decide.
  - intros [= <-]. eauto.
  - intros (j & Hj & ->)%fmap_Some. by apply IH.
Qed.

Lemma node_find_None id l : node_find id l = None -> id ∉ (dn_id <$> l).
Proof.
  induction l as [|n l IH]; [intros _; apply not_elem_of_nil|]. simpl. case_decide; [done|].
  intros Hf%fmap_None. rewrite not_elem_of_cons. auto.
Qed.

Lemma id_at_inj st i j a : good st -> id_at st i a -> id_at st j a -> i = j.
Proof.
  intros [_ Hnd] (n & Hn & Ha) (n' & Hn' & Ha'). eapply NoDup_lookup; [exact Hnd| |].
  - rewrite list_lookup_fmap, Hn. simpl. by rewrite Ha.
  - rewrite list_lookup_fmap, Hn'. simpl. by rewrite Ha'.
Qed.

Lemma node_idx_grows st id lr now : grows st (__dd_node_idx st id lr now).2.
Proof.
  unfold __dd_node_idx. destruct (node_find id (dd_nodes st)); [done|]. case_decide; [done|]. simpl.
  split_and!; simpl; [rewrite length_app; lia|lia|].
  intros i a (n & Hn & Ha). exists n. split; [|done]. by apply lookup_app_l_Some.
Qed.

Lemma out_edges_app st n u :
  dn_out_first n = None ->
  out_edges (mk_dd (dd_nodes st ++ [n]) (dd_edges st)) u = out_edges st u.
Proof.
  intros Hn. unfold out_edges, out_first. simpl. f_equal. rewrite lookup_app.
  destruct (dd_nodes st !! u); [done|]. destruct (u - length (dd_nodes st))%nat as [|k] eqn:E; simpl; done.
Qed.

Lemma node_idx_ok st id lr now :
  good st -> (length (dd_nodes st) < MAX_LOCKERS)%nat ->
  exists i, (__dd_node_idx st id lr now).1 = Some i /\
    let st' := (__dd_node_idx st id lr now).2 in
    good st' /\ id_at st' i id /\ forall a b, edge_ids st' a b <-> edge_ids st a b.
Proof.
  intros [Hok Hnd] Hroom. unfold __dd_node_idx.
  destruct (node_find id (dd_nodes st)) as [i|] eqn:E.
  - apply node_find_Some in E. exists i. simpl. split_and!; try done.
  - rewrite decide_False by lia. eexists. split; [done|]. set (n := match lr with Some _ => _ | None => _ end).
    assert (dn_id n = id /\ dn_out_first n = None) as [Hid Hof] by (unfold n; by destruct lr).
    cbn [snd]. set (st' := mk_dd (dd_nodes st ++ [n]) (dd_edges st)).
    assert (forall i a, id_at st' i a <-> id_at st i a \/ (i = length (dd_nodes st) /\ a = id)) as Hat.
    { intros i a. unfold id_at. simpl. split.
      - intros (x & [Hx|[Hi Hx]]%lookup_app_Some & Ha); [left; eauto|right].
        apply list_lookup_singleton_Some in Hx as [Hx <-]. split; [lia|congruence].
      - intros [(x & Hx & Ha)|[-> ->]].
        + exists x. split; [by apply lookup_app_l_Some|done].
        + exists n. split; [|done]. rewrite lookup_app_r by lia. by rewrite Nat.sub_diag. }
    split_and!.
    + constructor.
      * destruct Hok as [H1 H2]. constructor; simpl.
        -- intros i e He. rewrite length_app. simpl. destruct (H1 i e He). split; [lia|done].
        -- intros u x i [Hx|[Hi Hx]]%lookup_app_Some; [by eapply H2|].
           apply list_lookup_singleton_Some in Hx as [_ <-]. by rewrite Hof.
      * simpl. rewrite fmap_app. apply NoDup_app. split_and!; [done| |simpl; apply NoDup_singleton].
        intros x Hx Hin. simpl in Hin. apply list_elem_of_singleton in Hin. subst x.
        apply node_find_None in E. by rewrite Hid in Hx.
    + apply Hat. by right.
    + intros a b. unfold edge_ids. split.
      * intros (i & j & Hi & Hj & He). unfold st' in He. rewrite out_edges_app in He by done.
        apply Hat in Hi as [Hi|[-> ->]].
        -- apply Hat in Hj as [Hj|[-> ->]]; [eauto|]. apply out_edges_lt in He; [lia|done].
        -- destruct (out_edges_first st _ _ He) as [k Hk]. unfold out_first in Hk.
           by rewrite lookup_ge_None_2 in Hk by lia.
      * intros (i & j & Hi & Hj & He). exists i, j. split_and!; [apply Hat; auto|apply Hat; auto|].
        unfold st'. by rewrite out_edges_app.
Qed.

Lemma add_edge_grows st from to : grows st (__dd_add_edge st from to).
Proof.
  unfold __dd_add_edge. destruct from as [from|]; [|done]. destruct to as [to|]; [|done].
  case_decide; [done|]. case_decide; [done|].
  split_and!; simpl; [by rewrite length_alter|rewrite length_app; lia|].
  intros i a Hi. by apply id_at_alter.
Qed.

Lemma alter_ids k (u : nat) (l : list dd_node) : dn_id <$> alter (set_out_first k) u l = dn_id <$> l.
Proof.
  apply list_eq. intros i. rewrite !list_lookup_fmap, list_lookup_alter.
  case_decide; [|done]. subst i. by destruct (l !! u).
Qed.

Lemma out_first_alter st k from es u :
  (from < length (dd_nodes st))%nat ->
  out_first (mk_dd (alter (set_out_first k) from (dd_nodes st)) es) u =
    if decide (u = from) then k else out_first st u.
Proof.
  intros Hlt. unfold out_first. simpl. rewrite list_lookup_alter. repeat case_decide; subst; try done.
  by destruct (lookup_lt_is_Some_2 _ _ Hlt) as [n ->].
Qed.

Lemma add_edge_targets st from to u :
  st_ok st -> (from < length (dd_nodes st))%nat ->
  out_edges (mk_dd (alter (set_out_first (Some (length (dd_edges st)))) from (dd_nodes st))
               (dd_edges st ++ [mk_edge (out_first st from) to])) u =
    (if decide (u = from) then [to] else []) ++ out_edges st u.
Proof.
  intros Hst Hlt. unfold out_edges. rewrite out_first_alter by done. cbn [dd_edges].
  rewrite length_app, Nat.add_1_r.
  assert (forall v, chain (S (length (dd_edges st))) (dd_edges st ++ [mk_edge (out_first st from) to])
      (out_first st v) = chain (length (dd_edges st)) (dd_edges st) (out_first st v) /\
    chain (length (dd_edges st)) (dd_edges st ++ [mk_edge (out_first st from) to])
      (out_first st v) = chain (length (dd_edges st)) (dd_edges st) (out_first st v)) as Hch.
  { intros v. split; symmetry; apply chain_enough; try done; intros j Hj;
      apply out_first_lt in Hj; try done; lia. }
  case_decide as D; [|by apply Hch]. subst u. cbn [chain].
  rewrite lookup_app_r by lia. rewrite Nat.sub_diag. simpl. f_equal. apply Hch.
Qed.

Lemma add_edge_ok st i j a b :
  good st -> (length (dd_edges st) < MAX_LOCKERS * 8)%nat -> id_at st i a -> id_at st j b ->
  let st' := __dd_add_edge st (Some i) (Some j) in
  good st' /\ forall x y, edge_ids st' x y <-> edge_ids st x y \/ (x = a /\ y = b).
Proof.
  intros Hg Hroom Hi Hj. cbn [__dd_add_edge]. rewrite decide_False by lia.
  assert (i < length (dd_nodes st))%nat as Hlt.
  { destruct Hi as (n & Hn & _). by eapply lookup_lt_Some. }
  case_decide as D.
  - split; [done|]. intros x y. split; [auto|]. intros [?|[-> ->]]; [done|]. exists i, j. done.
  - set (st' := mk_dd _ _). pose proof (add_edge_targets st i j) as Ht. fold st' in Ht.
    assert (forall k c, id_at st' k c <-> id_at st k c) as Hat by (intros; by apply id_at_alter).
    split.
    + destruct Hg as [Hok Hnd]. constructor.
      * destruct Hok as [H1 H2]. constructor; simpl; rewrite ?length_alter.
        -- intros k e [He|[Hk He]]%lookup_app_Some; [by apply H1|].
           apply list_lookup_singleton_Some in He as [Hk' <-]. simpl. split.
           ++ destruct Hj as (n & Hn & _). by eapply lookup_lt_Some.
           ++ intros l Hl. apply out_first_lt in Hl; [lia|by constructor].
        -- rewrite length_app. simpl. intros u n k. rewrite list_lookup_alter. case_decide.
           ++ intros (n' & Hn' & ->)%fmap_Some. simpl. intros [= <-]. lia.
           ++ intros Hn Hk. specialize (H2 u n k Hn Hk). lia.
      * simpl. by rewrite alter_ids.
    + intros x y. unfold edge_ids. split.
      * intros (u & v & Hu & Hv & He). rewrite Ht, elem_of_app in He by (apply Hg || done).
        apply Hat in Hu, Hv. destruct He as [He|He]; [|left; eauto]. right. revert He.
        case_decide; [|intros He; by apply elem_of_nil in He]. intros ->%list_elem_of_singleton. subst u.
        destruct Hu as (n & Hn & <-), Hi as (n' & Hn' & <-), Hv as (k & Hk & <-), Hj as (k' & Hk' & <-).
        split; congruence.
      * intros [(u & v & Hu & Hv & He)|[-> ->]].
        -- exists u, v. split_and!; [by apply Hat|by apply Hat|]. rewrite Ht by (apply Hg || done).
           apply elem_of_app. by right.
        -- exists i, j. split_and!; [by apply Hat|by apply Hat|]. rewrite Ht by (apply Hg || done).
           rewrite decide_True by done. left.
Qed.

(** Adding a list of things one after the other. *)
Lemma fold_grows {A} (f : dd_state -> A -> dd_state) l st :
  (forall st x, grows st (f st x)) -> grows st (foldl f st l).
Proof.
  intros Hf. revert st. induction l as [|x l IH]; intros st; simpl; [done|].
  etransitivity; [apply Hf|apply IH].
Qed.

Lemma fold_edges {A} (I : dd_state -> Prop) (f : dd_state -> A -> dd_state)
    (P : A -> Z -> Z -> Prop) l st :
  (forall st x, grows st (f st x)) ->
  (forall st x, x ∈ l -> I st -> room (f st x) ->
     I (f st x) /\ forall a b, edge_ids (f st x) a b <-> edge_ids st a b \/ P x a b) ->
  I st -> room (foldl f st l) ->
  I (foldl f st l) /\
  forall a b, edge_ids (foldl f st l) a b <-> edge_ids st a b \/ exists x, x ∈ l /\ P x a b.
Proof.
  intros Hgr. revert st. induction l as [|x l IH]; intros st Hf HI Hroom; simpl in *.
  { split; [done|]. intros a b. split; [auto|]. intros [?|(x & Hx & _)]; [done|]. by apply elem_of_nil in Hx. }
  destruct (Hf st x) as [HI1 He1]; [left|done| |].
  { exact (grows_room _ _ (fold_grows f l (f st x) Hgr) Hroom). }
  destruct (IH (f st x)) as [HI2 He2]; [|done|done|].
  { intros st' y Hy. apply Hf. by right. }
  split; [done|]. intros a b. rewrite He2, He1. split.
  - intros [[?|?]|(y & Hy & ?)]; [by left|right; exists x; split; [left|done]|].
    right. exists y. split; [by right|done].
  - intros [?|(y & [->|Hy]%elem_of_cons & ?)]; [auto|auto|]. right. eauto.
Qed.

Lemma add_holder_grows m now w from st g : grows st (add_holder m now w from st g).
Proof.
  unfold add_holder. case_decide; [done|]. destruct (__conflicts _ _ _); [|done].
  pose proof (node_idx_grows st (le_locker g) (__locker_find m (le_locker g)) now) as Hg.
  destruct (__dd_node_idx _ _ _ _) as [to st1]. etransitivity; [exact Hg|apply add_edge_grows].
Qed.

Lemma add_holder_ok m now o w i st g :
  good st -> id_at st i (le_locker w) -> room (add_holder m now w (Some i) st g) ->
  good (add_holder m now w (Some i) st g) /\
  forall a b, edge_ids (add_holder m now w (Some i) st g) a b <->
    edge_ids st a b \/ waits_on (lm_matrix m) o w g a b.
Proof.
  intros Hg Hi Hroom. assert (room st) as Hr by (eapply grows_room; [apply add_holder_grows|done]).
  unfold add_holder, waits_on in *. case_decide as D.
  { split; [done|]. intros a b. naive_solver. }
  destruct (__conflicts (lm_matrix m) (le_mode g) (le_mode w)) eqn:Hc; [|split; [done|]; naive_solver].
  destruct (node_idx_ok st (le_locker g) (__locker_find m (le_locker g)) now Hg (proj1 Hr))
    as (j & Hj & Hg1 & Hat & He).
  pose proof (node_idx_grows st (le_locker g) (__locker_find m (le_locker g)) now) as (_ & _ & Hgr).
  destruct (__dd_node_idx _ _ _ _) as [to st1]. simpl in *. subst to.
  pose proof (grows_room _ _ (add_edge_grows st1 (Some i) (Some j)) Hroom) as Hr1.
  destruct (add_edge_ok st1 i j (le_locker w) (le_locker g) Hg1 (proj2 Hr1) (Hgr _ _ Hi) Hat)
    as [Hg2 He2].
  split; [done|]. intros a b. rewrite He2, He. naive_solver.
Qed.

Lemma add_waiter_grows m now o st w : grows st (add_waiter m now o st w).
Proof.
  unfold add_waiter. pose proof (node_idx_grows st (le_locker w) (__locker_find m (le_locker w)) now) as Hg.
  destruct (__dd_node_idx _ _ _ _) as [from st1]. etransitivity; [exact Hg|].
  apply fold_grows. intros. apply add_holder_grows.
Qed.

Lemma add_waiter_ok m now o st w :
  good st -> room (add_waiter m now o st w) ->
  good (add_waiter m now o st w) /\
  forall a b, edge_ids (add_waiter m now o st w) a b <->
    edge_ids st a b \/ exists g, g ∈ lo_granted o /\ waits_on (lm_matrix m) o w g a b.
Proof.
  intros Hg Hroom. assert (room st) as Hr by (eapply grows_room; [apply add_waiter_grows|done]).
  unfold add_waiter in *.
  destruct (node_idx_ok st (le_locker w) (__locker_find m (le_locker w)) now Hg (proj1 Hr))
    as (i & Hi & Hg1 & Hat & He).
  destruct (__dd_node_idx _ _ _ _) as [from st1]. simpl in *. subst from.
  destruct (fold_edges (fun st => good st /\ id_at st i (le_locker w)) (add_holder m now w (Some i))
    (fun g a b => waits_on (lm_matrix m) o w g a b) (lo_granted o) st1) as [[Hg2 _] He2].
  - intros. apply add_holder_grows.
  - intros st2 g _ [Hg2 Hat2] Hroom2.
    destruct (add_holder_ok m now o w i st2 g Hg2 Hat2 Hroom2) as [Hg3 He3].
    split; [|done]. split; [done|]. by apply (add_holder_grows m now w (Some i) st2 g).
  - done.
  - done.
  - split; [done|]. intros a b. rewrite He2, He. done.
Qed.

Lemma dd_build_ok m now :
  room (dd_build m now) ->
  good (dd_build m now) /\ forall a b, edge_ids (dd_build m now) a b <-> waits_for m a b.
Proof.
  intros Hroom. unfold dd_build in *.
  destruct (fold_edges good (fun st o => foldl (add_waiter m now o) st (lo_waiting o))
    (fun o a b => exists w, w ∈ lo_waiting o /\ exists g, g ∈ lo_granted o /\
       waits_on (lm_matrix m) o w g a b) (concat (lm_parts m)) dd_empty) as [Hg He].
  - intros st o. apply fold_grows. intros. apply add_waiter_grows.
  - intros st o _ Hg Hr. apply (fold_edges good (add_waiter m now o)
      (fun w a b => exists g, g ∈ lo_granted o /\ waits_on (lm_matrix m) o w g a b)); try done.
    + intros. apply add_waiter_grows.
    + intros st' w _ Hg' Hr'. by apply add_waiter_ok.
  - constructor; [constructor|constructor]; intros; by simpl in *.
  - done.
  - split; [done|]. intros a b. rewrite He. split; [|by right]. intros [(i & j & (n & Hn & _) & _)|?]; done.
Qed.

(** Cycles of the graph are cycles of the relation. *)
Lemma build_cycles m now :
  room (dd_build m now) -> acyclic (dd_build m now) <-> forall a, ~ tc (waits_for m) a a.
Proof.
  intros Hroom. destruct (dd_build_ok m now Hroom) as [Hg He]. set (st := dd_build m now) in *. split.
  - intros Ha a Hp.
    assert (forall a b, tc (waits_for m) a b -> forall i, id_at st i a ->
      exists j, id_at st j b /\ tc (edge (out_edges st)) i j) as Hmap.
    { clear -He Hg. intros a b Hp. induction Hp as [a b Hw|a c b Hw Hp IH]; intros i Hi;
        apply He in Hw as (i' & j & Hi' & Hj & Hij); rewrite (id_at_inj st i i' a Hg Hi Hi').
      - exists j. split; [done|]. by apply tc_once.
      - destruct (IH j Hj) as (k & Hk & Hjk). exists k. split; [done|]. by eapply tc_l. }
    assert (exists i, id_at st i a) as [i Hi].
    { inversion Hp as [? ? Hw|? ? ? Hw _]; subst; apply He in Hw as (i & j & Hi & _); by exists i. }
    destruct (Hmap a a Hp i Hi) as (j & Hj & Hc). rewrite (id_at_inj st j i a Hg Hj Hi) in Hc. by apply (Ha i).
  - intros Ha u Hp.
    assert (forall u v, tc (edge (out_edges st)) u v -> forall a b, id_at st u a -> id_at st v b ->
      tc (waits_for m) a b) as Hmap.
    { clear u Hp. intros u v Hp. induction Hp as [u v Huv|u w v Huw Hp IH]; intros a b Hu Hv.
      - apply tc_once, He. by exists u, v.
      - assert (w < length (dd_nodes st))%nat as Hw by (eapply out_edges_lt; [apply Hg|exact Huw]).
        destruct (lookup_lt_is_Some_2 _ _ Hw) as [n Hn].
        assert (id_at st w (dn_id n)) as Hwn by (by exists n).
        eapply tc_l; [|by apply IH]. apply He. by exists u, w. }
    assert (exists a, id_at st u a) as [a Hua].
    { assert (u < length (dd_nodes st))%nat as Hw.
      { assert (exists w, edge (out_edges st) w u) as [w Hw] by (clear -Hp; induction Hp; eauto).
        eapply out_edges_lt; [apply Hg|exact Hw]. }
      destruct (lookup_lt_is_Some_2 _ _ Hw) as [n Hn]. by exists (dn_id n), n. }
    by apply (Ha a), (Hmap u u).
Qed.

(** ** The detector *)

Lemma live_lt st : (live st < S (length (dd_nodes st)))%nat.
Proof. unfold live. pose proof (length_filter (fun n => is_Some (dn_out_first n)) (dd_nodes st)). lia. Qed.

(** [a] waits for [b] and was not killed. *)
Definition still_waits (m : xtc_lockmgr) (killed : list Z) (a b : Z) : Prop :=
  waits_for m a b /\ a ∉ killed.

Lemma still_waits_edge m now killed st' :
  room (dd_build m now) ->
  (forall i j, edge (out_edges (dd_build m now)) i j ->
     (forall a, id_at (dd_build m now) i a -> a ∉ killed) -> edge (out_edges st') i j) ->
  forall a b, tc (still_waits m killed) a b ->
  forall i, id_at (dd_build m now) i a ->
  exists j, id_at (dd_build m now) j b /\ tc (edge (out_edges st')) i j.
Proof.
  intros Hroom Hkeep. destruct (dd_build_ok m now Hroom) as [Hg He]. set (st := dd_build m now) in *.
  assert (forall a b i, still_waits m killed a b -> id_at st i a ->
    exists j, id_at st j b /\ edge (out_edges st') i j) as Hone.
  { intros a b i [Hw Hk] Hi. apply He in Hw as (i' & j & Hi' & Hj & Hij).
    rewrite (id_at_inj st i i' a Hg Hi Hi'). exists j. split; [done|]. apply Hkeep; [done|].
    intros a' (n & Hn & <-). destruct Hi' as (n' & Hn' & Ha). by simplify_eq. }
  intros a b Hp. induction Hp as [a b Hw|a c b Hw Hp IH]; intros i Hi;
    destruct (Hone _ _ i Hw Hi) as (j & Hj & Hij).
  - exists j. split; [done|]. by apply tc_once.
  - destruct (IH j Hj) as (k & Hk & Hjk). exists k. split; [done|]. by eapply tc_l.
Qed.

(** C2: the detector is correct.  Unless its tables are full, a call whose
    allocations succeed always returns (its loops end within the fuel given
    from the table sizes), whatever the victim policy, picker and random
    numbers; what it does to the manager is to kill the lockers it counts,
    each of which was waiting for somebody; when no locker waits for itself
    through a chain of waits it kills nobody; and for every policy but
    EXPIRE it resolves every deadlock: among the lockers not killed no chain
    of waits closes. *)
Theorem deadlock_detection m now opts skip :
  room (dd_build m now) ->
  exists m' killed,
    xtc_lockmgr_check_deadlocks (Some m) XTC_OK XTC_OK XTC_OK now opts skip =
      Some (XTC_OK, Some m', killed) /\
    m' = foldl (fun m vid => (kill_victim m vid skip).1) m killed /\
    (forall a, a ∈ killed -> exists b, waits_for m a b) /\
    ((forall a, ~ tc (waits_for m) a a) -> killed = []) /\
    (do_victim opts <> XTC_LOCK_VICTIM_EXPIRE -> forall a, ~ tc (still_waits m killed) a a).
Proof.
  intros Hroom. destruct (dd_build_ok m now Hroom) as [Hg He].
  destruct (dd_loop_ok (S (length (dd_nodes (dd_build m now)))) opts skip m (dd_build m now) 0 []
    (gd_ok _ Hg) (live_lt _)) as (m' & st' & killed & E & Hacyc & Hm & Hwait & Hnone & Hkeep).
  exists m', killed. unfold xtc_lockmgr_check_deadlocks.
  rewrite !decide_False by (intros H; by apply H). rewrite E. split_and!; [done|done| | |].
  - intros a Ha. destruct (Hwait a Ha) as (i & j & Hi & Hij).
    destruct (lookup_lt_is_Some_2 (dd_nodes (dd_build m now)) j) as [n Hn].
    { eapply out_edges_lt; [apply Hg|exact Hij]. }
    exists (dn_id n). apply He. exists i, j. split_and!; [done|by exists n|done].
  - intros Hno. by apply Hnone, build_cycles.
  - intros Hp a Hc.
    assert (exists i, id_at (dd_build m now) i a) as [i Hi].
    { inversion Hc as [? ? [Hw _]|? ? ? [Hw _] _]; subst; apply He in Hw as (i & j & Hi & _); by exists i. }
    destruct (still_waits_edge m now killed st' Hroom (Hkeep Hp) a a Hc i Hi) as (j & Hj & Hij).
    rewrite (id_at_inj _ j i a Hg Hj Hi) in Hij. by apply (Hacyc i).
Qed.

(** ** A deadlock between 2 and 3, with 1 waiting outside it *)

Definition key_a : list Z := [1].
Definition key_b : list Z := [2].

Definition x_get (m : xtc_lockmgr) (locker : Z) (key : list Z) (id : positive) : xtc_lockmgr :=
  match xtc_lock_get (Some m) locker (Some key) XTC_LOCK_X (-1) true (Some id) with
  | Some r => outcome_mgr r
  | None => m
  end.

Definition new_locker (m : xtc_lockmgr) (now : Z) : xtc_lockmgr :=
  default m (xtc_lockmgr_id (Some m) true XTC_OK now).2.

(** Lockers 1, 2, 3; 3 holds b and 2 holds a; 1 asks for a, 3 for a, 2 for b. *)
Definition demo_deadlock : xtc_lockmgr :=
  let m0 := new_locker (new_locker (new_locker demo_new 10) 20) 30 in
  let m1 := x_get (x_get m0 3 key_b 1) 2 key_a 2 in
  x_get (x_get (x_get m1 1 key_a 3) 3 key_a 4) 2 key_b 5.

Definition demo_opts : dd_opts := mk_dd_opts XTC_LOCK_VICTIM_MIN_LOCKS None (fun _ => 0).

Lemma demo_run_x_get m locker key id :
  demo_run m -> fresh_id_b m id = true -> demo_run (x_get m locker key id).
Proof.
  intros Hr Hf. unfold x_get.
  destruct (xtc_lock_get (Some m) locker (Some key) XTC_LOCK_X (-1) true (Some id)) as [r|] eqn:E; [|done].
  eapply demo_run_step; [done|]. eapply step_call, step_get; [|exact E].
  apply fresh_id_check; [|done]. apply demo_run_ok in Hr. apply Hr.
Qed.

Lemma demo_run_locker m now : demo_run m -> demo_run (new_locker m now).
Proof.
  intros Hr. unfold new_locker.
  destruct (xtc_lockmgr_id (Some m) true XTC_OK now) as [[c id] [m'|]] eqn:E; [|done].
  eapply demo_run_step; [done|]. by eapply step_call, step_id.
Qed.

Lemma demo_deadlock_run : demo_run demo_deadlock.
Proof.
  unfold demo_deadlock.
  repeat (apply demo_run_x_get; [|vm_compute; reflexivity]). repeat apply demo_run_locker. constructor.
Qed.

Definition never_holds (locker : Z) (m : xtc_lockmgr) : bool :=
  forallb (fun o => forallb (fun g => negb (bool_decide (le_locker g = locker))) (lo_granted o))
    (concat (lm_parts m)).

(** Nobody waits for a locker that holds nothing. *)
Lemma never_holds_no_cycle locker m : never_holds locker m = true -> ~ tc (waits_for m) locker locker.
Proof.
  intros Hn Hp. assert (exists a, waits_for m a locker) as [a Hw].
  { clear Hn. revert Hp. generalize locker at 1 as b. intros b Hp. induction Hp; eauto. }
  destruct Hw as (o & Ho & w & Hw & g & Hg & _ & Hl & _).
  unfold never_holds in Hn. rewrite List.forallb_forall in Hn.
  specialize (Hn o (proj1 (list_elem_of_In _ _) Ho)). rewrite List.forallb_forall in Hn.
  specialize (Hn g (proj1 (list_elem_of_In _ _) Hg)). by rewrite bool_decide_true in Hn.
Qed.

(** The victim need not be part of the deadlock.  Lockers 2 and 3 wait
    for each other and locker 1, which holds nothing, waits for 2.  The
    victim is chosen over the whole search path, from the cycle back to the
    root of the search, and the root is 1: with the fewest-locks policy the
    detector aborts locker 1, which no cycle goes through, and then has to
    kill a second locker to break the deadlock. *)
Theorem victim_outside_cycle :
  demo_run demo_deadlock /\ ~ tc (waits_for demo_deadlock) 1 1 /\
  exists m', xtc_lockmgr_check_deadlocks (Some demo_deadlock) XTC_OK XTC_OK XTC_OK 100 demo_opts no_faults =
    Some (XTC_OK, Some m', [1; 3]).
Proof.
  split_and!.
  - apply demo_deadlock_run.
  - apply never_holds_no_cycle. vm_compute. reflexivity.
  - eexists. vm_compute. reflexivity.
Qed.

Lemma deadlock_detection_witness :
  exists m' killed,
    xtc_lockmgr_check_deadlocks (Some demo_deadlock) XTC_OK XTC_OK XTC_OK 100 demo_opts no_faults =
      Some (XTC_OK, Some m', killed) /\
    forall a, ~ tc (still_waits demo_deadlock killed) a a.
Proof.
  assert (room (dd_build demo_deadlock 100)) as Hroom.
  { assert (length (dd_nodes (dd_build demo_deadlock 100)) = 3%nat) as E1 by (vm_compute; reflexivity).
    assert (length (dd_edges (dd_build demo_deadlock 100)) = 3%nat) as E2 by (vm_compute; reflexivity).
    unfold room. rewrite E1, E2. split; apply Nat.ltb_lt; vm_compute; reflexivity. }
  destruct (deadlock_detection demo_deadlock 100 demo_opts no_faults Hroom)
    as (m' & killed & E & _ & _ & _ & H).
  exists m', killed. split; [exact E|]. apply H. discriminate.
Defined.
