(* ===== verification/Sync.v ===== *)
(** * Semaphore and notify (src/ptc/sync.c), and the waiting they share

    Every operation of sync.c holds the primitive's mutex except while its
    caller is parked (a fiber on its waker) or asleep (a thread on the
    condition variable), so a call is a sequence of critical sections: one
    from the call to its first park or return, and one per turn of its wait
    loop.  Each section is a function on the primitive's state; clients are
    the threads of a pool that run sections in any order.  What a section
    reads from outside (a pending kill, an expired deadline, the fault
    injector's coin) is an argument.  A resumption needs no cause in the
    model (wake-ups may be spurious); which waiters have a wake-up pending
    is recorded, for the theorems on progress. *)

From S2P Require Import Prelude.

Local Open Scope Z_scope.

(** ** Fiber queues and condition variables *)

(** A queued fiber: its identity and what it wants ([need] of a semaphore,
    [mode] of a latch). *)
Abbreviation fw_queue A := (list (nat * A)).

Definition fw_queued {A} (q : fw_queue A) (i : nat) : bool := bool_decide (i ∈ q.*1).

(** Link at the tail unless already queued. *)
Definition fw_enqueue {A} (q : fw_queue A) (i : nat) (a : A) : fw_queue A :=
  if fw_queued q i then q else q ++ [(i, a)].

Definition fw_remove {A} (q : fw_queue A) (i : nat) : fw_queue A :=
  filter (fun w => w.1 <> i) q.

(** Fire every queued waiter's waker: the set of fibers with a wake pending. *)
Definition fw_wake_all {A} (q : fw_queue A) (woken : gset nat) : gset nat :=
  list_to_set q.*1 ∪ woken.

(** A condition variable: threads asleep on it, and threads woken that have
    not run yet. *)
Record condvar := mk_cv { cv_asleep : gset nat; cv_signalled : gset nat }.

Definition cv_empty : condvar := mk_cv ∅ ∅.

Definition cv_broadcast (c : condvar) : condvar := mk_cv ∅ (cv_asleep c ∪ cv_signalled c).

(** Wakes one sleeper: [pick] if it sleeps, else some other. *)
Definition cv_signal (c : condvar) (pick : nat) : condvar :=
  let target := if decide (pick ∈ cv_asleep c) then Some pick else head (elements (cv_asleep c)) in
  match target with
  | None => c
  | Some i => mk_cv (cv_asleep c ∖ {[i]}) ({[i]} ∪ cv_signalled c)
  end.

Definition cv_sleep (c : condvar) (i : nat) : condvar :=
  mk_cv ({[i]} ∪ cv_asleep c) (cv_signalled c ∖ {[i]}).

(** Thread [i] runs again. *)
Definition cv_run (c : condvar) (i : nat) : condvar :=
  mk_cv (cv_asleep c ∖ {[i]}) (cv_signalled c ∖ {[i]}).

(** What a critical section of a waiting operation ends with. *)
Inductive turn : Type :=
  | TReturn (c : rc)
  | TPark                (** a fiber parks *)
  | TSleep               (** a thread sleeps *)
  | TKill.               (** a fiber goes to deliver its kill *)

Section Queue.
Context {A : Type}.
Implicit Types q : fw_queue A.

Lemma fw_queued_spec q i : fw_queued q i = true <-> exists a, (i, a) ∈ q.
Proof.
  unfold fw_queued. rewrite bool_decide_eq_true, list_elem_of_fmap. split.
  - intros ([j a] & -> & Hin). by exists a.
  - intros [a Ha]. by exists (i, a).
Qed.

Lemma fw_remove_elem q i j a : (j, a) ∈ fw_remove q i <-> (j, a) ∈ q /\ j <> i.
Proof. unfold fw_remove. rewrite list_elem_of_filter. simpl. naive_solver. Qed.

Lemma fw_enqueue_elem q i a j b :
  (j, b) ∈ fw_enqueue q i a <-> (j, b) ∈ q \/ (j = i /\ b = a /\ fw_queued q i = false).
Proof.
  unfold fw_enqueue. destruct (fw_queued q i); [naive_solver|].
  rewrite elem_of_app, list_elem_of_singleton. naive_solver.
Qed.

Lemma fw_wake_all_elem q woken i : i ∈ fw_wake_all q woken <-> fw_queued q i = true \/ i ∈ woken.
Proof.
  unfold fw_wake_all, fw_queued. rewrite elem_of_union, elem_of_list_to_set, bool_decide_eq_true. done.
Qed.

Lemma fw_remove_NoDup q i : NoDup q.*1 -> NoDup (fw_remove q i).*1.
Proof. intros. eapply sublist_NoDup; [done|]. apply fmap_sublist, sublist_filter. Qed.

Lemma fw_enqueue_NoDup q i a : NoDup q.*1 -> NoDup (fw_enqueue q i a).*1.
Proof.
  intros Hnd. unfold fw_enqueue. destruct (fw_queued q i) eqn:E; [done|].
  rewrite fmap_app. apply NoDup_app. split_and!; [done| |simpl; apply NoDup_singleton].
  intros j Hj. simpl. rewrite list_elem_of_singleton. intros ->.
  by apply bool_decide_eq_false in E.
Qed.

Lemma fw_remove_fresh q i : fw_queued q i = false -> fw_remove q i = q.
Proof.
  intros Hi%bool_decide_eq_false. induction q as [|[j a] q IH]; [done|].
  rewrite fmap_cons, not_elem_of_cons in Hi. simpl in Hi. unfold fw_remove.
  rewrite filter_cons. simpl. rewrite decide_True by naive_solver. f_equal. apply IH. tauto.
Qed.

(** Unlinking what was just linked. *)
Lemma fw_remove_enqueue q i a : fw_remove (fw_enqueue q i a) i = fw_remove q i.
Proof.
  unfold fw_enqueue. destruct (fw_queued q i); [done|]. unfold fw_remove. rewrite filter_app.
  rewrite (filter_cons_False _ (i, a)) by (simpl; tauto). rewrite filter_nil. by rewrite app_nil_r.
Qed.

Lemma fw_remove_head q i a : NoDup ((i, a) :: q).*1 -> fw_remove ((i, a) :: q) i = q.
Proof.
  rewrite fmap_cons, NoDup_cons. intros [Hi _]. unfold fw_remove. rewrite filter_cons. simpl.
  rewrite decide_False by naive_solver. apply fw_remove_fresh. by apply bool_decide_eq_false.
Qed.

Lemma fw_queued_remove q i j :
  fw_queued (fw_remove q i) j = if decide (j = i) then false else fw_queued q j.
Proof.
  apply eq_bool_prop_intro. rewrite !Is_true_true, fw_queued_spec.
  setoid_rewrite fw_remove_elem. destruct (decide (j = i)) as [->|Hne]; [naive_solver|].
  rewrite fw_queued_spec. naive_solver.
Qed.

Lemma fw_queued_enqueue q i a j :
  fw_queued (fw_enqueue q i a) j = if decide (j = i) then true else fw_queued q j.
Proof.
  apply eq_bool_prop_intro. rewrite !Is_true_true, fw_queued_spec.
  setoid_rewrite fw_enqueue_elem. destruct (decide (j = i)) as [->|Hne].
  - split; [done|]. intros _. destruct (fw_queued q i) eqn:E; [|eauto].
    apply fw_queued_spec in E as [b Hb]. eauto.
  - rewrite fw_queued_spec. naive_solver.
Qed.
End Queue.

(** ** Spinning before a sleep *)

Definition SYNC_SPIN_ROUNDS : Z := 512.
Definition SYNC_NOTIFY_SPIN_ROUNDS : Z := 4096.
Definition SYNC_REF_POLL_NS : Z := 11.
Definition SYNC_CAL_POLLS : Z := 256.
Definition SYNC_CAL_TRIALS : nat := 3.

(** The floor of the scale: x86 keeps at least the tuned counts. *)
Definition SYNC_SCALE_MIN_PM (x86 : bool) : Z := if x86 then 1000 else 1000 `quot` 16.

(** The spinners a lock admits, with the cached value (-1: not computed). *)
Definition sync_spin_cap (sim : bool) (ncpus cached : Z) : Z * Z :=
  if sim then (0, cached)
  else if decide (cached < 0) then
    let v := if decide (1 < ncpus) then
               if decide (0 < ncpus `quot` 4) then ncpus `quot` 4 else 1
             else 0 in
    (v, v)
  else (cached, cached).

(** The best of the trials; [None] when a clock read fails. *)
Fixpoint cal_best (trials : list (option (Z * Z))) (best : Z) : option Z :=
  match trials with
  | [] => Some best
  | None :: _ => None
  | Some (t0, t1) :: ts => cal_best ts (if decide (t1 - t0 < best) then t1 - t0 else best)
  end.

(** The value returned and the scale stored ([None]: not stored).  [trials]:
    the clock readings around each trial. *)
Definition sync_spin_calibrate (x86 : bool) (trials : list (option (Z * Z))) : Z * option Z :=
  match cal_best (take SYNC_CAL_TRIALS trials) INT64_MAX with
  | None => (1000, None)
  | Some best =>
      let best := if decide (best < 1) then 1 else best in
      let pm := i32 ((SYNC_REF_POLL_NS * SYNC_CAL_POLLS * 1000) `quot` best) in
      let pm := if decide (pm < SYNC_SCALE_MIN_PM x86) then SYNC_SCALE_MIN_PM x86 else pm in
      let pm := if decide (64 * 1000 < pm) then 64 * 1000 else pm in
      (pm, Some pm)
  end.

(** [tuned] polls of the reference core in polls of this one, and the scale
    left behind ([scale] 0: not calibrated yet). *)
Definition sync_spin_rounds (x86 : bool) (trials : list (option (Z * Z))) (scale tuned : Z) : Z * Z :=
  let '(pm, scale) :=
    if decide (scale = 0) then
      let '(pm, st) := sync_spin_calibrate x86 trials in (pm, default scale st)
    else (scale, scale) in
  (i32 ((tuned * pm) `quot` 1000), scale).

(** Admitted to the spin if fewer than [cap] are spinning. *)
Definition sync_spin_enter (cap spinners : Z) : bool * Z :=
  if decide (cap = 0) then (false, spinners)
  else if decide (cap <= spinners) then (false, spinners + 1 - 1)
  else (true, spinners + 1).

Definition sync_spin_leave (spinners : Z) : Z := spinners - 1.

(** A scale the calibration can leave: unset, or within its clamp. *)
Definition scale_ok (x86 : bool) (scale : Z) : Prop :=
  scale = 0 \/ SYNC_SCALE_MIN_PM x86 <= scale <= 64 * 1000.

Lemma calibrate_ok x86 trials pm st :
  sync_spin_calibrate x86 trials = (pm, st) ->
  SYNC_SCALE_MIN_PM x86 <= pm <= 64 * 1000 /\ scale_ok x86 (default 0 st).
Proof.
  assert (0 < SYNC_SCALE_MIN_PM x86 <= 1000) as Hm.
  { destruct x86; unfold SYNC_SCALE_MIN_PM; [lia|]. by vm_compute. }
  unfold sync_spin_calibrate, scale_ok. destruct (cal_best _ _) as [best|]; intros [= <- <-]; simpl.
  - repeat case_decide; simpl; split; auto; lia.
  - split; [lia|by left].
Qed.

(** The spin is bounded and never overflows, whatever the clock says
    (failing, standing still, going backwards).  For either tuned count the
    rounds lie between the count times the floor and 64 times the count, on
    x86 never fewer than the tuned count; and the scale left behind is again
    one that later calls accept. *)
Theorem spin_rounds_bounds x86 trials scale tuned rounds scale' :
  scale_ok x86 scale -> 0 <= tuned <= SYNC_NOTIFY_SPIN_ROUNDS ->
  sync_spin_rounds x86 trials scale tuned = (rounds, scale') ->
  (tuned * SYNC_SCALE_MIN_PM x86) / 1000 <= rounds <= 64 * tuned /\
  (x86 = true -> tuned <= rounds) /\ scale_ok x86 scale'.
Proof.
  intros Hs Ht. unfold sync_spin_rounds, SYNC_NOTIFY_SPIN_ROUNDS in *.
  assert (forall pm, SYNC_SCALE_MIN_PM x86 <= pm <= 64 * 1000 ->
    tuned * SYNC_SCALE_MIN_PM x86 / 1000 <= i32 ((tuned * pm) `quot` 1000) <= 64 * tuned /\
    (x86 = true -> tuned <= i32 ((tuned * pm) `quot` 1000))) as Hb.
  { intros pm Hpm. assert (0 < SYNC_SCALE_MIN_PM x86).
    { destruct x86; unfold SYNC_SCALE_MIN_PM; [lia|]. by vm_compute. }
    rewrite Z.quot_div_nonneg by nia.
    assert (tuned * SYNC_SCALE_MIN_PM x86 / 1000 <= tuned * pm / 1000) by (apply Z.div_le_mono; nia).
    assert (tuned * pm / 1000 <= 64 * tuned) by (apply Z.div_le_upper_bound; nia).
    assert (0 <= tuned * pm / 1000) by (apply Z.div_pos; nia).
    rewrite swrap_small by lia. split; [lia|]. intros ->. simpl in *.
    apply Z.div_le_lower_bound; nia. }
  destruct (decide (scale = 0)) as [->|Hne].
  - destruct (sync_spin_calibrate x86 trials) as [pm st] eqn:E.
    destruct (calibrate_ok _ _ _ _ E) as [Hpm Hst]. intros [= <- <-].
    destruct (Hb pm Hpm) as [H1 H2]. done.
  - intros [= <- <-]. destruct Hs as [Hs|Hs]; [done|]. destruct (Hb scale Hs) as [H1 H2].
    split_and!; [lia|lia|done|by right].
Qed.

Lemma spin_rounds_bounds_witness :
  let r := sync_spin_rounds true [Some (0, 5000); Some (9, 2); None] 0 SYNC_SPIN_ROUNDS in
  512 <= r.1 <= 64 * 512.
Proof.
  cbv zeta. destruct (sync_spin_rounds true [Some (0, 5000); Some (9, 2); None] 0 SYNC_SPIN_ROUNDS)
    as [r sc] eqn:E.
  destruct (spin_rounds_bounds true [Some (0, 5000); Some (9, 2); None] 0 SYNC_SPIN_ROUNDS r sc)
    as (H1 & H2 & _); [by left|by vm_compute|exact E|].
  split; [by apply H2|apply H1].
Defined.

(** ** The semaphore *)

Module Sem.

Record xtc_sem := mk_sem {
  sm_count : Z;                    (** unsigned *)
  sm_wq : fw_queue Z;
  sm_woken : gset nat;             (** fibers whose waker fired since they parked *)
  sm_cv : condvar;
}.

(** The waiters the budget satisfies, oldest first, are woken. *)
Fixpoint wake_scan (q : fw_queue Z) (budget : Z) (woken : gset nat) : gset nat :=
  match q with
  | [] => woken
  | (i, need) :: q' =>
      if decide (0 < budget) then
        if decide (need <= budget) then wake_scan q' (budget - need) ({[i]} ∪ woken)
        else wake_scan q' budget woken
      else woken
  end.

Definition sem_wake_locked (s : xtc_sem) : xtc_sem :=
  mk_sem (sm_count s) (sm_wq s) (wake_scan (sm_wq s) (sm_count s) (sm_woken s)) (sm_cv s).

(** [alloc] is the allocation's outcome. *)
Definition xtc_sem_create (initial : Z) (out : bool) (alloc : rc) : rc * option xtc_sem :=
  if out then
    match alloc with
    | XTC_OK => (XTC_OK, Some (mk_sem initial [] ∅ cv_empty))
    | e => (e, None)
    end
  else (XTC_E_INVAL, None).

Definition xtc_sem_post (s : option xtc_sem) (n : Z) : rc * option xtc_sem :=
  match s with
  | None => (XTC_E_INVAL, None)
  | Some s =>
      (XTC_OK, Some (sem_wake_locked
         (mk_sem (u32 (sm_count s + n)) (sm_wq s) (sm_woken s) (cv_broadcast (sm_cv s)))))
  end.

Definition sem_take (s : xtc_sem) (n : Z) : xtc_sem :=
  mk_sem (sm_count s - n) (sm_wq s) (sm_woken s) (sm_cv s).

Definition xtc_sem_try_acquire (s : option xtc_sem) (n : Z) : rc * option xtc_sem :=
  match s with
  | None => (XTC_E_INVAL, None)
  | Some s => if decide (n <= sm_count s) then (XTC_OK, Some (sem_take s n))
              else (XTC_E_AGAIN, Some s)
  end.

(** The fiber stops waiting: unlink, then pass what is left on. *)
Definition sem_leave (s : xtc_sem) (i : nat) : xtc_sem :=
  sem_wake_locked (mk_sem (sm_count s) (fw_remove (sm_wq s) i) (sm_woken s) (sm_cv s)).

(** One turn of fiber [i]'s loop. *)
Definition sem_fiber_turn (s : xtc_sem) (i : nat) (n : Z) (kill spurious expired : bool)
  : turn * xtc_sem :=
  let s := mk_sem (sm_count s) (sm_wq s) (sm_woken s ∖ {[i]}) (sm_cv s) in
  if kill then (TKill, sem_leave s i)
  else if decide (n <= sm_count s) then
    if spurious then (TReturn XTC_E_AGAIN, sem_leave s i)
    else (TReturn XTC_OK, sem_leave (sem_take s n) i)
  else if expired then (TReturn XTC_E_AGAIN, sem_leave s i)
  else
    let s := sem_wake_locked s in
    (TPark, mk_sem (sm_count s) (fw_enqueue (sm_wq s) i n) (sm_woken s) (sm_cv s)).

(** Thread [i] after a wait on the condition variable: a timed-out wait gives
    up whatever the count. *)
Definition sem_thread_turn (s : xtc_sem) (i : nat) (n : Z) (expired : bool) : turn * xtc_sem :=
  let s := mk_sem (sm_count s) (sm_wq s) (sm_woken s) (cv_run (sm_cv s) i) in
  if expired then (TReturn XTC_E_AGAIN, s)
  else if decide (n <= sm_count s) then (TReturn XTC_OK, sem_take s n)
  else (TSleep, mk_sem (sm_count s) (sm_wq s) (sm_woken s) (cv_sleep (sm_cv s) i)).

(** [xtc_sem_acquire] up to its first park. *)
Definition xtc_sem_acquire (s : option xtc_sem) (i : nat) (n timeout_ns : Z) (fiber : bool)
    (kill spurious expired : bool) : turn * option xtc_sem :=
  match s with
  | None => (TReturn XTC_E_INVAL, None)
  | Some s =>
      if decide (n <= sm_count s) then (TReturn XTC_OK, Some (sem_take s n))
      else if decide (timeout_ns = 0) then (TReturn XTC_E_AGAIN, Some s)
      else if fiber then let '(t, s') := sem_fiber_turn s i n kill spurious expired in (t, Some s')
      else (TSleep, Some (mk_sem (sm_count s) (sm_wq s) (sm_woken s) (cv_sleep (sm_cv s) i)))
  end.

Definition xtc_sem_count (s : option xtc_sem) : Z :=
  match s with None => 0 | Some s => i32 (sm_count s) end.

(** ** Clients *)

(** [SLoop n checked]: in the wait loop as a fiber ([checked]: kills are
    checked); [SKill n]: delivering its kill, the mutex dropped; [SSleep n]:
    waiting as a thread; [SDead]: its kill was delivered. *)
Inductive sem_pc : Type :=
  | SIdle
  | SLoop (n : Z) (checked : bool)
  | SKill (n : Z)
  | SSleep (n : Z)
  | SDead.

(** The semaphore with the units posted to it and taken from it so far. *)
Record sem_world := mk_sw { sw_sem : xtc_sem; sw_posted : Z; sw_taken : Z }.

(** The program point after a section of an acquire of [n] units. *)
Definition sem_after (t : turn) (n : Z) (checked : bool) : sem_pc :=
  match t with
  | TReturn _ => SIdle
  | TPark => SLoop n checked
  | TSleep => SSleep n
  | TKill => SKill n
  end.

Definition units (t : turn) (n : Z) : Z :=
  match t with TReturn XTC_OK => n | _ => 0 end.

(** A kill is seen only while kills are checked; after one is, the fiber is
    dead unless an outer mask defers it, and then kills are not checked. *)
Inductive sem_step (i : nat) (w : sem_world) : sem_pc -> sem_world -> sem_pc -> Prop :=
  | ss_post n s' :
      0 <= n -> xtc_sem_post (Some (sw_sem w)) n = (XTC_OK, Some s') ->
      sem_step i w SIdle (mk_sw s' (sw_posted w + n) (sw_taken w)) SIdle
  | ss_try n c s' :
      0 <= n -> xtc_sem_try_acquire (Some (sw_sem w)) n = (c, Some s') ->
      sem_step i w SIdle (mk_sw s' (sw_posted w) (sw_taken w + units (TReturn c) n)) SIdle
  | ss_acquire n timeout_ns fiber kill spurious expired t s' :
      0 <= n ->
      xtc_sem_acquire (Some (sw_sem w)) i n timeout_ns fiber kill spurious expired = (t, Some s') ->
      sem_step i w SIdle (mk_sw s' (sw_posted w) (sw_taken w + units t n)) (sem_after t n true)
  | ss_fiber n checked kill spurious expired t s' :
      (kill = true -> checked = true) ->
      sem_fiber_turn (sw_sem w) i n kill spurious expired = (t, s') ->
      sem_step i w (SLoop n checked) (mk_sw s' (sw_posted w) (sw_taken w + units t n))
        (sem_after t n checked)
  | ss_dead n : sem_step i w (SKill n) w SDead
  | ss_deferred n : sem_step i w (SKill n) w (SLoop n false)
  | ss_thread n expired t s' :
      sem_thread_turn (sw_sem w) i n expired = (t, s') ->
      sem_step i w (SSleep n) (mk_sw s' (sw_posted w) (sw_taken w + units t n)) (sem_after t n true).

(** ** Nothing is lost, nobody is stranded *)

Lemma wake_scan_mono q b woken i : i ∈ woken -> i ∈ wake_scan q b woken.
Proof.
  revert b woken. induction q as [|[j n] q IH]; intros b woken Hi; simpl; [done|].
  repeat case_decide; auto. apply IH. set_solver.
Qed.

Lemma wake_scan_some q b woken i n :
  (i, n) ∈ q -> 0 < n <= b -> exists j m, (j, m) ∈ q /\ j ∈ wake_scan q b woken.
Proof.
  revert woken. induction q as [|[j m] q IH]; intros woken Hin Hn; [by apply elem_of_nil in Hin|].
  simpl. rewrite decide_True by lia. case_decide as D.
  - exists j, m. split; [left|]. apply wake_scan_mono. set_solver.
  - apply elem_of_cons in Hin as [[= -> ->]|Hin]; [lia|].
    destruct (IH woken Hin Hn) as (k & l & Hk & Hw). exists k, l. split; [by right|done].
Qed.

(** Some queued waiter has a wake pending whenever the count would satisfy a
    queued waiter. *)
Definition fed (s : xtc_sem) : Prop :=
  forall i n, (i, n) ∈ sm_wq s -> n <= sm_count s -> exists j m, (j, m) ∈ sm_wq s /\ j ∈ sm_woken s.

Definition positive_needs (s : xtc_sem) : Prop := forall i n, (i, n) ∈ sm_wq s -> 0 < n.

Lemma sem_wake_fed s : positive_needs s -> fed (sem_wake_locked s).
Proof.
  intros Hp i n Hin Hn. simpl in *.
  assert (0 < n) by (by eapply Hp).
  destruct (wake_scan_some (sm_wq s) (sm_count s) (sm_woken s) i n Hin) as (j & m & Hj & Hw); [lia|by exists j, m].
Qed.

Definition pc_ok (p : sem_pc) : Prop :=
  match p with SLoop n _ | SKill n | SSleep n => 0 <= n | SIdle | SDead => True end.

Record sem_inv (initial : Z) (w : sem_world) (pool : gmap nat sem_pc) : Prop := mk_sem_inv {
  si_units : 0 <= sm_count (sw_sem w) /\
             sm_count (sw_sem w) = initial + sw_posted w - sw_taken w /\ 0 <= sw_taken w;
  si_nodup : NoDup (sm_wq (sw_sem w)).*1;
  si_needs : positive_needs (sw_sem w);
  si_queue : forall i n, (i, n) ∈ sm_wq (sw_sem w) -> exists c, pool !! i = Some (SLoop n c);
  si_fed : fed (sw_sem w);
  si_asleep : forall i, i ∈ cv_asleep (sm_cv (sw_sem w)) ->
    exists n, pool !! i = Some (SSleep n) /\ sm_count (sw_sem w) < n;
  si_threads : forall i n, pool !! i = Some (SSleep n) ->
    i ∈ cv_asleep (sm_cv (sw_sem w)) \/ i ∈ cv_signalled (sm_cv (sw_sem w));
  si_pcs : map_Forall (fun _ p => pc_ok p) pool;
}.

(** The parts of the invariant that do not look at the pool, after a section
    of client [i] that leaves the queue of the others as it was. *)
Record section_ok (i : nat) (s s' : xtc_sem) : Prop := mk_section_ok {
  sc_count : 0 <= sm_count s';
  sc_nodup : NoDup (sm_wq s').*1;
  sc_needs : positive_needs s';
  sc_fed : fed s';
  sc_others : forall j n, j <> i -> (j, n) ∈ sm_wq s' <-> (j, n) ∈ sm_wq s;
  sc_cv : (sm_cv s' = cv_broadcast (sm_cv s)) \/
          (sm_count s' <= sm_count s /\
           forall j, j <> i ->
             (j ∈ cv_asleep (sm_cv s') <-> j ∈ cv_asleep (sm_cv s)) /\
             (j ∈ cv_signalled (sm_cv s') <-> j ∈ cv_signalled (sm_cv s)));
}.

(** What the invariant needs of the client that ran. *)
Definition client_ok (i : nat) (s' : xtc_sem) (p : sem_pc) : Prop :=
  (forall n, (i, n) ∈ sm_wq s' -> exists c, p = SLoop n c) /\
  (i ∈ cv_asleep (sm_cv s') -> exists n, p = SSleep n /\ sm_count s' < n) /\
  (forall n, p = SSleep n -> i ∈ cv_asleep (sm_cv s') \/ i ∈ cv_signalled (sm_cv s')).

Lemma inv_section initial w pool i p s' posted taken :
  sem_inv initial w pool -> section_ok i (sw_sem w) s' -> client_ok i s' p ->
  sm_count s' = initial + posted - taken /\ 0 <= taken -> pc_ok p ->
  sem_inv initial (mk_sw s' posted taken) (<[i := p]> pool).
Proof.
  intros [Hu Hnd Hn Hq Hf Ha Ht Hpc0] [Sc Snd Sn Sf So Scv] (C1 & C2 & C3) Hc Hpc.
  constructor; simpl; try done.
  - intros j n Hin. destruct (decide (j = i)) as [->|Hne].
    + destruct (C1 n Hin) as [c ->]. exists c. by rewrite lookup_insert_eq.
    + rewrite lookup_insert_ne by done. apply Hq. by apply So.
  - intros j Hj. destruct (decide (j = i)) as [->|Hne].
    + destruct (C2 Hj) as (n & -> & Hlt). exists n. by rewrite lookup_insert_eq.
    + rewrite lookup_insert_ne by done. destruct Scv as [E|[Hle Hcv]].
      * rewrite E in Hj. simpl in Hj. set_solver.
      * apply (Hcv j Hne) in Hj. destruct (Ha j Hj) as (n & E & Hlt). exists n. split; [done|lia].
  - intros j n. destruct (decide (j = i)) as [->|Hne].
    + rewrite lookup_insert_eq. intros [= E]. by apply (C3 n).
    + rewrite lookup_insert_ne by done. intros Hj. specialize (Ht j n Hj). destruct Scv as [E|[Hle Hcv]].
      * rewrite E. simpl. set_solver.
      * destruct (Hcv j Hne) as [H1 H2]. tauto.
  - by apply map_Forall_insert_2.
Qed.

Lemma leave_elem q i j (n : Z) : (j, n) ∈ fw_remove q i -> (j, n) ∈ q.
Proof. intros [? _]%fw_remove_elem. done. Qed.

Lemma leave_section initial w pool i s' :
  sem_inv initial w pool -> 0 <= sm_count s' <= sm_count (sw_sem w) ->
  sm_wq s' = sm_wq (sw_sem w) -> sm_cv s' = sm_cv (sw_sem w) ->
  section_ok i (sw_sem w) (sem_leave s' i).
Proof.
  intros [Hu Hnd Hn Hq Hf Ha Ht Hpc0] Hc Eq Ecv.
  assert (forall j n, (j, n) ∈ fw_remove (sm_wq s') i -> 0 < n) as Hpos.
  { intros j n Hin. apply (Hn j n). rewrite <- Eq. by eapply leave_elem. }
  constructor; simpl; try done.
  - lia.
  - rewrite Eq. by apply fw_remove_NoDup.
  - apply sem_wake_fed. exact Hpos.
  - intros j n Hne. rewrite fw_remove_elem, Eq. naive_solver.
  - right. rewrite Ecv. split; [lia|done].
Qed.

Lemma idle_client initial w pool i p s' :
  sem_inv initial w pool -> pool !! i = Some p -> (forall n, p <> SSleep n) ->
  sm_cv s' = sm_cv (sw_sem w) -> (forall n, (i, n) ∉ sm_wq s') -> forall p', (forall n, p' <> SSleep n) ->
  client_ok i s' p'.
Proof.
  intros [Hu Hnd Hn Hq Hf Ha Ht Hpc0] Hp Hns Ecv Hnq p' Hns'. split_and!.
  - intros n Hin. by destruct (Hnq n).
  - rewrite Ecv. intros Hi. destruct (Ha i Hi) as (n & E & _). simplify_eq. by destruct (Hns n).
  - intros n E. by destruct (Hns' n).
Qed.

(** Client [i] is not among the waiting threads. *)
Definition awake (p : sem_pc) : Prop := forall n, p <> SSleep n.

Lemma sem_not_queued initial w pool i p n :
  sem_inv initial w pool -> pool !! i = Some p -> (forall m c, p <> SLoop m c) ->
  (i, n) ∉ sm_wq (sw_sem w).
Proof. intros Hi Hp Hn Hin. destruct (si_queue _ _ _ Hi i n Hin) as [c E]. simplify_eq. by destruct (Hn n c). Qed.

(** Taking units, or doing nothing. *)
Lemma take_section initial w pool i n :
  sem_inv initial w pool -> 0 <= n <= sm_count (sw_sem w) ->
  section_ok i (sw_sem w) (sem_take (sw_sem w) n).
Proof.
  intros [Hu Hnd Hn Hq Hf Ha Ht Hpc0] Hle. constructor; simpl; try done; [lia| |].
  - intros j m Hin Hm. apply (Hf j m Hin). simpl in Hm. lia.
  - right. split; [lia|done].
Qed.

Lemma sem_fiber_turn_ok initial w pool i p n checked kill spurious expired t s' :
  sem_inv initial w pool -> pool !! i = Some p -> 0 <= n -> p = SIdle \/ p = SLoop n checked ->
  sem_fiber_turn (sw_sem w) i n kill spurious expired = (t, s') ->
  section_ok i (sw_sem w) s' /\ client_ok i s' (sem_after t n checked) /\
  sm_count s' = sm_count (sw_sem w) - units t n.
Proof.
  intros Hi Hp Hn Hpc. pose proof Hi as [Hu Hnd Hpos Hq Hf Ha Ht Hpc0].
  assert (awake p) as Haw by (intros m; destruct Hpc as [->| ->]; done).
  set (s := mk_sem (sm_count (sw_sem w)) (sm_wq (sw_sem w)) (sm_woken (sw_sem w) ∖ {[i]}) (sm_cv (sw_sem w))).
  assert (forall s1 p', sm_cv s1 = sm_cv (sw_sem w) -> awake p' -> client_ok i (sem_leave s1 i) p') as Hleave.
  { intros s1 p' Ecv Hp'. eapply (idle_client _ _ _ _ _ _ Hi Hp Haw); [done| |done].
    intros m Hin. simpl in Hin. by apply fw_remove_elem in Hin as [_ ?]. }
  unfold sem_fiber_turn. fold s. destruct kill.
  { intros [= <- <-]. split_and!; [by apply (leave_section _ _ _ _ _ Hi); simpl; try lia|by apply Hleave|].
    simpl. lia. }
  case_decide as D.
  { destruct spurious; intros [= <- <-].
    - split_and!; [by apply (leave_section _ _ _ _ _ Hi); simpl; try lia|by apply Hleave|simpl; lia].
    - split_and!; [|by apply Hleave|done].
      apply (leave_section _ _ _ _ _ Hi); simpl in *; [lia|done|done]. }
  destruct expired; intros [= <- <-].
  { split_and!; [by apply (leave_section _ _ _ _ _ Hi); simpl; try lia|by apply Hleave|simpl; lia]. }
  simpl in D. assert (forall j m, (j, m) ∈ fw_enqueue (sm_wq (sw_sem w)) i n <->
    (j, m) ∈ sm_wq (sw_sem w) \/ (j = i /\ m = n)) as Hen.
  { intros j m. rewrite fw_enqueue_elem. split; [tauto|]. intros [?|[-> ->]]; [tauto|].
    destruct (fw_queued (sm_wq (sw_sem w)) i) eqn:E; [|tauto]. left.
    apply fw_queued_spec in E as [m Hm]. destruct (Hq i m Hm) as [c Ec]. rewrite Hp in Ec.
    injection Ec as ->. destruct Hpc as [?|[= <- _]]; [done|exact Hm]. }
  split_and!; [|split_and!|simpl; lia]; simpl.
  - constructor; simpl; try done; [lia|by apply fw_enqueue_NoDup| | | |].
    + intros j m [Hin|[-> ->]]%Hen; [by eapply Hpos|lia].
    + intros j m Hin%Hen Hle. simpl in *. destruct Hin as [Hin|[-> ->]]; [|lia].
      destruct (sem_wake_fed s Hpos j m Hin Hle) as (k & l & Hk & Hw). exists k, l.
      split; [apply Hen; by left|done].
    + intros j m Hne. rewrite Hen. naive_solver.
    + right. split; [lia|done].
  - intros m Hin%Hen. exists checked. f_equal. destruct Hin as [Hin|[_ ->]]; [|done].
    destruct (Hq i m Hin) as [c Ec]. rewrite Hp in Ec. injection Ec as ->.
    destruct Hpc as [?|[= <- _]]; [done|done].
  - intros Hin. destruct (Ha i Hin) as (m & E & _). rewrite Hp in E. injection E as ->. by destruct (Haw m).
  - done.
Qed.

Lemma sleep_ok initial w pool i p n :
  sem_inv initial w pool -> pool !! i = Some p -> (forall m c, p <> SLoop m c) ->
  sm_count (sw_sem w) < n ->
  let s' := mk_sem (sm_count (sw_sem w)) (sm_wq (sw_sem w)) (sm_woken (sw_sem w))
              (cv_sleep (sm_cv (sw_sem w)) i) in
  section_ok i (sw_sem w) s' /\ client_ok i s' (SSleep n).
Proof.
  intros Hi Hp Hloop Hlt s'. pose proof Hi as [Hu Hnd Hpos Hq Hf Ha Ht Hpc0]. split.
  - constructor; simpl; try done; [lia|]. right. split; [lia|]. intros j Hne. set_solver.
  - split_and!; simpl.
    + intros m Hin. by destruct (sem_not_queued _ _ _ _ _ m Hi Hp Hloop).
    + eauto.
    + intros m _. left. set_solver.
Qed.

Lemma sem_thread_turn_ok initial w pool i n expired t s' :
  sem_inv initial w pool -> pool !! i = Some (SSleep n) -> 0 <= n ->
  sem_thread_turn (sw_sem w) i n expired = (t, s') ->
  section_ok i (sw_sem w) s' /\ client_ok i s' (sem_after t n true) /\
  sm_count s' = sm_count (sw_sem w) - units t n.
Proof.
  intros Hi Hp Hn E. pose proof Hi as [Hu Hnd Hpos Hq Hf Ha Ht Hpc0].
  unfold sem_thread_turn in E. set (s := mk_sem _ _ _ (cv_run _ i)) in E.
  assert (forall k, (i, k) ∉ sm_wq (sw_sem w)) as Hnq by (intros k; by eapply sem_not_queued).
  assert (forall s1, sm_wq s1 = sm_wq (sw_sem w) -> sm_cv s1 = cv_run (sm_cv (sw_sem w)) i ->
    client_ok i s1 SIdle) as Hrun.
  { intros s1 E1 E2. split_and!; [|rewrite E2; simpl; set_solver|done].
    rewrite E1. intros m Hin. by destruct (Hnq m). }
  assert (forall k, 0 <= k <= sm_count s -> section_ok i (sw_sem w) (sem_take s k)) as Hsec.
  { intros k Hk. constructor; simpl in *; try done; [lia| |].
    - intros j m Hin Hm. apply (Hf j m Hin). simpl in Hm. lia.
    - right. split; [lia|]. intros j Hne. set_solver. }
  assert (sem_take s 0 = s) as Es0 by (unfold sem_take, s; simpl; by rewrite Z.sub_0_r).
  assert (section_ok i (sw_sem w) s) as Hs by (rewrite <- Es0; apply Hsec; simpl; lia).
  destruct expired; [injection E as <- <-|case_decide; injection E as <- <-].
  - split_and!; [done|by apply Hrun|simpl; lia].
  - split_and!; [by apply Hsec|by apply Hrun|done].
  - split_and!; [| |simpl; lia].
    + destruct Hs. constructor; simpl in *; try done. right. split; [lia|]. intros j Hne. set_solver.
    + split_and!; simpl; [intros m Hin; by destruct (Hnq m)| |].
      * intros _. exists n. split; [done|]. simpl in *. lia.
      * intros m _. left. set_solver.
Qed.

Lemma after_pc_ok t n checked : 0 <= n -> pc_ok (sem_after t n checked).
Proof. by destruct t. Qed.

(** A section of [i] seen from outside: what it needs to keep the invariant. *)
Lemma section_step initial w pool i p t n s' p' :
  sem_inv initial w pool -> pool !! i = Some p -> 0 <= n ->
  section_ok i (sw_sem w) s' -> client_ok i s' p' -> pc_ok p' ->
  sm_count s' = sm_count (sw_sem w) - units t n ->
  sem_inv initial (mk_sw s' (sw_posted w) (sw_taken w + units t n)) (<[i := p']> pool).
Proof.
  intros Hi Hp Hn Hs Hc Hpc E. pose proof (si_units _ _ _ Hi).
  assert (0 <= units t n) by (destruct t as [[]| | |]; simpl; lia).
  eapply inv_section; [exact Hi|done|done|lia|done].
Qed.

Lemma sem_inv_step initial w pool i p w' p' :
  initial + sw_posted w' < 2 ^ 32 -> sem_inv initial w pool -> pool !! i = Some p ->
  sem_step i w p w' p' -> sem_inv initial w' (<[i := p']> pool).
Proof.
  intros Hb Hi Hp Hst. pose proof Hi as [Hu Hnd Hpos Hq Hf Ha Ht Hpc0].
  pose proof (Hpc0 i p Hp) as Hpn.
  assert (forall s1 p', sm_cv s1 = sm_cv (sw_sem w) -> sm_wq s1 = sm_wq (sw_sem w) ->
    (forall m c, p <> SLoop m c) -> awake p -> awake p' -> client_ok i s1 p') as Hid.
  { intros s1 q E1 E2 Hl Haw Haw'. eapply (idle_client _ _ _ _ _ _ Hi Hp Haw); [done| |done].
    intros m. rewrite E2. by eapply sem_not_queued. }
  pose proof (take_section initial w pool i 0 Hi ltac:(lia)) as Hsame.
  assert (sem_take (sw_sem w) 0 = sw_sem w) as E0
    by (unfold sem_take; rewrite Z.sub_0_r; by destruct (sw_sem w)).
  rewrite E0 in Hsame.
  destruct Hst as [n s' Hn E|n c s' Hn E|n tmo fiber kill spurious expired t s' Hn E
    |n checked kill spurious expired t s' Hk E|n|n|n expired t s' E]; simpl in Hb, Hpn.
  - injection E as <-. rewrite uwrap_small by lia.
    eapply inv_section; [exact Hi| | |simpl; lia|done].
    + constructor; simpl; try done; [lia| |by left]. apply sem_wake_fed. exact Hpos.
    + split_and!; simpl; [|set_solver|done].
      intros m Hin. by destruct (sem_not_queued _ _ _ _ _ m Hi Hp ltac:(done)).
  - unfold xtc_sem_try_acquire in E. case_decide; injection E as <- <-.
    + eapply section_step; [exact Hi|exact Hp|done|by eapply take_section| |done|done].
      by apply Hid.
    + eapply section_step; [exact Hi|exact Hp|done|done|by apply Hid|done|simpl; lia].
  - unfold xtc_sem_acquire in E. case_decide; [injection E as <- <-|case_decide; [injection E as <- <-|destruct fiber]].
    + eapply section_step; [exact Hi|exact Hp|done|by eapply take_section| |done|done].
      by apply Hid.
    + eapply section_step; [exact Hi|exact Hp|done|done|by apply Hid|done|simpl; lia].
    + destruct (sem_fiber_turn (sw_sem w) i n kill spurious expired) as [t1 s1] eqn:Et.
      injection E as <- <-.
      destruct (sem_fiber_turn_ok _ _ _ _ _ _ true _ _ _ _ _ Hi Hp Hn (or_introl eq_refl) Et) as (H1 & H2 & H3).
      eapply section_step; [exact Hi|exact Hp|done|done|done|by apply after_pc_ok|done].
    + injection E as <- <-.
      destruct (sleep_ok _ _ _ _ _ n Hi Hp ltac:(done) ltac:(lia)) as [H1 H2].
      eapply section_step; [exact Hi|exact Hp|done|done|done|done|simpl; lia].
  - destruct (sem_fiber_turn_ok _ _ _ _ _ _ checked _ _ _ _ _ Hi Hp Hpn (or_intror eq_refl) E) as (H1 & H2 & H3).
    eapply section_step; [exact Hi|exact Hp|done|done|done|by apply after_pc_ok|done].
  - destruct w as [s po ta]. eapply inv_section; [exact Hi|done|by apply Hid|simpl in *; lia|done].
  - destruct w as [s po ta]. eapply inv_section; [exact Hi|done| |simpl in *; lia|done].
    by apply Hid.
  - destruct (sem_thread_turn_ok _ _ _ _ _ _ _ _ Hi Hp Hpn E) as (H1 & H2 & H3).
    eapply section_step; [exact Hi|exact Hp|done|done|done|by apply after_pc_ok|done].
Qed.

(** A semaphore with [initial] units and [k] idle clients. *)
Definition sem_start (initial : Z) (k : nat) : config :=
  (mk_sw (mk_sem initial [] ∅ cv_empty) 0 0, idle_pool SIdle k).

Lemma sem_run_inv initial k w pool :
  0 <= initial -> reachable sem_step (sem_start initial k) (w, pool) ->
  initial + sw_posted w < 2 ^ 32 -> sem_inv initial w pool.
Proof.
  intros H0 Hr. set (I := fun w pool => initial + sw_posted w < 2 ^ 32 -> sem_inv initial w pool).
  apply (pool_invariant sem_step I _ _) in Hr; [exact Hr| |]; unfold I; simpl.
  - intros w1 pool1 i p w2 p2 Hi Hp Hst Hb. eapply sem_inv_step; [done|apply Hi|done|done].
    destruct Hst; simpl in Hb; try lia.
  - intros _. constructor; simpl; try done.
    + lia.
    + constructor.
    + intros i n Hin. by apply elem_of_nil in Hin.
    + intros i n Hin. by apply elem_of_nil in Hin.
    + intros i n Hin. by apply elem_of_nil in Hin.
    + intros i n Hin. by apply (idle_pool_Forall SIdle k (fun _ p => p = SIdle)) in Hin.
    + by apply idle_pool_Forall.
Qed.

(** C34: units are neither made nor lost.  For any number of fibers and
    threads that post, try, acquire with or without timeouts, give up, are
    killed or see spurious wake-ups, in any interleaving (fewer than 2^32
    units posted in all): the count is the initial units plus those posted
    minus those taken by calls that returned XTC_OK, and never negative. *)
Theorem sem_units initial k w pool :
  0 <= initial -> reachable sem_step (sem_start initial k) (w, pool) ->
  initial + sw_posted w < 2 ^ 32 ->
  xtc_sem_count (Some (sw_sem w)) = i32 (initial + sw_posted w - sw_taken w) /\
  0 <= initial + sw_posted w - sw_taken w.
Proof.
  intros H0 Hr Hb. destruct (si_units _ _ _ (sem_run_inv _ _ _ _ H0 Hr Hb)) as (H1 & H2 & _).
  simpl. rewrite H2 in *. done.
Qed.

(** No unit sits beside a waiter it would satisfy with nobody coming.  In
    every reachable state, if the count would satisfy a parked fiber then a
    fiber of the queue has a wake pending and is in its wait loop, so it
    will run and pass on what it does not take; and a thread the count
    would satisfy has been signalled. *)
Theorem sem_no_stranded initial k w pool :
  0 <= initial -> reachable sem_step (sem_start initial k) (w, pool) ->
  initial + sw_posted w < 2 ^ 32 ->
  (forall i n, (i, n) ∈ sm_wq (sw_sem w) -> n <= sm_count (sw_sem w) ->
     exists j m c, (j, m) ∈ sm_wq (sw_sem w) /\ j ∈ sm_woken (sw_sem w) /\
       pool !! j = Some (SLoop m c)) /\
  (forall i n, pool !! i = Some (SSleep n) -> n <= sm_count (sw_sem w) ->
     i ∈ cv_signalled (sm_cv (sw_sem w))).
Proof.
  intros H0 Hr Hb. pose proof (sem_run_inv _ _ _ _ H0 Hr Hb) as Hi. split.
  - intros i n Hin Hle. destruct (si_fed _ _ _ Hi i n Hin Hle) as (j & m & Hj & Hw).
    destruct (si_queue _ _ _ Hi j m Hj) as [c Hc]. by exists j, m, c.
  - intros i n Hp Hle. destruct (si_threads _ _ _ Hi i n Hp) as [Ha|?]; [|done].
    destruct (si_asleep _ _ _ Hi i Ha) as (n' & Hp' & Hlt). simplify_eq. lia.
Qed.

(** Fiber 1 parks for one unit, thread 2 sleeps for two, client 0 posts one. *)
Definition demo_sem : sem_world :=
  mk_sw (mk_sem 1 [(1%nat, 1)] {[1%nat]} (mk_cv ∅ {[2%nat]})) 1 0.

Definition demo_sem_pool : gmap nat sem_pc :=
  <[1%nat := SLoop 1 true]> (<[2%nat := SSleep 2]> (idle_pool SIdle 3)).

Lemma demo_sem_run : reachable sem_step (sem_start 0 3) (demo_sem, demo_sem_pool).
Proof.
  unfold reachable, sem_start. pool_norm.
  pool_run 1%nat by (apply (ss_acquire _ _ 1 (-1) true false false false TPark); [lia|reflexivity]).
  pool_run 2%nat by (apply (ss_acquire _ _ 2 (-1) false false false false TSleep); [lia|reflexivity]).
  pool_run 0%nat by (apply (ss_post _ _ 1); [lia|reflexivity]).
  apply rtc_refl.
Qed.

Lemma sem_units_witness :
  xtc_sem_count (Some (sw_sem demo_sem)) = i32 (0 + sw_posted demo_sem - sw_taken demo_sem).
Proof.
  exact (proj1 (sem_units 0 3 demo_sem demo_sem_pool ltac:(lia) demo_sem_run ltac:(reflexivity))).
Defined.

Lemma sem_no_stranded_witness :
  exists j m c, (j, m) ∈ sm_wq (sw_sem demo_sem) /\ j ∈ sm_woken (sw_sem demo_sem) /\
    demo_sem_pool !! j = Some (SLoop m c).
Proof.
  apply (proj1 (sem_no_stranded 0 3 demo_sem demo_sem_pool ltac:(lia) demo_sem_run ltac:(reflexivity))
           1%nat 1); [left|simpl; lia].
Defined.
End Sem.

(** ** Notify *)

Module Notify.

(** [nt_granted], [nt_handed]: the [granted] and [handed] fields of waiters
    that have been dequeued and have not run yet. *)
Record xtc_notify := mk_notify {
  nt_stored : bool;
  nt_wq : fw_queue unit;
  nt_granted : gset nat;
  nt_handed : gset nat;
  nt_woken : gset nat;
  nt_cv : condvar;
}.

Definition nt_new : xtc_notify := mk_notify false [] ∅ ∅ ∅ cv_empty.

(** [alloc] is the allocation's outcome. *)
Definition xtc_notify_create (out : bool) (alloc : rc) : rc * option xtc_notify :=
  if out then
    match alloc with XTC_OK => (XTC_OK, Some nt_new) | e => (e, None) end
  else (XTC_E_INVAL, None).

(** Hand one signal to the oldest fiber, else store it.  [same i]: waiter [i]
    is pinned and on the signaler's own loop. *)
Definition notify_give_locked (n : xtc_notify) (same : nat -> bool) : xtc_notify :=
  match nt_wq n with
  | [] => mk_notify true [] (nt_granted n) (nt_handed n) (nt_woken n) (cv_broadcast (nt_cv n))
  | (i, _) :: _ =>
      mk_notify (nt_stored n) (fw_remove (nt_wq n) i) ({[i]} ∪ nt_granted n)
        (if same i then {[i]} ∪ nt_handed n else nt_handed n) ({[i]} ∪ nt_woken n) (nt_cv n)
  end.

Definition xtc_notify_signal (n : option xtc_notify) (same : nat -> bool) : rc * option xtc_notify :=
  match n with
  | None => (XTC_E_INVAL, None)
  | Some n => (XTC_OK, Some (notify_give_locked n same))
  end.

Definition consume (n : xtc_notify) : xtc_notify :=
  mk_notify false (nt_wq n) (nt_granted n) (nt_handed n) (nt_woken n) (nt_cv n).

(** Waiter [i]'s frame goes away: its fields are dropped and it is unlinked. *)
Definition leave (n : xtc_notify) (i : nat) : xtc_notify :=
  mk_notify (nt_stored n) (fw_remove (nt_wq n) i) (nt_granted n ∖ {[i]}) (nt_handed n ∖ {[i]})
    (nt_woken n) (nt_cv n).

(** One locked turn of fiber [i]'s loop. *)
Definition notify_fiber_turn (n : xtc_notify) (i : nat) (kill expired : bool) (same : nat -> bool)
  : turn * xtc_notify :=
  let n := mk_notify (nt_stored n) (nt_wq n) (nt_granted n) (nt_handed n ∖ {[i]})
             (nt_woken n ∖ {[i]}) (nt_cv n) in
  if kill then
    if decide (i ∈ nt_granted n) then (TKill, notify_give_locked (leave n i) same)
    else (TKill, leave n i)
  else if decide (i ∈ nt_granted n) then (TReturn XTC_OK, leave n i)
  else if nt_stored n then (TReturn XTC_OK, leave (consume n) i)
  else if expired then (TReturn XTC_E_AGAIN, leave n i)
  else (TPark, mk_notify (nt_stored n) (fw_enqueue (nt_wq n) i tt) (nt_granted n) (nt_handed n)
                 (nt_woken n) (nt_cv n)).

(** A fiber that was handed the signal returns without the mutex. *)
Definition handed_return (n : xtc_notify) (i : nat) : option xtc_notify :=
  if decide (i ∈ nt_handed n) then Some (leave n i) else None.

(** Thread [i] with the mutex again, after its spin or a wait. *)
Definition notify_thread_turn (n : xtc_notify) (i : nat) (expired : bool) : turn * xtc_notify :=
  let n := mk_notify (nt_stored n) (nt_wq n) (nt_granted n) (nt_handed n) (nt_woken n)
             (cv_run (nt_cv n) i) in
  if nt_stored n then (TReturn XTC_OK, consume n)
  else if expired then (TReturn XTC_E_AGAIN, n)
  else (TSleep, mk_notify (nt_stored n) (nt_wq n) (nt_granted n) (nt_handed n) (nt_woken n)
                  (cv_sleep (nt_cv n) i)).

(** [xtc_notify_wait] up to its first park; [spin]: a thread drops the mutex
    to spin first, and comes back through [notify_thread_turn]. *)
Definition xtc_notify_wait (n : option xtc_notify) (i : nat) (timeout_ns : Z) (fiber spin : bool)
    (kill expired : bool) (same : nat -> bool) : turn * option xtc_notify :=
  match n with
  | None => (TReturn XTC_E_INVAL, None)
  | Some n =>
      if nt_stored n then (TReturn XTC_OK, Some (consume n))
      else if decide (timeout_ns = 0) then (TReturn XTC_E_AGAIN, Some n)
      else if fiber then let '(t, n') := notify_fiber_turn n i kill expired same in (t, Some n')
      else if spin && bool_decide (timeout_ns < 0) then (TSleep, Some n)
      else (TSleep, Some (mk_notify (nt_stored n) (nt_wq n) (nt_granted n) (nt_handed n)
                            (nt_woken n) (cv_sleep (nt_cv n) i)))
  end.

(** ** Clients *)

(** [NThread]: spinning without the mutex, or waiting on the condition
    variable. *)
Inductive nt_pc : Type := NIdle | NLoop (checked : bool) | NKill | NThread | NDead.

(** The notify, the signals sent, the waits that returned XTC_OK, and the
    signals that found one already stored. *)
Record nt_world := mk_nw { nw_nt : xtc_notify; nw_sent : Z; nw_got : Z; nw_merged : Z }.

Definition notify_after (t : turn) (checked : bool) : nt_pc :=
  match t with
  | TReturn _ => NIdle
  | TPark => NLoop checked
  | TSleep => NThread
  | TKill => NKill
  end.

Definition got (t : turn) : Z := match t with TReturn XTC_OK => 1 | _ => 0 end.

(** A give that stores a signal where one is stored merges them. *)
Definition merges (n : xtc_notify) : Z :=
  if decide (nt_stored n = true /\ nt_wq n = []) then 1 else 0.

(** The merge a fiber's kill causes by passing its grant on. *)
Definition turn_merges (n : xtc_notify) (i : nat) (kill : bool) : Z :=
  if kill && bool_decide (i ∈ nt_granted n) then merges (leave n i) else 0.

Inductive nt_step (i : nat) (w : nt_world) : nt_pc -> nt_world -> nt_pc -> Prop :=
  | ns_signal same n' :
      xtc_notify_signal (Some (nw_nt w)) same = (XTC_OK, Some n') ->
      nt_step i w NIdle
        (mk_nw n' (nw_sent w + 1) (nw_got w) (nw_merged w + merges (nw_nt w))) NIdle
  | ns_wait timeout_ns fiber spin kill expired same t n' :
      xtc_notify_wait (Some (nw_nt w)) i timeout_ns fiber spin kill expired same = (t, Some n') ->
      nt_step i w NIdle (mk_nw n' (nw_sent w) (nw_got w + got t) (nw_merged w)) (notify_after t true)
  | ns_fiber checked kill expired same t n' :
      (kill = true -> checked = true) ->
      notify_fiber_turn (nw_nt w) i kill expired same = (t, n') ->
      nt_step i w (NLoop checked)
        (mk_nw n' (nw_sent w) (nw_got w + got t) (nw_merged w + turn_merges (nw_nt w) i kill))
        (notify_after t checked)
  | ns_handed checked n' :
      handed_return (nw_nt w) i = Some n' ->
      nt_step i w (NLoop checked) (mk_nw n' (nw_sent w) (nw_got w + 1) (nw_merged w)) NIdle
  | ns_dead : nt_step i w NKill w NDead
  | ns_deferred : nt_step i w NKill w (NLoop false)
  | ns_thread expired t n' :
      notify_thread_turn (nw_nt w) i expired = (t, n') ->
      nt_step i w NThread (mk_nw n' (nw_sent w) (nw_got w + got t) (nw_merged w)) (notify_after t true).

(** ** Every signal is delivered once *)

(** Signals in the notify: stored, or granted to a fiber that has not run. *)
Definition pending (n : xtc_notify) : Z := Z.b2z (nt_stored n) + Z.of_nat (size (nt_granted n)).

Record nt_ok (n : xtc_notify) (pool : gmap nat nt_pc) : Prop := mk_nt_ok {
  no_nodup : NoDup (nt_wq n).*1;
  no_stored : nt_stored n = true -> (nt_wq n = []) /\ (cv_asleep (nt_cv n) = ∅);
  no_queue : forall i a, (i, a) ∈ nt_wq n -> (i ∉ nt_granted n) /\ (exists c, pool !! i = Some (NLoop c));
  no_granted : forall i, i ∈ nt_granted n -> i ∈ nt_woken n /\ (exists c, pool !! i = Some (NLoop c));
  no_handed : nt_handed n ⊆ nt_granted n;
  no_asleep : forall i, i ∈ cv_asleep (nt_cv n) -> pool !! i = Some NThread;
}.

Lemma give_ok n pool same :
  nt_ok n pool ->
  nt_ok (notify_give_locked n same) pool /\
  pending (notify_give_locked n same) = pending n + 1 - merges n.
Proof.
  intros [Hnd Hs Hq Hg Hh Ha]. unfold notify_give_locked, merges, pending.
  destruct (nt_wq n) as [|[i []] q] eqn:E.
  - split.
    + by constructor; simpl; try (intros j Hj; set_solver).
    + simpl. destruct (nt_stored n); [rewrite decide_True by done|rewrite decide_False by naive_solver];
        simpl; lia.
  - destruct (Hq i () ltac:(left)) as [Hig [c Hc]]. rewrite decide_False by naive_solver.
    rewrite fw_remove_head by done. split.
    + constructor; simpl; try done.
      * by apply NoDup_cons in Hnd as [_ ?].
      * intros Hst. destruct (Hs Hst) as [? _]. done.
      * intros j a Hin. assert (j <> i).
        { intros ->. rewrite fmap_cons, NoDup_cons in Hnd. destruct Hnd as [Hn _]. apply Hn.
          apply list_elem_of_fmap. by exists (i, a). }
        destruct (Hq j a ltac:(by right)) as [? ?]. split; [set_solver|done].
      * intros j [->%elem_of_singleton|Hj]%elem_of_union; [split; [set_solver|eauto]|].
        destruct (Hg j Hj). split; [set_solver|done].
      * destruct (same i); set_solver.
    + cbn [nt_granted nt_stored]. rewrite size_union by set_solver. rewrite size_singleton. lia.
Qed.

(** The client's frame goes away. *)
Lemma leave_ok n pool i p :
  nt_ok n pool -> (i ∈ cv_asleep (nt_cv n) -> p = NThread) ->
  nt_ok (leave n i) (<[i := p]> pool) /\
  pending (leave n i) = pending n - (if decide (i ∈ nt_granted n) then 1 else 0).
Proof.
  intros [Hnd Hs Hq Hg Hh Ha] Hp. split.
  - constructor; simpl.
    + by apply fw_remove_NoDup.
    + intros Hst. destruct (Hs Hst) as [-> ?]. done.
    + intros j a [Hin Hne]%fw_remove_elem. rewrite lookup_insert_ne by done.
      destruct (Hq j a Hin). split; [set_solver|done].
    + intros j [Hj Hne]%elem_of_difference. apply not_elem_of_singleton in Hne.
      rewrite lookup_insert_ne by done. auto.
    + set_solver.
    + intros j Hj. destruct (decide (j = i)) as [->|Hne].
      * rewrite lookup_insert_eq. by rewrite Hp.
      * rewrite lookup_insert_ne by done. auto.
  - unfold pending. cbn [leave nt_granted nt_stored]. case_decide as D.
    + rewrite size_difference by set_solver. rewrite size_singleton.
      assert (size (nt_granted n) <> 0%nat) by (apply size_non_empty_iff; set_solver). lia.
    + rewrite (difference_disjoint_L (nt_granted n) {[i]}) by set_solver. lia.
Qed.

Definition nt_inv (w : nt_world) (pool : gmap nat nt_pc) : Prop :=
  nt_ok (nw_nt w) pool /\ nw_sent w = nw_got w + nw_merged w + pending (nw_nt w).

(** A client that is neither queued nor granted may be anywhere. *)
Lemma move_ok n pool i p :
  nt_ok n pool -> (forall a, (i, a) ∉ nt_wq n) -> i ∉ nt_granted n ->
  (i ∈ cv_asleep (nt_cv n) -> p = NThread) -> nt_ok n (<[i := p]> pool).
Proof.
  intros [Hnd Hs Hq Hg Hh Ha] Hnq Hng Hp. constructor; try done.
  - intros j a Hin. destruct (decide (j = i)) as [->|Hne]; [by destruct (Hnq a)|].
    rewrite lookup_insert_ne by done. by eapply Hq.
  - intros j Hj. rewrite lookup_insert_ne by (intros ->; done). auto.
  - intros j Hj. destruct (decide (j = i)) as [->|Hne].
    + rewrite lookup_insert_eq. by rewrite Hp.
    + rewrite lookup_insert_ne by done. auto.
Qed.

(** Not in a fiber's loop: neither queued nor granted. *)
Lemma outside n pool i p :
  nt_ok n pool -> pool !! i = Some p -> (forall c, p <> NLoop c) ->
  (forall a, (i, a) ∉ nt_wq n) /\ i ∉ nt_granted n.
Proof.
  intros [Hnd Hs Hq Hg Hh Ha] Hp Hn. split.
  - intros a Hin. destruct (Hq i a Hin) as [_ [c E]]. simplify_eq. by destruct (Hn c).
  - intros Hin. destruct (Hg i Hin) as [_ [c E]]. simplify_eq. by destruct (Hn c).
Qed.

Lemma not_asleep n pool i p :
  nt_ok n pool -> pool !! i = Some p -> p <> NThread -> i ∉ cv_asleep (nt_cv n).
Proof. intros [Hnd Hs Hq Hg Hh Ha] Hp Hn Hin. specialize (Ha i Hin). by simplify_eq. Qed.

Lemma consume_ok n pool : nt_ok n pool -> nt_ok (consume n) pool.
Proof. intros [Hnd Hs Hq Hg Hh Ha]. by constructor. Qed.

Lemma consume_pending n : nt_stored n = true -> pending (consume n) = pending n - 1.
Proof. unfold pending. simpl. intros ->. simpl. lia. Qed.

(** Running clears the fiber's own wake and hand-off marks. *)
Definition running (n : xtc_notify) (i : nat) : xtc_notify :=
  mk_notify (nt_stored n) (nt_wq n) (nt_granted n) (nt_handed n ∖ {[i]}) (nt_woken n ∖ {[i]}) (nt_cv n).

Lemma leave_running n i : leave (running n i) i = 
  mk_notify (nt_stored n) (fw_remove (nt_wq n) i) (nt_granted n ∖ {[i]}) (nt_handed n ∖ {[i]})
    (nt_woken n ∖ {[i]}) (nt_cv n).
Proof. unfold leave, running. simpl. f_equal. set_solver. Qed.

Lemma leave_running_ok n pool i p :
  nt_ok n pool -> i ∉ cv_asleep (nt_cv n) ->
  nt_ok (leave (running n i) i) (<[i := p]> pool) /\
  pending (leave (running n i) i) = pending n - (if decide (i ∈ nt_granted n) then 1 else 0).
Proof.
  intros Hn Ha. destruct (leave_ok n pool i p Hn ltac:(done)) as [[H1 H2 H3 H4 H5 H6] Hp].
  rewrite leave_running. split; [|exact Hp]. constructor; simpl in *; try done.
  intros j Hj. destruct (H4 j Hj). split; [set_solver|done].
Qed.

Lemma notify_fiber_turn_ok n pool i p checked kill expired same t n' :
  nt_ok n pool -> pool !! i = Some p -> p = NIdle \/ p = NLoop checked ->
  notify_fiber_turn n i kill expired same = (t, n') ->
  nt_ok n' (<[i := notify_after t checked]> pool) /\
  pending n' = pending n - got t - turn_merges n i kill.
Proof.
  intros Hn Hp Hpc. assert (i ∉ cv_asleep (nt_cv n)) as Has.
  { eapply not_asleep; [done|done|]. by destruct Hpc as [->| ->]. }
  unfold notify_fiber_turn. fold (running n i). unfold turn_merges. destruct kill.
  { cbn [andb running nt_granted].
    destruct (leave_running_ok n pool i NKill Hn Has) as [H1 H2].
    destruct (decide (i ∈ nt_granted n)) as [D|D]; intros [= <- <-].
    - rewrite bool_decide_true by done.
      destruct (give_ok _ _ same H1) as [H3 H4]. split; [done|]. rewrite H4, H2. simpl got.
      assert (merges (leave (running n i) i) = merges (leave n i)) as -> by done. lia.
    - rewrite bool_decide_false by done. split; [done|]. simpl got. lia. }
  cbn [andb running nt_granted nt_stored]. rewrite Z.sub_0_r.
  destruct (leave_running_ok n pool i NIdle Hn Has) as [H1 H2].
  destruct (decide (i ∈ nt_granted n)) as [D|D]; [|destruct (nt_stored n) eqn:Hst; [|destruct expired]].
  - intros [= <- <-]. split; [done|]. rewrite H2. done.
  - intros [= <- <-]. split; [by apply consume_ok in H1|].
    change (leave (consume (running n i)) i) with (consume (leave (running n i) i)).
    rewrite consume_pending by (simpl; done). rewrite H2. simpl got. lia.
  - intros [= <- <-]. split; [done|]. rewrite H2. simpl got. lia.
  - intros [= <- <-]. split; [|simpl got; unfold pending; simpl; rewrite Hst; simpl; lia].
    destruct Hn as [Hnd Hs Hq Hg Hh Ha]. constructor; simpl.
    + by apply fw_enqueue_NoDup.
    + congruence.
    + intros j a Hin. apply fw_enqueue_elem in Hin as [Hin|(-> & -> & _)].
      * destruct (Hq j a Hin) as [? [c Hc]]. split; [done|].
        destruct (decide (j = i)) as [->|Hne]; [exists checked; by rewrite lookup_insert_eq|].
        exists c. by rewrite lookup_insert_ne.
      * split; [done|]. exists checked. by rewrite lookup_insert_eq.
    + intros j Hj. rewrite lookup_insert_ne by (intros ->; done).
      destruct (Hg j Hj). split; [set_solver|done].
    + set_solver.
    + intros j Hj. rewrite lookup_insert_ne by (intros ->; done). auto.
Qed.

(** A thread that goes to sleep while nothing is stored. *)
Definition asleep (n : xtc_notify) (i : nat) : xtc_notify :=
  mk_notify (nt_stored n) (nt_wq n) (nt_granted n) (nt_handed n) (nt_woken n) (cv_sleep (nt_cv n) i).

Lemma asleep_ok n pool i :
  nt_ok n pool -> nt_stored n = false -> pool !! i = Some NThread -> nt_ok (asleep n i) pool.
Proof.
  intros [Hnd Hs Hq Hg Hh Ha] Hst Hp. constructor; simpl in *; try done.
  - congruence.
  - intros j [->%elem_of_singleton|Hj]%elem_of_union; auto.
Qed.

Lemma notify_thread_turn_ok n pool i expired t n' :
  nt_ok n pool -> pool !! i = Some NThread -> notify_thread_turn n i expired = (t, n') ->
  nt_ok n' (<[i := notify_after t true]> pool) /\ pending n' = pending n - got t.
Proof.
  intros Hn Hp. unfold notify_thread_turn. set (n1 := mk_notify _ _ _ _ _ (cv_run _ i)).
  destruct (outside n pool i NThread Hn Hp ltac:(done)) as [Hnq Hng].
  assert (nt_ok n1 pool) as Hn1.
  { destruct Hn as [Hnd Hs Hq Hg Hh Ha]. constructor; simpl; try done.
    - intros Hst. destruct (Hs Hst) as [? ->]. split; [done|]. set_solver.
    - intros j Hj. apply Ha. set_solver. }
  assert (i ∉ cv_asleep (nt_cv n1)) as Hna by (simpl; set_solver).
  assert (pending n1 = pending n) as Ep by done.
  destruct (nt_stored n1) eqn:Hst; [|destruct expired]; intros [= <- <-].
  - split; [|rewrite consume_pending, Ep by done; done]. apply move_ok; try done. by apply consume_ok.
  - split; [|simpl; lia]. by apply move_ok.
  - split; [|unfold pending; simpl in *; rewrite Hst; simpl; lia].
    rewrite <-Hst. apply (asleep_ok n1); [by apply move_ok|done|by rewrite lookup_insert_eq].
Qed.

Lemma nt_inv_step w pool i p w' p' :
  nt_inv w pool -> pool !! i = Some p -> nt_step i w p w' p' -> nt_inv w' (<[i := p']> pool).
Proof.
  intros [Hn Hc] Hp Hst. unfold nt_inv.
  assert (forall p' : nt_pc, (forall c, p <> NLoop c) -> p <> NThread ->
    nt_ok (nw_nt w) (<[i := p']> pool)) as Hmove.
  { intros q Hl Ht. destruct (outside _ _ _ _ Hn Hp Hl). apply move_ok; try done.
    intros Hin. by destruct (not_asleep _ _ _ _ Hn Hp Ht). }
  destruct Hst as [same n' E|tmo fiber spin kill expired same t n' E|checked kill expired same t n' Hk E
    |checked n' E| | |expired t n' E]; simpl.
  - injection E as <-. destruct (give_ok _ _ same (Hmove NIdle ltac:(done) ltac:(done))) as [H1 H2].
    split; [done|lia].
  - unfold xtc_notify_wait in E. destruct (nt_stored (nw_nt w)) eqn:Hs.
    { injection E as <- <-. split; [by apply consume_ok, Hmove|]. rewrite consume_pending by done. simpl. lia. }
    case_decide; [injection E as <- <-; split; [by apply Hmove|simpl; lia]|].
    destruct fiber.
    { destruct (notify_fiber_turn (nw_nt w) i kill expired same) as [t1 n1] eqn:Et. injection E as <- <-.
      destruct (notify_fiber_turn_ok _ _ _ _ true _ _ _ _ _ Hn Hp (or_introl eq_refl) Et) as [H1 H2].
      split; [done|]. unfold turn_merges in H2. rewrite bool_decide_false in H2; [rewrite andb_false_r in H2; lia|].
      by apply (outside _ _ _ _ Hn Hp). }
    destruct (spin && bool_decide (tmo < 0)); injection E as <- <-; split; simpl; try lia.
    + by apply Hmove.
    + rewrite <-Hs. apply asleep_ok; [by apply Hmove|done|by rewrite lookup_insert_eq].
    + unfold pending in *. simpl in *. rewrite Hs in Hc. simpl in *. lia.
  - destruct (notify_fiber_turn_ok _ _ _ _ checked _ _ _ _ _ Hn Hp (or_intror eq_refl) E) as [H1 H2].
    split; [done|lia].
  - unfold handed_return in E. case_decide as D; [|done]. injection E as <-.
    destruct (leave_ok _ pool i NIdle Hn) as [H1 H2].
    { intros Hin. by destruct (not_asleep _ _ _ _ Hn Hp ltac:(done)). }
    split; [done|]. rewrite H2, decide_True; [lia|]. by apply (no_handed _ _ Hn).
  - split; [by apply Hmove|done].
  - split; [by apply Hmove|done].
  - destruct (notify_thread_turn_ok _ _ _ _ _ _ Hn Hp E) as [H1 H2]. split; [done|lia].
Qed.

Definition nt_start (k : nat) : config := (mk_nw nt_new 0 0 0, idle_pool NIdle k).

(** A signal is delivered once, to one waiter, or kept.  For any number of
    fibers and threads that signal and wait in any interleaving, with
    timeouts, kills (a killed fiber passes its grant on) and hand-offs: the
    signals sent are those delivered by waits that returned XTC_OK, plus
    those granted to a fiber that has yet to run, plus one if a signal is
    stored, plus those that found a signal already stored; a fiber that was
    granted one has its wake pending; and while a signal is stored no fiber
    is queued and no thread sleeps unsignalled. *)
Theorem notify_delivers k w pool :
  reachable nt_step (nt_start k) (w, pool) ->
  nw_sent w = nw_got w + nw_merged w + Z.b2z (nt_stored (nw_nt w)) +
              Z.of_nat (size (nt_granted (nw_nt w))) /\
  (forall i, i ∈ nt_granted (nw_nt w) ->
     i ∈ nt_woken (nw_nt w) /\ exists c, pool !! i = Some (NLoop c)) /\
  (nt_stored (nw_nt w) = true -> nt_wq (nw_nt w) = [] /\ cv_asleep (nt_cv (nw_nt w)) = ∅).
Proof.
  intros Hr. apply (pool_invariant nt_step nt_inv _ _) in Hr as [Hn Hc]; simpl in *.
  - unfold pending in Hc. split_and!; [lia|apply Hn|apply Hn].
  - intros w1 pool1 i p w2 p2. apply nt_inv_step.
  - split; [|done]. constructor; simpl; try done; [constructor|]. intros i a Hin. by apply elem_of_nil in Hin.
Qed.

(** Fiber 1 parks, client 0 signals twice. *)
Lemma notify_delivers_witness :
  exists w pool, reachable nt_step (nt_start 2) (w, pool) /\
    nw_sent w = 2 /\ nt_stored (nw_nt w) = true /\ nt_wq (nw_nt w) = [].
Proof.
  assert (exists w pool, reachable nt_step (nt_start 2) (w, pool) /\
    nw_sent w = 2 /\ nt_stored (nw_nt w) = true) as (w & pool & Hr & H1 & H2).
  { eexists _, _. split.
    - unfold reachable, nt_start. pool_norm.
      pool_run 1%nat by (apply (ns_wait _ _ (-1) true false false false (fun _ => false) TPark); reflexivity).
      pool_run 0%nat by (apply (ns_signal _ _ (fun _ => false)); reflexivity).
      pool_run 0%nat by (apply (ns_signal _ _ (fun _ => false)); reflexivity).
      apply rtc_refl.
    - split; reflexivity. }
  exists w, pool. split_and!; [exact Hr|exact H1|exact H2|].
  exact (proj1 (proj2 (proj2 (notify_delivers 2 w pool Hr)) H2)).
Defined.
End Notify.
