(* ===== verification/Amutex.v ===== *)
(** * The parking mutex (xtc_amutex of src/ptc/sync.c)

    Contended fibers queue and park, contended threads spin and then sleep on
    the condition variable.  A release frees the mutex and wakes the head of
    the queue, which competes for it again, except that a head that has lost
    AM_HANDOFF_LOSSES races is handed the mutex.  As in Sync.v an operation is
    a sequence of critical sections, run by the clients of a pool in any
    order.  The theorems: at most one client holds the mutex; a free mutex
    with waiters always has one on its way; a starved head is served next. *)

From S2P Require Import Prelude Wire Sync.

Local Open Scope Z_scope.

(** ** State *)

(** An owner by kind: none, a fiber (its task, proc and that proc's loop), a
    thread. *)
Inductive amutex_owner : Type :=
  | ONone
  | OFiber (task : Z) (pid : xtc_pid) (ploop : Z)
  | OThread (thr : Z).

Definition amutex_owner_eq (a b : amutex_owner) : bool :=
  match a, b with
  | OFiber t1 p1 l1, OFiber t2 p2 l2 => (t1 =? t2) && (l1 =? l2) && xtc_pid_eq p1 p2
  | OThread t1, OThread t2 => t1 =? t2
  | _, _ => false
  end.

(** The identity of the execution context: of the fiber it runs, else of its
    thread. *)
Definition amutex_self_owner (task : option (Z * xtc_pid * Z)) (thr : Z) : amutex_owner :=
  match task with
  | Some (t, pid, ploop) => OFiber t pid ploop
  | None => OThread thr
  end.

(** [am_granted]: the [granted] field of waiters that have not run since. *)
Record xtc_amutex := mk_am {
  am_held : bool;
  am_recursive : bool;
  am_cv_waiters : Z;
  am_wq : fw_queue unit;
  am_spinners : Z;
  am_count : Z;
  am_wake_skips : Z;
  am_handoff : bool;
  am_owner : amutex_owner;
  am_cv : condvar;
  am_granted : gset nat;
  am_woken : gset nat;
}.

Definition set_held (m : xtc_amutex) (b : bool) : xtc_amutex :=
  mk_am b (am_recursive m) (am_cv_waiters m) (am_wq m) (am_spinners m) (am_count m)
    (am_wake_skips m) (am_handoff m) (am_owner m) (am_cv m) (am_granted m) (am_woken m).

Definition set_handoff (m : xtc_amutex) (b : bool) : xtc_amutex :=
  mk_am (am_held m) (am_recursive m) (am_cv_waiters m) (am_wq m) (am_spinners m) (am_count m)
    (am_wake_skips m) b (am_owner m) (am_cv m) (am_granted m) (am_woken m).

Definition set_owner (m : xtc_amutex) (o : amutex_owner) (c : Z) : xtc_amutex :=
  mk_am (am_held m) (am_recursive m) (am_cv_waiters m) (am_wq m) (am_spinners m) c
    (am_wake_skips m) (am_handoff m) o (am_cv m) (am_granted m) (am_woken m).

Definition set_wq (m : xtc_amutex) (q : fw_queue unit) : xtc_amutex :=
  mk_am (am_held m) (am_recursive m) (am_cv_waiters m) q (am_spinners m) (am_count m)
    (am_wake_skips m) (am_handoff m) (am_owner m) (am_cv m) (am_granted m) (am_woken m).

Definition set_fibers (m : xtc_amutex) (granted woken : gset nat) : xtc_amutex :=
  mk_am (am_held m) (am_recursive m) (am_cv_waiters m) (am_wq m) (am_spinners m) (am_count m)
    (am_wake_skips m) (am_handoff m) (am_owner m) (am_cv m) granted woken.

Definition set_threads (m : xtc_amutex) (waiters spinners skips : Z) (cv : condvar) : xtc_amutex :=
  mk_am (am_held m) (am_recursive m) waiters (am_wq m) spinners (am_count m)
    skips (am_handoff m) (am_owner m) cv (am_granted m) (am_woken m).

(** ** Operations *)

Definition SYNC_AM_SKIP_MAX : Z := 8.
Definition AM_HANDOFF_LOSSES : Z := 4.

(** Wake one sleeping thread, unless a spinner will take the mutex anyway.
    [pick]: whom the condition variable wakes. *)
Definition amutex_wake_thread_locked (m : xtc_amutex) (pick : nat) : xtc_amutex :=
  if decide (am_cv_waiters m = 0) then m
  else if decide (0 < SYNC_AM_SKIP_MAX /\ 0 < am_spinners m /\ am_wake_skips m < SYNC_AM_SKIP_MAX)
  then set_threads m (am_cv_waiters m) (am_spinners m) (am_wake_skips m + 1) (am_cv m)
  else set_threads m (am_cv_waiters m) (am_spinners m) 0 (cv_signal (am_cv m) pick).

Definition amutex_wake_next_locked (m : xtc_amutex) (pick : nat) : xtc_amutex :=
  match am_wq m with
  | (i, _) :: _ => set_fibers m (am_granted m) ({[i]} ∪ am_woken m)
  | [] => amutex_wake_thread_locked m pick
  end.

Definition amutex_release_locked (m : xtc_amutex) (pick : nat) : xtc_amutex :=
  let m := if am_recursive m then set_owner m ONone 0 else m in
  match am_wq m, am_handoff m with
  | (i, _) :: _, true =>
      let m := set_wq (set_handoff m false) (fw_remove (am_wq m) i) in
      set_fibers m ({[i]} ∪ am_granted m) ({[i]} ∪ am_woken m)
  | _, _ => amutex_wake_next_locked (set_held m false) pick
  end.

Definition am_new (recursive : bool) : xtc_amutex :=
  mk_am false recursive 0 [] 0 0 0 false ONone cv_empty ∅ ∅.

Definition XTC_AMUTEX_RECURSIVE : Z := 1.

(** [alloc]: the allocation's outcome. *)
Definition xtc_amutex_create_ex (out : bool) (flags : Z) (alloc : rc) : rc * option xtc_amutex :=
  if out then
    match alloc with
    | XTC_OK => (XTC_OK, Some (am_new (negb (Z.land flags XTC_AMUTEX_RECURSIVE =? 0))))
    | e => (e, None)
    end
  else (XTC_E_INVAL, None).

Definition xtc_amutex_create (out : bool) (alloc : rc) : rc * option xtc_amutex :=
  xtc_amutex_create_ex out 0 alloc.

Definition XTC_AMUTEX_STATIC_MAX : nat := 32.

(** The static mutex of a slot, and the table after the call. *)
Definition xtc_amutex_static (table : list (option xtc_amutex)) (slot : nat) (alloc : rc)
  : option xtc_amutex * list (option xtc_amutex) :=
  if decide (XTC_AMUTEX_STATIC_MAX <= slot)%nat then (None, table)
  else match table !! slot with
  | Some (Some m) => (Some m, table)
  | _ =>
      match xtc_amutex_create_ex true XTC_AMUTEX_RECURSIVE alloc with
      | (XTC_OK, Some m) => (Some m, <[slot := Some m]> table)
      | _ => (None, table)
      end
  end.

(** The critical section takes the mutex for [self]. *)
Definition am_claim (m : xtc_amutex) (self : amutex_owner) : xtc_amutex :=
  if am_recursive m then set_owner m self 1 else m.

Definition am_take (m : xtc_amutex) (self : amutex_owner) : xtc_amutex :=
  am_claim (set_held m true) self.

(** Re-entry by the owner of a recursive mutex. *)
Definition am_reenters (m : xtc_amutex) (self : amutex_owner) : bool :=
  am_recursive m && am_held m && amutex_owner_eq (am_owner m) self.

Definition xtc_amutex_try_lock (m : option xtc_amutex) (self : amutex_owner)
  : rc * option xtc_amutex :=
  match m with
  | None => (XTC_E_INVAL, None)
  | Some m =>
      if am_reenters m self then (XTC_OK, Some (set_owner m (am_owner m) (am_count m + 1)))
      else if negb (am_held m) then (XTC_OK, Some (am_take m self))
      else (XTC_E_AGAIN, Some m)
  end.

(** How a critical section of a lock ends; [lost] of a parked fiber. *)
Inductive am_turn : Type :=
  | AReturn (c : rc)
  | APark (lost : Z)
  | AKill (lost : Z)
  | ASpin
  | ASleep.

(** The thread's loop with the inner mutex held, until it gives it up.
    [cap]: the spinners admitted. *)
Definition am_thread_loop (m : xtc_amutex) (self : amutex_owner) (i : nat) (spun : bool) (cap : Z)
  : am_turn * xtc_amutex :=
  if am_held m then
    let '(admitted, n) := if spun then (false, am_spinners m) else sync_spin_enter cap (am_spinners m) in
    let m := set_threads m (am_cv_waiters m) n (am_wake_skips m) (am_cv m) in
    if admitted then (ASpin, m)
    else (ASleep, set_threads m (am_cv_waiters m + 1) n (am_wake_skips m) (cv_sleep (am_cv m) i))
  else (AReturn XTC_OK, am_take m self).

(** Back from a sleep. *)
Definition am_thread_woken (m : xtc_amutex) (self : amutex_owner) (i : nat) (expired : bool) (cap : Z)
  : am_turn * xtc_amutex :=
  let m := set_threads m (am_cv_waiters m - 1) (am_spinners m) (am_wake_skips m) (cv_run (am_cv m) i) in
  if expired && am_held m then (AReturn XTC_E_AGAIN, m)
  else am_thread_loop m self i false cap.

(** The spin ends: the count drops without the inner mutex. *)
Definition am_spin_done (m : xtc_amutex) : xtc_amutex :=
  set_threads m (am_cv_waiters m) (sync_spin_leave (am_spinners m)) (am_wake_skips m) (am_cv m).

(** The spinner found the mutex free with the inner mutex in hand. *)
Definition am_spin_got (m : xtc_amutex) (self : amutex_owner) (i : nat) : am_turn * xtc_amutex :=
  am_thread_loop (am_spin_done m) self i true 0.

Definition is_head (m : xtc_amutex) (i : nat) : bool :=
  match am_wq m with (j, _) :: _ => bool_decide (j = i) | [] => false end.

Definition unlink_fiber (m : xtc_amutex) (i : nat) : xtc_amutex := set_wq m (fw_remove (am_wq m) i).

Definition ungrant (m : xtc_amutex) (i : nat) : xtc_amutex :=
  set_fibers m (am_granted m ∖ {[i]}) (am_woken m).

(** One turn of fiber [i]'s loop. *)
Definition am_fiber_turn (m : xtc_amutex) (self : amutex_owner) (i : nat) (lost : Z)
    (kill expired : bool) (pick : nat) : am_turn * xtc_amutex :=
  let m := set_fibers m (am_granted m) (am_woken m ∖ {[i]}) in
  if kill then
    let was_head := is_head m i in
    let m := unlink_fiber m i in
    if decide (i ∈ am_granted m) then (AKill lost, amutex_release_locked (ungrant m i) pick)
    else if was_head then
      let m := set_handoff m false in
      (AKill lost, if am_held m then m else amutex_wake_next_locked m pick)
    else (AKill lost, m)
  else if decide (i ∈ am_granted m) then (AReturn XTC_OK, am_claim (ungrant m i) self)
  else if negb (am_held m) then
    let m := if is_head m i then set_handoff m false else m in
    (AReturn XTC_OK, am_take (unlink_fiber m i) self)
  else
    let '(m, lost) :=
      if fw_queued (am_wq m) i then
        if is_head m i then
          (if decide (AM_HANDOFF_LOSSES <= lost + 1) then set_handoff m true else m, lost + 1)
        else (m, lost)
      else (set_wq m (fw_enqueue (am_wq m) i tt), lost) in
    if expired then
      (AReturn XTC_E_AGAIN, unlink_fiber (if is_head m i then set_handoff m false else m) i)
    else (APark lost, m).

(** [xtc_amutex_lock] up to the first time it gives the inner mutex up. *)
Definition xtc_amutex_lock (m : option xtc_amutex) (self : amutex_owner) (i : nat) (timeout_ns : Z)
    (fiber kill expired : bool) (cap : Z) (pick : nat) : am_turn * option xtc_amutex :=
  match m with
  | None => (AReturn XTC_E_INVAL, None)
  | Some m =>
      if am_reenters m self then (AReturn XTC_OK, Some (set_owner m (am_owner m) (am_count m + 1)))
      else if negb (am_held m) then (AReturn XTC_OK, Some (am_take m self))
      else if decide (timeout_ns = 0) then (AReturn XTC_E_AGAIN, Some m)
      else if fiber then
        let '(t, m') := am_fiber_turn m self i 0 kill expired pick in (t, Some m')
      else let '(t, m') := am_thread_loop m self i false cap in (t, Some m')
  end.

Definition xtc_amutex_unlock (m : option xtc_amutex) (pick : nat) : rc * option xtc_amutex :=
  match m with
  | None => (XTC_E_INVAL, None)
  | Some m =>
      if am_recursive m && bool_decide (1 < am_count m)
      then (XTC_OK, Some (set_owner m (am_owner m) (am_count m - 1)))
      else (XTC_OK, Some (amutex_release_locked m pick))
  end.

(** ** Clients *)

(** [MLoop lost checked]: in the fiber's loop ([checked]: kills are checked);
    [MKill lost]: delivering its kill; [MSpin]: spinning, counted; [MSpun]:
    done spinning, on its way to the inner mutex; [MSleep]: waiting on the
    condition variable; [MHold d]: holds it [d] times. *)
Inductive am_pc : Type :=
  | MIdle
  | MLoop (lost : Z) (checked : bool)
  | MKill (lost : Z)
  | MSpin
  | MSpun
  | MSleep
  | MHold (d : Z)
  | MDead.

(** Where a lock that was called from [back] leaves its caller; [d]: the
    holds after a successful one. *)
Definition am_after (t : am_turn) (checked : bool) (back : am_pc) (d : Z) : am_pc :=
  match t with
  | AReturn XTC_OK => MHold d
  | AReturn _ => back
  | APark lost => MLoop lost checked
  | AKill lost => MKill lost
  | ASpin => MSpin
  | ASleep => MSleep
  end.

(** Clients lock when they hold nothing, lock again what they hold only if it
    is recursive, and unlock what they hold. *)
Inductive am_step (self : nat -> amutex_owner) (i : nat) (m : xtc_amutex)
  : am_pc -> xtc_amutex -> am_pc -> Prop :=
  | ms_lock timeout_ns fiber kill expired cap pick t m' :
      xtc_amutex_lock (Some m) (self i) i timeout_ns fiber kill expired cap pick = (t, Some m') ->
      am_step self i m MIdle m' (am_after t true MIdle 1)
  | ms_relock d timeout_ns fiber kill expired cap pick t m' :
      am_recursive m = true ->
      xtc_amutex_lock (Some m) (self i) i timeout_ns fiber kill expired cap pick = (t, Some m') ->
      am_step self i m (MHold d) m' (am_after t true (MHold d) (d + 1))
  | ms_try c m' :
      xtc_amutex_try_lock (Some m) (self i) = (c, Some m') ->
      am_step self i m MIdle m' (am_after (AReturn c) true MIdle 1)
  | ms_retry d c m' :
      am_recursive m = true ->
      xtc_amutex_try_lock (Some m) (self i) = (c, Some m') ->
      am_step self i m (MHold d) m' (am_after (AReturn c) true (MHold d) (d + 1))
  | ms_unlock d pick m' :
      xtc_amutex_unlock (Some m) pick = (XTC_OK, Some m') ->
      am_step self i m (MHold d) m' (if decide (1 < d) then MHold (d - 1) else MIdle)
  | ms_fiber lost checked kill expired pick t m' :
      (kill = true -> checked = true) ->
      am_fiber_turn m (self i) i lost kill expired pick = (t, m') ->
      am_step self i m (MLoop lost checked) m' (am_after t checked MIdle 1)
  | ms_dead lost : am_step self i m (MKill lost) m MDead
  | ms_deferred lost : am_step self i m (MKill lost) m (MLoop lost false)
  | ms_spin_done : am_step self i m MSpin (am_spin_done m) MSpun
  | ms_spin_got t m' :
      am_held m = false ->
      am_spin_got m (self i) i = (t, m') ->
      am_step self i m MSpin m' (am_after t true MIdle 1)
  | ms_spun cap t m' :
      am_thread_loop m (self i) i true cap = (t, m') ->
      am_step self i m MSpun m' (am_after t true MIdle 1)
  | ms_woken expired cap t m' :
      am_thread_woken m (self i) i expired cap = (t, m') ->
      am_step self i m MSleep m' (am_after t true MIdle 1).

(** ** The invariant *)

(** Client [i] has the mutex: it returned from a lock, or was granted it. *)
Definition owns (m : xtc_amutex) (pool : gmap nat am_pc) (i : nat) : Prop :=
  i ∈ am_granted m \/ exists d, pool !! i = Some (MHold d).

Definition w_sleep (p : am_pc) : Z := match p with MSleep => 1 | _ => 0 end.
Definition w_spin (p : am_pc) : Z := match p with MSpin => 1 | _ => 0 end.

(** Whether a free mutex has someone on its way to take it: the woken head of
    the queue, else a signalled thread or one that has yet to test it after
    spinning. *)
Definition on_the_way (m : xtc_amutex) (pool : gmap nat am_pc) : Prop :=
  match am_wq m with
  | (i, _) :: _ => i ∈ am_woken m
  | [] => cv_asleep (am_cv m) = ∅ \/ cv_signalled (am_cv m) <> ∅ \/
          (exists j, pool !! j = Some MSpin \/ pool !! j = Some MSpun)
  end.

(** Exclusive ownership, and what a recursive mutex records of it. *)
Record am_own (self : nat -> amutex_owner) (m : xtc_amutex) (pool : gmap nat am_pc) : Prop := mk_am_own {
  ao_free : am_held m = false -> forall i, ~ owns m pool i;
  ao_held : am_held m = true -> exists i, owns m pool i;
  ao_one : forall i j, owns m pool i -> owns m pool j -> i = j;
  ao_depth : forall i d, pool !! i = Some (MHold d) -> 1 <= d /\ (am_recursive m = false -> d = 1);
  ao_count : am_recursive m = true -> forall i d, pool !! i = Some (MHold d) ->
    am_owner m = self i /\ am_count m = d;
  ao_owner : am_recursive m = true -> forall i, amutex_owner_eq (am_owner m) (self i) = true ->
    exists d, pool !! i = Some (MHold d);
}.

(** Queue and grants: who waits is in its loop. *)
Record am_fibers (m : xtc_amutex) (pool : gmap nat am_pc) : Prop := mk_am_fibers {
  af_nodup : NoDup (am_wq m).*1;
  af_queue : forall i a, (i, a) ∈ am_wq m -> (i ∉ am_granted m) /\ (exists l c, pool !! i = Some (MLoop l c));
  af_granted : forall i, i ∈ am_granted m -> i ∈ am_woken m /\ (exists l c, pool !! i = Some (MLoop l c));
  af_parked : forall i l, pool !! i = Some (MLoop l true) -> i ∈ am_granted m \/ (i, tt) ∈ am_wq m;
  af_handoff : am_handoff m = true -> am_wq m <> [];
  af_lost : forall i l, pool !! i = Some (MLoop l true) -> (i, tt) ∈ am_wq m ->
    l = 0 \/ (is_head m i = true /\ (AM_HANDOFF_LOSSES <= l -> am_handoff m = true));
}.

(** Sleepers and spinners. *)
Record am_threads (m : xtc_amutex) (pool : gmap nat am_pc) : Prop := mk_am_threads {
  at_asleep : forall i, i ∈ cv_asleep (am_cv m) -> pool !! i = Some MSleep;
  at_signalled : forall i, i ∈ cv_signalled (am_cv m) -> pool !! i = Some MSleep;
  at_waiters : am_cv_waiters m = pool_sum w_sleep pool;
  at_spinners : am_spinners m = pool_sum w_spin pool;
}.

Definition am_inv (self : nat -> amutex_owner) (m : xtc_amutex) (pool : gmap nat am_pc) : Prop :=
  am_own self m pool /\ am_fibers m pool /\ am_threads m pool /\
  (am_held m = false -> on_the_way m pool).

(** ** Preservation, piece by piece *)

Section Steps.
Variable self : nat -> amutex_owner.

Lemma claim_own m pool i :
  am_held m = true -> (forall j, ~ owns m pool j) ->
  (forall j, amutex_owner_eq (self i) (self j) = true -> i = j) ->
  am_own self (am_claim m (self i)) (<[i := MHold 1]> pool).
Proof.
  intros Hh Hno Hid.
  assert (forall j d, <[i := MHold 1]> pool !! j = Some (MHold d) -> j = i /\ d = 1) as Hp.
  { intros j d. destruct (decide (j = i)) as [->|Hne].
    - rewrite lookup_insert_eq. by intros [= <-].
    - rewrite lookup_insert_ne by done. intros Hj. destruct (Hno j). right. eauto. }
  assert (forall j, owns (am_claim m (self i)) (<[i := MHold 1]> pool) j <-> j = i) as Ho.
  { intros j. unfold owns. split.
    - intros [Hg|[d Hd]]; [|by apply Hp in Hd as [??]]. destruct (Hno j). left.
      unfold am_claim in Hg. by destruct (am_recursive m).
    - intros ->. right. exists 1. by rewrite lookup_insert_eq. }
  assert (am_recursive (am_claim m (self i)) = am_recursive m) as Er
    by (unfold am_claim; by destruct (am_recursive m) eqn:E).
  constructor.
  - unfold am_claim. destruct (am_recursive m); simpl; congruence.
  - intros _. exists i. by apply Ho.
  - intros j k ->%Ho ->%Ho. done.
  - intros j d [_ ->]%Hp. split; [lia|done].
  - rewrite Er. intros E j d [-> ->]%Hp. unfold am_claim. by rewrite E.
  - rewrite Er. intros E j. unfold am_claim. rewrite E. simpl. intros <-%Hid. exists 1.
    by rewrite lookup_insert_eq.
Qed.

(** A client without the mutex moves; what the invariant reads is unchanged. *)
Lemma own_move m m' pool i p' :
  am_own self m pool -> ~ owns m pool i -> (forall d, p' <> MHold d) ->
  am_held m' = am_held m -> am_recursive m' = am_recursive m -> am_granted m' = am_granted m ->
  am_owner m' = am_owner m -> am_count m' = am_count m ->
  am_own self m' (<[i := p']> pool).
Proof.
  intros [H1 H2 H3 H4 H5 H6] Hno Hp E1 E2 E3 E4 E5.
  assert (forall j d, <[i := p']> pool !! j = Some (MHold d) <-> pool !! j = Some (MHold d)) as Hl.
  { intros j d. destruct (decide (j = i)) as [->|Hne].
    - rewrite lookup_insert_eq. split; [naive_solver|]. intros Hj. destruct Hno. right. eauto.
    - by rewrite lookup_insert_ne. }
  assert (forall j, owns m' (<[i := p']> pool) j <-> owns m pool j) as Ho.
  { intros j. unfold owns. rewrite E3. by setoid_rewrite Hl. }
  constructor; rewrite ?E1, ?E2, ?E4, ?E5; setoid_rewrite Hl || setoid_rewrite Ho; eauto.
Qed.

Lemma fibers_ext m m' pool :
  am_fibers m pool -> am_wq m' = am_wq m -> am_granted m' = am_granted m ->
  am_woken m' = am_woken m -> am_handoff m' = am_handoff m -> am_fibers m' pool.
Proof.
  intros [H1 H2 H3 H4 H5 H6] E1 E2 E3 E4.
  constructor; unfold is_head; rewrite ?E1, ?E2, ?E3, ?E4; done.
Qed.

(** A client outside the fibers' loop moves. *)
Lemma fibers_move m pool i p p' :
  am_fibers m pool -> pool !! i = Some p -> (forall l c, p <> MLoop l c) ->
  (forall l, p' <> MLoop l true) -> am_fibers m (<[i := p']> pool).
Proof.
  intros [H1 H2 H3 H4 H5 H6] Hp Hn Hn'.
  assert (forall l c, pool !! i <> Some (MLoop l c)) as Hi by (intros l c E; simplify_eq; by destruct (Hn l c)).
  constructor; try done.
  - intros j a Hin. destruct (H2 j a Hin) as (? & l & c & E). split; [done|]. exists l, c.
    rewrite lookup_insert_ne; [done|naive_solver].
  - intros j Hin. destruct (H3 j Hin) as (? & l & c & E). split; [done|]. exists l, c.
    rewrite lookup_insert_ne; [done|naive_solver].
  - intros j l. destruct (decide (j = i)) as [->|Hne]; [rewrite lookup_insert_eq; naive_solver|].
    rewrite lookup_insert_ne by done. eauto.
  - intros j l. destruct (decide (j = i)) as [->|Hne]; [rewrite lookup_insert_eq; naive_solver|].
    rewrite lookup_insert_ne by done. eauto.
Qed.

(** Fiber [i] stops waiting. *)
Definition leave (m : xtc_amutex) (i : nat) : xtc_amutex :=
  set_fibers (unlink_fiber (if is_head m i then set_handoff m false else m) i)
    (am_granted m ∖ {[i]}) (am_woken m ∖ {[i]}).

Lemma is_head_spec m i : is_head m i = true <-> exists q, am_wq m = (i, tt) :: q.
Proof.
  unfold is_head. destruct (am_wq m) as [|[j []] q]; [naive_solver|].
  rewrite bool_decide_eq_true. naive_solver.
Qed.

Lemma leave_wq m i : am_wq (leave m i) = fw_remove (am_wq m) i.
Proof. unfold leave. by destruct (is_head m i). Qed.

(** The head stays unless it is the one that leaves. *)
Lemma remove_head (q : fw_queue unit) i j a q' :
  q = (j, a) :: q' -> j <> i -> fw_remove q i = (j, a) :: fw_remove q' i.
Proof. intros -> Hne. unfold fw_remove. rewrite filter_cons. simpl. by rewrite decide_True. Qed.

Lemma leave_fibers m pool i p' :
  am_fibers m pool -> (forall l, p' <> MLoop l true) -> am_fibers (leave m i) (<[i := p']> pool).
Proof.
  intros [H1 H2 H3 H4 H5 H6] Hn. constructor; rewrite ?leave_wq; cbn [leave set_fibers am_granted am_woken].
  - by apply fw_remove_NoDup.
  - intros j a [Hin Hne]%fw_remove_elem. destruct (H2 j a Hin). rewrite lookup_insert_ne by done.
    split; [set_solver|done].
  - intros j [Hj Hne%not_elem_of_singleton]%elem_of_difference. destruct (H3 j Hj).
    rewrite lookup_insert_ne by done. split; [set_solver|done].
  - intros j l. destruct (decide (j = i)) as [->|Hne]; [rewrite lookup_insert_eq; naive_solver|].
    rewrite lookup_insert_ne by done. intros [?|?]%H4; [left; set_solver|].
    right. by apply fw_remove_elem.
  - simpl. destruct (is_head m i) eqn:E; simpl; [done|]. intros Hh.
    destruct (am_wq m) as [|[j a] q] eqn:Eq; [by destruct (H5 Hh)|].
    assert (j <> i) as Hne.
    { intros ->. destruct a. by rewrite (proj2 (is_head_spec m i)) in E by eauto. }
    by rewrite (remove_head _ i j a q).
  - intros j l. destruct (decide (j = i)) as [->|Hne]; [rewrite lookup_insert_eq; naive_solver|].
    rewrite lookup_insert_ne by done. intros Hj [Hin _]%fw_remove_elem.
    destruct (H6 j l Hj Hin) as [?|[[q Eq]%is_head_spec Hl]]; [by left|]. right.
    assert (is_head m i = false) as E.
    { apply not_true_iff_false. intros [q' Eq']%is_head_spec. congruence. }
    split; [|unfold leave; by rewrite E].
    apply is_head_spec. exists (fw_remove q i). rewrite leave_wq. by apply remove_head.
Qed.

Lemma threads_step m m' pool i p p' :
  am_threads m pool -> pool !! i = Some p ->
  (forall j, j <> i -> j ∈ cv_asleep (am_cv m') \/ j ∈ cv_signalled (am_cv m') ->
     j ∈ cv_asleep (am_cv m) \/ j ∈ cv_signalled (am_cv m)) ->
  (i ∈ cv_asleep (am_cv m') \/ i ∈ cv_signalled (am_cv m') -> p' = MSleep) ->
  am_cv_waiters m' = am_cv_waiters m - w_sleep p + w_sleep p' ->
  am_spinners m' = am_spinners m - w_spin p + w_spin p' ->
  am_threads m' (<[i := p']> pool).
Proof.
  intros [H1 H2 H3 H4] Hp Hc Hi E1 E2.
  assert (forall j, j ∈ cv_asleep (am_cv m') \/ j ∈ cv_signalled (am_cv m') ->
    <[i := p']> pool !! j = Some MSleep) as Ha.
  { intros j Hj. destruct (decide (j = i)) as [->|Hne].
    - rewrite lookup_insert_eq. f_equal. auto.
    - rewrite lookup_insert_ne by done. destruct (Hc j Hne Hj); auto. }
  constructor; [auto|auto| |]; rewrite (pool_sum_insert _ _ _ p) by done; congruence.
Qed.

(** A client that is not asleep moves without sleeping or spinning. *)
Lemma threads_move m m' pool i p p' :
  am_threads m pool -> pool !! i = Some p -> w_sleep p = 0 -> w_spin p = 0 ->
  w_sleep p' = 0 -> w_spin p' = 0 -> am_cv m' = am_cv m ->
  am_cv_waiters m' = am_cv_waiters m -> am_spinners m' = am_spinners m ->
  am_threads m' (<[i := p']> pool).
Proof.
  intros Ht Hp S1 S2 S3 S4 E1 E2 E3. apply (threads_step m _ _ _ p); rewrite ?E1; try done; try lia.
  intros Hin. destruct Ht as [H1 H2 _ _].
  destruct Hin as [?%H1|?%H2]; simplify_eq; by rewrite Hp in *; simplify_eq.
Qed.

Lemma cv_signal_sub c pick i :
  i ∈ cv_asleep (cv_signal c pick) \/ i ∈ cv_signalled (cv_signal c pick) ->
  i ∈ cv_asleep c \/ i ∈ cv_signalled c.
Proof.
  unfold cv_signal. case_decide; simpl; [set_solver|].
  destruct (head (elements (cv_asleep c))) as [j|] eqn:E; [|done]. simpl.
  assert (j ∈ cv_asleep c); [|set_solver].
  apply elem_of_elements. apply head_Some_elem_of in E. done.
Qed.

Lemma cv_signal_wakes c pick :
  cv_asleep (cv_signal c pick) = ∅ \/ cv_signalled (cv_signal c pick) <> ∅.
Proof.
  unfold cv_signal. case_decide; simpl; [right; set_solver|].
  destruct (head (elements (cv_asleep c))) as [j|] eqn:E; simpl; [right; set_solver|].
  left. apply head_None in E. by apply elements_empty_inv, leibniz_equiv in E.
Qed.

(** After a wake someone is on the way. *)
Lemma wake_next_ok m pool pick :
  am_threads m pool ->
  am_threads (amutex_wake_next_locked m pick) pool /\ on_the_way (amutex_wake_next_locked m pick) pool.
Proof.
  intros Ht. unfold amutex_wake_next_locked, on_the_way.
  destruct (am_wq m) as [|[i a] q] eqn:Eq.
  2:{ destruct Ht. split; [by constructor|]. simpl. rewrite Eq. set_solver. }
  unfold amutex_wake_thread_locked. destruct Ht as [H1 H2 H3 H4].
  destruct (decide (am_cv_waiters m = 0)) as [E|E].
  { split; [done|]. rewrite Eq. left. apply elem_of_equiv_empty_L. intros i Hi.
    pose proof (pool_sum_ge w_sleep pool i MSleep ltac:(by intros []) (H1 i Hi)). simpl in *. lia. }
  destruct (decide _) as [(_ & Hs & _)|_].
  - split; [done|]. simpl. rewrite Eq. right; right.
    destruct (pool_sum_pos w_spin pool ltac:(lia)) as (j & p & Hj & Hw). exists j. left. by destruct p.
  - split; [constructor; simpl; try done|].
    + intros i Hi. by destruct (cv_signal_sub (am_cv m) pick i ltac:(by left)); auto.
    + intros i Hi. by destruct (cv_signal_sub (am_cv m) pick i ltac:(by right)); auto.
    + simpl. rewrite Eq. destruct (cv_signal_wakes (am_cv m) pick); auto.
Qed.

(** The mutex with nobody left holding it. *)
Record unowned (m : xtc_amutex) (pool : gmap nat am_pc) : Prop := mk_unowned {
  un_nobody : forall i, ~ owns m pool i;
  un_owner : am_recursive m = true -> forall i, amutex_owner_eq (am_owner m) (self i) = false;
  un_fibers : am_fibers m pool;
  un_threads : am_threads m pool;
}.

Lemma unowned_own m m' pool :
  unowned m pool -> am_held m' = false -> am_recursive m' = am_recursive m ->
  am_granted m' = am_granted m -> am_owner m' = am_owner m -> am_own self m' pool.
Proof.
  intros [Hno Ho _ _] E1 E2 E3 E4.
  assert (forall i, ~ owns m' pool i) as Hno' by (intros i; unfold owns; rewrite E3; apply Hno).
  constructor; try done.
  - congruence.
  - intros i j Hi. by destruct (Hno' i).
  - intros i d Hi. destruct (Hno' i). right. eauto.
  - intros _ i d Hi. destruct (Hno' i). right. eauto.
  - intros E i. rewrite E4, Ho by congruence. done.
Qed.

Lemma own_unowned m pool :
  am_own self m pool -> am_held m = false -> am_fibers m pool -> am_threads m pool -> unowned m pool.
Proof.
  intros Ho Hh Hf Ht. constructor; [by apply (ao_free _ _ _ Ho)| |done|done].
  intros E i. apply not_true_iff_false. intros [d Hd]%(ao_owner _ _ _ Ho E).
  destruct (ao_free _ _ _ Ho Hh i). right. eauto.
Qed.

Lemma free_ok m pool pick :
  unowned m pool -> am_inv self (amutex_wake_next_locked (set_held m false) pick) pool.
Proof.
  intros Hu. destruct (wake_next_ok (set_held m false) pool pick) as [Ht Hw]; [by destruct (un_threads _ _ Hu)|].
  split_and!; [| |done|done].
  - apply (unowned_own m); [done| | | |]; unfold amutex_wake_next_locked, amutex_wake_thread_locked;
      by destruct (am_wq _) as [|[??]?]; repeat case_decide.
  - destruct (un_fibers _ _ Hu) as [H1 H2 H3 H4 H5 H6].
    unfold amutex_wake_next_locked in *. simpl. destruct (am_wq m) as [|[i []] q] eqn:Eq.
    + apply (fibers_ext m); [by constructor; rewrite ?Eq| | | |];
        unfold amutex_wake_thread_locked; repeat case_decide; done.
    + constructor; simpl; rewrite ?Eq; try done. intros j Hj. destruct (H3 j Hj). split; [set_solver|done].
Qed.

Lemma grant_head_ok m pool i q :
  unowned m pool -> am_held m = true -> am_wq m = (i, tt) :: q ->
  am_inv self (set_fibers (set_wq (set_handoff m false) q) ({[i]} ∪ am_granted m) ({[i]} ∪ am_woken m)) pool.
Proof.
  intros [Hno Ho Hf Ht] Hh Eq. set (m' := set_fibers _ _ _).
  assert (forall j, owns m' pool j -> j = i) as Hu.
  { intros j [Hj|Hj]; [|by destruct (Hno j); right].
    apply elem_of_union in Hj as [?%elem_of_singleton|Hj]; [done|]. destruct (Hno j). by left. }
  split_and!; [| |by destruct Ht|simpl; congruence].
  - constructor; simpl.
    + congruence.
    + intros _. exists i. left. set_solver.
    + intros j k ->%Hu ->%Hu. done.
    + intros j d Hj. destruct (Hno j). right. eauto.
    + intros _ j d Hj. destruct (Hno j). right. eauto.
    + intros E j. by rewrite Ho.
  - destruct Hf as [H1 H2 H3 H4 H5 H6]. rewrite Eq in *. rewrite fmap_cons in H1.
    apply NoDup_cons in H1 as [Hi H1].
    assert (forall j a, (j, a) ∈ q -> j <> i) as Hne.
    { intros j a Hin ->. apply Hi. apply list_elem_of_fmap. by exists (i, a). }
    constructor; simpl; try done.
    + intros j a Hin. destruct (H2 j a ltac:(by right)) as [? Hj]. specialize (Hne j a Hin).
      split; [set_solver|done].
    + intros j [->%elem_of_singleton|Hj]%elem_of_union.
      * destruct (H2 i () ltac:(left)) as [_ ?]. split; [set_solver|done].
      * destruct (H3 j Hj). split; [set_solver|done].
    + intros j l Hj. destruct (H4 j l Hj) as [?|[[= ->]|?]%elem_of_cons]; set_solver.
    + intros j l Hj Hin. destruct (H6 j l Hj ltac:(by right)) as [?|[Hd _]]; [by left|].
      apply is_head_spec in Hd as [q' Eq']. rewrite Eq in Eq'. injection Eq' as -> _.
      by destruct (Hne j () Hin).
Qed.

Lemma release_ok m pool pick :
  am_held m = true -> (forall i, ~ owns m pool i) -> am_fibers m pool -> am_threads m pool ->
  am_inv self (amutex_release_locked m pick) pool.
Proof.
  intros Hh Hno Hf Ht. unfold amutex_release_locked.
  set (m1 := if am_recursive m then set_owner m ONone 0 else m).
  assert (unowned m1 pool) as Hu.
  { unfold m1. destruct (am_recursive m) eqn:E; constructor; try done; [..|congruence].
    - by apply (fibers_ext m).
    - by destruct Ht. }
  assert (am_held m1 = true) as Hh1 by (unfold m1; by destruct (am_recursive m)).
  clearbody m1. destruct (am_wq m1) as [|[i []] q] eqn:Eq; [by apply free_ok|].
  destruct (am_handoff m1); [|by apply free_ok].
  pose proof (grant_head_ok m1 pool i q Hu Hh1 Eq) as Hg.
  rewrite <-(fw_remove_head q i ()) in Hg; [exact Hg|]. rewrite <-Eq. apply Hu.
Qed.

Hypothesis self_distinct : forall i j, amutex_owner_eq (self i) (self j) = true <-> i = j.

Definition loops (p : am_pc) : bool := match p with MLoop _ _ => true | _ => false end.
Definition holding (p : am_pc) : bool := match p with MHold _ => true | _ => false end.

(** A client outside the loop that holds nothing owns nothing. *)
Lemma not_owner m pool i p :
  am_fibers m pool -> pool !! i = Some p -> loops p = false -> holding p = false -> ~ owns m pool i.
Proof.
  intros Hf Hp Hl Hh [Hg|[d Hd]].
  - destruct (af_granted _ _ Hf i Hg) as (_ & l & c & E). by simplify_eq.
  - by simplify_eq.
Qed.

(** The section took the mutex for [i], which was neither queued nor granted. *)
Lemma taken_ok m m' pool i p :
  am_fibers m pool -> am_threads m pool -> pool !! i = Some p -> loops p = false ->
  w_sleep p = 0 -> w_spin p = 0 -> (forall j, ~ owns m pool j) ->
  m' = am_take m (self i) -> am_inv self m' (<[i := MHold 1]> pool).
Proof.
  intros Hf Ht Hp Hl Hs1 Hs2 Hno ->.
  assert (forall (A : Type) (f : xtc_amutex -> A), (forall o c, f (set_owner (set_held m true) o c) = f m) ->
    f (set_held m true) = f m -> f (am_take m (self i)) = f m) as Hsame.
  { intros A f H1 H2. unfold am_take, am_claim. by destruct (am_recursive (set_held m true)). }
  split_and!.
  - apply claim_own; [done|done|]. intros j. by rewrite self_distinct.
  - apply (fibers_ext m); try by apply Hsame.
    apply (fibers_move _ _ _ p); try done. intros l c ->. done.
  - apply (threads_move m _ _ _ p); try done; by apply Hsame.
  - unfold am_take, am_claim. destruct (am_recursive _); simpl; congruence.
Qed.

(** Moving to the point where a thread is about to test the mutex. *)
Lemma to_test m m' pool i p :
  am_inv self m pool -> pool !! i = Some p -> loops p = false -> holding p = false ->
  am_held m' = am_held m -> am_recursive m' = am_recursive m -> am_granted m' = am_granted m ->
  am_owner m' = am_owner m -> am_count m' = am_count m -> am_wq m' = am_wq m ->
  am_woken m' = am_woken m -> am_handoff m' = am_handoff m ->
  am_threads m' (<[i := MSpun]> pool) ->
  am_inv self m' (<[i := MSpun]> pool).
Proof.
  intros (Ho & Hf & Ht & Hw) Hp Hl Hh E1 E2 E3 E4 E5 E6 E7 E8 Ht'. split_and!; [| |done|].
  - apply (own_move m); try done. by eapply not_owner.
  - apply (fibers_ext m); try done. apply (fibers_move _ _ _ p); try done. by intros l c ->.
  - unfold on_the_way. rewrite E1, E6, E7. intros Hfree. specialize (Hw Hfree). unfold on_the_way in Hw.
    destruct (am_wq m) as [|[j a] q]; [|done]. right; right. exists i. right. by rewrite lookup_insert_eq.
Qed.

Lemma thread_loop_ok m pool i spun cap t m' :
  am_inv self m pool -> pool !! i = Some MSpun ->
  am_thread_loop m (self i) i spun cap = (t, m') ->
  am_inv self m' (<[i := am_after t true MIdle 1]> pool).
Proof.
  intros (Ho & Hf & Ht & Hw) Hp. unfold am_thread_loop.
  pose proof (not_owner m pool i MSpun Hf Hp eq_refl eq_refl) as Hno.
  destruct (am_held m) eqn:Hh.
  2:{ intros [= <- <-]. apply (taken_ok m _ _ _ MSpun); try done. by apply (ao_free _ _ _ Ho). }
  destruct (if spun then _ else _) as [adm n] eqn:Ea.
  assert (n = am_spinners m + (if adm then 1 else 0)) as En.
  { destruct spun; [simplify_eq; lia|]. unfold sync_spin_enter in Ea.
    repeat case_decide; simplify_eq; lia. }
  assert (forall p, loops p = false -> holding p = false -> am_fibers m (<[i := p]> pool)) as Hf'.
  { intros p Hl _. apply (fibers_move _ _ _ MSpun); try done. intros l ->. done. }
  assert ((i ∉ cv_asleep (am_cv m)) /\ (i ∉ cv_signalled (am_cv m))) as [Ha Hs].
  { destruct Ht as [H1 H2 _ _]. split; [intros ?%H1|intros ?%H2]; simplify_eq. }
  destruct adm; intros [= <- <-]; simpl am_after.
  - split_and!; [| | |simpl; congruence].
    + by apply (own_move m).
    + apply (fibers_ext m); try done. by apply Hf'.
    + apply (threads_step m _ _ _ MSpun); simpl; try done; try lia. by intros [?|?].
  - split_and!; [| | |simpl; congruence].
    + by apply (own_move m).
    + apply (fibers_ext m); try done. by apply Hf'.
    + apply (threads_step m _ _ _ MSpun); simpl; try done; try lia. set_solver.
Qed.

Lemma exit_fibers m m' pool i p' :
  am_fibers m pool -> (forall l, p' <> MLoop l true) ->
  am_wq m' = fw_remove (am_wq m) i -> am_granted m' = am_granted m ∖ {[i]} ->
  am_woken m' = am_woken m ∖ {[i]} ->
  am_handoff m' = (if is_head m i then false else am_handoff m) ->
  am_fibers m' (<[i := p']> pool).
Proof.
  intros Hf Hp E1 E2 E3 E4. apply (fibers_ext (leave m i)); [by apply leave_fibers|..].
  - by rewrite leave_wq.
  - done.
  - done.
  - rewrite E4. unfold leave. by destruct (is_head m i).
Qed.

(** Where a fiber that runs a turn comes from. *)
Definition fiber_at (m : xtc_amutex) (p : am_pc) (lost : Z) (checked : bool) : Prop :=
  p = MLoop lost checked \/ (p = MIdle /\ lost = 0 /\ checked = true /\ am_held m = true).

Lemma fiber_at_still m p lost checked : fiber_at m p lost checked -> w_sleep p = 0 /\ w_spin p = 0.
Proof. by intros [->|[-> _]]. Qed.

(** The kill of a fiber: what it was granted is passed on. *)
Lemma fiber_kill_ok m pool i p lost checked pick t m' :
  am_inv self m pool -> pool !! i = Some p -> fiber_at m p lost checked ->
  am_fiber_turn m (self i) i lost true false pick = (t, m') ->
  am_inv self m' (<[i := am_after t checked MIdle 1]> pool).
Proof.
  intros (Ho & Hf & Ht & Hw) Hp Hat. destruct (fiber_at_still _ _ _ _ Hat) as [Hs1 Hs2].
  unfold am_fiber_turn. set (m0 := set_fibers m (am_granted m) (am_woken m ∖ {[i]})).
  change (is_head m0 i) with (is_head m i). change (am_granted (unlink_fiber m0 i)) with (am_granted m).
  assert (i ∈ am_granted m -> is_head m i = false) as Hgh.
  { intros Hg. apply not_true_iff_false. intros [q Eq]%is_head_spec.
    destruct (af_queue _ _ Hf i () ltac:(rewrite Eq; left)) as [? _]. done. }
  destruct (decide (i ∈ am_granted m)) as [Hg|Hg].
  { intros [= <- <-]. simpl am_after. apply release_ok.
    - simpl. destruct (am_held m) eqn:E; [done|]. destruct (ao_free _ _ _ Ho E i). by left.
    - intros j [Hj|[d Hd]].
      + simpl in Hj. apply elem_of_difference in Hj as [Hj Hne]. apply Hne, elem_of_singleton.
        apply (ao_one _ _ _ Ho); by left.
      + destruct (decide (j = i)) as [->|Hne]; [by rewrite lookup_insert_eq in Hd|].
        rewrite lookup_insert_ne in Hd by done. apply Hne. apply (ao_one _ _ _ Ho); [right; eauto|by left].
    - apply (exit_fibers m); try done. by rewrite Hgh.
    - by apply (threads_move m _ _ _ p). }
  assert (~ owns m pool i) as Hno.
  { intros [?|[d Hd]]; [done|]. destruct Hat as [->|[-> _]]; simplify_eq. }
  assert (am_granted m ∖ {[i]} = am_granted m) as Eg by set_solver.
  destruct (is_head m i) eqn:Eh; intros [= <- <-]; simpl am_after.
  - set (m1 := set_handoff (unlink_fiber m0 i) false).
    assert (am_own self m1 (<[i := MKill lost]> pool)) as Ho1 by (by apply (own_move m)).
    assert (am_fibers m1 (<[i := MKill lost]> pool)) as Hf1.
    { apply (exit_fibers m); simpl; rewrite ?Eg, ?Eh; done. }
    assert (am_threads m1 (<[i := MKill lost]> pool)) as Ht1 by (by apply (threads_move m _ _ _ p)).
    change (am_held m) with (am_held m1) in *. destruct (am_held m1) eqn:Hh1; [split_and!; [done|done|done|congruence]|].
    pose proof (free_ok m1 _ pick (own_unowned _ _ Ho1 Hh1 Hf1 Ht1)) as Hfree.
    assert (set_held m1 false = m1) as Em by (clear -Hh1; destruct m1; simpl in *; by subst).
    by rewrite Em in Hfree.
  - split_and!.
    + by apply (own_move m).
    + apply (exit_fibers m); simpl; rewrite ?Eg, ?Eh; done.
    + by apply (threads_move m _ _ _ p).
    + simpl. intros Hfree. specialize (Hw Hfree). unfold on_the_way in *. simpl.
      destruct (am_wq m) as [|[j a] q] eqn:Eq; simpl.
      * destruct Hw as [?|[?|(j & Hj)]]; [by left|by right; left|]. right; right. exists j.
        rewrite lookup_insert_ne; [done|]. intros ->. destruct Hat as [->|[-> _]]; naive_solver.
      * assert (j <> i) as Hne by (intros ->; unfold is_head in Eh; rewrite Eq in Eh; by apply bool_decide_eq_false in Eh).
        rewrite (remove_head _ i j a q) by done. set_solver.
Qed.

(** A fiber that leaves the loop with the mutex. *)
Lemma fiber_gets m m' pool i p lost checked :
  am_inv self m pool -> pool !! i = Some p -> fiber_at m p lost checked ->
  am_held m' = true -> (forall j, ~ owns m' pool j) ->
  am_wq m' = fw_remove (am_wq m) i -> am_granted m' = am_granted m ∖ {[i]} ->
  am_woken m' = am_woken m ∖ {[i]} ->
  am_handoff m' = (if is_head m i then false else am_handoff m) ->
  am_cv m' = am_cv m -> am_cv_waiters m' = am_cv_waiters m -> am_spinners m' = am_spinners m ->
  am_inv self (am_claim m' (self i)) (<[i := MHold 1]> pool).
Proof.
  intros (Ho & Hf & Ht & Hw) Hp Hat Hh Hno E1 E2 E3 E4 E5 E6 E7.
  destruct (fiber_at_still _ _ _ _ Hat) as [Hs1 Hs2].
  assert (forall (A : Type) (f : xtc_amutex -> A), (forall o c, f (set_owner m' o c) = f m') ->
    f (am_claim m' (self i)) = f m') as Hsame.
  { intros A f H1. unfold am_claim. by destruct (am_recursive m'). }
  split_and!.
  - apply claim_own; [done|done|]. intros j. by rewrite self_distinct.
  - apply (fibers_ext m'); try by apply Hsame. by apply (exit_fibers m).
  - apply (threads_move m _ _ _ p); try done; rewrite Hsame; done.
  - rewrite Hsame by done. congruence.
Qed.

(** A fiber that found the mutex held and gives up. *)
Lemma fiber_gives_up m m' pool i p lost checked :
  am_inv self m pool -> pool !! i = Some p -> fiber_at m p lost checked -> am_held m = true ->
  i ∉ am_granted m ->
  am_wq m' = fw_remove (am_wq m) i -> am_woken m' = am_woken m ∖ {[i]} ->
  am_handoff m' = (if is_head m i then false else am_handoff m) ->
  am_held m' = true -> am_recursive m' = am_recursive m -> am_granted m' = am_granted m ->
  am_owner m' = am_owner m -> am_count m' = am_count m ->
  am_cv m' = am_cv m -> am_cv_waiters m' = am_cv_waiters m -> am_spinners m' = am_spinners m ->
  am_inv self m' (<[i := MIdle]> pool).
Proof.
  intros (Ho & Hf & Ht & Hw) Hp Hat Hh Hg E1 E2 E3 E4 E5 E6 E7 E8 E9 E10 E11.
  destruct (fiber_at_still _ _ _ _ Hat) as [Hs1 Hs2]. split_and!.
  - apply (own_move m); try done; [|congruence]. intros [?|[d Hd]]; [done|].
    destruct Hat as [->|[-> _]]; simplify_eq.
  - apply (exit_fibers m); try done. rewrite E6. set_solver.
  - by apply (threads_move m _ _ _ p).
  - congruence.
Qed.

(** A fiber that found the mutex held and stays queued. *)
Lemma fiber_parks m m' pool i p lost checked lost' :
  am_inv self m pool -> pool !! i = Some p -> fiber_at m p lost checked -> am_held m = true ->
  i ∉ am_granted m -> am_fibers m' (<[i := MLoop lost' checked]> pool) ->
  am_held m' = true -> am_recursive m' = am_recursive m -> am_granted m' = am_granted m ->
  am_owner m' = am_owner m -> am_count m' = am_count m ->
  am_cv m' = am_cv m -> am_cv_waiters m' = am_cv_waiters m -> am_spinners m' = am_spinners m ->
  am_inv self m' (<[i := MLoop lost' checked]> pool).
Proof.
  intros (Ho & Hf & Ht & Hw) Hp Hat Hh Hg Hf' E4 E5 E6 E7 E8 E9 E10 E11.
  destruct (fiber_at_still _ _ _ _ Hat) as [Hs1 Hs2]. split_and!; [|done| |congruence].
  - apply (own_move m); try done; [|congruence]. intros [?|[d Hd]]; [done|].
    destruct Hat as [->|[-> _]]; simplify_eq.
  - by apply (threads_move m _ _ _ p).
Qed.

(** The queue after a lost race: the fiber keeps its place. *)
Lemma lost_fibers m m' pool i lost lost' checked :
  am_fibers m pool -> pool !! i = Some (MLoop lost checked) -> (i, tt) ∈ am_wq m ->
  am_wq m' = am_wq m -> am_granted m' = am_granted m -> am_woken m' = am_woken m ∖ {[i]} ->
  (am_handoff m = true -> am_handoff m' = true) ->
  (am_handoff m' = true -> am_wq m <> []) ->
  (lost' = lost \/ is_head m i = true /\ (AM_HANDOFF_LOSSES <= lost' -> am_handoff m' = true)) ->
  am_fibers m' (<[i := MLoop lost' checked]> pool).
Proof.
  intros [H1 H2 H3 H4 H5 H6] Hp Hin E1 E2 E3 Hh1 Hh2 Hl.
  assert (i ∉ am_granted m) as Hg by (by apply (H2 i ())).
  constructor; unfold is_head in *; rewrite ?E1, ?E2, ?E3; try done.
  - intros j a Hj. destruct (H2 j a Hj) as [? (l & c & E)]. split; [done|].
    destruct (decide (j = i)) as [->|Hne]; [rewrite lookup_insert_eq; eauto|].
    rewrite lookup_insert_ne by done. eauto.
  - intros j Hj. destruct (H3 j Hj). rewrite lookup_insert_ne by (intros ->; done).
    split; [set_solver|done].
  - intros j l. destruct (decide (j = i)) as [->|Hne]; [by right|].
    rewrite lookup_insert_ne by done. eauto.
  - intros j l. destruct (decide (j = i)) as [->|Hne].
    + rewrite lookup_insert_eq. intros [= -> ->] _. destruct Hl as [->|[? ?]]; [|by right].
      destruct (H6 i lost Hp Hin) as [?|[? ?]]; [by left|]. right. auto.
    + rewrite lookup_insert_ne by done. intros Hj Hjn.
      destruct (H6 j l Hj Hjn) as [?|[? ?]]; [by left|]. right. auto.
Qed.

Lemma enqueue_fibers m m' pool i p lost checked :
  am_fibers m pool -> pool !! i = Some p -> fiber_at m p lost checked -> i ∉ am_granted m ->
  fw_queued (am_wq m) i = false ->
  am_wq m' = fw_enqueue (am_wq m) i tt -> am_granted m' = am_granted m ->
  am_woken m' = am_woken m ∖ {[i]} -> am_handoff m' = am_handoff m ->
  am_fibers m' (<[i := MLoop lost checked]> pool).
Proof.
  intros [H1 H2 H3 H4 H5 H6] Hp Hat Hg Hq E1 E2 E3 E4.
  assert (checked = true -> lost = 0) as Hc.
  { intros ->. destruct Hat as [->|(_ & ? & _)]; [|done]. destruct (H4 i lost Hp) as [?|Hin]; [done|].
    by rewrite (proj2 (fw_queued_spec _ _)) in Hq by eauto. }
  assert (forall j, is_head m j = true -> is_head m' j = true) as Hhd.
  { intros j [q Eq]%is_head_spec. apply is_head_spec. rewrite E1. unfold fw_enqueue. rewrite Hq, Eq. eauto. }
  constructor; rewrite ?E2, ?E3, ?E4.
  - rewrite E1. by apply fw_enqueue_NoDup.
  - rewrite E1. intros j a [Hj|(-> & _)]%fw_enqueue_elem.
    + destruct (H2 j a Hj). assert (j <> i).
      { intros ->. by rewrite (proj2 (fw_queued_spec _ _)) in Hq by eauto. }
      by rewrite lookup_insert_ne.
    + rewrite lookup_insert_eq. eauto.
  - intros j Hj. destruct (H3 j Hj). rewrite lookup_insert_ne by (intros ->; done). split; [set_solver|done].
  - rewrite E1. intros j l. destruct (decide (j = i)) as [->|Hne].
    + intros _. right. apply fw_enqueue_elem. auto.
    + rewrite lookup_insert_ne by done. intros [?|?]%H4; [by left|]. right. apply fw_enqueue_elem. auto.
  - intros Hh. rewrite E1. unfold fw_enqueue. rewrite Hq. by destruct (am_wq m).
  - rewrite E1. intros j l. destruct (decide (j = i)) as [->|Hne].
    + rewrite lookup_insert_eq. intros [= <- ->] _. left. auto.
    + rewrite lookup_insert_ne by done. intros Hj [Hin|[? _]]%fw_enqueue_elem; [|done].
      destruct (H6 j l Hj Hin) as [?|[? ?]]; auto.
Qed.

Lemma fiber_waits_ok m pool i p lost checked (expired : bool) t m' :
  am_inv self m pool -> pool !! i = Some p -> fiber_at m p lost checked ->
  am_held m = true -> i ∉ am_granted m ->
  (let m0 := set_fibers m (am_granted m) (am_woken m ∖ {[i]}) in
   let '(m1, lost) :=
     if fw_queued (am_wq m) i then
       if is_head m i then
         (if decide (AM_HANDOFF_LOSSES <= lost + 1) then set_handoff m0 true else m0, lost + 1)
       else (m0, lost)
     else (set_wq m0 (fw_enqueue (am_wq m) i tt), lost) in
   if expired then
     (AReturn XTC_E_AGAIN, unlink_fiber (if is_head m1 i then set_handoff m1 false else m1) i)
   else (APark lost, m1)) = (t, m') ->
  am_inv self m' (<[i := am_after t checked MIdle 1]> pool).
Proof.
  intros Hinv Hp Hat Hh Hg. pose proof Hinv as (Ho & Hf & Ht & Hw).
  set (m0 := set_fibers m (am_granted m) (am_woken m ∖ {[i]})). cbv zeta.
  destruct (fw_queued (am_wq m) i) eqn:Eq; [assert (p = MLoop lost checked) as ->|].
  { apply fw_queued_spec in Eq as [a Ha]. destruct (af_queue _ _ Hf i a Ha) as (_ & l & c & E).
    destruct Hat as [?|[-> _]]; by simplify_eq. }
  - assert ((i, tt) ∈ am_wq m) as Hin by (by apply fw_queued_spec in Eq as [[] Ha]).
    assert (forall b, is_head (set_handoff m0 b) i = is_head m i) as Ehd by done.
    destruct (is_head m i) eqn:Eh.
    + set (m1 := if decide (AM_HANDOFF_LOSSES <= lost + 1) then set_handoff m0 true else m0).
      assert (is_head m1 i = true) as Eh1 by (unfold m1; by case_decide). rewrite Eh1.
      destruct expired; intros [= <- <-]; simpl am_after.
      * unfold m1. case_decide; apply (fiber_gives_up m _ _ _ (MLoop lost checked) lost checked);
          rewrite ?Eh; done.
      * assert (am_fibers m1 (<[i := MLoop (lost + 1) checked]> pool)) as Hf'.
        { apply (lost_fibers m _ _ _ lost); try done; unfold m1; try by case_decide.
          - intros _ E. rewrite E in Hin. by apply elem_of_nil in Hin.
          - right. split; [done|]. by case_decide. }
        unfold m1 in *. case_decide;
          by apply (fiber_parks m _ _ _ (MLoop lost checked) lost checked).
    + destruct expired; intros [= <- <-]; simpl am_after.
      * change (is_head m0 i) with (is_head m i). rewrite Eh.
        apply (fiber_gives_up m _ _ _ (MLoop lost checked) lost checked); rewrite ?Eh; done.
      * apply (fiber_parks m _ _ _ (MLoop lost checked) lost checked); try done.
        apply (lost_fibers m _ _ _ lost); try done; [|by left]. intros _ E. rewrite E in Hin. by apply elem_of_nil in Hin.
  - set (m1 := set_wq m0 _). destruct expired; intros [= <- <-]; simpl am_after.
    + assert (is_head m i = false) as Eh.
      { apply not_true_iff_false. intros [q E]%is_head_spec. rewrite E in Eq.
        apply bool_decide_eq_false in Eq. apply Eq. left. }
      apply (fiber_gives_up m _ _ _ p lost checked); rewrite ?Eh; try done;
        destruct (is_head m1 i) eqn:Eh1; try done; simpl; try apply fw_remove_enqueue.
      apply is_head_spec in Eh1 as [q E1]. simpl in E1. unfold fw_enqueue in E1. rewrite Eq in E1.
      destruct (am_wq m) as [|[j []] q'] eqn:E; simpl in E1; simplify_eq.
      * destruct (am_handoff m) eqn:Ehf; [|done]. by destruct (af_handoff _ _ Hf Ehf).
      * unfold is_head in Eh. rewrite E in Eh. by apply bool_decide_eq_false in Eh.
    + apply (fiber_parks m _ _ _ p lost checked); try done.
      by apply (enqueue_fibers m _ _ _ p).
Qed.

Lemma fiber_turn_ok m pool i p lost checked kill expired pick t m' :
  am_inv self m pool -> pool !! i = Some p -> fiber_at m p lost checked ->
  am_fiber_turn m (self i) i lost kill expired pick = (t, m') ->
  am_inv self m' (<[i := am_after t checked MIdle 1]> pool).
Proof.
  intros Hinv Hp Hat. destruct kill; [by apply (fiber_kill_ok m pool i p lost checked pick)|].
  pose proof Hinv as (Ho & Hf & Ht & Hw). unfold am_fiber_turn.
  set (m0 := set_fibers m (am_granted m) (am_woken m ∖ {[i]})).
  change (is_head m0 i) with (is_head m i). change (am_granted m0) with (am_granted m).
  change (am_held m0) with (am_held m). change (am_wq m0) with (am_wq m).
  destruct (decide (i ∈ am_granted m)) as [Hg|Hg].
  { intros [= <- <-]. simpl am_after.
    assert (is_head m i = false) as Eh.
    { apply not_true_iff_false. intros [q Eq]%is_head_spec.
      by destruct (af_queue _ _ Hf i () ltac:(rewrite Eq; left)) as [? _]. }
    assert (fw_remove (am_wq m) i = am_wq m) as Ew.
    { apply fw_remove_fresh, not_true_iff_false. intros [a Ha]%fw_queued_spec.
      by destruct (af_queue _ _ Hf i a Ha). }
    apply (fiber_gets m _ _ _ p lost checked); rewrite ?Eh, ?Ew; try done.
    - simpl. destruct (am_held m) eqn:E; [done|]. destruct (ao_free _ _ _ Ho E i). by left.
    - intros j Hj. assert (j = i) as ->.
      { apply (ao_one _ _ _ Ho); [|by left]. destruct Hj as [Hj|Hj]; [left; set_solver|by right]. }
      destruct Hj as [Hj|[d Hd]]; [set_solver|]. destruct Hat as [->|[-> _]]; simplify_eq. }
  assert (am_granted m = am_granted m ∖ {[i]}) as Eg by set_solver.
  destruct (am_held m) eqn:Hh; simpl negb; cbn iota.
  2:{ intros [= <- <-]. simpl am_after. unfold am_take.
      destruct (is_head m i) eqn:Eh; apply (fiber_gets m _ _ _ p lost checked);
        rewrite ?Eh; try done; apply (ao_free _ _ _ Ho Hh). }
  intros E. exact (fiber_waits_ok m pool i p lost checked expired t m' Hinv Hp Hat Hh Hg E).
Qed.

(** The owner of a recursive mutex enters again or leaves one level. *)
Lemma depth_ok m pool i d e :
  am_inv self m pool -> pool !! i = Some (MHold d) -> am_recursive m = true -> 1 <= e ->
  am_inv self (set_owner m (am_owner m) e) (<[i := MHold e]> pool).
Proof.
  intros (Ho & Hf & Ht & Hw) Hp Hr He.
  assert (am_held m = true) as Hh.
  { destruct (am_held m) eqn:E; [done|]. destruct (ao_free _ _ _ Ho E i). right. eauto. }
  split_and!; [| |by apply (threads_move m _ _ _ (MHold d))|simpl; congruence].
  - destruct Ho as [H1 H2 H3 H4 H5 H6]. destruct (H5 Hr i d Hp) as [Eo _].
    assert (forall j n, <[i := MHold e]> pool !! j = Some (MHold n) -> j = i /\ n = e) as Hl.
    { intros j n. destruct (decide (j = i)) as [->|Hne]; [rewrite lookup_insert_eq; by intros [= <-]|].
      rewrite lookup_insert_ne by done. intros Hj. destruct Hne. apply H3; right; eauto. }
    assert (forall j, owns (set_owner m (am_owner m) e) (<[i := MHold e]> pool) j -> j = i) as Hj.
    { intros j [Hj|[n Hn%Hl]]; [|tauto]. apply H3; [by left|right; eauto]. }
    constructor; simpl; try congruence.
    + intros _. exists i. right. rewrite lookup_insert_eq. eauto.
    + intros j k ->%Hj ->%Hj. done.
    + intros j n [-> ->]%Hl. split; [lia|congruence].
    + intros _ j n [-> ->]%Hl. done.
    + intros _ j Hjo. rewrite Eo, self_distinct in Hjo. subst j. rewrite lookup_insert_eq. eauto.
  - apply (fibers_ext m); try done. by apply (fibers_move _ _ _ (MHold d)).
Qed.

Lemma reenters_spec m pool i p :
  am_inv self m pool -> pool !! i = Some p -> am_recursive m = true ->
  am_reenters m (self i) = holding p.
Proof.
  intros (Ho & Hf & Ht & Hw) Hp Hr. unfold am_reenters. rewrite Hr. simpl. destruct p as [| | | | | |d|] eqn:Ep; simpl.
  7:{ destruct (ao_count _ _ _ Ho Hr i d Hp) as [-> _]. rewrite (proj2 (self_distinct i i)) by done.
      rewrite andb_true_r. destruct (am_held m) eqn:E; [done|]. destruct (ao_free _ _ _ Ho E i). right. eauto. }
  all: apply andb_false_intro2, not_true_iff_false; intros [d Hd]%(ao_owner _ _ _ Ho Hr); by simplify_eq.
Qed.

(** The start of a lock, common to both forms: [k] runs when the mutex is
    held by another. *)
Lemma lock_start_ok m pool i p t m' (k : am_turn * xtc_amutex) :
  am_inv self m pool -> pool !! i = Some p -> p = MIdle \/ holding p = true /\ am_recursive m = true ->
  (if am_reenters m (self i) then (AReturn XTC_OK, set_owner m (am_owner m) (am_count m + 1))
   else if negb (am_held m) then (AReturn XTC_OK, am_take m (self i))
   else k) = (t, m') ->
  (k = (t, m') -> p = MIdle -> am_held m = true -> am_inv self m' (<[i := am_after t true MIdle 1]> pool)) ->
  am_inv self m' (<[i := match p with MHold d => am_after t true p (d + 1) | _ => am_after t true MIdle 1 end]> pool).
Proof.
  intros Hinv Hp Hpc E Hk. destruct Hpc as [->|[Hhp Hr]].
  - assert (am_reenters m (self i) = false) as Er.
    { destruct (am_recursive m) eqn:Hr; [by rewrite (reenters_spec _ _ _ _ Hinv Hp Hr)|].
      unfold am_reenters. by rewrite Hr. }
    rewrite Er in E. destruct (am_held m) eqn:Hh; simpl in E; [by apply Hk|].
    injection E as <- <-. destruct Hinv as (Ho & Hf & Ht & Hw).
    apply (taken_ok m _ _ _ MIdle); try done. by apply (ao_free _ _ _ Ho).
  - rewrite (reenters_spec _ _ _ _ Hinv Hp Hr), Hhp in E. injection E as <- <-.
    destruct p as [| | | | | |d|]; try done. simpl am_after.
    pose proof Hinv as (Ho & _). destruct (ao_count _ _ _ Ho Hr i d Hp) as [_ ->].
    apply (depth_ok _ _ _ d); try done. pose proof (ao_depth _ _ _ Ho i d Hp). lia.
Qed.

Lemma lock_ok m pool i p timeout_ns fiber kill expired cap pick t m' :
  am_inv self m pool -> pool !! i = Some p -> p = MIdle \/ holding p = true /\ am_recursive m = true ->
  xtc_amutex_lock (Some m) (self i) i timeout_ns fiber kill expired cap pick = (t, Some m') ->
  am_inv self m' (<[i := match p with MHold d => am_after t true p (d + 1) | _ => am_after t true MIdle 1 end]> pool).
Proof.
  intros Hinv Hp Hpc E.
  set (k := if decide (timeout_ns = 0) then (AReturn XTC_E_AGAIN, m)
            else if fiber then am_fiber_turn m (self i) i 0 kill expired pick
            else am_thread_loop m (self i) i false cap).
  apply (lock_start_ok m pool i p t m' k Hinv Hp Hpc).
  - unfold xtc_amutex_lock in E. unfold k. destruct (am_reenters _ _); [by simplify_eq|].
    destruct (negb _); [by simplify_eq|]. case_decide; [by simplify_eq|].
    destruct fiber; [destruct (am_fiber_turn _ _ _ _ _ _ _)|destruct (am_thread_loop _ _ _ _ _)]; by simplify_eq.
  - unfold k. intros Ek -> Hh.
    assert (am_inv self m (<[i := MSpun]> pool)) as Htest.
    { apply (to_test m m pool i MIdle); try done. destruct Hinv as (_ & _ & Ht & _).
      by apply (threads_move m _ _ _ MIdle). }
    case_decide; [|destruct fiber].
    + injection Ek as <- <-. simpl am_after. by rewrite insert_id.
    + apply (fiber_turn_ok m _ _ MIdle 0 true kill expired pick); try done. right. done.
    + pose proof (thread_loop_ok m _ i false cap t m' Htest ltac:(by rewrite lookup_insert_eq) Ek) as Hl.
      by rewrite insert_insert_eq in Hl.
Qed.

Lemma try_lock_ok m pool i p c m' :
  am_inv self m pool -> pool !! i = Some p -> p = MIdle \/ holding p = true /\ am_recursive m = true ->
  xtc_amutex_try_lock (Some m) (self i) = (c, Some m') ->
  am_inv self m' (<[i := match p with MHold d => am_after (AReturn c) true p (d + 1)
                         | _ => am_after (AReturn c) true MIdle 1 end]> pool).
Proof.
  intros Hinv Hp Hpc E.
  apply (lock_start_ok m pool i p (AReturn c) m' (AReturn XTC_E_AGAIN, m) Hinv Hp Hpc).
  - unfold xtc_amutex_try_lock in E. destruct (am_reenters _ _); [by simplify_eq|].
    destruct (negb _); by simplify_eq.
  - intros [= <- <-] -> _. simpl am_after. by rewrite insert_id.
Qed.

Lemma unlock_ok m pool i d pick m' :
  am_inv self m pool -> pool !! i = Some (MHold d) ->
  xtc_amutex_unlock (Some m) pick = (XTC_OK, Some m') ->
  am_inv self m' (<[i := if decide (1 < d) then MHold (d - 1) else MIdle]> pool).
Proof.
  intros Hinv Hp E. pose proof Hinv as (Ho & Hf & Ht & Hw).
  assert (am_held m = true) as Hh.
  { destruct (am_held m) eqn:Eh; [done|]. destruct (ao_free _ _ _ Ho Eh i). right. eauto. }
  destruct (ao_depth _ _ _ Ho i d Hp) as [Hd Hd1]. unfold xtc_amutex_unlock in E.
  assert (forall j, owns m pool j -> j = i) as Hu.
  { intros j Hj. apply (ao_one _ _ _ Ho); [done|right; eauto]. }
  destruct (am_recursive m && bool_decide (1 < am_count m)) eqn:Eb; injection E as <-.
  - apply andb_true_iff in Eb as [Hr Hc%bool_decide_eq_true].
    destruct (ao_count _ _ _ Ho Hr i d Hp) as [Eo Ec]. rewrite Ec in Hc. rewrite decide_True by done.
    rewrite Ec. apply (depth_ok _ _ _ d); [done|done|done|lia].
  - assert (d = 1) as ->.
    { destruct (am_recursive m) eqn:Hr; [|by apply Hd1]. destruct (ao_count _ _ _ Ho Hr i d Hp) as [_ Ec].
      simpl in Eb. apply bool_decide_eq_false in Eb. lia. }
    rewrite decide_False by lia. apply release_ok; [done| | |].
    + intros j Hj. assert (j = i) as ->.
      { destruct Hj as [Hj|[e He]]; [apply Hu; by left|]. destruct (decide (j = i)) as [->|Hne]; [done|].
        rewrite lookup_insert_ne in He by done. apply Hu. right. eauto. }
      destruct Hj as [Hj|[e He]]; [|by rewrite lookup_insert_eq in He].
      destruct (af_granted _ _ Hf i Hj) as (_ & l & c & E). by simplify_eq.
    + by apply (fibers_move _ _ _ (MHold 1)).
    + by apply (threads_move m _ _ _ (MHold 1)).
Qed.

(** A client at rest, holding nothing, moves to another such point. *)
Lemma rest_ok m pool i p p' :
  am_inv self m pool -> pool !! i = Some p -> loops p = false -> holding p = false ->
  w_sleep p = 0 -> w_spin p = 0 -> w_sleep p' = 0 -> w_spin p' = 0 ->
  (forall l, p' <> MLoop l true) -> (forall d, p' <> MHold d) -> am_held m = true \/ p <> MSpun ->
  am_inv self m (<[i := p']> pool).
Proof.
  intros (Ho & Hf & Ht & Hw) Hp Hl Hh S1 S2 S3 S4 Hl' Hh' Hsp. split_and!.
  - apply (own_move m); try done. by eapply not_owner.
  - apply (fibers_move _ _ _ p); try done. by intros l c ->.
  - by apply (threads_move m _ _ _ p).
  - intros Hfree. specialize (Hw Hfree). unfold on_the_way in *.
    destruct (am_wq m) as [|[j a] q]; [|done]. destruct Hw as [?|[?|(j & Hj)]]; [by left|by right; left|].
    right; right. exists j. rewrite lookup_insert_ne; [done|]. intros ->.
    destruct Hsp as [?|?]; [congruence|]. destruct Hj; simplify_eq.
Qed.

(** Done spinning. *)
Lemma spin_done_ok m pool i :
  am_inv self m pool -> pool !! i = Some MSpin -> am_inv self (am_spin_done m) (<[i := MSpun]> pool).
Proof.
  intros Hinv Hp. pose proof Hinv as (Ho & Hf & Ht & Hw). apply (to_test m _ _ _ MSpin); try done.
  apply (threads_step m _ _ _ MSpin); simpl; unfold sync_spin_leave; try done; try lia.
  intros [Hin|Hin]; destruct Ht as [H1 H2 _ _]; [apply H1 in Hin|apply H2 in Hin]; simplify_eq.
Qed.

(** Awake again. *)
Lemma woken_ok m pool i :
  am_inv self m pool -> pool !! i = Some MSleep ->
  am_inv self (set_threads m (am_cv_waiters m - 1) (am_spinners m) (am_wake_skips m) (cv_run (am_cv m) i))
    (<[i := MSpun]> pool).
Proof.
  intros Hinv Hp. pose proof Hinv as (Ho & Hf & Ht & Hw). apply (to_test m _ _ _ MSleep); try done.
  apply (threads_step m _ _ _ MSleep); simpl; try done; try lia; set_solver.
Qed.

Lemma am_inv_step m pool i p m' p' :
  am_inv self m pool -> pool !! i = Some p -> am_step self i m p m' p' ->
  am_inv self m' (<[i := p']> pool).
Proof.
  intros Hinv Hp Hst. pose proof Hinv as (Ho & Hf & Ht & Hw).
  destruct Hst as [tmo fiber kill expired cap pick t m' E|d tmo fiber kill expired cap pick t m' Hr E|c m' E
    |d c m' Hr E|d pick m' E|lost checked kill expired pick t m' Hk E|lost|lost| |t m' Hfree E|cap t m' E
    |expired cap t m' E].
  - exact (lock_ok _ _ _ MIdle _ _ _ _ _ _ _ _ Hinv Hp (or_introl eq_refl) E).
  - exact (lock_ok _ _ _ (MHold d) _ _ _ _ _ _ _ _ Hinv Hp (or_intror (conj eq_refl Hr)) E).
  - exact (try_lock_ok _ _ _ MIdle _ _ Hinv Hp (or_introl eq_refl) E).
  - exact (try_lock_ok _ _ _ (MHold d) _ _ Hinv Hp (or_intror (conj eq_refl Hr)) E).
  - by apply (unlock_ok m _ _ _ pick).
  - apply (fiber_turn_ok m _ _ (MLoop lost checked) lost checked kill expired pick); try done. by left.
  - apply (rest_ok _ _ _ (MKill lost)); try done. by right.
  - apply (rest_ok _ _ _ (MKill lost)); try done. by right.
  - by apply spin_done_ok.
  - pose proof (spin_done_ok _ _ _ Hinv Hp) as Htest.
    pose proof (thread_loop_ok _ _ i _ _ t m' Htest ltac:(by rewrite lookup_insert_eq) E) as Hl.
    by rewrite insert_insert_eq in Hl.
  - by apply (thread_loop_ok m _ _ true cap).
  - pose proof (woken_ok _ _ _ Hinv Hp) as Htest. unfold am_thread_woken in E.
    set (m1 := set_threads _ _ _ _ _) in *. destruct (expired && am_held m1) eqn:Eb.
    + injection E as <- <-. apply andb_true_iff in Eb as [_ Hh]. simpl am_after.
      assert (am_inv self m1 (<[i := MIdle]> (<[i := MSpun]> pool))) as Hr.
      { apply (rest_ok _ _ _ MSpun); try done; [by rewrite lookup_insert_eq|by left]. }
      by rewrite insert_insert_eq in Hr.
    + pose proof (thread_loop_ok m1 _ i false cap t m' Htest ltac:(by rewrite lookup_insert_eq) E) as Hl.
      by rewrite insert_insert_eq in Hl.
Qed.

Definition am_start (recursive : bool) (k : nat) : config := (am_new recursive, idle_pool MIdle k).

Lemma am_run_inv recursive k m pool :
  reachable (am_step self) (am_start recursive k) (m, pool) -> am_inv self m pool.
Proof.
  intros Hr. apply (pool_invariant (am_step self) (am_inv self) _ _) in Hr; [done| |].
  { intros m1 pool1 i p m2 p2. apply am_inv_step. }
  pose proof (idle_pool_Forall MIdle k (fun _ p => p = MIdle) ltac:(done)) as Hidle.
  assert (forall i d, idle_pool MIdle k !! i <> Some (MHold d)) as Hno.
  { intros i d Hi. by specialize (Hidle _ _ Hi). }
  split_and!.
  - constructor; simpl; try done.
    + intros _ i [Hi|[d Hd]]; [set_solver|]. by destruct (Hno i d).
    + intros i j [Hi|[d Hd]]; [set_solver|]. by destruct (Hno i d).
    + intros i d Hi. by destruct (Hno i d).
    + intros _ i d Hi. by destruct (Hno i d).
  - constructor; simpl; try done.
    + apply NoDup_nil_2.
    + intros i a Hin. by apply elem_of_nil in Hin.
    + intros i l Hi. by specialize (Hidle _ _ Hi).
    + intros i l Hi. by specialize (Hidle _ _ Hi).
  - constructor; simpl; try done; symmetry; apply pool_sum_zero; intros i p Hi;
      by rewrite (Hidle _ _ Hi).
  - intros _. by left.
Qed.
End Steps.

(** ** What clients rely on *)

(** C32: mutual exclusion.  For any number of fibers and threads, locking with
    or without timeouts, nested if the mutex is recursive, spinning, killed
    while queued or while granted, in any interleaving: at most one client
    has the mutex (holds it, or was handed it and has yet to run), it is
    held exactly when one has, and a recursive mutex records its holder and
    the number of its holds. *)
Theorem amutex_exclusion self recursive k m pool :
  (forall i j, amutex_owner_eq (self i) (self j) = true <-> i = j) ->
  reachable (am_step self) (am_start recursive k) (m, pool) ->
  (forall i j, owns m pool i -> owns m pool j -> i = j) /\
  (am_held m = true <-> exists i, owns m pool i) /\
  (am_recursive m = true -> forall i d, pool !! i = Some (MHold d) ->
     am_owner m = self i /\ am_count m = d).
Proof.
  intros Hs Hr. destruct (am_run_inv self Hs _ _ _ _ Hr) as [Ho _].
  split_and!; [apply Ho| |apply Ho]. split; [apply Ho|]. intros [i Hi].
  destruct (am_held m) eqn:E; [done|]. by destruct (ao_free _ _ _ Ho E i).
Qed.

(** No wake-up is lost.  In every reachable state in which the mutex is
    free, a waiting fiber implies that the oldest has its wake pending and
    is in its loop, and sleeping threads without a waiting fiber imply that
    a signalled thread, or one that has yet to test the mutex after
    spinning, is on its way to it. *)
Theorem amutex_no_stranded self recursive k m pool :
  (forall i j, amutex_owner_eq (self i) (self j) = true <-> i = j) ->
  reachable (am_step self) (am_start recursive k) (m, pool) ->
  am_held m = false ->
  match am_wq m with
  | (i, _) :: _ => i ∈ am_woken m /\ exists l c, pool !! i = Some (MLoop l c)
  | [] => cv_asleep (am_cv m) <> ∅ ->
      exists j, (j ∈ cv_signalled (am_cv m) /\ pool !! j = Some MSleep) \/
        pool !! j = Some MSpin \/ pool !! j = Some MSpun
  end.
Proof.
  intros Hs Hr Hfree. destruct (am_run_inv self Hs _ _ _ _ Hr) as (Ho & Hf & Ht & Hw).
  specialize (Hw Hfree). unfold on_the_way in Hw. destruct (am_wq m) as [|[i a] q] eqn:Eq.
  - intros Hne. destruct Hw as [?|[[j Hj]%set_choose_L|(j & Hj)]]; [done| |by exists j; right].
    exists j. left. split; [done|]. by apply (at_signalled _ _ Ht).
  - split; [done|]. by destruct (af_queue _ _ Hf i a ltac:(rewrite Eq; left)).
Qed.

(** A parked fiber is not starved by running ones.  In every reachable
    state, if the oldest waiter has found the mutex re-taken
    AM_HANDOFF_LOSSES times, then the next release hands the mutex to it:
    the mutex stays held, the waiter leaves the queue with the grant and its
    wake pending, and nobody else can take it first. *)
Theorem amutex_handoff self recursive k m pool i q lost pick :
  (forall i j, amutex_owner_eq (self i) (self j) = true <-> i = j) ->
  reachable (am_step self) (am_start recursive k) (m, pool) ->
  am_wq m = (i, tt) :: q -> pool !! i = Some (MLoop lost true) -> AM_HANDOFF_LOSSES <= lost ->
  let m' := amutex_release_locked m pick in
  am_held m' = am_held m /\ am_wq m' = q /\ i ∈ am_granted m' /\ i ∈ am_woken m' /\
  am_handoff m' = false.
Proof.
  intros Hs Hr Eq Hp Hl. destruct (am_run_inv self Hs _ _ _ _ Hr) as (Ho & Hf & Ht & Hw).
  destruct (af_lost _ _ Hf i lost Hp ltac:(rewrite Eq; left)) as [->|[_ Hh]]; [by destruct Hl|].
  specialize (Hh Hl). pose proof (af_nodup _ _ Hf) as Hnd. rewrite Eq in Hnd.
  unfold amutex_release_locked.
  destruct (am_recursive m); simpl; rewrite Eq, Hh; simpl; rewrite fw_remove_head by done;
    split_and!; set_solver.
Qed.

(** Threads with their own identities. *)
Definition demo_self (i : nat) : amutex_owner := OThread (Z.of_nat i).

Lemma demo_self_distinct i j : amutex_owner_eq (demo_self i) (demo_self j) = true <-> i = j.
Proof. unfold demo_self. simpl. rewrite Z.eqb_eq. lia. Qed.

(** Client 0 locks twice, fiber 1 queues, thread 2 sleeps. *)
Definition demo_held : xtc_amutex :=
  mk_am true true 1 [(1%nat, tt)] 0 2 0 false (demo_self 0) (mk_cv {[2%nat]} ∅) ∅ ∅.

Definition demo_pool : gmap nat am_pc :=
  <[0%nat := MHold 2]> (<[1%nat := MLoop 0 true]> (<[2%nat := MSleep]> (idle_pool MIdle 3))).

Lemma demo_held_run : reachable (am_step demo_self) (am_start true 3) (demo_held, demo_pool).
Proof.
  unfold reachable, am_start. pool_norm.
  pool_run 0%nat by (apply (ms_lock _ _ _ (-1) false false false 0 0 (AReturn XTC_OK)); reflexivity).
  pool_run 0%nat by (apply (ms_relock _ _ _ 1 (-1) false false false 0 0 (AReturn XTC_OK)); reflexivity).
  pool_run 1%nat by (apply (ms_lock _ _ _ (-1) true false false 0 0 (APark 0)); reflexivity).
  pool_run 2%nat by (apply (ms_lock _ _ _ (-1) false false false 0 0 ASleep); reflexivity).
  apply rtc_refl.
Qed.

Lemma amutex_exclusion_witness :
  am_owner demo_held = demo_self 0 /\ am_count demo_held = 2.
Proof.
  exact (proj2 (proj2 (amutex_exclusion demo_self true 3 demo_held demo_pool demo_self_distinct
    demo_held_run)) eq_refl 0%nat 2 eq_refl).
Defined.

(** Client 0 unlocks twice: the mutex is free and fiber 1 is woken. *)
Definition demo_free : xtc_amutex :=
  mk_am false true 1 [(1%nat, tt)] 0 0 0 false ONone (mk_cv {[2%nat]} ∅) ∅ {[1%nat]}.

Lemma demo_free_run :
  reachable (am_step demo_self) (am_start true 3) (demo_free, <[0%nat := MIdle]> demo_pool).
Proof.
  etransitivity; [apply demo_held_run|]. unfold reachable. pool_norm.
  pool_run 0%nat by (apply (ms_unlock _ _ _ 2 0); reflexivity).
  pool_run 0%nat by (apply (ms_unlock _ _ _ 1 0); reflexivity).
  apply rtc_refl.
Qed.

Lemma amutex_no_stranded_witness :
  am_held demo_free = false /\ 1%nat ∈ am_woken demo_free.
Proof.
  split; [reflexivity|].
  exact (proj1 (amutex_no_stranded demo_self true 3 demo_free (<[0%nat := MIdle]> demo_pool)
    demo_self_distinct demo_free_run eq_refl)).
Defined.

(** Fiber 1 finds the mutex held four times. *)
Definition demo_starved : xtc_amutex :=
  mk_am true true 1 [(1%nat, tt)] 0 2 0 true (demo_self 0) (mk_cv {[2%nat]} ∅) ∅ ∅.

Lemma demo_starved_run :
  reachable (am_step demo_self) (am_start true 3) (demo_starved, <[1%nat := MLoop 4 true]> demo_pool).
Proof.
  etransitivity; [apply demo_held_run|]. unfold reachable. pool_norm.
  pool_run 1%nat by (apply (ms_fiber _ _ _ 0 true false false 0 (APark 1)); [done|reflexivity]).
  pool_run 1%nat by (apply (ms_fiber _ _ _ 1 true false false 0 (APark 2)); [done|reflexivity]).
  pool_run 1%nat by (apply (ms_fiber _ _ _ 2 true false false 0 (APark 3)); [done|reflexivity]).
  pool_run 1%nat by (apply (ms_fiber _ _ _ 3 true false false 0 (APark 4)); [done|reflexivity]).
  apply rtc_refl.
Qed.

Lemma amutex_handoff_witness :
  am_held (amutex_release_locked demo_starved 0) = true /\
  1%nat ∈ am_granted (amutex_release_locked demo_starved 0).
Proof.
  destruct (amutex_handoff demo_self true 3 demo_starved (<[1%nat := MLoop 4 true]> demo_pool) 1 [] 4 0
    demo_self_distinct demo_starved_run eq_refl eq_refl ltac:(by vm_compute)) as (H1 & _ & H2 & _).
  exact (conj H1 H2).
Defined.
