(* ===== verification/Arwlock.v ===== *)
(** * The parking reader/writer latch (xtc_arwlock of src/ptc/sync.c)

    Fibers queue in FIFO order and are handed the latch by the release that
    makes room for them (a run of readers together, or one writer); threads
    yield to queued fibers, spin, and sleep on one condition variable per
    mode.  As in Sync.v an operation is a sequence of critical sections, run
    by the clients of a pool in any order.  The theorems: readers and a writer
    never overlap; the head of the queue always has to wait for a holder; a
    free latch with sleeping threads has one on its way. *)

From S2P Require Import Prelude Sync.

Local Open Scope Z_scope.

(** ** State *)

(** A mode is exclusive (ARW_EXCL) or not (ARW_SHARED).  [rw_granted]: the
    [granted] field of waiters that have not run since. *)
Record xtc_arwlock := mk_arw {
  rw_readers : Z;
  rw_writer : bool;
  rw_rd_waiters : Z;
  rw_wr_waiters : Z;
  rw_wq : fw_queue bool;
  rw_last_excl : bool;
  rw_spinners : Z;
  rw_cv : condvar;
  rw_wcv : condvar;
  rw_granted : gset nat;
  rw_woken : gset nat;
}.

Definition arw_new : xtc_arwlock := mk_arw 0 false 0 0 [] false 0 cv_empty cv_empty ∅ ∅.

(** [alloc]: the allocation's outcome. *)
Definition xtc_arwlock_create (out : bool) (alloc : rc) : rc * option xtc_arwlock :=
  if out then
    match alloc with XTC_OK => (XTC_OK, Some arw_new) | e => (e, None) end
  else (XTC_E_INVAL, None).

(** The holds. *)
Definition set_holds (r : xtc_arwlock) (readers : Z) (writer : bool) : xtc_arwlock :=
  mk_arw readers writer (rw_rd_waiters r) (rw_wr_waiters r) (rw_wq r) (rw_last_excl r) (rw_spinners r)
    (rw_cv r) (rw_wcv r) (rw_granted r) (rw_woken r).

(** The queue, the grants and the pending wakes. *)
Definition set_fibers (r : xtc_arwlock) (q : fw_queue bool) (granted woken : gset nat) : xtc_arwlock :=
  mk_arw (rw_readers r) (rw_writer r) (rw_rd_waiters r) (rw_wr_waiters r) q (rw_last_excl r)
    (rw_spinners r) (rw_cv r) (rw_wcv r) granted woken.

Definition set_last (r : xtc_arwlock) (b : bool) : xtc_arwlock :=
  mk_arw (rw_readers r) (rw_writer r) (rw_rd_waiters r) (rw_wr_waiters r) (rw_wq r) b (rw_spinners r)
    (rw_cv r) (rw_wcv r) (rw_granted r) (rw_woken r).

Definition set_spinners (r : xtc_arwlock) (n : Z) : xtc_arwlock :=
  mk_arw (rw_readers r) (rw_writer r) (rw_rd_waiters r) (rw_wr_waiters r) (rw_wq r) (rw_last_excl r) n
    (rw_cv r) (rw_wcv r) (rw_granted r) (rw_woken r).

(** The condition variable of a mode and the count of its waiters. *)
Definition mode_cv (r : xtc_arwlock) (ex : bool) : condvar := if ex then rw_wcv r else rw_cv r.
Definition mode_waiters (r : xtc_arwlock) (ex : bool) : Z := if ex then rw_wr_waiters r else rw_rd_waiters r.

Definition set_mode (r : xtc_arwlock) (ex : bool) (n : Z) (c : condvar) : xtc_arwlock :=
  if ex then
    mk_arw (rw_readers r) (rw_writer r) (rw_rd_waiters r) n (rw_wq r) (rw_last_excl r) (rw_spinners r)
      (rw_cv r) c (rw_granted r) (rw_woken r)
  else
    mk_arw (rw_readers r) (rw_writer r) n (rw_wr_waiters r) (rw_wq r) (rw_last_excl r) (rw_spinners r)
      c (rw_wcv r) (rw_granted r) (rw_woken r).

(** ** Operations *)

Definition __arw_take (r : xtc_arwlock) (ex : bool) : xtc_arwlock :=
  if ex then set_holds r (rw_readers r) true else set_holds r (rw_readers r + 1) (rw_writer r).

Definition __arw_compatible (r : xtc_arwlock) (ex : bool) : bool :=
  if ex then negb (rw_writer r) && bool_decide (rw_readers r = 0) else negb (rw_writer r).

(** [pick]: the writer the condition variable wakes. *)
Definition __arw_wake_threads_locked (r : xtc_arwlock) (pick : nat) : xtc_arwlock :=
  let broadcast := set_mode r false (rw_rd_waiters r) (cv_broadcast (rw_cv r)) in
  if bool_decide (Z.lor (rw_rd_waiters r) (rw_wr_waiters r) = 0) ||
     negb (bool_decide (rw_wq r = [])) || rw_writer r then r
  else if decide (0 < rw_readers r) then
    if decide (rw_wr_waiters r = 0 /\ 0 < rw_rd_waiters r) then broadcast else r
  else
    if bool_decide (0 < rw_wr_waiters r) &&
       (bool_decide (rw_rd_waiters r = 0) || negb (rw_last_excl r))
    then set_mode r true (rw_wr_waiters r) (cv_signal (rw_wcv r) pick)
    else if decide (0 < rw_rd_waiters r) then broadcast else r.

(** The loop of [__arw_grant_locked] on the rest [q] of the queue. *)
Fixpoint arw_grant_loop (r : xtc_arwlock) (q : fw_queue bool) : xtc_arwlock :=
  match q with
  | [] => set_fibers r [] (rw_granted r) (rw_woken r)
  | (i, ex) :: q' =>
      if __arw_compatible r ex then
        let r := __arw_take (set_fibers r q' ({[i]} ∪ rw_granted r) ({[i]} ∪ rw_woken r)) ex in
        if ex then r else arw_grant_loop r q'
      else set_fibers r ((i, ex) :: q') (rw_granted r) (rw_woken r)
  end.

Definition __arw_grant_locked (r : xtc_arwlock) (pick : nat) : xtc_arwlock :=
  __arw_wake_threads_locked (arw_grant_loop r (rw_wq r)) pick.

Definition __arw_release_locked (r : xtc_arwlock) : xtc_arwlock :=
  let r := if decide (Z.lor (rw_rd_waiters r) (rw_wr_waiters r) <> 0)
           then set_last r (rw_writer r) else r in
  if rw_writer r then set_holds r (rw_readers r) false
  else if decide (0 < rw_readers r) then set_holds r (rw_readers r - 1) (rw_writer r) else r.

(** How a critical section of a lock ends. *)
Inductive rw_turn : Type := RReturn (c : rc) | RPark | RKill | RSpin | RSleep.

Definition ARW_THREAD_OK (r : xtc_arwlock) (ex : bool) : bool :=
  bool_decide (rw_wq r = []) && __arw_compatible r ex.

(** The thread's loop with the inner mutex held, until it gives it up. *)
Definition arw_thread_loop (r : xtc_arwlock) (i : nat) (ex spun : bool) (cap : Z) (pick : nat)
  : rw_turn * xtc_arwlock :=
  if ARW_THREAD_OK r ex then
    let r := __arw_take r ex in
    (RReturn XTC_OK, if ex then r else __arw_wake_threads_locked r pick)
  else
    let '(admitted, n) :=
      if negb spun && bool_decide (rw_wq r = []) then sync_spin_enter cap (rw_spinners r)
      else (false, rw_spinners r) in
    let r := set_spinners r n in
    if admitted then (RSpin, r)
    else (RSleep, set_mode r ex (mode_waiters r ex + 1) (cv_sleep (mode_cv r ex) i)).

(** Back from a sleep. *)
Definition arw_thread_woken (r : xtc_arwlock) (i : nat) (ex expired : bool) (cap : Z) (pick : nat)
  : rw_turn * xtc_arwlock :=
  let r := set_mode r ex (mode_waiters r ex - 1) (cv_run (mode_cv r ex) i) in
  if expired && negb (ARW_THREAD_OK r ex) then (RReturn XTC_E_AGAIN, r)
  else arw_thread_loop r i ex false cap pick.

Definition arw_spin_done (r : xtc_arwlock) : xtc_arwlock :=
  set_spinners r (sync_spin_leave (rw_spinners r)).

(** The spinner found room with the inner mutex in hand. *)
Definition arw_spin_got (r : xtc_arwlock) (i : nat) (ex : bool) (pick : nat) : rw_turn * xtc_arwlock :=
  arw_thread_loop (arw_spin_done r) i ex true 0 pick.

(** Fiber [i] is no longer linked, granted or woken. *)
Definition forget (r : xtc_arwlock) (i : nat) : xtc_arwlock :=
  set_fibers r (fw_remove (rw_wq r) i) (rw_granted r ∖ {[i]}) (rw_woken r ∖ {[i]}).

(** One turn of fiber [i]'s loop. *)
Definition arw_fiber_turn (r : xtc_arwlock) (i : nat) (ex kill expired : bool) (pick : nat)
  : rw_turn * xtc_arwlock :=
  let r := set_fibers r (rw_wq r) (rw_granted r) (rw_woken r ∖ {[i]}) in
  let granted := bool_decide (i ∈ rw_granted r) in
  if kill then
    let r := forget r i in
    (RKill, __arw_grant_locked (if granted then __arw_release_locked r else r) pick)
  else if granted then (RReturn XTC_OK, forget r i)
  else if negb (fw_queued (rw_wq r) i) && ARW_THREAD_OK r ex then (RReturn XTC_OK, __arw_take r ex)
  else
    let r := set_fibers r (fw_enqueue (rw_wq r) i ex) (rw_granted r) (rw_woken r) in
    if expired then (RReturn XTC_E_AGAIN, __arw_grant_locked (forget r i) pick)
    else (RPark, r).

(** [__arwlock_lock] up to the first time it gives the inner mutex up. *)
Definition __arwlock_lock (r : option xtc_arwlock) (i : nat) (ex : bool) (timeout_ns : Z)
    (fiber kill expired : bool) (cap : Z) (pick : nat) : rw_turn * option xtc_arwlock :=
  match r with
  | None => (RReturn XTC_E_INVAL, None)
  | Some r =>
      if ARW_THREAD_OK r ex then (RReturn XTC_OK, Some (__arw_take r ex))
      else if decide (timeout_ns = 0) then (RReturn XTC_E_AGAIN, Some r)
      else if fiber then let '(t, r') := arw_fiber_turn r i ex kill expired pick in (t, Some r')
      else let '(t, r') := arw_thread_loop r i ex false cap pick in (t, Some r')
  end.

Definition xtc_arwlock_rdlock r i := __arwlock_lock r i false.
Definition xtc_arwlock_wrlock r i := __arwlock_lock r i true.

Definition xtc_arwlock_unlock (r : option xtc_arwlock) (pick : nat) : rc * option xtc_arwlock :=
  match r with
  | None => (XTC_E_INVAL, None)
  | Some r => (XTC_OK, Some (__arw_grant_locked (__arw_release_locked r) pick))
  end.

(** ** Clients *)

(** As for the mutex; the mode is kept while the client waits and holds. *)
Inductive rw_pc : Type :=
  | WIdle
  | WLoop (ex checked : bool)
  | WKill (ex : bool)
  | WSpin (ex : bool)
  | WSpun (ex : bool)
  | WSleep (ex : bool)
  | WHold (ex : bool)
  | WDead.

Definition rw_after (t : rw_turn) (ex checked : bool) : rw_pc :=
  match t with
  | RReturn XTC_OK => WHold ex
  | RReturn _ => WIdle
  | RPark => WLoop ex checked
  | RKill => WKill ex
  | RSpin => WSpin ex
  | RSleep => WSleep ex
  end.

Inductive rw_step (i : nat) (r : xtc_arwlock) : rw_pc -> xtc_arwlock -> rw_pc -> Prop :=
  | rs_rdlock timeout_ns fiber kill expired cap pick t r' :
      xtc_arwlock_rdlock (Some r) i timeout_ns fiber kill expired cap pick = (t, Some r') ->
      rw_step i r WIdle r' (rw_after t false true)
  | rs_wrlock timeout_ns fiber kill expired cap pick t r' :
      xtc_arwlock_wrlock (Some r) i timeout_ns fiber kill expired cap pick = (t, Some r') ->
      rw_step i r WIdle r' (rw_after t true true)
  | rs_unlock ex pick r' :
      xtc_arwlock_unlock (Some r) pick = (XTC_OK, Some r') ->
      rw_step i r (WHold ex) r' WIdle
  | rs_fiber ex checked kill expired pick t r' :
      (kill = true -> checked = true) ->
      arw_fiber_turn r i ex kill expired pick = (t, r') ->
      rw_step i r (WLoop ex checked) r' (rw_after t ex checked)
  | rs_dead ex : rw_step i r (WKill ex) r WDead
  | rs_deferred ex : rw_step i r (WKill ex) r (WLoop ex false)
  | rs_spin_done ex : rw_step i r (WSpin ex) (arw_spin_done r) (WSpun ex)
  | rs_spin_got ex pick t r' :
      ARW_THREAD_OK r ex = true ->
      arw_spin_got r i ex pick = (t, r') ->
      rw_step i r (WSpin ex) r' (rw_after t ex true)
  | rs_spun ex cap pick t r' :
      arw_thread_loop r i ex true cap pick = (t, r') ->
      rw_step i r (WSpun ex) r' (rw_after t ex true)
  | rs_woken ex expired cap pick t r' :
      arw_thread_woken r i ex expired cap pick = (t, r') ->
      rw_step i r (WSleep ex) r' (rw_after t ex true).

(** ** Holds *)

(** [O i ex]: client [i] has the latch in mode [ex].  The counters agree with
    the sets of owners, and a writer excludes readers. *)
Definition holds_ok (readers : Z) (writer : bool) (O : nat -> bool -> Prop) : Prop :=
  exists H : bool -> gset nat,
    (forall i ex, i ∈ H ex <-> O i ex) /\
    readers = Z.of_nat (size (H false)) /\ Z.b2z writer = Z.of_nat (size (H true)) /\
    (writer = true -> readers = 0).

Lemma holds_ok_ext readers writer O O' :
  (forall i ex, O' i ex <-> O i ex) -> holds_ok readers writer O -> holds_ok readers writer O'.
Proof.
  intros E (H & H1 & H2). exists H. split; [|done]. intros i ex. by rewrite E.
Qed.

Lemma holds_ok_take r (O O' : nat -> bool -> Prop) i ex :
  holds_ok (rw_readers r) (rw_writer r) O -> __arw_compatible r ex = true -> ~ O i ex ->
  (forall j x, O' j x <-> O j x \/ (j = i /\ x = ex)) ->
  holds_ok (rw_readers (__arw_take r ex)) (rw_writer (__arw_take r ex)) O'.
Proof.
  intros (H & Ho & Er & Ew & Hx) Hc Hn HO. unfold __arw_compatible in Hc.
  exists (fun x => if decide (x = ex) then {[i]} ∪ H ex else H x).
  assert (i ∉ H ex) as Hi by (by rewrite Ho).
  assert (size ({[i]} ∪ H ex) = S (size (H ex))) as Hs
    by (rewrite size_union by set_solver; rewrite size_singleton; lia).
  split.
  - intros j x. rewrite HO. destruct (decide (x = ex)) as [->|D]; [|rewrite Ho; naive_solver].
    rewrite elem_of_union, elem_of_singleton, Ho. naive_solver.
  - destruct ex; simpl.
    + apply andb_true_iff in Hc as [Hw%negb_true_iff Hr%bool_decide_eq_true].
      rewrite Hs, Hr. rewrite Hw in Ew. simpl in *. lia.
    + apply negb_true_iff in Hc. rewrite Hs, Hc.
      rewrite Hc in Ew. split_and!; [lia|done|done].
Qed.

Lemma holds_ok_release r (O O' : nat -> bool -> Prop) i ex :
  holds_ok (rw_readers r) (rw_writer r) O -> O i ex ->
  (forall j x, O' j x <-> O j x /\ ~ (j = i /\ x = ex)) ->
  holds_ok (rw_readers (__arw_release_locked r)) (rw_writer (__arw_release_locked r)) O'.
Proof.
  intros (H & Ho & Er & Ew & Hx) Hi HO.
  exists (fun x => if decide (x = ex) then H ex ∖ {[i]} else H x).
  assert (i ∈ H ex) as Hin by (by rewrite Ho).
  assert (size (H ex ∖ {[i]}) + 1 = size (H ex))%nat as Hs.
  { rewrite size_difference by set_solver. rewrite size_singleton.
    assert (size (H ex) <> 0%nat) by (apply size_non_empty_iff; set_solver). lia. }
  split.
  - intros j x. rewrite HO. destruct (decide (x = ex)) as [->|D]; [|rewrite Ho; naive_solver].
    rewrite elem_of_difference, elem_of_singleton, Ho. naive_solver.
  - unfold __arw_release_locked. set (r1 := if decide _ then set_last r _ else r).
    assert (rw_readers r1 = rw_readers r /\ rw_writer r1 = rw_writer r) as [-> ->]
      by (unfold r1; by case_decide).
    destruct ex; simpl in *.
    + destruct (rw_writer r); simpl in *; [|lia]. specialize (Hx eq_refl).
      split_and!; [lia|lia|done].
    + destruct (rw_writer r); [specialize (Hx eq_refl); lia|].
      rewrite decide_True by lia. simpl in *. split_and!; [lia|lia|done].
Qed.

Lemma holds_ok_exclusive readers writer O i j ex :
  holds_ok readers writer O -> O i true -> O j ex -> j = i /\ ex = true.
Proof.
  intros (H & Ho & Er & Ew & Hx) Hi Hj. rewrite <-Ho in Hi, Hj.
  assert (writer = true) as ->.
  { destruct writer; [done|]. simpl in Ew. assert (size (H true) <> 0%nat); [|lia].
    apply size_non_empty_iff. set_solver. }
  destruct ex.
  - split; [|done]. symmetry. apply (size_singleton_inv (H true)); [simpl in Ew; lia|done|done].
  - specialize (Hx eq_refl). assert (size (H false) <> 0%nat); [|lia]. apply size_non_empty_iff. set_solver.
Qed.

Lemma holds_ok_nonneg readers writer O : holds_ok readers writer O -> 0 <= readers.
Proof. intros (H & _ & -> & _). lia. Qed.

(** ** The invariant *)

Definition rw_owns (r : xtc_arwlock) (pool : gmap nat rw_pc) (i : nat) (ex : bool) : Prop :=
  (i ∈ rw_granted r /\ exists c, pool !! i = Some (WLoop ex c)) \/ pool !! i = Some (WHold ex).

Record rw_base (r : xtc_arwlock) (pool : gmap nat rw_pc) : Prop := mk_rw_base {
  rb_holds : holds_ok (rw_readers r) (rw_writer r) (rw_owns r pool);
  rb_nodup : NoDup (rw_wq r).*1;
  rb_queue : forall i ex, (i, ex) ∈ rw_wq r -> (i ∉ rw_granted r) /\ (exists c, pool !! i = Some (WLoop ex c));
  rb_granted : forall i, i ∈ rw_granted r -> i ∈ rw_woken r /\ (exists ex c, pool !! i = Some (WLoop ex c));
}.

(** The head of the queue waits for a holder. *)
Definition head_waits (r : xtc_arwlock) : Prop :=
  match rw_wq r with (_, ex) :: _ => __arw_compatible r ex = false | [] => True end.

Definition w_asleep (ex : bool) (p : rw_pc) : Z :=
  match p with WSleep x => if decide (x = ex) then 1 else 0 | _ => 0 end.

Record rw_threads (r : xtc_arwlock) (pool : gmap nat rw_pc) : Prop := mk_rw_threads {
  rt_sleep : forall ex i, i ∈ cv_asleep (mode_cv r ex) ∪ cv_signalled (mode_cv r ex) <->
    pool !! i = Some (WSleep ex);
  rt_waiters : forall ex, mode_waiters r ex = pool_sum (w_asleep ex) pool;
}.

Definition free (r : xtc_arwlock) : Prop := rw_writer r = false /\ rw_readers r = 0 /\ rw_wq r = [].

(** A free latch with sleepers has a thread on its way. *)
Definition rw_way (r : xtc_arwlock) (pool : gmap nat rw_pc) : Prop :=
  free r ->
  (forall ex, cv_asleep (mode_cv r ex) = ∅) \/ (exists ex, cv_signalled (mode_cv r ex) <> ∅) \/
  (exists i ex, pool !! i = Some (WSpun ex)).

Definition rw_inv (r : xtc_arwlock) (pool : gmap nat rw_pc) : Prop :=
  rw_base r pool /\ head_waits r /\ rw_threads r pool /\ rw_way r pool.

(** ** Preservation, piece by piece *)

Lemma rw_owns_one r pool i ex ex' : rw_owns r pool i ex -> rw_owns r pool i ex' -> ex' = ex.
Proof. intros [[_ [c E]]|E] [[_ [c' E']]|E']; simplify_eq; done. Qed.

(** Neither queued nor granted. *)
Definition away (r : xtc_arwlock) (i : nat) : Prop := (i ∉ rw_granted r) /\ fw_queued (rw_wq r) i = false.

Definition in_loop (p : rw_pc) : bool := match p with WLoop _ _ => true | _ => false end.

Lemma outside_away r pool i p : rw_base r pool -> pool !! i = Some p -> in_loop p = false -> away r i.
Proof.
  intros Hb Hp Hl. split.
  - intros Hg. destruct (rb_granted _ _ Hb i Hg) as (_ & ex & c & E). by simplify_eq.
  - apply not_true_iff_false. intros [ex Hq]%fw_queued_spec.
    destruct (rb_queue _ _ Hb i ex Hq) as (_ & c & E). by simplify_eq.
Qed.

(** Client [i], away from queue and grants, moves; its holds go from
    [O i] to those of [p']. *)
Lemma base_move r r' pool i p' :
  rw_base r pool -> away r i ->
  rw_wq r' = rw_wq r -> rw_granted r' = rw_granted r -> rw_woken r' = rw_woken r ->
  holds_ok (rw_readers r') (rw_writer r')
    (fun j x => (rw_owns r pool j x /\ j <> i) \/ (j = i /\ p' = WHold x)) ->
  rw_base r' (<[i := p']> pool).
Proof.
  intros [H1 H2 H3 H4] [Hg Hq] E1 E2 E3 Hh.
  assert (forall j ex, (j, ex) ∈ rw_wq r -> j <> i) as Hne.
  { intros j ex Hin ->. by rewrite (proj2 (fw_queued_spec _ _)) in Hq by eauto. }
  constructor; rewrite ?E1, ?E2, ?E3; try done.
  - eapply holds_ok_ext; [|exact Hh]. intros j x. unfold rw_owns. rewrite E2.
    destruct (decide (j = i)) as [->|Hj]; [rewrite lookup_insert_eq|rewrite lookup_insert_ne by done]; naive_solver.
  - intros j ex Hin. rewrite lookup_insert_ne by (symmetry; eauto). eauto.
  - intros j Hj. rewrite lookup_insert_ne by (intros ->; done). eauto.
Qed.

(** A fiber that takes part no more: [i]'s link, grant and wake are dropped. *)
Lemma base_forget r r' pool i p' :
  rw_base r pool -> rw_wq r' = fw_remove (rw_wq r) i -> rw_granted r' = rw_granted r ∖ {[i]} ->
  rw_woken r' = rw_woken r ∖ {[i]} ->
  holds_ok (rw_readers r') (rw_writer r')
    (fun j x => (rw_owns r pool j x /\ j <> i) \/ (j = i /\ p' = WHold x)) ->
  rw_base r' (<[i := p']> pool).
Proof.
  intros [H1 H2 H3 H4] E1 E2 E3 Hh. constructor; rewrite ?E1, ?E2, ?E3.
  - eapply holds_ok_ext; [|exact Hh]. intros j x. unfold rw_owns. rewrite E2.
    destruct (decide (j = i)) as [->|Hj]; [rewrite lookup_insert_eq|rewrite lookup_insert_ne by done]; set_solver.
  - by apply fw_remove_NoDup.
  - intros j ex [Hin Hne]%fw_remove_elem. rewrite lookup_insert_ne by done.
    destruct (H3 j ex Hin). split; [set_solver|done].
  - intros j [Hj Hne%not_elem_of_singleton]%elem_of_difference. rewrite lookup_insert_ne by done.
    destruct (H4 j Hj). split; [set_solver|done].
Qed.

(** [i] had nothing and gets nothing. *)
Lemma holds_none r pool i p' readers writer :
  holds_ok readers writer (rw_owns r pool) -> (forall ex, ~ rw_owns r pool i ex) -> (forall ex, p' <> WHold ex) ->
  holds_ok readers writer (fun j x => (rw_owns r pool j x /\ j <> i) \/ (j = i /\ p' = WHold x)).
Proof.
  intros Hh Hn Hp. eapply holds_ok_ext; [|exact Hh]. intros j x. simpl. split.
  - intros [[? _]|[-> E]]; [done|]. by destruct (Hp x).
  - intros Ho. left. split; [done|]. intros ->. by destruct (Hn x).
Qed.

(** [i] had nothing and takes the latch. *)
Lemma holds_take r pool i ex :
  rw_base r pool -> (forall x, ~ rw_owns r pool i x) -> __arw_compatible r ex = true ->
  holds_ok (rw_readers (__arw_take r ex)) (rw_writer (__arw_take r ex))
    (fun j x => (rw_owns r pool j x /\ j <> i) \/ (j = i /\ WHold ex = WHold x)).
Proof.
  intros Hb Hn Hc. apply (holds_ok_take r (rw_owns r pool) _ i ex); [apply Hb|done|done|].
  intros j x. split; [naive_solver|]. intros [Ho|[-> ->]]; [|by right]. left. split; [done|].
  intros ->. by destruct (Hn x).
Qed.

(** [i] gives its hold back. *)
Lemma holds_drop r pool i ex p' :
  rw_base r pool -> rw_owns r pool i ex -> (forall x, p' <> WHold x) ->
  holds_ok (rw_readers (__arw_release_locked r)) (rw_writer (__arw_release_locked r))
    (fun j x => (rw_owns r pool j x /\ j <> i) \/ (j = i /\ p' = WHold x)).
Proof.
  intros Hb Ho Hp. apply (holds_ok_release r (rw_owns r pool) _ i ex); [apply Hb|done|].
  intros j x. split.
  - intros [[? ?]|[-> E]]; [naive_solver|]. by destruct (Hp x).
  - intros [Hj Hne]. left. split; [done|]. intros ->. apply Hne. split; [done|].
    exact (rw_owns_one _ _ _ _ _ Ho Hj).
Qed.

(** ** Waking threads *)

Definition cv_members (c : condvar) : gset nat := cv_asleep c ∪ cv_signalled c.

Lemma cv_broadcast_members c : cv_members (cv_broadcast c) = cv_members c.
Proof. unfold cv_members. simpl. set_solver. Qed.

Lemma cv_signal_members c pick : cv_members (cv_signal c pick) = cv_members c.
Proof.
  unfold cv_signal, cv_members. case_decide; simpl.
  - apply set_eq. intros j. destruct (decide (j = pick)) as [->|]; set_solver.
  - destruct (head (elements (cv_asleep c))) as [i|] eqn:E; [|done]. simpl.
    assert (i ∈ cv_asleep c) by (by apply elem_of_elements, head_Some_elem_of).
    apply set_eq. intros j. destruct (decide (j = i)) as [->|]; set_solver.
Qed.

Lemma cv_signal_some c pick : cv_members c <> ∅ -> cv_signalled (cv_signal c pick) <> ∅.
Proof.
  unfold cv_signal, cv_members. intros Hne. case_decide; simpl; [set_solver|].
  destruct (head (elements (cv_asleep c))) as [i|] eqn:E; simpl; [set_solver|].
  apply head_None, elements_empty_inv, leibniz_equiv in E. rewrite E in Hne. set_solver.
Qed.

Lemma waiters_members r pool ex :
  rw_threads r pool -> 0 < mode_waiters r ex -> cv_members (mode_cv r ex) <> ∅.
Proof.
  intros [H1 H2] Hlt E. rewrite H2, pool_sum_zero in Hlt; [lia|]. intros i p Hp.
  destruct p as [| | | | |x| |]; try done. simpl. case_decide as D; [subst x|done].
  apply H1 in Hp. fold (cv_members (mode_cv r ex)) in Hp. rewrite E in Hp. set_solver.
Qed.

Lemma no_waiters r pool ex :
  rw_threads r pool -> mode_waiters r ex = 0 -> cv_asleep (mode_cv r ex) = ∅.
Proof.
  intros [H1 H2] E. apply elem_of_equiv_empty_L. intros i Hi.
  assert (pool !! i = Some (WSleep ex)) as Hp by (apply H1; set_solver).
  pose proof (pool_sum_ge (w_asleep ex) pool i (WSleep ex) ltac:(intros []; simpl; try case_decide; lia) Hp) as Hge.
  simpl in Hge. rewrite decide_True in Hge by done. rewrite H2 in E. lia.
Qed.

Lemma waiters_nonneg r pool ex : rw_threads r pool -> 0 <= mode_waiters r ex.
Proof.
  intros [_ ->]. apply pool_sum_nonneg. intros []; simpl; try case_decide; lia.
Qed.

(** The wake changes only which sleepers are signalled. *)
Lemma wake_threads_ok r pool pick :
  rw_threads r pool ->
  let r' := __arw_wake_threads_locked r pick in
  rw_threads r' pool /\ rw_way r' pool /\
  rw_readers r' = rw_readers r /\ rw_writer r' = rw_writer r /\ rw_wq r' = rw_wq r /\
  rw_granted r' = rw_granted r /\ rw_woken r' = rw_woken r.
Proof.
  intros Ht. pose proof (waiters_nonneg _ _ false Ht) as Hr0. pose proof (waiters_nonneg _ _ true Ht) as Hw0.
  assert (forall ex c, cv_members c = cv_members (mode_cv r ex) ->
    rw_threads (set_mode r ex (mode_waiters r ex) c) pool) as Hset.
  { intros ex c Hc. destruct Ht as [H1 H2]. constructor.
    - intros x i. specialize (H1 x i). unfold cv_members in Hc. destruct ex, x; simpl in *; try done;
        by rewrite Hc.
    - intros x. specialize (H2 x). by destruct ex, x. }
  simpl in Hr0, Hw0. unfold __arw_wake_threads_locked. cbv zeta.
  set (rb := set_mode r false (rw_rd_waiters r) (cv_broadcast (rw_cv r))).
  assert (rw_threads rb pool) as Hb by (apply (Hset false), cv_broadcast_members).
  destruct (_ || rw_writer r) eqn:E1.
  { split_and!; try done. intros (Ew & Er & Eq). left. rewrite Ew, Eq in E1.
    rewrite (bool_decide_true ([] = [])) in E1 by done. simpl in E1. rewrite !orb_false_r in E1.
    apply bool_decide_eq_true, Z.lor_eq_0_iff in E1 as [Ea Eb].
    intros [|]; by apply (no_waiters r pool). }
  apply orb_false_iff in E1 as [E1 Ew]. apply orb_false_iff in E1 as [E1 _].
  destruct (decide (0 < rw_readers r)) as [Hrd|Hrd].
  { destruct (decide (rw_wr_waiters r = 0 /\ 0 < rw_rd_waiters r)); split_and!; try done;
      intros (_ & Er & _); simpl in Er; lia. }
  destruct (_ && _) eqn:E2.
  - apply andb_true_iff in E2 as [E2%bool_decide_eq_true _].
    split_and!; try done; [apply (Hset true), cv_signal_members|].
    intros _. right; left. exists true. simpl. apply cv_signal_some.
    by apply (waiters_members r pool true).
  - destruct (decide (0 < rw_rd_waiters r)) as [Hrw|Hrw].
    + split_and!; try done. intros _. right; left. exists false. simpl.
      change (cv_members (mode_cv r false) <> ∅). by apply (waiters_members r pool false).
    + exfalso. assert (rw_rd_waiters r = 0) as E0 by lia. rewrite E0 in *. simpl in *.
      apply bool_decide_eq_false in E1. rewrite Z.lor_0_l in E1. rewrite andb_true_r in E2.
      apply bool_decide_eq_false in E2. lia.
Qed.

(** ** Granting *)

Lemma grant_loop_same q r :
  let r' := arw_grant_loop r q in
  (forall ex, mode_cv r' ex = mode_cv r ex) /\ (forall ex, mode_waiters r' ex = mode_waiters r ex).
Proof.
  revert r. induction q as [|[i ex] q IH]; intros r; simpl; [by split; intros []|].
  destruct (__arw_compatible r ex); [|by split; intros []].
  destruct ex; [by split; intros []|]. destruct (IH (__arw_take (set_fibers r q ({[i]} ∪ rw_granted r)
    ({[i]} ∪ rw_woken r)) false)) as [H1 H2]. split; intros x; rewrite ?H1, ?H2; by destruct x.
Qed.

Lemma grant_loop_ok q r pool :
  rw_base r pool -> rw_wq r = q ->
  rw_base (arw_grant_loop r q) pool /\ head_waits (arw_grant_loop r q).
Proof.
  revert r. induction q as [|[i ex] q IH]; intros r Hb Eq; simpl.
  { split; [|done]. destruct Hb as [H1 H2 H3 H4]. rewrite Eq in *. by constructor. }
  destruct (__arw_compatible r ex) eqn:Ec.
  2:{ split; [|done]. destruct Hb as [H1 H2 H3 H4]. rewrite Eq in *. by constructor. }
  set (r1 := set_fibers r q ({[i]} ∪ rw_granted r) ({[i]} ∪ rw_woken r)).
  assert (rw_base (__arw_take r1 ex) pool /\ rw_wq (__arw_take r1 ex) = q) as [Hb1 Eq1].
  { split; [|by destruct ex]. destruct Hb as [H1 H2 H3 H4]. rewrite Eq in *.
    destruct (H3 i ex ltac:(left)) as [Hi [c Hc]]. rewrite fmap_cons in H2. apply NoDup_cons in H2 as [Hiq H2].
    assert (rw_granted (__arw_take r1 ex) = {[i]} ∪ rw_granted r) as Eg by (by destruct ex).
    assert (rw_woken (__arw_take r1 ex) = {[i]} ∪ rw_woken r) as Ek by (by destruct ex).
    assert (rw_wq (__arw_take r1 ex) = q) as Ew by (by destruct ex).
    constructor; rewrite ?Eg, ?Ek, ?Ew; [|done| |].
    - apply (holds_ok_take r1 (rw_owns r pool) _ i ex); [done|by destruct ex| |].
      + intros [[? _]|E]; [done|]. by simplify_eq.
      + intros j x. unfold rw_owns. rewrite Eg, elem_of_union, elem_of_singleton. naive_solver.
    - intros j x Hin. destruct (H3 j x ltac:(by right)). split; [|done].
      apply not_elem_of_union. split; [|done]. intros ->%elem_of_singleton. apply Hiq.
      apply list_elem_of_fmap. by exists (i, x).
    - intros j [->%elem_of_singleton|Hj]%elem_of_union; [split; [set_solver|eauto]|].
      destruct (H4 j Hj). split; [set_solver|done]. }
  destruct ex; [|by apply IH]. split; [done|]. unfold head_waits. rewrite Eq1.
  destruct q as [|[j x] q']; [done|]. by destruct x.
Qed.

Lemma grant_locked_ok r pool pick :
  rw_base r pool -> rw_threads r pool -> rw_inv (__arw_grant_locked r pick) pool.
Proof.
  intros Hb Ht. unfold __arw_grant_locked.
  destruct (grant_loop_ok (rw_wq r) r pool Hb eq_refl) as [Hb1 Hh1].
  destruct (grant_loop_same (rw_wq r) r) as [E1 E2]. set (r1 := arw_grant_loop r (rw_wq r)) in *.
  assert (rw_threads r1 pool) as Ht1.
  { destruct Ht as [H1 H2]. constructor; intros ex; rewrite ?E1, ?E2; auto. }
  destruct (wake_threads_ok r1 pool pick Ht1) as (H1 & H2 & H3 & H4 & H5 & H6 & H7).
  split_and!; [|unfold head_waits, __arw_compatible in *; by rewrite H3, H4, H5|done|done].
  destruct Hb1 as [B1 B2 B3 B4].
  constructor; unfold rw_owns; rewrite ?H3, ?H4, ?H5, ?H6, ?H7; done.
Qed.

(** ** Steps *)

Lemma rw_threads_step r r' pool i p p' :
  rw_threads r pool -> pool !! i = Some p ->
  (forall ex j, j <> i -> j ∈ cv_members (mode_cv r' ex) <-> j ∈ cv_members (mode_cv r ex)) ->
  (forall ex, i ∈ cv_members (mode_cv r' ex) <-> p' = WSleep ex) ->
  (forall ex, mode_waiters r' ex = mode_waiters r ex - w_asleep ex p + w_asleep ex p') ->
  rw_threads r' (<[i := p']> pool).
Proof.
  intros [H1 H2] Hp Hj Hi Hw. constructor; intros ex.
  - intros j. fold (cv_members (mode_cv r' ex)). destruct (decide (j = i)) as [->|Hne].
    + rewrite lookup_insert_eq, Hi. naive_solver.
    + rewrite lookup_insert_ne, Hj, <-H1 by done. done.
  - rewrite (pool_sum_insert _ _ _ p) by done. by rewrite Hw, H2.
Qed.

Definition sleeping (p : rw_pc) : bool := match p with WSleep _ => true | _ => false end.
Definition has_latch (p : rw_pc) : bool := match p with WHold _ => true | _ => false end.
Definition about_to_test (p : rw_pc) : bool := match p with WSpun _ => true | _ => false end.

Lemma awake_unasleep ex p : sleeping p = false -> w_asleep ex p = 0.
Proof. by destruct p. Qed.

(** A client that neither sleeps nor goes to sleep. *)
Lemma rw_threads_move r r' pool i p p' :
  rw_threads r pool -> pool !! i = Some p -> sleeping p = false -> sleeping p' = false ->
  (forall ex, mode_cv r' ex = mode_cv r ex) -> (forall ex, mode_waiters r' ex = mode_waiters r ex) ->
  rw_threads r' (<[i := p']> pool).
Proof.
  intros Ht Hp S1 S2 E1 E2. apply (rw_threads_step r _ _ _ p); try done.
  - intros ex j _. by rewrite E1.
  - intros ex. rewrite E1. unfold cv_members. rewrite (rt_sleep _ _ Ht), Hp. split; [|by intros ->].
    intros [= ->]. done.
  - intros ex. rewrite !awake_unasleep by done. rewrite E2. lia.
Qed.

Lemma not_holding r pool i p :
  rw_base r pool -> pool !! i = Some p -> in_loop p = false -> has_latch p = false ->
  forall ex, ~ rw_owns r pool i ex.
Proof. intros Hb Hp Hl Hh ex [[_ [c E]]|E]; by simplify_eq. Qed.

(** Client [i], outside queue and latch, moves without taking it; unless it
    was about to test the latch, or the latch is not free, it leaves nobody
    stranded. *)
Lemma rw_move_ok r r' pool i p p' :
  rw_inv r pool -> pool !! i = Some p -> in_loop p = false -> has_latch p = false -> has_latch p' = false ->
  rw_readers r' = rw_readers r -> rw_writer r' = rw_writer r ->
  rw_wq r' = rw_wq r -> rw_granted r' = rw_granted r -> rw_woken r' = rw_woken r ->
  rw_threads r' (<[i := p']> pool) -> rw_way r' (<[i := p']> pool) ->
  rw_inv r' (<[i := p']> pool).
Proof.
  intros (Hb & Hh & Ht & Hw) Hp Hl Hn Hn' E1 E2 E3 E4 E5 Ht' Hw'. split_and!; [| |done|done].
  - apply (base_move r); try done; [by eapply outside_away|]. rewrite E1, E2.
    apply holds_none; [apply Hb|by eapply not_holding|]. intros ex ->. done.
  - unfold head_waits, __arw_compatible in *. by rewrite E1, E2, E3.
Qed.

Lemma way_keep r pool i p p' :
  rw_way r pool -> pool !! i = Some p -> about_to_test p = false -> rw_way r (<[i := p']> pool).
Proof.
  intros Hw Hp Hn Hf. destruct (Hw Hf) as [?|[?|(j & ex & Hj)]]; [by left|by right; left|].
  right; right. exists j, ex. rewrite lookup_insert_ne; [done|]. intros ->. by simplify_eq.
Qed.

Lemma rw_rest_ok r pool i p p' :
  rw_inv r pool -> pool !! i = Some p -> in_loop p = false -> has_latch p = false -> has_latch p' = false ->
  sleeping p = false -> sleeping p' = false -> about_to_test p = false ->
  rw_inv r (<[i := p']> pool).
Proof.
  intros Hinv Hp Hl Hn Hn' S1 S2 Ht. pose proof Hinv as (_ & _ & Htr & Hw).
  apply (rw_move_ok r _ _ _ p); try done; [by apply (rw_threads_move r _ _ _ p)|by eapply way_keep].
Qed.

Lemma rw_to_test r r' pool i p ex :
  rw_inv r pool -> pool !! i = Some p -> in_loop p = false -> has_latch p = false ->
  rw_readers r' = rw_readers r -> rw_writer r' = rw_writer r ->
  rw_wq r' = rw_wq r -> rw_granted r' = rw_granted r -> rw_woken r' = rw_woken r ->
  rw_threads r' (<[i := WSpun ex]> pool) -> rw_inv r' (<[i := WSpun ex]> pool).
Proof.
  intros Hinv Hp Hl Hn E1 E2 E3 E4 E5 Ht. apply (rw_move_ok r _ _ _ p); try done.
  intros _. right; right. exists i, ex. by rewrite lookup_insert_eq.
Qed.

Lemma take_not_free r ex pool :
  rw_base r pool -> ~ free (__arw_take r ex).
Proof.
  intros Hb (Hw & Hr & _). pose proof (holds_ok_nonneg _ _ _ (rb_holds _ _ Hb)).
  destruct ex; simpl in *; [done|lia].
Qed.

Lemma take_same r ex :
  rw_wq (__arw_take r ex) = rw_wq r /\ rw_granted (__arw_take r ex) = rw_granted r /\
  rw_woken (__arw_take r ex) = rw_woken r /\ (forall x, mode_cv (__arw_take r ex) x = mode_cv r x) /\
  (forall x, mode_waiters (__arw_take r ex) x = mode_waiters r x).
Proof. destruct ex; split_and!; try done; by intros []. Qed.

(** A client away from the queue takes a latch nobody queues for. *)
Lemma take_ok r pool i p ex :
  rw_inv r pool -> pool !! i = Some p -> away r i -> (forall x, ~ rw_owns r pool i x) ->
  sleeping p = false -> ARW_THREAD_OK r ex = true ->
  rw_inv (__arw_take r ex) (<[i := WHold ex]> pool).
Proof.
  intros (Hb & Hh & Ht & Hw) Hp Ha Hno Hs Hok. apply andb_true_iff in Hok as [Hq%bool_decide_eq_true Hc].
  destruct (take_same r ex) as (E1 & E2 & E3 & E4 & E5). split_and!.
  - apply (base_move r); try done. by apply holds_take.
  - unfold head_waits. by rewrite E1, Hq.
  - by apply (rw_threads_move r _ _ _ p).
  - intros Hf. by destruct (take_not_free r ex pool Hb).
Qed.

Lemma wake_after_ok r pool pick : rw_inv r pool -> rw_inv (__arw_wake_threads_locked r pick) pool.
Proof.
  intros (Hb & Hh & Ht & Hw).
  destruct (wake_threads_ok r pool pick Ht) as (H1 & H2 & H3 & H4 & H5 & H6 & H7).
  split_and!; [|unfold head_waits, __arw_compatible in *; by rewrite H3, H4, H5|done|done].
  destruct Hb as [B1 B2 B3 B4]. constructor; unfold rw_owns; rewrite ?H3, ?H4, ?H5, ?H6, ?H7; done.
Qed.

Lemma not_ok_not_free r ex : ARW_THREAD_OK r ex = false -> ~ free r.
Proof.
  intros Hok (Hw & Hr & Hq). unfold ARW_THREAD_OK, __arw_compatible in Hok.
  rewrite Hq, Hw, Hr in Hok. by destruct ex.
Qed.

Lemma rw_thread_loop_ok r pool i ex spun cap pick t r' :
  rw_inv r pool -> pool !! i = Some (WSpun ex) ->
  arw_thread_loop r i ex spun cap pick = (t, r') ->
  rw_inv r' (<[i := rw_after t ex true]> pool).
Proof.
  intros Hinv Hp. pose proof Hinv as (Hb & Hh & Ht & Hw). unfold arw_thread_loop.
  destruct (ARW_THREAD_OK r ex) eqn:Hok.
  { intros [= <- <-]. simpl rw_after.
    assert (rw_inv (__arw_take r ex) (<[i := WHold ex]> pool)) as Htk.
    { apply (take_ok _ _ _ (WSpun ex)); try done; [by eapply outside_away|by eapply not_holding]. }
    destruct ex; [done|]. by apply wake_after_ok. }
  destruct (if negb spun && _ then _ else _) as [adm n].
  destruct adm; intros [= <- <-]; simpl rw_after.
  - apply (rw_move_ok r _ _ _ (WSpun ex)); try done.
    + apply (rw_threads_move r _ _ _ (WSpun ex)); try done; by intros [].
    + intros Hf. by destruct (not_ok_not_free r ex Hok).
  - apply (rw_move_ok r _ _ _ (WSpun ex)); try done; try by destruct ex.
    + apply (rw_threads_step r _ _ _ (WSpun ex)); try done.
      * intros x j Hne. unfold cv_members. destruct ex, x; simpl; set_solver.
      * intros x. assert (i ∉ cv_members (mode_cv r x)).
        { intros Hin. apply (rt_sleep _ _ Ht) in Hin. by simplify_eq. }
        unfold cv_members in *. destruct ex, x; simpl in *; set_solver.
      * intros x. destruct ex, x; simpl; lia.
    + intros Hf. destruct (not_ok_not_free r ex Hok). by destruct ex.
Qed.

Lemma rw_spin_done_ok r pool i ex :
  rw_inv r pool -> pool !! i = Some (WSpin ex) -> rw_inv (arw_spin_done r) (<[i := WSpun ex]> pool).
Proof.
  intros Hinv Hp. apply (rw_to_test r _ _ _ (WSpin ex)); try done.
  apply (rw_threads_move r _ _ _ (WSpin ex)); try done. apply Hinv.
Qed.

Lemma rw_woken_ok r pool i ex :
  rw_inv r pool -> pool !! i = Some (WSleep ex) ->
  rw_inv (set_mode r ex (mode_waiters r ex - 1) (cv_run (mode_cv r ex) i)) (<[i := WSpun ex]> pool).
Proof.
  intros Hinv Hp. pose proof Hinv as (Hb & Hh & Ht & Hw).
  apply (rw_to_test r _ _ _ (WSleep ex)); try done; try by destruct ex.
  apply (rw_threads_step r _ _ _ (WSleep ex)); try done.
  - intros x j Hne. unfold cv_members. destruct ex, x; simpl; set_solver.
  - intros x. split; [|done]. assert (x <> ex -> i ∉ cv_members (mode_cv r x)).
    { intros Hx Hin. apply (rt_sleep _ _ Ht) in Hin. by simplify_eq. }
    unfold cv_members in *. destruct ex, x; simpl in *; set_solver.
  - intros x. destruct ex, x; simpl; lia.
Qed.

(** ** Fibers *)

Lemma release_same r :
  let r' := __arw_release_locked r in
  rw_wq r' = rw_wq r /\ rw_granted r' = rw_granted r /\ rw_woken r' = rw_woken r /\
  (forall x, mode_cv r' x = mode_cv r x) /\ (forall x, mode_waiters r' x = mode_waiters r x).
Proof.
  unfold __arw_release_locked. case_decide; simpl; (destruct (rw_writer r); [|case_decide]);
    split_and!; try done; by intros [].
Qed.

Lemma release_eq r :
  rw_readers (__arw_release_locked r) =
    (if rw_writer r then rw_readers r
     else if decide (0 < rw_readers r) then rw_readers r - 1 else rw_readers r) /\
  rw_writer (__arw_release_locked r) = false.
Proof.
  unfold __arw_release_locked. set (r1 := if decide _ then set_last r _ else r).
  assert (rw_readers r1 = rw_readers r /\ rw_writer r1 = rw_writer r) as [E1 E2]
    by (unfold r1; by case_decide).
  rewrite E1, E2. destruct (rw_writer r); [by simpl|]. case_decide; simpl; by rewrite ?E2.
Qed.

Lemma release_holds r r' :
  rw_readers r' = rw_readers r -> rw_writer r' = rw_writer r ->
  rw_readers (__arw_release_locked r') = rw_readers (__arw_release_locked r) /\
  rw_writer (__arw_release_locked r') = rw_writer (__arw_release_locked r).
Proof.
  intros E1 E2. destruct (release_eq r) as [-> ->], (release_eq r') as [-> ->]. by rewrite E1, E2.
Qed.

(** Where a fiber that runs a turn comes from. *)
Definition rw_fiber_at (p : rw_pc) (ex checked : bool) : Prop := p = WLoop ex checked \/ p = WIdle.

Lemma fiber_owns r pool i p ex checked x :
  pool !! i = Some p -> rw_fiber_at p ex checked -> rw_owns r pool i x -> i ∈ rw_granted r /\ x = ex.
Proof. intros Hp [->| ->] [[Hg [c E]]|E]; simplify_eq; done. Qed.

(** A wake that was taken notice of. *)
Definition unwoken (r : xtc_arwlock) (i : nat) : xtc_arwlock :=
  set_fibers r (rw_wq r) (rw_granted r) (rw_woken r ∖ {[i]}).

Lemma unwoken_ok r pool i : rw_inv r pool -> i ∉ rw_granted r -> rw_inv (unwoken r i) pool.
Proof.
  intros ([B1 B2 B3 B4] & Hh & [T1 T2] & Hw) Hg. split_and!; [|done| |done].
  - constructor; try done. intros j Hj. destruct (B4 j Hj). split; [set_solver|done].
  - constructor; intros ex; [specialize (T1 ex)|specialize (T2 ex)]; by destruct ex.
Qed.

(** A fiber leaves the wait without the latch: those behind it are granted
    what it made room for. *)
Lemma fiber_leaves r r' pool i p ex checked p' pick :
  rw_inv r pool -> pool !! i = Some p -> rw_fiber_at p ex checked ->
  sleeping p' = false -> has_latch p' = false ->
  rw_wq r' = fw_remove (rw_wq r) i -> rw_granted r' = rw_granted r ∖ {[i]} ->
  rw_woken r' = rw_woken r ∖ {[i]} ->
  (forall x, mode_cv r' x = mode_cv r x) -> (forall x, mode_waiters r' x = mode_waiters r x) ->
  (if bool_decide (i ∈ rw_granted r)
   then rw_readers r' = rw_readers (__arw_release_locked r) /\ rw_writer r' = rw_writer (__arw_release_locked r)
   else rw_readers r' = rw_readers r /\ rw_writer r' = rw_writer r) ->
  rw_inv (__arw_grant_locked r' pick) (<[i := p']> pool).
Proof.
  intros (Hb & Hh & Ht & Hw) Hp Hat Hs Hl E1 E2 E3 E4 E5 Eh. apply grant_locked_ok.
  - apply (base_forget r); try done. destruct (bool_decide (i ∈ rw_granted r)) eqn:Eg; destruct Eh as [-> ->].
    + apply bool_decide_eq_true in Eg. apply (holds_drop r pool i ex); [done| |by intros x ->].
      left. split; [done|]. destruct (rb_granted _ _ Hb i Eg) as (_ & x & c & E).
      destruct Hat as [->| ->]; simplify_eq. eauto.
    + apply bool_decide_eq_false in Eg. apply holds_none; [apply Hb| |by intros x ->].
      intros x Ho. by destruct (fiber_owns _ _ _ _ _ _ _ Hp Hat Ho).
  - apply (rw_threads_move r _ _ _ p); try done. by destruct Hat as [->| ->].
Qed.

(** A fiber that was handed the latch returns. *)
Lemma granted_returns r pool i p ex checked :
  rw_inv r pool -> pool !! i = Some p -> rw_fiber_at p ex checked -> i ∈ rw_granted r ->
  rw_inv (forget (unwoken r i) i) (<[i := WHold ex]> pool).
Proof.
  intros (Hb & Hh & Ht & Hw) Hp Hat Hg.
  assert (p = WLoop ex checked) as ->.
  { destruct (rb_granted _ _ Hb i Hg) as (_ & x & c & E). destruct Hat as [->| ->]; by simplify_eq. }
  assert (fw_remove (rw_wq r) i = rw_wq r) as Eq.
  { apply fw_remove_fresh, not_true_iff_false. intros [x Hx]%fw_queued_spec.
    by destruct (rb_queue _ _ Hb i x Hx). }
  split_and!.
  - apply (base_forget r); try done; [simpl; set_solver|].
    eapply holds_ok_ext; [|exact (rb_holds _ _ Hb)]. intros j x. simpl. split.
    + intros [[? _]|[-> [= <-]]]; [done|]. left. eauto.
    + intros Ho. destruct (decide (j = i)) as [->|]; [|by left]. right. split; [done|].
      by destruct (fiber_owns _ _ _ _ _ _ _ Hp Hat Ho) as [_ ->].
  - unfold head_waits in *. simpl. by rewrite Eq.
  - by apply (rw_threads_move r _ _ _ (WLoop ex checked)); [..|intros []|intros []].
  - pose proof (way_keep r pool i _ (WHold ex) Hw Hp eq_refl) as Hw'. unfold rw_way, free in *. simpl.
    by rewrite Eq.
Qed.

(** A fiber joins the queue. *)
Lemma joins_queue r pool i p ex checked :
  rw_inv r pool -> pool !! i = Some p -> rw_fiber_at p ex checked -> i ∉ rw_granted r ->
  fw_queued (rw_wq r) i = false -> ARW_THREAD_OK r ex = false ->
  rw_inv (set_fibers r (fw_enqueue (rw_wq r) i ex) (rw_granted r) (rw_woken r))
    (<[i := WLoop ex checked]> pool).
Proof.
  intros (Hb & Hh & Ht & Hw) Hp Hat Hg Hq Hok. pose proof Hb as [B1 B2 B3 B4].
  assert (fw_enqueue (rw_wq r) i ex = rw_wq r ++ [(i, ex)]) as Eq by (unfold fw_enqueue; by rewrite Hq).
  assert (forall j x, (j, x) ∈ rw_wq r -> j <> i) as Hne.
  { intros j x Hin ->. by rewrite (proj2 (fw_queued_spec _ _)) in Hq by eauto. }
  split_and!.
  - constructor; simpl.
    + eapply holds_ok_ext; [|exact B1]. intros j x. unfold rw_owns. simpl.
      destruct (decide (j = i)) as [->|Hj]; [rewrite lookup_insert_eq|by rewrite lookup_insert_ne].
      destruct Hat as [->| ->]; naive_solver.
    + by apply fw_enqueue_NoDup.
    + intros j x [Hin|(-> & -> & _)]%fw_enqueue_elem.
      * rewrite lookup_insert_ne by (symmetry; eauto). eauto.
      * rewrite lookup_insert_eq. eauto.
    + intros j Hj. rewrite lookup_insert_ne by (intros ->; done). eauto.
  - unfold head_waits in *. simpl. rewrite Eq. unfold ARW_THREAD_OK in Hok.
    destruct (rw_wq r) as [|[j x] q]; [|done]. by rewrite bool_decide_true in Hok.
  - apply (rw_threads_move r _ _ _ p); try done. by destruct Hat as [->| ->].
  - intros (_ & _ & Ef). simpl in Ef. rewrite Eq in Ef. by destruct (rw_wq r).
Qed.

Lemma rw_fiber_turn_ok r pool i p ex checked kill expired pick t r' :
  rw_inv r pool -> pool !! i = Some p -> rw_fiber_at p ex checked ->
  arw_fiber_turn r i ex kill expired pick = (t, r') ->
  rw_inv r' (<[i := rw_after t ex checked]> pool).
Proof.
  intros Hinv Hp Hat. unfold arw_fiber_turn. fold (unwoken r i). set (r0 := unwoken r i).
  change (rw_granted r0) with (rw_granted r). change (rw_wq r0) with (rw_wq r).
  assert (rw_woken r0 ∖ {[i]} = rw_woken r ∖ {[i]}) as Ek by (simpl; set_solver).
  assert (forall x, mode_cv r0 x = mode_cv r x) as Ec by (by intros []).
  assert (forall x, mode_waiters r0 x = mode_waiters r x) as Ewt by (by intros []).
  destruct kill.
  { intros [= <- <-]. simpl rw_after.
    destruct (release_same (forget r0 i)) as (R1 & R2 & R3 & R4 & R5).
    destruct (release_holds r (forget r0 i) eq_refl eq_refl) as [R6 R7].
    apply (fiber_leaves r _ _ _ p ex checked); try done;
      destruct (bool_decide (i ∈ rw_granted r)); rewrite ?R1, ?R2, ?R3; try done;
      intros x; rewrite ?R4, ?R5; by destruct x. }
  destruct (bool_decide (i ∈ rw_granted r)) eqn:Eg.
  { intros [= <- <-]. apply bool_decide_eq_true in Eg. by apply (granted_returns _ _ _ p ex checked). }
  apply bool_decide_eq_false in Eg. pose proof (unwoken_ok r pool i Hinv Eg) as Hinv0.
  destruct (negb (fw_queued (rw_wq r) i) && ARW_THREAD_OK r0 ex) eqn:Et.
  { apply andb_true_iff in Et as [Eq%negb_true_iff Eok]. intros [= <- <-]. simpl rw_after.
    apply (take_ok _ _ _ p); try done; [|by destruct Hat as [->| ->]].
    intros x Ho. by destruct (fiber_owns _ _ _ _ _ _ _ Hp Hat Ho). }
  destruct expired; intros [= <- <-]; simpl rw_after.
  - apply (fiber_leaves r _ _ _ p ex checked); try done.
    + simpl. apply fw_remove_enqueue.
    + by rewrite bool_decide_false.
  - destruct (fw_queued (rw_wq r) i) eqn:Eq.
    + unfold fw_enqueue. rewrite Eq. pose proof Hinv as (Hb & _).
      assert (p = WLoop ex checked) as ->.
      { apply fw_queued_spec in Eq as [x Hx]. destruct (rb_queue _ _ Hb i x Hx) as (_ & c & E).
        destruct Hat as [->| ->]; by simplify_eq. }
      by rewrite insert_id.
    + by apply (joins_queue r0 _ _ p).
Qed.

Lemma rw_lock_ok r pool i ex timeout_ns fiber kill expired cap pick t r' :
  rw_inv r pool -> pool !! i = Some WIdle ->
  __arwlock_lock (Some r) i ex timeout_ns fiber kill expired cap pick = (t, Some r') ->
  rw_inv r' (<[i := rw_after t ex true]> pool).
Proof.
  intros Hinv Hp E. unfold __arwlock_lock in E. pose proof Hinv as (Hb & _ & Ht & _).
  destruct (ARW_THREAD_OK r ex) eqn:Hok.
  { injection E as <- <-. apply (take_ok _ _ _ WIdle); try done; [by eapply outside_away|by eapply not_holding]. }
  destruct (decide (timeout_ns = 0)); [injection E as <- <-; simpl; by rewrite insert_id|].
  destruct fiber.
  - destruct (arw_fiber_turn _ _ _ _ _ _) as [t1 r1] eqn:Ef. injection E as <- <-.
    apply (rw_fiber_turn_ok r pool i WIdle ex true kill expired pick); try done. by right.
  - destruct (arw_thread_loop _ _ _ _ _ _) as [t1 r1] eqn:El. injection E as <- <-.
    assert (rw_inv r (<[i := WSpun ex]> pool)) as Htest.
    { apply (rw_to_test r _ _ _ WIdle); try done. by apply (rw_threads_move r _ _ _ WIdle). }
    pose proof (rw_thread_loop_ok r _ i ex false cap pick t1 r1 Htest ltac:(by rewrite lookup_insert_eq) El) as Hl.
    by rewrite insert_insert_eq in Hl.
Qed.

Lemma rw_unlock_ok r pool i ex pick :
  rw_inv r pool -> pool !! i = Some (WHold ex) ->
  rw_inv (__arw_grant_locked (__arw_release_locked r) pick) (<[i := WIdle]> pool).
Proof.
  intros (Hb & Hh & Ht & Hw) Hp. destruct (release_same r) as (R1 & R2 & R3 & R4 & R5). apply grant_locked_ok.
  - apply (base_move r); try done; [by eapply outside_away|].
    apply (holds_drop r pool i ex); [done|by right|done].
  - by apply (rw_threads_move r _ _ _ (WHold ex)).
Qed.

Lemma rw_inv_step r pool i p r' p' :
  rw_inv r pool -> pool !! i = Some p -> rw_step i r p r' p' -> rw_inv r' (<[i := p']> pool).
Proof.
  intros Hinv Hp Hst.
  destruct Hst as [tmo fiber kill expired cap pick t r' E|tmo fiber kill expired cap pick t r' E|ex pick r' E
    |ex checked kill expired pick t r' Hk E|ex|ex|ex|ex pick t r' Hok E|ex cap pick t r' E
    |ex expired cap pick t r' E].
  - by apply (rw_lock_ok r _ _ false tmo fiber kill expired cap pick).
  - by apply (rw_lock_ok r _ _ true tmo fiber kill expired cap pick).
  - injection E as <-. by apply (rw_unlock_ok _ _ _ ex).
  - apply (rw_fiber_turn_ok r _ _ (WLoop ex checked) ex checked kill expired pick); try done. by left.
  - by apply (rw_rest_ok _ _ _ (WKill ex)).
  - by apply (rw_rest_ok _ _ _ (WKill ex)).
  - by apply rw_spin_done_ok.
  - pose proof (rw_spin_done_ok _ _ _ _ Hinv Hp) as Htest.
    pose proof (rw_thread_loop_ok _ _ i ex true 0 pick t r' Htest ltac:(by rewrite lookup_insert_eq) E) as Hl.
    by rewrite insert_insert_eq in Hl.
  - by apply (rw_thread_loop_ok r _ _ _ true cap pick).
  - pose proof (rw_woken_ok _ _ _ _ Hinv Hp) as Htest. unfold arw_thread_woken in E.
    set (r1 := set_mode _ _ _ _) in *. destruct (expired && negb (ARW_THREAD_OK r1 ex)) eqn:Eb.
    + injection E as <- <-. apply andb_true_iff in Eb as [_ Hok%negb_true_iff]. simpl rw_after.
      pose proof Htest as (_ & _ & Ht1 & _).
      assert (rw_inv r1 (<[i := WIdle]> (<[i := WSpun ex]> pool))) as Hr.
      { apply (rw_move_ok r1 _ _ _ (WSpun ex)); try done; [by rewrite lookup_insert_eq| |].
        - apply (rw_threads_move r1 _ _ _ (WSpun ex)); try done. by rewrite lookup_insert_eq.
        - intros Hf. by destruct (not_ok_not_free r1 ex Hok). }
      by rewrite insert_insert_eq in Hr.
    + pose proof (rw_thread_loop_ok r1 _ i ex false cap pick t r' Htest ltac:(by rewrite lookup_insert_eq) E) as Hl.
      by rewrite insert_insert_eq in Hl.
Qed.

Definition rw_start (k : nat) : config := (arw_new, idle_pool WIdle k).

Lemma rw_run_inv k r pool : reachable rw_step (rw_start k) (r, pool) -> rw_inv r pool.
Proof.
  intros Hr. apply (pool_invariant rw_step rw_inv _ _) in Hr; [done| |].
  { intros r1 pool1 i p r2 p2. apply rw_inv_step. }
  pose proof (idle_pool_Forall WIdle k (fun _ p => p = WIdle) ltac:(done)) as Hidle.
  split_and!; [|done| |].
  - constructor; simpl; try done.
    + exists (fun _ => ∅). split_and!; try done. intros i ex. split; [set_solver|].
      intros [[Hg _]|Hi]; [set_solver|]. by specialize (Hidle _ _ Hi).
    + apply NoDup_nil_2.
    + intros i ex Hin. by apply elem_of_nil in Hin.
  - constructor; intros ex.
    + intros i. split; [destruct ex; simpl; set_solver|]. intros Hi. by specialize (Hidle _ _ Hi).
    + symmetry. rewrite pool_sum_zero; [by destruct ex|]. intros i p Hi. by rewrite (Hidle _ _ Hi).
  - intros _. left. by intros [].
Qed.

(** ** What clients rely on *)

(** C33: readers and writers exclude each other.  For any number of fibers and
    threads locking in either mode, with or without timeouts, spinning,
    killed while queued or after being granted the latch, in any
    interleaving: a client that has the latch exclusively (holds it, or was
    handed it and has yet to run) is the only one that has it, and the
    latch's words say how many have it in each mode. *)
Theorem arwlock_exclusion k r pool :
  reachable rw_step (rw_start k) (r, pool) ->
  (forall i j ex, rw_owns r pool i true -> rw_owns r pool j ex -> j = i /\ ex = true) /\
  (exists R : gset nat, (forall i, i ∈ R <-> rw_owns r pool i false) /\ rw_readers r = Z.of_nat (size R)) /\
  (rw_writer r = true <-> exists i, rw_owns r pool i true).
Proof.
  intros Hr. destruct (rw_run_inv _ _ _ Hr) as [Hb _]. pose proof (rb_holds _ _ Hb) as Hh.
  split_and!.
  - intros i j ex. by apply (holds_ok_exclusive (rw_readers r) (rw_writer r)).
  - destruct Hh as (H & Ho & Er & _). exists (H false). split; [|done]. intros i. apply Ho.
  - destruct Hh as (H & Ho & _ & Ew & _). setoid_rewrite <-Ho. split.
    + intros E. rewrite E in Ew. simpl in Ew. apply size_pos_elem_of. lia.
    + intros [i Hi]. assert (size (H true) <> 0%nat); [apply size_non_empty_iff; set_solver|].
      destruct (rw_writer r); [done|]. simpl in Ew. lia.
Qed.

(** Nobody waits for a latch that could be had.  In every reachable state
    the fiber at the head of the queue is parked behind a holder it
    conflicts with, every waiter of the queue is in its loop, a fiber that
    was handed the latch has its wake pending; and if the latch is free,
    nobody is queued and threads sleep on it, then some thread has been
    signalled or is about to test the latch. *)
Theorem arwlock_no_stranded k r pool :
  reachable rw_step (rw_start k) (r, pool) ->
  (forall i ex q, rw_wq r = (i, ex) :: q -> exists j x, rw_owns r pool j x /\ (ex = true \/ x = true)) /\
  (forall i ex, (i, ex) ∈ rw_wq r -> exists c, pool !! i = Some (WLoop ex c)) /\
  (forall i, i ∈ rw_granted r -> i ∈ rw_woken r) /\
  (free r -> (exists ex, cv_asleep (mode_cv r ex) <> ∅) ->
   exists i ex, (i ∈ cv_signalled (mode_cv r ex) /\ pool !! i = Some (WSleep ex)) \/
     pool !! i = Some (WSpun ex)).
Proof.
  intros Hr. destruct (rw_run_inv _ _ _ Hr) as (Hb & Hh & Ht & Hw). split_and!.
  - intros i ex q Eq. unfold head_waits in Hh. rewrite Eq in Hh.
    destruct (rb_holds _ _ Hb) as (H & Ho & Er & Ew & Hx).
    destruct (decide (H true = ∅)) as [E|[j Hj]%set_choose_L]; [|exists j, true; rewrite <-Ho; auto].
    rewrite E, size_empty in Ew. destruct (rw_writer r) eqn:Ewr; simpl in Ew; [lia|].
    unfold __arw_compatible in Hh. rewrite Ewr in Hh. destruct ex; [|done]. simpl in Hh.
    apply bool_decide_eq_false in Hh. destruct (size_pos_elem_of (H false)) as [j Hj]; [lia|].
    exists j, false. rewrite <-Ho. auto.
  - intros i ex Hin. by apply (rb_queue _ _ Hb).
  - intros i Hg. by apply (rb_granted _ _ Hb).
  - intros Hf [ex Hne]. destruct (Hw Hf) as [Ha|[[x [i Hi]%set_choose_L]|(i & x & Hi)]].
    + by rewrite Ha in Hne.
    + exists i, x. left. split; [done|]. apply (rt_sleep _ _ Ht). set_solver.
    + exists i, x. by right.
Qed.

(** Reader 0 holds the latch, fiber 1 queues for it exclusively, fiber 2
    queues behind it to read; when 0 leaves, 1 is handed the latch. *)
Definition demo_arw : xtc_arwlock :=
  mk_arw 0 true 0 0 [(2%nat, false)] false 0 cv_empty cv_empty {[1%nat]} {[1%nat]}.

Definition demo_arw_pool : gmap nat rw_pc :=
  <[1%nat := WLoop true true]> (<[2%nat := WLoop false true]> (idle_pool WIdle 3)).

Lemma demo_arw_run : reachable rw_step (rw_start 3) (demo_arw, demo_arw_pool).
Proof.
  unfold reachable, rw_start. pool_norm.
  pool_run 0%nat by (apply (rs_rdlock _ _ (-1) true false false 0 0 (RReturn XTC_OK)); reflexivity).
  pool_run 1%nat by (apply (rs_wrlock _ _ (-1) true false false 0 0 RPark); reflexivity).
  pool_run 2%nat by (apply (rs_rdlock _ _ (-1) true false false 0 0 RPark); reflexivity).
  pool_run 0%nat by (apply (rs_unlock _ _ false 0); reflexivity).
  apply rtc_refl.
Qed.

Lemma arwlock_exclusion_witness : rw_writer demo_arw = true /\ exists i, rw_owns demo_arw demo_arw_pool i true.
Proof.
  split; [reflexivity|].
  apply (proj2 (proj2 (arwlock_exclusion 3 demo_arw demo_arw_pool demo_arw_run))). reflexivity.
Defined.

Lemma arwlock_no_stranded_witness :
  exists j x, rw_owns demo_arw demo_arw_pool j x /\ (false = true \/ x = true).
Proof. exact (proj1 (arwlock_no_stranded 3 demo_arw demo_arw_pool demo_arw_run) 2%nat false [] eq_refl). Defined.
