(* ===== verification/Latch.v ===== *)
(** * Condition latches of src/ptc/sync.c: rwlock, barrier, gate, abort source

    The simpler primitives of sync.c, with the critical sections and client
    pools of Sync.v.  [RwLock]: a thread-only reader/writer lock with writer
    priority; [Barrier]: rounds of a fixed number of parties; [Gate]: a count
    of entries that can be closed and drained; [Abort]: a flag with a reason,
    two atomic words. *)

From S2P Require Import Prelude Sync.

Local Open Scope Z_scope.

(** ** rwlock *)

Module RwLock.

Record xtc_rwlock := mk_rwl {
  rl_readers : Z;
  rl_writer : bool;
  rl_waiting_writers : Z;
  rl_cv : condvar;
}.

Definition rwl_new : xtc_rwlock := mk_rwl 0 false 0 cv_empty.

Definition xtc_rwlock_create (out : bool) (alloc : rc) : rc * option xtc_rwlock :=
  if out then match alloc with XTC_OK => (XTC_OK, Some rwl_new) | e => (e, None) end
  else (XTC_E_INVAL, None).

Definition __can_grant_read (r : xtc_rwlock) : bool :=
  negb (rl_writer r) && bool_decide (rl_waiting_writers r = 0).

Definition __can_grant_write (r : xtc_rwlock) : bool :=
  negb (rl_writer r) && bool_decide (rl_readers r = 0).

Definition with_cv (r : xtc_rwlock) (c : condvar) : xtc_rwlock :=
  mk_rwl (rl_readers r) (rl_writer r) (rl_waiting_writers r) c.

(** [__rwlock_wait] of thread [i] up to its first sleep: the code it returns,
    or [None] when it sleeps. *)
Definition __rwlock_wait (r : xtc_rwlock) (i : nat) (timeout_ns : Z) (ready : xtc_rwlock -> bool)
  : option rc * xtc_rwlock :=
  if decide (timeout_ns = 0) then (Some (if ready r then XTC_OK else XTC_E_AGAIN), r)
  else if ready r then (Some XTC_OK, r)
  else (None, with_cv r (cv_sleep (rl_cv r) i)).

(** Back from a sleep; a timed-out wait does not look again. *)
Definition rwlock_rewait (r : xtc_rwlock) (i : nat) (expired : bool) (ready : xtc_rwlock -> bool)
  : option rc * xtc_rwlock :=
  let r := with_cv r (cv_run (rl_cv r) i) in
  if expired then (Some XTC_E_AGAIN, r)
  else if ready r then (Some XTC_OK, r)
  else (None, with_cv r (cv_sleep (rl_cv r) i)).

(** The end of [xtc_rwlock_rdlock] and of [xtc_rwlock_wrlock]. *)
Definition rd_finish (c : rc) (r : xtc_rwlock) : xtc_rwlock :=
  match c with
  | XTC_OK => mk_rwl (rl_readers r + 1) (rl_writer r) (rl_waiting_writers r) (rl_cv r)
  | _ => r
  end.

Definition wr_finish (c : rc) (r : xtc_rwlock) : xtc_rwlock :=
  let r := mk_rwl (rl_readers r) (rl_writer r) (rl_waiting_writers r - 1) (rl_cv r) in
  match c with
  | XTC_OK => mk_rwl (rl_readers r) true (rl_waiting_writers r) (rl_cv r)
  | _ => with_cv r (cv_broadcast (rl_cv r))
  end.

(** The rest of a lock after the wait's section. *)
Definition finish (ex : bool) (w : option rc * xtc_rwlock) : option rc * xtc_rwlock :=
  match w with
  | (Some c, r) => (Some c, if ex then wr_finish c r else rd_finish c r)
  | (None, r) => (None, r)
  end.

Definition ready (ex : bool) : xtc_rwlock -> bool := if ex then __can_grant_write else __can_grant_read.

Definition xtc_rwlock_rdlock (r : option xtc_rwlock) (i : nat) (timeout_ns : Z)
  : option rc * option xtc_rwlock :=
  match r with
  | None => (Some XTC_E_INVAL, None)
  | Some r => let '(c, r') := finish false (__rwlock_wait r i timeout_ns __can_grant_read) in (c, Some r')
  end.

Definition xtc_rwlock_wrlock (r : option xtc_rwlock) (i : nat) (timeout_ns : Z)
  : option rc * option xtc_rwlock :=
  match r with
  | None => (Some XTC_E_INVAL, None)
  | Some r =>
      let r := mk_rwl (rl_readers r) (rl_writer r) (rl_waiting_writers r + 1) (rl_cv r) in
      let '(c, r') := finish true (__rwlock_wait r i timeout_ns __can_grant_write) in (c, Some r')
  end.

Definition xtc_rwlock_unlock (r : option xtc_rwlock) : rc * option xtc_rwlock :=
  match r with
  | None => (XTC_E_INVAL, None)
  | Some r =>
      let r := if rl_writer r then mk_rwl (rl_readers r) false (rl_waiting_writers r) (rl_cv r)
               else if decide (0 < rl_readers r)
               then mk_rwl (rl_readers r - 1) (rl_writer r) (rl_waiting_writers r) (rl_cv r) else r in
      (XTC_OK, Some (with_cv r (cv_broadcast (rl_cv r))))
  end.

(** [LWait ex]: inside a lock, waiting on the condition variable. *)
Inductive rl_pc : Type := LIdle | LWait (ex : bool) | LHold (ex : bool).

Definition rl_after (ex : bool) (c : option rc) : rl_pc :=
  match c with Some XTC_OK => LHold ex | Some _ => LIdle | None => LWait ex end.

Inductive rl_step (i : nat) (r : xtc_rwlock) : rl_pc -> xtc_rwlock -> rl_pc -> Prop :=
  | ls_rdlock timeout_ns c r' :
      xtc_rwlock_rdlock (Some r) i timeout_ns = (c, Some r') -> rl_step i r LIdle r' (rl_after false c)
  | ls_wrlock timeout_ns c r' :
      xtc_rwlock_wrlock (Some r) i timeout_ns = (c, Some r') -> rl_step i r LIdle r' (rl_after true c)
  | ls_woken ex expired c r' :
      finish ex (rwlock_rewait r i expired (ready ex)) = (c, r') ->
      rl_step i r (LWait ex) r' (rl_after ex c)
  | ls_unlock ex r' :
      xtc_rwlock_unlock (Some r) = (XTC_OK, Some r') -> rl_step i r (LHold ex) r' LIdle.

(** *** The invariant *)

Definition w_hold (ex : bool) (p : rl_pc) : Z :=
  match p with LHold x => if decide (x = ex) then 1 else 0 | _ => 0 end.
Definition w_wait (p : rl_pc) : Z := match p with LWait true => 1 | _ => 0 end.

Record rl_inv (r : xtc_rwlock) (pool : gmap nat rl_pc) : Prop := mk_rl_inv {
  ri_readers : rl_readers r = pool_sum (w_hold false) pool;
  ri_writer : Z.b2z (rl_writer r) = pool_sum (w_hold true) pool;
  ri_apart : rl_writer r = true -> rl_readers r = 0;
  ri_waiting : rl_waiting_writers r = pool_sum w_wait pool;
  ri_asleep : forall i, i ∈ cv_asleep (rl_cv r) -> exists ex, pool !! i = Some (LWait ex) /\ ready ex r = false;
  ri_members : forall i ex, pool !! i = Some (LWait ex) ->
    i ∈ cv_asleep (rl_cv r) \/ i ∈ cv_signalled (rl_cv r);
}.

Lemma w_hold_nonneg ex p : 0 <= w_hold ex p.
Proof. destruct p; simpl; try case_decide; lia. Qed.

Lemma w_wait_nonneg p : 0 <= w_wait p.
Proof. destruct p as [|[]|]; simpl; lia. Qed.

(** A section of client [i]: what it must establish for its own words and for
    the sleepers. *)
Lemma rl_section r r' pool i p p' :
  rl_inv r pool -> pool !! i = Some p ->
  rl_readers r' = rl_readers r - w_hold false p + w_hold false p' ->
  Z.b2z (rl_writer r') = Z.b2z (rl_writer r) - w_hold true p + w_hold true p' ->
  (rl_writer r' = true -> rl_readers r' = 0) ->
  rl_waiting_writers r' = rl_waiting_writers r - w_wait p + w_wait p' ->
  (forall ex, p' = LWait ex -> i ∈ cv_asleep (rl_cv r') /\ ready ex r' = false) ->
  (forall j, j <> i -> j ∈ cv_asleep (rl_cv r') -> j ∈ cv_asleep (rl_cv r)) ->
  (forall j, j <> i -> j ∈ cv_asleep (rl_cv r) \/ j ∈ cv_signalled (rl_cv r) ->
     j ∈ cv_asleep (rl_cv r') \/ j ∈ cv_signalled (rl_cv r')) ->
  (i ∈ cv_asleep (rl_cv r') -> exists ex, p' = LWait ex) ->
  (forall ex j, j <> i -> j ∈ cv_asleep (rl_cv r') -> ready ex r = false -> ready ex r' = false) ->
  rl_inv r' (<[i := p']> pool).
Proof.
  intros [H1 H2 H3 H4 H5 H6] Hp E1 E2 E3 E4 E5 E6 E7 E8 E9.
  constructor; rewrite ?(pool_sum_insert _ _ _ p) by done; try congruence; [done| |].
  - intros j Hj. destruct (decide (j = i)) as [->|Hne].
    + rewrite lookup_insert_eq. destruct (E8 Hj) as [ex ->]. exists ex. split; [done|]. by apply E5.
    + rewrite lookup_insert_ne by done. destruct (H5 j (E6 j Hne Hj)) as (ex & Hj' & Hr).
      exists ex. split; [done|]. eauto.
  - intros j ex. destruct (decide (j = i)) as [->|Hne].
    + rewrite lookup_insert_eq. intros [= ->]. left. by apply (E5 ex).
    + rewrite lookup_insert_ne by done. intros Hj. apply E7; eauto.
Qed.

(** Readiness of others after a section that lets nobody in. *)
Lemma ready_mono ex r r' :
  (rl_writer r = true -> rl_writer r' = true) -> rl_readers r <= rl_readers r' -> 0 <= rl_readers r ->
  0 <= rl_waiting_writers r ->
  (rl_waiting_writers r <= rl_waiting_writers r' \/ rl_writer r' = true) ->
  ready ex r = false -> ready ex r' = false.
Proof.
  intros Hw Hr H0 H1 Hww. destruct ex; simpl; unfold __can_grant_read, __can_grant_write;
    rewrite !andb_false_iff, !negb_false_iff, !bool_decide_eq_false.
  - intros [?|?]; [left; auto|right; lia].
  - intros [?|?]; [left; auto|]. destruct Hww; [right; lia|by left].
Qed.

(** What the wait's section can leave: the lock's words untouched, the caller
    counted as a waiting writer, and it ready, refused or asleep. *)
Inductive waited (i : nat) (ex : bool) (r1 : xtc_rwlock) : option rc * xtc_rwlock -> Prop :=
  | waited_ok : ready ex r1 = true -> waited i ex r1 (Some XTC_OK, r1)
  | waited_again : waited i ex r1 (Some XTC_E_AGAIN, r1)
  | waited_sleep : ready ex r1 = false -> waited i ex r1 (None, with_cv r1 (cv_sleep (rl_cv r1) i)).

Lemma wait_waited r i timeout_ns ex : waited i ex r (__rwlock_wait r i timeout_ns (ready ex)).
Proof.
  unfold __rwlock_wait. case_decide; destruct (ready ex r) eqn:E; by constructor.
Qed.

Lemma rewait_waited r i expired ex :
  waited i ex (with_cv r (cv_run (rl_cv r) i)) (rwlock_rewait r i expired (ready ex)).
Proof.
  unfold rwlock_rewait. destruct expired; [constructor|].
  destruct (ready ex (with_cv r (cv_run (rl_cv r) i))) eqn:E; constructor; done.
Qed.

Definition w_ex (ex : bool) : Z := if ex then 1 else 0.

Lemma lock_end_ok r r1 pool i p ex w c r' :
  rl_inv r pool -> pool !! i = Some p -> p = LIdle \/ p = LWait ex ->
  rl_readers r1 = rl_readers r -> rl_writer r1 = rl_writer r ->
  rl_waiting_writers r1 = rl_waiting_writers r - w_wait p + w_ex ex ->
  (i ∉ cv_asleep (rl_cv r1)) ->
  (forall j, j <> i -> j ∈ cv_asleep (rl_cv r1) <-> j ∈ cv_asleep (rl_cv r)) ->
  (forall j, j <> i -> j ∈ cv_signalled (rl_cv r1) <-> j ∈ cv_signalled (rl_cv r)) ->
  waited i ex r1 w -> finish ex w = (c, r') ->
  rl_inv r' (<[i := rl_after ex c]> pool).
Proof.
  intros Hinv Hp Hpc E1 E2 E3 Hi Ha Hs Hw Hf. pose proof Hinv as [I1 I2 I3 I4 I5 I6].
  assert (0 <= rl_readers r) as P1 by (rewrite I1; apply pool_sum_nonneg, w_hold_nonneg).
  assert (0 <= rl_waiting_writers r) as P2 by (rewrite I4; apply pool_sum_nonneg, w_wait_nonneg).
  assert (w_hold false p = 0 /\ w_hold true p = 0 /\ 0 <= w_wait p <= w_ex ex) as (P3 & P4 & P5)
    by (destruct Hpc as [->| ->]; destruct ex; simpl; lia).
  destruct Hw as [Hr| |Hr].
  - injection Hf as <- <-. apply (rl_section r _ _ _ p); try done.
    + destruct ex; simpl; lia.
    + destruct ex; simpl in *; [|rewrite E2; lia].
      apply andb_true_iff in Hr as [Hr%negb_true_iff _]. rewrite <-E2, Hr. simpl. lia.
    + destruct ex; simpl in *.
      * apply andb_true_iff in Hr as [_ Hr%bool_decide_eq_true]. done.
      * apply andb_true_iff in Hr as [Hr%negb_true_iff _]. congruence.
    + destruct ex; simpl in *; lia.
    + destruct ex; simpl; intros j Hne; by rewrite Ha.
    + destruct ex; simpl; intros j Hne; by rewrite Ha, Hs.
    + by destruct ex.
    + intros x j Hne Hj. apply ready_mono; try done; destruct ex; simpl in *; rewrite ?E1, ?E2; try done; try lia.
  - injection Hf as <- <-. apply (rl_section r _ _ _ p); try done.
    + destruct ex; simpl; lia.
    + destruct ex; simpl; rewrite E2; lia.
    + destruct ex; simpl; rewrite E1, E2; done.
    + destruct ex; simpl in *; lia.
    + destruct ex; simpl; intros j Hne; [set_solver|]. by rewrite Ha.
    + destruct ex; simpl; intros j Hne; [rewrite elem_of_union|]; rewrite Ha, Hs by done; tauto.
    + destruct ex; simpl; [set_solver|done].
    + intros x j Hne Hj. destruct ex; simpl in *; [set_solver|].
      apply ready_mono; rewrite ?E1, ?E2, ?E3; try done; try lia.
  - injection Hf as <- <-. simpl rl_after. apply (rl_section r _ _ _ p); simpl; try done.
    + lia.
    + rewrite E2. lia.
    + by rewrite E1, E2.
    + intros x [= <-]. split; [set_solver|]. by destruct ex.
    + intros j Hne Hj. apply Ha; [done|]. set_solver.
    + intros j Hne. rewrite elem_of_union, elem_of_difference, not_elem_of_singleton, Ha, Hs by done. tauto.
    + eauto.
    + intros x j Hne Hj. apply ready_mono; simpl; rewrite ?E1, ?E2, ?E3; try done; lia.
Qed.

Lemma idle_not_asleep r pool i :
  rl_inv r pool -> pool !! i = Some LIdle -> i ∉ cv_asleep (rl_cv r).
Proof. intros Hinv Hp Hin. destruct (ri_asleep _ _ Hinv i Hin) as (ex & E & _). by simplify_eq. Qed.

Lemma rl_unlock_ok r pool i ex r' :
  rl_inv r pool -> pool !! i = Some (LHold ex) -> xtc_rwlock_unlock (Some r) = (XTC_OK, Some r') ->
  rl_inv r' (<[i := LIdle]> pool).
Proof.
  intros Hinv Hp [= <-]. pose proof Hinv as [I1 I2 I3 I4 I5 I6].
  pose proof (pool_sum_ge (w_hold ex) pool i (LHold ex) (w_hold_nonneg ex) Hp) as Hge.
  simpl in Hge. rewrite decide_True in Hge by done.
  set (r1 := if rl_writer r then _ else _).
  assert (rl_readers r1 = rl_readers r - w_hold false (LHold ex) /\
          Z.b2z (rl_writer r1) = Z.b2z (rl_writer r) - w_hold true (LHold ex) /\
          rl_writer r1 = false /\ rl_waiting_writers r1 = rl_waiting_writers r /\ rl_cv r1 = rl_cv r)
    as (E1 & E2 & E3 & E4 & E5).
  { unfold r1. destruct ex; simpl in *.
    - destruct (rl_writer r); simpl in *; [split_and!; try done; lia|lia].
    - destruct (rl_writer r) eqn:Ew; [specialize (I3 eq_refl); lia|].
      rewrite decide_True by lia. simpl. split_and!; try done; lia. }
  apply (rl_section r _ _ _ (LHold ex)); simpl; try done; rewrite ?E1, ?E2, ?E3, ?E4, ?E5; try lia; try done.
  - simpl. lia.
  - simpl. lia.
  - intros j _. set_solver.
Qed.

Lemma rl_inv_step r pool i p r' p' :
  rl_inv r pool -> pool !! i = Some p -> rl_step i r p r' p' -> rl_inv r' (<[i := p']> pool).
Proof.
  intros Hinv Hp Hst. destruct Hst as [tmo c r' E|tmo c r' E|ex expired c r' E|ex r' E].
  - unfold xtc_rwlock_rdlock in E. destruct (finish _ _) as [c1 r1] eqn:Ef. injection E as <- <-.
    pose proof (idle_not_asleep _ _ _ Hinv Hp).
    eapply (lock_end_ok r r _ _ LIdle false); try done; [by left|simpl; lia|].
    apply (wait_waited r i tmo false).
  - unfold xtc_rwlock_wrlock in E. destruct (finish _ _) as [c1 r1] eqn:Ef. injection E as <- <-.
    pose proof (idle_not_asleep _ _ _ Hinv Hp).
    eapply (lock_end_ok r (mk_rwl (rl_readers r) (rl_writer r) (rl_waiting_writers r + 1) (rl_cv r)) _ _ LIdle true);
      try done; [by left|simpl; lia|]. apply (wait_waited _ i tmo true).
  - eapply (lock_end_ok r (with_cv r (cv_run (rl_cv r) i)) _ _ (LWait ex) ex); try done; simpl.
    + by right.
    + destruct ex; simpl; lia.
    + set_solver.
    + set_solver.
    + set_solver.
    + apply rewait_waited.
  - by apply (rl_unlock_ok r _ _ ex).
Qed.

Definition rl_start (k : nat) : config := (rwl_new, idle_pool LIdle k).

Lemma rl_run_inv k r pool : reachable rl_step (rl_start k) (r, pool) -> rl_inv r pool.
Proof.
  intros Hr. apply (pool_invariant rl_step rl_inv _ _) in Hr; [done| |].
  { intros r1 pool1 i p r2 p2. apply rl_inv_step. }
  pose proof (idle_pool_Forall LIdle k (fun _ p => p = LIdle) ltac:(done)) as Hidle.
  constructor; simpl; try done;
    try (symmetry; apply pool_sum_zero; intros i p Hi; by rewrite (Hidle _ _ Hi)).
  intros i ex Hi. by specialize (Hidle _ _ Hi).
Qed.

(** Readers and writers of the thread lock exclude each other and nobody
    sleeps who could enter.  For any number of threads, with or without
    timeouts, in any interleaving: a writer is alone; a thread that waits
    either has its wake-up pending, or its condition is false: a reader
    waits only while a writer holds or waits (writer priority), a writer
    only while somebody holds. *)
Theorem rwlock_exclusion k r pool :
  reachable rl_step (rl_start k) (r, pool) ->
  (forall i j ex, pool !! i = Some (LHold true) -> pool !! j = Some (LHold ex) -> j = i) /\
  (forall i ex, pool !! i = Some (LWait ex) -> i ∉ cv_signalled (rl_cv r) ->
     exists j, pool !! j = Some (LHold true) \/
       (if ex then pool !! j = Some (LHold false) else pool !! j = Some (LWait true))).
Proof.
  intros Hr. pose proof (rl_run_inv _ _ _ Hr) as [I1 I2 I3 I4 I5 I6].
  assert (forall ex, 0 < pool_sum (w_hold ex) pool -> exists j, pool !! j = Some (LHold ex)) as Hex.
  { intros ex (j & p & Hj & Hw)%pool_sum_pos. exists j. destruct p; try done. simpl in Hw.
    by destruct (decide (ex0 = ex)) as [->|]. }
  split.
  - intros i j ex Hi Hj. destruct (decide (j = i)) as [->|Hne]; [done|]. destruct ex.
    + pose proof (pool_sum_two (w_hold true) pool j i _ _ (w_hold_nonneg true) Hne Hj Hi) as H2.
      simpl in H2. destruct (rl_writer r); simpl in I2; lia.
    + pose proof (pool_sum_ge (w_hold true) pool i _ (w_hold_nonneg true) Hi) as H1.
      pose proof (pool_sum_ge (w_hold false) pool j _ (w_hold_nonneg false) Hj) as H2.
      simpl in H1, H2.
      destruct (rl_writer r); [specialize (I3 eq_refl)|simpl in I2]; lia.
  - intros i ex Hi Hns. destruct (I6 i ex Hi) as [Ha|?]; [|done].
    destruct (I5 i Ha) as (x & Hx & Hr'). simplify_eq. destruct (rl_writer r) eqn:Ew.
    { destruct (Hex true) as [j Hj]; [simpl in I2; lia|]. exists j. by left. }
    destruct ex; simpl in Hr'; unfold __can_grant_read, __can_grant_write in Hr'; rewrite Ew in Hr';
      simpl in Hr'; apply bool_decide_eq_false in Hr'.
    + destruct (Hex false) as [j Hj]; [|exists j; by right].
      pose proof (pool_sum_nonneg (w_hold false) pool (w_hold_nonneg false)). lia.
    + destruct (pool_sum_pos w_wait pool) as (j & p & Hj & Hw).
      { pose proof (pool_sum_nonneg w_wait pool w_wait_nonneg). lia. }
      exists j. right. by destruct p as [|[]|].
Qed.

(** Reader 0 holds, writer 1 waits, reader 2 waits behind it. *)
Lemma rwlock_exclusion_witness :
  exists r pool, reachable rl_step (rl_start 3) (r, pool) /\ pool !! 2%nat = Some (LWait false) /\
    exists j, pool !! j = Some (LHold true) \/ pool !! j = Some (LWait true).
Proof.
  assert (exists r (pool : gmap nat rl_pc), reachable rl_step (rl_start 3) (r, pool) /\ pool !! 2%nat = Some (LWait false) /\
    cv_signalled (rl_cv r) = ∅) as (r & pool & Hr & Hp & Hs).
  { eexists _, _. split.
    - unfold reachable, rl_start. pool_norm.
      pool_run 0%nat by (apply (ls_rdlock _ _ (-1) (Some XTC_OK)); reflexivity).
      pool_run 1%nat by (apply (ls_wrlock _ _ (-1) None); reflexivity).
      pool_run 2%nat by (apply (ls_rdlock _ _ (-1) None); reflexivity).
      apply rtc_refl.
    - split; reflexivity. }
  exists r, pool. split_and!; [exact Hr|exact Hp|].
  apply (proj2 (rwlock_exclusion 3 r pool Hr) 2%nat false Hp). rewrite Hs. apply not_elem_of_empty.
Defined.
End RwLock.

(** ** barrier *)

Module Barrier.

Record xtc_barrier := mk_barrier {
  ba_target : Z;
  ba_arrived : Z;
  ba_generation : Z;
  ba_wq : fw_queue unit;
  ba_woken : gset nat;
  ba_cv : condvar;
}.

Definition ba_new (n : Z) : xtc_barrier := mk_barrier n 0 0 [] ∅ cv_empty.

Definition xtc_barrier_create (n : Z) (out : bool) (alloc : rc) : rc * option xtc_barrier :=
  if negb out || bool_decide (n = 0) then (XTC_E_INVAL, None)
  else match alloc with XTC_OK => (XTC_OK, Some (ba_new n)) | e => (e, None) end.

Definition ba_set (b : xtc_barrier) (q : fw_queue unit) (woken : gset nat) (c : condvar) : xtc_barrier :=
  mk_barrier (ba_target b) (ba_arrived b) (ba_generation b) q woken c.

(** One turn of fiber [i]'s loop. *)
Definition barrier_fiber_turn (b : xtc_barrier) (i : nat) (gen : Z) (kill : bool) : turn * xtc_barrier :=
  let b := ba_set b (ba_wq b) (ba_woken b ∖ {[i]}) (ba_cv b) in
  if decide (gen = ba_generation b) then
    if kill then (TKill, ba_set b (fw_remove (ba_wq b) i) (ba_woken b) (ba_cv b))
    else (TPark, ba_set b (fw_enqueue (ba_wq b) i tt) (ba_woken b) (ba_cv b))
  else (TReturn XTC_OK, ba_set b (fw_remove (ba_wq b) i) (ba_woken b) (ba_cv b)).

(** Thread [i] with the mutex, at its loop's test. *)
Definition barrier_thread_turn (b : xtc_barrier) (i : nat) (gen : Z) : turn * xtc_barrier :=
  let b := ba_set b (ba_wq b) (ba_woken b) (cv_run (ba_cv b) i) in
  if decide (gen = ba_generation b)
  then (TSleep, ba_set b (ba_wq b) (ba_woken b) (cv_sleep (ba_cv b) i))
  else (TReturn XTC_OK, b).

(** [xtc_barrier_wait] up to its first park, with the generation it saw. *)
Definition xtc_barrier_wait (b : option xtc_barrier) (i : nat) (fiber kill : bool)
  : turn * Z * option xtc_barrier :=
  match b with
  | None => (TReturn XTC_E_INVAL, 0, None)
  | Some b =>
      let gen := ba_generation b in
      let arrived := u32 (ba_arrived b + 1) in
      if decide (arrived = ba_target b) then
        (TReturn XTC_OK, gen,
         Some (mk_barrier (ba_target b) 0 (u32 (gen + 1)) (ba_wq b)
                 (fw_wake_all (ba_wq b) (ba_woken b)) (cv_broadcast (ba_cv b))))
      else
        let b := mk_barrier (ba_target b) arrived gen (ba_wq b) (ba_woken b) (ba_cv b) in
        let '(t, b') := if fiber then barrier_fiber_turn b i gen kill else barrier_thread_turn b i gen in
        (t, gen, Some b')
  end.

(** Every waiting party keeps the generation it saw; [BDone gen]: its wait
    returned. *)
Inductive ba_pc : Type :=
  | BIdle
  | BLoop (gen : Z) (checked : bool)
  | BKill (gen : Z)
  | BSleep (gen : Z)
  | BDone (gen : Z)
  | BDead.

Definition ba_after (t : turn) (gen : Z) (checked : bool) : ba_pc :=
  match t with
  | TReturn _ => BDone gen
  | TPark => BLoop gen checked
  | TSleep => BSleep gen
  | TKill => BKill gen
  end.

(** The barrier with the arrivals and the completed rounds so far. *)
Record ba_world := mk_bw { bw_bar : xtc_barrier; bw_arrivals : Z; bw_rounds : Z }.

Inductive ba_step (i : nat) (w : ba_world) : ba_pc -> ba_world -> ba_pc -> Prop :=
  | bs_wait fiber kill t gen b' :
      xtc_barrier_wait (Some (bw_bar w)) i fiber kill = (t, gen, Some b') ->
      ba_step i w BIdle
        (mk_bw b' (bw_arrivals w + 1)
           (bw_rounds w + (if decide (u32 (ba_arrived (bw_bar w) + 1) = ba_target (bw_bar w)) then 1 else 0)))
        (ba_after t gen true)
  | bs_fiber gen checked kill t b' :
      (kill = true -> checked = true) ->
      barrier_fiber_turn (bw_bar w) i gen kill = (t, b') ->
      ba_step i w (BLoop gen checked) (mk_bw b' (bw_arrivals w) (bw_rounds w)) (ba_after t gen checked)
  | bs_dead gen : ba_step i w (BKill gen) w BDead
  | bs_deferred gen : ba_step i w (BKill gen) w (BLoop gen false)
  | bs_thread gen t b' :
      barrier_thread_turn (bw_bar w) i gen = (t, b') ->
      ba_step i w (BSleep gen) (mk_bw b' (bw_arrivals w) (bw_rounds w)) (ba_after t gen true)
  | bs_again gen : ba_step i w (BDone gen) w BIdle.

(** *** The invariant *)

(** What holds of each party: it waits for a round not past the current one,
    and if its round is over, its wake is pending. *)
Definition party_ok (b : xtc_barrier) (rounds : Z) (i : nat) (p : ba_pc) : Prop :=
  match p with
  | BIdle | BDead => fw_queued (ba_wq b) i = false /\ (i ∉ cv_asleep (ba_cv b))
  | BKill gen => fw_queued (ba_wq b) i = false /\ (i ∉ cv_asleep (ba_cv b)) /\ gen <= rounds
  | BDone gen => fw_queued (ba_wq b) i = false /\ (i ∉ cv_asleep (ba_cv b)) /\ gen < rounds
  | BLoop gen checked =>
      (i ∉ cv_asleep (ba_cv b)) /\ gen <= rounds /\
      (gen < rounds -> fw_queued (ba_wq b) i = true -> i ∈ ba_woken b) /\
      (checked = true -> fw_queued (ba_wq b) i = true)
  | BSleep gen =>
      fw_queued (ba_wq b) i = false /\ gen <= rounds /\
      (i ∈ cv_asleep (ba_cv b) \/ i ∈ cv_signalled (ba_cv b)) /\
      (gen < rounds -> i ∉ cv_asleep (ba_cv b))
  end.

Record ba_inv (n : Z) (w : ba_world) (pool : gmap nat ba_pc) : Prop := mk_ba_inv {
  bi_target : ba_target (bw_bar w) = n;
  bi_rounds : 0 <= bw_rounds w;
  bi_gen : ba_generation (bw_bar w) = bw_rounds w;
  bi_arrived : 0 <= ba_arrived (bw_bar w) < n;
  bi_total : bw_arrivals w = n * bw_rounds w + ba_arrived (bw_bar w);
  bi_nodup : NoDup (ba_wq (bw_bar w)).*1;
  bi_parties : map_Forall (party_ok (bw_bar w) (bw_rounds w)) pool;
  bi_absent : forall i, pool !! i = None -> fw_queued (ba_wq (bw_bar w)) i = false /\ (i ∉ cv_asleep (ba_cv (bw_bar w)));
}.

(** Another party is untouched by a section of [i] that only relinks [i] or
    puts it to sleep, or that wakes everybody. *)
Record ba_local (b b' : xtc_barrier) (i : nat) : Prop := mk_ba_local {
  bl_queue : forall j, j <> i -> fw_queued (ba_wq b') j = fw_queued (ba_wq b) j;
  bl_woken : forall j, j <> i -> j ∈ ba_woken b -> j ∈ ba_woken b';
  bl_asleep : forall j, j <> i -> j ∈ cv_asleep (ba_cv b') -> j ∈ cv_asleep (ba_cv b);
  bl_members : forall j, j <> i -> j ∈ cv_asleep (ba_cv b) \/ j ∈ cv_signalled (ba_cv b) ->
    j ∈ cv_asleep (ba_cv b') \/ j ∈ cv_signalled (ba_cv b');
}.

Lemma party_local b b' i rounds j p :
  ba_local b b' i -> j <> i -> party_ok b rounds j p -> party_ok b' rounds j p.
Proof.
  intros [L1 L2 L3 L4] Hne. specialize (L1 j Hne). specialize (L2 j Hne). specialize (L3 j Hne).
  specialize (L4 j Hne). destruct p; simpl; rewrite ?L1; intuition auto.
Qed.

(** The last arrival: everybody's round is over and everybody is woken. *)
Lemma party_release b rounds j p c w :
  party_ok b rounds j p ->
  c = cv_broadcast (ba_cv b) -> w = fw_wake_all (ba_wq b) (ba_woken b) ->
  party_ok (mk_barrier (ba_target b) 0 (u32 (ba_generation b + 1)) (ba_wq b) w c) (rounds + 1) j p.
Proof.
  intros Hp -> ->. destruct p; simpl in *.
  - intuition set_solver.
  - destruct Hp as (H1 & H2 & H3 & H4). split_and!; [set_solver|lia| |done].
    intros _ Hq. apply fw_wake_all_elem. by left.
  - intuition (lia || set_solver).
  - destruct Hp as (H1 & H2 & H3 & H4). split_and!; [done|lia|set_solver|set_solver].
  - intuition (lia || set_solver).
  - intuition set_solver.
Qed.

Lemma ba_fiber_local b i gen kill t b' : barrier_fiber_turn b i gen kill = (t, b') -> ba_local b b' i.
Proof.
  unfold barrier_fiber_turn. intros E. destruct (decide _); [destruct kill|]; injection E as <- <-;
    constructor; simpl; intros j Hne; rewrite ?fw_queued_remove, ?fw_queued_enqueue, ?decide_False by done;
    try done; set_solver.
Qed.

Lemma ba_thread_local b i gen t b' : barrier_thread_turn b i gen = (t, b') -> ba_local b b' i.
Proof.
  unfold barrier_thread_turn. intros E. destruct (decide _); injection E as <- <-;
    constructor; simpl; intros j Hne; try done; set_solver.
Qed.

(** The party's own state after its turn. *)
Lemma ba_fiber_party b i gen kill checked rounds t b' :
  ba_generation b = rounds -> gen <= rounds -> (i ∉ cv_asleep (ba_cv b)) ->
  barrier_fiber_turn b i gen kill = (t, b') -> party_ok b' rounds i (ba_after t gen checked).
Proof.
  intros Hg Hle Ha. unfold barrier_fiber_turn. intros E. simpl ba_generation in E. rewrite Hg in E.
  destruct (decide (gen = rounds)) as [->|Hne]; [destruct kill|]; injection E as <- <-; simpl;
    rewrite ?fw_queued_remove, ?fw_queued_enqueue, ?decide_True by done; split_and!; try done; try lia.
Qed.

Lemma ba_thread_party b i gen rounds t b' :
  ba_generation b = rounds -> gen <= rounds -> fw_queued (ba_wq b) i = false ->
  barrier_thread_turn b i gen = (t, b') -> party_ok b' rounds i (ba_after t gen true).
Proof.
  intros Hg Hle Hq. unfold barrier_thread_turn. intros E. simpl ba_generation in E. rewrite Hg in E.
  destruct (decide (gen = rounds)) as [->|Hne]; injection E as <- <-; simpl;
    split_and!; try done; try lia; set_solver.
Qed.

Lemma ba_fiber_kept b i gen kill t b' :
  NoDup (ba_wq b).*1 -> barrier_fiber_turn b i gen kill = (t, b') ->
  NoDup (ba_wq b').*1 /\ ba_target b' = ba_target b /\ ba_arrived b' = ba_arrived b /\
  ba_generation b' = ba_generation b.
Proof.
  intros Hnd E. unfold barrier_fiber_turn in E. destruct (decide _); [destruct kill|]; injection E as <- <-;
    split_and!; try done; simpl; by (apply fw_remove_NoDup || apply fw_enqueue_NoDup).
Qed.

Lemma ba_thread_kept b i gen t b' :
  barrier_thread_turn b i gen = (t, b') ->
  ba_wq b' = ba_wq b /\ ba_target b' = ba_target b /\ ba_arrived b' = ba_arrived b /\
  ba_generation b' = ba_generation b.
Proof. intros E. unfold barrier_thread_turn in E. destruct (decide _); by injection E as <- <-. Qed.

(** A section of party [i] that completes no round. *)
Lemma ba_section n w pool i p p' b' arrivals :
  ba_inv n w pool -> pool !! i = Some p -> ba_local (bw_bar w) b' i ->
  NoDup (ba_wq b').*1 -> ba_target b' = n -> ba_generation b' = bw_rounds w ->
  0 <= ba_arrived b' < n -> arrivals = n * bw_rounds w + ba_arrived b' ->
  party_ok b' (bw_rounds w) i p' ->
  ba_inv n (mk_bw b' arrivals (bw_rounds w)) (<[i := p']> pool).
Proof.
  intros [H1 H2 H3 H4 H5 H6 H7 H8] Hp Hl Hnd E1 E2 E3 E4 Hok. constructor; simpl; try done.
  - apply (map_Forall_pool_update (party_ok (bw_bar w) (bw_rounds w))); [done| |done].
    intros j q Hne _. by apply (party_local _ _ i).
  - intros j Hj. assert (j <> i) as Hne by (intros ->; by rewrite lookup_insert_eq in Hj).
    rewrite lookup_insert_ne in Hj by done. destruct (H8 j Hj) as [Hq Ha].
    rewrite (bl_queue _ _ _ Hl) by done. split; [done|]. intros Hin. by apply Ha, (bl_asleep _ _ _ Hl).
Qed.

Lemma ba_inv_step n w pool i p w' p' :
  1 <= n < 2 ^ 32 -> ba_inv n w pool -> pool !! i = Some p -> ba_step i w p w' p' ->
  bw_rounds w' < 2 ^ 32 -> ba_inv n w' (<[i := p']> pool).
Proof.
  intros Hn Hinv Hp Hst Hb. pose proof Hinv as [H1 H2 H3 H4 H5 H6 H7 H8].
  pose proof (H7 i p Hp) as Hi. destruct w as [b arr rounds]. simpl in *.
  destruct Hst as [fiber kill t gen b' E|gen checked kill t b' Hk E|gen|gen|gen t b' E|gen]; simpl in *.
  - unfold xtc_barrier_wait in E. rewrite (uwrap_small 32 (ba_arrived b + 1)) in * by lia.
    destruct (decide (ba_arrived b + 1 = ba_target b)) as [El|El].
    + injection E as <- <- <-. simpl ba_after. rewrite (uwrap_small 32) by lia.
      constructor; simpl; try done; try lia.
      * apply (map_Forall_pool_update (party_ok b rounds)); [done| |].
        -- intros j q _ _ Hq. pose proof (party_release b rounds j q _ _ Hq eq_refl eq_refl) as Hr.
           by rewrite (uwrap_small 32) in Hr by lia.
        -- simpl. destruct Hi. split_and!; [done|set_solver|lia].
      * intros j Hj. assert (j <> i) as Hne by (intros ->; by rewrite lookup_insert_eq in Hj).
        rewrite lookup_insert_ne in Hj by done. destruct (H8 j Hj). split; [done|set_solver].
    + set (b1 := mk_barrier (ba_target b) (ba_arrived b + 1) (ba_generation b) (ba_wq b) (ba_woken b) (ba_cv b)) in E.
      rewrite Z.add_0_r. destruct Hi as [Hq Ha]. destruct fiber.
      * destruct (barrier_fiber_turn b1 i (ba_generation b) kill) as [t1 b2] eqn:Et. injection E as <- <- <-.
        destruct (ba_fiber_kept b1 _ _ _ _ _ H6 Et) as (K1 & K2 & K3 & K4).
        pose proof (ba_fiber_local _ _ _ _ _ _ Et) as [L1 L2 L3 L4].
        apply (ba_section n (mk_bw b arr rounds) _ _ BIdle); try done; simpl; rewrite ?K2, ?K3, ?K4; simpl; try done; try lia.
        apply (ba_fiber_party b1 i _ kill); try done. simpl. lia.
      * destruct (barrier_thread_turn b1 i (ba_generation b)) as [t1 b2] eqn:Et. injection E as <- <- <-.
        destruct (ba_thread_kept _ _ _ _ _ Et) as (K1 & K2 & K3 & K4).
        pose proof (ba_thread_local _ _ _ _ _ Et) as [L1 L2 L3 L4].
        apply (ba_section n (mk_bw b arr rounds) _ _ BIdle); try done; simpl; rewrite ?K1, ?K2, ?K3, ?K4; simpl; try done; try lia.
        apply (ba_thread_party b1 i); try done. simpl. lia.
  - destruct Hi as (Ha & Hle & _). destruct (ba_fiber_kept _ _ _ _ _ _ H6 E) as (K1 & K2 & K3 & K4).
    apply (ba_section n (mk_bw b arr rounds) _ _ (BLoop gen checked)); try done; simpl; rewrite ?K2, ?K3, ?K4; try done.
    + by apply (ba_fiber_local _ _ gen kill t).
    + by apply (ba_fiber_party b i gen kill).
  - apply (ba_section n (mk_bw b arr rounds) _ _ (BKill gen)); try done. simpl. tauto.
  - apply (ba_section n (mk_bw b arr rounds) _ _ (BKill gen)); try done. simpl.
    destruct Hi as (Hq & Ha & Hle). rewrite Hq. split_and!; try done.
  - destruct Hi as (Hq & Hle & _). destruct (ba_thread_kept _ _ _ _ _ E) as (K1 & K2 & K3 & K4).
    apply (ba_section n (mk_bw b arr rounds) _ _ (BSleep gen)); try done; simpl; rewrite ?K1, ?K2, ?K3, ?K4; try done.
    + by apply (ba_thread_local _ _ gen t).
    + by apply (ba_thread_party b i gen).
  - apply (ba_section n (mk_bw b arr rounds) _ _ (BDone gen)); try done. simpl. tauto.
Qed.

Definition ba_start (n : Z) (k : nat) : config := (mk_bw (ba_new n) 0 0, idle_pool BIdle k).

Lemma ba_rounds_mono i w p w' p' : ba_step i w p w' p' -> bw_rounds w <= bw_rounds w'.
Proof. intros []; simpl; try case_decide; lia. Qed.

Lemma ba_run_inv n k w pool :
  1 <= n < 2 ^ 32 -> reachable ba_step (ba_start n k) (w, pool) -> bw_rounds w < 2 ^ 32 -> ba_inv n w pool.
Proof.
  intros Hn Hr.
  refine (pool_invariant ba_step (fun w pool => bw_rounds w < 2 ^ 32 -> ba_inv n w pool) _ (w, pool) _ _ Hr).
  - intros w1 pool1 i p w2 p2 Hinv Hp Hst Hb. pose proof (ba_rounds_mono _ _ _ _ _ Hst).
    apply (ba_inv_step n w1 _ _ p); try done. apply Hinv. lia.
  - intros _. constructor; simpl; try done; try lia; [apply NoDup_nil_2|].
    apply idle_pool_Forall. intros i. simpl. split; [done|set_solver].
Qed.

(** A barrier for [n] parties releases them by rounds of exactly [n].  For
    any number of fibers and threads in any interleaving (fewer than 2^32
    rounds), killed parties' arrivals standing: the arrivals are [n] for
    each completed round plus those of the current one, fewer than [n]; a
    wait returns only after its round is complete; and a party whose round
    is complete is not left behind: a fiber has its wake pending, a thread
    has been signalled. *)
Theorem barrier_rounds n k w pool :
  1 <= n < 2 ^ 32 -> reachable ba_step (ba_start n k) (w, pool) -> bw_rounds w < 2 ^ 32 ->
  bw_arrivals w = n * bw_rounds w + ba_arrived (bw_bar w) /\ 0 <= ba_arrived (bw_bar w) < n /\
  (forall i gen, pool !! i = Some (BDone gen) -> gen < bw_rounds w) /\
  (forall i gen, pool !! i = Some (BLoop gen true) -> gen < bw_rounds w -> i ∈ ba_woken (bw_bar w)) /\
  (forall i gen, pool !! i = Some (BSleep gen) -> gen < bw_rounds w -> i ∈ cv_signalled (ba_cv (bw_bar w))).
Proof.
  intros Hn Hr Hb. destruct (ba_run_inv _ _ _ _ Hn Hr Hb) as [H1 H2 H3 H4 H5 H6 H7 H8].
  split_and!; try done; try lia.
  - intros i gen Hi. apply H7 in Hi as (_ & _ & ?). done.
  - intros i gen Hi Hlt. apply H7 in Hi as (_ & _ & Hw & Hq). auto.
  - intros i gen Hi Hlt. apply H7 in Hi as (_ & _ & Hm & Hn'). specialize (Hn' Hlt). tauto.
Qed.

(** Fiber 0 and thread 1 wait, 2 completes the round of three. *)
Lemma barrier_rounds_witness :
  exists w pool, reachable ba_step (ba_start 3 3) (w, pool) /\ bw_rounds w = 1 /\
    0%nat ∈ ba_woken (bw_bar w) /\ 1%nat ∈ cv_signalled (ba_cv (bw_bar w)).
Proof.
  assert (exists w (pool : gmap nat ba_pc), reachable ba_step (ba_start 3 3) (w, pool) /\ bw_rounds w = 1 /\
    pool !! 0%nat = Some (BLoop 0 true) /\ pool !! 1%nat = Some (BSleep 0)) as (w & pool & Hr & Ew & H0 & H1).
  { eexists _, _. split.
    - unfold reachable, ba_start. pool_norm.
      pool_run 0%nat by (apply (bs_wait _ _ true false TPark 0); reflexivity).
      pool_run 1%nat by (apply (bs_wait _ _ false false TSleep 0); reflexivity).
      pool_run 2%nat by (apply (bs_wait _ _ false false (TReturn XTC_OK) 0); reflexivity).
      apply rtc_refl.
    - split_and!; reflexivity. }
  exists w, pool.
  destruct (barrier_rounds 3 3 w pool ltac:(lia) Hr ltac:(rewrite Ew; lia)) as (_ & _ & _ & B1 & B2).
  split_and!; [exact Hr|exact Ew|apply (B1 _ 0 H0); rewrite Ew; lia|apply (B2 _ 0 H1); rewrite Ew; lia].
Defined.
End Barrier.

(** ** gate *)

Module Gate.

Record xtc_gate := mk_gate {
  ga_count : Z;
  ga_closed : bool;
  ga_wq : fw_queue unit;
  ga_woken : gset nat;
  ga_cv : condvar;
}.

Definition ga_new : xtc_gate := mk_gate 0 false [] ∅ cv_empty.

Definition xtc_gate_create (out : bool) (alloc : rc) : rc * option xtc_gate :=
  if out then match alloc with XTC_OK => (XTC_OK, Some ga_new) | e => (e, None) end
  else (XTC_E_INVAL, None).

Definition xtc_gate_enter (g : option xtc_gate) : rc * option xtc_gate :=
  match g with
  | None => (XTC_E_INVAL, None)
  | Some g =>
      if ga_closed g then (XTC_E_INVAL, Some g)
      else (XTC_OK, Some (mk_gate (ga_count g + 1) (ga_closed g) (ga_wq g) (ga_woken g) (ga_cv g)))
  end.

Definition wake_drainers (g : xtc_gate) : xtc_gate :=
  mk_gate (ga_count g) (ga_closed g) (ga_wq g) (fw_wake_all (ga_wq g) (ga_woken g)) (cv_broadcast (ga_cv g)).

Definition xtc_gate_leave (g : option xtc_gate) : rc * option xtc_gate :=
  match g with
  | None => (XTC_E_INVAL, None)
  | Some g =>
      let g := if decide (0 < ga_count g)
               then mk_gate (ga_count g - 1) (ga_closed g) (ga_wq g) (ga_woken g) (ga_cv g) else g in
      (XTC_OK, Some (if decide (ga_count g = 0) then wake_drainers g else g))
  end.

Definition xtc_gate_close (g : option xtc_gate) : rc * option xtc_gate :=
  match g with
  | None => (XTC_E_INVAL, None)
  | Some g =>
      (XTC_OK, Some (mk_gate (ga_count g) true (ga_wq g)
         (if decide (ga_count g = 0) then fw_wake_all (ga_wq g) (ga_woken g) else ga_woken g)
         (cv_broadcast (ga_cv g))))
  end.

Definition ga_set (g : xtc_gate) (q : fw_queue unit) (woken : gset nat) (c : condvar) : xtc_gate :=
  mk_gate (ga_count g) (ga_closed g) q woken c.

(** One turn of fiber [i]'s loop. *)
Definition gate_fiber_turn (g : xtc_gate) (i : nat) (kill expired : bool) : turn * xtc_gate :=
  let g := ga_set g (ga_wq g) (ga_woken g ∖ {[i]}) (ga_cv g) in
  let out := ga_set g (fw_remove (ga_wq g) i) (ga_woken g) (ga_cv g) in
  if kill then (TKill, out)
  else if decide (ga_count g = 0) then (TReturn XTC_OK, out)
  else if expired then (TReturn XTC_E_AGAIN, out)
  else (TPark, ga_set g (fw_enqueue (ga_wq g) i tt) (ga_woken g) (ga_cv g)).

(** Thread [i] back from a wait; a timed-out one does not look again. *)
Definition gate_thread_turn (g : xtc_gate) (i : nat) (expired : bool) : turn * xtc_gate :=
  let g := ga_set g (ga_wq g) (ga_woken g) (cv_run (ga_cv g) i) in
  if expired then (TReturn XTC_E_AGAIN, g)
  else if decide (0 < ga_count g) then (TSleep, ga_set g (ga_wq g) (ga_woken g) (cv_sleep (ga_cv g) i))
  else (TReturn XTC_OK, g).

(** [xtc_gate_drain] up to its first park. *)
Definition xtc_gate_drain (g : option xtc_gate) (i : nat) (timeout_ns : Z) (fiber kill expired : bool)
  : turn * option xtc_gate :=
  match g with
  | None => (TReturn XTC_E_INVAL, None)
  | Some g =>
      if decide (ga_count g = 0) then (TReturn XTC_OK, Some g)
      else if decide (timeout_ns = 0) then (TReturn XTC_E_AGAIN, Some g)
      else if fiber then let '(t, g') := gate_fiber_turn g i kill expired in (t, Some g')
      else (* the thread's loop tests before it waits *)
        if decide (0 < ga_count g) then (TSleep, Some (ga_set g (ga_wq g) (ga_woken g) (cv_sleep (ga_cv g) i)))
        else (TReturn XTC_OK, Some g)
  end.

Definition xtc_gate_count (g : option xtc_gate) : Z := match g with None => 0 | Some g => ga_count g end.

(** [GIn]: entered and not left yet. *)
Inductive ga_pc : Type := GOut | GIn | GLoop (checked : bool) | GKill | GSleep | GDead.

Definition ga_after (t : turn) (checked : bool) : ga_pc :=
  match t with TReturn _ => GOut | TPark => GLoop checked | TSleep => GSleep | TKill => GKill end.

(** One critical section of a drain, from the program point it runs at. *)
Inductive drain_section (i : nat) (g : xtc_gate) : ga_pc -> bool -> turn -> xtc_gate -> Prop :=
  | ds_start timeout_ns fiber kill expired t g' :
      xtc_gate_drain (Some g) i timeout_ns fiber kill expired = (t, Some g') ->
      drain_section i g GOut true t g'
  | ds_fiber checked kill expired t g' :
      (kill = true -> checked = true) ->
      gate_fiber_turn g i kill expired = (t, g') -> drain_section i g (GLoop checked) checked t g'
  | ds_thread expired t g' :
      gate_thread_turn g i expired = (t, g') -> drain_section i g GSleep true t g'.

Inductive ga_step (i : nat) (g : xtc_gate) : ga_pc -> xtc_gate -> ga_pc -> Prop :=
  | gs_enter c g' : xtc_gate_enter (Some g) = (c, Some g') ->
      ga_step i g GOut g' (match c with XTC_OK => GIn | _ => GOut end)
  | gs_leave g' : xtc_gate_leave (Some g) = (XTC_OK, Some g') -> ga_step i g GIn g' GOut
  | gs_close g' : xtc_gate_close (Some g) = (XTC_OK, Some g') -> ga_step i g GOut g' GOut
  | gs_drain p checked t g' : drain_section i g p checked t g' -> ga_step i g p g' (ga_after t checked)
  | gs_dead : ga_step i g GKill g GDead
  | gs_deferred : ga_step i g GKill g (GLoop false).

(** *** The invariant *)

Definition w_in (p : ga_pc) : Z := match p with GIn => 1 | _ => 0 end.

(** A drainer at a gate that is empty has its wake pending. *)
Definition drainer_ok (g : xtc_gate) (i : nat) (p : ga_pc) : Prop :=
  match p with
  | GLoop checked =>
      (i ∉ cv_asleep (ga_cv g)) /\
      (ga_count g = 0 -> fw_queued (ga_wq g) i = true -> i ∈ ga_woken g) /\
      (checked = true -> fw_queued (ga_wq g) i = true)
  | GSleep =>
      fw_queued (ga_wq g) i = false /\
      (i ∈ cv_asleep (ga_cv g) \/ i ∈ cv_signalled (ga_cv g)) /\
      (ga_count g = 0 -> i ∉ cv_asleep (ga_cv g))
  | _ => fw_queued (ga_wq g) i = false /\ (i ∉ cv_asleep (ga_cv g))
  end.

Record ga_inv (g : xtc_gate) (pool : gmap nat ga_pc) : Prop := mk_ga_inv {
  gi_count : ga_count g = pool_sum w_in pool;
  gi_drainers : map_Forall (drainer_ok g) pool;
}.

Record ga_local (g g' : xtc_gate) (i : nat) : Prop := mk_ga_local {
  gl_queue : forall j, j <> i -> fw_queued (ga_wq g') j = fw_queued (ga_wq g) j;
  gl_woken : forall j, j <> i -> j ∈ ga_woken g -> j ∈ ga_woken g';
  gl_asleep : forall j, j <> i -> j ∈ cv_asleep (ga_cv g') -> j ∈ cv_asleep (ga_cv g);
  gl_members : forall j, j <> i -> j ∈ cv_asleep (ga_cv g) \/ j ∈ cv_signalled (ga_cv g) ->
    j ∈ cv_asleep (ga_cv g') \/ j ∈ cv_signalled (ga_cv g');
  gl_count : ga_count g' = 0 -> ga_count g = 0;
}.

Lemma drainer_local g g' i j p :
  ga_local g g' i -> j <> i -> drainer_ok g j p -> drainer_ok g' j p.
Proof.
  intros [L1 L2 L3 L4 L5] Hne. specialize (L1 j Hne). specialize (L2 j Hne). specialize (L3 j Hne).
  specialize (L4 j Hne). destruct p; simpl; rewrite ?L1; intuition auto.
Qed.

(** Waking the drainers suits them whatever the count became. *)
Lemma drainer_woken g g' j p :
  drainer_ok g j p -> ga_wq g' = ga_wq g -> ga_woken g' = fw_wake_all (ga_wq g) (ga_woken g) ->
  ga_cv g' = cv_broadcast (ga_cv g) -> drainer_ok g' j p.
Proof.
  intros Hp E1 E2 E3.
  assert (fw_queued (ga_wq g) j = true -> j ∈ ga_woken g') as Hw
    by (intros; rewrite E2; apply fw_wake_all_elem; by left).
  destruct p; simpl in *; rewrite E1, E3; simpl; try (destruct Hp; split; [done|set_solver]).
Qed.

Lemma ga_section g g' pool i p p' :
  ga_inv g pool -> pool !! i = Some p -> ga_local g g' i ->
  ga_count g' = ga_count g - w_in p + w_in p' -> drainer_ok g' i p' ->
  ga_inv g' (<[i := p']> pool).
Proof.
  intros [H1 H2] Hp Hl Hc Hok. constructor.
  - rewrite (pool_sum_insert _ _ _ p) by done. lia.
  - apply (map_Forall_pool_update (drainer_ok g)); [done| |done]. intros j q Hne _. by apply (drainer_local _ _ i).
Qed.

Lemma fiber_turn_drains g i kill expired checked t g' :
  (i ∉ cv_asleep (ga_cv g)) -> gate_fiber_turn g i kill expired = (t, g') ->
  ga_local g g' i /\ ga_count g' = ga_count g /\ drainer_ok g' i (ga_after t checked) /\
  w_in (ga_after t checked) = 0 /\ (t = TReturn XTC_OK -> ga_count g = 0).
Proof.
  intros Ha E. unfold gate_fiber_turn in E.
  destruct kill; [|destruct (decide (ga_count _ = 0)); [|destruct expired]]; injection E as <- <-; split_and!; try done.
  1, 3, 5, 7: constructor; simpl; try done; intros j Hne;
    rewrite ?fw_queued_remove, ?fw_queued_enqueue, ?decide_False by done; try done; set_solver.
  all: simpl; rewrite ?fw_queued_remove, ?fw_queued_enqueue, ?decide_True by done; split_and!; done.
Qed.

Lemma thread_turn_drains g i expired t g' :
  fw_queued (ga_wq g) i = false -> 0 <= ga_count g -> gate_thread_turn g i expired = (t, g') ->
  ga_local g g' i /\ ga_count g' = ga_count g /\ drainer_ok g' i (ga_after t true) /\
  w_in (ga_after t true) = 0 /\ (t = TReturn XTC_OK -> ga_count g = 0).
Proof.
  intros Hq H0 E. unfold gate_thread_turn in E. simpl in E.
  destruct expired; [|destruct (decide (0 < ga_count g)) as [Hlt|Hge]]; injection E as <- <-; split_and!; try done.
  1, 3, 5: by constructor; simpl; try done; set_solver.
  - simpl. split; [done|set_solver].
  - simpl. split_and!; [done|set_solver|lia].
  - simpl. split; [done|set_solver].
  - intros _. lia.
Qed.

(** A section of a drain; and if it reports success, the gate is empty. *)
Lemma drain_section_ok g pool i p checked t g' :
  ga_inv g pool -> pool !! i = Some p -> drain_section i g p checked t g' ->
  ga_local g g' i /\ ga_count g' = ga_count g /\ drainer_ok g' i (ga_after t checked) /\
  w_in p = 0 /\ w_in (ga_after t checked) = 0 /\ (t = TReturn XTC_OK -> ga_count g = 0).
Proof.
  intros [H1 H2] Hp Hd. pose proof (H2 i p Hp) as Hi.
  assert (0 <= ga_count g) as H0 by (rewrite H1; apply pool_sum_nonneg; by intros []).
  destruct Hd as [tmo fiber kill expired t g' E|checked kill expired t g' Hk E|expired t g' E].
  - unfold xtc_gate_drain in E. destruct Hi as [Hq Ha].
    assert (ga_local g g i) as Hself by (by constructor).
    destruct (decide (ga_count g = 0)) as [E0|E0]; [injection E as <- <-; by split_and!|].
    destruct (decide (tmo = 0)); [injection E as <- <-; by split_and!|].
    destruct fiber; [|rewrite decide_True in E by lia; injection E as <- <-].
    + destruct (gate_fiber_turn g i kill expired) as [t1 g1] eqn:Et. injection E as <- <-.
      destruct (fiber_turn_drains g i kill expired true t1 g1 Ha Et) as (A1 & A2 & A3 & A4 & A5). by split_and!.
    + split_and!; try done; [constructor; simpl; try done; set_solver|]. simpl. split_and!; [done|set_solver|lia].
  - destruct (fiber_turn_drains g i kill expired checked t g' (proj1 Hi) E) as (A1 & A2 & A3 & A4 & A5). by split_and!.
  - destruct (thread_turn_drains g i expired t g' (proj1 Hi) H0 E) as (A1 & A2 & A3 & A4 & A5). by split_and!.
Qed.

Lemma ga_inv_step g pool i p g' p' :
  ga_inv g pool -> pool !! i = Some p -> ga_step i g p g' p' -> ga_inv g' (<[i := p']> pool).
Proof.
  intros Hinv Hp Hst. pose proof Hinv as [H1 H2]. pose proof (H2 i p Hp) as Hi.
  assert (0 <= ga_count g) as H0 by (rewrite H1; apply pool_sum_nonneg; by intros []).
  destruct Hst as [c g' E|g' E|g' E|p checked t g' E| |].
  - unfold xtc_gate_enter in E. destruct (ga_closed g); injection E as <- <-; [by rewrite insert_id|].
    apply (ga_section g _ _ _ GOut); simpl; try done; [|lia]. constructor; simpl; try done. lia.
  - unfold xtc_gate_leave in E. injection E as <-.
    assert (0 < ga_count g) as Hlt.
    { rewrite H1. pose proof (pool_sum_ge w_in pool i GIn ltac:(by intros []) Hp). simpl in *. lia. }
    rewrite !(decide_True (P := 0 < ga_count g)) by done. simpl ga_count.
    destruct (decide (ga_count g - 1 = 0)) as [E0|E0].
    + constructor.
      * simpl. rewrite (pool_sum_insert _ _ _ GIn) by done. simpl. lia.
      * apply (map_Forall_pool_update (drainer_ok g)); [done| |].
        -- intros j q _ _ Hq. by apply (drainer_woken g).
        -- simpl. destruct Hi. split; [done|set_solver].
    + apply (ga_section g _ _ _ GIn); simpl; try done; lia.
  - unfold xtc_gate_close in E. injection E as <-.
    destruct (decide (ga_count g = 0)) as [E0|E0].
    + constructor; [by rewrite (pool_sum_insert _ _ _ GOut), Z.sub_0_r, Z.add_0_r|].
      apply (map_Forall_pool_update (drainer_ok g)); [done| |].
      * intros j q _ _ Hq. by apply (drainer_woken g).
      * simpl. destruct Hi. split; [done|set_solver].
    + apply (ga_section g _ _ _ GOut); simpl; try done; try lia; [constructor; simpl; try done; set_solver|].
      destruct Hi. split; [done|set_solver].
  - destruct (drain_section_ok _ _ _ _ _ _ _ Hinv Hp E) as (A1 & A2 & A3 & A4 & A5 & _).
    apply (ga_section g _ _ _ p); try done. lia.
  - by apply (ga_section g _ _ _ GKill); [..|constructor|simpl; lia|].
  - apply (ga_section g _ _ _ GKill); [done|done|by constructor|simpl; lia|].
    simpl in *. destruct Hi as [Hq Ha]. rewrite Hq. by split_and!.
Qed.

Definition ga_start (k : nat) : config := (ga_new, idle_pool GOut k).

Lemma ga_run_inv k g pool : reachable ga_step (ga_start k) (g, pool) -> ga_inv g pool.
Proof.
  intros Hr. apply (pool_invariant ga_step ga_inv _ _) in Hr; [done| |].
  { intros g1 pool1 i p g2 p2. apply ga_inv_step. }
  constructor; simpl.
  - symmetry. apply pool_sum_zero. apply idle_pool_Forall. done.
  - apply idle_pool_Forall. intros i. simpl. split; [done|set_solver].
Qed.

(** A closed gate admits nobody. *)
Lemma closed_stays i g p g' p' : ga_step i g p g' p' -> ga_closed g = true ->
  ga_closed g' = true /\ (p' = GIn -> p = GIn).
Proof.
  intros Hst Hc. destruct Hst as [c g' E|g' E|g' E|p checked t g' E| |]; try done.
  - unfold xtc_gate_enter in E. rewrite Hc in E. by injection E as <- <-.
  - unfold xtc_gate_leave in E. injection E as <-. repeat case_decide; done.
  - by injection E as <-.
  - split; [|by destruct t]. destruct E as [tmo fiber kill expired t g' E|checked kill expired t g' Hk E|expired t g' E].
    + unfold xtc_gate_drain, gate_fiber_turn in E. repeat case_decide; destruct fiber, kill, expired;
        repeat case_decide; by injection E as <- <-.
    + unfold gate_fiber_turn in E. destruct kill; [|case_decide; [|destruct expired]]; by injection E as <- <-.
    + unfold gate_thread_turn in E. destruct expired; [|case_decide]; by injection E as <- <-.
Qed.

Definition nobody_inside (pool : gmap nat ga_pc) : Prop := forall i, pool !! i <> Some GIn.

Lemma count_inside g pool : ga_inv g pool -> ga_count g = 0 -> nobody_inside pool.
Proof.
  intros [H1 _] E i Hi. pose proof (pool_sum_ge w_in pool i GIn ltac:(by intros []) Hi). simpl in *. lia.
Qed.

(** A drain that reports success found the gate empty, and drainers of an
    empty gate are never left asleep.  For any number of clients that
    enter, leave, close and drain with or without timeouts, as fibers (that
    may be killed) or threads, in any interleaving: the count is the number
    of clients inside; a section of a drain that returns XTC_OK runs when
    nobody is inside; whenever nobody is inside, a parked drainer has its
    wake pending and a sleeping one has been signalled; and once the gate
    is closed with nobody inside, nobody is inside ever after. *)
Theorem gate_drains k g pool :
  reachable ga_step (ga_start k) (g, pool) ->
  ga_count g = pool_sum w_in pool /\
  (forall i p checked g', pool !! i = Some p -> drain_section i g p checked (TReturn XTC_OK) g' ->
     nobody_inside pool) /\
  (ga_count g = 0 -> forall i, (pool !! i = Some (GLoop true) -> i ∈ ga_woken g) /\
     (pool !! i = Some GSleep -> i ∈ cv_signalled (ga_cv g))) /\
  (ga_closed g = true -> nobody_inside pool ->
     forall g' pool', reachable ga_step (g, pool) (g', pool') -> nobody_inside pool').
Proof.
  intros Hr. pose proof (ga_run_inv _ _ _ Hr) as Hinv. pose proof Hinv as [H1 H2]. split_and!; [done| | |].
  - intros i p checked g' Hp Hd. apply (count_inside g); [done|].
    by apply (drain_section_ok _ _ _ _ _ _ _ Hinv Hp Hd).
  - intros E i. split; intros Hi; apply H2 in Hi; simpl in Hi.
    + destruct Hi as (_ & Hw & Hq). auto.
    + destruct Hi as (_ & Hm & Hn). specialize (Hn E). tauto.
  - intros Hc Hno g' pool' Hr'.
    refine (proj2 (pool_invariant ga_step (fun g pool => ga_closed g = true /\ nobody_inside pool)
      (g, pool) (g', pool') _ (conj Hc Hno) Hr')).
    intros g1 pool1 i p g2 p2 [Hc1 Hn1] Hp Hst. destruct (closed_stays _ _ _ _ _ Hst Hc1) as [Hc2 Hin].
    split; [done|]. intros j. destruct (decide (j = i)) as [->|Hne].
    + rewrite lookup_insert_eq. intros [= ->]. apply (Hn1 i). by rewrite Hp, (Hin eq_refl).
    + rewrite lookup_insert_ne by done. apply Hn1.
Qed.

(** Client 0 is inside, fiber 1 and thread 2 drain, 0 leaves. *)
Lemma gate_drains_witness :
  exists g pool, reachable ga_step (ga_start 3) (g, pool) /\ ga_count g = 0 /\
    1%nat ∈ ga_woken g /\ 2%nat ∈ cv_signalled (ga_cv g).
Proof.
  assert (exists g (pool : gmap nat ga_pc), reachable ga_step (ga_start 3) (g, pool) /\ ga_count g = 0 /\
    pool !! 1%nat = Some (GLoop true) /\ pool !! 2%nat = Some GSleep) as (g & pool & Hr & E & H1 & H2).
  { eexists _, _. split.
    - unfold reachable, ga_start. pool_norm.
      pool_run 0%nat by (apply (gs_enter _ _ XTC_OK); reflexivity).
      pool_run 1%nat by (apply (gs_drain _ _ GOut true TPark), (ds_start _ _ (-1) true false false); reflexivity).
      pool_run 2%nat by (apply (gs_drain _ _ GOut true TSleep), (ds_start _ _ (-1) false false false); reflexivity).
      pool_run 0%nat by (apply gs_leave; reflexivity).
      apply rtc_refl.
    - split_and!; reflexivity. }
  exists g, pool. destruct (gate_drains 3 g pool Hr) as (_ & _ & Hd & _).
  split_and!; [exact Hr|exact E|exact (proj1 (Hd E 1%nat) H1)|exact (proj2 (Hd E 2%nat) H2)].
Defined.
End Gate.

(** ** abort source *)

Module Abort.

Record xtc_abort_source := mk_abort { ab_fired : bool; ab_reason : Z }.

Definition xtc_abort_source_create (out : bool) (alloc : rc) : rc * option xtc_abort_source :=
  if out then match alloc with XTC_OK => (XTC_OK, Some (mk_abort false 0)) | e => (e, None) end
  else (XTC_E_INVAL, None).

(** The two stores of [xtc_abort_source_fire], in program order. *)
Definition store_reason (s : xtc_abort_source) (reason : Z) : xtc_abort_source := mk_abort (ab_fired s) reason.
Definition store_fired (s : xtc_abort_source) : xtc_abort_source := mk_abort true (ab_reason s).

Definition xtc_abort_source_fire (s : option xtc_abort_source) (reason : Z) : rc * option xtc_abort_source :=
  match s with
  | None => (XTC_E_INVAL, None)
  | Some s => (XTC_OK, Some (store_fired (store_reason s reason)))
  end.

(** A token refers to its source. *)
Definition xtc_abort_source_token (s : option xtc_abort_source) (out : bool)
  : rc * option (option xtc_abort_source) :=
  if out then match s with Some s => (XTC_OK, Some (Some s)) | None => (XTC_E_INVAL, None) end
  else (XTC_E_INVAL, None).

Definition xtc_abort_token_is_aborted (t : option (option xtc_abort_source)) : Z :=
  match t with Some (Some s) => Z.b2z (ab_fired s) | _ => 0 end.

Definition xtc_abort_token_reason (t : option (option xtc_abort_source)) : Z :=
  match t with Some (Some s) => ab_reason s | _ => 0 end.

(** [AFiring]: between the two stores. *)
Inductive ab_pc : Type := AIdle | AFiring (reason : Z).

Record ab_world := mk_ab { aw_src : xtc_abort_source; aw_reasons : gset Z }.

Inductive ab_step (i : nat) (w : ab_world) : ab_pc -> ab_world -> ab_pc -> Prop :=
  | as_reason r :
      ab_step i w AIdle (mk_ab (store_reason (aw_src w) r) ({[r]} ∪ aw_reasons w)) (AFiring r)
  | as_fired r :
      ab_step i w (AFiring r) (mk_ab (store_fired (aw_src w)) (aw_reasons w)) AIdle.

Definition ab_inv (w : ab_world) (pool : gmap nat ab_pc) : Prop :=
  (ab_fired (aw_src w) = true \/ pool_some (fun p => p <> AIdle) pool ->
   ab_reason (aw_src w) ∈ aw_reasons w).

(** A reader that sees the source fired reads a reason some firing gave, never
    the initial one. *)
Theorem abort_reason_given k w pool :
  reachable ab_step (mk_ab (mk_abort false 0) ∅, idle_pool AIdle k) (w, pool) ->
  xtc_abort_token_is_aborted (Some (Some (aw_src w))) = 1 ->
  xtc_abort_token_reason (Some (Some (aw_src w))) ∈ aw_reasons w.
Proof.
  intros Hr. enough (ab_inv w pool) as Hi.
  { simpl. intros Hf. apply Hi. left. by destruct (ab_fired (aw_src w)). }
  refine (pool_invariant ab_step ab_inv _ (w, pool) _ _ Hr).
  - intros w1 pool1 i p w2 p2 Hi Hp Hst. destruct Hst as [r|r]; intros _; simpl; [set_solver|].
    apply Hi. right. exists i, (AFiring r). done.
  - intros [?|(i & p & Hi & Hp)]; [done|].
    destruct Hp. by apply (idle_pool_Forall AIdle k (fun _ p => p = AIdle) ltac:(done)) in Hi.
Qed.
End Abort.
