(* ===== verification/Flow.v ===== *)
(** * Credit windows and resource pools (src/orc/credit.c, src/orc/pool.c)

    Both are clients of a counting semaphore.  [SemImpl] states what they
    rely on: the critical sections of an acquire of one unit, a post of one
    unit, and how each changes the free units.  The semaphore of Sync.v
    implements it ([sync_sem]); the clients are proved against the interface,
    with their own critical sections interleaved with the semaphore's in any
    order. *)

From S2P Require Import Prelude Sync.

Local Open Scope Z_scope.

(** ** The interface *)

(** How a critical section of an acquire ends: the call returned, it waits
    (with what it keeps across the wait), or the waiting fiber was killed. *)
Inductive outcome (W : Type) : Type :=
  | Done (c : rc)
  | Waits (w : W)
  | Gone.
Arguments Done {W} c.
Arguments Waits {W} w.
Arguments Gone {W}.

Class SemImpl := {
  sem_st : Type;
  sem_wait : Type;
  sem_free : sem_st -> Z;
  (** a section of client [i]'s acquire of one unit; [None]: its first *)
  sem_acquire1 : nat -> sem_st -> option sem_wait -> sem_st -> outcome sem_wait -> Prop;
  sem_post1 : sem_st -> sem_st -> Prop;
  sem_taken : forall i s w s', sem_acquire1 i s w s' (Done XTC_OK) ->
    0 < sem_free s /\ sem_free s' = sem_free s - 1;
  sem_not_taken : forall i s w s' o, sem_acquire1 i s w s' o -> o <> Done XTC_OK -> sem_free s' = sem_free s;
  sem_posted : forall s s', sem_post1 s s' -> 0 <= sem_free s -> sem_free s + 1 < 2 ^ 32 ->
    sem_free s' = sem_free s + 1;
}.

(** ** The semaphore of sync.c implements it *)

Module SyncSem.
Import Sync.Sem.

(** A turn of an acquire of one unit, as the caller sees it. *)
Definition turn_outcome (t : turn) (checked : bool) : outcome sem_pc :=
  match t with TReturn c => Done c | _ => Waits (sem_after t 1 checked) end.

(** The sections of an acquire of one unit; after a kill is delivered the
    fiber is gone, unless an outer mask defers it. *)
Inductive acquire1 (i : nat) (s : xtc_sem) : option sem_pc -> xtc_sem -> outcome sem_pc -> Prop :=
  | a1_try c s' :
      xtc_sem_try_acquire (Some s) 1 = (c, Some s') -> acquire1 i s None s' (Done c)
  | a1_start timeout_ns fiber kill spurious expired t s' :
      xtc_sem_acquire (Some s) i 1 timeout_ns fiber kill spurious expired = (t, Some s') ->
      acquire1 i s None s' (turn_outcome t true)
  | a1_fiber checked kill spurious expired t s' :
      (kill = true -> checked = true) ->
      sem_fiber_turn s i 1 kill spurious expired = (t, s') ->
      acquire1 i s (Some (SLoop 1 checked)) s' (turn_outcome t checked)
  | a1_dead : acquire1 i s (Some (SKill 1)) s Gone
  | a1_deferred : acquire1 i s (Some (SKill 1)) s (Waits (SLoop 1 false))
  | a1_thread expired t s' :
      sem_thread_turn s i 1 expired = (t, s') ->
      acquire1 i s (Some (SSleep 1)) s' (turn_outcome t true).

Definition post1 (s s' : xtc_sem) : Prop := xtc_sem_post (Some s) 1 = (XTC_OK, Some s').

(** Only a successful section changes the count. *)
Definition fits (s s' : xtc_sem) (t : turn) : Prop :=
  match t with
  | TReturn XTC_OK => 0 < sm_count s /\ sm_count s' = sm_count s - 1
  | _ => sm_count s' = sm_count s
  end.

Lemma sem_fiber_fits s i kill spurious expired t s' :
  sem_fiber_turn s i 1 kill spurious expired = (t, s') -> fits s s' t.
Proof.
  unfold sem_fiber_turn. intros E. destruct kill; [by injection E as <- <-|]. simpl sm_count in E.
  destruct (decide (1 <= sm_count s)); [destruct spurious|destruct expired]; injection E as <- <-; simpl; lia.
Qed.

Lemma sem_thread_fits s i expired t s' : sem_thread_turn s i 1 expired = (t, s') -> fits s s' t.
Proof.
  unfold sem_thread_turn. intros E. simpl sm_count in E. destruct expired; [by injection E as <- <-|].
  destruct (decide (1 <= sm_count s)); injection E as <- <-; simpl; lia.
Qed.

Lemma acquire1_fits i s w s' o :
  acquire1 i s w s' o ->
  (o = Done XTC_OK -> 0 < sm_count s /\ sm_count s' = sm_count s - 1) /\
  (o <> Done XTC_OK -> sm_count s' = sm_count s).
Proof.
  assert (forall t checked, fits s s' t ->
    (turn_outcome t checked = Done XTC_OK -> 0 < sm_count s /\ sm_count s' = sm_count s - 1) /\
    (turn_outcome t checked <> Done XTC_OK -> sm_count s' = sm_count s)) as Ht.
  { intros [[]| | |] checked; simpl; naive_solver. }
  intros Ha. destruct Ha as [c s' E|tmo fiber kill spurious expired t s' E|checked kill spurious expired t s' Hk E
    | | |expired t s' E].
  - unfold xtc_sem_try_acquire in E. case_decide; injection E as <- <-; simpl; split; try done; lia.
  - apply Ht. unfold xtc_sem_acquire in E. case_decide; [injection E as <- <-; simpl; lia|].
    case_decide; [by injection E as <- <-|]. destruct fiber; [|by injection E as <- <-].
    destruct (sem_fiber_turn s i 1 kill spurious expired) as [t1 s1] eqn:Ef. injection E as <- <-.
    by apply (sem_fiber_fits s i kill spurious expired).
  - apply Ht. by apply (sem_fiber_fits s i kill spurious expired).
  - done.
  - done.
  - apply Ht. by apply (sem_thread_fits s i expired).
Qed.

Lemma post1_fits s s' :
  post1 s s' -> 0 <= sm_count s -> sm_count s + 1 < 2 ^ 32 -> sm_count s' = sm_count s + 1.
Proof. intros [= <-] H0 H1. simpl. apply uwrap_small. lia. Qed.

#[export] Instance sync_sem : SemImpl := {|
  sem_st := xtc_sem;
  sem_wait := sem_pc;
  sem_free := sm_count;
  sem_acquire1 := acquire1;
  sem_post1 := post1;
  sem_taken := fun i s w s' H => proj1 (acquire1_fits i s w s' _ H) eq_refl;
  sem_not_taken := fun i s w s' o H => proj2 (acquire1_fits i s w s' o H);
  sem_posted := post1_fits;
|}.
End SyncSem.

(** ** Credits *)

Module Credit.
Section Credit.
Context `{SemImpl}.

Record xtc_credit := mk_credit {
  cr_sem : sem_st;
  cr_window : Z;
  cr_in_flight : Z;
  cr_peak : Z;
}.

(** [sem]: the semaphore created with [window] units, or the error;
    [alloc]: the allocation's outcome. *)
Definition xtc_credit_create (window : Z) (out : bool) (alloc : rc) (sem : rc * option sem_st)
  : rc * option xtc_credit :=
  if negb out || bool_decide (window = 0) then (XTC_E_INVAL, None)
  else match alloc with
  | XTC_OK =>
      match sem with
      | (XTC_OK, Some s) => (XTC_OK, Some (mk_credit s window 0 0))
      | (e, _) => (e, None)
      end
  | e => (e, None)
  end.

Definition credit_took_one (c : xtc_credit) : xtc_credit :=
  let n := u32 (cr_in_flight c + 1) in
  mk_credit (cr_sem c) (cr_window c) n (if decide (cr_peak c < n) then n else cr_peak c).

(** The rest of an acquire once the semaphore's call has returned [sem]. *)
Definition xtc_credit_acquire (c : option xtc_credit) (sem : rc) : rc * option xtc_credit :=
  match c with
  | None => (XTC_E_INVAL, None)
  | Some c => match sem with XTC_OK => (XTC_OK, Some (credit_took_one c)) | e => (e, Some c) end
  end.

(** [xtc_credit_release] up to its post, which a successful call makes. *)
Definition xtc_credit_release (c : option xtc_credit) : rc * option xtc_credit :=
  match c with
  | None => (XTC_E_INVAL, None)
  | Some c =>
      if decide (cr_in_flight c = 0) then (XTC_E_INVAL, Some c)
      else (XTC_OK, Some (mk_credit (cr_sem c) (cr_window c) (u32 (cr_in_flight c - 1)) (cr_peak c)))
  end.

Definition xtc_credit_in_flight (c : option xtc_credit) : Z := match c with None => 0 | Some c => cr_in_flight c end.
Definition xtc_credit_peak (c : option xtc_credit) : Z := match c with None => 0 | Some c => cr_peak c end.
Definition xtc_credit_window (c : option xtc_credit) : Z := match c with None => 0 | Some c => cr_window c end.

Definition with_sem (c : xtc_credit) (s : sem_st) : xtc_credit :=
  mk_credit s (cr_window c) (cr_in_flight c) (cr_peak c).

(** [CTook]: has its unit, not counted yet; [CHold]: the acquire returned;
    [CPost]: counted out, about to post. *)
Inductive cr_pc : Type := CIdle | CWait (w : sem_wait) | CTook | CHold | CPost | CGone.

Definition cr_after (o : outcome sem_wait) : cr_pc :=
  match o with Done XTC_OK => CTook | Done _ => CIdle | Waits w => CWait w | Gone => CGone end.

(** The steps of [xtc_credit_acquire] (and of [xtc_credit_try_acquire], whose
    only section is a try) and of [xtc_credit_release]. *)
Inductive cr_step (i : nat) (c : xtc_credit) : cr_pc -> xtc_credit -> cr_pc -> Prop :=
  | cs_acquire s' o : sem_acquire1 i (cr_sem c) None s' o -> cr_step i c CIdle (with_sem c s') (cr_after o)
  | cs_wait w s' o : sem_acquire1 i (cr_sem c) (Some w) s' o -> cr_step i c (CWait w) (with_sem c s') (cr_after o)
  | cs_took c' : xtc_credit_acquire (Some c) XTC_OK = (XTC_OK, Some c') -> cr_step i c CTook c' CHold
  | cs_release c' rc : xtc_credit_release (Some c) = (rc, Some c') ->
      cr_step i c CHold c' (match rc with XTC_OK => CPost | _ => CIdle end)
  | cs_post s' : sem_post1 (cr_sem c) s' -> cr_step i c CPost (with_sem c s') CIdle.

Definition w_unit (p : cr_pc) : Z := match p with CTook | CHold | CPost => 1 | _ => 0 end.
Definition w_held (p : cr_pc) : Z := match p with CHold => 1 | _ => 0 end.

Record cr_inv (window : Z) (c : xtc_credit) (pool : gmap nat cr_pc) : Prop := mk_cr_inv {
  ci_window : cr_window c = window;
  ci_free : 0 <= sem_free (cr_sem c);
  ci_units : sem_free (cr_sem c) + pool_sum w_unit pool = window;
  ci_flight : cr_in_flight c = pool_sum w_held pool;
  ci_peak : cr_in_flight c <= cr_peak c <= window;
}.

Lemma held_le_units pool : 0 <= pool_sum w_held pool <= pool_sum w_unit pool.
Proof.
  induction pool as [|i p pool Hi IH] using map_ind; [by vm_compute|].
  rewrite !pool_sum_fresh by done. destruct p; simpl; lia.
Qed.

(** A section of the semaphore moves a unit between it and the client. *)
Lemma sem_section window c pool i p p' s' :
  cr_inv window c pool -> pool !! i = Some p -> w_held p = 0 -> w_held p' = 0 ->
  0 <= sem_free s' -> sem_free s' + w_unit p' = sem_free (cr_sem c) + w_unit p ->
  cr_inv window (with_sem c s') (<[i := p']> pool).
Proof.
  intros [H1 H2 H3 H4 H5] Hp E1 E2 Hs Hu. constructor; simpl; try done;
    rewrite (pool_sum_insert _ _ _ p) by done; lia.
Qed.

Lemma acquire_section window c pool i p w s' o :
  cr_inv window c pool -> pool !! i = Some p -> w_held p = 0 -> w_unit p = 0 ->
  sem_acquire1 i (cr_sem c) w s' o -> cr_inv window (with_sem c s') (<[i := cr_after o]> pool).
Proof.
  intros Hinv Hp E1 E2 Ha. pose proof (ci_free _ _ _ Hinv).
  assert (o = Done XTC_OK \/ (o <> Done XTC_OK /\ w_held (cr_after o) = 0 /\ w_unit (cr_after o) = 0))
    as [->|(Ho & E3 & E4)] by (destruct o as [[]| |]; auto).
  - destruct (sem_taken _ _ _ _ Ha). apply (sem_section window c pool i p); simpl; try done; lia.
  - pose proof (sem_not_taken _ _ _ _ _ Ha Ho). apply (sem_section window c pool i p); try done; lia.
Qed.

Lemma cr_inv_step window c pool i p c' p' :
  window < 2 ^ 32 -> cr_inv window c pool -> pool !! i = Some p -> cr_step i c p c' p' ->
  cr_inv window c' (<[i := p']> pool).
Proof.
  intros Hw Hinv Hp Hst. pose proof Hinv as [H1 H2 H3 H4 H5]. pose proof (held_le_units pool) as Hle.
  destruct Hst as [s' o Ha|w s' o Ha|c' E|c' rc E|s' Hpost].
  - by apply (acquire_section window c pool i CIdle None).
  - by apply (acquire_section window c pool i (CWait w) (Some w)).
  - injection E as <-. pose proof (held_le_units (<[i := CHold]> pool)) as Hle'.
    rewrite !(pool_sum_insert _ _ _ CTook) in Hle' by done. simpl in Hle'.
    constructor; simpl; rewrite ?(pool_sum_insert _ _ _ CTook), ?(uwrap_small 32) by (done || lia);
      simpl; try done; try lia. case_decide; lia.
  - pose proof (pool_sum_ge w_held pool i CHold ltac:(by intros []) Hp) as Hge. simpl in Hge.
    unfold xtc_credit_release in E. rewrite decide_False, (uwrap_small 32) in E by lia. injection E as <- <-.
    constructor; simpl; rewrite ?(pool_sum_insert _ _ _ CHold) by done; simpl; try done; lia.
  - pose proof (pool_sum_ge w_unit pool i CPost ltac:(by intros []) Hp) as Hge. simpl in Hge.
    pose proof (sem_posted _ _ Hpost H2 ltac:(lia)).
    apply (sem_section window c pool i CPost); simpl; try done; lia.
Qed.

Definition cr_start (s : sem_st) (window : Z) (k : nat) : config := (mk_credit s window 0 0, idle_pool CIdle k).

Lemma cr_run_inv s window k c pool :
  sem_free s = window -> 0 <= window < 2 ^ 32 ->
  reachable cr_step (cr_start s window k) (c, pool) -> cr_inv window c pool.
Proof.
  intros Hs Hw Hr. refine (pool_invariant cr_step (cr_inv window) _ (c, pool) _ _ Hr).
  - intros c1 pool1 i p c2 p2. apply cr_inv_step. lia.
  - constructor; simpl; rewrite ?pool_sum_zero by (by apply idle_pool_Forall); try done; lia.
Qed.
End Credit.

(** The window is never exceeded.  For any semaphore that meets the
    interface and starts with [window] units, and any number of clients
    that acquire (waiting, timing out or killed while waiting) and release,
    in any interleaving of the credit's and the semaphore's critical
    sections: the in-flight counter is the number of holders, at most its
    recorded peak, which is at most the window; clients with a unit in hand
    never outnumber the window; and a holder's release is never refused. *)
Theorem credit_window `{SemImpl} s window k c pool :
  sem_free s = window -> 0 <= window < 2 ^ 32 ->
  reachable cr_step (cr_start s window k) (c, pool) ->
  xtc_credit_in_flight (Some c) = pool_sum w_held pool /\
  xtc_credit_in_flight (Some c) <= xtc_credit_peak (Some c) <= window /\
  pool_sum w_unit pool = window - sem_free (cr_sem c) /\ pool_sum w_unit pool <= window /\
  (forall i, pool !! i = Some CHold -> (xtc_credit_release (Some c)).1 = XTC_OK).
Proof.
  intros Hs Hw Hr. destruct (cr_run_inv _ _ _ _ _ Hs Hw Hr) as [H1 H2 H3 H4 H5].
  split_and!; simpl; try done; try lia. intros i Hi.
  pose proof (pool_sum_ge w_held pool i CHold ltac:(by intros []) Hi) as Hge. simpl in Hge.
  unfold xtc_credit_release. rewrite decide_False by lia. done.
Qed.

(** Two clients on a window of one of sync.c's semaphore: 0 holds, fiber 1
    waits. *)
Lemma credit_window_witness :
  exists (c : @xtc_credit SyncSem.sync_sem) pool,
    reachable cr_step (cr_start (Sem.mk_sem 1 [] ∅ cv_empty : @sem_st SyncSem.sync_sem) 1 2) (c, pool) /\
    xtc_credit_in_flight (Some c) = 1 /\ xtc_credit_in_flight (Some c) <= xtc_credit_peak (Some c) <= 1.
Proof.
  assert (exists (c : @xtc_credit SyncSem.sync_sem) pool,
    reachable cr_step (cr_start (Sem.mk_sem 1 [] ∅ cv_empty : @sem_st SyncSem.sync_sem) 1 2) (c, pool) /\
    xtc_credit_in_flight (Some c) = 1) as (c & pool & Hr & E).
  { eexists _, _. split.
    - unfold reachable, cr_start. pool_norm.
      pool_run 0%nat by (eapply (cs_acquire (H := SyncSem.sync_sem) _ _ _ (Done XTC_OK)), SyncSem.a1_try; reflexivity).
      pool_run 0%nat by (apply cs_took; reflexivity).
      pool_run 1%nat by (eapply (cs_acquire (H := SyncSem.sync_sem) _ _ _ (Waits (Sem.SLoop 1 true))),
        (SyncSem.a1_start _ _ (-1) true false false false TPark); reflexivity).
      apply rtc_refl.
    - reflexivity. }
  exists c, pool. split_and!; [exact Hr|exact E| |];
    apply (proj1 (proj2 (credit_window (Sem.mk_sem 1 [] ∅ cv_empty : @sem_st SyncSem.sync_sem) 1 2 c pool
      eq_refl ltac:(lia) Hr))).
Defined.
End Credit.

(** ** Pools *)

Module Pool.

(** The loop of a checkout over the first [n] slots: the resource handed out
    and the free map after. *)
Fixpoint checkout_scan (slots : list Z) (free : list bool) (n : nat) : option (Z * list bool) :=
  match n, slots, free with
  | S n', s :: slots', f :: free' =>
      if f then Some (s, false :: free')
      else match checkout_scan slots' free' n' with
      | Some (r, free'') => Some (r, f :: free'')
      | None => None
      end
  | _, _, _ => None
  end.

(** The loop of a checkin: the free map after. *)
Fixpoint checkin_scan (slots : list Z) (free : list bool) (n : nat) (resource : Z) : option (list bool) :=
  match n, slots, free with
  | S n', s :: slots', f :: free' =>
      if decide (s = resource /\ f = false) then Some (true :: free')
      else match checkin_scan slots' free' n' resource with
      | Some free'' => Some (f :: free'')
      | None => None
      end
  | _, _, _ => None
  end.

(** Among the first [n] slots: the free ones, and those that hold [r] and are
    handed out. *)
Fixpoint free_slots (free : list bool) (n : nat) : Z :=
  match n, free with
  | S n', f :: free' => Z.b2z f + free_slots free' n'
  | _, _ => 0
  end.

Fixpoint busy_slots (slots : list Z) (free : list bool) (n : nat) (r : Z) : Z :=
  match n, slots, free with
  | S n', s :: slots', f :: free' =>
      (if decide (s = r /\ f = false) then 1 else 0) + busy_slots slots' free' n' r
  | _, _, _ => 0
  end.

Lemma checkout_scan_spec slots free n :
  (n <= length slots)%nat -> length free = length slots ->
  match checkout_scan slots free n with
  | Some (r, free') =>
      length free' = length free /\ free_slots free' n = free_slots free n - 1 /\
      forall x, busy_slots slots free' n x = busy_slots slots free n x + (if decide (x = r) then 1 else 0)
  | None => free_slots free n = 0
  end.
Proof.
  revert slots free. induction n as [|n IH]; intros [|s slots] [|f free] Hn Hl; simpl in *; try lia; try done.
  destruct f.
  - split_and!; [done|simpl; lia|]. intros x. rewrite (decide_False (P := s = x /\ true = false)) by naive_solver.
    destruct (decide (x = s)) as [->|Hne]; [rewrite decide_True by done|rewrite decide_False by naive_solver]; lia.
  - specialize (IH slots free ltac:(lia) ltac:(lia)).
    destruct (checkout_scan slots free n) as [[r free']|]; simpl; [|lia].
    destruct IH as (H1 & H2 & H3). split_and!; [simpl; lia|lia|]. intros x. rewrite H3. lia.
Qed.

Lemma checkin_scan_spec slots free n r :
  (n <= length slots)%nat -> length free = length slots ->
  match checkin_scan slots free n r with
  | Some free' =>
      length free' = length free /\ free_slots free' n = free_slots free n + 1 /\
      forall x, busy_slots slots free' n x = busy_slots slots free n x - (if decide (x = r) then 1 else 0)
  | None => busy_slots slots free n r = 0
  end.
Proof.
  revert slots free. induction n as [|n IH]; intros [|s slots] [|f free] Hn Hl; simpl in *; try lia; try done.
  destruct (decide (s = r /\ f = false)) as [[-> ->]|Hne].
  - split_and!; [done|simpl; lia|]. intros x. rewrite (decide_False (P := r = x /\ true = false)) by naive_solver.
    destruct (decide (x = r)) as [->|Hx]; [rewrite decide_True by done|rewrite decide_False by naive_solver]; lia.
  - specialize (IH slots free ltac:(lia) ltac:(lia)).
    destruct (checkin_scan slots free n r) as [free'|]; simpl; [|lia].
    destruct IH as (H1 & H2 & H3). split_and!; [lia|lia|]. intros x. rewrite H3. lia.
Qed.

(** A new slot at the end, free. *)
Lemma add_slot slots free n r :
  (n < length slots)%nat -> length free = length slots ->
  free_slots (<[n := true]> free) (S n) = free_slots free n + 1 /\
  (forall x, busy_slots (<[n := r]> slots) (<[n := true]> free) (S n) x = busy_slots slots free n x).
Proof.
  revert slots free. induction n as [|n IH]; intros [|s slots] [|f free] Hn Hl; simpl in *; try (exfalso; lia).
  - split; [by destruct free|]. intros x. rewrite decide_False by naive_solver. by destruct slots.
  - destruct (IH slots free ltac:(lia) ltac:(lia)) as [H1 H2]. simpl in H1, H2. split; [lia|].
    intros x. by rewrite H2.
Qed.

Lemma free_slots_range free n : 0 <= free_slots free n <= Z.of_nat n.
Proof.
  revert free. induction n as [|n IH]; intros [|f free]; simpl; try lia. specialize (IH free).
  destruct f; simpl; lia.
Qed.

Section Pool.
Context `{SemImpl}.

Record xtc_pool := mk_pool {
  po_sem : sem_st;
  po_slots : list Z;
  po_free_map : list bool;
  po_cap : nat;
  po_n_added : nat;
  po_n_free : Z;
}.

Definition po_new (s : sem_st) (capacity : nat) : xtc_pool :=
  mk_pool s (replicate capacity 0) (replicate capacity false) capacity 0 0.

(** [allocs]: the outcomes of the three allocations; [sem]: the semaphore
    created with no units, or the error. *)
Definition xtc_pool_create (capacity : nat) (out : bool) (allocs : list rc) (sem : rc * option sem_st)
  : rc * option xtc_pool :=
  if negb out || bool_decide (capacity = 0%nat) then (XTC_E_INVAL, None)
  else match filter (fun c => c <> XTC_OK) allocs with
  | e :: _ => (e, None)
  | [] =>
      match sem with
      | (XTC_OK, Some s) => (XTC_OK, Some (po_new s capacity))
      | (e, _) => (e, None)
      end
  end.

(** [xtc_pool_add] up to its post, which a successful call makes. *)
Definition xtc_pool_add (p : option xtc_pool) (resource : Z) : rc * option xtc_pool :=
  match p with
  | None => (XTC_E_INVAL, None)
  | Some p =>
      if decide (po_n_added p = po_cap p) then (XTC_E_RESOURCE, Some p)
      else (XTC_OK, Some (mk_pool (po_sem p) (<[po_n_added p := resource]> (po_slots p))
                            (<[po_n_added p := true]> (po_free_map p)) (po_cap p)
                            (po_n_added p + 1) (po_n_free p + 1)))
  end.

(** The rest of a checkout once the semaphore's call has returned [sem]: the
    code, the resource ([None]: [*out] stays NULL) and the pool. *)
Definition xtc_pool_checkout (p : option xtc_pool) (out : bool) (sem : rc)
  : rc * option Z * option xtc_pool :=
  match p with
  | None => (XTC_E_INVAL, None, None)
  | Some p =>
      if out then
        match sem with
        | XTC_OK =>
            match checkout_scan (po_slots p) (po_free_map p) (po_n_added p) with
            | Some (r, free') =>
                (XTC_OK, Some r, Some (mk_pool (po_sem p) (po_slots p) free' (po_cap p) (po_n_added p) (po_n_free p - 1)))
            | None => (XTC_OK, None, Some p)
            end
        | e => (e, None, Some p)
        end
      else (XTC_E_INVAL, None, Some p)
  end.

(** [xtc_pool_checkin] up to its post. *)
Definition xtc_pool_checkin (p : option xtc_pool) (resource : Z) : rc * option xtc_pool :=
  match p with
  | None => (XTC_E_INVAL, None)
  | Some p =>
      match checkin_scan (po_slots p) (po_free_map p) (po_n_added p) resource with
      | Some free' =>
          (XTC_OK, Some (mk_pool (po_sem p) (po_slots p) free' (po_cap p) (po_n_added p) (po_n_free p + 1)))
      | None => (XTC_E_INVAL, Some p)
      end
  end.

Definition xtc_pool_available (p : option xtc_pool) : Z := match p with None => 0 | Some p => po_n_free p end.
Definition xtc_pool_capacity (p : option xtc_pool) : Z :=
  match p with None => 0 | Some p => Z.of_nat (po_n_added p) end.

Definition pool_with_sem (p : xtc_pool) (s : sem_st) : xtc_pool :=
  mk_pool s (po_slots p) (po_free_map p) (po_cap p) (po_n_added p) (po_n_free p).

(** [PTook]: has its unit, slot not looked up yet; [PHold r]: the checkout
    returned [r]; [PEmpty]: it returned nothing; [PPost]: about to post. *)
Inductive po_pc : Type := PIdle | PWait (w : sem_wait) | PTook | PHold (r : Z) | PEmpty | PPost | PGone.

Definition po_after (o : outcome sem_wait) : po_pc :=
  match o with Done XTC_OK => PTook | Done _ => PIdle | Waits w => PWait w | Gone => PGone end.

(** Clients add resources, check out, and check in what they hold. *)
Inductive po_step (i : nat) (p : xtc_pool) : po_pc -> xtc_pool -> po_pc -> Prop :=
  | ps_add r c p' : xtc_pool_add (Some p) r = (c, Some p') ->
      po_step i p PIdle p' (match c with XTC_OK => PPost | _ => PIdle end)
  | ps_checkout s' o : sem_acquire1 i (po_sem p) None s' o -> po_step i p PIdle (pool_with_sem p s') (po_after o)
  | ps_wait w s' o : sem_acquire1 i (po_sem p) (Some w) s' o -> po_step i p (PWait w) (pool_with_sem p s') (po_after o)
  | ps_pop r p' : xtc_pool_checkout (Some p) true XTC_OK = (XTC_OK, r, Some p') ->
      po_step i p PTook p' (match r with Some r => PHold r | None => PEmpty end)
  | ps_checkin r c p' : xtc_pool_checkin (Some p) r = (c, Some p') ->
      po_step i p (PHold r) p' (match c with XTC_OK => PPost | _ => PIdle end)
  | ps_post s' : sem_post1 (po_sem p) s' -> po_step i p PPost (pool_with_sem p s') PIdle.

Definition w_units (q : po_pc) : Z := match q with PTook | PPost => 1 | _ => 0 end.
Definition w_has (r : Z) (q : po_pc) : Z := match q with PHold x => if decide (x = r) then 1 else 0 | _ => 0 end.

(** Units are free slots: those of the semaphore plus those in clients' hands
    (taken and not popped, or pushed and not posted). *)
Record po_inv (cap : nat) (p : xtc_pool) (pool : gmap nat po_pc) : Prop := mk_po_inv {
  pi_cap : po_cap p = cap /\ length (po_slots p) = cap /\ length (po_free_map p) = cap;
  pi_added : (po_n_added p <= cap)%nat;
  pi_sem : 0 <= sem_free (po_sem p);
  pi_nfree : po_n_free p = free_slots (po_free_map p) (po_n_added p);
  pi_units : po_n_free p = sem_free (po_sem p) + pool_sum w_units pool;
  pi_held : forall r, busy_slots (po_slots p) (po_free_map p) (po_n_added p) r = pool_sum (w_has r) pool;
  pi_never : forall i, pool !! i <> Some PEmpty;
}.

Lemma w_units_nonneg q : 0 <= w_units q.
Proof. by destruct q. Qed.

Lemma w_has_nonneg r q : 0 <= w_has r q.
Proof. destruct q; simpl; try case_decide; lia. Qed.

(** A section of the semaphore moves a unit between it and the client. *)
Lemma pool_sem_section cap p pool i q q' s' :
  po_inv cap p pool -> pool !! i = Some q -> (forall r, w_has r q = 0) -> (forall r, w_has r q' = 0) ->
  q' <> PEmpty -> 0 <= sem_free s' -> sem_free s' + w_units q' = sem_free (po_sem p) + w_units q ->
  po_inv cap (pool_with_sem p s') (<[i := q']> pool).
Proof.
  intros [H1 H2 H3 H4 H5 H6 H7] Hq E1 E2 Hne Hs Hu. constructor; simpl; try done.
  - rewrite (pool_sum_insert _ _ _ q) by done. lia.
  - intros r. rewrite (pool_sum_insert _ _ _ q), E1, E2, H6 by done. lia.
  - intros j. destruct (decide (j = i)) as [->|Hj]; [rewrite lookup_insert_eq; naive_solver|].
    by rewrite lookup_insert_ne.
Qed.

Lemma pool_acquire_section cap p pool i q w s' o :
  po_inv cap p pool -> pool !! i = Some q -> (forall r, w_has r q = 0) -> w_units q = 0 ->
  sem_acquire1 i (po_sem p) w s' o -> po_inv cap (pool_with_sem p s') (<[i := po_after o]> pool).
Proof.
  intros Hinv Hq E1 E2 Ha. pose proof (pi_sem _ _ _ Hinv).
  assert (o = Done XTC_OK \/ (o <> Done XTC_OK /\ (forall r, w_has r (po_after o) = 0) /\
    w_units (po_after o) = 0 /\ po_after o <> PEmpty))
    as [->|(Ho & E3 & E4 & E5)] by (destruct o as [[]| |]; auto).
  - destruct (sem_taken _ _ _ _ Ha). apply (pool_sem_section cap p pool i q); simpl; try done; lia.
  - pose proof (sem_not_taken _ _ _ _ _ Ha Ho). apply (pool_sem_section cap p pool i q); try done; lia.
Qed.

(** A section under the pool's mutex. *)
Lemma pool_section cap p p' pool i q q' :
  po_inv cap p pool -> pool !! i = Some q ->
  po_sem p' = po_sem p -> po_cap p' = cap -> length (po_slots p') = cap -> length (po_free_map p') = cap ->
  (po_n_added p' <= cap)%nat -> po_n_free p' = free_slots (po_free_map p') (po_n_added p') ->
  po_n_free p' + w_units q = po_n_free p + w_units q' ->
  (forall r, busy_slots (po_slots p') (po_free_map p') (po_n_added p') r + w_has r q =
             busy_slots (po_slots p) (po_free_map p) (po_n_added p) r + w_has r q') ->
  q' <> PEmpty -> po_inv cap p' (<[i := q']> pool).
Proof.
  intros [H1 H2 H3 H4 H5 H6 H7] Hq E1 E2 E3 E4 E5 E6 E7 E8 E9. constructor; try done.
  - by rewrite E1.
  - rewrite (pool_sum_insert _ _ _ q), E1 by done. lia.
  - intros r. rewrite (pool_sum_insert _ _ _ q) by done. specialize (E8 r). specialize (H6 r). lia.
  - intros j. destruct (decide (j = i)) as [->|Hj]; [rewrite lookup_insert_eq; naive_solver|].
    by rewrite lookup_insert_ne.
Qed.

Lemma po_inv_step cap p pool i q p' q' :
  Z.of_nat cap < 2 ^ 32 -> po_inv cap p pool -> pool !! i = Some q -> po_step i p q p' q' ->
  po_inv cap p' (<[i := q']> pool).
Proof.
  intros Hcap Hinv Hq Hst. pose proof Hinv as [(C1 & C2 & C3) H2 H3 H4 H5 H6 H7].
  pose proof (free_slots_range (po_free_map p) (po_n_added p)) as Hfr.
  pose proof (pool_sum_nonneg w_units pool w_units_nonneg) as Hun.
  destruct Hst as [r c p' E|s' o Ha|w s' o Ha|r p' E|r c p' E|s' Hpost].
  - unfold xtc_pool_add in E. destruct (decide (po_n_added p = po_cap p)) as [Ef|Ef]; injection E as <- <-.
    { by rewrite insert_id. }
    destruct (add_slot (po_slots p) (po_free_map p) (po_n_added p) r ltac:(lia) ltac:(lia)) as [A1 A2].
    apply (pool_section cap p _ _ _ PIdle); simpl; rewrite ?length_insert, ?Nat.add_1_r; try done; try lia.
    intros x. rewrite A2. done.
  - by apply (pool_acquire_section cap p pool i PIdle None).
  - by apply (pool_acquire_section cap p pool i (PWait w) (Some w)).
  - pose proof (pool_sum_ge w_units pool i PTook w_units_nonneg Hq) as Hge. simpl in Hge.
    unfold xtc_pool_checkout in E.
    pose proof (checkout_scan_spec (po_slots p) (po_free_map p) (po_n_added p) ltac:(lia) ltac:(lia)) as Hs.
    destruct (checkout_scan _ _ _) as [[x free']|]; [|lia]. injection E as <- <-. destruct Hs as (S1 & S2 & S3).
    apply (pool_section cap p _ _ _ PTook); simpl; try done; try lia.
    intros y. rewrite S3. destruct (decide (y = x)), (decide (x = y)); subst; try done; lia.
  - pose proof (pool_sum_ge (w_has r) pool i (PHold r) (w_has_nonneg r) Hq) as Hge. simpl in Hge.
    rewrite decide_True in Hge by done. unfold xtc_pool_checkin in E.
    pose proof (checkin_scan_spec (po_slots p) (po_free_map p) (po_n_added p) r ltac:(lia) ltac:(lia)) as Hs.
    destruct (checkin_scan _ _ _ _) as [free'|]; [|rewrite H6 in Hs; lia]. injection E as <- <-.
    destruct Hs as (S1 & S2 & S3). apply (pool_section cap p _ _ _ (PHold r)); simpl; try done; try lia.
    intros y. rewrite S3. destruct (decide (y = r)), (decide (r = y)); subst; try done; lia.
  - pose proof (pool_sum_ge w_units pool i PPost w_units_nonneg Hq) as Hge. simpl in Hge.
    pose proof (sem_posted _ _ Hpost H3 ltac:(lia)).
    apply (pool_sem_section cap p pool i PPost); simpl; try done; lia.
Qed.

Definition po_start (s : sem_st) (cap k : nat) : config := (po_new s cap, idle_pool PIdle k).

Lemma po_run_inv s cap k p pool :
  sem_free s = 0 -> Z.of_nat cap < 2 ^ 32 ->
  reachable po_step (po_start s cap k) (p, pool) -> po_inv cap p pool.
Proof.
  intros Hs Hc Hr. refine (pool_invariant po_step (po_inv cap) _ (p, pool) _ _ Hr).
  - intros p1 pool1 i q p2 q2. by apply po_inv_step.
  - pose proof (idle_pool_Forall PIdle k (fun _ q => q = PIdle) ltac:(done)) as Hidle.
    constructor; simpl; try done; try lia.
    + by rewrite !length_replicate.
    + by destruct cap.
    + rewrite pool_sum_zero by (by apply idle_pool_Forall). lia.
    + intros r. rewrite pool_sum_zero by (by apply idle_pool_Forall). by destruct cap.
    + intros i Hi. by specialize (Hidle _ _ Hi).
Qed.
End Pool.

(** A checkout that got its unit always finds a slot, and a resource is
    with one client at a time.  For any semaphore that meets the interface
    and starts empty, and any number of clients that add, check out
    (waiting, timing out or killed while waiting) and check in, in any
    interleaving: no checkout ever returns XTC_OK with nothing; for every
    resource, the slots handed out are as many as the clients that hold it,
    so a holder's checkin is never refused; and the free count reported is
    the semaphore's plus the units in clients' hands. *)
Theorem pool_checkout_found `{SemImpl} s cap k p pool :
  sem_free s = 0 -> Z.of_nat cap < 2 ^ 32 ->
  reachable po_step (po_start s cap k) (p, pool) ->
  (forall i, pool !! i <> Some PEmpty) /\
  (forall i, pool !! i = Some PTook -> exists r p', xtc_pool_checkout (Some p) true XTC_OK = (XTC_OK, Some r, Some p')) /\
  (forall r, busy_slots (po_slots p) (po_free_map p) (po_n_added p) r = pool_sum (w_has r) pool) /\
  (forall i r, pool !! i = Some (PHold r) -> (xtc_pool_checkin (Some p) r).1 = XTC_OK) /\
  xtc_pool_available (Some p) = sem_free (po_sem p) + pool_sum w_units pool.
Proof.
  intros Hs Hc Hr. destruct (po_run_inv _ _ _ _ _ Hs Hc Hr) as [(C1 & C2 & C3) H2 H3 H4 H5 H6 H7].
  split_and!; try done.
  - intros i Hi. pose proof (pool_sum_ge w_units pool i PTook w_units_nonneg Hi) as Hge. simpl in Hge.
    pose proof (checkout_scan_spec (po_slots p) (po_free_map p) (po_n_added p) ltac:(lia) ltac:(lia)) as Hsc.
    simpl. destruct (checkout_scan _ _ _) as [[r free']|]; [eauto|lia].
  - intros i r Hi. pose proof (pool_sum_ge (w_has r) pool i (PHold r) (w_has_nonneg r) Hi) as Hge. simpl in Hge.
    rewrite decide_True in Hge by done.
    pose proof (checkin_scan_spec (po_slots p) (po_free_map p) (po_n_added p) r ltac:(lia) ltac:(lia)) as Hsc.
    simpl. destruct (checkin_scan _ _ _ _); [done|]. rewrite H6 in Hsc. lia.
Qed.

(** On sync.c's semaphore: 0 adds a resource, 1 takes its unit, 2 waits. *)
Lemma pool_checkout_found_witness :
  exists (p : @xtc_pool SyncSem.sync_sem) (pool : gmap nat po_pc),
    reachable po_step (po_start (Sem.mk_sem 0 [] ∅ cv_empty : @sem_st SyncSem.sync_sem) 2 3) (p, pool) /\
    exists r p', xtc_pool_checkout (Some p) true XTC_OK = (XTC_OK, Some r, Some p').
Proof.
  assert (exists (p : @xtc_pool SyncSem.sync_sem) (pool : gmap nat po_pc),
    reachable po_step (po_start (Sem.mk_sem 0 [] ∅ cv_empty : @sem_st SyncSem.sync_sem) 2 3) (p, pool) /\
    pool !! 1%nat = Some PTook) as (p & pool & Hr & E).
  { eexists _, _. split.
    - unfold reachable, po_start. pool_norm.
      pool_run 0%nat by (apply (ps_add _ _ 77 XTC_OK); reflexivity).
      pool_run 0%nat by (apply ps_post; reflexivity).
      pool_run 1%nat by (eapply (ps_checkout (H := SyncSem.sync_sem) _ _ _ (Done XTC_OK)), SyncSem.a1_try; reflexivity).
      pool_run 2%nat by (eapply (ps_checkout (H := SyncSem.sync_sem) _ _ _ (Waits (Sem.SLoop 1 true))),
        (SyncSem.a1_start _ _ (-1) true false false false TPark); reflexivity).
      apply rtc_refl.
    - reflexivity. }
  exists p, pool. split; [exact Hr|].
  exact (proj1 (proj2 (pool_checkout_found (Sem.mk_sem 0 [] ∅ cv_empty : @sem_st SyncSem.sync_sem) 2 3 p pool
    eq_refl ltac:(lia) Hr)) 1%nat E).
Defined.
End Pool.
