(* ===== verification/Saga.v ===== *)
(** * Sagas (src/orc/saga.c)

    A saga is a growable array of (action, compensation) pairs.  Actions and
    compensations are the user's functions: they take their context and
    change a world [E], a parameter here, and return a code.  The run is the
    code's two index loops; the theorems relate it to what it means: run the
    actions in order, and on the first failure undo the completed ones in
    reverse. *)

From S2P Require Import Prelude.

Local Open Scope Z_scope.

Section Saga.
Context {E : Type}.

(** A user function: context and world to code and world. *)
Definition xtc_saga_fn : Type := Z -> E -> Z * E.

Record saga_step := mk_step {
  st_action : xtc_saga_fn;
  st_compensate : option xtc_saga_fn;
  st_ctx : Z;
}.

(** The array holds [n_steps] steps; [cap] slots are allocated. *)
Record xtc_saga := mk_saga {
  sg_steps : list saga_step;
  sg_cap : Z;
  sg_started : bool;
  sg_n_completed : Z;
  sg_failed_step : Z;
  sg_last_error : Z;
  sg_compensate_failed : bool;
}.

Definition sg_new : xtc_saga := mk_saga [] 0 false 0 (-1) 0 false.

Definition xtc_saga_create (out : bool) (alloc : rc) : rc * option xtc_saga :=
  if out then match alloc with XTC_OK => (XTC_OK, Some sg_new) | e => (e, None) end
  else (XTC_E_INVAL, None).

Definition n_steps (s : xtc_saga) : Z := Z.of_nat (length (sg_steps s)).

(** sizeof (struct saga_step): three pointers. *)
Definition SAGA_STEP_SIZE : Z := 24.

Definition with_steps (s : xtc_saga) (steps : list saga_step) (cap : Z) : xtc_saga :=
  mk_saga steps cap (sg_started s) (sg_n_completed s) (sg_failed_step s) (sg_last_error s)
    (sg_compensate_failed s).

(** [alloc]: the outcome of the reallocation.  The doubled capacity is an
    [int]. *)
Definition xtc_saga_step (s : option xtc_saga) (action compensate : option xtc_saga_fn) (ctx : Z) (alloc : rc)
  : rc * option xtc_saga :=
  match s, action with
  | Some s, Some action =>
      if sg_started s then (XTC_E_INVAL, Some s)
      else
        let push s := (XTC_OK, Some (with_steps s (sg_steps s ++ [mk_step action compensate ctx]) (sg_cap s))) in
        if decide (n_steps s = sg_cap s) then
          let newcap := if decide (sg_cap s = 0) then 4 else i32 (sg_cap s * 2) in
          if decide (INT_MAX / 2 < sg_cap s \/ SIZE_MAX / SAGA_STEP_SIZE < u64 newcap) then (XTC_E_RANGE, Some s)
          else match alloc with
          | XTC_OK => push (with_steps s (sg_steps s) newcap)
          | e => (e, Some s)
          end
        else push s
  | s, _ => (XTC_E_INVAL, s)
  end.

(** The calls a run makes. *)
Inductive saga_call : Type := Act (i : nat) | Comp (i : nat).

(** The reverse loop from index [i - 1] down: the flag, the world and the
    calls made. *)
Fixpoint unwind (steps : list saga_step) (i : nat) (failed : bool) (e : E) : bool * E * list saga_call :=
  match i with
  | O => (failed, e, [])
  | S i' =>
      match steps !! i' with
      | Some (mk_step _ (Some compensate) ctx) =>
          let '(crc, e') := compensate ctx e in
          let failed := if decide (crc = 0) then failed else true in
          let '(f, e'', calls) := unwind steps i' failed e' in
          (f, e'', Comp i' :: calls)
      | _ => unwind steps i' failed e
      end
  end.

(** The forward loop at index [i]; [fuel] iterations are left. *)
Fixpoint saga_loop (s : xtc_saga) (fuel i : nat) (e : E) : Z * xtc_saga * E * list saga_call :=
  match fuel with
  | O => (0, s, e, [])
  | S fuel' =>
      match sg_steps s !! i with
      | None => (0, s, e, [])                          (* i >= n_steps *)
      | Some (mk_step action _ ctx) =>
          let '(rc, e') := action ctx e in
          if decide (rc = 0) then
            let s := mk_saga (sg_steps s) (sg_cap s) (sg_started s) (sg_n_completed s + 1) (sg_failed_step s)
                       (sg_last_error s) (sg_compensate_failed s) in
            let '(r, s', e'', calls) := saga_loop s fuel' (S i) e' in
            (r, s', e'', Act i :: calls)
          else
            let '(failed, e'', calls) := unwind (sg_steps s) i (sg_compensate_failed s) e' in
            (if failed then rc_code XTC_E_INTERNAL else rc,
             mk_saga (sg_steps s) (sg_cap s) (sg_started s) (sg_n_completed s) (Z.of_nat i) rc failed,
             e'', Act i :: calls)
      end
  end.

(** The code returned, the saga and the world after, and the calls made. *)
Definition xtc_saga_run (s : option xtc_saga) (e : E) : Z * option xtc_saga * E * list saga_call :=
  match s with
  | None => (rc_code XTC_E_INVAL, None, e, [])
  | Some s =>
      if sg_started s then (rc_code XTC_E_INVAL, Some s, e, [])
      else
        let s := mk_saga (sg_steps s) (sg_cap s) true (sg_n_completed s) (sg_failed_step s) (sg_last_error s)
                   (sg_compensate_failed s) in
        let '(r, s', e', calls) := saga_loop s (S (length (sg_steps s))) 0 e in
        (r, Some s', e', calls)
  end.

Definition xtc_saga_n_steps (s : option xtc_saga) : Z := match s with None => 0 | Some s => n_steps s end.
Definition xtc_saga_n_completed (s : option xtc_saga) : Z := match s with None => 0 | Some s => sg_n_completed s end.
Definition xtc_saga_failed_step (s : option xtc_saga) : Z := match s with None => -1 | Some s => sg_failed_step s end.
Definition xtc_saga_last_error (s : option xtc_saga) : Z := match s with None => 0 | Some s => sg_last_error s end.
Definition xtc_saga_compensate_failed (s : option xtc_saga) : Z :=
  match s with None => 0 | Some s => Z.b2z (sg_compensate_failed s) end.

(** ** What a run means *)

(** The steps in order until one fails: the world after them, and the index
    and code of the failing one. *)
Fixpoint forward (steps : list saga_step) (i : nat) (e : E) : E * option (nat * Z) :=
  match steps with
  | [] => (e, None)
  | t :: steps' =>
      let '(rc, e') := st_action t (st_ctx t) e in
      if decide (rc = 0) then forward steps' (S i) e' else (e', Some (i, rc))
  end.

(** Run a list of compensations one after the other, all of them. *)
Definition undo (e : E) (todo : list saga_step) : bool * E :=
  fold_left (fun '(bad, e) t =>
    match st_compensate t with
    | None => (bad, e)
    | Some comp => let '(crc, e') := comp (st_ctx t) e in (bad || negb (bool_decide (crc = 0)), e')
    end) todo (false, e).

(** The indices below [i] with a compensation, from the top. *)
Definition comps_below (steps : list saga_step) (i : nat) : list saga_call :=
  Comp <$> filter (fun j => is_Some (steps !! j ≫= st_compensate)) (reverse (seq 0 i)).

Lemma undo_acc todo b e :
  fold_left (fun '(bad, e) t =>
    match st_compensate t with
    | None => (bad, e)
    | Some comp => let '(crc, e') := comp (st_ctx t) e in (bad || negb (bool_decide (crc = 0)), e')
    end) todo (b, e) = (b || (undo e todo).1, (undo e todo).2).
Proof.
  unfold undo. revert b e. induction todo as [|t todo IH]; intros b e; simpl; [by rewrite orb_false_r|].
  destruct (st_compensate t) as [comp|]; [|apply IH].
  destruct (comp (st_ctx t) e) as [crc e']. rewrite (IH (b || _)), (IH (negb _)). simpl.
  by rewrite orb_assoc.
Qed.

Lemma undo_cons t todo e :
  undo e (t :: todo) =
  match st_compensate t with
  | None => undo e todo
  | Some comp =>
      let '(crc, e') := comp (st_ctx t) e in
      (negb (bool_decide (crc = 0)) || (undo e' todo).1, (undo e' todo).2)
  end.
Proof.
  unfold undo at 1. simpl. destruct (st_compensate t) as [comp|]; [|done].
  destruct (comp (st_ctx t) e) as [crc e']. apply undo_acc.
Qed.

Lemma comps_below_S steps i :
  comps_below steps (S i) =
  (if decide (is_Some (steps !! i ≫= st_compensate)) then [Comp i] else []) ++ comps_below steps i.
Proof.
  unfold comps_below. rewrite seq_S, reverse_app. simpl. rewrite filter_cons. by case_decide.
Qed.

(** The reverse loop runs the compensations of the steps below [i], last
    first, all of them. *)
Lemma unwind_spec steps i failed e :
  (i <= length steps)%nat ->
  unwind steps i failed e =
  let '(bad, e') := undo e (reverse (take i steps)) in (failed || bad, e', comps_below steps i).
Proof.
  revert failed e. induction i as [|i IH]; intros failed e Hi; [simpl; by rewrite orb_false_r|].
  destruct (lookup_lt_is_Some_2 steps i ltac:(lia)) as [t Ht]. simpl. rewrite Ht.
  rewrite (take_S_r _ _ t Ht), reverse_snoc, undo_cons, comps_below_S, Ht. simpl.
  destruct t as [action [comp|] ctx]; simpl.
  - destruct (comp ctx e) as [crc e']. rewrite IH by lia.
    destruct (undo e' (reverse (take i steps))) as [bad e'']. simpl. f_equal. f_equal.
    destruct (decide (crc = 0)) as [->|Hne].
    + by rewrite bool_decide_true.
    + rewrite bool_decide_false by done. simpl. by rewrite orb_true_r.
  - rewrite IH by lia. done.
Qed.

(** The result of a run, from the meaning. *)
Definition run_result (s : xtc_saga) (i : nat) (o : E * option (nat * Z)) : Z * xtc_saga * E * list saga_call :=
  match o with
  | (e', None) =>
      (0, mk_saga (sg_steps s) (sg_cap s) (sg_started s) (sg_n_completed s + (n_steps s - Z.of_nat i))
            (sg_failed_step s) (sg_last_error s) (sg_compensate_failed s), e',
       Act <$> seq i (length (sg_steps s) - i))
  | (e', Some (k, rc)) =>
      let '(bad, e'') := undo e' (reverse (take k (sg_steps s))) in
      let failed := sg_compensate_failed s || bad in
      (if failed then rc_code XTC_E_INTERNAL else rc,
       mk_saga (sg_steps s) (sg_cap s) (sg_started s) (sg_n_completed s + Z.of_nat (k - i)) (Z.of_nat k) rc failed,
       e'', (Act <$> seq i (S k - i)) ++ comps_below (sg_steps s) k)
  end.

Lemma forward_ge steps i e e' k rc : forward steps i e = (e', Some (k, rc)) -> (i <= k < i + length steps)%nat.
Proof.
  revert i e. induction steps as [|t steps IH]; intros i e; simpl; [done|].
  destruct (st_action t (st_ctx t) e) as [rc0 e0]. case_decide.
  - intros ?%IH. lia.
  - intros [= <- <- <-]. lia.
Qed.

Lemma forward_fails steps i e e' k rc : forward steps i e = (e', Some (k, rc)) -> rc <> 0.
Proof.
  revert i e. induction steps as [|t steps IH]; intros i e; simpl; [done|].
  destruct (st_action t (st_ctx t) e) as [rc0 e0]. case_decide; [apply IH|]. by intros [= <- <- <-].
Qed.

Lemma saga_loop_spec s fuel i e :
  (i <= length (sg_steps s))%nat -> (length (sg_steps s) < fuel + i)%nat ->
  saga_loop s fuel i e = run_result s i (forward (drop i (sg_steps s)) i e).
Proof.
  revert s i e. induction fuel as [|fuel IH]; intros s i e Hi Hf; [lia|]. simpl.
  destruct (sg_steps s !! i) as [t|] eqn:Ht.
  2:{ apply lookup_ge_None in Ht. rewrite drop_ge by lia. simpl. unfold n_steps.
      replace (length (sg_steps s) - i)%nat with 0%nat by lia. replace (Z.of_nat (length (sg_steps s)) - Z.of_nat i) with 0 by lia.
      rewrite Z.add_0_r. by destruct s. }
  pose proof (lookup_lt_Some _ _ _ Ht) as Hlt. rewrite (drop_S _ t) by done.
  destruct t as [action comp ctx]. simpl. destruct (action ctx e) as [rc e'].
  destruct (decide (rc = 0)) as [->|Hne].
  - set (s1 := mk_saga _ _ _ _ _ _ _). rewrite (IH s1) by (simpl; lia).
    change (sg_steps s1) with (sg_steps s).
    destruct (forward (drop (S i) (sg_steps s)) (S i) e') as [e'' [[k rc]|]] eqn:Ef; simpl.
    + pose proof (forward_ge _ _ _ _ _ _ Ef) as Hk. destruct (undo e'' _) as [bad e3]. simpl.
      replace (S k - i)%nat with (S (k - i)) by lia.
      by replace (sg_n_completed s + 1 + Z.of_nat (k - S i)) with (sg_n_completed s + Z.of_nat (k - i)) by lia.
    + unfold n_steps. simpl. replace (length (sg_steps s) - i)%nat with (S (length (sg_steps s) - S i)) by lia.
      by replace (sg_n_completed s + 1 + (Z.of_nat (length (sg_steps s)) - Z.of_nat (S i)))
        with (sg_n_completed s + (Z.of_nat (length (sg_steps s)) - Z.of_nat i)) by lia.
  - rewrite unwind_spec by lia. simpl. destruct (undo e' _) as [bad e'']. simpl.
    replace (S i - i)%nat with 1%nat by lia. rewrite Nat.sub_diag, Z.add_0_r. done.
Qed.
End Saga.

Arguments saga_step : clear implicits.
Arguments xtc_saga : clear implicits.
Arguments xtc_saga_fn : clear implicits.

(** A saga as it is before its run. *)
Definition fresh {E} (steps : list (saga_step E)) (cap : Z) : xtc_saga E :=
  mk_saga steps cap false 0 (-1) 0 false.

Lemma saga_run_aux {E} (steps : list (saga_step E)) cap (e : E) :
  match forward steps 0 e with
  | (e', None) =>
      xtc_saga_run (Some (fresh steps cap)) e =
        (0, Some (mk_saga steps cap true (Z.of_nat (length steps)) (-1) 0 false), e',
         Act <$> seq 0 (length steps))
  | (e', Some (k, rc)) =>
      let '(bad, e'') := undo e' (reverse (take k steps)) in
      xtc_saga_run (Some (fresh steps cap)) e =
        (if bad then rc_code XTC_E_INTERNAL else rc,
         Some (mk_saga steps cap true (Z.of_nat k) (Z.of_nat k) rc bad), e'',
         (Act <$> seq 0 (S k)) ++ comps_below steps k) /\
      (k < length steps)%nat
  end.
Proof.
  unfold xtc_saga_run, fresh. cbn [sg_started sg_steps sg_cap sg_n_completed sg_failed_step sg_last_error sg_compensate_failed].
  rewrite saga_loop_spec by (simpl; lia). rewrite drop_0. simpl sg_steps. unfold run_result. simpl sg_steps.
  destruct (forward steps 0 e) as [e' [[k rc]|]] eqn:Ef.
  - pose proof (forward_ge _ _ _ _ _ _ Ef). simpl.
    destruct (undo e' (reverse (take k steps))) as [bad e'']. simpl. rewrite !Nat.sub_0_r. split; [done|lia].
  - simpl. unfold n_steps. simpl. rewrite Nat.sub_0_r, Z.sub_0_r. done.
Qed.

(** The undo of a step restores the world its action found, and an action that
    fails changes nothing. *)
Definition compensated {E} (t : saga_step E) : Prop :=
  forall e rc e', st_action t (st_ctx t) e = (rc, e') ->
    if decide (rc = 0) then
      match st_compensate t with Some comp => comp (st_ctx t) e' = (0, e) | None => e' = e end
    else e' = e.

Lemma forward_undo {E} (steps : list (saga_step E)) i e e' o :
  Forall compensated steps -> forward steps i e = (e', o) ->
  let n := match o with Some (k, _) => (k - i)%nat | None => length steps end in
  undo e' (reverse (take n steps)) = (false, e).
Proof.
  revert i e. induction steps as [|t steps IH]; intros i e Hc; simpl.
  { intros [= <- <-]. done. }
  apply Forall_cons in Hc as [Ht Hc]. destruct (st_action t (st_ctx t) e) as [rc e0] eqn:Ea.
  specialize (Ht e rc e0 Ea). destruct (decide (rc = 0)) as [->|Hne].
  - intros Ef. specialize (IH (S i) e0 Hc Ef). simpl in IH.
    set (m := match o with Some (k, _) => (k - S i)%nat | None => length steps end) in *.
    assert (match o with Some (k, _) => (k - i)%nat | None => S (length steps) end = S m) as ->.
    { unfold m. destruct o as [[k rc]|]; [|done]. pose proof (forward_ge _ _ _ _ _ _ Ef). lia. }
    simpl. rewrite reverse_cons. unfold undo in *. rewrite fold_left_app, IH. simpl.
    destruct (st_compensate t) as [comp|]; [|by subst]. rewrite Ht. by rewrite bool_decide_true.
  - intros [= <- <-]. rewrite Nat.sub_diag. simpl. by subst.
Qed.

(** A saga's run is the meaning of a saga.  If every action succeeds, the
    run returns XTC_OK with the world after all of them.  If step [k] is the
    first to fail, with code [rc], then exactly the actions 0..k were called
    in order, followed by the compensations of the steps below [k] in
    reverse order, every one of them even if some fail; the run returns
    [rc], or XTC_E_INTERNAL if a compensation failed; and the saga records
    [k], [rc], the [k] completed steps and whether a compensation failed. *)
Theorem saga_run_spec {E} (steps : list (saga_step E)) cap (e : E) :
  match forward steps 0 e with
  | (e', None) =>
      xtc_saga_run (Some (fresh steps cap)) e =
        (0, Some (mk_saga steps cap true (Z.of_nat (length steps)) (-1) 0 false), e',
         Act <$> seq 0 (length steps))
  | (e', Some (k, rc)) =>
      let '(bad, e'') := undo e' (reverse (take k steps)) in
      xtc_saga_run (Some (fresh steps cap)) e =
        (if bad then rc_code XTC_E_INTERNAL else rc,
         Some (mk_saga steps cap true (Z.of_nat k) (Z.of_nat k) rc bad), e'',
         (Act <$> seq 0 (S k)) ++ comps_below steps k) /\
      (k < length steps)%nat
  end.
Proof. apply saga_run_aux. Qed.

(** All or nothing.  If every compensation undoes its action and failing
    actions change nothing, a run either succeeds, having run every action,
    or returns the first failing action's own code with the world exactly
    as it was before the run. *)
Theorem saga_atomic {E} (steps : list (saga_step E)) cap (e : E) rc s' e' calls :
  Forall compensated steps ->
  xtc_saga_run (Some (fresh steps cap)) e = (rc, s', e', calls) ->
  (rc = 0 /\ calls = Act <$> seq 0 (length steps)) \/
  (exists k, rc <> 0 /\ e' = e /\ (forward steps 0 e).2 = Some (k, rc) /\
     xtc_saga_compensate_failed s' = 0 /\ xtc_saga_failed_step s' = Z.of_nat k).
Proof.
  intros Hc. pose proof (saga_run_aux steps cap e) as Hs.
  destruct (forward steps 0 e) as [e1 [[k rc1]|]] eqn:Ef.
  - pose proof (forward_undo steps 0 e e1 (Some (k, rc1)) Hc Ef) as Hu. simpl in Hu. rewrite Nat.sub_0_r in Hu.
    rewrite Hu in Hs. destruct Hs as [-> _]. intros [= <- <- <- <-]. right. exists k.
    split_and!; try done. by apply forward_fails in Ef.
  - rewrite Hs. intros [= <- <- <- <-]. by left.
Qed.

(** A saga of two steps on a counter: the second fails. *)
Definition demo_saga : list (saga_step Z) :=
  [mk_step (fun c e => (0, e + c)) (Some (fun c e => (0, e - c))) 5; mk_step (fun c e => (-7, e)) None 0].

Lemma saga_atomic_witness :
  exists rc s' e' calls, xtc_saga_run (Some (fresh demo_saga 4)) 100 = (rc, s', e', calls) /\
    rc = -7 /\ e' = 100.
Proof.
  destruct (xtc_saga_run (Some (fresh demo_saga 4)) 100) as [[[rc s'] e'] calls] eqn:Er.
  exists rc, s', e', calls. split; [reflexivity|].
  destruct (saga_atomic demo_saga 4 100 rc s' e' calls) as [[E _]|(k & H1 & H2 & H3 & _)].
  - apply Forall_cons_2; [|apply Forall_cons_2; [|apply Forall_nil_2]].
    + intros e rc0 e0 [= <- <-]. simpl. f_equal. lia.
    + intros e rc0 e0 [= <- <-]. reflexivity.
  - exact Er.
  - subst rc. discriminate Er.
  - split; [|exact H2]. by injection H3.
Defined.

(** ** Growth *)

(** The array: capacities are 0 or a power of two from 4 to 2^30. *)
Definition sg_ok {E} (s : xtc_saga E) : Prop :=
  n_steps s <= sg_cap s /\ (sg_cap s = 0 \/ exists j, 2 <= j <= 30 /\ sg_cap s = 2 ^ j).

Lemma sg_cap_range {E} (s : xtc_saga E) : sg_ok s -> 0 <= sg_cap s <= 2 ^ 30.
Proof.
  intros [_ [->|(j & Hj & ->)]]; [lia|]. pose proof (Z.pow_le_mono_r 2 j 30 ltac:(lia) ltac:(lia)). lia.
Qed.

(** Building a saga stays within its arithmetic.  On a well-formed saga a
    call that adds a step either appends exactly that step, keeps the array
    well-formed and within [int], or fails and changes nothing; an unstarted
    saga with an action is refused only for want of memory, or with
    XTC_E_RANGE exactly when its 2^30 slots are full. *)
Theorem saga_step_bounds {E} (s s' : xtc_saga E) action compensate ctx alloc c :
  sg_ok s -> xtc_saga_step (Some s) (Some action) compensate ctx alloc = (c, Some s') ->
  sg_ok s' /\ n_steps s' <= INT_MAX /\
  (if decide (c = XTC_OK) then sg_steps s' = sg_steps s ++ [mk_step action compensate ctx] else s' = s) /\
  (sg_started s = false -> alloc = XTC_OK -> c = if decide (n_steps s = 2 ^ 30) then XTC_E_RANGE else XTC_OK).
Proof.
  intros Hok Hs. pose proof (sg_cap_range s Hok) as Hr. pose proof Hok as [Hle Hcap].
  assert (0 <= n_steps s) as H0 by (unfold n_steps; lia).
  assert (INT_MAX / 2 = 2 ^ 30 - 1) as Hmax by reflexivity.
  assert (forall cap, n_steps s < cap -> cap <= 2 ^ 30 -> (cap = 0 \/ exists j, 2 <= j <= 30 /\ cap = 2 ^ j) ->
    sg_ok (with_steps s (sg_steps s ++ [mk_step action compensate ctx]) cap) /\
    n_steps (with_steps s (sg_steps s ++ [mk_step action compensate ctx]) cap) <= INT_MAX) as Hpush.
  { intros cap Hlt Hc Hp. unfold sg_ok, n_steps, INT_MAX in *. simpl. rewrite length_app. simpl. split; [split; [lia|done]|lia]. }
  unfold xtc_saga_step in Hs. destruct (sg_started s) eqn:Est.
  { injection Hs as <- <-. split; [exact Hok|]. split; [unfold INT_MAX; lia|]. split; [|discriminate].
    rewrite decide_False by discriminate. reflexivity. }
  destruct (decide (n_steps s = sg_cap s)) as [Ef|Ef].
  2:{ injection Hs as <- <-. destruct (Hpush (sg_cap s)) as [P1 P2]; [lia|lia|exact Hcap|].
      split; [exact P1|]. split; [exact P2|]. split; [rewrite decide_True; reflexivity|].
      intros _ _. rewrite decide_False by lia. reflexivity. }
  set (newcap := if decide (sg_cap s = 0) then 4 else i32 (sg_cap s * 2)) in Hs.
  destruct (decide (sg_cap s = 2 ^ 30)) as [Em|Em].
  - rewrite decide_True in Hs by (left; lia). injection Hs as <- <-.
    split; [exact Hok|]. split; [unfold INT_MAX; lia|]. split; [rewrite decide_False by discriminate; reflexivity|].
    intros _ _. rewrite decide_True by lia. reflexivity.
  - assert (n_steps s < newcap <= 2 ^ 30 /\ exists j, 2 <= j <= 30 /\ newcap = 2 ^ j) as (Hn & j & Hj & Ej).
    { unfold newcap. destruct (decide (sg_cap s = 0)) as [E0|E0].
      - split; [lia|]. exists 2. split; [lia|reflexivity].
      - destruct Hcap as [?|(j & Hj & Ej)]; [done|]. assert (j <> 30) by (intros ->; lia).
        assert (sg_cap s * 2 = 2 ^ (j + 1)) as E2 by (rewrite Z.pow_add_r by lia; lia).
        pose proof (Z.pow_le_mono_r 2 (j + 1) 30 ltac:(lia) ltac:(lia)) as Hp.
        assert (0 < sg_cap s) by (rewrite Ej; apply Z.pow_pos_nonneg; lia).
        rewrite swrap_small by lia. split; [lia|]. exists (j + 1). split; [lia|exact E2]. }
    rewrite decide_False in Hs.
    2:{ rewrite (uwrap_small 64) by lia. unfold SIZE_MAX, SAGA_STEP_SIZE.
        intros [?|Hb]; [lia|]. change ((2 ^ 64 - 1) / 24) with 768614336404564650 in Hb. lia. }
    destruct (decide (alloc = XTC_OK)) as [->|Ha].
    + injection Hs as <- <-. destruct (Hpush newcap) as [P1 P2]; [lia|lia|right; eauto|].
      split; [exact P1|]. split; [exact P2|]. split; [rewrite decide_True; reflexivity|].
      intros _ _. rewrite decide_False by lia. reflexivity.
    + assert (c = alloc /\ s' = s) as [-> ->] by (destruct alloc; try done; by injection Hs).
      split; [exact Hok|]. split; [unfold INT_MAX; lia|]. split; [rewrite decide_False by done; reflexivity|].
      intros _ ?. contradiction.
Qed.

Lemma saga_step_bounds_witness :
  exists s', xtc_saga_step (Some (fresh demo_saga 4)) (Some (fun _ e => (0, e))) None 0 XTC_OK = (XTC_OK, Some s') /\
    sg_ok s' /\ length (sg_steps s') = 3%nat.
Proof.
  eexists. split; [reflexivity|].
  assert (sg_ok (fresh demo_saga 4)) as Hok.
  { split; [by vm_compute|]. right. exists 2. split; [lia|reflexivity]. }
  split; [|reflexivity].
  exact (proj1 (saga_step_bounds (fresh demo_saga 4) _ (fun _ e => (0, e)) None 0 XTC_OK XTC_OK Hok eq_refl)).
Defined.
