(* ===== verification/Prob.v ===== *)
(** * Probabilistic sets (src/ptc/prob.c): Bloom filter and HyperLogLog

    Keys are byte strings; the two hashes, the probe positions, the packed
    bit array and the registers are modelled at their widths.  The natural
    logarithm, the sizing formula of [xtc_bloom_init] and the estimate of
    [xtc_hll_count] compute with doubles: they are translated to the Standard
    Library's IEEE 754 binary64 operations (round to nearest even, every
    operation rounded on its own), which evaluate inside Rocq. *)

From S2P Require Import Prelude.

Local Open Scope Z_scope.

(** ** Hashing *)

(** One byte of the loop: FNV-1a for [a], a shift-add mix for [b]. *)
Definition hash_byte (ab : Z * Z) (byte : Z) : Z * Z :=
  let '(a, b) := ab in
  let a := u64 (Z.lxor a byte * 0x100000001b3) in
  let b := u64 (b + byte) in
  let b := u64 (b + u64 (Z.shiftl b 10)) in
  (a, Z.lxor b (Z.shiftr b 6)).

Definition xorshift (a k : Z) : Z := Z.lxor a (Z.shiftr a k).

Definition __prob_hash2 (key : list Z) : Z * Z :=
  let '(a, b) := fold_left hash_byte key (0xcbf29ce484222325, 0x9e3779b97f4a7c15) in
  let a := u64 (xorshift a 33 * 0xff51afd7ed558ccd) in
  let a := u64 (xorshift a 33 * 0xc4ceb9fe1a85ec53) in
  let a := xorshift a 33 in
  let b := u64 (b + 0x9e3779b97f4a7c15) in
  let b := u64 (xorshift b 30 * 0xbf58476d1ce4e5b9) in
  let b := u64 (xorshift b 27 * 0x94d049bb133111eb) in
  let b := xorshift b 31 in
  (a, Z.lor b 1).

(** ** The natural logarithm *)

(** 0.6931471805599453094172321214582 *)
Definition LN2 : double := S754_finite false 0x162E42FEFA39EF (-53).

(** The two loops that bring [x] into [1, 2), counting the powers of two; the
    binary64 exponents run from -1074 to 1023, so 1100 turns are enough for
    any finite positive [x]. *)
Fixpoint ln_halve (fuel : nat) (x : double) (e : Z) : double * Z :=
  match fuel with
  | O => (x, e)
  | S fuel' => if double_le (double_of_Z 2) x then ln_halve fuel' (double_mul x (double_lit 5 1)) (e + 1) else (x, e)
  end.

Fixpoint ln_double (fuel : nat) (x : double) (e : Z) : double * Z :=
  match fuel with
  | O => (x, e)
  | S fuel' => if double_lt x double_one then ln_double fuel' (double_mul x (double_of_Z 2)) (e - 1) else (x, e)
  end.

(** The series: i = 1, 3, ..., 39. *)
Definition ln_series (s : double) : double :=
  let s2 := double_mul s s in
  (fold_left (fun acc i => let '(sum, term) := acc in (double_add sum (double_div term (double_of_Z i)), double_mul term s2))
     ((fun k => 2 * Z.of_nat k + 1) <$> seq 0 20) (double_zero, s)).1.

Definition __prob_ln (x : double) : double :=
  if double_le x double_zero then double_zero
  else
    let '(x, e) := ln_halve 1100 x 0 in
    let '(x, e) := ln_double 1100 x e in
    let s := double_div (double_sub x double_one) (double_add x double_one) in
    double_add (double_mul (double_of_Z e) LN2) (double_mul (double_of_Z 2) (ln_series s)).

(** ** The Bloom filter *)

Record xtc_bloom := mk_bloom {
  bl_bits : list Z;
  bl_nwords : Z;
  bl_m : Z;
  bl_mask : Z;
  bl_k : Z;
}.

(** The loop of [__prob_next_pow2]; 64 shifts are enough. *)
Fixpoint pow2_loop (fuel : nat) (p v : Z) : Z :=
  match fuel with
  | O => p
  | S fuel' => if decide (p < v /\ u64 (Z.shiftl p 1) <> 0) then pow2_loop fuel' (u64 (Z.shiftl p 1)) v else p
  end.

Definition __prob_next_pow2 (v : Z) : Z := if decide (v <= 1) then 1 else pow2_loop 64 1 v.

(** The number of bits asked for: ceil(-n ln(p) / ln2^2), at least 1. *)
Definition bloom_bits (n_expected : Z) (fp_rate : double) : Z :=
  let n := double_of_Z n_expected in
  let m_opt := double_div (SFopp (double_mul n (__prob_ln fp_rate))) (double_mul LN2 LN2) in
  let m_opt := if double_lt m_opt double_one then double_of_Z 1 else m_opt in
  let m := double_trunc m_opt in
  if double_lt (double_of_Z m) m_opt then m + 1 else m.

(** The number of probes for [m] bits: round((m / n) ln2), clamped to 1..64. *)
Definition bloom_probes (n_expected m : Z) : Z :=
  let k_opt := double_mul (double_div (double_of_Z m) (double_of_Z n_expected)) LN2 in
  let k := u32 (double_trunc (double_add k_opt (double_lit 5 1))) in
  let k := if decide (k < 1) then 1 else k in
  if decide (64 < k) then 64 else k.

(** [n_expected] with the default the initialisation gives it. *)
Definition n_or_1 (n_expected : Z) : Z := if decide (n_expected = 0) then 1 else n_expected.

(** [a1], [a2]: the allocations' outcomes. *)
Definition xtc_bloom_init (out : bool) (n_expected : Z) (fp_rate : double) (a1 a2 : rc) : rc * option xtc_bloom :=
  if negb out then (XTC_E_INVAL, None)
  else if negb (double_lt double_zero fp_rate) || negb (double_lt fp_rate double_one) then (XTC_E_INVAL, None)
  else
    let n := n_or_1 n_expected in
    let m := __prob_next_pow2 (bloom_bits n fp_rate) in
    let k := bloom_probes n m in
    match a1, a2 with
    | XTC_OK, XTC_OK =>
        let nwords := u64 (m + 63) / 64 in
        (XTC_OK, Some (mk_bloom (replicate (Z.to_nat nwords) 0) nwords m (u64 (m - 1)) k))
    | XTC_OK, e => (e, None)
    | e, _ => (e, None)
    end.

Definition __bloom_pos (b : xtc_bloom) (h1 h2 i : Z) : Z := Z.land (u64 (h1 + u64 (i * h2))) (bl_mask b).

(** Set one bit of the packed array. *)
Definition set_bit (bits : list Z) (pos : Z) : list Z :=
  let w := Z.to_nat (Z.shiftr pos 6) in
  <[w := Z.lor (bits !!! w) (Z.shiftl 1 (Z.land pos 63))]> bits.

Definition test_bit (bits : list Z) (pos : Z) : bool :=
  negb (Z.land (bits !!! Z.to_nat (Z.shiftr pos 6)) (Z.shiftl 1 (Z.land pos 63)) =? 0).

(** The probe indices, in the loop's order. *)
Definition probes (b : xtc_bloom) : list Z := Z.of_nat <$> seq 0 (Z.to_nat (bl_k b)).

Definition xtc_bloom_add (b : option xtc_bloom) (key : list Z) : option xtc_bloom :=
  match b with
  | None => None
  | Some b =>
      let '(h1, h2) := __prob_hash2 key in
      Some (mk_bloom (fold_left (fun bits i => set_bit bits (__bloom_pos b h1 h2 i)) (probes b) (bl_bits b))
              (bl_nwords b) (bl_m b) (bl_mask b) (bl_k b))
  end.

Definition xtc_bloom_maybe_contains (b : option xtc_bloom) (key : list Z) : bool :=
  match b with
  | None => false
  | Some b =>
      let '(h1, h2) := __prob_hash2 key in
      forallb (fun i => test_bit (bl_bits b) (__bloom_pos b h1 h2 i)) (probes b)
  end.

(** *** Words and bits *)

Lemma shiftr_6 pos : Z.shiftr pos 6 = pos / 64.
Proof. by rewrite Z.shiftr_div_pow2. Qed.

Lemma land_63 pos : Z.land pos 63 = pos mod 64.
Proof. exact (land_pow2_mask pos 6 ltac:(lia)). Qed.

Lemma land_bit w n : 0 <= n -> (Z.land w (2 ^ n) =? 0) = negb (Z.testbit w n).
Proof.
  intros Hn. destruct (Z.testbit w n) eqn:E; simpl.
  - apply Z.eqb_neq. intros Hz. assert (Z.testbit (Z.land w (2 ^ n)) n = true) as Ht.
    { rewrite Z.land_spec, E, Z.pow2_bits_true by lia. done. }
    by rewrite Hz, Z.bits_0 in Ht.
  - apply Z.eqb_eq, Z.bits_inj'. intros j Hj. rewrite Z.land_spec, Z.pow2_bits_eqb, Z.bits_0 by lia.
    destruct (Z.eqb_spec n j) as [<-|]; [by rewrite E|by rewrite andb_false_r].
Qed.

Lemma test_bit_spec bits pos :
  0 <= pos -> test_bit bits pos = Z.testbit (bits !!! Z.to_nat (pos / 64)) (pos mod 64).
Proof.
  intros H0. unfold test_bit. pose proof (Z.mod_pos_bound pos 64 ltac:(lia)).
  rewrite shiftr_6, land_63, Z.shiftl_1_l, land_bit, negb_involutive by lia. done.
Qed.

(** A bit that is set stays set, and the one asked for is set. *)
Lemma set_bit_spec bits pos q :
  0 <= pos -> 0 <= q -> (Z.to_nat (pos / 64) < length bits)%nat ->
  test_bit (set_bit bits pos) q = test_bit bits q || bool_decide (q = pos).
Proof.
  intros Hp Hq Hlt. rewrite !test_bit_spec by done. unfold set_bit. rewrite shiftr_6, land_63.
  assert (0 <= pos mod 64 < 64) as Hr by (apply Z.mod_pos_bound; lia).
  assert (0 <= q mod 64 < 64) as Hrq by (apply Z.mod_pos_bound; lia).
  destruct (decide (q / 64 = pos / 64)) as [Eq|Hne].
  - rewrite Eq, list_lookup_total_insert_eq by done.
    rewrite Z.lor_spec, Z.shiftl_1_l, Z.pow2_bits_eqb by lia. f_equal.
    apply eq_bool_prop_intro. rewrite !Is_true_true, Z.eqb_eq, bool_decide_eq_true. split; [|by intros ->].
    intros Em. rewrite (Z.div_mod q 64), (Z.div_mod pos 64), Eq, Em by lia. done.
  - rewrite list_lookup_total_insert_ne.
    + rewrite bool_decide_false by (intros ->; done). by rewrite orb_false_r.
    + intros E. apply Hne. apply Z2Nat.inj in E; [done| |]; apply Z.div_pos; lia.
Qed.

Lemma length_set_bit bits pos : length (set_bit bits pos) = length bits.
Proof. apply length_insert. Qed.

(** ** Sizing *)

Lemma u64_shift p : u64 (Z.shiftl p 1) = (2 * p) mod 2 ^ 64.
Proof. unfold uwrap. by rewrite Z.shiftl_mul_pow2, Z.mul_comm by lia. Qed.

Lemma pow2_loop_spec fuel j v :
  0 <= j <= 63 -> v < 2 ^ 64 -> (Z.of_nat fuel + j = 64) ->
  exists j', j <= j' <= 63 /\ pow2_loop fuel (2 ^ j) v = 2 ^ j' /\ (v <= 2 ^ 63 -> v <= 2 ^ j').
Proof.
  revert j. induction fuel as [|fuel IH]; intros j Hj Hv Hf; simpl; [lia|].
  assert (2 * 2 ^ j = 2 ^ (j + 1)) as E2 by (rewrite Z.pow_add_r by lia; lia).
  destruct (decide (2 ^ j < v /\ u64 (Z.shiftl (2 ^ j) 1) <> 0)) as [[Hlt Hnz]|Hstop].
  - rewrite u64_shift, E2 in *. assert (j <> 63) as Hne by (intros ->; by apply Hnz).
    pose proof (Z.pow_lt_mono_r 2 (j + 1) 64 ltac:(lia) ltac:(lia) ltac:(lia)).
    assert (0 < 2 ^ (j + 1)) by (apply Z.pow_pos_nonneg; lia).
    rewrite Z.mod_small in * by lia. destruct (IH (j + 1)) as (j' & H1 & H2 & H3); [lia|done|lia|].
    exists j'. split_and!; [lia|lia|done|done].
  - exists j. split_and!; [lia|lia|done|]. intros Hle. destruct (decide (v <= 2 ^ j)) as [|Hgt]; [done|].
    exfalso. apply Hstop. split; [lia|]. rewrite u64_shift, E2.
    assert (j <> 63) by (intros ->; lia).
    pose proof (Z.pow_lt_mono_r 2 (j + 1) 64 ltac:(lia) ltac:(lia) ltac:(lia)).
    assert (0 < 2 ^ (j + 1)) by (apply Z.pow_pos_nonneg; lia).
    rewrite Z.mod_small by lia. lia.
Qed.

(** A filter as the initialisation leaves it and the additions keep it. *)
Definition bloom_ok (b : xtc_bloom) : Prop :=
  exists j, 0 <= j <= 63 /\ bl_m b = 2 ^ j /\ bl_mask b = 2 ^ j - 1 /\
    Z.of_nat (length (bl_bits b)) = bl_nwords b /\ bl_nwords b = (2 ^ j + 63) / 64 /\ 1 <= bl_k b <= 64.

Lemma bloom_probes_range n m : 1 <= bloom_probes n m <= 64.
Proof. unfold bloom_probes. repeat case_decide; lia. Qed.

Lemma bloom_init_ok out n fp a1 a2 b :
  bloom_bits (n_or_1 n) fp < 2 ^ 64 -> xtc_bloom_init out n fp a1 a2 = (XTC_OK, Some b) ->
  bloom_ok b /\ (bloom_bits (n_or_1 n) fp <= 2 ^ 63 -> bloom_bits (n_or_1 n) fp <= bl_m b).
Proof.
  unfold xtc_bloom_init. set (m0 := bloom_bits (n_or_1 n) fp). intros Hm E. destruct (negb out); [done|].
  destruct (negb _ || negb _); [done|]. destruct a1; try done. destruct a2; try done. injection E as <-.
  assert (exists j, 0 <= j <= 63 /\ __prob_next_pow2 m0 = 2 ^ j /\ (m0 <= 2 ^ 63 -> m0 <= 2 ^ j))
    as (j & Hj & -> & Hle).
  { unfold __prob_next_pow2. case_decide; [exists 0; split_and!; [lia|lia|done|lia]|].
    destruct (pow2_loop_spec 64 0 m0 ltac:(lia) Hm eq_refl) as (j & H1 & H2 & H3). exists j.
    split_and!; [lia|lia|exact H2|exact H3]. }
  pose proof (Z.pow_le_mono_r 2 j 63 ltac:(lia) ltac:(lia)).
  assert (0 < 2 ^ j) by (apply Z.pow_pos_nonneg; lia).
  split; [|exact Hle]. exists j. simpl. rewrite (uwrap_small 64 (2 ^ j + 63)), (uwrap_small 64 (2 ^ j - 1)) by lia.
  assert (0 <= (2 ^ j + 63) / 64) by (apply Z.div_pos; lia).
  pose proof (bloom_probes_range (n_or_1 n) (2 ^ j)).
  split_and!; try lia; try reflexivity. rewrite length_replicate. lia.
Qed.

(** Probe positions are within the array. *)
Lemma bloom_pos_range b h1 h2 i :
  bloom_ok b -> 0 <= __bloom_pos b h1 h2 i < bl_m b /\
    (Z.to_nat (__bloom_pos b h1 h2 i / 64) < length (bl_bits b))%nat.
Proof.
  intros (j & Hj & Em & Ek & El & En & _). unfold __bloom_pos.
  rewrite Ek, land_pow2_mask by lia.
  assert (0 < 2 ^ j) by (apply Z.pow_pos_nonneg; lia).
  pose proof (Z.mod_pos_bound (u64 (h1 + u64 (i * h2))) (2 ^ j) ltac:(lia)) as Hr.
  set (pos := _ mod 2 ^ j) in *. split; [lia|].
  assert (0 <= pos / 64) by (apply Z.div_pos; lia).
  assert (pos / 64 < (2 ^ j + 63) / 64); [|lia].
  assert (64 * (pos / 64) <= pos) by (apply Z.mul_div_le; lia).
  pose proof (Z.div_mod (2 ^ j + 63) 64 ltac:(lia)). pose proof (Z.mod_pos_bound (2 ^ j + 63) 64 ltac:(lia)). lia.
Qed.

(** The second hash is odd, so multiples of it differ modulo a power of two. *)
Lemma hash2_odd key : Z.odd (__prob_hash2 key).2 = true.
Proof.
  unfold __prob_hash2. destruct (fold_left hash_byte key _) as [a b]. simpl.
  rewrite <-Z.bit0_odd, Z.lor_spec, Z.bit0_odd. simpl. by rewrite orb_true_r.
Qed.

Lemma odd_divide (n : nat) h x : Z.odd h = true -> (2 ^ Z.of_nat n | x * h) -> (2 ^ Z.of_nat n | x).
Proof.
  intros Ho. revert x. induction n as [|n IH]; intros x Hd; [by exists x; rewrite Z.mul_1_r|].
  rewrite Nat2Z.inj_succ, Z.pow_succ_r in * by lia. destruct Hd as [c Hc].
  assert (Z.even x = true) as Hx.
  { rewrite <-Z.negb_odd. apply negb_true_iff. destruct (Z.odd x) eqn:Ex; [|done].
    assert (Z.odd (x * h) = true) as Hodd by (by rewrite Z.odd_mul, Ex, Ho).
    rewrite Hc, Z.odd_mul, (Z.odd_mul 2), andb_false_r in Hodd. done. }
  apply Z.even_spec in Hx as [y ->]. apply Z.mul_divide_mono_l. apply IH. exists c. lia.
Qed.

Lemma odd_mul_inj h j i i' :
  Z.odd h = true -> 0 <= j -> 0 <= i < 2 ^ j -> 0 <= i' < 2 ^ j -> (2 ^ j | (i - i') * h) -> i = i'.
Proof.
  intros Ho Hj Hi Hi' Hd. rewrite <-(Z2Nat.id j) in * by done.
  destruct (odd_divide _ _ _ Ho Hd) as [c Hc]. assert (c = 0) as -> by nia. lia.
Qed.

Lemma probes_distinct b key i i' :
  bloom_ok b -> 0 <= i < bl_m b -> 0 <= i' < bl_m b -> i <> i' ->
  __bloom_pos b (__prob_hash2 key).1 (__prob_hash2 key).2 i <>
  __bloom_pos b (__prob_hash2 key).1 (__prob_hash2 key).2 i'.
Proof.
  intros (j & Hj & Em & Ek & _) Hi Hi' Hne E. apply Hne. rewrite Em in Hi, Hi'.
  apply (odd_mul_inj (__prob_hash2 key).2 j); [apply hash2_odd|lia|done|done|].
  unfold __bloom_pos in E. rewrite Ek, !land_pow2_mask in E by lia. set (h1 := (__prob_hash2 key).1) in *.
  set (h2 := (__prob_hash2 key).2) in *.
  assert (0 < 2 ^ j) as Hp by (apply Z.pow_pos_nonneg; lia).
  assert (forall x, u64 x mod 2 ^ j = x mod 2 ^ j) as Eu.
  { intros x. unfold uwrap. replace 64 with (j + (64 - j)) by lia. rewrite Z.pow_add_r by lia.
    rewrite Z.rem_mul_r by lia. rewrite Z.add_mod, Z.mul_mod, Z.mod_same, Z.mul_0_l, Z.mod_0_l, Z.add_0_r, !Z.mod_mod by lia. done. }
  rewrite !Eu in E. rewrite (Z.add_mod h1 (u64 (i * h2))), (Z.add_mod h1 (u64 (i' * h2))), !Eu in E by lia.
  rewrite <-!Z.add_mod in E by lia. apply Z.mod_divide; [lia|].
  replace ((i - i') * h2) with ((h1 + i * h2) - (h1 + i' * h2)) by ring.
  by rewrite Zminus_mod, E, Z.sub_diag, Z.mod_0_l by lia.
Qed.

Lemma add_bits b h1 h2 ps bits q :
  bloom_ok b -> length bits = length (bl_bits b) -> 0 <= q ->
  let bits' := fold_left (fun bits i => set_bit bits (__bloom_pos b h1 h2 i)) ps bits in
  length bits' = length bits /\
  (test_bit bits' q = true <-> test_bit bits q = true \/ exists i, i ∈ ps /\ q = __bloom_pos b h1 h2 i).
Proof.
  intros Hb Hl Hq. revert bits Hl. induction ps as [|i ps IH]; intros bits Hl; simpl.
  { split; [done|]. split; [by left|]. intros [?|(i & Hi & _)]; [done|]. by apply elem_of_nil in Hi. }
  destruct (bloom_pos_range b h1 h2 i Hb) as [Hr Hlt]. rewrite <-Hl in Hlt.
  destruct (IH (set_bit bits (__bloom_pos b h1 h2 i))) as [I1 I2]; [by rewrite length_set_bit|].
  rewrite I1, length_set_bit. split; [done|]. rewrite I2, set_bit_spec by (done || lia).
  rewrite orb_true_iff, bool_decide_eq_true. setoid_rewrite elem_of_cons. naive_solver.
Qed.

Lemma bloom_add_ok b key b' :
  bloom_ok b -> xtc_bloom_add (Some b) key = Some b' ->
  bloom_ok b' /\ bl_mask b' = bl_mask b /\ bl_k b' = bl_k b /\
  (forall q, 0 <= q -> test_bit (bl_bits b') q = true <->
     test_bit (bl_bits b) q = true \/
     exists i, i ∈ probes b /\ q = __bloom_pos b (__prob_hash2 key).1 (__prob_hash2 key).2 i).
Proof.
  intros Hb E. unfold xtc_bloom_add in E. destruct (__prob_hash2 key) as [h1 h2]. injection E as <-.
  assert (forall q, 0 <= q -> _) as Hq by (intros q Hq; exact (add_bits b h1 h2 (probes b) (bl_bits b) q Hb eq_refl Hq)).
  split_and!; try done; [|intros q H0; apply (Hq q H0)].
  destruct Hb as (j & H1 & H2 & H3 & H4 & H5 & H6). exists j. simpl. destruct (Hq 0 ltac:(lia)) as [-> _]. done.
Qed.

Lemma contains_spec b key :
  bloom_ok b ->
  xtc_bloom_maybe_contains (Some b) key = true <->
  forall i, i ∈ probes b -> test_bit (bl_bits b) (__bloom_pos b (__prob_hash2 key).1 (__prob_hash2 key).2 i) = true.
Proof.
  intros Hb. simpl. destruct (__prob_hash2 key) as [h1 h2]. rewrite forallb_forall. simpl.
  by setoid_rewrite <-list_elem_of_In.
Qed.

(** A filter built by adding keys one after the other. *)
Definition add_all (b : option xtc_bloom) (keys : list (list Z)) : option xtc_bloom := fold_left xtc_bloom_add keys b.

(** Adding keys keeps what was found. *)
Lemma add_all_keeps keys b b' key :
  bloom_ok b -> add_all (Some b) keys = Some b' ->
  bloom_ok b' /\ (key ∈ keys \/ xtc_bloom_maybe_contains (Some b) key = true ->
    xtc_bloom_maybe_contains (Some b') key = true).
Proof.
  revert b. induction keys as [|k keys IH]; intros b Hb; simpl.
  { intros [= <-]. split; [done|]. intros [Hin|?]; [by apply elem_of_nil in Hin|done]. }
  destruct (xtc_bloom_add (Some b) k) as [b1|] eqn:E1.
  2:{ simpl in E1. by destruct (__prob_hash2 k). }
  change (add_all (xtc_bloom_add (Some b) k) keys = Some b' -> bloom_ok b' /\
    (key ∈ k :: keys \/ xtc_bloom_maybe_contains (Some b) key = true ->
     xtc_bloom_maybe_contains (Some b') key = true)). rewrite E1. intros E.
  destruct (bloom_add_ok b k b1 Hb E1) as (Hb1 & Em & Ek & Hbits).
  assert (forall h1 h2 i, __bloom_pos b1 h1 h2 i = __bloom_pos b h1 h2 i) as Ep
    by (intros; unfold __bloom_pos; by rewrite Em).
  assert (probes b1 = probes b) as Epr by (unfold probes; by rewrite Ek).
  destruct (IH b1 Hb1 E) as [Hb' Hk]. split; [done|]. intros Hin. apply Hk.
  destruct (decide (key ∈ keys)) as [|Hnin]; [by left|]. right.
  apply contains_spec; [done|]. intros i Hi. rewrite Ep, Epr in *.
  destruct (bloom_pos_range b (__prob_hash2 key).1 (__prob_hash2 key).2 i Hb) as [Hr _].
  apply Hbits; [lia|]. destruct Hin as [[->|?]%elem_of_cons|Hc]; [eauto|done|].
  left. by apply contains_spec.
Qed.

(** The Bloom filter has no false negatives, and its probes are distinct.
    Whatever filter the initialisation returns, after any sequence of
    additions every key that was added is reported as maybe present; the
    bit count is a power of two that holds what was asked for; and for any
    key the probe positions of two different probes differ as long as there
    are no more probes than bits. *)
Theorem bloom_no_false_negatives out n fp a1 a2 b keys b' key :
  bloom_bits (n_or_1 n) fp < 2 ^ 64 -> xtc_bloom_init out n fp a1 a2 = (XTC_OK, Some b) ->
  add_all (Some b) keys = Some b' ->
  (key ∈ keys -> xtc_bloom_maybe_contains (Some b') key = true) /\
  (bloom_bits (n_or_1 n) fp <= 2 ^ 63 -> bloom_bits (n_or_1 n) fp <= bl_m b) /\
  (forall i i', 0 <= i < bl_m b -> 0 <= i' < bl_m b -> i <> i' ->
     __bloom_pos b (__prob_hash2 key).1 (__prob_hash2 key).2 i <>
     __bloom_pos b (__prob_hash2 key).1 (__prob_hash2 key).2 i').
Proof.
  intros Hm Hi Ha. destruct (bloom_init_ok _ _ _ _ _ _ Hm Hi) as [Hb Hle].
  split_and!; [|done|intros i i'; by apply probes_distinct].
  intros Hin. apply (add_all_keeps keys b b' key Hb Ha). by left.
Qed.

(** A filter for 100 keys at one false positive in a hundred: 1024 bits and
    7 probes. *)
Example bloom_sizing :
  bloom_bits 100 (double_lit 1 2) = 959 /\ __prob_next_pow2 959 = 1024 /\ bloom_probes 100 1024 = 7.
Proof. vm_compute. done. Qed.

Lemma bloom_no_false_negatives_witness :
  exists b b', xtc_bloom_init true 10 (double_lit 1 1) XTC_OK XTC_OK = (XTC_OK, Some b) /\
    add_all (Some b) [[1; 2]; [255]] = Some b' /\ xtc_bloom_maybe_contains (Some b') [255] = true.
Proof.
  eexists _, _. split; [vm_compute; reflexivity|]. split; [vm_compute; reflexivity|].
  eapply (proj1 (bloom_no_false_negatives true 10 (double_lit 1 1) XTC_OK XTC_OK _ [[1; 2]; [255]] _ [255]
    ltac:(vm_compute; reflexivity) ltac:(vm_compute; reflexivity) ltac:(vm_compute; reflexivity))). right. left.
Defined.

(** ** HyperLogLog *)

Record xtc_hll := mk_hll { hl_reg : list Z; hl_p : Z }.

Definition hl_m (h : xtc_hll) : Z := Z.shiftl 1 (hl_p h).

Definition hll_new (precision : Z) : xtc_hll := mk_hll (replicate (Z.to_nat (Z.shiftl 1 precision)) 0) precision.

Definition xtc_hll_init (out : bool) (precision : Z) (a1 a2 : rc) : rc * option xtc_hll :=
  if negb out then (XTC_E_INVAL, None)
  else if decide (precision < 4 \/ 18 < precision) then (XTC_E_INVAL, None)
  else match a1, a2 with
  | XTC_OK, XTC_OK => (XTC_OK, Some (hll_new precision))
  | XTC_OK, e => (e, None)
  | e, _ => (e, None)
  end.

(** The loop that counts leading zeros of [w]; 64 shifts are enough when [w]
    is not zero. *)
Fixpoint lz_loop (fuel : nat) (w lz : Z) : Z :=
  match fuel with
  | O => lz
  | S fuel' =>
      if Z.land w 0x8000000000000000 =? 0 then lz_loop fuel' (u64 (Z.shiftl w 1)) (lz + 1) else lz
  end.

Definition hll_rho (p h1 : Z) : Z :=
  let w := u64 (Z.shiftl h1 p) in
  if decide (w = 0) then u8 (64 - p + 1) else u8 (u8 (lz_loop 64 w 0) + 1).

Definition hll_idx (p h1 : Z) : Z := Z.shiftr h1 (64 - p).

Definition xtc_hll_add (h : option xtc_hll) (key : list Z) : option xtc_hll :=
  match h with
  | None => None
  | Some h =>
      let h1 := (__prob_hash2 key).1 in
      let idx := Z.to_nat (hll_idx (hl_p h) h1) in
      let rho := hll_rho (hl_p h) h1 in
      Some (mk_hll (if decide (hl_reg h !!! idx < rho) then <[idx := rho]> (hl_reg h) else hl_reg h) (hl_p h))
  end.

(** The loop of the merge from register [j]. *)
Fixpoint merge_loop (dst src : list Z) : list Z :=
  match dst, src with
  | d :: dst', s :: src' => (if decide (d < s) then s else d) :: merge_loop dst' src'
  | dst, _ => dst
  end.

Definition xtc_hll_merge (dst src : option xtc_hll) : rc * option xtc_hll :=
  match dst, src with
  | Some d, Some s =>
      if decide (hl_p d = hl_p s) then (XTC_OK, Some (mk_hll (merge_loop (hl_reg d) (hl_reg s)) (hl_p d)))
      else (XTC_E_INVAL, Some d)
  | d, _ => (XTC_E_INVAL, d)
  end.

Definition add_keys (h : option xtc_hll) (keys : list (list Z)) : option xtc_hll := fold_left xtc_hll_add keys h.

(** *** The estimate *)

Definition hll_alpha (m : Z) : double :=
  if m =? 16 then double_lit 673 3
  else if m =? 32 then double_lit 697 3
  else if m =? 64 then double_lit 709 3
  else double_div (double_lit 7213 4) (double_add double_one (double_div (double_lit 1079 3) (double_of_Z m))).

(** 2^-r, as the loop computes it. *)
Definition hll_inv (r : Z) : double :=
  if decide (r < 63) then double_div double_one (double_of_Z (u64 (Z.shiftl 1 r)))
  else double_div double_one (double_mul (double_mul (double_of_Z (u64 (Z.shiftl 1 62))) (double_of_Z 2)) (double_of_Z (u64 (Z.shiftl 1 (r - 63))))).

Definition xtc_hll_count (h : option xtc_hll) : Z :=
  match h with
  | None => 0
  | Some h =>
      let m := double_of_Z (hl_m h) in
      let alpha := hll_alpha (hl_m h) in
      let '(sum, zeros) :=
        fold_left (fun acc r => (double_add acc.1 (hll_inv r), if decide (r = 0) then acc.2 + 1 else acc.2))
          (hl_reg h) (double_zero, 0) in
      let two32 := double_of_Z 4294967296 in
      let est := double_div (double_mul (double_mul alpha m) m) sum in
      let est :=
        if double_le est (double_mul (double_lit 25 1) m) && negb (zeros =? 0) then double_mul m (__prob_ln (double_div m (double_of_Z zeros)))
        else if double_lt (double_div two32 (double_of_Z 30)) est
        then double_mul (SFopp two32) (__prob_ln (double_sub double_one (double_div est two32)))
        else est in
      let est := if double_lt est double_zero then double_zero else est in
      double_trunc (double_add est (double_lit 5 1))
  end.

Example hll_count_demo :
  xtc_hll_count (Some (hll_new 6)) = 0 /\
  xtc_hll_count (add_keys (Some (hll_new 6)) [[1]; [2]; [3]; [2]; [1]]) = 3.
Proof. vm_compute. done. Qed.

(** *** The leading-zero count *)

Lemma top_bit w : 0 <= w < 2 ^ 64 -> (Z.land w 0x8000000000000000 =? 0) = bool_decide (w < 2 ^ 63).
Proof.
  intros Hw. change 0x8000000000000000 with (2 ^ 63). rewrite land_bit by lia.
  pose proof (Z.div_mod w (2 ^ 63) ltac:(lia)) as Hd. pose proof (Z.mod_pos_bound w (2 ^ 63) ltac:(lia)).
  pose proof (Z.testbit_spec' w 63 ltac:(lia)) as Ht. destruct (decide (w < 2 ^ 63)) as [Hlt|Hge].
  - rewrite bool_decide_true by done. rewrite Z.div_small in Ht by lia. by destruct (Z.testbit w 63).
  - rewrite bool_decide_false by done. assert (w / 2 ^ 63 = 1) as E by nia. rewrite E in Ht.
    by destruct (Z.testbit w 63).
Qed.

Lemma lz_loop_spec fuel w lz :
  0 < w < 2 ^ 64 -> 63 - Z.log2 w <= Z.of_nat fuel -> lz_loop fuel w lz = lz + (63 - Z.log2 w).
Proof.
  revert w lz. induction fuel as [|fuel IH]; intros w lz Hw Hf; simpl.
  { assert (Z.log2 w < 64) by (apply Z.log2_lt_pow2; lia). lia. }
  rewrite top_bit by lia. destruct (decide (w < 2 ^ 63)) as [Hlt|Hge].
  - rewrite bool_decide_true by done. rewrite u64_shift, Z.mod_small by lia.
    assert (Z.log2 (2 * w) = Z.succ (Z.log2 w)) as El by (apply Z.log2_double; lia).
    assert (Z.log2 w < 63) by (apply Z.log2_lt_pow2; lia). rewrite IH by lia. lia.
  - rewrite bool_decide_false by done.
    assert (Z.log2 w = 63) as -> by (apply Z.log2_unique; lia). lia.
Qed.

(** The value stored is between 1 and 64 - p + 1. *)
Lemma rho_range p h1 : 4 <= p <= 18 -> 1 <= hll_rho p h1 <= 64 - p + 1.
Proof.
  intros Hp. unfold hll_rho. destruct (decide _) as [E|E]; [rewrite (uwrap_small 8) by lia; lia|].
  set (w := u64 (Z.shiftl h1 p)) in *. pose proof (uwrap_range 64 (Z.shiftl h1 p) ltac:(lia)) as Hw. fold w in Hw.
  assert (0 < w) as Hw0 by lia.
  assert (p <= Z.log2 w) as Hl.
  { apply Z.log2_le_pow2; [done|]. assert ((2 ^ p | w)) as [c Hc].
    { unfold w, uwrap. rewrite Z.shiftl_mul_pow2 by lia. apply Z.mod_divide; [apply Z.pow_nonzero; lia|].
      replace 64 with (p + (64 - p)) by lia. rewrite Z.pow_add_r by lia.
      assert (0 < 2 ^ p) by (apply Z.pow_pos_nonneg; lia).
      assert (0 < 2 ^ (64 - p)) by (apply Z.pow_pos_nonneg; lia).
      rewrite (Z.mul_comm h1), Z.mul_mod_distr_l, Z.mul_comm by lia. apply Z.mod_mul. lia. }
    assert (0 < 2 ^ p) by (apply Z.pow_pos_nonneg; lia). rewrite Hc in Hw0 |- *. clear -Hw0 H.
    assert (0 < c) by nia. nia. }
  assert (Z.log2 w < 64) by (apply Z.log2_lt_pow2; lia).
  rewrite lz_loop_spec by lia. rewrite (uwrap_small 8 (0 + _)) by lia. rewrite (uwrap_small 8) by lia. lia.
Qed.

Lemma xorshift_range a k : 0 <= k -> 0 <= a < 2 ^ 64 -> 0 <= xorshift a k < 2 ^ 64.
Proof.
  intros Hk Ha. unfold xorshift.
  assert (0 <= Z.shiftr a k <= a) as Hs.
  { rewrite Z.shiftr_div_pow2 by done. split; [apply Z.div_pos; [lia|apply Z.pow_pos_nonneg; lia]|].
    apply Z.div_le_upper_bound; [apply Z.pow_pos_nonneg; lia|].
    assert (0 < 2 ^ k) by (apply Z.pow_pos_nonneg; lia). nia. }
  assert (0 <= Z.lxor a (Z.shiftr a k)) as H0 by (apply Z.lxor_nonneg; lia).
  split; [done|]. destruct (decide (Z.lxor a (Z.shiftr a k) = 0)) as [->|Hne]; [lia|].
  apply Z.log2_lt_pow2; [lia|]. pose proof (Z.log2_lxor a (Z.shiftr a k) ltac:(lia) ltac:(lia)) as Hl.
  assert (Z.log2 a < 64 \/ a = 0) as [?|?].
  { destruct (decide (a = 0)); [by right|left]. apply Z.log2_lt_pow2; lia. }
  - pose proof (Z.log2_le_mono (Z.shiftr a k) a ltac:(lia)). lia.
  - subst a. rewrite Z.shiftr_0_l, Z.lxor_0_l in Hne. done.
Qed.

Lemma hash1_range key : 0 <= (__prob_hash2 key).1 < 2 ^ 64.
Proof.
  unfold __prob_hash2. destruct (fold_left hash_byte key _) as [a b]. cbn [fst].
  apply xorshift_range; [lia|]. apply uwrap_range. lia.
Qed.

Lemma idx_range p key : 4 <= p <= 18 -> (Z.to_nat (hll_idx p (__prob_hash2 key).1) < Z.to_nat (Z.shiftl 1 p))%nat.
Proof.
  intros Hp. pose proof (hash1_range key) as Hh. unfold hll_idx. set (h := (__prob_hash2 key).1) in *.
  rewrite Z.shiftr_div_pow2, Z.shiftl_1_l by lia.
  assert (0 < 2 ^ (64 - p)) by (apply Z.pow_pos_nonneg; lia).
  assert (0 <= h / 2 ^ (64 - p) < 2 ^ p) as Hr; [|lia]. split; [apply Z.div_pos; lia|].
  apply Z.div_lt_upper_bound; [done|]. rewrite <-Z.pow_add_r by lia. replace (64 - p + p) with 64 by lia. lia.
Qed.

(** *** A sketch as the pointwise maximum of its keys *)

(** The value a key gives to register [j]. *)
Definition key_reg (p : Z) (key : list Z) (j : nat) : Z :=
  if decide (Z.to_nat (hll_idx p (__prob_hash2 key).1) = j) then hll_rho p (__prob_hash2 key).1 else 0.

(** The value register [j] ends with once the keys were added. *)
Definition keys_reg (p : Z) (keys : list (list Z)) (j : nat) : Z :=
  foldr (fun key n => Z.max (key_reg p key j) n) 0 keys.

(** The reference: 2^p registers, each the maximum over the keys. *)
Definition sketch (p : Z) (keys : list (list Z)) : xtc_hll :=
  mk_hll (keys_reg p keys <$> seq 0 (Z.to_nat (Z.shiftl 1 p))) p.

Lemma key_reg_range p key j : 4 <= p <= 18 -> 0 <= key_reg p key j <= 64 - p + 1.
Proof. intros Hp. unfold key_reg. pose proof (rho_range p (__prob_hash2 key).1 Hp). destruct (decide _); lia. Qed.

Lemma keys_reg_range p keys j : 4 <= p <= 18 -> 0 <= keys_reg p keys j <= 64 - p + 1.
Proof.
  intros Hp. unfold keys_reg. induction keys as [|k keys IH]; simpl; [lia|].
  pose proof (key_reg_range p k j Hp). lia.
Qed.

Lemma keys_reg_app p A B j : 4 <= p <= 18 -> keys_reg p (A ++ B) j = Z.max (keys_reg p A j) (keys_reg p B j).
Proof.
  intros Hp. pose proof (keys_reg_range p B j Hp) as HB. unfold keys_reg in *.
  induction A as [|k A IH]; simpl; [lia|]. rewrite IH. lia.
Qed.

Lemma keys_reg_perm p A B j : A ≡ₚ B -> keys_reg p A j = keys_reg p B j.
Proof. unfold keys_reg. induction 1; simpl; lia. Qed.

Lemma hll_new_sketch p : hll_new p = sketch p [].
Proof.
  unfold hll_new, sketch. f_equal. apply list_eq. intros j. rewrite list_lookup_fmap.
  destruct (decide (j < Z.to_nat (Z.shiftl 1 p))%nat).
  - rewrite lookup_replicate_2, lookup_seq_lt by done. done.
  - rewrite (lookup_ge_None_2 (replicate _ _)), lookup_seq_ge by (rewrite ?length_replicate; lia). done.
Qed.

Lemma sketch_lookup p keys j :
  (j < Z.to_nat (Z.shiftl 1 p))%nat -> hl_reg (sketch p keys) !! j = Some (keys_reg p keys j).
Proof. intros Hj. unfold sketch. cbn [hl_reg]. rewrite list_lookup_fmap, lookup_seq_lt by done. done. Qed.

Lemma sketch_length p keys : length (hl_reg (sketch p keys)) = Z.to_nat (Z.shiftl 1 p).
Proof. unfold sketch. cbn [hl_reg]. by rewrite length_fmap, length_seq. Qed.

(** Two sketches with the same registers below 2^p are the same sketch. *)
Lemma sketch_eq p (l : list Z) keys :
  length l = Z.to_nat (Z.shiftl 1 p) ->
  (forall j, (j < Z.to_nat (Z.shiftl 1 p))%nat -> l !! j = Some (keys_reg p keys j)) ->
  mk_hll l p = sketch p keys.
Proof.
  intros Hl Hj. unfold sketch. f_equal. apply list_eq. intros j.
  destruct (decide (j < Z.to_nat (Z.shiftl 1 p))%nat) as [Hlt|Hge].
  - rewrite Hj by done. symmetry. by apply sketch_lookup.
  - rewrite (lookup_ge_None_2 l), list_lookup_fmap, lookup_seq_ge by lia. done.
Qed.

Lemma xtc_hll_add_sketch p keys key :
  4 <= p <= 18 -> xtc_hll_add (Some (sketch p keys)) key = Some (sketch p (keys ++ [key])).
Proof.
  intros Hp. unfold xtc_hll_add. cbn [hl_p]. f_equal. pose proof (idx_range p key Hp) as Hi.
  set (i := Z.to_nat (hll_idx p (__prob_hash2 key).1)) in *. set (r := hll_rho p (__prob_hash2 key).1) in *.
  change (hl_p (sketch p keys)) with p. fold i r.
  assert (hl_reg (sketch p keys) !!! i = keys_reg p keys i) as E.
  { apply list_lookup_total_correct. by apply sketch_lookup. }
  rewrite E. apply sketch_eq.
  - destruct (decide _); rewrite ?length_insert; apply sketch_length.
  - intros j Hj. rewrite keys_reg_app by done.
    assert (keys_reg p [key] j = if decide (i = j) then r else 0) as ->.
    { unfold keys_reg, key_reg. simpl. fold i r. pose proof (rho_range p (__prob_hash2 key).1 Hp).
      fold r in H. destruct (decide (i = j)); lia. }
    pose proof (keys_reg_range p keys j Hp) as Hr.
    destruct (decide (i = j)) as [<-|Hne]; destruct (decide (_ < r)).
    + rewrite list_lookup_insert_eq by (by rewrite sketch_length). f_equal. lia.
    + rewrite sketch_lookup by done. f_equal. lia.
    + rewrite list_lookup_insert_ne, sketch_lookup by done. f_equal. lia.
    + rewrite sketch_lookup by done. f_equal. lia.
Qed.

Lemma add_keys_sketch p keys keys' :
  4 <= p <= 18 -> add_keys (Some (sketch p keys)) keys' = Some (sketch p (keys ++ keys')).
Proof.
  intros Hp. unfold add_keys. revert keys. induction keys' as [|k keys' IH]; intros keys; cbn [fold_left].
  - by rewrite app_nil_r.
  - rewrite xtc_hll_add_sketch, IH, <-app_assoc by done. done.
Qed.

Lemma merge_loop_lookup dst src j :
  length dst = length src ->
  merge_loop dst src !! j = match dst !! j, src !! j with Some d, Some s => Some (Z.max d s) | _, _ => None end.
Proof.
  revert src j. induction dst as [|d dst IH]; intros [|s src] [|j] Hl; simpl in *; try done.
  - destruct (decide (d < s)); f_equal; lia.
  - rewrite IH by lia. done.
Qed.

Lemma merge_loop_length dst src : length (merge_loop dst src) = length dst.
Proof. revert src. induction dst as [|d dst IH]; intros [|s src]; simpl; try done. by rewrite IH. Qed.

Lemma merge_sketch p A B :
  4 <= p <= 18 -> xtc_hll_merge (Some (sketch p A)) (Some (sketch p B)) = (XTC_OK, Some (sketch p (A ++ B))).
Proof.
  intros Hp. unfold xtc_hll_merge. change (hl_p (sketch p A)) with p. change (hl_p (sketch p B)) with p.
  rewrite decide_True by done. f_equal. f_equal. apply sketch_eq.
  - by rewrite merge_loop_length, sketch_length.
  - intros j Hj. rewrite merge_loop_lookup by (by rewrite !sketch_length).
    rewrite !sketch_lookup, keys_reg_app by done. done.
Qed.

(** Merging the sketch a worker made of the keys [A] with the sketch
    another made of [B] gives, register for register, the sketch one worker
    would have made of all the keys in any order [C]; every register stays at
    most 64 - p + 1 and so within its byte, and sketches of different
    precision are refused and left alone. *)
Theorem hll_merge_lossless p A B C h hA hB :
  xtc_hll_init true p XTC_OK XTC_OK = (XTC_OK, Some h) -> C ≡ₚ A ++ B ->
  add_keys (Some h) A = Some hA -> add_keys (Some h) B = Some hB ->
  xtc_hll_merge (Some hA) (Some hB) = (XTC_OK, add_keys (Some h) C) /\
  Forall (fun r => 0 <= r <= 64 - p + 1 /\ r < 2 ^ 8) (hl_reg hA) /\
  (forall h', hl_p h' <> p -> xtc_hll_merge (Some hA) (Some h') = (XTC_E_INVAL, Some hA)).
Proof.
  intros Hi HC HA HB. unfold xtc_hll_init in Hi. cbn [negb] in Hi. destruct (decide _) as [|Hp0]; [done|].
  assert (4 <= p <= 18) as Hp by lia. injection Hi as <-. rewrite hll_new_sketch in *.
  rewrite add_keys_sketch in * by done. injection HA as <-. injection HB as <-. simpl app. split_and!.
  - rewrite merge_sketch by done. do 2 f_equal. unfold sketch. f_equal. apply list_fmap_ext. intros j ? _.
    symmetry. by apply keys_reg_perm.
  - apply Forall_lookup_2. intros j r Hr. unfold sketch in Hr. cbn [hl_reg] in Hr.
    apply list_lookup_fmap_Some in Hr as (i & -> & _). pose proof (keys_reg_range p A i Hp). simpl app. lia.
  - intros h' Hne. unfold xtc_hll_merge. rewrite decide_False; [done|]. intros E. by apply Hne.
Qed.

Lemma hll_merge_lossless_witness :
  exists h hA hB, xtc_hll_init true 4 XTC_OK XTC_OK = (XTC_OK, Some h) /\
    add_keys (Some h) [[1]; [2; 3]] = Some hA /\ add_keys (Some h) [[7]] = Some hB /\
    xtc_hll_merge (Some hA) (Some hB) = (XTC_OK, add_keys (Some h) [[7]; [1]; [2; 3]]).
Proof.
  eexists _, _, _. split; [reflexivity|]. split; [reflexivity|]. split; [reflexivity|].
  refine (proj1 (hll_merge_lossless 4 [[1]; [2; 3]] [[7]] [[7]; [1]; [2; 3]] _ _ _ eq_refl _ eq_refl eq_refl)).
  apply (Permutation_app_comm [[7]] [[1]; [2; 3]]).
Defined.
