(* ===== verification/Deque.v ===== *)
(** * The work-stealing deque (src/inc/deque.h)

    A bounded Chase-Lev deque: its owner (thread 0) pushes and pops at the
    bottom, anybody takes from the top with a compare-exchange.  The
    operations are given as functions on the struct and as the atomic
    accesses each one makes, which the thread pool interleaves.  Every call
    takes effect at one of its accesses, where the step records an event;
    the theorem replays the events on a list. *)

From S2P Require Import Prelude.

Local Open Scope Z_scope.

Record xtc_deque := mk_deque {
  dq_top : Z;
  dq_bottom : Z;
  dq_buf : list Z;
}.

Section Deque.
(** The capacity is a power of two chosen at compile time, 256 by default. *)
Context (lg : nat).

Definition XTC_DEQUE_CAP : Z := 2 ^ Z.of_nat lg.
Definition XTC_DEQUE_MASK : Z := XTC_DEQUE_CAP - 1.

Definition slot (i : Z) : nat := Z.to_nat (Z.land i XTC_DEQUE_MASK).

Definition xtc_deque_init : xtc_deque := mk_deque 0 0 (replicate (Z.to_nat XTC_DEQUE_CAP) NULL).

Definition set_top (d : xtc_deque) (t : Z) : xtc_deque := mk_deque t (dq_bottom d) (dq_buf d).
Definition set_bottom (d : xtc_deque) (b : Z) : xtc_deque := mk_deque (dq_top d) b (dq_buf d).
Definition set_cell (d : xtc_deque) (i v : Z) : xtc_deque :=
  mk_deque (dq_top d) (dq_bottom d) (<[slot i := v]> (dq_buf d)).

Definition cell (d : xtc_deque) (i : Z) : Z := dq_buf d !!! slot i.

(** ** The operations, uninterrupted *)

Definition xtc_deque_push (d : xtc_deque) (v : Z) : rc * xtc_deque :=
  let b := dq_bottom d in
  let t := dq_top d in
  if decide (XTC_DEQUE_CAP <= i64 (b - t)) then (XTC_E_AGAIN, d)
  else (XTC_OK, set_bottom (set_cell d b v) (i64 (b + 1))).

(** Alone, the compare-exchange on the last element succeeds. *)
Definition xtc_deque_pop (d : xtc_deque) : Z * xtc_deque :=
  let b := i64 (dq_bottom d - 1) in
  let d := set_bottom d b in
  let t := dq_top d in
  if decide (b < t) then (NULL, set_bottom d t)
  else
    let x := cell d b in
    if decide (t < b) then (x, d)
    else (x, set_bottom (set_top d (i64 (t + 1))) (i64 (b + 1))).

Definition xtc_deque_steal (d : xtc_deque) : Z * xtc_deque :=
  let t := dq_top d in
  let b := dq_bottom d in
  if decide (b <= t) then (NULL, d) else (cell d t, set_top d (i64 (t + 1))).

(** The loop of take; every steal moves [top] up, so the distance to [bottom]
    bounds its turns. *)
Fixpoint take_loop (fuel : nat) (d : xtc_deque) : Z * xtc_deque :=
  match fuel with
  | O => (NULL, d)
  | S fuel' =>
      if decide (dq_top d < dq_bottom d) then
        let '(x, d') := xtc_deque_steal d in
        if decide (x <> NULL) then (x, d') else take_loop fuel' d'
      else (NULL, d)
  end.

Definition xtc_deque_take (d : xtc_deque) : Z * xtc_deque :=
  take_loop (S (Z.to_nat (dq_bottom d - dq_top d))) d.

Definition xtc_deque_len (d : xtc_deque) : Z := i64 (dq_bottom d - dq_top d).

(** ** The atomic accesses *)

(** What a call did, recorded where it takes effect. *)
Inductive event : Type :=
  | EPush (v : Z) | EFull
  | EPop (v : Z) | EPopNone
  | ESteal (v : Z) | ETakeNone.

Record dq_world := mk_dw { dw_dq : xtc_deque; dw_log : list (nat * event) }.

Definition put (w : dq_world) (d : xtc_deque) : dq_world := mk_dw d (dw_log w).
Definition emit (w : dq_world) (i : nat) (e : event) : dq_world := mk_dw (dw_dq w) (dw_log w ++ [(i, e)]).

Inductive result : Type :=
  | RPush (c : rc) (v : Z) | RPop (x : Z) | RSteal (x : Z) | RTake (x : Z) | RLen (n : Z).

(** One program point per access still to come: [P*] push, [Q*] pop, [T*]
    steal ([taking]: called by take), [K*] the loop of take, [L*] length. *)
Inductive dq_pc : Type :=
  | DIdle
  | PTop (v b : Z) | PStore (v b : Z) | PBottom (v b : Z)
  | QStore (b : Z) | QTop (b : Z) | QReset (t : Z) | QLoad (b t : Z) | QCas (b t x : Z) | QFix (b x : Z)
  | TBottom (taking : bool) (t : Z) | TLoad (taking : bool) (t : Z) | TCas (taking : bool) (t x : Z)
  | KBottom | KTop (b : Z)
  | LTop (b : Z)
  | DRet (r : result).

(** A steal returns [x]: to its caller, or to the loop of take. *)
Definition stolen (taking : bool) (x : Z) : dq_pc :=
  if taking then (if decide (x = NULL) then KBottom else DRet (RTake x)) else DRet (RSteal x).

Inductive dq_step (i : nat) (w : dq_world) : dq_pc -> dq_world -> dq_pc -> Prop :=
  (* push, by the owner *)
  | ds_push v : i = 0%nat -> v <> NULL -> dq_step i w DIdle w (PTop v (dq_bottom (dw_dq w)))
  | ds_push_full v b :
      XTC_DEQUE_CAP <= i64 (b - dq_top (dw_dq w)) ->
      dq_step i w (PTop v b) (emit w i EFull) (DRet (RPush XTC_E_AGAIN v))
  | ds_push_room v b :
      i64 (b - dq_top (dw_dq w)) < XTC_DEQUE_CAP -> dq_step i w (PTop v b) w (PStore v b)
  | ds_push_store v b : dq_step i w (PStore v b) (put w (set_cell (dw_dq w) b v)) (PBottom v b)
  | ds_push_bottom v b :
      dq_step i w (PBottom v b) (emit (put w (set_bottom (dw_dq w) (i64 (b + 1)))) i (EPush v))
        (DRet (RPush XTC_OK v))
  (* pop, by the owner *)
  | ds_pop : i = 0%nat -> dq_step i w DIdle w (QStore (i64 (dq_bottom (dw_dq w) - 1)))
  | ds_pop_store b : dq_step i w (QStore b) (put w (set_bottom (dw_dq w) b)) (QTop b)
  | ds_pop_empty b :
      b < dq_top (dw_dq w) -> dq_step i w (QTop b) (emit w i EPopNone) (QReset (dq_top (dw_dq w)))
  | ds_pop_many b :
      dq_top (dw_dq w) < b ->
      dq_step i w (QTop b) (emit w i (EPop (cell (dw_dq w) b))) (QLoad b (dq_top (dw_dq w)))
  | ds_pop_one b : dq_top (dw_dq w) = b -> dq_step i w (QTop b) w (QLoad b (dq_top (dw_dq w)))
  | ds_pop_reset t : dq_step i w (QReset t) (put w (set_bottom (dw_dq w) t)) (DRet (RPop NULL))
  | ds_pop_got b t : t < b -> dq_step i w (QLoad b t) w (DRet (RPop (cell (dw_dq w) b)))
  | ds_pop_last b t : b <= t -> dq_step i w (QLoad b t) w (QCas b t (cell (dw_dq w) b))
  | ds_pop_win b t x :
      dq_top (dw_dq w) = t ->
      dq_step i w (QCas b t x) (emit (put w (set_top (dw_dq w) (i64 (t + 1)))) i (EPop x)) (QFix b x)
  | ds_pop_lose b t x :
      dq_top (dw_dq w) <> t -> dq_step i w (QCas b t x) (emit w i EPopNone) (QFix b NULL)
  | ds_pop_fix b x :
      dq_step i w (QFix b x) (put w (set_bottom (dw_dq w) (i64 (b + 1)))) (DRet (RPop x))
  (* steal, by anybody *)
  | ds_steal : dq_step i w DIdle w (TBottom false (dq_top (dw_dq w)))
  | ds_steal_none k t : dq_bottom (dw_dq w) <= t -> dq_step i w (TBottom k t) w (stolen k NULL)
  | ds_steal_some k t : t < dq_bottom (dw_dq w) -> dq_step i w (TBottom k t) w (TLoad k t)
  | ds_steal_load k t : dq_step i w (TLoad k t) w (TCas k t (cell (dw_dq w) t))
  | ds_steal_win k t x :
      dq_top (dw_dq w) = t ->
      dq_step i w (TCas k t x) (emit (put w (set_top (dw_dq w) (i64 (t + 1)))) i (ESteal x)) (stolen k x)
  | ds_steal_lose k t x : dq_top (dw_dq w) <> t -> dq_step i w (TCas k t x) w (stolen k NULL)
  (* take, by the owner *)
  | ds_take : i = 0%nat -> dq_step i w DIdle w KBottom
  | ds_take_bottom : dq_step i w KBottom w (KTop (dq_bottom (dw_dq w)))
  | ds_take_none b :
      b <= dq_top (dw_dq w) -> dq_step i w (KTop b) (emit w i ETakeNone) (DRet (RTake NULL))
  | ds_take_try b : dq_top (dw_dq w) < b -> dq_step i w (KTop b) w (TBottom true (dq_top (dw_dq w)))
  (* length *)
  | ds_len : dq_step i w DIdle w (LTop (dq_bottom (dw_dq w)))
  | ds_len_top b : dq_step i w (LTop b) w (DRet (RLen (i64 (b - dq_top (dw_dq w)))))
  | ds_ret r : dq_step i w (DRet r) w DIdle.

(** ** The specification: a list *)

(** The effect of an event on the contents, oldest first; [None] if the event
    is not what the operation should have done there. *)
Definition spec_step (q : list Z) (e : event) : option (list Z) :=
  match e with
  | EPush v => if decide (Z.of_nat (length q) < XTC_DEQUE_CAP) then Some (q ++ [v]) else None
  | EFull => if decide (Z.of_nat (length q) = XTC_DEQUE_CAP) then Some q else None
  | EPop v => if decide (last q = Some v) then Some (take (length q - 1) q) else None
  | EPopNone | ETakeNone => if decide (q = []) then Some q else None
  | ESteal v => match q with x :: q' => if decide (x = v) then Some q' else None | [] => None end
  end.

Definition replay (es : list event) : option (list Z) :=
  fold_left (fun q e => q ≫= fun q => spec_step q e) es (Some []).

(** The cells from [lo] up to [hi]. *)
Definition seg (d : xtc_deque) (lo hi : Z) : list Z := cell d <$> seqZ lo (hi - lo).

(** The last event of thread [i]. *)
Definition last_of (i : nat) (log : list (nat * event)) : option event :=
  snd <$> last (filter (fun e => e.1 = i) log).

Definition is_push (e : event) : bool := match e with EPush _ => true | _ => false end.

Definition pushes (log : list (nat * event)) : Z :=
  Z.of_nat (length (filter (fun e => is_push e.2 = true) log)).

(** What a finished pop, take or steal that returned [x] did. *)
Definition popped (x : Z) : event := if decide (x = NULL) then EPopNone else EPop x.
Definition taken (x : Z) : event := if decide (x = NULL) then ETakeNone else ESteal x.

(** A returned call's result is that of its event; a steal that lost a race or
    saw nothing has none. *)
Definition ret_ok (log : list (nat * event)) (i : nat) (r : result) : Prop :=
  match r with
  | RPush XTC_OK v => last_of i log = Some (EPush v)
  | RPush c _ => c = XTC_E_AGAIN /\ last_of i log = Some EFull
  | RPop x => last_of i log = Some (popped x)
  | RTake x => last_of i log = Some (taken x)
  | RSteal x => x <> NULL -> last_of i log = Some (ESteal x)
  | RLen _ => True
  end.

(** ** The invariant *)

(** The owner's program points between the store that lowers [bottom] and the
    point where the pop takes effect, or until [bottom] is put back. *)
Definition popping (p : dq_pc) : bool :=
  match p with
  | QTop _ | QReset _ | QCas _ _ _ | QFix _ _ => true
  | QLoad b t => bool_decide (b <= t)
  | _ => false
  end.

(** The bottom of the contents, [p] the owner's program point. *)
Definition lbot (w : dq_world) (p : dq_pc) : Z :=
  dq_bottom (dw_dq w) + (if popping p then 1 else 0).

(** Only the owner takes. *)
Definition own (k : bool) (i : nat) : Prop := k = true -> i = 0%nat.

(** The owner's program points of a push and of a pop. *)
Definition push_pc (p : dq_pc) : bool := match p with PTop _ _ | PStore _ _ | PBottom _ _ => true | _ => false end.
Definition pop_pc (p : dq_pc) : bool :=
  match p with QStore _ | QTop _ | QReset _ | QLoad _ _ | QCas _ _ _ | QFix _ _ => true | _ => false end.

(** What thread [i] knows at [p]; [lb] is the bottom of the contents. *)
Definition pc_ok (w : dq_world) (lb : Z) (i : nat) (p : dq_pc) : Prop :=
  let d := dw_dq w in
  match p with
  | DIdle | LTop _ => True
  | PTop v b => i = 0%nat /\ v <> NULL /\ b = dq_bottom d
  | PStore v b => i = 0%nat /\ v <> NULL /\ b = dq_bottom d /\ b - dq_top d < XTC_DEQUE_CAP
  | PBottom v b => i = 0%nat /\ v <> NULL /\ b = dq_bottom d /\ b - dq_top d < XTC_DEQUE_CAP /\ cell d b = v
  | QStore b => i = 0%nat /\ b = dq_bottom d - 1
  | QTop b => i = 0%nat /\ b = dq_bottom d
  | QReset t => i = 0%nat /\ dq_bottom d = t - 1 /\ dq_top d = t /\ last_of i (dw_log w) = Some EPopNone
  | QLoad b t => i = 0%nat /\ b = dq_bottom d /\ t <= b /\ t <= dq_top d /\
      (t < b -> cell d b <> NULL /\ last_of i (dw_log w) = Some (EPop (cell d b)))
  | QCas b t x => i = 0%nat /\ b = dq_bottom d /\ t = b /\ t <= dq_top d /\ x = cell d b
  | QFix b x => i = 0%nat /\ b = dq_bottom d /\ dq_top d = b + 1 /\ last_of i (dw_log w) = Some (popped x)
  | TBottom k t => own k i /\ t <= dq_top d
  | TLoad k t => own k i /\ t <= dq_top d /\ (t = dq_top d -> t < lb)
  | TCas k t x => own k i /\ t <= dq_top d /\ (t = dq_top d -> t < lb /\ x = cell d t)
  | KBottom => i = 0%nat
  | KTop b => i = 0%nat /\ b = dq_bottom d
  | DRet r => ret_ok (dw_log w) i r
  end.

Record dq_ok (w : dq_world) (lb : Z) : Prop := mk_dq_ok {
  ok_len : length (dq_buf (dw_dq w)) = Z.to_nat XTC_DEQUE_CAP;
  ok_top : 0 <= dq_top (dw_dq w) <= lb;
  ok_cap : lb - dq_top (dw_dq w) <= XTC_DEQUE_CAP;
  ok_count : lb <= pushes (dw_log w);
  ok_replay : replay (dw_log w).*2 = Some (seg (dw_dq w) (dq_top (dw_dq w)) lb);
  ok_cells : Forall (fun v => v <> NULL) (seg (dw_dq w) (dq_top (dw_dq w)) lb);
}.

Definition owner (pool : gmap nat dq_pc) : dq_pc := default DIdle (pool !! 0%nat).

Definition dq_inv (w : dq_world) (pool : gmap nat dq_pc) : Prop :=
  dq_ok w (lbot w (owner pool)) /\ map_Forall (pc_ok w (lbot w (owner pool))) pool.

(** *** Cells *)

Lemma cap_pos : 0 < XTC_DEQUE_CAP.
Proof. apply Z.pow_pos_nonneg; lia. Qed.

Lemma slot_mod i : slot i = Z.to_nat (i mod XTC_DEQUE_CAP).
Proof. unfold slot, XTC_DEQUE_MASK, XTC_DEQUE_CAP. by rewrite land_pow2_mask by lia. Qed.

Lemma slot_lt i : (slot i < Z.to_nat XTC_DEQUE_CAP)%nat.
Proof. rewrite slot_mod. pose proof (Z.mod_pos_bound i _ cap_pos). lia. Qed.

(** Cells of two indices less than a capacity apart are different. *)
Lemma slot_inj i j : i < j < i + XTC_DEQUE_CAP -> slot i <> slot j.
Proof.
  rewrite !slot_mod. intros Hij E. pose proof cap_pos as Hc.
  pose proof (Z.mod_pos_bound i _ Hc). pose proof (Z.mod_pos_bound j _ Hc).
  pose proof (Z.div_mod i XTC_DEQUE_CAP ltac:(lia)). pose proof (Z.div_mod j XTC_DEQUE_CAP ltac:(lia)).
  apply Z2Nat.inj in E; [|lia|lia].
  assert (exists k, XTC_DEQUE_CAP * k = j - i) as [k Hk] by (exists (j / XTC_DEQUE_CAP - i / XTC_DEQUE_CAP); lia).
  clear - Hij Hc Hk. generalize dependent XTC_DEQUE_CAP. intros c. destruct (decide (k <= 0)); nia.
Qed.

Lemma cell_set_same d i v : length (dq_buf d) = Z.to_nat XTC_DEQUE_CAP -> cell (set_cell d i v) i = v.
Proof. intros Hl. unfold cell, set_cell. simpl. apply list_lookup_total_insert_eq. rewrite Hl. apply slot_lt. Qed.

Lemma cell_set_other d i j v : i < j < i + XTC_DEQUE_CAP -> cell (set_cell d j v) i = cell d i.
Proof. intros Hij. unfold cell, set_cell. simpl. apply list_lookup_total_insert_ne. intros E. by apply (slot_inj i j). Qed.

Lemma seg_empty d lo : seg d lo lo = [].
Proof. unfold seg. by rewrite Z.sub_diag. Qed.

Lemma seg_head d lo hi : lo < hi -> seg d lo hi = cell d lo :: seg d (lo + 1) hi.
Proof.
  intros H. unfold seg. rewrite seqZ_cons by lia. rewrite fmap_cons. do 3 f_equal; lia.
Qed.

Lemma seg_last d lo hi : lo <= hi -> seg d lo (hi + 1) = seg d lo hi ++ [cell d hi].
Proof.
  intros H. unfold seg. replace (hi + 1 - lo) with ((hi - lo) + 1) by lia.
  rewrite seqZ_app, fmap_app by lia. f_equal. replace (lo + (hi - lo)) with hi by lia.
  rewrite seqZ_cons by lia. simpl. done.
Qed.

Lemma seg_length d lo hi : lo <= hi -> Z.of_nat (length (seg d lo hi)) = hi - lo.
Proof. intros H. unfold seg. rewrite length_fmap, length_seqZ. lia. Qed.

Lemma seg_ext d d' lo hi : (forall j, lo <= j < hi -> cell d j = cell d' j) -> seg d lo hi = seg d' lo hi.
Proof. intros H. unfold seg. apply list_fmap_ext. intros k x Hx%list_elem_of_lookup_2. apply H. apply elem_of_seqZ in Hx. lia. Qed.

Lemma seg_elem d lo hi j : lo <= j < hi -> cell d j ∈ seg d lo hi.
Proof. intros H. unfold seg. apply list_elem_of_fmap_2. apply elem_of_seqZ. lia. Qed.

(** *** Logs *)

Lemma replay_snoc es e : replay (es ++ [e]) = replay es ≫= fun q => spec_step q e.
Proof. unfold replay. by rewrite fold_left_app. Qed.

Lemma last_of_same i log e : last_of i (log ++ [(i, e)]) = Some e.
Proof. unfold last_of. rewrite filter_app, filter_cons_True, filter_nil by done. by rewrite last_snoc. Qed.

Lemma last_of_other i j log e : i <> j -> last_of i (log ++ [(j, e)]) = last_of i log.
Proof. intros H. unfold last_of. rewrite filter_app, filter_cons_False, filter_nil by (simpl; congruence). by rewrite app_nil_r. Qed.

Lemma pushes_snoc log i e : pushes (log ++ [(i, e)]) = pushes log + (if is_push e then 1 else 0).
Proof.
  unfold pushes. rewrite filter_app, length_app. destruct (is_push e) eqn:E.
  - rewrite filter_cons_True by done. simpl. lia.
  - rewrite filter_cons_False by (simpl; congruence). simpl. lia.
Qed.

(** *** Frames *)

Lemma pc_ok_emit w lb i j e q : j <> i -> pc_ok w lb j q -> pc_ok (emit w i e) lb j q.
Proof.
  intros Hne. destruct q as [| | | | | | | | | | | | | | | |[] ]; simpl; rewrite ?last_of_other by done; done.
Qed.

(** The others, when the owner moved [bottom] or a cell: the cell on top stays. *)
Lemma thief_stable w w' lb lb' j q :
  j <> 0%nat -> dw_log w' = dw_log w -> dq_top (dw_dq w') = dq_top (dw_dq w) ->
  (dq_top (dw_dq w) < lb ->
    dq_top (dw_dq w) < lb' /\ cell (dw_dq w') (dq_top (dw_dq w)) = cell (dw_dq w) (dq_top (dw_dq w))) ->
  pc_ok w lb j q -> pc_ok w' lb' j q.
Proof.
  intros Hj El Et Hc. destruct q; simpl; rewrite ?El, ?Et; try done; try (intros (? & _); done).
  - intros (H1 & H2 & H3). split_and!; [done|done|]. intros ->. by apply Hc, H3.
  - intros (H1 & H2 & H3). split_and!; [done|done|]. intros E. destruct (H3 E) as [H4 ->]. subst t.
    destruct (Hc H4) as [H5 H6]. by rewrite H6.
Qed.

(** Everybody else, when [top] moved up by one. *)
Lemma top_stable w lb j q :
  dq_top (dw_dq w) < lb -> (j = 0%nat -> lb = lbot w q) -> pc_ok w lb j q ->
  pc_ok (put w (set_top (dw_dq w) (dq_top (dw_dq w) + 1))) lb j q.
Proof.
  intros Hlt Hlb. unfold lbot in Hlb. destruct q; simpl in *; try done; intros H; destruct_and?; split_and?; try done; try lia.
Qed.

Lemma dq_ok_emit w w' lb lb' i e :
  dq_ok w lb -> dw_log w' = dw_log w ++ [(i, e)] ->
  length (dq_buf (dw_dq w')) = length (dq_buf (dw_dq w)) ->
  0 <= dq_top (dw_dq w') <= lb' -> lb' - dq_top (dw_dq w') <= XTC_DEQUE_CAP ->
  lb' <= lb + (if is_push e then 1 else 0) ->
  spec_step (seg (dw_dq w) (dq_top (dw_dq w)) lb) e = Some (seg (dw_dq w') (dq_top (dw_dq w')) lb') ->
  Forall (fun v => v <> NULL) (seg (dw_dq w') (dq_top (dw_dq w')) lb') ->
  dq_ok w' lb'.
Proof.
  intros [Hl Ht Hc Hn Hr Hf] El Eb Ht' Hc' Hn' Hs Hf'. constructor; [congruence|done|done| | |done].
  - rewrite El, pushes_snoc. lia.
  - rewrite El, fmap_app. simpl. by rewrite replay_snoc, Hr.
Qed.

Lemma dq_ok_same w w' lb :
  dq_ok w lb -> dw_log w' = dw_log w -> length (dq_buf (dw_dq w')) = length (dq_buf (dw_dq w)) ->
  dq_top (dw_dq w') = dq_top (dw_dq w) ->
  (forall j, dq_top (dw_dq w) <= j < lb -> cell (dw_dq w') j = cell (dw_dq w) j) ->
  dq_ok w' lb.
Proof.
  intros [Hl Ht Hc Hn Hr Hf] El Eb Et Ec.
  assert (seg (dw_dq w') (dq_top (dw_dq w')) lb = seg (dw_dq w) (dq_top (dw_dq w)) lb) as Es
    by (rewrite Et; by apply seg_ext).
  constructor; rewrite ?Es, ?El, ?Et; try done. congruence.
Qed.

Lemma owner_insert pool i p : owner (<[i := p]> pool) = if decide (i = 0%nat) then p else owner pool.
Proof.
  unfold owner. destruct (decide (i = 0%nat)) as [->|Hne].
  - by rewrite lookup_insert_eq.
  - by rewrite lookup_insert_ne.
Qed.

Lemma owner_at pool p : pool !! 0%nat = Some p -> owner pool = p.
Proof. intros H. unfold owner. by rewrite H. Qed.

Lemma dq_inv_intro w w' pool i p' :
  dq_inv w pool ->
  let lb := lbot w (owner pool) in
  let lb' := lbot w' (if decide (i = 0%nat) then p' else owner pool) in
  dq_ok w' lb' -> pc_ok w' lb' i p' ->
  (forall j q, j <> i -> pool !! j = Some q -> pc_ok w lb j q -> pc_ok w' lb' j q) ->
  dq_inv w' (<[i := p']> pool).
Proof.
  intros [Hok Hpc] lb lb' Hok' Hp Hst. split; rewrite owner_insert; [exact Hok'|].
  eapply map_Forall_pool_update; [exact Hpc|exact Hst|exact Hp].
Qed.

(** *** One lemma per kind of step *)

(** What holds of thread [i] at [p] when the invariant does. *)
Lemma inv_at w pool i p :
  dq_inv w pool -> pool !! i = Some p ->
  exists lb, lb = lbot w (owner pool) /\ dq_ok w lb /\ pc_ok w lb i p /\ (i = 0%nat -> lb = lbot w p).
Proof.
  intros [Hok Hpc] Hi. eexists. split_and!; [done|done|by apply Hpc|]. intros ->. by rewrite (owner_at _ _ Hi).
Qed.

(** Reads. *)
Lemma inv_local w pool i p p' :
  dq_inv w pool -> pool !! i = Some p -> (i = 0%nat -> popping p' = popping p) ->
  (forall lb, dq_ok w lb -> dq_bottom (dw_dq w) <= lb -> (i = 0%nat -> lb = lbot w p) ->
     pc_ok w lb i p -> pc_ok w lb i p') ->
  dq_inv w (<[i := p']> pool).
Proof.
  intros Hinv Hi Hpop Hp. destruct (inv_at _ _ _ _ Hinv Hi) as (lb & -> & Hok & Hpc & Hlb).
  assert (lbot w (if decide (i = 0%nat) then p' else owner pool) = lbot w (owner pool)) as E.
  { destruct (decide _) as [D|]; [|done]. rewrite (Hlb D). unfold lbot. by rewrite (Hpop D). }
  assert (dq_bottom (dw_dq w) <= lbot w (owner pool)) by (unfold lbot; destruct (popping (owner pool)); simpl; lia).
  apply (dq_inv_intro w); rewrite ?E; auto.
Qed.

(** A read that settles the call, without changing the contents. *)
Lemma inv_emit w pool i p p' e :
  dq_inv w pool -> pool !! i = Some p -> (i = 0%nat -> popping p' = popping p) -> is_push e = false ->
  (forall lb, dq_ok w lb -> (i = 0%nat -> lb = lbot w p) -> pc_ok w lb i p ->
     pc_ok (emit w i e) lb i p' /\
     spec_step (seg (dw_dq w) (dq_top (dw_dq w)) lb) e = Some (seg (dw_dq w) (dq_top (dw_dq w)) lb)) ->
  dq_inv (emit w i e) (<[i := p']> pool).
Proof.
  intros Hinv Hi Hpop He Hp. destruct (inv_at _ _ _ _ Hinv Hi) as (lb & -> & Hok & Hpc & Hlb).
  assert (lbot (emit w i e) (if decide (i = 0%nat) then p' else owner pool) = lbot w (owner pool)) as E.
  { destruct (decide _) as [D|]; [|done]. rewrite (Hlb D). unfold lbot. by rewrite (Hpop D). }
  destruct (Hp _ Hok Hlb Hpc) as [H1 H2]. apply (dq_inv_intro w); rewrite ?E; auto.
  - destruct Hok. eapply (dq_ok_emit w _ _ _ i e); try done. rewrite He. lia.
  - intros. by apply pc_ok_emit.
Qed.

(** The owner writes [bottom] or a free cell, the contents stay. *)
Lemma inv_owner_put w pool p p' d' :
  dq_inv w pool -> pool !! 0%nat = Some p -> lbot (put w d') p' = lbot w p ->
  dq_top d' = dq_top (dw_dq w) -> length (dq_buf d') = length (dq_buf (dw_dq w)) ->
  (forall j, dq_top (dw_dq w) <= j < lbot w p -> cell d' j = cell (dw_dq w) j) ->
  pc_ok (put w d') (lbot w p) 0 p' ->
  dq_inv (put w d') (<[0%nat := p']> pool).
Proof.
  intros Hinv Hi E Et Eb Ec Hp. destruct (inv_at _ _ _ _ Hinv Hi) as (lb & -> & Hok & Hpc & Hlb).
  specialize (Hlb eq_refl). apply (dq_inv_intro w); [done| | |]; rewrite decide_True by done; rewrite E.
  - rewrite <-Hlb in Ec |- *. by apply (dq_ok_same w).
  - exact Hp.
  - intros j q Hj Hq Hpq. rewrite Hlb in Hpq. apply (thief_stable w _ (lbot w p) _ j q); try done.
    intros Hlt. split; [done|]. apply Ec. simpl. lia.
Qed.

(** The winner of the compare-exchange on [top]. *)
Lemma inv_top w pool i p p' e :
  pushes (dw_log w) < 2 ^ 62 ->
  dq_inv w pool -> pool !! i = Some p -> (i = 0%nat -> popping p' = popping p) -> is_push e = false ->
  (forall lb w', w' = emit (put w (set_top (dw_dq w) (dq_top (dw_dq w) + 1))) i e ->
     dq_ok w lb -> (i = 0%nat -> lb = lbot w p) -> pc_ok w lb i p ->
     dq_top (dw_dq w) < lb /\ pc_ok w' lb i p' /\
     spec_step (seg (dw_dq w) (dq_top (dw_dq w)) lb) e = Some (seg (dw_dq w) (dq_top (dw_dq w) + 1) lb)) ->
  dq_inv (emit (put w (set_top (dw_dq w) (i64 (dq_top (dw_dq w) + 1)))) i e) (<[i := p']> pool).
Proof.
  intros Hb Hinv Hi Hpop He Hp. destruct (inv_at _ _ _ _ Hinv Hi) as (lb & -> & Hok & Hpc & Hlb).
  pose proof Hok as [Hl Ht Hc Hn Hr Hf]. rewrite swrap_small by lia.
  set (w' := emit _ i e).
  assert (lbot w' (if decide (i = 0%nat) then p' else owner pool) = lbot w (owner pool)) as E.
  { destruct (decide _) as [D|]; [|done]. rewrite (Hlb D). unfold lbot. by rewrite (Hpop D). }
  destruct (Hp _ w' eq_refl Hok Hlb Hpc) as (H1 & H2 & H3). apply (dq_inv_intro w); rewrite ?E; auto.
  - assert (forall lo hi, seg (dw_dq w') lo hi = seg (dw_dq w) lo hi) as Es by done.
    eapply (dq_ok_emit w _ _ _ i e); try done; rewrite ?He; simpl; try lia.
    rewrite (seg_head _ _ _ H1) in Hf. by apply Forall_cons in Hf as [_ Hf].
  - intros j q Hj Hq Hpq. apply pc_ok_emit; [done|]. apply top_stable; [done| |done].
    intros ->. by rewrite (owner_at _ _ Hq).
Qed.

(** The push's last store. *)
Lemma inv_push w pool v b :
  pushes (dw_log w) < 2 ^ 62 -> dq_inv w pool -> pool !! 0%nat = Some (PBottom v b) ->
  dq_inv (emit (put w (set_bottom (dw_dq w) (i64 (b + 1)))) 0 (EPush v)) (<[0%nat := DRet (RPush XTC_OK v)]> pool).
Proof.
  intros Hb Hinv Hi. destruct (inv_at _ _ _ _ Hinv Hi) as (lb & -> & Hok & (_ & Hv & -> & Hc & Hcell) & Hlb).
  specialize (Hlb eq_refl). unfold lbot at 2 in Hlb. cbn [popping] in Hlb. pose proof Hok as [Hl Ht _ Hn Hr Hf].
  rewrite swrap_small by lia. set (w' := emit _ 0 _).
  assert (lbot w' (DRet (RPush XTC_OK v)) = lbot w (owner pool) + 1) as E by (rewrite Hlb; unfold lbot; simpl; lia).
  assert (forall lo hi, seg (dw_dq w') lo hi = seg (dw_dq w) lo hi) as Es by done.
  assert (seg (dw_dq w) (dq_top (dw_dq w)) (lbot w (owner pool) + 1) =
    seg (dw_dq w) (dq_top (dw_dq w)) (lbot w (owner pool)) ++ [v]) as Ea.
  { rewrite seg_last by lia. do 2 f_equal. rewrite <-Hcell. f_equal. lia. }
  apply (dq_inv_intro w); [done| | |]; rewrite decide_True by done; rewrite E.
  - eapply (dq_ok_emit w _ _ _ 0%nat (EPush v)); try done; simpl; try lia; rewrite ?Es, Ea.
    + rewrite decide_True; [done|]. rewrite seg_length; lia.
    + apply Forall_app. split; [done|]. by repeat constructor.
  - simpl. apply last_of_same.
  - intros j q Hj Hq Hpq. apply pc_ok_emit; [done|].
    eapply (thief_stable w _ (lbot w (owner pool))); try done. intros. split; [lia|done].
Qed.

(** The pop of one of several elements. *)
Lemma inv_pop_many w pool b :
  dq_inv w pool -> pool !! 0%nat = Some (QTop b) -> dq_top (dw_dq w) < b ->
  dq_inv (emit w 0 (EPop (cell (dw_dq w) b))) (<[0%nat := QLoad b (dq_top (dw_dq w))]> pool).
Proof.
  intros Hinv Hi Hlt. destruct (inv_at _ _ _ _ Hinv Hi) as (lb & -> & Hok & (_ & Hb) & Hlb).
  specialize (Hlb eq_refl). unfold lbot at 2 in Hlb. cbn [popping] in Hlb. pose proof Hok as [Hl Ht Hc Hn Hr Hf].
  set (w' := emit _ 0 _). assert (lbot w' (QLoad b (dq_top (dw_dq w))) = b) as E.
  { unfold lbot. cbn [popping]. rewrite bool_decide_false by lia. simpl. lia. }
  assert (forall lo hi, seg (dw_dq w') lo hi = seg (dw_dq w) lo hi) as Es by done.
  assert (seg (dw_dq w) (dq_top (dw_dq w)) (lbot w (owner pool)) =
    seg (dw_dq w) (dq_top (dw_dq w)) b ++ [cell (dw_dq w) b]) as Ea.
  { rewrite <-seg_last by lia. f_equal. lia. }
  rewrite Ea in Hf. apply Forall_app in Hf as [Hf1 Hf2].
  apply (dq_inv_intro w); [done| | |]; rewrite decide_True by done; rewrite E.
  - eapply (dq_ok_emit w _ _ _ 0%nat (EPop _)); try done; simpl; try lia; rewrite ?Es, ?Ea.
    rewrite last_snoc, decide_True by done. f_equal. rewrite length_app. simpl.
    replace (_ + 1 - 1)%nat with (length (seg (dw_dq w) (dq_top (dw_dq w)) b)) by lia. apply take_app_length.
  - simpl. split_and!; try done; try lia. intros _. split; [by apply Forall_cons in Hf2 as [? _]|apply last_of_same].
  - intros j q Hj Hq Hpq. apply pc_ok_emit; [done|].
    eapply (thief_stable w _ (lbot w (owner pool))); try done; intros; (split; [lia|done]).
Qed.

Lemma pushes_mono i w p w' p' : dq_step i w p w' p' -> pushes (dw_log w) <= pushes (dw_log w').
Proof. intros []; simpl; rewrite ?pushes_snoc; simpl; lia. Qed.

Lemma popping_stolen k x : popping (stolen k x) = false.
Proof. unfold stolen. by destruct k; [destruct (decide _)|]. Qed.

Lemma pc_ok_stolen_null w lb i k : own k i -> pc_ok w lb i (stolen k NULL).
Proof. intros H. unfold stolen. destruct k; simpl; [by apply H|done]. Qed.

Lemma pc_ok_stolen w lb i k x : x <> NULL -> pc_ok (emit w i (ESteal x)) lb i (stolen k x).
Proof.
  intros H. unfold stolen, taken. destruct k; [rewrite decide_False by done|]; simpl.
  - unfold taken. rewrite decide_False by done. apply last_of_same.
  - intros _. apply last_of_same.
Qed.

Lemma top_cell w lb : dq_ok w lb -> dq_top (dw_dq w) < lb -> cell (dw_dq w) (dq_top (dw_dq w)) <> NULL.
Proof. intros Hok Hlt. pose proof (ok_cells _ _ Hok) as Hf. rewrite seg_head in Hf by done. by apply Forall_cons in Hf as [? _]. Qed.

(** The steps of a pop. *)
Lemma pop_step_inv w pool p w' p' :
  pushes (dw_log w) < 2 ^ 62 -> dq_inv w pool -> pool !! 0%nat = Some p -> dq_step 0 w p w' p' ->
  pop_pc p = true ->
  dq_inv w' (<[0%nat := p']> pool).
Proof.
  intros Hb Hinv Hi Hst. destruct (inv_at _ _ _ _ Hinv Hi) as (lb & _ & Hok & Hpc & Hlb).
  specialize (Hlb eq_refl). unfold lbot in Hlb. pose proof Hok as [Hl Ht Hc Hn Hr Hf].
  destruct Hst; intros Hcase; try done; cbn [popping] in Hlb; cbn [pc_ok] in Hpc.
  - apply (inv_owner_put w _ (QStore b)); try done; unfold lbot; simpl; lia.
  - apply (inv_emit w _ _ (QTop b)); try done. intros lb0 Hok0 Hlb0 _. specialize (Hlb0 eq_refl).
    unfold lbot in Hlb0. cbn [popping] in Hlb0. pose proof (ok_top _ _ Hok0).
    assert (dq_top (dw_dq w) = lb0) as E by lia. split.
    + simpl. split_and!; [done|lia|done|apply last_of_same].
    + rewrite E, seg_empty. simpl. done.
  - by apply inv_pop_many.
  - apply (inv_local w _ _ (QTop b)); try done.
    + intros _. simpl. by rewrite bool_decide_true by lia.
    + intros lb0 _ _ _ _. simpl. split_and!; try done; lia.
  - apply (inv_owner_put w _ (QReset t)); try done; unfold lbot; simpl; [lia|]. apply Hpc.
  - apply (inv_local w _ _ (QLoad b t)); try done.
    + intros _. simpl. by rewrite bool_decide_false by lia.
    + intros lb0 _ _ _ (_ & _ & _ & _ & H5). simpl. destruct (H5 H) as [H6 H7]. unfold popped. by rewrite decide_False.
  - apply (inv_local w _ _ (QLoad b t)); try done.
    + intros _. simpl. by rewrite bool_decide_true by lia.
    + intros lb0 _ _ _ _. simpl. split_and!; try done; lia.
  - destruct Hpc as (_ & Eb & Et & Hle & Ex). rewrite <-H in *. apply (inv_top w _ _ (QCas b (dq_top (dw_dq w)) x)); try done.
    intros lb0 w1 -> Hok0 Hlb0 _. specialize (Hlb0 eq_refl). unfold lbot in Hlb0. cbn [popping] in Hlb0.
    assert (dq_top (dw_dq w) < lb0) as Hlt by lia. pose proof (top_cell _ _ Hok0 Hlt) as Hx.
    assert (x = cell (dw_dq w) (dq_top (dw_dq w))) as Ex' by congruence. rewrite <-Ex' in Hx. split_and!; [done| |].
    + simpl. split_and!; [done|done|lia|]. unfold popped. rewrite decide_False by done. apply last_of_same.
    + rewrite seg_head by done. assert (dq_top (dw_dq w) + 1 = lb0) as -> by lia. rewrite seg_empty. simpl.
      by rewrite decide_True by congruence.
  - destruct Hpc as (_ & Eb & Et & Hle & Ex). apply (inv_emit w _ _ (QCas b t x)); try done.
    intros lb0 Hok0 Hlb0 _. specialize (Hlb0 eq_refl). unfold lbot in Hlb0. cbn [popping] in Hlb0.
    pose proof (ok_top _ _ Hok0). assert (dq_top (dw_dq w) = lb0) as E by lia. split.
    + simpl. split_and!; [done|done|lia|]. unfold popped. rewrite decide_True by done. apply last_of_same.
    + rewrite E, seg_empty. done.
  - destruct Hpc as (_ & Eb & Et & Hlast). rewrite swrap_small by lia.
    apply (inv_owner_put w _ (QFix b x)); try done; unfold lbot; simpl; lia.
Qed.

Lemma push_step_inv w pool p w' p' :
  pushes (dw_log w) < 2 ^ 62 -> dq_inv w pool -> pool !! 0%nat = Some p -> dq_step 0 w p w' p' ->
  push_pc p = true ->
  dq_inv w' (<[0%nat := p']> pool).
Proof.
  intros Hb Hinv Hi Hst. destruct (inv_at _ _ _ _ Hinv Hi) as (lb & _ & Hok & Hpc & Hlb).
  specialize (Hlb eq_refl). unfold lbot in Hlb. pose proof Hok as [Hl Ht Hc Hn Hr Hf].
  destruct Hst; intros Hcase; try done; cbn [popping] in Hlb; cbn [pc_ok] in Hpc.
  - destruct Hpc as (_ & Hv & ->). rewrite swrap_small in H by lia.
    apply (inv_emit w _ _ (PTop v (dq_bottom (dw_dq w)))); try done.
    intros lb0 Hok0 Hlb0 _. specialize (Hlb0 eq_refl). unfold lbot in Hlb0. cbn [popping] in Hlb0. split.
    + simpl. split; [done|apply last_of_same].
    + simpl. rewrite decide_True; [done|]. pose proof (ok_top _ _ Hok0). pose proof (ok_cap _ _ Hok0).
      rewrite seg_length; lia.
  - destruct Hpc as (_ & Hv & ->). rewrite swrap_small in H by lia.
    apply (inv_local w _ _ (PTop v (dq_bottom (dw_dq w)))); try done.
  - destruct Hpc as (_ & Hv & -> & Hroom).
    apply (inv_owner_put w _ (PStore v (dq_bottom (dw_dq w)))); try done.
    + simpl. by rewrite length_insert.
    + unfold lbot. simpl. intros j Hj. apply cell_set_other. lia.
    + simpl. split_and!; try done. by apply cell_set_same.
  - by apply inv_push.
Qed.

Lemma dq_step_inv w pool i p w' p' :
  pushes (dw_log w) < 2 ^ 62 -> dq_inv w pool -> pool !! i = Some p -> dq_step i w p w' p' ->
  dq_inv w' (<[i := p']> pool).
Proof.
  intros Hb Hinv Hi Hst. destruct (inv_at _ _ _ _ Hinv Hi) as (lb & _ & Hok & Hpc & _).
  destruct (pop_pc p) eqn:Eq.
  { assert (i = 0%nat) as -> by (destruct p; try done; apply Hpc). by eapply pop_step_inv. }
  destruct (push_pc p) eqn:Ep.
  { assert (i = 0%nat) as -> by (destruct p; try done; apply Hpc). by eapply push_step_inv. }
  destruct Hst; try done; cbn [pc_ok] in Hpc.
  - by apply (inv_local w _ _ DIdle).
  - subst i. apply (inv_local w _ _ DIdle); try done. intros lb0 [] _ Hlb0 _. specialize (Hlb0 eq_refl).
    unfold lbot in Hlb0. cbn [popping] in Hlb0. simpl. split; [done|]. apply swrap_small; lia.
  - apply (inv_local w _ _ DIdle); done.
  - apply (inv_local w _ _ (TBottom k t)); try done; [intros _; apply popping_stolen|].
    intros. apply pc_ok_stolen_null, Hpc.
  - apply (inv_local w _ _ (TBottom k t)); try done. intros lb0 _ Hle _ [H1 H2]. simpl. split_and!; [done|done|lia].
  - apply (inv_local w _ _ (TLoad k t)); try done. intros lb0 _ _ _ (H1 & H2 & H3). simpl.
    split_and!; [done|done|]. intros E. split; [by apply H3|done].
  - subst t. apply (inv_top w _ _ (TCas k (dq_top (dw_dq w)) x)); try done; [intros _; apply popping_stolen|].
    intros lb0 w1 -> Hok0 _ (H1 & H2 & H3). destruct (H3 eq_refl) as [Hlt Ex]. split_and!; [done| |].
    + apply pc_ok_stolen. rewrite Ex. by eapply top_cell.
    + rewrite seg_head by done. simpl. by rewrite decide_True by done.
  - apply (inv_local w _ _ (TCas k t x)); try done; [intros _; apply popping_stolen|].
    intros. apply pc_ok_stolen_null, Hpc.
  - by apply (inv_local w _ _ DIdle).
  - by apply (inv_local w _ _ KBottom).
  - destruct Hpc as [-> ->]. apply (inv_emit w _ _ (KTop (dq_bottom (dw_dq w)))); try done.
    intros lb0 Hok0 Hlb0 _. specialize (Hlb0 eq_refl). unfold lbot in Hlb0. cbn [popping] in Hlb0.
    pose proof (ok_top _ _ Hok0). assert (dq_top (dw_dq w) = lb0) as E by lia. split.
    + simpl. apply last_of_same.
    + rewrite E, seg_empty. done.
  - apply (inv_local w _ _ (KTop b)); try done. intros lb0 _ _ _ [-> _]. simpl. split; [done|lia].
  - by apply (inv_local w _ _ DIdle).
  - by apply (inv_local w _ _ (LTop b)).
  - by apply (inv_local w _ _ (DRet r)).
Qed.

Definition dq_start (k : nat) : config := (mk_dw xtc_deque_init [], idle_pool DIdle k).

Lemma dq_start_inv k : dq_inv (mk_dw xtc_deque_init []) (idle_pool DIdle k).
Proof.
  assert (owner (idle_pool DIdle k) = DIdle) as E.
  { unfold owner. destruct (idle_pool DIdle k !! 0%nat) as [p|] eqn:E; [|done].
    by apply (idle_pool_Forall DIdle k (fun _ p => p = DIdle)) in E. }
  split; rewrite E.
  - pose proof cap_pos. constructor; simpl; unfold lbot; simpl; try done; try lia. by rewrite length_replicate.
  - by apply idle_pool_Forall.
Qed.

Lemma dq_run_inv k w pool :
  reachable dq_step (dq_start k) (w, pool) -> pushes (dw_log w) < 2 ^ 62 -> dq_inv w pool.
Proof.
  intros Hr. refine (pool_invariant dq_step (fun w pool => pushes (dw_log w) < 2 ^ 62 -> dq_inv w pool)
    _ (w, pool) _ _ Hr).
  - intros s pl i p s' p' HI Hi Hst Hb. pose proof (pushes_mono _ _ _ _ _ Hst).  assert (pushes (dw_log s) < 2 ^ 62) as Hs by lia.
    exact (dq_step_inv _ _ _ _ _ _ Hs (HI Hs) Hi Hst).
  - intros _. apply dq_start_inv.
Qed.

(** ** Uninterrupted calls *)

(** Each function on the struct is a run of the steps by the owner alone, with
    the same result and the same struct. *)
Lemma push_is_a_run w v c d' :
  v <> NULL -> xtc_deque_push (dw_dq w) v = (c, d') ->
  exists w', reachable dq_step (w, {[0%nat := DIdle]}) (w', {[0%nat := DRet (RPush c v)]}) /\ dw_dq w' = d'.
Proof.
  intros Hv. unfold xtc_deque_push. destruct (decide _) as [Hf|Hf]; intros [= <- <-]; eexists; split.
  - eapply solo_step; [by apply (ds_push _ _ v)|]. by apply solo_last, ds_push_full.
  - done.
  - eapply solo_step; [by apply (ds_push _ _ v)|]. eapply solo_step; [apply ds_push_room; lia|].
    eapply solo_step; [apply ds_push_store|]. apply solo_last, ds_push_bottom.
  - done.
Qed.

Lemma pop_is_a_run w x d' :
  xtc_deque_pop (dw_dq w) = (x, d') ->
  exists w', reachable dq_step (w, {[0%nat := DIdle]}) (w', {[0%nat := DRet (RPop x)]}) /\ dw_dq w' = d'.
Proof.
  unfold xtc_deque_pop. cbn [set_bottom dq_top]. set (b := i64 (dq_bottom (dw_dq w) - 1)).
  destruct (decide _) as [He|He]; [|destruct (decide _) as [Hm|Hm]]; intros [= <- <-]; eexists; split.
  - eapply solo_step; [by apply ds_pop|]. eapply solo_step; [apply ds_pop_store|].
    eapply solo_step; [by apply ds_pop_empty|]. apply solo_last, ds_pop_reset.
  - done.
  - eapply solo_step; [by apply ds_pop|]. eapply solo_step; [apply ds_pop_store|].
    eapply solo_step; [by apply ds_pop_many|]. apply solo_last.
    match goal with |- dq_step _ ?W _ _ _ => exact (ds_pop_got _ W b _ Hm) end.
  - done.
  - eapply solo_step; [by apply ds_pop|]. eapply solo_step; [apply ds_pop_store|].
    eapply solo_step; [apply ds_pop_one; simpl; lia|]. eapply solo_step; [apply ds_pop_last; simpl; lia|].
    eapply solo_step; [by apply ds_pop_win|]. apply solo_last, ds_pop_fix.
  - done.
Qed.

Lemma steal_is_a_run i w x d' :
  xtc_deque_steal (dw_dq w) = (x, d') ->
  exists w', reachable dq_step (w, {[i := DIdle]}) (w', {[i := DRet (RSteal x)]}) /\ dw_dq w' = d'.
Proof.
  unfold xtc_deque_steal. destruct (decide _) as [He|He]; intros [= <- <-]; eexists; split.
  - eapply solo_step; [apply ds_steal|]. apply solo_last. by apply (ds_steal_none _ _ false).
  - done.
  - eapply solo_step; [apply ds_steal|]. eapply solo_step; [apply ds_steal_some; lia|].
    eapply solo_step; [apply ds_steal_load|]. apply solo_last. by apply (ds_steal_win _ _ false).
  - done.
Qed.
End Deque.

(** ** What the run queues rely on *)

(** The contents of the deque, oldest first, as the struct and the owner's
    program point give them. *)
Definition contents (lg : nat) (w : dq_world) (pool : gmap nat dq_pc) : list Z :=
  seg lg (dw_dq w) (dq_top (dw_dq w)) (lbot w (owner pool)).

(** Elements put in, and taken out. *)
Definition ins (es : list event) : list Z := omap (fun e => match e with EPush v => Some v | _ => None end) es.
Definition outs (es : list event) : list Z :=
  omap (fun e => match e with EPop v | ESteal v => Some v | _ => None end) es.

(** What a replay keeps. *)
Lemma replay_balance lg es q : replay lg es = Some q -> ins es ≡ₚ outs es ++ q.
Proof.
  revert q. induction es as [|e es IH] using rev_ind; intros q.
  { intros [= <-]. done. }
  rewrite replay_snoc. destruct (replay lg es) as [q0|]; [|done]. specialize (IH q0 eq_refl). simpl.
  unfold ins, outs in *. rewrite !omap_app, IH. destruct e as [v| |v| |v|]; simpl; rewrite ?app_nil_r.
  - destruct (decide _); [|done]. intros [= <-]. by rewrite app_assoc.
  - destruct (decide _); [|done]. by intros [= <-].
  - destruct (decide (last q0 = Some v)) as [El|]; [|done]. intros [= <-].
    apply last_Some in El as [q1 ->]. rewrite length_app. simpl.
    replace (length q1 + 1 - 1)%nat with (length q1) by lia. rewrite take_app_length.
    rewrite <-app_assoc. apply Permutation_app_head. by rewrite Permutation_app_comm.
  - destruct (decide _); [|done]. by intros [= <-].
  - destruct q0 as [|x q0]; [done|]. destruct (decide (x = v)) as [->|]; [|done]. intros [= <-].
    by rewrite <-app_assoc.
  - destruct (decide _); [|done]. by intros [= <-].
Qed.

(** C6: the deque is linearizable.  For an owner that pushes, pops, takes and
    steals and any number of thieves, with their atomic accesses interleaved
    in any way (fewer than 2^62 pushes in all): replaying the calls on a
    list, in the order in which they take effect, never finds one that did
    something else than its specification (a push appends or the list is
    full, a pop takes the newest, a take or steal the oldest, and a pop or
    take that returns NULL found the list empty) and ends with the deque's
    contents; and every call that has returned returned what its effect
    says.  So the elements pushed are, with multiplicity, those handed out
    and those still there: none is lost or handed out twice. *)
Theorem deque_linearizable lg k w pool :
  reachable (dq_step lg) (dq_start lg k) (w, pool) -> pushes (dw_log w) < 2 ^ 62 ->
  replay lg (dw_log w).*2 = Some (contents lg w pool) /\
  (forall i r, pool !! i = Some (DRet r) -> ret_ok (dw_log w) i r) /\
  ins (dw_log w).*2 ≡ₚ outs (dw_log w).*2 ++ contents lg w pool /\
  Z.of_nat (length (contents lg w pool)) <= XTC_DEQUE_CAP lg.
Proof.
  intros Hr Hb. destruct (dq_run_inv lg k w pool Hr Hb) as [Hok Hpc]. split_and!; [apply Hok| | |].
  - intros i r Hi. apply (Hpc _ _ Hi).
  - eapply replay_balance, Hok.
  - pose proof (ok_top _ _ _ Hok). pose proof (ok_cap _ _ _ Hok). unfold contents. rewrite seg_length; lia.
Qed.

(** A deque of two: the owner pushes 5 and 6 and is refused a third; a thief
    and the owner's pop race for the last element after the owner popped 6,
    and the thief wins. *)
Lemma deque_demo_run :
  exists w pool, reachable (dq_step 1) (dq_start 1 2) (w, pool) /\
    (dw_log w).*2 = [EPush 5; EPush 6; EFull; EPop 6; ESteal 5; EPopNone] /\
    pool !! 1%nat = Some (DRet (RSteal 5)).
Proof.
  eexists _, _. split.
  { pool_run 0%nat by (by apply (ds_push _ _ _ 5)). pool_run 0%nat by (by apply ds_push_room).
    pool_run 0%nat by (apply ds_push_store). pool_run 0%nat by (apply ds_push_bottom).
    pool_run 0%nat by (apply ds_ret).
    pool_run 0%nat by (by apply (ds_push _ _ _ 6)). pool_run 0%nat by (by apply ds_push_room).
    pool_run 0%nat by (apply ds_push_store). pool_run 0%nat by (apply ds_push_bottom).
    pool_run 0%nat by (apply ds_ret).
    pool_run 0%nat by (by apply (ds_push _ _ _ 7)). pool_run 0%nat by (by apply ds_push_full).
    pool_run 0%nat by (apply ds_ret).
    pool_run 0%nat by (by apply ds_pop). pool_run 0%nat by (apply ds_pop_store).
    pool_run 0%nat by (by apply ds_pop_many). pool_run 0%nat by (by apply ds_pop_got).
    pool_run 0%nat by (apply ds_ret).
    pool_run 1%nat by (apply ds_steal). pool_run 1%nat by (by apply ds_steal_some).
    pool_run 0%nat by (by apply ds_pop). pool_run 0%nat by (apply ds_pop_store).
    pool_run 0%nat by (by apply ds_pop_one). pool_run 0%nat by (by apply ds_pop_last).
    pool_run 1%nat by (apply ds_steal_load). pool_run 1%nat by (by apply ds_steal_win).
    pool_run 0%nat by (by apply ds_pop_lose). pool_run 0%nat by (apply ds_pop_fix).
    apply rtc_refl. }
  split; vm_compute; reflexivity.
Qed.

Lemma deque_linearizable_witness :
  exists w pool, reachable (dq_step 1) (dq_start 1 2) (w, pool) /\
    replay 1 [EPush 5; EPush 6; EFull; EPop 6; ESteal 5; EPopNone] = Some (contents 1 w pool) /\
    last_of 1 (dw_log w) = Some (ESteal 5).
Proof.
  destruct deque_demo_run as (w & pool & Hr & El & Hp). exists w, pool. split; [exact Hr|].
  assert (pushes (dw_log w) < 2 ^ 62) as Hb.
  { unfold pushes. assert (length (dw_log w) = 6%nat) as E6 by (rewrite <-(length_fmap snd), El; reflexivity).
    pose proof (length_filter (fun e => is_push e.2 = true) (dw_log w)). lia. }
  destruct (deque_linearizable 1 2 w pool Hr Hb) as (H1 & H2 & _). rewrite El in H1. split; [exact H1|].
  apply (H2 _ _ Hp). discriminate.
Defined.
