(* ===== verification/Rcu.v ===== *)
(** * Epoch-based reclamation (src/ptc/rcu.c)

    Readers publish the epoch they entered at in a slot of their own; a
    writer unlinks an object, retires it into the bucket of the current
    epoch, and a synchronize advances the epoch, waits for the readers of
    the old one and frees the bucket two epochs back.  Clients are threads
    or fibers, each with its slot; the atomic accesses of every call are
    interleaved in any way, and whether there is memory for a slot or for a
    record of retirement is open at each call.  What the objects are linked
    from is outside rcu.c: the world records which objects can be reached, and
    a reader's program point which ones it has got hold of. *)

From S2P Require Import Prelude.

Local Open Scope Z_scope.

Definition XTC_RCU_NBUCKETS : Z := 4.
Definition XTC_RCU_EPOCH_START : Z := 1.

(** [rw_active], [rw_nest]: the two fields of the registered slots;
    [rw_linked]: the reachable objects; [rw_unlinked]: unlinked, to be retired;
    [rw_stamp]: the epoch at which an object was retired; [rw_atonce]: the
    objects freed by their retirement for want of memory; [rw_syncs]: the calls
    of synchronize so far. *)
Record rcu_world := mk_rcu {
  rw_epoch : Z;
  rw_active : gmap nat Z;
  rw_nest : gmap nat Z;
  rw_buckets : list (list Z);
  rw_linked : gset Z;
  rw_unlinked : gset Z;
  rw_stamp : gmap Z Z;
  rw_freed : gset Z;
  rw_atonce : gset Z;
  rw_syncs : Z;
}.

Definition rcu0 : rcu_world :=
  mk_rcu XTC_RCU_EPOCH_START ∅ ∅ (replicate (Z.to_nat XTC_RCU_NBUCKETS) []) ∅ ∅ ∅ ∅ ∅ 0.

Definition bucket_of (e : Z) : nat := Z.to_nat (e mod XTC_RCU_NBUCKETS).

Definition set_active (w : rcu_world) (i : nat) (e : Z) : rcu_world :=
  mk_rcu (rw_epoch w) (<[i := e]> (rw_active w)) (rw_nest w) (rw_buckets w) (rw_linked w) (rw_unlinked w) (rw_stamp w)
    (rw_freed w) (rw_atonce w) (rw_syncs w).
Definition set_nest (w : rcu_world) (i : nat) (n : Z) : rcu_world :=
  mk_rcu (rw_epoch w) (rw_active w) (<[i := n]> (rw_nest w)) (rw_buckets w) (rw_linked w) (rw_unlinked w) (rw_stamp w)
    (rw_freed w) (rw_atonce w) (rw_syncs w).

(** The slot of the client: the one it has, or a new one, zeroed, if there is
    memory ([alloc]); with the two tables of slots, per thread and per fiber,
    as one.  [None]: no slot. *)
Definition __rcu_reader_slot (w : rcu_world) (i : nat) (alloc : bool) : option (Z * rcu_world) :=
  match rw_nest w !! i with
  | Some n => Some (n, w)
  | None => if alloc then Some (0, set_nest (set_active w i 0) i 0) else None
  end.

(** [xtc_rcu_retire]: without memory for the record ([alloc] false), the
    object is freed at once. *)
Definition xtc_rcu_retire (w : rcu_world) (x : Z) (alloc : bool) : rcu_world :=
  let b := bucket_of (rw_epoch w) in
  mk_rcu (rw_epoch w) (rw_active w) (rw_nest w)
    (if alloc then <[b := x :: rw_buckets w !!! b]> (rw_buckets w) else rw_buckets w) (rw_linked w)
    (rw_unlinked w ∖ {[x]}) (<[x := rw_epoch w]> (rw_stamp w))
    (if alloc then rw_freed w else {[x]} ∪ rw_freed w) (if alloc then rw_atonce w else {[x]} ∪ rw_atonce w) (rw_syncs w).

(** The store of the new epoch. *)
Definition advance (w : rcu_world) (old : Z) : rcu_world :=
  mk_rcu (u64 (old + 1)) (rw_active w) (rw_nest w) (rw_buckets w) (rw_linked w) (rw_unlinked w) (rw_stamp w) (rw_freed w)
    (rw_atonce w) (rw_syncs w + 1).

(** A slot the scan has to wait for. *)
Definition in_old (old a : Z) : bool := negb (a =? 0) && (a <=? old).

(** The bucket taken over by the synchronize that advanced from [old]. *)
Definition detach (w : rcu_world) (old : Z) : list Z * rcu_world :=
  let b := bucket_of (u64 (old + 1) - 2) in
  (rw_buckets w !!! b,
   mk_rcu (rw_epoch w) (rw_active w) (rw_nest w) (<[b := []]> (rw_buckets w)) (rw_linked w) (rw_unlinked w) (rw_stamp w)
     (rw_freed w) (rw_atonce w) (rw_syncs w)).

Definition free_obj (w : rcu_world) (x : Z) : rcu_world :=
  mk_rcu (rw_epoch w) (rw_active w) (rw_nest w) (rw_buckets w) (rw_linked w) (rw_unlinked w) (rw_stamp w)
    ({[x]} ∪ rw_freed w) (rw_atonce w) (rw_syncs w).

Definition set_links (w : rcu_world) (l u : gset Z) : rcu_world :=
  mk_rcu (rw_epoch w) (rw_active w) (rw_nest w) (rw_buckets w) l u (rw_stamp w) (rw_freed w) (rw_atonce w) (rw_syncs w).

(** A client calls [xtc_rcu_read_lock] and [xtc_rcu_read_unlock] in pairs.
    [RLoad d h], [RPub d h e]: in a lock at depth [d] that found the nesting
    count zero, before the load of the epoch and before its store; [RIn d h]:
    in [d] nested read sides, [h] loaded since the outermost began; [S*]: in
    [xtc_rcu_synchronize]. *)
Inductive rcu_pc : Type :=
  | RIdle | RLoad (d : Z) (h : gset Z) | RPub (d : Z) (h : gset Z) (e : Z) | RIn (d : Z) (h : gset Z)
  | SStore (old : Z) | SWait (old : Z) | SScan (old : Z) (todo : list nat) | SDetach (old : Z) | SFree (xs : list Z).

(** Program points outside the library's calls. *)
Definition at_rest (p : rcu_pc) : bool := match p with RIdle | RIn _ _ => true | _ => false end.

(** How deep a client at rest is, and what it has got hold of. *)
Definition depth (p : rcu_pc) : Z := match p with RIn d _ => d | _ => 0 end.
Definition got (p : rcu_pc) : gset Z := match p with RIn _ h => h | _ => ∅ end.

(** After the last unlock nothing is held. *)
Definition leave (d : Z) (h : gset Z) : rcu_pc := if decide (d = 1) then RIdle else RIn (d - 1) h.

Section Steps.
(** The clients that call [xtc_rcu_synchronize]. *)
Context (may_sync : nat -> Prop).

Inductive rcu_step (i : nat) (w : rcu_world) : rcu_pc -> rcu_world -> rcu_pc -> Prop :=
  (* read sides *)
  | rs_lock p alloc w1 :
      at_rest p = true -> __rcu_reader_slot w i alloc = Some (0, w1) ->
      rcu_step i w p (set_nest w1 i 1) (RLoad (depth p) (got p))
  | rs_nest p alloc n w1 :
      at_rest p = true -> __rcu_reader_slot w i alloc = Some (n, w1) -> n <> 0 ->
      rcu_step i w p (set_nest w1 i (n + 1)) (RIn (depth p + 1) (got p))
  | rs_lock_nomem p alloc :
      at_rest p = true -> __rcu_reader_slot w i alloc = None -> rcu_step i w p w (RIn (depth p + 1) (got p))
  | rs_load d h : rcu_step i w (RLoad d h) w (RPub d h (rw_epoch w))
  | rs_publish d h e : rcu_step i w (RPub d h e) (set_active w i e) (RIn (d + 1) h)
  | rs_get d h x : x ∈ rw_linked w -> rcu_step i w (RIn d h) w (RIn d ({[x]} ∪ h))
  | rs_unlock d h alloc n w1 :
      __rcu_reader_slot w i alloc = Some (n, w1) -> n - 1 = 0 ->
      rcu_step i w (RIn d h) (set_active (set_nest w1 i (n - 1)) i 0) (leave d h)
  | rs_unnest d h alloc n w1 :
      __rcu_reader_slot w i alloc = Some (n, w1) -> n - 1 <> 0 ->
      rcu_step i w (RIn d h) (set_nest w1 i (n - 1)) (leave d h)
  | rs_unlock_none d h alloc : __rcu_reader_slot w i alloc = None -> rcu_step i w (RIn d h) w (leave d h)
  (* writers *)
  | rs_link p x :
      at_rest p = true -> (x ∉ rw_linked w) -> (x ∉ rw_unlinked w) -> rw_stamp w !! x = None ->
      rcu_step i w p (set_links w ({[x]} ∪ rw_linked w) (rw_unlinked w)) p
  | rs_unlink p x :
      at_rest p = true -> x ∈ rw_linked w ->
      rcu_step i w p (set_links w (rw_linked w ∖ {[x]}) ({[x]} ∪ rw_unlinked w)) p
  | rs_retire p x alloc : at_rest p = true -> x ∈ rw_unlinked w -> rcu_step i w p (xtc_rcu_retire w x alloc) p
  (* synchronize *)
  | rs_sync : may_sync i -> rcu_step i w RIdle w (SStore (rw_epoch w))
  | rs_advance old : rcu_step i w (SStore old) (advance w old) (SWait old)
  | rs_scan old : rcu_step i w (SWait old) w (SScan old (elements (dom (rw_active w))))
  | rs_busy old j todo :
      in_old old (default 0 (rw_active w !! j)) = true -> rcu_step i w (SScan old (j :: todo)) w (SWait old)
  | rs_passed old j todo :
      in_old old (default 0 (rw_active w !! j)) = false -> rcu_step i w (SScan old (j :: todo)) w (SScan old todo)
  | rs_drained old : rcu_step i w (SScan old []) w (SDetach old)
  | rs_early old : u64 (old + 1) < 2 -> rcu_step i w (SDetach old) w RIdle
  | rs_detach old xs w' :
      2 <= u64 (old + 1) -> detach w old = (xs, w') -> rcu_step i w (SDetach old) w' (SFree xs)
  | rs_free x xs : rcu_step i w (SFree (x :: xs)) (free_obj w x) (SFree xs)
  | rs_done : rcu_step i w (SFree []) w RIdle.
End Steps.

(** ** The invariant, one synchronizer *)

(** The oldest epoch an object in a bucket can have been retired at; [p] is the
    synchronizer's program point. *)
Definition low (w : rcu_world) (p : rcu_pc) : Z :=
  match p with SWait _ | SScan _ _ | SDetach _ => rw_epoch w - 2 | _ => rw_epoch w - 1 end.

Record rcu_ok (w : rcu_world) (lo : Z) : Prop := mk_rcu_ok {
  ok_epoch : rw_epoch w = 1 + rw_syncs w;
  ok_syncs : 0 <= rw_syncs w;
  ok_length : length (rw_buckets w) = 4%nat;
  ok_bucket : forall b x, x ∈ rw_buckets w !!! b -> (b < 4)%nat ->
    exists s, rw_stamp w !! x = Some s /\ b = bucket_of s /\ lo <= s <= rw_epoch w;
  ok_links : forall x, x ∈ rw_linked w -> (x ∉ rw_unlinked w) /\ rw_stamp w !! x = None;
  ok_unlinked : forall x, x ∈ rw_unlinked w -> rw_stamp w !! x = None;
  ok_freed : forall x, x ∈ rw_freed w -> is_Some (rw_stamp w !! x);
}.

(** Client [i] is protected at [p]: its slot counts the read sides it is in. *)
Definition protected (w : rcu_world) (i : nat) (p : rcu_pc) : Prop :=
  match p with RIn d _ => rw_nest w !! i = Some d | _ => False end.

(** What client [i] knows at [p]. *)
Definition pc_ok (w : rcu_world) (i : nat) (p : rcu_pc) : Prop :=
  (is_Some (rw_nest w !! i) <-> is_Some (rw_active w !! i)) /\
  match p with
  | RIdle => True
  | RLoad d h => rw_nest w !! i = Some 1 /\ 0 <= d /\ (d = 0 -> h = ∅)
  | RPub d h e => rw_nest w !! i = Some 1 /\ 0 <= d /\ (d = 0 -> h = ∅) /\ 1 <= e <= rw_epoch w
  | RIn d h => 1 <= d /\ (rw_nest w !! i = Some d -> exists e, rw_active w !! i = Some e /\ 1 <= e <= rw_epoch w /\
      forall x, x ∈ h -> (x ∈ rw_freed w -> x ∈ rw_atonce w) /\ forall s, rw_stamp w !! x = Some s -> e <= s)
  | _ => i = 0%nat
  end.

(** Every object a protected reader has got hold of satisfies [P]. *)
Definition held_all (w : rcu_world) (pool : gmap nat rcu_pc) (P : nat -> Z -> Prop) : Prop :=
  forall i d h x, pool !! i = Some (RIn d h) -> rw_nest w !! i = Some d -> x ∈ h -> P i x.

(** What the synchronizer knows at [p]: the slots it has passed hold nothing
    that was retired before the old epoch. *)
Definition sync_ok (w : rcu_world) (pool : gmap nat rcu_pc) (p : rcu_pc) : Prop :=
  match p with
  | SStore old => old = rw_epoch w
  | SWait old => rw_epoch w = old + 1 /\ 1 <= old
  | SScan old todo => (rw_epoch w = old + 1 /\ 1 <= old) /\
      held_all w pool (fun i x => (i ∉ todo) -> forall s, rw_stamp w !! x = Some s -> old <= s)
  | SDetach old => (rw_epoch w = old + 1 /\ 1 <= old) /\
      held_all w pool (fun i x => forall s, rw_stamp w !! x = Some s -> old <= s)
  | SFree xs => forall x, x ∈ xs -> is_Some (rw_stamp w !! x) /\ held_all w pool (fun _ y => y <> x)
  | _ => True
  end.

Definition syncer (pool : gmap nat rcu_pc) : rcu_pc := default RIdle (pool !! 0%nat).

Record rcu_inv (w : rcu_world) (pool : gmap nat rcu_pc) : Prop := mk_rcu_inv {
  inv_ok : rcu_ok w (low w (syncer pool));
  inv_pcs : map_Forall (pc_ok w) pool;
  inv_sync : sync_ok w pool (syncer pool);
}.

Lemma syncer_insert pool i p : syncer (<[i := p]> pool) = if decide (i = 0%nat) then p else syncer pool.
Proof.
  unfold syncer. destruct (decide (i = 0%nat)) as [->|Hne].
  - by rewrite lookup_insert_eq.
  - by rewrite lookup_insert_ne.
Qed.

Lemma syncer_at pool p : pool !! 0%nat = Some p -> syncer pool = p.
Proof. intros H. unfold syncer. by rewrite H. Qed.

Lemma held_all_insert w w' pool i p' (P Q : nat -> Z -> Prop) :
  (forall j, j <> i -> rw_nest w' !! j = rw_nest w !! j) ->
  held_all w pool P -> (forall j x, P j x -> Q j x) ->
  (forall d h x, p' = RIn d h -> rw_nest w' !! i = Some d -> x ∈ h -> Q i x) ->
  held_all w' (<[i := p']> pool) Q.
Proof.
  intros Hn H1 HPQ H2 j d h x. rewrite lookup_insert. destruct (decide (i = j)) as [<-|Hne].
  - intros [= ->]. by apply (H2 d).
  - intros Hj. rewrite Hn by done. intros Hd Hx. apply HPQ. by apply (H1 j d h).
Qed.

Lemma held_all_mono w pool (P Q : nat -> Z -> Prop) :
  held_all w pool P -> (forall i x, P i x -> Q i x) -> held_all w pool Q.
Proof. intros H HPQ i d h x Hi Hd Hx. apply HPQ. by eapply H. Qed.

(** *** Frames *)

(** Nothing is retired but now. *)
Definition stamps_grow (w w' : rcu_world) : Prop :=
  (forall x s, rw_stamp w' !! x = Some s -> rw_stamp w !! x = Some s \/ s = rw_epoch w) /\
  (forall x, is_Some (rw_stamp w !! x) -> is_Some (rw_stamp w' !! x)).

Lemma stamps_same w w' : rw_stamp w' = rw_stamp w -> stamps_grow w w'.
Proof. intros E. split; rewrite E; auto. Qed.

(** Nothing is freed but at once by its retirement. *)
Definition frees_atonce (w w' : rcu_world) : Prop :=
  (forall x, x ∈ rw_freed w' -> x ∈ rw_freed w \/ x ∈ rw_atonce w') /\ rw_atonce w ⊆ rw_atonce w'.

Lemma frees_none w w' : rw_freed w' = rw_freed w -> rw_atonce w' = rw_atonce w -> frees_atonce w w'.
Proof. intros E1 E2. split; [rewrite E1; auto|by rewrite E2]. Qed.

Lemma pc_ok_stable w w' j q :
  rw_active w' !! j = rw_active w !! j -> rw_nest w' !! j = rw_nest w !! j -> rw_epoch w <= rw_epoch w' ->
  frees_atonce w w' -> stamps_grow w w' -> pc_ok w j q -> pc_ok w' j q.
Proof.
  intros Ea En He [Hf1 Hf2] [Hs _] [Hr H]. split; [by rewrite Ea, En|]. destruct q; simpl in *; rewrite ?Ea, ?En; try done.
  - destruct H as (? & ? & ? & ?). split_and!; try done; lia.
  - destruct H as [Hd H]. split; [done|]. intros Hn. destruct (H Hn) as (e & H1 & H2 & H4). exists e. split_and!; try done; try lia.
    intros x Hx. destruct (H4 x Hx) as [H5 H6]. split; [intros [?|?]%Hf1; auto|].
    intros s Hs'. destruct (Hs _ _ Hs') as [H7| ->]; [by apply H6|lia].
Qed.

Lemma sync_ok_stable w w' pool i p p' q :
  rw_epoch w' = rw_epoch w -> stamps_grow w w' -> pool !! i = Some p ->
  (forall j, j <> i -> rw_nest w' !! j = rw_nest w !! j) ->
  (forall d h x, p' = RIn d h -> rw_nest w' !! i = Some d -> x ∈ h ->
     (exists d0 h0, p = RIn d0 h0 /\ rw_nest w !! i = Some d0 /\ x ∈ h0) \/ rw_stamp w !! x = None) ->
  sync_ok w pool q -> sync_ok w' (<[i := p']> pool) q.
Proof.
  intros He [Hs Hk] Hi Hne Hnew.
  assert (forall P Q : nat -> Z -> Prop, held_all w pool P -> (forall j x, P j x -> Q j x) ->
    (forall x, rw_stamp w !! x = None -> Q i x) -> held_all w' (<[i := p']> pool) Q) as Hheld.
  { intros P Q HP HPQ HQ. eapply held_all_insert; [done|exact HP|exact HPQ|].
    intros d h x -> Hd Hx. destruct (Hnew _ _ _ eq_refl Hd Hx) as [(d0 & h0 & -> & Hd0 & Hx0)|Hn]; [|by apply HQ].
    apply HPQ. by eapply HP. }
  destruct q; simpl; rewrite ?He; try done.
  - intros [[H1 H1'] H2]. split; [done|]. eapply Hheld; [exact H2| |].
    + intros j x H3 H4 s H5. destruct (Hs _ _ H5) as [H| ->]; [by apply H3|lia].
    + intros x Hx _ s H5. destruct (Hs _ _ H5) as [H| ->]; [congruence|lia].
  - intros [[H1 H1'] H2]. split; [done|]. eapply Hheld; [exact H2| |].
    + intros j x H3 s H5. destruct (Hs _ _ H5) as [H| ->]; [by apply H3|lia].
    + intros x Hx s H5. destruct (Hs _ _ H5) as [H| ->]; [congruence|lia].
  - intros H x Hx. destruct (H x Hx) as [H1 H2]. split; [by apply Hk|]. eapply Hheld; [exact H2|done|].
    intros y Hy ->. rewrite Hy in H1. by destruct H1.
Qed.

(** Program points of readers and writers. *)
Definition clientish (p : rcu_pc) : bool :=
  match p with RIdle | RLoad _ _ | RPub _ _ _ | RIn _ _ => true | _ => false end.

(** A step of a reader or writer. *)
Lemma inv_client w w' pool i p p' :
  rcu_inv w pool -> pool !! i = Some p -> clientish p = true -> clientish p' = true ->
  rw_epoch w' = rw_epoch w -> frees_atonce w w' -> stamps_grow w w' ->
  (forall j, j <> i -> rw_active w' !! j = rw_active w !! j /\ rw_nest w' !! j = rw_nest w !! j) ->
  (forall d h x, p' = RIn d h -> rw_nest w' !! i = Some d -> x ∈ h ->
     (exists d0 h0, p = RIn d0 h0 /\ rw_nest w !! i = Some d0 /\ x ∈ h0) \/ rw_stamp w !! x = None) ->
  (forall lo, lo <= rw_epoch w -> rcu_ok w lo -> rcu_ok w' lo) ->
  pc_ok w' i p' ->
  rcu_inv w' (<[i := p']> pool).
Proof.
  intros [Hok Hpc Hs] Hi Hp Hp' He Hf Hg Ha Hnew Hok' Hpc'.
  assert (forall q, low w' q = low w q) as El by (intros []; simpl; by rewrite ?He).
  assert (forall q, low w q <= rw_epoch w) as Hle by (intros []; simpl; lia).
  constructor; rewrite ?syncer_insert.
  - destruct (decide (i = 0%nat)) as [->|Hne]; [|rewrite El; by apply Hok'].
    rewrite (syncer_at _ _ Hi) in Hok. rewrite El.
    assert (low w p' = low w p) as -> by (by destruct p, p'). by apply Hok'.
  - eapply map_Forall_pool_update; [exact Hpc| |done].
    intros j q Hj Hq. destruct (Ha j Hj). apply pc_ok_stable; auto. lia.
  - destruct (decide (i = 0%nat)) as [->|Hne]; [by destruct p'|]. eapply sync_ok_stable; [done|done|exact Hi| |done|done].
    intros j Hj. by apply Ha.
Qed.

(** *** The steps *)

Lemma bucket_of_lt s : (bucket_of s < 4)%nat.
Proof. unfold bucket_of. pose proof (Z.mod_pos_bound s XTC_RCU_NBUCKETS ltac:(done)). unfold XTC_RCU_NBUCKETS in *. lia. Qed.

Lemma bucket_of_inj s t : bucket_of s = bucket_of t -> s <= t < s + 4 -> s = t.
Proof.
  unfold bucket_of, XTC_RCU_NBUCKETS. intros E H. pose proof (Z.mod_pos_bound s 4 ltac:(lia)).
  pose proof (Z.mod_pos_bound t 4 ltac:(lia)). apply Z2Nat.inj in E; [|lia|lia].
  pose proof (Z.div_mod s 4 ltac:(lia)). pose proof (Z.div_mod t 4 ltac:(lia)). lia.
Qed.

Lemma rcu_ok_active w i e lo : rcu_ok w lo -> rcu_ok (set_active w i e) lo.
Proof. intros []. by constructor. Qed.
Lemma rcu_ok_nest w i n lo : rcu_ok w lo -> rcu_ok (set_nest w i n) lo.
Proof. intros []. by constructor. Qed.

Lemma rcu_ok_link w x lo :
  (x ∉ rw_unlinked w) -> rw_stamp w !! x = None -> rcu_ok w lo ->
  rcu_ok (set_links w ({[x]} ∪ rw_linked w) (rw_unlinked w)) lo.
Proof. intros Hu Hs [H1 H2 H3 H4 H5 H6 H7]. constructor; try done. simpl. intros y [->%elem_of_singleton|Hy]%elem_of_union; auto. Qed.

Lemma rcu_ok_unlink w x lo :
  x ∈ rw_linked w -> rcu_ok w lo -> rcu_ok (set_links w (rw_linked w ∖ {[x]}) ({[x]} ∪ rw_unlinked w)) lo.
Proof.
  intros Hx [H1 H2 H3 H4 H5 H6 H7]. constructor; try done; simpl.
  - intros y [Hy Hne]%elem_of_difference. destruct (H5 y Hy). set_solver.
  - intros y [->%elem_of_singleton|Hy]%elem_of_union; [by apply H5|auto].
Qed.

Lemma rcu_ok_retire w x alloc lo :
  x ∈ rw_unlinked w -> lo <= rw_epoch w -> rcu_ok w lo -> rcu_ok (xtc_rcu_retire w x alloc) lo.
Proof.
  intros Hx Hlo [H1 H2 H3 H4 H5 H6 H7]. pose proof (H6 x Hx) as Hn. pose proof (bucket_of_lt (rw_epoch w)) as Hb.
  constructor; try done; simpl.
  - destruct alloc; [by rewrite length_insert|done].
  - intros b y Hy Hlt. destruct alloc.
    2: { destruct (H4 b y Hy Hlt) as (s & Hs & ?). exists s. rewrite lookup_insert_ne by congruence. done. }
    destruct (decide (x = y)) as [<-|Hne].
    + exists (rw_epoch w). rewrite lookup_insert_eq. split_and!; try done; try lia.
      destruct (decide (bucket_of (rw_epoch w) = b)) as [|D]; [done|].
      rewrite list_lookup_total_insert_ne in Hy by done. destruct (H4 _ _ Hy Hlt) as (s & Hs & _). congruence.
    + rewrite lookup_insert_ne by done. apply H4; [|done].
      destruct (decide (bucket_of (rw_epoch w) = b)) as [<-|D].
      * rewrite list_lookup_total_insert_eq in Hy by lia. apply elem_of_cons in Hy as [->|Hy]; done.
      * by rewrite list_lookup_total_insert_ne in Hy.
  - intros y Hy. destruct (H5 y Hy) as [Hu Hs]. assert (x <> y) by (intros ->; done).
    rewrite lookup_insert_ne by done. set_solver.
  - intros y [Hy Hne]%elem_of_difference. rewrite lookup_insert_ne by set_solver. auto.
  - intros y Hy. destruct (decide (x = y)) as [<-|Hne]; [rewrite lookup_insert_eq; eauto|].
    rewrite lookup_insert_ne by done. apply H7. destruct alloc; set_solver.
Qed.

Lemma retire_grows w x alloc : rw_stamp w !! x = None -> stamps_grow w (xtc_rcu_retire w x alloc).
Proof.
  intros Hn. split; simpl; intros y; [intros s|]; rewrite lookup_insert; destruct (decide (x = y)) as [->|]; eauto. intros [= <-]. auto.
Qed.

Lemma retire_atonce w x alloc : frees_atonce w (xtc_rcu_retire w x alloc).
Proof. destruct alloc; split; simpl; set_solver. Qed.

(** The slot: as it was, or new. *)
Lemma reader_slot_spec w i alloc n w1 :
  __rcu_reader_slot w i alloc = Some (n, w1) ->
  (rw_nest w !! i = Some n /\ w1 = w) \/ (rw_nest w !! i = None /\ n = 0 /\ w1 = set_nest (set_active w i 0) i 0).
Proof. unfold __rcu_reader_slot. destruct (rw_nest w !! i); [|destruct alloc]; intros [= <- <-]; auto. Qed.

(** What a step on the client's own slot leaves. *)
Record slot_only (w w' : rcu_world) (i : nat) : Prop := mk_slot_only {
  sl_other : forall j, j <> i -> rw_active w' !! j = rw_active w !! j /\ rw_nest w' !! j = rw_nest w !! j;
  sl_same : rw_epoch w' = rw_epoch w /\ rw_freed w' = rw_freed w /\ rw_atonce w' = rw_atonce w /\ rw_stamp w' = rw_stamp w;
  sl_ok : forall lo, rcu_ok w lo -> rcu_ok w' lo;
}.

Lemma slot_active w w1 i e : slot_only w w1 i -> slot_only w (set_active w1 i e) i.
Proof.
  intros [H1 H2 H3]. split; [|done|auto using rcu_ok_active]. intros j Hj. simpl. rewrite lookup_insert_ne by done. by apply H1.
Qed.
Lemma slot_nest w w1 i n : slot_only w w1 i -> slot_only w (set_nest w1 i n) i.
Proof.
  intros [H1 H2 H3]. split; [|done|auto using rcu_ok_nest]. intros j Hj. simpl. rewrite lookup_insert_ne by done. by apply H1.
Qed.
Lemma slot_refl w i : slot_only w w i.
Proof. by split. Qed.
Lemma slot_get w i alloc n w1 : __rcu_reader_slot w i alloc = Some (n, w1) -> slot_only w w1 i.
Proof. intros [[_ ->]|(_ & _ & ->)]%reader_slot_spec; auto using slot_refl, slot_active, slot_nest. Qed.

(** A step of a client on its own slot. *)
Lemma inv_slot w w' pool i p p' :
  rcu_inv w pool -> pool !! i = Some p -> clientish p = true -> clientish p' = true -> slot_only w w' i ->
  (forall d h x, p' = RIn d h -> rw_nest w' !! i = Some d -> x ∈ h ->
     (exists d0 h0, p = RIn d0 h0 /\ rw_nest w !! i = Some d0 /\ x ∈ h0) \/ rw_stamp w !! x = None) ->
  pc_ok w' i p' -> rcu_inv w' (<[i := p']> pool).
Proof.
  intros Hinv Hi Hp Hp' [H1 (H2 & H3 & H4 & H5) H6] Hnew Hpc.
  apply (inv_client w _ _ _ p); auto using stamps_same, frees_none.
Qed.

Section OneSyncer.
Context (may_sync : nat -> Prop) (Hone : forall i, may_sync i -> i = 0%nat).

(** The steps of readers on their slots. *)
Lemma lock_inv w pool i p alloc n w1 :
  rcu_inv w pool -> pool !! i = Some p -> at_rest p = true -> __rcu_reader_slot w i alloc = Some (n, w1) ->
  rcu_inv (set_nest w1 i (n + 1)) (<[i := if decide (n = 0) then RLoad (depth p) (got p) else RIn (depth p + 1) (got p)]> pool).
Proof.
  intros Hinv Hi Hp Hs. destruct (inv_pcs _ _ Hinv _ _ Hi) as [Hr Hpc].
  assert (0 <= depth p /\ (depth p = 0 -> got p = ∅)) as [Hd Hg] by (destruct p; simpl in *; try done; split; [lia|lia]).
  assert (is_Some (rw_active w1 !! i)) as Hact.
  { apply reader_slot_spec in Hs as [[Hn ->]|(_ & _ & ->)]; [apply Hr; eauto|simpl; rewrite lookup_insert_eq; eauto]. }
  apply (inv_slot w _ _ _ p); [done|done|by destruct p|by case_decide|eauto using slot_nest, slot_get| |].
  - intros d h x. case_decide; [done|]. intros [= <- <-]. simpl. rewrite lookup_insert_eq. intros [= Hn] Hx. left.
    exists (depth p), (got p). apply reader_slot_spec in Hs as [[Hs ->]|(_ & -> & _)]; [|done].
    destruct p; simpl in *; try done. split_and!; [done| |done]. rewrite Hs. f_equal. lia.
  - split; simpl; [rewrite lookup_insert_eq; split; eauto|]. case_decide as Hn; simpl; rewrite lookup_insert_eq.
    + subst n. done.
    + split; [lia|]. intros [= E]. apply reader_slot_spec in Hs as [[Hs ->]|(_ & -> & _)]; [|done].
      destruct p; simpl in *; try done; [lia|]. apply Hpc. rewrite Hs. f_equal. lia.
Qed.

Lemma unlock_inv w pool i d h alloc n w1 :
  rcu_inv w pool -> pool !! i = Some (RIn d h) -> __rcu_reader_slot w i alloc = Some (n, w1) ->
  rcu_inv (if decide (n - 1 = 0) then set_active (set_nest w1 i (n - 1)) i 0 else set_nest w1 i (n - 1)) (<[i := leave d h]> pool).
Proof.
  intros Hinv Hi Hs. destruct (inv_pcs _ _ Hinv _ _ Hi) as [Hr [Hd Hpc]].
  set (w2 := if decide _ then _ else _). assert (rw_nest w2 !! i = Some (n - 1)) as En.
  { unfold w2. case_decide; simpl; by rewrite lookup_insert_eq. }
  assert (d <> 1 -> n - 1 = d - 1 -> rw_nest w !! i = Some d /\ rw_active w2 !! i = rw_active w !! i) as Hkeep.
  { intros H1 H2. unfold w2. rewrite decide_False by lia. simpl.
    apply reader_slot_spec in Hs as [[Hs ->]|(_ & -> & _)]; [|lia]. split; [|done]. rewrite Hs. f_equal. lia. }
  assert (slot_only w w2 i) as Hsl by (unfold w2; case_decide; eauto using slot_active, slot_nest, slot_get).
  apply (inv_slot w _ _ _ (RIn d h)); [done|done|done|unfold leave; by case_decide|done| |].
  - intros d' h' x. unfold leave. case_decide as D; [done|]. intros [= <- <-]. rewrite En. intros [= E] Hx. left.
    exists d, h. destruct (Hkeep D E). done.
  - split.
    + split; [intros _|intros _; rewrite En; eauto]. apply reader_slot_spec in Hs as [[Hs ->]|(Hn & -> & ->)].
      * unfold w2. case_decide; simpl; [rewrite lookup_insert_eq; eauto|apply Hr; eauto].
      * unfold w2. case_decide; simpl; rewrite lookup_insert_eq; eauto.
    + unfold leave. case_decide as D; [done|]. split; [lia|]. rewrite En. intros [= E]. destruct (Hkeep D E) as [H1 ->].
      destruct Hsl as [_ (-> & -> & -> & ->) _]. by apply Hpc.
Qed.

(** The steps of readers and writers. *)
Lemma client_step_inv w pool i p w' p' :
  rcu_inv w pool -> pool !! i = Some p -> rcu_step may_sync i w p w' p' -> clientish p = true -> clientish p' = true ->
  rcu_inv w' (<[i := p']> pool).
Proof.
  intros Hinv Hi Hst Hp Hp'. pose proof (inv_pcs _ _ Hinv _ _ Hi) as Hpc. pose proof (inv_ok _ _ Hinv) as Hok.
  pose proof (ok_epoch _ _ Hok). pose proof (ok_syncs _ _ Hok).
  destruct Hst as [p alloc w1 Hr Hs|p alloc n w1 Hr Hs Hn|p alloc Hr Hs|d h|d h e|d h x Hx|d h alloc n w1 Hs Hn|d h alloc n w1 Hs Hn|d h alloc Hs
    |p x Hr Hl Hu Hst|p x Hr Hl|p x alloc Hr Hu| | | | | | | | | |]; try done.
  - apply (lock_inv w pool i p alloc 0 w1 Hinv Hi Hr Hs).
  - pose proof (lock_inv w pool i p alloc n w1 Hinv Hi Hr Hs) as H1. by rewrite decide_False in H1.
  - assert (rw_nest w !! i = None) as E by (unfold __rcu_reader_slot in Hs; by destruct (rw_nest w !! i)).
    apply (inv_slot w _ _ _ p); auto using slot_refl; [congruence|]. destruct Hpc as [Hpc1 Hpc2]. split; [done|].
    split; [destruct p; simpl in *; try done; lia|congruence].
  - apply (inv_slot w _ _ _ (RLoad d h)); auto using slot_refl; [done|]. destruct Hpc as [? (? & ? & ?)]. split; [done|]. split_and!; try done; lia.
  - destruct Hpc as [Hr (Hn & Hd & Hh & He)]. apply (inv_slot w _ _ _ (RPub d h e)); auto using slot_refl, slot_active.
    + intros d' h' x [= <- <-]. simpl. rewrite Hn. intros [= E] Hx. rewrite Hh in Hx by lia. set_solver.
    + split; simpl; [rewrite lookup_insert_eq, Hn; split; eauto|]. split; [lia|]. intros E. exists e. rewrite lookup_insert_eq. split_and!; try done; try lia.
      intros x Hx. rewrite Hn in E. injection E as E. rewrite Hh in Hx by lia. set_solver.
  - destruct Hpc as [Hr (Hd & Hh)]. pose proof (ok_links _ _ Hok x Hx) as [_ Hn]. apply (inv_slot w _ _ _ (RIn d h)); auto using slot_refl.
    + intros d' h' y [= <- <-] E [->%elem_of_singleton|Hy]%elem_of_union; [by right|left; by exists d, h].
    + split; [done|]. split; [done|]. intros E. destruct (Hh E) as (e & Ha & He & Hall). exists e. split_and!; try done; try lia.
      intros y [->%elem_of_singleton|Hy]%elem_of_union; [|auto]. split; [|congruence]. intros Hf. destruct (ok_freed _ _ Hok _ Hf). congruence.
  - pose proof (unlock_inv w pool i d h alloc n w1 Hinv Hi Hs) as H1. by rewrite decide_True in H1.
  - pose proof (unlock_inv w pool i d h alloc n w1 Hinv Hi Hs) as H1. by rewrite decide_False in H1.
  - assert (rw_nest w !! i = None) as E by (unfold __rcu_reader_slot in Hs; by destruct (rw_nest w !! i)).
    destruct Hpc as [Hpc1 [Hd _]]. apply (inv_slot w _ _ _ (RIn d h)); auto using slot_refl.
    + intros d' h' x _. congruence.
    + split; [done|]. unfold leave. case_decide; [done|]. split; [lia|congruence].
  - apply (inv_client w _ _ _ p); auto using stamps_same, frees_none, rcu_ok_link. intros d h y -> ? ?. left. by exists d, h.
  - apply (inv_client w _ _ _ p); auto using stamps_same, frees_none, rcu_ok_unlink. intros d h y -> ? ?. left. by exists d, h.
  - pose proof (ok_unlinked _ _ Hok x Hu) as Hn. pose proof (retire_grows w x alloc Hn). pose proof (retire_atonce w x alloc).
    apply (inv_client w _ _ _ p); auto using rcu_ok_retire; [intros d h y -> ? ?; left; by exists d, h|].
    by eapply (pc_ok_stable w).
Qed.

(** Steps of the synchronizer that leave the objects alone. *)
Lemma inv_syncer w pool p p' :
  rcu_inv w pool -> pool !! 0%nat = Some p -> low w p' <= low w p ->
  (match p' with RLoad _ _ | RPub _ _ _ | RIn _ _ => False | _ => True end) -> sync_ok w (<[0%nat := p']> pool) p' ->
  rcu_inv w (<[0%nat := p']> pool).
Proof.
  intros [Hok Hpc Hs] Hi Hlow Hn Hs'. rewrite (syncer_at _ _ Hi) in Hok.
  constructor; rewrite ?syncer_insert, ?decide_True by done; [|apply map_Forall_insert_2; [|done]|done].
  2: { destruct (Hpc _ _ Hi) as [Hr _]. split; [done|]. by destruct p'. }
  destruct Hok as [H1 H2 H3 H4 H5 H6 H7]. constructor; try done.
  intros b x Hx Hb. destruct (H4 b x Hx Hb) as (s & ? & ? & ?). exists s. split_and!; try done; lia.
Qed.

(** Readers are the same when the synchronizer moves. *)
Lemma held_all_syncer w w' pool p' P :
  rw_nest w' = rw_nest w -> clientish p' = false -> held_all w pool P -> held_all w' (<[0%nat := p']> pool) P.
Proof.
  intros E Hn HP. eapply held_all_insert; [intros; by rewrite E|exact HP|done|]. by intros d h x ->.
Qed.

(** A slot that is passed holds nothing from before the old epoch. *)
Lemma passed_slot w pool old j d h x s :
  rcu_inv w pool -> in_old old (default 0 (rw_active w !! j)) = false -> pool !! j = Some (RIn d h) -> rw_nest w !! j = Some d -> x ∈ h ->
  rw_stamp w !! x = Some s -> old <= s.
Proof.
  intros Hinv Hold Hj Hd Hx Hs. destruct (inv_pcs _ _ Hinv _ _ Hj) as [_ [_ Hh0]]. destruct (Hh0 Hd) as (e & Ha & He & Hh).
  rewrite Ha in Hold. unfold in_old in Hold. simpl in Hold. destruct (Hh x Hx) as [_ Hle]. specialize (Hle s Hs).
  apply andb_false_iff in Hold as [E%negb_false_iff%Z.eqb_eq|E%Z.leb_gt]; lia.
Qed.

(** Before it begins, a scan has passed only slots that are not registered. *)
Lemma unregistered_holds_nothing w pool i d h :
  rcu_inv w pool -> pool !! i = Some (RIn d h) -> rw_nest w !! i = Some d -> i ∈ elements (dom (rw_active w)).
Proof.
  intros Hinv Hi Hd. destruct (inv_pcs _ _ Hinv _ _ Hi) as [Hr _]. apply elem_of_elements, elem_of_dom, Hr. eauto.
Qed.

(** The advance of the epoch. *)
Lemma inv_advance w pool old :
  rw_syncs w < 2 ^ 63 -> rcu_inv w pool -> pool !! 0%nat = Some (SStore old) ->
  rcu_inv (advance w old) (<[0%nat := SWait old]> pool).
Proof.
  intros Hb [Hok Hpc Hs] Hi. rewrite (syncer_at _ _ Hi) in Hok, Hs. simpl in Hs, Hok. subst old.
  destruct Hok as [H1 H2 H3 H4 H5 H6 H7].
  assert (u64 (rw_epoch w + 1) = rw_epoch w + 1) as E by (apply uwrap_small; lia).
  constructor; rewrite ?syncer_insert, ?decide_True by done; simpl; rewrite ?E; [| |lia].
  - constructor; try done; simpl; rewrite ?E; try lia.
    intros b x Hx Hlt. destruct (H4 b x Hx Hlt) as (s & ? & ? & ?). exists s. split_and!; try done; lia.
  - apply (map_Forall_pool_update (pc_ok w) _ _ _ _ Hpc).
    + intros j q _ _. apply pc_ok_stable; simpl; rewrite ?E; try done; [lia|by apply frees_none|by apply stamps_same].
    + split; [|done]. by apply (Hpc _ _ Hi).
Qed.

(** The take-over of a bucket. *)
Lemma inv_detach w pool old xs w' :
  rw_syncs w < 2 ^ 63 -> rcu_inv w pool -> pool !! 0%nat = Some (SDetach old) -> detach w old = (xs, w') ->
  rcu_inv w' (<[0%nat := SFree xs]> pool).
Proof.
  intros Hb [Hok Hpc Hs] Hi. rewrite (syncer_at _ _ Hi) in Hok, Hs. simpl in Hs, Hok. destruct Hs as [[He _] Hheld].
  destruct Hok as [H1 H2 H3 H4 H5 H6 H7]. unfold detach. rewrite (uwrap_small 64) by lia.
  replace (old + 1 - 2) with (old - 1) by lia. intros [= <- <-]. pose proof (bucket_of_lt (old - 1)) as Hlt.
  constructor; rewrite ?syncer_insert, ?decide_True by done; simpl.
  - constructor; try done; simpl.
    + by rewrite length_insert.
    + intros b x Hx Hb4. destruct (decide (bucket_of (old - 1) = b)) as [<-|Hne].
      { rewrite list_lookup_total_insert_eq in Hx by lia. by apply elem_of_nil in Hx. }
      rewrite list_lookup_total_insert_ne in Hx by done. destruct (H4 b x Hx Hb4) as (s & Hs & -> & Hr).
      exists s. split_and!; try done; [|lia]. assert (s <> old - 1) by congruence. lia.
  - apply (map_Forall_pool_update (pc_ok w) _ _ _ _ Hpc).
    + intros j q _ _. apply pc_ok_stable; try done; [by apply frees_none|by apply stamps_same].
    + split; [|done]. by apply (Hpc _ _ Hi).
  - intros x Hx. destruct (H4 _ x Hx Hlt) as (s & Hs & Ebs & Hr). split; [eauto|].
    assert (old - 1 = s) as Es by (apply bucket_of_inj; [done|lia]).
    eapply held_all_syncer; [done|done|]. eapply held_all_mono; [exact Hheld|].
    intros j y Hy ->. specialize (Hy s Hs). lia.
Qed.

(** The call of a free function. *)
Lemma inv_free w pool x xs :
  rcu_inv w pool -> pool !! 0%nat = Some (SFree (x :: xs)) ->
  rcu_inv (free_obj w x) (<[0%nat := SFree xs]> pool).
Proof.
  intros [Hok Hpc Hs] Hi. rewrite (syncer_at _ _ Hi) in Hok, Hs. simpl in Hs, Hok.
  destruct (Hs x ltac:(left)) as [Hst Hx]. destruct Hok as [H1 H2 H3 H4 H5 H6 H7].
  constructor; rewrite ?syncer_insert, ?decide_True by done; simpl.
  - constructor; try done. simpl. intros y [->%elem_of_singleton|Hy]%elem_of_union; auto.
  - apply (map_Forall_pool_update (pc_ok w) _ _ _ _ Hpc); [|split; [by apply (Hpc _ _ Hi)|done]].
    intros j q _ Hj [Hr Hq]. split; [done|]. destruct q as [| | |d h| | | | |]; try done. destruct Hq as [Hd Hq]. split; [done|]. intros Hn.
    destruct (Hq Hn) as (e & Ha & He & Hh). exists e. split; [done|]. split; [done|].
    intros y Hy. destruct (Hh y Hy) as [Hnf Hle]. split; [|done]. specialize (Hx j d h y Hj Hn Hy). simpl. set_solver.
  - intros y Hy. destruct (Hs y ltac:(by right)) as [? ?]. split; [done|].
    eapply held_all_syncer; [done|done|done].
Qed.

Lemma rcu_step_inv w pool i p w' p' :
  rw_syncs w < 2 ^ 63 -> rcu_inv w pool -> pool !! i = Some p -> rcu_step may_sync i w p w' p' ->
  rcu_inv w' (<[i := p']> pool).
Proof.
  intros Hb Hinv Hi Hst.
  assert (forall q, clientish q = false -> pool !! i = Some q -> i = 0%nat)
    as H0 by (intros q Hq Hq'; destruct (inv_pcs _ _ Hinv _ _ Hq'); by destruct q).
  pose proof Hst as Hst0.
  assert (forall d h, clientish (leave d h) = true) as Hlv by (intros; unfold leave; by case_decide).
  destruct Hst; try (by eapply client_step_inv); try (by destruct p; eapply client_step_inv);
    try (assert (i = 0%nat) as -> by (first [by apply Hone|by eapply H0; [|exact Hi]])).
  - by apply (inv_syncer w _ RIdle).
  - by apply inv_advance.
  - pose proof (inv_sync _ _ Hinv) as Hs. rewrite (syncer_at _ _ Hi) in Hs.
    apply (inv_syncer w _ (SWait old)); try done. simpl. split; [done|].
    eapply held_all_syncer; [done|done|]. intros j d h x Hj Hd _ Hn. by destruct Hn; eapply unregistered_holds_nothing.
  - pose proof (inv_sync _ _ Hinv) as Hs. rewrite (syncer_at _ _ Hi) in Hs.
    apply (inv_syncer w _ (SScan old (j :: todo))); try done. apply Hs.
  - pose proof (inv_sync _ _ Hinv) as Hs. rewrite (syncer_at _ _ Hi) in Hs. destruct Hs as [He Hh].
    apply (inv_syncer w _ (SScan old (j :: todo))); try done. simpl. split; [done|].
    eapply held_all_syncer; [done|done|]. intros k d h x Hk Hd Hx Hn s Hsx.
    destruct (decide (k = j)) as [->|Hne]; [by eapply passed_slot|]. eapply (Hh k d h x Hk Hd Hx); [|done]. set_solver.
  - pose proof (inv_sync _ _ Hinv) as Hs. rewrite (syncer_at _ _ Hi) in Hs. destruct Hs as [He Hh].
    apply (inv_syncer w _ (SScan old [])); try done. simpl. split; [done|].
    eapply held_all_syncer; [done|done|]. eapply held_all_mono; [exact Hh|]. intros k x Hx. apply Hx. set_solver.
  - pose proof (inv_sync _ _ Hinv) as Hs. rewrite (syncer_at _ _ Hi) in Hs. destruct Hs as [[He H1] _].
    pose proof (ok_epoch _ _ (inv_ok _ _ Hinv)). rewrite (uwrap_small 64) in H by lia. lia.
  - by eapply inv_detach.
  - by apply inv_free.
  - apply (inv_syncer w _ (SFree [])); try done.
Qed.

Lemma syncs_mono i w p w' p' : rcu_step may_sync i w p w' p' -> rw_syncs w <= rw_syncs w'.
Proof.
  intros []; simpl; try lia.
  all: try match goal with Hs : __rcu_reader_slot _ _ _ = Some _ |- _ => apply reader_slot_spec in Hs as [[_ ->]|(_ & _ & ->)]; simpl; lia end.
  - unfold detach in *. simplify_eq. simpl. lia.
Qed.

Lemma rcu_start_inv k : rcu_inv rcu0 (idle_pool RIdle k).
Proof.
  assert (syncer (idle_pool RIdle k) = RIdle) as E.
  { unfold syncer. destruct (idle_pool RIdle k !! 0%nat) as [p|] eqn:E; [|done].
    by apply (idle_pool_Forall RIdle k (fun _ p => p = RIdle)) in E. }
  constructor; rewrite ?E; [|by apply idle_pool_Forall|done].
  constructor; try done. intros b x Hx Hb. exfalso. by do 4 (destruct b as [|b]; [by apply elem_of_nil in Hx|]); lia.
Qed.

Lemma rcu_run_inv k w pool :
  reachable (rcu_step may_sync) (rcu0, idle_pool RIdle k) (w, pool) -> rw_syncs w < 2 ^ 63 -> rcu_inv w pool.
Proof.
  intros Hr. refine (pool_invariant (rcu_step may_sync) (fun w pool => rw_syncs w < 2 ^ 63 -> rcu_inv w pool)
    _ (w, pool) _ _ Hr).
  - intros s pl i p s' p' HI Hi Hst Hb. pose proof (syncs_mono _ _ _ _ _ Hst).
    assert (rw_syncs s < 2 ^ 63) as Hs by lia. exact (rcu_step_inv _ _ _ _ _ _ Hs (HI Hs) Hi Hst).
  - intros _. apply rcu_start_inv.
Qed.
End OneSyncer.

(** ** What readers and writers rely on *)

(** C7: nothing is freed under a reader.  With one client that synchronizes,
    any number of readers (nested read sides, epochs published late) and
    writers that link, unlink and retire, with their atomic accesses
    interleaved in any way and memory refused at any call: no object that a
    protected reader got hold of in its current read side has been freed,
    unless its retirement found no memory and freed it at once.  A reader is
    protected when its slot counts its read sides; one that entered a read
    side without memory for a slot is not ([rcu_lost_reader]).  And when no
    synchronize is running, the objects that wait to be freed were retired in
    the current or the previous epoch, so the garbage is bounded by two grace
    periods. *)
Theorem rcu_grace_period may_sync k w pool :
  (forall i, may_sync i -> i = 0%nat) ->
  reachable (rcu_step may_sync) (rcu0, idle_pool RIdle k) (w, pool) -> rw_syncs w < 2 ^ 63 ->
  (forall i d h x, pool !! i = Some (RIn d h) -> protected w i (RIn d h) -> x ∈ h -> x ∈ rw_freed w -> x ∈ rw_atonce w) /\
  (map_Forall (fun _ p => at_rest p = true) pool ->
   forall b x, x ∈ rw_buckets w !!! b -> (b < 4)%nat ->
     exists s, rw_stamp w !! x = Some s /\ rw_epoch w - 1 <= s <= rw_epoch w).
Proof.
  intros Hone Hr Hb. destruct (rcu_run_inv may_sync Hone k w pool Hr Hb) as [Hok Hpc _]. split.
  - intros i d h x Hi Hd Hx. destruct (Hpc _ _ Hi) as [_ [_ Hh]]. destruct (Hh Hd) as (e & _ & _ & He). by apply He.
  - intros Hrest b x Hx Hlt. destruct (ok_bucket _ _ Hok b x Hx Hlt) as (s & Hs & _ & Hle). exists s. split; [done|].
    assert (at_rest (syncer pool) = true) as Hq.
    { unfold syncer. destruct (pool !! 0%nat) as [p|] eqn:E; [by apply (Hrest _ _ E)|done]. }
    by destruct (syncer pool).
Qed.

(** The slot of a client counts its read sides, also inside a lock. *)
Definition counted (w : rcu_world) (i : nat) (p : rcu_pc) : Prop :=
  match p with
  | RIn d _ => 1 <= d /\ rw_nest w !! i = Some d
  | RLoad d _ | RPub d _ _ => d = 0 /\ rw_nest w !! i = Some 1
  | _ => default 0 (rw_nest w !! i) = 0
  end.

(** A client stays protected until a lock of it is refused memory: whatever it
    does otherwise, its slot goes on counting its read sides. *)
Theorem rcu_stays_protected may_sync i w p w' p' :
  rcu_step may_sync i w p w' p' -> counted w i p -> (p = p' \/ is_Some (rw_nest w' !! i) \/ at_rest p' = false) -> counted w' i p'.
Proof.
  intros Hst Hc Hm. destruct Hst as [p alloc w1 Hr Hs|p alloc n w1 Hr Hs Hn|p alloc Hr Hs|d h|d h e|d h x Hx|d h alloc n w1 Hs Hn|d h alloc n w1 Hs Hn|d h alloc Hs
    |p x Hr Hl Hu Hst|p x Hr Hl|p x alloc Hr Hu| | | | | | | | | |]; try exact Hc.
  - simpl. rewrite lookup_insert_eq. destruct p as [| | |d h| | | | |]; try done. destruct Hc as [Hd Hc].
    apply reader_slot_spec in Hs as [[Hs _]|(Hs & _)]; rewrite Hs in Hc; simplify_eq; lia.
  - simpl. rewrite lookup_insert_eq. apply reader_slot_spec in Hs as [[Hs _]|(_ & -> & _)]; [|done].
    destruct p as [| | |d h| | | | |]; try done; simpl in *; rewrite Hs in Hc; simpl in Hc; [done|]. destruct Hc as [Hd [= ->]]. split; [lia|done].
  - unfold __rcu_reader_slot in Hs. destruct (rw_nest w !! i) eqn:E; [done|]. destruct Hm as [Hm|[[? Hm]|Hm]]; [|congruence|done].
    destruct p as [| | |d h| | | | |]; try done. simpl in Hm. injection Hm as Hm. lia.
  - destruct Hc as [-> Hc]. by split.
  - destruct Hc as [Hd Hc]. apply reader_slot_spec in Hs as [[Hs ->]|(Hs & _)]; [|congruence]. rewrite Hs in Hc. simplify_eq.
    unfold leave. rewrite decide_True by lia. simpl. by rewrite lookup_insert_eq.
  - destruct Hc as [Hd Hc]. apply reader_slot_spec in Hs as [[Hs ->]|(Hs & _)]; [|congruence]. rewrite Hs in Hc. simplify_eq.
    unfold leave. rewrite decide_False by lia. simpl. rewrite lookup_insert_eq. split; [lia|done].
  - destruct Hc as [Hd Hc]. unfold __rcu_reader_slot in Hs. by rewrite Hc in Hs.
  - unfold detach in *. by simplify_eq.
Qed.

(** Reader 1 gets object 7; writer 2 unlinks and retires it; client 0
    synchronizes twice, the second time until it waits for the reader. *)
Lemma rcu_demo_run :
  exists w pool, reachable (rcu_step (fun i => i = 0%nat)) (rcu0, idle_pool RIdle 3) (w, pool) /\
    rw_syncs w = 1 /\ pool !! 1%nat = Some (RIn 1 ({[7]} ∪ ∅)) /\ protected w 1 (RIn 1 ({[7]} ∪ ∅)) /\ rw_atonce w = ∅.
Proof.
  eexists _, _. split.
  { pool_run 2%nat by (by apply (rs_link _ _ _ _ 7)).
    pool_run 1%nat by (by apply (rs_lock _ _ _ _ true)). pool_run 1%nat by (apply rs_load). pool_run 1%nat by (apply rs_publish).
    pool_run 1%nat by (apply (rs_get _ _ _ _ _ 7); vm_compute; done).
    pool_run 2%nat by (apply (rs_unlink _ _ _ _ 7); [done|vm_compute; done]).
    pool_run 2%nat by (apply (rs_retire _ _ _ _ 7 true); [done|vm_compute; done]).
    pool_run 0%nat by (by apply rs_sync). pool_run 0%nat by (apply rs_advance). pool_run 0%nat by (apply rs_scan).
    pool_run 0%nat by (apply rs_busy; reflexivity). apply rtc_refl. }
  split_and!; vm_compute; reflexivity.
Qed.

Lemma rcu_grace_period_witness :
  exists w pool d h, reachable (rcu_step (fun i => i = 0%nat)) (rcu0, idle_pool RIdle 3) (w, pool) /\
    pool !! 1%nat = Some (RIn d h) /\ 7 ∈ h /\ (7 ∉ rw_freed w).
Proof.
  destruct rcu_demo_run as (w & pool & Hr & Hs & Hp & Hd & Ha). exists w, pool, 1, ({[7]} ∪ ∅).
  split; [exact Hr|]. split; [exact Hp|]. split; [set_solver|]. intros Hf.
  assert (7 ∈ rw_atonce w) as H7; [|rewrite Ha in H7; set_solver].
  refine (proj1 (rcu_grace_period (fun i => i = 0%nat) 3 w pool (fun i H => H) Hr _) 1%nat 1 ({[7]} ∪ ∅) 7 Hp Hd _ Hf).
  - rewrite Hs. lia.
  - set_solver.
Defined.

(** Without memory for the record of its retirement, an object is freed under
    a reader that has it. *)
Example rcu_retire_nomem :
  exists w pool d h, reachable (rcu_step (fun i => i = 0%nat)) (rcu0, idle_pool RIdle 3) (w, pool) /\
    pool !! 1%nat = Some (RIn d h) /\ protected w 1 (RIn d h) /\ 7 ∈ h /\ 7 ∈ rw_freed w.
Proof.
  eexists _, _, _, _. split.
  { pool_run 2%nat by (by apply (rs_link _ _ _ _ 7)).
    pool_run 1%nat by (by apply (rs_lock _ _ _ _ true)). pool_run 1%nat by (apply rs_load). pool_run 1%nat by (apply rs_publish).
    pool_run 1%nat by (apply (rs_get _ _ _ _ _ 7); vm_compute; done).
    pool_run 2%nat by (apply (rs_unlink _ _ _ _ 7); [done|vm_compute; done]).
    pool_run 2%nat by (apply (rs_retire _ _ _ _ 7 false); [done|vm_compute; done]). apply rtc_refl. }
  split; [vm_compute; reflexivity|]. split; [vm_compute; reflexivity|]. split; vm_compute; done.
Qed.

(** A fiber that is refused memory once may stay unprotected for good.  Its
    lock finds no memory for a slot and is a no-op, but its unlock finds some,
    makes the slot and counts it down to -1.  The next read side counts up to
    zero without publishing an epoch, and so does every one after it; the
    object it holds is freed by a synchronize that does not see it. *)
Example rcu_lost_reader :
  exists w pool d h, reachable (rcu_step (fun i => i = 0%nat)) (rcu0, idle_pool RIdle 3) (w, pool) /\
    pool !! 1%nat = Some (RIn d h) /\ rw_nest w !! 1%nat = Some 0 /\ 7 ∈ h /\ 7 ∈ rw_freed w /\ rw_atonce w = ∅.
Proof.
  eexists _, _, _, _. split.
  { pool_run 2%nat by (by apply (rs_link _ _ _ _ 7)).
    pool_run 1%nat by (by apply (rs_lock_nomem _ _ _ _ false)).
    pool_run 1%nat by (eapply (rs_unnest _ _ _ _ _ true); [reflexivity|done]).
    pool_run 1%nat by (eapply (rs_nest _ _ _ _ true); [done|reflexivity|done]).
    pool_run 1%nat by (apply (rs_get _ _ _ _ _ 7); vm_compute; done).
    pool_run 2%nat by (apply (rs_unlink _ _ _ _ 7); [done|vm_compute; done]).
    pool_run 2%nat by (apply (rs_retire _ _ _ _ 7 true); [done|vm_compute; done]).
    pool_run 0%nat by (by apply rs_sync). pool_run 0%nat by (apply rs_advance). pool_run 0%nat by (apply rs_scan).
    pool_run 0%nat by (apply rs_passed; reflexivity). pool_run 0%nat by (apply rs_drained).
    pool_run 0%nat by (eapply rs_detach; [vm_compute; done|reflexivity]). pool_run 0%nat by (apply rs_done).
    pool_run 0%nat by (by apply rs_sync). pool_run 0%nat by (apply rs_advance). pool_run 0%nat by (apply rs_scan).
    pool_run 0%nat by (apply rs_passed; reflexivity). pool_run 0%nat by (apply rs_drained).
    pool_run 0%nat by (eapply rs_detach; [vm_compute; done|reflexivity]).
    pool_run 0%nat by (apply rs_free). apply rtc_refl. }
  split_and!; vm_compute; done.
Qed.

(** Two synchronizers free under a reader.  If two clients may call
    [xtc_rcu_synchronize] at the same time, one that has passed its scan can
    be overtaken by two grace periods of the other; the bucket it then takes
    over is the one of the current epoch, and an object retired a moment ago
    is freed although a reader has it. *)
Theorem rcu_two_synchronizers_free_early :
  exists w pool n h, reachable (rcu_step (fun _ => True)) (rcu0, idle_pool RIdle 4) (w, pool) /\
    pool !! 2%nat = Some (RIn n h) /\ 7 ∈ h /\ 7 ∈ rw_freed w.
Proof.
  eexists _, _, _, _. split.
  { pool_run 0%nat by (by apply rs_sync). pool_run 0%nat by (apply rs_advance). pool_run 0%nat by (apply rs_scan).
    pool_run 0%nat by (apply rs_drained).
    pool_run 1%nat by (by apply rs_sync). pool_run 1%nat by (apply rs_advance). pool_run 1%nat by (apply rs_scan).
    pool_run 1%nat by (apply rs_drained). pool_run 1%nat by (eapply rs_detach; [vm_compute; done|reflexivity]).
    pool_run 1%nat by (apply rs_done).
    pool_run 1%nat by (by apply rs_sync). pool_run 1%nat by (apply rs_advance).
    pool_run 3%nat by (by apply (rs_link _ _ _ _ 7)).
    pool_run 2%nat by (by apply (rs_lock _ _ _ _ true)). pool_run 2%nat by (apply rs_load). pool_run 2%nat by (apply rs_publish).
    pool_run 2%nat by (apply (rs_get _ _ _ _ _ 7); vm_compute; done).
    pool_run 3%nat by (apply (rs_unlink _ _ _ _ 7); [done|vm_compute; done]).
    pool_run 3%nat by (apply (rs_retire _ _ _ _ 7 true); [done|vm_compute; done]).
    pool_run 0%nat by (eapply rs_detach; [vm_compute; done|reflexivity]).
    pool_run 0%nat by (apply rs_free). apply rtc_refl. }
  split; [vm_compute; reflexivity|]. split; vm_compute; done.
Qed.
