(* ===== verification/LrLock.v ===== *)
(** * The left-right lock (src/ptc/lock_lr.c, src/inc/xtc_lrlock.h)

    Two copies of the data: readers read the one [read_idx] names without
    ever waiting, the writer changes the other, swaps the index, waits for
    the readers that may still be on the old copy and brings it up to date,
    by replaying the logged operations or by a full copy.  The data, the
    user's apply function and the user's copy function are parameters; the
    log is bytes as the code writes them.  Reader and writer steps are the
    atomic accesses, interleaved in any way; a client is a reader slot. *)

From S2P Require Import Prelude.

Local Open Scope Z_scope.

(** ** The operation log *)

Definition OP_HEADER_SIZE : nat := 4.

(** XTC_ALIGN(n, 8), (n + 7) & ~7 *)
Definition align8 (n : nat) : nat := ((n + 7) / 8 * 8)%nat.

(** [op_header]: the size, little-endian. *)
Definition le_bytes (n : Z) : list Z := (fun k => Z.shiftr n (8 * k) mod 256) <$> [0; 1; 2; 3].

Definition le_value (bs : list Z) : Z := foldr (fun b n => b + 256 * n) 0 bs.

(** An entry; [pad] is what the buffer held up to the alignment. *)
Definition op_entry (op pad : list Z) : list Z := le_bytes (Z.of_nat (length op)) ++ op ++ pad.

Definition entry_ok (op pad : list Z) : Prop :=
  Z.of_nat (length op) < 2 ^ 32 /\ length pad = (align8 (length op) - length op)%nat.

Section LrLock.
Context {D : Type} (apply_fn : D -> list Z -> D).

(** [__replay_oplog]; each turn moves [pos] up, so the length bounds the turns. *)
Fixpoint replay_loop (fuel : nat) (log : list Z) (pos : nat) (target : D) : D :=
  match fuel with
  | O => target
  | S fuel' =>
      if decide (pos + OP_HEADER_SIZE <= length log)%nat then
        let op_size := Z.to_nat (le_value (take OP_HEADER_SIZE (drop pos log))) in
        let pos := (pos + OP_HEADER_SIZE)%nat in
        if decide (length log < pos + op_size)%nat then target
        else replay_loop fuel' log (pos + align8 op_size) (apply_fn target (take op_size (drop pos log)))
      else target
  end.

Definition __replay_oplog (log : list Z) (target : D) : D := replay_loop (S (length log)) log 0 target.

(** The bytes that hold the operations [ops]. *)
Inductive logged : list Z -> list (list Z) -> Prop :=
  | logged_nil : logged [] []
  | logged_op log ops op pad :
      logged log ops -> entry_ok op pad -> logged (log ++ op_entry op pad) (ops ++ [op]).

Lemma align8_le n : (n <= align8 n)%nat.
Proof. unfold align8. pose proof (Nat.div_mod (n + 7) 8 ltac:(lia)). pose proof (Nat.mod_upper_bound (n + 7) 8 ltac:(lia)). lia. Qed.

Lemma le_bytes_value n : 0 <= n < 2 ^ 32 -> le_value (le_bytes n) = n.
Proof.
  intros Hn. unfold le_bytes, le_value. simpl. rewrite !Z.shiftr_div_pow2 by lia. simpl.
  change (2 ^ (8 * 0)) with 1. change (2 ^ (8 * 1)) with 256. change (2 ^ (8 * 2)) with (256 * 256).
  change (2 ^ (8 * 3)) with (256 * 256 * 256).
  rewrite <-!Z.div_div, Z.div_1_r by lia.
  pose proof (Z.div_mod n 256 ltac:(lia)). pose proof (Z.div_mod (n / 256) 256 ltac:(lia)).
  pose proof (Z.div_mod (n / 256 / 256) 256 ltac:(lia)). pose proof (Z.div_mod (n / 256 / 256 / 256) 256 ltac:(lia)).
  assert (n / 256 / 256 / 256 / 256 = 0) as E; [|lia].
  rewrite !Z.div_div by lia. apply Z.div_small. lia.
Qed.

Lemma op_entry_length op pad : entry_ok op pad -> length (op_entry op pad) = (4 + align8 (length op))%nat.
Proof. intros [_ Hp]. unfold op_entry. rewrite !length_app, Hp. simpl. pose proof (align8_le (length op)). lia. Qed.

(** One turn of the replay reads back the entry at [pos]. *)
Lemma replay_entry fuel pre op pad suf d :
  entry_ok op pad ->
  replay_loop (S fuel) (pre ++ op_entry op pad ++ suf) (length pre) d =
  replay_loop fuel (pre ++ op_entry op pad ++ suf) (length (pre ++ op_entry op pad)) (apply_fn d op).
Proof.
  intros He. pose proof He as [Hs Hp]. pose proof (op_entry_length op pad He) as Hl. pose proof (align8_le (length op)).
  cbn [replay_loop]. unfold OP_HEADER_SIZE. rewrite decide_True by (rewrite !length_app, Hl; lia).
  assert (take 4 (drop (length pre) (pre ++ op_entry op pad ++ suf)) = le_bytes (Z.of_nat (length op))) as ->.
  { rewrite drop_app_length. unfold op_entry. rewrite <-app_assoc. by apply take_app_length'. }
  rewrite le_bytes_value, Nat2Z.id by lia. rewrite decide_False by (rewrite !length_app, Hl; lia).
  assert (drop (length pre + 4) (pre ++ op_entry op pad ++ suf) = op ++ pad ++ suf) as ->.
  { rewrite <-drop_drop, drop_app_length. unfold op_entry. rewrite <-!(app_assoc _ _ suf). by apply drop_app_length'. }
  rewrite take_app_length. f_equal. rewrite length_app, Hl. lia.
Qed.

Lemma logged_fuel log ops : logged log ops -> (length ops <= length log)%nat.
Proof. induction 1 as [|log ops op pad H IH He]; [done|]. rewrite !length_app, (op_entry_length op pad He). simpl. lia. Qed.

Lemma replay_prefix log ops fuel suf d :
  logged log ops -> replay_loop (length ops + fuel) (log ++ suf) 0 d = replay_loop fuel (log ++ suf) (length log) (fold_left apply_fn ops d).
Proof.
  intros H. revert fuel suf. induction H as [|log ops op pad H IH He]; intros fuel suf; [done|].
  rewrite <-app_assoc, length_app, fold_left_app. simpl.
  replace (length ops + 1 + fuel)%nat with (length ops + S fuel)%nat by lia. rewrite IH. by apply replay_entry.
Qed.

(** The replay of the bytes is the operations in order. *)
Lemma replay_logged log ops d : logged log ops -> __replay_oplog log d = fold_left apply_fn ops d.
Proof.
  intros H. unfold __replay_oplog. pose proof (logged_fuel _ _ H) as Hf.
  replace (S (length log)) with (length ops + S (length log - length ops))%nat by lia.
  rewrite <-(app_nil_r log) at 2. rewrite (replay_prefix log ops _ [] d H). cbn [replay_loop]. rewrite app_nil_r.
  rewrite decide_False; [done|]. unfold OP_HEADER_SIZE. lia.
Qed.
End LrLock.

(** ** The lock *)

(** [lr_writer]: the owner of the writer mutex; [lr_ops]: the operations the
    log holds (the code keeps their number, oplog_count); [lr_dirty] (not in
    the code): the write copy was changed other than by logged operations,
    or left behind by a full sync without a copy function. *)
Record xtc_lrlock (D : Type) := mk_lr {
  lr_data : D * D;
  lr_read_idx : bool;
  lr_epochs : gmap nat Z;
  lr_active : gset nat;
  lr_oplog : list Z;
  lr_first_done : bool;
  lr_writer : option nat;
  lr_ops : list (list Z);
  lr_dirty : bool;
}.

Arguments mk_lr {D} _ _ _ _ _ _ _ _ _.
Arguments lr_data {D} _.
Arguments lr_read_idx {D} _.
Arguments lr_epochs {D} _.
Arguments lr_active {D} _.
Arguments lr_oplog {D} _.
Arguments lr_first_done {D} _.
Arguments lr_writer {D} _.
Arguments lr_ops {D} _.
Arguments lr_dirty {D} _.

Section Lock.
Context {D : Type} (apply_fn : D -> list Z -> D) (sync_fn : option (D -> D -> D)).
Context (cow : bool) (max_readers : nat) (data_size : Z).

(** Was the lock marked ready when it was set up? *)
Context (ready : bool).

Implicit Types (w : xtc_lrlock D).

Definition buf w (b : bool) : D := if b then (lr_data w).2 else (lr_data w).1.
Definition epoch w (i : nat) : Z := default 0 (lr_epochs w !! i).

Definition set_buf w (b : bool) (d : D) : xtc_lrlock D :=
  mk_lr (if b then ((lr_data w).1, d) else (d, (lr_data w).2)) (lr_read_idx w) (lr_epochs w) (lr_active w) (lr_oplog w)
    (lr_first_done w) (lr_writer w) (lr_ops w) (lr_dirty w).
Definition set_slot w (i : nat) (e : Z) (active : gset nat) : xtc_lrlock D :=
  mk_lr (lr_data w) (lr_read_idx w) (<[i := e]> (lr_epochs w)) active (lr_oplog w) (lr_first_done w) (lr_writer w)
    (lr_ops w) (lr_dirty w).
Definition set_writer w (o : option nat) (first dirty : bool) : xtc_lrlock D :=
  mk_lr (lr_data w) (lr_read_idx w) (lr_epochs w) (lr_active w) (lr_oplog w) first o (lr_ops w) dirty.
Definition set_log w (log : list Z) (ops : list (list Z)) : xtc_lrlock D :=
  mk_lr (lr_data w) (lr_read_idx w) (lr_epochs w) (lr_active w) log (lr_first_done w) (lr_writer w) ops (lr_dirty w).
Definition set_read w (b : bool) : xtc_lrlock D :=
  mk_lr (lr_data w) b (lr_epochs w) (lr_active w) (lr_oplog w) (lr_first_done w) (lr_writer w) (lr_ops w) (lr_dirty w).

(** The copy the writer works on. *)
Definition write_idx w : bool := negb (lr_read_idx w).

(** [xtc_lrlock_write_begin] under the mutex: in copy-on-write mode the write
    copy is made afresh. *)
Definition write_begin w (i : nat) : xtc_lrlock D :=
  let w' := set_writer w (Some i) (lr_first_done w) (lr_dirty w) in
  if cow then set_buf w' (write_idx w) (buf w (lr_read_idx w)) else w'.

Definition apply_op w (op pad : list Z) : xtc_lrlock D :=
  set_buf (set_log w (lr_oplog w ++ op_entry op pad) (lr_ops w ++ [op])) (write_idx w)
    (apply_fn (buf w (write_idx w)) op).

(** What [__publish_common] does before the swap. *)
Definition first_sync w (full : bool) : xtc_lrlock D :=
  if negb (lr_first_done w) && negb full then
    let d := match sync_fn with
             | Some f => f (buf w (write_idx w)) (buf w (lr_read_idx w))
             | None => buf w (write_idx w)
             end in
    let d := match lr_oplog w with [] => d | log => __replay_oplog apply_fn log d end in
    set_writer (set_buf w (write_idx w) d) (lr_writer w) true
      (match sync_fn with Some _ => false | None => lr_dirty w end)
  else set_writer w (lr_writer w) true (lr_dirty w).

(** What it does after the old readers have left; [junk]: what is left of the
    copy given back to the system in copy-on-write mode. *)
Definition stale_copy w (full : bool) : D :=
  let old := buf w (write_idx w) in
  let new := buf w (lr_read_idx w) in
  if full then match sync_fn with Some f => f old new | None => old end
  else match lr_oplog w with
  | [] => old
  | log =>
      if decide (Z.of_nat (length (lr_ops w)) * 256 <= data_size) then __replay_oplog apply_fn log old
      else match sync_fn with Some f => f old new | None => __replay_oplog apply_fn log old end
  end.

Definition catch_up w (full : bool) (junk : D) : xtc_lrlock D :=
  set_log (set_writer (set_buf w (write_idx w) (if cow then junk else stale_copy w full)) (lr_writer w) (lr_first_done w)
    (if full then match sync_fn with Some _ => false | None => true end else lr_dirty w)) [] [].

Definition xtc_lrlock_mark_ready w : xtc_lrlock D := set_writer w (lr_writer w) true (lr_dirty w).

(** [__snapshot_epochs]: the slots of word [k] of the mask; those whose bit is
    set in it, lowest first; the snapshot with the word's slots cleared. *)
Definition nbitmask_words : nat := ((max_readers + 63) / 64)%nat.
Definition word_slots (k : nat) : list nat := seq (64 * k) (Nat.min 64 (max_readers - 64 * k)).
Definition word_bits w (k : nat) : list nat := filter (.∈ lr_active w) (word_slots k).
Definition clear_word (k : nat) (last : gmap nat Z) : gmap nat Z := foldr (fun j m => <[j := 0]> m) last (word_slots k).

(** The test of [__wait_for_readers]: reader [j] was in at the snapshot and has
    not moved since. *)
Definition still_reading w (last : gmap nat Z) (j : nat) : bool :=
  Z.odd (default 0 (last !! j)) && (epoch w j =? default 0 (last !! j)).

(** [RBit], [REpoch]: announced, epoch bumped; [RIn n bs]: in [n] nested reads,
    [bs] the copies obtained with their contents then; [REnd]: epoch bumped
    again.  [W*]: the writer, from its ownership through the publish. *)
Inductive lr_pc : Type :=
  | LIdle
  | RBit | REpoch | RIn (n : Z) (bs : list (bool * D)) | REnd
  | WOwn | WSwap (full : bool)
  | WSnap (full : bool) (words bits : list nat) (last : gmap nat Z)
  | WWait (full : bool) (todo : list nat) (last : gmap nat Z)
  | WSync (full : bool).

Definition here w : bool * D := (lr_read_idx w, buf w (lr_read_idx w)).

Inductive lr_step (i : nat) w : lr_pc -> xtc_lrlock D -> lr_pc -> Prop :=
  (* read_begin *)
  | ls_bit : (i < max_readers)%nat -> lr_step i w LIdle (set_slot w i (epoch w i) ({[i]} ∪ lr_active w)) RBit
  | ls_epoch : lr_step i w RBit (set_slot w i (u32 (epoch w i + 1)) (lr_active w)) REpoch
  | ls_index : lr_step i w REpoch w (RIn 1 [here w])
  | ls_nested n bs : n + 1 < 2 ^ 32 -> lr_step i w (RIn n bs) w (RIn (n + 1) (here w :: bs))
  (* read_end *)
  | ls_unnest n bs : n <> 1 -> lr_step i w (RIn n bs) w (RIn (n - 1) bs)
  | ls_leave bs : lr_step i w (RIn 1 bs) (set_slot w i (u32 (epoch w i + 1)) (lr_active w)) REnd
  | ls_clear : lr_step i w REnd (set_slot w i (epoch w i) (lr_active w ∖ {[i]})) LIdle
  (* write_begin, apply_op, direct changes, write_end *)
  | ls_begin : lr_writer w = None -> lr_step i w LIdle (write_begin w i) WOwn
  | ls_apply op pad : op <> [] -> entry_ok op pad -> lr_step i w WOwn (apply_op w op pad) WOwn
  | ls_direct d :
      lr_step i w WOwn (set_writer (set_buf w (write_idx w) d) (lr_writer w) (lr_first_done w) true) WOwn
  | ls_ready p : p = LIdle \/ p = WOwn -> lr_step i w p (xtc_lrlock_mark_ready w) p
  | ls_end : lr_step i w WOwn (set_writer w None (lr_first_done w) (lr_dirty w)) LIdle
  (* publish *)
  | ls_publish full : lr_step i w WOwn (first_sync w full) (WSwap full)
  | ls_swap full : lr_step i w (WSwap full) (set_read w (write_idx w)) (WSnap full (seq 0 nbitmask_words) [] ∅)
  | ls_word full k words last :
      lr_step i w (WSnap full (k :: words) [] last) w (WSnap full words (word_bits w k) (clear_word k last))
  | ls_snap full words j bits last :
      lr_step i w (WSnap full words (j :: bits) last) w (WSnap full words bits (<[j := epoch w j]> last))
  | ls_snapped full last : lr_step i w (WSnap full [] [] last) w (WWait full (seq 0 max_readers) last)
  | ls_busy full j todo last :
      still_reading w last j = true ->
      lr_step i w (WWait full (j :: todo) last) w (WWait full (seq 0 max_readers) last)
  | ls_passed full j todo last :
      still_reading w last j = false ->
      lr_step i w (WWait full (j :: todo) last) w (WWait full todo last)
  | ls_drained full last : lr_step i w (WWait full [] last) w (WSync full)
  | ls_sync full junk : lr_step i w (WSync full) (catch_up w full junk) WOwn.

(** ** The invariant *)

(** What client [i] knows of its slot and of the mutex at [p]. *)
Definition pc_ok w (i : nat) (p : lr_pc) : Prop :=
  match p with
  | LIdle | REnd => Z.odd (epoch w i) = false /\ lr_writer w <> Some i
  | RBit => Z.odd (epoch w i) = false /\ i ∈ lr_active w /\ (i < max_readers)%nat /\ lr_writer w <> Some i
  | REpoch | RIn _ _ => Z.odd (epoch w i) = true /\ i ∈ lr_active w /\ (i < max_readers)%nat /\ lr_writer w <> Some i
  | _ => Z.odd (epoch w i) = false /\ lr_writer w = Some i
  end.

Definition writer_pc w (pool : gmap nat lr_pc) : lr_pc :=
  match lr_writer w with Some i => default LIdle (pool !! i) | None => LIdle end.

(** A reader on the copy that was swapped out, which the writer at [p] has still
    to wait for. *)
Definition pending w (p : lr_pc) (i : nat) : Prop :=
  match p with
  | WSnap _ words bits last => (i / 64)%nat ∈ words \/ i ∈ bits \/ last !! i = Some (epoch w i)
  | WWait _ todo last => i ∈ todo /\ last !! i = Some (epoch w i)
  | _ => False
  end.

Definition swapped (p : lr_pc) : bool :=
  match p with WSnap _ _ _ _ | WWait _ _ _ | WSync _ => true | _ => false end.

(** One copy is ahead of the other by the logged operations. *)
Definition copies w (p : lr_pc) : Prop :=
  let ahead := if swapped p then lr_read_idx w else write_idx w in
  buf w ahead = fold_left apply_fn (lr_ops w) (buf w (negb ahead)).

(** The user's copy function copies, or there is none and the lock was marked
    ready. *)
Definition copying : Prop := match sync_fn with Some f => forall d s, f d s = s | None => ready = true end.

Record lr_inv w (pool : gmap nat lr_pc) : Prop := mk_lr_inv {
  iv_pcs : map_Forall (pc_ok w) pool;
  iv_held : forall i n bs b d, pool !! i = Some (RIn n bs) -> (b, d) ∈ bs ->
    buf w b = d /\ (b = lr_read_idx w \/ pending w (writer_pc w pool) i);
  iv_log : logged (lr_oplog w) (lr_ops w);
  iv_ready : ready = true -> lr_first_done w = true;
  iv_copies : cow = false -> copying -> lr_dirty w = false -> copies w (writer_pc w pool);
}.

Definition reader_pc (p : lr_pc) : bool := match p with LIdle | RBit | REpoch | RIn _ _ | REnd => true | _ => false end.

Lemma reader_not_writer w i p : reader_pc p = true -> pc_ok w i p -> lr_writer w <> Some i.
Proof. destruct p; simpl; try done; tauto. Qed.

Lemma writer_is w i p : reader_pc p = false -> pc_ok w i p -> lr_writer w = Some i.
Proof. destruct p; simpl; try done; tauto. Qed.

Lemma writer_pc_at w pool i p : lr_writer w = Some i -> pool !! i = Some p -> writer_pc w pool = p.
Proof. intros E Hi. unfold writer_pc. by rewrite E, Hi. Qed.

Lemma writer_pc_other w pool i p : lr_writer w <> Some i -> writer_pc w (<[i := p]> pool) = writer_pc w pool.
Proof. intros Hne. unfold writer_pc. destruct (lr_writer w) as [k|]; [|done]. rewrite lookup_insert_ne; [done|congruence]. Qed.

(** What a step may not touch for the others to be where they were. *)
Definition same_slots w w' (i : nat) : Prop :=
  forall j, j <> i -> epoch w' j = epoch w j /\ (j ∈ lr_active w <-> j ∈ lr_active w').

Lemma pc_ok_other w w' i j q :
  j <> i -> same_slots w w' i -> (lr_writer w' = Some j <-> lr_writer w = Some j) -> pc_ok w j q -> pc_ok w' j q.
Proof.
  intros Hj Hs Hw. destruct (Hs j Hj) as [He Ha]. unfold pc_ok. destruct q; rewrite He, ?Hw, <-?Ha; tauto.
Qed.

Lemma pending_other w w' p j : epoch w' j = epoch w j -> pending w p j -> pending w' p j.
Proof. intros E. destruct p; simpl; rewrite ?E; done. Qed.

(** A step of a reader. *)
Lemma inv_reader w pool i p p' e active :
  lr_inv w pool -> pool !! i = Some p -> reader_pc p = true -> reader_pc p' = true ->
  (forall j, j <> i -> j ∈ lr_active w <-> j ∈ active) -> pc_ok (set_slot w i e active) i p' ->
  (forall n bs b d, p' = RIn n bs -> (b, d) ∈ bs ->
     buf w b = d /\ (b = lr_read_idx w \/ pending (set_slot w i e active) (writer_pc w pool) i)) ->
  lr_inv (set_slot w i e active) (<[i := p']> pool).
Proof.
  intros [Hpc Hheld Hlog Hf Hc] Hi Hr Hr' Ha Hp' Hnew. set (w' := set_slot w i e active).
  pose proof (reader_not_writer _ _ _ Hr (Hpc _ _ Hi)) as Hnw.
  assert (same_slots w w' i) as Hs.
  { intros j Hj. split; [|by apply Ha]. unfold epoch, w'. simpl. by rewrite lookup_insert_ne. }
  assert (writer_pc w' (<[i := p']> pool) = writer_pc w pool) as E by exact (writer_pc_other w pool i p' Hnw).
  constructor; rewrite ?E; try done.
  - eapply map_Forall_pool_update; [exact Hpc| |done]. intros j q Hj _. by apply (pc_ok_other w _ i).
  - intros j n bs b d. rewrite lookup_insert. destruct (decide (i = j)) as [<-|Hne].
    + intros [= ->] Hin. by eapply Hnew.
    + intros Hj Hin. destruct (Hheld j n bs b d Hj Hin) as [H1 H2]. split; [done|]. destruct H2 as [H2|H2]; [by left|].
      right. eapply pending_other; [by apply Hs|done].
Qed.

(** A step of the writer. *)
Lemma inv_writer w w' pool i p p' :
  lr_inv w pool -> pool !! i = Some p -> reader_pc p = false -> reader_pc p' = false ->
  lr_writer w' = lr_writer w -> lr_epochs w' = lr_epochs w -> lr_active w' = lr_active w ->
  (forall j b d, Z.odd (epoch w j) = true -> j ∈ lr_active w -> (j < max_readers)%nat ->
     buf w b = d -> (b = lr_read_idx w \/ pending w p j) ->
     buf w' b = d /\ (b = lr_read_idx w' \/ pending w' p' j)) ->
  logged (lr_oplog w') (lr_ops w') -> (ready = true -> lr_first_done w' = true) ->
  (cow = false -> copying -> lr_dirty w' = false -> copies w' p') ->
  lr_inv w' (<[i := p']> pool).
Proof.
  intros [Hpc Hheld Hlog Hf Hc] Hi Hr Hr' Ew Ee Ea Hstay Hlog' Hf' Hc'.
  pose proof (writer_is _ _ _ Hr (Hpc _ _ Hi)) as Hw.
  assert (writer_pc w' (<[i := p']> pool) = p') as E by (apply (writer_pc_at _ _ i); [by rewrite Ew|by rewrite lookup_insert_eq]).
  rewrite (writer_pc_at _ _ _ _ Hw Hi) in Hheld.
  assert (forall j, epoch w' j = epoch w j) as Eep by (intros j; unfold epoch; by rewrite Ee).
  constructor; rewrite ?E; try done.
  - assert (pc_ok w' i p') as Hp'.
    { specialize (Hpc _ _ Hi). destruct p, p'; try done; simpl in *; rewrite Eep, Ew; done. }
    eapply map_Forall_pool_update; [exact Hpc| |done]. intros j q Hj _. apply (pc_ok_other w _ i); [done| |by rewrite Ew].
    intros k _. by rewrite Eep, Ea.
  - intros j n bs b d. rewrite lookup_insert. destruct (decide (i = j)) as [<-|Hne]; [by intros [= ->]|].
    intros Hj Hin. destruct (Hpc _ _ Hj) as (H1 & H2 & H3 & _). destruct (Hheld j n bs b d Hj Hin). by eapply Hstay.
Qed.

(** A load of a reader. *)
Lemma inv_reader_load w pool i p p' :
  lr_inv w pool -> pool !! i = Some p -> reader_pc p = true -> reader_pc p' = true -> pc_ok w i p' ->
  (forall n bs b d, p' = RIn n bs -> (b, d) ∈ bs ->
     buf w b = d /\ (b = lr_read_idx w \/ pending w (writer_pc w pool) i)) ->
  lr_inv w (<[i := p']> pool).
Proof.
  intros [Hpc Hheld Hlog Hf Hc] Hi Hr Hr' Hp' Hnew.
  pose proof (reader_not_writer _ _ _ Hr (Hpc _ _ Hi)) as Hnw.
  constructor; rewrite ?(writer_pc_other w pool i p' Hnw); try done; [by apply map_Forall_insert_2|].
  intros j n bs b d. rewrite lookup_insert. destruct (decide (i = j)) as [<-|Hne].
  - intros [= ->] Hin. by eapply Hnew.
  - intros Hj Hin. by eapply Hheld.
Qed.

Lemma buf_set_same w b d : buf (set_buf w b d) b = d.
Proof. by destruct b. Qed.

Lemma buf_set_other w b d : buf (set_buf w (negb b) d) b = buf w b.
Proof. by destruct b. Qed.

Lemma odd_bump e : Z.odd (u32 (e + 1)) = negb (Z.odd e).
Proof.
  assert (Z.odd (u32 (e + 1)) = Z.odd (e + 1)) as ->.
  { unfold uwrap. rewrite Z.mod_eq by lia. rewrite Z.odd_sub, Z.odd_mul. change (Z.odd (2 ^ 32)) with false.
    by rewrite xorb_false_r. }
  rewrite Z.odd_add. change (Z.odd 1) with true. by rewrite xorb_true_r.
Qed.

Lemma epoch_set w i e active : epoch (set_slot w i e active) i = e.
Proof. unfold epoch. simpl. by rewrite lookup_insert_eq. Qed.

Lemma inv_mark_ready w pool : lr_inv w pool -> lr_inv (xtc_lrlock_mark_ready w) pool.
Proof. intros [Hpc Hheld Hlog Hf Hc]. by constructor. Qed.

(** The steps of readers. *)
Lemma reader_step_inv w pool i p w' p' :
  lr_inv w pool -> pool !! i = Some p -> lr_step i w p w' p' -> reader_pc p = true -> reader_pc p' = true ->
  lr_inv w' (<[i := p']> pool).
Proof.
  intros Hinv Hi Hst Hr Hr'. pose proof (iv_pcs _ _ Hinv _ _ Hi) as Hpc.
  destruct Hst; try done; cbn [pc_ok] in Hpc.
  - apply (inv_reader w _ _ LIdle); try done; [set_solver|]. simpl. rewrite epoch_set. set_solver.
  - apply (inv_reader w _ _ RBit); try done. simpl. rewrite epoch_set, odd_bump. destruct Hpc as (-> & ?). done.
  - apply (inv_reader_load w _ _ REpoch); try done. intros n bs b d [= <- <-] [= -> ->]%list_elem_of_singleton. auto.
  - apply (inv_reader_load w _ _ (RIn n bs)); try done.
    intros n0 bs0 b d [= <- <-] [[= -> ->]|Hin]%elem_of_cons; [auto|]. by eapply (iv_held _ _ Hinv i).
  - apply (inv_reader_load w _ _ (RIn n bs)); try done. intros n0 bs0 b d [= <- <-] Hin. by eapply (iv_held _ _ Hinv i).
  - apply (inv_reader w _ _ (RIn 1 bs)); try done. simpl. rewrite epoch_set, odd_bump. destruct Hpc as (-> & _ & _ & ?). done.
  - apply (inv_reader w _ _ REnd); try done; [set_solver|]. simpl. by rewrite epoch_set.
  - rewrite (insert_id pool i p Hi). by apply inv_mark_ready.
Qed.

(** A change of the copy no reader is on. *)
Lemma write_copy_unread w w' p p' j b d :
  swapped p = false -> lr_read_idx w' = lr_read_idx w -> buf w' (lr_read_idx w) = buf w (lr_read_idx w) ->
  buf w b = d -> b = lr_read_idx w \/ pending w p j -> buf w' b = d /\ (b = lr_read_idx w' \/ pending w' p' j).
Proof. intros Hsw Er Eb <- [->|Hp]; [rewrite Er; auto|]. by destruct p. Qed.

Lemma copies_write w p :
  swapped p = false -> copies w p <-> buf w (write_idx w) = fold_left apply_fn (lr_ops w) (buf w (lr_read_idx w)).
Proof. intros E. unfold copies, write_idx. by rewrite E, negb_involutive. Qed.

Lemma copies_read w p :
  swapped p = true -> copies w p <-> buf w (lr_read_idx w) = fold_left apply_fn (lr_ops w) (buf w (write_idx w)).
Proof. intros E. unfold copies, write_idx. by rewrite E. Qed.

(** Setting the write copy. *)
Lemma copies_set w w' p d :
  swapped p = false -> lr_read_idx w' = lr_read_idx w -> lr_data w' = lr_data (set_buf w (write_idx w) d) ->
  d = fold_left apply_fn (lr_ops w') (buf w (lr_read_idx w)) -> copies w' p.
Proof.
  intros Hp Er Ed E. apply copies_write; [done|]. unfold write_idx in *. rewrite Er. unfold buf at 1 2. rewrite Ed.
  destruct w as [[] []]; done.
Qed.

Lemma copies_now w pool i p :
  lr_inv w pool -> pool !! i = Some p -> reader_pc p = false -> cow = false -> copying -> lr_dirty w = false -> copies w p.
Proof.
  intros Hinv Hi Hr Hc Hs Hd. pose proof (writer_is _ _ _ Hr (iv_pcs _ _ Hinv _ _ Hi)) as Hw.
  pose proof (iv_copies _ _ Hinv Hc Hs Hd) as H. by rewrite (writer_pc_at _ _ _ _ Hw Hi) in H.
Qed.

Lemma replay_log w pool d : lr_inv w pool -> __replay_oplog apply_fn (lr_oplog w) d = fold_left apply_fn (lr_ops w) d.
Proof. intros Hinv. apply replay_logged, (iv_log _ _ Hinv). Qed.

Lemma buf_read w w' d :
  lr_data w' = lr_data (set_buf w (write_idx w) d) -> buf w' (lr_read_idx w) = buf w (lr_read_idx w).
Proof. intros Ed. unfold buf. rewrite Ed. destruct w as [[] []]; done. Qed.

(** The writer works on its copy. *)
Lemma apply_inv w pool i op pad :
  lr_inv w pool -> pool !! i = Some WOwn -> entry_ok op pad -> lr_inv (apply_op w op pad) (<[i := WOwn]> pool).
Proof.
  intros Hinv Hi He. apply (inv_writer w _ _ _ WOwn); try done.
  - intros j b d _ _ _. apply write_copy_unread; [done..|]. by eapply buf_read.
  - apply logged_op; [apply Hinv|done].
  - apply Hinv.
  - intros Hc Hs Hd. pose proof (copies_now _ _ _ _ Hinv Hi eq_refl Hc Hs Hd) as H. apply copies_write in H; [|done].
    eapply (copies_set w); [done..|]. rewrite H. simpl. by rewrite fold_left_app.
Qed.

Lemma direct_inv w pool i d :
  lr_inv w pool -> pool !! i = Some WOwn ->
  lr_inv (set_writer (set_buf w (write_idx w) d) (lr_writer w) (lr_first_done w) true) (<[i := WOwn]> pool).
Proof.
  intros Hinv Hi. apply (inv_writer w _ _ _ WOwn); try done; try apply Hinv.
  intros j b d' _ _ _. apply write_copy_unread; [done..|]. by eapply buf_read.
Qed.

(** The publish up to the swap. *)
Lemma first_sync_inv w pool i full :
  lr_inv w pool -> pool !! i = Some WOwn -> lr_inv (first_sync w full) (<[i := WSwap full]> pool).
Proof.
  intros Hinv Hi. unfold first_sync. destruct (negb (lr_first_done w) && negb full) eqn:E.
  - apply andb_prop in E as [E _]. apply (inv_writer w _ _ _ WOwn); try done; try apply Hinv.
    + intros j b d' _ _ _. apply write_copy_unread; [done..|]. by eapply buf_read.
    + intros Hc Hs _. eapply (copies_set w); [done..|]. simpl.
      destruct sync_fn as [f|] eqn:Es; [|rewrite (iv_ready _ _ Hinv) in E; [done|by unfold copying in Hs; rewrite Es in Hs]].
      assert (f (buf w (write_idx w)) (buf w (lr_read_idx w)) = buf w (lr_read_idx w)) as ->
        by (unfold copying in Hs; rewrite Es in Hs; apply Hs).
      rewrite <-(replay_log w pool _ Hinv). by destruct (lr_oplog w).
  - apply (inv_writer w _ _ _ WOwn); try done; try apply Hinv.
    intros Hc Hs Hd. exact (copies_now _ _ _ _ Hinv Hi eq_refl Hc Hs Hd).
Qed.

Lemma in_word i : (i < max_readers)%nat -> i ∈ word_slots (i / 64).
Proof. intros Hi. apply elem_of_seq. pose proof (Nat.div_mod i 64 ltac:(lia)). pose proof (Nat.mod_upper_bound i 64 ltac:(lia)). lia. Qed.

Lemma of_word i k : i ∈ word_slots k -> (i / 64 = k)%nat.
Proof. intros Hi%elem_of_seq. symmetry. apply (Nat.div_unique i 64 k (i - 64 * k)); lia. Qed.

Lemma word_below i : (i < max_readers)%nat -> (i / 64)%nat ∈ seq 0 nbitmask_words.
Proof.
  intros Hi. apply elem_of_seq. split; [lia|]. unfold nbitmask_words. rewrite Nat.add_0_l.
  apply Nat.Div0.div_lt_upper_bound. pose proof (Nat.div_mod (max_readers + 63) 64 ltac:(lia)).
  pose proof (Nat.mod_upper_bound (max_readers + 63) 64 ltac:(lia)). lia.
Qed.

Lemma clear_word_other i k last : (i / 64)%nat <> k -> clear_word k last !! i = last !! i.
Proof.
  intros Hne. assert (i ∉ word_slots k) as Hi by (intros H%of_word; congruence). unfold clear_word.
  induction (word_slots k) as [|j l IH]; [done|]. simpl. rewrite lookup_insert_ne by set_solver. apply IH. set_solver.
Qed.

(** The swap, the snapshot and the wait: a reader on the swapped-out copy stays
    one the writer has to wait for until it has left. *)
Lemma swap_inv w pool i full :
  lr_inv w pool -> pool !! i = Some (WSwap full) ->
  lr_inv (set_read w (write_idx w)) (<[i := WSnap full (seq 0 nbitmask_words) [] ∅]> pool).
Proof.
  intros Hinv Hi. apply (inv_writer w _ _ _ (WSwap full)); try done; try apply Hinv.
  - intros j b d _ _ Hj E _. split; [exact E|]. right. left. by apply word_below.
  - intros Hc Hs Hd. pose proof (copies_now _ _ _ _ Hinv Hi eq_refl Hc Hs Hd) as H. apply copies_write in H; [|done].
    apply copies_read; [done|]. unfold write_idx in *. simpl. rewrite negb_involutive. exact H.
Qed.

Lemma drain_inv w pool i p p' :
  lr_inv w pool -> pool !! i = Some p -> lr_step i w p w p' -> swapped p = true -> swapped p' = true ->
  lr_inv w (<[i := p']> pool).
Proof.
  intros Hinv Hi Hst Hp Hp'. apply (inv_writer w w pool i p p'); try done; try apply Hinv.
  - by destruct p.
  - by destruct p'.
  - intros j b d Hodd Hact Hj E [Hb|Hb]; [by auto|]. split; [done|]. right.
    inversion Hst; subst; simpl in *; try done.
    + destruct (decide (j / 64 = k)%nat) as [<-|Hne].
      * right. left. apply list_elem_of_filter. split; [done|by apply in_word].
      * rewrite clear_word_other by done. set_solver.
    + destruct (decide (j = j0)) as [<-|Hne]; [right; right; by rewrite lookup_insert_eq|].
      rewrite lookup_insert_ne by done. set_solver.
    + destruct Hb as [[]%elem_of_nil|[[]%elem_of_nil|Hb]]. split; [|done]. apply elem_of_seq. lia.
    + destruct Hb as [_ Hb]. split; [|done]. apply elem_of_seq. lia.
    + destruct Hb as [[->|Hin]%elem_of_cons Hb]; [|done]. unfold still_reading in H. by rewrite Hb, Z.eqb_refl in H; simpl in H; rewrite Hodd in H.
    + destruct Hb as [[]%elem_of_nil _].
  - intros Hc Hs Hd. pose proof (copies_now _ _ _ _ Hinv Hi ltac:(by destruct p) Hc Hs Hd) as H.
    apply copies_read; [done|]. by apply copies_read in H.
Qed.

(** The stale copy is brought up to date. *)
Lemma stale_copy_new w pool i full :
  lr_inv w pool -> pool !! i = Some (WSync full) -> cow = false -> copying ->
  (if full then sync_fn <> None else lr_dirty w = false) -> stale_copy w full = buf w (lr_read_idx w).
Proof.
  intros Hinv Hi Hc Hs Hd. unfold stale_copy. destruct full.
  { destruct sync_fn as [f|] eqn:Es; [|done]. unfold copying in Hs. rewrite Es in Hs. apply Hs. }
  pose proof (copies_now _ _ _ _ Hinv Hi eq_refl Hc Hs Hd) as H. apply copies_read in H; [|done].
  rewrite <-(replay_log w pool _ Hinv) in H.
  destruct (lr_oplog w) as [|z log] eqn:El; [done|]. case_decide; [done|].
  destruct sync_fn as [f|] eqn:Es; [|done]. unfold copying in Hs. rewrite Es in Hs. apply Hs.
Qed.

Lemma catch_up_inv w pool i full junk :
  lr_inv w pool -> pool !! i = Some (WSync full) -> lr_inv (catch_up w full junk) (<[i := WOwn]> pool).
Proof.
  intros Hinv Hi. apply (inv_writer w _ _ _ (WSync full)); try done; [|constructor|apply Hinv|].
  - intros j b d _ _ _ <- [->|[]]. split; [by eapply buf_read|by left].
  - intros Hc Hs Hd. eapply (copies_set w); [done..|]. rewrite Hc. simpl.
    apply (stale_copy_new w pool i); try done. simpl in Hd. destruct full; [by destruct sync_fn|done].
Qed.
(** The writer mutex is taken and given back. *)
Lemma inv_mutex w w' pool i p p' :
  lr_inv w pool -> pool !! i = Some p -> pc_ok w' i p' ->
  (forall j, j <> i -> lr_writer w' = Some j <-> lr_writer w = Some j) ->
  (forall n bs, p' <> RIn n bs) -> swapped (writer_pc w pool) = false -> writer_pc w' (<[i := p']> pool) = p' \/ lr_writer w' = None ->
  swapped p' = false ->
  lr_epochs w' = lr_epochs w -> lr_active w' = lr_active w -> lr_read_idx w' = lr_read_idx w ->
  buf w' (lr_read_idx w) = buf w (lr_read_idx w) -> (cow = false -> lr_data w' = lr_data w) ->
  lr_oplog w' = lr_oplog w -> lr_ops w' = lr_ops w -> lr_first_done w' = lr_first_done w -> lr_dirty w' = lr_dirty w ->
  lr_inv w' (<[i := p']> pool).
Proof.
  intros [Hpc Hheld Hlog Hf Hc] Hi Hp' Hw Hnr Hsw Hwp Hsw' Ee Ea Er Eb Ed El Eo Ef Edi.
  assert (swapped (writer_pc w' (<[i := p']> pool)) = false) as Hsw2.
  { destruct Hwp as [->|E]; [done|]. unfold writer_pc. by rewrite E. }
  constructor; rewrite ?El, ?Eo, ?Ef, ?Edi; try done.
  - eapply map_Forall_pool_update; [exact Hpc| |done]. intros j q Hj _. apply (pc_ok_other w _ i); [done| |by apply Hw].
    intros k _. unfold epoch. by rewrite Ee, Ea.
  - intros j n bs b d. rewrite lookup_insert. destruct (decide (i = j)) as [<-|Hne].
    { intros [= ->]. by destruct (Hnr n bs). }
    intros Hj Hin. destruct (Hheld j n bs b d Hj Hin) as [<- [->|Hpd]]; [by rewrite Er; auto|].
    by destruct (writer_pc w pool).
  - intros Hcow Hs Hd. pose proof (Hc Hcow Hs Hd) as H. rewrite copies_write in * by done.
    unfold write_idx, buf in *. by rewrite Er, Eo, (Ed Hcow).
Qed.

Lemma begin_inv w pool i :
  lr_inv w pool -> pool !! i = Some LIdle -> lr_writer w = None -> lr_inv (write_begin w i) (<[i := WOwn]> pool).
Proof.
  intros Hinv Hi Hn. destruct (iv_pcs _ _ Hinv _ _ Hi) as [Ho _].
  assert (writer_pc w pool = LIdle) as E by (unfold writer_pc; by rewrite Hn).
  unfold write_begin. apply (inv_mutex w _ _ _ LIdle); try done; rewrite ?E; try done; destruct cow; try done.
  - by intros j Hj; simpl; split; intros H; simplify_eq; rewrite Hn in H.
  - by intros j Hj; simpl; split; intros H; simplify_eq; rewrite Hn in H.
  - left. apply (writer_pc_at _ _ i); [done|by rewrite lookup_insert_eq].
  - left. apply (writer_pc_at _ _ i); [done|by rewrite lookup_insert_eq].
  - by eapply (buf_read w).
Qed.

Lemma end_inv w pool i :
  lr_inv w pool -> pool !! i = Some WOwn ->
  lr_inv (set_writer w None (lr_first_done w) (lr_dirty w)) (<[i := LIdle]> pool).
Proof.
  intros Hinv Hi. destruct (iv_pcs _ _ Hinv _ _ Hi) as [Ho Hw].
  apply (inv_mutex w _ _ _ WOwn); try done; [|by rewrite (writer_pc_at _ _ _ _ Hw Hi)|by right].
  intros j Hj. simpl. rewrite Hw. split; intros; simplify_eq.
Qed.

Lemma lr_step_inv w pool i p w' p' :
  lr_inv w pool -> pool !! i = Some p -> lr_step i w p w' p' -> lr_inv w' (<[i := p']> pool).
Proof.
  intros Hinv Hi Hst. destruct (decide (reader_pc p = true /\ reader_pc p' = true)) as [[]|Hr];
    [by eapply reader_step_inv|].
  destruct Hst; try (by destruct Hr); try (by eapply (drain_inv w); [| |constructor| |]).
  - by apply begin_inv.
  - by apply apply_inv.
  - by apply direct_inv.
  - rewrite (insert_id pool i p Hi). by apply inv_mark_ready.
  - by apply end_inv.
  - by apply first_sync_inv.
  - by apply swap_inv.
  - by eapply catch_up_inv.
Qed.

(** A lock as it is created: two copies of [d], all slots idle. *)
Definition lrlock0 (d : D) : xtc_lrlock D := mk_lr (d, d) false ∅ ∅ [] ready None [] false.

Lemma lr_run_inv d k w pool : reachable lr_step (lrlock0 d, idle_pool LIdle k) (w, pool) -> lr_inv w pool.
Proof.
  intros Hr. refine (pool_invariant lr_step lr_inv _ (w, pool) _ _ Hr).
  - intros s pl i p s' p' HI Hi Hst. by eapply lr_step_inv.
  - constructor; try done.
    + by apply idle_pool_Forall.
    + intros i n bs b d' Hi. by apply (idle_pool_Forall LIdle k (fun _ p => p = LIdle)) in Hi.
    + constructor.
Qed.

(** What a reader that comes now reads. *)
Definition visible w : D := buf w (lr_read_idx w).

Definition is_swap (p : lr_pc) : bool := match p with WSwap _ => true | _ => false end.

Lemma visible_step i w p w' p' :
  lr_step i w p w' p' -> if is_swap p then w' = set_read w (write_idx w) else visible w' = visible w.
Proof.
  intros Hst. destruct Hst; try done; try (by eapply (buf_read w)); simpl.
  - unfold write_begin. destruct cow; [by eapply (buf_read w)|done].
  - by destruct H as [->| ->].
  - unfold first_sync. destruct (negb _ && _); [by eapply (buf_read w)|done].
Qed.
End Lock.

(** ** What readers and writers rely on *)

(** C8: a reader's copy does not change under it.  Any number of readers
    (nested, coming and going in any interleaving with the writer's swap, its
    snapshot of the mask and the epochs and its wait) and writers, with or
    without copy-on-write and a copy function: each copy that a reader got
    in its current read sections still holds what it held when the reader got
    it. *)
Theorem lrlock_reads_stable {D} (apply_fn : D -> list Z -> D) sync_fn cow max_readers data_size ready d0 k w pool i n bs b d :
  reachable (lr_step apply_fn sync_fn cow max_readers data_size) (lrlock0 ready d0, idle_pool LIdle k) (w, pool) ->
  pool !! i = Some (RIn n bs) -> (b, d) ∈ bs -> buf w b = d.
Proof. intros Hr Hi Hb. exact (proj1 (iv_held _ _ _ _ _ _ _ (lr_run_inv _ _ _ _ _ _ _ _ _ _ Hr) i n bs b d Hi Hb)). Qed.

(** C9: what a publish shows.  Without copy-on-write, with a copy function
    that copies (or none and the lock marked ready), and as long as the data
    is changed by logged operations only: what readers see changes in the swap
    of a publish and in no other step of anyone, and then by the logged
    operations, each once and in order, although the code applies them on
    both copies (through the replay of the byte log, or a copy when that is
    cheaper); and when no writer is in and the log is empty the two copies
    are equal. *)
Theorem lrlock_publish_shows_log {D} (apply_fn : D -> list Z -> D) sync_fn max_readers data_size ready d0 k w pool :
  copying sync_fn ready ->
  reachable (lr_step apply_fn sync_fn false max_readers data_size) (lrlock0 ready d0, idle_pool LIdle k) (w, pool) ->
  lr_dirty w = false ->
  (forall i p w' p', pool !! i = Some p -> lr_step apply_fn sync_fn false max_readers data_size i w p w' p' ->
     visible w' = if is_swap p then fold_left apply_fn (lr_ops w) (visible w) else visible w) /\
  (lr_writer w = None -> lr_ops w = [] -> buf w true = buf w false).
Proof.
  intros Hs Hr Hd. pose proof (lr_run_inv _ _ _ _ _ _ _ _ _ _ Hr) as Hinv. split.
  - intros i p w' p' Hi Hst. pose proof (visible_step _ _ _ _ _ _ _ _ _ _ Hst) as Hv. destruct (is_swap p) eqn:Ep; [|done].
    destruct p; try done. subst w'. pose proof (copies_now _ _ _ _ _ _ _ _ _ Hinv Hi eq_refl eq_refl Hs Hd) as H.
    by apply copies_write in H.
  - intros Hn Ho. pose proof (iv_copies _ _ _ _ _ _ _ Hinv eq_refl Hs Hd) as H. unfold writer_pc in H. rewrite Hn in H.
    apply copies_write in H; [|done]. rewrite Ho in H. unfold write_idx in H. by destruct (lr_read_idx w).
Qed.

(** A step of client 0, its state left as it is (the operation is a variable). *)
Local Tactic Notation "lr_run" tactic3(tac) :=
  eapply rtc_l; [eapply (pool_step_at _ _ _ 0%nat); [first [apply lookup_insert_eq | reflexivity] | tac] |].

(** A first publish without a copy function shows the operations twice.
    [__publish_common] replays the log onto the write copy before the first
    swap to repeat the operations on a fresh base, but if there is no copy
    function and the lock was not marked ready the write copy was not made
    afresh: it has the operation already, and readers see it applied twice. *)
Theorem lrlock_first_publish_twice {D} (apply_fn : D -> list Z -> D) max_readers data_size d op pad :
  op <> [] -> entry_ok op pad ->
  exists w pool,
    reachable (lr_step apply_fn None false max_readers data_size) (lrlock0 false d, idle_pool LIdle 1) (w, pool) /\
    lr_ops w = [op] /\ lr_dirty w = false /\ visible w = apply_fn (apply_fn d op) op.
Proof.
  intros Hop He. eexists _, _. split.
  { lr_run (by apply ls_begin). lr_run (by apply (ls_apply _ _ _ _ _ _ _ op pad)).
    lr_run (apply (ls_publish _ _ _ _ _ _ _ false)). lr_run (apply ls_swap). apply rtc_refl. }
  split; [done|]. split; [done|].
  assert (__replay_oplog apply_fn (op_entry op pad) (apply_fn d op) = apply_fn (apply_fn d op) op) as E.
  { apply (replay_logged apply_fn _ [op]). apply (logged_op [] []); [constructor|done]. }
  done.
Qed.

(** ** Example runs *)

(** The data is a list of bytes that an operation extends. *)
Definition append (d op : list Z) : list Z := d ++ op.
Definition demo_step := lr_step append (Some (fun _ s => s)) false 2 4096.

(** Client 0 logs an operation and is about to swap. *)
Lemma lr_demo_swap :
  exists w pool, reachable demo_step (lrlock0 false [1], idle_pool LIdle 2) (w, pool) /\
    pool !! 0%nat = Some (WSwap false) /\ lr_dirty w = false /\ lr_ops w = [[5; 6]] /\ visible w = [1].
Proof.
  eexists _, _. split.
  { pool_run 0%nat by (by apply ls_begin).
    pool_run 0%nat by (apply (ls_apply _ _ _ _ _ _ _ [5; 6] (replicate 6 0)); [done|by vm_compute]).
    pool_run 0%nat by (apply (ls_publish _ _ _ _ _ _ _ false)). apply rtc_refl. }
  by vm_compute.
Qed.

(** Reader 1 is on copy 0, and client 0 has swapped and waits for it. *)
Lemma lr_demo_wait :
  exists w pool, reachable demo_step (lrlock0 false [1], idle_pool LIdle 2) (w, pool) /\
    pool !! 1%nat = Some (RIn 1 [(false, [1])]) /\ lr_read_idx w = true /\
    pool !! 0%nat = Some (WWait false [0%nat; 1%nat] (<[1%nat := 1]> (<[0%nat := 0]> (<[1%nat := 0]> ∅)))).
Proof.
  eexists _, _. split.
  { pool_run 1%nat by (apply ls_bit; lia). pool_run 1%nat by (apply ls_epoch). pool_run 1%nat by (apply ls_index).
    pool_run 0%nat by (by apply ls_begin).
    pool_run 0%nat by (apply (ls_apply _ _ _ _ _ _ _ [5; 6] (replicate 6 0)); [done|by vm_compute]).
    pool_run 0%nat by (apply (ls_publish _ _ _ _ _ _ _ false)). pool_run 0%nat by (apply ls_swap).
    pool_run 0%nat by (apply ls_word). pool_run 0%nat by (apply ls_snap). pool_run 0%nat by (apply ls_snapped).
    pool_run 0%nat by (by apply ls_passed). pool_run 0%nat by (by apply ls_busy). apply rtc_refl. }
  by vm_compute.
Qed.

Lemma lrlock_reads_stable_witness :
  exists w pool, reachable demo_step (lrlock0 false [1], idle_pool LIdle 2) (w, pool) /\
    pool !! 1%nat = Some (RIn 1 [(false, [1])]) /\ buf w false = [1].
Proof.
  destruct lr_demo_wait as (w & pool & Hr & Hp & _ & _). exists w, pool. split; [exact Hr|]. split; [exact Hp|].
  refine (lrlock_reads_stable append _ _ _ _ _ _ _ w pool 1%nat 1 [(false, [1])] false [1] Hr Hp _).
  apply list_elem_of_singleton. reflexivity.
Defined.

Lemma lrlock_publish_shows_log_witness :
  exists w pool w' p', reachable demo_step (lrlock0 false [1], idle_pool LIdle 2) (w, pool) /\
    demo_step 0%nat w (WSwap false) w' p' /\ visible w = [1] /\ visible w' = [1; 5; 6].
Proof.
  destruct lr_demo_swap as (w & pool & Hr & Hp & Hd & Ho & Hv). eexists w, pool, _, _. split; [exact Hr|].
  split; [apply ls_swap|]. split; [exact Hv|].
  refine (eq_trans (proj1 (lrlock_publish_shows_log append (Some (fun _ s => s)) 2 4096 false [1] 2 w pool _ Hr Hd)
    0%nat _ _ _ Hp _) _).
  - intros d s. reflexivity.
  - apply ls_swap.
  - simpl. rewrite Ho, Hv. reflexivity.
Defined.

Lemma lrlock_first_publish_twice_witness :
  exists w pool, reachable (lr_step append None false 2 4096) (lrlock0 false [1], idle_pool LIdle 1) (w, pool) /\
    lr_ops w = [[5; 6]] /\ lr_dirty w = false /\ visible w = [1; 5; 6; 5; 6].
Proof.
  refine (lrlock_first_publish_twice append 2 4096 [1] [5; 6] (replicate 6 0) _ _); [discriminate|split; reflexivity].
Defined.
