(* ===== verification/LwLock.v ===== *)
(** * The light-weight lock (src/ptc/lock_lw.c, src/inc/xtc_lwlock.h)

    A state word with a count of shared holders, an exclusive bit and a flag
    for waiters, changed by compare-exchange alone; blocked threads sleep on
    a condition variable and blocked fibers park in a queue, both under a
    mutex.  A compare-exchange loop takes effect at its last access, so an
    attempt or a release is one step; the accesses under the mutex are
    separate steps wherever the word is touched twice.  The list of locks a
    thread holds is modelled beside it; the lock-order tracker is not. *)

From S2P Require Import Prelude Sync.

Local Open Scope Z_scope.

Definition LW_FLAG_HAS_WAITERS : Z := Z.shiftl 1 31.
Definition XTC_LWLOCK_MAX_BACKENDS : Z := 4096.
Definition LW_VAL_EXCLUSIVE : Z := XTC_LWLOCK_MAX_BACKENDS.
Definition LW_VAL_SHARED : Z := 1.
Definition LW_SHARED_MASK : Z := XTC_LWLOCK_MAX_BACKENDS - 1.
Definition LW_LOCK_MASK : Z := Z.lor LW_SHARED_MASK LW_VAL_EXCLUSIVE.

Inductive xtc_lwlock_mode : Type := XTC_LW_EXCLUSIVE | XTC_LW_SHARED.

#[global] Instance lwlock_mode_eq_dec : EqDecision xtc_lwlock_mode.
Proof. solve_decision. Defined.

(** ** The state word *)

(** The word after a successful attempt, [None] if the lock blocks it. *)
Definition __try_attempt (st : Z) (mode : xtc_lwlock_mode) : option Z :=
  match mode with
  | XTC_LW_EXCLUSIVE =>
      if decide (Z.land st LW_LOCK_MASK <> 0) then None else Some (u32 (st + LW_VAL_EXCLUSIVE))
  | XTC_LW_SHARED =>
      if decide (Z.land st LW_VAL_EXCLUSIVE <> 0) then None else Some (u32 (st + LW_VAL_SHARED))
  end.

Definition __release_state (st : Z) (mode : xtc_lwlock_mode) : Z :=
  match mode with
  | XTC_LW_EXCLUSIVE => u32 (st - LW_VAL_EXCLUSIVE)
  | XTC_LW_SHARED => u32 (st - LW_VAL_SHARED)
  end.

Definition has_waiters (st : Z) : bool := negb (Z.land st LW_FLAG_HAS_WAITERS =? 0).

Definition set_waiters (st : Z) : Z := if has_waiters st then st else Z.lor st LW_FLAG_HAS_WAITERS.

Definition clear_waiters (st : Z) : Z :=
  if has_waiters st then Z.land st (u32 (Z.lnot LW_FLAG_HAS_WAITERS)) else st.

(** A release has to look for waiters. *)
Definition wants_wake (st : Z) : bool := has_waiters st && (Z.land st LW_VAL_EXCLUSIVE =? 0).

(** ** The list of held locks of a thread *)

Definition XTC_LWLOCK_TLS_SLOTS : nat := 32.

Abbreviation held_list := (list (Z * xtc_lwlock_mode)).

Definition __held_push (h : held_list) (l : Z) (m : xtc_lwlock_mode) : Z * held_list :=
  if decide (XTC_LWLOCK_TLS_SLOTS <= length h)%nat then (-1, h) else (0, h ++ [(l, m)]).

(** The loop of [__held_pop] from index [i - 1] down. *)
Fixpoint held_pop_loop (h : held_list) (l : Z) (i : nat) : option (xtc_lwlock_mode * held_list) :=
  match i with
  | O => None
  | S i' =>
      match h !! i' with
      | Some (l', m) =>
          if decide (l' = l) then
            let h1 := match last h with
                      | Some e => if decide (i' <> length h - 1)%nat then <[i' := e]> h else h
                      | None => h
                      end in
            Some (m, take (length h - 1) h1)
          else held_pop_loop h l i'
      | None => held_pop_loop h l i'
      end
  end.

Definition __held_pop (h : held_list) (l : Z) : option (xtc_lwlock_mode * held_list) :=
  held_pop_loop h l (length h).

Fixpoint __held_find (h : held_list) (l : Z) : option xtc_lwlock_mode :=
  match h with
  | [] => None
  | (l', m) :: h' => if decide (l' = l) then Some m else __held_find h' l
  end.

Definition xtc_lwlock_held_by_me (h : held_list) (l : Z) : bool := bool_decide (is_Some (__held_find h l)).

Definition xtc_lwlock_held_by_me_in_mode (h : held_list) (l : Z) (mode : xtc_lwlock_mode) : bool :=
  bool_decide (__held_find h l = Some mode).

(** The non-blocking acquire of lock [l] by a thread that holds [h]. *)
Definition xtc_lwlock_acquire_cond (l st : Z) (h : held_list) (mode : xtc_lwlock_mode) : rc * Z * held_list :=
  match __try_attempt st mode with
  | Some st' => (XTC_OK, st', (__held_push h l mode).2)
  | None => (XTC_E_AGAIN, st, h)
  end.

(** The release up to the wake-ups it makes when the flag says so. *)
Definition xtc_lwlock_release (l st : Z) (h : held_list) : Z * held_list * bool :=
  match __held_pop h l with
  | None => (st, h, false)
  | Some (mode, h') => let st' := __release_state st mode in (st', h', wants_wake st')
  end.

(** ** Clients *)

Record xtc_lwlock := mk_lw {
  lw_state : Z;
  lw_mu : option nat;
  lw_n_waiters : Z;
  lw_cv : condvar;
  lw_wq : fw_queue unit;
  lw_woken : gset nat;
}.

Definition xtc_lwlock_init : xtc_lwlock := mk_lw 0 None 0 cv_empty [] ∅.

Definition set_word (w : xtc_lwlock) (st : Z) : xtc_lwlock :=
  mk_lw st (lw_mu w) (lw_n_waiters w) (lw_cv w) (lw_wq w) (lw_woken w).
Definition set_mu (w : xtc_lwlock) (o : option nat) : xtc_lwlock :=
  mk_lw (lw_state w) o (lw_n_waiters w) (lw_cv w) (lw_wq w) (lw_woken w).
Definition add_waiters (w : xtc_lwlock) (n : Z) : xtc_lwlock :=
  mk_lw (lw_state w) (lw_mu w) (lw_n_waiters w + n) (lw_cv w) (lw_wq w) (lw_woken w).
Definition set_cv (w : xtc_lwlock) (c : condvar) : xtc_lwlock :=
  mk_lw (lw_state w) (lw_mu w) (lw_n_waiters w) c (lw_wq w) (lw_woken w).
Definition set_queue (w : xtc_lwlock) (q : fw_queue unit) (woken : gset nat) : xtc_lwlock :=
  mk_lw (lw_state w) (lw_mu w) (lw_n_waiters w) (lw_cv w) q woken.

(** The waiter flag is set and the waiter counted. *)
Definition announce (w : xtc_lwlock) : xtc_lwlock := add_waiters (set_word w (set_waiters (lw_state w))) 1.

(** The section of a release that wakes. *)
Definition wake_section (w : xtc_lwlock) : xtc_lwlock :=
  let w := if decide (0 < lw_n_waiters w) then set_cv w (cv_broadcast (lw_cv w))
           else set_word w (clear_waiters (lw_state w)) in
  set_queue w (lw_wq w) (fw_wake_all (lw_wq w) (lw_woken w)).

(** A fiber stops waiting and drops the mutex. *)
Definition fiber_leave (w : xtc_lwlock) (i : nat) : xtc_lwlock :=
  set_mu (set_queue (add_waiters w (-1)) (fw_remove (lw_wq w) i) (lw_woken w ∖ {[i]})) None.

(** [LTry]: at the top of the acquire's loop; [LSlow]: found the lock blocked;
    [LFlag], [LRetry], [LFiber]: have the mutex; [LSleep], [LParked]: waiting;
    [LKill]: delivering a kill; [LWake]: released, about to wake.  [chk]: kills
    are still checked. *)
Inductive lw_pc : Type :=
  | LIdle
  | LTry (m : xtc_lwlock_mode) (chk : bool)
  | LSlow (m : xtc_lwlock_mode) (chk : bool)
  | LFlag (m : xtc_lwlock_mode) (chk : bool)
  | LRetry (m : xtc_lwlock_mode) (chk : bool)
  | LSleep (m : xtc_lwlock_mode)
  | LFiber (m : xtc_lwlock_mode) (chk : bool)
  | LParked (m : xtc_lwlock_mode) (chk : bool)
  | LKill (m : xtc_lwlock_mode)
  | LDead
  | LHold (m : xtc_lwlock_mode)
  | LWake.

(** The list of held locks, which a release searches first, is the program
    counter here: [LHold]. *)
Inductive lw_step (i : nat) (w : xtc_lwlock) : lw_pc -> xtc_lwlock -> lw_pc -> Prop :=
  (* acquire: the fast path *)
  | ls_acquire m : lw_step i w LIdle w (LTry m true)
  | ls_fast m chk st : __try_attempt (lw_state w) m = Some st -> lw_step i w (LTry m chk) (set_word w st) (LHold m)
  | ls_blocked m chk : __try_attempt (lw_state w) m = None -> lw_step i w (LTry m chk) w (LSlow m chk)
  (* acquire: the slow path, under the mutex *)
  | ls_mutex m chk : lw_mu w = None -> lw_step i w (LSlow m chk) (set_mu w (Some i)) (LFlag m chk)
  | ls_flag m chk : lw_step i w (LFlag m chk) (announce w) (LRetry m chk)
  | ls_retry_got m chk st :
      __try_attempt (lw_state w) m = Some st ->
      lw_step i w (LRetry m chk) (set_mu (add_waiters (set_word w st) (-1)) None) (LHold m)
  | ls_sleep m chk :
      __try_attempt (lw_state w) m = None ->
      lw_step i w (LRetry m chk) (set_mu (set_cv w (cv_sleep (lw_cv w) i)) None) (LSleep m)
  | ls_woken m :
      lw_mu w = None -> lw_step i w (LSleep m) (add_waiters (set_cv w (cv_run (lw_cv w) i)) (-1)) (LTry m true)
  | ls_enqueue m chk :
      __try_attempt (lw_state w) m = None ->
      lw_step i w (LRetry m chk) (set_queue w (fw_enqueue (lw_wq w) i tt) (lw_woken w ∖ {[i]})) (LFiber m chk)
  | ls_killed m : lw_step i w (LFiber m true) (fiber_leave w i) (LKill m)
  | ls_fiber_got m chk st :
      __try_attempt (lw_state w) m = Some st ->
      lw_step i w (LFiber m chk) (fiber_leave (set_word w st) i) (LHold m)
  | ls_park m chk :
      __try_attempt (lw_state w) m = None -> lw_step i w (LFiber m chk) (set_mu w None) (LParked m chk)
  | ls_resume m chk :
      lw_mu w = None ->
      lw_step i w (LParked m chk) (set_mu (set_queue w (lw_wq w) (lw_woken w ∖ {[i]})) (Some i)) (LFiber m chk)
  | ls_dead m : lw_step i w (LKill m) w LDead
  | ls_deferred m : lw_step i w (LKill m) w (LTry m false)
  (* acquire_cond *)
  | ls_cond m st : __try_attempt (lw_state w) m = Some st -> lw_step i w LIdle (set_word w st) (LHold m)
  | ls_cond_again m : __try_attempt (lw_state w) m = None -> lw_step i w LIdle w LIdle
  (* release *)
  | ls_release m st :
      __release_state (lw_state w) m = st ->
      lw_step i w (LHold m) (set_word w st) (if wants_wake st then LWake else LIdle)
  | ls_wake : lw_mu w = None -> lw_step i w LWake (wake_section w) LIdle.

(** ** The state word in numbers *)

(** [f]: the waiter flag; [v]: 4096 for the exclusive holder plus one per
    shared holder. *)
Definition word (f : bool) (v : Z) : Z := (if f then 2 ^ 31 else 0) + v.

Definition word_facts (f : bool) (v : Z) : bool :=
  bool_decide (__try_attempt (word f v) XTC_LW_EXCLUSIVE = if v =? 0 then Some (word f 4096) else None) &&
  bool_decide (__try_attempt (word f v) XTC_LW_SHARED = if v =? 4096 then None else Some (word f (v + 1))) &&
  bool_decide (v = 4096 -> __release_state (word f v) XTC_LW_EXCLUSIVE = word f 0) &&
  bool_decide (1 <= v -> __release_state (word f v) XTC_LW_SHARED = word f (v - 1)) &&
  bool_decide (wants_wake (word f v) = f && negb (v =? 4096)) &&
  bool_decide (set_waiters (word f v) = word true v) && bool_decide (clear_waiters (word f v) = word false v).

(** By evaluation at every value of the count. *)
Lemma word_facts_all f v : 0 <= v <= 4096 -> word_facts f v = true.
Proof.
  intros Hv. assert (forallb (word_facts f) (seqZ 0 4097) = true) as H by (destruct f; vm_compute; done).
  rewrite forallb_forall in H. apply H. apply list_elem_of_In, elem_of_seqZ. lia.
Qed.

Lemma word_spec f v :
  0 <= v <= 4096 ->
  __try_attempt (word f v) XTC_LW_EXCLUSIVE = (if v =? 0 then Some (word f 4096) else None) /\
  __try_attempt (word f v) XTC_LW_SHARED = (if v =? 4096 then None else Some (word f (v + 1))) /\
  (v = 4096 -> __release_state (word f v) XTC_LW_EXCLUSIVE = word f 0) /\
  (1 <= v -> __release_state (word f v) XTC_LW_SHARED = word f (v - 1)) /\
  wants_wake (word f v) = f && negb (v =? 4096) /\
  set_waiters (word f v) = word true v /\ clear_waiters (word f v) = word false v.
Proof.
  intros Hv. pose proof (word_facts_all f v Hv) as H. unfold word_facts in H.
  rewrite !andb_true_iff, !bool_decide_eq_true in H. tauto.
Qed.

(** ** The invariant *)

Definition w_ex (p : lw_pc) : Z := match p with LHold XTC_LW_EXCLUSIVE => 1 | _ => 0 end.
Definition w_sh (p : lw_pc) : Z := match p with LHold XTC_LW_SHARED => 1 | _ => 0 end.
Definition w_wait (p : lw_pc) : Z :=
  match p with LRetry _ _ | LSleep _ | LFiber _ _ | LParked _ _ => 1 | _ => 0 end.

(** Holders, in units of the state word. *)
Definition units_of (p : lw_pc) : Z := 4096 * w_ex p + w_sh p.

(** Client [i] waits in mode [m], and nobody has woken it. *)
Definition unwoken (w : xtc_lwlock) (i : nat) (p : lw_pc) (m : xtc_lwlock_mode) : Prop :=
  match p with
  | LSleep m' => m' = m /\ (i ∉ cv_signalled (lw_cv w))
  | LParked m' _ => m' = m /\ (i ∉ lw_woken w)
  | _ => False
  end.

(** Where a waiting client is registered. *)
Definition listed (w : xtc_lwlock) (i : nat) (p : lw_pc) : Prop :=
  match p with
  | LSleep _ => i ∈ cv_asleep (lw_cv w) \/ i ∈ cv_signalled (lw_cv w)
  | LFiber _ _ | LParked _ _ => fw_queued (lw_wq w) i = true
  | _ => True
  end.

Record lw_inv (w : xtc_lwlock) (pool : gmap nat lw_pc) : Prop := mk_lw_inv {
  iv_word : exists f, lw_state w = word f (pool_sum units_of pool) /\ pool_sum units_of pool <= 4096 /\
    (0 < lw_n_waiters w -> f = true);
  iv_count : lw_n_waiters w = pool_sum w_wait pool;
  iv_listed : map_Forall (listed w) pool;
  iv_stuck : forall i p m, pool !! i = Some p -> unwoken w i p m ->
    __try_attempt (lw_state w) m = None \/ pool_some (fun q => q = LWake) pool;
}.

Lemma units_nonneg p : 0 <= units_of p.
Proof. destruct p as [| | | | | | | | | |[]|]; done. Qed.

Lemma units_zero p : (forall m, p <> LHold m) -> units_of p = 0.
Proof. destruct p; try done. intros H. by destruct (H m). Qed.

Lemma wait_nonneg p : 0 <= w_wait p.
Proof. by destruct p. Qed.

Lemma units_range (pool : gmap nat lw_pc) : 0 <= pool_sum units_of pool.
Proof. apply pool_sum_nonneg, units_nonneg. Qed.

(** More holders block no less. *)
Lemma blocked_mono f f' v v' m :
  0 <= v <= v' -> v' <= 4096 -> __try_attempt (word f v) m = None -> __try_attempt (word f' v') m = None.
Proof.
  intros Hv Hv'. destruct (word_spec f v ltac:(lia)) as (E1 & E2 & _). destruct (word_spec f' v' ltac:(lia)) as (E1' & E2' & _).
  destruct m; [rewrite E1, E1'; destruct (Z.eqb_spec v 0), (Z.eqb_spec v' 0)|
    rewrite E2, E2'; destruct (Z.eqb_spec v 4096), (Z.eqb_spec v' 4096)]; try done; lia.
Qed.

(** What a step has to do, [i] the client, from [p] to [p']. *)
Lemma lw_inv_step w w' pool i p p' f' :
  lw_inv w pool -> pool !! i = Some p ->
  let v' := pool_sum units_of pool - units_of p + units_of p' in
  lw_state w' = word f' v' -> v' <= 4096 -> (0 < lw_n_waiters w' -> f' = true) ->
  lw_n_waiters w' = lw_n_waiters w - w_wait p + w_wait p' ->
  (forall j q, j <> i -> listed w j q -> listed w' j q) -> listed w' i p' ->
  (forall m, unwoken w' i p' m -> __try_attempt (lw_state w') m = None) ->
  (forall j q m, j <> i -> pool !! j = Some q -> unwoken w' j q m ->
     unwoken w j q m /\ (units_of p <= units_of p' /\ p <> LWake \/ p' = LWake)) ->
  lw_inv w' (<[i := p']> pool).
Proof.
  intros [(f & Hw & Hle & Hf) Hn Hl Hs] Hi v' Hw' Hv' Hf' Hn' Hoth Hown Hbl Hst.
  pose proof (pool_sum_insert units_of pool i p p' Hi) as Eu. fold v' in Eu. pose proof (units_range pool).
  pose proof (units_range (<[i := p']> pool)) as Hnn. rewrite Eu in Hnn. constructor.
  - exists f'. by rewrite Eu.
  - rewrite (pool_sum_insert w_wait pool i p p' Hi). lia.
  - eapply map_Forall_pool_update; [exact Hl| |done]. intros j q Hj _. by apply Hoth.
  - intros j q m. rewrite lookup_insert. destruct (decide (i = j)) as [<-|Hne].
    { intros [= <-] Hu. left. by apply Hbl. }
    intros Hj Hu. destruct (Hst j q m ltac:(done) Hj Hu) as [Hu0 [[Hle' Hnw]| ->]].
    + destruct (Hs j q m Hj Hu0) as [Hb|Hwk].
      * left. rewrite Hw'. rewrite Hw in Hb. eapply blocked_mono; [|exact Hv'|exact Hb]. unfold v'. lia.
      * right. by eapply pool_some_keep.
    + right. by apply pool_some_now.
Qed.

(** The number of waiters counts a client that waits. *)
Lemma waiter_counted w pool i p : lw_inv w pool -> pool !! i = Some p -> w_wait p = 1 -> 0 < lw_n_waiters w.
Proof. intros Hinv Hi Hp. rewrite (iv_count _ _ Hinv). pose proof (pool_sum_ge w_wait pool i p wait_nonneg Hi). lia. Qed.

(** The word, with what an attempt on it says. *)
Lemma attempt_units w pool m st :
  lw_inv w pool -> __try_attempt (lw_state w) m = Some st ->
  exists f, st = word f (pool_sum units_of pool + units_of (LHold m)) /\
    pool_sum units_of pool + units_of (LHold m) <= 4096 /\ (0 < lw_n_waiters w -> f = true).
Proof.
  intros [(f & Hw & Hle & Hf) _ _ _] Ha. pose proof (units_range pool). rewrite Hw in Ha.
  destruct (word_spec f (pool_sum units_of pool) ltac:(lia)) as (E1 & E2 & _). exists f.
  destruct m; [rewrite E1 in Ha; destruct (Z.eqb_spec (pool_sum units_of pool) 0) as [E|E]|
    rewrite E2 in Ha; destruct (Z.eqb_spec (pool_sum units_of pool) 4096) as [E|E]]; try done; injection Ha as <-.
  - rewrite E. split_and!; done.
  - change (units_of (LHold XTC_LW_SHARED)) with 1. split_and!; [done|lia|done].
Qed.

(** Moves that touch nothing but the mutex. *)
Lemma lw_inv_same w o pool i p p' :
  lw_inv w pool -> pool !! i = Some p -> units_of p = units_of p' -> w_wait p = w_wait p' -> p <> LWake ->
  listed w i p' -> (forall m, unwoken w i p' m -> __try_attempt (lw_state w) m = None) ->
  lw_inv (set_mu w o) (<[i := p']> pool).
Proof.
  intros Hinv Hi Hu Hn Hp Hl Hb. pose proof Hinv as [(f & Hw & Hle & Hf) _ _ _].
  apply (lw_inv_step w _ _ _ p _ f); try done; simpl; try lia.
  - rewrite Hw. f_equal. lia.
  - intros j q m _ _ Hq. split; [done|]. left. split; [lia|done].
Qed.

Lemma set_mu_id w : set_mu w (lw_mu w) = w.
Proof. by destruct w. Qed.

(** A successful attempt: by the fast path, or leaving the slow path. *)
Lemma lw_inv_got w w' pool i p m st :
  lw_inv w pool -> pool !! i = Some p -> __try_attempt (lw_state w) m = Some st -> units_of p = 0 -> p <> LWake ->
  lw_state w' = st -> lw_n_waiters w' = lw_n_waiters w - w_wait p -> lw_cv w' = lw_cv w ->
  (forall j, j <> i -> fw_queued (lw_wq w') j = fw_queued (lw_wq w) j /\ (j ∈ lw_woken w <-> j ∈ lw_woken w')) ->
  lw_inv w' (<[i := LHold m]> pool).
Proof.
  intros Hinv Hi Ha Hu Hp Hst Hn Hcv Hq. destruct (attempt_units _ _ _ _ Hinv Ha) as (f & -> & Hle & Hf).
  pose proof (wait_nonneg p). apply (lw_inv_step w _ _ _ p _ f); try done; try (simpl; lia).
  - rewrite Hst. f_equal. lia.
  - intros Hpos. apply Hf. lia.
  - intros j q Hj. destruct q; simpl; rewrite ?Hcv; try done; by destruct (Hq j Hj) as [-> _].
  - intros j q m' Hj _ Huw. split; [|left; split; [rewrite Hu; apply units_nonneg|done]].
    destruct q; simpl in *; rewrite ?Hcv in Huw; try done. destruct (Hq j Hj) as [_ Hw]. naive_solver.
Qed.

(** Moves of a waiter that leave the word alone: [i]'s own entries change. *)
Lemma lw_inv_waiter w w' pool i p p' :
  lw_inv w pool -> pool !! i = Some p -> units_of p = units_of p' -> p <> LWake ->
  lw_state w' = lw_state w -> lw_n_waiters w' = lw_n_waiters w - w_wait p + w_wait p' -> w_wait p' <= w_wait p ->
  (forall j, j <> i -> fw_queued (lw_wq w') j = fw_queued (lw_wq w) j /\ (j ∈ lw_woken w <-> j ∈ lw_woken w') /\
     (j ∈ cv_asleep (lw_cv w) <-> j ∈ cv_asleep (lw_cv w')) /\
     (j ∈ cv_signalled (lw_cv w) <-> j ∈ cv_signalled (lw_cv w'))) ->
  listed w' i p' -> (forall m, unwoken w' i p' m -> __try_attempt (lw_state w) m = None) ->
  lw_inv w' (<[i := p']> pool).
Proof.
  intros Hinv Hi Hu Hp Hst Hn Hle Hq Hl Hb. pose proof Hinv as [(f & Hw & Hle' & Hf) _ _ _].
  apply (lw_inv_step w _ _ _ p _ f); try done; simpl; try lia.
  - rewrite Hst, Hw. f_equal. lia.
  - intros Hpos. apply Hf. lia.
  - intros j q Hj. destruct (Hq j Hj) as (Hqj & H1 & H2 & H3). destruct q; simpl; rewrite ?Hqj; naive_solver.
  - by rewrite Hst.
  - intros j q m Hj _ Huw. destruct (Hq j Hj) as (_ & H1 & _ & H3).
    split; [|left; split; [lia|done]]. destruct q; simpl in *; naive_solver.
Qed.

(** The waiter flag. *)
Lemma lw_inv_announce w pool i m chk :
  lw_inv w pool -> pool !! i = Some (LFlag m chk) -> lw_inv (announce w) (<[i := LRetry m chk]> pool).
Proof.
  intros Hinv Hi. pose proof Hinv as [(f & Hw & Hle & Hf) _ _ _]. pose proof (units_range pool).
  destruct (word_spec f (pool_sum units_of pool) ltac:(lia)) as (_ & _ & _ & _ & _ & Es & _).
  apply (lw_inv_step w _ _ _ (LFlag m chk) _ true); try done; simpl; try lia.
  - rewrite Hw, Es. f_equal. rewrite !units_zero by done. lia.
  - rewrite !units_zero by done. lia.
  - intros j q m' _ _ Huw. split; [done|]. left. split; [done|done].
Qed.

(** The release. *)
Lemma lw_inv_release w pool i m :
  lw_inv w pool -> pool !! i = Some (LHold m) ->
  lw_inv (set_word w (__release_state (lw_state w) m))
    (<[i := if wants_wake (__release_state (lw_state w) m) then LWake else LIdle]> pool).
Proof.
  intros Hinv Hi. pose proof Hinv as [(f & Hw & Hle & Hf) _ _ Hs]. pose proof (units_range pool) as H0.
  pose proof (pool_sum_ge units_of pool i _ units_nonneg Hi) as Hge.
  set (v := pool_sum units_of pool) in *.
  assert (__release_state (lw_state w) m = word f (v - units_of (LHold m)) /\ 0 <= v - units_of (LHold m) < 4096)
    as [Er Hr].
  { destruct (word_spec f v ltac:(lia)) as (_ & _ & E3 & E4 & _). rewrite Hw. destruct m.
    - change (units_of (LHold XTC_LW_EXCLUSIVE)) with 4096 in *. assert (v = 4096) as E by lia.
      rewrite (E3 E), E. done.
    - change (units_of (LHold XTC_LW_SHARED)) with 1 in *. rewrite E4 by lia. split; [done|lia]. }
  rewrite Er. destruct (word_spec f (v - units_of (LHold m)) ltac:(lia)) as (_ & _ & _ & _ & Ew & _).
  rewrite Ew, (proj2 (Z.eqb_neq (v - units_of (LHold m)) 4096)) by lia. rewrite andb_true_r.
  assert (units_of (if f then LWake else LIdle) = 0 /\ w_wait (if f then LWake else LIdle) = 0) as [Ez1 Ez2] by (by destruct f).
  apply (lw_inv_step w _ _ _ (LHold m) _ f); try done; fold v; rewrite ?Ez1, ?Ez2.
  - cbn [set_word lw_state]. f_equal. lia.
  - lia.
  - simpl. lia.
  - by destruct f.
  - by destruct f.
  - intros j q m' Hj Hq Huw. split; [done|]. destruct f; [by right|]. exfalso.
    assert (w_wait q = 1) as Hq1 by (by destruct q). pose proof (waiter_counted _ _ _ _ Hinv Hq Hq1). by specialize (Hf ltac:(done)).
Qed.

(** The wake-ups. *)
Lemma lw_inv_wake w pool i :
  lw_inv w pool -> pool !! i = Some LWake -> lw_inv (wake_section w) (<[i := LIdle]> pool).
Proof.
  intros Hinv Hi. pose proof Hinv as [(f & Hw & Hle & Hf) Hn Hl Hs]. pose proof (units_range pool) as H0.
  destruct (word_spec f (pool_sum units_of pool) ltac:(lia)) as (_ & _ & _ & _ & _ & _ & Ec).
  assert (forall j q, pool !! j = Some q -> forall m, ~ unwoken (wake_section w) j q m) as Hnone.
  { intros j q Hj m Hu. assert (w_wait q = 1) as Hq1 by (by destruct q).
    pose proof (waiter_counted _ _ _ _ Hinv Hj Hq1). unfold wake_section in Hu. rewrite decide_True in Hu by done.
    specialize (Hl _ _ Hj). destruct q; simpl in *; try done.
    - set_solver.
    - rewrite fw_wake_all_elem in Hu. tauto. }
  apply (lw_inv_step w _ _ _ LWake _ (if decide (0 < lw_n_waiters w) then f else false)); try done.
  - unfold wake_section. destruct (decide _); simpl; rewrite ?Hw, ?Ec; f_equal; rewrite !units_zero by done; lia.
  - rewrite !units_zero by done. lia.
  - unfold wake_section. destruct (decide _); simpl; [done|lia].
  - unfold wake_section. destruct (decide _); simpl; lia.
  - intros j q _ Hq. unfold wake_section. destruct (decide _); destruct q; simpl in *; try done. set_solver.
  - intros j q m Hj Hq Hu. by destruct (Hnone j q Hq m).
Qed.

Lemma lw_step_inv w pool i p w' p' :
  lw_inv w pool -> pool !! i = Some p -> lw_step i w p w' p' -> lw_inv w' (<[i := p']> pool).
Proof.
  intros Hinv Hi Hst. destruct Hst.
  - rewrite <-(set_mu_id w). by eapply lw_inv_same.
  - eapply lw_inv_got; try done; simpl; lia.
  - rewrite <-(set_mu_id w). by eapply lw_inv_same.
  - by eapply lw_inv_same.
  - by apply lw_inv_announce.
  - eapply lw_inv_got; try done; simpl; lia.
  - eapply lw_inv_waiter; try done; simpl; try lia.
    + intros j Hj. set_solver.
    + set_solver.
    + by intros m' [-> _].
  - eapply lw_inv_waiter; try done; simpl; try lia. intros j Hj. set_solver.
  - eapply lw_inv_waiter; try done; simpl; try lia.
    + intros j Hj. rewrite fw_queued_enqueue, decide_False by done. set_solver.
    + by rewrite fw_queued_enqueue, decide_True.
  - eapply lw_inv_waiter; try done; simpl; try lia.
    intros j Hj. rewrite fw_queued_remove, decide_False by done. set_solver.
  - eapply lw_inv_got; try done; simpl; try lia.
    intros j Hj. rewrite fw_queued_remove, decide_False by done. set_solver.
  - eapply lw_inv_same; try done.
    + by apply (iv_listed _ _ Hinv _ _ Hi).
    + by intros m' [-> _].
  - eapply lw_inv_waiter; try done; simpl; try lia.
    + intros j Hj. set_solver.
    + by apply (iv_listed _ _ Hinv _ _ Hi).
  - rewrite <-(set_mu_id w). by eapply lw_inv_same.
  - rewrite <-(set_mu_id w). by eapply lw_inv_same.
  - eapply lw_inv_got; try done; simpl; lia.
  - rewrite <-(set_mu_id w). by eapply lw_inv_same.
  - subst st. by apply lw_inv_release.
  - by apply lw_inv_wake.
Qed.

Definition lw_start (k : nat) : config := (xtc_lwlock_init, idle_pool LIdle k).

Lemma lw_run_inv k w pool : reachable lw_step (lw_start k) (w, pool) -> lw_inv w pool.
Proof.
  intros Hr. refine (pool_invariant lw_step lw_inv _ (w, pool) _ _ Hr).
  - intros s pl i p s' p'. apply lw_step_inv.
  - assert (forall f : lw_pc -> Z, f LIdle = 0 -> pool_sum f (idle_pool LIdle k) = 0) as Hz.
    { intros f Hf. apply pool_sum_zero. by apply idle_pool_Forall. }
    simpl. constructor; simpl.
    + exists false. rewrite Hz by done. done.
    + by rewrite Hz.
    + by apply idle_pool_Forall.
    + intros i p m Hi. apply (idle_pool_Forall LIdle k (fun _ p => p = LIdle)) in Hi; [by subst|done].
Qed.

(** ** What clients rely on *)

(** C5: mutual exclusion.  For any number of threads and fibers that acquire,
    try, sleep, park, are killed and release in either mode, with their
    accesses interleaved in any way: while one client holds the lock
    exclusively nobody else holds it, and there are never more than 4096
    shared holders, so their count never runs into the flags. *)
Theorem lwlock_exclusion k w pool :
  reachable lw_step (lw_start k) (w, pool) ->
  (forall i j m, pool !! i = Some (LHold XTC_LW_EXCLUSIVE) -> pool !! j = Some (LHold m) -> i = j) /\
  pool_sum w_sh pool <= 4096.
Proof.
  intros Hr. pose proof (lw_run_inv _ _ _ Hr) as [(f & _ & Hle & _) _ _ _]. split.
  - intros i j m Hi Hj. destruct (decide (i = j)) as [|Hne]; [done|exfalso].
    pose proof (pool_sum_two units_of pool i j _ _ units_nonneg Hne Hi Hj) as H2.
    change (units_of (LHold XTC_LW_EXCLUSIVE)) with 4096 in H2.
    assert (1 <= units_of (LHold m)) by (by destruct m). lia.
  - assert (forall q : gmap nat lw_pc, pool_sum w_sh q <= pool_sum units_of q) as H; [|specialize (H pool); lia].
    intros q. induction q as [|i p q Hi IH] using map_ind; [done|]. rewrite !pool_sum_fresh by done.
    assert (w_sh p <= units_of p) by (by destruct p as [| | | | | | | | | |[]|]). lia.
Qed.

(** No wake-up is lost.  In every reachable state, for every sleeping
    thread and parked fiber that has not been woken: either the lock is
    held in a mode that blocks it and the word tells the holder to wake, or
    a client that released is on its way to wake everybody. *)
Theorem lwlock_no_lost_wakeup k w pool i p m :
  reachable lw_step (lw_start k) (w, pool) -> pool !! i = Some p -> unwoken w i p m ->
  (__try_attempt (lw_state w) m = None /\ has_waiters (lw_state w) = true /\
   exists j m', pool !! j = Some (LHold m')) \/
  exists j, pool !! j = Some LWake.
Proof.
  intros Hr Hi Hu. pose proof (lw_run_inv _ _ _ Hr) as Hinv. pose proof Hinv as [(f & Hw & Hle & Hf) _ _ Hs].
  destruct (Hs i p m Hi Hu) as [Hb|(j & q & Hj & ->)]; [left|by right; exists j].
  assert (w_wait p = 1) as Hp by (by destruct p). rewrite (Hf (waiter_counted _ _ _ _ Hinv Hi Hp)) in Hw.
  pose proof (units_range pool) as H0.
  destruct (word_spec true (pool_sum units_of pool) ltac:(lia)) as (E1 & E2 & _ & _ & _ & E3 & _). split_and!; [done| |].
  - rewrite Hw. destruct (has_waiters (word true (pool_sum units_of pool))) eqn:E; [done|].
    unfold set_waiters in E3. rewrite E in E3. unfold has_waiters in E. apply negb_false_iff, Z.eqb_eq in E.
    apply (f_equal (fun z => Z.land z LW_FLAG_HAS_WAITERS)) in E3. rewrite E, Z.land_lor_distr_l, E in E3. done.
  - destruct (pool_sum_pos units_of pool) as (j & q & Hj & Hq).
    { rewrite Hw in Hb. destruct m; [rewrite E1 in Hb|rewrite E2 in Hb].
      - destruct (Z.eqb_spec (pool_sum units_of pool) 0); [done|lia].
      - destruct (Z.eqb_spec (pool_sum units_of pool) 4096); [lia|done]. }
    exists j. destruct q; try done. by exists m0.
Qed.

(** *** The list of held locks *)

Lemma held_pop_last h l m : __held_pop (h ++ [(l, m)]) l = Some (m, h).
Proof.
  unfold __held_pop. rewrite length_app. simpl. replace (length h + 1)%nat with (S (length h)) by lia. cbn [held_pop_loop].
  rewrite lookup_app_r, Nat.sub_diag by lia. cbn. rewrite decide_True by done. rewrite last_snoc, length_app. simpl.
  replace (length h + 1 - 1)%nat with (length h) by lia. rewrite decide_False by lia. by rewrite take_app_length.
Qed.

Lemma held_pop_absent h l n : (forall m, (l, m) ∉ h) -> held_pop_loop h l n = None.
Proof.
  intros Hn. induction n as [|n IH]; [done|]. simpl. destruct (h !! n) as [[l' m]|] eqn:E; [|done].
  rewrite decide_False; [done|]. intros ->. by eapply Hn, list_elem_of_lookup_2.
Qed.

(** A non-blocking acquire and the release that follows it.  With room in
    the thread's list of held locks the release restores the word and the
    list.  When the list is full (32 locks) the acquire still returns
    XTC_OK, but the lock is not recorded and no release ever gives it back:
    the word stays taken. *)
Theorem lwlock_cond_release l st h mode st' h' :
  0 <= st < 2 ^ 32 -> xtc_lwlock_acquire_cond l st h mode = (XTC_OK, st', h') ->
  ((length h < 32)%nat -> (xtc_lwlock_release l st' h').1 = (st, h)) /\
  ((32 <= length h)%nat -> (forall m, (l, m) ∉ h) -> h' = h /\ xtc_lwlock_release l st' h' = (st', h, false)).
Proof.
  intros Hst. unfold xtc_lwlock_acquire_cond. destruct (__try_attempt st mode) as [s|] eqn:Ea; [|done].
  intros [= <- <-]. unfold __held_push, XTC_LWLOCK_TLS_SLOTS. split.
  - intros Hl. rewrite decide_False by lia. cbn [snd]. unfold xtc_lwlock_release. rewrite held_pop_last. cbn [fst]. f_equal.
    unfold __try_attempt in Ea. destruct mode; destruct (decide _); try done; injection Ea as <-; simpl;
      unfold uwrap; rewrite Zminus_mod_idemp_l; rewrite Z.add_simpl_r; by apply Z.mod_small.
  - intros Hl Hn. rewrite decide_True by lia. cbn [snd]. split; [done|]. unfold xtc_lwlock_release, __held_pop.
    by rewrite held_pop_absent.
Qed.

(** *** A concrete execution: client 0 holds the lock, thread 1 sleeps for it. *)

Lemma lw_demo_run :
  exists w pool, reachable lw_step (lw_start 2) (w, pool) /\
    pool !! 0%nat = Some (LHold XTC_LW_EXCLUSIVE) /\ pool !! 1%nat = Some (LSleep XTC_LW_SHARED) /\
    unwoken w 1 (LSleep XTC_LW_SHARED) XTC_LW_SHARED /\ pool = <[0%nat := LHold XTC_LW_EXCLUSIVE]> {[1%nat := LSleep XTC_LW_SHARED]}.
Proof.
  eexists _, _. split.
  { pool_run 0%nat by (apply (ls_acquire _ _ XTC_LW_EXCLUSIVE)). pool_run 0%nat by (by apply ls_fast).
    pool_run 1%nat by (apply (ls_acquire _ _ XTC_LW_SHARED)). pool_run 1%nat by (by apply ls_blocked).
    pool_run 1%nat by (by apply ls_mutex). pool_run 1%nat by (apply ls_flag). pool_run 1%nat by (by apply ls_sleep).
    apply rtc_refl. }
  split; [vm_compute; reflexivity|]. split; [vm_compute; reflexivity|]. split; [split; [done|vm_compute; done]|].
  vm_compute. reflexivity.
Qed.

Lemma lwlock_exclusion_witness :
  exists w pool, reachable lw_step (lw_start 2) (w, pool) /\
    pool !! 0%nat = Some (LHold XTC_LW_EXCLUSIVE) /\ (forall m, pool !! 1%nat <> Some (LHold m)).
Proof.
  destruct lw_demo_run as (w & pool & Hr & H0 & _). exists w, pool. split; [exact Hr|]. split; [exact H0|].
  intros m H1. discriminate (proj1 (lwlock_exclusion 2 w pool Hr) 0%nat 1%nat m H0 H1).
Defined.

Lemma lwlock_no_lost_wakeup_witness :
  exists w pool, reachable lw_step (lw_start 2) (w, pool) /\ pool !! 1%nat = Some (LSleep XTC_LW_SHARED) /\
    has_waiters (lw_state w) = true.
Proof.
  destruct lw_demo_run as (w & pool & Hr & H0 & H1 & Hu & E). exists w, pool. split; [exact Hr|]. split; [exact H1|].
  destruct (lwlock_no_lost_wakeup 2 w pool 1%nat _ _ Hr H1 Hu) as [(_ & H & _)|[j Hj]]; [exact H|].
  exfalso. rewrite E in Hj. apply lookup_insert_Some in Hj as [[_ ?]|[_ Hj]]; [discriminate|].
  apply lookup_singleton_Some in Hj as [_ ?]. discriminate.
Defined.

Lemma lwlock_cond_release_witness :
  (xtc_lwlock_release 5 4096 [(5, XTC_LW_EXCLUSIVE)]).1 = (0, []) /\
  xtc_lwlock_release 5 1 (replicate 32 (9, XTC_LW_SHARED)) = (1, replicate 32 (9, XTC_LW_SHARED), false).
Proof.
  split.
  - apply (proj1 (lwlock_cond_release 5 0 [] XTC_LW_EXCLUSIVE 4096 [(5, XTC_LW_EXCLUSIVE)] ltac:(lia) eq_refl)). simpl. lia.
  - apply (proj2 (lwlock_cond_release 5 0 (replicate 32 (9, XTC_LW_SHARED)) XTC_LW_SHARED 1 (replicate 32 (9, XTC_LW_SHARED))
      ltac:(lia) eq_refl)).
    + rewrite length_replicate. lia.
    + intros m Hm. apply elem_of_replicate_inv in Hm. discriminate.
Defined.
