(* ===== verification/Mbox.v ===== *)
(** * Mailboxes (src/ptc/proc.c)

    Each process has a mailbox that any thread may deliver into and that only
    the process reads, with a private save queue for messages a selective
    receive has passed over.  A delivery is one critical section; the receive
    is its critical sections and the private work between them, interleaved
    with deliveries in any order.  Memory for the copy handed to the receiver
    may be refused. *)

From S2P Require Import Prelude.

Local Open Scope Z_scope.

Section Mailbox.
Context {E : Type}.

(** The predicates receives are called with. *)
Context (allowed : (E -> bool) -> Prop).
Implicit Types (e : E).

(** The mailbox part of [struct xtc_proc].  [mb_woken]: the parked task was put
    back on its loop; [mb_sent], [mb_got]: what was queued and received so
    far, [mb_putback]: a message was put back (none of the three in the
    code).  A message carries whether it is a DOWN or EXIT signal. *)
Record mailbox : Type := mk_mbox {
  mb_queue : list (bool * E);
  mb_save : list (bool * E);
  mb_saved : Z;
  mb_cap : Z;
  mb_alive : bool;
  mb_waker_armed : bool;
  mb_woken : bool;
  mb_peak : Z;
  mb_recv_total : Z;
  mb_drop_total : Z;
  mb_wm_lvl : Z;
  mb_wm_fired : bool;
  mb_sent : list (bool * E);
  mb_got : list (bool * E);
  mb_putback : bool;
}.
Implicit Types (p : mailbox).

Definition mb_n p : Z := Z.of_nat (length (mb_queue p)).

Definition with_queue p q peak total fired sent : mailbox :=
  mk_mbox q (mb_save p) (mb_saved p) (mb_cap p) (mb_alive p) (mb_waker_armed p) (mb_woken p) peak total (mb_drop_total p)
    (mb_wm_lvl p) fired sent (mb_got p) (mb_putback p).
Definition with_save p s n got putback : mailbox :=
  mk_mbox (mb_queue p) s n (mb_cap p) (mb_alive p) (mb_waker_armed p) (mb_woken p) (mb_peak p) (mb_recv_total p) (mb_drop_total p)
    (mb_wm_lvl p) (mb_wm_fired p) (mb_sent p) got putback.
Definition with_waker p armed woken : mailbox :=
  mk_mbox (mb_queue p) (mb_save p) (mb_saved p) (mb_cap p) (mb_alive p) armed woken (mb_peak p) (mb_recv_total p) (mb_drop_total p)
    (mb_wm_lvl p) (mb_wm_fired p) (mb_sent p) (mb_got p) (mb_putback p).
Definition with_dead p alive dropped : mailbox :=
  mk_mbox (mb_queue p) (mb_save p) (mb_saved p) (mb_cap p) alive (mb_waker_armed p) (mb_woken p) (mb_peak p) (mb_recv_total p) dropped
    (mb_wm_lvl p) (mb_wm_fired p) (mb_sent p) (mb_got p) (mb_putback p).

(** ** The queue *)

Definition __mbox_push_locked p (x : bool * E) : mailbox :=
  let q := mb_queue p ++ [x] in
  with_queue p q (Z.max (mb_peak p) (Z.of_nat (length q))) (mb_recv_total p + 1) (mb_wm_fired p) (mb_sent p ++ [x]).

Definition __mbox_pop_locked p : option ((bool * E) * mailbox) :=
  match mb_queue p with
  | [] => None
  | x :: q =>
      let fired := if bool_decide (0 < mb_wm_lvl p) && bool_decide (Z.of_nat (length q) < mb_wm_lvl p) then false else mb_wm_fired p in
      Some (x, with_queue p q (mb_peak p) (mb_recv_total p) fired (mb_sent p))
  end.

(** [__mbox_deliver_locked]; [full]: the simulator reports a full mailbox.
    Returns the code, and whether the watermark callback is due.  The wake of a
    parked receiver is a flag here: its push cannot fail (task.c), so its code
    is XTC_OK. *)
Definition __mbox_deliver_locked p e (sys full : bool) : rc * mailbox * bool :=
  if negb (mb_alive p) ||
     (negb sys && bool_decide (0 < mb_cap p) && bool_decide (mb_cap p <= mb_n p + mb_saved p)) ||
     (negb sys && full)
  then (XTC_E_AGAIN, with_dead p (mb_alive p) (mb_drop_total p + 1), false)
  else
    let p := __mbox_push_locked p (sys, e) in
    let fire := bool_decide (0 < mb_wm_lvl p) && negb (mb_wm_fired p) && bool_decide (mb_wm_lvl p <= mb_n p) in
    let p := with_queue p (mb_queue p) (mb_peak p) (mb_recv_total p) (mb_wm_fired p || fire) (mb_sent p) in
    (XTC_OK, if mb_waker_armed p then with_waker p true true else p, fire).

(** ** The receive *)

(** The save queue after the first [k] messages: the first match, if any. *)
Fixpoint split_match (m : E -> bool) (s : list (bool * E)) : option (list (bool * E) * (bool * E) * list (bool * E)) :=
  match s with
  | [] => None
  | x :: s =>
      if m x.2 then Some ([], x, s)
      else match split_match m s with Some (pre, y, post) => Some (x :: pre, y, post) | None => None end
  end.

(** Where the receiver is in [__do_recv]; [now]: the timeout is zero.  [PWalk]:
    before the walk of the save queue after its first [mark] messages; [PPull]:
    before a pop; [PHave]: with a popped message; [PEmpty]: the mailbox was
    empty; [PParked]; [PTake]: with the message to hand over. *)
Inductive recv_pc : Type :=
  | PIdle
  | PWalk (m : E -> bool) (now : bool) (mark : nat)
  | PPull (m : E -> bool) (now : bool)
  | PHave (m : E -> bool) (now : bool) (x : bool * E)
  | PEmpty (m : E -> bool) (now : bool)
  | PParked (m : E -> bool)
  | PTake (m : E -> bool) (x : bool * E)
  | PGone.

(** The walk: take the first match after the mark out of the save queue. *)
Definition walk p (m : E -> bool) (mark : nat) : option ((bool * E) * mailbox) :=
  match split_match m (drop mark (mb_save p)) with
  | Some (pre, x, post) => Some (x, with_save p (take mark (mb_save p) ++ pre ++ post) (mb_saved p - 1) (mb_got p) (mb_putback p))
  | None => None
  end.

Inductive recv_step p : recv_pc -> mailbox -> recv_pc -> Prop :=
  | rv_call m now : allowed m -> recv_step p PIdle p (PWalk m now 0)
  | rv_found m now mark x p' : walk p m mark = Some (x, p') -> recv_step p (PWalk m now mark) p' (PTake m x)
  | rv_walked m now mark : walk p m mark = None -> recv_step p (PWalk m now mark) p (PPull m now)
  | rv_pop m now x p' : __mbox_pop_locked p = Some (x, p') -> recv_step p (PPull m now) p' (PHave m now x)
  | rv_empty m now :
      __mbox_pop_locked p = None -> recv_step p (PPull m now) (if now then p else with_waker p true false) (PEmpty m now)
  | rv_match m now x : m x.2 = true -> recv_step p (PHave m now x) p (PTake m x)
  | rv_save m now x :
      m x.2 = false ->
      recv_step p (PHave m now x) (with_save p (mb_save p ++ [x]) (mb_saved p + 1) (mb_got p) (mb_putback p)) (PPull m now)
  (* a zero timeout, or the deadline *)
  | rv_again m now : recv_step p (PEmpty m now) p PIdle
  | rv_park m : recv_step p (PEmpty m false) p (PParked m)
  (* woken, timed out or resumed for another reason; a kill *)
  | rv_resume m : recv_step p (PParked m) (with_waker p false (mb_woken p)) (PWalk m false (length (mb_save p)))
  | rv_killed m : recv_step p (PParked m) (with_dead p false (mb_drop_total p)) PGone
  | rv_exit : recv_step p PIdle (with_dead p false (mb_drop_total p)) PGone
  (* the copy for the caller *)
  | rv_deliver m x : recv_step p (PTake m x) (with_save p (mb_save p) (mb_saved p) (mb_got p ++ [x]) (mb_putback p)) PIdle
  | rv_nomem m x : recv_step p (PTake m x) (with_save p (x :: mb_save p) (mb_saved p + 1) (mb_got p) true) PIdle.

Definition mstate : Type := mailbox * recv_pc.

Inductive mbox_step : mstate -> mstate -> Prop :=
  | mb_recv p pc p' pc' : recv_step p pc p' pc' -> mbox_step (p, pc) (p', pc')
  | mb_send p pc e sys full c p' fire : __mbox_deliver_locked p e sys full = (c, p', fire) -> mbox_step (p, pc) (p', pc).

(** A new process. *)
Definition mbox0 (cap wm : Z) : mstate := (mk_mbox [] [] 0 cap true false false 0 0 0 wm false [] [] false, PIdle).

Definition mbox_reach (cap wm : Z) : mstate -> Prop := rtc mbox_step (mbox0 cap wm).

(** ** The invariant *)

(** The message the receiver has in its hands, to be tested or handed over. *)
Definition in_hand (pc : recv_pc) : list (bool * E) := match pc with PHave _ _ x => [x] | _ => [] end.
Definition taken (pc : recv_pc) : list (bool * E) := match pc with PTake _ x => [x] | _ => [] end.

(** What has been queued and not yet received, oldest first. *)
Definition pending (s : mstate) : list (bool * E) := mb_save s.1 ++ in_hand s.2 ++ mb_queue s.1.

Definition unmatched (m : E -> bool) : list (bool * E) -> Prop := Forall (fun x => m x.2 = false).

(** What the receiver has tested so far does not match. *)
Definition tested (s : mstate) : Prop :=
  match s.2 with
  | PWalk m _ mark => unmatched m (take mark (mb_save s.1)) /\ (mark <= length (mb_save s.1))%nat
  | PPull m _ | PHave m _ _ | PEmpty m _ | PParked m => unmatched m (mb_save s.1)
  | PTake m x => m x.2 = true
  | _ => True
  end.

(** A receiver that waits, or is about to, has armed its waker, and a message
    queued since has woken it. *)
Definition awake (s : mstate) : Prop :=
  match s.2 with
  | PEmpty _ false | PParked _ => mb_waker_armed s.1 = true /\ (mb_queue s.1 <> [] -> mb_woken s.1 = true)
  | _ => True
  end.

Definition plain (l : list (bool * E)) : Z := Z.of_nat (length (filter (fun x => x.1 = false) l)).

Record mbox_ok (cap : Z) (s : mstate) : Prop := mk_mbox_ok {
  mo_cap : mb_cap s.1 = cap;
  mo_saved : mb_saved s.1 = Z.of_nat (length (mb_save s.1));
  mo_tested : tested s;
  mo_awake : awake s;
  mo_total : mb_recv_total s.1 = Z.of_nat (length (mb_sent s.1));
  mo_all : mb_sent s.1 ≡ₚ mb_got s.1 ++ taken s.2 ++ pending s;
  mo_order : mb_putback s.1 = false -> sublist (pending s) (mb_sent s.1);
  mo_bound : 0 < cap -> plain (taken s.2 ++ pending s) <= cap + 1;
}.

Lemma split_match_some m s pre x post :
  split_match m s = Some (pre, x, post) -> s = pre ++ x :: post /\ unmatched m pre /\ m x.2 = true.
Proof.
  revert pre. induction s as [|y s IH]; intros pre; simpl; [done|]. destruct (m y.2) eqn:Hy.
  - intros [= <- <- <-]. split_and!; [done|constructor|done].
  - destruct (split_match m s) as [[[pre' z] post']|]; [|done]. intros [= <- <- <-].
    destruct (IH pre' eq_refl) as (-> & H1 & H2). split_and!; [done|by constructor|done].
Qed.

Lemma split_match_none m s : split_match m s = None -> unmatched m s.
Proof.
  induction s as [|y s IH]; simpl; [intros _; constructor|]. destruct (m y.2) eqn:Hy; [done|].
  destruct (split_match m s) as [[[? ?] ?]|]; [done|]. intros _. constructor; [done|by apply IH].
Qed.

(** What a walk finds: the save queue splits at the first match. *)
Lemma walk_some p m mark x p' :
  walk p m mark = Some (x, p') -> unmatched m (take mark (mb_save p)) ->
  exists pre post, mb_save p = pre ++ x :: post /\ unmatched m pre /\ m x.2 = true /\
    p' = with_save p (pre ++ post) (mb_saved p - 1) (mb_got p) (mb_putback p).
Proof.
  unfold walk. destruct (split_match m (drop mark (mb_save p))) as [[[pre y] post]|] eqn:Es; [|done]. intros [= <- <-] Hm.
  apply split_match_some in Es as (E1 & E2 & E3). exists (take mark (mb_save p) ++ pre), post.
  split_and!; [|by apply Forall_app|done|by rewrite <-app_assoc].
  rewrite <-app_assoc, <-E1. symmetry. apply take_drop.
Qed.

Lemma walk_none p m mark : walk p m mark = None -> unmatched m (take mark (mb_save p)) -> unmatched m (mb_save p).
Proof.
  unfold walk. destruct (split_match m (drop mark (mb_save p))) as [[[? ?] ?]|] eqn:Es; [done|]. intros _ Hm.
  rewrite <-(take_drop mark (mb_save p)). apply Forall_app. split; [done|by apply split_match_none].
Qed.

Lemma plain_app l k : plain (l ++ k) = plain l + plain k.
Proof. unfold plain. rewrite filter_app, length_app. lia. Qed.

Lemma plain_cons x l : plain (x :: l) = (if x.1 then 0 else 1) + plain l.
Proof. unfold plain. rewrite filter_cons. destruct x as [[] ?]; [rewrite decide_False by done|rewrite decide_True by done]; cbn [length fst]; lia. Qed.

Lemma plain_length l : plain l <= Z.of_nat (length l).
Proof. unfold plain. pose proof (length_filter (fun x => x.1 = false) l). lia. Qed.

Lemma plain_nonneg l : 0 <= plain l.
Proof. unfold plain. lia. Qed.

Lemma pop_spec p x p' :
  __mbox_pop_locked p = Some (x, p') ->
  exists q fired, mb_queue p = x :: q /\ p' = with_queue p q (mb_peak p) (mb_recv_total p) fired (mb_sent p).
Proof. unfold __mbox_pop_locked. destruct (mb_queue p) as [|y q]; [done|]. intros [= <- <-]. eauto. Qed.

Lemma pop_none p : __mbox_pop_locked p = None -> mb_queue p = [].
Proof. unfold __mbox_pop_locked. by destruct (mb_queue p). Qed.

(** A delivery queues the message at the end or changes nothing that matters. *)
Lemma deliver_spec p e sys full c p' fire :
  __mbox_deliver_locked p e sys full = (c, p', fire) ->
  (c = XTC_E_AGAIN /\ p' = with_dead p (mb_alive p) (mb_drop_total p + 1)) \/
  (c = XTC_OK /\ mb_alive p = true /\ (sys = false -> 0 < mb_cap p -> mb_n p + mb_saved p < mb_cap p) /\
   exists peak fired woken, p' = with_waker (with_queue p (mb_queue p ++ [(sys, e)]) peak (mb_recv_total p + 1) fired (mb_sent p ++ [(sys, e)]))
     (mb_waker_armed p) woken /\ (mb_waker_armed p = true -> woken = true) /\ (woken = false -> mb_woken p = false)).
Proof.
  unfold __mbox_deliver_locked. destruct (negb (mb_alive p) || _ || _) eqn:Hr; intros [= <- <- <-]; [by left|right].
  apply orb_false_elim in Hr as [[Ha Hcap]%orb_false_elim _]. apply negb_false_iff in Ha.
  split_and!; [done|done| |].
  - intros -> Hc. simpl in Hcap. rewrite bool_decide_true in Hcap by done. simpl in Hcap. apply bool_decide_eq_false in Hcap. lia.
  - simpl. destruct (mb_waker_armed p) eqn:Hw; eexists _, _, _; (split; [|split]).
    + done.
    + done.
    + done.
    + unfold with_waker, with_queue. simpl. rewrite Hw. reflexivity.
    + done.
    + done.
Qed.

Lemma sublist_drop_mid (pre post l : list (bool * E)) x : sublist (pre ++ x :: post) l -> sublist (pre ++ post) l.
Proof. intros H. etrans; [|exact H]. apply sublist_app; [done|]. by apply sublist_cons. Qed.

Lemma recv_step_ok cap p pc p' pc' : mbox_ok cap (p, pc) -> recv_step p pc p' pc' -> mbox_ok cap (p', pc').
Proof.
  intros [H1 H2 H3 H4 H5 H6 H7 H8] Hst. destruct Hst as [m now Ha|m now mark x p' Hw|m now mark Hw|m now x p' Hpop|m now Hpop
    |m now x Hm|m now x Hm|m now|m|m|m| |m x|m x]; unfold tested, awake in *; simpl in *.
  - constructor; auto. simpl. split; [constructor|lia].
  - destruct H3 as [H3 _]. destruct (walk_some _ _ _ _ _ Hw H3) as (pre & post & Es & Hpre & Hx & ->).
    unfold pending in *. simpl in *. rewrite Es in *. constructor; simpl; auto; unfold pending; simpl.
    + rewrite H2, !length_app. simpl. lia.
    + rewrite H6. apply Permutation_app_head. rewrite <-!app_assoc. symmetry. apply Permutation_middle.
    + intros Hb. rewrite <-app_assoc. apply (sublist_drop_mid _ _ _ x). by rewrite <-app_assoc in H7; apply H7.
    + intros Hc. specialize (H8 Hc). rewrite !plain_app, ?plain_cons, ?plain_app in *. lia.
  - constructor; auto. simpl. eapply walk_none; [done|apply H3].
  - apply pop_spec in Hpop as (q & fired & Eq & ->). unfold pending in *. simpl in *. rewrite Eq in *. by constructor.
  - apply pop_none in Hpop. destruct now; constructor; auto. by unfold awake; simpl; rewrite Hpop.
  - constructor; auto; simpl; unfold pending in *; simpl in *.
    + rewrite H6. apply Permutation_app_head. symmetry. apply Permutation_middle.
    + intros Hb. by apply (sublist_drop_mid _ _ _ x), H7.
    + intros Hc. specialize (H8 Hc). rewrite plain_cons, !plain_app, ?plain_cons in *. lia.
  - constructor; auto; simpl; unfold pending in *; simpl in *.
    + rewrite H2, length_app. simpl. lia.
    + apply Forall_app. split; [done|]. by constructor.
    + by rewrite <-!app_assoc.
    + by rewrite <-app_assoc.
    + by rewrite <-app_assoc.
  - by constructor.
  - by constructor.
  - constructor; auto; [|done]. unfold tested. simpl. by rewrite firstn_all.
  - by constructor.
  - by constructor.
  - constructor; auto; simpl; unfold pending in *; simpl in *.
    + rewrite H6. by rewrite <-app_assoc.
    + intros Hc. specialize (H8 Hc). rewrite plain_cons in H8. destruct x.1; lia.
  - constructor; auto; simpl; unfold pending in *; simpl in *.
    + lia.
    + done.
Qed.

Lemma send_ok cap p pc e sys full c p' fire :
  mbox_ok cap (p, pc) -> __mbox_deliver_locked p e sys full = (c, p', fire) -> mbox_ok cap (p', pc).
Proof.
  intros [H1 H2 H3 H4 H5 H6 H7 H8] [[_ ->]|(_ & _ & Hroom & peak & fired & woken & -> & Hw & _)]%deliver_spec; [by constructor|].
  unfold tested, awake, pending in *. simpl in *. constructor; simpl; auto; unfold pending; simpl.
  - destruct pc as [| | | |m []|m| |]; simpl in *; try done; (split; [apply H4|]); intros _; apply Hw, H4.
  - rewrite length_app, H5. simpl. lia.
  - rewrite H6. by rewrite <-!app_assoc.
  - intros Hb. rewrite !app_assoc. apply sublist_app; [|done]. rewrite <-!app_assoc. by apply H7.
  - intros Hc. specialize (H8 Hc). rewrite !app_assoc, plain_app, <-!app_assoc, plain_cons. simpl.
    destruct sys; simpl; [unfold plain at 2; simpl; lia|]. specialize (Hroom eq_refl). rewrite H1, H2 in Hroom. specialize (Hroom Hc).
    rewrite !plain_app in *. unfold mb_n in Hroom. pose proof (plain_length (mb_save p)). pose proof (plain_length (mb_queue p)).
    assert (plain (taken pc) + plain (in_hand pc) <= 1) as Hone.
    { destruct pc; simpl; unfold plain; simpl; rewrite ?filter_cons; repeat case_decide; simpl; lia. }
    unfold plain at 5. simpl. lia.
Qed.

Lemma mbox_run_ok cap wm s : mbox_reach cap wm s -> mbox_ok cap s.
Proof.
  intros Hr. unfold mbox_reach in Hr.
  assert (mbox_ok cap (mbox0 cap wm)) as H0.
  { constructor; try done. intros Hc. unfold plain. simpl. lia. }
  revert H0. induction Hr as [s|s1 s2 s3 Hst Hr IH]; [done|]. intros H. apply IH. clear IH Hr.
  destruct Hst as [p pc p' pc' Hst|p pc e sys full c p' fire Hst]; [by eapply recv_step_ok|by eapply send_ok].
Qed.

(** ** Plain receives *)

(** Every receive takes whatever comes. *)
Definition takes_all : Prop := forall m, allowed m -> forall e, m e = true.

Definition pc_allowed (pc : recv_pc) : Prop :=
  match pc with
  | PWalk m _ _ | PPull m _ | PHave m _ _ | PEmpty m _ | PParked m | PTake m _ => allowed m
  | _ => True
  end.

Lemma recv_allowed p pc p' pc' : recv_step p pc p' pc' -> pc_allowed pc -> pc_allowed pc'.
Proof. by intros []. Qed.

Lemma unmatched_nil m l : (forall e, m e = true) -> unmatched m l -> l = [].
Proof. intros Hm H. destruct H as [|x l Hx]; [done|]. by rewrite Hm in Hx. Qed.

Definition fifo (s : mstate) : Prop := mb_sent s.1 = mb_got s.1 ++ taken s.2 ++ pending s.

Lemma fifo_recv p pc p' pc' :
  takes_all -> pc_allowed pc -> tested (p, pc) -> fifo (p, pc) -> recv_step p pc p' pc' -> fifo (p', pc').
Proof.
  intros Hall Hpc Ht Hf Hst. unfold fifo, pending, tested in *.
  destruct Hst as [m now Ha|m now mark x p' Hw|m now mark Hw|m now x p' Hpop|m now Hpop
    |m now x Hm|m now x Hm|m now|m|m|m| |m x|m x]; simpl in *; try done.
  - destruct Ht as [Ht _]. destruct (walk_some _ _ _ _ _ Hw Ht) as (pre & post & Es & Hpre & _ & ->).
    apply unmatched_nil in Hpre as ->; [|by apply Hall]. simpl. by rewrite Es in Hf.
  - apply unmatched_nil in Ht; [|by apply Hall]. apply pop_spec in Hpop as (q & fired & Eq & ->). simpl. by rewrite Ht, Eq in *.
  - by destruct now.
  - apply unmatched_nil in Ht; [|by apply Hall]. by rewrite Ht in *.
  - by rewrite (Hall m) in Hm.
  - by rewrite <-app_assoc.
Qed.

Lemma fifo_send p pc e sys full c p' fire : fifo (p, pc) -> __mbox_deliver_locked p e sys full = (c, p', fire) -> fifo (p', pc).
Proof.
  intros Hf [[_ ->]|(_ & _ & _ & peak & fired & woken & -> & _)]%deliver_spec; [done|].
  unfold fifo, pending in *. simpl in *. by rewrite Hf, <-!app_assoc.
Qed.

Lemma fifo_run cap wm s : takes_all -> mbox_reach cap wm s -> fifo s /\ pc_allowed s.2.
Proof.
  intros Hall Hr. assert (mbox_ok cap (mbox0 cap wm) /\ fifo (mbox0 cap wm) /\ pc_allowed (mbox0 cap wm).2) as H0.
  { split; [|done]. by apply (mbox_run_ok cap wm), rtc_refl. }
  revert H0. unfold mbox_reach in Hr. induction Hr as [s|s1 s2 s3 Hst Hr IH]; [naive_solver|]. intros (H1 & H2 & H3). apply IH. clear IH Hr.
  destruct Hst as [p pc p' pc' Hst|p pc e sys full c p' fire Hst].
  - split_and!; [by eapply recv_step_ok| |by eapply recv_allowed]. eapply fifo_recv; [done|done|apply H1|done|done].
  - split_and!; [by eapply send_ok|by eapply fifo_send|done].
Qed.
End Mailbox.

(** ** What senders and the receiver rely on *)

(** C14: no message is lost, duplicated or made up, whatever receives select,
    whatever is refused for want of memory, and however deliveries fall
    between the receiver's steps: what was queued is what was received, is
    being handed over or is still pending; the counter that bounds a mailbox
    is the length of the save queue; and as long as no message had to be put
    back, the pending ones are in the order of their arrival. *)
Theorem mbox_conserves {E} (allowed : (E -> bool) -> Prop) cap wm s :
  mbox_reach allowed cap wm s ->
  mb_sent s.1 ≡ₚ mb_got s.1 ++ taken s.2 ++ pending s /\
  mb_saved s.1 = Z.of_nat (length (mb_save s.1)) /\
  (mb_putback s.1 = false -> sublist (pending s) (mb_sent s.1)).
Proof. intros Hr. destruct (mbox_run_ok allowed cap wm s Hr). by split_and!. Qed.

(** C15: a selective receive takes the earliest match, by position in the
    mailbox (after a put-back for want of memory that need not be the order of
    arrival).  Whenever it settles on a message, every pending message before
    that one fails the predicate, and only that one is removed; and whenever it
    finds the mailbox empty and may give up or park, no pending message
    matches. *)
Theorem mbox_takes_earliest {E} (allowed : (E -> bool) -> Prop) cap wm p pc p' pc' :
  mbox_reach allowed cap wm (p, pc) -> recv_step allowed p pc p' pc' ->
  (forall m x, pc' = PTake m x ->
     exists pre post, pending (p, pc) = pre ++ x :: post /\ pending (p', pc') = pre ++ post /\ unmatched m pre /\ m x.2 = true) /\
  (forall m now, pc' = PEmpty m now -> unmatched m (pending (p', pc'))).
Proof.
  intros Hr Hst. pose proof (mo_tested _ _ (mbox_run_ok allowed cap wm _ Hr)) as Ht. unfold tested, pending in *. simpl in *.
  destruct Hst as [m now Ha|m now mark x p' Hw|m now mark Hw|m now x p' Hpop|m now Hpop
    |m now x Hm|m now x Hm|m now|m|m|m| |m x|m x]; simpl in *; (split; [intros m0 x0 Epc|intros m0 now0 Epc]); try done.
  - injection Epc as <- <-. destruct Ht as [Ht _]. destruct (walk_some _ _ _ _ _ Hw Ht) as (pre & post & Es & Hpre & Hx & ->).
    exists pre, (post ++ mb_queue p). simpl. by rewrite Es, <-!app_assoc.
  - injection Epc as <- <-. apply pop_none in Hpop. destruct now; simpl; by rewrite Hpop, app_nil_r.
  - injection Epc as <- <-. by exists (mb_save p), (mb_queue p).
Qed.

(** C16: no wake-up is lost.  A receiver that is parked while a message it waits
    for is pending has been woken. *)
Theorem mbox_no_lost_wakeup {E} (allowed : (E -> bool) -> Prop) cap wm p m :
  mbox_reach allowed cap wm (p, PParked m) ->
  Exists (fun x => m x.2 = true) (pending (p, PParked m)) -> mb_woken p = true.
Proof.
  intros Hr Hx. destruct (mbox_run_ok allowed cap wm _ Hr) as [_ _ Ht Hw _ _ _ _]. unfold tested, awake, pending in *. simpl in *.
  apply Hw. apply Exists_app in Hx as [Hx|Hx]; [|by destruct Hx].
  exfalso. unfold unmatched in Ht. rewrite Forall_forall in Ht. apply Exists_exists in Hx as (x & Hin & Hx). specialize (Ht x Hin). congruence.
Qed.

(** The bound of a mailbox holds up to the one message the receiver may be
    holding while it looks at it: a capped mailbox never has more than
    [cap + 1] ordinary messages pending (DOWN and EXIT signals are not
    counted against the cap). *)
Theorem mbox_capped {E} (allowed : (E -> bool) -> Prop) cap wm s :
  mbox_reach allowed cap wm s -> 0 < cap -> plain (taken s.2 ++ pending s) <= cap + 1.
Proof. intros Hr. apply (mbox_run_ok allowed cap wm s Hr). Qed.

(** Plain receives are first in, first out: if every receive takes whatever
    comes, messages are received in exactly the order in which they were
    queued, even when memory is refused in between. *)
Theorem mbox_fifo {E} (allowed : (E -> bool) -> Prop) cap wm s :
  takes_all allowed -> mbox_reach allowed cap wm s -> mb_sent s.1 = mb_got s.1 ++ taken s.2 ++ pending s.
Proof. intros Hall Hr. exact (proj1 (fifo_run allowed cap wm s Hall Hr)). Qed.

(** A delivery as a step, and a step followed by normalising the state. *)
Lemma mb_send_fun {E} (allowed : (E -> bool) -> Prop) p pc e sys :
  mbox_step allowed (p, pc) ((__mbox_deliver_locked p e sys false).1.2, pc).
Proof. destruct (__mbox_deliver_locked p e sys false) as [[c p'] fire] eqn:Ed. by eapply mb_send. Qed.

Ltac mstep_norm := match goal with |- rtc _ ?x _ => let y := eval vm_compute in x in change x with y end.
Tactic Notation "mstep" tactic3(tac) := unfold mbox_reach; mstep_norm; eapply rtc_l; [tac|]; try mstep_norm.

(** A message put back overtakes.  If memory is refused to a selective
    receive, its message goes to the head of the save queue, before messages
    that arrived earlier: the next plain receive returns it first. *)
Theorem mbox_putback_overtakes :
  exists s, mbox_reach (E := Z) (fun _ => True) 0 0 s /\
    mb_sent s.1 = [(false, 1); (false, 2)] /\ mb_got s.1 = [] /\ s.2 = PTake (fun _ => true) (false, 2).
Proof.
  eexists. split.
  { mstep (apply (mb_send_fun _ _ _ 1 false)).
    mstep (apply (mb_send_fun _ _ _ 2 false)).
    mstep (apply mb_recv, (rv_call _ _ (fun z => z =? 2) true I)).
    mstep (apply mb_recv, rv_walked; reflexivity).
    mstep (apply mb_recv, rv_pop; reflexivity).
    mstep (apply mb_recv, rv_save; reflexivity).
    mstep (apply mb_recv, rv_pop; reflexivity).
    mstep (apply mb_recv, rv_match; reflexivity).
    mstep (apply mb_recv, rv_nomem).
    mstep (apply mb_recv, (rv_call _ _ (fun _ => true) true I)).
    mstep (apply mb_recv, rv_found; reflexivity). apply rtc_refl. }
  done.
Qed.

(** ** Example runs *)

(** Message 1 is saved, and the receiver, which waits for 2, has parked; then 2
    is delivered. *)
Lemma mbox_demo :
  exists p, mbox_reach (E := Z) (fun _ => True) 2 0 (p, PParked (fun z => z =? 2)) /\
    pending (p, PParked (fun z => z =? 2)) = [(false, 1); (false, 2)].
Proof.
  eexists. split.
  { mstep (apply (mb_send_fun _ _ _ 1 false)).
    mstep (apply mb_recv, (rv_call _ _ (fun z => z =? 2) false I)).
    mstep (apply mb_recv, rv_walked; reflexivity).
    mstep (apply mb_recv, rv_pop; reflexivity).
    mstep (apply mb_recv, rv_save; reflexivity).
    mstep (apply mb_recv, rv_empty; reflexivity).
    mstep (apply mb_recv, rv_park).
    mstep (apply (mb_send_fun _ _ _ 2 false)). apply rtc_refl. }
  done.
Qed.

Lemma mbox_conserves_witness :
  exists s, mbox_reach (E := Z) (fun _ => True) 2 0 s /\ mb_sent s.1 ≡ₚ mb_got s.1 ++ taken s.2 ++ pending s.
Proof.
  destruct mbox_demo as (p & Hr & _). eexists. split; [exact Hr|]. exact (proj1 (mbox_conserves (fun _ => True) 2 0 _ Hr)).
Defined.

Lemma mbox_no_lost_wakeup_witness :
  exists p, mbox_reach (E := Z) (fun _ => True) 2 0 (p, PParked (fun z => z =? 2)) /\ mb_woken p = true.
Proof.
  destruct mbox_demo as (p & Hr & Hp). exists p. split; [exact Hr|].
  refine (mbox_no_lost_wakeup (fun _ => True) 2 0 p (fun z => z =? 2) Hr _).
  rewrite Hp. apply Exists_cons. right. apply Exists_cons. left. reflexivity.
Defined.

Lemma mbox_capped_witness :
  exists s, mbox_reach (E := Z) (fun _ => True) 2 0 s /\ plain (taken s.2 ++ pending s) <= 2 + 1.
Proof.
  destruct mbox_demo as (p & Hr & _). eexists. split; [exact Hr|].
  refine (mbox_capped (fun _ => True) 2 0 _ Hr _). reflexivity.
Defined.

(** Message 1 is saved, and the receiver has popped 2, which it waits for. *)
Lemma mbox_demo_have :
  exists p, mbox_reach (E := Z) (fun _ => True) 2 0 (p, PHave (fun z => z =? 2) true (false, 2)) /\
    pending (p, PHave (fun z => z =? 2) true (false, 2)) = [(false, 1); (false, 2)].
Proof.
  eexists. split.
  { mstep (apply (mb_send_fun _ _ _ 1 false)).
    mstep (apply (mb_send_fun _ _ _ 2 false)).
    mstep (apply mb_recv, (rv_call _ _ (fun z => z =? 2) true I)).
    mstep (apply mb_recv, rv_walked; reflexivity).
    mstep (apply mb_recv, rv_pop; reflexivity).
    mstep (apply mb_recv, rv_save; reflexivity).
    mstep (apply mb_recv, rv_pop; reflexivity). apply rtc_refl. }
  done.
Qed.

Lemma mbox_takes_earliest_witness :
  exists p, mbox_reach (E := Z) (fun _ => True) 2 0 (p, PHave (fun z => z =? 2) true (false, 2)) /\
    exists pre post, pending (p, PHave (fun z => z =? 2) true (false, 2)) = pre ++ (false, 2) :: post /\
      pending (p, PTake (fun z => z =? 2) (false, 2)) = pre ++ post /\ unmatched (fun z => z =? 2) pre /\ (2 =? 2) = true.
Proof.
  destruct mbox_demo_have as (p & Hr & _). exists p. split; [exact Hr|].
  refine (proj1 (mbox_takes_earliest (fun _ => True) 2 0 _ _ _ _ Hr _) _ _ eq_refl).
  apply rv_match. reflexivity.
Defined.

Lemma mbox_fifo_witness :
  exists s, mbox_reach (E := Z) (fun m => m = fun _ => true) 2 0 s /\ mb_got s.1 = [(false, 1)] /\
    mb_sent s.1 = mb_got s.1 ++ taken s.2 ++ pending s.
Proof.
  assert (exists s, mbox_reach (E := Z) (fun m => m = fun _ => true) 2 0 s /\ mb_got s.1 = [(false, 1)]) as (s & Hr & Hg).
  { eexists. split.
    { mstep (apply (mb_send_fun _ _ _ 1 false)).
      mstep (apply (mb_send_fun _ _ _ 2 false)).
      mstep (apply mb_recv, (rv_call (fun m => m = fun _ => true) _ (fun _ => true) true); reflexivity).
      mstep (apply mb_recv, rv_walked; reflexivity).
      mstep (apply mb_recv, rv_pop; reflexivity).
      mstep (apply mb_recv, rv_match; reflexivity).
      mstep (apply mb_recv, rv_deliver). apply rtc_refl. }
    done. }
  exists s. split; [exact Hr|]. split; [exact Hg|].
  refine (mbox_fifo (fun m => m = fun _ => true) 2 0 s _ Hr). intros m -> e. reflexivity.
Defined.
