(* ===== verification/Ptab.v ===== *)
(** * The process table (src/ptc/proc.c)

    Each loop has a table of its processes.  A pid is a slot and the slot's
    generation; vacated slots are kept on a free list through the slots.  An
    allocation holds every stripe of the table's lock, a lookup or a release
    the stripe of its slot, so each operation is one step. *)

From S2P Require Import Prelude.

Local Open Scope Z_scope.

(** [sl_proc]: the process, by a number; [sl_next_free]: [None] ends the list. *)
Record xtc_proc_slot : Type := mk_slot {
  sl_proc : option Z;
  sl_gen : Z;
  sl_next_free : option nat;
}.

Record xtc_proc_table : Type := mk_table {
  pt_slots : list xtc_proc_slot;
  pt_free_head : option nat;
  pt_hw : nat;
  pt_n_used : Z;
}.

Definition pt_cap (t : xtc_proc_table) : Z := Z.of_nat (length (pt_slots t)).

Definition XTC_PROC_MAX_LOCAL_ID : Z := 2 ^ 32 - 1.

Definition empty_slot : xtc_proc_slot := mk_slot None 0 None.
Definition table0 : xtc_proc_table := mk_table [] None 0 0.

Definition slot_at (t : xtc_proc_table) (i : nat) : xtc_proc_slot := default empty_slot (pt_slots t !! i).

(** The slot an allocation takes: from the free list, a slot never used, or one
    of a larger array; [grow]: whether memory for that is given. *)
Definition pick_slot (t : xtc_proc_table) (grow : bool) : rc * xtc_proc_table * nat :=
  match pt_free_head t with
  | Some idx => (XTC_OK, mk_table (pt_slots t) (sl_next_free (slot_at t idx)) (pt_hw t) (pt_n_used t), idx)
  | None =>
      if decide (Z.of_nat (pt_hw t) < pt_cap t) then
        (XTC_OK, mk_table (pt_slots t) None (S (pt_hw t)) (pt_n_used t), pt_hw t)
      else if decide (XTC_PROC_MAX_LOCAL_ID <= pt_cap t) then (XTC_E_RESOURCE, t, 0%nat)
      else
        let new_cap := if decide (pt_cap t = 0) then 16 else pt_cap t * 2 in
        let new_cap := Z.min new_cap XTC_PROC_MAX_LOCAL_ID in
        if negb grow then (XTC_E_NOMEM, t, 0%nat)
        else
          (XTC_OK, mk_table (pt_slots t ++ replicate (Z.to_nat (new_cap - pt_cap t)) empty_slot) None (S (pt_hw t)) (pt_n_used t),
           pt_hw t)
  end.

(** [__table_alloc_slot]: with the pid's slot and generation. *)
Definition __table_alloc_slot (t : xtc_proc_table) (p : Z) (grow : bool) : rc * xtc_proc_table * (nat * Z) :=
  match pick_slot t grow with
  | (XTC_OK, t, idx) =>
      let gen := u64 (sl_gen (slot_at t idx) + 1) in
      (XTC_OK, mk_table (<[idx := mk_slot (Some p) gen (sl_next_free (slot_at t idx))]> (pt_slots t)) (pt_free_head t) (pt_hw t)
         (pt_n_used t + 1), (idx, gen))
  | (c, t, _) => (c, t, (0%nat, 0))
  end.

Definition __table_vacate_locked (t : xtc_proc_table) (i : nat) : xtc_proc_table :=
  mk_table (<[i := mk_slot None (sl_gen (slot_at t i)) (pt_free_head t)]> (pt_slots t)) (Some i) (pt_hw t) (pt_n_used t - 1).

Definition __table_release (t : xtc_proc_table) (i : nat) : xtc_proc_table :=
  match sl_proc (slot_at t i) with
  | Some _ => __table_vacate_locked t i
  | None => t
  end.

Definition __table_lookup (t : xtc_proc_table) (i : nat) (gen : Z) : option Z :=
  match pt_slots t !! i with
  | Some s => if decide (sl_gen s = gen) then sl_proc s else None
  | None => None
  end.

(** ** The invariant *)

(** The free list from [h]: the slots [l], linked in this order. *)
Fixpoint chain (slots : list xtc_proc_slot) (h : option nat) (l : list nat) : Prop :=
  match l with
  | [] => h = None
  | i :: l => h = Some i /\ exists s, slots !! i = Some s /\ sl_proc s = None /\ chain slots (sl_next_free s) l
  end.

(** Free list, high-water mark and slots agree; [hole]: a slot that is being
    handed out; [n] allocations so far bound the generations. *)
Record table_ok (t : xtc_proc_table) (free : list nat) (hole : option nat) (n : Z) : Prop := mk_table_ok {
  to_chain : chain (pt_slots t) (pt_free_head t) free;
  to_nodup : NoDup free;
  to_below : Forall (fun i => (i < pt_hw t)%nat) free;
  to_hw : (pt_hw t <= length (pt_slots t))%nat;
  to_free : forall i s, pt_slots t !! i = Some s -> (i < pt_hw t)%nat -> sl_proc s = None -> hole <> Some i -> i ∈ free;
  to_fresh : forall i s, pt_slots t !! i = Some s -> (pt_hw t <= i)%nat -> sl_proc s = None /\ sl_gen s = 0;
  to_gen : forall i s, pt_slots t !! i = Some s -> 0 <= sl_gen s <= n;
  to_max : pt_cap t <= XTC_PROC_MAX_LOCAL_ID;
  to_count : 0 <= n;
}.

(** What a table means: the processes by pid. *)
Abbreviation pid_map := (gmap (nat * Z) Z).

Record means (t : xtc_proc_table) (m : pid_map) : Prop := mk_means {
  me_lookup : forall i g, __table_lookup t i g = m !! (i, g);
  me_size : pt_n_used t = Z.of_nat (size m);
}.

(** A slot hands out each generation once. *)
Definition issued_ok (t : xtc_proc_table) (issued : list (nat * Z)) : Prop :=
  NoDup issued /\ Forall (fun '(i, g) => exists s, pt_slots t !! i = Some s /\ g <= sl_gen s) issued.

Lemma chain_insert slots h l i s : i ∉ l -> chain slots h l -> chain (<[i := s]> slots) h l.
Proof.
  revert h. induction l as [|j l IH]; intros h Hi; [done|]. simpl. intros [-> (s' & Hs & Hp & Hc)]. split; [done|].
  exists s'. rewrite list_lookup_insert_ne by set_solver. split_and!; auto. apply IH; [set_solver|done].
Qed.

Lemma chain_app slots more h l : chain slots h l -> chain (slots ++ more) h l.
Proof.
  revert h. induction l as [|j l IH]; intros h; [done|]. simpl. intros [-> (s & Hs & Hp & Hc)]. split; [done|].
  exists s. split_and!; auto. by apply lookup_app_l_Some.
Qed.

(** What a pick gives: a free slot that is on no list any more. *)
Record picked (t t' : xtc_proc_table) (n : Z) (idx : nat) : Prop := mk_picked {
  pk_ok : exists free, table_ok t' free (Some idx) n /\ (idx ∉ free);
  pk_slot : exists s, pt_slots t' !! idx = Some s /\ sl_proc s = None;
  pk_hw : (idx < pt_hw t')%nat;
  pk_used : pt_n_used t' = pt_n_used t;
  pk_keep : forall i s, pt_slots t !! i = Some s -> pt_slots t' !! i = Some s;
  pk_lookup : forall i g, __table_lookup t' i g = __table_lookup t i g;
}.

Lemma pick_free t idx free n :
  pt_free_head t = Some idx -> table_ok t free None n ->
  picked t (mk_table (pt_slots t) (sl_next_free (slot_at t idx)) (pt_hw t) (pt_n_used t)) n idx.
Proof.
  intros Eh [H1 H2 H3 H4 H5 H6 H7 H8 H9]. destruct free as [|i free]; simpl in H1; [congruence|].
  destruct H1 as [Eh' (s & Hs & Hp & Hc)]. rewrite Eh in Eh'. injection Eh' as <-.
  apply NoDup_cons in H2 as [Hi H2]. apply Forall_cons in H3 as [Hlt H3].
  constructor; simpl; auto; [|by eauto]. exists free. split; [|done]. constructor; simpl; auto.
  - unfold slot_at. by rewrite Hs.
  - intros j s' Hj Hjlt Hjp Hne. specialize (H5 j s' Hj Hjlt Hjp ltac:(done)).
    apply elem_of_cons in H5 as [->|H5]; [congruence|done].
Qed.

Lemma pick_fresh t n :
  pt_free_head t = None -> table_ok t [] None n -> Z.of_nat (pt_hw t) < pt_cap t ->
  picked t (mk_table (pt_slots t) None (S (pt_hw t)) (pt_n_used t)) n (pt_hw t).
Proof.
  intros Eh [H1 H2 H3 H4 H5 H6 H7 H8 H9] Hlt. unfold pt_cap in Hlt.
  constructor; simpl; auto.
  - exists []. split; [|by apply not_elem_of_nil]. constructor; simpl; auto; [lia| |].
    + intros i s Hi Hl Hp Hne. apply (H5 i s); auto. assert (i <> pt_hw t) by congruence. lia.
    + intros i s Hi Hl. apply (H6 i s); [done|lia].
  - destruct (lookup_lt_is_Some_2 (pt_slots t) (pt_hw t)) as [s Hs]; [lia|]. exists s. split; [done|]. apply (H6 _ s Hs). lia.
Qed.

Lemma lookup_replicate_app (l : list xtc_proc_slot) k i s :
  (l ++ replicate k empty_slot) !! i = Some s -> l !! i = Some s \/ s = empty_slot /\ (length l <= i)%nat.
Proof.
  rewrite lookup_app_Some. intros [?|[? H]]; [by left|right]. apply lookup_replicate in H as [-> _]. done.
Qed.

Lemma pick_grown t n :
  pt_free_head t = None -> table_ok t [] None n -> pt_cap t <= Z.of_nat (pt_hw t) -> pt_cap t < XTC_PROC_MAX_LOCAL_ID ->
  let new_cap := Z.min (if decide (pt_cap t = 0) then 16 else pt_cap t * 2) XTC_PROC_MAX_LOCAL_ID in
  picked t (mk_table (pt_slots t ++ replicate (Z.to_nat (new_cap - pt_cap t)) empty_slot) None (S (pt_hw t)) (pt_n_used t)) n (pt_hw t).
Proof.
  intros Eh [H1 H2 H3 H4 H5 H6 H7 H8 H9] Hge Hmax new_cap. unfold pt_cap in Hge.
  assert (pt_hw t = length (pt_slots t)) as Ehw by lia.
  assert (pt_cap t < new_cap <= XTC_PROC_MAX_LOCAL_ID) as Hnew.
  { unfold new_cap, pt_cap in *. case_decide; lia. }
  set (k := Z.to_nat (new_cap - pt_cap t)). assert (0 < k)%nat as Hk by lia.
  constructor; simpl; auto.
  - exists []. split; [|by apply not_elem_of_nil]. constructor; simpl; auto.
    + rewrite length_app, length_replicate. lia.
    + intros i s [Hi|[-> Hle]]%lookup_replicate_app Hl Hp Hne.
      * apply (H5 i s); auto. rewrite Ehw. by eapply lookup_lt_Some.
      * assert (i <> pt_hw t) by congruence. lia.
    + intros i s [Hi|[-> Hle]]%lookup_replicate_app Hl; [|done]. apply lookup_lt_Some in Hi. lia.
    + intros i s [Hi|[-> Hle]]%lookup_replicate_app; [by eapply H7|]. simpl. lia.
    + unfold pt_cap. simpl. rewrite length_app, length_replicate. unfold k, pt_cap in *. lia.
  - exists empty_slot. split; [|done]. rewrite lookup_app_r by lia. rewrite Ehw, Nat.sub_diag. by apply lookup_replicate_2.
  - intros i s Hi. by apply lookup_app_l_Some.
  - intros i g. unfold __table_lookup. simpl. destruct (pt_slots t !! i) as [s|] eqn:Hi; [by rewrite (lookup_app_l_Some _ _ _ _ Hi)|].
    destruct ((pt_slots t ++ replicate k empty_slot) !! i) as [s|] eqn:Hs; [|done].
    apply lookup_replicate_app in Hs as [?|[-> _]]; [congruence|]. simpl. by case_decide.
Qed.

Lemma pick_slot_ok t free n grow t' idx :
  table_ok t free None n -> pick_slot t grow = (XTC_OK, t', idx) -> picked t t' n idx.
Proof.
  intros Hok. unfold pick_slot. destruct (pt_free_head t) as [i|] eqn:Eh.
  { intros [= <- <-]. by eapply pick_free. }
  assert (free = []) as ->.
  { destruct free as [|i free]; [done|]. destruct Hok as [[H _] _ _ _ _ _ _ _ _]. congruence. }
  case_decide; [intros [= <- <-]; by apply pick_fresh|]. case_decide; [done|]. destruct grow; [|done]. simpl.
  intros [= <- <-]. apply pick_grown; [done|done|lia|lia].
Qed.

(** A refusal: the table is as it was, and if not for memory it is full. *)
Lemma pick_slot_fails t free n grow c t' idx :
  table_ok t free None n -> pick_slot t grow = (c, t', idx) -> c <> XTC_OK ->
  t' = t /\ (c = XTC_E_NOMEM /\ grow = false \/ c = XTC_E_RESOURCE /\ free = [] /\ Z.of_nat (pt_hw t) = XTC_PROC_MAX_LOCAL_ID).
Proof.
  intros Hok. unfold pick_slot. destruct (pt_free_head t) as [i|] eqn:Eh; [intros [= <- <- <-]; done|].
  assert (free = []) as ->.
  { destruct free as [|i free]; [done|]. destruct Hok as [[H _] _ _ _ _ _ _ _ _]. congruence. }
  pose proof (to_max _ _ _ _ Hok) as Hm. pose proof (to_hw _ _ _ _ Hok) as Hh. unfold pt_cap in *.
  case_decide; [intros [= <- <- <-]; done|]. case_decide.
  - intros [= <- <- <-] _. split; [done|]. right. split_and!; auto. lia.
  - destruct grow; [intros [= <- <- <-]; done|]. intros [= <- <- <-] _. auto.
Qed.

(** An allocation: the new pid is fresh, and means the process. *)
Lemma alloc_ok t free n m issued p grow t' i g :
  table_ok t free None n -> n + 1 < 2 ^ 64 -> means t m -> issued_ok t issued ->
  __table_alloc_slot t p grow = (XTC_OK, t', (i, g)) ->
  (exists free', table_ok t' free' None (n + 1)) /\ m !! (i, g) = None /\ means t' (<[(i, g) := p]> m) /\ issued_ok t' ((i, g) :: issued).
Proof.
  intros Hok Hn [Hm Hsz] [Hnd Hiss] Ha. unfold __table_alloc_slot in Ha.
  destruct (pick_slot t grow) as [[c t1] idx] eqn:Epick. destruct c; try done. injection Ha as <- <- <-.
  destruct (pick_slot_ok _ _ _ _ _ _ Hok Epick) as [(free1 & Hok1 & Hidx) (s & Hs & Hp) Hlt Hused Hkeep Hlook].
  unfold slot_at. rewrite Hs. simpl. destruct Hok1 as [H1 H2 H3 H4 H5 H6 H7 H8 H9]. pose proof (H7 _ _ Hs) as Hg.
  rewrite (uwrap_small 64) by lia. set (s' := mk_slot _ _ _). pose proof (lookup_lt_Some _ _ _ Hs) as Hlen.
  assert (m !! (idx, sl_gen s + 1) = None) as Hnone.
  { rewrite <-Hm, <-Hlook. unfold __table_lookup. rewrite Hs. rewrite decide_False by lia. done. }
  assert (forall j s0, pt_slots t1 !! j = Some s0 -> exists s1, <[idx := s']> (pt_slots t1) !! j = Some s1 /\ sl_gen s0 <= sl_gen s1) as Hup.
  { intros j s0 Hj. destruct (decide (idx = j)) as [<-|Hne].
    - exists s'. rewrite list_lookup_insert_eq by done. split; [done|]. simpl. rewrite Hj in Hs. injection Hs as ->. lia.
    - exists s0. rewrite list_lookup_insert_ne by done. split; [done|lia]. }
  split_and!; [|done| |].
  - exists free1. constructor; simpl; auto.
    + by apply chain_insert.
    + by rewrite length_insert.
    + intros j s0. rewrite list_lookup_insert. case_decide as D; [intros [= <-]; done|]. intros Hj Hjl Hjp _.
      apply (H5 j s0); auto. intros [= ->]. apply D. split; [done|]. by eapply lookup_lt_Some.
    + intros j s0. rewrite list_lookup_insert. case_decide as D; [destruct D as [<- _]; lia|]. apply H6.
    + intros j s0. rewrite list_lookup_insert. case_decide as D; [intros [= <-]; simpl; lia|]. intros Hj. specialize (H7 _ _ Hj). lia.
    + unfold pt_cap in *. simpl. by rewrite length_insert.
    + lia.
  - constructor; simpl.
    + intros j h. unfold __table_lookup. simpl. destruct (decide (idx = j)) as [<-|Hne].
      * rewrite list_lookup_insert_eq by done. simpl. case_decide as D.
        -- simpl in D. subst h. by rewrite lookup_insert_eq.
        -- rewrite lookup_insert_ne by (intros [= E]; by apply D). rewrite <-Hm, <-Hlook. unfold __table_lookup. rewrite Hs, Hp. by case_decide.
      * rewrite list_lookup_insert_ne by done. rewrite lookup_insert_ne by congruence. rewrite <-Hm, <-Hlook. done.
    + rewrite map_size_insert_None by done. lia.
  - split.
    + apply NoDup_cons. split; [|done]. intros Hin. rewrite Forall_forall in Hiss. destruct (Hiss _ Hin) as (s0 & Hs0 & Hle).
      apply Hkeep in Hs0. rewrite Hs in Hs0. injection Hs0 as <-. lia.
    + constructor; simpl.
      * exists s'. rewrite list_lookup_insert_eq by done. split; [done|]. simpl. lia.
      * eapply Forall_impl; [exact Hiss|]. intros [j h] (s0 & Hs0 & Hle). apply Hkeep, Hup in Hs0 as (s1 & ? & ?).
        exists s1. split; [done|lia].
Qed.

Lemma ptab_release_ok t free n m issued i g p :
  table_ok t free None n -> means t m -> issued_ok t issued -> m !! (i, g) = Some p ->
  (exists free', table_ok (__table_release t i) free' None n) /\ means (__table_release t i) (delete (i, g) m) /\
  issued_ok (__table_release t i) issued.
Proof.
  intros [H1 H2 H3 H4 H5 H6 H7 H8 H9] [Hm Hsz] [Hnd Hiss] Hi. pose proof Hi as Hl. rewrite <-Hm in Hl. unfold __table_lookup in Hl.
  destruct (pt_slots t !! i) as [s|] eqn:Hs; [|done]. case_decide as Hg; [|done]. pose proof (lookup_lt_Some _ _ _ Hs) as Hlen.
  assert (i < pt_hw t)%nat as Hlt.
  { destruct (decide (i < pt_hw t)%nat); [done|]. destruct (H6 i s Hs) as [? _]; [lia|congruence]. }
  assert (i ∉ free) as Hfree.
  { clear -H1 Hs Hl. revert H1. generalize (pt_free_head t) as h. induction free as [|j free IH]; intros h; [by intros _ ?%elem_of_nil|].
    intros [-> (s0 & Hs0 & Hp0 & Hc)] [->|Hin]%elem_of_cons; [congruence|by eapply IH]. }
  unfold __table_release, slot_at. rewrite Hs. simpl. rewrite Hl. unfold __table_vacate_locked, slot_at. rewrite Hs. simpl.
  set (s' := mk_slot None (sl_gen s) (pt_free_head t)). split_and!.
  - exists (i :: free). constructor; simpl; auto.
    + split; [done|]. exists s'. rewrite list_lookup_insert_eq by done. split_and!; auto. by apply chain_insert.
    + by apply NoDup_cons.
    + by rewrite length_insert.
    + intros j s0. rewrite list_lookup_insert. case_decide as D; [destruct D as [-> _]; intros; apply list_elem_of_here|]. intros. apply list_elem_of_further. by eapply H5.
    + intros j s0. rewrite list_lookup_insert. case_decide as D; [destruct D; lia|apply H6].
    + intros j s0. rewrite list_lookup_insert. case_decide as D; [intros [= <-]; exact (H7 i s Hs)|apply H7].
    + unfold pt_cap in *. simpl. by rewrite length_insert.
  - constructor; simpl.
    + intros j h. unfold __table_lookup. simpl. destruct (decide (i = j)) as [<-|Hne].
      * rewrite list_lookup_insert_eq by done. simpl. destruct (decide (g = h)) as [<-|Hgh].
        -- rewrite lookup_delete_eq. by case_decide.
        -- rewrite lookup_delete_ne by congruence. rewrite <-Hm. unfold __table_lookup. rewrite Hs. case_decide; [congruence|]. by repeat case_decide.
      * rewrite list_lookup_insert_ne, lookup_delete_ne by congruence. rewrite <-Hm. done.
    + rewrite map_size_delete_Some by eauto. assert (size m <> 0%nat) by (intros ?%map_size_empty_inv; subst; by rewrite lookup_empty in Hi).
      lia.
  - split; [done|]. eapply Forall_impl; [exact Hiss|]. intros [j h] (s0 & Hs0 & Hle). simpl.
    destruct (decide (i = j)) as [<-|Hne].
    + exists s'. rewrite list_lookup_insert_eq by done. split; [done|]. simpl. congruence.
    + exists s0. by rewrite list_lookup_insert_ne.
Qed.

(** ** Runs *)

(** A spawn of [p], or the exit of the process with the pid [(i, g)]. *)
Inductive table_op : Type :=
  | OSpawn (p : Z) (grow : bool)
  | OExit (i : nat) (g : Z).

(** The table, the processes by pid, and every pid handed out. *)
Definition table_run1 (x : xtc_proc_table * pid_map * list (nat * Z)) (o : table_op) : xtc_proc_table * pid_map * list (nat * Z) :=
  let '(t, m, issued) := x in
  match o with
  | OSpawn p grow =>
      match __table_alloc_slot t p grow with
      | (XTC_OK, t', id) => (t', <[id := p]> m, id :: issued)
      | (_, t', _) => (t', m, issued)
      end
  | OExit i g => match m !! (i, g) with Some _ => (__table_release t i, delete (i, g) m, issued) | None => (t, m, issued) end
  end.

Definition table_run (ops : list table_op) : xtc_proc_table * pid_map * list (nat * Z) :=
  fold_left table_run1 ops (table0, ∅, []).

Lemma table0_ok : table_ok table0 [] None 0.
Proof. constructor; simpl; try done; try (by intros i s; rewrite lookup_nil); constructor. Qed.

Lemma alloc_fails t free n p grow c t' id :
  table_ok t free None n -> __table_alloc_slot t p grow = (c, t', id) -> c <> XTC_OK ->
  t' = t /\ (c = XTC_E_NOMEM /\ grow = false \/ c = XTC_E_RESOURCE /\ free = [] /\ Z.of_nat (pt_hw t) = XTC_PROC_MAX_LOCAL_ID).
Proof.
  intros Hok. unfold __table_alloc_slot. destruct (pick_slot t grow) as [[c1 t1] idx] eqn:Ep.
  destruct (decide (c1 = XTC_OK)) as [->|Hne]; [intros [= <- <- <-]; done|].
  destruct (pick_slot_fails _ _ _ _ _ _ _ Hok Ep Hne) as [-> H]. intros E _.
  assert (c = c1 /\ t' = t) as [-> ->] by (destruct c1; by simplify_eq). auto.
Qed.

Lemma table_run_ok ops n :
  Z.of_nat (length ops) <= n -> n < 2 ^ 64 ->
  let '(t, m, issued) := table_run ops in
  (exists free k, table_ok t free None k /\ k <= Z.of_nat (length ops)) /\ means t m /\ issued_ok t issued.
Proof.
  intros Hl Hn. unfold table_run. induction ops as [|o ops IH] using rev_ind.
  { simpl. split; [exists [], 0; split; [apply table0_ok|lia]|]. split; [by constructor|]. split; constructor. }
  rewrite fold_left_app. rewrite length_app in *. simpl in Hl |- *.
  destruct (fold_left table_run1 ops (table0, ∅, [])) as [[t m] issued]. destruct IH as ((free & k & Hok & Hk) & Hm & Hi); [lia|].
  destruct o as [p grow|i g]; simpl.
  - destruct (__table_alloc_slot t p grow) as [[c t'] [i g]] eqn:Ea. destruct (decide (c = XTC_OK)) as [->|Hc].
    + destruct (alloc_ok t free k m issued p grow t' i g Hok ltac:(lia) Hm Hi Ea) as ((free' & Hok') & _ & Hm' & Hi').
      split; [|done]. exists free', (k + 1). split; [done|lia].
    + destruct (alloc_fails _ _ _ _ _ _ _ _ Hok Ea Hc) as [-> _].
      assert (match c with XTC_OK => (t, <[(i, g):=p]> m, (i, g) :: issued) | _ => (t, m, issued) end = (t, m, issued)) as ->
        by (by destruct c). split; [|done]. exists free, k. split; [done|lia].
  - destruct (m !! (i, g)) as [p|] eqn:Em; [|split; [|done]; exists free, k; split; [done|lia]].
    destruct (ptab_release_ok t free k m issued i g p Hok Hm Hi Em) as ((free' & Hok') & Hm' & Hi').
    split; [|done]. exists free', k. split; [done|lia].
Qed.

(** ** What a pid promises *)

(** C31: the process table is a map from pids to processes.  After any sequence
    of spawns (memory refused or not) and exits, short of 2^64 of them: a
    lookup of any slot and generation gives exactly the process that was
    spawned under this pid and has not exited, the count is their number,
    and no pid was ever handed out twice, so a stale pid finds nothing. *)
Theorem ptab_refines_map ops :
  Z.of_nat (length ops) < 2 ^ 64 ->
  let '(t, m, issued) := table_run ops in
  (forall i g, __table_lookup t i g = m !! (i, g)) /\ pt_n_used t = Z.of_nat (size m) /\ NoDup issued.
Proof.
  intros Hn. pose proof (table_run_ok ops (Z.of_nat (length ops)) ltac:(lia) Hn) as H.
  destruct (table_run ops) as [[t m] issued]. destruct H as (_ & [H1 H2] & [H3 _]). done.
Qed.

Lemma ptab_refines_map_witness :
  let ops := [OSpawn 7 true; OSpawn 8 true; OExit 0 1; OSpawn 9 true] in
  let '(t, m, issued) := table_run ops in
  (__table_lookup t 0 1, __table_lookup t 0 2) = (m !! (0%nat, 1), m !! (0%nat, 2)) /\ m !! (0%nat, 2) = Some 9 /\ m !! (0%nat, 1) = None.
Proof.
  pose proof (ptab_refines_map [OSpawn 7 true; OSpawn 8 true; OExit 0 1; OSpawn 9 true] eq_refl) as H.
  split; [|split; vm_compute; reflexivity]. apply pair_equal_spec. split; [exact (proj1 H 0%nat 1)|exact (proj1 H 0%nat 2)].
Defined.

(** C38: no slot is leaked.  A spawn is refused, and then changes nothing, only
    for want of memory for a larger table or when each of the 2^32 - 1 slots
    holds a process. *)
Theorem ptab_no_slot_leaked ops p grow c t' id :
  Z.of_nat (length ops) < 2 ^ 64 ->
  let '(t, m, issued) := table_run ops in
  __table_alloc_slot t p grow = (c, t', id) -> c <> XTC_OK ->
  t' = t /\ (c = XTC_E_NOMEM /\ grow = false \/
             c = XTC_E_RESOURCE /\ forall i, Z.of_nat i < XTC_PROC_MAX_LOCAL_ID -> exists g q, m !! (i, g) = Some q).
Proof.
  intros Hn. pose proof (table_run_ok ops (Z.of_nat (length ops)) ltac:(lia) Hn) as H.
  destruct (table_run ops) as [[t m] issued]. destruct H as ((free & k & Hok & _) & [Hm _] & _). intros Ea Hc.
  destruct (alloc_fails _ _ _ _ _ _ _ _ Hok Ea Hc) as [-> [[-> ->]|(-> & -> & Hfull)]]; [by auto|].
  split; [done|]. right. split; [done|]. intros i Hi.
  destruct (lookup_lt_is_Some_2 (pt_slots t) i) as [s Hs]; [pose proof (to_hw _ _ _ _ Hok); lia|].
  destruct (sl_proc s) as [q|] eqn:Hp.
  - exists (sl_gen s), q. rewrite <-Hm. unfold __table_lookup. rewrite Hs. by rewrite decide_True.
  - exfalso. assert (i ∈ []) as Hin by (eapply (to_free _ _ _ _ Hok); [exact Hs|lia|done|done]). by apply elem_of_nil in Hin.
Qed.

Lemma ptab_no_slot_leaked_witness :
  let '(t, m, issued) := table_run [] in
  __table_alloc_slot t 7 false = (XTC_E_NOMEM, t, (0%nat, 0)) /\
  (t = t /\ (XTC_E_NOMEM = XTC_E_NOMEM /\ false = false \/
             XTC_E_NOMEM = XTC_E_RESOURCE /\ forall i, Z.of_nat i < XTC_PROC_MAX_LOCAL_ID -> exists g q, m !! (i, g) = Some q)).
Proof.
  pose proof (ptab_no_slot_leaked [] 7 false XTC_E_NOMEM table0 (0%nat, 0) eq_refl) as H.
  split; [reflexivity|]. apply H; [reflexivity|discriminate].
Defined.
