(* ===== verification/Sup.v ===== *)
(** * Supervisors (src/orc/sup.c, src/inc/xtc_orc.h)

    A supervisor is a process that spawns and monitors children and restarts
    them by a strategy.  [supervisor] is its record; every function of sup.c
    that runs in the supervisor's process is a computation over it and over
    [world], the part of the process layer it uses: the process table, the
    clock and its mailbox.  What the rest of the system does meanwhile is a
    script of ticks, one per call into the process layer: processes leave the
    table, time passes, a stop is requested, memory or a spawn is refused, a
    message arrives, the supervisor is killed.  The theorems hold for every
    script. *)

From Stdlib Require Import Sorted.
From S2P Require Import Prelude Effects.

Local Open Scope Z_scope.
Local Open Scope effect_scope.

(** ** Data *)

Inductive xtc_restart_strategy : Type :=
  | XTC_SUP_ONE_FOR_ONE | XTC_SUP_ONE_FOR_ALL | XTC_SUP_REST_FOR_ONE | XTC_SUP_SIMPLE_OFO.

Inductive xtc_restart_policy : Type :=
  | XTC_RESTART_PERMANENT | XTC_RESTART_TRANSIENT | XTC_RESTART_TEMPORARY.

(** [cs_body]: the name, function, argument and mailbox bound, handed on. *)
Record xtc_child_spec : Type := mk_spec {
  cs_body : Z;
  cs_policy : xtc_restart_policy;
  cs_loop : Z;
}.

(** [so_exec]: the number of loops of the executor, if there is one. *)
Record xtc_sup_opts : Type := mk_opts {
  so_strategy : xtc_restart_strategy;
  so_max_restarts : Z;
  so_period_ns : Z;
  so_exec : option Z;
  so_max_children : Z;
}.

Definition XTC_SUP_OPTS_DEFAULT : xtc_sup_opts := mk_opts XTC_SUP_ONE_FOR_ONE 3 5000000000 None 0.

(** Pids; [None] is XTC_PID_NONE. *)
Definition pid : Type := option Z.

(** [c_past]: the pids of the slot's earlier incarnations (not in the code). *)
Record child : Type := mk_child {
  c_spec : xtc_child_spec;
  c_pid : pid;
  c_monitor_ref : Z;
  c_alive : bool;
  c_dynamic : bool;
  c_past : list pid;
}.

Record supervisor : Type := mk_sup {
  s_opts : xtc_sup_opts;
  s_children : list child;
  s_recent_restarts : list Z;
  s_rr_cap : Z;
  s_n_restarts_total : Z;
  s_n_alive : Z;
  s_alive : bool;
  s_stop_requested : bool;
  s_abandon_wait : bool;
  s_restart_old : option (list pid);
}.

(** Messages of the supervisor's mailbox; anything else is [MOther]. *)
Inductive sup_msg : Type :=
  | MDown (p : Z) (reason : Z)
  | MAddChild (reply : Z) (tag : Z) (spec : xtc_child_spec)
  | MOther.

Inductive recv_result : Type :=
  | RMsg (m : sup_msg)
  | RAgain
  | RError.

(** What happens before a call into the process layer takes effect. *)
Record tick : Type := mk_tick {
  t_leave : list (Z * Z);
  t_dt : N;
  t_stop : bool;
  t_abandon : bool;
  t_kill : bool;
  t_alloc : bool;
  t_spawn : rc;
  t_recv : recv_result;
}.

(** Nothing happens. *)
Definition quiet : tick := mk_tick [] 0 false false false true XTC_OK RAgain.

(** What the supervisor did; a spawn with the slot's earlier pids and the table
    it found. *)
Inductive act : Type :=
  | ASpawn (loop p : Z) (past : list pid) (table : gset (Z * Z))
  | AKill (loop : Z) (p : pid)
  | AReply (reply tag ok : Z) (p : pid)
  | AStopped
  | AExecStop.

Record world : Type := mk_world {
  w_table : gset (Z * Z);
  w_next : Z;
  w_clock : Z;
  w_masked : bool;
  w_script : list tick;
  w_log : list act;
}.

Definition st : Type := supervisor * world.

(** ** Fields *)

Definition with_children (s : supervisor) (l : list child) : supervisor :=
  mk_sup (s_opts s) l (s_recent_restarts s) (s_rr_cap s) (s_n_restarts_total s) (s_n_alive s) (s_alive s)
    (s_stop_requested s) (s_abandon_wait s) (s_restart_old s).
Definition with_n_alive (s : supervisor) (n : Z) : supervisor :=
  mk_sup (s_opts s) (s_children s) (s_recent_restarts s) (s_rr_cap s) (s_n_restarts_total s) n (s_alive s)
    (s_stop_requested s) (s_abandon_wait s) (s_restart_old s).
Definition with_alive (s : supervisor) (b : bool) : supervisor :=
  mk_sup (s_opts s) (s_children s) (s_recent_restarts s) (s_rr_cap s) (s_n_restarts_total s) (s_n_alive s) b
    (s_stop_requested s) (s_abandon_wait s) (s_restart_old s).
Definition with_flags (s : supervisor) (stop abandon : bool) : supervisor :=
  mk_sup (s_opts s) (s_children s) (s_recent_restarts s) (s_rr_cap s) (s_n_restarts_total s) (s_n_alive s) (s_alive s)
    stop abandon (s_restart_old s).
Definition with_restarts (s : supervisor) (recent : list Z) (total : Z) : supervisor :=
  mk_sup (s_opts s) (s_children s) recent (s_rr_cap s) total (s_n_alive s) (s_alive s)
    (s_stop_requested s) (s_abandon_wait s) (s_restart_old s).
Definition with_restart_old (s : supervisor) (old : option (list pid)) : supervisor :=
  mk_sup (s_opts s) (s_children s) (s_recent_restarts s) (s_rr_cap s) (s_n_restarts_total s) (s_n_alive s) (s_alive s)
    (s_stop_requested s) (s_abandon_wait s) old.

Definition sup : M st supervisor := gets fst.
Definition on_sup (f : supervisor -> supervisor) : M st unit := modify (fun x => (f x.1, x.2)).
Definition on_world (f : world -> world) : M st unit := modify (fun x => (x.1, f x.2)).

(** ** The process layer *)

Definition next_tick (w : world) : tick := default quiet (head (w_script w)).

(** The next tick happens: table and clock change, other threads set flags. *)
Definition tick_world (w : world) : world :=
  let t := next_tick w in
  mk_world (w_table w ∖ list_to_set (t_leave t)) (w_next w) (w_clock w + Z.of_N (t_dt t)) (w_masked w)
    (tail (w_script w)) (w_log w).

Definition tick_sup (s : supervisor) (t : tick) : supervisor :=
  with_flags s (s_stop_requested s || t_stop t) (s_abandon_wait s || t_abandon t).

Definition step : M st tick :=
  fun x => (Some (next_tick x.2), (tick_sup x.1 (next_tick x.2), tick_world x.2)).

Definition log (a : act) : M st unit :=
  on_world (fun w => mk_world (w_table w) (w_next w) (w_clock w) (w_masked w) (w_script w) (w_log w ++ [a])).

(** A park: where a kill unwinds, unless the fiber is masked. *)
Definition park (t : tick) : M st unit :=
  let* m := gets (fun x => w_masked x.2) in
  if t_kill t && negb m then unwind else ret tt.

Definition __os_clock_mono : M st Z := step ;; gets (fun x => w_clock x.2).

Definition __os_calloc : M st bool := let* t := step in ret (t_alloc t).

(** The child is in the table before anyone can run; a pid is never used twice. *)
Definition xtc_proc_spawn_monitor (loop : Z) (past : list pid) : M st (rc * Z) :=
  let* t := step in
  if decide (t_spawn t = XTC_OK) then
    let* w := gets snd in
    log (ASpawn loop (w_next w) past (w_table w)) ;;
    on_world (fun w => mk_world ({[(loop, w_next w)]} ∪ w_table w) (w_next w + 1) (w_clock w) (w_masked w) (w_script w) (w_log w)) ;;
    ret (XTC_OK, w_next w)
  else ret (t_spawn t, 0).

Definition __xtc_proc_loop_contains (loop : Z) (p : pid) : M st bool :=
  step ;; gets (fun x => match p with Some p => bool_decide ((loop, p) ∈ w_table x.2) | None => false end).

Definition __xtc_exit_pid_on (loop : Z) (p : pid) : M st unit := step ;; log (AKill loop p).

Definition xtc_proc_sleep (ns : Z) : M st unit :=
  let* t := step in
  on_world (fun w => mk_world (w_table w) (w_next w) (w_clock w + ns) (w_masked w) (w_script w) (w_log w)) ;;
  park t.

(** A DOWN is sent after its process has left the table; messages that only
    look like one are not modelled. *)
Definition xtc_recv : M st recv_result :=
  let* t := step in
  park t ;;
  match t_recv t with
  | RMsg (MDown p r) =>
      on_world (fun w => mk_world (filter (fun lp => lp.2 <> p) (w_table w)) (w_next w) (w_clock w) (w_masked w)
                           (w_script w) (w_log w)) ;;
      ret (t_recv t)
  | r => ret r
  end.

(** ** The functions of sup.c *)

Definition XTC_DOWN_NOPROC : Z := -100000.

Definition __should_restart (c : child) (reason : Z) : bool :=
  match cs_policy (c_spec c) with
  | XTC_RESTART_PERMANENT => true
  | XTC_RESTART_TEMPORARY => false
  | XTC_RESTART_TRANSIENT => bool_decide (reason <> 0) && bool_decide (reason <> XTC_DOWN_NOPROC)
  end.

Definition __intensity_exceeded (s : supervisor) (now : Z) : bool :=
  let cutoff := now - so_period_ns (s_opts s) in
  bool_decide (so_max_restarts (s_opts s) < Z.of_nat (length (filter (fun t => cutoff < t) (s_recent_restarts s)))).

Definition __record_restart (s : supervisor) (now : Z) : supervisor :=
  with_restarts s
    (if decide (Z.of_nat (length (s_recent_restarts s)) < s_rr_cap s) then s_recent_restarts s ++ [now]
     else drop 1 (s_recent_restarts s) ++ [now])
    (i32 (s_n_restarts_total s + 1)).

Definition __child_loop (o : xtc_sup_opts) (spec : xtc_child_spec) : Z :=
  match so_exec o with
  | Some n => let idx := cs_loop spec in if decide (idx < 0 \/ n <= idx) then 0 else idx
  | None => 0
  end.

Definition set_alive (c : child) (v : bool) : child :=
  mk_child (c_spec c) (c_pid c) (c_monitor_ref c) v (c_dynamic c) (c_past c).

(** [__child_alive] on a child that is about to be stored. *)
Definition __child_alive (c : child) (v : bool) : M st child :=
  if decide (c_alive c = v) then ret c
  else
    on_sup (fun s => with_n_alive s (s_n_alive s + (if v then 1 else -1))) ;;
    ret (set_alive c v).

Definition __spawn_child (c : child) : M st (rc * child) :=
  let* s := sup in
  let* (r, p) := xtc_proc_spawn_monitor (__child_loop (s_opts s) (c_spec c)) (c_pid c :: c_past c) in
  if decide (r = XTC_OK) then
    let* c := __child_alive (mk_child (c_spec c) (Some p) p (c_alive c) (c_dynamic c) (c_pid c :: c_past c)) true in
    ret (XTC_OK, c)
  else ret (r, c).

(** The child in slot [i] of the table; a slot's new contents. *)
Definition no_child : child := mk_child (mk_spec 0 XTC_RESTART_TEMPORARY 0) None 0 false false [].
Definition child_at (i : nat) : M st child := let* s := sup in ret (default no_child (s_children s !! i)).
Definition put_child (i : nat) (c : child) : M st unit := on_sup (fun s => with_children s (<[i := c]> (s_children s))).

Definition spawn_at (i : nat) : M st rc :=
  let* c := child_at i in
  let* (r, c) := __spawn_child c in
  put_child i c ;;
  ret r.

Definition alive_at (i : nat) (v : bool) : M st unit :=
  let* c := child_at i in
  let* c := __child_alive c v in
  put_child i c.

Definition n_children : M st nat := let* s := sup in ret (length (s_children s)).
Definition request_stop : M st unit := on_sup (fun s => with_flags s true (s_abandon_wait s)).

Definition live_count (l : list child) : Z := Z.of_nat (length (filter (fun c => c_alive c = true) l)).

Definition __handle_add_child (reply tag : Z) (spec : xtc_child_spec) : M st unit :=
  let* s := sup in
  if bool_decide (0 < so_max_children (s_opts s)) && bool_decide (so_max_children (s_opts s) <= live_count (s_children s)) then
    log (AReply reply tag 2 None)
  else
    let* ok := __os_calloc in
    if negb ok then log (AReply reply tag 0 None)
    else
      let* (r, c) := __spawn_child (mk_child spec None 0 false true []) in
      if decide (r = XTC_OK) then
        on_sup (fun s => with_children s (s_children s ++ [c])) ;;
        log (AReply reply tag 1 (c_pid c))
      else log (AReply reply tag 0 None).

Definition XTC_SUP_CLEANUP_WAIT_NS : Z := 5 * 1000 * 1000 * 1000.
Definition poll_ns : Z := 1000 * 1000.

(** Slot [i] of a snapshot of pids. *)
Definition old_at (old : list pid) (i : nat) : pid := default None (old !! i).

(** How many of the children in the slots [idxs] are still in the table. *)
Fixpoint count_pending (idxs : list nat) (old : list pid) : M st nat :=
  match idxs with
  | [] => ret 0%nat
  | i :: idxs =>
      let* s := sup in
      let* c := child_at i in
      let* here := __xtc_proc_loop_contains (__child_loop (s_opts s) (c_spec c)) (old_at old i) in
      let* n := count_pending idxs old in
      ret (if here then S n else n)
  end.

(** One turn per poll; [wait_fuel] turns are enough. *)
Fixpoint wait_loop (fuel : nat) (start : Z) (idxs : list nat) (old : list pid) : M st bool :=
  match fuel with
  | O => ret false
  | S fuel =>
      step ;;
      let* s := sup in
      if s_abandon_wait s then ret false
      else
        let* pending := count_pending idxs old in
        if decide (pending = 0%nat) then ret true
        else
          let* now := __os_clock_mono in
          if decide (XTC_SUP_CLEANUP_WAIT_NS <= now - start) then ret false
          else
            xtc_proc_sleep poll_ns ;;
            wait_loop fuel start idxs old
  end.

Definition wait_fuel : nat := Z.to_nat (XTC_SUP_CLEANUP_WAIT_NS / poll_ns + 2).

Definition __wait_children_gone (lo hi : nat) (old : list pid) : M st bool :=
  let* start := __os_clock_mono in
  wait_loop wait_fuel start (seq lo (hi - lo)) old.

Definition __wait_children_gone_owned (lo hi : nat) (old : list pid) : M st bool :=
  on_sup (fun s => with_restart_old s (Some old)) ;;
  let* gone := __wait_children_gone lo hi old in
  on_sup (fun s => with_restart_old s None) ;;
  ret gone.

Definition __kill_sibling (i : nat) : M st unit :=
  let* s := sup in
  let* c := child_at i in
  if negb (c_alive c) then ret tt else __xtc_exit_pid_on (__child_loop (s_opts s) (c_spec c)) (c_pid c).

(** The spawn loop of a start and of a group restart; false: a spawn failed. *)
Fixpoint spawn_all (idxs : list nat) : M st bool :=
  match idxs with
  | [] => ret true
  | i :: idxs =>
      let* r := spawn_at i in
      if decide (r = XTC_OK) then spawn_all idxs else ret false
  end.

Definition respawn (idxs : list nat) : M st unit :=
  let* ok := spawn_all idxs in
  if ok then ret tt else request_stop.

(** [calloc] zeroes: the slots outside the group are XTC_PID_NONE. *)
Definition old_pids (l : list child) (lo : nat) : list pid :=
  imap (fun i c => if decide (lo <= i)%nat then c_pid c else None) l.

Definition alloc_old (n : nat) : M st bool := if decide (n = 0%nat) then ret true else __os_calloc.

Definition __do_one_for_all (dead_idx : nat) : M st unit :=
  let* n := n_children in
  let* ok := alloc_old n in
  if negb ok then request_stop
  else
    let* s := sup in
    let old := old_pids (s_children s) 0 in
    each (seq 0 n) __kill_sibling ;;
    each (seq 0 n) (fun i => alive_at i false) ;;
    let* gone := __wait_children_gone_owned 0 n old in
    if negb gone then request_stop else respawn (seq 0 n).

Definition __do_rest_for_one (dead_idx : nat) : M st unit :=
  let* n := n_children in
  let* ok := alloc_old n in
  if negb ok then request_stop
  else
    let* s := sup in
    let old := old_pids (s_children s) dead_idx in
    each (rev (seq (S dead_idx) (n - S dead_idx))) __kill_sibling ;;
    each (seq dead_idx (n - dead_idx)) (fun i => alive_at i false) ;;
    let* gone := __wait_children_gone_owned dead_idx n old in
    if negb gone then request_stop else respawn (seq dead_idx (n - dead_idx)).

Fixpoint find_from (i : nat) (l : list child) (p : Z) : option nat :=
  match l with
  | [] => None
  | c :: l => if c_alive c && bool_decide (c_pid c = Some p) then Some i else find_from (S i) l p
  end.

Definition __find_child_by_pid (s : supervisor) (p : Z) : option nat := find_from 0 (s_children s) p.

(** The shutdown hook: children that are alive, and those that an interrupted
    group restart has killed, are waited for. *)
Definition shutdown_pid (rold : option (list pid)) (k : nat) (c : child) : pid :=
  if c_alive c then c_pid c else match rold with Some r => old_at r k | None => None end.

Definition __sup_exited : M st unit :=
  on_world (fun w => mk_world (w_table w) (w_next w) (w_clock w) true (w_script w) (w_log w)) ;;
  let* s := sup in
  let rold := s_restart_old s in
  on_sup (fun s => with_restart_old s None) ;;
  let n := length (s_children s) in
  let* have_old := if decide (n = 0%nat) then ret false else __os_calloc in
  let old := imap (shutdown_pid rold) (s_children s) in
  each (seq 0 n) (fun k => __kill_sibling k ;; alive_at k false) ;;
  (if have_old then __wait_children_gone 0 n old ;; ret tt else ret tt) ;;
  on_sup (fun s => with_alive s false) ;;
  log AStopped ;;
  match so_exec (s_opts s) with Some _ => log AExecStop | None => ret tt end.

(** A DOWN; false: leave the loop. *)
Definition handle_down (p reason : Z) : M st bool :=
  let* s := sup in
  match __find_child_by_pid s p with
  | None => ret true
  | Some idx =>
      alive_at idx false ;;
      step ;;
      let* s := sup in
      if s_stop_requested s then ret false
      else
        let* c := child_at idx in
        if negb (__should_restart c reason) then
          (if c_dynamic c then on_sup (fun s => with_children s (delete idx (s_children s))) else ret tt) ;;
          ret true
        else
          let* now := __os_clock_mono in
          on_sup (fun s => __record_restart s now) ;;
          let* s := sup in
          if __intensity_exceeded s now then ret false
          else
            (match so_strategy (s_opts s) with
             | XTC_SUP_ONE_FOR_ONE | XTC_SUP_SIMPLE_OFO => spawn_at idx ;; ret tt
             | XTC_SUP_ONE_FOR_ALL => __do_one_for_all idx
             | XTC_SUP_REST_FOR_ONE => __do_rest_for_one idx
             end) ;;
            ret true
  end.

(** One turn of the receive loop; false: leave it. *)
Definition sup_turn : M st bool :=
  step ;;
  let* s := sup in
  if s_stop_requested s then ret false
  else
    let* r := xtc_recv in
    match r with
    | RAgain => ret true
    | RError => ret false
    | RMsg MOther => ret true
    | RMsg (MAddChild reply tag spec) => __handle_add_child reply tag spec ;; ret true
    | RMsg (MDown p reason) => handle_down p reason
    end.

(** The first [n] turns; true: the loop is still running. *)
Fixpoint sup_loop (n : nat) : M st bool :=
  match n with
  | O => ret true
  | S n => let* more := sup_turn in if more then sup_loop n else ret false
  end.

Definition sup_body (n : nat) : M st bool :=
  let* k := n_children in
  let* ok := spawn_all (seq 0 k) in
  if ok then sup_loop n else ret false.

(** [__sup_entry], as far as [n] turns of its loop go.  The hook runs when the
    process ends, by a return or a kill; if it could not be installed it is
    called after a return only. *)
Definition __sup_entry (hooked : bool) (n : nat) : M st unit :=
  fun x =>
    match sup_body n x with
    | (Some true, x') => (Some tt, x')
    | (Some false, x') => __sup_exited x'
    | (None, x') => if hooked then __sup_exited x' else (None, x')
    end.

(** ** How the process layer changes under the supervisor *)

(** Time passes, pids are used up, and what appears in the table is new. *)
Record later (w w' : world) : Prop := mk_later {
  la_next : w_next w <= w_next w';
  la_clock : w_clock w <= w_clock w';
  la_table : forall l p, (l, p) ∈ w_table w' -> (l, p) ∈ w_table w \/ w_next w <= p;
  la_log : w_log w `prefix_of` w_log w';
  la_masked : w_masked w = true -> w_masked w' = true;
}.

#[export] Instance later_refl : Reflexive later.
Proof. intros w. constructor; auto; lia. Qed.

#[export] Instance later_trans : Transitive later.
Proof.
  intros w1 w2 w3 [] []. constructor; [lia|lia| |by etrans|auto].
  intros l p H. destruct (la_table1 _ _ H) as [H'|H']; [|right; lia]. destruct (la_table0 _ _ H'); auto.
Qed.

(** Gone for good: out of the table, and its pid is used up. *)
Definition absent (l : Z) (p : pid) (w : world) : Prop :=
  match p with Some q => q < w_next w /\ (l, q) ∉ w_table w | None => True end.

Lemma absent_later l p w w' : later w w' -> absent l p w -> absent l p w'.
Proof.
  intros [] . destruct p as [q|]; [|done]. intros [H1 H2]. split; [lia|]. intros H.
  destruct (la_table0 _ _ H); [done|lia].
Qed.

Lemma later_tick w : later w (tick_world w).
Proof. constructor; simpl; auto; try lia. set_solver. Qed.

Lemma later_log w a : later w (mk_world (w_table w) (w_next w) (w_clock w) (w_masked w) (w_script w) (w_log w ++ [a])).
Proof. constructor; simpl; auto; try lia. by apply prefix_app_r. Qed.

Create HintDb sup.

(** ** The invariant *)

(** What a slot is: its spec, its pid and its earlier pids. *)
Definition ident : Type := xtc_child_spec * pid * list pid.
Definition ident_of (c : child) : ident := (c_spec c, c_pid c, c_past c).
Definition idents (x : st) : list ident := ident_of <$> s_children x.1.

(** Pids are used up and belong to one slot; earlier incarnations are gone. *)
Record ids_ok (o : xtc_sup_opts) (ids : list ident) (w : world) : Prop := mk_ids_ok {
  id_used : forall i sp q past, ids !! i = Some (sp, Some q, past) -> q < w_next w;
  id_unique : forall i j sp sp' q past past',
    ids !! i = Some (sp, Some q, past) -> ids !! j = Some (sp', Some q, past') -> i = j;
  id_past : forall i sp p past q, ids !! i = Some (sp, p, past) -> q ∈ past -> absent (__child_loop o sp) q w;
}.

(** No spawn found an earlier incarnation of its slot in the table. *)
Definition log_ok (w : world) : Prop :=
  forall l p past table q, ASpawn l p past table ∈ w_log w -> Some q ∈ past -> (l, q) ∉ table.

Record sup_ok (x : st) : Prop := mk_sup_ok {
  ok_count : s_n_alive x.1 = live_count (s_children x.1);
  ok_live : forall i c, s_children x.1 !! i = Some c -> c_alive c = true -> is_Some (c_pid c);
  ok_ids : ids_ok (s_opts x.1) (idents x) x.2;
  ok_log : log_ok x.2;
}.

(** The slots are as they were, up to the alive flags. *)
Definition framed (o : xtc_sup_opts) (ids : list ident) (x : st) : Prop := s_opts x.1 = o /\ idents x = ids.

Lemma ids_ok_later o ids w w' : later w w' -> ids_ok o ids w -> ids_ok o ids w'.
Proof.
  intros Hl [H1 H2 H3]. constructor; [|done|].
  - intros i sp q past Hi. pose proof (la_next _ _ Hl). specialize (H1 _ _ _ _ Hi). lia.
  - intros. eapply absent_later; eauto.
Qed.

(** The same table of children, later. *)
Lemma sup_ok_quiet x x' :
  s_n_alive x'.1 = s_n_alive x.1 -> s_children x'.1 = s_children x.1 -> s_opts x'.1 = s_opts x.1 ->
  later x.2 x'.2 -> log_ok x'.2 -> sup_ok x -> sup_ok x'.
Proof.
  intros En Ec Eo Hl Hlog [H1 H2 H3 H4]. constructor; [by rewrite En, Ec|by rewrite Ec| |done].
  unfold idents. rewrite Ec, Eo. by eapply ids_ok_later.
Qed.

Lemma live_count_insert l i c c' :
  l !! i = Some c ->
  live_count (<[i := c']> l) = live_count l - (if c_alive c then 1 else 0) + (if c_alive c' then 1 else 0).
Proof.
  intros Hi. unfold live_count. rewrite (insert_take_drop l i c') by (by eapply lookup_lt_Some).
  rewrite <-(take_drop_middle l i c Hi) at 3. rewrite !filter_app, !filter_cons, !length_app.
  destruct (c_alive c), (c_alive c'); repeat (case_decide; try congruence); simpl; lia.
Qed.

Lemma live_count_app l c : live_count (l ++ [c]) = live_count l + (if c_alive c then 1 else 0).
Proof. unfold live_count. rewrite filter_app, filter_cons, length_app. destruct (c_alive c); case_decide; try congruence; simpl; lia. Qed.

Lemma live_count_delete l i c : l !! i = Some c -> live_count (delete i l) = live_count l - (if c_alive c then 1 else 0).
Proof.
  intros Hi. unfold live_count. rewrite delete_take_drop. rewrite <-(take_drop_middle l i c Hi) at 3.
  rewrite !filter_app, filter_cons, !length_app. destruct (c_alive c); case_decide; try congruence; simpl; lia.
Qed.

Lemma live_count_nonneg l : 0 <= live_count l.
Proof. unfold live_count. lia. Qed.

(** Nothing was spawned. *)
Definition is_spawn (a : act) : Prop := match a with ASpawn _ _ _ _ => True | _ => False end.
Definition no_spawn (w w' : world) : Prop :=
  exists more, w_log w' = w_log w ++ more /\ Forall (fun a => ~ is_spawn a) more.

Lemma no_spawn_same w w' : w_log w' = w_log w -> no_spawn w w'.
Proof. exists []. by rewrite app_nil_r. Qed.

#[export] Instance no_spawn_trans : Transitive no_spawn.
Proof.
  intros w1 w2 w3 (l1 & E1 & H1) (l2 & E2 & H2). exists (l1 ++ l2). by rewrite E2, E1, <-app_assoc, Forall_app.
Qed.

Lemma no_spawn_log_ok w w' : no_spawn w w' -> log_ok w -> log_ok w'.
Proof.
  intros (more & E & Hm) Hw l p past table q. rewrite E. intros [H|H]%elem_of_app; [by eapply Hw|].
  rewrite Forall_forall in Hm. by destruct (Hm _ H).
Qed.

(** A computation that leaves the table of children alone. *)
Definition undisturbed {A} (m : M st A) : Prop :=
  forall x, let x' := (m x).2 in
    s_n_alive x'.1 = s_n_alive x.1 /\ s_children x'.1 = s_children x.1 /\ s_opts x'.1 = s_opts x.1 /\
    s_rr_cap x'.1 = s_rr_cap x.1 /\ s_recent_restarts x'.1 = s_recent_restarts x.1 /\
    later x.2 x'.2 /\ no_spawn x.2 x'.2.

Lemma undisturbed_bind {A B} (m : M st A) (k : A -> M st B) :
  undisturbed m -> (forall a, undisturbed (k a)) -> undisturbed (bind m k).
Proof.
  intros Hm Hk x. specialize (Hm x). unfold bind. destruct (m x) as [[a|] x1]; [|done]. specialize (Hk a x1).
  simpl in *. destruct Hm as (?&?&?&?&?&?&?), (k a x1) as [ob x2]. simpl in *. destruct Hk as (?&?&?&?&?&?&?).
  split_and!; try congruence; by etrans.
Qed.

Lemma undisturbed_ret {A} (a : A) : undisturbed (ret a).
Proof. intros x. simpl. split_and!; auto; [reflexivity|by apply no_spawn_same]. Qed.

Lemma undisturbed_gets {A} (f : st -> A) : undisturbed (gets f).
Proof. intros x. simpl. split_and!; auto; [reflexivity|by apply no_spawn_same]. Qed.

Lemma undisturbed_unwind {A} : undisturbed (@unwind st A).
Proof. intros x. simpl. split_and!; auto; [reflexivity|by apply no_spawn_same]. Qed.

Lemma undisturbed_step : undisturbed step.
Proof.
  intros x. simpl. split_and!; auto; [apply later_tick|by apply no_spawn_same].
Qed.

Lemma undisturbed_world f :
  (forall w, later w (f w)) -> (forall w, no_spawn w (f w)) -> undisturbed (on_world f).
Proof. intros Hl Hf x. simpl. split_and!; auto. Qed.

Lemma undisturbed_sup f :
  (forall s, s_n_alive (f s) = s_n_alive s /\ s_children (f s) = s_children s /\ s_opts (f s) = s_opts s /\
     s_rr_cap (f s) = s_rr_cap s /\ s_recent_restarts (f s) = s_recent_restarts s) -> undisturbed (on_sup f).
Proof. intros Hf x. simpl. destruct (Hf x.1) as (?&?&?&?&?). split_and!; auto; [reflexivity|by apply no_spawn_same]. Qed.

Lemma undisturbed_each {A} (l : list A) f : (forall a, undisturbed (f a)) -> undisturbed (each l f).
Proof. intros Hf. induction l as [|a l IH]; [apply undisturbed_ret|]. by apply undisturbed_bind. Qed.

#[export] Hint Resolve undisturbed_ret undisturbed_gets undisturbed_unwind undisturbed_step undisturbed_each : sup.

Ltac undisturbed_tree :=
  repeat first
    [ progress intros
    | solve [auto with sup]
    | apply undisturbed_bind
    | match goal with |- undisturbed (match ?x with _ => _ end) => destruct x end ].

Lemma undisturbed_log a : ~ is_spawn a -> undisturbed (log a).
Proof.
  intros Ha. apply undisturbed_world; [intros w; apply later_log|]. intros w. exists [a]. split; [done|]. by constructor.
Qed.

Lemma undisturbed_park t : undisturbed (park t).
Proof. unfold park. undisturbed_tree. Qed.
#[export] Hint Resolve undisturbed_park : sup.

Lemma undisturbed_clock : undisturbed __os_clock_mono.
Proof. unfold __os_clock_mono. undisturbed_tree. Qed.

Lemma undisturbed_calloc : undisturbed __os_calloc.
Proof. unfold __os_calloc. undisturbed_tree. Qed.

Lemma undisturbed_contains l p : undisturbed (__xtc_proc_loop_contains l p).
Proof. unfold __xtc_proc_loop_contains. undisturbed_tree. Qed.

Lemma undisturbed_exit l p : undisturbed (__xtc_exit_pid_on l p).
Proof. unfold __xtc_exit_pid_on. undisturbed_tree. apply undisturbed_log. by intros []. Qed.

Lemma undisturbed_poll : undisturbed (xtc_proc_sleep poll_ns).
Proof.
  unfold xtc_proc_sleep. undisturbed_tree. apply undisturbed_world; [|by intros w; apply no_spawn_same].
  intros w. constructor; simpl; auto; try lia. unfold poll_ns. lia.
Qed.

Lemma undisturbed_recv : undisturbed xtc_recv.
Proof.
  unfold xtc_recv. undisturbed_tree. apply undisturbed_world; [|by intros w; apply no_spawn_same].
  intros w. constructor; simpl; auto; try lia. set_solver.
Qed.

Lemma undisturbed_read_sup : undisturbed sup.
Proof. apply undisturbed_gets. Qed.
#[export] Hint Resolve undisturbed_clock undisturbed_calloc undisturbed_contains undisturbed_exit undisturbed_poll
  undisturbed_recv undisturbed_read_sup : sup.

Lemma undisturbed_child_at i : undisturbed (child_at i).
Proof. unfold child_at. undisturbed_tree. Qed.
#[export] Hint Resolve undisturbed_child_at : sup.

Lemma undisturbed_stop : undisturbed request_stop.
Proof. by apply undisturbed_sup. Qed.

Lemma undisturbed_restart_old o : undisturbed (on_sup (fun s => with_restart_old s o)).
Proof. by apply undisturbed_sup. Qed.

Lemma undisturbed_kill i : undisturbed (__kill_sibling i).
Proof. unfold __kill_sibling. undisturbed_tree. Qed.
#[export] Hint Resolve undisturbed_stop undisturbed_restart_old undisturbed_kill : sup.

Lemma undisturbed_count idxs old : undisturbed (count_pending idxs old).
Proof. induction idxs as [|i idxs IH]; simpl; undisturbed_tree. Qed.
#[export] Hint Resolve undisturbed_count : sup.

Lemma undisturbed_wait_loop fuel start idxs old : undisturbed (wait_loop fuel start idxs old).
Proof. induction fuel as [|fuel IH]; simpl; undisturbed_tree. Qed.
#[export] Hint Resolve undisturbed_wait_loop : sup.

Lemma undisturbed_wait lo hi old : undisturbed (__wait_children_gone lo hi old).
Proof. unfold __wait_children_gone. undisturbed_tree. Qed.
#[export] Hint Resolve undisturbed_wait : sup.

Lemma undisturbed_wait_owned lo hi old : undisturbed (__wait_children_gone_owned lo hi old).
Proof. unfold __wait_children_gone_owned. undisturbed_tree. Qed.
#[export] Hint Resolve undisturbed_wait_owned : sup.

(** ** The table of children *)

Lemma undisturbed_ok {A} (m : M st A) x :
  undisturbed m -> sup_ok x -> sup_ok (m x).2 /\ later x.2 (m x).2.2 /\ idents (m x).2 = idents x /\
    s_opts (m x).2.1 = s_opts x.1.
Proof.
  intros Hm Hok. destruct (Hm x) as (H1 & H2 & H3 & _ & _ & H4 & H5). split_and!; [|done| |done].
  - eapply sup_ok_quiet; [..|exact Hok]; auto. eapply no_spawn_log_ok; [exact H5|apply Hok].
  - unfold idents. by rewrite H2.
Qed.

Lemma alive_at_spec i x :
  exists s', alive_at i false x = (Some tt, (s', x.2)) /\ s_opts s' = s_opts x.1 /\
    s_children s' = alter (fun c => set_alive c false) i (s_children x.1) /\
    s_n_alive s' = s_n_alive x.1 - (if default false (c_alive <$> s_children x.1 !! i) then 1 else 0) /\
    s_rr_cap s' = s_rr_cap x.1 /\ s_recent_restarts s' = s_recent_restarts x.1 /\ s_restart_old s' = s_restart_old x.1.
Proof.
  unfold alive_at, child_at, __child_alive, put_child, bind, sup, gets, on_sup, modify, ret. simpl.
  assert (alter (fun c => set_alive c false) i (s_children x.1) =
          <[i := set_alive (default no_child (s_children x.1 !! i)) false]> (s_children x.1)) as ->.
  { apply list_eq. intros j. destruct (decide (i = j)) as [<-|Hne].
    - rewrite list_lookup_alter_eq. destruct (s_children x.1 !! i) as [c|] eqn:Hi; simpl.
      + by rewrite list_lookup_insert_eq by (by eapply lookup_lt_Some).
      + symmetry. apply lookup_ge_None. rewrite length_insert. by apply lookup_ge_None.
    - by rewrite list_lookup_alter_ne, list_lookup_insert_ne by done. }
  destruct (s_children x.1 !! i) as [c|] eqn:Hi; simpl.
  - case_decide as Ha; simpl; eexists; (split; [done|]); simpl; split_and!; auto; rewrite ?Ha; try lia.
    + by destruct c; simpl in *; subst.
    + destruct (c_alive c); [lia|done].
  - eexists; (split; [done|]); simpl; split_and!; auto; lia.
Qed.

Lemma idents_alter s i x w : s_children s = alter (fun c => set_alive c false) i (s_children x) -> idents (s, w) = ident_of <$> s_children x.
Proof.
  intros E. unfold idents. simpl. rewrite E. apply list_eq. intros j. rewrite !list_lookup_fmap.
  destruct (decide (i = j)) as [<-|Hne]; [|by rewrite list_lookup_alter_ne].
  rewrite list_lookup_alter_eq. by destruct (s_children x !! i).
Qed.

Lemma live_count_dead l i :
  live_count (alter (fun c => set_alive c false) i l) = live_count l - (if default false (c_alive <$> l !! i) then 1 else 0).
Proof.
  destruct (l !! i) as [c|] eqn:Hi; simpl.
  - assert (alter (fun c => set_alive c false) i l = <[i := set_alive c false]> l) as ->.
    { apply list_eq. intros j. destruct (decide (i = j)) as [<-|Hne].
      - by rewrite list_lookup_alter_eq, Hi, list_lookup_insert_eq by (by eapply lookup_lt_Some).
      - by rewrite list_lookup_alter_ne, list_lookup_insert_ne by done. }
    rewrite (live_count_insert l i c) by done. simpl. lia.
  - assert (alter (fun c => set_alive c false) i l = l) as ->; [|lia]. apply list_eq. intros j.
    destruct (decide (i = j)) as [<-|Hne]; [by rewrite list_lookup_alter_eq, Hi|by rewrite list_lookup_alter_ne].
Qed.

(** Marking a child dead. *)
Lemma alive_at_ok i x :
  sup_ok x -> let x' := (alive_at i false x).2 in
  sup_ok x' /\ x'.2 = x.2 /\ idents x' = idents x /\ s_opts x'.1 = s_opts x.1 /\ (alive_at i false x).1 = Some tt.
Proof.
  intros [H1 H2 H3 H4]. destruct (alive_at_spec i x) as (s' & -> & Eo & Ec & En & _). simpl.
  assert (idents (s', x.2) = idents x) as Ei by (rewrite (idents_alter s' i x.1 x.2 Ec); done).
  split_and!; auto. constructor; simpl; [by rewrite Ec, En, live_count_dead, H1| |by rewrite Eo, Ei|done].
  intros j c. rewrite Ec. destruct (decide (i = j)) as [<-|Hne].
  - rewrite list_lookup_alter_eq. destruct (s_children x.1 !! i); intros [= <-]. done.
  - rewrite list_lookup_alter_ne by done. apply H2.
Qed.

(** The child that a spawn makes of [c], and the world after it. *)
Definition spawned (c : child) (p : Z) : child := mk_child (c_spec c) (Some p) p true (c_dynamic c) (c_pid c :: c_past c).

Definition spawn_world (w : world) (l : Z) (c : child) : world :=
  mk_world ({[(l, w_next w)]} ∪ w_table w) (w_next w + 1) (w_clock w) (w_masked w) (w_script w)
    (w_log w ++ [ASpawn l (w_next w) (c_pid c :: c_past c) (w_table w)]).

Lemma spawn_child_spec c x :
  let t := next_tick x.2 in
  __spawn_child c x =
  if decide (t_spawn t = XTC_OK) then
    (Some (XTC_OK, spawned c (w_next x.2)),
     (if c_alive c then tick_sup x.1 t else with_n_alive (tick_sup x.1 t) (s_n_alive x.1 + 1),
      spawn_world (tick_world x.2) (__child_loop (s_opts x.1) (c_spec c)) c))
  else (Some (t_spawn t, c), (tick_sup x.1 t, tick_world x.2)).
Proof.
  unfold __spawn_child, xtc_proc_spawn_monitor, bind, sup, gets, step. simpl.
  destruct (decide (t_spawn (next_tick x.2) = XTC_OK)) as [E|E]; simpl.
  - unfold __child_alive. simpl. destruct (decide (c_alive c = true)) as [Ha|Ha]; simpl.
    + rewrite Ha. unfold spawned. done.
    + destruct (c_alive c) eqn:Hb; [done|]. unfold set_alive, spawned. done.
  - rewrite decide_False by done. done.
Qed.

Lemma later_spawn w l c : later w (spawn_world w l c).
Proof.
  constructor; simpl; auto; try lia; [|by apply prefix_app_r].
  intros l' p [[= -> ->]%elem_of_singleton|H]%elem_of_union; [right; lia|by left].
Qed.

(** A spawn of a child whose last incarnation is gone logs nothing wrong. *)
Lemma spawn_log_ok w l c :
  log_ok w -> absent l (c_pid c) w -> (forall q, q ∈ c_past c -> absent l q w) -> log_ok (spawn_world w l c).
Proof.
  intros Hw Hc Hp l' p past table q. simpl. intros [H|H%list_elem_of_singleton]%elem_of_app; [by eapply Hw|].
  injection H as -> -> -> ->. intros [Hq|Hq]%elem_of_cons; [rewrite <-Hq in Hc; apply Hc|]. exact (proj2 (Hp _ Hq)).
Qed.

Lemma ids_ok_insert o ids w w' i sp p past :
  ids_ok o ids w -> later w w' -> w_next w' = w_next w + 1 -> ids !! i = Some (sp, p, past) ->
  absent (__child_loop o sp) p w -> ids_ok o (<[i := (sp, Some (w_next w), p :: past)]> ids) w'.
Proof.
  intros Hok Hl En Hi Hp. destruct (ids_ok_later _ _ _ _ Hl Hok) as [H1 H2 H3].
  pose proof (lookup_lt_Some _ _ _ Hi) as Hlt. constructor.
  - intros j sp' q past'. rewrite list_lookup_insert. case_decide as D; [intros [= <- <- <-]; lia|apply H1].
  - intros j k sp1 sp2 q past1 past2 Hj Hk. rewrite list_lookup_insert in Hj, Hk.
    case_decide as Dj; case_decide as Dk; [by destruct Dj, Dk; subst| | |by eapply H2]; exfalso.
    + injection Hk as <- <- <-. pose proof (id_used _ _ _ Hok _ _ _ _ Hj). lia.
    + injection Hj as <- <- <-. pose proof (id_used _ _ _ Hok _ _ _ _ Hk). lia.
  - intros j sp' p' past' q. rewrite list_lookup_insert. case_decide as D; [|by eapply H3].
    intros [= <- <- <-] [->|Hq]%elem_of_cons; [by eapply absent_later|by eapply H3].
Qed.

Lemma ids_ok_app o ids w w' sp :
  ids_ok o ids w -> later w w' -> w_next w' = w_next w + 1 -> ids_ok o (ids ++ [(sp, Some (w_next w), [None])]) w'.
Proof.
  intros Hok Hl En. destruct (ids_ok_later _ _ _ _ Hl Hok) as [H1 H2 H3].
  assert (forall i id, (ids ++ [(sp, Some (w_next w), [None])]) !! i = Some id ->
            ids !! i = Some id \/ i = length ids /\ id = (sp, Some (w_next w), [None])) as Hc.
  { intros i id. rewrite lookup_app_Some. intros [?|[Hle H]]; [by left|right].
    apply list_lookup_singleton_Some in H as [H <-]. split; [|done]. apply Nat.le_antisymm; [by apply Nat.sub_0_le|exact Hle]. }
  constructor.
  - intros i sp' q past' [H|[_ [= -> -> ->]]]%Hc; [by eapply H1|lia].
  - intros i j sp1 sp2 q p1 p2 [Hi|[-> [= -> -> ->]]]%Hc [Hj|[-> E]]%Hc; [by eapply H2| | |done]; exfalso.
    + injection E as -> -> ->. pose proof (id_used _ _ _ Hok _ _ _ _ Hi). lia.
    + pose proof (id_used _ _ _ Hok _ _ _ _ Hj). lia.
  - intros i sp' p' past' q [H|[_ [= -> -> ->]]]%Hc; [by eapply H3|]. by intros ->%list_elem_of_singleton.
Qed.

Lemma ids_ok_delete o ids w i : ids_ok o ids w -> ids_ok o (delete i ids) w.
Proof.
  intros [H1 H2 H3].
  assert (forall j id, delete i ids !! j = Some id -> ids !! (if decide (j < i)%nat then j else S j) = Some id) as Hc.
  { intros j id. case_decide; [by rewrite list_lookup_delete_lt|by rewrite list_lookup_delete_ge by lia]. }
  constructor.
  - intros j sp q past H%Hc. by eapply H1.
  - intros j k sp sp' q past past' Hj%Hc Hk%Hc. pose proof (H2 _ _ _ _ _ _ _ Hj Hk). repeat case_decide; lia.
  - intros j sp p past q H%Hc. by eapply H3.
Qed.

(** No spawn since [w0] found process [q] of loop [l] in the table. *)
Definition spared (l q : Z) (w0 w : world) : Prop :=
  exists more, w_log w = w_log w0 ++ more /\ forall l' p past table, ASpawn l' p past table ∈ more -> (l, q) ∉ table.

#[export] Instance spared_trans l q : Transitive (spared l q).
Proof.
  intros w1 w2 w3 (l1 & E1 & H1) (l2 & E2 & H2). exists (l1 ++ l2). rewrite E2, E1, <-app_assoc. split; [done|].
  intros l' p past table [H|H]%elem_of_app; eauto.
Qed.

Lemma no_spawn_spared l q w w' : no_spawn w w' -> spared l q w w'.
Proof.
  intros (more & E & Hm). exists more. split; [done|]. intros l' p past table H. rewrite Forall_forall in Hm.
  by destruct (Hm _ H).
Qed.

(** The effect of a spawn in slot [i]. *)
Record respawned (i : nat) (x x' : st) : Prop := mk_respawned {
  rs_ok : sup_ok x';
  rs_later : later x.2 x'.2;
  rs_opts : s_opts x'.1 = s_opts x.1;
  rs_others : forall j, j <> i -> idents x' !! j = idents x !! j;
  rs_live : live_count (s_children x'.1) <= live_count (s_children x.1) + 1;
  rs_spared : forall l q, absent l (Some q) x.2 -> spared l q x.2 x'.2;
  rs_length : length (s_children x'.1) = length (s_children x.1);
}.

Lemma idents_at x i c : s_children x.1 !! i = Some c -> idents x !! i = Some (ident_of c).
Proof. intros Hi. unfold idents. by rewrite list_lookup_fmap, Hi. Qed.

Lemma spawn_at_ok i c x :
  sup_ok x -> s_children x.1 !! i = Some c -> absent (__child_loop (s_opts x.1) (c_spec c)) (c_pid c) x.2 ->
  exists r, (spawn_at i x).1 = Some r /\ respawned i x (spawn_at i x).2.
Proof.
  intros Hok Hi Hp. pose proof (idents_at _ _ _ Hi) as Hid.
  assert (spawn_at i x = match __spawn_child c x with
            | (Some (r, c'), (s', w')) => (Some r, (with_children s' (<[i := c']> (s_children s')), w'))
            | (None, x') => (None, x') end) as ->.
  { unfold spawn_at, child_at, bind, sup, gets, ret. simpl. rewrite Hi. simpl.
    destruct (__spawn_child c x) as [[[r c']|] [s' w']]; done. }
  rewrite spawn_child_spec. pose proof (later_tick x.2) as Hlt. destruct Hok as [H1 H2 H3 H4].
  destruct (decide (t_spawn (next_tick x.2) = XTC_OK)) as [E|E]; simpl.
  - exists XTC_OK. split; [done|]. set (w1 := spawn_world _ _ c).
    assert (later x.2 w1) as Hl by (etrans; [exact Hlt|apply later_spawn]).
    set (s1 := if c_alive c then _ else _).
    assert (s_children s1 = s_children x.1 /\ s_opts s1 = s_opts x.1 /\
            s_n_alive s1 = s_n_alive x.1 + (if c_alive c then 0 else 1)) as (E1 & E2 & E3)
      by (unfold s1; destruct (c_alive c); simpl; split_and!; auto; lia).
    assert (idents (with_children s1 (<[i:=spawned c (w_next x.2)]> (s_children s1)), w1) =
            <[i := (c_spec c, Some (w_next x.2), c_pid c :: c_past c)]> (idents x)) as Eid.
    { unfold idents. simpl. by rewrite E1, list_fmap_insert. }
    assert (live_count (<[i:=spawned c (w_next x.2)]> (s_children s1)) = live_count (s_children x.1) + (if c_alive c then 0 else 1)) as Elc.
    { rewrite E1, (live_count_insert _ _ c) by done. destruct (c_alive c); simpl; lia. }
    constructor; [constructor|done|done| | | |].
    + simpl. by rewrite E3, Elc, H1.
    + simpl. intros j d. rewrite list_lookup_insert. case_decide; [intros [= <-] _; done|]. rewrite E1. apply H2.
    + rewrite Eid. simpl. rewrite E2. by apply ids_ok_insert with (w := x.2).
    + apply spawn_log_ok; [exact H4|by eapply absent_later|]. intros q Hq. eapply absent_later; [exact Hlt|].
      eapply (id_past _ _ _ H3); [exact Hid|done].
    + intros j Hj. by rewrite Eid, list_lookup_insert_ne.
    + simpl. rewrite Elc. destruct (c_alive c); lia.
    + intros l q Hq. apply (absent_later _ _ _ _ Hlt) in Hq as [_ Hq]. eexists. split; [done|].
      intros l' p past table [= -> -> -> ->]%list_elem_of_singleton. done.
    + simpl. by rewrite length_insert, E1.
  - eexists. split; [done|]. rewrite list_insert_id by done.
    constructor; simpl; [|done|done|done|lia|intros; by apply no_spawn_spared, no_spawn_same|done]. eapply (sup_ok_quiet x); auto. by constructor.
Qed.

(** ** The wait for an old generation *)

(** The same table of children, later. *)
Definition same_table (x x' : st) : Prop :=
  s_children x'.1 = s_children x.1 /\ s_opts x'.1 = s_opts x.1 /\ later x.2 x'.2.

#[export] Instance same_table_trans : Transitive same_table.
Proof. intros x y z (E1 & E2 & E3) (F1 & F2 & F3). split_and!; [congruence|congruence|by etrans]. Qed.

Lemma undisturbed_same {A} (m : M st A) x : undisturbed m -> same_table x (m x).2.
Proof. intros Hm. destruct (Hm x) as (_ & H1 & H2 & _ & _ & H3 & _). done. Qed.

Lemma wp_undisturbed {A B} (m : M st A) (k : A -> M st B) (Q : option B -> st -> Prop) x :
  undisturbed m -> (forall a x', m x = (Some a, x') -> same_table x x' -> wp (k a) Q x') ->
  (forall x', same_table x x' -> Q None x') -> wp (bind m k) Q x.
Proof.
  intros Hm Hk Hn. pose proof (undisturbed_same m x Hm) as Hs. apply wp_bind. unfold wp at 1.
  destruct (m x) as [[a|] x'] eqn:E; simpl in *; auto.
Qed.

(** The pids [old] of the slots [idxs] are gone. *)
Definition all_gone (o : xtc_sup_opts) (l : list child) (idxs : list nat) (old : list pid) (w : world) : Prop :=
  forall i, i ∈ idxs -> absent (__child_loop o (c_spec (default no_child (l !! i)))) (old_at old i) w.

Definition all_used (idxs : list nat) (old : list pid) (w : world) : Prop :=
  forall i q, i ∈ idxs -> old_at old i = Some q -> q < w_next w.

Lemma all_used_later idxs old w w' : later w w' -> all_used idxs old w -> all_used idxs old w'.
Proof. intros [] H i q Hi Hq. specialize (H i q Hi Hq). lia. Qed.

Lemma all_gone_later o l idxs old w w' : later w w' -> all_gone o l idxs old w -> all_gone o l idxs old w'.
Proof. intros Hl H i Hi. eapply absent_later; [exact Hl|by apply H]. Qed.

Lemma count_pending_cons i idxs old x :
  let x1 := (tick_sup x.1 (next_tick x.2), tick_world x.2) in
  let l := __child_loop (s_opts x.1) (c_spec (default no_child (s_children x.1 !! i))) in
  let here := match old_at old i with Some p => bool_decide ((l, p) ∈ w_table x1.2) | None => false end in
  count_pending (i :: idxs) old x =
  match count_pending idxs old x1 with
  | (Some n, x2) => (Some (if here then S n else n), x2)
  | (None, x2) => (None, x2)
  end.
Proof. reflexivity. Qed.

Lemma count_zero idxs old x :
  all_used idxs old x.2 ->
  wp (count_pending idxs old) (fun o x' => o = Some 0%nat -> all_gone (s_opts x.1) (s_children x.1) idxs old x'.2) x.
Proof.
  revert x. induction idxs as [|i idxs IH]; intros x Hu; [intros _ i Hi; by apply elem_of_nil in Hi|].
  unfold wp. rewrite count_pending_cons. set (x1 := (tick_sup x.1 (next_tick x.2), tick_world x.2)).
  assert (later x.2 x1.2) as Hl by apply later_tick.
  assert (all_used idxs old x1.2) as Hu1.
  { eapply all_used_later; [exact Hl|]. intros j q Hj. apply Hu. by apply list_elem_of_further. }
  pose proof (undisturbed_same (count_pending idxs old) x1 (undisturbed_count idxs old)) as (_ & _ & Hl2).
  specialize (IH x1 Hu1). unfold wp in IH. destruct (count_pending idxs old x1) as [[n|] x2]; [|done].
  simpl in *. intros E. destruct (old_at old i) as [q|] eqn:Eq.
  - case_bool_decide as Hin; [done|]. injection E as ->. intros j [->|Hj]%elem_of_cons; [|by apply IH].
    rewrite Eq. eapply absent_later; [exact Hl2|]. split; [|done].
    pose proof (Hu i q (list_elem_of_here _ _) Eq). pose proof (la_next _ _ Hl). simpl in *. lia.
  - injection E as ->. intros j [->|Hj]%elem_of_cons; [by rewrite Eq|by apply IH].
Qed.

Lemma wait_loop_gone fuel start idxs old x :
  all_used idxs old x.2 ->
  wp (wait_loop fuel start idxs old) (fun o x' => o = Some true -> all_gone (s_opts x.1) (s_children x.1) idxs old x'.2) x.
Proof.
  revert x. induction fuel as [|fuel IH]; intros x Hu; [done|]. cbn [wait_loop].
  apply wp_undisturbed; [auto with sup| |done]. intros t x1 _ Hs1.
  apply wp_undisturbed; [auto with sup| |done]. intros s x2 _ Hs2.
  destruct (s_abandon_wait s); [done|]. assert (same_table x x2) as Hs by (by etrans).
  assert (all_used idxs old x2.2) as Hu2 by (eapply all_used_later; [apply Hs|done]).
  pose proof (count_zero idxs old x2 Hu2) as Hc.
  apply wp_undisturbed; [auto with sup| |done]. intros n x3 En Hs3.
  unfold wp in Hc. rewrite En in Hc. simpl in Hc. destruct Hs as (Ec & Eo & Hl). rewrite Ec, Eo in Hc.
  case_decide as Hn; [subst n; by intros _; apply Hc|].
  apply wp_undisturbed; [auto with sup| |done]. intros now x4 _ Hs4.
  case_decide; [done|].
  apply wp_undisturbed; [auto with sup| |done]. intros [] x5 _ Hs5.
  assert (same_table x2 x5) as (Ec' & Eo' & Hl') by (etrans; [exact Hs3|]; by etrans).
  assert (all_used idxs old x5.2) as Hu5 by (eapply all_used_later; [exact Hl'|done]).
  specialize (IH x5 Hu5). rewrite Ec', Ec, Eo', Eo in IH. exact IH.
Qed.

(** A wait that succeeds: nothing of the old generation is left. *)
Lemma wait_owned_gone lo hi old x :
  all_used (seq lo (hi - lo)) old x.2 ->
  wp (__wait_children_gone_owned lo hi old)
    (fun o x' => o = Some true -> all_gone (s_opts x.1) (s_children x.1) (seq lo (hi - lo)) old x'.2) x.
Proof.
  intros Hu. unfold __wait_children_gone_owned, __wait_children_gone.
  apply wp_undisturbed; [auto with sup| |done]. intros [] x1 _ Hs1.
  apply wp_bind, wp_undisturbed; [auto with sup| |done]. intros start x2 _ Hs2.
  assert (same_table x x2) as (Ec & Eo & Hl) by (by etrans).
  eapply wp_mono; [apply wait_loop_gone; by eapply all_used_later|]. rewrite Ec, Eo.
  intros [g|] x3 Hg; [|done]. intros [= ->]. by apply Hg.
Qed.


(** Each poll takes a millisecond, so the wait is over after [wait_fuel]
    turns: more fuel changes nothing. *)
Lemma wait_loop_enough n m start idxs old x :
  XTC_SUP_CLEANUP_WAIT_NS - (w_clock x.2 - start) <= Z.of_nat n * poll_ns ->
  wait_loop (S n + m) start idxs old x = wait_loop (S n) start idxs old x.
Proof.
  revert x. induction n as [|n IH]; intros x Hn; cbn [wait_loop Nat.add];
    apply bind_ext; intros t x1 E1; (apply bind_ext; intros s x2 E2); (destruct (s_abandon_wait s); [done|]);
    apply bind_ext; intros k x3 E3; (case_decide; [done|]); apply bind_ext; intros now x4 E4;
    pose proof (undisturbed_same _ x undisturbed_step) as (_ & _ & H1); rewrite E1 in H1;
    pose proof (undisturbed_same _ x1 undisturbed_read_sup) as (_ & _ & H2); rewrite E2 in H2;
    pose proof (undisturbed_same _ x2 (undisturbed_count idxs old)) as (_ & _ & H3); rewrite E3 in H3;
    apply la_clock in H1, H2, H3; simpl in H1, H2, H3;
    assert (w_clock x3.2 <= now /\ w_clock x4.2 = now) as [H4 H5]
      by (injection E4 as <- <-; unfold tick_world; simpl; lia);
    (case_decide; [done|]).
  - unfold poll_ns in *. lia.
  - apply bind_ext. intros [] x5 E5. apply IH. clear IH.
    assert (w_clock x4.2 + poll_ns <= w_clock x5.2) as H6; [|lia].
    unfold xtc_proc_sleep, park, bind, gets in E5. simpl in E5.
    destruct (t_kill _ && _); [done|]. injection E5 as <-. simpl. lia.
Qed.

(** ** Group restarts *)

Record spawned_ok (x x' : st) : Prop := mk_spawned_ok {
  sp_ok : sup_ok x';
  sp_later : later x.2 x'.2;
  sp_opts : s_opts x'.1 = s_opts x.1;
  sp_spared : forall l q, absent l (Some q) x.2 -> spared l q x.2 x'.2;
  sp_length : length (s_children x'.1) = length (s_children x.1);
}.

Lemma spawned_ok_refl x : sup_ok x -> spawned_ok x x.
Proof. intros H. constructor; auto; [reflexivity|]. intros l q _. by apply no_spawn_spared, no_spawn_same. Qed.

Lemma spawn_all_ok idxs x :
  NoDup idxs -> sup_ok x ->
  (forall i, i ∈ idxs -> exists c, s_children x.1 !! i = Some c /\ absent (__child_loop (s_opts x.1) (c_spec c)) (c_pid c) x.2) ->
  exists ok, (spawn_all idxs x).1 = Some ok /\ spawned_ok x (spawn_all idxs x).2.
Proof.
  revert x. induction idxs as [|i idxs IH]; intros x Hnd Hok Hgone; [exists true; eauto using spawned_ok_refl|].
  apply NoDup_cons in Hnd as [Hi Hnd].
  destruct (Hgone i (list_elem_of_here _ _)) as (c & Hc & Ha). destruct (spawn_at_ok i c x Hok Hc Ha) as (r & Er & Hr).
  assert (spawn_all (i :: idxs) x = (if decide (r = XTC_OK) then spawn_all idxs else ret false) (spawn_at i x).2) as ->.
  { cbn [spawn_all]. unfold bind. destruct (spawn_at i x) as [o x1]. simpl in *. by subst. }
  destruct (spawn_at i x) as [o x1]. simpl in Hr. clear Er. destruct Hr as [R1 R2 R3 R4 R5 R6 R7]. simpl.
  case_decide as Hdec; [|exists false; split; [done|by constructor]].
  destruct (IH x1 Hnd R1) as (ok & E & [K1 K2 K3 K4 K5]).
  - intros j Hj. assert (j <> i) as Hne by set_solver. destruct (Hgone j (list_elem_of_further _ _ _ Hj)) as (d & Hd & Hda).
    specialize (R4 j Hne). rewrite (idents_at _ _ _ Hd) in R4. unfold idents in R4. rewrite list_lookup_fmap in R4.
    destruct (s_children x1.1 !! j) as [d'|]; [|done]. injection R4 as E1 E2 E3. exists d'. split; [done|].
    rewrite R3, E1, E2. by eapply absent_later.
  - exists ok. split; [done|]. constructor; [done|by etrans|congruence| |congruence].
    intros l q Hq. etrans; [by apply R6|]. by apply K4, (absent_later _ _ x.2).
Qed.

Lemma respawn_ok idxs x :
  NoDup idxs -> sup_ok x ->
  (forall i, i ∈ idxs -> exists c, s_children x.1 !! i = Some c /\ absent (__child_loop (s_opts x.1) (c_spec c)) (c_pid c) x.2) ->
  spawned_ok x (respawn idxs x).2.
Proof.
  intros Hnd Hok Hgone. destruct (spawn_all_ok idxs x Hnd Hok Hgone) as (ok & E & H). unfold respawn, bind.
  destruct (spawn_all idxs x) as [o x1]. simpl in *. subst o. destruct ok; [done|]. destruct H as [K1 K2 K3 K4 K5].
  destruct (undisturbed_ok request_stop x1 undisturbed_stop K1) as (? & ? & ? & ?).
  constructor; [done|by etrans|congruence| |done]. intros l q Hq. etrans; [by apply K4|]. by apply no_spawn_spared, no_spawn_same.
Qed.

(** A state that [x] leads to without a change of the slots' identities. *)
Record based (x y : st) : Prop := mk_based {
  ba_ok : sup_ok y;
  ba_ids : idents y = idents x;
  ba_opts : s_opts y.1 = s_opts x.1;
  ba_later : later x.2 y.2;
  ba_quiet : no_spawn x.2 y.2;
  ba_live : live_count (s_children y.1) <= live_count (s_children x.1);
}.

Lemma based_refl x : sup_ok x -> based x x.
Proof. intros H. constructor; auto; [reflexivity|by apply no_spawn_same|lia]. Qed.

Lemma keeps_based {A} x (m : M st A) : undisturbed m -> keeps (based x) m.
Proof.
  intros Hm y [H1 H2 H3 H4 H5 H6]. destruct (undisturbed_ok m y Hm H1) as (K1 & K2 & K3 & K4).
  destruct (Hm y) as (_ & E & _ & _ & _ & _ & K5). constructor; [done|congruence|congruence|by etrans|by etrans|by rewrite E].
Qed.

Lemma keeps_based_alive x i : keeps (based x) (alive_at i false).
Proof.
  intros y [H1 H2 H3 H4 H5 H6]. destruct (alive_at_ok i y H1) as (K1 & K2 & K3 & K4 & _).
  constructor; [done|congruence|congruence|by rewrite K2|by rewrite K2|].
  destruct (alive_at_spec i y) as (s' & -> & _ & Ec & _). simpl. rewrite Ec, live_count_dead. destruct (default _ _); lia.
Qed.

Lemma old_at_pids l lo i c : l !! i = Some c -> (lo <= i)%nat -> old_at (old_pids l lo) i = c_pid c.
Proof. intros Hi Hlo. unfold old_at, old_pids. rewrite list_lookup_imap, Hi. simpl. by rewrite decide_True. Qed.

(** The second half of a group restart of the slots from [lo] on. *)
Definition finish_group (lo n : nat) (kills : list nat) (old : list pid) : M st unit :=
  each kills __kill_sibling ;;
  each (seq lo (n - lo)) (fun i => alive_at i false) ;;
  let* gone := __wait_children_gone_owned lo n old in
  if negb gone then request_stop else respawn (seq lo (n - lo)).

(** What a group restart promises: the invariant, and no replacement is spawned
    while a process of the old generation is in the table. *)
Record group_ok (lo : nat) (x x' : st) : Prop := mk_group_ok {
  go_ok : sup_ok x';
  go_opts : s_opts x'.1 = s_opts x.1;
  go_later : later x.2 x'.2;
  go_spared : forall i c q, (lo <= i)%nat -> s_children x.1 !! i = Some c -> c_pid c = Some q ->
    spared (__child_loop (s_opts x.1) (c_spec c)) q x.2 x'.2;
}.

Lemma based_group lo x y : based x y -> group_ok lo x y.
Proof. intros []. constructor; auto. intros. by apply no_spawn_spared. Qed.

Lemma same_slot x y i c :
  idents y = idents x -> s_children x.1 !! i = Some c ->
  exists d, s_children y.1 !! i = Some d /\ c_spec d = c_spec c /\ c_pid d = c_pid c.
Proof.
  intros E Hi. apply idents_at in Hi. rewrite <-E in Hi. unfold idents in Hi. rewrite list_lookup_fmap in Hi.
  destruct (s_children y.1 !! i) as [d|]; [|done]. injection Hi as E1 E2 E3. eauto.
Qed.

Lemma finish_group_ok lo kills x y :
  based x y -> wp (finish_group lo (length (s_children x.1)) kills (old_pids (s_children x.1) lo)) (fun _ => group_ok lo x) y.
Proof.
  intros Hy. set (n := length (s_children x.1)). unfold finish_group.
  eapply wp_cut; [apply (keeps_wp (based x)); [apply keeps_each; intros; apply keeps_based; auto with sup|exact Hy]| |auto using based_group].
  intros [] y1 Hy1.
  eapply wp_cut; [apply (keeps_wp (based x)); [apply keeps_each; intros; apply keeps_based_alive|exact Hy1]| |auto using based_group].
  intros [] y2 Hy2. set (old := old_pids _ _).
  assert (forall i, i ∈ seq lo (n - lo) -> exists c d, s_children x.1 !! i = Some c /\ s_children y2.1 !! i = Some d /\
            c_spec d = c_spec c /\ c_pid d = c_pid c /\ old_at old i = c_pid c /\ (lo <= i)%nat) as Hslot.
  { intros i Hi%elem_of_seq. destruct (lookup_lt_is_Some_2 (s_children x.1) i) as [c Hc]; [unfold n in Hi; lia|].
    destruct (same_slot x y2 i c (ba_ids _ _ Hy2) Hc) as (d & ? & ? & ?). exists c, d.
    split_and!; auto; [|lia]. apply old_at_pids; [done|lia]. }
  assert (all_used (seq lo (n - lo)) old y2.2) as Hu.
  { intros i q Hi Hq. destruct (Hslot i Hi) as (c & d & Hc & Hd & E1 & E2 & E3 & _). rewrite E3 in Hq.
    apply (id_used _ _ _ (ok_ids _ (ba_ok _ _ Hy2)) i (c_spec d) q (c_past d)).
    pose proof (idents_at _ _ _ Hd) as Hid. unfold ident_of in Hid. rewrite E2, Hq in Hid. exact Hid. }
  eapply wp_cut; [apply wp_and; [apply (wait_owned_gone lo n old y2 Hu)|
    apply (keeps_wp (based x)); [apply keeps_based; auto with sup|exact Hy2]]| |intros y3 [_ H3]; by apply based_group].
  intros gone y3 [Hg Hy3]. destruct gone; simpl; [|by apply based_group, (keeps_based x request_stop undisturbed_stop)].
  specialize (Hg eq_refl). destruct (respawn_ok (seq lo (n - lo)) y3) as [K1 K2 K3 K4 K5].
  - apply NoDup_seq.
  - apply Hy3.
  - intros i Hi. destruct (Hslot i Hi) as (c & d & Hc & Hd & E1 & E2 & E3 & _).
    destruct (same_slot x y3 i c (ba_ids _ _ Hy3) Hc) as (e & He & F1 & F2). exists e. split; [done|].
    specialize (Hg i Hi). rewrite Hd in Hg. simpl in Hg. by rewrite (ba_opts _ _ Hy3), F1, F2, <-E1, <-E3, <-(ba_opts _ _ Hy2).
  - constructor; [done|rewrite K3; apply Hy3|etrans; [apply Hy3|done]|]. intros i c q Hlo Hc Hq.
    etrans; [apply no_spawn_spared, Hy3|]. apply K4.
    assert (i ∈ seq lo (n - lo)) as Hi by (apply elem_of_seq; apply lookup_lt_Some in Hc; unfold n; lia).
    destruct (Hslot i Hi) as (c' & d & Hc' & Hd & E1 & E2 & E3 & _). rewrite Hc in Hc'. injection Hc' as <-.
    specialize (Hg i Hi). rewrite Hd in Hg. simpl in Hg. by rewrite <-E1, <-Hq, <-E3, <-(ba_opts _ _ Hy2).
Qed.

Lemma undisturbed_alloc_old n : undisturbed (alloc_old n).
Proof. unfold alloc_old. undisturbed_tree. Qed.

Lemma undisturbed_n_children : undisturbed n_children.
Proof. unfold n_children. undisturbed_tree. Qed.
#[export] Hint Resolve undisturbed_alloc_old undisturbed_n_children : sup.

(** The common frame of the two group restarts. *)
Lemma group_restart_ok lo (kills : nat -> list nat) x :
  sup_ok x ->
  wp (let* n := n_children in
      let* ok := alloc_old n in
      if negb ok then request_stop
      else let* s := sup in finish_group lo n (kills n) (old_pids (s_children s) lo)) (fun _ => group_ok lo x) x.
Proof.
  intros Hok. set (n := length (s_children x.1)).
  apply wp_bind. unfold wp at 1, n_children, bind. simpl. fold n.
  eapply wp_cut; [apply (wp_and _ (fun _ => based x) (fun _ => same_table x))| |intros x1 [H1 _]; by apply based_group].
  { apply (keeps_wp (based x)); [apply keeps_based; auto with sup|by apply based_refl]. }
  { apply undisturbed_same. auto with sup. }
  intros ok x1 [Hb (Ec & _)]. destruct ok; simpl; [|by apply based_group, (keeps_based x request_stop undisturbed_stop)].
  change (wp (finish_group lo n (kills n) (old_pids (s_children x1.1) lo)) (fun _ => group_ok lo x) x1).
  rewrite Ec. by apply finish_group_ok.
Qed.

Lemma one_for_all_ok dead x : sup_ok x -> wp (__do_one_for_all dead) (fun _ => group_ok 0 x) x.
Proof.
  intros Hok. pose proof (group_restart_ok 0 (seq 0) x Hok) as H. unfold finish_group in H.
  unfold wp in *. unfold __do_one_for_all, bind at 1. unfold bind at 1 in H. simpl in *. by rewrite Nat.sub_0_r in H.
Qed.

Lemma rest_for_one_ok dead x : sup_ok x -> wp (__do_rest_for_one dead) (fun _ => group_ok dead x) x.
Proof. intros Hok. exact (group_restart_ok dead (fun n => rev (seq (S dead) (n - S dead))) x Hok). Qed.

(** ** Messages *)

Lemma find_from_spec k l p i :
  find_from k l p = Some i -> (k <= i)%nat /\ exists c, l !! (i - k)%nat = Some c /\ c_alive c = true /\ c_pid c = Some p.
Proof.
  revert k. induction l as [|c l IH]; intros k; simpl; [done|].
  destruct (c_alive c) eqn:Ha; simpl; [case_bool_decide as Hp|].
  - intros [= <-]. rewrite Nat.sub_diag. eauto.
  - intros (Hle & d & Hd & ?)%IH. split; [lia|]. exists d. by replace (i - k)%nat with (S (i - S k)) by lia.
  - intros (Hle & d & Hd & ?)%IH. split; [lia|]. exists d. by replace (i - k)%nat with (S (i - S k)) by lia.
Qed.

Lemma find_child_spec s p i :
  __find_child_by_pid s p = Some i -> exists c, s_children s !! i = Some c /\ c_alive c = true /\ c_pid c = Some p.
Proof. intros (_ & c & H)%find_from_spec. rewrite Nat.sub_0_r in H. eauto. Qed.

Lemma sup_ok_restarts x recent total :
  sup_ok x -> sup_ok (with_restarts x.1 recent total, x.2).
Proof. intros []. by constructor. Qed.

(** An added child fits the bound on live children. *)
Lemma add_child_ok reply tag spec x :
  sup_ok x -> let y := (__handle_add_child reply tag spec x).2 in
  sup_ok y /\ s_opts y.1 = s_opts x.1 /\
  (0 < so_max_children (s_opts x.1) ->
   live_count (s_children y.1) <= Z.max (live_count (s_children x.1)) (so_max_children (s_opts x.1))).
Proof.
  intros Hok. set (ok_y := fun y : st => sup_ok y /\ s_opts y.1 = s_opts x.1 /\ (0 < so_max_children (s_opts x.1) ->
    live_count (s_children y.1) <= Z.max (live_count (s_children x.1)) (so_max_children (s_opts x.1)))).
  change (ok_y (__handle_add_child reply tag spec x).2). unfold __handle_add_child, bind at 1. cbn [sup gets fst snd].
  assert (forall ok p y, ok_y y -> ok_y (log (AReply reply tag ok p) y).2) as Hlog.
  { intros ok p y (Hy & ?). split; [|done]. apply (undisturbed_ok (log _) y); [|done]. apply undisturbed_log. by intros []. }
  destruct (bool_decide _ && _) eqn:Hcap; [apply Hlog; split_and!; [done|done|lia]|].
  pose proof (undisturbed_ok __os_calloc x undisturbed_calloc Hok) as (Hok1 & _ & _ & Eo).
  destruct (undisturbed_same __os_calloc x undisturbed_calloc) as (Ec & _).
  unfold bind at 1. destruct (__os_calloc x) as [[ok|] x1]; [|split_and!; [done|done|]; simpl in *; rewrite Ec; lia].
  simpl in Hok1, Eo, Ec. assert (ok_y x1) as Hx1 by (split_and!; [done|done|rewrite Ec; lia]).
  destruct ok; cbn [negb]; [|by apply Hlog].
  unfold bind at 1. rewrite spawn_child_spec. pose proof (later_tick x1.2) as Hlt. destruct Hok1 as [H1 H2 H3 H4].
  destruct (decide (t_spawn (next_tick x1.2) = XTC_OK)) as [E|E]; cbv iota beta.
  - set (c := spawned _ _). set (w1 := spawn_world _ _ _).
    assert (later x1.2 w1) as Hl by (etrans; [exact Hlt|apply later_spawn]).
    apply (Hlog 1 (c_pid c) (with_children (with_n_alive (tick_sup x1.1 (next_tick x1.2)) (s_n_alive x1.1 + 1)) (s_children x1.1 ++ [c]), w1)).
    split_and!; [constructor; simpl|done|simpl].
    + rewrite live_count_app. simpl. by rewrite H1.
    + intros j d. rewrite lookup_app_Some. intros [Hj|[_ [_ <-]%list_lookup_singleton_Some]]; [by eapply H2|done].
    + unfold idents. simpl. rewrite fmap_app. apply (ids_ok_app _ _ x1.2); done.
    + apply spawn_log_ok; [exact H4|done|]. intros q Hq. by apply elem_of_nil in Hq.
    + intros Hm. rewrite live_count_app, Ec. simpl. rewrite bool_decide_true in Hcap by done. simpl in Hcap.
      apply bool_decide_eq_false in Hcap. lia.
  - rewrite decide_False by done. apply Hlog. split_and!; [|done|apply Hx1]. eapply (sup_ok_quiet x1); auto. by constructor.
Qed.

Lemma delete_ok i c x :
  sup_ok x -> s_children x.1 !! i = Some c -> c_alive c = false ->
  sup_ok (with_children x.1 (delete i (s_children x.1)), x.2).
Proof.
  intros [H1 H2 H3 H4] Hi Ha. constructor; simpl; [|intros j d| |done].
  - rewrite (live_count_delete _ _ c) by done. rewrite Ha, H1. lia.
  - destruct (decide (j < i)%nat); [rewrite list_lookup_delete_lt by done|rewrite list_lookup_delete_ge by lia]; apply H2.
  - unfold idents. simpl. rewrite list_fmap_delete. by apply ids_ok_delete.
Qed.

Lemma dead_slot i c x :
  s_children x.1 !! i = Some c -> s_children (alive_at i false x).2.1 !! i = Some (set_alive c false).
Proof.
  intros Hi. destruct (alive_at_spec i x) as (s' & -> & _ & Ec & _). simpl. by rewrite Ec, list_lookup_alter_eq, Hi.
Qed.

Lemma keeps_based_record x now : keeps (based x) (on_sup (fun s => __record_restart s now)).
Proof. intros y [H1 H2 H3 H4 H5 H6]. constructor; auto. simpl. by apply sup_ok_restarts. Qed.

(** The restart itself, for a child that is gone. *)
Definition restart (idx : nat) (s : supervisor) : M st unit :=
  match so_strategy (s_opts s) with
  | XTC_SUP_ONE_FOR_ONE | XTC_SUP_SIMPLE_OFO => spawn_at idx ;; ret tt
  | XTC_SUP_ONE_FOR_ALL => __do_one_for_all idx
  | XTC_SUP_REST_FOR_ONE => __do_rest_for_one idx
  end.

(** The strategies that restart one child only. *)
Definition one_child (o : xtc_sup_opts) : Prop :=
  so_strategy o = XTC_SUP_ONE_FOR_ONE \/ so_strategy o = XTC_SUP_SIMPLE_OFO.

(** [y] is sound and, under those, has at most [n] live children. *)
Definition at_most (o : xtc_sup_opts) (n : Z) (y : st) : Prop :=
  sup_ok y /\ s_opts y.1 = o /\ (one_child o -> live_count (s_children y.1) <= n).

Lemma based_at_most x y : based x y -> at_most (s_opts x.1) (live_count (s_children x.1)) y.
Proof. intros []. by split_and!. Qed.

Lemma at_most_mono o n m y : n <= m -> at_most o n y -> at_most o m y.
Proof. intros Hnm (H1 & H2 & H3). split_and!; [done|done|]. intros Ho. specialize (H3 Ho). lia. Qed.

Lemma restart_ok idx c s x :
  sup_ok x -> s_opts s = s_opts x.1 -> s_children x.1 !! idx = Some c ->
  absent (__child_loop (s_opts x.1) (c_spec c)) (c_pid c) x.2 ->
  at_most (s_opts x.1) (live_count (s_children x.1) + 1) (restart idx s x).2.
Proof.
  intros Hok Es Hi Ha. unfold restart. rewrite Es.
  assert (at_most (s_opts x.1) (live_count (s_children x.1) + 1) ((spawn_at idx ;; ret tt) x).2) as Hone.
  { destruct (spawn_at_ok idx c x Hok Hi Ha) as (r & Er & Hr). unfold bind. destruct (spawn_at idx x) as [o x1].
    simpl in *. subst o. destruct Hr. by split_and!. }
  destruct (so_strategy (s_opts x.1)) eqn:E; [done| | |done].
  - destruct (one_for_all_ok idx x Hok) as [H1 H2 _ _]. split_and!; [done|done|]. intros [?|?]; congruence.
  - destruct (rest_for_one_ok idx x Hok) as [H1 H2 _ _]. split_and!; [done|done|]. intros [?|?]; congruence.
Qed.

(** The tail of the handler: from the clock on. *)
Definition restart_now (idx : nat) : M st bool :=
  let* now := __os_clock_mono in
  on_sup (fun s => __record_restart s now) ;;
  let* s := sup in
  if __intensity_exceeded s now then ret false else restart idx s ;; ret true.

Lemma restart_now_ok idx c q x y :
  based x y -> s_children x.1 !! idx = Some c -> c_pid c = Some q -> absent (__child_loop (s_opts x.1) (c_spec c)) (Some q) x.2 ->
  at_most (s_opts x.1) (live_count (s_children x.1) + 1) (restart_now idx y).2.
Proof.
  intros Hy Hi Hq Ha. set (Q := at_most (s_opts x.1) (live_count (s_children x.1) + 1)).
  assert (forall z, based x z -> Q z) as HQ.
  { intros z Hz%based_at_most. by apply (at_most_mono _ (live_count (s_children x.1))); [lia|]. }
  change (wp (restart_now idx) (fun _ => Q) y). unfold restart_now.
  eapply wp_cut; [apply (keeps_wp (based x)); [apply keeps_based; auto with sup|exact Hy]| |auto].
  intros now y1 Hy1.
  eapply wp_cut; [apply (keeps_wp (based x)); [apply keeps_based_record|exact Hy1]| |auto].
  intros [] y2 Hy2. unfold wp, bind at 1 2. simpl. destruct (__intensity_exceeded _ _); [by apply HQ|].
  destruct (same_slot x y2 idx c (ba_ids _ _ Hy2) Hi) as (d & Hd & E1 & E2).
  assert (Q (restart idx y2.1 y2).2) as H.
  { rewrite <-(ba_opts _ _ Hy2) in Ha. unfold Q. rewrite <-(ba_opts _ _ Hy2).
    apply (at_most_mono _ (live_count (s_children y2.1) + 1)); [pose proof (ba_live _ _ Hy2); lia|].
    apply (restart_ok idx d); [apply Hy2|done|done|]. rewrite E1, E2, Hq. eapply absent_later; [apply Hy2|done]. }
  unfold bind. by destruct (restart idx y2.1 y2) as [[[]|] z].
Qed.

Lemma handle_down_tail p reason x :
  handle_down p reason x =
  match __find_child_by_pid x.1 p with
  | None => (Some true, x)
  | Some idx =>
      (alive_at idx false ;; step ;;
       let* s := sup in
       if s_stop_requested s then ret false
       else
         let* c := child_at idx in
         if negb (__should_restart c reason) then
           (if c_dynamic c then on_sup (fun s => with_children s (delete idx (s_children s))) else ret tt) ;; ret true
         else restart_now idx) x
  end.
Proof. unfold handle_down, bind at 1. simpl. by destruct (__find_child_by_pid x.1 p). Qed.

Lemma down_ok p reason x :
  sup_ok x -> (forall l, (l, p) ∉ w_table x.2) ->
  at_most (s_opts x.1) (live_count (s_children x.1)) (handle_down p reason x).2.
Proof.
  intros Hok Hp. rewrite handle_down_tail. destruct (__find_child_by_pid x.1 p) as [idx|] eqn:Hf;
    [|by apply based_at_most, based_refl].
  apply find_child_spec in Hf as (c & Hi & Hal & Hq).
  assert (absent (__child_loop (s_opts x.1) (c_spec c)) (Some p) x.2) as Ha.
  { split; [|apply Hp]. apply (id_used _ _ _ (ok_ids _ Hok) idx (c_spec c) p (c_past c)).
    pose proof (idents_at _ _ _ Hi) as H. unfold ident_of in H. by rewrite Hq in H. }
  set (Q := at_most _ _). match goal with |- Q (?m x).2 => change (wp m (fun _ => Q) x) end.
  apply wp_bind. destruct (alive_at_ok idx x Hok) as (Hok1 & Ew & _ & Eo & Er). pose proof (dead_slot idx c x Hi) as Hd.
  assert (live_count (s_children (alive_at idx false x).2.1) = live_count (s_children x.1) - 1) as El.
  { destruct (alive_at_spec idx x) as (s' & -> & _ & Ec & _). simpl. by rewrite Ec, live_count_dead, Hi; simpl; rewrite Hal. }
  unfold wp at 1. destruct (alive_at idx false x) as [o x1]. simpl in Hok1, Ew, Eo, Er, Hd, El |- *. subst o.
  assert (forall z n, n <= 1 -> at_most (s_opts x1.1) (live_count (s_children x1.1) + n) z -> Q z) as HQ.
  { intros z n Hn. unfold Q. rewrite Eo. apply at_most_mono. lia. }
  apply (wp_cut _ _ (fun o y => y = (step x1).2 /\ o <> None)); [done| |by intros ? []]. intros t x2 [E2 _].
  assert (based x1 x2) as Hb2 by (rewrite E2; exact (keeps_based x1 step undisturbed_step x1 (based_refl x1 Hok1))).
  pose proof (undisturbed_same step x1 undisturbed_step) as Hs. rewrite <-E2 in Hs. clear E2.
  assert (Q x2) as HQ2 by (apply (HQ _ 0); [lia|rewrite Z.add_0_r; by apply based_at_most]).
  assert (s_children x2.1 !! idx = Some (set_alive c false)) as Hd2 by (destruct Hs as (-> & _); done).
  unfold wp, bind at 1 2. simpl. destruct (s_stop_requested x2.1); [done|].
  unfold bind at 1, child_at, bind, sup, gets. simpl. rewrite Hd2. simpl.
  destruct (negb _); [|apply (HQ _ 1); [lia|]; eapply restart_now_ok; [exact Hb2|exact Hd|exact Hq|by rewrite Eo, Ew]].
  destruct (c_dynamic c); simpl; [|done]. destruct HQ2 as (H1 & H2 & H3).
  split_and!; [by eapply delete_ok|done|]. intros Ho. simpl. rewrite (live_count_delete _ _ _ Hd2). simpl. specialize (H3 Ho). lia.
Qed.

(** ** The life of a supervisor *)

Lemma recv_ok x :
  sup_ok x ->
  wp xtc_recv (fun o y => sup_ok y /\ forall p r, o = Some (RMsg (MDown p r)) -> forall l, (l, p) ∉ w_table y.2) x.
Proof.
  intros Hok. apply wp_and; [exact (proj1 (undisturbed_ok xtc_recv x undisturbed_recv Hok))|].
  unfold wp, xtc_recv, park, bind. simpl. destruct (t_kill _ && _); [done|]. simpl.
  destruct (t_recv (next_tick x.2)) as [[p r| |]| |] eqn:E; simpl; try (intros p' r' [= F]; congruence).
  intros p' r' F l. simplify_eq. rewrite elem_of_filter. by intros [[] _].
Qed.

Lemma turn_ok : keeps sup_ok sup_turn.
Proof.
  intros x Hok. change (wp sup_turn (fun _ y => sup_ok y) x). unfold sup_turn.
  apply (wp_cut _ _ (fun _ y => sup_ok y)); [exact (proj1 (undisturbed_ok step x undisturbed_step Hok))| |done].
  intros t x1 H1.
  apply (wp_cut _ _ (fun _ y => y = x1)); [done| |by intros ? ->]. intros s y ->. destruct (s_stop_requested s); [done|].
  eapply wp_cut; [by apply recv_ok| |by intros ? []]. intros r x2 [H2 Hd]. destruct r as [[p r| |]| |]; try done.
  - apply (down_ok p r); [done|]. by eapply Hd.
  - destruct (add_child_ok reply tag spec x2 H2) as [? _]. unfold wp, bind. by destruct (__handle_add_child reply tag spec x2) as [[[]|] x3].
Qed.

Lemma loop_ok n : keeps sup_ok (sup_loop n).
Proof.
  induction n as [|n IH]; [apply keeps_ret|]. apply keeps_bind; [apply turn_ok|]. intros []; [done|apply keeps_ret].
Qed.

(** A supervisor as [xtc_sup_start] makes it. *)
Definition new_child (sp : xtc_child_spec) : child := mk_child sp None 0 false false [].
Definition new_sup (o : xtc_sup_opts) (specs : list xtc_child_spec) : supervisor :=
  mk_sup o (new_child <$> specs) [] (so_max_restarts o + 4) 0 0 true false false None.

Lemma new_sup_at o specs i c : s_children (new_sup o specs) !! i = Some c -> exists sp, c = new_child sp.
Proof. simpl. rewrite list_lookup_fmap. destruct (specs !! i); intros [= <-]. eauto. Qed.

Lemma new_sup_ok o specs w : w_log w = [] -> sup_ok (new_sup o specs, w).
Proof.
  intros El. constructor; simpl.
  - unfold live_count. induction specs as [|sp specs IH]; [done|]. simpl. rewrite filter_cons. case_decide; [done|]. done.
  - intros i c Hi. apply (new_sup_at o specs) in Hi as [sp ->]. done.
  - assert (forall i id, idents (new_sup o specs, w) !! i = Some id -> exists sp, id = (sp, None, [])) as H.
    { intros i id. unfold idents. simpl. rewrite !list_lookup_fmap. destruct (specs !! i); intros [= <-]. eauto. }
    constructor.
    + intros i sp q past Hi. apply H in Hi as [? [=]].
    + intros i j sp sp' q past past' Hi. apply H in Hi as [? [=]].
    + intros i sp p past q Hi. apply H in Hi as [? [= -> -> ->]]. by intros ?%elem_of_nil.
  - intros l p past table q. rewrite El. by intros ?%elem_of_nil.
Qed.

Lemma body_ok n o specs w : w_log w = [] -> sup_ok (sup_body n (new_sup o specs, w)).2.
Proof.
  intros El. pose proof (new_sup_ok o specs w El) as Hok. set (x := (new_sup o specs, w)) in *.
  destruct (spawn_all_ok (seq 0 (length (s_children x.1))) x) as (ok & E & H).
  - apply NoDup_seq.
  - done.
  - intros i Hi%elem_of_seq. destruct (lookup_lt_is_Some_2 (s_children x.1) i) as [c Hc]; [lia|]. exists c. split; [done|].
    by apply (new_sup_at o specs) in Hc as [sp ->].
  - unfold sup_body, n_children, bind. simpl in *. unfold bind in E. destruct (spawn_all _ x) as [o1 x1]. simpl in *. subst o1.
    destruct ok; [|apply H]. apply loop_ok, H.
Qed.

(** ** The end of a supervisor *)

(** A masked fiber is not unwound. *)
Definition runs {A} (m : M st A) : Prop := forall x, w_masked x.2 = true -> (m x).1 <> None.

Lemma runs_bind {A B} (m : M st A) (k : A -> M st B) :
  runs m -> undisturbed m -> (forall a, runs (k a)) -> runs (bind m k).
Proof.
  intros Hm Hu Hk x Hx. specialize (Hm x Hx). destruct (Hu x) as (_ & _ & _ & _ & _ & Hl & _). unfold bind.
  destruct (m x) as [[a|] x']; [|done]. apply Hk, Hl, Hx.
Qed.

Lemma runs_ret {A} (a : A) : runs (ret a).
Proof. by intros x. Qed.

Lemma runs_step : runs step.
Proof. by intros x. Qed.

Lemma runs_sup : runs sup.
Proof. by intros x. Qed.

Lemma runs_clock : runs __os_clock_mono.
Proof. by intros x. Qed.

Lemma runs_poll : runs (xtc_proc_sleep poll_ns).
Proof. intros x Hx. unfold xtc_proc_sleep, park, bind. simpl. rewrite Hx. by destruct (t_kill _). Qed.

Lemma runs_count idxs old : runs (count_pending idxs old).
Proof.
  induction idxs as [|i idxs IH]; [apply runs_ret|]. intros x Hx. rewrite count_pending_cons.
  set (x1 := (_, _)). specialize (IH x1 Hx). by destruct (count_pending idxs old x1) as [[n|] x2].
Qed.
#[export] Hint Resolve runs_ret runs_step runs_sup runs_clock runs_poll runs_count : sup.

Lemma runs_wait_loop fuel start idxs old : runs (wait_loop fuel start idxs old).
Proof.
  induction fuel as [|fuel IH]; cbn [wait_loop]; auto with sup.
  apply runs_bind; auto with sup. intros _. apply runs_bind; auto with sup. intros s.
  destruct (s_abandon_wait s); auto with sup. apply runs_bind; auto with sup. intros n. case_decide; auto with sup.
  apply runs_bind; auto with sup. intros now. case_decide; auto with sup. apply runs_bind; auto with sup.
Qed.

Lemma runs_wait lo hi old : runs (__wait_children_gone lo hi old).
Proof. apply runs_bind; auto with sup. intros start. apply runs_wait_loop. Qed.

(** The kill loop has done the slots below [k]. *)
Record killed (x : st) (k : nat) (y : st) : Prop := mk_killed {
  ki_based : based x y;
  ki_dead : forall j c, (j < k)%nat -> s_children y.1 !! j = Some c -> c_alive c = false;
  ki_rest : forall j, (k <= j)%nat -> s_children y.1 !! j = s_children x.1 !! j;
  ki_sent : forall j c, (j < k)%nat -> s_children x.1 !! j = Some c -> c_alive c = true ->
    AKill (__child_loop (s_opts x.1) (c_spec c)) (c_pid c) ∈ w_log y.2;
}.

Lemma kill_sibling_spec k x :
  let y := (__kill_sibling k x).2 in
  (__kill_sibling k x).1 = Some tt /\ s_children y.1 = s_children x.1 /\
  forall c, s_children x.1 !! k = Some c -> c_alive c = true -> AKill (__child_loop (s_opts x.1) (c_spec c)) (c_pid c) ∈ w_log y.2.
Proof.
  unfold __kill_sibling, child_at, bind, sup, gets. simpl. destruct (s_children x.1 !! k) as [c|] eqn:Hk; simpl; [|done].
  destruct (c_alive c) eqn:Ha; simpl; (split; [done|]; split; [done|]); intros d [= <-] Hd; [|congruence].
  apply elem_of_app. right. by apply list_elem_of_singleton.
Qed.

Lemma kill_slot x k y :
  killed x k y -> wp (__kill_sibling k ;; alive_at k false) (fun o z => o = Some tt /\ killed x (S k) z) y.
Proof.
  intros [Hb Hd Hr Hs]. destruct (kill_sibling_spec k y) as (Er & Ec & Hk). apply wp_bind. unfold wp at 1.
  pose proof (keeps_based x _ (undisturbed_kill k) y Hb) as Hb1.
  destruct (undisturbed_same _ y (undisturbed_kill k)) as (_ & _ & Hl). destruct (__kill_sibling k y) as [o y1]. simpl in *. subst o.
  destruct (alive_at_spec k y1) as (s' & Ea & _ & Ec' & _). pose proof (keeps_based_alive x k y1 Hb1) as Hb2.
  unfold wp. rewrite Ea in *. simpl in *. split; [done|]. constructor; [done|..]; simpl.
  - intros j c Hj. rewrite Ec'. destruct (decide (k = j)) as [<-|Hne].
    + rewrite list_lookup_alter_eq. destruct (s_children y1.1 !! k); intros [= <-]. done.
    + rewrite list_lookup_alter_ne, Ec by done. apply Hd. lia.
  - intros j Hj. rewrite Ec', list_lookup_alter_ne, Ec by lia. apply Hr. lia.
  - intros j c Hj Hc Ha. destruct (decide (j = k)) as [->|Hne].
    + rewrite <-(Hr k) in Hc by lia. rewrite <-(ba_opts _ _ Hb). by apply Hk.
    + destruct (la_log _ _ Hl) as [more ->]. apply elem_of_app. left. apply (Hs j); [lia|done|done].
Qed.

Lemma kill_all x y k n :
  killed x k y ->
  wp (each (seq k n) (fun k => __kill_sibling k ;; alive_at k false)) (fun o z => o = Some tt /\ killed x (k + n) z) y.
Proof.
  revert y k. induction n as [|n IH]; intros y k Hy; [by rewrite Nat.add_0_r|]. cbn [seq each].
  eapply wp_cut; [by apply kill_slot| |by intros ? []]. intros [] z [_ Hz]. rewrite Nat.add_succ_r. by apply (IH z (S k)).
Qed.

Lemma all_dead_count l : (forall j c, l !! j = Some c -> c_alive c = false) -> live_count l = 0.
Proof.
  intros H. unfold live_count. induction l as [|c l IH]; [done|]. rewrite filter_cons. case_decide as D.
  - by rewrite (H 0%nat c eq_refl) in D.
  - apply IH. intros j d Hj. by apply (H (S j)).
Qed.

(** What is true of a supervisor that has ended. *)
Record ended (x y : st) : Prop := mk_ended {
  en_ok : sup_ok y;
  en_count : s_n_alive y.1 = 0;
  en_dead : forall j c, s_children y.1 !! j = Some c -> c_alive c = false;
  en_alive : s_alive y.1 = false;
  en_sent : forall j c, s_children x.1 !! j = Some c -> c_alive c = true ->
    AKill (__child_loop (s_opts x.1) (c_spec c)) (c_pid c) ∈ w_log y.2;
  en_stopped : exists pre, w_log y.2 = pre ++ AStopped :: match so_exec (s_opts x.1) with Some _ => [AExecStop] | None => [] end;
}.

Definition set_masked : M st unit :=
  on_world (fun w => mk_world (w_table w) (w_next w) (w_clock w) true (w_script w) (w_log w)).

Lemma undisturbed_masked : undisturbed set_masked.
Proof. apply undisturbed_world; [|by intros w; apply no_spawn_same]. intros w. by constructor; simpl; auto; try lia. Qed.

(** The end of the hook: after the wait. *)
Definition announce (o : xtc_sup_opts) : M st unit :=
  on_sup (fun s => with_alive s false) ;; log AStopped ;;
  match so_exec o with Some _ => log AExecStop | None => ret tt end.

Lemma idents_length x y : idents y = idents x -> length (s_children y.1) = length (s_children x.1).
Proof. intros E. apply (f_equal length) in E. unfold idents in E. by rewrite !length_fmap in E. Qed.

Lemma announce_ended x y :
  killed x (length (s_children x.1)) y ->
  wp (announce (s_opts x.1)) (fun o z => o = Some tt /\ ended x z) y.
Proof.
  intros [Hb Hd Hr Hs].
  assert (forall j c, s_children y.1 !! j = Some c -> c_alive c = false) as Hdead.
  { intros j c Hj. apply (Hd j c); [|done]. rewrite <-(idents_length x y) by apply Hb. by eapply lookup_lt_Some. }
  assert (s_n_alive y.1 = 0) as Hn by (rewrite (ok_count _ (ba_ok _ _ Hb)); by apply all_dead_count).
  assert (forall w, later y.2 w -> no_spawn y.2 w -> sup_ok (with_alive y.1 false, w)) as Hfin.
  { intros w Hl Hno. eapply (sup_ok_quiet y); [done..| |apply Hb]. eapply no_spawn_log_ok; [exact Hno|apply Hb]. }
  unfold wp, announce, bind, on_sup, modify. simpl. destruct (so_exec (s_opts x.1)) as [n|] eqn:E; simpl.
  - split; [done|]. constructor; simpl; rewrite ?E; auto.
    + apply Hfin; [constructor; simpl; auto; try lia; rewrite <-app_assoc; by apply prefix_app_r|]. exists [AStopped; AExecStop]. split; [by rewrite <-app_assoc|]. repeat constructor; auto.
    + intros j c Hj Ha. rewrite <-app_assoc. apply elem_of_app. left. apply (Hs j); auto. by eapply lookup_lt_Some.
    + exists (w_log y.2). by rewrite <-app_assoc.
  - split; [done|]. constructor; simpl; rewrite ?E; auto.
    + apply Hfin; [apply later_log|]. exists [AStopped]. split; [done|]. repeat constructor; auto.
    + intros j c Hj Ha. apply elem_of_app. left. apply (Hs j); auto. by eapply lookup_lt_Some.
    + by exists (w_log y.2).
Qed.

(** Nothing has been killed yet. *)
Record hooked_at (x y : st) : Prop := mk_hooked_at {
  ho_based : based x y;
  ho_children : s_children y.1 = s_children x.1;
  ho_masked : w_masked y.2 = true;
}.

Lemma hooked_step {A} (m : M st A) x y :
  undisturbed m -> runs m -> hooked_at x y -> wp m (fun o z => o <> None /\ hooked_at x z) y.
Proof.
  intros Hu Hr [H1 H2 H3]. split; [by apply Hr|]. destruct (Hu y) as (_ & E & _ & _ & _ & Hl & _).
  constructor; [by apply keeps_based|congruence|by apply Hl].
Qed.

Lemma killed_quiet {A} (m : M st A) x n y : undisturbed m -> killed x n y -> killed x n (m y).2.
Proof.
  intros Hu [Hb Hd Hr Hs]. destruct (Hu y) as (_ & E & _ & _ & _ & Hl & _). constructor.
  - by apply keeps_based.
  - by rewrite E.
  - by rewrite E.
  - intros j c H1 H2 H3. destruct (la_log _ _ Hl) as [more ->]. apply elem_of_app. left. by eapply Hs.
Qed.

Lemma exited_ended x : sup_ok x -> wp __sup_exited (fun o y => o = Some tt /\ ended x y) x.
Proof.
  intros Hok. set (n := length (s_children x.1)). set (rold := s_restart_old x.1).
  assert (hooked_at x (set_masked x).2) as Hm.
  { constructor; [|done..]. apply keeps_based; [apply undisturbed_masked|by apply based_refl]. }
  change (wp (on_sup (fun s => with_restart_old s None) ;;
    let* have_old := if decide (n = 0%nat) then ret false else __os_calloc in
    each (seq 0 n) (fun k => __kill_sibling k ;; alive_at k false) ;;
    (if have_old then __wait_children_gone 0 n (imap (shutdown_pid rold) (s_children x.1)) ;; ret tt else ret tt) ;;
    announce (s_opts x.1)) (fun o y => o = Some tt /\ ended x y) (set_masked x).2).
  eapply wp_cut; [eapply (hooked_step _ x); [auto with sup|by intros y|exact Hm]| |by intros ? [? _]].
  intros [] y1 [_ H1].
  eapply wp_cut; [eapply (hooked_step _ x); [case_decide; auto with sup|by intros y; case_decide|exact H1]| |by intros ? [? _]].
  intros have_old y2 [_ [H2 E2 Hm2]].
  eapply wp_cut; [apply wp_and; [apply (kill_all x y2 0 n)|]| |by intros ? [[? _] _]].
  { constructor; [done|intros; lia|by rewrite E2|intros; lia]. }
  { apply (keeps_wp (fun y => w_masked y.2 = true)); [|exact Hm2]. apply keeps_each. intros k. apply keeps_bind; [|intros _ y Hy].
    - intros y Hy. by apply (undisturbed_same _ y (undisturbed_kill k)).
    - destruct (alive_at_spec k y) as (s' & -> & _). done. }
  intros [] y3 [[_ Hk] Hm3].
  apply (wp_cut _ _ (fun o z => o <> None /\ killed x n z)); [|intros [] z [_ Hz]; by apply announce_ended|by intros ? []].
  destruct have_old; [|done]. split.
  - apply (runs_bind (__wait_children_gone _ _ _)); auto with sup. apply runs_wait.
  - apply killed_quiet; [|done]. apply undisturbed_bind; auto with sup.
Qed.

(** ** The bound on live children *)

Lemma at_most_turn o n : 0 < so_max_children o <= n -> keeps (at_most o n) sup_turn.
Proof.
  intros Hn x (Hok & Eo & Hl). change (wp sup_turn (fun _ => at_most o n) x). unfold sup_turn.
  assert (forall z, same_table x z -> sup_ok z -> at_most o n z) as Hq.
  { intros z (E1 & E2 & _) Hz. split_and!; [done|congruence|]. by rewrite E1. }
  apply (wp_cut _ _ (fun _ => at_most o n)); [|intros t x1 Hx1|done].
  { apply Hq; [apply undisturbed_same; auto with sup|]. exact (proj1 (undisturbed_ok step x undisturbed_step Hok)). }
  clear x Hok Eo Hl Hq.
  apply (wp_cut _ _ (fun _ y => y = x1)); [done| |by intros ? ->]. intros s y ->. destruct (s_stop_requested s); [done|].
  destruct Hx1 as (Hok & Eo & Hl).
  eapply wp_cut; [eapply (wp_and _ _ (fun _ => same_table x1)); [by apply recv_ok|apply (undisturbed_same xtc_recv x1 undisturbed_recv)]| |].
  2: { intros z [[Hz _] (E1 & E2 & _)]. split_and!; [done|congruence|by rewrite E1]. }
  intros r x2 [[H2 Hd] (E1 & E2 & _)].
  assert (at_most o n x2) as Hx2 by (split_and!; [done|congruence|by rewrite E1]).
  destruct r as [[p r| |]| |]; try done.
  - destruct (down_ok p r x2 H2 (Hd p r eq_refl)) as (K1 & K2 & K3). rewrite E2, Eo in K2, K3.
    split_and!; [done|done|]. intros Ho. specialize (K3 Ho). rewrite E1 in K3. specialize (Hl Ho). lia.
  - destruct (add_child_ok reply tag spec x2 H2) as (K1 & K2 & K3). unfold wp, bind.
    assert (at_most o n (__handle_add_child reply tag spec x2).2) as H; [|by destruct (__handle_add_child reply tag spec x2) as [[[]|] x3]].
    rewrite E2, Eo in K2, K3. split_and!; [done|done|]. intros Ho. specialize (K3 (proj1 Hn)). rewrite E1 in K3. specialize (Hl Ho). lia.
Qed.

Lemma live_count_length l : live_count l <= Z.of_nat (length l).
Proof. unfold live_count. pose proof (length_filter (fun c => c_alive c = true) l). lia. Qed.

Lemma body_at_most n o specs w :
  w_log w = [] -> 0 < so_max_children o ->
  at_most o (Z.max (Z.of_nat (length specs)) (so_max_children o)) (sup_body n (new_sup o specs, w)).2.
Proof.
  intros El Hm. pose proof (new_sup_ok o specs w El) as Hok. set (x := (new_sup o specs, w)) in *.
  destruct (spawn_all_ok (seq 0 (length (s_children x.1))) x) as (ok & E & [H1 H2 H3 H4 H5]).
  - apply NoDup_seq.
  - done.
  - intros i Hi%elem_of_seq. destruct (lookup_lt_is_Some_2 (s_children x.1) i) as [c Hc]; [lia|]. exists c. split; [done|].
    by apply (new_sup_at o specs) in Hc as [sp ->].
  - unfold sup_body, n_children, bind. simpl in *. unfold bind in E. destruct (spawn_all _ x) as [o1 x1]. simpl in *. subst o1.
    assert (at_most o (Z.max (Z.of_nat (length specs)) (so_max_children o)) x1) as Hx1.
    { split_and!; [done|done|]. intros _. pose proof (live_count_length (s_children x1.1)). rewrite H5, length_fmap in H. lia. }
    destruct ok; [|done]. clear - Hx1 Hm. revert x1 Hx1.
    induction n as [|n IH]; intros x1 Hx1; [done|]. cbn [sup_loop]. unfold bind.
    pose proof (at_most_turn o (Z.max (Z.of_nat (length specs)) (so_max_children o)) ltac:(lia) x1 Hx1) as Ht. destruct (sup_turn x1) as [[[]|] x2]; simpl in *; auto.
Qed.

(** ** Restart intensity *)

(** The ring after the restarts at the times [ts]: the last [rr_cap] of them. *)
Lemma ring_is_suffix (s : supervisor) ts cap :
  (0 < cap)%nat -> s_rr_cap s = Z.of_nat cap -> s_recent_restarts s = [] ->
  let s' := fold_left __record_restart ts s in
  s_recent_restarts s' = drop (length ts - cap) ts /\ s_rr_cap s' = s_rr_cap s /\ s_opts s' = s_opts s.
Proof.
  intros Hc Ecap E0. induction ts as [|t ts IH] using rev_ind; [done|].
  rewrite fold_left_app. simpl in *. destruct IH as (E1 & E2 & E3). split_and!; [|done|done].
  rewrite E1, E2, Ecap, length_app, length_drop. simpl. case_decide as D.
  - replace (length ts - cap)%nat with 0%nat by lia. by replace (length ts + 1 - cap)%nat with 0%nat by lia.
  - rewrite drop_drop, drop_app_le by lia. f_equal. f_equal. lia.
Qed.

(** Times in order: those after [cutoff] are a suffix. *)
Lemma sorted_window ts cutoff k :
  StronglySorted Z.le ts ->
  length (filter (fun t => cutoff < t) (drop k ts)) = Nat.min (length (filter (fun t => cutoff < t) ts)) (length ts - k).
Proof.
  revert ts. induction k as [|k IH]; intros ts Hs.
  { rewrite drop_0. pose proof (length_filter (fun t => cutoff < t) ts). lia. }
  destruct ts as [|t ts]; [done|]. apply StronglySorted_inv in Hs as [Hs Hall]. simpl drop. rewrite IH by done.
  rewrite filter_cons. simpl length at 3. pose proof (length_filter (fun t => cutoff < t) ts). case_decide as D; [|done].
  assert (filter (fun t => cutoff < t) ts = ts) as ->; [|cbn [length]; lia].
  rewrite Forall_forall in Hall. clear -D Hall. induction ts as [|u ts IH]; [done|]. rewrite filter_cons, decide_True, IH; [done| |].
  - intros v Hv. apply Hall. by right.
  - specialize (Hall u (list_elem_of_here _ _)). lia.
Qed.

(** ** The caller of [xtc_sup_add_child] *)

(** The wait for the reply: what each turn reads of the clock, and the reply
    its selective receive yields, if any; [None]: still waiting. *)
Fixpoint await_reply (tag deadline : Z) (turns : list (Z * option (Z * Z * pid))) : option (rc * pid) :=
  match turns with
  | [] => None
  | (now, r) :: turns =>
      if decide (deadline <= now) then Some (XTC_E_AGAIN, None)
      else match r with
      | None => Some (XTC_E_AGAIN, None)
      | Some (tag', ok, p) =>
          if decide (tag' <> tag) then await_reply tag deadline turns
          else if decide (ok = 2) then Some (XTC_E_RESOURCE, None)
          else if decide (ok = 0) then Some (XTC_E_NOMEM, None)
          else Some (XTC_OK, p)
      end
  end.

(** ** What a supervisor promises *)

Lemma entry_ok hooked n o specs w : w_log w = [] -> sup_ok (__sup_entry hooked n (new_sup o specs, w)).2.
Proof.
  intros El. pose proof (body_ok n o specs w El) as Hb. unfold __sup_entry.
  destruct (sup_body n (new_sup o specs, w)) as [[[]|] y]; simpl in Hb; [done| |destruct hooked; [|done]];
    exact (en_ok _ _ (proj2 (exited_ended y Hb))).
Qed.

(** C10: the invariant of a supervisor's life.  Whatever children do, whenever
    they die, whatever messages come, however often memory or a spawn is
    refused, and also if the supervisor is killed on the way: the counter
    other threads read is the number of live children; live children have
    pids of their own; and no two incarnations of a child are ever in the
    process table together, neither when one is spawned nor later. *)
Theorem sup_life_safe hooked n o specs w :
  w_log w = [] ->
  let y := (__sup_entry hooked n (new_sup o specs, w)).2 in
  s_n_alive y.1 = live_count (s_children y.1) /\
  (forall i j c d, s_children y.1 !! i = Some c -> s_children y.1 !! j = Some d ->
     c_alive c = true -> c_pid c = c_pid d -> i = j) /\
  (forall l p past table q, ASpawn l p past table ∈ w_log y.2 -> Some q ∈ past -> (l, q) ∉ table) /\
  (forall i c q, s_children y.1 !! i = Some c -> Some q ∈ c_past c ->
     (__child_loop (s_opts y.1) (c_spec c), q) ∉ w_table y.2).
Proof.
  intros El y. destruct (entry_ok hooked n o specs w El) as [H1 H2 H3 H4]. fold y in H1, H2, H3, H4.
  split_and!; [done| |exact H4|].
  - intros i j c d Hi Hj Ha E. destruct (H2 i c Hi Ha) as [q Hq].
    pose proof (idents_at _ _ _ Hi) as Ii. pose proof (idents_at _ _ _ Hj) as Ij. unfold ident_of in *.
    rewrite <-E, Hq in Ij. rewrite Hq in Ii. exact (id_unique _ _ _ H3 _ _ _ _ _ _ _ Ii Ij).
  - intros i c q Hi Hq. exact (proj2 (id_past _ _ _ H3 _ _ _ _ _ (idents_at _ _ _ Hi) Hq)).
Qed.

(** C11: a group restart does not overlap generations.  From any state of the
    invariant, [one_for_all] spawns no replacement while any old child is
    still in the process table, [rest_for_one] none while the dead child or a
    later one is; both keep the invariant, also when they give up. *)
Theorem sup_group_no_overlap dead x :
  sup_ok x ->
  group_ok 0 x (__do_one_for_all dead x).2 /\ group_ok dead x (__do_rest_for_one dead x).2.
Proof. intros Hok. split; [exact (one_for_all_ok dead x Hok)|exact (rest_for_one_ok dead x Hok)]. Qed.

(** C37: the ring of restart times forgets nothing that matters.  It holds
    [max_restarts + 4] time stamps; after restarts at the times [ts], in order,
    the count it gives of those within the period is the one the full history
    gives, cut off at its size.  So any limit up to [max_restarts + 3] is
    decided as the full history would: with more than [max_restarts] restarts
    in the period the supervisor gives up, with fewer it goes on.  The case of
    exactly [max_restarts] is left open here: the sources and the manual page
    disagree on it ([intensity_at_the_limit]). *)
Theorem sup_intensity_ring o specs ts now :
  0 <= so_max_restarts o -> StronglySorted Z.le ts ->
  let s := fold_left __record_restart ts (new_sup o specs) in
  let recent l := Z.of_nat (length (filter (fun t => now - so_period_ns o < t) l)) in
  recent (s_recent_restarts s) = Z.min (recent ts) (so_max_restarts o + 4) /\
  (so_max_restarts o < recent ts -> __intensity_exceeded s now = true) /\
  (recent ts < so_max_restarts o -> __intensity_exceeded s now = false).
Proof.
  intros Hm Hs s recent. set (cap := Z.to_nat (so_max_restarts o + 4)).
  destruct (ring_is_suffix (new_sup o specs) ts cap) as (E1 & _ & E3); [lia|simpl; lia|done|]. fold s in E1, E3.
  assert (recent (s_recent_restarts s) = Z.min (recent ts) (so_max_restarts o + 4)) as E.
  { unfold recent. rewrite E1, sorted_window by done. pose proof (length_filter (fun t => now - so_period_ns o < t) ts). lia. }
  unfold __intensity_exceeded. rewrite E3. simpl. fold (recent (s_recent_restarts s)). rewrite E.
  split_and!; [done|..]; intros H; [apply bool_decide_true|apply bool_decide_false]; lia.
Qed.

(** The wait for old children ends.  It polls every millisecond until all
    have gone, the owner abandons it, or five seconds have passed: after at
    most [wait_fuel] polls it has returned, and with more polls allowed it
    returns the same in the same state. *)
Theorem sup_wait_bounded more start idxs old x :
  start <= w_clock x.2 ->
  wait_loop (wait_fuel + more) start idxs old x = wait_loop wait_fuel start idxs old x.
Proof.
  intros H. assert (wait_fuel = S (Z.to_nat 5001)) as -> by (by vm_compute). apply wait_loop_enough.
  unfold XTC_SUP_CLEANUP_WAIT_NS, poll_ns. lia.
Qed.

(** A supervisor's end.  When its loop ends, when a first spawn fails, or
    when it is killed anywhere (with the hook installed), it has sent a kill
    to every child that was alive, marked them dead, brought its counter to
    zero, cleared its flag, and announced the stop after all that, once and
    last (but for the executor it releases). *)
Theorem sup_shutdown hooked n o specs w :
  w_log w = [] ->
  (sup_body n (new_sup o specs, w)).1 <> Some true ->
  ((sup_body n (new_sup o specs, w)).1 = None -> hooked = true) ->
  (__sup_entry hooked n (new_sup o specs, w)).1 = Some tt /\
  ended (sup_body n (new_sup o specs, w)).2 (__sup_entry hooked n (new_sup o specs, w)).2.
Proof.
  intros El Hr Hk. pose proof (body_ok n o specs w El) as Hb. unfold __sup_entry.
  destruct (sup_body n (new_sup o specs, w)) as [[[]|] y]; simpl in *; [done|exact (exited_ended y Hb)|].
  rewrite Hk by done. exact (exited_ended y Hb).
Qed.

(** The bound on a pool.  With a positive [max_children] and a strategy that
    restarts single children, never more children are alive than the larger
    of the bound and the number of static children, over adds, deaths and
    restarts. *)
Theorem sup_pool_bound n o specs w :
  w_log w = [] -> 0 < so_max_children o -> one_child o ->
  let y := (sup_body n (new_sup o specs, w)).2 in
  live_count (s_children y.1) <= Z.max (Z.of_nat (length specs)) (so_max_children o).
Proof. intros El Hm Ho y. by apply (body_at_most n o specs w El Hm). Qed.

(** ** Example runs *)

Definition demo_opts (s : xtc_restart_strategy) : xtc_sup_opts := mk_opts s 3 5000000000 None 2.
Definition permanent (b : Z) : xtc_child_spec := mk_spec b XTC_RESTART_PERMANENT 0.
Definition temporary (b : Z) : xtc_child_spec := mk_spec b XTC_RESTART_TEMPORARY 0.
Definition demo_world (script : list tick) : world := mk_world ∅ 1 0 false script [].
Definition says (m : sup_msg) : tick := mk_tick [] 0 false false false true XTC_OK (RMsg m).
Definition leaves (l : list (Z * Z)) : tick := mk_tick l 0 false false false true XTC_OK RAgain.
Definition stops : tick := mk_tick [] 0 true false false true XTC_OK RAgain.

(** Two children; the first one's DOWN comes, then a stop is requested. *)
Definition demo_script : list tick := [quiet; quiet; quiet; says (MDown 1 7); quiet; quiet; quiet; quiet; stops].

Lemma sup_life_safe_witness :
  let y := (__sup_entry true 9 (new_sup (demo_opts XTC_SUP_ONE_FOR_ONE) [permanent 0; permanent 1], demo_world demo_script)).2 in
  s_n_restarts_total y.1 = 1 /\ s_n_alive y.1 = live_count (s_children y.1).
Proof.
  split; [vm_compute; reflexivity|].
  exact (proj1 (sup_life_safe true 9 (demo_opts XTC_SUP_ONE_FOR_ONE) [permanent 0; permanent 1] (demo_world demo_script) eq_refl)).
Defined.

(** Two running children (pids 1 and 2), and a script in which both are gone at
    the second poll. *)
Definition demo_group : st :=
  (sup_body 0 (new_sup (demo_opts XTC_SUP_ONE_FOR_ALL) [permanent 0; permanent 1],
    demo_world (replicate 10 quiet ++ [leaves [(0, 1); (0, 2)]]))).2.

Lemma sup_group_no_overlap_witness :
  let y := (__do_one_for_all 0 demo_group).2 in
  (c_pid <$> s_children demo_group.1) = [Some 1; Some 2] /\ (c_pid <$> s_children y.1) = [Some 3; Some 4] /\ group_ok 0 demo_group y.
Proof.
  split; [vm_compute; reflexivity|]. split; [vm_compute; reflexivity|].
  refine (proj1 (sup_group_no_overlap 0 demo_group _)).
  apply body_ok. reflexivity.
Defined.

Lemma sup_intensity_ring_witness :
  __intensity_exceeded (fold_left __record_restart [1; 2; 3; 4] (new_sup (demo_opts XTC_SUP_ONE_FOR_ONE) [])) 4 = true.
Proof.
  refine (proj1 (proj2 (sup_intensity_ring (demo_opts XTC_SUP_ONE_FOR_ONE) [] [1; 2; 3; 4] 4 _ _)) _).
  - discriminate.
  - repeat constructor; lia.
  - vm_compute. reflexivity.
Defined.

(** Exactly [max_restarts] restarts in the period do not exhaust the
    supervisor. *)
Example intensity_at_the_limit :
  so_max_restarts (demo_opts XTC_SUP_ONE_FOR_ONE) = 3 /\
  __intensity_exceeded (fold_left __record_restart [1; 2; 3] (new_sup (demo_opts XTC_SUP_ONE_FOR_ONE) [])) 3 = false.
Proof. vm_compute. split; reflexivity. Qed.

Lemma sup_wait_bounded_witness :
  let x := (new_sup (demo_opts XTC_SUP_ONE_FOR_ALL) [permanent 0],
            mk_world {[(0, 1)]} 2 0 false (replicate 7 quiet ++ [leaves [(0, 1)]]) []) in
  (wait_loop (wait_fuel + 7) 0 [0%nat] [Some 1] x).1 = Some true.
Proof.
  intros x. rewrite (sup_wait_bounded 7 0 [0%nat] [Some 1] x); [vm_compute; reflexivity|discriminate].
Defined.

Lemma sup_shutdown_witness :
  let x := (new_sup (demo_opts XTC_SUP_ONE_FOR_ONE) [permanent 0], demo_world [quiet; quiet; quiet; stops]) in
  s_n_alive (__sup_entry true 9 x).2.1 = 0.
Proof.
  intros x. refine (en_count _ _ (proj2 (sup_shutdown true 9 (demo_opts XTC_SUP_ONE_FOR_ONE) [permanent 0]
    (demo_world [quiet; quiet; quiet; stops]) eq_refl _ _))).
  - vm_compute. discriminate.
  - reflexivity.
Defined.

(** Three adds where two fit. *)
Definition add_script : list tick :=
  [quiet; says (MAddChild 9 1 (permanent 3)); quiet; quiet; quiet; says (MAddChild 9 2 (permanent 3)); quiet; quiet;
   quiet; says (MAddChild 9 3 (permanent 3))].

Lemma sup_pool_bound_witness :
  let y := (sup_body 9 (new_sup (demo_opts XTC_SUP_SIMPLE_OFO) [], demo_world add_script)).2 in
  live_count (s_children y.1) = 2 /\ live_count (s_children y.1) <= 2.
Proof.
  split; [vm_compute; reflexivity|].
  refine (sup_pool_bound 9 (demo_opts XTC_SUP_SIMPLE_OFO) [] (demo_world add_script) eq_refl _ _); [reflexivity|right; reflexivity].
Defined.

(** A temporary child is restarted after all: if a sibling of a [one_for_all]
    supervisor dies, the temporary child that ended long ago is spawned
    again. *)
Example sup_temporary_restarted :
  exists script y,
    sup_body 9 (new_sup (demo_opts XTC_SUP_ONE_FOR_ALL) [permanent 0; temporary 1], demo_world script) = (Some true, y) /\
    (exists c, s_children y.1 !! 1%nat = Some c /\ c_alive c = true /\ c_past c = [Some 2; None]) /\
    __should_restart (new_child (temporary 1)) 0 = false.
Proof.
  exists [quiet; quiet; quiet; says (MDown 2 0); quiet; quiet; says (MDown 1 7)]. eexists. split; [vm_compute; reflexivity|].
  split; [|reflexivity]. eexists. split; [vm_compute; reflexivity|]. split; reflexivity.
Qed.
