(* ===== verification/Links.v ===== *)
(** * Links, monitors and process exit (src/ptc/proc.c)

    A link ties the fates of two processes, a monitor tells one process of
    another's end.  Both keep an entry at each end: links on the [links] list
    of either process, a monitor as an entry on the watcher's [monitors],
    counted by its holders, and one on the target's [monitored_by] that points
    to it.  A process's own lists are written by its own fiber without a lock;
    a peer pushes onto [links] and [monitored_by] under the table's lock, which
    an exiting process also takes to detach its lists and leave the table.

    The model is a world of processes, each at a program counter, with the
    mailbox of Mbox.v.  Steps are critical sections, atomic accesses and reads
    or writes of a list head that another fiber may write; memory may be
    refused at every allocation.  Pids are never reused (Ptab.v), and a pid is
    known to others only once its spawn has returned. *)

From S2P Require Import Prelude Wire Mbox.

Local Open Scope Z_scope.

(** ** Data *)

Inductive xtc_msg : Type :=
  | Down (ref : Z) (who : nat) (reason kind : Z)
  | Exit (who : nat) (reason kind : Z)
  | User (body : Z).

(** The watcher's entry, which its reference names; the target's entry is the
    pair of the reference and the watcher. *)
Record mon_entry : Type := mk_mon { me_refs : Z; me_watcher : nat; me_target : nat }.

(** What the caller of [__proc_spawn_core] becomes to the child. *)
Inductive relation : Type := RNone | RLink | RMonitor (ref : Z).

(** Where a process is.  [LRun]: in its body, or in its at-exit hooks when it
    is no longer alive.  [LMon*]: in [xtc_monitor]; [LWatch], [LSweep]: in
    [__mon_watch_push], for a monitor or for the spawn of a child; [LLink*]: in
    [xtc_link] or linking a child; [LUnlink]: in [xtc_unlink] or undoing a
    child's link, the list read; [LSpawned]: before the child is enqueued;
    [LUndo]: before the rest of a failed spawn is undone; then the parts of
    [__notify_links_and_monitors].  [LUnborn]: not yet enqueued. *)
Inductive lpc : Type :=
  | LUnborn
  | LRun
  | LMonGone (t : nat)
  | LMonNoproc (t : nat) (ref : Z)
  | LMonNew (t : nat)
  | LMonTarget (t : nat) (ref : Z)
  | LMonPush (t : nat) (ref : Z)
  | LWatch (ref : Z) (k : option nat)
  | LSweep (ref : Z) (k : option nat) (kept todo : list Z)
  | LLinkNew (t : nat) (k : option nat)
  | LLinkPush (t : nat) (old : list nat) (k : option nat)
  | LLinkPeer (t : nat)
  | LUnlink (t : nat) (old : list nat) (k : option nat)
  | LSpawned (c : nat) (r : relation)
  | LUndo (c : nat)
  | LLinks (ls : list nat) (mb : list (Z * nat)) (ms : list Z)
  | LLinkSig (q : nat) (trap : bool) (ls : list nat) (mb : list (Z * nat)) (ms : list Z)
  | LDowns (mb : list (Z * nat)) (ms : list Z)
  | LPut (ref : Z) (mb : list (Z * nat)) (ms : list Z)
  | LPuts (ms : list Z)
  | LGone.

(** The watcher's side of its monitors, written by its own fiber only.
    [wl_pushes], [wl_visits]: how many entries were pushed and how many the
    sweeps looked at (neither in the code). *)
Record watchlist : Type := mk_wl {
  wl_monitors : list Z;
  wl_n : Z;
  wl_sweep_at : Z;
  wl_pushes : Z;
  wl_visits : Z;
}.

(** What an exit did about a linked peer: it was not in the table; it trapped
    exits, and was sent the signal, which was queued or not, with memory given
    or refused; it did not trap, and was killed unless the exit was normal. *)
Inductive told : Type := TNone | TTrap (queued mem : bool) | TKill.

(** [struct xtc_proc], as far as links, monitors and exits go.  [p_told]: the
    linked peers an exit found on its list, and those it has dealt with and
    how; [p_birth]: the parent and its monitor (neither
    in the code). *)
Record proc : Type := mk_proc {
  p_pc : lpc;
  p_mb : mailbox (E := xtc_msg) * recv_pc (E := xtc_msg);
  p_here : bool;
  p_trap : bool;
  p_kill : Z;
  p_links : list nat;
  p_by : list (Z * nat);
  p_watch : watchlist;
  p_exit : Z * Z;
  p_told : list nat * list (nat * told);
  p_birth : nat * option Z;
}.

Definition with_pc (pc : lpc) (p : proc) : proc :=
  mk_proc pc (p_mb p) (p_here p) (p_trap p) (p_kill p) (p_links p) (p_by p) (p_watch p) (p_exit p) (p_told p) (p_birth p).
Definition with_mb mb (p : proc) : proc :=
  mk_proc (p_pc p) mb (p_here p) (p_trap p) (p_kill p) (p_links p) (p_by p) (p_watch p) (p_exit p) (p_told p) (p_birth p).
Definition with_trap (trap : bool) (p : proc) : proc :=
  mk_proc (p_pc p) (p_mb p) (p_here p) trap (p_kill p) (p_links p) (p_by p) (p_watch p) (p_exit p) (p_told p) (p_birth p).
Definition with_kill (kill : Z) (p : proc) : proc :=
  mk_proc (p_pc p) (p_mb p) (p_here p) (p_trap p) kill (p_links p) (p_by p) (p_watch p) (p_exit p) (p_told p) (p_birth p).
Definition with_links (links : list nat) (p : proc) : proc :=
  mk_proc (p_pc p) (p_mb p) (p_here p) (p_trap p) (p_kill p) links (p_by p) (p_watch p) (p_exit p) (p_told p) (p_birth p).
Definition with_by (by_ : list (Z * nat)) (p : proc) : proc :=
  mk_proc (p_pc p) (p_mb p) (p_here p) (p_trap p) (p_kill p) (p_links p) by_ (p_watch p) (p_exit p) (p_told p) (p_birth p).
Definition with_watch (wl : watchlist) (p : proc) : proc :=
  mk_proc (p_pc p) (p_mb p) (p_here p) (p_trap p) (p_kill p) (p_links p) (p_by p) wl (p_exit p) (p_told p) (p_birth p).
Definition with_told (q : nat) (o : told) (p : proc) : proc :=
  mk_proc (p_pc p) (p_mb p) (p_here p) (p_trap p) (p_kill p) (p_links p) (p_by p) (p_watch p) (p_exit p) ((p_told p).1, (q, o) :: (p_told p).2) (p_birth p).

Definition p_alive (p : proc) : bool := mb_alive (p_mb p).1.

(** The world: the processes that were ever spawned, the allocated watcher's
    entries, [__mon_ref_seq]; then what happened (not in the code): the
    monitors that are installed, and the DOWN signals that were dropped, with
    whether memory was given for them. *)
Record world : Type := mk_world {
  w_procs : gmap nat proc;
  w_mons : gmap Z mon_entry;
  w_seq : Z;
  w_inst : gmap Z (nat * nat);
  w_lost : list (Z * bool);
}.

Definition at_ (w : world) (i : nat) (f : proc -> proc) : world :=
  mk_world (alter f i (w_procs w)) (w_mons w) (w_seq w) (w_inst w) (w_lost w).
Definition with_mons (w : world) (m : gmap Z mon_entry) : world :=
  mk_world (w_procs w) m (w_seq w) (w_inst w) (w_lost w).
Definition with_inst (w : world) (m : gmap Z (nat * nat)) : world :=
  mk_world (w_procs w) (w_mons w) (w_seq w) m (w_lost w).
Definition lose (w : world) (ref : Z) (mem : bool) : world :=
  mk_world (w_procs w) (w_mons w) (w_seq w) (w_inst w) ((ref, mem) :: w_lost w).
Definition alive_at (w : world) (i : nat) : bool :=
  match w_procs w !! i with Some p => p_alive p | None => false end.
Definition here_at (w : world) (i : nat) : bool :=
  match w_procs w !! i with Some p => p_here p | None => false end.

(** ** Operations *)

(** A delivery that found its target; [sys]: a DOWN or EXIT signal. *)
Definition deliver_to (e : xtc_msg) (sys full : bool) (p : proc) : proc :=
  with_mb ((__mbox_deliver_locked (p_mb p).1 e sys full).1.2, (p_mb p).2) p.

(** [__send_ex]: refused for a pid that is not in a table or no longer alive,
    and for want of memory for the envelope. *)
Definition __send_ex (w : world) (q : nat) (e : xtc_msg) (sys full mem : bool) : rc * world :=
  if negb (here_at w q) || negb (alive_at w q) then (XTC_E_INVAL, w)
  else if negb mem then (XTC_E_NOMEM, w)
  else match w_procs w !! q with
       | Some p => ((__mbox_deliver_locked (p_mb p).1 e sys full).1.1, at_ w q (deliver_to e sys full))
       | None => (XTC_E_INVAL, w)
       end.

Definition __send_sys (w : world) (q : nat) (e : xtc_msg) (mem : bool) : rc * world := __send_ex w q e true false mem.

(** The encoded reason of a kill; the first kill wins. *)
Definition kill_code (reason : Z) : Z := if decide (reason = 0) then 1 else i32 (reason + 1).

Definition __exit_pid_on (w : world) (q : nat) (reason : Z) : rc * world :=
  if negb (here_at w q) || negb (alive_at w q) then (XTC_E_INVAL, w)
  else (XTC_OK, at_ w q (fun p => if decide (p_kill p = 0) then with_kill (kill_code reason) p else p)).

(** [++__mon_ref_seq] *)
Definition next_ref (w : world) : Z * world :=
  let r := u64 (w_seq w + 1) in
  (r, mk_world (w_procs w) (w_mons w) r (w_inst w) (w_lost w)).

Definition __mon_put (w : world) (ref : Z) : world :=
  match w_mons w !! ref with
  | Some e =>
      if decide (me_refs e = 1) then with_mons w (delete ref (w_mons w))
      else with_mons w (<[ref := mk_mon (me_refs e - 1) (me_watcher e) (me_target e)]> (w_mons w))
  | None => w
  end.

Definition __peer_push_link (w : world) (q self : nat) : bool * world :=
  if here_at w q && alive_at w q then (true, at_ w q (fun p => with_links (self :: p_links p) p)) else (false, w).

(** The target gets its entry: the monitor is installed. *)
Definition install (w : world) (t : nat) (ref : Z) (i : nat) : world :=
  with_inst (at_ w t (fun p => with_by ((ref, i) :: p_by p) p)) (<[ref := (i, t)]> (w_inst w)).

Definition __peer_push_monitored_by (w : world) (q : nat) (ref : Z) (watcher : nat) : bool * world :=
  if here_at w q && alive_at w q
  then (true, install w q ref watcher)
  else (false, w).

(** The unlocked write of [xtc_unlink]: over the head when the entry was the
    first of the list that was read, else inside the list. *)
Fixpoint remove_first (t : nat) (l : list nat) : list nat :=
  match l with
  | [] => []
  | q :: l => if decide (q = t) then l else q :: remove_first t l
  end.

Definition unlink_write (t : nat) (old cur : list nat) : list nat :=
  match old with
  | q :: rest => if decide (q = t) then rest else take (length cur - length old) cur ++ remove_first t old
  | [] => cur
  end.

(** The watcher's list: after a sweep has kept [kept], and a push. *)
Definition wl_push (ref : Z) (wl : watchlist) : watchlist :=
  mk_wl (ref :: wl_monitors wl) (wl_n wl + 1) (wl_sweep_at wl) (wl_pushes wl + 1) (wl_visits wl).
Definition wl_swept (kept : list Z) (wl : watchlist) : watchlist :=
  mk_wl kept (wl_n wl) (if decide (wl_n wl < 32) then 64 else 2 * wl_n wl) (wl_pushes wl) (wl_visits wl).
Definition wl_drop (wl : watchlist) : watchlist :=
  mk_wl (wl_monitors wl) (wl_n wl - 1) (wl_sweep_at wl) (wl_pushes wl) (wl_visits wl + 1).
Definition wl_keep (wl : watchlist) : watchlist :=
  mk_wl (wl_monitors wl) (wl_n wl) (wl_sweep_at wl) (wl_pushes wl) (wl_visits wl + 1).

(** The undo of a spawn: the first entry whose target is the child. *)
Fixpoint remove_target (mons : gmap Z mon_entry) (c : nat) (l : list Z) : option (Z * list Z) :=
  match l with
  | [] => None
  | r :: l =>
      if decide (me_target <$> mons !! r = Some c) then Some (r, l)
      else match remove_target mons c l with Some (x, l') => Some (x, r :: l') | None => None end
  end.

(** A new process; [cap], [wm]: its mailbox's bound and watermark. *)
Definition new_proc (cap wm : Z) (links : list nat) (birth : nat * option Z) : proc :=
  mk_proc LUnborn (mbox0 cap wm) true false 0 links [] (mk_wl [] 0 0 0 0) (0, 0) ([], []) birth.

(** Leaving the body: the exit is recorded, [alive] cleared, and a pending
    kill consumed before the hooks run. *)
Definition proc_leave (reason kind : Z) (p : proc) : proc :=
  mk_proc (p_pc p) (with_dead (p_mb p).1 false (mb_drop_total (p_mb p).1), PGone) (p_here p) (p_trap p) 0
    (p_links p) (p_by p) (p_watch p) (reason, kind) (p_told p) (p_birth p).

(** What [setjmp] returns for [longjmp] with [reason + 1], less one, and the
    kind that goes with an exit code. *)
Definition jump_reason (reason : Z) : Z := let v := i32 (reason + 1) in if decide (v = 0) then 0 else v - 1.
Definition kind_of (reason : Z) : Z := if decide (reason = 0) then XTC_DOWN_KIND_CLEAN else XTC_DOWN_KIND_EXIT.

(** The body returned; a kill that was never delivered is the reason. *)
Definition return_reason (p : proc) : Z := if decide (p_kill p = 0) then 0 else p_kill p - 1.

(** The detach, under the table's lock. *)
Definition proc_detach (p : proc) : proc :=
  mk_proc (LLinks (p_links p) (p_by p) (wl_monitors (p_watch p))) (p_mb p) false (p_trap p) (p_kill p) [] []
    (mk_wl [] (wl_n (p_watch p)) (wl_sweep_at (p_watch p)) (wl_pushes (p_watch p)) (wl_visits (p_watch p)))
    (p_exit p) (p_links p, []) (p_birth p).

(** The child of a spawn that failed. *)
Definition scrap (p : proc) : proc :=
  mk_proc LGone (with_dead (p_mb p).1 false (mb_drop_total (p_mb p).1), PGone) false (p_trap p) (p_kill p) [] []
    (p_watch p) (p_exit p) (p_told p) (p_birth p).

Definition set_refs (w : world) (ref n : Z) : world :=
  with_mons w (alter (fun e => mk_mon n (me_watcher e) (me_target e)) ref (w_mons w)).

(** After the push on the watcher's list: back to the body, or the child gets
    its entry (it is not yet enqueued, so without a lock). *)
Definition watched (w : world) (i : nat) (wl : watchlist) (ref : Z) (k : option nat) : world :=
  match k with
  | None => at_ w i (fun p => with_pc LRun (with_watch wl p))
  | Some c => at_ (install w c ref i) i (fun p => with_pc (LSpawned c (RMonitor ref)) (with_watch wl p))
  end.

(** ** Steps *)

Definition runs (w : world) (i : nat) (pc : lpc) (p : proc) : Prop := w_procs w !! i = Some p /\ p_pc p = pc.

(** A pid another process may know. *)
Definition known (w : world) (t : nat) : Prop := forall p, w_procs w !! t = Some p -> p_pc p <> LUnborn.

Definition spawned_into (w : world) (c : nat) (p : proc) : world :=
  mk_world (<[c := p]> (w_procs w)) (w_mons w) (w_seq w) (w_inst w) (w_lost w).

Definition idle_or_parked (r : recv_pc (E := xtc_msg)) : bool := match r with PIdle | PParked _ => true | _ => false end.

(** The steps of an exiting process that deal with a linked peer: it is not in
    the table; it is, and whether it traps exits is read; then it is sent the
    signal, or killed. *)
Inductive tells (w : world) : world -> Prop :=
  | ts_gone i p q ls mb ms :
      runs w i (LLinks (q :: ls) mb ms) p -> here_at w q = false ->
      tells w (at_ w i (fun p => with_pc (LLinks ls mb ms) (with_told q TNone p)))
  | ts_found i p q pq ls mb ms :
      runs w i (LLinks (q :: ls) mb ms) p -> w_procs w !! q = Some pq -> p_here pq = true ->
      tells w (at_ w i (with_pc (LLinkSig q (p_trap pq) ls mb ms)))
  | ts_told i p q ls mb ms mem :
      runs w i (LLinkSig q true ls mb ms) p ->
      tells w (at_ (__send_sys w q (Exit i (p_exit p).1 (p_exit p).2) mem).2 i
                 (fun p' => with_pc (LLinks ls mb ms)
                   (with_told q (TTrap (bool_decide ((__send_sys w q (Exit i (p_exit p).1 (p_exit p).2) mem).1 = XTC_OK)) mem) p')))
  | ts_killed i p q ls mb ms :
      runs w i (LLinkSig q false ls mb ms) p ->
      tells w (at_ (if decide ((p_exit p).1 = 0) then w else (__exit_pid_on w q (p_exit p).1).2) i
                 (fun p => with_pc (LLinks ls mb ms) (with_told q TKill p))).

(** [xtc_monitor], up to the push on the watcher's list. *)
Inductive mon_step (w : world) : world -> Prop :=
  | ls_mon_gone i p t :
      runs w i LRun p -> known w t -> here_at w t && alive_at w t = false -> mon_step w (at_ w i (with_pc (LMonGone t)))
  | ls_mon_ref i p t :
      runs w i (LMonGone t) p -> mon_step w (at_ (next_ref w).2 i (with_pc (LMonNoproc t (next_ref w).1)))
  | ls_mon_noproc i p t ref mem :
      runs w i (LMonNoproc t ref) p ->
      mon_step w (at_ (__send_sys w i (Down ref t XTC_DOWN_NOPROC XTC_DOWN_KIND_NOPROC) mem).2 i (with_pc LRun))
  | ls_mon_live i p t :
      runs w i LRun p -> known w t -> here_at w t && alive_at w t = true -> mon_step w (at_ w i (with_pc (LMonNew t)))
  | ls_mon_nomem i p t : runs w i (LMonNew t) p -> mon_step w (at_ w i (with_pc LRun))
  | ls_mon_new i p t :
      runs w i (LMonNew t) p ->
      mon_step w (at_ (with_mons (next_ref w).2 (<[(next_ref w).1 := mk_mon 1 i t]> (w_mons w))) i
                 (with_pc (LMonTarget t (next_ref w).1)))
  | ls_mon_half i p t ref : runs w i (LMonTarget t ref) p -> mon_step w (at_ w i (with_pc (LWatch ref None)))
  | ls_mon_full i p t ref :
      runs w i (LMonTarget t ref) p -> mon_step w (at_ (set_refs w ref 2) i (with_pc (LMonPush t ref)))
  | ls_mon_push i p t ref :
      runs w i (LMonPush t ref) p ->
      mon_step w (at_ (let r := __peer_push_monitored_by w t ref i in if r.1 then r.2 else set_refs r.2 ref 1) i
                 (with_pc (LWatch ref None))).

(** [__mon_watch_push]. *)
Inductive mon_watch_step (w : world) : world -> Prop :=
  | ls_watch_push i p ref k :
      runs w i (LWatch ref k) p -> wl_n (p_watch p) < wl_sweep_at (p_watch p) ->
      mon_watch_step w (watched w i (wl_push ref (p_watch p)) ref k)
  | ls_watch_sweep i p ref k :
      runs w i (LWatch ref k) p -> wl_sweep_at (p_watch p) <= wl_n (p_watch p) ->
      mon_watch_step w (at_ w i (with_pc (LSweep ref k [] (wl_monitors (p_watch p)))))
  | ls_sweep_drop i p ref k kept r todo :
      runs w i (LSweep ref k kept (r :: todo)) p -> me_refs <$> w_mons w !! r = Some 1 ->
      mon_watch_step w (at_ (with_mons w (delete r (w_mons w))) i
                 (fun p => with_pc (LSweep ref k kept todo) (with_watch (wl_drop (p_watch p)) p)))
  | ls_sweep_keep i p ref k kept r todo :
      runs w i (LSweep ref k kept (r :: todo)) p -> me_refs <$> w_mons w !! r <> Some 1 ->
      mon_watch_step w (at_ w i (fun p => with_pc (LSweep ref k (kept ++ [r]) todo) (with_watch (wl_keep (p_watch p)) p)))
  | ls_sweep_done i p ref k kept :
      runs w i (LSweep ref k kept []) p ->
      mon_watch_step w (watched w i (wl_push ref (wl_swept kept (p_watch p))) ref k).

(** [xtc_link] and [xtc_unlink]. *)
Inductive link_step (w : world) : world -> Prop :=
  | ls_link i p t :
      runs w i LRun p -> known w t -> here_at w t && alive_at w t = true -> link_step w (at_ w i (with_pc (LLinkNew t None)))
  | ls_link_nomem i p t : runs w i (LLinkNew t None) p -> link_step w (at_ w i (with_pc LRun))
  | ls_link_read i p t k :
      runs w i (LLinkNew t k) p -> link_step w (at_ w i (with_pc (LLinkPush t (p_links p) k)))
  | ls_link_write i p t old k :
      runs w i (LLinkPush t old k) p ->
      link_step w (at_ w i (fun p => with_pc (match k with None => LLinkPeer t | Some c => LSpawned c RLink end)
                                   (with_links (t :: old) p)))
  | ls_link_half i p t : runs w i (LLinkPeer t) p -> link_step w (at_ w i (with_pc LRun))
  | ls_link_peer i p t : runs w i (LLinkPeer t) p -> link_step w (at_ (__peer_push_link w t i).2 i (with_pc LRun))
  | ls_unlink i p t :
      runs w i LRun p -> t ∈ p_links p -> link_step w (at_ w i (with_pc (LUnlink t (p_links p) None)))
  | ls_unlink_write i p t old k :
      runs w i (LUnlink t old k) p ->
      link_step w (at_ w i (fun p => with_pc (match k with None => LRun | Some c => LUndo c end)
                                   (with_links (unlink_write t old (p_links p)) p))).

(** [__proc_spawn_core], from a thread or from a process. *)
Inductive spawn_step (w : world) : world -> Prop :=
  | ls_spawn_out c cap wm :
      w_procs w !! c = None -> spawn_step w (spawned_into w c (with_pc LRun (new_proc cap wm [] (c, None))))
  | ls_spawn i p c cap wm :
      runs w i LRun p -> w_procs w !! c = None ->
      spawn_step w (at_ (spawned_into w c (new_proc cap wm [] (i, None))) i (with_pc (LSpawned c RNone)))
  | ls_spawn_link i p c cap wm :
      runs w i LRun p -> w_procs w !! c = None ->
      spawn_step w (at_ (spawned_into w c (new_proc cap wm [i] (i, None))) i (with_pc (LLinkNew c (Some c))))
  | ls_spawn_monitor i p c cap wm :
      runs w i LRun p -> w_procs w !! c = None ->
      spawn_step w (at_ (spawned_into (with_mons (next_ref w).2 (<[(next_ref w).1 := mk_mon 2 i c]> (w_mons w)))
                      c (new_proc cap wm [] (i, Some (next_ref w).1)))
                 i (with_pc (LWatch (next_ref w).1 (Some c))))
  | ls_spawned i p c r :
      runs w i (LSpawned c r) p -> spawn_step w (at_ (at_ w c (with_pc LRun)) i (with_pc LRun))
  | ls_fail_none i p c : runs w i (LSpawned c RNone) p -> spawn_step w (at_ w i (with_pc (LUndo c)))
  | ls_fail_link i p c :
      runs w i (LSpawned c RLink) p -> spawn_step w (at_ w i (with_pc (LUnlink c (p_links p) (Some c))))
  | ls_fail_monitor i p c ref r l :
      runs w i (LSpawned c (RMonitor ref)) p -> remove_target (w_mons w) c (wl_monitors (p_watch p)) = Some (r, l) ->
      spawn_step w (at_ (at_ (with_inst (with_mons w (delete r (w_mons w))) (delete r (w_inst w))) c scrap) i
                 (fun p => with_pc LRun (with_watch (mk_wl l (wl_n (p_watch p) - 1) (wl_sweep_at (p_watch p))
                                                     (wl_pushes (p_watch p)) (wl_visits (p_watch p))) p)))
  | ls_undo i p c : runs w i (LUndo c) p -> spawn_step w (at_ (at_ w c scrap) i (with_pc LRun)).

(** Leaving the body in [__proc_entry]: return, [xtc_exit_self], a delivered
    kill, a contained fault. *)
Inductive exit_step (w : world) : world -> Prop :=
  | ls_return i p :
      runs w i LRun p -> p_alive p = true -> (p_mb p).2 = PIdle ->
      exit_step w (at_ w i (proc_leave (return_reason p) (kind_of (return_reason p))))
  | ls_exit_self i p r :
      runs w i LRun p -> p_alive p = true -> (p_mb p).2 = PIdle ->
      exit_step w (at_ w i (proc_leave (jump_reason r) (kind_of (jump_reason r))))
  | ls_killed i p :
      runs w i LRun p -> p_alive p = true -> idle_or_parked (p_mb p).2 = true -> p_kill p <> 0 ->
      exit_step w (at_ w i (proc_leave (jump_reason (p_kill p - 1)) (kind_of (jump_reason (p_kill p - 1)))))
  | ls_fault i p sig :
      runs w i LRun p -> p_alive p = true -> (p_mb p).2 = PIdle -> 0 < sig -> exit_step w (at_ w i (proc_leave sig XTC_DOWN_KIND_SIGNAL)).

(** [__notify_links_and_monitors]. *)
Inductive notify_step (w : world) : world -> Prop :=
  | ls_detach i p : runs w i LRun p -> p_alive p = false -> notify_step w (at_ w i proc_detach)
  | ls_tell w' : tells w w' -> notify_step w w'
  | ls_links_done i p mb ms : runs w i (LLinks [] mb ms) p -> notify_step w (at_ w i (with_pc (LDowns mb ms)))
  | ls_down i p ref wt mb ms mem :
      runs w i (LDowns ((ref, wt) :: mb) ms) p ->
      notify_step w (at_ (let r := __send_sys w wt (Down ref i (p_exit p).1 (p_exit p).2) mem in
                    if decide (r.1 = XTC_OK) then r.2 else lose r.2 ref mem) i
                 (with_pc (LPut ref mb ms)))
  | ls_put i p ref mb ms : runs w i (LPut ref mb ms) p -> notify_step w (at_ (__mon_put w ref) i (with_pc (LDowns mb ms)))
  | ls_downs_done i p ms : runs w i (LDowns [] ms) p -> notify_step w (at_ w i (with_pc (LPuts ms)))
  | ls_puts i p r ms : runs w i (LPuts (r :: ms)) p -> notify_step w (at_ (__mon_put w r) i (with_pc (LPuts ms)))
  | ls_gone i p : runs w i (LPuts []) p -> notify_step w (at_ w i (with_pc LGone)).

(** A step of the world: messages, kills, [xtc_proc_trap_exit], and the above. *)
Inductive lstep (w : world) : world -> Prop :=
  | ls_recv i p m' r' :
      runs w i LRun p -> p_alive p = true -> recv_step (fun _ => True) (p_mb p).1 (p_mb p).2 m' r' -> r' <> PGone ->
      lstep w (at_ w i (with_mb (m', r')))
  | ls_send q e full mem : lstep w (__send_ex w q (User e) false full mem).2
  | ls_exit_pid q reason : lstep w (__exit_pid_on w q reason).2
  | ls_trap i p on : runs w i LRun p -> lstep w (at_ w i (with_trap on))
  | ls_mon_step w' : mon_step w w' -> lstep w w'
  | ls_watch_step w' : mon_watch_step w w' -> lstep w w'
  | ls_link_step w' : link_step w w' -> lstep w w'
  | ls_spawn_step w' : spawn_step w w' -> lstep w w'
  | ls_exit_step w' : exit_step w w' -> lstep w w'
  | ls_notify_step w' : notify_step w w' -> lstep w w'.

Definition world0 : world := mk_world ∅ ∅ 0 ∅ [].

(** Runs of [n] steps; the theorems are about runs of fewer than 2^64 steps,
    in which the 64-bit counter of references does not wrap. *)
Definition lreach (n : nat) (w : world) : Prop := nsteps lstep n world0 w /\ Z.of_nat n < 2 ^ 64.

(** ** Counting holders *)

Definition cnt (r : Z) (l : list Z) : Z := Z.of_nat (count_occ Z.eq_dec l r).

Lemma cnt_nil r : cnt r [] = 0.
Proof. done. Qed.
Lemma cnt_cons r x l : cnt r (x :: l) = (if decide (x = r) then 1 else 0) + cnt r l.
Proof. unfold cnt. simpl. destruct (Z.eq_dec x r), (decide (x = r)); try done; lia. Qed.
Lemma cnt_app r l1 l2 : cnt r (l1 ++ l2) = cnt r l1 + cnt r l2.
Proof. unfold cnt. rewrite count_occ_app. lia. Qed.
Lemma cnt_nonneg r l : 0 <= cnt r l.
Proof. unfold cnt. lia. Qed.
Lemma cnt_elem r l : 0 < cnt r l <-> r ∈ l.
Proof.
  induction l as [|x l IH]; rewrite ?cnt_nil, ?cnt_cons, ?elem_of_nil, ?elem_of_cons; [lia|].
  pose proof (cnt_nonneg r l). destruct (decide (x = r)); naive_solver lia.
Qed.
Ltac cnt_simpl := repeat first [rewrite cnt_cons in * | rewrite cnt_app in * | rewrite cnt_nil in *].

(** What a process holds: entries of its own list, with what its program
    counter holds of one being made; the references of the target's entries it
    still has to release; and the DOWN signals it owes. *)
Definition held (p : proc) : list Z :=
  let l := wl_monitors (p_watch p) in
  match p_pc p with
  | LMonTarget _ ref | LWatch ref None => ref :: l
  | LMonPush _ ref | LWatch ref (Some _) => ref :: ref :: l
  | LSweep ref None kept todo => ref :: kept ++ todo
  | LSweep ref (Some _) kept todo => ref :: ref :: kept ++ todo
  | LLinks _ _ ms | LLinkSig _ _ _ _ ms | LDowns _ ms | LPut _ _ ms | LPuts ms => ms
  | LGone => []
  | _ => l
  end.

Definition owed (p : proc) : list (Z * nat) :=
  match p_pc p with
  | LLinks _ mb _ | LLinkSig _ _ _ mb _ | LDowns mb _ | LPut _ mb _ => mb
  | LPuts _ | LGone => []
  | _ => p_by p
  end.

Definition owed_refs (p : proc) : list Z :=
  match p_pc p with LPut ref _ _ => [ref] | _ => [] end ++ (owed p).*1.

Definition exited (pc : lpc) : bool :=
  match pc with LLinks _ _ _ | LLinkSig _ _ _ _ _ | LDowns _ _ | LPut _ _ _ | LPuts _ | LGone => true | _ => false end.

Definition hc (w : world) (j : nat) (r : Z) : Z := match w_procs w !! j with Some p => cnt r (held p) | None => 0 end.
Definition oc (w : world) (j : nat) (r : Z) : Z := match w_procs w !! j with Some p => cnt r (owed_refs p) | None => 0 end.

Lemma hc_nonneg w j r : 0 <= hc w j r.
Proof. unfold hc. case_match; [apply cnt_nonneg|done]. Qed.
Lemma oc_nonneg w j r : 0 <= oc w j r.
Proof. unfold oc. case_match; [apply cnt_nonneg|done]. Qed.

Lemma procs_at w i f j : w_procs (at_ w i f) !! j = (if decide (i = j) then f <$> w_procs w !! j else w_procs w !! j).
Proof. simpl. destruct (decide (i = j)) as [->|]; [apply lookup_alter_eq|by apply lookup_alter_ne]. Qed.

(** ** The entries are counted *)

Record entries_ok (hc oc : nat -> Z -> Z) (mons : gmap Z mon_entry) (seq : Z) : Prop := mk_entries_ok {
  eo_held : forall j r, 0 < hc j r -> exists e, mons !! r = Some e /\ me_watcher e = j;
  eo_owed : forall j r, 0 < oc j r -> exists e, mons !! r = Some e /\ me_target e = j;
  eo_refs : forall r e, mons !! r = Some e -> 1 <= me_refs e <= 2 /\ me_refs e = hc (me_watcher e) r + oc (me_target e) r;
  eo_seq : forall r e, mons !! r = Some e -> r <= seq;
}.

(** A step that leaves all counts leaves the entries counted. *)
Lemma entries_quiet hc oc hc' oc' mons seq seq' :
  entries_ok hc oc mons seq -> (forall j r, hc' j r = hc j r /\ oc' j r = oc j r) -> seq <= seq' ->
  entries_ok hc' oc' mons seq'.
Proof.
  intros [H1 H2 H3 H4] Hq Hs. split.
  - intros j r. rewrite (proj1 (Hq j r)). apply H1.
  - intros j r. rewrite (proj2 (Hq j r)). apply H2.
  - intros r e He. rewrite (proj1 (Hq _ r)), (proj2 (Hq _ r)). by apply H3.
  - intros r e He. specialize (H4 r e He). lia.
Qed.

(** A step that changes one entry and its counts. *)
Lemma entries_update hc oc hc' oc' mons mons' seq seq' r0 :
  entries_ok hc oc mons seq -> (forall j r, r <> r0 -> hc' j r = hc j r /\ oc' j r = oc j r) ->
  (forall r, r <> r0 -> mons' !! r = mons !! r) -> seq <= seq' ->
  (forall e, mons' !! r0 = Some e ->
     r0 <= seq' /\ 1 <= me_refs e <= 2 /\ me_refs e = hc' (me_watcher e) r0 + oc' (me_target e) r0) ->
  (forall j, 0 < hc' j r0 -> exists e, mons' !! r0 = Some e /\ me_watcher e = j) ->
  (forall j, 0 < oc' j r0 -> exists e, mons' !! r0 = Some e /\ me_target e = j) ->
  entries_ok hc' oc' mons' seq'.
Proof.
  intros [H1 H2 H3 H4] Hq Hm Hs He Hh Ho. split.
  - intros j r. destruct (decide (r = r0)) as [->|Hr]; [apply Hh|]. rewrite (proj1 (Hq j r Hr)), (Hm r Hr). apply H1.
  - intros j r. destruct (decide (r = r0)) as [->|Hr]; [apply Ho|]. rewrite (proj2 (Hq j r Hr)), (Hm r Hr). apply H2.
  - intros r e. destruct (decide (r = r0)) as [->|Hr]; [apply He|].
    rewrite (proj1 (Hq _ r Hr)), (proj2 (Hq _ r Hr)), (Hm r Hr). apply H3.
  - intros r e. destruct (decide (r = r0)) as [->|Hr]; [apply He|]. rewrite (Hm r Hr). intros Hx. specialize (H4 r e Hx). lia.
Qed.

(** ** The invariant *)

(** The real DOWN signals among what was queued in a mailbox. *)
Definition real_down (x : bool * xtc_msg) : option (Z * nat * (Z * Z)) :=
  match x.2 with
  | Down r t reason k => if decide (k = XTC_DOWN_KIND_NOPROC) then None else Some (r, t, (reason, k))
  | _ => None
  end.
Definition downs (p : proc) : list (Z * nat * (Z * Z)) := omap real_down (mb_sent (p_mb p).1).
Definition down_refs (p : proc) : list Z := (fun x => x.1.1) <$> downs p.

Definition dc (w : world) (j : nat) (r : Z) : Z := match w_procs w !! j with Some p => cnt r (down_refs p) | None => 0 end.
Definition wc (w : world) (j : nat) (r : Z) : Z := match w_procs w !! j with Some p => cnt r (owed p).*1 | None => 0 end.

Definition born (w : world) (t : nat) : Prop := exists q, w_procs w !! t = Some q /\ p_pc q <> LUnborn.
Definition child (w : world) (c i : nat) (b : option Z) (by_ : list (Z * nat)) : Prop :=
  exists q, w_procs w !! c = Some q /\ p_pc q = LUnborn /\ p_birth q = (i, b) /\ p_by q = by_ /\ wl_monitors (p_watch q) = [].
Definition making (w : world) (ref : Z) (e : mon_entry) : Prop := w_mons w !! ref = Some e /\ w_inst w !! ref = None.

(** What a process relies on where it is. *)
Definition pc_ok (w : world) (i : nat) (pc : lpc) : Prop :=
  match pc with
  | LMonNew t | LLinkNew t None | LLinkPush t _ None | LLinkPeer t => born w t
  | LMonTarget t ref => making w ref (mk_mon 1 i t) /\ born w t
  | LMonPush t ref => making w ref (mk_mon 2 i t) /\ born w t
  | LWatch ref (Some c) | LSweep ref (Some c) _ _ => making w ref (mk_mon 2 i c) /\ child w c i (Some ref) []
  | LLinkNew _ (Some c) | LLinkPush _ _ (Some c) | LUnlink _ _ (Some c) | LUndo c | LSpawned c RNone | LSpawned c RLink =>
      child w c i None []
  | LSpawned c (RMonitor ref) => child w c i (Some ref) [(ref, i)]
  | _ => True
  end.

Record state_ok (p : proc) : Prop := mk_state_ok {
  so_here : p_here p = negb (exited (p_pc p));
  so_exited : exited (p_pc p) = true -> p_alive p = false /\ p_by p = [];
  so_kind : 0 <= (p_exit p).2 <= 2;
}.

Record inst_ok (w : world) : Prop := mk_inst_ok {
  io_one : forall r wt t, w_inst w !! r = Some (wt, t) -> wc w t r + dc w wt r + cnt r (w_lost w).*1 = 1;
  io_owed : forall j p r wt, w_procs w !! j = Some p -> (r, wt) ∈ owed p -> w_inst w !! r = Some (wt, j);
  io_down : forall j p r t x, w_procs w !! j = Some p -> (r, t, x) ∈ downs p ->
    w_inst w !! r = Some (j, t) /\ exists q, w_procs w !! t = Some q /\ p_alive q = false /\ p_exit q = x;
  io_lost : forall r mem, (r, mem) ∈ w_lost w ->
    exists wt t, w_inst w !! r = Some (wt, t) /\ (mem = true -> exists q, w_procs w !! wt = Some q /\ p_alive q = false);
  io_seq : forall r wt t, w_inst w !! r = Some (wt, t) -> r <= w_seq w /\ is_Some (w_procs w !! wt) /\ is_Some (w_procs w !! t);
}.

Record base_ok (w : world) : Prop := mk_base_ok {
  bo_seq : 0 <= w_seq w;
  bo_state : forall i p, w_procs w !! i = Some p -> state_ok p /\ pc_ok w i (p_pc p);
  bo_entries : entries_ok (hc w) (oc w) (w_mons w) (w_seq w);
  bo_target : forall r e, w_mons w !! r = Some e ->
    exists q, w_procs w !! me_target e = Some q /\ (p_pc q = LUnborn -> p_birth q = (me_watcher e, Some r));
}.

Record world_ok (w : world) : Prop := mk_world_ok { wo_base : base_ok w; wo_inst : inst_ok w }.

Definition wo_seq w (H : world_ok w) := bo_seq w (wo_base w H).
Definition wo_state w (H : world_ok w) := bo_state w (wo_base w H).
Definition wo_entries w (H : world_ok w) := bo_entries w (wo_base w H).
Definition wo_target w (H : world_ok w) := bo_target w (wo_base w H).

(** A change of one process that no count and no other process notices. *)
Record quiet_base (p p' : proc) : Prop := mk_quiet_base {
  qu_held : forall r, cnt r (held p') = cnt r (held p);
  qu_refs : forall r, cnt r (owed_refs p') = cnt r (owed_refs p);
  qu_unborn : p_pc p' = LUnborn <-> p_pc p = LUnborn;
  qu_birth : p_birth p' = p_birth p;
  qu_by : p_pc p = LUnborn -> p_by p' = p_by p /\ wl_monitors (p_watch p') = wl_monitors (p_watch p);
}.

Record quiet (p p' : proc) : Prop := mk_quiet {
  qu_base : quiet_base p p';
  qu_owed : owed p' = owed p;
  qu_downs : downs p' = downs p;
  qu_dead : p_alive p = false -> p_alive p' = false /\ p_exit p' = p_exit p;
}.

Lemma born_quiet w i p f t : w_procs w !! i = Some p -> quiet_base p (f p) -> born w t -> born (at_ w i f) t.
Proof.
  intros Hp Hq (q & Hq1 & Hq2). unfold born. rewrite procs_at. destruct (decide (i = t)) as [->|]; [|by exists q].
  rewrite Hq1. simplify_eq. eexists. split; [done|]. by rewrite (qu_unborn _ _ Hq).
Qed.

Lemma child_quiet w i p f c j b by_ :
  w_procs w !! i = Some p -> quiet_base p (f p) -> child w c j b by_ -> child (at_ w i f) c j b by_.
Proof.
  intros Hp Hq (q & Hc & Hu & Hb & Hy & Hw). unfold child. rewrite procs_at. destruct (decide (i = c)) as [->|]; [|naive_solver].
  rewrite Hc. simplify_eq. eexists. split; [done|]. destruct Hq as [_ _ H6 H7 H8]. destruct (H8 Hu) as [E1 E2].
  split_and!; [by apply H6|by rewrite H7|by rewrite E1|by rewrite E2].
Qed.

(** Monotonicity of what a process relies on. *)
Lemma pc_ok_mono w w' j pc :
  (forall t, born w t -> born w' t) -> (forall c b by_, child w c j b by_ -> child w' c j b by_) ->
  (forall ref e, me_watcher e = j -> making w ref e -> making w' ref e) -> pc_ok w j pc -> pc_ok w' j pc.
Proof. intros H1 H2 H3. destruct pc; simpl; repeat case_match; naive_solver. Qed.

Lemma pc_ok_quiet w i p f j pc : w_procs w !! i = Some p -> quiet_base p (f p) -> pc_ok w j pc -> pc_ok (at_ w i f) j pc.
Proof. intros Hp Hq. apply pc_ok_mono; [by intros t; eapply born_quiet|by intros c b y; eapply child_quiet|done]. Qed.

Lemma base_quiet w i p f :
  base_ok w -> w_procs w !! i = Some p -> quiet_base p (f p) -> state_ok (f p) -> pc_ok w i (p_pc (f p)) -> base_ok (at_ w i f).
Proof.
  intros [H0 H1 H2 H3] Hp Hq Hs Hpc. split.
  - done.
  - intros j q. rewrite procs_at. destruct (decide (i = j)) as [<-|].
    + rewrite Hp. intros [= <-]. split; [done|]. by eapply pc_ok_quiet.
    + intros Hj. destruct (H1 j q Hj). split; [done|]. by eapply pc_ok_quiet.
  - eapply entries_quiet; [done| |done]. intros j r. unfold hc, oc. rewrite procs_at. destruct (decide (i = j)) as [<-|]; [|done].
    rewrite Hp. simpl. by rewrite (qu_held _ _ Hq), (qu_refs _ _ Hq).
  - intros r e (q & Hq1 & Hq2)%H3. setoid_rewrite procs_at. destruct (decide (i = me_target e)) as [->|]; [|naive_solver].
    rewrite Hq1. eexists. split; [done|]. simplify_eq. rewrite (qu_unborn _ _ Hq), (qu_birth _ _ Hq). done.
Qed.

(** The ledger of monitors depends on these parts of the processes. *)
Lemma inst_quiet w i p f :
  inst_ok w -> w_procs w !! i = Some p -> owed (f p) = owed p -> downs (f p) = downs p ->
  (p_alive p = false -> p_alive (f p) = false /\ p_exit (f p) = p_exit p) -> inst_ok (at_ w i f).
Proof.
  intros [I1 I2 I3 I4 I5] Hp K1 K2 K3.
  assert (w_inst (at_ w i f) = w_inst w) as Ei by done. assert (w_lost (at_ w i f) = w_lost w) as El by done.
  split; rewrite ?Ei, ?El.
  - intros r wt t Hr. rewrite <-(I1 r wt t Hr). unfold wc, dc, down_refs. rewrite !procs_at.
    destruct (decide (i = t)) as [<-|], (decide (i = wt)) as [<-|]; rewrite ?Hp; simpl; by rewrite ?K1, ?K2.
  - intros j q r wt. rewrite (procs_at w i f j).
    destruct (decide (i = j)) as [<-|]; [rewrite Hp; simpl; intros [= <-]; rewrite K1|]; by eauto.
  - intros j q r t x Hq Hd. rewrite (procs_at w i f j) in Hq. rewrite (procs_at w i f t).
    assert (exists q0, w_procs w !! j = Some q0 /\ (r, t, x) ∈ downs q0) as (q0 & Hq0 & Hd0).
    { destruct (decide (i = j)) as [<-|]; [|by exists q]. rewrite Hp in Hq. simplify_eq/=. exists p. by rewrite <-K2. }
    destruct (I3 j q0 r t x Hq0 Hd0) as (Hi & qt & Hqt & Ha & He). split; [done|].
    destruct (decide (i = t)) as [<-|]; [|by exists qt]. rewrite Hqt. simplify_eq. destruct (K3 Ha). by eexists.
  - intros r dead (wt & t & Hi & Ha)%I4. exists wt, t. split; [done|]. intros Hd. destruct (Ha Hd) as (q & Hq & Hqa).
    rewrite (procs_at w i f wt). destruct (decide (i = wt)) as [<-|]; [|by exists q]. rewrite Hp in *. simplify_eq/=. eexists. split; [done|].
    by apply K3.
  - intros r wt t (Hr & [q Hq] & [q' Hq'])%I5. split; [done|]. rewrite !procs_at, Hq, Hq'. split; by case_decide.
Qed.

(** It does not depend on the entries. *)
Lemma inst_mons w mons' seq' :
  inst_ok w -> w_seq w <= seq' -> inst_ok (mk_world (w_procs w) mons' seq' (w_inst w) (w_lost w)).
Proof. intros [I1 I2 I3 I4 I5] Hs. split; try done. simpl. intros r wt t Hx. destruct (I5 r wt t Hx). split; [lia|done]. Qed.

Lemma ok_own w i pc p f :
  world_ok w -> runs w i pc p -> quiet p (f p) -> state_ok (f p) -> pc_ok w i (p_pc (f p)) -> world_ok (at_ w i f).
Proof.
  intros [Hb Hi] [Hp _] [Hq K1 K2 K3] Hs Hpc. split; [by eapply base_quiet|by eapply inst_quiet].
Qed.

(** The quiet steps of a process on its own state. *)
Ltac counts Hpc :=
  unfold held, owed_refs, owed, down_refs, downs, p_alive; simpl; rewrite ?Hpc; simpl; intros; cnt_simpl; try done; try lia.
Ltac quiet_own Hpc :=
  split; [split; [counts Hpc|counts Hpc|simpl; rewrite ?Hpc; done|done|rewrite Hpc; done]|counts Hpc..].
Ltac state_own Hs Hpc :=
  destruct Hs as [S1 S2 S3]; split; simpl; rewrite ?Hpc in *; simpl in *; try done; auto.
Ltac own Hok Hr :=
  let Hp := fresh "Hp" in let Hpc := fresh "Hpc" in let Hs := fresh "Hs" in let Ho := fresh "Ho" in
  pose proof (proj1 Hr) as Hp; pose proof (proj2 Hr) as Hpc; destruct (wo_state _ Hok _ _ Hp) as [Hs Ho];
  rewrite Hpc in Ho; simpl in Ho;
  eapply (ok_own _ _ _ _ _ Hok Hr); [quiet_own Hpc|state_own Hs Hpc|simpl; rewrite ?Hpc; simpl; try done].

Lemma born_known w t : known w t -> here_at w t && alive_at w t = true -> born w t.
Proof. intros Hk H. unfold here_at in H. destruct (w_procs w !! t) as [q|] eqn:Hq; [|done]. exists q. split; [done|by apply Hk]. Qed.

Lemma recv_quiet m r m' r' :
  recv_step (E := xtc_msg) (fun _ => True) m r m' r' -> r' <> PGone -> mb_sent m' = mb_sent m /\ mb_alive m' = mb_alive m.
Proof.
  intros Hst Hr. destruct Hst as [| m0 now mark x p' Hw| |m0 now x p' Hp|m0 now Hp| | | | | | | | |]; try done.
  - unfold walk in Hw. repeat case_match; simplify_eq. done.
  - unfold __mbox_pop_locked in Hp. repeat case_match; simplify_eq; done.
  - by destruct now.
Qed.

Lemma jump_kind r : 0 <= kind_of r <= 2.
Proof. unfold kind_of, XTC_DOWN_KIND_CLEAN, XTC_DOWN_KIND_EXIT. case_decide; lia. Qed.

(** Leaving the body. *)
Lemma ok_leave w i p r k :
  world_ok w -> runs w i LRun p -> p_alive p = true -> 0 <= k <= 2 -> world_ok (at_ w i (proc_leave r k)).
Proof.
  intros Hok Hr Ha Hk. pose proof (proj1 Hr) as Hp. pose proof (proj2 Hr) as Hpc. destruct (wo_state _ Hok _ _ Hp) as [Hs _].
  eapply (ok_own _ _ _ _ _ Hok Hr); [|state_own Hs Hpc|simpl; by rewrite Hpc].
  split; [split; [counts Hpc|counts Hpc|simpl; rewrite ?Hpc; done|done|rewrite Hpc; done]|counts Hpc|counts Hpc|congruence].
Qed.

(** *** Changes another process does not notice *)

Lemma ok_calm w q p f :
  world_ok w -> w_procs w !! q = Some p -> quiet p (f p) -> state_ok (f p) -> p_pc (f p) = p_pc p -> world_ok (at_ w q f).
Proof.
  intros Hok Hp Hq Hs Hpc. eapply (ok_own _ _ _ _ _ Hok (conj Hp eq_refl)); [done|done|]. rewrite Hpc. by apply (wo_state _ Hok).
Qed.

Lemma deliver_sent p e sys full :
  p_alive (deliver_to e sys full p) = p_alive p /\
  (mb_sent (p_mb (deliver_to e sys full p)).1 = mb_sent (p_mb p).1 \/
   mb_sent (p_mb (deliver_to e sys full p)).1 = mb_sent (p_mb p).1 ++ [(sys, e)]).
Proof.
  unfold p_alive, deliver_to. simpl. destruct (__mbox_deliver_locked (p_mb p).1 e sys full) as [[c m] fire] eqn:Hd.
  apply deliver_spec in Hd as [[_ ->]|(_ & _ & _ & peak & fired & woken & -> & _)]; simpl; auto.
Qed.

(** A signal is accepted by every living process. *)
Lemma deliver_sys p e :
  p_alive p = true ->
  (__mbox_deliver_locked (p_mb p).1 e true false).1.1 = XTC_OK /\
  mb_sent (p_mb (deliver_to e true false p)).1 = mb_sent (p_mb p).1 ++ [(true, e)].
Proof.
  unfold p_alive, deliver_to, __mbox_deliver_locked. intros ->. simpl. by destruct (mb_waker_armed (p_mb p).1).
Qed.

Lemma quiet_deliver p e sys full : real_down (sys, e) = None -> quiet p (deliver_to e sys full p).
Proof.
  intros He. destruct (deliver_sent p e sys full) as [Ha Hs]. split; [done|done| |].
  - unfold downs. destruct Hs as [->| ->]; [done|]. rewrite omap_app. simpl. rewrite He. apply app_nil_r.
  - intros Hd. by rewrite Ha.
Qed.

Lemma state_deliver p e sys full : state_ok p -> state_ok (deliver_to e sys full p).
Proof. intros [H1 H2 H3]. split; [done| |done]. intros H. by rewrite (proj1 (deliver_sent p e sys full)); apply H2. Qed.

Lemma ok_send w q e sys full mem :
  world_ok w -> real_down (sys, e) = None -> world_ok (__send_ex w q e sys full mem).2.
Proof.
  intros Hok He. unfold __send_ex. repeat case_match; try done. simpl.
  eapply ok_calm; [done|done|by apply quiet_deliver|by apply state_deliver, (wo_state _ Hok q)|done].
Qed.

Lemma ok_exit_pid w q r : world_ok w -> world_ok (__exit_pid_on w q r).2.
Proof.
  intros Hok. unfold __exit_pid_on, here_at. destruct (w_procs w !! q) as [p|] eqn:Hp; [|done].
  case_match; [done|]. simpl. eapply ok_calm; [done|done|..]; case_decide; try done; destruct (wo_state _ Hok _ _ Hp) as [[] ?]; done.
Qed.

Lemma ok_push_link w q i : world_ok w -> world_ok (__peer_push_link w q i).2.
Proof.
  intros Hok. unfold __peer_push_link, here_at. destruct (w_procs w !! q) as [p|] eqn:Hp; [|done].
  case_match; [|done]. simpl. eapply ok_calm; [done|done|..]; try done. destruct (wo_state _ Hok _ _ Hp) as [[] ?]; done.
Qed.

(** Where a process is does not change with what others do to it. *)
Definition same_pc (f : proc -> proc) : Prop := forall p, p_pc (f p) = p_pc p.

Lemma runs_at w i pc p q f : runs w i pc p -> same_pc f -> exists p', runs (at_ w q f) i pc p' /\ (p' = p \/ p' = f p).
Proof.
  intros [Hp Hpc] Hf. unfold runs. rewrite procs_at. destruct (decide (q = i)) as [->|]; [|by exists p; auto].
  exists (f p). rewrite Hp. simpl. rewrite Hf. auto.
Qed.

Lemma runs_send w i pc p q e sys full mem : runs w i pc p -> exists p', runs (__send_ex w q e sys full mem).2 i pc p'.
Proof.
  intros Hr. unfold __send_ex. repeat case_match; simpl; eauto.
  destruct (runs_at w i pc p q (deliver_to e sys full) Hr) as (p' & ? & _); [done|eauto].
Qed.

Lemma runs_exit_pid w i pc p q r : runs w i pc p -> exists p', runs (__exit_pid_on w q r).2 i pc p'.
Proof.
  intros Hr. unfold __exit_pid_on. case_match; simpl; [by eauto|].
  edestruct (runs_at w i pc p q (fun p => if decide (p_kill p = 0) then with_kill (kill_code r) p else p) Hr) as (p' & ? & _); [|eauto].
  intros p0. by case_decide.
Qed.

Lemma runs_push_link w i pc p q j : runs w i pc p -> exists p', runs (__peer_push_link w q j).2 i pc p'.
Proof.
  intros Hr. unfold __peer_push_link. case_match; simpl; [|by eauto].
  edestruct (runs_at w i pc p q (fun p => with_links (j :: p_links p) p) Hr) as (p' & ? & _); [done|eauto].
Qed.

(** The next reference is new. *)
Lemma next_ref_eq w : 0 <= w_seq w -> w_seq w + 1 < 2 ^ 64 -> (next_ref w).1 = w_seq w + 1.
Proof. intros. unfold next_ref. simpl. apply uwrap_small. lia. Qed.

Lemma ok_next_ref w : world_ok w -> w_seq w + 1 < 2 ^ 64 -> world_ok (next_ref w).2.
Proof.
  intros [[H0 H1 H2 H3] HI] Hlt. pose proof (next_ref_eq w H0 Hlt) as Er. unfold next_ref in *. simpl in *. rewrite Er.
  split; [|apply inst_mons; [done|lia]]. split; simpl; [lia|done| |done]. eapply entries_quiet; [exact H2|done|lia].
Qed.

(** *** Steps that change an entry *)

(** A process that is making an entry holds all its references. *)
Lemma proc_ok_mono w w' j p :
  (forall t, born w t -> born w' t) -> (forall c b by_, child w c j b by_ -> child w' c j b by_) ->
  (forall ref e, me_watcher e = j -> me_refs e <= cnt ref (held p) -> making w ref e -> making w' ref e) ->
  pc_ok w j (p_pc p) -> pc_ok w' j (p_pc p).
Proof.
  intros H1 H2 H3 Hp. unfold held in H3. pose proof (fun r => cnt_nonneg r (wl_monitors (p_watch p))).
  assert (forall r l, 0 <= cnt r l) by (intros; apply cnt_nonneg).
  destruct (p_pc p) as [| | | | |t ref|t ref|ref [c|]|ref [c|] kept todo| [] [] | | | | | | | | | | | ]; simpl in *; repeat case_match; eauto.
  all: destruct Hp as [Hm Hb]; split; [|by auto]; apply H3; [done| |done]; cnt_simpl; rewrite decide_True by done; simpl.
  all: repeat match goal with
       | |- context [cnt ?r ?l] => lazymatch goal with H : 0 <= cnt r l |- _ => fail | _ => pose proof (cnt_nonneg r l) end
       end; lia.
Qed.

(** What a step on its own entries must keep of a process. *)
Record kept_own (p p' : proc) : Prop := mk_kept {
  ko_owed : owed p' = owed p;
  ko_downs : downs p' = downs p;
  ko_dead : p_alive p = false -> p_alive p' = false /\ p_exit p' = p_exit p;
  ko_born : p_pc p <> LUnborn /\ p_pc p' <> LUnborn;
}.

(** A child that is not yet enqueued, or a born process, stays so. *)
Lemma born_kept w i p f t : w_procs w !! i = Some p -> p_pc (f p) <> LUnborn -> born w t -> born (at_ w i f) t.
Proof.
  intros Hp Hf (q & Hq & Hb). unfold born. rewrite procs_at. destruct (decide (i = t)) as [<-|]; [|by exists q].
  rewrite Hp. by eexists.
Qed.
Lemma child_kept w i p f c j b by_ : w_procs w !! i = Some p -> p_pc p <> LUnborn -> child w c j b by_ -> child (at_ w i f) c j b by_.
Proof.
  intros Hp Hb (q & Hq & Hu & Hr). unfold child. rewrite procs_at. destruct (decide (i = c)) as [->|]; [congruence|by exists q].
Qed.

Lemma inst_kept w i p f mons' seq' :
  inst_ok w -> w_procs w !! i = Some p -> kept_own p (f p) -> w_seq w <= seq' ->
  inst_ok (mk_world (alter f i (w_procs w)) mons' seq' (w_inst w) (w_lost w)).
Proof. intros HI Hp [K1 K2 K3 _] Hs. apply (inst_mons (at_ w i f) mons' seq'); [by eapply inst_quiet|done]. Qed.

Definition entry_world (w : world) (i : nat) (f : proc -> proc) (mons' : gmap Z mon_entry) (seq' : Z) : world :=
  mk_world (alter f i (w_procs w)) mons' seq' (w_inst w) (w_lost w).

(** A step of [i] that changes the entry [r0] and its own holdings of it. *)
Lemma ok_entry w i p f mons' seq' r0 :
  world_ok w -> w_procs w !! i = Some p -> kept_own p (f p) -> w_seq w <= seq' ->
  (forall r, r <> r0 -> cnt r (held (f p)) = cnt r (held p) /\ cnt r (owed_refs (f p)) = cnt r (owed_refs p)) ->
  (forall r, r <> r0 -> mons' !! r = w_mons w !! r) ->
  (forall e, mons' !! r0 = Some e ->
     r0 <= seq' /\ 1 <= me_refs e <= 2 /\
     me_refs e = hc (entry_world w i f mons' seq') (me_watcher e) r0 + oc (entry_world w i f mons' seq') (me_target e) r0 /\
     exists q, w_procs w !! me_target e = Some q /\ (p_pc q = LUnborn -> p_birth q = (me_watcher e, Some r0))) ->
  (forall j, 0 < hc (entry_world w i f mons' seq') j r0 -> exists e, mons' !! r0 = Some e /\ me_watcher e = j) ->
  (forall j, 0 < oc (entry_world w i f mons' seq') j r0 -> exists e, mons' !! r0 = Some e /\ me_target e = j) ->
  (forall e, w_mons w !! r0 = Some e -> me_watcher e = i \/ 0 < oc w (me_target e) r0) ->
  state_ok (f p) -> pc_ok (entry_world w i f mons' seq') i (p_pc (f p)) ->
  world_ok (entry_world w i f mons' seq').
Proof.
  intros [[H0 H1 H2 H3] HI] Hp Hk Hs Hc Hm He Hh Ho Hother Hst Hpc. destruct (ko_born _ _ Hk) as [Hb Hb'].
  assert (forall j, alter f i (w_procs w) !! j = if decide (i = j) then f <$> w_procs w !! j else w_procs w !! j) as Hl
    by (intros; apply (procs_at w i f)).
  split; [|by eapply inst_kept]. split; simpl; [lia| | |].
  - intros j q Hq. pose proof Hq as Hq'. rewrite (Hl j) in Hq'. destruct (decide (i = j)) as [<-|Hne].
    { rewrite Hp in Hq'. simplify_eq/=. done. }
    destruct (H1 j q Hq') as [Hsq Hpq]. split; [done|]. revert Hpq. apply proc_ok_mono.
    + intros t. apply (born_kept w i p f t Hp Hb').
    + intros c b y. apply (child_kept w i p f c j b y Hp Hb).
    + intros ref e He1 He2 [Hx Hy]. split; [|done]. simpl. destruct (decide (ref = r0)) as [->|]; [|by rewrite Hm].
      exfalso. destruct (eo_refs _ _ _ _ H2 r0 e Hx) as [_ Hr]. unfold hc at 1 in Hr. rewrite He1, Hq' in Hr.
      destruct (Hother e Hx); [congruence|lia].
  - apply (entries_update (hc w) (oc w) _ _ (w_mons w) _ (w_seq w) _ r0); [done| |done|done| |done|done].
    + intros j r Hr. unfold hc, oc. simpl. rewrite !Hl. destruct (decide (i = j)) as [<-|]; [|done]. rewrite Hp. simpl. by apply Hc.
    + intros e Hx. destruct (He e Hx) as (? & ? & ? & _). done.
  - intros r e Hx. rewrite Hl. assert (exists q, w_procs w !! me_target e = Some q /\ (p_pc q = LUnborn -> p_birth q = (me_watcher e, Some r)))
      as (q & Hq & Hu).
    { destruct (decide (r = r0)) as [->|]; [by apply (He e Hx)|]. rewrite Hm in Hx by done. by apply H3. }
    destruct (decide (i = me_target e)) as [E|]; [|by exists q]. rewrite <-E in Hq. rewrite <-E, Hp. simplify_eq/=. eexists. split; [done|]. done.
Qed.

Lemma hc_entry w i p f m s j r :
  w_procs w !! i = Some p -> hc (entry_world w i f m s) j r = if decide (i = j) then cnt r (held (f p)) else hc w j r.
Proof.
  intros Hp. unfold hc. simpl. rewrite (procs_at w i f). destruct (decide (i = j)) as [<-|]; [by rewrite Hp|done].
Qed.
Lemma oc_entry w i p f m s j r :
  w_procs w !! i = Some p -> oc (entry_world w i f m s) j r = if decide (i = j) then cnt r (owed_refs (f p)) else oc w j r.
Proof.
  intros Hp. unfold oc. simpl. rewrite (procs_at w i f). destruct (decide (i = j)) as [<-|]; [by rewrite Hp|done].
Qed.

Lemma hc_at w i p r : w_procs w !! i = Some p -> hc w i r = cnt r (held p).
Proof. intros Hp. unfold hc. by rewrite Hp. Qed.
Lemma oc_at w i p r : w_procs w !! i = Some p -> oc w i r = cnt r (owed_refs p).
Proof. intros Hp. unfold oc. by rewrite Hp. Qed.

(** Nobody holds an entry that does not exist, and no such entry exists. *)
Lemma counts_none w r j : world_ok w -> w_mons w !! r = None -> hc w j r = 0 /\ oc w j r = 0.
Proof.
  intros Hok Hr. pose proof (hc_nonneg w j r). pose proof (oc_nonneg w j r).
  destruct (decide (0 < hc w j r)) as [Hh|]; [by destruct (eo_held _ _ _ _ (wo_entries _ Hok) j r Hh) as (e & ? & _); simplify_eq|].
  destruct (decide (0 < oc w j r)) as [Hh|]; [by destruct (eo_owed _ _ _ _ (wo_entries _ Hok) j r Hh) as (e & ? & _); simplify_eq|].
  lia.
Qed.

Lemma ref_fresh w r : world_ok w -> w_seq w < r -> w_mons w !! r = None /\ w_inst w !! r = None.
Proof.
  intros Hok Hr. split; apply eq_None_not_Some.
  - intros [e He]. pose proof (eo_seq _ _ _ _ (wo_entries _ Hok) r e He). lia.
  - intros [[wt t] He]. destruct (io_seq _ (wo_inst _ Hok) r wt t He). lia.
Qed.

(** A new entry with [n] references, all held by its maker. *)
Lemma ok_new w i p n t pc :
  world_ok w -> w_seq w + 1 < 2 ^ 64 -> w_procs w !! i = Some p -> p_pc p <> LUnborn -> pc <> LUnborn -> 1 <= n <= 2 ->
  owed (with_pc pc p) = owed p -> (forall r, cnt r (owed_refs (with_pc pc p)) = cnt r (owed_refs p)) ->
  (forall r, cnt r (held (with_pc pc p)) = cnt r (held p) + (if decide (w_seq w + 1 = r) then n else 0)) ->
  (exists q, w_procs w !! t = Some q /\ (p_pc q = LUnborn -> p_birth q = (i, Some (w_seq w + 1)))) ->
  state_ok (with_pc pc p) ->
  (forall w', w_procs w' = alter (with_pc pc) i (w_procs w) ->
     making w' (w_seq w + 1) (mk_mon n i t) -> pc_ok w' i pc) ->
  world_ok (at_ (with_mons (next_ref w).2 (<[(next_ref w).1 := mk_mon n i t]> (w_mons w))) i (with_pc pc)).
Proof.
  intros Hok Hlt Hp Hb Hb' Hn Ho Hor Hh Ht Hs Hpc. rewrite (next_ref_eq w (wo_seq _ Hok) Hlt).
  set (r0 := w_seq w + 1). destruct (ref_fresh w r0 Hok ltac:(unfold r0; lia)) as [Hm Hi].
  assert ((next_ref w).2 = mk_world (w_procs w) (w_mons w) r0 (w_inst w) (w_lost w)) as ->
    by (unfold next_ref; simpl; f_equal; exact (next_ref_eq w (wo_seq _ Hok) Hlt)).
  change (world_ok (entry_world w i (with_pc pc) (<[r0 := mk_mon n i t]> (w_mons w)) r0)).
  assert (forall j, hc (entry_world w i (with_pc pc) (<[r0 := mk_mon n i t]> (w_mons w)) r0) j r0 = if decide (i = j) then n else 0) as Ehc.
  { intros j. rewrite (hc_entry w i p) by done. destruct (counts_none w r0 j Hok Hm) as [E _]. case_decide as E'; [|done].
    subst. rewrite Hh. fold r0. rewrite <-(hc_at w j p r0 Hp), E, decide_True by done. lia. }
  assert (forall j, oc (entry_world w i (with_pc pc) (<[r0 := mk_mon n i t]> (w_mons w)) r0) j r0 = 0) as Eoc.
  { intros j. rewrite (oc_entry w i p) by done. destruct (counts_none w r0 j Hok Hm) as [_ E]. case_decide as E'; [|done].
    subst. by rewrite Hor, <-(oc_at w j p r0 Hp). }
  apply (ok_entry w i p _ _ _ r0); try done.
  - unfold r0. lia.
  - intros r Hr. rewrite Hh, Hor, decide_False by done. split; [lia|done].
  - intros r Hr. by rewrite lookup_insert_ne.
  - intros e. rewrite lookup_insert_eq. intros [= <-]. simpl. rewrite Ehc, Eoc, decide_True by done. repeat split; try lia; done.
  - intros j. rewrite Ehc, lookup_insert_eq. case_decide; [|lia]. subst. by eexists.
  - intros j. rewrite Eoc. lia.
  - intros e He. congruence.
  - apply Hpc; [done|]. split; simpl; [by rewrite lookup_insert_eq|done].
Qed.

(** A reference given up by the only process that changes: the entry is freed
    with the last one. *)
Lemma ok_put w i p r f :
  world_ok w -> w_procs w !! i = Some p -> kept_own p (f p) ->
  (forall x, x <> r -> cnt x (held (f p)) = cnt x (held p) /\ cnt x (owed_refs (f p)) = cnt x (owed_refs p)) ->
  cnt r (held (f p)) + cnt r (owed_refs (f p)) = cnt r (held p) + cnt r (owed_refs p) - 1 ->
  cnt r (held (f p)) <= cnt r (held p) -> cnt r (owed_refs (f p)) <= cnt r (owed_refs p) ->
  (forall e, w_mons w !! r = Some e -> me_watcher e = i \/ 0 < cnt r (owed_refs p)) ->
  state_ok (f p) ->
  (forall w', w_procs w' = alter f i (w_procs w) -> w_inst w' = w_inst w -> (forall x, x <> r -> w_mons w' !! x = w_mons w !! x) ->
     pc_ok w' i (p_pc (f p))) ->
  world_ok (at_ (__mon_put w r) i f).
Proof.
  intros Hok Hp Hk Hx Hr Hr1 Hr2 Hother Hs Hpc. destruct (wo_entries _ Hok) as [E1 E2 E3 E4].
  pose proof (hc_at w i p r Hp) as Eh. pose proof (oc_at w i p r Hp) as Eo.
  assert (exists e, w_mons w !! r = Some e) as [e He].
  { pose proof (cnt_nonneg r (held (f p))). pose proof (cnt_nonneg r (owed_refs (f p))).
    destruct (decide (0 < hc w i r)) as [H'|]; [by destruct (E1 i r H') as (e & ? & _); exists e|].
    destruct (E2 i r) as (e & ? & _); [lia|by exists e]. }
  destruct (E3 r e He) as [Hn Hsum].
  assert (forall j, hc w j r <= (if decide (j = me_watcher e) then hc w j r else 0)) as Uh.
  { intros j. case_decide; [lia|]. destruct (decide (0 < hc w j r)) as [H'|]; [|lia]. destruct (E1 j r H') as (e' & ? & ?). congruence. }
  assert (forall j, oc w j r <= (if decide (j = me_target e) then oc w j r else 0)) as Uo.
  { intros j. case_decide; [lia|]. destruct (decide (0 < oc w j r)) as [H'|]; [|lia]. destruct (E2 j r H') as (e' & ? & ?). congruence. }
  pose proof (Uh i) as Uhi. pose proof (Uo i) as Uoi.
  set (m' := if decide (me_refs e = 1) then delete r (w_mons w) else <[r := mk_mon (me_refs e - 1) (me_watcher e) (me_target e)]> (w_mons w)).
  assert (at_ (__mon_put w r) i f = entry_world w i f m' (w_seq w)) as ->.
  { unfold __mon_put, m'. rewrite He. destruct (decide (me_refs e = 1)); reflexivity. }
  pose proof (cnt_nonneg r (held p)). pose proof (cnt_nonneg r (owed_refs p)).
  pose proof (cnt_nonneg r (held (f p))). pose proof (cnt_nonneg r (owed_refs (f p))).
  pose proof (hc_nonneg w (me_watcher e) r). pose proof (oc_nonneg w (me_target e) r).
  assert (hc (entry_world w i f m' (w_seq w)) (me_watcher e) r + oc (entry_world w i f m' (w_seq w)) (me_target e) r
    = me_refs e - 1) as Hsum'.
  { rewrite (hc_entry w i p), (oc_entry w i p), Hsum by done.
    revert Uhi Uoi. destruct (decide (i = me_watcher e)) as [E|], (decide (i = me_target e)) as [E'|];
      try rewrite <-E; try rewrite <-E'; lia. }
  assert (forall j, hc (entry_world w i f m' (w_seq w)) j r <= hc w j r) as Lh.
  { intros j. rewrite (hc_entry w i p) by done. destruct (decide (i = j)) as [<-|]; lia. }
  assert (forall j, oc (entry_world w i f m' (w_seq w)) j r <= oc w j r) as Lo.
  { intros j. rewrite (oc_entry w i p) by done. destruct (decide (i = j)) as [<-|]; lia. }
  pose proof (hc_nonneg (entry_world w i f m' (w_seq w)) (me_watcher e) r) as N1.
  pose proof (oc_nonneg (entry_world w i f m' (w_seq w)) (me_target e) r) as N2.
  assert (forall x, x <> r -> m' !! x = w_mons w !! x) as Hm.
  { intros x Hne. unfold m'. destruct (decide (me_refs e = 1)); [by rewrite lookup_delete_ne|by rewrite lookup_insert_ne]. }
  apply (ok_entry w i p _ _ _ r); try done; [| | | |by apply Hpc].
  - intros e' He'. assert (me_refs e <> 1 /\ e' = mk_mon (me_refs e - 1) (me_watcher e) (me_target e)) as [Hne ->].
    { revert He'. unfold m'. destruct (decide (me_refs e = 1)); [by rewrite lookup_delete_eq|]. rewrite lookup_insert_eq. by intros [= <-]. }
    simpl. split_and!; [by eapply E4|lia|lia|lia|]. by apply (wo_target _ Hok).
  - intros j Hj. pose proof (Lh j). pose proof (Uh j). destruct (decide (j = me_watcher e)) as [->|]; [|lia].
    unfold m'. destruct (decide (me_refs e = 1)); [lia|]. rewrite lookup_insert_eq. by eexists.
  - intros j Hj. pose proof (Lo j). pose proof (Uo j). destruct (decide (j = me_target e)) as [->|]; [|lia].
    unfold m'. destruct (decide (me_refs e = 1)); [lia|]. rewrite lookup_insert_eq. by eexists.
  - intros e' He'. simplify_eq. destruct (Hother e He) as [?|Hc]; [by left|]. right.
    destruct (decide (i = me_target e)) as [<-|]; lia.
Qed.

(** The second reference of an entry that is being made. *)
Lemma ok_full w i p t ref :
  world_ok w -> runs w i (LMonTarget t ref) p -> world_ok (at_ (set_refs w ref 2) i (with_pc (LMonPush t ref))).
Proof.
  intros Hok [Hp Hpc]. destruct (wo_state _ Hok _ _ Hp) as [Hs Ho]. rewrite Hpc in Ho. destruct Ho as [[Hm Hi] Hb].
  destruct (wo_entries _ Hok) as [E1 E2 E3 E4]. destruct (E3 ref _ Hm) as [_ Hr]. simpl in Hr.
  pose proof (hc_at w i p ref Hp) as Eh. assert (cnt ref (held p) = 1 + cnt ref (wl_monitors (p_watch p))) as El.
  { unfold held. rewrite Hpc. cnt_simpl. by rewrite decide_True. }
  assert (cnt ref (held (with_pc (LMonPush t ref) p)) = 2 + cnt ref (wl_monitors (p_watch p))) as El'.
  { unfold held. simpl. cnt_simpl. rewrite decide_True by done. lia. }
  pose proof (cnt_nonneg ref (wl_monitors (p_watch p))). pose proof (oc_nonneg w t ref).
  change (world_ok (entry_world w i (with_pc (LMonPush t ref))
    (alter (fun e => mk_mon 2 (me_watcher e) (me_target e)) ref (w_mons w)) (w_seq w))).
  assert (forall j, oc (entry_world w i (with_pc (LMonPush t ref)) (alter (fun e => mk_mon 2 (me_watcher e) (me_target e)) ref (w_mons w))
    (w_seq w)) j ref = oc w j ref) as Eo.
  { intros j. rewrite (oc_entry w i p) by done. destruct (decide (i = j)) as [<-|]; [|done]. rewrite (oc_at w i p) by done. counts Hpc. }
  apply (ok_entry w i p _ _ _ ref); try done.
  - split; [counts Hpc|done|done|by rewrite Hpc].
  - intros r Hr'. split; counts Hpc. rewrite decide_False by done. lia.
  - intros r Hr'. by rewrite lookup_alter_ne.
  - intros e. rewrite lookup_alter_eq, Hm. simpl. intros [= <-]. simpl.
    rewrite Eo, (hc_entry w i p), decide_True, El' by done.
    split_and!; [by eapply E4|lia|lia|lia|]. exact (wo_target _ Hok ref _ Hm).
  - intros j. rewrite lookup_alter_eq, Hm, (hc_entry w i p) by done. simpl. intros Hj. eexists. split; [done|]. simpl.
    destruct (decide (i = j)); [done|]. destruct (E1 j ref Hj) as (e & He & <-). by rewrite Hm in He; injection He as <-.
  - intros j. rewrite lookup_alter_eq, Hm, Eo. simpl. intros Hj. eexists. split; [done|]. simpl.
    destruct (E2 j ref Hj) as (e & He & <-). by rewrite Hm in He; injection He as <-.
  - intros e He. simplify_eq. by left.
  - state_own Hs Hpc.
  - simpl. split.
    + split; simpl; [|done]. rewrite lookup_alter_eq, Hm. done.
    + apply (born_kept w i p _ t Hp); done.
Qed.

(** A monitor that is not installed is nowhere. *)
Lemma counts_uninst w r : inst_ok w -> w_inst w !! r = None -> (forall j, wc w j r = 0 /\ dc w j r = 0) /\ cnt r (w_lost w).*1 = 0.
Proof.
  intros [_ I2 I3 I4 _] Hr. split.
  - intros j. unfold wc, dc. destruct (w_procs w !! j) as [p|] eqn:Hp; [|done]. split.
    + pose proof (cnt_nonneg r (owed p).*1). destruct (decide (0 < cnt r (owed p).*1)) as [H'|]; [|lia].
      apply cnt_elem, list_elem_of_fmap in H' as ([r' wt] & -> & H'). pose proof (I2 j p r' wt Hp H'). simpl in *. congruence.
    + pose proof (cnt_nonneg r (down_refs p)). destruct (decide (0 < cnt r (down_refs p))) as [H'|]; [|lia].
      apply cnt_elem, list_elem_of_fmap in H' as ([[r' t] x] & -> & H'). destruct (I3 j p r' t x Hp H') as [Hi _]. simpl in *. congruence.
  - pose proof (cnt_nonneg r (w_lost w).*1). destruct (decide (0 < cnt r (w_lost w).*1)) as [H'|]; [|lia].
    apply cnt_elem, list_elem_of_fmap in H' as ([r' d] & -> & H'). destruct (I4 r' d H') as (wt & t & Hi & _). simpl in *. congruence.
Qed.

(** *** Installing a monitor *)

Section Install.
Context (w : world) (i t : nat) (ref : Z) (p q : proc) (f : proc -> proc) (pc : lpc) (wl : watchlist).
Context (Hok : world_ok w) (Hp : w_procs w !! i = Some p) (Hq : w_procs w !! t = Some q).
Context (Hm : making w ref (mk_mon 2 i t)).
Context (Hf : forall x, p_watch x = p_watch p -> f x = with_pc pc (with_watch wl x)).
Context (Hp0 : exited (p_pc p) = false /\ p_pc p <> LUnborn) (Hp1 : exited pc = false /\ pc <> LUnborn).
Context (Hq0 : exited (p_pc q) = false) (Hq1 : p_pc q = LUnborn -> p_birth q = (i, Some ref)).
Context (Hheld : forall r, cnt r (held (with_pc pc (with_watch wl p))) = cnt r (held p) - if decide (ref = r) then 1 else 0).

Let w' := at_ (install w t ref i) i f.

Local Lemma install_procs j :
  w_procs w' !! j =
  (if decide (i = j) then Some (with_pc pc (with_watch wl (if decide (t = i) then with_by ((ref, i) :: p_by p) p else p)))
   else if decide (t = j) then Some (with_by ((ref, i) :: p_by q) q) else w_procs w !! j).
Proof.
  unfold w', install. rewrite (procs_at _ i f). unfold with_inst. cbn [w_procs]. rewrite (procs_at w t).
  destruct (decide (i = j)) as [<-|].
  - destruct (decide (t = i)); rewrite Hp; simpl; by rewrite Hf.
  - destruct (decide (t = j)) as [<-|]; [by rewrite Hq|done].
Qed.

Local Lemma owed_running x : exited (p_pc x) = false -> owed x = p_by x /\ owed_refs x = (p_by x).*1.
Proof. unfold owed_refs, owed. by destruct (p_pc x). Qed.

Local Lemma install_counts j r :
  hc w' j r = hc w j r - (if decide (i = j /\ ref = r) then 1 else 0) /\
  oc w' j r = oc w j r + (if decide (t = j /\ ref = r) then 1 else 0) /\
  wc w' j r = wc w j r + (if decide (t = j /\ ref = r) then 1 else 0) /\
  dc w' j r = dc w j r.
Proof.
  unfold hc, oc, wc, dc. rewrite install_procs. destruct Hp0 as [Hp0' _], Hp1 as [Hp1' _].
  destruct (decide (i = j)) as [<-|Hij].
  - rewrite Hp. destruct (owed_running p Hp0') as [O1 O2].
    set (x := with_pc pc _). destruct (owed_running x Hp1') as [O3 O4]. rewrite O1, O2, O3, O4.
    assert (held x = held (with_pc pc (with_watch wl p))) as -> by (unfold x; by case_decide).
    assert (down_refs x = down_refs p) as -> by (unfold x; by case_decide).
    rewrite Hheld. assert (p_by x = if decide (t = i) then (ref, i) :: p_by p else p_by p) as -> by (unfold x; by case_decide).
    rewrite (decide_ext (i = i /\ ref = r) (ref = r)) by tauto. destruct (decide (t = i)) as [->|].
    + rewrite (decide_ext (i = i /\ ref = r) (ref = r)) by tauto. rewrite fmap_cons. cnt_simpl. simpl. repeat split; lia.
    + rewrite (decide_False (P := t = i /\ ref = r)) by tauto. repeat split; lia.
  - rewrite (decide_False (P := i = j /\ ref = r)) by tauto. destruct (decide (t = j)) as [<-|Htj].
    + rewrite Hq. destruct (owed_running q Hq0) as [O1 O2]. set (x := with_by _ q). destruct (owed_running x Hq0) as [O3 O4].
      rewrite O1, O2, O3, O4, (decide_ext (t = t /\ ref = r) (ref = r)) by tauto. change (p_by x) with ((ref, i) :: p_by q). change (held x) with (held q). rewrite fmap_cons. cnt_simpl. simpl. repeat split; try done; lia.
    + rewrite (decide_False (P := t = j /\ ref = r)) by tauto. repeat split; lia.
Qed.

Local Lemma install_inst : inst_ok w'.
Proof.
  destruct Hm as [Hm1 Hm2]. destruct (counts_uninst w ref (wo_inst _ Hok) Hm2) as [U1 U2]. destruct (wo_inst _ Hok) as [I1 I2 I3 I4 I5].
  assert (forall j x, w_procs w' !! j = Some x -> exists y, w_procs w !! j = Some y /\ downs x = downs y /\ p_alive x = p_alive y /\
    p_exit x = p_exit y /\ forall r wt, (r, wt) ∈ owed x -> (r, wt) ∈ owed y \/ (r, wt) = (ref, i) /\ j = t) as Hl.
  { intros j x. rewrite install_procs. destruct Hp0 as [Hp0' _], Hp1 as [Hp1' _]. destruct (decide (i = j)) as [<-|].
    - intros [= <-]. exists p. split; [done|]. destruct (owed_running p Hp0') as [-> _].
      set (x := with_pc pc _). destruct (owed_running x Hp1') as [-> _]. unfold x. destruct (decide (t = i)) as [->|]; [|naive_solver].
      split_and!; try done. simpl. setoid_rewrite elem_of_cons. naive_solver.
    - destruct (decide (t = j)) as [<-|]; [|naive_solver]. intros [= <-]. exists q. split_and!; try done.
      destruct (owed_running q Hq0) as [-> _]. destruct (owed_running (with_by ((ref, i) :: p_by q) q) Hq0) as [-> _].
      simpl. setoid_rewrite elem_of_cons. naive_solver. }
  assert (forall j y, w_procs w !! j = Some y -> exists x, w_procs w' !! j = Some x /\ p_alive x = p_alive y /\ p_exit x = p_exit y) as Hl'.
  { intros j y Hy. rewrite install_procs. destruct (decide (i = j)) as [<-|]; [rewrite Hp in Hy; simplify_eq; case_decide; by eexists|].
    destruct (decide (t = j)) as [<-|]; [rewrite Hq in Hy; simplify_eq|]; by eexists. }
  assert (w_inst w' = <[ref := (i, t)]> (w_inst w)) as Ei by done.
  assert (w_lost w' = w_lost w) as El by done.
  split; rewrite ?Ei, ?El.
  - intros r wt t' Hr. destruct (install_counts t' r) as (_ & _ & -> & _), (install_counts wt r) as (_ & _ & _ & ->).
    destruct (decide (r = ref)) as [->|Hne].
    + rewrite lookup_insert_eq in Hr. simplify_eq. rewrite (proj1 (U1 t')), (proj2 (U1 wt)), U2. by rewrite decide_True.
    + rewrite lookup_insert_ne in Hr by done. rewrite (decide_False (P := t = t' /\ ref = r)) by naive_solver.
      rewrite <-(I1 r wt t' Hr). lia.
  - intros j x r wt Hx Hin. destruct (Hl j x Hx) as (y & Hy & _ & _ & _ & Ho). destruct (Ho r wt Hin) as [Hin'|[[= -> ->] ->]].
    + pose proof (I2 j y r wt Hy Hin') as Hr. rewrite lookup_insert_ne; [done|]. intros ->. congruence.
    + by rewrite lookup_insert_eq.
  - intros j x r t' z Hx Hd. destruct (Hl j x Hx) as (y & Hy & Ed & _). rewrite Ed in Hd.
    destruct (I3 j y r t' z Hy Hd) as (Hr & qt & Hqt & Ha & He). split.
    + rewrite lookup_insert_ne; [done|]. intros ->. congruence.
    + destruct (Hl' t' qt Hqt) as (x' & Hx' & Ea & Ee). exists x'. by rewrite Ea, Ee.
  - intros r dead Hin. destruct (I4 r dead Hin) as (wt & t' & Hr & Ha). exists wt, t'. split.
    + rewrite lookup_insert_ne; [done|]. intros ->. congruence.
    + intros Hd. destruct (Ha Hd) as (y & Hy & Hya). destruct (Hl' wt y Hy) as (x & Hx & Ea & _). exists x. by rewrite Ea.
  - intros r wt t' Hr. change (w_seq w') with (w_seq w). destruct (decide (r = ref)) as [->|Hne].
    + rewrite lookup_insert_eq in Hr. simplify_eq. split; [by apply (eo_seq _ _ _ _ (wo_entries _ Hok) ref _ Hm1)|].
      destruct (Hl' wt p Hp) as (x & Hx & _), (Hl' t' q Hq) as (x' & Hx' & _). eauto.
    + rewrite lookup_insert_ne in Hr by done. destruct (I5 r wt t' Hr) as (? & [y Hy] & [y' Hy']). split; [done|].
      destruct (Hl' wt y Hy) as (x & Hx & _), (Hl' t' y' Hy') as (x' & Hx' & _). eauto.
Qed.

Lemma ok_install : pc_ok w' i pc -> world_ok w'.
Proof.
  intros Hpc. destruct Hm as [Hm1 Hm2]. destruct (wo_entries _ Hok) as [E1 E2 E3 E4]. destruct (E3 ref _ Hm1) as [_ Hr]. simpl in Hr.
  assert (0 < hc w i ref) as Hhi.
  { pose proof (install_counts i ref) as (Hh & _). rewrite decide_True in Hh by done. pose proof (hc_nonneg w' i ref). lia. }
  split; [|apply install_inst]. split.
  - apply (wo_seq _ Hok).
  - intros j x Hx. pose proof Hx as Hx'. rewrite install_procs in Hx'. destruct Hp1 as [Hp1' Hp1b].
    destruct (decide (i = j)) as [<-|Hij].
    { simplify_eq. split; [|done]. destruct (wo_state _ Hok i p Hp) as [[S1 S2 S3] _]. destruct Hp0 as [Hp0' _].
      rewrite Hp0' in S1. by case_decide; split; simpl; rewrite ?Hp1'. }
    assert (exists y, w_procs w !! j = Some y /\ p_pc x = p_pc y /\ held x = held y /\ state_ok x) as (y & Hy & E & Eh & Hsx).
    { destruct (decide (t = j)) as [<-|].
      - simplify_eq. exists q. split_and!; try done. destruct (wo_state _ Hok t q Hq) as [[S1 S2 S3] _].
        split; simpl; [done| |done]. intros Hx2. congruence.
      - exists x. split_and!; try done. by apply (wo_state _ Hok j). }
    split; [done|]. rewrite E. destruct (wo_state _ Hok j y Hy) as [_ Hj]. revert Hj. apply proc_ok_mono.
    + intros t' (z & Hz & Hb). unfold born. rewrite install_procs. destruct (decide (i = t')); [eexists; split; [done|done]|].
      destruct (decide (t = t')) as [<-|]; [|naive_solver]. simplify_eq. by eexists.
    + intros c b y' (z & Hz & Hu & Hb & Hr'). unfold child. rewrite install_procs. destruct (decide (i = c)) as [<-|]; [naive_solver|].
      destruct (decide (t = c)) as [<-|]; [|naive_solver]. exfalso. simplify_eq. specialize (Hq1 Hu). congruence.
    + intros r e He1 He2 [Hx1 Hx2]. split; [done|]. change (<[ref := (i, t)]> (w_inst w) !! r = None).
      rewrite lookup_insert_ne; [done|]. intros ->. simplify_eq.
  - change (w_mons w') with (w_mons w). change (w_seq w') with (w_seq w).
    apply (entries_update (hc w) (oc w) _ _ (w_mons w) _ (w_seq w) _ ref); try done.
    + intros j r Hne. destruct (install_counts j r) as (-> & -> & _). rewrite !decide_False by naive_solver. split; lia.
    + intros e He. simplify_eq. simpl. destruct (install_counts i ref) as (-> & _), (install_counts t ref) as (_ & -> & _).
      rewrite !decide_True by done. split_and!; [by eapply E4|lia|lia|lia].
    + intros j Hj. destruct (install_counts j ref) as (Ehc & _). rewrite Ehc in Hj. apply E1. case_decide; lia.
    + intros j Hj. destruct (install_counts j ref) as (_ & Eoc & _). rewrite Eoc in Hj. case_decide as Hd; [|apply E2; lia].
      destruct Hd as [<- _]. by eexists.
  - intros r e He. destruct (wo_target _ Hok r e He) as (z & Hz & Hu). rewrite install_procs.
    destruct (decide (i = me_target e)) as [E|]; [eexists; split; [done|]; simpl; by intros ->; destruct Hp1|].
    destruct (decide (t = me_target e)) as [E|]; [|by exists z]. rewrite <-E in Hz. simplify_eq. by eexists.
Qed.
End Install.

(** *** Spawning *)

Lemma at_comm w i j f g : i <> j -> at_ (at_ w i f) j g = at_ (at_ w j g) i f.
Proof. intros H. unfold at_. simpl. f_equal. apply map_eq. intros k. rewrite !lookup_alter. repeat case_decide; congruence. Qed.

Lemma procs_into w c x j : w_procs (spawned_into w c x) !! j = if decide (c = j) then Some x else w_procs w !! j.
Proof. simpl. destruct (decide (c = j)) as [->|]; [apply lookup_insert_eq|by apply lookup_insert_ne]. Qed.

Lemma born_into w c x t : w_procs w !! c = None -> born w t -> born (spawned_into w c x) t.
Proof. intros Hc (q & Hq & Hb). exists q. rewrite procs_into. destruct (decide (c = t)) as [<-|]; [congruence|done]. Qed.

Lemma child_into w c x d j b by_ : w_procs w !! c = None -> child w d j b by_ -> child (spawned_into w c x) d j b by_.
Proof. intros Hc (q & Hq & Hr). exists q. rewrite procs_into. destruct (decide (c = d)) as [<-|]; [congruence|done]. Qed.

Lemma ok_spawn_into w c cap wm links birth pc :
  world_ok w -> w_procs w !! c = None -> pc = LUnborn \/ pc = LRun ->
  world_ok (spawned_into w c (with_pc pc (new_proc cap wm links birth))).
Proof.
  intros Hok Hc Hpc. set (x := with_pc pc _). set (w' := spawned_into w c x).
  assert (held x = [] /\ owed_refs x = [] /\ owed x = [] /\ downs x = []) as (X1 & X2 & X3 & X4).
  { unfold held, owed_refs, owed, downs, x. simpl. by destruct Hpc as [->| ->]. }
  assert (forall j r, hc w' j r = hc w j r /\ oc w' j r = oc w j r /\ wc w' j r = wc w j r /\ dc w' j r = dc w j r) as Hcnt.
  { intros j r. unfold hc, oc, wc, dc, down_refs, w'. rewrite procs_into. destruct (decide (c = j)) as [<-|]; [|done].
    by rewrite Hc, X1, X2, X3, X4. }
  destruct Hok as [[H0 H1 H2 H3] [I1 I2 I3 I4 I5]]. split.
  - split; [done| | |].
    + intros j q. unfold w'. rewrite procs_into. destruct (decide (c = j)) as [<-|].
      * intros [= <-]. split; [|unfold x; simpl; by destruct Hpc as [->| ->]].
        unfold x. destruct Hpc as [->| ->]; split; simpl; lia || done.
      * intros Hq. destruct (H1 j q Hq) as [Hs Ho]. split; [done|]. revert Ho.
        apply pc_ok_mono; [intros t; by apply born_into|intros d b y; by apply child_into|done].
    + eapply entries_quiet; [exact H2| |done]. intros j r. destruct (Hcnt j r) as (? & ? & _). done.
    + intros r e He. destruct (H3 r e He) as (q & Hq & Hu). exists q. unfold w'. rewrite procs_into.
      destruct (decide (c = me_target e)) as [E|]; [congruence|done].
  - assert (forall j q, w_procs w' !! j = Some q -> w_procs w !! j = Some q \/ q = x) as Hl.
    { intros j q. unfold w'. rewrite procs_into. destruct (decide (c = j)); naive_solver. }
    split.
    + intros r wt t Hr. destruct (Hcnt t r) as (_ & _ & -> & _), (Hcnt wt r) as (_ & _ & _ & ->). by apply I1.
    + intros j q r wt Hq Hin. destruct (Hl j q Hq) as [Hq' | ->]; [by eapply I2|]. rewrite X3 in Hin. by apply elem_of_nil in Hin.
    + intros j q r t y Hq Hin. destruct (Hl j q Hq) as [Hq' | ->]; [|rewrite X4 in Hin; by apply elem_of_nil in Hin].
      destruct (I3 j q r t y Hq' Hin) as (Hi & qt & Hqt & Ha). split; [done|]. exists qt. unfold w'. rewrite procs_into.
      destruct (decide (c = t)) as [<-|]; [congruence|done].
    + intros r dead Hin. destruct (I4 r dead Hin) as (wt & t & Hi & Ha). exists wt, t. split; [done|]. intros Hd.
      destruct (Ha Hd) as (q & Hq & Hqa). exists q. unfold w'. rewrite procs_into. destruct (decide (c = wt)) as [<-|]; [congruence|done].
    + intros r wt t Hi. destruct (I5 r wt t Hi) as (? & ? & ?). unfold w'. rewrite !procs_into. split_and!; [done|by case_decide..].
Qed.

(** The child of a finished spawn changes: nobody else relies on it. *)
Lemma base_orphan w c q i p f :
  base_ok w -> w_procs w !! c = Some q -> p_pc q = LUnborn -> (p_birth q).1 = i -> w_procs w !! i = Some p -> p_pc p = LRun ->
  (forall r, cnt r (held (f q)) = cnt r (held q) /\ cnt r (owed_refs (f q)) = cnt r (owed_refs q)) ->
  state_ok (f q) -> pc_ok w c (p_pc (f q)) -> p_pc (f q) = LRun \/ p_pc (f q) = LGone -> base_ok (at_ w c f).
Proof.
  intros [H0 H1 H2 H3] Hq Hu Hb Hp Hpc Hcnt Hs Ho Hf. split.
  - done.
  - intros j x. rewrite procs_at. destruct (decide (c = j)) as [<-|Hne].
    + rewrite Hq. intros [= <-]. split; [done|]. by destruct Hf as [-> | ->].
    + intros Hx. destruct (H1 j x Hx) as [Hsx Hox]. split; [done|]. destruct (decide (i = j)) as [<-|Hij].
      { rewrite Hp in Hx. simplify_eq. by rewrite Hpc. }
      revert Hox. apply pc_ok_mono; [| |done].
      * intros t (y & Hy & Hyb). unfold born. rewrite procs_at. destruct (decide (c = t)) as [<-|]; [|by exists y]. congruence.
      * intros d b y (z & Hz & Hzu & Hzb & Hzr). unfold child. rewrite procs_at. destruct (decide (c = d)) as [<-|]; [|by exists z].
        exfalso. rewrite Hq in Hz. simplify_eq/=. rewrite Hzb in Hij. done.
  - eapply entries_quiet; [exact H2| |done]. intros j r. unfold hc, oc. rewrite procs_at. destruct (decide (c = j)) as [<-|]; [|done].
    rewrite Hq. simpl. apply Hcnt.
  - intros r e He. destruct (H3 r e He) as (y & Hy & Hyu). rewrite procs_at. destruct (decide (c = me_target e)) as [E|]; [|by exists y].
    rewrite <-E in Hy |- *. rewrite Hy. eexists. split; [done|]. rewrite Hq in Hy. simplify_eq. by destruct Hf as [-> | ->].
Qed.

Lemma ok_orphan w c i p b by_ f pc :
  world_ok w -> runs w i pc p -> child w c i b by_ -> pc <> LUnborn -> pc = LUndo c \/ (exists r, pc = LSpawned c r) ->
  (forall q, p_pc q = LUnborn -> p_by q = by_ -> wl_monitors (p_watch q) = [] -> state_ok q ->
     (forall r, cnt r (held (f q)) = cnt r (held q) /\ cnt r (owed_refs (f q)) = cnt r (owed_refs q)) /\
     owed (f q) = owed q /\ downs (f q) = downs q /\ state_ok (f q) /\ (p_pc (f q) = LRun \/ p_pc (f q) = LGone)) ->
  (forall q, p_alive q = false -> p_alive (f q) = false /\ p_exit (f q) = p_exit q) ->
  world_ok (at_ (at_ w c f) i (with_pc LRun)).
Proof.
  intros Hok Hr (q & Hq & Hu & Hb & Hy & Hw) Hpcu Hpc Hf Hdead. pose proof Hr as [Hp Hpc'].
  assert (c <> i) as Hne by (intros ->; congruence). rewrite at_comm by done.
  assert (world_ok (at_ w i (with_pc LRun))) as Hok1.
  { destruct Hpc as [->|[r ->]]; own Hok Hr. }
  assert (w_procs (at_ w i (with_pc LRun)) !! c = Some q) as Hq' by (rewrite procs_at, decide_False; done).
  destruct (wo_state _ Hok1 c q Hq') as [Hsq _]. destruct (Hf q Hu Hy Hw Hsq) as (F1 & F2 & F3 & F4 & F5). split.
  - apply (base_orphan _ c q i (with_pc LRun p)); try done; [apply Hok1|by rewrite Hb|rewrite procs_at, decide_True, Hp; done|].
    by destruct F5 as [-> | ->].
  - apply (inst_quiet _ c q); [apply Hok1|done|done|done|apply Hdead].
Qed.

(** *** Sending the DOWN signals *)

(** The ledger when the DOWN for [ref] leaves the target's list: it is in the
    watcher's mailbox ([got]) or lost. *)
Lemma inst_down w w' i p ref wt mb (got : bool) x mem :
  inst_ok w -> w_procs w !! i = Some p -> p_alive p = false -> owed p = (ref, wt) :: mb -> x = (ref, i, p_exit p) ->
  w_inst w' = w_inst w -> w_seq w' = w_seq w -> w_lost w' = (if got then w_lost w else (ref, mem) :: w_lost w) ->
  (got = false -> mem = true -> exists q, w_procs w !! wt = Some q /\ p_alive q = false) ->
  (forall j, match w_procs w !! j, w_procs w' !! j with
             | Some q, Some q' =>
                 owed q' = (if decide (j = i) then mb else owed q) /\
                 downs q' = (if decide (j = wt) then if got then downs q ++ [x] else downs q else downs q) /\
                 p_alive q' = p_alive q /\ p_exit q' = p_exit q
             | None, None => True
             | _, _ => False
             end) ->
  inst_ok w'.
Proof.
  intros [I1 I2 I3 I4 I5] Hp Ha Ho Ex Ei Es El Hdead Hl. pose proof (I2 i p ref wt Hp ltac:(rewrite Ho; left)) as Hinst.
  assert (forall j q, w_procs w !! j = Some q -> exists q', w_procs w' !! j = Some q' /\ p_alive q' = p_alive q /\ p_exit q' = p_exit q) as Hl1.
  { intros j q Hq. specialize (Hl j). rewrite Hq in Hl. destruct (w_procs w' !! j) as [q'|]; [|done]. exists q'. naive_solver. }
  assert (is_Some (w_procs w !! wt)) as [qw Hqw] by (by apply (I5 ref wt i)).
  assert (forall j r, wc w' j r = wc w j r - (if decide (j = i) then if decide (ref = r) then 1 else 0 else 0)) as Ewc.
  { intros j r. unfold wc. specialize (Hl j). destruct (w_procs w !! j) as [q|] eqn:Hq, (w_procs w' !! j) as [q'|]; try done.
    - destruct Hl as (-> & _). destruct (decide (j = i)) as [->|]; [|lia]. rewrite Hp in Hq. simplify_eq. rewrite Ho, fmap_cons. cnt_simpl. simpl. lia.
    - destruct (decide (j = i)) as [->|]; [congruence|done]. }
  assert (forall j r, dc w' j r = dc w j r + (if decide (j = wt) then if got then if decide (ref = r) then 1 else 0 else 0 else 0)) as Edc.
  { intros j r. unfold dc, down_refs. specialize (Hl j). destruct (w_procs w !! j) as [q|] eqn:Hq, (w_procs w' !! j) as [q'|]; try done.
    - destruct Hl as (_ & -> & _). destruct (decide (j = wt)); [|lia]. destruct got; [|lia]. rewrite fmap_app, Ex. cnt_simpl. simpl. cnt_simpl. lia.
    - destruct (decide (j = wt)) as [->|]; [congruence|done]. }
  assert (forall r, cnt r (w_lost w').*1 = cnt r (w_lost w).*1 + (if got then 0 else if decide (ref = r) then 1 else 0)) as Elo.
  { intros r. rewrite El. destruct got; [lia|]. rewrite fmap_cons. cnt_simpl. simpl. lia. }
  split; rewrite ?Ei, ?Es.
  - intros r wt' t Hr. rewrite Ewc, Edc, Elo. pose proof (I1 r wt' t Hr) as H. destruct (decide (ref = r)) as [<-|].
    + rewrite Hinst in Hr. simplify_eq. rewrite !decide_True by done. destruct got; lia.
    + destruct got; repeat case_decide; lia.
  - intros j q' r wt' Hq' Hin. specialize (Hl j). rewrite Hq' in Hl. destruct (w_procs w !! j) as [q|] eqn:Hq; [|done].
    destruct Hl as (Eo & _). apply (I2 j q r wt' Hq). rewrite Eo in Hin. destruct (decide (j = i)) as [->|]; [|done].
    rewrite Hp in Hq. simplify_eq. rewrite Ho. by right.
  - intros j q' r t y Hq' Hin. specialize (Hl j). rewrite Hq' in Hl. destruct (w_procs w !! j) as [q|] eqn:Hq; [|done].
    destruct Hl as (_ & Ed & _). rewrite Ed in Hin.
    assert ((r, t, y) ∈ downs q \/ j = wt /\ (r, t, y) = x) as [Hin'|[-> Exy]].
    { destruct (decide (j = wt)); [|by left]. destruct got; [|by left]. apply elem_of_app in Hin as [?|?%list_elem_of_singleton]; auto. }
    + destruct (I3 j q r t y Hq Hin') as (Hi & qt & Hqt & Hqa & Hqe). split; [done|].
      destruct (Hl1 t qt Hqt) as (q1 & Hq1 & E1 & E2). exists q1. by rewrite E1, E2.
    + rewrite Ex in Exy. simplify_eq. split; [done|]. destruct (Hl1 i p Hp) as (q1 & Hq1 & E1 & E2). exists q1. by rewrite E1, E2.
  - intros r d Hin. rewrite El in Hin. assert ((r, d) ∈ w_lost w \/ got = false /\ (r, d) = (ref, mem)) as [Hin'|[Hg [= -> ->]]].
    { destruct got; [by left|]. apply elem_of_cons in Hin as [?|?]; auto. }
    + destruct (I4 r d Hin') as (wt' & t & Hi & Hd). exists wt', t. split; [done|]. intros Hd'. destruct (Hd Hd') as (q & Hq & Hqa).
      destruct (Hl1 wt' q Hq) as (q1 & Hq1 & E1 & _). exists q1. by rewrite E1.
    + exists wt, i. split; [done|]. intros Hd'. destruct (Hdead Hg Hd') as (q & Hq & Hqa).
      destruct (Hl1 wt q Hq) as (q1 & Hq1 & E1 & _). exists q1. by rewrite E1.
  - intros r wt' t Hr. destruct (I5 r wt' t Hr) as (? & [q Hq] & [q' Hq']). split; [done|].
    destruct (Hl1 wt' q Hq) as (q1 & Hq1 & _), (Hl1 t q' Hq') as (q2 & Hq2 & _). eauto.
Qed.

Lemma ok_down w i p ref wt mb ms mem :
  world_ok w -> runs w i (LDowns ((ref, wt) :: mb) ms) p ->
  world_ok (at_ (let r := __send_sys w wt (Down ref i (p_exit p).1 (p_exit p).2) mem in
                 if decide (r.1 = XTC_OK) then r.2 else lose r.2 ref mem) i (with_pc (LPut ref mb ms))).
Proof.
  intros Hok [Hp Hpc]. destruct (wo_state _ Hok i p Hp) as [[S1 S2 S3] _]. rewrite Hpc in S1, S2. destruct (S2 eq_refl) as [Ha Hby].
  set (e := Down ref i (p_exit p).1 (p_exit p).2). set (f := with_pc (LPut ref mb ms)).
  assert (owed p = (ref, wt) :: mb) as Ho by (unfold owed; by rewrite Hpc).
  pose proof (io_owed _ (wo_inst _ Hok) i p ref wt Hp ltac:(rewrite Ho; left)) as Hinst.
  destruct (io_seq _ (wo_inst _ Hok) ref wt i Hinst) as (_ & [q Hq] & _). destruct (wo_state _ Hok wt q Hq) as [Hsq _].
  assert (quiet_base p (f p)) as Qp by (unfold f; split; [counts Hpc|counts Hpc|simpl; by rewrite Hpc|done|by rewrite Hpc]).
  assert (state_ok (f p)) as Sp by (split; done).
  assert (real_down (true, e) = Some (ref, i, p_exit p)) as Er.
  { unfold real_down, e. simpl. unfold XTC_DOWN_KIND_NOPROC. rewrite decide_False by lia. by destruct (p_exit p). }
  unfold __send_sys, __send_ex. unfold here_at, alive_at. rewrite Hq. fold e.
  destruct (p_alive q) eqn:Hqa; simpl.
  - assert (p_here q = true) as Hh.
    { rewrite (so_here _ Hsq). destruct (exited (p_pc q)) eqn:Hx; [|done]. destruct (so_exited _ Hsq Hx). congruence. }
    assert (i <> wt) as Hne by (intros ->; congruence). rewrite Hh. simpl. destruct (deliver_sys q e Hqa) as [E1 E2]. destruct mem; simpl.
    + rewrite E1. rewrite decide_True by done. set (g := deliver_to e true false). split.
      * assert (base_ok (at_ w wt g)) as Hb1.
        { apply (base_quiet w wt q); [apply Hok|done|by split|by apply state_deliver|exact (proj2 (wo_state _ Hok wt q Hq))]. }
        apply (base_quiet _ i p); [done| |done|done|done]. by rewrite procs_at, decide_False.
      * apply (inst_down w _ i p ref wt mb true (ref, i, p_exit p) false); try done; [apply Hok|].
        intros j. rewrite !procs_at. destruct (decide (i = j)) as [<-|].
        -- rewrite (decide_False (P := wt = i)), Hp by done. simpl. rewrite decide_True, decide_False by done. done.
        -- destruct (decide (wt = j)) as [<-|].
           ++ rewrite Hq. simpl. rewrite decide_False, decide_True by done. split_and!; [done| |by apply deliver_sent|done].
              unfold downs, g. rewrite E2, omap_app. simpl. by rewrite Er.
           ++ destruct (w_procs w !! j); [|done]. by rewrite !decide_False.
    + split.
      * apply (base_quiet (lose w ref false) i p); [destruct Hok as [[] _]; by split|done|done|done|done].
      * apply (inst_down w _ i p ref wt mb false (ref, i, p_exit p) false); try done; [apply Hok|].
        intros j. rewrite !procs_at. simpl. destruct (decide (i = j)) as [<-|]; [rewrite Hp; simpl; rewrite decide_True by done|
          destruct (w_procs w !! j); [|done]; rewrite (decide_False (P := j = i)) by done]; split_and!; try done; by case_decide.
  - assert ((if (negb (p_here q) || true)%bool then (XTC_E_INVAL, w) else if negb mem then (XTC_E_NOMEM, w)
      else ((__mbox_deliver_locked (p_mb q).1 e true false).1.1, at_ w wt (deliver_to e true false))) = (XTC_E_INVAL, w)) as ->
      by (by destruct (p_here q)).
    simpl. split.
    + apply (base_quiet (lose w ref mem) i p); [destruct Hok as [[] _]; by split|done|done|done|done].
    + apply (inst_down w _ i p ref wt mb false (ref, i, p_exit p) mem); try done; [apply Hok|by eauto|].
      intros j. rewrite !procs_at. simpl. destruct (decide (i = j)) as [<-|]; [rewrite Hp; simpl; rewrite decide_True by done|
          destruct (w_procs w !! j); [|done]; rewrite (decide_False (P := j = i)) by done]; split_and!; try done; by case_decide.
Qed.

(** *** Undoing a monitored spawn *)

Lemma remove_target_spec mons c l r l' :
  remove_target mons c l = Some (r, l') ->
  (exists e, mons !! r = Some e /\ me_target e = c) /\ forall x, cnt x l' = cnt x l - if decide (r = x) then 1 else 0.
Proof.
  revert l'. induction l as [|y l IH]; intros l'; simpl; [done|]. case_decide as Hy.
  - intros [= -> ->]. destruct (mons !! r) as [e|]; simplify_eq/=. split; [by eexists|]. intros x. cnt_simpl. lia.
  - destruct (remove_target mons c l) as [[x l0]|]; [|done]. intros [= -> <-]. destruct (IH l0 eq_refl) as [He Hc].
    split; [done|]. intros z. cnt_simpl. rewrite Hc. lia.
Qed.

Section Fail.
Context (w : world) (i c : nat) (ref r : Z) (p q : proc) (l : list Z) (f : proc -> proc).
Context (Hok : world_ok w) (Hr : runs w i (LSpawned c (RMonitor ref)) p) (Hq : w_procs w !! c = Some q).
Context (Hrm : remove_target (w_mons w) c (wl_monitors (p_watch p)) = Some (r, l)).
Context (Hf : f p = with_pc LRun (with_watch (mk_wl l (wl_n (p_watch p) - 1) (wl_sweep_at (p_watch p))
                                               (wl_pushes (p_watch p)) (wl_visits (p_watch p))) p)).

Let w' := at_ (at_ (with_inst (with_mons w (delete r (w_mons w))) (delete r (w_inst w))) c scrap) i f.

Local Lemma fail_facts :
  p_pc q = LUnborn /\ p_birth q = (i, Some r) /\ p_by q = [(r, i)] /\ wl_monitors (p_watch q) = [] /\ i <> c /\
  (exists e, w_mons w !! r = Some e /\ me_watcher e = i /\ me_target e = c) /\ hc w i r = 1 /\ oc w c r = 1 /\ wc w c r = 1.
Proof.
  destruct Hr as [Hp Hpc]. destruct (wo_state _ Hok i p Hp) as [_ Ho]. rewrite Hpc in Ho. destruct Ho as (q' & Hq' & Hu & Hb & Hy & Hw).
  rewrite Hq in Hq'. simplify_eq. destruct (remove_target_spec _ _ _ _ _ Hrm) as [(e & He & Ht) Hc].
  destruct (wo_target _ Hok r e He) as (q1 & Hq1 & Hb1). rewrite Ht, Hq in Hq1. simplify_eq. specialize (Hb1 Hu). rewrite Hb in Hb1. simplify_eq.
  assert (oc w (me_target e) r = 1 /\ wc w (me_target e) r = 1) as [O1 O2].
  { unfold oc, wc. rewrite Hq. unfold owed_refs, owed. rewrite Hu, Hy. cnt_simpl. simpl. cnt_simpl. by rewrite decide_True. }
  assert (0 < cnt r (wl_monitors (p_watch p))) as Hin.
  { pose proof (Hc r). pose proof (cnt_nonneg r l). rewrite decide_True in *; [lia|done]. }
  assert (hc w (me_watcher e) r = cnt r (wl_monitors (p_watch p))) as Hh by (unfold hc, held; by rewrite Hp, Hpc).
  destruct (eo_refs _ _ _ _ (wo_entries _ Hok) r e He) as [Hn Hs].
  split_and!; try done; [by intros E; rewrite E in *; congruence|by exists e|lia].
Qed.

Local Lemma fail_procs j :
  w_procs w' !! j = if decide (i = j) then Some (f p) else if decide (c = j) then Some (scrap q) else w_procs w !! j.
Proof.
  destruct fail_facts as (_ & _ & _ & _ & Hne & _). destruct Hr as [Hp _]. unfold w'. rewrite !procs_at.
  destruct (decide (i = j)) as [<-|].
  - rewrite decide_False by done. simpl. by rewrite Hp.
  - destruct (decide (c = j)) as [<-|]; [simpl; by rewrite Hq|done].
Qed.

Local Lemma fail_counts j x :
  hc w' j x = hc w j x - (if decide (i = j) then if decide (r = x) then 1 else 0 else 0) /\
  oc w' j x = oc w j x - (if decide (c = j) then if decide (r = x) then 1 else 0 else 0) /\
  wc w' j x = wc w j x - (if decide (c = j) then if decide (r = x) then 1 else 0 else 0) /\ dc w' j x = dc w j x.
Proof.
  destruct fail_facts as (Hu & _ & Hy & Hw & Hne & _). destruct Hr as [Hp Hpc]. destruct (remove_target_spec _ _ _ _ _ Hrm) as [_ Hc].
  unfold hc, oc, wc, dc. rewrite fail_procs. destruct (decide (i = j)) as [<-|].
  - rewrite Hp, (decide_False (P := c = i)), Hf by done. unfold held, owed_refs, owed. simpl. rewrite Hpc, Hc. repeat split; simpl; lia.
  - destruct (decide (c = j)) as [<-|]; [|repeat split; lia]. rewrite Hq. unfold held, owed_refs, owed. rewrite Hu, Hy, Hw. simpl. cnt_simpl.
    simpl. cnt_simpl. repeat split; lia.
Qed.

Local Lemma fail_keeps j x :
  w_procs w' !! j = Some x ->
  exists y, w_procs w !! j = Some y /\ downs x = downs y /\ (p_alive y = false -> p_alive x = false) /\ p_exit x = p_exit y /\
    (owed x = owed y \/ owed x = []).
Proof.
  destruct Hr as [Hp Hpc]. rewrite fail_procs. destruct (decide (i = j)) as [<-|].
  - intros [= <-]. exists p. rewrite Hf. split_and!; try done. left. unfold owed. simpl. by rewrite Hpc.
  - destruct (decide (c = j)) as [<-|]; [|naive_solver]. intros [= <-]. exists q. split_and!; try done. by right.
Qed.

Local Lemma fail_exists j y : w_procs w !! j = Some y -> exists x, w_procs w' !! j = Some x.
Proof. rewrite fail_procs. repeat case_decide; naive_solver. Qed.

Local Lemma fail_base : base_ok w'.
Proof.
  destruct fail_facts as (Hu & Hb & Hy & Hw & Hne & (e & He & He1 & He2) & Hh & Ho & _). destruct Hr as [Hp Hpc].
  destruct (wo_base _ Hok) as [H0 H1 H2 H3]. split.
  - done.
  - intros j x. rewrite fail_procs. destruct (decide (i = j)) as [<-|Hij].
    { intros [= <-]. rewrite Hf. split; [|done]. destruct (H1 i p Hp) as [[S1 S2 S3] _]. rewrite Hpc in S1. by split. }
    destruct (decide (c = j)) as [<-|Hcj].
    { intros [= <-]. split; [|done]. destruct (H1 c q Hq) as [[S1 S2 S3] _]. by split. }
    intros Hx. destruct (H1 j x Hx) as [Hs Hox]. split; [done|]. revert Hox. apply pc_ok_mono.
    + intros t (z & Hz & Hzb). unfold born. rewrite fail_procs. destruct (decide (i = t)); [rewrite Hf; by eexists|].
      destruct (decide (c = t)) as [<-|]; [|by exists z]. congruence.
    + intros d b y (z & Hz & Hzu & Hzb & Hzr). unfold child. rewrite fail_procs. destruct (decide (i = d)) as [<-|]; [congruence|].
      destruct (decide (c = d)) as [<-|]; [|by exists z]. rewrite Hq in Hz. simplify_eq. congruence.
    + intros r' e' Hw' [Hm1 Hm2]. unfold making, w'. simpl. assert (r <> r') by (intros ->; congruence).
      by rewrite !lookup_delete_ne.
  - change (entries_ok (hc w') (oc w') (delete r (w_mons w)) (w_seq w)).
    apply (entries_update (hc w) (oc w) _ _ (w_mons w) _ (w_seq w) _ r); try done.
    + intros j x Hx. destruct (fail_counts j x) as (-> & -> & _). rewrite (decide_False (P := r = x)) by done. repeat case_decide; lia.
    + intros x Hx. by rewrite lookup_delete_ne.
    + intros e'. by rewrite lookup_delete_eq.
    + intros j Hj. destruct (fail_counts j r) as (E & _). rewrite E, (decide_True (P := r = r)) in Hj by done. exfalso.
      destruct (decide (i = j)) as [<-|]; [lia|]. destruct (eo_held _ _ _ _ H2 j r) as (e' & ? & ?); [lia|congruence].
    + intros j Hj. destruct (fail_counts j r) as (_ & E & _). rewrite E, (decide_True (P := r = r)) in Hj by done. exfalso.
      destruct (decide (c = j)) as [<-|]; [lia|]. destruct (eo_owed _ _ _ _ H2 j r) as (e' & ? & ?); [lia|congruence].
  - intros x e' He'. unfold w' in He'. simpl in He'. apply lookup_delete_Some in He' as [Hx He'].
    destruct (H3 x e' He') as (z & Hz & Hzu). rewrite fail_procs. destruct (decide (i = me_target e')); [rewrite Hf; by eexists|].
    destruct (decide (c = me_target e')) as [E|]; [|by exists z]. by eexists.
Qed.

Lemma ok_fail_monitor : world_ok w'.
Proof.
  split; [apply fail_base|]. destruct fail_facts as (Hu & Hb & Hy & Hw & Hne & (e & He & He1 & He2) & Hh & Ho & Hwc).
  destruct (wo_inst _ Hok) as [I1 I2 I3 I4 I5].
  assert (w_inst w !! r = Some (i, c)) as Hi.
  { apply (I2 c q r i Hq). unfold owed. rewrite Hu, Hy. left. }
  pose proof (I1 r i c Hi) as Hone. rewrite Hwc in Hone.
  assert (dc w i r = 0 /\ cnt r (w_lost w).*1 = 0) as [Hdc Hlo].
  { pose proof (cnt_nonneg r (w_lost w).*1). assert (0 <= dc w i r) by (unfold dc; case_match; [apply cnt_nonneg|done]). lia. }
  assert (w_inst w' = delete r (w_inst w)) as Ei by done. assert (w_lost w' = w_lost w) as El by done.
  split; rewrite ?Ei, ?El.
  - intros x wt t Hx. apply lookup_delete_Some in Hx as [Hne' Hx]. destruct (fail_counts t x) as (_ & _ & -> & _), (fail_counts wt x) as (_ & _ & _ & ->).
    rewrite <-(I1 x wt t Hx), (decide_False (P := r = x)) by done. case_decide; lia.
  - intros j x r' wt Hx Hin. destruct (fail_keeps j x Hx) as (y & Hy' & _ & _ & _ & [Eo|Eo]); rewrite Eo in Hin; [|by apply elem_of_nil in Hin].
    pose proof (I2 j y r' wt Hy' Hin) as Hx'. rewrite lookup_delete_ne; [done|]. intros <-. rewrite Hi in Hx'. injection Hx' as E1 E2. subst j.
    rewrite fail_procs in Hx. rewrite decide_False, decide_True in Hx by done. injection Hx as <-. rewrite <-Eo in Hin. by apply elem_of_nil in Hin.
  - intros j x r' t z Hx Hin. destruct (fail_keeps j x Hx) as (y & Hy' & Ed & _). rewrite Ed in Hin.
    destruct (I3 j y r' t z Hy' Hin) as (Hi' & qt & Hqt & Ha & Hex). split.
    + rewrite lookup_delete_ne; [done|]. intros <-. rewrite Hi in Hi'. injection Hi' as E1 E2. subst j. unfold dc in Hdc. rewrite Hy' in Hdc.
      assert (0 < cnt r (down_refs y)); [|lia]. apply cnt_elem, list_elem_of_fmap. by exists (r, t, z).
    + destruct (fail_exists t qt Hqt) as [x1 Hx1]. destruct (fail_keeps t x1 Hx1) as (y1 & Hy1 & _ & Ha1 & He3 & _).
      rewrite Hqt in Hy1. injection Hy1 as <-. exists x1. split_and!; [done|by apply Ha1|by rewrite He3].
  - intros r' d Hin. destruct (I4 r' d Hin) as (wt & t & Hi' & Hd). exists wt, t. split.
    + rewrite lookup_delete_ne; [done|]. intros <-. assert (0 < cnt r (w_lost w).*1); [|lia]. apply cnt_elem, list_elem_of_fmap. by exists (r, d).
    + intros Hd'. destruct (Hd Hd') as (qt & Hqt & Ha). destruct (fail_exists wt qt Hqt) as [x1 Hx1].
      destruct (fail_keeps wt x1 Hx1) as (y1 & Hy1 & _ & Ha1 & _). rewrite Hqt in Hy1. injection Hy1 as <-. exists x1. by split; [|apply Ha1].
  - intros r' wt t Hx. apply lookup_delete_Some in Hx as [_ Hx]. destruct (I5 r' wt t Hx) as (? & [y Hy'] & [y2 Hy2]). split; [done|].
    destruct (fail_exists wt y Hy') as [x1 Hx1], (fail_exists t y2 Hy2) as [x2 Hx2]. eauto.
Qed.
End Fail.

(** ** Every step keeps the invariant *)

Lemma set_refs_put w ref i t : w_mons w !! ref = Some (mk_mon 2 i t) -> set_refs w ref 1 = __mon_put w ref.
Proof.
  intros He. unfold set_refs, __mon_put. rewrite He, decide_False by done. simpl. f_equal. apply map_eq. intros k.
  rewrite lookup_alter. case_decide; [subst; by rewrite He, lookup_insert_eq|by rewrite lookup_insert_ne].
Qed.

Lemma refs_one_put w r : me_refs <$> w_mons w !! r = Some 1 -> with_mons w (delete r (w_mons w)) = __mon_put w r.
Proof. unfold __mon_put. intros H. destruct (w_mons w !! r) as [e|]; simplify_eq/=. by rewrite decide_True. Qed.

(** The peer's push of a monitor. *)
Lemma ok_mon_push w i p t ref :
  world_ok w -> runs w i (LMonPush t ref) p ->
  world_ok (at_ (let r := __peer_push_monitored_by w t ref i in if r.1 then r.2 else set_refs r.2 ref 1) i (with_pc (LWatch ref None))).
Proof.
  intros Hok [Hp Hpc]. destruct (wo_state _ Hok i p Hp) as [Hs Ho]. rewrite Hpc in Ho. destruct Ho as [Hm (q & Hq & Hb)].
  unfold __peer_push_monitored_by. destruct (here_at w t && alive_at w t) eqn:Ht; simpl.
  - apply (ok_install w i t ref p q _ (LWatch ref None) (p_watch p)); try done.
    + intros x Hx. unfold with_pc, with_watch. simpl. by rewrite Hx.
    + by rewrite Hpc.
    + destruct (wo_state _ Hok t q Hq) as [Hsq _]. unfold here_at in Ht. rewrite Hq, (so_here _ Hsq) in Ht. by destruct (exited (p_pc q)).
    + intros r. unfold held. simpl. rewrite Hpc. cnt_simpl. case_decide; lia.
  - rewrite (set_refs_put w ref i t) by apply Hm. apply (ok_put w i p ref); try done.
    + split; [counts Hpc|done|done|by rewrite Hpc].
    + intros x Hx. split; counts Hpc. rewrite decide_False by done. lia.
    + counts Hpc. rewrite decide_True by done. lia.
    + counts Hpc. case_decide; lia.
    + counts Hpc.
    + intros e He. left. rewrite (proj1 Hm) in He. by simplify_eq.
    + state_own Hs Hpc.
Qed.

(** The push on the watcher's list. *)
Lemma ok_watched w i p ref k wl pc :
  world_ok w -> runs w i pc p -> (pc = LWatch ref k \/ exists kept, pc = LSweep ref k kept []) ->
  (forall r, cnt r (wl_monitors wl) = cnt r (held p) - match k with Some _ => if decide (ref = r) then 1 else 0 | None => 0 end) ->
  world_ok (watched w i wl ref k).
Proof.
  intros Hok Hr Hpc Hwl. pose proof Hr as [Hp Hpc']. destruct (wo_state _ Hok i p Hp) as [Hs Ho].
  assert (exited (p_pc p) = false /\ p_pc p <> LUnborn) as Hrun by (rewrite Hpc'; by destruct Hpc as [->|[? ->]]).
  destruct k as [c|]; simpl.
  - assert (making w ref (mk_mon 2 i c) /\ child w c i (Some ref) []) as [Hm (q & Hq & Hu & Hb & Hy & Hw)].
    { rewrite Hpc' in Ho. by destruct Hpc as [->|[? ->]]. }
    assert (c <> i) as Hne by (intros ->; rewrite Hp in Hq; simplify_eq; naive_solver).
    apply (ok_install w i c ref p q _ (LSpawned c (RMonitor ref)) wl); try done.
    + by rewrite Hu.
    + simpl. exists (with_by [(ref, i)] q). unfold install. rewrite procs_at, decide_False by done.
      unfold with_inst. cbn [w_procs]. rewrite procs_at, decide_True, Hq by done. simpl. by rewrite Hy.
  - eapply (ok_own _ _ _ _ _ Hok Hr); [|destruct Hs as [S1 S2 S3]; split; simpl; [by rewrite S1, (proj1 Hrun)|done|done]|done].
    split; [split|..]; try done.
    + intros r. unfold held at 1. simpl. rewrite Hwl. lia.
    + intros r. unfold owed_refs, owed. simpl. by destruct (p_pc p); destruct Hrun.
    + simpl. naive_solver.
    + intros Hu. by destruct Hrun.
    + unfold owed. simpl. by destruct (p_pc p); destruct Hrun.
Qed.

Lemma child_own w i p pc c cap wm links b : w_procs w !! i = Some p -> w_procs w !! c = None ->
  child (at_ (spawned_into w c (new_proc cap wm links (i, b))) i (with_pc pc)) c i b [] /\
  child (spawned_into w c (new_proc cap wm links (i, b))) c i b [].
Proof.
  intros Hp Hc. assert (i <> c) by (intros ->; congruence). unfold child. rewrite procs_at, procs_into, decide_False, decide_True by done.
  split; by eexists.
Qed.

Lemma runs_into w c x i pc p : w_procs w !! c = None -> runs w i pc p -> runs (spawned_into w c x) i pc p.
Proof. intros Hc [Hp Hpc]. split; [|done]. rewrite procs_into, decide_False; [done|]. intros ->. congruence. Qed.

Lemma ok_spawn w i p c cap wm links pc :
  world_ok w -> runs w i LRun p -> w_procs w !! c = None -> pc = LSpawned c RNone \/ pc = LLinkNew c (Some c) ->
  world_ok (at_ (spawned_into w c (new_proc cap wm links (i, None))) i (with_pc pc)).
Proof.
  intros Hok Hr Hc Hpc. pose proof (runs_into w c (new_proc cap wm links (i, None)) i LRun p Hc Hr) as Hr1.
  pose proof (ok_spawn_into w c cap wm links (i, None) LUnborn Hok Hc (or_introl eq_refl)) as Hok1.
  destruct (child_own w i p LRun c cap wm links None (proj1 Hr) Hc) as [_ Hch].
  change (with_pc LUnborn (new_proc cap wm links (i, None))) with (new_proc cap wm links (i, None)) in Hok1.
  destruct Hpc as [->| ->]; own Hok1 Hr1.
Qed.

Lemma ok_spawn_monitor w i p c cap wm :
  world_ok w -> w_seq w + 1 < 2 ^ 64 -> runs w i LRun p -> w_procs w !! c = None ->
  world_ok (at_ (spawned_into (with_mons (next_ref w).2 (<[(next_ref w).1 := mk_mon 2 i c]> (w_mons w)))
                   c (new_proc cap wm [] (i, Some (next_ref w).1)))
              i (with_pc (LWatch (next_ref w).1 (Some c)))).
Proof.
  intros Hok Hlt Hr Hc. pose proof (next_ref_eq w (wo_seq _ Hok) Hlt) as En.
  set (x := new_proc cap wm [] (i, Some (next_ref w).1)). set (w1 := spawned_into w c x).
  assert (world_ok w1) as Hok1 by (apply (ok_spawn_into w c cap wm [] (i, Some (next_ref w).1) LUnborn); auto).
  pose proof (runs_into w c x i LRun p Hc Hr) as [Hp1 Hpc1].
  apply (ok_new w1 i p 2 c); try done.
  - by rewrite Hpc1.
  - counts Hpc1.
  - counts Hpc1.
  - intros r. change (w_seq w1) with (w_seq w). rewrite En. counts Hpc1. case_decide; lia.
  - exists x. unfold w1. rewrite procs_into, decide_True by done. split; [done|]. intros _. change (p_birth x) with (i, Some (next_ref w).1). by rewrite En.
  - destruct (wo_state _ Hok1 i p Hp1) as [[S1 S2 S3] _]. rewrite Hpc1 in S1. by split.
  - intros w' Hw' Hm. unfold pc_ok. split; [rewrite En; exact Hm|]. exists x.
    rewrite Hw', lookup_alter_ne by (intros ->; destruct Hr; congruence). unfold w1. by rewrite procs_into, decide_True.
Qed.

Lemma ok_put_own w i p r pc pc' :
  world_ok w -> runs w i pc p -> (exists mb ms, pc = LPut r mb ms /\ pc' = LDowns mb ms) \/ (exists ms, pc = LPuts (r :: ms) /\ pc' = LPuts ms) ->
  world_ok (at_ (__mon_put w r) i (with_pc pc')).
Proof.
  intros Hok Hr Hpc. pose proof Hr as [Hp Hpc']. destruct (wo_state _ Hok i p Hp) as [Hs _].
  assert (forall e, w_mons w !! r = Some e -> me_watcher e = i \/ 0 < cnt r (owed_refs p)) as Hother.
  { intros e He. destruct Hpc as [(mb & ms & -> & ->)|(ms & -> & ->)].
    - right. unfold owed_refs. rewrite Hpc'. cnt_simpl. rewrite decide_True by done. pose proof (cnt_nonneg r (owed p).*1). lia.
    - left. destruct (eo_held _ _ _ _ (wo_entries _ Hok) i r) as (e' & ? & ?); [|congruence]. rewrite (hc_at w i p) by done.
      unfold held. rewrite Hpc'. cnt_simpl. rewrite decide_True by done. pose proof (cnt_nonneg r ms). lia. }
  destruct Hpc as [(mb & ms & -> & ->)|(ms & -> & ->)]; apply (ok_put w i p r); try done.
  all: try (split; [counts Hpc'|done|done|by rewrite Hpc']).
  all: try (intros x Hx; split; counts Hpc'; rewrite decide_False by done; lia).
  all: try (counts Hpc'; rewrite ?decide_True by done; lia).
  all: try state_own Hs Hpc'.
Qed.

Lemma tells_ok w w' : world_ok w -> tells w w' -> world_ok w'.
Proof.
  intros Hok Hst. destruct Hst as [i p q ls mb ms Hr Hq|i p q pq ls mb ms Hr Hq Hh|i p q ls mb ms mem Hr|i p q ls mb ms Hr].
  - own Hok Hr.
  - own Hok Hr.
  - pose proof (ok_send w q (Exit i (p_exit p).1 (p_exit p).2) true false mem Hok eq_refl) as Hok1.
    destruct (runs_send w i _ p q (Exit i (p_exit p).1 (p_exit p).2) true false mem Hr) as [p1 Hr1]. own Hok1 Hr1.
  - case_decide; [own Hok Hr|]. pose proof (ok_exit_pid w q (p_exit p).1 Hok) as Hok1.
    destruct (runs_exit_pid w i _ p q (p_exit p).1 Hr) as [p1 Hr1]. own Hok1 Hr1.
Qed.

Lemma lstep_ok w w' : world_ok w -> w_seq w + 1 < 2 ^ 64 -> lstep w w' -> world_ok w'.
Proof.
  intros Hok Hlt Hst.
  destruct Hst as
    [i p m' r' Hr Ha Hrv Hne|q e full mem|q reason|i p on Hr
    |w0 [i p t Hr Hk Hg|i p t Hr|i p t ref mem Hr|i p t Hr Hk Hg|i p t Hr|i p t Hr|i p t ref Hr|i p t ref Hr|i p t ref Hr]
    |w0 [i p ref k Hr Hn|i p ref k Hr Hn|i p ref k kept r todo Hr Hone|i p ref k kept r todo Hr Hone|i p ref k kept Hr]
    |w0 [i p t Hr Hk Hg|i p t Hr|i p t k Hr|i p t old k Hr|i p t Hr|i p t Hr|i p t Hr Hin|i p t old k Hr]
    |w0 [c cap wm Hc|i p c cap wm Hr Hc|i p c cap wm Hr Hc|i p c cap wm Hr Hc|i p c r Hr|i p c Hr|i p c Hr|i p c ref r l Hr Hrm|i p c Hr]
    |w0 [i p Hr Ha Hi|i p r Hr Ha Hi|i p Hr Ha Hi Hk|i p sig Hr Ha Hi Hsig]
    |w0 [i p Hr Ha|w1 Hst|i p mb ms Hr|i p ref wt mb ms mem Hr|i p ref mb ms Hr|i p ms Hr|i p r ms Hr|i p Hr]].
  all: try (own Hok Hr; by auto using born_known).
  - destruct (recv_quiet _ _ _ _ Hrv Hne) as [E1 E2]. destruct (wo_state _ Hok i p (proj1 Hr)) as [[S1 S2 S3] _].
    apply (ok_calm w i p); [done|apply Hr| | |done].
    + split; try done; unfold downs, p_alive; simpl; [by rewrite E1|by rewrite E2].
    + split; [done| |done]. unfold p_alive. simpl. by rewrite E2.
  - by apply ok_send.
  - by apply ok_exit_pid.
  - pose proof (ok_next_ref w Hok Hlt) as Hok1. assert (runs (next_ref w).2 i (LMonGone t) p) as Hr1 by exact Hr. own Hok1 Hr1.
  - pose proof (ok_send w i (Down ref t XTC_DOWN_NOPROC XTC_DOWN_KIND_NOPROC) true false mem Hok eq_refl) as Hok1.
    destruct (runs_send w i _ p i (Down ref t XTC_DOWN_NOPROC XTC_DOWN_KIND_NOPROC) true false mem Hr) as [p1 Hr1]. own Hok1 Hr1.
  - pose proof Hr as [Hp Hpc]. destruct (wo_state _ Hok i p Hp) as [[S1 S2 S3] Ho]. rewrite Hpc in S1, Ho. simpl in Ho. destruct Ho as (q & Hq & Hb).
    pose proof (next_ref_eq w (wo_seq _ Hok) Hlt) as En.
    apply (ok_new w i p 1 t); try done; [by rewrite Hpc|counts Hpc|counts Hpc|..].
    + intros r. rewrite En. counts Hpc.
    + by exists q.
    + intros w2 Hw' Hm. rewrite En. split; [exact Hm|]. unfold born. rewrite Hw'. by apply (born_kept w i p _ t); [| |exists q].
  - by apply (ok_full w i p).
  - by apply (ok_mon_push w i p).
  - apply (ok_watched w i p ref k _ _ Hok Hr); [by left|]. destruct Hr as [_ Hpc]. intros r. unfold held. rewrite Hpc. simpl.
    destruct k; cnt_simpl; lia.
  - pose proof Hr as [Hp Hpc]. destruct (wo_state _ Hok i p Hp) as [Hs Ho]. rewrite Hpc in Ho. rewrite (refs_one_put w r Hone).
    assert (0 < cnt r (held p)) as Hin.
    { pose proof (cnt_nonneg r kept). pose proof (cnt_nonneg r todo). unfold held. rewrite Hpc.
      destruct k; cnt_simpl; rewrite (decide_True (P := r = r)) by done; repeat case_decide; lia. }
    apply (ok_put w i p r); try done.
    + split; [counts Hpc|done|done|by rewrite Hpc].
    + intros x Hx. split; counts Hpc. destruct k; cnt_simpl; rewrite (decide_False (P := r = x)) by done; lia.
    + counts Hpc. destruct k; cnt_simpl; rewrite (decide_True (P := r = r)) by done; lia.
    + counts Hpc. destruct k; cnt_simpl; rewrite (decide_True (P := r = r)) by done; lia.
    + counts Hpc.
    + intros e He. left. destruct (eo_held _ _ _ _ (wo_entries _ Hok) i r) as (e' & ? & ?); [by rewrite (hc_at w i p)|congruence].
    + state_own Hs Hpc.
    + intros w2 Hw' Hi' Hm'. simpl. destruct k as [c|]; [|done]. destruct Ho as [[Hm1 Hm2] (q & Hq & Hu & Hrest)]. split.
      * split; [|by rewrite Hi']. rewrite Hm'; [done|]. intros ->. rewrite Hm1 in Hone. done.
      * exists q. rewrite Hw', lookup_alter_ne; [done|]. intros ->. congruence.
  - pose proof Hr as [Hp Hpc]. destruct (wo_state _ Hok i p Hp) as [Hs Ho]. rewrite Hpc in Ho.
    eapply (ok_own _ _ _ _ _ Hok Hr); [|state_own Hs Hpc|done]. split; [split|..]; try done.
    + counts Hpc. destruct k; cnt_simpl; lia.
    + counts Hpc.
    + simpl. by rewrite Hpc.
    + counts Hpc.
  - apply (ok_watched w i p ref k _ _ Hok Hr); [by eauto|]. destruct Hr as [_ Hpc]. intros r. unfold held. rewrite Hpc. simpl.
    destruct k; cnt_simpl; lia.
  - destruct k; own Hok Hr.
  - pose proof (ok_push_link w t i Hok) as Hok1. destruct (runs_push_link w i _ p t i Hr) as [p1 Hr1]. own Hok1 Hr1.
  - destruct k; own Hok Hr.
  - apply ok_spawn_into; auto.
  - eapply ok_spawn; [done|done|done|by left].
  - eapply ok_spawn; [done|done|done|by right].
  - by eapply ok_spawn_monitor.
  - destruct (wo_state _ Hok i p (proj1 Hr)) as [_ Ho]. rewrite (proj2 Hr) in Ho.
    assert (exists b by_, child w c i b by_) as (b & by_ & Hch) by (simpl in Ho; destruct r; eauto).
    eapply (ok_orphan w c i p b by_); [done|exact Hr|done|done|by eauto| |done].
    intros q Hu Hy Hw [S1 S2 S3]. rewrite Hu in S1. unfold held, owed_refs, owed. rewrite Hu. simpl. split_and!; try done; first [by split|by left].
  - pose proof Hr as [Hp Hpc]. destruct (wo_state _ Hok i p Hp) as [_ Ho]. rewrite Hpc in Ho. destruct Ho as (q & Hq & _).
    by apply (ok_fail_monitor w i c ref r p q l).
  - destruct (wo_state _ Hok i p (proj1 Hr)) as [_ Ho]. rewrite (proj2 Hr) in Ho.
    eapply (ok_orphan w c i p None []); [done|exact Hr|exact Ho|done|by left| |done].
    intros q Hu Hy Hw [S1 S2 S3]. unfold held, owed_refs, owed. rewrite Hu, Hy, Hw. simpl. split_and!; try done; first [by split|by right].
  - apply (ok_leave w i p); [done|done|done|apply jump_kind].
  - apply (ok_leave w i p); [done|done|done|apply jump_kind].
  - apply (ok_leave w i p); [done|done|done|apply jump_kind].
  - apply (ok_leave w i p); done.
  - by apply (tells_ok w).
  - by apply ok_down.
  - eapply ok_put_own; [done|done|by eauto].
  - eapply ok_put_own; [done|done|by eauto].
Qed.
