(* ===== verification/LinksRun.v ===== *)
(** * Runs of links, monitors and exits (src/ptc/proc.c)

    What the steps of Links.v do to one process, the invariants of the
    watcher's list, of the mailbox and of the linked peers an exit deals with,
    and the theorems about every run; then runs that go wrong. *)

From S2P Require Import Prelude Wire Mbox Links.

Local Open Scope Z_scope.

(** ** What can happen to one process in a step *)

Definition sweeping (pc : lpc) : bool := match pc with LSweep _ _ _ _ => true | _ => false end.

(** The linked peers an exiting process has yet to deal with. *)
Definition untold (pc : lpc) : list nat :=
  match pc with LLinks ls _ _ => ls | LLinkSig q _ ls _ _ => q :: ls | _ => [] end.

(** A peer that was looked up exists. *)
Definition sig_ok (w : world) (pc : lpc) : Prop :=
  match pc with LLinkSig q _ _ _ _ => is_Some (w_procs w !! q) | _ => True end.
Definition is_sig (pc : lpc) : bool := match pc with LLinkSig _ _ _ _ _ => true | _ => false end.

(** [tell]: with the steps that deal with a linked peer; [w]: the world before
    the step. *)
Inductive pmove (tell : bool) (w : world) (p : proc) : proc -> Prop :=
  | pm_mb m' r' :
      p_pc p = LRun -> r' <> PGone -> recv_step (fun _ => True) (p_mb p).1 (p_mb p).2 m' r' -> pmove tell w p (with_mb (m', r') p)
  | pm_deliver e sys full : pmove tell w p (deliver_to e sys full p)
  | pm_trap on : pmove tell w p (with_trap on p)
  | pm_kill k : p_kill p = 0 -> pmove tell w p (with_kill k p)
  | pm_links l : pmove tell w p (with_links l p)
  | pm_by b : pmove tell w p (with_by b p)
  | pm_pc pc :
      sweeping (p_pc p) = false -> sweeping pc = false -> exited (p_pc p) = exited pc -> untold (p_pc p) = untold pc ->
      sig_ok w pc -> (tell = false -> is_sig pc = false) -> pc <> LUnborn -> pmove tell w p (with_pc pc p)
  | pm_told pc q o :
      tell = true -> exited (p_pc p) = true -> exited pc = true -> untold (p_pc p) = q :: untold pc -> sig_ok w pc ->
      pmove tell w p (with_pc pc (with_told q o p))
  | pm_sweep ref k :
      exited (p_pc p) = false -> sweeping (p_pc p) = false -> wl_sweep_at (p_watch p) <= wl_n (p_watch p) ->
      pmove tell w p (with_pc (LSweep ref k [] (wl_monitors (p_watch p))) p)
  | pm_drop ref k kept r todo :
      p_pc p = LSweep ref k kept (r :: todo) -> pmove tell w p (with_pc (LSweep ref k kept todo) (with_watch (wl_drop (p_watch p)) p))
  | pm_keep ref k kept r todo :
      p_pc p = LSweep ref k kept (r :: todo) -> pmove tell w p (with_pc (LSweep ref k (kept ++ [r]) todo) (with_watch (wl_keep (p_watch p)) p))
  | pm_push ref pc :
      exited (p_pc p) = false -> sweeping (p_pc p) = false -> exited pc = false -> sweeping pc = false -> pc <> LUnborn ->
      wl_n (p_watch p) < wl_sweep_at (p_watch p) -> pmove tell w p (with_pc pc (with_watch (wl_push ref (p_watch p)) p))
  | pm_swept ref k kept pc :
      p_pc p = LSweep ref k kept [] -> exited pc = false -> sweeping pc = false -> pc <> LUnborn ->
      pmove tell w p (with_pc pc (with_watch (wl_push ref (wl_swept kept (p_watch p))) p))
  | pm_fail l pc :
      exited (p_pc p) = false -> sweeping (p_pc p) = false -> exited pc = false -> sweeping pc = false -> pc <> LUnborn ->
      Z.of_nat (length l) = Z.of_nat (length (wl_monitors (p_watch p))) - 1 ->
      pmove tell w p (with_pc pc (with_watch (mk_wl l (wl_n (p_watch p) - 1) (wl_sweep_at (p_watch p))
                                         (wl_pushes (p_watch p)) (wl_visits (p_watch p))) p))
  | pm_leave r k : p_pc p = LRun -> idle_or_parked (p_mb p).2 = true -> pmove tell w p (proc_leave r k p)
  | pm_detach : p_pc p = LRun -> pmove tell w p (proc_detach p)
  | pm_scrap : p_pc p = LUnborn -> pmove tell w p (scrap p).

(** Every process of [w'] is a process of [w] that moved, or a new one. *)
Definition moves (tell : bool) (w w' : world) : Prop :=
  (forall j p', w_procs w' !! j = Some p' ->
    (exists p, w_procs w !! j = Some p /\ rtc (pmove tell w) p p') \/
    (w_procs w !! j = None /\ exists cap wm links b, rtc (pmove tell w) (new_proc cap wm links b) p')) /\
  (forall j, is_Some (w_procs w !! j) -> is_Some (w_procs w' !! j)).

Section Moves.
Context {tell : bool}.
Abbreviation moves := (moves tell).
Abbreviation pmove := (pmove tell).

Lemma moves_refl w : moves w w.
Proof. split; [|done]. intros j p Hp. left. exists p. by split; [|apply rtc_refl]. Qed.

Lemma moves_at w w1 i f :
  moves w w1 -> (forall p, w_procs w1 !! i = Some p -> rtc (pmove w) p (f p)) -> moves w (at_ w1 i f).
Proof.
  intros [Hm Hd] Hf. split.
  - intros j p'. rewrite procs_at. destruct (decide (i = j)) as [<-|]; [|by apply Hm].
    destruct (w_procs w1 !! i) as [p1|] eqn:Hp1; [|done]. simpl. intros [= <-]. specialize (Hf p1 eq_refl).
    destruct (Hm i p1 Hp1) as [(p & Hp & Hr)|(Hn & cap & wm & links & b & Hr)].
    + left. exists p. split; [done|]. by etransitivity.
    + right. split; [done|]. exists cap, wm, links, b. by etransitivity.
  - intros j Hj. rewrite procs_at. destruct (Hd j Hj) as [p1 ->]. by case_decide.
Qed.

Lemma moves_at1 w w1 i f : moves w w1 -> (forall p, w_procs w1 !! i = Some p -> pmove w p (f p)) -> moves w (at_ w1 i f).
Proof. intros Hm Hf. apply moves_at; [done|]. intros p Hp. by apply rtc_once, Hf. Qed.

Lemma moves_into w c cap wm links b pc :
  w_procs w !! c = None -> pc = LUnborn \/ pc = LRun -> moves w (spawned_into w c (with_pc pc (new_proc cap wm links b))).
Proof.
  intros Hc Hpc. split.
  - intros j p'. rewrite procs_into. destruct (decide (c = j)) as [<-|]; [|apply moves_refl].
    intros [= <-]. right. split; [done|]. exists cap, wm, links, b.
    destruct Hpc as [->| ->]; [apply rtc_refl|]. by apply rtc_once, pm_pc.
  - intros j Hj. rewrite procs_into. by case_decide.
Qed.

Lemma moves_procs w w1 w2 : moves w w1 -> w_procs w2 = w_procs w1 -> moves w w2.
Proof. intros [H1 H2] E. split; rewrite E; [exact H1|exact H2]. Qed.

Lemma moves_send w q e sys full mem : moves w (__send_ex w q e sys full mem).2.
Proof.
  unfold __send_ex. repeat case_match; try apply moves_refl. apply moves_at1; [apply moves_refl|]. intros. apply pm_deliver.
Qed.

Lemma moves_exit_pid w q r : moves w (__exit_pid_on w q r).2.
Proof.
  unfold __exit_pid_on. case_match; [apply moves_refl|]. apply moves_at; [apply moves_refl|]. intros p _.
  case_decide; [by apply rtc_once, pm_kill|apply rtc_refl].
Qed.

Lemma moves_install w w1 t ref i : moves w w1 -> moves w (install w1 t ref i).
Proof.
  intros Hm. unfold install. eapply moves_procs; [|done]. apply (moves_at1 w w1 t (fun p => with_by ((ref, i) :: p_by p) p)); [done|].
  intros. apply pm_by.
Qed.

(** The stepping process is where the step says, also after another's change. *)
Lemma moves_own w w1 i pc p f :
  moves w w1 -> runs w1 i pc p -> (p_pc p = pc -> pmove w p (f p)) -> moves w (at_ w1 i f).
Proof. intros Hm [Hp Hpc] Hf. apply moves_at1; [done|]. intros p' Hp'. simplify_eq. by apply Hf. Qed.
End Moves.

Lemma procs_mon_put w r : w_procs (__mon_put w r) = w_procs w.
Proof. unfold __mon_put. by repeat case_match. Qed.

Lemma cnt_length l l' r : (forall x, cnt x l' = cnt x l - if decide (r = x) then 1 else 0) -> Z.of_nat (length l) = Z.of_nat (length l') + 1.
Proof.
  intros H. assert (l ≡ₚ r :: l') as ->; [|simpl; lia]. apply (Permutation_count_occ Z.eq_dec). intros x. specialize (H x). unfold cnt in H.
  simpl. destruct (Z.eq_dec r x), (decide (r = x)); lia || done.
Qed.

Lemma runs_install w t ref i j pc p :
  runs w j pc p -> exists p', runs (install w t ref i) j pc p' /\ p_watch p' = p_watch p.
Proof.
  intros Hr. destruct (runs_at w j pc p t (fun p => with_by ((ref, i) :: p_by p) p) Hr) as (p' & Hr' & Hp'); [done|].
  exists p'. split; [exact Hr'|]. by destruct Hp' as [->| ->].
Qed.

Ltac pc_move Hpc := apply pm_pc; simpl; rewrite ?Hpc; try done.

Lemma tells_moves w w' : tells w w' -> moves true w w'.
Proof.
  intros Hst. destruct Hst as [i p q ls mb ms Hr Hq|i p q pq ls mb ms Hr Hq Hh|i p q ls mb ms mem Hr|i p q ls mb ms Hr].
  - eapply moves_own; [apply moves_refl|exact Hr|]. intros Hpc. apply pm_told; by rewrite ?Hpc.
  - eapply moves_own; [apply moves_refl|exact Hr|]. intros Hpc. pc_move Hpc.
  - edestruct (runs_send w i) as [p1 Hr1]; [exact Hr|]. eapply moves_own; [apply moves_send|exact Hr1|].
    intros Hpc. apply pm_told; by rewrite ?Hpc.
  - case_decide.
    + eapply moves_own; [apply moves_refl|exact Hr|]. intros Hpc. apply pm_told; by rewrite ?Hpc.
    + edestruct (runs_exit_pid w i) as [p1 Hr1]; [exact Hr|]. eapply moves_own; [apply moves_exit_pid|exact Hr1|].
      intros Hpc. apply pm_told; by rewrite ?Hpc.
Qed.

Lemma lstep_moves w w' : world_ok w -> lstep w w' -> moves false w w' \/ tells w w'.
Proof.
  intros Hok Hst.
  destruct Hst as
    [i p m' r' Hr Ha Hrv Hne|q e full mem|q reason|i p on Hr
    |w0 [i p t Hr Hk Hg|i p t Hr|i p t ref mem Hr|i p t Hr Hk Hg|i p t Hr|i p t Hr|i p t ref Hr|i p t ref Hr|i p t ref Hr]
    |w0 [i p ref k Hr Hn|i p ref k Hr Hn|i p ref k kept r todo Hr Hone|i p ref k kept r todo Hr Hone|i p ref k kept Hr]
    |w0 [i p t Hr Hk Hg|i p t Hr|i p t k Hr|i p t old k Hr|i p t Hr|i p t Hr|i p t Hr Hin|i p t old k Hr]
    |w0 [c cap wm Hc|i p c cap wm Hr Hc|i p c cap wm Hr Hc|i p c cap wm Hr Hc|i p c r Hr|i p c Hr|i p c Hr|i p c ref r l Hr Hrm|i p c Hr]
    |w0 [i p Hr Ha Hi|i p r Hr Ha Hi|i p Hr Ha Hi Hk|i p sig Hr Ha Hi Hsig]
    |w0 [i p Hr Ha|w1 Hst|i p mb ms Hr|i p ref wt mb ms mem Hr|i p ref mb ms Hr|i p ms Hr|i p r ms Hr|i p Hr]].
  all: try (by right). all: left.
  all: try (eapply moves_own; [apply moves_refl|exact Hr|intros Hpc; pc_move Hpc; fail]).
  all: try (eapply moves_own; [apply moves_refl|exact Hr|intros Hpc; apply pm_leave; [done|by rewrite ?Hi]; fail]).
  - eapply moves_own; [apply moves_refl|exact Hr|]. intros Hpc. by apply pm_mb.
  - apply moves_send.
  - apply moves_exit_pid.
  - eapply moves_own; [apply moves_refl|exact Hr|]. intros _. apply pm_trap.
  - eapply moves_own; [eapply moves_procs; [apply (moves_refl w)|reflexivity]|exact Hr|]. intros Hpc. pc_move Hpc.
  - edestruct (runs_send w i) as [p1 Hr1]; [exact Hr|]. eapply moves_own; [apply moves_send|exact Hr1|]. intros Hpc. pc_move Hpc.
  - eapply moves_own; [eapply moves_procs; [apply (moves_refl w)|reflexivity]|exact Hr|]. intros Hpc. pc_move Hpc.
  - eapply moves_own; [eapply moves_procs; [apply (moves_refl w)|reflexivity]|exact Hr|]. intros Hpc. pc_move Hpc.
  - unfold __peer_push_monitored_by. destruct (here_at w t && alive_at w t); simpl.
    + destruct (runs_install w t ref i i _ p Hr) as (p1 & Hr1 & _).
      eapply moves_own; [apply moves_install, moves_refl|exact Hr1|]. intros Hpc. pc_move Hpc.
    + eapply moves_own; [eapply moves_procs; [apply (moves_refl w)|reflexivity]|exact Hr|]. intros Hpc. pc_move Hpc.
  - destruct k as [c|]; simpl.
    + destruct (runs_install w c ref i i _ p Hr) as (p1 & Hr1 & E).
      eapply moves_own; [apply moves_install, moves_refl|exact Hr1|]. intros Hpc. rewrite <-E. apply pm_push; rewrite ?Hpc, ?E; done.
    + eapply moves_own; [apply moves_refl|exact Hr|]. intros Hpc. apply pm_push; rewrite ?Hpc; done.
  - eapply moves_own; [apply moves_refl|exact Hr|]. intros Hpc. apply pm_sweep; rewrite ?Hpc; done.
  - eapply moves_own; [eapply moves_procs; [apply (moves_refl w)|reflexivity]|exact Hr|]. intros Hpc. by eapply pm_drop.
  - eapply moves_own; [apply moves_refl|exact Hr|]. intros Hpc. by eapply pm_keep.
  - destruct k as [c|]; simpl.
    + destruct (runs_install w c ref i i _ p Hr) as (p1 & Hr1 & E).
      eapply moves_own; [apply moves_install, moves_refl|exact Hr1|]. intros Hpc. rewrite <-E. by eapply pm_swept.
    + eapply moves_own; [apply moves_refl|exact Hr|]. intros Hpc. by eapply pm_swept.
  - apply moves_at; [apply moves_refl|]. intros p' Hp'. destruct Hr as [Hp Hpc]. simplify_eq.
    eapply rtc_l; [apply (pm_links _ _ _ (t :: old))|]. apply rtc_once. destruct k; pc_move Hpc.
  - edestruct (runs_push_link w i) as [p1 Hr1]; [exact Hr|]. eapply moves_own; [|exact Hr1|intros Hpc; pc_move Hpc].
    unfold __peer_push_link. case_match; [|apply moves_refl]. apply moves_at1; [apply moves_refl|]. intros. apply pm_links.
  - apply moves_at; [apply moves_refl|]. intros p' Hp'. destruct Hr as [Hp Hpc]. simplify_eq.
    eapply rtc_l; [apply (pm_links _ _ _ (unlink_write t old (p_links p)))|]. apply rtc_once. destruct k; pc_move Hpc.
  - by apply moves_into; [|right].
  - eapply moves_own; [apply (moves_into w c cap wm [] (i, None) LUnborn); auto|by apply (runs_into w c)|]. intros Hpc. pc_move Hpc.
  - eapply moves_own; [apply (moves_into w c cap wm [i] (i, None) LUnborn); auto|by apply (runs_into w c)|]. intros Hpc. pc_move Hpc.
  - eapply moves_own; [|by apply (runs_into (with_mons (next_ref w).2 _) c)|intros Hpc; pc_move Hpc].
    eapply moves_procs; [apply (moves_into w c cap wm [] (i, Some (next_ref w).1) LUnborn); auto|done].
  - destruct (wo_state _ Hok i p (proj1 Hr)) as [_ Ho]. rewrite (proj2 Hr) in Ho.
    assert (exists b by_, child w c i b by_) as (b & by_ & q & Hq & Hu & _) by (simpl in Ho; destruct r; eauto).
    assert (c <> i) by (intros ->; destruct Hr; congruence). eapply (moves_own _ _ i (LSpawned c r) p).
    + apply moves_at1; [apply moves_refl|]. intros q' Hq'. simplify_eq. pc_move Hu.
    + split; [rewrite procs_at, decide_False by done; apply Hr|apply Hr].
    + intros Hpc. pc_move Hpc.
  - pose proof Hr as [Hp Hpc]. destruct (wo_state _ Hok i p Hp) as [_ Ho]. rewrite Hpc in Ho. destruct Ho as (q & Hq & Hu & _).
    assert (c <> i) by (intros ->; congruence). eapply (moves_own _ _ i _ p).
    + apply moves_at1; [eapply moves_procs; [apply (moves_refl w)|reflexivity]|]. simpl. intros q' Hq'. simplify_eq. by apply pm_scrap.
    + split; [rewrite procs_at, decide_False by done; exact Hp|exact Hpc].
    + intros _. apply pm_fail; rewrite ?Hpc; try done. destruct (remove_target_spec _ _ _ _ _ Hrm) as [_ Hl]. apply cnt_length in Hl. lia.
  - pose proof Hr as [Hp Hpc]. destruct (wo_state _ Hok i p Hp) as [_ Ho]. rewrite Hpc in Ho. destruct Ho as (q & Hq & Hu & _).
    assert (c <> i) by (intros ->; congruence). eapply (moves_own _ _ i _ p).
    + apply moves_at1; [apply moves_refl|]. intros q' Hq'. simplify_eq. by apply pm_scrap.
    + split; [rewrite procs_at, decide_False by done; exact Hp|exact Hpc].
    + intros _. pc_move Hpc.
  - eapply moves_own; [apply moves_refl|exact Hr|]. intros Hpc. by apply pm_detach.
  - edestruct (runs_send w i) as [p1 Hr1]; [exact Hr|]. eapply (moves_own _ _ i (LDowns ((ref, wt) :: mb) ms) p1); [| |intros Hpc; pc_move Hpc].
    + cbv zeta. case_decide; [apply moves_send|]. eapply moves_procs; [apply moves_send|reflexivity].
    + cbv zeta. case_decide; exact Hr1.
  - eapply (moves_own _ _ i (LPut ref mb ms) p); [eapply moves_procs; [apply (moves_refl w)|apply procs_mon_put]| |intros Hpc; pc_move Hpc].
    unfold runs. rewrite procs_mon_put. exact Hr.
  - eapply (moves_own _ _ i (LPuts (r :: ms)) p); [eapply moves_procs; [apply (moves_refl w)|apply procs_mon_put]| |intros Hpc; pc_move Hpc].
    unfold runs. rewrite procs_mon_put. exact Hr.
Qed.

Lemma all_moves tell (P : proc -> Prop) w w' :
  (forall p p', pmove tell w p p' -> P p -> P p') -> (forall cap wm links b, P (new_proc cap wm links b)) -> moves tell w w' ->
  (forall j p, w_procs w !! j = Some p -> P p) -> forall j p, w_procs w' !! j = Some p -> P p.
Proof.
  intros Hm Hn [Hw _] HP j p' Hp'.
  assert (forall p p', rtc (pmove tell w) p p' -> P p -> P p') as Hs.
  { intros p q Hpq. induction Hpq; [done|]. naive_solver. }
  destruct (Hw j p' Hp') as [(p & Hp & Hr)|(_ & cap & wm & links & b & Hr)]; eapply Hs; eauto.
Qed.

(** *** The watcher's list *)

(** The sweeps look at no more than two entries per push. *)
Definition watch_ok (p : proc) : Prop :=
  let wl := p_watch p in
  wl_visits wl <= 2 * wl_pushes wl /\
  match p_pc p with
  | LSweep _ _ kept todo =>
      wl_n wl = Z.of_nat (length kept) + Z.of_nat (length todo) /\ wl_visits wl + Z.of_nat (length todo) <= 2 * wl_pushes wl
  | pc =>
      exited pc = true \/
      wl_n wl = Z.of_nat (length (wl_monitors wl)) /\ wl_n wl <= wl_sweep_at wl /\
      wl_visits wl + 2 * wl_n wl <= 2 * wl_pushes wl + wl_sweep_at wl
  end.

(** [watch_ok] at a process that is not sweeping. *)
Lemma watch_ok_calm p :
  sweeping (p_pc p) = false ->
  watch_ok p <-> wl_visits (p_watch p) <= 2 * wl_pushes (p_watch p) /\
    (exited (p_pc p) = true \/
     wl_n (p_watch p) = Z.of_nat (length (wl_monitors (p_watch p))) /\ wl_n (p_watch p) <= wl_sweep_at (p_watch p) /\
     wl_visits (p_watch p) + 2 * wl_n (p_watch p) <= 2 * wl_pushes (p_watch p) + wl_sweep_at (p_watch p)).
Proof. unfold watch_ok. by destruct (p_pc p). Qed.

Lemma watch_move tell w p p' : pmove tell w p p' -> watch_ok p -> watch_ok p'.
Proof.
  intros Hm Hw. destruct Hm as [| | | | | |pc S1 S2 Hx _ _ _ _|pc q o _ X1 X2 _ _|ref k X1 S1 Hle|ref k kept r todo Hpc|ref k kept r todo Hpc
    |ref pc X1 S1 X2 S2 _ Hlt|ref k kept pc Hpc X2 S2 _|l pc X1 S1 X2 S2 _ Hl| | |]; try exact Hw.
  - apply watch_ok_calm; [done|]. apply watch_ok_calm in Hw; [|done]. simpl. by rewrite <-Hx.
  - assert (sweeping (p_pc p) = false) as Hs by (by destruct (p_pc p)). apply watch_ok_calm in Hw; [|done].
    assert (sweeping pc = false) as Hs' by (by destruct pc). apply watch_ok_calm; [done|]. simpl. split; [apply Hw|by left].
  - apply watch_ok_calm in Hw as [H1 [H2|(H2 & H3 & H4)]]; [congruence| |done]. unfold watch_ok. simpl. split; [done|]. lia.
  - unfold watch_ok in *. rewrite Hpc in Hw. simpl in *. lia.
  - unfold watch_ok in *. rewrite Hpc in Hw. simpl in *. rewrite length_app. simpl. lia.
  - apply watch_ok_calm in Hw as [H1 [H2|(H2 & H3 & H4)]]; [congruence| |done]. apply watch_ok_calm; [done|]. simpl. split; [lia|right]. lia.
  - unfold watch_ok in Hw. rewrite Hpc in Hw. simpl in Hw. apply watch_ok_calm; [done|]. simpl. split; [lia|right]. case_decide; lia.
  - apply watch_ok_calm in Hw as [H1 [H2|(H2 & H3 & H4)]]; [congruence| |done]. apply watch_ok_calm; [done|]. simpl. split; [lia|right]. lia.
  - apply watch_ok_calm; [done|]. apply watch_ok_calm in Hw as [H1 _]; [|by rewrite H]. simpl. split; [done|by left].
  - apply watch_ok_calm; [done|]. apply watch_ok_calm in Hw as [H1 _]; [|by rewrite H]. simpl. split; [done|by left].
Qed.

(** *** The mailbox *)

(** A process's mailbox is one of Mbox.v. *)
Definition mail_ok (p : proc) : Prop :=
  (exists cap wm, mbox_reach (fun _ => True) cap wm (p_mb p)) /\ (p_pc p = LUnborn -> (p_mb p).2 = PIdle).

Lemma mail_move tell w p p' : pmove tell w p p' -> mail_ok p -> mail_ok p'.
Proof.
  intros Hm [(cap & wm & Hr) Hu].
  assert (forall s, mbox_step (fun _ => True) (p_mb p) s -> mbox_reach (fun _ => True) cap wm s) as Hstep.
  { intros s Hs. eapply rtc_r; [exact Hr|exact Hs]. }
  destruct Hm as [m' r' Hpc Hne Hst|e sys full| | | | |pc S1 S2 Hx _ _ _ Hpc| | | | | | | |r k Hpc Hi| |Hpc]; try (split; [by exists cap, wm|simpl; first [exact Hu|congruence|by intros ->]]).
  - split; [|simpl; rewrite Hpc; done]. exists cap, wm. apply Hstep. destruct (p_mb p). by apply mb_recv.
  - split; [|done]. exists cap, wm. apply Hstep. simpl. destruct (p_mb p) as [m r].
    simpl. destruct (__mbox_deliver_locked m e sys full) as [[c m1] fire] eqn:Hd. by eapply mb_send.
  - split; [|by simpl; rewrite Hpc]. exists cap, wm. apply Hstep. simpl. destruct (p_mb p) as [m []]; try done; apply mb_recv; [apply rv_exit|apply rv_killed].
  - split; [|done]. exists cap, wm. apply Hstep. specialize (Hu Hpc). simpl. destruct (p_mb p) as [m r]. simpl in *. subst r. apply mb_recv, rv_exit.
Qed.

(** *** The linked peers of an exiting process *)

(** Processes do not come back to life, do not lose messages, and a pending
    kill stays until the process has left its body. *)
Record later (p p' : proc) : Prop := mk_later {
  la_dead : p_alive p = false -> p_alive p' = false;
  la_sent : forall x, x ∈ mb_sent (p_mb p).1 -> x ∈ mb_sent (p_mb p').1;
  la_kill : p_kill p <> 0 -> p_alive p' = false \/ p_kill p' <> 0;
}.

Lemma later_refl p : later p p.
Proof. split; auto. Qed.
Lemma later_trans p1 p2 p3 : later p1 p2 -> later p2 p3 -> later p1 p3.
Proof. intros [A1 A2 A3] [B1 B2 B3]. split; [auto|auto|]. intros [H|H]%A3; auto. Qed.

Lemma later_move tell w p p' : pmove tell w p p' -> later p p'.
Proof.
  intros Hm. destruct Hm as [m' r' Hpc Hne Hst|e sys full| | | | | | | | | | | | |r k Hpc Hi| |Hpc]; try (split; simpl; auto; done).
  - destruct (recv_quiet _ _ _ _ Hst Hne) as [E1 E2]. split; simpl; auto.
    + unfold p_alive. simpl. by rewrite E2.
    + by rewrite E1.
  - destruct (deliver_sent p e sys full) as [Ha Hs]. split; [by rewrite Ha| |by right].
    intros x Hx. destruct Hs as [->| ->]; [done|]. apply elem_of_app. by left.
Qed.

Lemma later_rtc tell w p p' : rtc (pmove tell w) p p' -> later p p'.
Proof. intros Hr. induction Hr as [|? ? ? Hst _ IH]; [apply later_refl|]. eapply later_trans; [by eapply later_move|done]. Qed.

Lemma later_moves tell w w' q p :
  moves tell w w' -> w_procs w !! q = Some p -> exists p', w_procs w' !! q = Some p' /\ later p p'.
Proof.
  intros [Hm Hd] Hp. destruct (Hd q ltac:(by exists p)) as [p' Hp']. exists p'. split; [done|].
  destruct (Hm q p' Hp') as [(p0 & Hp0 & Hr)|(Hn & _)]; [|congruence]. rewrite Hp in Hp0. simplify_eq. by eapply later_rtc.
Qed.

(** The peer as the exit found it: in the table, with this trap flag. *)
Definition saw (w0 : world) (q : nat) (trap : bool) : Prop :=
  exists pq, w_procs w0 !! q = Some pq /\ p_here pq = true /\ p_trap pq = trap.

(** What became of peer [q] of the exiting process [i], which looked [q] up in
    the world [w0].  It was not in the table; or it trapped exits, and the
    signal with the reason is in its mailbox, unless memory was refused or it
    has died; or it did not, and it is dead or has a kill pending, unless the
    exit was normal or its reason has no code. *)
Definition settled (w0 w : world) (i : nat) (x : Z * Z) (q : nat) (o : told) : Prop :=
  match o with
  | TNone => here_at w0 q = false
  | TTrap queued mem =>
      saw w0 q true /\ exists pq, w_procs w !! q = Some pq /\
        if queued then (true, Exit i x.1 x.2) ∈ mb_sent (p_mb pq).1 else mem = false \/ p_alive pq = false
  | TKill =>
      saw w0 q false /\ exists pq, w_procs w !! q = Some pq /\
        (p_alive pq = false \/ x.1 = 0 \/ kill_code x.1 = 0 \/ p_kill pq <> 0)
  end.

Lemma settled_moves tell w0 w w' i x q o : moves tell w w' -> settled w0 w i x q o -> settled w0 w' i x q o.
Proof.
  intros Hm. destruct o as [|queued mem|]; simpl; [done|..]; intros (Hs & pq & Hq & H); (split; [exact Hs|]);
    destruct (later_moves tell w w' q pq Hm Hq) as (pq' & Hq' & [L1 L2 L3]); exists pq'; (split; [done|]).
  - destruct queued; [by auto|]. naive_solver.
  - destruct H as [H|[H|[H|H]]]; auto. destruct (L3 H); auto.
Qed.

(** The private part: the peers dealt with and those left make up the list. *)
Definition told_local (p : proc) : Prop :=
  if exited (p_pc p) then (p_told p).1 = rev (p_told p).2.*1 ++ untold (p_pc p) else p_told p = ([], []).

Lemma told_local_move tell w p p' : pmove tell w p p' -> told_local p -> told_local p'.
Proof.
  unfold told_local. intros Hm. destruct Hm as [| | | | | |pc S1 S2 Hx Hu _ _ _|pc q o _ X1 X2 Hu _|ref k X1 _ _|ref k kept r todo Hpc|ref k kept r todo Hpc
    |ref pc X1 _ X2 _ _ _|ref k kept pc Hpc X2 _ _|l pc X1 _ X2 _ _ _| |Hpc|Hpc]; simpl; try done; rewrite ?Hpc, ?X1, ?X2, ?Hx, ?Hu; try done.
  - intros ->. rewrite <-app_assoc. done.
  - simpl. by intros ->.
Qed.

(** Process [i] has peer [q] to look up next. *)
Definition looks (w0 : world) (i q : nat) : Prop := exists p ls mb ms, runs w0 i (LLinks (q :: ls) mb ms) p.

(** Every peer told was looked up in a world of the history [H], and settled;
    so was the one an exit is about to tell. *)
Definition told_ok (H : world -> Prop) (w : world) : Prop :=
  forall i p, w_procs w !! i = Some p ->
    (forall q o, (q, o) ∈ (p_told p).2 -> exists w0, H w0 /\ looks w0 i q /\ settled w0 w i (p_exit p) q o) /\
    (forall q trap ls mb ms, p_pc p = LLinkSig q trap ls mb ms -> exists w0, H w0 /\ looks w0 i q /\ saw w0 q trap).

Lemma told_mono (H H' : world -> Prop) w : (forall w0, H w0 -> H' w0) -> told_ok H w -> told_ok H' w.
Proof.
  intros HH Hok i p Hp. destruct (Hok i p Hp) as [H1 H2]. split; [intros q o Hin|intros q trap ls mb ms Hpc].
  - destruct (H1 q o Hin) as (w0 & ? & ?). eauto.
  - destruct (H2 q trap ls mb ms Hpc) as (w0 & ? & ?). eauto.
Qed.

(** A move that deals with no peer leaves what was told. *)
Definition told_same (p p' : proc) : Prop :=
  (p_told p').2 = (p_told p).2 /\ ((p_told p').2 = [] \/ p_exit p' = p_exit p) /\ (is_sig (p_pc p') = true -> p_pc p' = p_pc p).

Lemma told_quiet w p p' : pmove false w p p' -> told_local p -> told_same p p'.
Proof.
  unfold told_same. intros Hm Hl. destruct Hm as [| | | | | |pc ? ? ? ? ? Hs ?| | | | |ref pc ? ? X2 ? ? ?|ref k kept pc ? X2 ? ?|l pc ? ? X2 ? ? ?|r k Hpc Hi|Hpc|];
    simpl; try (split_and!; [done|by right|]); try done; try by destruct pc.
  - by rewrite Hs.
  - unfold told_local in Hl. rewrite Hpc in Hl. simpl in Hl. rewrite Hl. by split_and!; auto.
  - unfold told_local in Hl. rewrite Hpc in Hl. simpl in Hl. rewrite Hl. by split_and!; auto.
Qed.

Lemma told_quiet_rtc w p p' : rtc (pmove false w) p p' -> told_local p -> told_same p p'.
Proof.
  intros Hr. induction Hr as [p|p1 p2 p3 Hst _ IH]; intros Hl; [by split_and!; auto|].
  destruct (told_quiet _ _ _ Hst Hl) as (E1 & E2 & E3). destruct (IH (told_local_move _ _ _ _ Hst Hl)) as (F1 & F2 & F3).
  split_and!; [by rewrite F1| |intros Hs; rewrite (F3 Hs); apply E3; by rewrite <-(F3 Hs)].
  rewrite F1, E1. rewrite F1, E1 in F2. rewrite E1 in E2. destruct E2 as [|E2], F2 as [|F2]; auto. right. by rewrite F2, E2.
Qed.

Lemma told_moves H w w' :
  moves false w w' -> (forall j p, w_procs w !! j = Some p -> told_local p) -> told_ok H w -> told_ok H w'.
Proof.
  intros Hm Hloc Hok i p' Hp'. destruct (proj1 Hm i p' Hp') as [(p & Hp & Hr)|(_ & cap & wm & links & b & Hr)].
  - destruct (told_quiet_rtc _ _ _ Hr (Hloc i p Hp)) as (E1 & E2 & E3), (Hok i p Hp) as [H1 H2]. split.
    + intros q o Hin. destruct E2 as [E2|E2]; [rewrite E2 in Hin; by apply elem_of_nil in Hin|]. rewrite E1 in Hin. rewrite E2.
      destruct (H1 q o Hin) as (w0 & ? & ? & Hs). exists w0. split_and!; [done|done|]. by eapply settled_moves.
    + intros q trap ls mb ms Hpc. rewrite E3 in Hpc by (by rewrite Hpc). by eapply H2.
  - destruct (told_quiet_rtc _ _ _ Hr ltac:(done)) as (E1 & _ & E3). split.
    + intros q o Hin. rewrite E1 in Hin. by apply elem_of_nil in Hin.
    + intros q trap ls mb ms Hpc. by rewrite E3 in Hpc by (by rewrite Hpc).
Qed.

(** Telling a peer. *)
Lemma settled_at w0 w j f i x q o :
  (forall p, p_mb (f p) = p_mb p /\ p_kill (f p) = p_kill p) -> settled w0 w i x q o -> settled w0 (at_ w j f) i x q o.
Proof.
  intros Hf. destruct o as [|queued mem|]; unfold settled; [done|..]; intros (Hs & pq & Hq & H); (split; [exact Hs|]);
    rewrite (procs_at w j f q); rewrite Hq;
    (destruct (decide (j = q)); [|by eauto]); exists (f pq); (split; [done|]); destruct (Hf pq) as [E1 E2];
    unfold p_alive in *; by rewrite ?E1, ?E2.
Qed.

Lemma told_tell H w w0 i p q o ls mb ms :
  told_ok H w -> w_procs w !! i = Some p -> H w0 -> looks w0 i q -> settled w0 w i (p_exit p) q o ->
  told_ok H (at_ w i (fun p => with_pc (LLinks ls mb ms) (with_told q o p))).
Proof.
  intros Hok Hp Hw0 Hlk Hs j p' Hp'. rewrite procs_at in Hp'. destruct (decide (i = j)) as [<-|].
  - rewrite Hp in Hp'. simpl in Hp'. injection Hp' as <-. split; [|done]. simpl.
    intros q' o' [[= -> ->]|Hin]%elem_of_cons; [exists w0; split_and!; [done|done|by apply settled_at]|].
    destruct (proj1 (Hok i p Hp) q' o' Hin) as (w1 & ? & ? & ?). exists w1. split_and!; [done|done|by apply settled_at].
  - destruct (Hok j p' Hp') as [H1 H2]. split; [|exact H2]. intros q' o' Hin.
    destruct (H1 q' o' Hin) as (w1 & ? & ? & ?). exists w1. split_and!; [done|done|by apply settled_at].
Qed.

Lemma told_found H w w0 i p q trap ls mb ms :
  told_ok H w -> w_procs w !! i = Some p -> H w0 -> looks w0 i q -> saw w0 q trap ->
  told_ok H (at_ w i (with_pc (LLinkSig q trap ls mb ms))).
Proof.
  intros Hok Hp Hw0 Hlk Hs j p' Hp'. rewrite procs_at in Hp'.
  assert (exists p0, w_procs w !! j = Some p0 /\ p_told p' = p_told p0 /\ p_exit p' = p_exit p0 /\ (j <> i -> p_pc p' = p_pc p0)) as (p0 & Hp0 & Et & Ex & Epc).
  { destruct (decide (i = j)) as [<-|]; [rewrite Hp in Hp'; simpl in Hp'; injection Hp' as <-; by exists p|by exists p']. }
  destruct (Hok j p0 Hp0) as [H1 H2]. split.
  - intros q' o' Hin. rewrite Et in Hin. destruct (H1 q' o' Hin) as (w1 & ? & ? & ?). exists w1. rewrite Ex. split_and!; [done|done|by apply settled_at].
  - intros q' trap' ls' mb' ms' Hpc. destruct (decide (i = j)) as [<-|]; [|rewrite Epc in Hpc by done; by eapply H2].
    rewrite Hp in Hp'. simpl in Hp'. injection Hp' as <-. simpl in Hpc. simplify_eq. eauto.
Qed.

Lemma send_settled w0 w i q x mem :
  saw w0 q true -> is_Some (w_procs w !! q) -> (forall p, w_procs w !! q = Some p -> state_ok p) ->
  let r := __send_sys w q (Exit i x.1 x.2) mem in settled w0 r.2 i x q (TTrap (bool_decide (r.1 = XTC_OK)) mem).
Proof.
  intros Hsaw [pq Hq] Hs. simpl. split; [exact Hsaw|]. unfold __send_sys, __send_ex, here_at, alive_at. rewrite Hq. destruct (p_alive pq) eqn:Ha; simpl.
  - assert (p_here pq = true) as ->.
    { specialize (Hs pq Hq). rewrite (so_here _ Hs). destruct (exited (p_pc pq)) eqn:Hx; [|done]. destruct (so_exited _ Hs Hx). congruence. }
    destruct mem; simpl; [|exists pq; auto]. destruct (deliver_sys pq (Exit i x.1 x.2) Ha) as [E1 E2]. rewrite E1.
    rewrite bool_decide_true by done. rewrite lookup_alter_eq, Hq. eexists. split; [done|]. rewrite E2. apply elem_of_app. right. left.
  - rewrite orb_true_r. simpl. exists pq. auto.
Qed.

Lemma kill_settled w0 w i q x :
  saw w0 q false -> is_Some (w_procs w !! q) -> (forall p, w_procs w !! q = Some p -> state_ok p) ->
  settled w0 (if decide (x.1 = 0) then w else (__exit_pid_on w q x.1).2) i x q TKill.
Proof.
  intros Hsaw [pq Hq] Hs. simpl. split; [exact Hsaw|]. case_decide as Hx; [exists pq; auto|]. unfold __exit_pid_on, here_at, alive_at. rewrite Hq.
  destruct (p_alive pq) eqn:Ha; simpl.
  - assert (p_here pq = true) as ->.
    { specialize (Hs pq Hq). rewrite (so_here _ Hs). destruct (exited (p_pc pq)) eqn:He; [|done]. destruct (so_exited _ Hs He). congruence. }
    simpl. rewrite lookup_alter_eq, Hq. eexists. split; [done|]. simpl. case_decide; simpl; [|auto].
    destruct (decide (kill_code x.1 = 0)); auto.
  - rewrite orb_true_r. simpl. exists pq. auto.
Qed.

Lemma told_step H w w' :
  world_ok w -> (forall j p, w_procs w !! j = Some p -> told_local p /\ sig_ok w (p_pc p)) -> tells w w' -> H w -> told_ok H w -> told_ok H w'.
Proof.
  intros Hok Hloc Hst Hw Ht. assert (forall j p, w_procs w !! j = Some p -> told_local p) as Hloc1 by (intros; by eapply Hloc).
  destruct Hst as [i p q ls mb ms Hr Hq|i p q pq ls mb ms Hr Hq Hh|i p q ls mb ms mem Hr|i p q ls mb ms Hr].
  - eapply told_tell; [done|apply Hr|exact Hw|by repeat eexists; apply Hr|done].
  - eapply told_found; [done|apply Hr|exact Hw|by repeat eexists; apply Hr|by exists pq].
  - destruct (Hloc i p (proj1 Hr)) as [_ Hsig]. rewrite (proj2 Hr) in Hsig.
    destruct (proj2 (Ht i p (proj1 Hr)) _ _ _ _ _ (proj2 Hr)) as (w0 & Hw0 & Hlk & Hsaw).
    pose proof (send_settled w0 w i q (p_exit p) mem Hsaw Hsig ltac:(intros; by apply (wo_state _ Hok q))) as Hset. cbv zeta in Hset.
    assert (exists p1, runs (__send_sys w q (Exit i (p_exit p).1 (p_exit p).2) mem).2 i (LLinkSig q true ls mb ms) p1 /\ p_exit p1 = p_exit p)
      as (p1 & Hr1 & E).
    { unfold __send_sys, __send_ex. repeat case_match; simpl; eauto.
      destruct (runs_at w i _ p q (deliver_to (Exit i (p_exit p).1 (p_exit p).2) true false) Hr) as (p' & ? & [->| ->]); [done|eauto..]. }
    eapply told_tell; [|apply Hr1|exact Hw0|exact Hlk|by rewrite E]. by eapply told_moves; [apply moves_send|..].
  - destruct (Hloc i p (proj1 Hr)) as [_ Hsig]. rewrite (proj2 Hr) in Hsig.
    destruct (proj2 (Ht i p (proj1 Hr)) _ _ _ _ _ (proj2 Hr)) as (w0 & Hw0 & Hlk & Hsaw).
    pose proof (kill_settled w0 w i q (p_exit p) Hsaw Hsig ltac:(intros; by apply (wo_state _ Hok q))) as Hset.
    case_decide; [eapply told_tell; [done|apply Hr|exact Hw0|exact Hlk|done]|].
    assert (exists p1, runs (__exit_pid_on w q (p_exit p).1).2 i (LLinkSig q false ls mb ms) p1 /\ p_exit p1 = p_exit p) as (p1 & Hr1 & E).
    { unfold __exit_pid_on. case_match; simpl; eauto.
      edestruct (runs_at w i _ p q (fun p0 => if decide (p_kill p0 = 0) then with_kill (kill_code (p_exit p).1) p0 else p0) Hr) as (p' & ? & Hp');
        [intros p0; by case_decide|]. exists p'. split; [done|]. destruct Hp' as [->| ->]; [done|]. by case_decide. }
    eapply told_tell; [|apply Hr1|exact Hw0|exact Hlk|by rewrite E]. by eapply told_moves; [apply moves_exit_pid|..].
Qed.

(** A process that has left the table keeps its exit and the list it found. *)
Definition kept_exit (p p' : proc) : Prop :=
  exited (p_pc p) = true -> exited (p_pc p') = true /\ (p_told p').1 = (p_told p).1 /\ p_exit p' = p_exit p.

Lemma kept_move tell w p p' : pmove tell w p p' -> kept_exit p p'.
Proof.
  unfold kept_exit. intros Hm Hx. destruct Hm; simpl; try done;
    first [congruence | by match goal with E : p_pc p = _ |- _ => rewrite E in Hx end | idtac].
  split_and!; [congruence|done|done].
Qed.

Lemma kept_moves tell w w' i p :
  moves tell w w' -> w_procs w !! i = Some p -> exists p', w_procs w' !! i = Some p' /\ kept_exit p p'.
Proof.
  intros [Hm Hd] Hp. destruct (Hd i ltac:(by exists p)) as [p' Hp']. exists p'. split; [done|].
  destruct (Hm i p' Hp') as [(p0 & Hp0 & Hr)|(Hn & _)]; [|congruence]. rewrite Hp in Hp0. injection Hp0 as <-. clear Hp Hp'.
  induction Hr as [|p1 p2 p3 Hst _ IH]; [done|]. intros Hx. destruct (kept_move _ _ _ _ Hst Hx) as (E1 & E2 & E3).
  destruct (IH E1) as (F1 & F2 & F3). split_and!; [done|by rewrite F2|by rewrite F3].
Qed.

(** ** Runs *)

Lemma seq_send w q e sys full mem : w_seq (__send_ex w q e sys full mem).2 = w_seq w.
Proof. unfold __send_ex. by repeat case_match. Qed.
Lemma seq_exit_pid w q r : w_seq (__exit_pid_on w q r).2 = w_seq w.
Proof. unfold __exit_pid_on. by case_match. Qed.
Lemma seq_put w r : w_seq (__mon_put w r) = w_seq w.
Proof. unfold __mon_put. by repeat case_match. Qed.
Lemma seq_push_link w q i : w_seq (__peer_push_link w q i).2 = w_seq w.
Proof. unfold __peer_push_link. by case_match. Qed.
Lemma seq_watched w i wl ref k : w_seq (watched w i wl ref k) = w_seq w.
Proof. by destruct k. Qed.

Lemma lstep_seq w w' : world_ok w -> w_seq w + 1 < 2 ^ 64 -> lstep w w' -> w_seq w' <= w_seq w + 1.
Proof.
  intros Hok Hlt Hst. pose proof (next_ref_eq w (wo_seq _ Hok) Hlt) as En. change ((next_ref w).1) with (w_seq (next_ref w).2) in En.
  destruct Hst as [| | | |w0 Hst|w0 Hst|w0 Hst|w0 Hst|w0 Hst|w0 Hst]; try destruct Hst; cbn [w_seq at_ spawned_into with_mons with_inst set_refs]; rewrite ?seq_send, ?seq_exit_pid, ?seq_put, ?seq_push_link, ?seq_watched;
    try lia.
  - unfold __send_sys. rewrite seq_send. lia.
  - unfold __peer_push_monitored_by. destruct (here_at w t && alive_at w t); simpl; lia.
  - destruct H; cbn [w_seq at_]; unfold __send_sys; rewrite ?seq_send; [lia..|]. case_decide; rewrite ?seq_exit_pid; lia.
  - cbv zeta. unfold __send_sys. case_decide; cbn [w_seq lose]; rewrite seq_send; lia.
Qed.

(** The worlds a run went through on its way to [w]. *)
Definition earlier (w w0 : world) : Prop := rtc lstep world0 w0 /\ rtc lstep w0 w.

Record run_ok (w : world) : Prop := mk_run_ok {
  ro_world : world_ok w;
  ro_local : forall j p, w_procs w !! j = Some p -> watch_ok p /\ mail_ok p /\ told_local p /\ sig_ok w (p_pc p);
  ro_told : told_ok (earlier w) w;
}.

Lemma local_move tell w p p' :
  pmove tell w p p' -> watch_ok p /\ mail_ok p /\ told_local p /\ sig_ok w (p_pc p) ->
  watch_ok p' /\ mail_ok p' /\ told_local p' /\ sig_ok w (p_pc p').
Proof.
  intros Hm (H1 & H2 & H3 & H4). split_and!; [by eapply watch_move|by eapply mail_move|by eapply told_local_move|].
  destruct Hm; simpl; try done; by destruct pc.
Qed.

Lemma local_new w cap wm links b :
  watch_ok (new_proc cap wm links b) /\ mail_ok (new_proc cap wm links b) /\ told_local (new_proc cap wm links b) /\
  sig_ok w (p_pc (new_proc cap wm links b)).
Proof. split_and!; try done. - split; [done|right; done]. - split; [|done]. exists cap, wm. apply rtc_refl. Qed.

Lemma local_moves tell w w' :
  moves tell w w' -> (forall j p, w_procs w !! j = Some p -> watch_ok p /\ mail_ok p /\ told_local p /\ sig_ok w (p_pc p)) ->
  forall j p, w_procs w' !! j = Some p -> watch_ok p /\ mail_ok p /\ told_local p /\ sig_ok w' (p_pc p).
Proof.
  intros Hm Hl j p Hp.
  pose proof (all_moves tell (fun p => watch_ok p /\ mail_ok p /\ told_local p /\ sig_ok w (p_pc p)) w w' (local_move tell w) (local_new w) Hm Hl j p Hp)
    as (H1 & H2 & H3 & H4).
  split_and!; try done. unfold sig_ok in *. destruct (p_pc p); try done. by apply (proj2 Hm).
Qed.

Lemma lstep_run w w' : run_ok w -> rtc lstep world0 w -> w_seq w + 1 < 2 ^ 64 -> lstep w w' -> run_ok w'.
Proof.
  intros [H1 H2 H3] H0 Hlt Hst.
  assert (told_ok (earlier w') w) as H3'.
  { eapply told_mono; [|exact H3]. intros w0 [? ?]. split; [done|]. by eapply rtc_r. }
  pose proof (lstep_ok w w' H1 Hlt Hst) as Hok. destruct (lstep_moves w w' H1 Hst) as [Hm|Ht].
  - split; [done|by eapply local_moves|]. eapply told_moves; [done| |done]. intros j p Hp. by apply (H2 j p Hp).
  - split; [done|eapply local_moves; [by apply tells_moves|done]|].
    apply (told_step _ w w'); [done| |done|by split; [|apply rtc_once]|done].
    intros j p Hp. destruct (H2 j p Hp) as (_ & _ & ? & ?). done.
Qed.

Lemma world0_ok : run_ok world0.
Proof.
  assert (forall j, w_procs world0 !! j = None) as E by (intros; apply lookup_empty).
  assert (forall r, w_mons world0 !! r = None) as Em by (intros; apply lookup_empty).
  assert (forall r, w_inst world0 !! r = None) as Ei by (intros; apply lookup_empty).
  split; [split; [split|split]| |].
  - done.
  - intros i p Hp. by rewrite E in Hp.
  - split; [intros j r; unfold hc; by rewrite E|intros j r; unfold oc; by rewrite E|..]; intros r e He; by rewrite Em in He.
  - intros r e He. by rewrite Em in He.
  - intros r wt t Hr. by rewrite Ei in Hr.
  - intros j p r wt Hp. by rewrite E in Hp.
  - intros j p r t x Hp. by rewrite E in Hp.
  - intros r dead H. by apply elem_of_nil in H.
  - intros r wt t Hr. by rewrite Ei in Hr.
  - intros j p Hp. by rewrite E in Hp.
  - intros j p Hp. by rewrite E in Hp.
Qed.

Lemma lreach_ok n w : lreach n w -> run_ok w /\ w_seq w <= Z.of_nat n.
Proof.
  intros [Hr Hn]. revert w Hr. induction n as [|n IH]; intros w Hr.
  - inversion Hr; subst. split; [apply world0_ok|done].
  - apply nsteps_inv_r in Hr as (w1 & Hr & Hst). destruct (IH ltac:(lia) w1 Hr) as [Hok Hs].
    split; [eapply lstep_run; [done|apply rtc_nsteps; by exists n|lia|done]|]. pose proof (lstep_seq w1 w (ro_world _ Hok) ltac:(lia) Hst). lia.
Qed.

(** ** What watchers, targets and linked peers rely on *)

Lemma real_down_inv x r t y : real_down x = Some (r, t, y) -> x = (x.1, Down r t y.1 y.2).
Proof. destruct x as [b [r0 t0 reason k|?|?]]; simpl; try done. unfold real_down. simpl. case_decide; [done|]. by intros [= <- <- <-]. Qed.

(** C19: a monitor gives one DOWN.  Whatever interleaves, for a monitor that is
    installed exactly one of these holds: the target still owes the signal;
    it is queued at the watcher, once, after the target has left its body and
    with the target's own reason and kind, and stays there until received; or
    it was dropped, and then the watcher is dead or the signal found no memory:
    a living watcher never refuses it, however full its mailbox.  A target that
    is gone owes nothing.  A monitor is installed when the target has its
    entry; [monitor_race_loses_down] is one that never is. *)
Theorem monitor_one_down n w r wt t :
  lreach n w -> w_inst w !! r = Some (wt, t) ->
  exists pw pt, w_procs w !! wt = Some pw /\ w_procs w !! t = Some pt /\
    cnt r (owed pt).*1 + cnt r (down_refs pw) + cnt r (w_lost w).*1 = 1 /\
    (forall t' x, (r, t', x) ∈ downs pw ->
       t' = t /\ p_alive pt = false /\ x = p_exit pt /\
       exists b, (b, Down r t x.1 x.2) ∈ mb_got (p_mb pw).1 ++ taken (p_mb pw).2 ++ pending (p_mb pw)) /\
    (forall mem, (r, mem) ∈ w_lost w -> mem = false \/ p_alive pw = false) /\
    (p_pc pt = LGone -> cnt r (owed pt).*1 = 0).
Proof.
  intros Hr Hi. destruct (lreach_ok n w Hr) as [[[_ [I1 I2 I3 I4 I5]] Hl _] _]. destruct (I5 r wt t Hi) as (_ & [pw Hw] & [pt Ht]).
  exists pw, pt. split_and!; [done|done| | | |by unfold owed; intros ->].
  - specialize (I1 r wt t Hi). unfold wc, dc in I1. by rewrite Hw, Ht in I1.
  - intros t' x Hin. destruct (I3 wt pw r t' x Hw Hin) as (Hi' & q & Hq & Ha & He). rewrite Hi in Hi'. simplify_eq. split_and!; try done.
    destruct (Hl wt pw Hw) as (_ & [(cap & wm & Hm) _] & _). apply list_elem_of_omap in Hin as (y & Hy & Hd). apply real_down_inv in Hd.
    exists y.1. rewrite <-Hd. by rewrite <-(proj1 (mbox_conserves _ cap wm _ Hm)).
  - intros [] Hin; [right|by left]. destruct (I4 r true Hin) as (wt' & t' & Hi' & Hd). rewrite Hi in Hi'. simplify_eq.
    destruct (Hd eq_refl) as (q & Hq & Ha). congruence.
Qed.

(** C20: the entries of monitors are never used after they were freed, never
    freed twice and never leaked: every reference a process holds, on its list,
    in its hands or on the list of its watchers, names an allocated entry, and
    an allocated entry counts exactly these holders, one or two of them. *)
Theorem monitor_entries_counted n w :
  lreach n w ->
  (forall i p r, w_procs w !! i = Some p -> r ∈ held p \/ r ∈ owed_refs p -> is_Some (w_mons w !! r)) /\
  (forall r e, w_mons w !! r = Some e ->
     1 <= me_refs e <= 2 /\ me_refs e = hc w (me_watcher e) r + oc w (me_target e) r).
Proof.
  intros Hr. destruct (lreach_ok n w Hr) as [[[[_ _ [E1 E2 E3 _] _] _] _ _] _]. split; [|done].
  intros i p r Hp [Hin|Hin]; apply cnt_elem in Hin.
  - destruct (E1 i r) as (e & He & _); [by rewrite (hc_at w i p)|by eexists].
  - destruct (E2 i r) as (e & He & _); [by rewrite (oc_at w i p)|by eexists].
Qed.

(** C22: keeping the list of monitors costs constant time per monitor.  The
    sweeps together look at no more than two entries per push, and between
    sweeps the list is as long as its counter says, which the threshold
    bounds. *)
Theorem monitor_sweep_cost n w i p :
  lreach n w -> w_procs w !! i = Some p ->
  wl_visits (p_watch p) <= 2 * wl_pushes (p_watch p) /\
  (sweeping (p_pc p) = false -> exited (p_pc p) = false ->
   wl_n (p_watch p) = Z.of_nat (length (wl_monitors (p_watch p))) /\ wl_n (p_watch p) <= wl_sweep_at (p_watch p)).
Proof.
  intros Hr Hp. destruct (lreach_ok n w Hr) as [[_ Hl _] _]. destruct (Hl i p Hp) as (Hw & _). split; [apply Hw|].
  intros Hs Hx. apply watch_ok_calm in Hw as [_ [H|(H1 & H2 & _)]]; [congruence|done|done].
Qed.

(** The list an exit found is the one of the process that left. *)
Lemma detached_list m w1 i pd n w :
  lreach m w1 -> runs w1 i LRun pd -> p_alive pd = false -> nsteps lstep n (at_ w1 i proc_detach) w -> Z.of_nat (S m + n) < 2 ^ 64 ->
  lreach (S m + n) w /\ exists p, w_procs w !! i = Some p /\ exited (p_pc p) = true /\ (p_told p).1 = p_links pd /\ p_exit p = p_exit pd.
Proof.
  intros [H1 _] [Hd Hpc] Ha Hn Hlt.
  assert (nsteps lstep (S m) world0 (at_ w1 i proc_detach)) as H2.
  { eapply nsteps_r; [exact H1|]. by eapply ls_notify_step, ls_detach. }
  clear H1. revert w Hn Hlt. induction n as [|n IH]; intros w Hn Hlt; (split; [split; [by eapply nsteps_trans|done]|]).
  - inversion Hn; subst. exists (proc_detach pd). by rewrite procs_at, decide_True, Hd.
  - apply nsteps_inv_r in Hn as (w2 & Hn & Hst). destruct (IH w2 Hn ltac:(lia)) as (Hr & p & Hp & E1 & E2 & E3).
    destruct (lreach_ok _ w2 Hr) as [Hok _].
    assert (exists tell, moves tell w2 w) as [tell Hm]
      by (destruct (lstep_moves w2 w (ro_world _ Hok) Hst) as [?|?%tells_moves]; eauto).
    destruct (kept_moves tell w2 w i p Hm Hp) as (p' & Hp' & Hk). exists p'. destruct (Hk E1) as (F1 & F2 & F3). by rewrite F2, F3.
Qed.

(** C21: an exit reaches every link.  Take a process that has left its body and
    leaves the table, and any later point of the run where it is through its
    links.  Then it has looked up every peer that was on its list when it left,
    and what it found decided what became of the peer: one that was not in the
    table was passed over; one that trapped exits has the EXIT signal with the
    reason in its mailbox, unless memory was refused or it has died; one that
    did not trap is dead or has a kill pending, unless the exit was normal or
    its reason has no code. *)
Theorem exit_reaches_links m w1 i pd n w p :
  lreach m w1 -> runs w1 i LRun pd -> p_alive pd = false -> nsteps lstep n (at_ w1 i proc_detach) w -> Z.of_nat (S m + n) < 2 ^ 64 ->
  w_procs w !! i = Some p -> untold (p_pc p) = [] ->
  forall q, q ∈ p_links pd ->
  exists w0 o, (q, o) ∈ (p_told p).2 /\ earlier w w0 /\ looks w0 i q /\ settled w0 w i (p_exit pd) q o.
Proof.
  intros Hr1 Hd Ha Hn Hlt Hp Hu q Hq. destruct (detached_list m w1 i pd n w Hr1 Hd Ha Hn Hlt) as (Hr & p' & Hp' & Hx & Et & Ex).
  rewrite Hp in Hp'. injection Hp' as <-. destruct (lreach_ok _ w Hr) as [[_ Hl Ht] _]. destruct (Hl i p Hp) as (_ & _ & Htl & _).
  unfold told_local in Htl. rewrite Hx, Hu, app_nil_r, Et in Htl. rewrite Htl in Hq. rewrite list_elem_of_In, <-in_rev, <-list_elem_of_In in Hq.
  apply list_elem_of_fmap in Hq as ([q' o] & -> & Hin). destruct (proj1 (Ht i p Hp) q' o Hin) as (w0 & ? & ? & ?).
  exists w0, o. by rewrite <-Ex.
Qed.

(** ** Runs that go wrong *)

Ltac lnorm := match goal with |- nsteps _ _ ?x _ => let y := eval vm_compute in x in change x with y end.
Ltac lapply c :=
  first [eapply c | eapply ls_mon_step, c | eapply ls_watch_step, c | eapply ls_link_step, c | eapply ls_spawn_step, c
        | eapply ls_exit_step, c | eapply ls_notify_step, c | eapply ls_notify_step, ls_tell, c].
Tactic Notation "lnext" open_constr(c) := eapply nsteps_l; [lapply c; try (split; reflexivity); try reflexivity|]; lnorm.
Ltac lend := apply nsteps_O.

Lemma known_now w t p : w_procs w !! t = Some p -> p_pc p <> LUnborn -> known w t.
Proof. intros Hp Hb q Hq. congruence. Qed.

Ltac lknown := eapply known_now; [reflexivity|discriminate].

(** Process 0 monitors process 1, which then exits with code 5. *)
Lemma links_demo :
  exists n w pw pt, lreach n w /\ w_inst w !! 1 = Some (0%nat, 1%nat) /\ w_procs w !! 0%nat = Some pw /\ w_procs w !! 1%nat = Some pt /\
    p_pc pt = LGone /\ downs pw = [(1, 1%nat, (5, XTC_DOWN_KIND_EXIT))].
Proof.
  eexists _, _, _, _. split; [split|].
  { unfold world0. lnext (ls_spawn_out _ 0%nat 4 0). lnext (ls_spawn_out _ 1%nat 4 0).
    eapply nsteps_l; [eapply ls_mon_step, (ls_mon_live _ 0%nat _ 1%nat); [split; reflexivity|lknown|reflexivity]|]; lnorm.
    lnext (ls_mon_new _ 0%nat). lnext (ls_mon_full _ 0%nat). lnext (ls_mon_push _ 0%nat).
    eapply nsteps_l; [eapply ls_watch_step, (ls_watch_sweep _ 0%nat); [split; reflexivity|done]|]; lnorm.
    lnext (ls_sweep_done _ 0%nat).
    lnext (ls_exit_self _ 1%nat _ 5). lnext (ls_detach _ 1%nat). lnext (ls_links_done _ 1%nat).
    lnext (ls_down _ 1%nat _ _ _ _ _ true). lnext (ls_put _ 1%nat). lnext (ls_downs_done _ 1%nat). lnext (ls_gone _ 1%nat). lend. }
  { vm_compute. reflexivity. }
  split_and!; reflexivity.
Qed.

(** A monitor of a living target that exits before the push: [xtc_monitor] has
    returned XTC_OK and the target is gone, but the watcher has no DOWN, none
    is owed to it and none was dropped. *)
Example monitor_race_loses_down :
  exists n w pw pt, lreach n w /\ w_procs w !! 0%nat = Some pw /\ w_procs w !! 1%nat = Some pt /\
    p_pc pw = LRun /\ wl_monitors (p_watch pw) = [1] /\ p_pc pt = LGone /\
    mb_sent (p_mb pw).1 = [] /\ w_inst w !! 1 = None /\ w_lost w = [].
Proof.
  eexists _, _, _, _. split; [split|].
  { unfold world0. lnext (ls_spawn_out _ 0%nat 4 0). lnext (ls_spawn_out _ 1%nat 4 0).
    eapply nsteps_l; [eapply ls_mon_step, (ls_mon_live _ 0%nat _ 1%nat); [split; reflexivity|lknown|reflexivity]|]; lnorm.
    lnext (ls_mon_new _ 0%nat). lnext (ls_mon_full _ 0%nat).
    lnext (ls_exit_self _ 1%nat _ 5). lnext (ls_detach _ 1%nat). lnext (ls_links_done _ 1%nat).
    lnext (ls_downs_done _ 1%nat). lnext (ls_gone _ 1%nat).
    lnext (ls_mon_push _ 0%nat).
    eapply nsteps_l; [eapply ls_watch_step, (ls_watch_sweep _ 0%nat); [split; reflexivity|done]|]; lnorm.
    lnext (ls_sweep_done _ 0%nat). lend. }
  { vm_compute. reflexivity. }
  split_and!; reflexivity.
Qed.

(** The head of a process's own list of links is read and written without the
    lock: while process 0 links 1, process 2 links 0, and its entry on 0's
    list is overwritten.  Both calls returned XTC_OK, and 2 has 0 on its list,
    but 0 exits with code 1 and 2 hears nothing. *)
Example link_race_loses_peer :
  exists n w p0 p2, lreach n w /\ w_procs w !! 0%nat = Some p0 /\ w_procs w !! 2%nat = Some p2 /\
    p_pc p0 = LGone /\ p_exit p0 = (1, XTC_DOWN_KIND_EXIT) /\ p_links p2 = [0%nat] /\ p_alive p2 = true /\ p_kill p2 = 0 /\ mb_sent (p_mb p2).1 = [].
Proof.
  eexists _, _, _, _. split; [split|].
  { unfold world0. lnext (ls_spawn_out _ 0%nat 4 0). lnext (ls_spawn_out _ 1%nat 4 0). lnext (ls_spawn_out _ 2%nat 4 0).
    eapply nsteps_l; [eapply ls_link_step, (ls_link _ 0%nat _ 1%nat); [split; reflexivity|lknown|reflexivity]|]; lnorm.
    lnext (ls_link_read _ 0%nat).
    eapply nsteps_l; [eapply ls_link_step, (ls_link _ 2%nat _ 0%nat); [split; reflexivity|lknown|reflexivity]|]; lnorm.
    lnext (ls_link_read _ 2%nat). lnext (ls_link_write _ 2%nat). lnext (ls_link_peer _ 2%nat).
    lnext (ls_link_write _ 0%nat). lnext (ls_link_peer _ 0%nat).
    lnext (ls_exit_self _ 0%nat _ 1). lnext (ls_detach _ 0%nat).
    lnext (ts_found _ 0%nat). eapply nsteps_l; [eapply ls_notify_step, ls_tell, (ts_killed _ 0%nat); split; reflexivity|]; lnorm.
    lnext (ls_links_done _ 0%nat). lnext (ls_downs_done _ 0%nat). lnext (ls_gone _ 0%nat). lend. }
  { vm_compute. reflexivity. }
  split_and!; reflexivity.
Qed.

(** [xtc_unlink] takes only the caller's entry: after it, the other's death
    still kills the caller. *)
Example unlink_one_sided :
  exists n w p0 p1, lreach n w /\ w_procs w !! 0%nat = Some p0 /\ w_procs w !! 1%nat = Some p1 /\
    p_links p0 = [] /\ p_alive p0 = true /\ p_exit p1 = (1, XTC_DOWN_KIND_EXIT) /\ p_kill p0 = 2.
Proof.
  eexists _, _, _, _. split; [split|].
  { unfold world0. lnext (ls_spawn_out _ 0%nat 4 0). lnext (ls_spawn_out _ 1%nat 4 0).
    eapply nsteps_l; [eapply ls_link_step, (ls_link _ 0%nat _ 1%nat); [split; reflexivity|lknown|reflexivity]|]; lnorm.
    lnext (ls_link_read _ 0%nat). lnext (ls_link_write _ 0%nat). lnext (ls_link_peer _ 0%nat).
    eapply nsteps_l; [eapply ls_link_step, (ls_unlink _ 0%nat _ 1%nat); [split; reflexivity|apply list_elem_of_singleton; reflexivity]|]; lnorm.
    lnext (ls_unlink_write _ 0%nat).
    lnext (ls_exit_self _ 1%nat _ 1). lnext (ls_detach _ 1%nat).
    lnext (ts_found _ 1%nat). eapply nsteps_l; [eapply ls_notify_step, ls_tell, (ts_killed _ 1%nat); split; reflexivity|]; lnorm. lend. }
  { vm_compute. reflexivity. }
  split_and!; reflexivity.
Qed.

(** The reason -1 has no code: a kill with it is no kill, and an exit with it
    is reported as a normal one. *)
Example minus_one_is_normal : kill_code (-1) = 0 /\ jump_reason (-1) = 0 /\ kind_of (jump_reason (-1)) = XTC_DOWN_KIND_CLEAN.
Proof. vm_compute. done. Qed.

(** ** Example runs *)

Lemma monitor_one_down_witness :
  exists n w pw pt, lreach n w /\ cnt 1 (owed pt).*1 + cnt 1 (down_refs pw) + cnt 1 (w_lost w).*1 = 1.
Proof.
  destruct links_demo as (n & w & pw & pt & Hr & Hi & _).
  destruct (monitor_one_down n w 1 0%nat 1%nat Hr Hi) as (pw' & pt' & _ & _ & H & _). exists n, w, pw', pt'. split; [exact Hr|exact H].
Defined.

Lemma monitor_entries_counted_witness :
  exists n w, lreach n w /\ forall r e, w_mons w !! r = Some e -> 1 <= me_refs e <= 2.
Proof.
  destruct links_demo as (n & w & pw & pt & Hr & _). exists n, w. split; [exact Hr|].
  intros r e He. exact (proj1 (proj2 (monitor_entries_counted n w Hr) r e He)).
Defined.

Lemma monitor_sweep_cost_witness :
  exists n w p, lreach n w /\ w_procs w !! 0%nat = Some p /\ wl_visits (p_watch p) <= 2 * wl_pushes (p_watch p).
Proof.
  destruct links_demo as (n & w & pw & pt & Hr & _ & Hp & _). exists n, w, pw. split; [exact Hr|]. split; [exact Hp|].
  exact (proj1 (monitor_sweep_cost n w 0%nat pw Hr Hp)).
Defined.

(** Process 0, which is linked to 1, exits with code 1. *)
Lemma links_exit_demo :
  exists m w1 pd n w p, lreach m w1 /\ runs w1 0%nat LRun pd /\ p_alive pd = false /\ nsteps lstep n (at_ w1 0%nat proc_detach) w /\
    Z.of_nat (S m + n) < 2 ^ 64 /\ w_procs w !! 0%nat = Some p /\ untold (p_pc p) = [] /\ p_links pd = [1%nat].
Proof.
  eexists _, _, _, _, _, _. split; [split|].
  { unfold world0. lnext (ls_spawn_out _ 0%nat 4 0). lnext (ls_spawn_out _ 1%nat 4 0).
    eapply nsteps_l; [eapply ls_link_step, (ls_link _ 0%nat _ 1%nat); [split; reflexivity|lknown|reflexivity]|]; lnorm.
    lnext (ls_link_read _ 0%nat). lnext (ls_link_write _ 0%nat). lnext (ls_link_peer _ 0%nat).
    lnext (ls_exit_self _ 0%nat _ 1). lend. }
  { vm_compute. reflexivity. }
  split; [split; reflexivity|]. split; [reflexivity|]. split.
  { lnorm. lnext (ts_found _ 0%nat). eapply nsteps_l; [eapply ls_notify_step, ls_tell, (ts_killed _ 0%nat); split; reflexivity|]; lnorm.
    lnext (ls_links_done _ 0%nat). lend. }
  split_and!; vm_compute; reflexivity.
Qed.

Lemma exit_reaches_links_witness :
  exists w0 w o x, earlier w w0 /\ looks w0 0%nat 1%nat /\ settled w0 w 0%nat x 1%nat o.
Proof.
  destruct links_exit_demo as (m & w1 & pd & n & w & p & Hr & Hd & Ha & Hn & Hlt & Hp & Hu & Hl).
  destruct (exit_reaches_links m w1 0%nat pd n w p Hr Hd Ha Hn Hlt Hp Hu 1%nat) as (w0 & o & _ & H); [rewrite Hl; apply list_elem_of_singleton; reflexivity|].
  exists w0, w, o, (p_exit pd). exact H.
Defined.
