(* ===== verification/Reg.v ===== *)
(** * The registry and process groups (src/orc/reg.c, src/orc/pg.c)

    A chained hash table from names to pids under one mutex, which doubles when
    it holds as many entries as buckets.  A name has at most one ordinary entry
    and any number of members of a group.  Abstractly the registry is a finite
    set of (name, pid, is-a-member) triples: [reg_refines_set].  Groups are
    sets of pids to which a message is sent one by one.

    The reaper is a process that monitors what [xtc_reg_register_mon] asks it
    to and drops a pid from every name when its DOWN comes; its interleaving
    with registrations, deaths and refused memory is at the end. *)

From S2P Require Import Prelude Wire.

Local Open Scope Z_scope.

(** ** The table *)

(** A name: its bytes before the terminating NUL. *)
Abbreviation name := (list Z).

Definition REG_NBUCKETS0 : Z := 256.
Definition UINT32_MAX : Z := 2 ^ 32 - 1.

Record reg_node : Type := mk_node { rn_hash : Z; rn_pid : xtc_pid; rn_name : name; rn_dup : bool }.

(** [rg_n] is an [int] in the code: fewer than 2^31 entries. *)
Record xtc_reg : Type := mk_reg {
  rg_buckets : list (list reg_node);
  rg_nbuckets : Z;
  rg_n : Z;
  rg_has_reaper : bool;
  rg_reaper : xtc_pid;
}.

Definition with_table (r : xtc_reg) (b : list (list reg_node)) (nb n : Z) : xtc_reg := mk_reg b nb n (rg_has_reaper r) (rg_reaper r).

Definition __reg_hash (s : name) : Z := foldl (fun h b => u32 (Z.lxor h (u8 b) * 16777619)) 2166136261 s.

Definition reg0 : xtc_reg := mk_reg (replicate (Z.to_nat REG_NBUCKETS0) []) REG_NBUCKETS0 0 false XTC_PID_NONE.

(** [mem1], [mem2]: whether each of the two allocations succeeds. *)
Definition xtc_reg_create (mem1 mem2 : bool) : option xtc_reg := if mem1 && mem2 then Some reg0 else None.

(** The index of a bucket, and the chain there. *)
Definition slot (nb h : Z) : nat := Z.to_nat (Z.land h (nb - 1)).
Definition __reg_bucket (r : xtc_reg) (h : Z) : list reg_node := rg_buckets r !!! slot (rg_nbuckets r) h.

(** Every node, bucket by bucket, goes to the head of its new chain. *)
Definition rehash_one (nn : Z) (nb : list (list reg_node)) (e : reg_node) : list (list reg_node) :=
  alter (cons e) (slot nn (rn_hash e)) nb.
Definition rehash (nn : Z) (old : list (list reg_node)) : list (list reg_node) :=
  foldl (foldl (rehash_one nn)) (replicate (Z.to_nat nn) []) old.

Definition grow (r : xtc_reg) (mem : bool) : xtc_reg :=
  if bool_decide (rg_nbuckets r <= u32 (rg_n r)) && bool_decide (rg_nbuckets r <= UINT32_MAX / 2) && mem
  then with_table r (rehash (rg_nbuckets r * 2) (rg_buckets r)) (rg_nbuckets r * 2) (rg_n r)
  else r.

Definition __reg_insert_locked (r : xtc_reg) (node : reg_node) (mem : bool) : xtc_reg :=
  let r := grow r mem in
  with_table r (alter (cons node) (slot (rg_nbuckets r) (rn_hash node)) (rg_buckets r)) (rg_nbuckets r) (rg_n r + 1).

(** The test a walk of a chain makes: the cached hash first. *)
Definition named (h : Z) (s : name) (e : reg_node) : bool := bool_decide (rn_hash e = h) && bool_decide (rn_name e = s).

Definition __reg_find_locked (r : xtc_reg) (s : name) (h : Z) : option reg_node :=
  snd <$> list_find (named h s) (__reg_bucket r h).

Definition xtc_reg_register (r : xtc_reg) (s : name) (pid : xtc_pid) (mem1 mem2 memg : bool) : rc * xtc_reg :=
  let h := __reg_hash s in
  match __reg_find_locked r s h with
  | Some _ => (XTC_E_INVAL, r)
  | None =>
      if mem1 && mem2 then (XTC_OK, __reg_insert_locked r (mk_node h pid s false) memg)
      else (XTC_E_NOMEM, r)
  end.

(** Unlinking the first node of a chain that satisfies a test. *)
Fixpoint unlink_first (f : reg_node -> bool) (l : list reg_node) : option (reg_node * list reg_node) :=
  match l with
  | [] => None
  | e :: l =>
      if f e then Some (e, l)
      else match unlink_first f l with Some (x, l') => Some (x, e :: l') | None => None end
  end.

Definition unlink_node (r : xtc_reg) (h : Z) (f : reg_node -> bool) : rc * xtc_reg :=
  match unlink_first f (__reg_bucket r h) with
  | Some (_, l) => (XTC_OK, with_table r (<[slot (rg_nbuckets r) h := l]> (rg_buckets r)) (rg_nbuckets r) (rg_n r - 1))
  | None => (XTC_E_INVAL, r)
  end.

Definition xtc_reg_unregister (r : xtc_reg) (s : name) : rc * xtc_reg := unlink_node r (__reg_hash s) (named (__reg_hash s) s).

(** [miss]: the fault injector's transient miss. *)
Definition xtc_reg_whereis (r : xtc_reg) (s : name) (miss : bool) : option xtc_pid :=
  if miss then None else rn_pid <$> __reg_find_locked r s (__reg_hash s).

Definition xtc_reg_count (r : xtc_reg) : Z := rg_n r.

Definition is_member (h : Z) (s : name) (pid : xtc_pid) (e : reg_node) : bool :=
  named h s e && rn_dup e && xtc_pid_eq (rn_pid e) pid.

Definition xtc_reg_register_dup (r : xtc_reg) (key : name) (pid : xtc_pid) (mem1 mem2 memg : bool) : rc * xtc_reg :=
  let h := __reg_hash key in
  if existsb (is_member h key pid) (__reg_bucket r h) then (XTC_OK, r)
  else if mem1 && mem2 then (XTC_OK, __reg_insert_locked r (mk_node h pid key true) memg)
  else (XTC_E_NOMEM, r).

Definition xtc_reg_unregister_pid (r : xtc_reg) (key : name) (pid : xtc_pid) : rc * xtc_reg :=
  unlink_node r (__reg_hash key) (fun e => named (__reg_hash key) key e && xtc_pid_eq (rn_pid e) pid).

(** The walk of all chains that unlinks the nodes of a pid and counts them. *)
Fixpoint drop_chain (pid : xtc_pid) (l : list reg_node) : Z * list reg_node :=
  match l with
  | [] => (0, [])
  | e :: l =>
      let '(k, l') := drop_chain pid l in
      if xtc_pid_eq (rn_pid e) pid then (k + 1, l') else (k, e :: l')
  end.

Fixpoint drop_buckets (pid : xtc_pid) (b : list (list reg_node)) : Z * list (list reg_node) :=
  match b with
  | [] => (0, [])
  | l :: b =>
      let '(k, l') := drop_chain pid l in
      let '(k', b') := drop_buckets pid b in (k + k', l' :: b')
  end.

Definition xtc_reg_drop_pid (r : xtc_reg) (pid : xtc_pid) : Z * xtc_reg :=
  let '(removed, b) := drop_buckets pid (rg_buckets r) in
  (removed, with_table r b (rg_nbuckets r) (rg_n r - removed)).

(** The walk of a key: the callback [fn] changes [S] and may stop it. *)
Section Members.
Context {S : Type} (fn : xtc_pid -> S -> bool * S).

Fixpoint walk_members (h : Z) (s : name) (l : list reg_node) (st : S) : Z * S :=
  match l with
  | [] => (0, st)
  | e :: l =>
      if named h s e then
        let '(stop, st) := fn (rn_pid e) st in
        if stop then (1, st) else let '(n, st) := walk_members h s l st in (1 + n, st)
      else walk_members h s l st
  end.

Definition xtc_reg_members (r : xtc_reg) (key : name) (st : S) : Z * S :=
  walk_members (__reg_hash key) key (__reg_bucket r (__reg_hash key)) st.
End Members.

(** ** Groups *)

Definition xtc_pg_join := xtc_reg_register_dup.
Definition xtc_pg_leave := xtc_reg_unregister_pid.
Definition xtc_pg_members {S} (fn : xtc_pid -> S -> bool * S) := xtc_reg_members fn.

(** The pids collected under the lock; [pc_mem]: what becomes of the next
    reallocations. *)
Record pg_collect : Type := mk_collect { pc_pids : list xtc_pid; pc_cap : Z; pc_oom : bool; pc_mem : list bool }.

Definition pg_collect_cb (pid : xtc_pid) (c : pg_collect) : bool * pg_collect :=
  if decide (Z.of_nat (length (pc_pids c)) = pc_cap c) then
    let ncap := if decide (pc_cap c = 0) then 8 else pc_cap c * 2 in
    match pc_mem c with
    | false :: mem => (true, mk_collect (pc_pids c) (pc_cap c) true mem)
    | mem => (false, mk_collect (pc_pids c ++ [pid]) ncap (pc_oom c) (tail mem))
    end
  else (false, mk_collect (pc_pids c ++ [pid]) (pc_cap c) (pc_oom c) (pc_mem c)).

(** The sends, which do what they will to the world [W]. *)
Section Groups.
Context {W : Type} (xtc_send xtc_send_owned : xtc_pid -> W -> rc * W).

(** The sends one by one: the last one moves an owned buffer.  The result: how
    many were taken, whether the buffer was, the world. *)
Fixpoint send_all (owned : bool) (l : list xtc_pid) (w : W) : Z * bool * W :=
  match l with
  | [] => (0, false, w)
  | p :: l =>
      if owned && bool_decide (l = []) then
        let '(c, w) := xtc_send_owned p w in
        if decide (c = XTC_OK) then (1, true, w) else (0, false, w)
      else
        let '(c, w) := xtc_send p w in
        let '(n, taken, w) := send_all owned l w in
        ((if decide (c = XTC_OK) then 1 else 0) + n, taken, w)
  end.

Definition pg_send (r : xtc_reg) (group : name) (owned : bool) (mem : list bool) (w : W) : Z * bool * W :=
  let c := (xtc_reg_members pg_collect_cb r group (mk_collect [] 0 false mem)).2 in
  send_all owned (pc_pids c) w.

Definition xtc_pg_send (r : xtc_reg) (group : name) (mem : list bool) (w : W) : Z * W :=
  let '(sent, _, w) := pg_send r group false mem w in (sent, w).

(** The second component: whether the buffer is freed here. *)
Definition xtc_pg_send_owned (r : xtc_reg) (group : name) (mem : list bool) (w : W) : Z * bool * W :=
  let '(sent, taken, w) := pg_send r group true mem w in (sent, negb taken, w).
End Groups.

(** ** The table as a set of entries *)

Abbreviation entry := (name * xtc_pid * bool)%type.

Definition triple (e : reg_node) : entry := (rn_name e, rn_pid e, rn_dup e).
Definition entries (r : xtc_reg) : list entry := triple <$> concat (rg_buckets r).
Definition abs (r : xtc_reg) : gset entry := list_to_set (entries r).

(** Nodes are where their name's hash says. *)
Definition placed (nb : Z) (b : list (list reg_node)) : Prop :=
  forall i l e, b !! i = Some l -> e ∈ l -> rn_hash e = __reg_hash (rn_name e) /\ i = slot nb (rn_hash e).

Record reg_ok (r : xtc_reg) : Prop := mk_reg_ok {
  ro_size : exists k, 8 <= k <= 31 /\ rg_nbuckets r = 2 ^ k;
  ro_len : length (rg_buckets r) = Z.to_nat (rg_nbuckets r);
  ro_placed : placed (rg_nbuckets r) (rg_buckets r);
  ro_n : rg_n r = Z.of_nat (length (concat (rg_buckets r)));
  ro_nodup : NoDup (entries r);
  ro_one : forall s p p', (s, p, false) ∈ entries r -> (s, p', false) ∈ entries r -> p = p';
}.

(** *** Buckets *)

Lemma reg_slot_lt k nb h : 0 <= k -> nb = 2 ^ k -> (slot nb h < Z.to_nat nb)%nat.
Proof.
  intros Hk ->. unfold slot. rewrite land_pow2_mask by lia.
  pose proof (Z.mod_pos_bound h (2 ^ k)). lia.
Qed.

Lemma placed_alter nb b e :
  placed nb b -> rn_hash e = __reg_hash (rn_name e) -> placed nb (alter (cons e) (slot nb (rn_hash e)) b).
Proof.
  intros Hp He i l x Hi Hx. rewrite list_lookup_alter in Hi.
  destruct (decide (slot nb (rn_hash e) = i)) as [<-|Hne]; [|by eauto].
  destruct (b !! slot nb (rn_hash e)) as [l0|] eqn:Hl; simplify_eq/=.
  apply elem_of_cons in Hx as [->|Hx]; [done|]. by eapply Hp.
Qed.

Lemma foldl_concat {A B} (f : B -> A -> B) (ls : list (list A)) b : foldl (foldl f) b ls = foldl f b (concat ls).
Proof. revert b. induction ls as [|l ls IH]; intros b; simpl; [done|]. by rewrite IH, foldl_app. Qed.

Lemma rehash_fold k nn l acc :
  0 <= k -> nn = 2 ^ k -> length acc = Z.to_nat nn -> placed nn acc ->
  Forall (fun e => rn_hash e = __reg_hash (rn_name e)) l ->
  length (foldl (rehash_one nn) acc l) = Z.to_nat nn /\ placed nn (foldl (rehash_one nn) acc l) /\
  concat (foldl (rehash_one nn) acc l) ≡ₚ l ++ concat acc.
Proof.
  intros Hk Hnn. revert acc. induction l as [|e l IH]; intros acc Hl Hp Hh; [done|].
  apply Forall_cons in Hh as [He Hh]. simpl foldl. destruct (IH (rehash_one nn acc e)) as (H1 & H2 & H3); [|by apply placed_alter|done|].
  { unfold rehash_one. by rewrite length_alter. }
  split_and!; [done..|]. rewrite H3. unfold rehash_one. rewrite concat_alter_cons by (rewrite Hl; by eapply reg_slot_lt).
  by rewrite <- Permutation_middle.
Qed.

Lemma placed_empty nb n : placed nb (replicate n []).
Proof. intros i l e [-> _]%lookup_replicate He. by apply elem_of_nil in He. Qed.

Lemma concat_empty n : concat (replicate n ([] : list reg_node)) = [].
Proof. induction n; simpl; done. Qed.

Lemma placed_hashes nb b : placed nb b -> Forall (fun e => rn_hash e = __reg_hash (rn_name e)) (concat b).
Proof. intros Hp. apply Forall_forall. intros e (i & l & Hi & He)%elem_of_concat_at. by eapply Hp. Qed.

(** The table changes its shape, not its entries. *)
Lemma reg_ok_reshape r b nb :
  reg_ok r -> (exists k, 8 <= k <= 31 /\ nb = 2 ^ k) -> length b = Z.to_nat nb -> placed nb b ->
  concat b ≡ₚ concat (rg_buckets r) ->
  reg_ok (with_table r b nb (rg_n r)) /\ entries (with_table r b nb (rg_n r)) ≡ₚ entries r.
Proof.
  intros H Hk Hl Hp Hc. assert (entries (with_table r b nb (rg_n r)) ≡ₚ entries r) as He.
  { unfold entries. simpl. by rewrite Hc. }
  split; [|done]. split; simpl; try done.
  - rewrite (ro_n r H). by rewrite Hc.
  - rewrite He. apply H.
  - intros s p p'. rewrite !He. apply H.
Qed.

Lemma grow_ok r mem :
  reg_ok r -> reg_ok (grow r mem) /\ entries (grow r mem) ≡ₚ entries r /\ rg_n (grow r mem) = rg_n r.
Proof.
  intros H. unfold grow. destruct (_ && _ && _) eqn:E; [|done]. rewrite !andb_true_iff, !bool_decide_eq_true in E.
  destruct E as [[_ Hb] _], (ro_size r H) as (k & Hk & Hn).
  assert (rg_nbuckets r * 2 = 2 ^ (k + 1)) as Hn' by (rewrite Hn, Z.pow_add_r by lia; lia).
  assert (k <= 30) as Hk'.
  { destruct (decide (k = 31)) as [->|]; [|lia]. rewrite Hn in Hb. vm_compute in Hb. done. }
  unfold rehash. rewrite foldl_concat.
  edestruct (rehash_fold (k + 1) (rg_nbuckets r * 2) (concat (rg_buckets r)) (replicate (Z.to_nat (rg_nbuckets r * 2)) []))
    as (H1 & H2 & H3); [lia|done|by rewrite length_replicate|apply placed_empty|by eapply placed_hashes, ro_placed|].
  rewrite concat_empty, app_nil_r in H3. destruct (reg_ok_reshape r _ _ H ltac:(exists (k + 1); split; [lia|exact Hn']) H1 H2 H3).
  done.
Qed.

Lemma insert_locked_ok r e mem :
  reg_ok r -> rn_hash e = __reg_hash (rn_name e) -> triple e ∉ entries r ->
  (rn_dup e = false -> forall p, (rn_name e, p, false) ∉ entries r) ->
  reg_ok (__reg_insert_locked r e mem) /\ entries (__reg_insert_locked r e mem) ≡ₚ triple e :: entries r.
Proof.
  intros H Hh Hn Hd. destruct (grow_ok r mem H) as (Hg & He & _). unfold __reg_insert_locked.
  generalize dependent (grow r mem). intros r' Hg He. destruct (ro_size r' Hg) as (k & Hk & Hnb).
  pose proof (concat_alter_cons (rg_buckets r') (slot (rg_nbuckets r') (rn_hash e)) e
    ltac:(rewrite (ro_len r' Hg); eapply reg_slot_lt, Hnb; lia)) as Hc.
  assert (entries (with_table r' (alter (cons e) (slot (rg_nbuckets r') (rn_hash e)) (rg_buckets r')) (rg_nbuckets r') (rg_n r' + 1))
          ≡ₚ triple e :: entries r) as He'.
  { rewrite <- He. unfold entries at 1. simpl. by rewrite Hc. }
  split; [|done]. split; simpl; try rewrite He'.
  - eauto.
  - rewrite length_alter. apply Hg.
  - by apply placed_alter; [apply Hg|].
  - rewrite (ro_n r' Hg), Hc. simpl. lia.
  - constructor; [done|]. apply H.
  - intros s p p'. rewrite !He', !elem_of_cons. unfold triple. intros [H1|H1] [H2|H2]; [congruence| | |by eapply (ro_one r H)].
    + destruct (Hd ltac:(congruence) p'). congruence.
    + destruct (Hd ltac:(congruence) p). congruence.
Qed.

(** *** Chains *)

Lemma in_bucket r s e :
  reg_ok r -> e ∈ __reg_bucket r (__reg_hash s) /\ named (__reg_hash s) s e = true <->
              e ∈ concat (rg_buckets r) /\ rn_name e = s.
Proof.
  intros H. destruct (ro_size r H) as (k & Hk & Hnb).
  destruct (lookup_lt_is_Some_2 (rg_buckets r) (slot (rg_nbuckets r) (__reg_hash s))) as [l Hl].
  { rewrite (ro_len r H). eapply reg_slot_lt, Hnb. lia. }
  assert (__reg_bucket r (__reg_hash s) = l) as -> by (unfold __reg_bucket; by apply list_lookup_total_correct).
  unfold named. rewrite andb_true_iff, !bool_decide_eq_true, elem_of_concat_at. split.
  - intros (He & _ & Hs). eauto.
  - intros ((i & l' & Hi & He) & Hs). destruct (ro_placed r H i l' e Hi He) as [Hh ->].
    rewrite Hh, Hs in Hi. simplify_eq. done.
Qed.

Lemma elem_of_entries r s p d :
  (s, p, d) ∈ entries r <-> exists e, e ∈ concat (rg_buckets r) /\ triple e = (s, p, d).
Proof. unfold entries. rewrite list_elem_of_fmap. split; intros (e & ? & ?); exists e; auto. Qed.

Lemma find_some r s e :
  reg_ok r -> __reg_find_locked r s (__reg_hash s) = Some e -> (s, rn_pid e, rn_dup e) ∈ entries r.
Proof.
  intros H. unfold __reg_find_locked. destruct (list_find _ _) as [[i x]|] eqn:E; [|done]. intros [= <-].
  apply list_find_Some in E as (Hi & Hx & _). apply list_elem_of_lookup_2 in Hi. apply Is_true_true in Hx.
  destruct (proj1 (in_bucket r s x H) (conj Hi Hx)) as [Hx' Hs]. apply elem_of_entries. exists x. unfold triple. by rewrite Hs.
Qed.

Lemma find_none r s p d :
  reg_ok r -> __reg_find_locked r s (__reg_hash s) = None -> (s, p, d) ∉ entries r.
Proof.
  intros H. unfold __reg_find_locked. destruct (list_find _ _) as [[i x]|] eqn:E; [done|]. intros _ (e & He & [= Hs _ _])%elem_of_entries.
  apply list_find_None in E. destruct (proj2 (in_bucket r s e H) (conj He Hs)) as [Hb Hn].
  rewrite Forall_forall in E. apply (E e Hb). by rewrite Hn.
Qed.

Lemma unlink_first_some f l e l' : unlink_first f l = Some (e, l') -> f e = true /\ l ≡ₚ e :: l'.
Proof.
  revert l'. induction l as [|x l IH]; intros l'; simpl; [done|]. destruct (f x) eqn:Hx; [by intros [= <- <-]|].
  destruct (unlink_first f l) as [[y l0]|]; [|done]. intros [= <- <-]. destruct (IH l0 eq_refl) as [Hf ->].
  split; [done|]. apply Permutation_swap.
Qed.

Lemma unlink_first_none f l e : unlink_first f l = None -> e ∈ l -> f e = false.
Proof.
  induction l as [|x l IH]; simpl; [by intros _ ?%elem_of_nil|]. destruct (f x) eqn:Hx; [done|].
  destruct (unlink_first f l) as [[y l0]|]; [done|]. intros _ [->|He]%elem_of_cons; auto.
Qed.

Lemma placed_sub nb b i l l' :
  placed nb b -> b !! i = Some l -> (forall e, e ∈ l' -> e ∈ l) -> placed nb (<[i := l']> b).
Proof.
  intros Hp Hi Hsub j lj e Hj He. apply list_lookup_insert_Some in Hj as [(-> & -> & _)|[_ Hj]]; [|by eapply Hp].
  by eapply Hp, Hsub.
Qed.

Lemma bucket_lookup r h : reg_ok r -> rg_buckets r !! slot (rg_nbuckets r) h = Some (__reg_bucket r h).
Proof.
  intros H. destruct (ro_size r H) as (k & Hk & Hnb). unfold __reg_bucket. apply list_lookup_lookup_total_lt.
  rewrite (ro_len r H). eapply reg_slot_lt, Hnb. lia.
Qed.

(** A node leaves its chain. *)
Lemma unlink_some r s f e l :
  reg_ok r -> unlink_first f (__reg_bucket r (__reg_hash s)) = Some (e, l) ->
  let r' := with_table r (<[slot (rg_nbuckets r) (__reg_hash s) := l]> (rg_buckets r)) (rg_nbuckets r) (rg_n r - 1) in
  reg_ok r' /\ f e = true /\ e ∈ __reg_bucket r (__reg_hash s) /\ entries r ≡ₚ triple e :: entries r'.
Proof.
  intros H Hu r'. apply unlink_first_some in Hu as [Hf Hl].
  pose proof (bucket_lookup r (__reg_hash s) H) as Hb. pose proof (concat_insert _ _ _ _ _ Hb Hl) as Hc.
  assert (entries r ≡ₚ triple e :: entries r') as He by (unfold entries; by rewrite Hc).
  assert (forall x, x ∈ entries r' -> x ∈ entries r) as Hsub by (intros x Hx; rewrite He; by apply list_elem_of_further).
  split_and!; [|done|rewrite Hl; apply list_elem_of_here|done]. split.
  - apply H.
  - simpl. rewrite length_insert. apply H.
  - eapply placed_sub; [apply H|exact Hb|]. intros x Hx. rewrite Hl. by apply list_elem_of_further.
  - simpl. rewrite (ro_n r H), Hc. simpl. lia.
  - pose proof (ro_nodup r H) as Hn. rewrite He in Hn. by apply NoDup_cons in Hn as [_ ?].
  - intros t p p' H1 H2. eapply (ro_one r H); eauto.
Qed.

Lemma drop_chain_spec pid l :
  drop_chain pid l = (Z.of_nat (length (filter (fun e => rn_pid e = pid) l)), filter (fun e => rn_pid e <> pid) l).
Proof.
  induction l as [|e l IH]; [done|]. simpl. rewrite IH, xtc_pid_eq_spec, !filter_cons.
  destruct (decide (rn_pid e = pid)) as [Hp|Hp].
  - rewrite bool_decide_true, decide_False by (done || tauto). f_equal. simpl. lia.
  - by rewrite bool_decide_false, decide_True by done.
Qed.

Lemma drop_buckets_spec pid b :
  drop_buckets pid b =
    (Z.of_nat (length (filter (fun e => rn_pid e = pid) (concat b))), filter (fun e => rn_pid e <> pid) <$> b).
Proof.
  induction b as [|l b IH]; [done|]. simpl. rewrite drop_chain_spec, IH, filter_app, length_app. f_equal. lia.
Qed.

Lemma concat_filter (P : reg_node -> Prop) `{!forall x, Decision (P x)} b : concat (filter P <$> b) = filter P (concat b).
Proof.
  induction b as [|l b IH]; [done|]. change (filter P l ++ concat (filter P <$> b) = filter P (l ++ concat b)).
  by rewrite IH, filter_app.
Qed.

Lemma filter_length_split (P : reg_node -> Prop) `{!forall x, Decision (P x)} l :
  length l = (length (filter P l) + length (filter (fun x => ~ P x) l))%nat.
Proof. induction l as [|x l IH]; [done|]. rewrite !filter_cons. repeat case_decide; simpl; tauto || lia. Qed.

Lemma fmap_triple_filter (P : entry -> Prop) (Q : reg_node -> Prop) `{!forall x, Decision (P x), !forall x, Decision (Q x)} (l : list reg_node) :
  (forall e, Q e <-> P (triple e)) -> triple <$> filter Q l = filter P (triple <$> l).
Proof.
  intros HPQ. induction l as [|e l IH]; [done|]. rewrite fmap_cons, !filter_cons.
  destruct (decide (Q e)) as [Hq|Hq]; [rewrite decide_True by (by apply HPQ)|rewrite decide_False by (by rewrite <- HPQ)]; by rewrite ?fmap_cons, IH.
Qed.

Lemma drop_pid_ok r pid :
  reg_ok r ->
  reg_ok (xtc_reg_drop_pid r pid).2 /\
  entries (xtc_reg_drop_pid r pid).2 = filter (fun x => x.1.2 <> pid) (entries r) /\
  (xtc_reg_drop_pid r pid).1 = Z.of_nat (length (filter (fun x => x.1.2 = pid) (entries r))).
Proof.
  intros H. unfold xtc_reg_drop_pid. rewrite drop_buckets_spec. simpl.
  assert (entries (with_table r (filter (fun e => rn_pid e <> pid) <$> rg_buckets r) (rg_nbuckets r)
            (rg_n r - Z.of_nat (length (filter (fun e => rn_pid e = pid) (concat (rg_buckets r)))))) =
          filter (fun x => x.1.2 <> pid) (entries r)) as He.
  { unfold entries. simpl. rewrite concat_filter. by apply fmap_triple_filter. }
  split_and!; [|done|].
  2: { unfold entries. rewrite <- (fmap_triple_filter _ (fun e => rn_pid e = pid)) by done. by rewrite length_fmap. }
  split; try rewrite He.
  - apply H.
  - simpl. rewrite length_fmap. apply H.
  - intros i l e Hi He'. simpl in Hi. rewrite list_lookup_fmap in Hi.
    destruct (rg_buckets r !! i) as [l0|] eqn:Hl; simplify_eq/=.
    apply list_elem_of_filter in He' as [_ He']. by eapply (ro_placed r H).
  - simpl. rewrite concat_filter, (ro_n r H). rewrite (filter_length_split (fun e => rn_pid e = pid) (concat _)) at 1. lia.
  - apply NoDup_filter, H.
  - intros s p p' [_ H1]%list_elem_of_filter [_ H2]%list_elem_of_filter. by eapply (ro_one r H).
Qed.

(** *** Members *)

(** The nodes of a name, in the order of their chain. *)
Definition chain (r : xtc_reg) (s : name) : list reg_node :=
  filter (fun e => named (__reg_hash s) s e = true) (__reg_bucket r (__reg_hash s)).
Definition members (r : xtc_reg) (s : name) : list xtc_pid := rn_pid <$> chain r s.

Lemma walk_members_all {S} (fn : xtc_pid -> S -> bool * S) h s l st :
  (forall p st, (fn p st).1 = false) ->
  walk_members fn h s l st =
    (Z.of_nat (length (filter (fun e => named h s e = true) l)),
     foldl (fun st p => (fn p st).2) st (rn_pid <$> filter (fun e => named h s e = true) l)).
Proof.
  intros Hfn. revert st. induction l as [|e l IH]; intros st; [done|]. simpl. rewrite filter_cons.
  destruct (named h s e) eqn:Hn.
  - rewrite decide_True by done. pose proof (Hfn (rn_pid e) st) as Hs. destruct (fn (rn_pid e) st) as [b st'] eqn:E. simpl in Hs. subst b.
    rewrite IH. simpl. rewrite E. simpl. f_equal. lia.
  - rewrite decide_False by done. apply IH.
Qed.

Lemma NoDup_nodes r : reg_ok r -> NoDup (concat (rg_buckets r)).
Proof. intros H. eapply NoDup_fmap_1, (ro_nodup r H). Qed.

Lemma bucket_sub (b : list (list reg_node)) i l : b !! i = Some l -> l `sublist_of` concat b.
Proof.
  revert i. induction b as [|l0 b IH]; intros i Hi; [done|]. destruct i as [|i]; simplify_eq/=.
  - by apply sublist_inserts_r.
  - apply sublist_inserts_l. by eapply IH.
Qed.

Lemma NoDup_chain r s : reg_ok r -> NoDup (chain r s).
Proof.
  intros H. apply NoDup_filter. eapply sublist_NoDup; [|by eapply bucket_sub, bucket_lookup]. by apply NoDup_nodes.
Qed.

Lemma chain_entries r s : reg_ok r -> triple <$> chain r s ≡ₚ filter (fun x => x.1.1 = s) (entries r).
Proof.
  intros H. unfold entries. rewrite <- (fmap_triple_filter _ (fun e => rn_name e = s)) by done. apply fmap_Permutation.
  apply NoDup_Permutation; [by apply NoDup_chain|by apply NoDup_filter, NoDup_nodes|].
  intros e. unfold chain. rewrite !list_elem_of_filter. rewrite (and_comm _ (e ∈ _)), in_bucket by done. tauto.
Qed.

(** ** The registry refines a set of entries *)

(** Calls, with what becomes of the allocations they may make. *)
Inductive reg_op : Type :=
  | ORegister (s : name) (p : xtc_pid) (mem1 mem2 memg : bool)
  | OUnregister (s : name)
  | OWhereis (s : name) (miss : bool)
  | OCount
  | ORegisterDup (s : name) (p : xtc_pid) (mem1 mem2 memg : bool)
  | OUnregisterPid (s : name) (p : xtc_pid)
  | ODropPid (p : xtc_pid)
  | OMembers (s : name).

Inductive reg_res : Type := RCode (c : rc) | RPid (p : option xtc_pid) | RNum (n : Z) | RPids (n : Z) (l : list xtc_pid).

Definition visit (p : xtc_pid) (l : list xtc_pid) : bool * list xtc_pid := (false, l ++ [p]).

Definition reg_call (r : xtc_reg) (o : reg_op) : reg_res * xtc_reg :=
  match o with
  | ORegister s p m1 m2 mg => let x := xtc_reg_register r s p m1 m2 mg in (RCode x.1, x.2)
  | OUnregister s => let x := xtc_reg_unregister r s in (RCode x.1, x.2)
  | OWhereis s miss => (RPid (xtc_reg_whereis r s miss), r)
  | OCount => (RNum (xtc_reg_count r), r)
  | ORegisterDup s p m1 m2 mg => let x := xtc_reg_register_dup r s p m1 m2 mg in (RCode x.1, x.2)
  | OUnregisterPid s p => let x := xtc_reg_unregister_pid r s p in (RCode x.1, x.2)
  | ODropPid p => let x := xtc_reg_drop_pid r p in (RNum x.1, x.2)
  | OMembers s => let x := xtc_reg_members visit r s [] in (RPids x.1 x.2, r)
  end.

Definition free_name (X : gset entry) (s : name) : Prop := forall p d, (s, p, d) ∉ X.

(** What the calls promise about the set of entries.  Where the documents
    disagree the specification allows either: a name taken by another pid is
    refused (xtc_reg.h) or bound anew (xtc_reg.3); a leave by a pid that the
    name is registered to, but that is no member, takes the registration or is
    refused (xtc_pg.3).  A lookup may miss under fault injection. *)
Inductive reg_spec (X : gset entry) : reg_op -> reg_res -> gset entry -> Prop :=
  | sp_register s p m1 m2 mg :
      free_name X s -> m1 && m2 = true -> reg_spec X (ORegister s p m1 m2 mg) (RCode XTC_OK) ({[(s, p, false)]} ∪ X)
  | sp_register_nomem s p m1 m2 mg :
      free_name X s -> m1 && m2 = false -> reg_spec X (ORegister s p m1 m2 mg) (RCode XTC_E_NOMEM) X
  | sp_register_taken s p m1 m2 mg p' d :
      (s, p', d) ∈ X -> reg_spec X (ORegister s p m1 m2 mg) (RCode XTC_E_INVAL) X
  | sp_register_rebinds s p m1 m2 mg p' :
      (s, p', false) ∈ X -> p <> p' ->
      reg_spec X (ORegister s p m1 m2 mg) (RCode XTC_OK) ({[(s, p, false)]} ∪ (X ∖ {[(s, p', false)]}))
  | sp_unregister s p d : (s, p, d) ∈ X -> reg_spec X (OUnregister s) (RCode XTC_OK) (X ∖ {[(s, p, d)]})
  | sp_unregister_none s : free_name X s -> reg_spec X (OUnregister s) (RCode XTC_E_INVAL) X
  | sp_whereis s p d : (s, p, d) ∈ X -> reg_spec X (OWhereis s false) (RPid (Some p)) X
  | sp_whereis_none s : free_name X s -> reg_spec X (OWhereis s false) (RPid None) X
  | sp_whereis_miss s : reg_spec X (OWhereis s true) (RPid None) X
  | sp_count : reg_spec X OCount (RNum (Z.of_nat (size X))) X
  | sp_join s p m1 m2 mg :
      m1 && m2 = true \/ (s, p, true) ∈ X -> reg_spec X (ORegisterDup s p m1 m2 mg) (RCode XTC_OK) ({[(s, p, true)]} ∪ X)
  | sp_join_nomem s p m1 m2 mg :
      (s, p, true) ∉ X -> m1 && m2 = false -> reg_spec X (ORegisterDup s p m1 m2 mg) (RCode XTC_E_NOMEM) X
  | sp_leave s p d : (s, p, d) ∈ X -> reg_spec X (OUnregisterPid s p) (RCode XTC_OK) (X ∖ {[(s, p, d)]})
  | sp_leave_none s p : (forall d, (s, p, d) ∉ X) -> reg_spec X (OUnregisterPid s p) (RCode XTC_E_INVAL) X
  | sp_leave_refused s p : (s, p, true) ∉ X -> reg_spec X (OUnregisterPid s p) (RCode XTC_E_INVAL) X
  | sp_drop p :
      reg_spec X (ODropPid p) (RNum (Z.of_nat (size (filter (fun x => x.1.2 = p) X)))) (filter (fun x => x.1.2 <> p) X)
  | sp_members s l :
      l ≡ₚ (fun x => x.1.2) <$> elements (filter (fun x => x.1.1 = s) X) ->
      reg_spec X (OMembers s) (RPids (Z.of_nat (length l)) l) X.

Lemma elem_abs r x : x ∈ abs r <-> x ∈ entries r.
Proof. unfold abs. by rewrite elem_of_list_to_set. Qed.

Lemma abs_add r r' x : entries r' ≡ₚ x :: entries r -> abs r' = {[x]} ∪ abs r.
Proof. intros H. apply set_eq. intros y. by rewrite elem_of_union, elem_of_singleton, !elem_abs, H, elem_of_cons. Qed.

Lemma abs_remove r r' x : reg_ok r -> entries r ≡ₚ x :: entries r' -> abs r' = abs r ∖ {[x]}.
Proof.
  intros Hok H. pose proof (ro_nodup r Hok) as Hn. rewrite H in Hn. apply NoDup_cons in Hn as [Hx _].
  apply set_eq. intros y. rewrite elem_of_difference, elem_of_singleton, !elem_abs, H, elem_of_cons.
  split; [|tauto]. intros Hy. split; [tauto|]. by intros ->.
Qed.

Lemma size_filter_abs r (P : entry -> Prop) `{!forall x, Decision (P x)} :
  reg_ok r -> size (filter P (abs r)) = length (filter P (entries r)).
Proof.
  intros Hok. rewrite <- (size_list_to_set (C := gset entry)) by (apply NoDup_filter, Hok). f_equal. apply set_eq.
  intros x. by rewrite elem_of_filter, elem_of_list_to_set, list_elem_of_filter, elem_abs.
Qed.

Lemma free_abs r s : reg_ok r -> __reg_find_locked r s (__reg_hash s) = None -> free_name (abs r) s.
Proof. intros H Hf p d. rewrite elem_abs. by apply find_none. Qed.

Lemma register_refines r s p m1 m2 mg :
  reg_ok r -> reg_ok (xtc_reg_register r s p m1 m2 mg).2 /\
  reg_spec (abs r) (ORegister s p m1 m2 mg) (RCode (xtc_reg_register r s p m1 m2 mg).1) (abs (xtc_reg_register r s p m1 m2 mg).2).
Proof.
  intros H. unfold xtc_reg_register. destruct (__reg_find_locked _ _ _) as [e|] eqn:E.
  { split; [done|]. eapply sp_register_taken, elem_abs. by eapply find_some. }
  pose proof (free_abs r s H E) as Hf. destruct (m1 && m2) eqn:Hm; [|split; [done|by constructor]].
  edestruct (insert_locked_ok r (mk_node (__reg_hash s) p s false) mg H) as [H1 H2]; [done|..].
  { rewrite <- elem_abs. apply Hf. }
  { intros _ p'. rewrite <- elem_abs. apply Hf. }
  split; [done|]. simpl. rewrite (abs_add _ _ _ H2). by constructor.
Qed.

Lemma is_member_true h s p e : is_member h s p e = true <-> named h s e = true /\ rn_dup e = true /\ rn_pid e = p.
Proof. unfold is_member. rewrite !andb_true_iff, xtc_pid_eq_spec, bool_decide_eq_true. tauto. Qed.

Lemma join_refines r s p m1 m2 mg :
  reg_ok r -> reg_ok (xtc_reg_register_dup r s p m1 m2 mg).2 /\
  reg_spec (abs r) (ORegisterDup s p m1 m2 mg) (RCode (xtc_reg_register_dup r s p m1 m2 mg).1)
    (abs (xtc_reg_register_dup r s p m1 m2 mg).2).
Proof.
  intros H. unfold xtc_reg_register_dup.
  assert (existsb (is_member (__reg_hash s) s p) (__reg_bucket r (__reg_hash s)) = true <-> (s, p, true) ∈ entries r) as Hb.
  { rewrite existsb_exists, elem_of_entries. setoid_rewrite is_member_true. split.
    - intros (e & Hi%list_elem_of_In & Hn & Hd & Hp). destruct (proj1 (in_bucket r s e H) (conj Hi Hn)) as [He Hs].
      exists e. split; [done|]. unfold triple. congruence.
    - intros (e & He & [= Hs Hp Hd]). destruct (proj2 (in_bucket r s e H) (conj He Hs)) as [Hi Hn].
      exists e. by rewrite <- list_elem_of_In. }
  destruct (existsb _ _).
  { destruct Hb as [Hin _]. specialize (Hin eq_refl). split; [done|].
    assert ({[(s, p, true)]} ∪ abs r = abs r) as Heq by (apply set_eq; intros x; rewrite elem_of_union, elem_of_singleton, !elem_abs; naive_solver).
    simpl. rewrite <- Heq at 2. constructor. right. by apply elem_abs. }
  assert ((s, p, true) ∉ entries r) as Hno by (intros ?%Hb; done).
  destruct (m1 && m2) eqn:Hm; [|split; [done|constructor; [by rewrite elem_abs|done]]].
  edestruct (insert_locked_ok r (mk_node (__reg_hash s) p s true) mg H) as [H1 H2]; [done..|].
  split; [done|]. simpl. rewrite (abs_add _ _ _ H2). constructor. by left.
Qed.

Lemma unregister_refines r s :
  reg_ok r -> reg_ok (xtc_reg_unregister r s).2 /\
  reg_spec (abs r) (OUnregister s) (RCode (xtc_reg_unregister r s).1) (abs (xtc_reg_unregister r s).2).
Proof.
  intros H. unfold xtc_reg_unregister, unlink_node. destruct (unlink_first _ _) as [[e l]|] eqn:E.
  - edestruct unlink_some as (H1 & Hf & Hi & He); [done|exact E|]. split; [done|]. simpl. rewrite (abs_remove _ _ _ H He).
    destruct (proj1 (in_bucket r s e H) (conj Hi Hf)) as [_ Hs]. unfold triple. rewrite Hs. apply sp_unregister.
    rewrite elem_abs, He. unfold triple. rewrite Hs. apply list_elem_of_here.
  - split; [done|]. simpl. constructor. intros p d. rewrite elem_abs. intros (e & He & [= Hs _ _])%elem_of_entries.
    destruct (proj2 (in_bucket r s e H) (conj He Hs)) as [Hi Hn]. by rewrite (unlink_first_none _ _ _ E Hi) in Hn.
Qed.

(** What a leave does: it takes one entry of the name and pid, a member or not. *)
Lemma leave_exact r s p :
  reg_ok r -> reg_ok (xtc_reg_unregister_pid r s p).2 /\
  ((exists d, (s, p, d) ∈ abs r /\ (xtc_reg_unregister_pid r s p).1 = XTC_OK /\
      abs (xtc_reg_unregister_pid r s p).2 = abs r ∖ {[(s, p, d)]}) \/
   ((forall d, (s, p, d) ∉ abs r) /\ xtc_reg_unregister_pid r s p = (XTC_E_INVAL, r))).
Proof.
  intros H. unfold xtc_reg_unregister_pid, unlink_node. destruct (unlink_first _ _) as [[e l]|] eqn:E.
  - edestruct unlink_some as (H1 & Hf & Hi & He); [done|exact E|]. split; [done|]. simpl. rewrite (abs_remove _ _ _ H He).
    apply andb_true_iff in Hf as [Hf Hp]. rewrite xtc_pid_eq_spec, bool_decide_eq_true in Hp.
    destruct (proj1 (in_bucket r s e H) (conj Hi Hf)) as [_ Hs]. unfold triple. rewrite Hs, Hp. left. exists (rn_dup e).
    split; [|done]. rewrite elem_abs, He. unfold triple. rewrite Hs, Hp. apply list_elem_of_here.
  - split; [done|]. right. split; [|done]. intros d. rewrite elem_abs. intros (e & He & [= Hs Hp _])%elem_of_entries.
    destruct (proj2 (in_bucket r s e H) (conj He Hs)) as [Hi Hn].
    pose proof (unlink_first_none _ _ _ E Hi) as Hf. simpl in Hf. by rewrite Hn, xtc_pid_eq_spec, bool_decide_true in Hf.
Qed.

Lemma leave_refines r s p :
  reg_ok r -> reg_ok (xtc_reg_unregister_pid r s p).2 /\
  reg_spec (abs r) (OUnregisterPid s p) (RCode (xtc_reg_unregister_pid r s p).1) (abs (xtc_reg_unregister_pid r s p).2).
Proof.
  intros H. destruct (leave_exact r s p H) as [H1 [(d & Hd & -> & ->)|[Hd ->]]]; (split; [done|]).
  - by apply sp_leave.
  - by apply sp_leave_none.
Qed.

Lemma drop_refines r p :
  reg_ok r -> reg_ok (xtc_reg_drop_pid r p).2 /\
  reg_spec (abs r) (ODropPid p) (RNum (xtc_reg_drop_pid r p).1) (abs (xtc_reg_drop_pid r p).2).
Proof.
  intros H. destruct (drop_pid_ok r p H) as (H1 & He & ->). split; [done|].
  rewrite <- (size_filter_abs r (fun x => x.1.2 = p) H).
  assert (abs (xtc_reg_drop_pid r p).2 = filter (fun x => x.1.2 <> p) (abs r)) as ->; [|constructor].
  apply set_eq. intros x. by rewrite elem_of_filter, !elem_abs, He, list_elem_of_filter.
Qed.

Lemma members_all r s l : (xtc_reg_members visit r s l) = (Z.of_nat (length (members r s)), l ++ members r s).
Proof.
  unfold xtc_reg_members. rewrite walk_members_all by done. unfold members. rewrite length_fmap. f_equal.
  fold (chain r s). generalize (rn_pid <$> chain r s). intros ps. revert l.
  induction ps as [|p ps IH]; intros l; simpl; [by rewrite app_nil_r|]. by rewrite IH, <- app_assoc.
Qed.

Lemma members_refine r s :
  reg_ok r -> reg_spec (abs r) (OMembers s) (RPids (Z.of_nat (length (members r s))) (members r s)) (abs r).
Proof.
  intros H. constructor. unfold members. assert (rn_pid <$> chain r s = (fun x => x.1.2) <$> (triple <$> chain r s)) as ->.
  { by rewrite <- list_fmap_compose. }
  apply fmap_Permutation. rewrite (chain_entries r s H). apply NoDup_Permutation.
  - apply NoDup_filter, H.
  - apply NoDup_elements.
  - intros x. by rewrite elem_of_elements, elem_of_filter, elem_abs, list_elem_of_filter.
Qed.

Lemma reg_call_refines r o : reg_ok r -> reg_ok (reg_call r o).2 /\ reg_spec (abs r) o (reg_call r o).1 (abs (reg_call r o).2).
Proof.
  intros H. destruct o; simpl.
  - by apply register_refines.
  - by apply unregister_refines.
  - split; [done|]. unfold xtc_reg_whereis. destruct miss; [constructor|]. destruct (__reg_find_locked _ _ _) as [e|] eqn:E; simpl.
    + eapply sp_whereis, elem_abs. by eapply find_some.
    + constructor. by apply free_abs.
  - split; [done|]. unfold xtc_reg_count.
    assert (rg_n r = Z.of_nat (size (abs r))) as ->; [|constructor].
    rewrite (ro_n r H). f_equal. unfold abs. rewrite size_list_to_set by apply H. unfold entries. by rewrite length_fmap.
  - by apply join_refines.
  - by apply leave_refines.
  - by apply drop_refines.
  - rewrite members_all. split; [done|]. by apply members_refine.
Qed.

Lemma reg_create_ok m1 m2 r : xtc_reg_create m1 m2 = Some r -> reg_ok r /\ entries r = [].
Proof.
  unfold xtc_reg_create. destruct (m1 && m2); [|done]. intros [= <-].
  assert (concat (rg_buckets reg0) = []) as Hc by apply concat_empty.
  assert (entries reg0 = []) as He by (unfold entries; by rewrite Hc). split; [|done]. split; rewrite ?He.
  - exists 8. done.
  - apply length_replicate.
  - apply placed_empty.
  - by rewrite Hc.
  - constructor.
  - intros s p p'. rewrite ?He. by intros ?%elem_of_nil.
Qed.

(** A sequence of calls, and one the specification allows. *)
Fixpoint reg_run (r : xtc_reg) (ops : list reg_op) : list reg_res * xtc_reg :=
  match ops with
  | [] => ([], r)
  | o :: ops => let x := reg_call r o in let y := reg_run x.2 ops in (x.1 :: y.1, y.2)
  end.

Inductive spec_run (X : gset entry) : list reg_op -> list reg_res -> gset entry -> Prop :=
  | spec_nil : spec_run X [] [] X
  | spec_cons o ops c cs Y Z : reg_spec X o c Y -> spec_run Y ops cs Z -> spec_run X (o :: ops) (c :: cs) Z.

Lemma reg_run_ok r ops : reg_ok r -> reg_ok (reg_run r ops).2.
Proof. revert r. induction ops as [|o ops IH]; intros r H; simpl; [done|]. by apply IH, reg_call_refines. Qed.

(** C39: the registry stays well formed.  After any sequence of calls, with any
    refused allocations: the number of buckets is a power of two between 2^8
    and 2^31 and is the length of the array; every node is in the bucket its
    name hashes to, with that hash cached; the counter is the number of nodes;
    no entry is there twice and no name has two ordinary entries. *)
Theorem reg_well_formed m1 m2 r ops :
  xtc_reg_create m1 m2 = Some r ->
  let r' := (reg_run r ops).2 in
  (exists k, 8 <= k <= 31 /\ rg_nbuckets r' = 2 ^ k /\ Z.of_nat (length (rg_buckets r')) = 2 ^ k) /\
  (forall b l e, rg_buckets r' !! b = Some l -> e ∈ l ->
     rn_hash e = __reg_hash (rn_name e) /\ Z.of_nat b = Z.land (__reg_hash (rn_name e)) (rg_nbuckets r' - 1)) /\
  xtc_reg_count r' = Z.of_nat (length (entries r')) /\ NoDup (entries r') /\
  (forall s p p', (s, p, false) ∈ entries r' -> (s, p', false) ∈ entries r' -> p = p').
Proof.
  intros [H _]%reg_create_ok r'. apply (reg_run_ok r ops) in H. fold r' in H. destruct (ro_size r' H) as (k & Hk & Hn).
  split_and!; [| | |apply H|apply H].
  - exists k. split_and!; [lia|lia|done|]. rewrite (ro_len r' H), Hn. apply Z2Nat.id. lia.
  - intros b l e Hb He. destruct (ro_placed r' H b l e Hb He) as [Hh ->]. split; [done|]. unfold slot. rewrite Hh.
    apply Z2Nat.id. rewrite Hn, land_pow2_mask by lia. apply Z.mod_pos_bound. lia.
  - unfold xtc_reg_count. rewrite (ro_n r' H). unfold entries. by rewrite length_fmap.
Qed.

(** C27: the registry is a set.  For every sequence of calls, whatever memory
    is refused on the way and however often the table grows, the results are
    those of a finite set of (name, pid, member) entries: a name is registered
    once, a group member once, lookups and walks find what is there and nothing
    else, a drop removes a pid from all names and counts them, and refused
    calls change nothing.  On two points the documents disagree, and the
    specification allows both: see [reg_spec], and [taken_name_refused] and
    [leave_takes_name] for what the code does. *)
Theorem reg_refines_set m1 m2 r ops :
  xtc_reg_create m1 m2 = Some r -> spec_run ∅ ops (reg_run r ops).1 (abs (reg_run r ops).2).
Proof.
  intros [H He]%reg_create_ok. assert (abs r = ∅) as <- by (unfold abs; by rewrite He). clear He.
  revert r H. induction ops as [|o ops IH]; intros r H; simpl; [constructor|].
  destruct (reg_call_refines r o H) as [H1 H2]. econstructor; [done|]. by apply IH.
Qed.

(** *** The load of the table *)

Definition grants (o : reg_op) : bool :=
  match o with ORegister _ _ _ _ mg | ORegisterDup _ _ _ _ mg => mg | _ => true end.

Definition loaded (r : xtc_reg) : Prop := rg_n r <= rg_nbuckets r \/ rg_nbuckets r = 2 ^ 31.

Lemma half_max : UINT32_MAX / 2 = 2 ^ 31 - 1.
Proof. done. Qed.

Lemma insert_loaded r e : reg_ok r -> loaded r -> loaded (__reg_insert_locked r e true).
Proof.
  intros H Hl. unfold __reg_insert_locked, loaded, grow. destruct (ro_size r H) as (k & Hk & Hn). pose proof (ro_n r H) as Hn0.
  assert (2 ^ 8 <= 2 ^ k <= 2 ^ 31) as Hb by (split; apply Z.pow_le_mono_r; lia).
  destruct Hl as [Hl|Hl]; [|destruct (_ && _ && _) eqn:E; simpl; [|by right]; rewrite !andb_true_iff, !bool_decide_eq_true in E].
  2: { rewrite half_max in E. lia. }
  rewrite (uwrap_small 32) by lia. destruct (decide (rg_nbuckets r = 2 ^ 31)) as [Hm|Hm].
  { rewrite (bool_decide_false (rg_nbuckets r <= UINT32_MAX / 2)) by (rewrite half_max; lia).
    rewrite andb_false_r. simpl. by right. }
  destruct (decide (rg_nbuckets r <= rg_n r)) as [Hf|Hf].
  - rewrite (bool_decide_true _ Hf), (bool_decide_true (rg_nbuckets r <= UINT32_MAX / 2)); simpl; [left; lia|].
    assert (k <> 31) by (intros ->; lia). assert (2 ^ k <= 2 ^ 30) by (apply Z.pow_le_mono_r; lia). rewrite half_max. lia.
  - rewrite (bool_decide_false _ Hf). simpl. left. lia.
Qed.

Lemma unlink_loaded r h f : loaded r -> loaded (unlink_node r h f).2.
Proof. unfold unlink_node, loaded. destruct (unlink_first _ _) as [[]|]; simpl; [|done]. intros []; [left; lia|by right]. Qed.

Lemma reg_call_loaded r o : reg_ok r -> loaded r -> grants o = true -> loaded (reg_call r o).2.
Proof.
  intros H Hl Hg. destruct o; simpl in *; subst; try done.
  - unfold xtc_reg_register. destruct (__reg_find_locked _ _ _); [done|]. destruct (mem1 && mem2); [|done]. by apply insert_loaded.
  - by apply unlink_loaded.
  - unfold xtc_reg_register_dup. destruct (existsb _ _); [done|]. destruct (mem1 && mem2); [|done]. by apply insert_loaded.
  - by apply unlink_loaded.
  - unfold xtc_reg_drop_pid, loaded. rewrite drop_buckets_spec. simpl. destruct Hl; [left; lia|by right].
Qed.

(** While no growth is refused memory the table never has more entries than
    buckets, up to the largest table of 2^31 buckets: chains have one node on
    average. *)
Theorem reg_load m1 m2 r ops :
  xtc_reg_create m1 m2 = Some r -> Forall (fun o => grants o = true) ops -> loaded (reg_run r ops).2.
Proof.
  intros Hc. assert (loaded r) as Hl.
  { unfold xtc_reg_create in Hc. destruct (m1 && m2); [|done]. injection Hc as <-. by left. }
  apply reg_create_ok in Hc as [H _]. revert r H Hl.
  induction ops as [|o ops IH]; intros r H Hl Hg; simpl; [done|]. apply Forall_cons in Hg as [Ho Hg].
  apply IH; [by apply reg_call_refines|by apply reg_call_loaded|done].
Qed.

(** ** Broadcasts *)

Lemma walk_collect h s l c :
  pc_oom c = false ->
  let c' := (walk_members pg_collect_cb h s l c).2 in
  exists ps, pc_pids c' = pc_pids c ++ ps /\ ps `prefix_of` (rn_pid <$> filter (fun e => named h s e = true) l) /\
    (pc_oom c' = false -> ps = rn_pid <$> filter (fun e => named h s e = true) l) /\
    (pc_mem c = [] -> pc_oom c' = false).
Proof.
  revert c. induction l as [|e l IH]; intros c Hc; cbn zeta.
  { exists []. rewrite app_nil_r. done. }
  simpl walk_members. rewrite filter_cons. destruct (named h s e) eqn:Hn; [rewrite decide_True by done|rewrite decide_False by done; by apply IH].
  destruct (pg_collect_cb (rn_pid e) c) as [stop c1] eqn:E.
  assert ((stop = true /\ pc_oom c1 = true /\ pc_pids c1 = pc_pids c /\ pc_mem c <> []) \/
          (stop = false /\ pc_oom c1 = false /\ pc_pids c1 = pc_pids c ++ [rn_pid e] /\ (pc_mem c = [] -> pc_mem c1 = []))) as [Hs|Hs].
  { unfold pg_collect_cb in E. repeat case_match; simplify_eq/=; naive_solver. }
  - destruct Hs as (-> & Ho & Hp & Hm). exists []. simpl. rewrite app_nil_r. split_and!; [done|apply prefix_nil|congruence|done].
  - destruct Hs as (-> & Ho & Hp & Hm). destruct (IH c1 Ho) as (ps & H1 & H2 & H3 & H4).
    destruct (walk_members pg_collect_cb h s l c1) as [n c2]. simpl in *. exists (rn_pid e :: ps).
    rewrite H1, Hp, <- app_assoc. split_and!; [done|by apply prefix_cons|by intros ->%H3|by intros ?%Hm%H4].
Qed.

(** Receivers that note who got a message; [ok] says who takes it, given who
    has it already. *)
Section Post.
Context (ok : list xtc_pid -> xtc_pid -> rc).

Definition post (p : xtc_pid) (w : list xtc_pid) : rc * list xtc_pid :=
  (ok w p, if decide (ok w p = XTC_OK) then w ++ [p] else w).

Lemma send_all_post owned l w :
  exists got, (send_all post post owned l w).2 = w ++ got /\ got `sublist_of` l /\
    (send_all post post owned l w).1.1 = Z.of_nat (length got) /\
    ((send_all post post owned l w).1.2 = true -> owned = true /\ exists pre p, l = pre ++ [p] /\ last got = Some p) /\
    ((forall w p, ok w p = XTC_OK) -> got = l /\ (send_all post post owned l w).1.2 = owned && bool_decide (l <> [])).
Proof.
  revert w. induction l as [|p l IH]; intros w; simpl.
  { exists []. rewrite app_nil_r, andb_false_r. split_and!; try done. }
  destruct (owned && bool_decide (l = [])) eqn:E.
  - apply andb_true_iff in E as [-> ->%bool_decide_eq_true]. destruct (decide (ok w p = XTC_OK)) as [Hok|Hok]; simpl.
    + exists [p]. split_and!; try done. intros _. split; [done|]. by exists [], p.
    + exists []. rewrite app_nil_r. split_and!; try done; [apply sublist_nil_l|]. intros H. by rewrite H in Hok.
  - destruct (decide (ok w p = XTC_OK)) as [Hok|Hok].
    + destruct (IH (w ++ [p])) as (got & H1 & H2 & H3 & H4 & H5). destruct (send_all post post owned l (w ++ [p])) as [[n t] w']. simpl in *.
      exists (p :: got). rewrite H1, <- app_assoc, H3. split_and!; [done|by apply sublist_skip|simpl; lia| |].
      * intros Ht. destruct (H4 Ht) as (-> & pre & q & -> & Hl). split; [done|]. exists (p :: pre), q. split; [done|].
        rewrite last_cons, Hl. done.
      * intros Hall. destruct (H5 Hall) as [-> Ht]. split; [done|]. rewrite Ht. destruct owned; [|done]. simpl in *.
        rewrite bool_decide_eq_false in E. by rewrite !bool_decide_true.
    + destruct (IH w) as (got & H1 & H2 & H3 & H4 & H5). destruct (send_all post post owned l w) as [[n t] w']. simpl in *.
      exists got. rewrite H1, H3. split_and!; [done|by apply sublist_cons|simpl; lia| |].
      * intros Ht. destruct (H4 Ht) as (-> & pre & q & -> & Hl). split; [done|]. by exists (p :: pre), q.
      * intros Hall. by rewrite Hall in Hok.
Qed.

(** A broadcast goes to members only, to each of their entries at most
    once and in one order, and counts those that took it.  An owned buffer is
    either taken, by the last receiver, or freed by the call.  If no memory is
    refused and every member takes messages, all of them get it. *)
Theorem pg_send_spec r group mem :
  reg_ok r ->
  let x := xtc_pg_send_owned post post r group mem [] in
  x.2 `sublist_of` members r group /\ x.1.1 = Z.of_nat (length x.2) /\
  (x.1.2 = false -> exists p, last x.2 = Some p) /\
  (mem = [] -> (forall w p, ok w p = XTC_OK) -> x.2 = members r group /\ (x.1.2 = false <-> members r group <> [])) /\
  (forall p, p ∈ x.2 -> exists d, (group, p, d) ∈ abs r).
Proof.
  intros Hok. cbn zeta. unfold xtc_pg_send_owned, pg_send, xtc_reg_members.
  destruct (walk_collect (__reg_hash group) group (__reg_bucket r (__reg_hash group)) (mk_collect [] 0 false mem) eq_refl)
    as (ps & H1 & H2 & H3 & H4).
  simpl in H1. fold (chain r group) in H2, H3. fold (members r group) in H2, H3.
  rewrite H1. destruct (send_all_post true ps []) as (got & G1 & G2 & G3 & G4 & G5).
  destruct (send_all post post true ps []) as [[n t] w]. simpl in *. subst w.
  assert (got `sublist_of` members r group) as Hsub by (etrans; [exact G2|destruct H2 as [k ->]; by apply sublist_inserts_r]).
  split_and!; [done|done| | |].
  - intros ->%negb_false_iff. destruct (G4 eq_refl) as (_ & pre & p & _ & Hl). eauto.
  - intros Hm Hall. specialize (H4 Hm). rewrite (H3 H4) in *. destruct (G5 Hall) as [-> ->]. split; [done|].
    rewrite negb_false_iff, bool_decide_eq_true. done.
  - intros p Hp. eapply (sublist_subseteq _ _ Hsub) in Hp. unfold members in Hp. apply list_elem_of_fmap in Hp as (e & -> & He).
    exists (rn_dup e). unfold chain in He. apply list_elem_of_filter in He as [Hn He].
    destruct (proj1 (in_bucket r group e Hok) (conj He Hn)) as [He' Hs]. apply elem_abs, elem_of_entries. exists e. unfold triple. by rewrite Hs.
Qed.
End Post.

(** ** Witnesses, and what the calls do to names that are both registered and joined *)

Definition pid_n (n : Z) : xtc_pid := mk_pid 1 n 1.

Lemma reg_refines_set_witness :
  spec_run ∅ [ORegister [97] (pid_n 1) true true true; ORegister [97] (pid_n 2) true true true; OWhereis [97] false; ODropPid (pid_n 1)]
    [RCode XTC_OK; RCode XTC_E_INVAL; RPid (Some (pid_n 1)); RNum 1] ∅.
Proof.
  assert (abs (reg_run reg0 [ORegister [97] (pid_n 1) true true true; ORegister [97] (pid_n 2) true true true;
    OWhereis [97] false; ODropPid (pid_n 1)]).2 = ∅) as H by (vm_compute; reflexivity).
  rewrite <- H at 2.
  exact (reg_refines_set true true reg0 [ORegister [97] (pid_n 1) true true true; ORegister [97] (pid_n 2) true true true;
    OWhereis [97] false; ODropPid (pid_n 1)] eq_refl).
Defined.

Lemma reg_well_formed_witness :
  NoDup (entries (reg_run reg0 [ORegister [97] (pid_n 1) true true true; ORegisterDup [97] (pid_n 2) true true true]).2).
Proof. apply (reg_well_formed true true reg0 [ORegister [97] (pid_n 1) true true true; ORegisterDup [97] (pid_n 2) true true true] eq_refl). Defined.

(** A member that joins the name of a registered process hides it, and
    unregistering the name takes the member out. *)
Example member_hides_name :
  (reg_run reg0 [ORegister [97] (pid_n 1) true true true; ORegisterDup [97] (pid_n 2) true true true; OWhereis [97] false;
    OUnregister [97]; OWhereis [97] false]).1 =
  [RCode XTC_OK; RCode XTC_OK; RPid (Some (pid_n 2)); RCode XTC_OK; RPid (Some (pid_n 1))].
Proof. vm_compute. reflexivity. Qed.

(** A name that is taken by another pid is not bound anew. *)
Example taken_name_refused :
  (reg_run reg0 [ORegister [97] (pid_n 1) true true true; ORegister [97] (pid_n 2) true true true; OWhereis [97] false]).1 =
  [RCode XTC_OK; RCode XTC_E_INVAL; RPid (Some (pid_n 1))].
Proof. vm_compute. reflexivity. Qed.

(** A leave by a pid that is no member of the group takes the name that is
    registered to it. *)
Example leave_takes_name :
  (reg_run reg0 [ORegister [97] (pid_n 1) true true true; OUnregisterPid [97] (pid_n 1); OWhereis [97] false]).1 =
  [RCode XTC_OK; RCode XTC_OK; RPid None].
Proof. vm_compute. reflexivity. Qed.

(** A lookup of a group's name gives another member after the table has grown
    for names that have nothing to do with it. *)
Example growth_moves_whereis :
  let join n := ORegisterDup [97] (pid_n n) true true true in
  let r := (reg_run reg0 [join 1; join 2]).2 in
  let r' := (reg_run r ((fun i => ORegister [98; Z.of_nat i] (pid_n 3) true true true) <$> seq 1 255)).2 in
  xtc_reg_whereis r [97] false = Some (pid_n 2) /\ xtc_reg_whereis r' [97] false = Some (pid_n 1).
Proof. vm_compute. split; reflexivity. Qed.

(** The roll-back of a registration whose process is also a member of a group
    of that name takes it out of the group and leaves the name. *)
Example rollback_takes_member :
  let r := (reg_run reg0 [ORegister [97] (pid_n 1) true true true; ORegisterDup [97] (pid_n 1) true true true]).2 in
  entries (xtc_reg_unregister_pid r [97] (pid_n 1)).2 = [([97], pid_n 1, false)].
Proof. vm_compute. reflexivity. Qed.

(** A broadcast that runs out of memory reaches the first eight members and
    reports eight, as for a group of eight. *)
Example broadcast_truncated :
  let r := (reg_run reg0 ((fun i => ORegisterDup [97] (pid_n (Z.of_nat i)) true true true) <$> seq 1 9)).2 in
  (xtc_pg_send (post (fun _ _ => XTC_OK)) (post (fun _ _ => XTC_OK)) r [97] [true; false] []).1 = 8.
Proof. vm_compute. reflexivity. Qed.

Lemma pg_send_spec_witness :
  let r := (reg_run reg0 [ORegisterDup [97] (pid_n 1) true true true; ORegisterDup [97] (pid_n 2) true true true]).2 in
  (xtc_pg_send_owned (post (fun _ _ => XTC_OK)) (post (fun _ _ => XTC_OK)) r [97] [] []).2 = members r [97].
Proof.
  apply (pg_send_spec (fun _ _ => XTC_OK) (reg_run reg0 [ORegisterDup [97] (pid_n 1) true true true;
    ORegisterDup [97] (pid_n 2) true true true]).2 [97] []); [|done..].
  apply reg_call_refines, reg_call_refines, (reg_create_ok true true). reflexivity.
Defined.
