(* ===== verification/Reaper.v ===== *)
(** * The registry's reaper (xtc_reg_reaper and xtc_reg_register_mon of src/orc/reg.c)

    [xtc_reg_register_mon] registers a name and asks the reaper to monitor the
    process; the reaper drops a process from every name when its DOWN comes.
    Clients, the reaper, and the processes that die run interleaved: a step is
    a critical section of the registry, an atomic access or a message.  What a
    monitor may do is what Links.v shows: it is installed and owes a DOWN, the
    target is gone and a DOWN comes at once, memory is refused, or (a target
    that dies in the call, an entry that cannot be allocated) it is lost. *)

From S2P Require Import Prelude Wire Reg.

Local Open Scope Z_scope.

(** ** State *)

Inductive reap_msg : Type := REG_REAPER_MONITOR (p : xtc_pid) | DOWN (p : xtc_pid).

#[global] Instance reap_msg_eq_dec : EqDecision reap_msg.
Proof. solve_decision. Defined.

(** Where a participant is.  [C*]: in [xtc_reg_register_mon], after the
    registration, after the test of [has_reaper], before the send, before the
    roll-back; [R*]: the reaper, before it publishes itself, waiting for mail,
    with a request, with a pid to drop, past its loop; [PWorld]: the processes
    outside. *)
Inductive rpc : Type :=
  | CIdle (ret : option rc)
  | CCheck (s : name) (p : xtc_pid)
  | CRead (s : name) (p : xtc_pid)
  | CSend (s : name) (p reaper : xtc_pid)
  | CRollback (s : name) (p : xtc_pid) (c : rc)
  | RStart
  | RLoop
  | RMonitor (p : xtc_pid)
  | RDrop (p : xtc_pid)
  | REnd
  | RGone
  | PWorld.

(** [rw_self], [rw_alive]: the reaper's pid and whether it takes mail;
    [rw_armed]: monitors that owe a DOWN; [rw_lost]: DOWNs that were dropped
    for want of memory; [rw_half]: pids whose monitor was never installed
    although [xtc_monitor] returned XTC_OK; [rw_mon]: the entries whose
    registration was handed to the reaper (the last three are not in the
    code). *)
Record rworld : Type := mk_rw {
  rw_reg : xtc_reg;
  rw_self : xtc_pid;
  rw_alive : bool;
  rw_mail : list reap_msg;
  rw_armed : list xtc_pid;
  rw_dead : gset xtc_pid;
  rw_lost : gset xtc_pid;
  rw_half : gset xtc_pid;
  rw_mon : gset (name * xtc_pid);
}.

(** The registry changes; entries that are gone are no longer watched. *)
Definition still (r : xtc_reg) (m : gset (name * xtc_pid)) : gset (name * xtc_pid) :=
  filter (fun x => (x.1, x.2, false) ∈ abs r) m.
Definition with_reg (w : rworld) (r : xtc_reg) : rworld :=
  mk_rw r (rw_self w) (rw_alive w) (rw_mail w) (rw_armed w) (rw_dead w) (rw_lost w) (rw_half w) (still r (rw_mon w)).
Definition with_mail (w : rworld) (m : list reap_msg) : rworld :=
  mk_rw (rw_reg w) (rw_self w) (rw_alive w) m (rw_armed w) (rw_dead w) (rw_lost w) (rw_half w) (rw_mon w).
Definition with_armed (w : rworld) (l : list xtc_pid) : rworld :=
  mk_rw (rw_reg w) (rw_self w) (rw_alive w) (rw_mail w) l (rw_dead w) (rw_lost w) (rw_half w) (rw_mon w).
Definition with_alive (w : rworld) (a : bool) : rworld :=
  mk_rw (rw_reg w) (rw_self w) a (rw_mail w) (rw_armed w) (rw_dead w) (rw_lost w) (rw_half w) (rw_mon w).
Definition rw_lose (w : rworld) (p : xtc_pid) : rworld :=
  mk_rw (rw_reg w) (rw_self w) (rw_alive w) (rw_mail w) (rw_armed w) (rw_dead w) ({[p]} ∪ rw_lost w) (rw_half w) (rw_mon w).
Definition rw_halve (w : rworld) (p : xtc_pid) : rworld :=
  mk_rw (rw_reg w) (rw_self w) (rw_alive w) (rw_mail w) (rw_armed w) (rw_dead w) (rw_lost w) ({[p]} ∪ rw_half w) (rw_mon w).
Definition rw_die (w : rworld) (p : xtc_pid) : rworld :=
  mk_rw (rw_reg w) (rw_self w) (rw_alive w) (rw_mail w) (rw_armed w) ({[p]} ∪ rw_dead w) (rw_lost w) (rw_half w) (rw_mon w).
Definition rw_watch (w : rworld) (s : name) (p : xtc_pid) : rworld :=
  mk_rw (rw_reg w) (rw_self w) (rw_alive w) (rw_mail w) (rw_armed w) (rw_dead w) (rw_lost w) (rw_half w)
    (still (rw_reg w) ({[(s, p)]} ∪ rw_mon w)).

(** Publishing the reaper, and taking the publication back. *)
Definition publish (r : xtc_reg) (self : xtc_pid) : xtc_reg := mk_reg (rg_buckets r) (rg_nbuckets r) (rg_n r) true self.
Definition unpublish (r : xtc_reg) : xtc_reg := mk_reg (rg_buckets r) (rg_nbuckets r) (rg_n r) false (rg_reaper r).

(** What [xtc_reg_register_mon] returns when the send failed with [c]. *)
Definition send_failed (c : rc) : rc := if decide (c = XTC_E_RESOURCE) then XTC_E_RESOURCE else XTC_E_AGAIN.

(** ** Steps *)

Inductive reap_step (i : nat) (w : rworld) : rpc -> rworld -> rpc -> Prop :=
  (* xtc_reg_register_mon *)
  | st_register ret s p m1 m2 mg :
      let x := xtc_reg_register (rw_reg w) s p m1 m2 mg in
      reap_step i w (CIdle ret) (with_reg w x.2) (if decide (x.1 = XTC_OK) then CCheck s p else CIdle (Some x.1))
  | st_no_reaper s p :
      rg_has_reaper (rw_reg w) = false -> reap_step i w (CCheck s p) w (CIdle (Some XTC_OK))
  | st_has_reaper s p :
      rg_has_reaper (rw_reg w) = true -> reap_step i w (CCheck s p) w (CRead s p)
  | st_read s p : reap_step i w (CRead s p) w (CSend s p (rg_reaper (rw_reg w)))
  | st_sent s p q :
      rw_alive w = true -> q = rw_self w ->
      reap_step i w (CSend s p q) (rw_watch (with_mail w (rw_mail w ++ [REG_REAPER_MONITOR p])) s p) (CIdle (Some XTC_OK))
  | st_not_sent s p q c : c <> XTC_OK -> reap_step i w (CSend s p q) w (CRollback s p c)
  | st_rollback s p c :
      reap_step i w (CRollback s p c) (with_reg w (xtc_reg_unregister_pid (rw_reg w) s p).2) (CIdle (Some (send_failed c)))
  (* any other call *)
  | st_call ret o : reap_step i w (CIdle ret) (with_reg w (reg_call (rw_reg w) o).2) (CIdle None)
  (* xtc_reg_reaper *)
  | st_publish : reap_step i w RStart (with_reg w (publish (rw_reg w) (rw_self w))) RLoop
  | st_request p mail :
      rw_mail w = REG_REAPER_MONITOR p :: mail -> reap_step i w RLoop (with_mail w mail) (RMonitor p)
  | st_down p mail : rw_mail w = DOWN p :: mail -> reap_step i w RLoop (with_mail w mail) (RDrop p)
  | st_armed p : reap_step i w (RMonitor p) (with_armed w (p :: rw_armed w)) RLoop
  | st_gone p :
      p ∈ rw_dead w -> reap_step i w (RMonitor p) (with_mail w (rw_mail w ++ [DOWN p])) RLoop
  | st_half p : reap_step i w (RMonitor p) (rw_halve w p) RLoop
  | st_nomem p : reap_step i w (RMonitor p) w (RDrop p)
  | st_drop p : reap_step i w (RDrop p) (with_reg w (xtc_reg_drop_pid (rw_reg w) p).2) RLoop
  | st_end : reap_step i w RLoop w REnd
  | st_unpublish : reap_step i w REnd (with_alive (with_reg w (unpublish (rw_reg w))) false) RGone
  | st_killed pc : (pc = RLoop \/ (exists p, pc = RMonitor p \/ pc = RDrop p)) -> reap_step i w pc (with_alive w false) RGone
  (* the processes outside *)
  | st_die p : reap_step i w PWorld (rw_die w p) PWorld
  | st_deliver p l :
      rw_armed w ≡ₚ p :: l -> p ∈ rw_dead w ->
      reap_step i w PWorld (with_armed (with_mail w (rw_mail w ++ [DOWN p])) l) PWorld
  | st_lose p l :
      rw_armed w ≡ₚ p :: l -> p ∈ rw_dead w -> reap_step i w PWorld (rw_lose (with_armed w l) p) PWorld.

Definition reap0 (self : xtc_pid) : rworld := mk_rw reg0 self true [] [] ∅ ∅ ∅ ∅.

(** [n] clients, the reaper and the processes outside. *)
Definition cast (n : nat) : gmap nat rpc := <[n := RStart]> (<[S n := PWorld]> (idle_pool (CIdle None) n)).

(** ** The invariant *)

Definition is_reaper (pc : rpc) : bool :=
  match pc with RStart | RLoop | RMonitor _ | RDrop _ | REnd | RGone => true | _ => false end.

(** What the reaper has in hand. *)
Definition in_hand (pc : rpc) (p : xtc_pid) : Prop := pc = RMonitor p \/ pc = RDrop p.

(** The reaper will still hear of [p]. *)
Definition pending (w : rworld) (pc : rpc) (p : xtc_pid) : Prop :=
  REG_REAPER_MONITOR p ∈ rw_mail w \/ DOWN p ∈ rw_mail w \/ p ∈ rw_armed w \/ p ∈ rw_lost w \/ p ∈ rw_half w \/ in_hand pc p.

(** A reaper at [pc]. *)
Record world_ok (w : rworld) (pc : rpc) : Prop := mk_world_ok {
  wo_reg : reg_ok (rw_reg w);
  wo_there : forall s p, (s, p) ∈ rw_mon w -> (s, p, false) ∈ abs (rw_reg w);
  wo_pending : rw_alive w = true -> forall s p, (s, p) ∈ rw_mon w -> pending w pc p;
  wo_alive : rw_alive w = true \/ pc = RGone;
}.

Definition reap_ok (n : nat) (w : rworld) (pool : gmap nat rpc) : Prop :=
  (forall i pc, pool !! i = Some pc -> is_reaper pc = true <-> i = n) /\
  exists pc, pool !! n = Some pc /\ world_ok w pc.

Lemma elem_still r m s p : (s, p) ∈ still r m <-> (s, p, false) ∈ abs r /\ (s, p) ∈ m.
Proof. unfold still. by rewrite elem_of_filter. Qed.

Lemma reg_ok_publish r h q : reg_ok r -> reg_ok (mk_reg (rg_buckets r) (rg_nbuckets r) (rg_n r) h q).
Proof. intros []. by split. Qed.

(** The registry changes under the same reaper. *)
Lemma with_reg_ok w r pc : world_ok w pc -> reg_ok r -> world_ok (with_reg w r) pc.
Proof.
  intros H Hr. split; [done| | |apply H].
  - intros s p [? _]%elem_still. done.
  - intros Ha s p [_ Hm]%elem_still. by apply (wo_pending w pc H Ha s p).
Qed.

(** A step that leaves the registry alone: whatever was pending still is. *)
Ltac still_pending H :=
  split; [apply H|apply H| |first [apply H|by destruct (wo_alive _ _ H); [left|]]]; intros Ha s q Hm;
  destruct (wo_pending _ _ H Ha s q Hm) as [Hq|[Hq|[Hq|[Hq|[Hq|[Hq|Hq]]]]]]; simplify_eq; unfold pending, in_hand; simpl;
  repeat match goal with
    | E : rw_mail _ = _ |- _ => rewrite E in Hq
    | E : rw_armed _ ≡ₚ _ |- _ => rewrite E in Hq
    end;
  first [ tauto | set_solver | (rewrite elem_of_cons in Hq; destruct Hq as [Hq|Hq]; simplify_eq; tauto) ].

(** Steps of the clients and of the outside. *)
Lemma client_step_ok i w pc w' pc' rp :
  reap_step i w pc w' pc' -> is_reaper pc = false -> world_ok w rp -> is_reaper pc' = false /\ world_ok w' rp.
Proof.
  intros Hst Hc H. destruct Hst; try done; try (split; [done|]); try (still_pending H).
  - split; [by case_decide|]. apply with_reg_ok; [done|]. by apply register_refines, H.
  - split; [apply H| | |apply H]; simpl.
    + intros t u [? _]%elem_still. done.
    + intros Ha t u [_ [Heq%elem_of_singleton|Hm]%elem_of_union]%elem_still.
      * injection Heq as -> ->. left. simpl. set_solver.
      * destruct (wo_pending w rp H Ha t u Hm) as [?|[?|?]]; [left|right;left|right;right; done]; simpl; set_solver.
  - apply with_reg_ok; [done|]. by apply leave_refines, H.
  - apply with_reg_ok; [done|]. by apply reg_call_refines, H.
  - naive_solver.
Qed.

(** Steps of the reaper. *)
Lemma reaper_step_ok i w pc w' pc' :
  reap_step i w pc w' pc' -> is_reaper pc = true -> world_ok w pc -> is_reaper pc' = true /\ world_ok w' pc'.
Proof.
  intros Hst Hc H. destruct Hst; try done; (split; [done|]); try (still_pending H).
  - apply with_reg_ok; [still_pending H|]. apply reg_ok_publish, H.
  - destruct (drop_pid_ok (rw_reg w) p (wo_reg w _ H)) as (H1 & He & _).
    split; [done| | |by destruct (wo_alive _ _ H); [left|]].
    + intros s q [? _]%elem_still. done.
    + intros Ha s q [Hs Hm]%elem_still. simpl in Hs. rewrite elem_abs, He in Hs. apply list_elem_of_filter in Hs as [Hne _]. simpl in Hne.
      destruct (wo_pending w _ H Ha s q Hm) as [Hq|[Hq|[Hq|[Hq|[Hq|[Hq|Hq]]]]]]; simplify_eq; unfold pending; simpl; tauto.
  - split; [apply reg_ok_publish, H| |done|by right]. intros s q [? _]%elem_still. done.
  - split; [apply H|apply H|done|by right].
Qed.

Lemma reap_step_ok n w pool i pc w' pc' :
  reap_ok n w pool -> pool !! i = Some pc -> reap_step i w pc w' pc' -> reap_ok n w' (<[i := pc']> pool).
Proof.
  intros [Hu (rp & Hn & H)] Hi Hst. destruct (decide (i = n)) as [->|Hne].
  - rewrite Hn in Hi. injection Hi as <-. destruct (reaper_step_ok n w rp w' pc') as [Hr H']; [done|by eapply Hu|done|].
    split; [|exists pc'; by rewrite lookup_insert_eq].
    intros j q. rewrite lookup_insert. case_decide; [intros [= <-]; naive_solver|]. apply Hu.
  - assert (is_reaper pc = false) as Hc by (apply not_true_iff_false; intros Hr; by apply Hne, (Hu i pc Hi)).
    destruct (client_step_ok i w pc w' pc' rp Hst Hc H) as [Hr H'].
    split; [|exists rp; by rewrite lookup_insert_ne].
    intros j q. rewrite lookup_insert. case_decide; [intros [= <-]; subst; rewrite Hr; naive_solver|]. apply Hu.
Qed.

Lemma cast_ok n self : reap_ok n (reap0 self) (cast n).
Proof.
  split.
  - intros i pc. unfold cast. rewrite lookup_insert. case_decide; [intros [= <-]; naive_solver|].
    rewrite lookup_insert. case_decide; [intros [= <-]; naive_solver lia|]. intros Hi.
    assert (map_Forall (fun _ pc => pc = CIdle None) (idle_pool (CIdle None) n)) as Hf by (by apply idle_pool_Forall).
    apply Hf in Hi as ->. naive_solver.
  - exists RStart. split; [apply lookup_insert_eq|]. split; simpl; [by apply (reg_create_ok true true)|set_solver|set_solver|by left].
Qed.

(** ** What the reaper guarantees *)

(** C28: no name outlives its process while the reaper runs.  In every
    interleaving of registrations, deaths and the reaper: an entry that was
    handed to the reaper and is still registered is one the reaper will still
    hear of, unless the reaper itself is gone, killed or past its loop
    ([killed_reaper_forgets]); and when a running reaper has dealt with its
    mail, such an entry belongs to a process whose monitor is still armed, or
    whose DOWN was dropped for want of memory, or whose monitor was never
    installed although [xtc_monitor] said so (see Links.v). *)
Theorem reaper_drops_dead n self w pool p :
  reachable reap_step (reap0 self, cast n) (w, pool) ->
  (forall s, (s, p) ∈ rw_mon w ->
     (s, p, false) ∈ abs (rw_reg w) /\ exists pc, pool !! n = Some pc /\ (pc = RGone \/ pending w pc p)) /\
  (pool !! n = Some RLoop -> rw_mail w = [] ->
   forall s, (s, p) ∈ rw_mon w -> p ∈ rw_armed w \/ p ∈ rw_lost w \/ p ∈ rw_half w).
Proof.
  intros Hr. pose proof (pool_invariant reap_step (reap_ok n) (reap0 self, cast n) (w, pool)) as Hinv.
  destruct Hinv as [_ (pc & Hn & H)]; [intros; by eapply reap_step_ok|apply cast_ok|done|]. simpl in *. split.
  - intros s Hs. split; [by apply (wo_there w pc H)|]. exists pc. split; [done|].
    destruct (wo_alive w pc H) as [Ha|Hg]; [right|by left]. by eapply (wo_pending w pc H).
  - intros Hl Hm s Hs. rewrite Hn in Hl. injection Hl as ->. destruct (wo_alive w _ H) as [Ha|]; [|done].
    destruct (wo_pending w _ H Ha s p Hs) as [Hq|[Hq|[Hq|[Hq|[Hq|[Hq|Hq]]]]]]; auto; try done; rewrite Hm in Hq; by apply elem_of_nil in Hq.
Qed.

(** A registration that is rolled back leaves no name, if the process is not
    also a member of a group of that name. *)
Theorem rollback_removes r s p :
  reg_ok r -> (s, p, true) ∉ abs r -> (s, p, false) ∉ abs (xtc_reg_unregister_pid r s p).2.
Proof.
  intros H Hno. destruct (leave_exact r s p H) as [_ [(d & Hd & _ & ->)|[Hd ->]]]; [|by apply Hd].
  destruct d; [done|]. set_solver.
Qed.

(** One client registers name 97 for process 1; the reaper publishes itself,
    gets the request, monitors; the process dies and its DOWN arrives. *)
Tactic Notation "rstep" constr(j) uconstr(L) :=
  eapply rtc_l; [eapply (pool_step_at _ _ _ j); [vm_compute; reflexivity|eapply L; first [reflexivity|set_solver|idtac]]|].

Lemma reap_run :
  exists w pool, reachable reap_step (reap0 (pid_n 9), cast 1) (w, pool) /\ rw_alive w = true /\ pool !! 1%nat = Some RLoop /\
    rw_mail w = [] /\ rw_armed w = [] /\ rw_lost w = ∅ /\ rw_half w = ∅ /\ rw_dead w = {[pid_n 1]} /\ xtc_reg_count (rw_reg w) = 0.
Proof.
  do 2 eexists. split.
  - rstep 1%nat (st_publish _ _). rstep 0%nat (st_register _ _ None [97] (pid_n 1) true true true).
    rstep 0%nat (st_has_reaper _ _ _ _). rstep 0%nat (st_read _ _ _ _). rstep 0%nat (st_sent _ _ _ _ _).
    rstep 1%nat (st_request _ _ _ _). rstep 1%nat (st_armed _ _ _). rstep 2%nat (st_die _ _ (pid_n 1)).
    rstep 2%nat (st_deliver _ _ (pid_n 1) []). rstep 1%nat (st_down _ _ _ _). rstep 1%nat (st_drop _ _ _). apply rtc_refl.
  - split_and!; vm_compute; reflexivity.
Qed.

Lemma reaper_drops_dead_witness :
  exists w pool, reachable reap_step (reap0 (pid_n 9), cast 1) (w, pool) /\ rw_dead w = {[pid_n 1]} /\
    forall s, (s, pid_n 1) ∉ rw_mon w.
Proof.
  destruct reap_run as (w & pool & Hr & Ha & Hl & Hm & Harm & Hlost & Hh & Hd & _). exists w, pool. split_and!; [done..|].
  intros s Hs. destruct (proj2 (reaper_drops_dead 1 (pid_n 9) w pool (pid_n 1) Hr) Hl Hm s Hs) as [H|[H|H]];
    [rewrite Harm in H; by apply elem_of_nil in H|rewrite Hlost in H; set_solver|rewrite Hh in H; set_solver].
Defined.

(** A reaper that is killed forgets: the process it was asked to watch dies, and
    its name stays for good. *)
Example killed_reaper_forgets :
  exists w pool, reachable reap_step (reap0 (pid_n 9), cast 1) (w, pool) /\ pool !! 1%nat = Some RGone /\
    pid_n 1 ∈ rw_dead w /\ ([97], pid_n 1) ∈ rw_mon w.
Proof.
  do 2 eexists. split.
  - rstep 1%nat (st_publish _ _). rstep 0%nat (st_register _ _ None [97] (pid_n 1) true true true).
    rstep 0%nat (st_has_reaper _ _ _ _). rstep 0%nat (st_read _ _ _ _). rstep 0%nat (st_sent _ _ _ _ _).
    rstep 1%nat (st_request _ _ _ _). rstep 1%nat (st_armed _ _ _). rstep 1%nat (st_killed _ _ _).
    rstep 2%nat (st_die _ _ (pid_n 1)). apply rtc_refl.
  - split; [reflexivity|]. split; vm_compute; done.
Qed.

(** A reaper that is killed stays published, and every later registration that
    asks for monitoring is rolled back and refused. *)
Example killed_reaper_refuses :
  exists w pool, reachable reap_step (reap0 (pid_n 9), cast 1) (w, pool) /\ pool !! 1%nat = Some RGone /\
    rg_has_reaper (rw_reg w) = true /\
    forall i s p q w' pc, reap_step i w (CSend s p q) w' pc -> exists c, pc = CRollback s p c.
Proof.
  do 2 eexists. split; [|split].
  - rstep 1%nat (st_publish _ _). rstep 1%nat (st_killed _ _ _). apply rtc_refl.
  - vm_compute. reflexivity.
  - split; [reflexivity|]. intros i s p q w' pc Hst. inversion Hst; subst; eauto; naive_solver.
Qed.
