(* ===== verification/Fsm.v ===== *)
(** * State machines (src/orc/fsm.c)

    A machine is a process that receives events, hands each to a callback in
    the current state and does what the callback says: stay, go to another
    state, keep the event for later, stop.  Events kept for later are replayed
    after the next change of state, by a recursion of dispatch and apply.

    The callbacks are arguments: they change the user's state and return what
    to do, and an event may answer a call.  Memory, sends and receives succeed
    or fail as an arbitrary sequence of outcomes says, held in the state of the
    run.  Every malloc'd event is counted. *)

From S2P Require Import Prelude Wire.

Local Open Scope Z_scope.

(** ** Messages *)

Definition FSM_CALL_HDR : Z := 1 + 16 + 4.
Definition FSM_REPLY_HDR : Z := 12.
Definition FSM_REPLY_MAGIC : list Z := [254; 120; 116; 99; 102; 115; 109; 165].

Definition KIND_EVENT : Z := 69.
Definition KIND_CALL : Z := 67.
Definition KIND_STOP : Z := 83.

Definition event_frame (ev : list Z) : list Z := KIND_EVENT :: ev.
Definition call_frame (self : xtc_pid) (tag : Z) (req : list Z) : list Z := KIND_CALL :: pid_bytes self ++ to_le 4 tag ++ req.
Definition reply_frame (tag : Z) (reply : list Z) : list Z := reply ++ to_le 4 tag ++ FSM_REPLY_MAGIC.

(** What the machine reads in a call, and the caller in a reply. *)
Lemma call_frame_fields self tag req :
  pid_ok self -> 0 <= tag < 2 ^ 32 ->
  let m := call_frame self tag req in
  pid_of (bytes_at 1 16 m) = self /\ field 17 4 m = tag /\ drop (Z.to_nat FSM_CALL_HDR) m = req /\
  Z.of_nat (length m) = FSM_CALL_HDR + Z.of_nat (length req).
Proof.
  intros Hp Ht. cbn zeta. unfold field, call_frame. read_fields. rewrite pid_of_bytes, of_le_to_le by done.
  change (256 ^ Z.of_nat 4) with (2 ^ 32). rewrite Z.mod_small by done. split_and!; [done|done| |].
  - change (Z.to_nat FSM_CALL_HDR) with 21%nat. rewrite skipn_cons, app_assoc, drop_app_length'; [done|].
    by rewrite length_app, length_pid_bytes, length_to_le.
  - rewrite length_cons, !length_app, length_pid_bytes, length_to_le. unfold FSM_CALL_HDR. lia.
Qed.

Inductive xtc_fsm_action : Type := XTC_FSM_KEEP | XTC_FSM_NEXT | XTC_FSM_POSTPONE | XTC_FSM_STOP.
Record xtc_fsm_result : Type := mk_result { fr_action : xtc_fsm_action; fr_next_state : Z; fr_timeout_ns : Z }.

Definition XTC_FSM_REASON_NORMAL : Z := 0.

Record xtc_fsm_call_t : Type := mk_call { fc_pid : xtc_pid; fc_tag : Z; fc_replied : bool }.

(** ** The machine *)

Section Machine.
Context {S : Type}.

(** [event]: the user's state, the machine's state, the payload (empty for a
    state timeout), whether it is a call; the new state, what to do and the
    replies it gives to the call, in order.  [enter] may be missing. *)
Context (event : S -> Z -> list Z -> bool -> S * xtc_fsm_result * list (list Z)).
Context (enter : option (S -> Z -> Z -> S * rc)).

(** [fu_mem], [fu_snd]: the outcomes of the allocations and sends to come (good
    ones when the list is used up); [fu_live]: allocated events; [fu_out]: the
    replies that were sent. *)
Record fsm_run : Type := mk_run {
  fu_state : S;
  fu_cur : Z;
  fu_pq : list (list Z);
  fu_timeout_ns : Z;
  fu_mem : list bool;
  fu_snd : list rc;
  fu_live : Z;
  fu_out : list (xtc_pid * list Z);
}.

Definition with_pq (r : fsm_run) (pq : list (list Z)) (live : Z) : fsm_run :=
  mk_run (fu_state r) (fu_cur r) pq (fu_timeout_ns r) (fu_mem r) (fu_snd r) live (fu_out r).
Definition with_timeout (r : fsm_run) (t : Z) : fsm_run :=
  mk_run (fu_state r) (fu_cur r) (fu_pq r) t (fu_mem r) (fu_snd r) (fu_live r) (fu_out r).
Definition with_state (r : fsm_run) (s : S) (cur : Z) : fsm_run :=
  mk_run s cur (fu_pq r) (fu_timeout_ns r) (fu_mem r) (fu_snd r) (fu_live r) (fu_out r).

(** An allocation, and a send. *)
Definition malloc (r : fsm_run) : bool * fsm_run :=
  (hd true (fu_mem r),
   mk_run (fu_state r) (fu_cur r) (fu_pq r) (fu_timeout_ns r) (tail (fu_mem r)) (fu_snd r) (fu_live r) (fu_out r)).
Definition send_owned (r : fsm_run) (to : xtc_pid) (m : list Z) : rc * fsm_run :=
  let c := hd XTC_OK (fu_snd r) in
  (c, mk_run (fu_state r) (fu_cur r) (fu_pq r) (fu_timeout_ns r) (fu_mem r) (tail (fu_snd r)) (fu_live r)
        (if decide (c = XTC_OK) then fu_out r ++ [(to, m)] else fu_out r)).

Definition fsm_postpone (r : fsm_run) (payload : list Z) : rc * fsm_run :=
  let '(ok, r) := malloc r in
  if ok then (XTC_OK, with_pq r (fu_pq r ++ [payload]) (fu_live r + 1)) else (XTC_E_NOMEM, r).

Definition fsm_pq_free (r : fsm_run) : fsm_run := with_pq r [] (fu_live r - Z.of_nat (length (fu_pq r))).

Definition free_events (n : nat) (r : fsm_run) : fsm_run := with_pq r (fu_pq r) (fu_live r - Z.of_nat n).

Definition xtc_fsm_reply (r : fsm_run) (call : xtc_fsm_call_t) (reply : list Z) : rc * xtc_fsm_call_t * fsm_run :=
  if fc_replied call then (XTC_E_INVAL, call, r)
  else if xtc_pid_is_none (fc_pid call) then (XTC_OK, mk_call (fc_pid call) (fc_tag call) true, r)
  else if decide (Z.of_nat (length reply) > SIZE_MAX - FSM_REPLY_HDR) then (XTC_E_INVAL, call, r)
  else
    let '(ok, r) := malloc r in
    if ok then
      let '(c, r) := send_owned r (fc_pid call) (reply_frame (fc_tag call) reply) in
      (c, mk_call (fc_pid call) (fc_tag call) true, r)
    else (XTC_E_NOMEM, call, r).

(** The replies the callback gives, in order. *)
Fixpoint give_replies (r : fsm_run) (call : xtc_fsm_call_t) (l : list (list Z)) : xtc_fsm_call_t * fsm_run :=
  match l with
  | [] => (call, r)
  | x :: l => let '(_, call, r) := xtc_fsm_reply r call x in give_replies r call l
  end.

Definition armed (ns : Z) : Z := if decide (ns > 0) then ns else -1.

(** The replay of the events detached from the queue, each freed after its
    dispatch; a stop frees the rest. *)
Section Replay.
Context (dispatch : fsm_run -> list Z -> option (bool * fsm_run)).

Fixpoint fsm_replay (l : list (list Z)) (r : fsm_run) : option (bool * fsm_run) :=
  match l with
  | [] => Some (true, r)
  | p :: l =>
      match dispatch r p with
      | None => None
      | Some (true, r) => fsm_replay l (free_events 1 r)
      | Some (false, r) => Some (false, free_events (length l) (free_events 1 r))
      end
  end.
End Replay.

(** The switch of [fsm_apply], given the dispatch of replayed events. *)
Definition fsm_apply (dispatch : fsm_run -> list Z -> option (bool * fsm_run)) (r : fsm_run) (res : xtc_fsm_result) :
    option (bool * fsm_run) :=
  match fr_action res with
  | XTC_FSM_KEEP => Some (true, with_timeout r (armed (fr_timeout_ns res)))
  | XTC_FSM_STOP => Some (false, r)
  | XTC_FSM_NEXT =>
      let old := fu_cur r in
      let r := with_state r (fu_state r) (fr_next_state res) in
      let '(s, c) := match enter with Some f => f (fu_state r) old (fu_cur r) | None => (fu_state r, XTC_OK) end in
      let r := with_state r s (fu_cur r) in
      if decide (c <> XTC_OK) then Some (false, r)
      else
        let r := with_timeout r (armed (fr_timeout_ns res)) in
        fsm_replay dispatch (fu_pq r) (with_pq r [] (fu_live r))
  | XTC_FSM_POSTPONE => Some (true, r)
  end.

(** [fsm_dispatch] of an event that is not a call; the fuel bounds the depth
    of the recursion. *)
Fixpoint fsm_dispatch (fuel : nat) (r : fsm_run) (msg : list Z) : option (bool * fsm_run) :=
  match fuel with
  | O => None
  | Datatypes.S fuel =>
      let '(s, res, _) := event (fu_state r) (fu_cur r) msg false in
      let r := with_state r s (fu_cur r) in
      match fr_action res with
      | XTC_FSM_POSTPONE => Some (true, with_timeout (fsm_postpone r msg).2 (-1))
      | _ => fsm_apply (fsm_dispatch fuel) r res
      end
  end.

(** [fsm_dispatch] of a call. *)
Definition fsm_dispatch_call (fuel : nat) (r : fsm_run) (msg : list Z) (call : xtc_fsm_call_t) :
    option (bool * fsm_run * xtc_fsm_call_t) :=
  let '(s, res, replies) := event (fu_state r) (fu_cur r) msg true in
  let '(call, r) := give_replies (with_state r s (fu_cur r)) call replies in
  match fr_action res with
  | XTC_FSM_POSTPONE =>
      if fc_replied call then Some (true, r, call)
      else let '(_, call, r) := xtc_fsm_reply r call [] in Some (true, r, call)
  | _ => match fsm_apply (fsm_dispatch fuel) r res with
         | Some (run, r) => Some (run, r, call)
         | None => None
         end
  end.

(** What a receive gives: nothing in time, an error, a message. *)
Inductive received : Type := RvAgain | RvError | RvMsg (m : list Z).

(** The depth that is always enough: one more than the events that wait. *)
Definition depth (r : fsm_run) : nat := Datatypes.S (length (fu_pq r)).

(** One turn of the loop; [false]: the loop is left. *)
Definition fsm_turn (r : fsm_run) (x : received) : option (bool * fsm_run) :=
  match x with
  | RvAgain =>
      if decide (fu_timeout_ns r > 0) then fsm_dispatch (depth r) (with_timeout r (-1)) [] else Some (true, r)
  | RvError => Some (false, r)
  | RvMsg m =>
      match m with
      | [] => Some (true, r)
      | kind :: pl =>
          if decide (length m = 1%nat /\ kind = KIND_STOP) then Some (false, r)
          else if decide (kind = KIND_EVENT) then fsm_dispatch (depth r) r pl
          else if decide (kind = KIND_CALL /\ Z.of_nat (length m) >= FSM_CALL_HDR) then
            let call := mk_call (pid_of (bytes_at 1 16 m)) (field 17 4 m) false in
            match fsm_dispatch_call (depth r) r (drop (Z.to_nat FSM_CALL_HDR) m) call with
            | Some (run, r, call) =>
                if fc_replied call then Some (run, r) else Some (run, (xtc_fsm_reply r call []).2)
            | None => None
            end
          else Some (true, r)
      end
  end.

(** [fsm_entry]: the stop flag as each turn finds it, and what it receives.
    The result: whether the machine is over (the queue is then freed), and its
    state. *)
Fixpoint fsm_loop (r : fsm_run) (l : list (bool * received)) : option (bool * fsm_run) :=
  match l with
  | [] => Some (false, r)
  | (stop, x) :: l =>
      if stop : bool then Some (true, fsm_pq_free r)
      else match fsm_turn r x with
           | None => None
           | Some (true, r) => fsm_loop r l
           | Some (false, r) => Some (true, fsm_pq_free r)
           end
  end.

Definition fsm_entry (r : fsm_run) (l : list (bool * received)) : option (bool * fsm_run) :=
  match enter with
  | None => fsm_loop r l
  | Some f =>
      let '(s, c) := f (fu_state r) (fu_cur r) (fu_cur r) in
      let r := with_state r s (fu_cur r) in
      if decide (c <> XTC_OK) then Some (true, fsm_pq_free r) else fsm_loop r l
  end.

(** A machine as [xtc_fsm_start] makes it. *)
Definition fsm_run0 (s : S) (initial : Z) (mem : list bool) (snd : list rc) : fsm_run :=
  mk_run s initial [] (-1) mem snd 0 [].

(** ** What a dispatch means

    The events that wait are offered again, the oldest first, whenever the
    state has changed, and only then the later ones: a change of state starts
    over with all that were kept for later so far and all that are still to
    come. *)

Record spec_st : Type := mk_sp { sp_state : S; sp_cur : Z; sp_waiting : list (list Z); sp_timeout : Z; sp_mem : list bool }.

Definition view (r : fsm_run) : spec_st := mk_sp (fu_state r) (fu_cur r) (fu_pq r) (fu_timeout_ns r) (fu_mem r).

Definition entering (s : S) (old new : Z) : S * rc := match enter with Some f => f s old new | None => (s, XTC_OK) end.

Inductive spec_replay (a : spec_st) : list (list Z) -> bool -> spec_st -> Prop :=
  | sr_nil : spec_replay a [] true a
  | sr_keep e todo s res x b a' :
      event (sp_state a) (sp_cur a) e false = (s, res, x) -> fr_action res = XTC_FSM_KEEP ->
      spec_replay (mk_sp s (sp_cur a) (sp_waiting a) (armed (fr_timeout_ns res)) (sp_mem a)) todo b a' ->
      spec_replay a (e :: todo) b a'
  | sr_postpone e todo s res x b a' :
      event (sp_state a) (sp_cur a) e false = (s, res, x) -> fr_action res = XTC_FSM_POSTPONE ->
      spec_replay (mk_sp s (sp_cur a) (if hd true (sp_mem a) then sp_waiting a ++ [e] else sp_waiting a) (-1) (tail (sp_mem a)))
        todo b a' ->
      spec_replay a (e :: todo) b a'
  | sr_stop e todo s res x :
      event (sp_state a) (sp_cur a) e false = (s, res, x) -> fr_action res = XTC_FSM_STOP ->
      spec_replay a (e :: todo) false (mk_sp s (sp_cur a) (sp_waiting a) (sp_timeout a) (sp_mem a))
  | sr_refused e todo s res x s' c :
      event (sp_state a) (sp_cur a) e false = (s, res, x) -> fr_action res = XTC_FSM_NEXT ->
      entering s (sp_cur a) (fr_next_state res) = (s', c) -> c <> XTC_OK ->
      spec_replay a (e :: todo) false (mk_sp s' (fr_next_state res) (sp_waiting a) (sp_timeout a) (sp_mem a))
  | sr_next e todo s res x s' b a' :
      event (sp_state a) (sp_cur a) e false = (s, res, x) -> fr_action res = XTC_FSM_NEXT ->
      entering s (sp_cur a) (fr_next_state res) = (s', XTC_OK) ->
      spec_replay (mk_sp s' (fr_next_state res) [] (armed (fr_timeout_ns res)) (sp_mem a)) (sp_waiting a ++ todo) b a' ->
      spec_replay a (e :: todo) b a'.

(** What no event that is not a call touches, and the count of events. *)
Record framed (k : Z) (r r' : fsm_run) : Prop := mk_framed {
  fm_out : fu_out r' = fu_out r;
  fm_snd : fu_snd r' = fu_snd r;
  fm_live : fu_live r' - Z.of_nat (length (fu_pq r')) = fu_live r - Z.of_nat (length (fu_pq r)) - k;
  fm_mem : fu_mem r = [] -> fu_mem r' = [];
}.

(** [r'] is where the machine is after the events [l] of a replay, of which
    there are more to come if [b]. *)
Record did (r : fsm_run) (l : list (list Z)) (b : bool) (r' : fsm_run) : Prop := mk_did {
  dd_more : b = true -> forall todo b' a', spec_replay (view r') todo b' a' -> spec_replay (view r) (l ++ todo) b' a';
  dd_stop : b = false -> forall todo, spec_replay (view r) (l ++ todo) false (view r');
  dd_wait : (length (fu_pq r') <= length (fu_pq r) + length l)%nat;
}.

Lemma framed_trans j k r1 r2 r3 : framed j r1 r2 -> framed k r2 r3 -> framed (j + k) r1 r3.
Proof. intros [] []. split; [congruence|congruence|lia|auto]. Qed.

Lemma framed_free n r : framed (Z.of_nat n) r (free_events n r).
Proof. split; simpl; [done|done|lia|done]. Qed.

Lemma loop_did fuel :
  (forall r e, (length (fu_pq r) < fuel)%nat -> exists b r', fsm_dispatch fuel r e = Some (b, r') /\ did r [e] b r' /\ framed 0 r r') ->
  forall l r, (length (fu_pq r) + length l <= fuel)%nat ->
  exists b r', fsm_replay (fsm_dispatch fuel) l r = Some (b, r') /\ did r l b r' /\ framed (Z.of_nat (length l)) r r'.
Proof.
  intros Hd l. induction l as [|e l IH]; intros r Hl; simpl in Hl.
  { exists true, r. split; [done|]. split; [split; simpl; [done|done|lia]|split; simpl; [done|done|lia|done]]. }
  destruct (Hd r e) as (b & r1 & E & D & F); [lia|]. cbn [fsm_replay]. rewrite E.
  pose proof (framed_trans _ _ _ _ _ F (framed_free 1 r1)) as F1. destruct b.
  - pose proof (dd_wait _ _ _ _ D) as Hw. simpl in Hw.
    destruct (IH (free_events 1 r1)) as (b & r2 & E2 & D2 & F2); [simpl; lia|]. exists b, r2. split; [done|]. split.
    + split.
      * intros -> todo b' a' H. apply (dd_more _ _ _ _ D eq_refl), (dd_more _ _ _ _ D2 eq_refl), H.
      * intros -> todo. apply (dd_more _ _ _ _ D eq_refl), (dd_stop _ _ _ _ D2 eq_refl).
      * pose proof (dd_wait _ _ _ _ D2). simpl in *. lia.
    + pose proof (framed_trans _ _ _ _ _ F1 F2) as []. split; [done|done| |done]. rewrite length_cons. lia.
  - exists false, (free_events (length l) (free_events 1 r1)). split; [done|]. split.
    + split; [done| |pose proof (dd_wait _ _ _ _ D); simpl in *; lia].
      intros _ todo. apply (dd_stop _ _ _ _ D eq_refl (l ++ todo)).
    + pose proof (framed_trans _ _ _ _ _ F1 (framed_free (length l) (free_events 1 r1))) as []. split; [done|done| |done]. rewrite length_cons. lia.
Qed.

Lemma apply_next fuel r e s res x :
  event (fu_state r) (fu_cur r) e false = (s, res, x) -> fr_action res = XTC_FSM_NEXT -> (length (fu_pq r) <= fuel)%nat ->
  (forall r e, (length (fu_pq r) < fuel)%nat -> exists b r', fsm_dispatch fuel r e = Some (b, r') /\ did r [e] b r' /\ framed 0 r r') ->
  exists b r', fsm_apply (fsm_dispatch fuel) (with_state r s (fu_cur r)) res = Some (b, r') /\ did r [e] b r' /\ framed 0 r r'.
Proof.
  intros E Ha Hl IH. unfold fsm_apply. rewrite Ha. fold (entering s (fu_cur r) (fr_next_state res)). simpl.
  destruct (entering s (fu_cur r) (fr_next_state res)) as [s' c] eqn:Een. unfold entering in Een. simpl in Een. rewrite Een.
  destruct (decide (c <> XTC_OK)) as [Hc|Hc].
  { do 2 eexists. split; [done|]. split; [|split; simpl; [done|done|lia|done]].
    split; [done| |simpl; lia]. intros _ todo. by eapply sr_refused. }
  assert (c = XTC_OK) as -> by (by destruct (decide (c = XTC_OK))). 
  edestruct (loop_did fuel IH (fu_pq r) (mk_run s' (fr_next_state res) [] (armed (fr_timeout_ns res)) (fu_mem r) (fu_snd r) (fu_live r) (fu_out r)))
    as (b & r' & E' & D & F); [simpl; lia|]. exists b, r'. split; [exact E'|]. split.
  - split.
    + intros -> todo b' a' H. eapply sr_next; [done..|]. apply (dd_more _ _ _ _ D eq_refl), H.
    + intros -> todo. eapply sr_next; [done..|]. apply (dd_stop _ _ _ _ D eq_refl).
    + pose proof (dd_wait _ _ _ _ D) as H. simpl in *. lia.
  - destruct F as [F1 F2 F3 F4]. simpl in *. split; [done|done|lia|done].
Qed.

Lemma dispatch_did fuel r e :
  (length (fu_pq r) < fuel)%nat -> exists b r', fsm_dispatch fuel r e = Some (b, r') /\ did r [e] b r' /\ framed 0 r r'.
Proof.
  revert r e. induction fuel as [|fuel IH]; intros r e Hl; [lia|]. simpl.
  destruct (event (fu_state r) (fu_cur r) e false) as [[s res] x] eqn:E. destruct (fr_action res) eqn:Ha.
  - unfold fsm_apply. rewrite Ha. do 2 eexists. split; [done|]. split; [|split; simpl; [done|done|lia|done]].
    split; [|done|simpl; lia]. intros _ todo b' a' H. by eapply sr_keep.
  - eapply apply_next; [done|done|lia|done].
  - do 2 eexists. split; [done|]. unfold fsm_postpone, malloc. simpl. destruct (hd true (fu_mem r)) eqn:Hm.
    + split; [|split; simpl; [done|done|rewrite length_app; simpl; lia|by intros ->]].
      split; [|done|simpl; rewrite length_app; simpl; lia]. intros _ todo b' a' H. eapply sr_postpone; [done..|]. simpl. by rewrite Hm.
    + split; [|split; simpl; [done|done|lia|by intros ->]].
      split; [|done|simpl; lia]. intros _ todo b' a' H. eapply sr_postpone; [done..|]. simpl. by rewrite Hm.
  - unfold fsm_apply. rewrite Ha. do 2 eexists. split; [done|]. split; [|split; simpl; [done|done|lia|done]].
    split; [done| |simpl; lia]. intros _ todo. by eapply sr_stop.
Qed.

Lemma apply_framed fuel r res :
  (length (fu_pq r) <= fuel)%nat -> exists b r', fsm_apply (fsm_dispatch fuel) r res = Some (b, r') /\ framed 0 r r'.
Proof.
  intros Hl. unfold fsm_apply. destruct (fr_action res); try (do 2 eexists; split; [done|split; simpl; [done|done|lia|done]]).
  simpl. destruct (match enter with Some f => _ | None => _ end) as [s c]. case_decide.
  { do 2 eexists. split; [done|split; simpl; [done|done|lia|done]]. }
  edestruct (loop_did fuel (dispatch_did fuel) (fu_pq r)) as (b & r' & E & _ & F); [|do 2 eexists; split; [exact E|]].
  { simpl. lia. }
  destruct F as [F1 F2 F3 F4]. simpl in *. split; [done|done|lia|done].
Qed.

(** *** Replies *)

(** A call between two points: nothing was sent to it, or one reply, and then
    it is marked as answered, and nothing more is sent. *)
Record answering (r : fsm_run) (c : xtc_fsm_call_t) (c' : xtc_fsm_call_t) (r' : fsm_run) : Prop := mk_answering {
  an_call : fc_pid c' = fc_pid c /\ fc_tag c' = fc_tag c;
  an_live : fu_live r' - Z.of_nat (length (fu_pq r')) = fu_live r - Z.of_nat (length (fu_pq r));
  an_done : fc_replied c = true -> fc_replied c' = true /\ fu_out r' = fu_out r;
  an_out : fu_out r' = fu_out r \/ fc_replied c' = true /\ exists x, fu_out r' = fu_out r ++ [(fc_pid c, reply_frame (fc_tag c) x)];
  an_good : fu_mem r = [] -> fu_snd r = [] -> fu_mem r' = [] /\ fu_snd r' = [];
}.

Lemma answering_refl r c : answering r c c r.
Proof. split; auto. Qed.

Lemma answering_trans r1 c1 c2 r2 c3 r3 : answering r1 c1 c2 r2 -> answering r2 c2 c3 r3 -> answering r1 c1 c3 r3.
Proof.
  intros [[A1 A2] A3 A5 A6 A7] [[B1 B2] B3 B5 B6 B7]. split.
  - split; congruence.
  - congruence.
  - intros H. destruct (A5 H) as [H1 H2]. destruct (B5 H1) as [H3 H4]. split; congruence.
  - destruct A6 as [A6|(H & x & A6)].
    + destruct B6 as [B6|(H & x & B6)]; [left; congruence|]. right. split; [done|]. exists x. congruence.
    + destruct (B5 H) as [H1 H2]. right. split; [done|]. exists x. congruence.
  - intros H1 H2. destruct (A7 H1 H2). auto.
Qed.

Lemma answering_framed r c r' : framed 0 r r' -> answering r c c r'.
Proof. intros [F1 F2 F3 F4]. split; auto; [lia|]. intros H1 H2. split; [auto|congruence]. Qed.

Lemma reply_answering r c x : answering r c (xtc_fsm_reply r c x).1.2 (xtc_fsm_reply r c x).2.
Proof.
  unfold xtc_fsm_reply. destruct (fc_replied c) eqn:Hr; [apply answering_refl|].
  destruct (xtc_pid_is_none _); [split; simpl; auto; intros; congruence|]. case_decide; [apply answering_refl|].
  unfold malloc, send_owned. destruct (hd true (fu_mem r)); simpl; split; simpl; auto; try (intros; congruence).
  - case_decide; [right|by left]. eauto.
  - intros -> ->. done.
  - intros -> ->. done.
Qed.

Lemma replies_answering r c l : answering r c (give_replies r c l).1 (give_replies r c l).2.
Proof.
  revert r c. induction l as [|x l IH]; intros r c; simpl; [apply answering_refl|].
  pose proof (reply_answering r c x) as H. destruct (xtc_fsm_reply r c x) as [[rc c'] r']. simpl in H.
  eapply answering_trans; [exact H|apply IH].
Qed.

Lemma replies_pq r c l : fu_pq (give_replies r c l).2 = fu_pq r.
Proof.
  revert r c. induction l as [|x l IH]; intros r c; simpl; [done|].
  assert (fu_pq (xtc_fsm_reply r c x).2 = fu_pq r) as H by (unfold xtc_fsm_reply, malloc, send_owned; repeat case_match; simplify_eq/=; done).
  destruct (xtc_fsm_reply r c x) as [[rc c'] r']. rewrite IH. done.
Qed.

(** With memory and a caller that takes messages a reply is sent. *)
Lemma reply_good r c x :
  fc_replied c = false -> fc_pid c <> XTC_PID_NONE -> fu_mem r = [] -> fu_snd r = [] ->
  Z.of_nat (length x) <= SIZE_MAX - FSM_REPLY_HDR ->
  fc_replied (xtc_fsm_reply r c x).1.2 = true /\
  fu_out (xtc_fsm_reply r c x).2 = fu_out r ++ [(fc_pid c, reply_frame (fc_tag c) x)].
Proof.
  intros Hr Hp Hm Hs Hx. unfold xtc_fsm_reply. rewrite Hr, xtc_pid_is_none_spec, bool_decide_false by done.
  rewrite decide_False by lia. unfold malloc, send_owned. rewrite Hm, Hs. done.
Qed.

(** The reply that counts: the callback's first, or an empty one. *)
Definition first_reply (l : list (list Z)) : list Z := hd [] l.

(** How a call stands after the replies [l] of the callback, when nothing
    fails. *)
Record served (r : fsm_run) (c : xtc_fsm_call_t) (l : list (list Z)) (c' : xtc_fsm_call_t) (r' : fsm_run) : Prop := mk_served {
  sv_answering : answering r c c' r';
  sv_good : fu_mem r = [] -> fu_snd r = [] -> fc_pid c <> XTC_PID_NONE ->
    Forall (fun x => Z.of_nat (length x) <= SIZE_MAX - FSM_REPLY_HDR) l ->
    if fc_replied c' then fu_out r' = fu_out r ++ [(fc_pid c, reply_frame (fc_tag c) (first_reply l))]
    else l = [] /\ fu_out r' = fu_out r;
}.

Lemma served_replies r c l : fc_replied c = false -> served r c l (give_replies r c l).1 (give_replies r c l).2.
Proof.
  intros Hr. split; [apply replies_answering|]. intros Hm Hs Hp Hl. destruct l as [|x l]; simpl; [by rewrite Hr|].
  apply Forall_cons in Hl as [Hx _]. destruct (reply_good r c x Hr Hp Hm Hs Hx) as [G1 G2].
  destruct (xtc_fsm_reply r c x) as [[rc c'] r']. simpl in *.
  destruct (an_done _ _ _ _ (replies_answering r' c' l) G1) as [-> ->]. done.
Qed.

Lemma served_framed r c l c1 r1 r2 : served r c l c1 r1 -> framed 0 r1 r2 -> served r c l c1 r2.
Proof.
  intros [A G] F. split; [by eapply answering_trans, answering_framed|]. intros Hm Hs Hp Hl.
  rewrite (fm_out _ _ _ F). by apply G.
Qed.

(** The empty reply to a call that has none. *)
Definition empty_reply (r : fsm_run) (c : xtc_fsm_call_t) : xtc_fsm_call_t * fsm_run :=
  if fc_replied c then (c, r) else ((xtc_fsm_reply r c []).1.2, (xtc_fsm_reply r c []).2).

Lemma served_empty r c l c1 r1 : served r c l c1 r1 -> served r c l (empty_reply r1 c1).1 (empty_reply r1 c1).2.
Proof.
  intros [A G]. unfold empty_reply. destruct (fc_replied c1) eqn:Hr; [split; simpl; [done|by rewrite Hr]|].
  split; [eapply answering_trans, reply_answering; done|]. simpl. intros Hm Hs Hp Hl. specialize (G Hm Hs Hp Hl) as [El Eo].
  destruct (an_good _ _ _ _ A Hm Hs) as [Hm1 Hs1], (an_call _ _ _ _ A) as [Ec1 Ec2].
  destruct (reply_good r1 c1 []) as [G1 G2]; [done|congruence|done|done|done|]. rewrite G1, G2, Eo, Ec1, Ec2, El. done.
Qed.

Lemma served_done r c l c1 r1 :
  served r c l c1 r1 -> fu_mem r = [] -> fu_snd r = [] -> fc_pid c <> XTC_PID_NONE ->
  Forall (fun x => Z.of_nat (length x) <= SIZE_MAX - FSM_REPLY_HDR) l ->
  fu_out (empty_reply r1 c1).2 = fu_out r ++ [(fc_pid c, reply_frame (fc_tag c) (first_reply l))].
Proof.
  intros H Hm Hs Hp Hl. pose proof (sv_good _ _ _ _ _ H Hm Hs Hp Hl) as G. pose proof (sv_answering _ _ _ _ _ H) as A.
  unfold empty_reply. destruct (fc_replied c1) eqn:Hr; [done|]. destruct G as [El Eo].
  destruct (an_good _ _ _ _ A Hm Hs) as [Hm1 Hs1], (an_call _ _ _ _ A) as [Ec1 Ec2].
  destruct (reply_good r1 c1 []) as [_ G2]; [done|congruence|done|done|done|]. simpl. by rewrite G2, Eo, Ec1, Ec2, El.
Qed.

(** *** Turns of the loop *)

Lemma call_dispatched r msg c :
  fc_replied c = false ->
  exists b r' c', fsm_dispatch_call (depth r) r msg c = Some (b, r', c') /\ served r c (event (fu_state r) (fu_cur r) msg true).2 c' r'.
Proof.
  intros Hc. unfold fsm_dispatch_call. destruct (event (fu_state r) (fu_cur r) msg true) as [[s res] l] eqn:E. cbn [snd].
  assert (served r c l (give_replies (with_state r s (fu_cur r)) c l).1 (give_replies (with_state r s (fu_cur r)) c l).2) as H.
  { destruct (served_replies (with_state r s (fu_cur r)) c l Hc) as [[] G]. by split. }
  destruct (give_replies (with_state r s (fu_cur r)) c l) as [c2 r2] eqn:Eg. simpl in H.
  assert (length (fu_pq r2) <= depth r)%nat as Hle.
  { pose proof (replies_pq (with_state r s (fu_cur r)) c l) as Hq. rewrite Eg in Hq. simpl in Hq. rewrite Hq. unfold depth. lia. }
  destruct (apply_framed (depth r) r2 res Hle) as (b & r3 & Ea & F).
  destruct (fr_action res); try (rewrite Ea; do 3 eexists; split; [done|]; by eapply served_framed).
  pose proof (served_empty _ _ _ _ _ H) as H'. unfold empty_reply in H'. destruct (fc_replied c2); [exists true, r2, c2; by split|].
  destruct (xtc_fsm_reply r2 c2 []) as [[x c3] r3']. exists true, r3', c3. by split.
Qed.

Lemma turn_total r x :
  exists b r', fsm_turn r x = Some (b, r') /\
    fu_live r' - Z.of_nat (length (fu_pq r')) = fu_live r - Z.of_nat (length (fu_pq r)).
Proof.
  destruct x as [| |[|kind pl]]; cbn [fsm_turn]; [|by do 2 eexists|by do 2 eexists|].
  - case_decide; [|by do 2 eexists]. destruct (dispatch_did (depth r) (with_timeout r (-1)) []) as (b & r' & -> & _ & F); [unfold depth; simpl; lia|].
    do 2 eexists. split; [done|]. destruct F. simpl in *. lia.
  - case_decide; [by do 2 eexists|]. case_decide.
    { destruct (dispatch_did (depth r) r pl) as (b & r' & -> & _ & F); [unfold depth; lia|].
      do 2 eexists. split; [done|]. destruct F. lia. }
    case_decide; [|by do 2 eexists].
    edestruct (call_dispatched r) as (b & r' & c' & -> & Hsv); [|cbn iota beta].
    2: { pose proof (sv_answering _ _ _ _ _ (served_empty _ _ _ _ _ Hsv)) as A. unfold empty_reply in A.
         destruct (fc_replied c'); do 2 eexists; (split; [done|]); apply (an_live _ _ _ _ A). }
    done.
Qed.

(** C24: a dispatch does what the states mean.  Whatever the callbacks do and
    however memory is refused, the recursion of dispatch and apply returns,
    no deeper than one more than the number of waiting events; its result is
    that of the restart semantics: events that wait are replayed the oldest
    first after every change of state, ahead of later ones, each in the state
    the machine is then in; an event is kept once and freed once. *)
Theorem fsm_dispatch_refines r e :
  exists b r', fsm_dispatch (depth r) r e = Some (b, r') /\ spec_replay (view r) [e] b (view r') /\
    fu_out r' = fu_out r /\
    fu_live r' - Z.of_nat (length (fu_pq r')) = fu_live r - Z.of_nat (length (fu_pq r)).
Proof.
  destruct (dispatch_did (depth r) r e) as (b & r' & E & D & F); [unfold depth; lia|]. exists b, r'.
  split; [done|]. split; [|split; [apply F|destruct F; lia]]. destruct b.
  - apply (dd_more _ _ _ _ D eq_refl []). constructor.
  - apply (dd_stop _ _ _ _ D eq_refl []).
Qed.

(** C29: a call is answered once.  Whatever the callback does with a call and
    whatever the machine then does, the caller is sent at most one reply, with
    its own tag.  If the callback does not postpone the call and nothing fails,
    it is sent exactly one: the callback's first, however often it replies, or
    an empty one if it never does.  What a postponed call is sent is left open
    here: the comments promise XTC_E_AGAIN ([kept_call_gets_empty_reply]). *)
Theorem fsm_call_answered r self tag req :
  pid_ok self -> self <> XTC_PID_NONE -> 0 <= tag < 2 ^ 32 ->
  let replies := (event (fu_state r) (fu_cur r) req true).2 in
  let result := (event (fu_state r) (fu_cur r) req true).1.2 in
  exists b r', fsm_turn r (RvMsg (call_frame self tag req)) = Some (b, r') /\
    (fu_out r' = fu_out r \/ exists x, fu_out r' = fu_out r ++ [(self, reply_frame tag x)]) /\
    (fr_action result <> XTC_FSM_POSTPONE -> fu_mem r = [] -> fu_snd r = [] -> Forall (fun x => Z.of_nat (length x) <= SIZE_MAX - FSM_REPLY_HDR) replies ->
     fu_out r' = fu_out r ++ [(self, reply_frame tag (first_reply replies))]).
Proof.
  intros Hp Hn Ht replies result. destruct (call_frame_fields self tag req Hp Ht) as (E1 & E2 & E3 & E4).
  unfold fsm_turn. destruct (call_frame self tag req) as [|k m] eqn:Em; [done|].
  assert (k = KIND_CALL) as -> by (unfold call_frame in Em; congruence).
  rewrite decide_False by (intros [_ ?]; done). rewrite decide_False by done. rewrite decide_True by (split; [done|lia]).
  rewrite E1, E2, E3. destruct (call_dispatched r req (mk_call self tag false) eq_refl) as (b & r' & c' & -> & H).
  pose proof (sv_answering _ _ _ _ _ (served_empty _ _ _ _ _ H)) as A. pose proof (served_done _ _ _ _ _ H) as G.
  exists b, (empty_reply r' c').2. split; [unfold empty_reply; by destruct (fc_replied c')|]. split.
  - destruct (an_out _ _ _ _ A) as [?|[_ ?]]; [by left|by right].
  - intros. by apply G.
Qed.

(** A machine runs without getting stuck and keeps no event behind: for
    every sequence of receives, stops, refused allocations and callbacks the
    loop goes through, the events it holds are those in its queue, and when it
    is over every event it allocated was freed. *)
Theorem fsm_run_no_leak s initial mem snd l :
  exists over r, fsm_entry (fsm_run0 s initial mem snd) l = Some (over, r) /\
    fu_live r = Z.of_nat (length (fu_pq r)) /\ (over = true -> fu_pq r = [] /\ fu_live r = 0).
Proof.
  assert (forall l r, fu_live r = Z.of_nat (length (fu_pq r)) -> exists over r', fsm_loop r l = Some (over, r') /\
    fu_live r' = Z.of_nat (length (fu_pq r')) /\ (over = true -> fu_pq r' = [] /\ fu_live r' = 0)) as Hloop.
  { clear. intros l. induction l as [|[[] x] l IH]; intros r Hr; cbn [fsm_loop].
    - exists false, r. done.
    - exists true, (fsm_pq_free r). simpl. split_and!; [done|lia|]. intros _. split; [done|lia].
    - destruct (turn_total r x) as ([] & r' & -> & Hl); [apply IH; lia|].
      exists true, (fsm_pq_free r'). simpl. split_and!; [done|lia|]. intros _. split; [done|lia]. }
  unfold fsm_entry. destruct enter as [f|]; [|by apply Hloop]. destruct (f _ _ _) as [s' c]. case_decide; [|by apply Hloop].
  exists true, (fsm_pq_free (with_state (fsm_run0 s initial mem snd) s' initial)). split; done.
Qed.
End Machine.

(** ** The client's side *)

Definition __match_fsm_reply (m : list Z) : bool :=
  if decide (Z.of_nat (length m) < FSM_REPLY_HDR) then false
  else bool_decide (bytes_at (length m - 8) 8 m = FSM_REPLY_MAGIC).

Definition reply_tag (m : list Z) : Z := field (length m - 12) 4 m.
Definition reply_payload (m : list Z) : list Z := take (length m - 12) m.

(** [xtc_fsm_send]: [mem], [snd]: the outcomes of the allocation and the send;
    the frame that is sent, if any. *)
Definition xtc_fsm_send (ev : list Z) (mem : bool) (snd : rc) : rc * option (list Z) :=
  if decide (Z.of_nat (length ev) > SIZE_MAX - 1) then (XTC_E_INVAL, None)
  else if negb mem then (XTC_E_NOMEM, None)
  else (snd, if decide (snd = XTC_OK) then Some (event_frame ev) else None).

(** The loop of selective receives over the mail that arrives before the
    deadline, in order: each takes the earliest message that is a reply (see
    [mbox_takes_earliest] of Mbox.v), and the others stay. *)
Fixpoint fsm_await (tag : Z) (skipped mail : list (list Z)) : option (list Z) * list (list Z) :=
  match mail with
  | [] => (None, skipped)
  | m :: mail =>
      if __match_fsm_reply m then
        if decide (reply_tag m = tag) then (Some (reply_payload m), skipped ++ mail)
        else fsm_await tag skipped mail
      else fsm_await tag (skipped ++ [m]) mail
  end.

(** The deadline of a call with a time limit. *)
Definition fsm_deadline (timeout_ns now : Z) : Z := i64 (now + timeout_ns).

(** [xtc_fsm_call] of a process [self] with the next tag: the result, the frame
    that is sent, the reply and the mail that is left. *)
Definition xtc_fsm_call (self : xtc_pid) (tag : Z) (req : list Z) (mem : bool) (snd : rc) (mail : list (list Z)) :
    rc * option (list Z) * option (list Z) * list (list Z) :=
  if decide (Z.of_nat (length req) > SIZE_MAX - FSM_CALL_HDR) then (XTC_E_INVAL, None, None, mail)
  else if xtc_pid_is_none self then (XTC_E_INVAL, None, None, mail)
  else if negb mem then (XTC_E_NOMEM, None, None, mail)
  else if decide (snd <> XTC_OK) then (snd, None, None, mail)
  else
    let '(x, rest) := fsm_await tag [] mail in
    (match x with Some _ => XTC_OK | None => XTC_E_AGAIN end, Some (call_frame self tag req), x, rest).

(** [xtc_fsm_join]: [polls]: whether each look at the table still finds the
    machine; [None]: still waiting. *)
Definition JOIN_STEP : Z := 1000 * 1000.
Fixpoint join_loop (timeout waited : Z) (polls : list bool) : option rc :=
  match polls with
  | [] => None
  | here :: polls =>
      if negb here then Some XTC_OK
      else if decide (timeout = 0) then Some XTC_E_AGAIN
      else if decide (timeout > 0 /\ waited >= timeout) then Some XTC_E_AGAIN
      else join_loop timeout (waited + JOIN_STEP) polls
  end.
Definition xtc_fsm_join (timeout : Z) (polls : list bool) : option rc := join_loop timeout 0 polls.

Lemma length_reply_frame tag x : length (reply_frame tag x) = (length x + 12)%nat.
Proof. unfold reply_frame. by rewrite !length_app, length_to_le. Qed.

Lemma reply_frame_fields tag x :
  0 <= tag < 2 ^ 32 ->
  __match_fsm_reply (reply_frame tag x) = true /\ reply_tag (reply_frame tag x) = tag /\ reply_payload (reply_frame tag x) = x.
Proof.
  intros Ht. unfold __match_fsm_reply, reply_tag, reply_payload. rewrite length_reply_frame. unfold FSM_REPLY_HDR.
  rewrite decide_False by lia. unfold reply_frame, field. split_and!.
  - apply bool_decide_eq_true. rewrite app_assoc, bytes_at_skip by (rewrite length_app, length_to_le; lia).
    rewrite length_app, length_to_le. replace (length x + 12 - 8 - (length x + 4))%nat with 0%nat by lia. done.
  - rewrite bytes_at_skip by lia. replace (length x + 12 - 12 - length x)%nat with 0%nat by lia.
    rewrite bytes_at_here, of_le_to_le by (by rewrite length_to_le). by apply Z.mod_small.
  - replace (length x + 12 - 12)%nat with (length x) by lia. apply take_app_length.
Qed.

Lemma await_spec tag skipped mail :
  let x := fsm_await tag skipped mail in
  filter (fun m => __match_fsm_reply m = false) x.2 = filter (fun m => __match_fsm_reply m = false) (skipped ++ mail) /\
  (forall p, x.1 = Some p -> exists m, m ∈ mail /\ __match_fsm_reply m = true /\ reply_tag m = tag /\ reply_payload m = p) /\
  (x.1 = None <-> forall m, m ∈ mail -> __match_fsm_reply m = true -> reply_tag m <> tag).
Proof.
  revert skipped. induction mail as [|m mail IH]; intros skipped; cbn zeta; simpl.
  { rewrite app_nil_r. split_and!; [done|done|]. split; [|done]. intros _ m Hm. by apply elem_of_nil in Hm. }
  destruct (__match_fsm_reply m) eqn:Hm.
  - destruct (decide (reply_tag m = tag)) as [Ht|Ht]; simpl.
    + rewrite !filter_app, filter_cons, decide_False by congruence. split_and!; [done| |].
      * intros p [= <-]. exists m. split_and!; auto. apply list_elem_of_here.
      * split; [done|]. intros H. destruct (H m (list_elem_of_here _ _) Hm Ht).
    + destruct (IH skipped) as (H1 & H2 & H3). rewrite H1, H3, !filter_app, filter_cons, decide_False by congruence.
      split_and!; [done| |].
      * intros p Hp. destruct (H2 p Hp) as (m' & ? & ?). exists m'. split; [by apply list_elem_of_further|done].
      * split; [intros H m' [->|?]%elem_of_cons; [done|auto]|intros H m' ?; apply H; by apply list_elem_of_further].
  - destruct (IH (skipped ++ [m])) as (H1 & H2 & H3). rewrite H1, H3, <- app_assoc. split_and!; [done| |].
    + intros p Hp. destruct (H2 p Hp) as (m' & ? & ?). exists m'. split; [by apply list_elem_of_further|done].
    + split; [intros H m' [->|?]%elem_of_cons; [congruence|auto]|intros H m' ?; apply H; by apply list_elem_of_further].
Qed.

(** A call gets its own reply and nobody's mail is lost.  If the machine's
    reply arrives and no earlier one has its tag, the call returns the payload
    of that reply; a reply to another call is never returned; and all messages
    that are not replies are still there, in their order. *)
Theorem fsm_call_gets_reply self tag req pre post x :
  0 <= tag < 2 ^ 32 -> xtc_pid_is_none self = false -> Z.of_nat (length req) <= SIZE_MAX - FSM_CALL_HDR ->
  (forall m, m ∈ pre -> __match_fsm_reply m = true -> reply_tag m <> tag) ->
  exists rest, xtc_fsm_call self tag req true XTC_OK (pre ++ reply_frame tag x :: post) =
      (XTC_OK, Some (call_frame self tag req), Some x, rest) /\
    filter (fun m => __match_fsm_reply m = false) rest = filter (fun m => __match_fsm_reply m = false) (pre ++ post).
Proof.
  intros Ht Hs Hl Hpre. unfold xtc_fsm_call. rewrite decide_False, Hs by lia. simpl negb. cbv iota. rewrite decide_False by tauto.
  destruct (reply_frame_fields tag x Ht) as (R1 & R2 & R3).
  assert (forall skipped, exists rest, fsm_await tag skipped (pre ++ reply_frame tag x :: post) = (Some x, rest)) as Ha.
  { induction pre as [|m pre IH]; intros skipped; simpl.
    - rewrite R1, decide_True, R3 by done. eauto.
    - assert (forall m', m' ∈ pre -> __match_fsm_reply m' = true -> reply_tag m' <> tag) as Hpre'
        by (intros; apply Hpre; [by apply list_elem_of_further|done]).
      destruct (__match_fsm_reply m) eqn:Hm; [|by apply IH]. rewrite decide_False; [by apply IH|]. apply Hpre; [apply list_elem_of_here|done]. }
  destruct (Ha []) as [rest Hrest]. exists rest. rewrite Hrest. split; [done|].
  pose proof (await_spec tag [] (pre ++ reply_frame tag x :: post)) as (Hf & _). rewrite Hrest in Hf. simpl in Hf.
  rewrite Hf, !filter_app, filter_cons, decide_False by congruence. done.
Qed.

(** A join with a time limit returns. *)
Lemma join_bounded timeout waited polls :
  0 <= timeout -> 0 <= waited -> timeout - waited <= JOIN_STEP * (Z.of_nat (length polls) - 1) -> (1 <= length polls)%nat ->
  exists c, join_loop timeout waited polls = Some c.
Proof.
  revert waited. induction polls as [|here polls IH]; intros waited Ht Hw Hl Hp; simpl in *; [lia|].
  destruct here; simpl; [|by eexists]. case_decide; [by eexists|]. case_decide as Hd; [by eexists|].
  unfold JOIN_STEP in *. apply IH; [lia|lia|lia|]. destruct polls; simpl in *; lia.
Qed.

(** ** Examples *)

(** A machine that logs what it handles.  In state 0 it keeps everything but
    [1], which takes it to state 1 with a timeout; in state 1 it handles [2]
    and goes to state 2 on [3]; in state 2 it handles everything. *)
Definition ex_event (log : list (Z * list Z)) (cur : Z) (e : list Z) (call : bool) : list (Z * list Z) * xtc_fsm_result * list (list Z) :=
  if decide (cur = 0) then
    if decide (e = [1]) then (log ++ [(cur, e)], mk_result XTC_FSM_NEXT 1 5, []) else (log, mk_result XTC_FSM_POSTPONE 0 0, [])
  else if decide (cur = 1) then
    if decide (e = [3]) then (log ++ [(cur, e)], mk_result XTC_FSM_NEXT 2 0, [])
    else if decide (e = [2]) then (log ++ [(cur, e)], mk_result XTC_FSM_KEEP 0 0, []) else (log, mk_result XTC_FSM_POSTPONE 0 0, [])
  else (log ++ [(cur, e)], mk_result XTC_FSM_KEEP 0 0, [[42]; [43]]).

Definition ex_run (l : list (list Z)) := fsm_entry ex_event None (fsm_run0 [] 0 [] []) ((fun e => (false, RvMsg (event_frame e))) <$> l).

(** Two changes of state in one replay: the event that could not be handled in
    state 1 is handled in state 2 before the later one. *)
Example replay_oldest_first :
  fu_state <$> (snd <$> ex_run [[7]; [2]; [3]; [8]; [1]]) = Some [(0, [1]); (1, [2]); (1, [3]); (2, [7]); (2, [8])].
Proof. vm_compute. reflexivity. Qed.

(** An event that is replayed and kept again cancels the timeout that the
    change of state has just armed. *)
Example replay_cancels_timeout :
  (fu_timeout_ns <$> (snd <$> ex_run [[1]]) = Some 5) /\ (fu_timeout_ns <$> (snd <$> ex_run [[7]; [1]]) = Some (-1)).
Proof. vm_compute. split; reflexivity. Qed.

(** A call that is to be kept for later is answered with an empty reply. *)
Example kept_call_gets_empty_reply :
  fu_out <$> (snd <$> fsm_entry ex_event None (fsm_run0 [] 0 [] []) [(false, RvMsg (call_frame (mk_pid 1 2 3) 9 [7]))]) =
    Some [(mk_pid 1 2 3, reply_frame 9 [])].
Proof. vm_compute. reflexivity. Qed.

(** An empty event is a state timeout to the callback. *)
Example empty_event_is_timeout :
  fsm_turn ex_event None (fsm_run0 [] 1 [] []) (RvMsg (event_frame [])) =
  fsm_turn ex_event None (with_timeout (fsm_run0 [] 1 [] []) 5) RvAgain.
Proof. vm_compute. reflexivity. Qed.

(** The EXIT signal of a linked process starts with the byte of an event: a
    machine that traps exits hands its bytes to the callback. *)
Example exit_signal_is_event :
  fsm_turn ex_event None (fsm_run0 [] 2 [] []) (RvMsg (exit_signal 1 (mk_pid 1 2 3) XTC_DOWN_KIND_EXIT)) =
  fsm_turn ex_event None (fsm_run0 [] 2 [] []) (RvMsg (event_frame (tail (exit_signal 1 (mk_pid 1 2 3) XTC_DOWN_KIND_EXIT)))).
Proof. vm_compute. reflexivity. Qed.

(** The longest timeout gives a deadline in the past. *)
Example huge_timeout_expires : fsm_deadline INT64_MAX 1 < 1.
Proof. vm_compute. reflexivity. Qed.

Lemma fsm_call_answered_witness :
  exists b r', fsm_turn ex_event None (fsm_run0 [] 2 [] []) (RvMsg (call_frame (mk_pid 1 2 3) 9 [7])) = Some (b, r') /\
    fu_out r' = [(mk_pid 1 2 3, reply_frame 9 [42])].
Proof.
  destruct (fsm_call_answered ex_event None (fsm_run0 [] 2 [] []) (mk_pid 1 2 3) 9 [7]) as (b & r' & H1 & _ & H2);
    [by split_and!|done|done|].
  exists b, r'. split; [exact H1|]. apply H2; [vm_compute; discriminate|done|done|].
  change (Forall (fun x => Z.of_nat (length x) <= SIZE_MAX - FSM_REPLY_HDR) [[42]; [43]]). repeat constructor; done.
Defined.

Lemma fsm_call_gets_reply_witness :
  exists rest, xtc_fsm_call (mk_pid 1 2 3) 9 [7] true XTC_OK ([[5]; reply_frame 8 [1]] ++ reply_frame 9 [42] :: [[6]]) =
      (XTC_OK, Some (call_frame (mk_pid 1 2 3) 9 [7]), Some [42], rest) /\
    filter (fun m => __match_fsm_reply m = false) rest = [[5]; [6]].
Proof.
  apply (fsm_call_gets_reply (mk_pid 1 2 3) 9 [7] [[5]; reply_frame 8 [1]] [[6]] [42]); [done|done|done|].
  intros m Hm. repeat (apply elem_of_cons in Hm as [->|Hm]; [vm_compute; congruence|]). by apply elem_of_nil in Hm.
Defined.
