(* ===== verification/Svr.v ===== *)
(** * Servers (src/orc/svr.c)

    A server is a process that dispatches messages to callbacks: calls, casts
    and everything else.  A call from a process is answered by a message, a
    call from a plain thread through a slot on the caller's stack, which the
    server reaches only by a number in a hashed table.

    Three parts: the frames and the server's loop, with handlers that may end
    the process; the receive loop of a calling process; the slot table with any
    number of callers that come and give up and servers that reply, interleaved
    at every critical section. *)

From S2P Require Import Prelude Wire.

Local Open Scope Z_scope.

(** ** Frames *)

Definition SVR_REPLY_HDR : Z := 16.
Definition SVR_REPLY_MAGIC : list Z := [254; 120; 116; 99; 115; 118; 114; 165].
Definition SVR_PCALL_HDR : Z := 2 + 16 + 8.
Definition SVR_SCALL_HDR : Z := 10.

Definition BYTE_C : Z := 67.
Definition BYTE_X : Z := 88.
Definition BYTE_S : Z := 83.
Definition BYTE_s : Z := 115.
Definition BYTE_p : Z := 112.

Definition scall_frame (id : Z) (req : list Z) : list Z := BYTE_C :: BYTE_s :: to_le 8 id ++ req.
Definition pcall_frame (self : xtc_pid) (tag : Z) (req : list Z) : list Z :=
  BYTE_C :: BYTE_p :: pid_bytes self ++ to_le 8 tag ++ req.
Definition cast_frame (msg : list Z) : list Z := BYTE_X :: msg.
Definition svr_reply_frame (tag : Z) (reply : list Z) : list Z := reply ++ to_le 8 tag ++ SVR_REPLY_MAGIC.

(** [struct xtc_svr_call]: the route of the reply. *)
Record xtc_svr_call : Type := mk_scall { sc_slot_id : Z; sc_reply_pid : xtc_pid; sc_reply_tag : Z }.

(** What the loop makes of a message. *)
Inductive svr_route : Type :=
  | RtSkip
  | RtCall (call : xtc_svr_call) (payload : list Z)
  | RtCast (payload : list Z)
  | RtInfo (msg : list Z).

Definition svr_parse (m : list Z) : svr_route :=
  if decide (length m = 0%nat) then RtSkip
  else if decide (length m = 1%nat /\ field 0 1 m = BYTE_S) then RtSkip
  else if decide (field 0 1 m = BYTE_C) then
    if decide (Z.of_nat (length m) >= SVR_SCALL_HDR /\ field 1 1 m = BYTE_s) then
      RtCall (mk_scall (field 2 8 m) XTC_PID_NONE 0) (drop (Z.to_nat SVR_SCALL_HDR) m)
    else if decide (Z.of_nat (length m) >= SVR_PCALL_HDR /\ field 1 1 m = BYTE_p) then
      RtCall (mk_scall 0 (pid_of (bytes_at 2 16 m)) (field 18 8 m)) (drop (Z.to_nat SVR_PCALL_HDR) m)
    else RtSkip
  else if decide (field 0 1 m = BYTE_X) then RtCast (drop 1 m)
  else RtInfo m.

(** A server gets what its clients send: the routes and the payloads of
    both kinds of call and of a cast come out of the frames as they went in; a
    slot's number is never 0, so the two routes are never confused; and any
    other message reaches the server whole. *)
Theorem svr_parse_roundtrip id self tag req :
  0 < id < 2 ^ 64 -> pid_ok self -> 0 <= tag < 2 ^ 64 ->
  svr_parse (scall_frame id req) = RtCall (mk_scall id XTC_PID_NONE 0) req /\
  svr_parse (pcall_frame self tag req) = RtCall (mk_scall 0 self tag) req /\
  svr_parse (cast_frame req) = RtCast req /\
  (forall b m, b <> BYTE_C -> b <> BYTE_X -> (b <> BYTE_S \/ m <> []) -> svr_parse (b :: m) = RtInfo (b :: m)).
Proof.
  intros Hid Hp Ht. split_and!.
  - unfold svr_parse, scall_frame. rewrite !field_kind.
    rewrite decide_False by done. rewrite decide_False by (intros [_ ?]; done). rewrite decide_True by done.
    rewrite decide_True by (split; [rewrite !length_cons, length_app, length_to_le; unfold SVR_SCALL_HDR; lia|apply field_kind]).
    unfold field. read_fields. rewrite of_le_to_le. change (256 ^ Z.of_nat 8) with (2 ^ 64). rewrite Z.mod_small by lia.
    change (Z.to_nat SVR_SCALL_HDR) with 10%nat. rewrite !skipn_cons, drop_app_length'; [done|by rewrite length_to_le].
  - unfold svr_parse, pcall_frame. rewrite !field_kind.
    rewrite decide_False by done. rewrite decide_False by (intros [_ ?]; done). rewrite decide_True by done.
    rewrite decide_False by (intros [_ ?]; done).
    rewrite decide_True by (split; [rewrite !length_cons, !length_app, length_pid_bytes, length_to_le; unfold SVR_PCALL_HDR; lia|apply field_kind]).
    unfold field. read_fields. rewrite of_le_to_le, pid_of_bytes by done. change (256 ^ Z.of_nat 8) with (2 ^ 64). rewrite Z.mod_small by lia.
    change (Z.to_nat SVR_PCALL_HDR) with 26%nat. rewrite !skipn_cons, app_assoc, drop_app_length'; [done|].
    by rewrite length_app, length_pid_bytes, length_to_le.
  - unfold svr_parse, cast_frame. rewrite !field_kind.
    rewrite decide_False by done. rewrite decide_False by (intros [_ ?]; done). rewrite decide_False by done. by rewrite decide_True.
  - intros b m H1 H2 H3. unfold svr_parse. rewrite !field_kind. rewrite decide_False by done.
    rewrite decide_False by (intros [Hl ->]; destruct m; [naive_solver|done]). rewrite decide_False by done. by rewrite decide_False.
Qed.

Lemma svr_parse_roundtrip_witness :
  svr_parse (scall_frame 7 [1; 2]) = RtCall (mk_scall 7 XTC_PID_NONE 0) [1; 2].
Proof. apply (svr_parse_roundtrip 7 (mk_pid 1 2 3) 5 [1; 2]); [done|by split_and!|done]. Defined.

(** ** The server's process *)

Section Server.
Context {S : Type}.

(** The callbacks, each of which may be missing.  They take the server's state
    (and the message), and give the new state, whether to stop, and the
    continuation they arm with [xtc_svr_continue], if any. *)
Record xtc_svr_callbacks : Type := mk_cb {
  cb_init : option (S -> S * rc * option Z);
  cb_handle_call : option (S -> xtc_svr_call -> list Z -> S * bool * option Z);
  cb_handle_cast : option (S -> list Z -> S * bool * option Z);
  cb_handle_info : option (S -> list Z -> S * bool * option Z);
  cb_handle_continue : option (S -> Z -> S * option Z);
  cb_terminate : option (S -> S);
}.
(** [hooked]: the at-exit hook was installed; [sim]: fault injection is on. *)
Context (cb : xtc_svr_callbacks) (hooked sim : bool).

(** [VDelay m]: in the yield that fault injection puts between the receive of
    [m] and its dispatch. *)
Inductive svr_pc : Type :=
  | VInit
  | VContinue
  | VRecv
  | VDelay (m : list Z)
  | VHandle (m : list Z)
  | VTerminate
  | VHook
  | VGone (unwound : bool).

(** [vs_got], [vs_freed], [vs_leaked]: messages received, freed, and neither
    freed nor in hand when the process was unwound; [vs_signals]: signals of
    [stopped]; [vs_empty]: empty replies given for want of a handler (none of
    the counts is in the code). *)
Record svr_st : Type := mk_vs {
  vs_pc : svr_pc;
  vs_state : S;
  vs_cont : option Z;
  vs_inflight : option (list Z);
  vs_alive : bool;
  vs_got : Z;
  vs_freed : Z;
  vs_leaked : Z;
  vs_signals : Z;
  vs_empty : list xtc_svr_call;
}.

Definition goto (pc : svr_pc) (s : svr_st) : svr_st :=
  mk_vs pc (vs_state s) (vs_cont s) (vs_inflight s) (vs_alive s) (vs_got s) (vs_freed s) (vs_leaked s) (vs_signals s) (vs_empty s).
Definition with_user (x : S) (arm : option Z) (s : svr_st) : svr_st :=
  mk_vs (vs_pc s) x (match arm with Some _ => arm | None => vs_cont s end) (vs_inflight s) (vs_alive s) (vs_got s) (vs_freed s) (vs_leaked s)
    (vs_signals s) (vs_empty s).
Definition no_cont (s : svr_st) : svr_st :=
  mk_vs (vs_pc s) (vs_state s) None (vs_inflight s) (vs_alive s) (vs_got s) (vs_freed s) (vs_leaked s) (vs_signals s) (vs_empty s).
Definition got_msg (s : svr_st) : svr_st :=
  mk_vs (vs_pc s) (vs_state s) (vs_cont s) (vs_inflight s) (vs_alive s) (vs_got s + 1) (vs_freed s) (vs_leaked s) (vs_signals s) (vs_empty s).
Definition leak_msg (s : svr_st) : svr_st :=
  mk_vs (vs_pc s) (vs_state s) (vs_cont s) (vs_inflight s) (vs_alive s) (vs_got s) (vs_freed s) (vs_leaked s + 1) (vs_signals s) (vs_empty s).
Definition set_inflight (m : list Z) (s : svr_st) : svr_st :=
  mk_vs (vs_pc s) (vs_state s) (vs_cont s) (Some m) (vs_alive s) (vs_got s) (vs_freed s) (vs_leaked s) (vs_signals s) (vs_empty s).
Definition take_msg (m : list Z) (s : svr_st) : svr_st :=
  mk_vs (vs_pc s) (vs_state s) (vs_cont s) (Some m) (vs_alive s) (vs_got s + 1) (vs_freed s) (vs_leaked s) (vs_signals s) (vs_empty s).
Definition free_msg (s : svr_st) : svr_st :=
  mk_vs (vs_pc s) (vs_state s) (vs_cont s) None (vs_alive s) (vs_got s) (vs_freed s + 1) (vs_leaked s) (vs_signals s) (vs_empty s).
Definition reply_empty (c : xtc_svr_call) (s : svr_st) : svr_st :=
  mk_vs (vs_pc s) (vs_state s) (vs_cont s) (vs_inflight s) (vs_alive s) (vs_got s) (vs_freed s) (vs_leaked s) (vs_signals s) (vs_empty s ++ [c]).

(** The at-exit hook. *)
Definition __svr_exited (s : svr_st) : svr_st :=
  mk_vs (vs_pc s) (vs_state s) (vs_cont s) None false (vs_got s)
    (match vs_inflight s with Some _ => vs_freed s + 1 | None => vs_freed s end) (vs_leaked s) (vs_signals s + 1) (vs_empty s).

(** The handler of a message: the new state, and whether to stop. *)
Definition svr_handle (m : list Z) (s : svr_st) : svr_st * bool :=
  match svr_parse m with
  | RtSkip => (s, false)
  | RtCall c pl =>
      match cb_handle_call cb with
      | Some f => let '(x, stop, arm) := f (vs_state s) c pl in (with_user x arm s, stop)
      | None => (reply_empty c s, false)
      end
  | RtCast pl =>
      match cb_handle_cast cb, cb_handle_info cb with
      | Some f, _ => let '(x, stop, arm) := f (vs_state s) pl in (with_user x arm s, stop)
      | None, Some f => let '(x, stop, arm) := f (vs_state s) m in (with_user x arm s, stop)
      | None, None => (s, false)
      end
  | RtInfo m =>
      match cb_handle_info cb with
      | Some f => let '(x, stop, arm) := f (vs_state s) m in (with_user x arm s, stop)
      | None => (s, false)
      end
  end.

(** A process that is unwound (an exit, a kill, a fault) goes to its hook if it
    has one. *)
Definition unwound (s : svr_st) : svr_st := goto (if hooked then VHook else VGone true) s.

(** [__svr_entry]; [stop]: the flag of [xtc_svr_stop]. *)
Inductive svr_step (s : svr_st) : svr_st -> Prop :=
  | vs_init_none : vs_pc s = VInit -> cb_init cb = None -> svr_step s (goto VContinue s)
  | vs_init_ok f x arm :
      vs_pc s = VInit -> cb_init cb = Some f -> f (vs_state s) = (x, XTC_OK, arm) -> svr_step s (goto VContinue (with_user x arm s))
  | vs_init_fail f x c arm :
      vs_pc s = VInit -> cb_init cb = Some f -> f (vs_state s) = (x, c, arm) -> c <> XTC_OK ->
      svr_step s (goto VTerminate (with_user x arm s))
  | vs_continue f a x arm :
      vs_pc s = VContinue -> vs_cont s = Some a -> cb_handle_continue cb = Some f -> f (vs_state s) a = (x, arm) ->
      svr_step s (goto VContinue (with_user x arm (no_cont s)))
  | vs_continue_done (stop : bool) :
      vs_pc s = VContinue -> vs_cont s = None \/ cb_handle_continue cb = None \/ stop = true -> svr_step s (goto VRecv (no_cont s))
  | vs_stop : vs_pc s = VRecv -> svr_step s (goto VTerminate s)
  | vs_again : vs_pc s = VRecv -> svr_step s s
  | vs_skip m :
      vs_pc s = VRecv -> svr_parse m = RtSkip -> svr_step s (goto VRecv (free_msg (take_msg m s)))
  | vs_message m :
      vs_pc s = VRecv -> svr_parse m <> RtSkip -> svr_step s (goto (VHandle m) (take_msg m s))
  | vs_delay m : sim = true -> m <> [] -> vs_pc s = VRecv -> svr_step s (goto (VDelay m) (got_msg s))
  | vs_delayed m :
      vs_pc s = VDelay m ->
      svr_step s (match svr_parse m with RtSkip => goto VRecv (free_msg (set_inflight m s)) | _ => goto (VHandle m) (set_inflight m s) end)
  | vs_handled m :
      vs_pc s = VHandle m ->
      svr_step s (goto (if (svr_handle m s).2 then VTerminate else VContinue) (free_msg (svr_handle m s).1))
  | vs_terminate f :
      vs_pc s = VTerminate -> cb_terminate cb = Some f ->
      svr_step s (if hooked then goto VHook (with_user (f (vs_state s)) None s)
                  else goto (VGone false) (__svr_exited (with_user (f (vs_state s)) None s)))
  | vs_terminate_none :
      vs_pc s = VTerminate -> cb_terminate cb = None ->
      svr_step s (if hooked then goto VHook s else goto (VGone false) (__svr_exited s))
  | vs_hook : vs_pc s = VHook -> svr_step s (goto (VGone false) (__svr_exited s))
  | vs_unwound :
      (vs_pc s = VInit \/ vs_pc s = VContinue \/ vs_pc s = VRecv \/ (exists m, vs_pc s = VHandle m) \/ vs_pc s = VTerminate) ->
      svr_step s (unwound s)
  | vs_unwound_delay m : vs_pc s = VDelay m -> svr_step s (unwound (leak_msg s)).

Definition svr0 (x : S) : svr_st := mk_vs VInit x None None true 0 0 0 0 [].

Definition svr_ok (s : svr_st) : Prop :=
  vs_got s = vs_freed s + vs_leaked s + (match vs_inflight s with Some _ => 1 | None => 0 end) + (match vs_pc s with VDelay _ => 1 | _ => 0 end) /\
  (match vs_pc s with VHook | VGone _ => 0 <= vs_leaked s <= (if sim then 1 else 0) | VDelay _ => vs_leaked s = 0 /\ sim = true | _ => vs_leaked s = 0 end) /\
  (match vs_pc s with VRecv | VDelay _ => vs_cont s = None | _ => True end) /\
  match vs_pc s with
  | VHandle m => vs_inflight s = Some m
  | VHook => hooked = true
  | VGone u => if u then hooked = false else vs_inflight s = None
  | _ => vs_inflight s = None
  end /\
  match vs_pc s with VGone false => vs_signals s = 1 /\ vs_alive s = false | _ => vs_signals s = 0 /\ vs_alive s = true end.

Lemma svr_handle_keeps m s :
  vs_pc (svr_handle m s).1 = vs_pc s /\ vs_inflight (svr_handle m s).1 = vs_inflight s /\ vs_alive (svr_handle m s).1 = vs_alive s /\
  vs_got (svr_handle m s).1 = vs_got s /\ vs_freed (svr_handle m s).1 = vs_freed s /\ vs_signals (svr_handle m s).1 = vs_signals s /\
  vs_leaked (svr_handle m s).1 = vs_leaked s.
Proof. unfold svr_handle. repeat case_match; done. Qed.

Lemma svr_step_ok s s' : svr_ok s -> svr_step s s' -> svr_ok s'.
Proof.
  intros (H1 & H5 & H2 & H3 & H4) Hst. unfold svr_ok.
  destruct Hst as [Hp|f x arm Hp|f x c arm Hp|f a x arm Hp Ha|stop Hp|Hp|Hp|m Hp|m Hp|m Hsim Hm Hp|m Hp|m Hp|f Hp|Hp|Hp|Hp|m Hp];
    try (rewrite Hp in H1, H2, H3, H4, H5; simpl; rewrite ?H3 in *; split_and!; try done; try lia; try tauto; try (destruct sim; lia); fail).
  - done.
  - rewrite Hp in H1, H2, H3, H4, H5. destruct H5 as [Hl Hsim].
    rewrite H3 in H1. destruct (svr_parse m); simpl; split_and!; try done; try lia; tauto.
  - rewrite Hp in H1, H2, H3, H4, H5. destruct (svr_handle_keeps m s) as (K1 & K2 & K3 & K4 & K5 & K6 & K7).
    rewrite H3 in H1. simpl. rewrite K3, K4, K5, K6, K7. destruct (svr_handle m s).2; simpl; split_and!; try done; try lia; tauto.
  - rewrite Hp in H1, H2, H3, H4, H5. rewrite H3 in *. destruct hooked eqn:Hh; simpl; rewrite ?H3; split_and!; try done; try lia; try (destruct sim; lia); tauto.
  - rewrite Hp in H1, H2, H3, H4, H5. rewrite H3 in *. destruct hooked eqn:Hh; simpl; rewrite ?H3; split_and!; try done; try lia; try (destruct sim; lia); tauto.
  - rewrite Hp in H1, H2, H3, H4, H5. simpl. destruct (vs_inflight s); split_and!; try done; try lia.
  - assert (vs_signals s = 0 /\ vs_alive s = true /\ vs_leaked s = 0 /\ match vs_pc s with VDelay _ => false | _ => true end = true) as (Hs & Ha & Hl & Hd).
    { destruct Hp as [Hp|[Hp|[Hp|[[m Hp]|Hp]]]]; rewrite Hp in H4, H5; rewrite ?Hp; tauto. }
    assert (vs_got s = vs_freed s + vs_leaked s + (match vs_inflight s with Some _ => 1 | None => 0 end)) as H1'
      by (rewrite H1; destruct (vs_pc s); try done; lia).
    unfold unwound. destruct hooked eqn:Hh; simpl; rewrite ?Z.add_0_r; split_and!; try done; destruct sim; lia.
  - rewrite Hp in H1, H2, H3, H4, H5. rewrite H3 in *. destruct H5 as [Hl ->]. unfold unwound. destruct hooked eqn:Hh; simpl; rewrite H3; split_and!; try tauto; try lia; done.
Qed.

End Server.


(** A server that is killed in the injected yield loses the message it has in
    hand: the hook does not know of it. *)
Example delayed_kill_leaks :
  exists s : svr_st (S := unit), rtc (svr_step (mk_cb None None None None None None) true true) (svr0 tt) s /\
    vs_pc s = VGone false /\ vs_got s = 1 /\ vs_freed s = 0.
Proof.
  eexists. split.
  { eapply rtc_l; [by apply vs_init_none|]. eapply rtc_l; [apply (vs_continue_done _ _ _ _ false); [done|by left]|].
    eapply rtc_l; [by apply (vs_delay _ _ _ _ [1])|]. eapply rtc_l; [by eapply vs_unwound_delay|]. apply rtc_once. by apply vs_hook. }
  done.
Qed.

(** ** The receive loop of a process that calls *)

Definition SVR_WAIT_SLICE_NS : Z := 25 * 1000 * 1000.

(** The deadline and the slices, given the clock. *)
Definition __svr_deadline (timeout_ns now : Z) : Z :=
  if decide (timeout_ns < 0) then -1
  else if decide (timeout_ns > INT64_MAX - now) then INT64_MAX else now + timeout_ns.

Definition __svr_slice (deadline now : Z) : Z :=
  if decide (deadline < 0) then SVR_WAIT_SLICE_NS
  else if decide (now >= deadline) then -1
  else if decide (deadline - now < SVR_WAIT_SLICE_NS) then deadline - now else SVR_WAIT_SLICE_NS.

Definition __match_svr_reply (m : list Z) : bool :=
  bool_decide (Z.of_nat (length m) >= SVR_REPLY_HDR) && bool_decide (bytes_at (length m - 8) 8 m = SVR_REPLY_MAGIC).
Definition svr_reply_tag (m : list Z) : Z := field (length m - 16) 8 m.
Definition svr_reply_payload (m : list Z) : list Z := take (length m - 16) m.

(** What one turn of the loop finds: the abort token, the clock, the receive
    (a reply, nothing within the slice, an error), whether the server is gone. *)
Record slice : Type := mk_slice { sl_aborted : bool; sl_now : Z; sl_recv : option (list Z) + rc; sl_gone : bool }.

(** [__recv_reply_for_tag]; [None]: it still waits. *)
Fixpoint recv_reply (tag deadline : Z) (gone : bool) (l : list slice) : option (rc * list Z) :=
  match l with
  | [] => None
  | x :: l =>
      if sl_aborted x then Some (XTC_E_ABORTED, [])
      else
        let w := __svr_slice deadline (sl_now x) in
        match sl_recv x with
        | inl (Some m) =>
            if decide (svr_reply_tag m = tag) then Some (XTC_OK, svr_reply_payload m) else recv_reply tag deadline gone l
        | inr c => Some (c, [])
        | inl None =>
            if gone then Some (XTC_E_NOTFOUND, [])
            else if decide (w < 0) then Some (XTC_E_AGAIN, [])
            else recv_reply tag deadline (sl_gone x) l
        end
  end.

(** A receive gives replies only, and its errors are errors. *)
Definition slice_ok (x : slice) : Prop :=
  match sl_recv x with inl (Some m) => __match_svr_reply m = true | inl None => True | inr c => c <> XTC_OK end.

Lemma svr_reply_frame_fields tag x :
  0 <= tag < 2 ^ 64 ->
  __match_svr_reply (svr_reply_frame tag x) = true /\ svr_reply_tag (svr_reply_frame tag x) = tag /\ svr_reply_payload (svr_reply_frame tag x) = x.
Proof.
  intros Ht. unfold __match_svr_reply, svr_reply_tag, svr_reply_payload.
  assert (length (svr_reply_frame tag x) = (length x + 16)%nat) as -> by (unfold svr_reply_frame; by rewrite !length_app, length_to_le).
  unfold SVR_REPLY_HDR. unfold svr_reply_frame, field. split_and!.
  - apply andb_true_iff. split; apply bool_decide_eq_true; [lia|]. rewrite app_assoc, bytes_at_skip by (rewrite length_app, length_to_le; lia).
    rewrite length_app, length_to_le. replace (length x + 16 - 8 - (length x + 8))%nat with 0%nat by lia. done.
  - rewrite bytes_at_skip by lia. replace (length x + 16 - 16 - length x)%nat with 0%nat by lia.
    rewrite bytes_at_here, of_le_to_le by (by rewrite length_to_le). by apply Z.mod_small.
  - replace (length x + 16 - 16)%nat with (length x) by lia. apply take_app_length.
Qed.

(** The slices never wait past the deadline, and a huge timeout does not
    become one without end. *)
Lemma svr_slice_bounded timeout_ns now0 now :
  0 <= timeout_ns <= INT64_MAX -> 0 <= now0 <= INT64_MAX -> now0 <= now ->
  let d := __svr_deadline timeout_ns now0 in
  0 <= d <= INT64_MAX /\ __svr_slice d now <= SVR_WAIT_SLICE_NS /\ (0 <= __svr_slice d now -> now + __svr_slice d now <= d) /\
  (__svr_slice d now < 0 <-> d <= now).
Proof.
  intros Ht Hn Hnow. cbn zeta. unfold __svr_deadline, __svr_slice, SVR_WAIT_SLICE_NS.
  repeat case_decide; lia.
Qed.

(** An in-process call returns its own reply or says why there is none.
    Over any sequence of slices: XTC_OK comes only with a reply that has the
    call's tag, with its payload; a reply that arrives is returned unless an
    abort or an error comes first; the loop ends at the first slice past the
    deadline with nothing received, and at the latest one slice after the
    server was seen to be gone. *)
Theorem svr_recv_reply_spec tag deadline gone l :
  Forall slice_ok l ->
  (forall p, recv_reply tag deadline gone l = Some (XTC_OK, p) ->
     exists x m, x ∈ l /\ sl_recv x = inl (Some m) /\ svr_reply_tag m = tag /\ p = svr_reply_payload m) /\
  (forall pre x post p,
     l = pre ++ x :: post -> sl_recv x = inl (Some (svr_reply_frame tag p)) -> 0 <= tag < 2 ^ 64 ->
     Forall (fun y => sl_aborted y = false /\ (exists m, sl_recv y = inl (Some m) /\ svr_reply_tag m <> tag)) pre -> sl_aborted x = false ->
     recv_reply tag deadline gone l = Some (XTC_OK, p)) /\
  (forall pre x post,
     l = pre ++ x :: post -> sl_recv x = inl None -> __svr_slice deadline (sl_now x) < 0 ->
     exists c, recv_reply tag deadline gone l = Some c) /\
  (forall pre x y post,
     l = pre ++ x :: y :: post -> sl_recv x = inl None -> sl_gone x = true -> sl_recv y = inl None ->
     exists c, recv_reply tag deadline gone l = Some c).
Proof.
  intros Hok. split_and!.
  - revert gone. induction l as [|x l IH]; intros gone p; simpl; [done|]. apply Forall_cons in Hok as [Hx Hok].
    destruct (sl_aborted x); [done|]. unfold slice_ok in Hx. destruct (sl_recv x) as [[m|]|c] eqn:Er; [| |congruence].
    + case_decide as Ht; [|intros H; destruct (IH Hok gone p H) as (y & m' & Hy & ?); exists y, m'; split; [by apply list_elem_of_further|done]].
      intros [= <-]. exists x, m. split_and!; auto. apply list_elem_of_here.
    + destruct gone; [done|]. case_decide; [done|]. intros Hrec. destruct (IH Hok _ p Hrec) as (y & m' & Hy & ?). exists y, m'. split; [by apply list_elem_of_further|done].
  - intros pre x post p -> Hr Ht Hpre Ha. clear Hok. revert gone. induction pre as [|y pre IH]; intros gone; simpl.
    + rewrite Ha, Hr. destruct (svr_reply_frame_fields tag p Ht) as (_ & -> & ->). by rewrite decide_True.
    + apply Forall_cons in Hpre as [(Hy & m & Hm & Hne) Hpre]. rewrite Hy, Hm, decide_False by done. by apply IH.
  - intros pre x post -> Hr Hw. clear Hok. revert gone. induction pre as [|y pre IH]; intros gone; simpl.
    + destruct (sl_aborted x); [by eexists|]. rewrite Hr. destruct gone; [by eexists|]. rewrite decide_True by done. by eexists.
    + repeat case_match; try (by eexists); apply IH.
  - intros pre x y post -> Hr Hg Hy. clear Hok. revert gone. induction pre as [|z pre IH]; intros gone; simpl.
    + destruct (sl_aborted x); [by eexists|]. rewrite Hr. destruct gone; [by eexists|]. case_decide; [by eexists|].
      rewrite Hg, Hy. destruct (sl_aborted y); by eexists.
    + repeat case_match; try (by eexists); apply IH.
Qed.

Lemma svr_recv_reply_spec_witness :
  recv_reply 9 (-1) false [mk_slice false 0 (inl (Some (svr_reply_frame 8 [1]))) false; mk_slice false 1 (inl (Some (svr_reply_frame 9 [42]))) false] =
    Some (XTC_OK, [42]).
Proof.
  eapply (svr_recv_reply_spec 9 (-1) false
    [mk_slice false 0 (inl (Some (svr_reply_frame 8 [1]))) false; mk_slice false 1 (inl (Some (svr_reply_frame 9 [42]))) false])
    with (pre := [mk_slice false 0 (inl (Some (svr_reply_frame 8 [1]))) false]).
  - repeat constructor.
  - reflexivity.
  - reflexivity.
  - done.
  - repeat constructor. eexists. split; [reflexivity|]. vm_compute. congruence.
  - reflexivity.
Defined.
