(* ===== verification/SvrSlot.v ===== *)
(** * Reply slots of servers (src/orc/svr.c)

    A plain thread that calls a server puts a slot from its stack into a hashed
    table under a fresh number, sends the number with the request and waits;
    a reply looks the number up under the bucket's lock.  The caller may give
    up at any time (timeout, abort, a server that is gone) and unlinks its slot
    before it returns.  Callers and repliers run interleaved, a step being a
    critical section or an atomic access; a replier may reply late, twice or
    to a number nobody waits for. *)

From S2P Require Import Prelude Wire.

Local Open Scope Z_scope.

Definition SVR_SLOT_BUCKETS : Z := 64.

(** [ss_caller]: whose stack the slot is on (its address). *)
Record svr_slot : Type := mk_slot { ss_caller : nat; ss_id : Z; ss_data : option (list Z) }.

#[global] Instance svr_slot_eq_dec : EqDecision svr_slot.
Proof. solve_decision. Defined.

(** The table, [__svr_slot_seq]; then what happened: the replies that were
    stored, what the calls returned, and the copies that are allocated and
    that callers own (none of it in the code). *)
Record slot_world : Type := mk_sw {
  sw_tab : list (list svr_slot);
  sw_seq : Z;
  sw_log : list (Z * list Z);
  sw_ret : gmap Z (rc * option (list Z));
  sw_live : Z;
  sw_owned : Z;
}.

Definition slot_bucket (id : Z) : nat := Z.to_nat (Z.land id (SVR_SLOT_BUCKETS - 1)).
Definition __svr_slot_bucket (w : slot_world) (id : Z) : list svr_slot := sw_tab w !!! slot_bucket id.

Definition with_bucket (w : slot_world) (id : Z) (l : list svr_slot) : slot_world :=
  mk_sw (<[slot_bucket id := l]> (sw_tab w)) (sw_seq w) (sw_log w) (sw_ret w) (sw_live w) (sw_owned w).

(** The unlinking goes by address. *)
Fixpoint __svr_slot_unlink_locked (caller : nat) (l : list svr_slot) : list svr_slot :=
  match l with
  | [] => []
  | s :: l => if decide (ss_caller s = caller) then l else s :: __svr_slot_unlink_locked caller l
  end.

Fixpoint store_reply (id : Z) (data : list Z) (l : list svr_slot) : option (list svr_slot) :=
  match l with
  | [] => None
  | s :: l =>
      if decide (ss_id s = id) then
        match ss_data s with None => Some (mk_slot (ss_caller s) id (Some data) :: l) | Some _ => None end
      else match store_reply id data l with Some l => Some (s :: l) | None => None end
  end.

(** A copy is allocated unless the reply is empty. *)
Definition cost (data : list Z) : Z := match data with [] => 0 | _ => 1 end.
Definition cost_opt (d : option (list Z)) : Z := match d with Some x => cost x | None => 0 end.

(** A caller: idle, with its number, linked, waiting, about to unlink with a
    result; a replier: idle (with the result of its last reply), with its copy. *)
Inductive slot_pc : Type :=
  | TIdle
  | TSeq (id : Z)
  | TLinked (id : Z)
  | TWait (id : Z)
  | TUnlink (id : Z) (c : rc)
  | SIdle (ret : option rc)
  | SCopy (id : Z) (data : list Z).

Definition set_log (w : slot_world) (tab : list (list svr_slot)) (x : Z * list Z) : slot_world :=
  mk_sw tab (sw_seq w) (sw_log w ++ [x]) (sw_ret w) (sw_live w) (sw_owned w).

(** The end of a call: the slot is unlinked; a reply that has come wins. *)
Definition finish_call (w : slot_world) (i : nat) (id : Z) (c : rc) : slot_world :=
  let l := __svr_slot_bucket w id in
  let d := match list_find (fun s => ss_caller s = i) l with Some (_, s) => ss_data s | None => None end in
  mk_sw (<[slot_bucket id := __svr_slot_unlink_locked i l]> (sw_tab w)) (sw_seq w) (sw_log w)
    (<[id := match d with Some x => (XTC_OK, Some x) | None => (c, None) end]> (sw_ret w))
    (sw_live w) (sw_owned w + cost_opt d).

Inductive slot_step (i : nat) (w : slot_world) : slot_pc -> slot_world -> slot_pc -> Prop :=
  (* __svr_call, the path of a plain thread *)
  | sl_nomem : slot_step i w TIdle w TIdle
  | sl_seq :
      slot_step i w TIdle (mk_sw (sw_tab w) (sw_seq w + 1) (sw_log w) (sw_ret w) (sw_live w) (sw_owned w)) (TSeq (u64 (sw_seq w + 1)))
  | sl_link id :
      slot_step i w (TSeq id) (with_bucket w id (mk_slot i id None :: __svr_slot_bucket w id)) (TLinked id)
  | sl_send id : slot_step i w (TLinked id) w (TWait id)
  | sl_send_fail id c : c <> XTC_OK -> slot_step i w (TLinked id) w (TUnlink id c)
  | sl_signalled id s :
      s ∈ __svr_slot_bucket w id -> ss_caller s = i -> is_Some (ss_data s) -> slot_step i w (TWait id) w (TUnlink id XTC_OK)
  | sl_give_up id c : c <> XTC_OK -> slot_step i w (TWait id) w (TUnlink id c)
  | sl_unlink id c : slot_step i w (TUnlink id c) (finish_call w i id c) TIdle
  (* xtc_svr_reply, the path of a slot *)
  | sl_reply_nomem ret : slot_step i w (SIdle ret) w (SIdle (Some XTC_E_NOMEM))
  | sl_copy ret id data :
      slot_step i w (SIdle ret) (mk_sw (sw_tab w) (sw_seq w) (sw_log w) (sw_ret w) (sw_live w + cost data) (sw_owned w)) (SCopy id data)
  | sl_store id data l :
      store_reply id data (__svr_slot_bucket w id) = Some l ->
      slot_step i w (SCopy id data) (set_log w (<[slot_bucket id := l]> (sw_tab w)) (id, data)) (SIdle (Some XTC_OK))
  | sl_discard id data :
      store_reply id data (__svr_slot_bucket w id) = None ->
      slot_step i w (SCopy id data) (mk_sw (sw_tab w) (sw_seq w) (sw_log w) (sw_ret w) (sw_live w - cost data) (sw_owned w))
        (SIdle (Some XTC_E_NOTFOUND)).

Definition slots0 : slot_world := mk_sw (replicate (Z.to_nat SVR_SLOT_BUCKETS) []) 0 [] ∅ 0 0.

(** [n] callers and [m] repliers. *)
Definition slot_pool (n m : nat) : gmap nat slot_pc :=
  list_to_map (((fun i => (i, TIdle)) <$> seq 0 n) ++ ((fun i => (i, SIdle None)) <$> seq n m)).

(** ** The table as a bag of slots *)

Definition slots (w : slot_world) : list svr_slot := concat (sw_tab w).

Record shaped (tab : list (list svr_slot)) : Prop := mk_shaped {
  sh_len : length tab = 64%nat;
  sh_place : forall b l s, tab !! b = Some l -> s ∈ l -> b = slot_bucket (ss_id s);
}.

Lemma slot_bucket_lt id : (slot_bucket id < 64)%nat.
Proof.
  unfold slot_bucket, SVR_SLOT_BUCKETS. change (64 - 1) with (2 ^ 6 - 1). rewrite land_pow2_mask by lia.
  pose proof (Z.mod_pos_bound id (2 ^ 6)). lia.
Qed.

Lemma slot_bucket_lookup w id : shaped (sw_tab w) -> sw_tab w !! slot_bucket id = Some (__svr_slot_bucket w id).
Proof. intros H. apply list_lookup_lookup_total_lt. rewrite (sh_len _ H). apply slot_bucket_lt. Qed.

Lemma shaped_insert tab b l :
  shaped tab -> (forall s, s ∈ l -> b = slot_bucket (ss_id s)) -> shaped (<[b := l]> tab).
Proof.
  intros [Hl Hp] H. split; [by rewrite length_insert|]. intros b' l' s Hb Hs.
  apply list_lookup_insert_Some in Hb as [(-> & -> & _)|[_ Hb]]; eauto.
Qed.

Lemma in_slot_bucket w s : shaped (sw_tab w) -> s ∈ slots w <-> s ∈ __svr_slot_bucket w (ss_id s).
Proof.
  intros H. unfold slots. rewrite elem_of_concat_at. split.
  - intros (b & l & Hb & Hs). pose proof (sh_place _ H b l s Hb Hs) as ->. rewrite slot_bucket_lookup in Hb by done. by simplify_eq.
  - intros Hs. exists (slot_bucket (ss_id s)), (__svr_slot_bucket w (ss_id s)). split; [by apply slot_bucket_lookup|done].
Qed.

Lemma bucket_placed w id s : shaped (sw_tab w) -> s ∈ __svr_slot_bucket w id -> slot_bucket id = slot_bucket (ss_id s) /\ s ∈ slots w.
Proof.
  intros H Hs. pose proof (slot_bucket_lookup w id H) as Hb. split; [by eapply sh_place|]. unfold slots. apply elem_of_concat_at. eauto.
Qed.

(** Linking a slot. *)
Lemma link_slots w i id :
  shaped (sw_tab w) ->
  let w' := with_bucket w id (mk_slot i id None :: __svr_slot_bucket w id) in
  shaped (sw_tab w') /\ slots w' ≡ₚ mk_slot i id None :: slots w.
Proof.
  intros H w'. split.
  - apply shaped_insert; [done|]. intros s [->|Hs]%elem_of_cons; [done|]. by apply (bucket_placed w).
  - pose proof (concat_alter_cons (sw_tab w) (slot_bucket id) (mk_slot i id None) ltac:(rewrite (sh_len _ H); apply slot_bucket_lt)) as Hc.
    pose proof (slot_bucket_lookup w id H) as Hb. unfold slots. simpl.
    assert (<[slot_bucket id := mk_slot i id None :: __svr_slot_bucket w id]> (sw_tab w) =
            alter (cons (mk_slot i id None)) (slot_bucket id) (sw_tab w)) as ->; [|exact Hc].
    apply list_eq. intros j. rewrite list_lookup_alter, list_lookup_insert, (sh_len _ H). case_decide as Hj.
    + destruct Hj as [<- _]. rewrite decide_True by done. by rewrite Hb.
    + rewrite decide_False; [done|]. intros <-. apply Hj. split; [done|]. apply slot_bucket_lt.
Qed.

Lemma unlink_perm i l s :
  s ∈ l -> ss_caller s = i -> (forall s', s' ∈ l -> ss_caller s' = i -> s' = s) -> l ≡ₚ s :: __svr_slot_unlink_locked i l.
Proof.
  intros Hs Hi Hu. induction l as [|x l IH]; [by apply elem_of_nil in Hs|]. simpl. case_decide as Hx.
  - by rewrite (Hu x (list_elem_of_here _ _) Hx).
  - apply elem_of_cons in Hs as [->|Hs]; [done|]. rewrite Permutation_swap. constructor. apply IH; [done|].
    intros s' Hs'. apply Hu. by apply list_elem_of_further.
Qed.

Lemma unlink_sub i l s : s ∈ __svr_slot_unlink_locked i l -> s ∈ l.
Proof.
  induction l as [|x l IH]; simpl; [done|]. case_decide; [intros; by apply list_elem_of_further|].
  rewrite !elem_of_cons. tauto.
Qed.

(** Unlinking it. *)
Lemma unlink_slots w i id d c :
  shaped (sw_tab w) -> mk_slot i id d ∈ slots w -> (forall s, s ∈ slots w -> ss_caller s = i -> s = mk_slot i id d) ->
  let w' := finish_call w i id c in
  shaped (sw_tab w') /\ slots w ≡ₚ mk_slot i id d :: slots w' /\
  sw_ret w' = <[id := match d with Some x => (XTC_OK, Some x) | None => (c, None) end]> (sw_ret w) /\
  sw_owned w' = sw_owned w + cost_opt d.
Proof.
  intros H Hin Hu w'. pose proof Hin as Hb%in_slot_bucket; [|done]. simpl in Hb.
  assert (forall s, s ∈ __svr_slot_bucket w id -> ss_caller s = i -> s = mk_slot i id d) as Hu'.
  { intros s Hs. apply Hu. by apply (bucket_placed w id). }
  assert (exists k, list_find (fun s => ss_caller s = i) (__svr_slot_bucket w id) = Some (k, mk_slot i id d)) as [k Hk].
  { destruct (list_find _ (__svr_slot_bucket w id)) as [[k s]|] eqn:E.
    - apply list_find_Some in E as (Hl & Hc & _). apply list_elem_of_lookup_2 in Hl. rewrite (Hu' s Hl Hc). eauto.
    - apply list_find_None in E. rewrite Forall_forall in E. by destruct (E _ Hb). }
  unfold w', finish_call. rewrite Hk. simpl. split_and!; [| |done|done].
  - apply shaped_insert; [done|]. intros s Hs%unlink_sub. by apply (bucket_placed w).
  - unfold slots. simpl. apply (concat_insert _ _ (__svr_slot_bucket w id)); [by apply slot_bucket_lookup|].
    by apply unlink_perm.
Qed.

Lemma store_perm id data l l' :
  store_reply id data l = Some l' ->
  exists i rest, l ≡ₚ mk_slot i id None :: rest /\ l' ≡ₚ mk_slot i id (Some data) :: rest.
Proof.
  revert l'. induction l as [|s l IH]; intros l'; simpl; [done|]. case_decide as Hs.
  - destruct s as [i id' [x|]]; simpl in *; [done|]. intros [= <-]. subst. by exists i, l.
  - destruct (store_reply id data l) as [l1|] eqn:E; [|done]. intros [= <-]. destruct (IH l1 eq_refl) as (i & rest & H1 & H2).
    exists i, (s :: rest). rewrite H1, H2. split; apply Permutation_swap.
Qed.

(** Storing a reply. *)
Lemma store_slots w id data l :
  shaped (sw_tab w) -> store_reply id data (__svr_slot_bucket w id) = Some l ->
  exists i rest, slots w ≡ₚ mk_slot i id None :: rest /\
    shaped (<[slot_bucket id := l]> (sw_tab w)) /\ concat (<[slot_bucket id := l]> (sw_tab w)) ≡ₚ mk_slot i id (Some data) :: rest.
Proof.
  intros H (i & rest & H1 & H2)%store_perm. pose proof (slot_bucket_lookup w id H) as Hb.
  pose proof (concat_insert _ _ _ _ _ Hb H1) as Hc. exists i, (concat (<[slot_bucket id := rest]> (sw_tab w))). split_and!; [done| |].
  - apply shaped_insert; [done|]. intros s. rewrite H2. intros [->|Hs]%elem_of_cons; [done|].
    apply (bucket_placed w id s H). rewrite H1. by apply list_elem_of_further.
  - assert (<[slot_bucket id := l]> (sw_tab w) !! slot_bucket id = Some l) as Hb'.
    { apply list_lookup_insert_eq. rewrite (sh_len _ H). apply slot_bucket_lt. }
    pose proof (concat_insert _ _ _ _ _ Hb' H2) as Hc'. by rewrite list_insert_insert_eq in Hc'.
Qed.

Lemma store_none w id data :
  shaped (sw_tab w) -> store_reply id data (__svr_slot_bucket w id) = None -> forall i, mk_slot i id None ∉ slots w \/ exists i' d, mk_slot i' id (Some d) ∈ slots w.
Proof.
  intros H Hs i. destruct (decide (mk_slot i id None ∈ slots w)) as [Hin|]; [|by left]. right.
  apply in_slot_bucket in Hin; [|done]. simpl in Hin. assert (exists i' d, mk_slot i' id (Some d) ∈ __svr_slot_bucket w id) as (i' & d & Hd).
  { revert Hs Hin. generalize (__svr_slot_bucket w id). intros l. induction l as [|s l IH]; simpl; [by intros _ ?%elem_of_nil|].
    case_decide as Hid.
    - destruct s as [i' id' [x|]]; simpl in *; [|done]. subst. intros _ _. exists i', x. apply list_elem_of_here.
    - destruct (store_reply id data l); [done|]. intros _ [<-|Hin]%elem_of_cons; [done|]. destruct (IH eq_refl Hin) as (i' & d & ?).
      exists i', d. by apply list_elem_of_further. }
  exists i', d. by apply (bucket_placed w id).
Qed.

(** ** The invariant *)

Definition pc_id (p : slot_pc) : option Z :=
  match p with TSeq id | TLinked id | TWait id | TUnlink id _ => Some id | _ => None end.
Definition linked_id (p : slot_pc) : option Z :=
  match p with TLinked id | TWait id | TUnlink id _ => Some id | _ => None end.
Definition copies (p : slot_pc) : Z := match p with SCopy _ d => cost d | _ => 0 end.

Fixpoint stored (l : list svr_slot) : Z :=
  match l with [] => 0 | s :: l => cost_opt (ss_data s) + stored l end.

#[global] Instance stored_perm : Proper ((≡ₚ) ==> (=)) stored.
Proof. intros l1 l2 H. induction H; simpl; lia. Qed.

(** Slots, calls in progress and calls that have returned. *)
Record slot_ok (S : list svr_slot) (w : slot_world) (pool : gmap nat slot_pc) : Prop := mk_slot_ok {
  so_ids : NoDup (ss_id <$> S);
  so_owner : forall s, s ∈ S -> exists p, pool !! ss_caller s = Some p /\ linked_id p = Some (ss_id s);
  so_linked : forall i p id, pool !! i = Some p -> linked_id p = Some id -> exists d, mk_slot i id d ∈ S;
  so_mine : forall i j p q id, pool !! i = Some p -> pool !! j = Some q -> pc_id p = Some id -> pc_id q = Some id -> i = j;
  so_range : forall i p id, pool !! i = Some p -> pc_id p = Some id -> 1 <= id <= sw_seq w;
  so_ret : forall id x, sw_ret w !! id = Some x -> 1 <= id <= sw_seq w /\ forall i p, pool !! i = Some p -> pc_id p <> Some id;
  so_log : forall id d, (id, d) ∈ sw_log w <-> (exists i, mk_slot i id (Some d) ∈ S) \/ sw_ret w !! id = Some (XTC_OK, Some d);
  so_once : NoDup (sw_log w).*1;
  so_result : forall id c d, sw_ret w !! id = Some (c, d) -> c = XTC_OK <-> is_Some d;
  so_signalled : forall i id, pool !! i = Some (TUnlink id XTC_OK) -> exists d, mk_slot i id (Some d) ∈ S;
  so_live : sw_live w = stored S + pool_sum copies pool + sw_owned w;
}.

Lemma slot_ok_perm S S' w pool : S ≡ₚ S' -> slot_ok S w pool -> slot_ok S' w pool.
Proof.
  intros Hp []. split; try done.
  - by rewrite <- Hp.
  - intros s Hs. apply so_owner0. by rewrite Hp.
  - intros i p id H1 H2. destruct (so_linked0 i p id H1 H2) as [d Hd]. exists d. by rewrite <- Hp.
  - intros id d. rewrite so_log0. by setoid_rewrite Hp.
  - intros i id H. destruct (so_signalled0 i id H) as [d Hd]. exists d. by rewrite <- Hp.
  - by rewrite <- Hp.
Qed.

(** A caller has one slot. *)
Lemma slot_unique S w pool s s' : slot_ok S w pool -> s ∈ S -> s' ∈ S -> ss_id s = ss_id s' \/ ss_caller s = ss_caller s' -> s = s'.
Proof.
  intros H Hs Hs' Heq. assert (ss_id s = ss_id s') as Hid.
  { destruct Heq as [?|Hc]; [done|]. destruct (so_owner _ _ _ H s Hs) as (p & Hp & Hi), (so_owner _ _ _ H s' Hs') as (q & Hq & Hj).
    rewrite Hc in Hp. rewrite Hp in Hq. simplify_eq. congruence. }
  apply list_elem_of_lookup in Hs as [k Hk], Hs' as [k' Hk'].
  assert (k = k') as ->; [|congruence].
  eapply (NoDup_lookup _ _ _ _ (so_ids _ _ _ H)); by rewrite list_lookup_fmap, ?Hk, ?Hk'; simpl; rewrite ?Hid.
Qed.

(** The world changes around the callers: only one caller's point does, within
    the same call, or at a replier. *)
Lemma slot_ok_move S w pool i p p' live :
  slot_ok S w pool -> pool !! i = Some p -> pc_id p' = pc_id p -> linked_id p' = linked_id p ->
  (forall id, p' = TUnlink id XTC_OK -> exists d, mk_slot i id (Some d) ∈ S) ->
  live = sw_live w - copies p + copies p' ->
  slot_ok S (mk_sw (sw_tab w) (sw_seq w) (sw_log w) (sw_ret w) live (sw_owned w)) (<[i := p']> pool).
Proof.
  intros H Hi Hid Hl Hu Hlive.
  assert (forall j q, <[i := p']> pool !! j = Some q -> exists q', pool !! j = Some q' /\ pc_id q = pc_id q' /\ linked_id q = linked_id q') as Hq.
  { intros j q. rewrite lookup_insert. case_decide as Hj; [intros [= <-]; subst; eauto|eauto]. }
  split; simpl; try apply H.
  - intros s Hs. destruct (so_owner _ _ _ H s Hs) as (q & Hq1 & Hq2). destruct (decide (ss_caller s = i)) as [Hc|Hne].
    + exists p'. rewrite Hc in *. rewrite lookup_insert_eq. rewrite Hi in Hq1. simplify_eq. split; [done|congruence].
    + exists q. by rewrite lookup_insert_ne.
  - intros j q id Hj Hid'. destruct (Hq j q Hj) as (q' & Hq1 & _ & Hq2). eapply (so_linked _ _ _ H); [done|congruence].
  - intros j k q r id Hj Hk H1 H2. destruct (Hq j q Hj) as (q' & ? & ? & _), (Hq k r Hk) as (r' & ? & ? & _).
    apply (so_mine _ _ _ H j k q' r' id); congruence.
  - intros j q id Hj H1. destruct (Hq j q Hj) as (q' & ? & ? & _). eapply (so_range _ _ _ H); [done|congruence].
  - intros id x Hx. destruct (so_ret _ _ _ H id x Hx) as [? Hn]. split; [done|]. intros j q Hj.
    destruct (Hq j q Hj) as (q' & ? & -> & _). by eapply Hn.
  - intros j id. rewrite lookup_insert. case_decide as Hj; [intros [= ->]; subst; auto|apply H].
  - rewrite (pool_sum_insert copies pool i p p' Hi). pose proof (so_live _ _ _ H). lia.
Qed.

(** A fresh number. *)
Lemma slot_ok_seq S w pool i :
  slot_ok S w pool -> pool !! i = Some TIdle -> 0 <= sw_seq w -> sw_seq w + 1 < 2 ^ 64 ->
  slot_ok S (mk_sw (sw_tab w) (sw_seq w + 1) (sw_log w) (sw_ret w) (sw_live w) (sw_owned w))
    (<[i := TSeq (u64 (sw_seq w + 1))]> pool).
Proof.
  intros H Hi H0 Hb. rewrite (uwrap_small 64) by lia.
  assert (forall j q id, pool !! j = Some q -> pc_id q = Some id -> id <> sw_seq w + 1) as Hfresh.
  { intros j q id Hj Hq. pose proof (so_range _ _ _ H j q id Hj Hq). lia. }
  split; simpl; try apply H.
  - intros s Hs. destruct (so_owner _ _ _ H s Hs) as (q & Hq1 & Hq2). exists q. split; [|done].
    rewrite lookup_insert_ne; [done|]. intros Heq. rewrite <- Heq, Hi in Hq1. by simplify_eq.
  - intros j q id. rewrite lookup_insert. case_decide; [intros [= <-]; done|]. apply H.
  - intros j k q r id. rewrite !lookup_insert. repeat case_decide; intros; simplify_eq/=; try done.
    + exfalso. by eapply Hfresh.
    + exfalso. by eapply Hfresh.
    + by eapply (so_mine _ _ _ H).
  - intros j q id. rewrite lookup_insert. case_decide; intros; simplify_eq/=; [lia|].
    pose proof (so_range _ _ _ H j q id ltac:(done) ltac:(done)). lia.
  - intros id x Hx. destruct (so_ret _ _ _ H id x Hx) as [Hr Hn]. split; [lia|]. intros j q. rewrite lookup_insert.
    case_decide; [intros [= <-]; simpl; intros [= ?]; lia|apply Hn].
  - intros j id. rewrite lookup_insert. case_decide; [done|]. apply H.
  - rewrite (pool_sum_insert copies pool i TIdle _ Hi). simpl. pose proof (so_live _ _ _ H). lia.
Qed.

(** A caller links its slot. *)
Lemma slot_ok_link S w pool i id tab :
  slot_ok S w pool -> pool !! i = Some (TSeq id) ->
  slot_ok (mk_slot i id None :: S) (mk_sw tab (sw_seq w) (sw_log w) (sw_ret w) (sw_live w) (sw_owned w)) (<[i := TLinked id]> pool).
Proof.
  intros H Hi.
  assert (forall s, s ∈ S -> ss_id s <> id /\ ss_caller s <> i) as Hnew.
  { intros s Hs. destruct (so_owner _ _ _ H s Hs) as (q & Hq1 & Hq2).
    assert (ss_caller s <> i) as Hne by (intros Heq; rewrite Heq, Hi in Hq1; by simplify_eq). split; [|done].
    intros Heq. apply Hne. eapply (so_mine _ _ _ H (ss_caller s) i q (TSeq id) id Hq1 Hi); [|done]. destruct q; simpl in *; congruence. }
  split; simpl; try apply H.
  - constructor; [|apply H]. intros (s & Heq & Hs)%list_elem_of_fmap. by destruct (Hnew s Hs).
  - intros s [->|Hs]%elem_of_cons; simpl; [exists (TLinked id); by rewrite lookup_insert_eq|].
    destruct (so_owner _ _ _ H s Hs) as (q & Hq1 & Hq2). exists q. split; [|done]. rewrite lookup_insert_ne; [done|]. symmetry. by apply Hnew.
  - intros j q id'. rewrite lookup_insert. case_decide.
    + intros [= <-] [= <-]. subst. exists None. apply list_elem_of_here.
    + intros H1 H2. destruct (so_linked _ _ _ H j q id' H1 H2) as [d Hd]. exists d. by apply list_elem_of_further.
  - intros j k q r id'. rewrite !lookup_insert. repeat case_decide; intros; simplify_eq/=; try done.
    + by eapply (so_mine _ _ _ H _ _ (TSeq id')).
    + by eapply (so_mine _ _ _ H _ _ _ (TSeq id')).
    + by eapply (so_mine _ _ _ H).
  - intros j q id'. rewrite lookup_insert. case_decide; intros; simplify_eq/=; [by eapply (so_range _ _ _ H)|by eapply (so_range _ _ _ H)].
  - intros id' x Hx. destruct (so_ret _ _ _ H id' x Hx) as [Hr Hn]. split; [lia|]. intros j q. rewrite lookup_insert.
    case_decide; [intros [= <-]; simpl; apply (Hn i _ Hi)|apply Hn].
  - intros id' d. rewrite (so_log _ _ _ H). setoid_rewrite elem_of_cons. split; intros [[j Hj]|Hr]; eauto.
    destruct Hj as [[=]|Hj]. eauto.
  - intros j id'. rewrite lookup_insert. case_decide; [done|]. intros Hj. destruct (so_signalled _ _ _ H j id' Hj) as [d Hd].
    exists d. by apply list_elem_of_further.
  - rewrite (pool_sum_insert copies pool i _ _ Hi). simpl. pose proof (so_live _ _ _ H). lia.
Qed.

(** A reply is stored. *)
Lemma slot_ok_store rest w pool i id data k tab :
  slot_ok (mk_slot k id None :: rest) w pool -> pool !! i = Some (SCopy id data) ->
  slot_ok (mk_slot k id (Some data) :: rest) (set_log w tab (id, data)) (<[i := SIdle (Some XTC_OK)]> pool).
Proof.
  intros H Hi. pose proof (slot_ok_move _ w pool i _ (SIdle (Some XTC_OK)) (sw_live w - cost data) H Hi eq_refl eq_refl ltac:(done) ltac:(simpl; lia)) as H'.
  pose proof (so_ids _ _ _ H) as Hnd. simpl in Hnd. apply NoDup_cons in Hnd as [Hnd _].
  destruct (so_owner _ _ _ H (mk_slot k id None) (list_elem_of_here _ _)) as (q & Hq1 & Hq2). simpl in Hq1, Hq2.
  assert (forall d, (id, d) ∉ sw_log w) as Hnolog.
  { intros d [[j Hj]|Hr]%(so_log _ _ _ H).
    - pose proof (slot_unique _ _ _ _ _ H Hj (list_elem_of_here _ _) (or_introl eq_refl)) as [=].
    - destruct (so_ret _ _ _ H id _ Hr) as [_ Hn]. apply (Hn k q Hq1). destruct q; simpl in *; congruence. }
  split; simpl; try apply H'.
  - intros s [->|Hs]%elem_of_cons; simpl; [apply (so_owner _ _ _ H' (mk_slot k id None)), list_elem_of_here|apply (so_owner _ _ _ H'); by apply list_elem_of_further].
  - intros j p id' Hj Hp. destruct (so_linked _ _ _ H' j p id' Hj Hp) as [d [[= -> -> ->]|Hd]%elem_of_cons].
    + exists (Some data). apply list_elem_of_here.
    + exists d. by apply list_elem_of_further.
  - intros id' d. rewrite elem_of_app, list_elem_of_singleton, (so_log _ _ _ H). setoid_rewrite elem_of_cons. split.
    + intros [[[j [[=]|Hj]]|Hr]|[= -> ->]]; eauto.
    + intros [[j [[= -> -> ->]|Hj]]|Hr]; eauto.
  - rewrite fmap_app. simpl. apply NoDup_app. split_and!; [apply H| |apply NoDup_singleton].
    intros x Hx Hs%list_elem_of_singleton. apply list_elem_of_fmap in Hx as ([id' d] & -> & Hx). simpl in Hs. subst. by eapply Hnolog.
  - intros j id' Hj. destruct (so_signalled _ _ _ H' j id' Hj) as [d [[=]|Hd]%elem_of_cons]. exists d. by apply list_elem_of_further.
  - pose proof (so_live _ _ _ H') as Hl. simpl in Hl. lia.
Qed.

(** A call ends. *)
Lemma slot_ok_unlink rest w pool i id c d tab live :
  slot_ok (mk_slot i id d :: rest) w pool -> pool !! i = Some (TUnlink id c) -> live = sw_live w ->
  slot_ok rest (mk_sw tab (sw_seq w) (sw_log w)
    (<[id := match d with Some x => (XTC_OK, Some x) | None => (c, None) end]> (sw_ret w)) live (sw_owned w + cost_opt d))
    (<[i := TIdle]> pool).
Proof.
  intros H Hi ->. pose proof (so_ids _ _ _ H) as Hnd. simpl in Hnd. apply NoDup_cons in Hnd as [Hnd Hnd'].
  assert (forall s, s ∈ rest -> ss_caller s <> i) as Hother.
  { intros s Hs Hc. apply Hnd. pose proof (slot_unique _ _ _ s (mk_slot i id d) H (list_elem_of_further _ _ _ Hs) (list_elem_of_here _ _) (or_intror Hc)) as ->.
    by apply (list_elem_of_fmap_2 ss_id) in Hs. }
  assert (sw_ret w !! id = None) as Hret.
  { destruct (sw_ret w !! id) as [x|] eqn:Hx; [|done]. destruct (so_ret _ _ _ H id x Hx) as [_ Hn]. by destruct (Hn i _ Hi). }
  assert (forall j q, <[i := TIdle]> pool !! j = Some q -> q = TIdle \/ j <> i /\ pool !! j = Some q) as Hq.
  { intros j q. rewrite lookup_insert. case_decide; [intros [= <-]; by left|]. right. split; [congruence|done]. }
  split; simpl.
  - done.
  - intros s Hs. destruct (so_owner _ _ _ H s (list_elem_of_further _ _ _ Hs)) as (q & Hq1 & Hq2). exists q. split; [|done].
    rewrite lookup_insert_ne; [done|]. symmetry. by apply Hother.
  - intros j q id' [->|[Hne Hj]]%Hq Hl; [done|]. destruct (so_linked _ _ _ H j q id' Hj Hl) as [d' [[= -> -> ->]|Hd]%elem_of_cons]; [done|]. eauto.
  - intros j k q r id' [->|[_ Hj]]%Hq [->|[_ Hk]]%Hq; try done. by eapply (so_mine _ _ _ H).
  - intros j q id' [->|[_ Hj]]%Hq; [done|]. by eapply (so_range _ _ _ H).
  - intros id' x. rewrite lookup_insert. case_decide as Hid.
    + intros [= <-]. subst id'. split; [by eapply (so_range _ _ _ H i _ id Hi)|]. intros j q [->|[Hne Hj]]%Hq Hp; [done|].
      apply Hne. by eapply (so_mine _ _ _ H j i q _ id Hj Hi).
    + intros Hx. destruct (so_ret _ _ _ H id' x Hx) as [Hr Hn]. split; [done|]. intros j q [->|[_ Hj]]%Hq; [done|by eapply Hn].
  - intros id' d'. rewrite (so_log _ _ _ H), lookup_insert. setoid_rewrite elem_of_cons. case_decide as Hid.
    + subst id'. rewrite Hret. split.
      * intros [[j [[= -> <-]|Hj]]|?]; [by right|eauto|done].
      * intros [[j Hj]|Heq]; [eauto|]. destruct d as [x|]; simplify_eq. left. exists i. by left.
    + split; [intros [[j [[= _ ? _]|Hj]]|?]; [congruence|eauto|by right]|intros [[j Hj]|?]; eauto].
  - apply H.
  - intros id' c' d'. rewrite lookup_insert. case_decide as Hid; [|apply (so_result _ _ _ H)]. intros Heq.
    destruct d as [x|]; simplify_eq; [split; [eauto|done]|]. split; [|by intros []]. intros ->.
    destruct (so_signalled _ _ _ H i _ Hi) as [x Hx].
    pose proof (slot_unique _ _ _ _ _ H Hx (list_elem_of_here _ _) (or_introl eq_refl)) as [=].
  - intros j id' [?|[Hne Hj]]%Hq; [done|]. destruct (so_signalled _ _ _ H j id' Hj) as [x [[= -> -> _]|Hx]%elem_of_cons]; [done|eauto].
  - rewrite (pool_sum_insert copies pool i _ _ Hi). simpl. pose proof (so_live _ _ _ H) as Hl. simpl in Hl. lia.
Qed.

Definition world_good (w : slot_world) (pool : gmap nat slot_pc) : Prop :=
  0 <= sw_seq w /\ (sw_seq w < 2 ^ 64 -> shaped (sw_tab w) /\ slot_ok (slots w) w pool).

Lemma world_id w : w = mk_sw (sw_tab w) (sw_seq w) (sw_log w) (sw_ret w) (sw_live w) (sw_owned w).
Proof. by destruct w. Qed.

(** A step that only moves a point. *)
Lemma move_good w pool i p p' :
  shaped (sw_tab w) -> slot_ok (slots w) w pool -> pool !! i = Some p -> pc_id p' = pc_id p -> linked_id p' = linked_id p -> copies p' = copies p ->
  (forall id, p' = TUnlink id XTC_OK -> exists d, mk_slot i id (Some d) ∈ slots w) ->
  shaped (sw_tab w) /\ slot_ok (slots w) w (<[i := p']> pool).
Proof.
  intros Hs H Hi H1 H2 H3 H4. split; [done|]. rewrite (world_id w) at 2.
  apply (slot_ok_move _ w pool i p p' (sw_live w)); [done..|lia].
Qed.

Lemma slot_step_good w pool i p w' p' :
  world_good w pool -> pool !! i = Some p -> slot_step i w p w' p' -> world_good w' (<[i := p']> pool).
Proof.
  intros [Hseq Hg] Hi Hst. split; [destruct Hst; simpl; lia|]. intros Hb.
  assert (sw_seq w < 2 ^ 64) as Hb' by (destruct Hst; simpl in Hb; lia).
  destruct (Hg Hb') as [Hs H]. clear Hg. destruct Hst as [| |id|id|id c Hc|id s Hin Hc Hd|id c Hc|id c|ret|ret id data|id data l Hl|id data Hl].
  - by eapply move_good.
  - split; [done|]. apply slot_ok_seq; [done|done|lia|exact Hb].
  - destruct (link_slots w i id Hs) as [Hs' Hp]. split; [done|]. apply (slot_ok_perm (mk_slot i id None :: slots w)); [by rewrite Hp|].
    by apply slot_ok_link.
  - by eapply move_good.
  - eapply move_good; [done..|]. intros id' [= -> ->]. done.
  - eapply move_good; [done..|]. intros id' [= <-]. destruct Hd as [d Hd]. exists d.
    destruct (so_linked _ _ _ H i _ id Hi eq_refl) as [d' Hd'].
    pose proof (slot_unique _ _ _ s _ H (proj2 (bucket_placed w id s Hs Hin)) Hd' (or_intror Hc)) as ->. simpl in Hd. by subst.
  - eapply move_good; [done..|]. intros id' [= -> ->]. done.
  - destruct (so_linked _ _ _ H i _ id Hi eq_refl) as [d Hd].
    destruct (unlink_slots w i id d c Hs Hd) as (Hs' & Hp & Hr & Ho).
    { intros s Hin Hc. apply (slot_unique _ _ _ s _ H Hin Hd). by right. }
    split; [done|]. eapply slot_ok_perm in H; [|exact Hp].
    pose proof (slot_ok_unlink _ _ _ _ _ _ _ (sw_tab (finish_call w i id c)) (sw_live w) H Hi eq_refl) as H'.
    rewrite <- Hr, <- Ho in H'. exact H'.
  - by eapply move_good.
  - split; [done|]. eapply slot_ok_move; [done|done|done|done|done|simpl; lia].
  - destruct (store_slots w id data l Hs Hl) as (k & rest & H1 & H2 & H3). split; [done|].
    eapply slot_ok_perm; [symmetry; exact H3|]. eapply slot_ok_store; [|done]. by eapply slot_ok_perm.
  - split; [done|]. eapply slot_ok_move; [done|done|done|done|done|simpl; lia].
Qed.

Lemma slot_pool_idle n m i p : slot_pool n m !! i = Some p -> p = TIdle \/ p = SIdle None.
Proof.
  unfold slot_pool. intros [H|H]%elem_of_list_to_map_2%elem_of_app; apply list_elem_of_fmap in H as (j & [= <- <-] & _); auto.
Qed.

Lemma slots0_good n m : world_good slots0 (slot_pool n m).
Proof.
  split; [done|]. intros _. assert (slots slots0 = []) as He by (vm_compute; reflexivity).
  split; [split; [done|]|].
  { intros b l s [-> _]%lookup_replicate Hs. by apply elem_of_nil in Hs. }
  rewrite He. split; simpl; try done.
  - constructor.
  - by intros s ?%elem_of_nil.
  - intros i p id [->| ->]%slot_pool_idle; done.
  - intros i j p q id [->| ->]%slot_pool_idle; done.
  - intros i p id [->| ->]%slot_pool_idle; done.
  - intros id d. split; [by intros ?%elem_of_nil|]. intros [[i ?%elem_of_nil]|?]; done.
  - constructor.
  - intros i id [?|?]%slot_pool_idle; done.
  - rewrite pool_sum_zero; [done|]. by intros i p [->| ->]%slot_pool_idle.
Qed.

(** C23: a reply reaches the call it answers, or nobody.  In every interleaving
    of callers and repliers, with fewer than 2^64 calls: the table holds
    exactly the slots of callers that are in a call, so no reply is written
    into the frame of one that has left; a number gets at most one reply; a
    reply that was stored is in the slot of its caller or is what that call
    returned, with XTC_OK, even if the caller had given up waiting; a call that
    returned nothing got none; and every copy of a reply is in a slot, in the
    hands of a replier, or owned by a caller. *)
Theorem svr_slot_safe n m w pool :
  reachable slot_step (slots0, slot_pool n m) (w, pool) -> sw_seq w < 2 ^ 64 ->
  (forall i id, (exists d, mk_slot i id d ∈ slots w) <-> exists p, pool !! i = Some p /\ linked_id p = Some id) /\
  NoDup (sw_log w).*1 /\
  (forall id d, (id, d) ∈ sw_log w <-> (exists i, mk_slot i id (Some d) ∈ slots w) \/ sw_ret w !! id = Some (XTC_OK, Some d)) /\
  (forall id c d, sw_ret w !! id = Some (c, d) -> c = XTC_OK <-> is_Some d) /\
  sw_live w = stored (slots w) + pool_sum copies pool + sw_owned w.
Proof.
  intros Hr Hb. pose proof (pool_invariant slot_step world_good (slots0, slot_pool n m) (w, pool)) as Hinv.
  destruct Hinv as [_ Hg]; [intros; by eapply slot_step_good|apply slots0_good|done|]. destruct (Hg Hb) as [Hs H].
  split_and!; [|apply H..]. intros i id. split.
  - intros [d Hd]. destruct (so_owner _ _ _ H _ Hd) as (p & Hp & Hl). simpl in *. eauto.
  - intros (p & Hp & Hl). by eapply (so_linked _ _ _ H).
Qed.

(** A caller whose patience ends just after the reply is stored. *)
Tactic Notation "sstep" constr(j) uconstr(L) :=
  eapply rtc_l; [eapply (pool_step_at _ _ _ j); [vm_compute; reflexivity|eapply L; first [reflexivity|done|idtac]]|].

Lemma svr_slot_safe_witness :
  exists w pool, reachable slot_step (slots0, slot_pool 1 1) (w, pool) /\ sw_ret w !! 1 = Some (XTC_OK, Some [42]) /\ NoDup (sw_log w).*1.
Proof.
  assert (exists w pool, reachable slot_step (slots0, slot_pool 1 1) (w, pool) /\ sw_ret w !! 1 = Some (XTC_OK, Some [42]) /\ sw_seq w < 2 ^ 64)
    as (w & pool & Hr & Hret & Hb).
  { do 2 eexists. split; [|split].
    - sstep 0%nat (sl_seq _ _). sstep 0%nat (sl_link _ _ _). sstep 0%nat (sl_send _ _ _). sstep 1%nat (sl_copy _ _ _ 1 [42]).
      sstep 0%nat (sl_give_up _ _ _ XTC_E_AGAIN). sstep 1%nat (sl_store _ _ _ _ _). sstep 0%nat (sl_unlink _ _ _ _). apply rtc_refl.
    - vm_compute. reflexivity.
    - vm_compute. reflexivity. }
  exists w, pool. split_and!; [done|done|]. by apply (svr_slot_safe 1 1 w pool).
Defined.
