(* ===== verification/Future.v ===== *)
(** * Futures and promises (src/ptc/future.c)

    A promise and a future share a counted cell; combinators hang callbacks
    on a cell that set the promise of another one.  Threads run interleaved:
    a thread is the list of what it has still to do, each instruction one
    critical section of a cell's lock or one atomic access of a context,
    together with the private work next to it; running a callback puts its
    instructions in front.  An instruction that touches memory that is not
    allocated has no result ([exec] gives [None]), so that a theorem that it
    has one says nothing is used after it was freed.

    What comes from outside is an argument ([env]): allocations, the clock, a
    pending kill, what the function given to [xtc_future_then] returns.  Such
    a function's own calls on futures are calls of another thread.  NULL
    handles are refused before anything is touched and are left out. *)

From S2P Require Import Prelude.

Local Open Scope Z_scope.

(** ** Data *)

(** A callback with its context.  The contexts of map, then and the inner
    future of then do not change after their creation: their contents are
    here, and [w_one] says whether they are allocated. *)
Inductive fut_cb : Type :=
  | map_on_complete (m prom : nat) (fn : Z -> Z -> Z)
  | then_on_complete (t prom : nat)
  | then_inner_on_complete (ti prom : nat)
  | all_on_complete (a : nat)
  | any_on_complete (a : nat)
  | timeout_src_complete (a : nat).

(** [fc_cv]: the threads in the condition variable; a fiber's waiter node is
    its thread's number. *)
Record future_cell : Type := mk_cell {
  fc_refcnt : Z;
  fc_ready : bool;
  fc_value : Z;
  fc_status : Z;
  fc_wq : list nat;
  fc_cv : list nat;
  fc_cbs : list fut_cb;
}.

(** [*_mine]: the handle is the client's, in no running call or context
    (not in the code). *)
Record xtc_promise : Type := mk_prom { pr_cell : nat; set_or_dropped : bool; pr_mine : bool }.
Record xtc_future : Type := mk_fut { fu_cell : nat; fu_mine : bool }.

(** [*_fired]: what the inputs completed with, in order (not in the code). *)
Record all_ctx : Type := mk_all {
  al_prom : nat;
  al_remaining : Z;
  al_total : Z;
  al_first_err : Z;
  al_err_set : bool;
  al_fired : list Z;
}.

Record any_ctx : Type := mk_any {
  an_prom : nat;
  an_done : bool;
  an_remaining : Z;
  an_fired : list (Z * Z);
}.

(** The timer of a timeout: [fired] of the timer, which leaves 0 once. *)
Inductive timer_state : Type := TM_ARMED | TM_FIRED | TM_CANCELLED.

Record timeout_ctx : Type := mk_tmo {
  tx_prom : nat;
  tx_timer : option timer_state;
  tx_done : bool;
  tx_remaining : Z;
  tx_fired : list (Z * Z);
}.

#[global] Instance timer_state_eq_dec : EqDecision timer_state.
Proof. solve_decision. Defined.

(** The heap; [w_timers]: the timer handles that are held; [w_nxt]: the next
    address; [w_woken]: the waiters that have been woken since they parked.
    Then what happened: completions and gets, by cell. *)
Record world : Type := mk_world {
  w_cells : gmap nat future_cell;
  w_proms : gmap nat xtc_promise;
  w_futs : gmap nat xtc_future;
  w_one : gmap nat unit;
  w_alls : gmap nat all_ctx;
  w_anys : gmap nat any_ctx;
  w_tmos : gmap nat timeout_ctx;
  w_timers : Z;
  w_nxt : nat;
  w_woken : gset nat;
  w_set : list (nat * (Z * Z));
  w_got : list (nat * (Z * Z));
}.

Definition world0 : world := mk_world ∅ ∅ ∅ ∅ ∅ ∅ ∅ 0 0 ∅ [] [].

Definition set_cells (w : world) m : world := mk_world m (w_proms w) (w_futs w) (w_one w) (w_alls w) (w_anys w) (w_tmos w) (w_timers w) (w_nxt w) (w_woken w) (w_set w) (w_got w).
Definition set_proms (w : world) m : world := mk_world (w_cells w) m (w_futs w) (w_one w) (w_alls w) (w_anys w) (w_tmos w) (w_timers w) (w_nxt w) (w_woken w) (w_set w) (w_got w).
Definition set_futs (w : world) m : world := mk_world (w_cells w) (w_proms w) m (w_one w) (w_alls w) (w_anys w) (w_tmos w) (w_timers w) (w_nxt w) (w_woken w) (w_set w) (w_got w).
Definition set_one (w : world) m : world := mk_world (w_cells w) (w_proms w) (w_futs w) m (w_alls w) (w_anys w) (w_tmos w) (w_timers w) (w_nxt w) (w_woken w) (w_set w) (w_got w).
Definition set_alls (w : world) m : world := mk_world (w_cells w) (w_proms w) (w_futs w) (w_one w) m (w_anys w) (w_tmos w) (w_timers w) (w_nxt w) (w_woken w) (w_set w) (w_got w).
Definition set_anys (w : world) m : world := mk_world (w_cells w) (w_proms w) (w_futs w) (w_one w) (w_alls w) m (w_tmos w) (w_timers w) (w_nxt w) (w_woken w) (w_set w) (w_got w).
Definition set_tmos (w : world) m n : world := mk_world (w_cells w) (w_proms w) (w_futs w) (w_one w) (w_alls w) (w_anys w) m n (w_nxt w) (w_woken w) (w_set w) (w_got w).
Definition set_nxt (w : world) n : world := mk_world (w_cells w) (w_proms w) (w_futs w) (w_one w) (w_alls w) (w_anys w) (w_tmos w) (w_timers w) n (w_woken w) (w_set w) (w_got w).
Definition set_woken (w : world) s : world := mk_world (w_cells w) (w_proms w) (w_futs w) (w_one w) (w_alls w) (w_anys w) (w_tmos w) (w_timers w) (w_nxt w) s (w_set w) (w_got w).
Definition log_set (w : world) x : world := mk_world (w_cells w) (w_proms w) (w_futs w) (w_one w) (w_alls w) (w_anys w) (w_tmos w) (w_timers w) (w_nxt w) (w_woken w) (w_set w ++ [x]) (w_got w).
Definition log_got (w : world) x : world := mk_world (w_cells w) (w_proms w) (w_futs w) (w_one w) (w_alls w) (w_anys w) (w_tmos w) (w_timers w) (w_nxt w) (w_woken w) (w_set w) (w_got w ++ [x]).

(** What a thread has still to do.  [IReg]: a registration by a combinator
    that goes on when it fails; [IRegRes]: one that gives up, with the result
    future it made; [IRegLocked]: the critical section of a registration;
    [IPark], [IKill], [ICond]: a fiber that is parked, one that has unlinked
    itself to be killed, a thread in the condition variable. *)
Inductive instr : Type :=
  | ISet (p : nat) (value status : Z)
  | IFire (cb : fut_cb) (value status : Z)
  | IUnref (c : nat)
  | IDropProm (p : nat)
  | IDropFut (f : nat)
  | IGive (f : nat)
  | IFreeOne (m : nat)
  | IReg (f : nat) (cb : fut_cb)
  | IRegRes (f : nat) (cb : fut_cb) (res : nat)
  | IRegLocked (c : nat) (cb : fut_cb)
  | IAllStore (a : nat) (status : Z)
  | IAllDec (a : nat)
  | IAllFree (a : nat)
  | IAnyDec (a : nat)
  | IAnyRetire (a : nat)
  | IAnyFree (a : nat)
  | ITmoCancel (a : nat)
  | ITmoFire (a : nat)
  | ITmoRetire (a : nat)
  | IGet (f : nat) (timeout_ns : Z) (fiber : bool)
  | IPark (f : nat) (deadline masked : Z)
  | IKill (f : nat) (deadline : Z)
  | ICond (f : nat) (timed : bool).

(** [e_mem]: the allocation succeeds; [e_rc], [e_next]: what a then function
    returns; [e_mask]: the mask was entered; [e_kill]: a kill is pending;
    [e_deferred]: the caller's mask defers it; [e_start], [e_now]: the clock;
    [e_expired]: the timed wait gave an error. *)
Record env : Type := mk_env {
  e_mem : bool;
  e_rc : Z;
  e_next : option nat;
  e_mask : bool;
  e_kill : bool;
  e_deferred : bool;
  e_start : Z;
  e_now : Z;
  e_expired : bool;
}.

(** ** Cells and handles *)

Definition OK : Z := rc_code XTC_OK.
Definition NOMEM : Z := rc_code XTC_E_NOMEM.
Definition AGAIN : Z := rc_code XTC_E_AGAIN.
Definition ABORTED : Z := rc_code XTC_E_ABORTED.

Definition cell_new : future_cell := mk_cell 0 false 0 OK [] [] [].

Definition with_refcnt (x : future_cell) (n : Z) : future_cell :=
  mk_cell n (fc_ready x) (fc_value x) (fc_status x) (fc_wq x) (fc_cv x) (fc_cbs x).

Definition with_waiters (x : future_cell) (wq cv : list nat) : future_cell :=
  mk_cell (fc_refcnt x) (fc_ready x) (fc_value x) (fc_status x) wq cv (fc_cbs x).

Definition with_cbs (x : future_cell) (l : list fut_cb) : future_cell :=
  mk_cell (fc_refcnt x) (fc_ready x) (fc_value x) (fc_status x) (fc_wq x) (fc_cv x) l.

Definition cell_ref (x : future_cell) : future_cell := with_refcnt x (fc_refcnt x + 1).

(** The last reference frees the cell (and callback nodes that are left). *)
Definition cell_unref (w : world) (c : nat) : option world :=
  x ← w_cells w !! c;
  Some (set_cells w (if decide (fc_refcnt x = 1) then delete c (w_cells w)
                     else <[c := with_refcnt x (fc_refcnt x - 1)]> (w_cells w))).

(** The critical section: the cell is completed, its waiters are woken, and
    its callbacks are to be run in list order. *)
Definition cell_complete (w : world) (c : nat) (value status : Z) : option (world * bool * list instr) :=
  x ← w_cells w !! c;
  if fc_ready x then Some (w, false, []) else
  let w1 := set_cells w (<[c := mk_cell (fc_refcnt x) true value status [] [] []]> (w_cells w)) in
  let w2 := set_woken w1 (list_to_set (fc_wq x) ∪ list_to_set (fc_cv x) ∪ w_woken w) in
  Some (log_set w2 (c, (value, status)), true, concat ((fun cb => [IFire cb value status; IUnref c]) <$> fc_cbs x)).

Definition fut_wq_enqueue (x : future_cell) (i : nat) : future_cell :=
  with_waiters x (fc_wq x ++ [i]) (fc_cv x).

Fixpoint remove_first (i : nat) (l : list nat) : list nat :=
  match l with
  | [] => []
  | j :: l => if decide (j = i) then l else j :: remove_first i l
  end.

Definition fut_wq_remove (x : future_cell) (i : nat) : future_cell :=
  with_waiters x (remove_first i (fc_wq x)) (fc_cv x).

(** The three allocations of a pair; whatever fails, nothing stays. *)
Definition new_pair (w : world) (mem : bool * bool * bool) (mine : bool) : rc * option (nat * nat) * world :=
  if mem.1.1 && mem.1.2 && mem.2 then
    let c := w_nxt w in
    let w1 := set_cells w (<[c := cell_ref (cell_ref cell_new)]> (w_cells w)) in
    let w2 := set_proms w1 (<[S c := mk_prom c false mine]> (w_proms w)) in
    let w3 := set_futs w2 (<[S (S c) := mk_fut c mine]> (w_futs w)) in
    (XTC_OK, Some (S c, S (S c)), set_nxt w3 (S (S (S c))))
  else (XTC_E_NOMEM, None, w).

Definition give_fut (w : world) (f : nat) (mine : bool) : world :=
  match w_futs w !! f with
  | Some x => set_futs w (<[f := mk_fut (fu_cell x) mine]> (w_futs w))
  | None => w
  end.

Definition give_prom (w : world) (p : nat) (mine : bool) : world :=
  match w_proms w !! p with
  | Some x => set_proms w (<[p := mk_prom (pr_cell x) (set_or_dropped x) mine]> (w_proms w))
  | None => w
  end.

(** [xtc_promise_set] up to the release of the promise ([IDropProm]).  A
    dropped promise is set to 0 with the status ABORTED. *)
Definition promise_set (w : world) (p : nat) (value status : Z) : option (world * list instr) :=
  x ← w_proms w !! p;
  if set_or_dropped x then Some (w, []) else
  let w1 := set_proms w (<[p := mk_prom (pr_cell x) true (pr_mine x)]> (w_proms w)) in
  '(w2, _, l) ← cell_complete w1 (pr_cell x) value status;
  Some (w2, l ++ [IDropProm p]).

Definition xtc_promise_drop (p : nat) : list instr := [ISet p 0 ABORTED].

(** [cell_unref] of the handle's cell and the handle's release. *)
Definition drop_prom (w : world) (p : nat) : option world :=
  x ← w_proms w !! p;
  w1 ← cell_unref w (pr_cell x);
  Some (set_proms w1 (delete p (w_proms w1))).

Definition drop_fut (w : world) (f : nat) : option world :=
  x ← w_futs w !! f;
  w1 ← cell_unref w (fu_cell x);
  Some (set_futs w1 (delete f (w_futs w1))).

Definition __xtc_future_discard : world -> nat -> option world := drop_fut.

(** [cell_on_complete]: the node and its reference, then the lock. *)
Definition on_complete_ref (w : world) (f : nat) : option (world * nat) :=
  h ← w_futs w !! f;
  x ← w_cells w !! fu_cell h;
  Some (set_cells w (<[fu_cell h := cell_ref x]> (w_cells w)), fu_cell h).

Definition on_complete_locked (w : world) (c : nat) (cb : fut_cb) : option (world * list instr) :=
  x ← w_cells w !! c;
  if fc_ready x then Some (w, [IFire cb (fc_value x) (fc_status x); IUnref c])
  else Some (set_cells w (<[c := with_cbs x (cb :: fc_cbs x)]> (w_cells w)), []).

(** ** Callbacks *)

Definition free_one (w : world) (m : nat) : option world :=
  _ ← w_one w !! m;
  Some (set_one w (delete m (w_one w))).

(** A then function hands over a future of the client's. *)
Definition then_fire (e : env) (w : world) (t prom : nat) (value status : Z) : option (world * list instr) :=
  _ ← w_one w !! t;
  match e_next e with
  | None => Some (w, [ISet prom value (if decide (e_rc e = OK) then status else e_rc e); IFreeOne t])
  | Some f =>
      h ← w_futs w !! f;
      if fu_mine h then
        let w1 := give_fut w f false in
        if decide (e_rc e = OK) then
          if e_mem e then
            let ti := w_nxt w in
            Some (set_nxt (set_one w1 (<[ti := tt]> (w_one w1))) (S ti), [IReg f (then_inner_on_complete ti prom); IFreeOne t])
          else Some (w1, [ISet prom 0 NOMEM; IDropFut f; IFreeOne t])
        else Some (w1, [ISet prom value (e_rc e); IDropFut f; IFreeOne t])
      else None
  end.

(** Each callback up to its first atomic access. *)
Definition map_fire (w : world) (m prom : nat) (fn : Z -> Z -> Z) (value status : Z) : option (world * list instr) :=
  _ ← w_one w !! m;
  Some (w, [ISet prom (fn value status) status; IFreeOne m]).

Definition inner_fire (w : world) (ti prom : nat) (value status : Z) : option (world * list instr) :=
  _ ← w_one w !! ti;
  Some (w, [ISet prom value status; IFreeOne ti]).

Definition all_fire (w : world) (a : nat) (status : Z) : option (world * list instr) :=
  x ← w_alls w !! a;
  let x' cas := mk_all (al_prom x) (al_remaining x) (al_total x) (al_first_err x) cas (al_fired x ++ [status]) in
  if decide (status = OK) then Some (set_alls w (<[a := x' (al_err_set x)]> (w_alls w)), [IAllDec a])
  else if al_err_set x then Some (set_alls w (<[a := x' true]> (w_alls w)), [IAllDec a])
  else Some (set_alls w (<[a := x' true]> (w_alls w)), [IAllStore a status]).

Definition any_fire (w : world) (a : nat) (value status : Z) : option (world * list instr) :=
  x ← w_anys w !! a;
  Some (set_anys w (<[a := mk_any (an_prom x) true (an_remaining x) (an_fired x ++ [(value, status)])]> (w_anys w)),
        if an_done x then [IAnyDec a] else [ISet (an_prom x) value status; IAnyDec a]).

Definition source_fire (w : world) (a : nat) (value status : Z) : option (world * list instr) :=
  x ← w_tmos w !! a;
  Some (set_tmos w (<[a := mk_tmo (tx_prom x) (tx_timer x) true (tx_remaining x) (tx_fired x ++ [(value, status)])]> (w_tmos w)) (w_timers w),
        if tx_done x then [ITmoRetire a] else [ISet (tx_prom x) value status; ITmoCancel a]).

Definition fire (e : env) (w : world) (cb : fut_cb) (value status : Z) : option (world * list instr) :=
  match cb with
  | map_on_complete m prom fn => map_fire w m prom fn value status
  | then_on_complete t prom => then_fire e w t prom value status
  | then_inner_on_complete ti prom => inner_fire w ti prom value status
  | all_on_complete a => all_fire w a status
  | any_on_complete a => any_fire w a value status
  | timeout_src_complete a => source_fire w a value status
  end.

(** The store that follows a won exchange. *)
Definition all_store (w : world) (a : nat) (status : Z) : option (world * list instr) :=
  x ← w_alls w !! a;
  Some (set_alls w (<[a := mk_all (al_prom x) (al_remaining x) (al_total x) status (al_err_set x) (al_fired x)]> (w_alls w)), [IAllDec a]).

(** The decrement; the last one reads the context, which is its own now. *)
Definition all_dec (w : world) (a : nat) : option (world * list instr) :=
  x ← w_alls w !! a;
  Some (set_alls w (<[a := mk_all (al_prom x) (al_remaining x - 1) (al_total x) (al_first_err x) (al_err_set x) (al_fired x)]> (w_alls w)),
        if decide (al_remaining x = 1) then
          [ISet (al_prom x) (al_total x) (if al_err_set x then al_first_err x else OK); IAllFree a]
        else []).

Definition all_free (w : world) (a : nat) : option world :=
  _ ← w_alls w !! a;
  Some (set_alls w (delete a (w_alls w))).

Definition any_dec (w : world) (a : nat) : option world :=
  x ← w_anys w !! a;
  Some (set_anys w (if decide (an_remaining x = 1) then delete a (w_anys w)
                    else <[a := mk_any (an_prom x) (an_done x) (an_remaining x - 1) (an_fired x)]> (w_anys w))).

Definition any_retire_failed (w : world) (a : nat) : option (world * list instr) :=
  x ← w_anys w !! a;
  if decide (an_remaining x = 1) then
    Some (set_anys w (<[a := mk_any (an_prom x) true 0 (an_fired x)]> (w_anys w)),
          if an_done x then [IAnyFree a] else [ISet (an_prom x) 0 NOMEM; IAnyFree a])
  else
    Some (set_anys w (<[a := mk_any (an_prom x) (an_done x) (an_remaining x - 1) (an_fired x)]> (w_anys w)), []).

Definition any_free (w : world) (a : nat) : option world :=
  _ ← w_anys w !! a;
  Some (set_anys w (delete a (w_anys w))).

(** The source won: a cancel that stops the timer retires for it. *)
Definition timeout_cancel (w : world) (a : nat) : option (world * list instr) :=
  x ← w_tmos w !! a;
  if decide (tx_timer x = Some TM_ARMED) then
    Some (set_tmos w (<[a := mk_tmo (tx_prom x) (Some TM_CANCELLED) (tx_done x) (tx_remaining x) (tx_fired x)]> (w_tmos w)) (w_timers w),
          [ITmoRetire a; ITmoRetire a])
  else Some (w, [ITmoRetire a]).

Definition timeout_fire (w : world) (a : nat) : option (world * list instr) :=
  x ← w_tmos w !! a;
  Some (set_tmos w (<[a := mk_tmo (tx_prom x) (tx_timer x) true (tx_remaining x) (tx_fired x ++ [(0, AGAIN)])]> (w_tmos w)) (w_timers w),
        if tx_done x then [ITmoRetire a] else [ISet (tx_prom x) 0 AGAIN; ITmoRetire a]).

(** The last retire releases the timer's handle and the context. *)
Definition timeout_retire (w : world) (a : nat) : option world :=
  x ← w_tmos w !! a;
  Some (if decide (tx_remaining x = 1) then
          set_tmos w (delete a (w_tmos w)) (match tx_timer x with Some _ => w_timers w - 1 | None => w_timers w end)
        else
          set_tmos w (<[a := mk_tmo (tx_prom x) (tx_timer x) (tx_done x) (tx_remaining x - 1) (tx_fired x)]> (w_tmos w)) (w_timers w)).

(** What a combinator does for an input it could not register: when_all and
    with_timeout report it as a failed input, when_any retires for it, the
    inner registration of then resolves; map and then give up, and release
    their result future in between. *)
Definition reg_failed (cb : fut_cb) (release : list instr) : list instr :=
  match cb with
  | map_on_complete m prom _ | then_on_complete m prom => xtc_promise_drop prom ++ release ++ [IFreeOne m]
  | then_inner_on_complete ti prom => [ISet prom 0 NOMEM; IFreeOne ti] ++ release
  | all_on_complete _ | timeout_src_complete _ => [IFire cb 0 NOMEM] ++ release
  | any_on_complete a => [IAnyRetire a] ++ release
  end.

(** ** Waiting *)

Definition put_cell (w : world) (c : nat) (x : future_cell) : world := set_cells w (<[c := x]> (w_cells w)).

(** The consuming end of a get: the value, then the handle goes. *)
Definition get_done (w : world) (f c : nat) (x : future_cell) : world * list instr :=
  (log_got (put_cell w c x) (c, (fc_value x, fc_status x)), [IDropFut f]).

(** The end that leaves the handle with the caller. *)
Definition get_again (w : world) (f c : nat) (x : future_cell) : world * list instr :=
  (give_fut (put_cell w c x) f true, []).

(** A turn of the fiber's loop, under the lock. *)
Definition fiber_turn (i : nat) (e : env) (w : world) (f c : nat) (x : future_cell) (deadline masked : Z) : world * list instr :=
  if bool_decide (masked = 1) && e_kill e then (put_cell w c (fut_wq_remove x i), [IKill f deadline])
  else if fc_ready x then get_done w f c (fut_wq_remove x i)
  else if bool_decide (0 <= deadline) && bool_decide (deadline <= e_now e) then get_again w f c (fut_wq_remove x i)
  else (set_woken (put_cell w c x) (w_woken w ∖ {[i]}), [IPark f deadline masked]).

(** A thread that goes into the condition variable. *)
Definition cond_wait (i : nat) (w : world) (f c : nat) (x : future_cell) (timed : bool) : world * list instr :=
  (set_woken (put_cell w c (with_waiters x (fc_wq x) (fc_cv x ++ [i]))) (w_woken w ∖ {[i]}), [ICond f timed]).

Definition fiber_deadline (timeout_ns now : Z) : Z := if decide (0 < timeout_ns) then i64 (now + timeout_ns) else -1.

(** The time a thread's timed wait ends at: seconds and nanoseconds, C's
    quotient and remainder. *)
Definition thread_timespec (timeout_ns now : Z) : Z * Z :=
  let now_ns := i64 (now + timeout_ns) in (Z.quot now_ns 1000000000, Z.rem now_ns 1000000000).

(** [pthread_cond_timedwait] refuses such a time with EINVAL. *)
Definition timespec_valid (ts : Z * Z) : bool := bool_decide (0 <= ts.2) && bool_decide (ts.2 < 1000000000).

Definition future_get (i : nat) (e : env) (w : world) (f : nat) (timeout_ns : Z) (fiber : bool) : option (world * list instr) :=
  h ← w_futs w !! f;
  let c := fu_cell h in
  x ← w_cells w !! c;
  if fc_ready x then Some (get_done w f c x)
  else if decide (timeout_ns = 0) then Some (get_again w f c x)
  else if fiber then
    Some (fiber_turn i e w f c (fut_wq_enqueue x i) (fiber_deadline timeout_ns (e_start e)) (if e_mask e then 1 else 0))
  else Some (cond_wait i w f c x (bool_decide (0 < timeout_ns))).

(** A parked fiber runs again. *)
Definition fiber_resume (i : nat) (e : env) (w : world) (f : nat) (deadline masked : Z) : option (world * list instr) :=
  h ← w_futs w !! f;
  x ← w_cells w !! fu_cell h;
  Some (fiber_turn i e w f (fu_cell h) x deadline masked).

(** The kill is delivered, and the handle stays with the caller; or the
    caller's mask defers it, and the fiber waits on. *)
Definition fut_kill_deliver (i : nat) (e : env) (w : world) (f : nat) (deadline : Z) : option (world * list instr) :=
  if e_deferred e then
    h ← w_futs w !! f;
    x ← w_cells w !! fu_cell h;
    Some (fiber_turn i e w f (fu_cell h) (if fc_ready x then x else fut_wq_enqueue x i) deadline 2)
  else Some (give_fut w f true, []).

(** The condition variable gives the thread back. *)
Definition cond_resume (i : nat) (e : env) (w : world) (f : nat) (timed : bool) : option (world * list instr) :=
  h ← w_futs w !! f;
  let c := fu_cell h in
  x ← w_cells w !! c;
  let x1 := with_waiters x (fc_wq x) (remove_first i (fc_cv x)) in
  if fc_ready x then Some (get_done w f c x1)
  else if timed && e_expired e then Some (get_again w f c x1)
  else Some (cond_wait i w f c x1 timed).

Definition xtc_future_ready (w : world) (f : nat) : option bool :=
  h ← w_futs w !! f;
  x ← w_cells w !! fu_cell h;
  Some (fc_ready x).

(** ** Threads *)

Definition no_more (r : option world) : option (world * list instr) := w ← r; Some (w, []).

(** One instruction of thread [i]. *)
Definition exec (i : nat) (e : env) (w : world) (ins : instr) : option (world * list instr) :=
  match ins with
  | ISet p v st => promise_set w p v st
  | IFire cb v st => fire e w cb v st
  | IUnref c => no_more (cell_unref w c)
  | IDropProm p => no_more (drop_prom w p)
  | IDropFut f => no_more (drop_fut w f)
  | IGive f => Some (give_fut w f true, [])
  | IFreeOne m => no_more (free_one w m)
  | IReg f cb =>
      if e_mem e then '(w1, c) ← on_complete_ref w f; Some (w1, [IRegLocked c cb; IDropFut f])
      else Some (w, reg_failed cb [] ++ [IDropFut f])
  | IRegRes f cb res =>
      if e_mem e then '(w1, c) ← on_complete_ref w f; Some (w1, [IRegLocked c cb; IDropFut f; IGive res])
      else Some (w, reg_failed cb [IDropFut res] ++ [IGive f])
  | IRegLocked c cb => on_complete_locked w c cb
  | IAllStore a st => all_store w a st
  | IAllDec a => all_dec w a
  | IAllFree a => no_more (all_free w a)
  | IAnyDec a => no_more (any_dec w a)
  | IAnyRetire a => any_retire_failed w a
  | IAnyFree a => no_more (any_free w a)
  | ITmoCancel a => timeout_cancel w a
  | ITmoFire a => timeout_fire w a
  | ITmoRetire a => no_more (timeout_retire w a)
  | IGet f tmo fiber => future_get i e w f tmo fiber
  | IPark f dl m => fiber_resume i e w f dl m
  | IKill f dl => fut_kill_deliver i e w f dl
  | ICond f timed => cond_resume i e w f timed
  end.

(** ** Calls *)

(** A call by an idle thread; [mem]: the allocation of a context and those of
    a pair; [timer]: [xtc_timer_set] succeeds.  [CGet] is [xtc_future_wait],
    and with a negative timeout in a fiber [xtc_future_await].  [CTimer] is the loop running
    a timer that is due. *)
Inductive call : Type :=
  | CNew (mem : bool * bool * bool)
  | CSet (p : nat) (value status : Z)
  | CDrop (p : nat)
  | CGet (f : nat) (timeout_ns : Z) (fiber : bool)
  | CDiscard (f : nat)
  | CMap (f : nat) (fn : Z -> Z -> Z) (ctx : bool) (mem : bool * bool * bool)
  | CThen (f : nat) (ctx : bool) (mem : bool * bool * bool)
  | CAll (fs : list nat) (ctx : bool) (mem : bool * bool * bool)
  | CAny (fs : list nat) (ctx : bool) (mem : bool * bool * bool)
  | CTimeout (f : nat) (timer ctx : bool) (mem : bool * bool * bool)
  | CTimer (a : nat).

Definition my_fut (w : world) (f : nat) : bool := match w_futs w !! f with Some h => fu_mine h | None => false end.
Definition my_prom (w : world) (p : nat) : bool := match w_proms w !! p with Some h => pr_mine h | None => false end.
Definition take_futs (w : world) (fs : list nat) : world := foldl (fun w f => give_fut w f false) w fs.

(** A combinator: its context at the next address, its result pair, then the
    handles it consumes go to the call. *)
Definition combine (w : world) (fs : list nat) (ctx : bool) (mem : bool * bool * bool)
    (build : world -> nat -> nat -> nat -> world * list instr) : world * list instr :=
  if ctx then
    let a := w_nxt w in
    match new_pair (set_nxt w (S a)) mem false with
    | (_, Some (p, f), w1) => build (take_futs w1 fs) a p f
    | (_, None, w1) => (w, [])
    end
  else (w, []).

Definition xtc_future_map (w : world) (f : nat) (fn : Z -> Z -> Z) (ctx : bool) (mem : bool * bool * bool) : world * list instr :=
  combine w [f] ctx mem (fun w1 m p res =>
    (set_one w1 (<[m := tt]> (w_one w1)), [IRegRes f (map_on_complete m p fn) res])).

Definition xtc_future_then (w : world) (f : nat) (ctx : bool) (mem : bool * bool * bool) : world * list instr :=
  combine w [f] ctx mem (fun w1 t p res =>
    (set_one w1 (<[t := tt]> (w_one w1)), [IRegRes f (then_on_complete t p) res])).

Definition xtc_future_when_all (w : world) (fs : list nat) (ctx : bool) (mem : bool * bool * bool) : world * list instr :=
  combine w fs ctx mem (fun w1 a p res =>
    let n := Z.of_nat (length fs) in
    (set_alls w1 (<[a := mk_all p n n OK false []]> (w_alls w1)),
     ((fun f => IReg f (all_on_complete a)) <$> fs) ++ [IGive res])).

Definition xtc_future_when_any (w : world) (fs : list nat) (ctx : bool) (mem : bool * bool * bool) : world * list instr :=
  combine w fs ctx mem (fun w1 a p res =>
    (set_anys w1 (<[a := mk_any p false (Z.of_nat (length fs)) []]> (w_anys w1)),
     ((fun f => IReg f (any_on_complete a)) <$> fs) ++ [IGive res])).

(** Without a timer the source is only forwarded. *)
Definition xtc_future_with_timeout (w : world) (f : nat) (timer ctx : bool) (mem : bool * bool * bool) : world * list instr :=
  combine w [f] ctx mem (fun w1 a p res =>
    (if timer then set_tmos w1 (<[a := mk_tmo p (Some TM_ARMED) false 2 []]> (w_tmos w1)) (w_timers w1 + 1)
     else set_tmos w1 (<[a := mk_tmo p None false 1 []]> (w_tmos w1)) (w_timers w1),
     [IReg f (timeout_src_complete a); IGive res])).

(** The client keeps to the contract: the handles it passes are its own, and
    no array names one twice. *)
Definition start (w : world) (k : call) : option (world * list instr) :=
  match k with
  | CNew mem => Some ((new_pair w mem true).2, [])
  | CSet p v st => if my_prom w p then Some (give_prom w p false, [ISet p v st]) else None
  | CDrop p => if my_prom w p then Some (give_prom w p false, xtc_promise_drop p) else None
  | CGet f tmo fiber => if my_fut w f then Some (give_fut w f false, [IGet f tmo fiber]) else None
  | CDiscard f => if my_fut w f then Some (give_fut w f false, [IDropFut f]) else None
  | CMap f fn ctx mem => if my_fut w f then Some (xtc_future_map w f fn ctx mem) else None
  | CThen f ctx mem => if my_fut w f then Some (xtc_future_then w f ctx mem) else None
  | CAll fs ctx mem =>
      if bool_decide (NoDup fs) && forallb (my_fut w) fs && bool_decide (0 < Z.of_nat (length fs) <= INT_MAX)
      then Some (xtc_future_when_all w fs ctx mem) else None
  | CAny fs ctx mem =>
      if bool_decide (NoDup fs) && forallb (my_fut w) fs && bool_decide (0 < Z.of_nat (length fs) <= INT_MAX)
      then Some (xtc_future_when_any w fs ctx mem) else None
  | CTimeout f timer ctx mem => if my_fut w f then Some (xtc_future_with_timeout w f timer ctx mem) else None
  | CTimer a =>
      x ← w_tmos w !! a;
      if decide (tx_timer x = Some TM_ARMED) then
        Some (set_tmos w (<[a := mk_tmo (tx_prom x) (Some TM_FIRED) (tx_done x) (tx_remaining x) (tx_fired x)]> (w_tmos w)) (w_timers w),
              [ITmoFire a])
      else None
  end.

(** What a then function returns is a future of the client's. *)
Definition fair_env (w : world) (e : env) : Prop :=
  match e_next e with Some f => my_fut w f = true | None => True end.

Inductive fut_step (i : nat) (w : world) : list instr -> world -> list instr -> Prop :=
  | fs_call k w' l : start w k = Some (w', l) -> fut_step i w [] w' l
  | fs_exec e ins rest w' l :
      fair_env w e -> exec i e w ins = Some (w', l) -> fut_step i w (ins :: rest) w' (l ++ rest).

Definition fut_init (n : nat) : world * gmap nat (list instr) := (world0, idle_pool [] n).
