(* ===== verification/FutureSafe.v ===== *)
(** * Futures: memory and references

    Every reference, promise, handle and callback is a token that is held
    once: by a thread's instruction, by the client, by a cell's list of
    callbacks or by a context.  The objects of the heap supply the tokens
    (a cell as many references as its count says).  That held and supplied
    tokens agree is kept by every step; what is held exists, which is why no
    step faults, and what exists is held, which is why nothing leaks. *)

From S2P Require Import Prelude Future.

Local Open Scope Z_scope.

(** ** Sums over a heap *)

Definition msum {A} (w : nat -> A -> Z) (m : gmap nat A) : Z := map_fold (fun k x acc => w k x + acc) 0 m.

Section Msum.
Context {A : Type}.
Implicit Types (w : nat -> A -> Z) (m : gmap nat A).

Lemma msum_empty w : msum w ∅ = 0.
Proof. unfold msum. by rewrite map_fold_empty. Qed.

Lemma msum_fresh w m k x : m !! k = None -> msum w (<[k := x]> m) = msum w m + w k x.
Proof. intros H. unfold msum. rewrite map_fold_insert_L; [lia| |done]. intros. lia. Qed.

Lemma msum_delete w m k x : m !! k = Some x -> msum w (delete k m) = msum w m - w k x.
Proof. intros H. rewrite <- (insert_delete_id m k x H) at 2. rewrite msum_fresh by apply lookup_delete_eq. lia. Qed.

Lemma msum_update w m k x y : m !! k = Some x -> msum w (<[k := y]> m) = msum w m - w k x + w k y.
Proof.
  intros H. rewrite <- insert_delete_eq, msum_fresh by apply lookup_delete_eq. by rewrite (msum_delete _ _ _ x).
Qed.

Lemma msum_le w w' m : (forall k x, m !! k = Some x -> w k x <= w' k x) -> msum w m <= msum w' m.
Proof.
  induction m as [|k x m Hk IH] using map_ind; intros H; [by rewrite !msum_empty|].
  rewrite !msum_fresh by done. assert (w k x <= w' k x) by (apply H; by rewrite lookup_insert_eq).
  assert (msum w m <= msum w' m); [|lia]. apply IH. intros j y Hj. apply H. rewrite lookup_insert_ne; [done|congruence].
Qed.

Lemma msum_zero w m : (forall k x, m !! k = Some x -> w k x = 0) -> msum w m = 0.
Proof.
  induction m as [|k x m Hk IH] using map_ind; intros H; [apply msum_empty|].
  rewrite msum_fresh by done. rewrite IH, H; [done| by rewrite lookup_insert_eq|].
  intros j y Hj. apply H. rewrite lookup_insert_ne; [done|congruence].
Qed.

Lemma msum_nonneg w m : (forall k x, 0 <= w k x) -> 0 <= msum w m.
Proof. intros H. rewrite <- (msum_zero (fun _ _ => 0) m) by done. by apply msum_le. Qed.

Lemma msum_ge w m k x : (forall k x, 0 <= w k x) -> m !! k = Some x -> w k x <= msum w m.
Proof.
  intros Hw Hk. pose proof (msum_nonneg w (delete k m) Hw). rewrite (msum_delete _ _ _ x) in H by done. lia.
Qed.

(** One key weighs in. *)
Lemma msum_single w m k :
  (forall j x, j <> k -> w j x = 0) -> msum w m = match m !! k with Some x => w k x | None => 0 end.
Proof.
  intros H. destruct (m !! k) as [x|] eqn:Hk.
  - rewrite <- (insert_delete_id m k x Hk), msum_fresh by apply lookup_delete_eq.
    rewrite (msum_zero w (delete k m)); [lia|]. intros j y [Hj _]%lookup_delete_Some. by apply H.
  - apply msum_zero. intros j y Hj. apply H. congruence.
Qed.

(** Two sums that differ at a key. *)
Lemma msum_le_at w w' m k x n :
  (forall k x, m !! k = Some x -> w k x <= w' k x) -> m !! k = Some x -> w k x + n <= w' k x -> msum w m + n <= msum w' m.
Proof.
  intros H Hk Hn. rewrite <- (insert_delete_id m k x Hk), !msum_fresh by apply lookup_delete_eq.
  assert (msum w (delete k m) <= msum w' (delete k m)); [|lia].
  apply msum_le. intros j y [_ Hj]%lookup_delete_Some. by apply H.
Qed.
End Msum.

(** ** Tokens *)

(** [TRef]: a reference of a cell; [TPend]: the right to complete it;
    [TProm], [TSet]: a promise before and after it was set; [TFut]: a future;
    [TOne]: an unchanging context; [TAllU]: an input of a when_all that has
    still to fire; [TAll], [TAny], [TTmo]: a retirement a context waits for;
    [TAllF], [TAnyF]: a context that all retired from; [TErr]: the first error
    of a when_all that has still to be stored. *)
Inductive token : Type :=
  | TRef (c : nat) | TPend (c : nat) | TProm (p : nat) | TSet (p : nat) | TFut (f : nat) | TOne (m : nat)
  | TAllU (a : nat) | TAll (a : nat) | TAllF (a : nat) | TAny (a : nat) | TAnyF (a : nat) | TTmo (a : nat)
  | TErr (a : nat) (st : Z).

#[global] Instance token_eq_dec : EqDecision token.
Proof. solve_decision. Defined.

(** The first status that is not OK, or OK. *)
Fixpoint first_error (l : list Z) : Z :=
  match l with [] => OK | st :: l => if decide (st = OK) then first_error l else st end.

Lemma first_error_snoc l st : first_error (l ++ [st]) = if decide (first_error l = OK) then st else first_error l.
Proof.
  induction l as [|z l IH]; cbn [app first_error].
  - rewrite (decide_True (P := OK = OK)) by done. by case_decide.
  - destruct (decide (z = OK)); [exact IH|]. by rewrite decide_False.
Qed.

Lemma first_error_ok l st : st = OK -> first_error (l ++ [st]) = first_error l.
Proof. intros ->. rewrite first_error_snoc. by case_decide. Qed.

Lemma first_error_keep l st : first_error l <> OK -> first_error (l ++ [st]) = first_error l.
Proof. intros H. rewrite first_error_snoc. by rewrite decide_False. Qed.

Lemma first_error_new l st : first_error l = OK -> first_error (l ++ [st]) = st.
Proof. intros H. rewrite first_error_snoc. by rewrite decide_True. Qed.

Definition d (t t' : token) : Z := if decide (t = t') then 1 else 0.
Arguments d : simpl never.

Definition hold_cb (cb : fut_cb) (t : token) : Z :=
  match cb with
  | map_on_complete m p _ | then_on_complete m p | then_inner_on_complete m p => d (TOne m) t + d (TProm p) t
  | all_on_complete a => d (TAllU a) t + d (TAll a) t
  | any_on_complete a => d (TAny a) t
  | timeout_src_complete a => d (TTmo a) t
  end.

Definition hold (ins : instr) (t : token) : Z :=
  match ins with
  | ISet p _ _ => d (TProm p) t
  | IFire cb _ _ => hold_cb cb t
  | IUnref c => d (TRef c) t
  | IDropProm p => d (TSet p) t
  | IDropFut f | IGive f => d (TFut f) t
  | IFreeOne m => d (TOne m) t
  | IReg f cb => d (TFut f) t + hold_cb cb t
  | IRegRes f cb res => d (TFut f) t + hold_cb cb t + d (TFut res) t
  | IRegLocked c cb => d (TRef c) t + hold_cb cb t
  | IAllStore a st => d (TAll a) t + d (TErr a st) t
  | IAllDec a => d (TAll a) t
  | IAllFree a => d (TAllF a) t
  | IAnyDec a | IAnyRetire a => d (TAny a) t
  | IAnyFree a => d (TAnyF a) t
  | ITmoCancel a | ITmoFire a | ITmoRetire a => d (TTmo a) t
  | IGet f _ _ | IPark f _ _ | IKill f _ | ICond f _ => d (TFut f) t
  end.

Fixpoint hold_list (l : list instr) (t : token) : Z :=
  match l with [] => 0 | ins :: l => hold ins t + hold_list l t end.

Fixpoint hold_cbs (c : nat) (l : list fut_cb) (t : token) : Z :=
  match l with [] => 0 | cb :: l => hold_cb cb t + d (TRef c) t + hold_cbs c l t end.

(** What the objects hold, and what they supply. *)
Definition held_cell t (c : nat) (x : future_cell) : Z := hold_cbs c (fc_cbs x) t.
Definition held_prom t (p : nat) (x : xtc_promise) : Z :=
  d (TRef (pr_cell x)) t + (if set_or_dropped x then 0 else d (TPend (pr_cell x)) t) + (if pr_mine x then d (TProm p) t else 0).
Definition held_fut t (f : nat) (x : xtc_future) : Z :=
  d (TRef (fu_cell x)) t + (if fu_mine x then d (TFut f) t else 0).
Definition held_all t (a : nat) (x : all_ctx) : Z := if decide (al_remaining x = 0) then 0 else d (TProm (al_prom x)) t.
Definition held_any t (a : nat) (x : any_ctx) : Z := if an_done x then 0 else d (TProm (an_prom x)) t.
Definition held_tmo t (a : nat) (x : timeout_ctx) : Z :=
  (if tx_done x then 0 else d (TProm (tx_prom x)) t) + (if decide (tx_timer x = Some TM_ARMED) then d (TTmo a) t else 0).

Definition supp_cell t (c : nat) (x : future_cell) : Z := fc_refcnt x * d (TRef c) t + (if fc_ready x then 0 else d (TPend c) t).
Definition supp_prom t (p : nat) (x : xtc_promise) : Z := if set_or_dropped x then d (TSet p) t else d (TProm p) t.
Definition supp_fut t (f : nat) (x : xtc_future) : Z := d (TFut f) t.
Definition supp_one t (m : nat) (x : unit) : Z := d (TOne m) t.
Definition supp_all t (a : nat) (x : all_ctx) : Z :=
  al_remaining x * d (TAll a) t + (al_total x - Z.of_nat (length (al_fired x))) * d (TAllU a) t +
  (if decide (al_remaining x = 0) then d (TAllF a) t else 0) +
  (if al_err_set x && bool_decide (al_first_err x <> first_error (al_fired x)) then d (TErr a (first_error (al_fired x))) t else 0).
Definition supp_any t (a : nat) (x : any_ctx) : Z :=
  an_remaining x * d (TAny a) t + (if decide (an_remaining x = 0) then d (TAnyF a) t else 0).
Definition supp_tmo t (a : nat) (x : timeout_ctx) : Z := tx_remaining x * d (TTmo a) t.

Definition held (w : world) (t : token) : Z :=
  msum (held_cell t) (w_cells w) + msum (held_prom t) (w_proms w) + msum (held_fut t) (w_futs w) +
  msum (held_all t) (w_alls w) + msum (held_any t) (w_anys w) + msum (held_tmo t) (w_tmos w).

Definition supply (w : world) (t : token) : Z :=
  msum (supp_cell t) (w_cells w) + msum (supp_prom t) (w_proms w) + msum (supp_fut t) (w_futs w) +
  msum (supp_one t) (w_one w) + msum (supp_all t) (w_alls w) + msum (supp_any t) (w_anys w) + msum (supp_tmo t) (w_tmos w).

(** The tokens a heap lacks: those its threads have to hold. *)
Definition due (w : world) (t : token) : Z := supply w t - held w t.

Definition thread_tokens (pool : gmap nat (list instr)) (t : token) : Z := pool_sum (fun l => hold_list l t) pool.

Lemma d_nonneg t t' : 0 <= d t t'.
Proof. unfold d. case_decide; lia. Qed.

Lemma d_eq t : d t t = 1.
Proof. unfold d. by rewrite decide_True. Qed.

Lemma d_ne t t' : t <> t' -> d t t' = 0.
Proof. intros. unfold d. by rewrite decide_False. Qed.

Ltac d_pos :=
  repeat match goal with
  | |- context [d ?x ?y] =>
      match goal with H : 0 <= d x y |- _ => fail 1 | _ => pose proof (d_nonneg x y) end
  end.

Lemma hold_cb_nonneg cb t : 0 <= hold_cb cb t.
Proof. destruct cb; simpl; d_pos; lia. Qed.

Lemma hold_nonneg ins t : 0 <= hold ins t.
Proof.
  destruct ins; simpl;
    try match goal with |- context [hold_cb ?cb t] => pose proof (hold_cb_nonneg cb t) end; d_pos; lia.
Qed.

Lemma hold_list_nonneg l t : 0 <= hold_list l t.
Proof. induction l as [|ins l IH]; simpl; [done|]. pose proof (hold_nonneg ins t). lia. Qed.

Lemma hold_list_app l l' t : hold_list (l ++ l') t = hold_list l t + hold_list l' t.
Proof. induction l as [|ins l IH]; simpl; lia. Qed.

Lemma hold_cbs_nonneg c l t : 0 <= hold_cbs c l t.
Proof. induction l as [|cb l IH]; simpl; [done|]. pose proof (hold_cb_nonneg cb t). pose proof (d_nonneg (TRef c) t). lia. Qed.

Lemma hold_cbs_ref c l : Z.of_nat (length l) <= hold_cbs c l (TRef c).
Proof. induction l as [|cb l IH]; simpl; [done|]. pose proof (hold_cb_nonneg cb (TRef c)). rewrite d_eq. lia. Qed.

Lemma hold_fires c v st l t :
  hold_list (concat ((fun cb => [IFire cb v st; IUnref c]) <$> l)) t = hold_cbs c l t.
Proof. induction l as [|cb l IH]; [done|]. rewrite fmap_cons. cbn [concat app hold_list hold hold_cbs]. lia. Qed.

(** What is supplied, token by token. *)
Ltac supply_at k :=
  unfold supply;
  repeat first
    [ rewrite (msum_zero (supp_cell _)); [|by intros; unfold supp_cell; case_match; rewrite ?d_ne by done; lia]
    | rewrite (msum_zero (supp_prom _)); [|by intros; unfold supp_prom; case_match; rewrite d_ne by done]
    | rewrite (msum_zero (supp_fut _)); [|by intros; unfold supp_fut; rewrite d_ne by done]
    | rewrite (msum_zero (supp_one _)); [|by intros; unfold supp_one; rewrite d_ne by done]
    | rewrite (msum_zero (supp_all _)); [|by intros; unfold supp_all; repeat case_match; rewrite ?d_ne by done; lia]
    | rewrite (msum_zero (supp_any _)); [|by intros; unfold supp_any; case_match; rewrite ?d_ne by done; lia]
    | rewrite (msum_zero (supp_tmo _)); [|by intros; unfold supp_tmo; rewrite d_ne by done; lia] ];
  rewrite (msum_single _ _ k);
    [| intros ? ? ?; unfold supp_cell, supp_prom, supp_fut, supp_one, supp_all, supp_any, supp_tmo;
       repeat case_match; rewrite ?d_ne by congruence; lia];
  unfold supp_cell, supp_prom, supp_fut, supp_one, supp_all, supp_any, supp_tmo;
  repeat case_match; rewrite ?d_eq; rewrite ?d_ne by done; try lia.

Lemma supply_ref w c : supply w (TRef c) = match w_cells w !! c with Some x => fc_refcnt x | None => 0 end.
Proof. supply_at c. Qed.

Lemma supply_pend w c :
  supply w (TPend c) = match w_cells w !! c with Some x => if fc_ready x then 0 else 1 | None => 0 end.
Proof. supply_at c. Qed.

Lemma supply_prom w p :
  supply w (TProm p) = match w_proms w !! p with Some x => if set_or_dropped x then 0 else 1 | None => 0 end.
Proof. supply_at p. Qed.

Lemma supply_set w p :
  supply w (TSet p) = match w_proms w !! p with Some x => if set_or_dropped x then 1 else 0 | None => 0 end.
Proof. supply_at p. Qed.

Lemma supply_fut w f : supply w (TFut f) = match w_futs w !! f with Some _ => 1 | None => 0 end.
Proof. supply_at f. Qed.

Lemma supply_one w m : supply w (TOne m) = match w_one w !! m with Some _ => 1 | None => 0 end.
Proof. supply_at m. Qed.

Lemma supply_all w a : supply w (TAll a) = match w_alls w !! a with Some x => al_remaining x | None => 0 end.
Proof. supply_at a. Qed.

Lemma supply_allu w a :
  supply w (TAllU a) = match w_alls w !! a with Some x => al_total x - Z.of_nat (length (al_fired x)) | None => 0 end.
Proof. supply_at a. Qed.

Lemma supply_allf w a :
  supply w (TAllF a) = match w_alls w !! a with Some x => if decide (al_remaining x = 0) then 1 else 0 | None => 0 end.
Proof. supply_at a. Qed.

Lemma supply_err w a st :
  supply w (TErr a st) = match w_alls w !! a with
    | Some x => if al_err_set x && bool_decide (al_first_err x <> first_error (al_fired x)) then d (TErr a (first_error (al_fired x))) (TErr a st) else 0
    | None => 0 end.
Proof. supply_at a. Qed.

Lemma supply_any w a : supply w (TAny a) = match w_anys w !! a with Some x => an_remaining x | None => 0 end.
Proof. supply_at a. Qed.

Lemma supply_anyf w a :
  supply w (TAnyF a) = match w_anys w !! a with Some x => if decide (an_remaining x = 0) then 1 else 0 | None => 0 end.
Proof. supply_at a. Qed.

Lemma supply_tmo w a : supply w (TTmo a) = match w_tmos w !! a with Some x => tx_remaining x | None => 0 end.
Proof. supply_at a. Qed.

(** ** What is held exists *)

(** [T]: the tokens the threads hold. *)
Definition balanced (w : world) (T : token -> Z) : Prop := forall t, 0 <= T t /\ T t + held w t = supply w t.

Lemma held_cell_nonneg t c x : 0 <= held_cell t c x.
Proof. apply hold_cbs_nonneg. Qed.

Lemma held_prom_nonneg t p x : 0 <= held_prom t p x.
Proof. unfold held_prom. repeat case_match; d_pos; lia. Qed.

Lemma held_fut_nonneg t f x : 0 <= held_fut t f x.
Proof. unfold held_fut. case_match; d_pos; lia. Qed.

Lemma held_all_nonneg t a x : 0 <= held_all t a x.
Proof. unfold held_all. case_match; d_pos; lia. Qed.

Lemma held_any_nonneg t a x : 0 <= held_any t a x.
Proof. unfold held_any. case_match; d_pos; lia. Qed.

Lemma held_tmo_nonneg t a x : 0 <= held_tmo t a x.
Proof. unfold held_tmo. repeat case_match; d_pos; lia. Qed.

Create HintDb held.
#[local] Hint Resolve held_cell_nonneg held_prom_nonneg held_fut_nonneg held_all_nonneg held_any_nonneg held_tmo_nonneg : held.

(** All parts of what the heap holds are positive. *)
Ltac held_parts w t :=
  pose proof (msum_nonneg (held_cell t) (w_cells w) ltac:(auto with held));
  pose proof (msum_nonneg (held_prom t) (w_proms w) ltac:(auto with held));
  pose proof (msum_nonneg (held_fut t) (w_futs w) ltac:(auto with held));
  pose proof (msum_nonneg (held_all t) (w_alls w) ltac:(auto with held));
  pose proof (msum_nonneg (held_any t) (w_anys w) ltac:(auto with held));
  pose proof (msum_nonneg (held_tmo t) (w_tmos w) ltac:(auto with held)).

Lemma held_nonneg w t : 0 <= held w t.
Proof. unfold held. held_parts w t. lia. Qed.

Lemma held_ge_cell w t c x : w_cells w !! c = Some x -> held_cell t c x <= held w t.
Proof. intros H. unfold held. held_parts w t. pose proof (msum_ge (held_cell t) _ _ _ ltac:(auto with held) H). lia. Qed.

Lemma held_ge_prom w t p x : w_proms w !! p = Some x -> held_prom t p x <= held w t.
Proof. intros H. unfold held. held_parts w t. pose proof (msum_ge (held_prom t) _ _ _ ltac:(auto with held) H). lia. Qed.

Lemma held_ge_fut w t f x : w_futs w !! f = Some x -> held_fut t f x <= held w t.
Proof. intros H. unfold held. held_parts w t. pose proof (msum_ge (held_fut t) _ _ _ ltac:(auto with held) H). lia. Qed.

Lemma held_ge_tmo w t a x : w_tmos w !! a = Some x -> held_tmo t a x <= held w t.
Proof. intros H. unfold held. held_parts w t. pose proof (msum_ge (held_tmo t) _ _ _ ltac:(auto with held) H). lia. Qed.

Section Balanced.
Context (w : world) (T : token -> Z) (Hbal : balanced w T).

Lemma prom_live p :
  1 <= T (TProm p) ->
  exists x, w_proms w !! p = Some x /\ set_or_dropped x = false /\ pr_mine x = false /\ T (TProm p) = 1.
Proof.
  intros HT. destruct (Hbal (TProm p)) as [_ He]. rewrite supply_prom in He.
  pose proof (held_nonneg w (TProm p)). destruct (w_proms w !! p) as [x|] eqn:Hp; [|lia].
  pose proof (held_ge_prom w (TProm p) p x Hp) as Hge. exists x. unfold held_prom in Hge.
  destruct (set_or_dropped x); [lia|]. rewrite d_eq, !(d_ne (TRef _)), (d_ne (TPend _)) in Hge by done.
  destruct (pr_mine x); [lia|]. repeat split; lia.
Qed.

Lemma set_live p :
  1 <= T (TSet p) -> exists x, w_proms w !! p = Some x /\ set_or_dropped x = true.
Proof.
  intros HT. destruct (Hbal (TSet p)) as [_ He]. rewrite supply_set in He.
  pose proof (held_nonneg w (TSet p)). destruct (w_proms w !! p) as [x|]; [|lia].
  exists x. by destruct (set_or_dropped x); [|lia].
Qed.

Lemma fut_live f :
  1 <= T (TFut f) -> exists x, w_futs w !! f = Some x /\ fu_mine x = false /\ T (TFut f) = 1.
Proof.
  intros HT. destruct (Hbal (TFut f)) as [_ He]. rewrite supply_fut in He.
  pose proof (held_nonneg w (TFut f)). destruct (w_futs w !! f) as [x|] eqn:Hf; [|lia].
  pose proof (held_ge_fut w (TFut f) f x Hf) as Hge. exists x. unfold held_fut in Hge.
  rewrite d_eq, (d_ne (TRef _)) in Hge by done. destruct (fu_mine x); [lia|]. repeat split; lia.
Qed.

Lemma one_live m : 1 <= T (TOne m) -> w_one w !! m = Some tt.
Proof.
  intros HT. destruct (Hbal (TOne m)) as [_ He]. rewrite supply_one in He.
  pose proof (held_nonneg w (TOne m)). destruct (w_one w !! m) as [[]|]; [done|lia].
Qed.

(** Something that holds a reference finds its cell. *)
Lemma ref_live c n :
  1 <= n -> n <= T (TRef c) + held w (TRef c) -> exists x, w_cells w !! c = Some x /\ n <= fc_refcnt x.
Proof.
  intros Hn HT. destruct (Hbal (TRef c)) as [_ He]. rewrite supply_ref in He.
  destruct (w_cells w !! c) as [x|]; [|lia]. exists x. split; [done|lia].
Qed.

Lemma cell_of_fut f h : w_futs w !! f = Some h -> exists x, w_cells w !! fu_cell h = Some x /\ 1 <= fc_refcnt x.
Proof.
  intros Hf. apply ref_live; [lia|]. pose proof (held_ge_fut w (TRef (fu_cell h)) f h Hf) as Hge.
  destruct (Hbal (TRef (fu_cell h))) as [? _]. unfold held_fut in Hge. rewrite d_eq in Hge.
  destruct (fu_mine h); rewrite ?d_ne in Hge by done; lia.
Qed.

Lemma cell_of_prom p h : w_proms w !! p = Some h -> exists x, w_cells w !! pr_cell h = Some x /\ 1 <= fc_refcnt x.
Proof.
  intros Hp. apply ref_live; [lia|]. pose proof (held_ge_prom w (TRef (pr_cell h)) p h Hp) as Hge.
  destruct (Hbal (TRef (pr_cell h))) as [? _]. unfold held_prom in Hge. rewrite d_eq in Hge.
  destruct (set_or_dropped h), (pr_mine h); rewrite ?d_ne in Hge by done; lia.
Qed.

(** The cell of a promise that is not set is not complete. *)
Lemma cell_pending p h :
  w_proms w !! p = Some h -> set_or_dropped h = false ->
  exists x, w_cells w !! pr_cell h = Some x /\ 1 <= fc_refcnt x /\ fc_ready x = false.
Proof.
  intros Hp Hs. destruct (cell_of_prom p h Hp) as (x & Hx & Hr). exists x. split_and!; [done..|].
  destruct (Hbal (TPend (pr_cell h))) as [? He]. rewrite supply_pend, Hx in He.
  pose proof (held_ge_prom w (TPend (pr_cell h)) p h Hp) as Hge. unfold held_prom in Hge. rewrite Hs, d_eq in Hge.
  destruct (pr_mine h); rewrite ?d_ne in Hge by done; destruct (fc_ready x); lia.
Qed.

(** Only promises hold the right to complete. *)
Lemma held_pend c :
  held w (TPend c) = msum (held_prom (TPend c)) (w_proms w).
Proof.
  unfold held.
  rewrite (msum_zero (held_fut _)), (msum_zero (held_all _)), (msum_zero (held_any _)), (msum_zero (held_tmo _)); [| | | |].
  - rewrite (msum_zero (held_cell _)); [lia|]. intros k x _. unfold held_cell.
    induction (fc_cbs x) as [|cb l IH]; simpl; [done|]. rewrite IH, d_ne by done. by destruct cb; simpl; rewrite ?d_ne by done.
  - intros. unfold held_tmo. repeat case_match; rewrite ?d_ne by done; done.
  - intros. unfold held_any. by case_match; rewrite ?d_ne by done.
  - intros. unfold held_all. by case_match; rewrite ?d_ne by done.
  - intros. unfold held_fut. by case_match; rewrite ?d_ne by done.
Qed.

(** A reference that is not that of a promise yet to be set, on a cell with
    no other one: the cell is complete and has no callbacks. *)
Lemma last_ref c x extra :
  w_cells w !! c = Some x -> fc_refcnt x = 1 ->
  T (TPend c) = 0 ->
  1 <= extra ->
  extra + held_cell (TRef c) c x + msum (held_prom (TPend c)) (w_proms w) <= T (TRef c) + held w (TRef c) ->
  fc_cbs x = [] /\ fc_ready x = true.
Proof.
  intros Hx H1 HT Hex Hle. destruct (Hbal (TRef c)) as [_ He]. rewrite supply_ref, Hx in He.
  destruct (Hbal (TPend c)) as [_ Hp]. rewrite supply_pend, Hx, held_pend in Hp.
  pose proof (hold_cbs_ref c (fc_cbs x)) as Hc. unfold held_cell in Hle.
  pose proof (msum_nonneg (held_prom (TPend c)) (w_proms w) ltac:(auto with held)).
  split; [destruct (fc_cbs x); simpl in *; [done|lia]|]. destruct (fc_ready x); [done|lia].
Qed.
End Balanced.

(** ** Every instruction keeps the balance *)

Lemma snoc_not_nil {A} (l : list A) x : bool_decide (l ++ [x] = []) = false.
Proof. apply bool_decide_false. by destruct l. Qed.

(** The flag says whether an input failed. *)
Definition err_ok (x : all_ctx) : Prop :=
  (al_err_set x = true <-> first_error (al_fired x) <> OK) /\ (al_err_set x = false -> al_first_err x = OK).

Record heap_ok (w : world) : Prop := mk_heap_ok {
  ho_cells : map_Forall (fun c x => 1 <= fc_refcnt x /\ (fc_ready x = true -> fc_cbs x = []) /\ (c < w_nxt w)%nat) (w_cells w);
  ho_proms : map_Forall (fun p x => p = S (pr_cell x) /\ (set_or_dropped x = true -> pr_mine x = false) /\ (p < w_nxt w)%nat) (w_proms w);
  ho_futs : map_Forall (fun f x => f = S (S (fu_cell x)) /\ (f < w_nxt w)%nat) (w_futs w);
  ho_one : map_Forall (fun m _ => (m < w_nxt w)%nat) (w_one w);
  ho_alls : map_Forall (fun a x => 0 <= al_remaining x /\ err_ok x /\ (a < w_nxt w)%nat) (w_alls w);
  ho_anys : map_Forall (fun a x => 0 <= an_remaining x /\ (an_remaining x = 0 -> an_done x = true) /\
    (an_remaining x <> 0 -> an_done x = negb (bool_decide (an_fired x = []))) /\ (a < w_nxt w)%nat) (w_anys w);
  ho_tmos : map_Forall (fun a x => 1 <= tx_remaining x /\ tx_done x = negb (bool_decide (tx_fired x = [])) /\ (a < w_nxt w)%nat) (w_tmos w);
  ho_timers : w_timers w = msum (fun _ x => match tx_timer x with Some _ => 1 | None => 0 end) (w_tmos w);
}.

(** Who retires has made its exchange on [done]. *)
Definition done_ok (w : world) (ins : instr) : Prop :=
  match ins with
  | IAnyDec a => forall x, w_anys w !! a = Some x -> an_done x = true
  | ITmoCancel a | ITmoRetire a => forall x, w_tmos w !! a = Some x -> tx_done x = true
  | _ => True
  end.

Definition done_mono (w w' : world) : Prop :=
  (forall a x', w_anys w' !! a = Some x' -> an_done x' = true \/ exists x, w_anys w !! a = Some x /\ an_done x = false) /\
  (forall a x', w_tmos w' !! a = Some x' -> tx_done x' = true \/ exists x, w_tmos w !! a = Some x /\ tx_done x = false).

Record step_ok (w : world) (had : token -> Z) (w' : world) (l : list instr) : Prop := mk_step_ok {
  so_due : forall t, due w' t - due w t = hold_list l t - had t;
  so_heap : heap_ok w';
  so_done : Forall (done_ok w') l;
  so_mono : done_mono w w';
}.

Lemma done_ok_mono w w' ins : done_mono w w' -> done_ok w ins -> done_ok w' ins.
Proof.
  intros [Ha Ht]. destruct ins; simpl; try done; intros H x Hx.
  all: first [destruct (Ha _ _ Hx) as [|(y & Hy & Hd)] | destruct (Ht _ _ Hx) as [|(y & Hy & Hd)]]; [done|].
  all: rewrite (H _ Hy) in Hd; done.
Qed.

Lemma done_mono_same w w' : w_anys w' = w_anys w -> w_tmos w' = w_tmos w -> done_mono w w'.
Proof.
  intros Ha Ht. split; intros a x; [rewrite Ha|rewrite Ht]; intros Hx.
  - destruct (an_done x) eqn:?; eauto.
  - destruct (tx_done x) eqn:?; eauto.
Qed.

Ltac due_calc :=
  lazymatch goal with |- forall t : token, _ => intros t | _ => idtac end;
  unfold due, supply, held; cbn [w_cells w_proms w_futs w_one w_alls w_anys w_tmos w_nxt w_woken w_timers
    set_cells set_proms set_futs set_one set_alls set_anys set_tmos set_nxt set_woken log_set log_got put_cell];
  repeat first [erewrite msum_update by eassumption | erewrite msum_delete by eassumption | rewrite msum_fresh by eassumption];
  unfold held_cell, held_prom, held_fut, held_all, held_any, held_tmo, supp_cell, supp_prom, supp_fut, supp_one, supp_all, supp_any, supp_tmo;
  cbn [fc_refcnt fc_ready fc_value fc_status fc_wq fc_cv fc_cbs pr_cell set_or_dropped pr_mine fu_cell fu_mine
       al_prom al_remaining al_total al_first_err al_err_set al_fired an_prom an_done an_remaining an_fired
       tx_prom tx_timer tx_done tx_remaining tx_fired with_refcnt with_waiters with_cbs cell_ref cell_new
       hold_list hold hold_cb hold_cbs].

Ltac heap_split H :=
  destruct H as [HC HPr HF HO HAL HAN HTM HTI]; split; cbn; try done.

Lemma cell_unref_ok w c x n :
  heap_ok w -> w_cells w !! c = Some x -> 1 <= n <= fc_refcnt x -> (fc_refcnt x = 1 -> fc_cbs x = [] /\ fc_ready x = true) ->
  exists m, cell_unref w c = Some (set_cells w m) /\ heap_ok (set_cells w m) /\
    forall t, due (set_cells w m) t = due w t - d (TRef c) t.
Proof.
  intros Hok Hx Hn H1. unfold cell_unref. rewrite Hx. cbn. eexists. split; [done|].
  case_decide as D; split.
  - heap_split Hok. by apply map_Forall_delete.
  - destruct (H1 D) as [Hb Hr]. due_calc. rewrite Hb, Hr, D. cbn. lia.
  - heap_split Hok. apply map_Forall_insert_2; [|done]. cbn. destruct (HC _ _ Hx) as (? & ? & ?). split_and!; [lia|done..].
  - due_calc. lia.
Qed.

Lemma d_pend_ref a c : d (TPend a) (TPend c) = d (TRef a) (TRef c).
Proof. destruct (decide (a = c)) as [->|]; [by rewrite !d_eq|]. rewrite !d_ne; congruence. Qed.

Lemma prom_pend_ref c p x : held_prom (TPend c) p x <= held_prom (TRef c) p x.
Proof.
  unfold held_prom. rewrite (d_ne (TRef (pr_cell x)) (TPend c)), (d_ne (TPend (pr_cell x)) (TRef c)), (d_ne (TProm p) (TPend c)), (d_ne (TProm p) (TRef c)), d_pend_ref by done.
  pose proof (d_nonneg (TRef (pr_cell x)) (TRef c)). destruct (set_or_dropped x), (pr_mine x); lia.
Qed.

Lemma held_ref_parts w c x :
  w_cells w !! c = Some x ->
  held_cell (TRef c) c x + msum (held_prom (TRef c)) (w_proms w) + msum (held_fut (TRef c)) (w_futs w) <= held w (TRef c).
Proof.
  intros H. unfold held. held_parts w (TRef c). pose proof (msum_ge (held_cell (TRef c)) _ _ _ ltac:(auto with held) H). lia.
Qed.

(** Who has still to fire has still to retire. *)
Lemma hold_cb_unfired cb a : hold_cb cb (TAllU a) <= hold_cb cb (TAll a).
Proof.
  destruct cb as [m p fn|m p|m p|b|b|b]; simpl; rewrite ?(d_ne (TOne _)), ?(d_ne (TProm _)), ?(d_ne (TAny _)), ?(d_ne (TTmo _)) by done; try lia.
  rewrite (d_ne (TAll b)), (d_ne (TAllU b) (TAll a)) by done. destruct (decide (b = a)) as [->|]; [by rewrite !d_eq|].
  rewrite !d_ne by congruence. lia.
Qed.

Lemma hold_unfired ins a : hold ins (TAllU a) <= hold ins (TAll a).
Proof.
  destruct ins; simpl; try match goal with |- context [hold_cb ?cb _] => pose proof (hold_cb_unfired cb a) end;
    repeat match goal with
    | |- context [d ?t (TAllU a)] => rewrite (d_ne t (TAllU a)) by done
    end; d_pos; lia.
Qed.

Lemma hold_list_unfired l a : hold_list l (TAllU a) <= hold_list l (TAll a).
Proof. induction l as [|ins l IH]; simpl; [done|]. pose proof (hold_unfired ins a). lia. Qed.

Lemma held_unfired w a : held w (TAllU a) <= held w (TAll a).
Proof.
  unfold held.
  assert (msum (held_cell (TAllU a)) (w_cells w) <= msum (held_cell (TAll a)) (w_cells w)).
  { apply msum_le. intros c x _. unfold held_cell. induction (fc_cbs x) as [|cb l IH]; simpl; [done|].
    rewrite !(d_ne (TRef c)) by done. pose proof (hold_cb_unfired cb a). lia. }
  rewrite (msum_zero (held_prom (TAllU a))), (msum_zero (held_fut (TAllU a))), (msum_zero (held_all (TAllU a))),
    (msum_zero (held_any (TAllU a))), (msum_zero (held_tmo (TAllU a))).
  - held_parts w (TAll a). lia.
  - intros. unfold held_tmo. repeat case_match; by rewrite ?d_ne by done.
  - intros. unfold held_any. case_match; by rewrite ?d_ne by done.
  - intros. unfold held_all. case_match; by rewrite ?d_ne by done.
  - intros. unfold held_fut. case_match; by rewrite ?d_ne by done.
  - intros. unfold held_prom. repeat case_match; by rewrite ?d_ne by done.
Qed.

Lemma heap_ok_nxt w n : heap_ok w -> (w_nxt w <= n)%nat -> heap_ok (set_nxt w n).
Proof.
  intros Hok Hn. heap_split Hok; (eapply map_Forall_impl; [eassumption|]); cbn; intros; intuition lia.
Qed.

Lemma heap_ok_one w m : heap_ok w -> (m < w_nxt w)%nat -> heap_ok (set_one w (<[m := tt]> (w_one w))).
Proof. intros Hok Hm. heap_split Hok. by apply map_Forall_insert_2. Qed.

(** Who has an error to store has still to retire; nothing in the heap has. *)
Lemma hold_err ins a st : hold ins (TErr a st) <= hold ins (TAll a).
Proof.
  destruct ins; simpl; try destruct cb; simpl;
    repeat match goal with |- context [d ?t (TErr a st)] => rewrite (d_ne t (TErr a st)) by done end; d_pos; try lia.
  match goal with |- context [d (TErr ?b ?z) (TErr a st)] =>
    rewrite (d_ne (TErr b z) (TAll a)) by done; destruct (decide (b = a)) as [->|Hne];
      [rewrite (d_eq (TAll a)); unfold d; case_decide; lia|rewrite (d_ne (TErr b z) (TErr a st)), (d_ne (TAll b) (TAll a)) by congruence; lia]
  end.
Qed.

Lemma hold_list_err l a st : hold_list l (TErr a st) <= hold_list l (TAll a).
Proof. induction l as [|ins l IH]; simpl; [done|]. pose proof (hold_err ins a st). lia. Qed.

Lemma held_err w a st : held w (TErr a st) = 0.
Proof.
  unfold held.
  rewrite (msum_zero (held_cell _)), (msum_zero (held_prom _)), (msum_zero (held_fut _)), (msum_zero (held_all _)),
    (msum_zero (held_any _)), (msum_zero (held_tmo _)); [done|..].
  - intros. unfold held_tmo. repeat case_match; by rewrite ?d_ne by done.
  - intros. unfold held_any. case_match; by rewrite ?d_ne by done.
  - intros. unfold held_all. case_match; by rewrite ?d_ne by done.
  - intros. unfold held_fut. case_match; by rewrite ?d_ne by done.
  - intros. unfold held_prom. repeat case_match; by rewrite ?d_ne by done.
  - intros k x _. unfold held_cell. induction (fc_cbs x) as [|cb l IH]; simpl; [done|].
    rewrite IH, d_ne by done. by destruct cb; simpl; rewrite ?d_ne by done.
Qed.

Section Steps.
Context (w : world) (R : token -> Z) (HR : forall t, 0 <= R t) (HP : forall c, R (TPend c) = 0).
Context (HU : forall a, R (TAllU a) <= R (TAll a)) (HE : forall a st, R (TErr a st) <= R (TAll a)) (Hok : heap_ok w).

Definition ready_for (ins : instr) : Prop := balanced w (fun t => R t + hold ins t).

(** A reference beside those of the promises yet to be set can be released. *)
Lemma unref_step c x :
  forall ins, ready_for ins -> hold ins (TPend c) = 0 ->
  w_cells w !! c = Some x -> 1 <= fc_refcnt x ->
  1 + held_cell (TRef c) c x + msum (held_prom (TPend c)) (w_proms w) <= R (TRef c) + hold ins (TRef c) + held w (TRef c) ->
  exists m, cell_unref w c = Some (set_cells w m) /\ heap_ok (set_cells w m) /\
    forall t, due (set_cells w m) t = due w t - d (TRef c) t.
Proof.
  intros ins Hb Hp Hx Hr Hle. apply (cell_unref_ok w c x (fc_refcnt x)); [done..|lia|]. intros H1.
  eapply (last_ref w _ Hb c x 1); [done..| |lia|lia]. cbn. rewrite HP. lia.
Qed.

Lemma exec_unref c : ready_for (IUnref c) -> exists w', cell_unref w c = Some w' /\ step_ok w (hold (IUnref c)) w' [].
Proof.
  intros Hb. destruct (ref_live w _ Hb c 1) as (x & Hx & Hr); [done| |].
  { cbn. rewrite d_eq. specialize (HR (TRef c)). pose proof (held_nonneg w (TRef c)). lia. }
  destruct (unref_step c x _ Hb) as (m & -> & Hok' & Hd); [by apply d_ne|done..| |].
  - pose proof (held_ref_parts w c x Hx) as Hh. cbn. rewrite d_eq. specialize (HR (TRef c)).
    pose proof (msum_le (held_prom (TPend c)) (held_prom (TRef c)) (w_proms w) (fun p x _ => prom_pend_ref c p x)).
    pose proof (msum_nonneg (held_fut (TRef c)) (w_futs w) ltac:(auto with held)). lia.
  - eexists. split; [done|]. split; [|done..|by apply done_mono_same]. intros t. rewrite Hd. cbn. lia.
Qed.

Lemma exec_drop_fut f : ready_for (IDropFut f) -> exists w', drop_fut w f = Some w' /\ step_ok w (hold (IDropFut f)) w' [].
Proof.
  intros Hb. destruct (fut_live w _ Hb f) as (h & Hf & Hm & _); [cbn; rewrite d_eq; specialize (HR (TFut f)); lia|].
  destruct (cell_of_fut w _ Hb f h Hf) as (x & Hx & Hr). set (c := fu_cell h) in *.
  destruct (unref_step c x _ Hb) as (m & Hu & Hok' & Hd); [by apply d_ne|done..| |].
  - pose proof (held_ref_parts w c x Hx) as Hh. cbn. rewrite d_ne by done. specialize (HR (TRef c)).
    pose proof (msum_le (held_prom (TPend c)) (held_prom (TRef c)) (w_proms w) (fun p x _ => prom_pend_ref c p x)).
    pose proof (msum_ge (held_fut (TRef c)) (w_futs w) f h ltac:(auto with held) Hf) as Hg.
    unfold held_fut in Hg at 1. rewrite Hm in Hg. fold c in Hg. rewrite d_eq in Hg. lia.
  - unfold drop_fut. rewrite Hf. cbn. fold c. rewrite Hu. cbn. eexists. split; [done|]. split; [|..|done|by apply done_mono_same].
    + intros t. specialize (Hd t). revert Hd. due_calc. rewrite Hm. fold c. lia.
    + heap_split Hok'. by apply map_Forall_delete.
Qed.

Lemma exec_drop_prom p : ready_for (IDropProm p) -> exists w', drop_prom w p = Some w' /\ step_ok w (hold (IDropProm p)) w' [].
Proof.
  intros Hb. destruct (set_live w _ Hb p) as (h & Hp & Hs); [cbn; rewrite d_eq; specialize (HR (TSet p)); lia|].
  destruct (cell_of_prom w _ Hb p h Hp) as (x & Hx & Hr). set (c := pr_cell h) in *.
  destruct (unref_step c x _ Hb) as (m & Hu & Hok' & Hd); [by apply d_ne|done..| |].
  - pose proof (held_ref_parts w c x Hx) as Hh. cbn. rewrite d_ne by done. specialize (HR (TRef c)).
    assert (msum (held_prom (TPend c)) (w_proms w) + 1 <= msum (held_prom (TRef c)) (w_proms w)).
    { eapply msum_le_at; [intros; apply prom_pend_ref|done|]. unfold held_prom. rewrite Hs. fold c. rewrite d_eq.
      destruct (pr_mine h); rewrite !d_ne by done; lia. }
    pose proof (msum_nonneg (held_fut (TRef c)) (w_futs w) ltac:(auto with held)). lia.
  - unfold drop_prom. rewrite Hp. cbn. fold c. rewrite Hu. cbn. eexists. split; [done|]. split; [|..|done|by apply done_mono_same].
    + intros t. specialize (Hd t). revert Hd. due_calc. rewrite Hs. fold c.
      rewrite (proj1 (proj2 (ho_proms _ Hok _ _ Hp)) Hs). lia.
    + heap_split Hok'. by apply map_Forall_delete.
Qed.

(** A promise that is held is set, and its cell completed by this call. *)
Lemma exec_set p v st :
  ready_for (ISet p v st) ->
  exists w' l, promise_set w p v st = Some (w', l) /\ step_ok w (hold (ISet p v st)) w' l.
Proof.
  intros Hb. destruct (prom_live w _ Hb p) as (h & Hp & Hs & Hm & _); [cbn; rewrite d_eq; specialize (HR (TProm p)); lia|].
  destruct (cell_pending w _ Hb p h Hp Hs) as (x & Hx & Hr & Hn).
  unfold promise_set. rewrite Hp. cbn. rewrite Hs. unfold cell_complete. cbn. rewrite Hx. cbn. rewrite Hn. cbn.
  eexists _, _. split; [done|]. split; [| | |by apply done_mono_same].
  - intros t. rewrite hold_list_app, hold_fires. due_calc. rewrite Hs, Hm, Hn. lia.
  - destruct (ho_cells _ Hok _ _ Hx) as (_ & _ & ?). destruct (ho_proms _ Hok _ _ Hp) as (? & _ & ?).
    heap_split Hok; apply map_Forall_insert_2; done.
  - apply Forall_app. split; [|by repeat constructor]. induction (fc_cbs x) as [|cb cbs IH]; cbn; repeat constructor; done.
Qed.

Lemma exec_reg_ref f :
  forall ins, ready_for ins -> 1 <= hold ins (TFut f) ->
  exists w' c, on_complete_ref w f = Some (w', c) /\ step_ok w (fun t => - d (TRef c) t) w' [].
Proof.
  intros ins Hb Hf. destruct (fut_live w _ Hb f) as (h & Hh & Hm & _); [specialize (HR (TFut f)); lia|].
  destruct (cell_of_fut w _ Hb f h Hh) as (x & Hx & Hr). unfold on_complete_ref. rewrite Hh. cbn. rewrite Hx. cbn.
  eexists _, _. split; [done|]. split; [|..|done|by apply done_mono_same].
  - due_calc. lia.
  - destruct (ho_cells _ Hok _ _ Hx) as (? & ? & ?). heap_split Hok. apply map_Forall_insert_2; [|done]. cbn. split_and!; [lia|done..].
Qed.

Lemma exec_reg_locked c cb :
  ready_for (IRegLocked c cb) ->
  exists w' l, on_complete_locked w c cb = Some (w', l) /\ step_ok w (hold (IRegLocked c cb)) w' l.
Proof.
  intros Hb. destruct (ref_live w _ Hb c 1) as (x & Hx & Hr); [done| |].
  { cbn. rewrite d_eq. specialize (HR (TRef c)). pose proof (held_nonneg w (TRef c)). pose proof (hold_cb_nonneg cb (TRef c)). lia. }
  unfold on_complete_locked. rewrite Hx. cbn. destruct (fc_ready x) eqn:Hn; (eexists _, _; split; [done|]; split; [..|by apply done_mono_same]).
  - intros t. cbn. lia.
  - done.
  - by repeat constructor.
  - due_calc. lia.
  - destruct (ho_cells _ Hok _ _ Hx) as (? & ? & ?). heap_split Hok. apply map_Forall_insert_2; [|done]. cbn. split_and!; [done|congruence|done].
  - done.
Qed.

Lemma exec_free_one m : ready_for (IFreeOne m) -> exists w', free_one w m = Some w' /\ step_ok w (hold (IFreeOne m)) w' [].
Proof.
  intros Hb. pose proof (one_live w _ Hb m) as Hm. cbn in Hm. rewrite d_eq in Hm. specialize (Hm ltac:(specialize (HR (TOne m)); lia)).
  unfold free_one. rewrite Hm. eexists. split; [done|]. split; [|..|done|by apply done_mono_same].
  - due_calc. lia.
  - heap_split Hok. by apply map_Forall_delete.
Qed.

Lemma all_live a :
  forall ins, ready_for ins -> 1 <= hold ins (TAll a) ->
  exists x, w_alls w !! a = Some x /\ R (TAll a) + hold ins (TAll a) <= al_remaining x.
Proof.
  intros ins Hb Hh. destruct (Hb (TAll a)) as [_ He]. rewrite supply_all in He. specialize (HR (TAll a)).
  pose proof (held_nonneg w (TAll a)). destruct (w_alls w !! a) as [x|]; [|lia]. exists x. split; [done|lia].
Qed.

Lemma unfired_le a x :
  forall ins, ready_for ins -> w_alls w !! a = Some x ->
  0 <= al_total x - Z.of_nat (length (al_fired x)) <= al_remaining x - hold ins (TAll a) + hold ins (TAllU a).
Proof.
  intros ins Hb Hx. destruct (Hb (TAll a)) as [_ He]. destruct (Hb (TAllU a)) as [? Hu].
  rewrite supply_all, Hx in He. rewrite supply_allu, Hx in Hu. specialize (HU a).
  pose proof (held_unfired w a). pose proof (held_nonneg w (TAllU a)). lia.
Qed.

(** With no other retirement to come no store is due. *)
Lemma stored a x :
  forall ins, ready_for ins -> w_alls w !! a = Some x -> al_remaining x <= hold ins (TAll a) ->
  (forall st, hold ins (TErr a st) = 0) ->
  al_err_set x && bool_decide (al_first_err x <> first_error (al_fired x)) = false.
Proof.
  intros ins Hb Hx Hle Hz. destruct (_ && _) eqn:E; [|done]. exfalso.
  destruct (Hb (TAll a)) as [_ Ha]. rewrite supply_all, Hx in Ha. pose proof (held_nonneg w (TAll a)).
  set (st := first_error (al_fired x)) in *. destruct (Hb (TErr a st)) as [_ He]. rewrite supply_err, Hx in He. fold st in He.
  rewrite E, d_eq, held_err, Hz in He. specialize (HE a st). lia.
Qed.

Lemma any_live a :
  forall ins, ready_for ins -> 1 <= hold ins (TAny a) ->
  exists x, w_anys w !! a = Some x /\ R (TAny a) + hold ins (TAny a) <= an_remaining x.
Proof.
  intros ins Hb Hh. destruct (Hb (TAny a)) as [_ He]. rewrite supply_any in He. specialize (HR (TAny a)).
  pose proof (held_nonneg w (TAny a)). destruct (w_anys w !! a) as [x|]; [|lia]. exists x. split; [done|lia].
Qed.

(** An armed timer holds one of the retirements. *)
Lemma tmo_live a :
  forall ins, ready_for ins -> 1 <= hold ins (TTmo a) ->
  exists x, w_tmos w !! a = Some x /\
    R (TTmo a) + hold ins (TTmo a) + (if decide (tx_timer x = Some TM_ARMED) then 1 else 0) <= tx_remaining x.
Proof.
  intros ins Hb Hh. destruct (Hb (TTmo a)) as [_ He]. rewrite supply_tmo in He. specialize (HR (TTmo a)).
  pose proof (held_nonneg w (TTmo a)). destruct (w_tmos w !! a) as [x|] eqn:Hx; [|lia]. exists x. split; [done|].
  pose proof (held_ge_tmo w (TTmo a) a x Hx) as Hg. unfold held_tmo in Hg. rewrite d_eq in Hg.
  pose proof (d_nonneg (TProm (tx_prom x)) (TTmo a)). destruct (tx_done x); repeat case_decide; lia.
Qed.

Lemma alls_put a x y :
  w_alls w !! a = Some x -> 0 <= al_remaining y -> err_ok y ->
  heap_ok (set_alls w (<[a := y]> (w_alls w))).
Proof.
  intros Hx Hy He. destruct (ho_alls _ Hok _ _ Hx) as (_ & _ & ?). heap_split Hok. by apply map_Forall_insert_2.
Qed.

Lemma anys_put a x y :
  w_anys w !! a = Some x -> 0 <= an_remaining y -> (an_remaining y = 0 -> an_done y = true) ->
  (an_remaining y <> 0 -> an_done y = negb (bool_decide (an_fired y = []))) ->
  heap_ok (set_anys w (<[a := y]> (w_anys w))).
Proof.
  intros Hx Hy Hd Hf. destruct (ho_anys _ Hok _ _ Hx) as (_ & _ & _ & ?). heap_split Hok. by apply map_Forall_insert_2.
Qed.

Lemma tmos_put a x y :
  w_tmos w !! a = Some x -> 1 <= tx_remaining y -> tx_done y = negb (bool_decide (tx_fired y = [])) ->
  is_Some (tx_timer y) <-> is_Some (tx_timer x) ->
  heap_ok (set_tmos w (<[a := y]> (w_tmos w)) (w_timers w)).
Proof.
  intros Hx Hy Hf Hs. destruct (ho_tmos _ Hok _ _ Hx) as (_ & _ & ?). heap_split Hok.
  - by apply map_Forall_insert_2.
  - rewrite HTI, (msum_update _ _ _ x) by done.
    destruct (tx_timer x), (tx_timer y); try lia; [destruct (proj2 Hs)|destruct (proj1 Hs)]; eauto; done.
Qed.

Lemma anys_mono a x y :
  w_anys w !! a = Some x -> (an_done x = true -> an_done y = true) -> done_mono w (set_anys w (<[a := y]> (w_anys w))).
Proof.
  intros Hx Hd. split; [|by apply (done_mono_same w w)]. intros b z. cbn. rewrite lookup_insert. case_decide as D.
  - intros [= <-]. subst b. destruct (an_done x) eqn:E; eauto.
  - intros Hz. destruct (an_done z) eqn:E; eauto.
Qed.

Lemma tmos_mono a x y n :
  w_tmos w !! a = Some x -> (tx_done x = true -> tx_done y = true) -> done_mono w (set_tmos w (<[a := y]> (w_tmos w)) n).
Proof.
  intros Hx Hd. split; [by apply (done_mono_same w w)|]. intros b z. cbn. rewrite lookup_insert. case_decide as D.
  - intros [= <-]. subst b. destruct (tx_done x) eqn:E; eauto.
  - intros Hz. destruct (tx_done z) eqn:E; eauto.
Qed.

(** A store that is due is that of the first error. *)
Lemma err_due a st :
  forall ins, ready_for ins -> 1 <= hold ins (TErr a st) ->
  exists x, w_alls w !! a = Some x /\ al_err_set x = true /\ al_first_err x <> first_error (al_fired x) /\ st = first_error (al_fired x).
Proof.
  intros ins Hb Hh. destruct (Hb (TErr a st)) as [_ He]. rewrite supply_err in He. specialize (HR (TErr a st)).
  pose proof (held_nonneg w (TErr a st)). destruct (w_alls w !! a) as [x|]; [|lia]. exists x.
  destruct (al_err_set x); cbn in He; [|lia]. case_bool_decide; [|lia]. split_and!; [done..|].
  destruct (decide (st = first_error (al_fired x))) as [|Hne]; [done|]. rewrite d_ne in He by congruence. lia.
Qed.

Lemma exec_all_store a st :
  ready_for (IAllStore a st) -> exists w' l, all_store w a st = Some (w', l) /\ step_ok w (hold (IAllStore a st)) w' l.
Proof.
  intros Hb. destruct (err_due a st _ Hb) as (x & Hx & He & Hne & ->); [cbn; rewrite d_eq, d_ne by done; lia|].
  destruct (ho_alls _ Hok _ _ Hx) as (? & ? & _).
  unfold all_store. rewrite Hx. eexists _, _. split; [done|]. split; [| |by repeat constructor|by apply done_mono_same].
  - due_calc. rewrite He. cbn [andb]. rewrite (bool_decide_true (al_first_err x <> _)), bool_decide_false by (done || by intros []). lia.
  - eapply alls_put; [done..|]. unfold err_ok in *. cbn. split; [tauto|congruence].
Qed.

Lemma exec_all_dec a :
  ready_for (IAllDec a) -> exists w' l, all_dec w a = Some (w', l) /\ step_ok w (hold (IAllDec a)) w' l.
Proof.
  intros Hb. destruct (all_live a _ Hb) as (x & Hx & Hr); [cbn; by rewrite d_eq|]. cbn in Hr. rewrite d_eq in Hr. specialize (HR (TAll a)).
  unfold all_dec. rewrite Hx. eexists _, _. split; [done|]. split; [| |by case_decide; repeat constructor|by apply done_mono_same].
  - due_calc. repeat case_decide; cbn [hold_list hold]; try lia.
  - eapply alls_put; [done|cbn; lia|]. apply (ho_alls _ Hok _ _ Hx).
Qed.

Lemma exec_all_free a : ready_for (IAllFree a) -> exists w', all_free w a = Some w' /\ step_ok w (hold (IAllFree a)) w' [].
Proof.
  intros Hb. destruct (Hb (TAllF a)) as [_ He]. rewrite supply_allf in He. cbn in He. rewrite d_eq in He.
  pose proof (held_nonneg w (TAllF a)). specialize (HR (TAllF a)) as HRf.
  destruct (w_alls w !! a) as [x|] eqn:Hx; [|lia]. case_decide as D; [|lia].
  assert (al_total x - Z.of_nat (length (al_fired x)) = 0) as Hu.
  { pose proof (unfired_le a x _ Hb Hx) as Hle. cbn in Hle. rewrite !d_ne in Hle by done. lia. }
  pose proof (stored a x _ Hb Hx ltac:(cbn; rewrite d_ne by done; lia) ltac:(intros; by apply d_ne)) as Hst.
  unfold all_free. rewrite Hx. eexists. split; [done|]. split; [|..|done|by apply done_mono_same].
  - due_calc. rewrite Hu, decide_True, decide_True, Hst by (try done; lia). lia.
  - heap_split Hok. by apply map_Forall_delete.
Qed.

Lemma exec_any_dec a :
  ready_for (IAnyDec a) -> done_ok w (IAnyDec a) -> exists w', any_dec w a = Some w' /\ step_ok w (hold (IAnyDec a)) w' [].
Proof.
  intros Hb Hd. destruct (any_live a _ Hb) as (x & Hx & Hr); [cbn; by rewrite d_eq|]. cbn in Hr. rewrite d_eq in Hr. specialize (HR (TAny a)).
  specialize (Hd _ Hx). unfold any_dec. rewrite Hx. eexists. split; [done|]. case_decide as D; (split; [..|done|]).
  - due_calc. rewrite Hd, D. rewrite decide_False by lia. lia.
  - heap_split Hok. by apply map_Forall_delete.
  - split; [|by apply (done_mono_same w w)]. intros b z Hz. cbn in Hz. apply lookup_delete_Some in Hz as [_ Hz]. destruct (an_done z) eqn:E; eauto.
  - due_calc. rewrite !decide_False by lia. lia.
  - eapply anys_put; [done|cbn; lia|cbn; lia|]. intros _. apply (ho_anys _ Hok _ _ Hx). lia.
  - by eapply anys_mono.
Qed.

Lemma exec_any_retire a :
  ready_for (IAnyRetire a) -> exists w' l, any_retire_failed w a = Some (w', l) /\ step_ok w (hold (IAnyRetire a)) w' l.
Proof.
  intros Hb. destruct (any_live a _ Hb) as (x & Hx & Hr); [cbn; by rewrite d_eq|]. cbn in Hr. rewrite d_eq in Hr. specialize (HR (TAny a)).
  unfold any_retire_failed. rewrite Hx. cbn. case_decide as D; (eexists _, _; split; [done|]; split).
  - due_calc. rewrite D. destruct (an_done x); cbn [hold_list hold]; repeat case_decide; lia.
  - eapply anys_put; [done|cbn; lia|done|]. cbn. lia.
  - destruct (an_done x); by repeat constructor.
  - by eapply anys_mono.
  - due_calc. rewrite !decide_False by lia. lia.
  - eapply anys_put; [done|cbn; lia|cbn; lia|]. intros _. apply (ho_anys _ Hok _ _ Hx). lia.
  - done.
  - by eapply anys_mono.
Qed.

Lemma exec_any_free a : ready_for (IAnyFree a) -> exists w', any_free w a = Some w' /\ step_ok w (hold (IAnyFree a)) w' [].
Proof.
  intros Hb. destruct (Hb (TAnyF a)) as [_ He]. rewrite supply_anyf in He. cbn in He. rewrite d_eq in He.
  pose proof (held_nonneg w (TAnyF a)). specialize (HR (TAnyF a)).
  destruct (w_anys w !! a) as [x|] eqn:Hx; [|lia]. case_decide as D; [|lia].
  unfold any_free. rewrite Hx. eexists. split; [done|]. split; [..|done|].
  - due_calc. rewrite (proj1 (proj2 (ho_anys _ Hok _ _ Hx)) D), decide_True by done. lia.
  - heap_split Hok. by apply map_Forall_delete.
  - split; [|by apply (done_mono_same w w)]. intros b z Hz. cbn in Hz. apply lookup_delete_Some in Hz as [_ Hz]. destruct (an_done z) eqn:E; eauto.
Qed.

Lemma exec_tmo_cancel a :
  ready_for (ITmoCancel a) -> done_ok w (ITmoCancel a) ->
  exists w' l, timeout_cancel w a = Some (w', l) /\ step_ok w (hold (ITmoCancel a)) w' l.
Proof.
  intros Hb Hd. destruct (tmo_live a _ Hb) as (x & Hx & Hr); [cbn; by rewrite d_eq|]. cbn in Hr. rewrite d_eq in Hr. specialize (HR (TTmo a)).
  specialize (Hd _ Hx). unfold timeout_cancel. rewrite Hx. cbn. case_decide as D; (eexists _, _; split; [done|]; split).
  - due_calc. rewrite decide_True, decide_False by done. lia.
  - eapply tmos_put; [done|cbn; lia|apply (ho_tmos _ Hok _ _ Hx)|]. rewrite D. cbn. split; eauto.
  - repeat constructor; cbn; rewrite lookup_insert_eq; by intros ? [= <-].
  - by eapply tmos_mono.
  - intros t. cbn. lia.
  - done.
  - repeat constructor. cbn. intros ? Hx'. simplify_eq. done.
  - by apply done_mono_same.
Qed.

Lemma exec_tmo_fire a :
  ready_for (ITmoFire a) -> exists w' l, timeout_fire w a = Some (w', l) /\ step_ok w (hold (ITmoFire a)) w' l.
Proof.
  intros Hb. destruct (tmo_live a _ Hb) as (x & Hx & Hr); [cbn; by rewrite d_eq|]. cbn in Hr. rewrite d_eq in Hr. specialize (HR (TTmo a)).
  unfold timeout_fire. rewrite Hx. cbn. eexists _, _; split; [done|]; split.
  - due_calc. destruct (tx_done x); cbn [hold_list hold]; lia.
  - eapply tmos_put; [done| |cbn; by rewrite snoc_not_nil|done]. cbn. case_decide; lia.
  - destruct (tx_done x); repeat constructor; cbn; rewrite lookup_insert_eq; by intros ? [= <-].
  - by eapply tmos_mono.
Qed.

Lemma exec_tmo_retire a :
  ready_for (ITmoRetire a) -> done_ok w (ITmoRetire a) ->
  exists w', timeout_retire w a = Some w' /\ step_ok w (hold (ITmoRetire a)) w' [].
Proof.
  intros Hb Hd. destruct (tmo_live a _ Hb) as (x & Hx & Hr); [cbn; by rewrite d_eq|]. cbn in Hr. rewrite d_eq in Hr. specialize (HR (TTmo a)).
  specialize (Hd _ Hx). unfold timeout_retire. rewrite Hx. cbn. eexists. split; [done|].
  destruct (decide (tx_remaining x = 1)) as [D|D]; (split; [..|done|]).
  - due_calc. rewrite Hd, D. case_decide; lia.
  - heap_split Hok; [by apply map_Forall_delete|]. rewrite (msum_delete _ _ _ x), HTI by done. destruct (tx_timer x); lia.
  - split; [by apply (done_mono_same w w)|]. intros b z Hz. cbn in Hz. apply lookup_delete_Some in Hz as [_ Hz]. destruct (tx_done z) eqn:E; eauto.
  - due_calc. lia.
  - eapply tmos_put; [done| |apply (ho_tmos _ Hok _ _ Hx)|done]. cbn. case_decide; lia.
  - by eapply tmos_mono.
Qed.

(** Callbacks. *)
Lemma give_fut_put f h b : w_futs w !! f = Some h -> give_fut w f b = set_futs w (<[f := mk_fut (fu_cell h) b]> (w_futs w)).
Proof. intros H. unfold give_fut. by rewrite H. Qed.

Lemma give_fut_heap f b : heap_ok (give_fut w f b).
Proof.
  unfold give_fut. destruct (w_futs w !! f) as [h|] eqn:Hf; [|done]. pose proof (ho_futs _ Hok _ _ Hf).
  heap_split Hok. by apply map_Forall_insert_2.
Qed.

Lemma give_fut_due f h b t :
  w_futs w !! f = Some h ->
  due (give_fut w f b) t - due w t = (if fu_mine h then d (TFut f) t else 0) - (if b then d (TFut f) t else 0).
Proof. intros H. rewrite (give_fut_put _ _ _ H). due_calc. destruct (fu_mine h), b; lia. Qed.

Lemma one_fresh : w_one w !! w_nxt w = None.
Proof. destruct (w_one w !! w_nxt w) eqn:H; [|done]. apply (ho_one _ Hok) in H. lia. Qed.

Lemma one_held m :
  forall ins, ready_for ins -> 1 <= hold ins (TOne m) -> w_one w !! m = Some tt.
Proof. intros ins Hb Hh. apply (one_live w _ Hb). specialize (HR (TOne m)). lia. Qed.

Lemma cb_one_held m p : 1 <= d (TOne m) (TOne m) + d (TProm p) (TOne m).
Proof. rewrite d_eq, d_ne by done. done. Qed.

Lemma exec_then e t p v st :
  ready_for (IFire (then_on_complete t p) v st) -> fair_env w e ->
  exists w' l, then_fire e w t p v st = Some (w', l) /\ step_ok w (hold (IFire (then_on_complete t p) v st)) w' l.
Proof.
  intros Hb He. unfold then_fire. rewrite (one_held t _ Hb) by apply cb_one_held. cbn. unfold fair_env, my_fut in He.
  destruct (e_next e) as [f|].
  2: { eexists _, _. split; [done|]. split; [intros; cbn; lia|done|by repeat constructor|by apply done_mono_same]. }
  destruct (w_futs w !! f) as [h|] eqn:Hf; [|done]. cbn. rewrite He.
  assert (forall t, due (give_fut w f false) t - due w t = d (TFut f) t) as Hd.
  { intros t'. rewrite (give_fut_due _ _ _ _ Hf), He. lia. }
  pose proof (give_fut_heap f false) as Hok1. rewrite (give_fut_put _ _ false Hf) in *.
  destruct (decide (e_rc e = 0)) as [Hrc|Hrc]; [destruct (e_mem e)|]; (eexists _, _; split; [done|]; split).
  2: { eapply (heap_ok_one (set_nxt (set_futs w _) (S (w_nxt w)))); [|cbn; lia]. apply heap_ok_nxt; [done|cbn; lia]. }
  all: try (by apply done_mono_same). all: try (by repeat constructor). all: try done.
  - intros t'. specialize (Hd t'). pose proof one_fresh. revert Hd. due_calc. lia.
  - intros t'. specialize (Hd t'). cbn [hold_list hold hold_cb]. lia.
  - intros t'. specialize (Hd t'). cbn [hold_list hold hold_cb]. lia.
Qed.

Lemma exec_fire e cb v st :
  ready_for (IFire cb v st) -> fair_env w e ->
  exists w' l, fire e w cb v st = Some (w', l) /\ step_ok w (hold (IFire cb v st)) w' l.
Proof.
  intros Hb He. destruct cb as [m p fn|t p|m p|a|a|a]; unfold fire, map_fire, inner_fire, all_fire, any_fire, source_fire.
  - rewrite (one_held m _ Hb) by apply cb_one_held. eexists _, _. split; [done|].
    split; [intros; cbn; lia|done|by repeat constructor|by apply done_mono_same].
  - by apply exec_then.
  - rewrite (one_held m _ Hb) by apply cb_one_held. eexists _, _. split; [done|].
    split; [intros; cbn; lia|done|by repeat constructor|by apply done_mono_same].
  - destruct (all_live a _ Hb) as (x & Hx & Hr); [cbn; rewrite d_eq, d_ne by done; lia|].
    rewrite Hx. cbn. destruct (ho_alls _ Hok _ _ Hx) as (Hrem & [He1 He2] & _).
    destruct (decide (st = 0)) as [Hst|Hst]; [|destruct (al_err_set x) eqn:Hes]; (eexists _, _; split; [done|]);
      (split; [due_calc; rewrite length_app; cbn [length]|eapply alls_put; [done..|]; unfold err_ok; cbn|by repeat constructor|by apply done_mono_same]).
    + rewrite first_error_ok by done. lia.
    + by rewrite first_error_ok.
    + rewrite Hes. rewrite first_error_keep by tauto. lia.
    + rewrite first_error_keep by tauto. split; [tauto|done].
    + rewrite Hes, first_error_new by (destruct (decide (first_error (al_fired x) = OK)) as [|Hn]; [done|by apply He1 in Hn]). cbn [andb].
      rewrite bool_decide_true by (rewrite He2 by done; intros E; by rewrite <- E in Hst). lia.
    + rewrite first_error_new by (destruct (decide (first_error (al_fired x) = OK)) as [|Hn]; [done|by apply He1 in Hn]). split; [done|done].
  - destruct (any_live a _ Hb) as (x & Hx & Hr); [cbn; by rewrite d_eq|]. cbn in Hr. rewrite d_eq in Hr. specialize (HR (TAny a)).
    rewrite Hx. cbn. eexists _, _. split; [done|]. split; [| | |by eapply anys_mono].
    + due_calc. destruct (an_done x); cbn [hold_list hold]; lia.
    + eapply anys_put; [done|cbn; lia|done|]. intros _. cbn. by rewrite snoc_not_nil.
    + destruct (an_done x); repeat constructor; cbn; rewrite lookup_insert_eq; by intros ? [= <-].
  - destruct (tmo_live a _ Hb) as (x & Hx & Hr); [cbn; by rewrite d_eq|]. cbn in Hr. rewrite d_eq in Hr. specialize (HR (TTmo a)).
    rewrite Hx. cbn. eexists _, _. split; [done|]. split; [| | |by eapply tmos_mono].
    + due_calc. destruct (tx_done x); cbn [hold_list hold]; lia.
    + eapply tmos_put; [done|apply (ho_tmos _ Hok _ _ Hx)|cbn; by rewrite snoc_not_nil|done].
    + destruct (tx_done x); repeat constructor; cbn; rewrite lookup_insert_eq; by intros ? [= <-].
Qed.

(** Waiting changes queues only. *)
Definition same_core (x y : future_cell) : Prop :=
  fc_refcnt x = fc_refcnt y /\ fc_ready x = fc_ready y /\ fc_value x = fc_value y /\ fc_status x = fc_status y /\ fc_cbs x = fc_cbs y.

Lemma put_cell_ok c x y :
  w_cells w !! c = Some x -> same_core y x ->
  heap_ok (put_cell w c y) /\ forall t, due (put_cell w c y) t = due w t.
Proof.
  intros Hx (Hr & Hn & _ & _ & Hc). split.
  - destruct (ho_cells _ Hok _ _ Hx) as (? & ? & ?). heap_split Hok. apply map_Forall_insert_2; [|done]. by rewrite Hr, Hn, Hc.
  - due_calc. rewrite Hr, Hn, Hc. lia.
Qed.

Section Waiting.
Context (f : nat) (h : xtc_future) (x y : future_cell) (ins : instr).
Context (Hf : w_futs w !! f = Some h) (Hm : fu_mine h = false) (Hx : w_cells w !! fu_cell h = Some x).
Context (Hh : forall t, hold ins t = d (TFut f) t) (Hy : same_core y x).

Lemma get_done_ok : step_ok w (hold ins) (get_done w f (fu_cell h) y).1 (get_done w f (fu_cell h) y).2.
Proof.
  destruct (put_cell_ok _ _ _ Hx Hy) as [Hok' Hd]. split; [| |by repeat constructor|by apply done_mono_same].
  - intros t. change (due _ t) with (due (put_cell w (fu_cell h) y) t) at 1. rewrite Hd, Hh. cbn. lia.
  - heap_split Hok'.
Qed.

Lemma get_again_ok : step_ok w (hold ins) (get_again w f (fu_cell h) y).1 (get_again w f (fu_cell h) y).2.
Proof.
  destruct (put_cell_ok _ _ _ Hx Hy) as [Hok' Hd].
  unfold get_again, give_fut. cbn. rewrite Hf. split; [| |done|by apply done_mono_same].
  - intros t. specialize (Hd t). revert Hd. due_calc. rewrite Hm, Hh. lia.
  - pose proof (ho_futs _ Hok _ _ Hf). heap_split Hok'. by apply map_Forall_insert_2.
Qed.

(** Any instruction that goes on with the wait. *)
Lemma wait_on_ok s k :
  (forall t, hold k t = d (TFut f) t) -> done_ok (set_woken (put_cell w (fu_cell h) y) s) k ->
  step_ok w (hold ins) (set_woken (put_cell w (fu_cell h) y) s) [k].
Proof.
  intros Hk Hdk. destruct (put_cell_ok _ _ _ Hx Hy) as [Hok' Hd].
  split; [| |by repeat constructor|by apply done_mono_same].
  - intros t. change (due _ t) with (due (put_cell w (fu_cell h) y) t) at 1. rewrite Hd, Hh. cbn. rewrite Hk. lia.
  - heap_split Hok'.
Qed.
End Waiting.

Lemma fut_turn_ok f h x y ins i e dl m :
  w_futs w !! f = Some h -> fu_mine h = false -> w_cells w !! fu_cell h = Some x ->
  (forall t, hold ins t = d (TFut f) t) -> same_core y x ->
  step_ok w (hold ins) (fiber_turn i e w f (fu_cell h) y dl m).1 (fiber_turn i e w f (fu_cell h) y dl m).2.
Proof.
  intros Hf Hm Hx Hh Hy.
  assert (same_core (fut_wq_remove y i) x) as Hy' by done.
  unfold fiber_turn. case_match; [by eapply (wait_on_ok f h x _ ins Hx Hh Hy' (w_woken w))|].
  case_match; [by eapply get_done_ok|]. case_match; [by eapply get_again_ok|]. by eapply wait_on_ok.
Qed.

Lemma fut_held f :
  forall ins, ready_for ins -> (forall t, hold ins t = d (TFut f) t) ->
  exists h x, w_futs w !! f = Some h /\ fu_mine h = false /\ w_cells w !! fu_cell h = Some x.
Proof.
  intros ins Hb Hh. destruct (fut_live w _ Hb f) as (h & Hf & Hm & _); [rewrite Hh, d_eq; specialize (HR (TFut f)); lia|].
  destruct (cell_of_fut w _ Hb f h Hf) as (x & Hx & _). eauto.
Qed.

Lemma exec_get i e f tmo fiber :
  ready_for (IGet f tmo fiber) ->
  exists w' l, future_get i e w f tmo fiber = Some (w', l) /\ step_ok w (hold (IGet f tmo fiber)) w' l.
Proof.
  intros Hb. destruct (fut_held f _ Hb) as (h & x & Hf & Hm & Hx); [done|].
  unfold future_get. rewrite Hf. cbn. rewrite Hx. cbn. case_match; [|case_decide; [|destruct fiber]].
  - eexists _, _. split; [done|]. by eapply get_done_ok.
  - eexists _, _. split; [done|]. by eapply get_again_ok.
  - eexists _, _. rewrite <- surjective_pairing. split; [done|]. by eapply fut_turn_ok.
  - eexists _, _. split; [done|]. by eapply wait_on_ok.
Qed.

Lemma exec_park i e f dl m :
  ready_for (IPark f dl m) ->
  exists w' l, fiber_resume i e w f dl m = Some (w', l) /\ step_ok w (hold (IPark f dl m)) w' l.
Proof.
  intros Hb. destruct (fut_held f _ Hb) as (h & x & Hf & Hm & Hx); [done|].
  unfold fiber_resume. rewrite Hf. cbn. rewrite Hx. cbn.
  eexists _, _. rewrite <- surjective_pairing. split; [done|]. by eapply fut_turn_ok.
Qed.

Lemma exec_kill i e f dl :
  ready_for (IKill f dl) ->
  exists w' l, fut_kill_deliver i e w f dl = Some (w', l) /\ step_ok w (hold (IKill f dl)) w' l.
Proof.
  intros Hb. destruct (fut_held f _ Hb) as (h & x & Hf & Hm & Hx); [done|].
  unfold fut_kill_deliver. destruct (e_deferred e).
  - rewrite Hf. cbn. rewrite Hx. cbn. eexists _, _. rewrite <- surjective_pairing. split; [done|].
    eapply fut_turn_ok; try done. by destruct (fc_ready x).
  - eexists _, _. split; [done|]. split; [| apply give_fut_heap|done|].
    + intros t. rewrite (give_fut_due _ _ _ _ Hf), Hm. cbn. lia.
    + rewrite (give_fut_put _ _ _ Hf). by apply done_mono_same.
Qed.

Lemma exec_cond i e f timed :
  ready_for (ICond f timed) ->
  exists w' l, cond_resume i e w f timed = Some (w', l) /\ step_ok w (hold (ICond f timed)) w' l.
Proof.
  intros Hb. destruct (fut_held f _ Hb) as (h & x & Hf & Hm & Hx); [done|].
  unfold cond_resume. rewrite Hf. cbn. rewrite Hx. cbn. case_match; [|case_match]; eexists _, _; (split; [done|]).
  - by eapply get_done_ok.
  - by eapply get_again_ok.
  - by eapply wait_on_ok.
Qed.

Lemma reg_failed_hold cb l t : hold_list (reg_failed cb l) t = hold_cb cb t + hold_list l t.
Proof. destruct cb; cbn [reg_failed]; unfold xtc_promise_drop; rewrite !hold_list_app; cbn [hold_list hold hold_cb]; lia. Qed.

Lemma reg_failed_done cb l : Forall (done_ok w) l -> Forall (done_ok w) (reg_failed cb l).
Proof. intros Hl. destruct cb; cbn [reg_failed]; unfold xtc_promise_drop; repeat (apply Forall_app; split); by repeat constructor. Qed.

(** Every instruction that a thread may run succeeds. *)
Lemma exec_ok i e ins :
  ready_for ins -> done_ok w ins -> fair_env w e ->
  exists w' l, exec i e w ins = Some (w', l) /\ step_ok w (hold ins) w' l.
Proof.
  intros Hb Hd He.
  assert (forall r, (exists w', r = Some w' /\ step_ok w (hold ins) w' []) ->
    exists w' l, no_more r = Some (w', l) /\ step_ok w (hold ins) w' l) as Hno.
  { intros r (w' & -> & Hs). by exists w', []. }
  destruct ins; cbn [exec]; try apply Hno.
  - by apply exec_set.
  - by apply exec_fire.
  - by apply exec_unref.
  - by apply exec_drop_prom.
  - by apply exec_drop_fut.
  - destruct (fut_held f _ Hb) as (h & x & Hf & Hm & Hx); [done|]. eexists _, _. split; [done|].
    split; [|apply give_fut_heap|done|rewrite (give_fut_put _ _ _ Hf); by apply done_mono_same].
    intros t. rewrite (give_fut_due _ _ _ _ Hf), Hm. cbn. lia.
  - by apply exec_free_one.
  - destruct (e_mem e).
    + destruct (exec_reg_ref f _ Hb) as (w' & c & -> & [Hs1 Hs2 _ Hs4]).
      { cbn. rewrite d_eq. pose proof (hold_cb_nonneg cb (TFut f)). lia. }
      eexists _, _. split; [done|]. split; [|done|by repeat constructor|done]. intros t. specialize (Hs1 t). cbn in *. lia.
    + eexists _, _. split; [done|]. split; [|done| |by apply done_mono_same].
      * intros t. rewrite hold_list_app, reg_failed_hold. cbn. lia.
      * apply Forall_app. split; [by apply reg_failed_done|by repeat constructor].
  - destruct (e_mem e).
    + destruct (exec_reg_ref f _ Hb) as (w' & c & -> & [Hs1 Hs2 _ Hs4]).
      { cbn. rewrite d_eq. pose proof (hold_cb_nonneg cb (TFut f)). pose proof (d_nonneg (TFut res) (TFut f)). lia. }
      eexists _, _. split; [done|]. split; [|done|by repeat constructor|done]. intros t. specialize (Hs1 t). cbn in *. lia.
    + eexists _, _. split; [done|]. split; [|done| |by apply done_mono_same].
      * intros t. rewrite hold_list_app, reg_failed_hold. cbn. lia.
      * apply Forall_app. split; [apply reg_failed_done|]; by repeat constructor.
  - by apply exec_reg_locked.
  - by apply exec_all_store.
  - by apply exec_all_dec.
  - by apply exec_all_free.
  - by apply exec_any_dec.
  - by apply exec_any_retire.
  - by apply exec_any_free.
  - by apply exec_tmo_cancel.
  - by apply exec_tmo_fire.
  - by apply exec_tmo_retire.
  - by apply exec_get.
  - by apply exec_park.
  - by apply exec_kill.
  - by apply exec_cond.
Qed.
End Steps.

(** ** Calls *)

Record call_ok (w w' : world) (l : list instr) : Prop := mk_call_ok {
  co_due : forall t, due w' t - due w t = hold_list l t;
  co_heap : heap_ok w';
  co_done : Forall (done_ok w') l;
  co_anys : forall a x', w_anys w' !! a = Some x' ->
    (w_nxt w <= a)%nat \/ exists x, w_anys w !! a = Some x /\ an_done x = an_done x';
  co_tmos : forall a x', w_tmos w' !! a = Some x' ->
    (w_nxt w <= a)%nat \/ exists x, w_tmos w !! a = Some x /\ tx_done x = tx_done x';
}.

(** What a call does not touch. *)
Definition same_ctxs (w w' : world) : Prop :=
  w_one w' = w_one w /\ w_alls w' = w_alls w /\ w_anys w' = w_anys w /\ w_tmos w' = w_tmos w /\ w_timers w' = w_timers w.

Lemma call_ok_same w w' l :
  (forall t, due w' t - due w t = hold_list l t) -> heap_ok w' -> Forall (done_ok w') l ->
  w_anys w' = w_anys w -> w_tmos w' = w_tmos w -> call_ok w w' l.
Proof. intros Hd Hok Hl Ha Ht. split; [done..| |]; intros a x'; rewrite ?Ha, ?Ht; eauto. Qed.

Lemma cells_fresh w k : heap_ok w -> (w_nxt w <= k)%nat -> w_cells w !! k = None.
Proof. intros Hok Hk. destruct (w_cells w !! k) eqn:H; [|done]. apply (ho_cells _ Hok) in H. lia. Qed.

Lemma proms_fresh w k : heap_ok w -> (w_nxt w <= k)%nat -> w_proms w !! k = None.
Proof. intros Hok Hk. destruct (w_proms w !! k) eqn:H; [|done]. apply (ho_proms _ Hok) in H. lia. Qed.

Lemma futs_fresh w k : heap_ok w -> (w_nxt w <= k)%nat -> w_futs w !! k = None.
Proof. intros Hok Hk. destruct (w_futs w !! k) eqn:H; [|done]. apply (ho_futs _ Hok) in H. lia. Qed.

Lemma alls_fresh w k : heap_ok w -> (w_nxt w <= k)%nat -> w_alls w !! k = None.
Proof. intros Hok Hk. destruct (w_alls w !! k) eqn:H; [|done]. apply (ho_alls _ Hok) in H. lia. Qed.

Lemma anys_fresh w k : heap_ok w -> (w_nxt w <= k)%nat -> w_anys w !! k = None.
Proof. intros Hok Hk. destruct (w_anys w !! k) eqn:H; [|done]. apply (ho_anys _ Hok) in H. lia. Qed.

Lemma tmos_fresh w k : heap_ok w -> (w_nxt w <= k)%nat -> w_tmos w !! k = None.
Proof. intros Hok Hk. destruct (w_tmos w !! k) eqn:H; [|done]. apply (ho_tmos _ Hok) in H. lia. Qed.

(** A pair: the client's, or a promise and a future to hand on. *)
Lemma new_pair_ok w mem mine c p f w' :
  heap_ok w -> new_pair w mem mine = (c, Some (p, f), w') ->
  heap_ok w' /\ same_ctxs w w' /\ (w_nxt w <= w_nxt w')%nat /\
  (forall g, w_nxt w <= g -> w_futs w !! g = None)%nat /\
  (forall g, g < w_nxt w -> w_futs w' !! g = w_futs w !! g)%nat /\
  forall t, due w' t = due w t + (if mine then 0 else d (TProm p) t + d (TFut f) t).
Proof.
  intros Hok. unfold new_pair. case_match; [|done]. intros [= <- <- <- <-].
  pose proof (cells_fresh w (w_nxt w) Hok ltac:(lia)). pose proof (proms_fresh w (S (w_nxt w)) Hok ltac:(lia)).
  pose proof (futs_fresh w (S (S (w_nxt w))) Hok ltac:(lia)). split_and!.
  - apply (heap_ok_nxt _ (S (S (S (w_nxt w))))) in Hok; [|lia].
    heap_split Hok; apply map_Forall_insert_2; cbn; [split_and!; try done; lia|done|split_and!; try done; lia|done|lia|done].
  - done.
  - cbn. lia.
  - intros. by apply futs_fresh.
  - intros g Hg. cbn. rewrite lookup_insert_ne by lia. done.
  - due_calc. destruct mine; lia.
Qed.

Lemma take_futs_ok fs w :
  heap_ok w -> NoDup fs -> Forall (fun f => my_fut w f = true) fs ->
  heap_ok (take_futs w fs) /\ same_ctxs w (take_futs w fs) /\ w_nxt (take_futs w fs) = w_nxt w /\
  forall t, due (take_futs w fs) t = due w t + hold_list (IDropFut <$> fs) t.
Proof.
  revert w. induction fs as [|f fs IH]; intros w Hok Hnd Hmy.
  { split_and!; try done. intros t. cbn. lia. }
  apply NoDup_cons in Hnd as [Hf Hnd]. apply Forall_cons in Hmy as [Hm Hmy].
  unfold my_fut in Hm. destruct (w_futs w !! f) as [h|] eqn:Hh; [|done].
  pose proof (give_fut_heap w Hok f false) as Hok1. pose proof (fun t => give_fut_due w f h false t Hh) as Hd1.
  cbn [take_futs foldl]. fold (take_futs (give_fut w f false) fs).
  rewrite (give_fut_put w f h false Hh) in *. destruct (IH _ Hok1 Hnd) as (Hok2 & Hs & Hn & Hd).
  - apply Forall_forall. intros g Hg. rewrite Forall_forall in Hmy. specialize (Hmy g Hg). unfold my_fut in *. cbn.
    rewrite lookup_insert_ne; [done|]. congruence.
  - split_and!; [done..|]. intros t. specialize (Hd1 t). rewrite Hm in Hd1. rewrite Hd. cbn. cbn in Hd1. lia.
Qed.

(** A combinator has its result pair and the handles it consumes. *)
Lemma combine_ok w fs ctx mem build :
  heap_ok w -> NoDup fs -> Forall (fun f => my_fut w f = true) fs ->
  (forall w1 p res, heap_ok w1 -> same_ctxs w w1 -> (w_nxt w < w_nxt w1)%nat ->
     (forall t, due w1 t = due w t + d (TProm p) t + d (TFut res) t + hold_list (IDropFut <$> fs) t) ->
     call_ok w (build w1 (w_nxt w) p res).1 (build w1 (w_nxt w) p res).2) ->
  call_ok w (combine w fs ctx mem build).1 (combine w fs ctx mem build).2.
Proof.
  intros Hok Hnd Hmy Hbuild. assert (call_ok w w []) as Hskip.
  { by apply call_ok_same; [intros t; cbn; lia|..]. }
  unfold combine. destruct ctx; [|done].
  destruct (new_pair (set_nxt w (S (w_nxt w))) mem false) as [[c [[p res]|]] w1] eqn:Hn; [|done].
  apply new_pair_ok in Hn as (Hok1 & Hs1 & Hlt & Hnone & Hsame & Hd1); [|apply heap_ok_nxt; [done|lia]]. cbn in Hlt.
  destruct (take_futs_ok fs w1) as (Hok2 & Hs2 & Hn2 & Hd2); [done..| |].
  { eapply Forall_impl; [exact Hmy|]. intros f Hf. unfold my_fut in *. cbn in Hsame.
    destruct (w_futs w !! f) as [h|] eqn:Hh; [|done]. pose proof (ho_futs _ Hok _ _ Hh). cbn in *.
    rewrite Hsame by lia. by rewrite Hh. }
  apply Hbuild; [done| |lia|].
  - unfold same_ctxs in *. cbn in *. intuition congruence.
  - intros t. rewrite Hd2, Hd1. change (due (set_nxt w _) t) with (due w t). lia.
Qed.

Lemma one_call_ok w w1 m p res f cb (fs := [f]) :
  heap_ok w -> heap_ok w1 -> same_ctxs w w1 -> (w_nxt w < w_nxt w1)%nat -> m = w_nxt w ->
  (forall t, hold_cb cb t = d (TOne m) t + d (TProm p) t) ->
  (forall t, due w1 t = due w t + d (TProm p) t + d (TFut res) t + hold_list (IDropFut <$> fs) t) ->
  call_ok w (set_one w1 (<[m := tt]> (w_one w1))) [IRegRes f cb res].
Proof.
  intros Hok Hok1 (Ho & Hal & Han & Htm & Hti) Hlt -> Hcb Hd. apply call_ok_same.
  - intros t. specialize (Hd t). assert (w_one w1 !! w_nxt w = None) by (rewrite Ho; by apply one_fresh).
    revert Hd. due_calc. rewrite Hcb. cbn. lia.
  - apply heap_ok_one; [done|lia].
  - by repeat constructor.
  - done.
  - done.
Qed.

Lemma regs_hold fs cb res t :
  hold_list (((fun f => IReg f cb) <$> fs) ++ [IGive res]) t =
  hold_list (IDropFut <$> fs) t + Z.of_nat (length fs) * hold_cb cb t + d (TFut res) t.
Proof.
  rewrite hold_list_app. cbn [hold_list hold]. induction fs as [|f fs IH]; [cbn; lia|].
  rewrite !fmap_cons. cbn [hold_list hold length]. lia.
Qed.

Lemma regs_done w fs cb res : Forall (done_ok w) (((fun f => IReg f cb) <$> fs) ++ [IGive res]).
Proof.
  apply Forall_app. split; [|by repeat constructor]. apply Forall_fmap. apply Forall_true. done.
Qed.

Lemma all_call_ok w fs ctx mem :
  heap_ok w -> NoDup fs -> Forall (fun f => my_fut w f = true) fs -> (0 < length fs)%nat ->
  call_ok w (xtc_future_when_all w fs ctx mem).1 (xtc_future_when_all w fs ctx mem).2.
Proof.
  intros Hok Hnd Hmy Hlen. apply combine_ok; [done..|]. intros w1 p res Hok1 (Ho & Hal & Han & Htm & Hti) Hlt Hd.
  apply call_ok_same; [| |apply regs_done|done..].
  - intros t. cbn [snd]. rewrite regs_hold. specialize (Hd t).
    assert (w_alls w1 !! w_nxt w = None) by (rewrite Hal; by apply alls_fresh). revert Hd. cbn [fst]. due_calc.
    rewrite !decide_False by lia. cbn [length andb]. lia.
  - cbn [fst]. heap_split Hok1. apply map_Forall_insert_2; [|done]. unfold err_ok. cbn. split_and!; [lia|by split|done|lia].
Qed.

Lemma any_call_ok w fs ctx mem :
  heap_ok w -> NoDup fs -> Forall (fun f => my_fut w f = true) fs -> (0 < length fs)%nat ->
  call_ok w (xtc_future_when_any w fs ctx mem).1 (xtc_future_when_any w fs ctx mem).2.
Proof.
  intros Hok Hnd Hmy Hlen. apply combine_ok; [done..|]. intros w1 p res Hok1 (Ho & Hal & Han & Htm & Hti) Hlt Hd.
  split; [| |apply regs_done| |].
  - intros t. cbn [snd]. rewrite regs_hold. specialize (Hd t).
    assert (w_anys w1 !! w_nxt w = None) by (rewrite Han; by apply anys_fresh). revert Hd. cbn [fst]. due_calc.
    rewrite !decide_False by lia. lia.
  - cbn [fst]. heap_split Hok1. apply map_Forall_insert_2; [|done]. cbn. split_and!; [lia|lia|done|lia].
  - intros a x'. cbn. rewrite Han, lookup_insert. case_decide; [subst; by left|]. eauto.
  - intros a x'. cbn. rewrite Htm. eauto.
Qed.

Lemma timeout_call_ok w f timer ctx mem :
  heap_ok w -> my_fut w f = true ->
  call_ok w (xtc_future_with_timeout w f timer ctx mem).1 (xtc_future_with_timeout w f timer ctx mem).2.
Proof.
  intros Hok Hmy. apply combine_ok; [done|apply NoDup_singleton|by repeat constructor|].
  intros w1 p res Hok1 (Ho & Hal & Han & Htm & Hti) Hlt Hd.
  assert (w_tmos w1 !! w_nxt w = None) as Hnew by (rewrite Htm; by apply tmos_fresh).
  split; cbn [fst snd]; [| |by repeat constructor| |].
  - intros t. specialize (Hd t). rewrite fmap_cons in Hd. revert Hd.
    destruct timer; due_calc; repeat case_decide; cbn [fmap list_fmap hold_list hold]; first [done|lia].
  - destruct timer; heap_split Hok1; try (apply map_Forall_insert_2; [cbn; split_and!; [lia|done|lia]|done]); rewrite msum_fresh by done; cbn; lia.
  - intros a x'. destruct timer; cbn; rewrite Han; eauto.
  - intros a x'. destruct timer; cbn; rewrite Htm, lookup_insert; (case_decide; [subst; by left|]; eauto).
Qed.

Lemma give_prom_ok w p :
  heap_ok w -> my_prom w p = true -> call_ok w (give_prom w p false) [ISet p 0 0].
Proof.
  intros Hok Hm. unfold my_prom in Hm. unfold give_prom. destruct (w_proms w !! p) as [h|] eqn:Hp; [|done].
  destruct (ho_proms _ Hok _ _ Hp) as (Hpc & Hs & Hlt).
  assert (set_or_dropped h = false) as Hn by (destruct (set_or_dropped h); [specialize (Hs eq_refl); congruence|done]).
  apply call_ok_same; [| |by repeat constructor|done..].
  - due_calc. rewrite Hm, Hn. lia.
  - heap_split Hok. by apply map_Forall_insert_2.
Qed.

Lemma give_fut_call_ok w f ins :
  heap_ok w -> my_fut w f = true -> (forall t, hold ins t = d (TFut f) t) -> (forall w', done_ok w' ins) ->
  call_ok w (give_fut w f false) [ins].
Proof.
  intros Hok Hm Hh Hd. unfold my_fut in Hm. destruct (w_futs w !! f) as [h|] eqn:Hf; [|done].
  apply call_ok_same; [|by apply give_fut_heap|by repeat constructor| |].
  - intros t. rewrite (give_fut_due _ _ _ _ _ Hf), Hm. cbn. rewrite Hh. lia.
  - by rewrite (give_fut_put _ _ _ _ Hf).
  - by rewrite (give_fut_put _ _ _ _ Hf).
Qed.

Lemma my_futs_all w fs : forallb (my_fut w) fs = true -> Forall (fun f => my_fut w f = true) fs.
Proof. intros H. apply Forall_forall. intros f Hf. rewrite forallb_forall in H. apply H. by apply list_elem_of_In. Qed.

Lemma timer_call_ok w a x :
  heap_ok w -> w_tmos w !! a = Some x -> tx_timer x = Some TM_ARMED ->
  call_ok w (set_tmos w (<[a := mk_tmo (tx_prom x) (Some TM_FIRED) (tx_done x) (tx_remaining x) (tx_fired x)]> (w_tmos w)) (w_timers w))
    [ITmoFire a].
Proof.
  intros Hok Hx Ht. split; [| |by repeat constructor| |].
  - due_calc. rewrite decide_True, decide_False by done. lia.
  - eapply tmos_put; [done..|apply (ho_tmos _ Hok _ _ Hx)|apply (ho_tmos _ Hok _ _ Hx)|]. rewrite Ht. cbn. split; eauto.
  - intros b x'. cbn. eauto.
  - intros b x'. cbn. rewrite lookup_insert. case_decide; [|eauto]. intros [= <-]. subst. right. eauto.
Qed.

Lemma call_ok_pair w r w' l : r = (w', l) -> call_ok w r.1 r.2 -> call_ok w w' l.
Proof. by intros ->. Qed.

Lemma start_ok w k w' l : heap_ok w -> start w k = Some (w', l) -> call_ok w w' l.
Proof.
  intros Hok. destruct k as [mem|p v st|p|f tmo fiber|f|f fn ctx mem|f ctx mem|fs ctx mem|fs ctx mem|f timer ctx mem|a]; cbn [start].
  - intros [= <- <-]. destruct (new_pair w mem true) as [[c [[p f]|]] w1] eqn:Hn.
    + apply new_pair_ok in Hn as (Hok1 & (_ & _ & Ha & Ht & _) & _ & _ & _ & Hd); [|done]. cbn.
      apply call_ok_same; [|done..]. intros t. rewrite Hd. cbn. lia.
    + unfold new_pair in Hn. case_match; simplify_eq. apply call_ok_same; [intros; cbn; lia|done..].
  - case_match eqn:Hm; [|done]. intros [= <- <-]. destruct (give_prom_ok w p Hok Hm) as [H1 H2 _ H4 H5]. split; [exact H1|done|by repeat constructor|done..].
  - case_match eqn:Hm; [|done]. intros [= <- <-]. destruct (give_prom_ok w p Hok Hm) as [H1 H2 _ H4 H5]. split; [exact H1|done|by repeat constructor|done..].
  - case_match eqn:Hm; [|done]. intros [= <- <-]. by apply give_fut_call_ok.
  - case_match eqn:Hm; [|done]. intros [= <- <-]. by apply give_fut_call_ok.
  - case_match eqn:Hm; [|done]. intros [= Hr]. apply (call_ok_pair _ _ _ _ Hr).
    apply combine_ok; [done|apply NoDup_singleton|by repeat constructor|]. intros. by eapply one_call_ok.
  - case_match eqn:Hm; [|done]. intros [= Hr]. apply (call_ok_pair _ _ _ _ Hr).
    apply combine_ok; [done|apply NoDup_singleton|by repeat constructor|]. intros. by eapply one_call_ok.
  - case_match eqn:Hm; [|done]. intros [= Hr]. apply (call_ok_pair _ _ _ _ Hr).
    apply andb_true_iff in Hm as [[Hn%bool_decide_eq_true Hmy%my_futs_all]%andb_true_iff Hl%bool_decide_eq_true].
    apply all_call_ok; [done..|lia].
  - case_match eqn:Hm; [|done]. intros [= Hr]. apply (call_ok_pair _ _ _ _ Hr).
    apply andb_true_iff in Hm as [[Hn%bool_decide_eq_true Hmy%my_futs_all]%andb_true_iff Hl%bool_decide_eq_true].
    apply any_call_ok; [done..|lia].
  - case_match eqn:Hm; [|done]. intros [= Hr]. apply (call_ok_pair _ _ _ _ Hr).
    by apply timeout_call_ok.
  - destruct (w_tmos w !! a) as [x|] eqn:Hx; [|done]. cbn. case_decide as Ht; [|done]. intros [= <- <-]. by apply timer_call_ok.
Qed.

(** ** The invariant of all runs *)

Record fut_inv (w : world) (pool : gmap nat (list instr)) : Prop := mk_fut_inv {
  fi_due : forall t, thread_tokens pool t = due w t;
  fi_heap : heap_ok w;
  fi_done : map_Forall (fun _ l => Forall (done_ok w) l) pool;
}.

Lemma hold_list_pend l c : hold_list l (TPend c) = 0.
Proof.
  induction l as [|ins l IH]; simpl; [done|]. rewrite IH. destruct ins as [|cb| | | | | |? cb|? cb|? cb| | | | | | | | | | | | |]; simpl;
    try destruct cb; simpl; rewrite ?d_ne by done; done.
Qed.

Lemma thread_tokens_nonneg pool t : 0 <= thread_tokens pool t.
Proof. apply pool_sum_nonneg. intros. apply hold_list_nonneg. Qed.

Lemma pool_sum_le {P} (f g : P -> Z) (pool : gmap nat P) : (forall p, f p <= g p) -> pool_sum f pool <= pool_sum g pool.
Proof.
  intros H. induction pool as [|i p pool Hi IH] using map_ind.
  - unfold pool_sum. by rewrite !map_fold_empty.
  - rewrite !pool_sum_fresh by done. specialize (H p). lia.
Qed.

(** The tokens of everything but an instruction about to run. *)
Lemma others_ok w pool i ins rest (R := fun t => thread_tokens pool t - hold ins t) :
  fut_inv w pool -> pool !! i = Some (ins :: rest) ->
  (forall t, 0 <= R t) /\ (forall c, R (TPend c) = 0) /\ (forall a, R (TAllU a) <= R (TAll a)) /\
  (forall a st, R (TErr a st) <= R (TAll a)) /\ ready_for w R ins.
Proof.
  intros Hinv Hi.
  assert (forall t, R t = hold_list rest t + thread_tokens (delete i pool) t) as HR.
  { intros t. unfold R, thread_tokens. rewrite <- (insert_delete_id pool i _ Hi) at 1.
    rewrite pool_sum_fresh by apply lookup_delete_eq. cbn. lia. }
  split_and!.
  - intros t. rewrite HR. pose proof (hold_list_nonneg rest t). pose proof (thread_tokens_nonneg (delete i pool) t). lia.
  - intros c. rewrite HR, hold_list_pend. unfold thread_tokens. rewrite pool_sum_zero; [done|].
    intros j l _. apply hold_list_pend.
  - intros a. rewrite !HR. pose proof (hold_list_unfired rest a). unfold thread_tokens.
    pose proof (pool_sum_le (fun l => hold_list l (TAllU a)) (fun l => hold_list l (TAll a)) (delete i pool) (fun l => hold_list_unfired l a)). lia.
  - intros a st. rewrite !HR. pose proof (hold_list_err rest a st). unfold thread_tokens.
    pose proof (pool_sum_le (fun l => hold_list l (TErr a st)) (fun l => hold_list l (TAll a)) (delete i pool) (fun l => hold_list_err l a st)). lia.
  - intros t. unfold R. pose proof (thread_tokens_nonneg pool t). pose proof (fi_due _ _ Hinv t) as Hd. unfold due in Hd. split; lia.
Qed.

Lemma instr_inv w pool i e ins rest :
  fut_inv w pool -> pool !! i = Some (ins :: rest) -> fair_env w e ->
  exists w' l, exec i e w ins = Some (w', l) /\ step_ok w (hold ins) w' l.
Proof.
  intros Hinv Hi He. destruct (others_ok w pool i ins rest Hinv Hi) as (HR & HP & HU & HE & Hb).
  eapply exec_ok; [exact HR|exact HP|exact HU|exact HE|apply (fi_heap _ _ Hinv)|exact Hb| |done].
  by apply (Forall_inv (fi_done _ _ Hinv _ _ Hi)).
Qed.

(** An instruction of another thread is not about a context yet to be made. *)
Lemma call_others w pool w' l0 :
  fut_inv w pool -> call_ok w w' l0 -> map_Forall (fun _ l => Forall (done_ok w') l) pool.
Proof.
  intros Hinv Hc j l Hj. specialize (fi_done _ _ Hinv _ _ Hj) as Hd. rewrite Forall_forall in Hd |- *.
  intros ins Hin. specialize (Hd ins Hin).
  assert (forall t, hold ins t <= supply w t) as Hsup.
  { intros t. pose proof (fi_due _ _ Hinv t) as He. unfold due in He. pose proof (held_nonneg w t).
    pose proof (pool_sum_ge (fun l => hold_list l t) pool j l ltac:(intros; apply hold_list_nonneg) Hj) as Hge. cbn in Hge.
    enough (hold ins t <= hold_list l t) by (unfold thread_tokens in He; lia).
    apply list_elem_of_split in Hin as (l1 & l2 & ->). rewrite hold_list_app. cbn.
    pose proof (hold_list_nonneg l1 t). pose proof (hold_list_nonneg l2 t). lia. }
  destruct ins; cbn in *; try done; intros x Hx.
  - specialize (Hsup (TAny a)). rewrite supply_any, d_eq in Hsup.
    destruct (w_anys w !! a) as [y|] eqn:Hy; [|lia]. pose proof (ho_anys _ (fi_heap _ _ Hinv) _ _ Hy) as (_ & _ & ?).
    destruct (co_anys _ _ _ Hc _ _ Hx) as [?|(z & Hz & <-)]; [lia|]. apply Hd. congruence.
  - specialize (Hsup (TTmo a)). rewrite supply_tmo, d_eq in Hsup.
    destruct (w_tmos w !! a) as [y|] eqn:Hy; [|lia]. pose proof (ho_tmos _ (fi_heap _ _ Hinv) _ _ Hy) as (_ & ?).
    destruct (co_tmos _ _ _ Hc _ _ Hx) as [?|(z & Hz & <-)]; [lia|]. apply Hd. congruence.
  - specialize (Hsup (TTmo a)). rewrite supply_tmo, d_eq in Hsup.
    destruct (w_tmos w !! a) as [y|] eqn:Hy; [|lia]. pose proof (ho_tmos _ (fi_heap _ _ Hinv) _ _ Hy) as (_ & ?).
    destruct (co_tmos _ _ _ Hc _ _ Hx) as [?|(z & Hz & <-)]; [lia|]. apply Hd. congruence.
Qed.

Lemma fut_inv_step w pool i p w' p' :
  fut_inv w pool -> pool !! i = Some p -> fut_step i w p w' p' -> fut_inv w' (<[i := p']> pool).
Proof.
  intros Hinv Hi Hst. destruct Hst as [k w' l Hk|e ins rest w' l He Hex].
  - apply start_ok in Hk as Hc; [|apply (fi_heap _ _ Hinv)]. split.
    + intros t. pose proof (fi_due _ _ Hinv t) as Hd. pose proof (co_due _ _ _ Hc t). unfold thread_tokens in *.
      rewrite (pool_sum_insert _ _ _ []) by done. cbn. lia.
    + apply (co_heap _ _ _ Hc).
    + apply map_Forall_insert_2; [apply (co_done _ _ _ Hc)|by eapply call_others].
  - destruct (instr_inv w pool i e ins rest Hinv Hi He) as (w1 & l1 & Hex1 & Hs). simplify_eq. split.
    + intros t. pose proof (fi_due _ _ Hinv t) as Hd. pose proof (so_due _ _ _ _ Hs t). unfold thread_tokens in *.
      rewrite (pool_sum_insert _ _ _ (ins :: rest)) by done. rewrite hold_list_app. cbn. lia.
    + apply (so_heap _ _ _ _ Hs).
    + assert (map_Forall (fun _ l => Forall (done_ok w') l) pool) as Hall.
      { intros j l' Hj. eapply Forall_impl; [apply (fi_done _ _ Hinv _ _ Hj)|]. intros k. apply done_ok_mono. apply (so_mono _ _ _ _ Hs). }
      apply map_Forall_insert_2; [|done]. apply Forall_app. split; [apply (so_done _ _ _ _ Hs)|]. by apply (Forall_inv_tail (Hall _ _ Hi)).
Qed.

Lemma fut_inv_init n : fut_inv world0 (idle_pool [] n).
Proof.
  split.
  - intros t. unfold thread_tokens. rewrite pool_sum_zero; [|by apply (idle_pool_Forall [] n (fun _ l => hold_list l t = 0))].
    unfold due, supply, held. cbn. rewrite !msum_empty. done.
  - split; [..|cbn; by rewrite msum_empty]; intros ? ? Hk; cbn in Hk; by rewrite lookup_empty in Hk.
  - apply (idle_pool_Forall [] n (fun _ l => Forall (done_ok world0) l)). by intros.
Qed.

Lemma fut_inv_reachable n c : reachable fut_step (fut_init n) c -> fut_inv c.1 c.2.
Proof. apply (pool_invariant fut_step fut_inv); [apply fut_inv_step|apply fut_inv_init]. Qed.
