(* ===== verification/FutureRun.v ===== *)
(** * Futures: what every run guarantees

    On top of the balance of tokens: completed once and the same value for
    all, no lost wake-up, nothing leaks, cascades of callbacks end, and what
    the combinators resolve to. *)

From S2P Require Import Prelude Future FutureSafe.

Local Open Scope Z_scope.

(** ** How an instruction changes the cells *)

Inductive cell_change (j : nat) (w w' : world) : Prop :=
  | cc_same :
      w_cells w' = w_cells w -> w_set w' = w_set w -> w_got w' = w_got w -> w_woken w' = w_woken w -> cell_change j w w'
  | cc_core c x y :
      w_cells w !! c = Some x -> w_cells w' = <[c := y]> (w_cells w) ->
      fc_ready y = fc_ready x -> fc_value y = fc_value x -> fc_status y = fc_status x -> fc_wq y = fc_wq x -> fc_cv y = fc_cv x ->
      w_set w' = w_set w -> w_got w' = w_got w -> w_woken w' = w_woken w -> cell_change j w w'
  | cc_free c :
      w_cells w' = delete c (w_cells w) -> w_set w' = w_set w -> w_got w' = w_got w -> w_woken w' = w_woken w -> cell_change j w w'
  | cc_complete c x v st :
      w_cells w !! c = Some x -> fc_ready x = false ->
      w_cells w' = <[c := mk_cell (fc_refcnt x) true v st [] [] []]> (w_cells w) ->
      w_set w' = w_set w ++ [(c, (v, st))] -> w_got w' = w_got w ->
      w_woken w' = list_to_set (fc_wq x) ∪ list_to_set (fc_cv x) ∪ w_woken w -> cell_change j w w'
  | cc_wait c x y :
      w_cells w !! c = Some x -> w_cells w' = <[c := y]> (w_cells w) -> same_core y x ->
      (forall i, i <> j -> (i ∈ fc_wq x -> i ∈ fc_wq y) /\ (i ∈ fc_cv x -> i ∈ fc_cv y)) ->
      w_set w' = w_set w ->
      w_got w' = w_got w \/ (fc_ready x = true /\ w_got w' = w_got w ++ [(c, (fc_value x, fc_status x))]) ->
      (forall i, i <> j -> i ∈ w_woken w -> i ∈ w_woken w') -> cell_change j w w'.

Lemma remove_first_other i j l : i <> j -> i ∈ l -> i ∈ remove_first j l.
Proof.
  intros Hne. induction l as [|k l IH]; simpl; [done|]. intros [->|Hi]%elem_of_cons.
  - rewrite decide_False by done. by left.
  - case_decide; [done|]. right. by apply IH.
Qed.

Lemma unref_change j w c w' : cell_unref w c = Some w' -> cell_change j w w'.
Proof.
  unfold cell_unref. destruct (w_cells w !! c) as [x|] eqn:Hx; [|done]. cbn. intros [= <-]. case_decide.
  - by eapply cc_free.
  - by eapply cc_core.
Qed.

Section Turn.
Context (j : nat) (w : world) (f c : nat) (x : future_cell) (Hx : w_cells w !! c = Some x).

(** The cell a waiter leaves behind. *)
Definition left_by (y : future_cell) : Prop :=
  same_core y x /\ forall i, i <> j -> (i ∈ fc_wq x -> i ∈ fc_wq y) /\ (i ∈ fc_cv x -> i ∈ fc_cv y).

Lemma get_done_change y : left_by y -> fc_ready y = true -> cell_change j w (get_done w f c y).1.
Proof.
  intros [Hs Hw] Hr. eapply (cc_wait _ _ _ c x y); try done. right. destruct Hs as (_ & Hrd & Hv & Hst & _).
  split; [congruence|]. cbn. by rewrite Hv, Hst.
Qed.

Lemma get_again_change y : left_by y -> cell_change j w (get_again w f c y).1.
Proof.
  intros [Hs Hw]. unfold get_again, give_fut. cbn. case_match; (eapply (cc_wait _ _ _ c x y); try done); by left.
Qed.

Lemma park_change y s : left_by y -> (forall i, i <> j -> i ∈ w_woken w -> i ∈ s) -> cell_change j w (set_woken (put_cell w c y) s).
Proof. intros [Hs Hw] Hk. eapply (cc_wait _ _ _ c x y); try done. by left. Qed.

Lemma remove_left_by y : left_by y -> left_by (fut_wq_remove y j).
Proof.
  intros [Hs Hw]. split; [done|]. intros i Hi. destruct (Hw i Hi) as [H1 H2]. split; [|done].
  intros Hq. cbn. apply remove_first_other; auto.
Qed.

Lemma fiber_turn_change e y dl m : left_by y -> cell_change j w (fiber_turn j e w f c y dl m).1.
Proof.
  intros Hy. pose proof (remove_left_by y Hy) as Hr. unfold fiber_turn. case_match.
  { apply (park_change _ (w_woken w)); [done|auto]. }
  case_match; [by apply get_done_change|]. case_match; [by apply get_again_change|].
  apply park_change; [done|]. intros i Hi. set_solver.
Qed.

Lemma enqueue_left_by : left_by (fut_wq_enqueue x j).
Proof. split; [done|]. intros i Hi. split; [|done]. cbn. set_solver. Qed.
End Turn.

Lemma give_fut_change j w f b : cell_change j w (give_fut w f b).
Proof. unfold give_fut. case_match; by apply cc_same. Qed.

Lemma give_fut_cells w f b : w_cells (give_fut w f b) = w_cells w.
Proof. unfold give_fut. by case_match. Qed.

(** Cut a definition in the option monad into its cases. *)
Ltac opt_cases H :=
  repeat match type of H with
  | context [w_cells ?w !! ?c] => destruct (w_cells w !! c) as [?|] eqn:?; cbn in H; [|done]
  | context [w_proms ?w !! ?c] => destruct (w_proms w !! c) as [?|] eqn:?; cbn in H; [|done]
  | context [w_futs ?w !! ?c] => destruct (w_futs w !! c) as [?|] eqn:?; cbn in H; [|done]
  | context [w_one ?w !! ?c] => destruct (w_one w !! c) as [?|] eqn:?; cbn in H; [|done]
  | context [w_alls ?w !! ?c] => destruct (w_alls w !! c) as [?|] eqn:?; cbn in H; [|done]
  | context [w_anys ?w !! ?c] => destruct (w_anys w !! c) as [?|] eqn:?; cbn in H; [|done]
  | context [w_tmos ?w !! ?c] => destruct (w_tmos w !! c) as [?|] eqn:?; cbn in H; [|done]
  end.

Lemma set_change j w p v st w' l : promise_set w p v st = Some (w', l) -> cell_change j w w'.
Proof.
  intros H. unfold promise_set, cell_complete in H. destruct (w_proms w !! p) as [h|]; [|done]. cbn in H.
  case_match; [simplify_eq; by apply cc_same|]. cbn in H.
  destruct (w_cells w !! pr_cell h) as [x|] eqn:Hx; [|done]. cbn in H. destruct (fc_ready x) eqn:Hr; cbn in H; simplify_eq.
  - by apply cc_same.
  - by eapply (cc_complete _ _ _ (pr_cell h) x v st).
Qed.

Lemma then_change j e w t p v st w' l : then_fire e w t p v st = Some (w', l) -> cell_change j w w'.
Proof.
  intros H. unfold then_fire in H. destruct (w_one w !! t); [|done]. cbn in H.
  destruct (e_next e) as [f|]; [|simplify_eq; by apply cc_same].
  destruct (w_futs w !! f) as [h|] eqn:Hf; [|done]. cbn in H. unfold give_fut in H. rewrite Hf in H.
  repeat case_match; simplify_eq; by apply cc_same.
Qed.

Lemma fire_change j e w cb v st w' l : fire e w cb v st = Some (w', l) -> cell_change j w w'.
Proof.
  intros H. destruct cb as [m p fn|t p|m p|a|a|a]; unfold fire, map_fire, inner_fire, all_fire, any_fire, source_fire in H; [|by eapply then_change|..];
    opt_cases H; repeat case_match; simplify_eq; by apply cc_same.
Qed.

Lemma wait_change j e w f tmo fiber w' l : future_get j e w f tmo fiber = Some (w', l) -> cell_change j w w'.
Proof.
  intros H. unfold future_get in H. destruct (w_futs w !! f) as [h|]; [|done]. cbn in H.
  destruct (w_cells w !! fu_cell h) as [x|] eqn:Hx; [|done]. cbn in H.
  case_match eqn:Hr; [|case_decide; [|destruct fiber]].
  - injection H as H. change w' with (w', l).1. rewrite <- H. by apply (get_done_change j w f (fu_cell h) x Hx x).
  - injection H as H. change w' with (w', l).1. rewrite <- H. by apply (get_again_change j w f (fu_cell h) x Hx x).
  - injection H as H. change w' with (w', l).1. rewrite <- H. apply (fiber_turn_change j w f (fu_cell h) x Hx). eapply enqueue_left_by, Hx.
  - injection H as H. change w' with (w', l).1. rewrite <- H. apply (park_change j w (fu_cell h) x Hx); [|set_solver]. split; [done|]. intros i Hi. cbn. set_solver.
Qed.

Lemma resume_change j e w f dl m w' l : fiber_resume j e w f dl m = Some (w', l) -> cell_change j w w'.
Proof.
  intros H. unfold fiber_resume in H. destruct (w_futs w !! f) as [h|]; [|done]. cbn in H.
  destruct (w_cells w !! fu_cell h) as [x|] eqn:Hx; [|done]. cbn in H.
  injection H as H. change w' with (w', l).1. rewrite <- H. by apply (fiber_turn_change j w f (fu_cell h) x Hx).
Qed.

Lemma kill_change j e w f dl w' l : fut_kill_deliver j e w f dl = Some (w', l) -> cell_change j w w'.
Proof.
  intros H. unfold fut_kill_deliver in H. case_match; [|simplify_eq; apply give_fut_change].
  destruct (w_futs w !! f) as [h|]; [|done]. cbn in H.
  destruct (w_cells w !! fu_cell h) as [x|] eqn:Hx; [|done]. cbn in H.
  injection H as H. change w' with (w', l).1. rewrite <- H. apply (fiber_turn_change j w f (fu_cell h) x Hx).
  case_match; [done|eapply enqueue_left_by, Hx].
Qed.

Lemma cond_change j e w f timed w' l : cond_resume j e w f timed = Some (w', l) -> cell_change j w w'.
Proof.
  intros H. unfold cond_resume in H. destruct (w_futs w !! f) as [h|]; [|done]. cbn in H.
  destruct (w_cells w !! fu_cell h) as [x|] eqn:Hx; [|done]. cbn in H.
  assert (left_by j x (with_waiters x (fc_wq x) (remove_first j (fc_cv x)))) as Hl.
  { split; [done|]. intros i Hi. split; [done|]. intros Hc. by apply remove_first_other. }
  case_match eqn:Hr; [|case_match]; injection H as <- <-.
  - by apply (get_done_change j w f (fu_cell h) x Hx _ Hl).
  - by apply (get_again_change j w f (fu_cell h) x Hx _ Hl).
  - eapply (park_change j w (fu_cell h) x Hx); [|set_solver]. destruct Hl as [Hl1 Hl2]. split; [done|].
    intros i Hi. destruct (Hl2 i Hi). cbn in *. set_solver.
Qed.

Lemma no_more_inv r w' l : no_more r = Some (w', l) -> r = Some w' /\ l = [].
Proof. destruct r as [w1|]; cbn; by intros [= <- <-]. Qed.

Lemma exec_change j e w ins w' l : exec j e w ins = Some (w', l) -> cell_change j w w'.
Proof.
  destruct ins; cbn [exec]; intros H; try (apply no_more_inv in H as [H _]).
  - by eapply set_change.
  - by eapply fire_change.
  - by eapply unref_change.
  - unfold drop_prom in H. destruct (w_proms w !! p) as [h|]; [|done]. cbn in H.
    destruct (cell_unref w (pr_cell h)) as [w1|] eqn:Hu; [|done]. simplify_eq/=.
    apply (unref_change j) in Hu. by destruct Hu; [eapply cc_same|eapply cc_core|eapply cc_free|eapply cc_complete|eapply cc_wait].
  - unfold drop_fut in H. destruct (w_futs w !! f) as [h|]; [|done]. cbn in H.
    destruct (cell_unref w (fu_cell h)) as [w1|] eqn:Hu; [|done]. simplify_eq/=.
    apply (unref_change j) in Hu. by destruct Hu; [eapply cc_same|eapply cc_core|eapply cc_free|eapply cc_complete|eapply cc_wait].
  - simplify_eq. apply give_fut_change.
  - unfold free_one in H. opt_cases H. simplify_eq. by apply cc_same.
  - destruct (e_mem e); [|simplify_eq; by apply cc_same]. unfold on_complete_ref in H. opt_cases H. simplify_eq. by eapply cc_core.
  - destruct (e_mem e); [|simplify_eq; by apply cc_same]. unfold on_complete_ref in H. opt_cases H. simplify_eq. by eapply cc_core.
  - unfold on_complete_locked in H. opt_cases H. case_match; simplify_eq; [by apply cc_same|by eapply cc_core].
  - unfold all_store in H. opt_cases H. simplify_eq. by apply cc_same.
  - unfold all_dec in H. opt_cases H. simplify_eq. by apply cc_same.
  - unfold all_free in H. opt_cases H. simplify_eq. by apply cc_same.
  - unfold any_dec in H. opt_cases H. simplify_eq. by apply cc_same.
  - unfold any_retire_failed in H. opt_cases H. case_decide; simplify_eq; by apply cc_same.
  - unfold any_free in H. opt_cases H. simplify_eq. by apply cc_same.
  - unfold timeout_cancel in H. opt_cases H. case_decide; simplify_eq; by apply cc_same.
  - unfold timeout_fire in H. opt_cases H. simplify_eq. by apply cc_same.
  - unfold timeout_retire in H. opt_cases H. simplify_eq. case_decide; by apply cc_same.
  - by eapply wait_change.
  - by eapply resume_change.
  - by eapply kill_change.
  - by eapply cond_change.
Qed.

Lemma take_futs_frame fs w :
  w_cells (take_futs w fs) = w_cells w /\ w_set (take_futs w fs) = w_set w /\ w_got (take_futs w fs) = w_got w /\
  w_woken (take_futs w fs) = w_woken w /\ w_nxt (take_futs w fs) = w_nxt w.
Proof.
  revert w. induction fs as [|f fs IH]; intros w; [done|]. cbn. fold (take_futs (give_fut w f false) fs).
  destruct (IH (give_fut w f false)) as (-> & -> & -> & -> & ->). unfold give_fut. by case_match.
Qed.

(** A call makes at most one cell, and no waiter, value or callback. *)
Definition quiet (ins : instr) : Prop :=
  match ins with IFire _ _ _ | IPark _ _ _ | ICond _ _ => False | _ => True end.

Record call_frame (w w' : world) (l : list instr) : Prop := mk_call_frame {
  cf_cells : w_cells w' = w_cells w \/
    exists c, (w_nxt w <= c < w_nxt w')%nat /\ w_cells w' = <[c := cell_ref (cell_ref cell_new)]> (w_cells w);
  cf_set : w_set w' = w_set w;
  cf_got : w_got w' = w_got w;
  cf_woken : w_woken w' = w_woken w;
  cf_nxt : (w_nxt w <= w_nxt w')%nat;
  cf_quiet : Forall quiet l;
}.

Lemma combine_frame w fs ctx mem build :
  (forall w1 a p res, exists l, (build w1 a p res).2 = l /\ Forall quiet l /\
     let w2 := (build w1 a p res).1 in
     w_cells w2 = w_cells w1 /\ w_set w2 = w_set w1 /\ w_got w2 = w_got w1 /\ w_woken w2 = w_woken w1 /\ w_nxt w2 = w_nxt w1) ->
  call_frame w (combine w fs ctx mem build).1 (combine w fs ctx mem build).2.
Proof.
  intros Hb. assert (call_frame w w []) as Hskip by (split; auto). unfold combine. destruct ctx; [|done]. unfold new_pair.
  destruct (mem.1.1 && mem.1.2 && mem.2); cbn; [|done].
  match goal with |- call_frame _ (build ?w1 ?a ?p ?res).1 _ => destruct (Hb w1 a p res) as (l & -> & Hq & Hc & Hs & Hg & Hk & Hn) end.
  match type of Hc with _ = w_cells (take_futs ?w1 fs) => destruct (take_futs_frame fs w1) as (E1 & E2 & E3 & E4 & E5) end.
  split; [|by rewrite Hs, E2|by rewrite Hg, E3|by rewrite Hk, E4|rewrite Hn, E5; cbn; lia|done].
  right. exists (S (w_nxt w)). rewrite Hc, E1, Hn, E5. cbn. split; [lia|done].
Qed.

Lemma start_frame w k w' l : start w k = Some (w', l) -> call_frame w w' l.
Proof.
  assert (forall f b, call_frame w (give_fut w f b) []) as Hf.
  { intros f b. unfold give_fut. case_match; split; auto. }
  assert (forall p b, call_frame w (give_prom w p b) []) as Hp.
  { intros p b. unfold give_prom. case_match; split; auto. }
  assert (forall w' l, call_frame w w' [] -> Forall quiet l -> call_frame w w' l) as Hl.
  { intros w1 l1 []. by split. }
  assert (forall r w' l, Some r = Some (w', l) -> call_frame w r.1 r.2 -> call_frame w w' l) as Hr by (by intros r w1 l1 [= ->]).
  destruct k; cbn [start]; try case_match; try done; try (intros Hs; apply (Hr _ _ _ Hs); apply combine_frame).
  - intros [= <- <-]. unfold new_pair. destruct (mem.1.1 && mem.1.2 && mem.2); cbn; split; cbn; auto.
    right. eexists. split; [|done]. lia.
  - intros [= <- <-]. apply Hl; [done|by repeat constructor].
  - intros [= <- <-]. apply Hl; [done|by repeat constructor].
  - intros [= <- <-]. apply Hl; [done|by repeat constructor].
  - intros [= <- <-]. apply Hl; [done|by repeat constructor].
  - intros. eexists. split; [done|]. split; [by repeat constructor|done].
  - intros. eexists. split; [done|]. split; [by repeat constructor|done].
  - intros. eexists. split; [done|]. split; [|done]. apply Forall_app. split; [|by repeat constructor]. apply Forall_fmap, Forall_true. done.
  - intros. eexists. split; [done|]. split; [|done]. apply Forall_app. split; [|by repeat constructor]. apply Forall_fmap, Forall_true. done.
  - intros. eexists. split; [done|]. split; [by repeat constructor|]. by destruct timer.
  - intros Hs. opt_cases Hs. case_decide; [|done]. simplify_eq. split; auto. by repeat constructor.
Qed.

(** ** Values *)

(** A callback runs with what the cell it hung on was completed with (or it
    stands for a registration that failed). *)
Fixpoint fires_ok (done : list (nat * (Z * Z))) (l : list instr) : Prop :=
  match l with
  | [] => True
  | IFire _ v st :: r => match r with IUnref c :: _ => (c, (v, st)) ∈ done | _ => r <> [] end /\ fires_ok done r
  | _ :: r => fires_ok done r
  end.

Definition no_fire (ins : instr) : Prop := match ins with IFire _ _ _ => False | _ => True end.

Lemma no_fire_ok done l : Forall no_fire l -> fires_ok done l.
Proof. induction 1 as [|ins l Hi _ IH]; [done|]. by destruct ins. Qed.

Lemma fires_app done l l' : fires_ok done l -> fires_ok done l' -> fires_ok done (l ++ l').
Proof.
  induction l as [|ins l IH]; [done|]. intros Hl Hl'.
  destruct ins; cbn in *; try (by apply IH). destruct Hl as [Hh Hl]. split; [|by apply IH]. by destruct l as [|[] ?].
Qed.

Lemma fires_mono done done' l : (forall x, x ∈ done -> x ∈ done') -> fires_ok done l -> fires_ok done' l.
Proof.
  intros Hs. induction l as [|ins l IH]; [done|]. destruct ins; cbn; auto. intros [Hh Hl]. split; [|auto].
  destruct l as [|[] ?]; auto.
Qed.

Record val_inv (w : world) (pool : gmap nat (list instr)) : Prop := mk_val_inv {
  vi_ready : forall c x, w_cells w !! c = Some x -> fc_ready x = true -> (c, (fc_value x, fc_status x)) ∈ w_set w;
  vi_set : forall c vs, (c, vs) ∈ w_set w -> (c < w_nxt w)%nat /\ forall x, w_cells w !! c = Some x -> fc_ready x = true;
  vi_nodup : NoDup (w_set w).*1;
  vi_got : forall y, y ∈ w_got w -> y ∈ w_set w;
  vi_fire : map_Forall (fun _ l => fires_ok (w_set w) l) pool;
}.

Lemma set_fires w p v st w' l :
  promise_set w p v st = Some (w', l) -> fires_ok (w_set w') l.
Proof.
  intros H. unfold promise_set, cell_complete in H. destruct (w_proms w !! p) as [h|]; [|done]. cbn in H.
  case_match; [by simplify_eq|]. cbn in H.
  destruct (w_cells w !! pr_cell h) as [x|] eqn:Hx; [|done]. cbn in H. destruct (fc_ready x) eqn:Hr; cbn in H; simplify_eq; [done|].
  apply fires_app; [|by apply no_fire_ok; repeat constructor].
  generalize (fc_cbs x). intros cbs. induction cbs as [|cb cbs IH]; [done|]. rewrite fmap_cons. cbn. split; [|done].
  apply elem_of_app. right. by apply list_elem_of_singleton.
Qed.

Ltac all_plain := repeat (apply Forall_cons; split; [done|]); apply Forall_nil; done.

Lemma then_plain e w t p v st w' l : then_fire e w t p v st = Some (w', l) -> Forall no_fire l.
Proof.
  intros H. unfold then_fire in H. opt_cases H. destruct (e_next e) as [f|]; [|simplify_eq; all_plain].
  destruct (w_futs w !! f); [|done]. cbn in H. repeat case_match; simplify_eq; all_plain.
Qed.

Lemma fire_plain e w cb v st w' l : fire e w cb v st = Some (w', l) -> Forall no_fire l.
Proof.
  intros H. destruct cb; unfold fire, map_fire, inner_fire, all_fire, any_fire, source_fire in H; [|by eapply then_plain|..]; opt_cases H; repeat case_match; simplify_eq; all_plain.
Qed.

Lemma exec_fires j e w ins w' l :
  exec j e w ins = Some (w', l) ->
  (forall c x, w_cells w !! c = Some x -> fc_ready x = true -> (c, (fc_value x, fc_status x)) ∈ w_set w) ->
  fires_ok (w_set w') l.
Proof.
  intros H Hrd. destruct ins; cbn [exec] in H; try (by apply no_more_inv in H as [_ ->]).
  - by eapply set_fires.
  - apply no_fire_ok. by eapply fire_plain.
  - by simplify_eq.
  - destruct (e_mem e); [unfold on_complete_ref in H; opt_cases H; simplify_eq; apply no_fire_ok; all_plain|].
    simplify_eq. destruct cb; cbn; repeat split; done.
  - destruct (e_mem e); [unfold on_complete_ref in H; opt_cases H; simplify_eq; apply no_fire_ok; all_plain|].
    simplify_eq. destruct cb; cbn; repeat split; done.
  - unfold on_complete_locked in H. opt_cases H. case_match; simplify_eq; [|done]. cbn. split; [|done]. by apply Hrd.
  - unfold all_store in H. opt_cases H. by simplify_eq.
  - unfold all_dec in H. opt_cases H. simplify_eq. case_decide; apply no_fire_ok; all_plain.
  - unfold any_retire_failed in H. opt_cases H. repeat case_match; simplify_eq; apply no_fire_ok; all_plain.
  - unfold timeout_cancel in H. opt_cases H. repeat case_match; simplify_eq; apply no_fire_ok; all_plain.
  - unfold timeout_fire in H. opt_cases H. repeat case_match; simplify_eq; apply no_fire_ok; all_plain.
  - unfold future_get in H. opt_cases H. apply no_fire_ok.
    unfold fiber_turn, get_done, get_again, cond_wait in H. repeat case_match; simplify_eq; all_plain.
  - unfold fiber_resume in H. opt_cases H. apply no_fire_ok.
    unfold fiber_turn, get_done, get_again in H. repeat case_match; simplify_eq; all_plain.
  - unfold fut_kill_deliver in H. apply no_fire_ok. case_match; [|by simplify_eq]. opt_cases H.
    unfold fiber_turn, get_done, get_again in H. repeat case_match; simplify_eq; all_plain.
  - unfold cond_resume in H. opt_cases H. apply no_fire_ok.
    unfold get_done, get_again, cond_wait in H. repeat case_match; simplify_eq; all_plain.
Qed.

Lemma give_fut_nxt w f b : w_nxt (give_fut w f b) = w_nxt w.
Proof. unfold give_fut. by case_match. Qed.

Lemma unref_nxt w c w' : cell_unref w c = Some w' -> w_nxt w' = w_nxt w.
Proof. intros H. unfold cell_unref in H. opt_cases H. by simplify_eq. Qed.

Lemma turn_nxt i e w f c x dl m : w_nxt (fiber_turn i e w f c x dl m).1 = w_nxt w.
Proof. unfold fiber_turn, get_done, get_again. repeat case_match; cbn; rewrite ?give_fut_nxt; done. Qed.

Lemma then_nxt e w t p v st w' l : then_fire e w t p v st = Some (w', l) -> (w_nxt w <= w_nxt w')%nat.
Proof.
  intros H. unfold then_fire in H. opt_cases H. destruct (e_next e) as [f|]; [|by simplify_eq].
  destruct (w_futs w !! f); [|done]. cbn in H. repeat case_match; simplify_eq; cbn; rewrite ?give_fut_nxt; lia.
Qed.

Lemma set_nxt_same w p v st w' l : promise_set w p v st = Some (w', l) -> w_nxt w' = w_nxt w.
Proof.
  intros H. unfold promise_set, cell_complete in H. destruct (w_proms w !! p) as [h|]; [|done]. cbn in H.
  case_match; [by simplify_eq|]. cbn in H. destruct (w_cells w !! pr_cell h) as [x|]; [|done]. cbn in H.
  by destruct (fc_ready x); cbn in H; simplify_eq.
Qed.

Lemma exec_nxt j e w ins w' l : exec j e w ins = Some (w', l) -> (w_nxt w <= w_nxt w')%nat.
Proof.
  assert (forall i e f c x dl m, Some (fiber_turn i e w f c x dl m) = Some (w', l) -> w_nxt w' = w_nxt w) as Ht.
  { intros i e' f c x dl m [= H]. rewrite <- (turn_nxt i e' w f c x dl m). by rewrite H. }
  intros H. destruct ins; cbn [exec] in H; try (apply no_more_inv in H as [H _]).
  - apply set_nxt_same in H. lia.
  - destruct cb; unfold fire, map_fire, inner_fire, all_fire, any_fire, source_fire in H; [|by eapply then_nxt|..]; opt_cases H; repeat case_match; simplify_eq; cbn; lia.
  - apply unref_nxt in H. lia.
  - unfold drop_prom in H. opt_cases H. destruct (cell_unref w _) eqn:Hu; [|done]. apply unref_nxt in Hu. simplify_eq/=. lia.
  - unfold drop_fut in H. opt_cases H. destruct (cell_unref w _) eqn:Hu; [|done]. apply unref_nxt in Hu. simplify_eq/=. lia.
  - simplify_eq. by rewrite give_fut_nxt.
  - unfold free_one in H. opt_cases H. by simplify_eq.
  - destruct (e_mem e); [|by simplify_eq]. unfold on_complete_ref in H. opt_cases H. by simplify_eq.
  - destruct (e_mem e); [|by simplify_eq]. unfold on_complete_ref in H. opt_cases H. by simplify_eq.
  - unfold on_complete_locked in H. opt_cases H. by case_match; simplify_eq.
  - unfold all_store in H. opt_cases H. by simplify_eq.
  - unfold all_dec in H. opt_cases H. by simplify_eq.
  - unfold all_free in H. opt_cases H. by simplify_eq.
  - unfold any_dec in H. opt_cases H. by simplify_eq.
  - unfold any_retire_failed in H. opt_cases H. by case_decide; simplify_eq.
  - unfold any_free in H. opt_cases H. by simplify_eq.
  - unfold timeout_cancel in H. opt_cases H. by case_decide; simplify_eq.
  - unfold timeout_fire in H. opt_cases H. by simplify_eq.
  - unfold timeout_retire in H. opt_cases H. simplify_eq. by case_decide.
  - unfold future_get, get_done, get_again, cond_wait in H. opt_cases H. case_match; [by simplify_eq|]. case_decide.
    + simplify_eq. by rewrite give_fut_nxt.
    + case_match; [apply Ht in H; lia|by simplify_eq].
  - unfold fiber_resume in H. opt_cases H. apply Ht in H. lia.
  - unfold fut_kill_deliver in H. case_match; [|simplify_eq; by rewrite give_fut_nxt]. opt_cases H. apply Ht in H. lia.
  - unfold cond_resume, get_done, get_again, cond_wait in H. opt_cases H. case_match; [by simplify_eq|].
    case_match; [|by simplify_eq]. simplify_eq. by rewrite give_fut_nxt.
Qed.

Lemma val_inv_change j w w' pool :
  cell_change j w w' -> (w_nxt w <= w_nxt w')%nat -> heap_ok w -> val_inv w pool -> val_inv w' pool.
Proof.
  intros Hcc Hn Hok [Hr Hs Hd Hg Hf].
  assert (w_set w' = w_set w \/ exists c x v st, w_cells w !! c = Some x /\ fc_ready x = false /\ w_set w' = w_set w ++ [(c, (v, st))] /\
    w_cells w' = <[c := mk_cell (fc_refcnt x) true v st [] [] []]> (w_cells w) /\ w_got w' = w_got w) as [Hset|(c & x & v & st & Hx & Hp & Hset & Hc & Hgot)].
  { destruct Hcc; auto. right. by eexists _, _, _, _. }
  - assert (forall c y, w_cells w' !! c = Some y -> exists x, w_cells w !! c = Some x /\
      fc_ready y = fc_ready x /\ fc_value y = fc_value x /\ fc_status y = fc_status x) as Hold.
    { intros c y Hy. destruct Hcc as [Hc|c1 x1 y1 H1 Hc|c1 Hc|c1 x1 v st H1 Hp Hc Hs'|c1 x1 y1 H1 Hc Hcore]; rewrite Hc in Hy.
      - eauto.
      - apply lookup_insert_Some in Hy as [[<- <-]|[_ Hy]]; eauto.
      - apply lookup_delete_Some in Hy as [_ Hy]. eauto.
      - rewrite Hset in Hs'. apply (f_equal length) in Hs'. rewrite length_app in Hs'. cbn in Hs'. lia.
      - apply lookup_insert_Some in Hy as [[<- <-]|[_ Hy]]; [|eauto]. destruct Hcore as (_ & ? & ? & ? & _). eauto. }
    split; rewrite ?Hset; try done.
    + intros c y Hy Hrd. destruct (Hold _ _ Hy) as (x & Hx & E1 & E2 & E3). rewrite E2, E3. apply Hr; congruence.
    + intros c vs Hin. destruct (Hs c vs Hin) as [? Hall]. split; [lia|]. intros y Hy.
      destruct (Hold _ _ Hy) as (x & Hx & E1 & _). rewrite E1. by apply Hall.
    + intros z Hz. destruct Hcc as [? ? Hgot|? ? ? ? ? ? ? ? ? ? ? Hgot|? ? ? Hgot|? ? ? ? ? ? ? ? Hgot|c x y Hx Hc Hcore Hw ? [Hgot|[Hrd Hgot]]];
        rewrite Hgot in Hz; try (by apply Hg).
      apply elem_of_app in Hz as [Hz| ->%list_elem_of_singleton]; [by apply Hg|]. by apply Hr.
  - split; rewrite ?Hset.
    + intros c' y. rewrite Hc, lookup_insert. case_decide as D; intros Hy Hrd.
      * simplify_eq/=. apply elem_of_app. right. by apply list_elem_of_singleton.
      * apply elem_of_app. left. by apply Hr.
    + intros c' vs [Hin|[= -> ->]%list_elem_of_singleton]%elem_of_app.
      * destruct (Hs c' vs Hin) as [? Hall]. split; [lia|]. intros y. rewrite Hc, lookup_insert. case_decide; [|by apply Hall]. by intros [= <-].
      * destruct (ho_cells _ Hok _ _ Hx) as (_ & _ & ?). split; [lia|]. intros y. rewrite Hc, lookup_insert_eq. by intros [= <-].
    + rewrite fmap_app. apply NoDup_app. split_and!; [done| |apply NoDup_singleton]. intros c' Hin Hc'%list_elem_of_singleton.
      cbn in Hc'. subst c'. apply list_elem_of_fmap in Hin as ([c1 vs] & Heq & Hin). cbn in Heq. subst c1.
      destruct (Hs _ _ Hin) as [_ Hall]. by rewrite (Hall x Hx) in Hp.
    + intros z. rewrite Hgot. intros Hz. apply elem_of_app. left. by apply Hg.
    + intros i l Hl. eapply fires_mono; [|by apply (Hf i)]. intros z Hz. apply elem_of_app. by left.
Qed.

Lemma val_inv_step w pool i p w' p' :
  fut_inv w pool /\ val_inv w pool -> pool !! i = Some p -> fut_step i w p w' p' ->
  fut_inv w' (<[i := p']> pool) /\ val_inv w' (<[i := p']> pool).
Proof.
  intros [Hinv Hv] Hi Hst. split; [by eapply fut_inv_step|]. pose proof (fi_heap _ _ Hinv) as Hok.
  destruct Hst as [k w' l Hk|e ins rest w' l He Hex].
  - apply start_frame in Hk as [Hc Hset Hgot _ Hn Hq]. destruct Hv as [Hr Hs Hd Hg Hf]. split; rewrite ?Hset, ?Hgot; try done.
    + intros c x Hx Hrd. destruct Hc as [Hc|(c1 & Hlt & Hc)]; rewrite Hc in Hx; [by apply Hr|].
      apply lookup_insert_Some in Hx as [[<- <-]|[_ Hx]]; [done|by apply Hr].
    + intros c vs Hin. destruct (Hs c vs Hin) as [? Hall]. split; [lia|]. intros x Hx.
      destruct Hc as [Hc|(c1 & Hlt & Hc)]; rewrite Hc in Hx; [by apply Hall|].
      apply lookup_insert_Some in Hx as [[<- <-]|[_ Hx]]; [lia|by apply Hall].
    + apply map_Forall_insert_2; [|done]. apply no_fire_ok. eapply Forall_impl; [exact Hq|]. by intros [].
  - pose proof (exec_fires _ _ _ _ _ _ Hex (vi_ready _ _ Hv)) as Hfire.
    apply exec_nxt in Hex as Hn. apply exec_change in Hex. pose proof (val_inv_change _ _ _ _ Hex Hn Hok Hv) as [Hr Hs Hd Hg Hf].
    split; try done. apply map_Forall_insert_2; [|done]. apply fires_app; [done|]. specialize (Hf _ _ Hi).
    destruct ins; cbn in Hf; try done. apply Hf.
Qed.

Lemma val_inv_reachable n c : reachable fut_step (fut_init n) c -> fut_inv c.1 c.2 /\ val_inv c.1 c.2.
Proof.
  apply (pool_invariant fut_step (fun w pool => fut_inv w pool /\ val_inv w pool)); [apply val_inv_step|]. split; [apply fut_inv_init|].
  split; cbn; try done; try (intros; set_solver).
  - apply NoDup_nil_2.
  - by apply (idle_pool_Forall [] n (fun _ l => fires_ok [] l)).
Qed.

(** ** Wake-ups *)

(** A waiter is in the queue, or the cell is complete and it was woken. *)
Definition waits_in (w : world) (i f : nat) (q : future_cell -> list nat) : Prop :=
  exists h x, w_futs w !! f = Some h /\ w_cells w !! fu_cell h = Some x /\
    if fc_ready x then i ∈ w_woken w else i ∈ q x.

Definition waiting (w : world) (i : nat) (ins : instr) : Prop :=
  match ins with IPark f _ _ => waits_in w i f fc_wq | ICond f _ => waits_in w i f fc_cv | _ => True end.

Definition no_wait (ins : instr) : Prop := match ins with IPark _ _ _ | ICond _ _ => False | _ => True end.

(** Only what a thread is at can be a wait. *)
Definition waits_ok (w : world) (i : nat) (l : list instr) : Prop :=
  match l with [] => True | ins :: rest => waiting w i ins /\ Forall no_wait rest end.

Lemma no_wait_ok w i l : Forall no_wait l -> waits_ok w i l.
Proof. destruct 1 as [|ins l Hi Hl]; [done|]. split; [by destruct ins|done]. Qed.

(** Another thread's step keeps a waiter where it is, or wakes it. *)
Lemma waits_change j w w' i f q pool :
  (forall x y, fc_wq y = fc_wq x -> fc_cv y = fc_cv x -> q y = q x) ->
  (forall x, i ∈ q x -> i ∈ fc_wq x \/ i ∈ fc_cv x) ->
  (forall x y, (i ∈ fc_wq x -> i ∈ fc_wq y) -> (i ∈ fc_cv x -> i ∈ fc_cv y) -> i ∈ q x -> i ∈ q y) ->
  cell_change j w w' -> i <> j -> heap_ok w -> fut_inv w' pool -> 1 <= thread_tokens pool (TFut f) ->
  waits_in w i f q -> waits_in w' i f q.
Proof.
  intros Hq Hin Hmono Hcc Hij Hok Hinv Htok (h & x & Hf & Hx & Hw).
  assert (balanced w' (thread_tokens pool)) as Hb.
  { intros t. pose proof (thread_tokens_nonneg pool t). pose proof (fi_due _ _ Hinv t). unfold due in *. lia. }
  destruct (fut_live w' _ Hb f Htok) as (h' & Hf' & _). destruct (cell_of_fut w' _ Hb f h' Hf') as (x' & Hx' & _).
  assert (fu_cell h' = fu_cell h) as Hc.
  { destruct (ho_futs _ (fi_heap _ _ Hinv) _ _ Hf') as [E _]. destruct (ho_futs _ Hok _ _ Hf) as [E' _]. congruence. }
  rewrite Hc in Hx'. exists h', x'. rewrite Hc. split_and!; [done..|].
  destruct Hcc as [Ec _ _ Ew|c y z Hy Ec Er _ _ Eq Ev _ _ Ew|c Ec _ _ Ew|c y v st Hy Hp Ec _ _ Ew|c y z Hy Ec Hcore Hkeep _ _ Hwk]; rewrite Ec in Hx'.
  - simplify_eq. by rewrite Ew.
  - apply lookup_insert_Some in Hx' as [[Hcc <-]|[_ Hx']]; [subst c|]; simplify_eq; rewrite ?Ew; [|done]. by rewrite Er, (Hq _ _ Eq Ev).
  - apply lookup_delete_Some in Hx' as [_ Hx']. simplify_eq. by rewrite Ew.
  - apply lookup_insert_Some in Hx' as [[Hcc <-]|[_ Hx']]; [subst c|]; simplify_eq/=; rewrite Ew.
    + rewrite Hp in Hw. destruct (Hin _ Hw); set_solver.
    + case_match; [set_solver|done].
  - apply lookup_insert_Some in Hx' as [[Hcc <-]|[_ Hx']]; [subst c|]; simplify_eq.
    + destruct Hcore as (_ & -> & _). destruct (Hkeep i Hij). case_match; [by apply Hwk|]. eapply Hmono; eauto.
    + case_match; [by apply Hwk|done].
Qed.

Lemma waiting_change j w w' i ins pool :
  cell_change j w w' -> i <> j -> heap_ok w -> fut_inv w' pool -> (forall t, hold ins t <= thread_tokens pool t) ->
  waiting w i ins -> waiting w' i ins.
Proof.
  intros Hcc Hij Hok Hinv Htok. destruct ins; try done; cbn; eapply waits_change; eauto; try congruence;
    (etrans; [|apply Htok]); cbn; rewrite d_eq; done.
Qed.

(** A handle that a thread has is there, and its cell is where it was. *)
Lemma held_fut_same w w' pool f h :
  heap_ok w -> fut_inv w' pool -> 1 <= thread_tokens pool (TFut f) -> w_futs w !! f = Some h ->
  exists h', w_futs w' !! f = Some h' /\ fu_cell h' = fu_cell h /\ is_Some (w_cells w' !! fu_cell h).
Proof.
  intros Hok Hinv Htok Hf. assert (balanced w' (thread_tokens pool)) as Hb.
  { intros t. pose proof (thread_tokens_nonneg pool t). pose proof (fi_due _ _ Hinv t). unfold due in *. lia. }
  destruct (fut_live w' _ Hb f Htok) as (h' & Hf' & _). destruct (cell_of_fut w' _ Hb f h' Hf') as (x' & Hx' & _).
  assert (fu_cell h' = fu_cell h) as Hc.
  { destruct (ho_futs _ (fi_heap _ _ Hinv) _ _ Hf') as [E _]. destruct (ho_futs _ Hok _ _ Hf) as [E' _]. congruence. }
  exists h'. split_and!; [done..|]. rewrite <- Hc. eauto.
Qed.

Lemma waiting_call w w' l0 i ins pool :
  call_frame w w' l0 -> heap_ok w -> fut_inv w' pool -> (forall t, hold ins t <= thread_tokens pool t) ->
  waiting w i ins -> waiting w' i ins.
Proof.
  intros [Hc _ _ Hw _ _] Hok Hinv Htok.
  assert (forall f q, 1 <= thread_tokens pool (TFut f) -> waits_in w i f q -> waits_in w' i f q) as Hall.
  { intros f q Ht (h & x & Hh & Hx & Hr). destruct (held_fut_same w w' pool f h Hok Hinv Ht Hh) as (h' & Hh' & Hcell & _).
    exists h', x. rewrite Hw, Hcell. split_and!; [done| |done].
    destruct Hc as [->|(c & Hlt & ->)]; [done|]. rewrite lookup_insert_ne; [done|].
    destruct (ho_cells _ Hok _ _ Hx) as (_ & _ & ?). lia. }
  destruct ins; try done; apply Hall; (etrans; [|apply Htok]); cbn; rewrite d_eq; done.
Qed.

(** What a turn of a fiber leaves is no wait, or it is in the queue. *)
Lemma turn_waits i e w f h c y dl m w' l :
  w_futs w !! f = Some h -> c = fu_cell h -> (fc_ready y = false -> i ∈ fc_wq y) ->
  fiber_turn i e w f c y dl m = (w', l) -> Forall no_wait l \/ exists k, l = [k] /\ waiting w' i k.
Proof.
  intros Hf -> Hq H. unfold fiber_turn, get_done, get_again in H. repeat case_match; simplify_eq; try (left; all_plain).
  right. eexists. split; [done|]. exists h, y. cbn. rewrite lookup_insert_eq. split_and!; [done..|].
  destruct (fc_ready y); [done|by apply Hq].
Qed.

Lemma cond_waits i w f h c y timed w' l :
  w_futs w !! f = Some h -> c = fu_cell h -> fc_ready y = false -> cond_wait i w f c y timed = (w', l) ->
  exists k, l = [k] /\ waiting w' i k.
Proof.
  intros Hf -> Hr [= <- <-]. eexists. split; [done|]. exists h, (with_waiters y (fc_wq y) (fc_cv y ++ [i])). cbn.
  rewrite lookup_insert_eq, Hr. split_and!; [done..|]. set_solver.
Qed.

Lemma exec_waits i e w ins w' l :
  exec i e w ins = Some (w', l) -> waiting w i ins -> Forall no_wait l \/ exists k, l = [k] /\ waiting w' i k.
Proof.
  intros H Hwt. destruct ins; cbn [exec] in H; try (apply no_more_inv in H as [_ ->]; by left).
  - left. unfold promise_set, cell_complete in H. destruct (w_proms w !! p) as [h|]; [|done]. cbn in H.
    case_match; [by simplify_eq|]. cbn in H. destruct (w_cells w !! pr_cell h) as [x|]; [|done]. cbn in H.
    destruct (fc_ready x); cbn in H; simplify_eq; [all_plain|]. apply Forall_app. split; [|all_plain].
    induction (fc_cbs x) as [|cb cbs IH]; [done|]. rewrite fmap_cons. cbn. by repeat (apply Forall_cons; split).
  - left. destruct cb; unfold fire, map_fire, inner_fire, all_fire, any_fire, source_fire in H; unfold then_fire in H; opt_cases H; try (repeat case_match; simplify_eq; all_plain).
    destruct (e_next e) as [f|]; [|simplify_eq; all_plain]. destruct (w_futs w !! f); [|done]. cbn in H.
    repeat case_match; simplify_eq; all_plain.
  - simplify_eq. by left.
  - left. destruct (e_mem e); [unfold on_complete_ref in H; opt_cases H; simplify_eq; all_plain|]. simplify_eq. destruct cb; cbn; all_plain.
  - left. destruct (e_mem e); [unfold on_complete_ref in H; opt_cases H; simplify_eq; all_plain|]. simplify_eq. destruct cb; cbn; all_plain.
  - left. unfold on_complete_locked in H. opt_cases H. case_match; simplify_eq; all_plain.
  - left. unfold all_store in H. opt_cases H. simplify_eq. all_plain.
  - left. unfold all_dec in H. opt_cases H. simplify_eq. case_decide; all_plain.
  - left. unfold any_retire_failed in H. opt_cases H. repeat case_match; simplify_eq; all_plain.
  - left. unfold timeout_cancel in H. opt_cases H. repeat case_match; simplify_eq; all_plain.
  - left. unfold timeout_fire in H. opt_cases H. repeat case_match; simplify_eq; all_plain.
  - unfold future_get in H. destruct (w_futs w !! f) as [h|] eqn:Hf; [|done]. cbn in H.
    destruct (w_cells w !! fu_cell h) as [x|] eqn:Hx; [|done]. cbn in H. destruct (fc_ready x) eqn:Hr.
    { unfold get_done in H. simplify_eq. left. all_plain. }
    case_decide; [unfold get_again in H; simplify_eq; left; all_plain|]. destruct fiber.
    + injection H as H. eapply turn_waits; [exact Hf|done| |exact H]. cbn. set_solver.
    + injection H as <- <-. right. by eapply (cond_waits i w f h _ x).
  - unfold fiber_resume in H. destruct Hwt as (h & x & Hf & Hx & Hr). rewrite Hf in H. cbn in H. rewrite Hx in H. cbn in H.
    injection H as H. eapply turn_waits; [exact Hf|done| |exact H]. intros E. by rewrite E in Hr.
  - unfold fut_kill_deliver in H. case_match; [|simplify_eq; by left].
    destruct (w_futs w !! f) as [h|] eqn:Hf; [|done]. cbn in H.
    destruct (w_cells w !! fu_cell h) as [x|] eqn:Hx; [|done]. cbn in H.
    injection H as H. eapply turn_waits; [exact Hf|done| |exact H]. destruct (fc_ready x) eqn:E; cbn; [congruence|set_solver].
  - unfold cond_resume in H. destruct (w_futs w !! f) as [h|] eqn:Hf; [|done]. cbn in H.
    destruct (w_cells w !! fu_cell h) as [x|] eqn:Hx; [|done]. cbn in H. destruct (fc_ready x) eqn:Hr.
    { unfold get_done in H. simplify_eq. left. all_plain. }
    case_match; [unfold get_again in H; simplify_eq; left; all_plain|]. injection H as <- <-. right.
    by eapply (cond_waits i w f h _ (with_waiters x (fc_wq x) (remove_first i (fc_cv x)))).
Qed.

Definition wake_inv (w : world) (pool : gmap nat (list instr)) : Prop := map_Forall (fun i l => waits_ok w i l) pool.

Lemma head_tokens pool i ins rest : pool !! i = Some (ins :: rest) -> forall t, hold ins t <= thread_tokens pool t.
Proof.
  intros Hi t. etrans; [|apply (pool_sum_ge (fun l => hold_list l t) pool i _ ltac:(intros; apply hold_list_nonneg) Hi)].
  cbn. pose proof (hold_list_nonneg rest t). lia.
Qed.

Lemma wake_inv_step w pool i p w' p' :
  fut_inv w pool /\ wake_inv w pool -> pool !! i = Some p -> fut_step i w p w' p' ->
  fut_inv w' (<[i := p']> pool) /\ wake_inv w' (<[i := p']> pool).
Proof.
  intros [Hinv Hw] Hi Hst. pose proof (fut_inv_step _ _ _ _ _ _ Hinv Hi Hst) as Hinv'. split; [done|].
  pose proof (fi_heap _ _ Hinv) as Hok.
  apply (map_Forall_pool_update (fun i l => waits_ok w i l)); [done| |].
  - intros j q Hji Hj Hq. destruct q as [|ins rest]; [done|]. destruct Hq as [Hh Hr]. split; [|done].
    assert (forall t, hold ins t <= thread_tokens (<[i := p']> pool) t) as Htok.
    { apply (head_tokens _ j ins rest). by rewrite lookup_insert_ne. }
    destruct Hst as [k w' l Hk|e ins' rest' w' l He Hex].
    + apply start_frame in Hk. by eapply waiting_call.
    + apply exec_change in Hex. by eapply waiting_change.
  - destruct Hst as [k w' l Hk|e ins rest w' l He Hex].
    + apply start_frame in Hk as [_ _ _ _ _ Hq]. apply no_wait_ok. eapply Forall_impl; [exact Hq|]. by intros [].
    + destruct (Hw _ _ Hi) as [Hh Hr]. destruct (exec_waits _ _ _ _ _ _ Hex Hh) as [Hl|(k & -> & Hk)].
      * apply no_wait_ok. by apply Forall_app.
      * by split.
Qed.

Lemma wake_inv_reachable n c : reachable fut_step (fut_init n) c -> fut_inv c.1 c.2 /\ wake_inv c.1 c.2.
Proof.
  apply (pool_invariant fut_step (fun w pool => fut_inv w pool /\ wake_inv w pool)); [apply wake_inv_step|]. split; [apply fut_inv_init|].
  by apply (idle_pool_Forall [] n (fun i l => waits_ok world0 i l)).
Qed.

(** ** Timers *)

(** A race that is decided with its timer still armed is about to cancel it;
    a timer that runs is not armed. *)
Definition not_timer (ins : instr) : Prop := match ins with ITmoFire _ => False | _ => True end.
Definition armed (x : timeout_ctx) : Prop := tx_timer x = Some TM_ARMED.

Record tmo_inv (w : world) (pool : gmap nat (list instr)) : Prop := mk_tmo_inv {
  ti_cancel : forall a x, w_tmos w !! a = Some x -> tx_done x = true -> armed x -> pool_some (fun l => ITmoCancel a ∈ l) pool;
  ti_fire : map_Forall (fun _ l => forall a x, ITmoFire a ∈ l -> w_tmos w !! a = Some x -> ~ armed x) pool;
}.

(** The effect of an instruction on the timeouts. *)
Record tmo_frame (w : world) (ins : instr) (w' : world) (l : list instr) : Prop := mk_tmo_frame {
  tf_keep : forall a x', w_tmos w' !! a = Some x' -> exists x, w_tmos w !! a = Some x /\ (armed x' -> armed x) /\
    (tx_done x' = true -> armed x' -> (tx_done x = true /\ ins <> ITmoCancel a) \/ ITmoCancel a ∈ l \/ ins = ITmoFire a);
  tf_plain : Forall not_timer l;
}.

Lemma tmo_same w ins w' l :
  w_tmos w' = w_tmos w -> (forall a, ins <> ITmoCancel a) -> Forall not_timer l -> tmo_frame w ins w' l.
Proof. intros Ht Hi Hl. split; [|done]. intros a x'. rewrite Ht. intros Hx. exists x'. split_and!; auto. Qed.

Lemma give_fut_tmos w f b : w_tmos (give_fut w f b) = w_tmos w.
Proof. unfold give_fut. by case_match. Qed.

Lemma set_tmo_frame w p v st w' l : promise_set w p v st = Some (w', l) -> tmo_frame w (ISet p v st) w' l.
Proof.
  intros H. unfold promise_set, cell_complete in H. destruct (w_proms w !! p) as [h|]; [|done]. cbn in H.
  case_match; [simplify_eq; by apply tmo_same|]. cbn in H. destruct (w_cells w !! pr_cell h) as [x|]; [|done]. cbn in H.
  destruct (fc_ready x); cbn in H; simplify_eq; (apply tmo_same; [done..|]); [all_plain|]. apply Forall_app. split; [|all_plain].
  induction (fc_cbs x) as [|cb cbs IH]; [done|]. rewrite fmap_cons. cbn. by repeat (apply Forall_cons; split).
Qed.

Lemma fire_tmo_frame e w cb v st w' l : fire e w cb v st = Some (w', l) -> tmo_frame w (IFire cb v st) w' l.
Proof.
  intros H. destruct cb as [m p fn|t p|m p|a|a|a]; unfold fire, map_fire, inner_fire, all_fire, any_fire, source_fire in H; unfold then_fire in H; opt_cases H;
    try (repeat (case_decide || case_match); simplify_eq; (apply tmo_same; [done|done|all_plain])).
  - destruct (e_next e) as [f|]; [|simplify_eq; apply tmo_same; [done|done|all_plain]]. destruct (w_futs w !! f); [|done]. cbn in H.
    repeat case_match; simplify_eq; (apply tmo_same; [cbn; by rewrite ?give_fut_tmos|done|all_plain]).
  - simplify_eq. split; [|by case_match; all_plain]. intros b x'. cbn. rewrite lookup_insert. case_decide as D.
    + intros [= <-]. subst b. eexists. split; [done|]. split; [done|]. intros _ _. destruct (tx_done t) eqn:Hd; [by left|].
      right. left. right. by left.
    + intros Hx. exists x'. split_and!; auto.
Qed.

Lemma unref_tmos w c w' : cell_unref w c = Some w' -> w_tmos w' = w_tmos w.
Proof. intros H. unfold cell_unref in H. opt_cases H. by simplify_eq. Qed.

Lemma turn_tmo_frame i e w f c x dl m w' l ins :
  fiber_turn i e w f c x dl m = (w', l) -> (forall a, ins <> ITmoCancel a) -> tmo_frame w ins w' l.
Proof.
  intros H Hi. unfold fiber_turn, get_done, get_again in H. repeat case_match; simplify_eq;
    (apply tmo_same; [cbn; by rewrite ?give_fut_tmos|done|all_plain]).
Qed.

Lemma timer_tmo_frame i e w ins a w' l :
  ins = ITmoCancel a \/ ins = ITmoFire a \/ ins = ITmoRetire a -> exec i e w ins = Some (w', l) -> tmo_frame w ins w' l.
Proof.
  intros [->|[->| ->]] H; cbn in H.
  - unfold timeout_cancel in H. opt_cases H. case_decide as D; simplify_eq; (split; [|all_plain]); intros b x'; cbn.
    + rewrite lookup_insert. case_decide as E; intros Hx'.
      * simplify_eq. eexists. split; [done|]. split; intros; by unfold armed in *.
      * exists x'. split_and!; auto. intros ? ?. left. split; [done|]. congruence.
    + intros Hx'. exists x'. split_and!; auto. intros ? Ha. left. split; [done|]. intros [= ->]. by simplify_eq.
  - unfold timeout_fire in H. opt_cases H. simplify_eq. split; [|case_match; all_plain]. intros b x'. cbn. rewrite lookup_insert.
    case_decide as E; intros Hx'.
    + simplify_eq. eexists. split_and!; [done..|]. auto.
    + exists x'. split_and!; auto.
  - unfold timeout_retire in H. opt_cases H. simplify_eq. split; [|done]. intros b x'. case_decide; cbn.
    + intros [_ Hx']%lookup_delete_Some. exists x'. split_and!; auto.
    + rewrite lookup_insert. case_decide as E; intros Hx'; [simplify_eq|]; (eexists; split; [done|]; split; [done|]); auto.
Qed.

Lemma exec_tmo_frame i e w ins w' l : exec i e w ins = Some (w', l) -> tmo_frame w ins w' l.
Proof.
  intros H. destruct ins; try (by eapply timer_tmo_frame; eauto); cbn [exec] in H; try (apply no_more_inv in H as [H ->]).
  - by apply set_tmo_frame in H.
  - by apply fire_tmo_frame in H.
  - apply unref_tmos in H. by apply tmo_same.
  - unfold drop_prom in H. opt_cases H. destruct (cell_unref w _) eqn:Hu; [|done]. apply unref_tmos in Hu. simplify_eq/=. by apply tmo_same.
  - unfold drop_fut in H. opt_cases H. destruct (cell_unref w _) eqn:Hu; [|done]. apply unref_tmos in Hu. simplify_eq/=. by apply tmo_same.
  - simplify_eq. apply tmo_same; [apply give_fut_tmos|done..].
  - unfold free_one in H. opt_cases H. simplify_eq. by apply tmo_same.
  - destruct (e_mem e); [unfold on_complete_ref in H; opt_cases H|]; simplify_eq; (apply tmo_same; [done|done|]); [all_plain|].
    destruct cb; cbn; all_plain.
  - destruct (e_mem e); [unfold on_complete_ref in H; opt_cases H|]; simplify_eq; (apply tmo_same; [done|done|]); [all_plain|].
    destruct cb; cbn; all_plain.
  - unfold on_complete_locked in H. opt_cases H. case_match; simplify_eq; (apply tmo_same; [done|done|all_plain]).
  - unfold all_store in H. opt_cases H. simplify_eq. apply tmo_same; [done|done|all_plain].
  - unfold all_dec in H. opt_cases H. simplify_eq. apply tmo_same; [done|done|case_decide; all_plain].
  - unfold all_free in H. opt_cases H. simplify_eq. by apply tmo_same.
  - unfold any_dec in H. opt_cases H. simplify_eq. by apply tmo_same.
  - unfold any_retire_failed in H. opt_cases H. repeat case_match; simplify_eq; (apply tmo_same; [done|done|all_plain]).
  - unfold any_free in H. opt_cases H. simplify_eq. by apply tmo_same.
  - unfold future_get, get_done, get_again, cond_wait in H. opt_cases H. case_match; [simplify_eq; apply tmo_same; [done|done|all_plain]|].
    case_decide; [simplify_eq; apply tmo_same; [by rewrite give_fut_tmos|done|all_plain]|].
    destruct fiber; injection H; [intros; by eapply turn_tmo_frame|]. intros <- <-. apply tmo_same; [done|done|all_plain].
  - unfold fiber_resume in H. opt_cases H. injection H as H. by eapply turn_tmo_frame.
  - unfold fut_kill_deliver in H. case_match; [|simplify_eq; apply tmo_same; [apply give_fut_tmos|done|done]].
    opt_cases H. injection H as H. by eapply turn_tmo_frame.
  - unfold cond_resume, get_done, get_again, cond_wait in H. opt_cases H.
    repeat case_match; simplify_eq; (apply tmo_same; [by rewrite ?give_fut_tmos|done|all_plain]).
Qed.

Lemma take_futs_tmos fs w : w_tmos (take_futs w fs) = w_tmos w.
Proof. revert w. induction fs as [|f fs IH]; intros w; [done|]. cbn. fold (take_futs (give_fut w f false) fs). by rewrite IH, give_fut_tmos. Qed.

(** The effect of a call on the timeouts. *)
Record tmo_call (w w' : world) (l : list instr) : Prop := mk_tmo_call {
  tc_keep : forall a x', w_tmos w' !! a = Some x' ->
    ((w_nxt w <= a)%nat /\ tx_done x' = false) \/ exists x, w_tmos w !! a = Some x /\ tx_done x = tx_done x' /\ (armed x' -> armed x);
  tc_fire : forall a x', ITmoFire a ∈ l -> w_tmos w' !! a = Some x' -> ~ armed x';
}.

Lemma tmo_call_same w w' l : w_tmos w' = w_tmos w -> Forall not_timer l -> tmo_call w w' l.
Proof.
  intros Ht Hl. split; [intros a x'; rewrite Ht; right; eauto|]. intros a x' Hin. rewrite Forall_forall in Hl. by apply Hl in Hin.
Qed.

Lemma combine_tmo w fs ctx mem build :
  (forall w1 a p res, Forall not_timer (build w1 a p res).2 /\
     (w_tmos (build w1 a p res).1 = w_tmos w1 \/ exists x, tx_done x = false /\ w_tmos (build w1 a p res).1 = <[a := x]> (w_tmos w1))) ->
  tmo_call w (combine w fs ctx mem build).1 (combine w fs ctx mem build).2.
Proof.
  intros Hb. assert (tmo_call w w []) as Hskip by (by apply tmo_call_same). unfold combine. destruct ctx; [|done]. unfold new_pair.
  destruct (mem.1.1 && mem.1.2 && mem.2); cbn; [|done].
  match goal with |- tmo_call _ (build ?w1 ?a ?p ?res).1 _ => destruct (Hb w1 a p res) as (Hl & Ht) end.
  rewrite take_futs_tmos in Ht. cbn in Ht. destruct Ht as [Ht|(x & Hx & Ht)]; [by apply tmo_call_same|]. split.
  - intros a x'. rewrite Ht, lookup_insert. case_decide as D; intros Hx'; [simplify_eq; by left|]. right. eauto.
  - intros a x' Hin. rewrite Forall_forall in Hl. by apply Hl in Hin.
Qed.

Lemma start_tmo w k w' l : start w k = Some (w', l) -> tmo_call w w' l.
Proof.
  assert (forall r w' l, Some r = Some (w', l) -> tmo_call w r.1 r.2 -> tmo_call w w' l) as Hr by (by intros r w1 l1 [= ->]).
  assert (forall p b, w_tmos (give_prom w p b) = w_tmos w) as Hp by (intros; unfold give_prom; by case_match).
  destruct k; cbn [start]; try case_match; try done; try (intros Hs; apply (Hr _ _ _ Hs); apply combine_tmo).
  - intros [= <- <-]. unfold new_pair. destruct (mem.1.1 && mem.1.2 && mem.2); cbn; by apply tmo_call_same.
  - intros [= <- <-]. apply tmo_call_same; [done|all_plain].
  - intros [= <- <-]. apply tmo_call_same; [done|all_plain].
  - intros [= <- <-]. apply tmo_call_same; [apply give_fut_tmos|all_plain].
  - intros [= <- <-]. apply tmo_call_same; [apply give_fut_tmos|all_plain].
  - intros. split; [all_plain|by left].
  - intros. split; [all_plain|by left].
  - intros. split; [|by left]. apply Forall_app. split; [|all_plain]. by apply Forall_fmap, Forall_true.
  - intros. split; [|by left]. apply Forall_app. split; [|all_plain]. by apply Forall_fmap, Forall_true.
  - intros. split; [all_plain|]. right. destruct timer; eexists; split; [..|done| |done]; done.
  - intros Hs. opt_cases Hs. case_decide as D; [|done]. injection Hs as <- <-. split.
    + intros b x'. cbn. rewrite lookup_insert. case_decide; intros Hx'; simplify_eq; right; eauto.
    + intros b x' [= ->]%list_elem_of_singleton. cbn. rewrite lookup_insert_eq. by intros [= <-].
Qed.

Lemma tmo_inv_step w pool i p w' p' :
  fut_inv w pool /\ tmo_inv w pool -> pool !! i = Some p -> fut_step i w p w' p' ->
  fut_inv w' (<[i := p']> pool) /\ tmo_inv w' (<[i := p']> pool).
Proof.
  intros [Hinv [Hc Hf]] Hi Hst. split; [by eapply fut_inv_step|]. destruct Hst as [k w' l Hk|e ins rest w' l He Hex].
  - apply start_tmo in Hk as [Hkeep Hfire]. split.
    + intros a x' Hx' Hd Ha. destruct (Hkeep a x' Hx') as [[_ ?]|(x & Hx & Hdx & Hax)]; [congruence|].
      eapply pool_some_keep; [exact Hi|apply not_elem_of_nil|]. apply (Hc a x); auto. congruence.
    + apply map_Forall_insert_2; [done|]. intros j q Hj a x' Hin Hx'. destruct (Hkeep a x' Hx') as [[Hlt _]|(x & Hx & _ & Hax)].
      * exfalso. apply list_elem_of_split in Hin as (l1 & l2 & ->).
        pose proof (pool_sum_ge (fun l => hold_list l (TTmo a)) pool j _ ltac:(intros; apply hold_list_nonneg) Hj) as Hge. cbn in Hge.
        rewrite hold_list_app in Hge. cbn in Hge. rewrite d_eq in Hge.
        pose proof (hold_list_nonneg l1 (TTmo a)). pose proof (hold_list_nonneg l2 (TTmo a)).
        pose proof (fi_due _ _ Hinv (TTmo a)) as Hd. unfold due, thread_tokens in Hd. pose proof (held_nonneg w (TTmo a)).
        rewrite supply_tmo, (tmos_fresh w a (fi_heap _ _ Hinv) Hlt) in Hd. lia.
      * intros Ha. apply (Hf j q Hj a x Hin Hx). auto.
  - apply exec_tmo_frame in Hex as [Hkeep Hpl]. split.
    + intros a x' Hx' Hd Ha. destruct (Hkeep a x' Hx') as (x & Hx & Hax & Hcase). destruct (Hcase Hd Ha) as [[Hdx Hne]|[Hin| ->]].
      * destruct (Hc a x Hx Hdx (Hax Ha)) as (j & q & Hj & Hq). destruct (decide (j = i)) as [->|Hji].
        -- simplify_eq. apply pool_some_now. apply elem_of_app. right. apply elem_of_cons in Hq as [<-|Hq]; done.
        -- exists j, q. by rewrite lookup_insert_ne.
      * apply pool_some_now. apply elem_of_app. by left.
      * exfalso. apply (Hf _ _ Hi a x); [by left|done|auto].
    + apply map_Forall_insert_2.
      * intros a x' [Hin|Hin]%elem_of_app Hx'; [rewrite Forall_forall in Hpl; by apply Hpl in Hin|].
        destruct (Hkeep a x' Hx') as (x & Hx & Hax & _). intros Ha. apply (Hf _ _ Hi a x); [by right|done|auto].
      * intros j q Hj a x' Hin Hx'. destruct (Hkeep a x' Hx') as (x & Hx & Hax & _). intros Ha. apply (Hf j q Hj a x); auto.
Qed.

Lemma tmo_inv_reachable n c : reachable fut_step (fut_init n) c -> fut_inv c.1 c.2 /\ tmo_inv c.1 c.2.
Proof.
  apply (pool_invariant fut_step (fun w pool => fut_inv w pool /\ tmo_inv w pool)); [apply tmo_inv_step|]. split; [apply fut_inv_init|].
  split; [done|]. apply (idle_pool_Forall [] n (fun _ l => forall a x, ITmoFire a ∈ l -> w_tmos world0 !! a = Some x -> ~ armed x)). set_solver.
Qed.

(** ** Nothing leaks *)

Definition at_rest (pool : gmap nat (list instr)) : Prop := map_Forall (fun _ l => l = []) pool.

Lemma rest_tokens pool t : at_rest pool -> thread_tokens pool t = 0.
Proof. intros H. apply pool_sum_zero. intros i l Hl. by rewrite (H _ _ Hl). Qed.

Section Leak.
Context (w : world) (pool : gmap nat (list instr)).
Context (Hinv : fut_inv w pool) (Htmo : tmo_inv w pool) (Hrest : at_rest pool).
Context (Hproms : w_proms w = ∅) (Hmine : forall f h, w_futs w !! f = Some h -> fu_mine h = false).

Lemma rest_balance t : held w t = supply w t.
Proof. pose proof (fi_due _ _ Hinv t) as Hd. rewrite rest_tokens in Hd by done. unfold due in Hd. lia. Qed.

(** What is held when no thread runs: by cells and contexts only. *)
Lemma rest_held t :
  held w t = msum (held_cell t) (w_cells w) + msum (held_fut t) (w_futs w) + msum (held_all t) (w_alls w) +
    msum (held_any t) (w_anys w) + msum (held_tmo t) (w_tmos w).
Proof. unfold held. rewrite Hproms, msum_empty. lia. Qed.

Lemma rest_futs : w_futs w = ∅.
Proof.
  apply map_empty. intros f. destruct (w_futs w !! f) as [h|] eqn:Hf; [|done]. exfalso.
  pose proof (rest_balance (TFut f)) as Hb. rewrite supply_fut, Hf, rest_held in Hb.
  rewrite (msum_zero (held_cell _)), (msum_zero (held_fut _)), (msum_zero (held_all _)), (msum_zero (held_any _)), (msum_zero (held_tmo _)) in Hb; [lia|..].
  - intros. unfold held_tmo. repeat case_match; by rewrite ?d_ne by done.
  - intros. unfold held_any. case_match; by rewrite ?d_ne by done.
  - intros. unfold held_all. case_match; by rewrite ?d_ne by done.
  - intros k x Hx. unfold held_fut. rewrite (Hmine _ _ Hx), d_ne by done. done.
  - intros k x _. unfold held_cell. induction (fc_cbs x) as [|cb l IH]; simpl; [done|].
    rewrite IH, d_ne by done. by destruct cb; simpl; rewrite ?d_ne by done.
Qed.

(** Every cell is complete, so none has callbacks. *)
Lemma rest_ready c x : w_cells w !! c = Some x -> fc_cbs x = [].
Proof.
  intros Hx. apply (ho_cells _ (fi_heap _ _ Hinv) _ _ Hx). pose proof (rest_balance (TPend c)) as Hb.
  rewrite supply_pend, Hx, held_pend, Hproms, msum_empty in Hb. destruct (fc_ready x); [done|lia].
Qed.

Lemma rest_cbs t : msum (held_cell t) (w_cells w) = 0.
Proof. apply msum_zero. intros c x Hx. unfold held_cell. by rewrite (rest_ready c x Hx). Qed.

(** Only the contexts are left to hold anything. *)
Lemma rest_ctxs t : msum (held_all t) (w_alls w) + msum (held_any t) (w_anys w) + msum (held_tmo t) (w_tmos w) = supply w t.
Proof. rewrite <- rest_balance, rest_held, rest_cbs, rest_futs, msum_empty. lia. Qed.

Lemma rest_undecided a x : w_tmos w !! a = Some x -> tx_done x = true.
Proof.
  intros Hx. destruct (tx_done x) eqn:Hd; [done|]. exfalso. pose proof (rest_balance (TProm (tx_prom x))) as Hb.
  rewrite supply_prom, Hproms, lookup_empty in Hb. pose proof (held_ge_tmo w (TProm (tx_prom x)) a x Hx) as Hg.
  unfold held_tmo in Hg. rewrite Hd, d_eq in Hg. pose proof (d_nonneg (TTmo a) (TProm (tx_prom x))). case_decide; lia.
Qed.

Lemma rest_unarmed a x : w_tmos w !! a = Some x -> ~ armed x.
Proof.
  intros Hx Ha. destruct (ti_cancel _ _ Htmo a x Hx (rest_undecided a x Hx) Ha) as (i & l & Hl & Hin).
  rewrite (Hrest _ _ Hl) in Hin. by apply not_elem_of_nil in Hin.
Qed.

Lemma rest_held_tmos t : msum (held_tmo t) (w_tmos w) = 0.
Proof.
  apply msum_zero. intros a x Hx. unfold held_tmo. rewrite (rest_undecided a x Hx).
  rewrite decide_False by (by apply (rest_unarmed a x Hx)). done.
Qed.

(** No token but a promise's is held at all, and no promise's is supplied. *)
Lemma rest_supply t : (forall p, t <> TProm p) -> supply w t = 0.
Proof.
  intros Ht. rewrite <- rest_ctxs, rest_held_tmos.
  rewrite (msum_zero (held_all t)), (msum_zero (held_any t)); [done|..].
  - intros. unfold held_any. case_match; by rewrite ?d_ne by (intros <-; by eapply Ht).
  - intros. unfold held_all. case_match; by rewrite ?d_ne by (intros <-; by eapply Ht).
Qed.

Lemma rest_empty :
  w_cells w = ∅ /\ w_futs w = ∅ /\ w_one w = ∅ /\ w_alls w = ∅ /\ w_anys w = ∅ /\ w_tmos w = ∅ /\ w_timers w = 0.
Proof.
  pose proof (fi_heap _ _ Hinv) as Hok.
  assert (w_tmos w = ∅) as Htm.
  { apply map_empty. intros a. destruct (w_tmos w !! a) as [x|] eqn:Hx; [|done]. exfalso. destruct (ho_tmos _ Hok _ _ Hx) as [? _].
    pose proof (rest_supply (TTmo a) ltac:(done)) as Hs. rewrite supply_tmo, Hx in Hs. lia. }
  split_and!; [..|done|].
  - apply map_empty. intros c. destruct (w_cells w !! c) as [x|] eqn:Hx; [|done]. exfalso. destruct (ho_cells _ Hok _ _ Hx) as [? _].
    pose proof (rest_supply (TRef c) ltac:(done)) as Hs. rewrite supply_ref, Hx in Hs. lia.
  - apply rest_futs.
  - apply map_empty. intros m. destruct (w_one w !! m) as [x|] eqn:Hx; [|done]. exfalso.
    pose proof (rest_supply (TOne m) ltac:(done)) as Hs. rewrite supply_one, Hx in Hs. lia.
  - apply map_empty. intros a. destruct (w_alls w !! a) as [x|] eqn:Hx; [|done]. exfalso.
    pose proof (rest_supply (TAll a) ltac:(done)) as Hs. pose proof (rest_supply (TAllF a) ltac:(done)) as Hs'.
    rewrite supply_all, Hx in Hs. rewrite supply_allf, Hx in Hs'. case_decide; lia.
  - apply map_empty. intros a. destruct (w_anys w !! a) as [x|] eqn:Hx; [|done]. exfalso.
    pose proof (rest_supply (TAny a) ltac:(done)) as Hs. pose proof (rest_supply (TAnyF a) ltac:(done)) as Hs'.
    rewrite supply_any, Hx in Hs. rewrite supply_anyf, Hx in Hs'. case_decide; lia.
  - rewrite (ho_timers _ Hok), Htm. apply msum_empty.
Qed.
End Leak.

(** ** Cascades end *)

(** How much there is to do: for a callback, and for an instruction.  A wait
    weighs the release of the handle it ends with. *)
Definition work_cb (cb : fut_cb) : Z :=
  match cb with
  | map_on_complete _ _ _ | then_inner_on_complete _ _ | any_on_complete _ => 4
  | all_on_complete _ => 6
  | timeout_src_complete _ => 6
  | then_on_complete _ _ => 10
  end.

Definition work (ins : instr) : Z :=
  match ins with
  | ISet _ _ _ => 2
  | IFire cb _ _ => work_cb cb
  | IReg _ cb => work_cb cb + 4
  | IRegRes _ cb _ => work_cb cb + 5
  | IRegLocked _ cb => work_cb cb + 2
  | IAllStore _ _ => 5
  | IAllDec _ | IAnyRetire _ | ITmoFire _ => 4
  | ITmoCancel _ => 3
  | IGet _ _ _ | IPark _ _ _ | IKill _ _ | ICond _ _ => 2
  | _ => 1
  end.

Definition sum_work (l : list instr) : Z := foldr (fun ins n => work ins + n) 0 l.
Definition cell_work (_ : nat) (x : future_cell) : Z := foldr (fun cb n => work_cb cb + 1 + n) 0 (fc_cbs x).

(** All that the threads do, and that completions will make them do. *)
Definition total_work (w : world) (pool : gmap nat (list instr)) : Z :=
  pool_sum sum_work pool + msum cell_work (w_cells w).

Definition is_wait (ins : instr) : bool :=
  match ins with IGet _ _ _ | IPark _ _ _ | IKill _ _ | ICond _ _ => true | _ => false end.

Lemma work_pos ins : 1 <= work ins.
Proof. destruct ins; cbn; try lia; destruct cb; cbn; lia. Qed.

Lemma sum_work_nonneg l : 0 <= sum_work l.
Proof. induction l as [|ins l IH]; cbn; [done|]. pose proof (work_pos ins). fold (sum_work l). lia. Qed.

Lemma cell_work_nonneg c x : 0 <= cell_work c x.
Proof. unfold cell_work. induction (fc_cbs x) as [|cb l IH]; cbn; [done|]. destruct cb; cbn; lia. Qed.

Lemma total_work_nonneg w pool : 0 <= total_work w pool.
Proof.
  pose proof (pool_sum_nonneg sum_work pool sum_work_nonneg). pose proof (msum_nonneg cell_work (w_cells w) cell_work_nonneg).
  unfold total_work. lia.
Qed.

Lemma sum_work_app l l' : sum_work (l ++ l') = sum_work l + sum_work l'.
Proof. unfold sum_work. induction l as [|ins l IH]; cbn; lia. Qed.

Lemma fires_work c v st cbs :
  sum_work (concat ((fun cb => [IFire cb v st; IUnref c]) <$> cbs)) = foldr (fun cb n => work_cb cb + 1 + n) 0 cbs.
Proof. induction cbs as [|cb cbs IH]; [done|]. rewrite fmap_cons. cbn. fold (sum_work (concat ((fun cb => [IFire cb v st; IUnref c]) <$> cbs))). lia. Qed.

(** An instruction uses up its work; a wait may go on. *)
Definition works (w : world) (ins : instr) (w' : world) (l : list instr) : Prop :=
  sum_work l + msum cell_work (w_cells w') + (if is_wait ins then 0 else 1) <= work ins + msum cell_work (w_cells w).

Lemma works_same w ins w' l :
  w_cells w' = w_cells w -> sum_work l + (if is_wait ins then 0 else 1) <= work ins -> works w ins w' l.
Proof. unfold works. intros ->. lia. Qed.

Lemma works_unref w c w' ins : cell_unref w c = Some w' -> 1 <= work ins -> is_wait ins = false -> works w ins w' [].
Proof.
  intros H Hw Hi. unfold cell_unref in H. destruct (w_cells w !! c) as [x|] eqn:Hx; [|done]. cbn in H. injection H as <-.
  unfold works. rewrite Hi. cbn. pose proof (cell_work_nonneg c x). case_decide.
  - rewrite (msum_delete _ _ _ x) by done. lia.
  - rewrite (msum_update _ _ _ x) by done. unfold cell_work at 3. cbn. fold (cell_work c x). lia.
Qed.

Lemma works_turn i e w f c x y dl m w' l ins :
  fiber_turn i e w f c y dl m = (w', l) -> w_cells w !! c = Some x -> fc_cbs y = fc_cbs x ->
  is_wait ins = true -> works w ins w' l.
Proof.
  intros H Hx Hy Hi. assert (forall z, fc_cbs z = fc_cbs x -> msum cell_work (<[c := z]> (w_cells w)) = msum cell_work (w_cells w)) as Hz.
  { intros z Hz. rewrite (msum_update _ _ _ x) by done. unfold cell_work at 2 3. rewrite Hz. lia. }
  assert (work ins = 2) as Hw by (by destruct ins).
  unfold works. rewrite Hi, Hw. unfold fiber_turn, get_done, get_again in H.
  repeat case_match; simplify_eq; cbn; rewrite ?give_fut_cells; cbn; rewrite Hz by done; lia.
Qed.

Lemma works_put w c x y ins w' l k :
  w_cells w !! c = Some x -> w_cells w' = <[c := y]> (w_cells w) -> cell_work c y = cell_work c x + k ->
  sum_work l + k + (if is_wait ins then 0 else 1) <= work ins -> works w ins w' l.
Proof. intros Hx Hc Hk Hl. unfold works. rewrite Hc, (msum_update _ _ _ x) by done. lia. Qed.

Lemma works_set w p v st w' l : promise_set w p v st = Some (w', l) -> works w (ISet p v st) w' l.
Proof.
  intros H. unfold promise_set, cell_complete in H. destruct (w_proms w !! p) as [h|]; [|done]. cbn in H.
  case_match; [simplify_eq; by apply works_same|]. cbn in H. destruct (w_cells w !! pr_cell h) as [x|] eqn:Hx; [|done]. cbn in H.
  destruct (fc_ready x); cbn in H; simplify_eq; [by apply works_same|].
  eapply (works_put _ (pr_cell h) x _ _ _ _ (- cell_work (pr_cell h) x)); [done|done|cbn; lia|].
  rewrite sum_work_app, fires_work. fold (cell_work (pr_cell h) x). cbn. lia.
Qed.

Lemma works_fire e w cb v st w' l : fire e w cb v st = Some (w', l) -> works w (IFire cb v st) w' l.
Proof.
  intros H. destruct cb as [m p fn|t p|m p|a|a|a]; unfold fire, map_fire, inner_fire, all_fire, any_fire, source_fire in H; unfold then_fire in H; opt_cases H;
    try (repeat (case_decide || case_match); simplify_eq; (apply works_same; [done|cbn; lia])).
  destruct (e_next e) as [f|]; [|simplify_eq; apply works_same; [done|cbn; lia]]. destruct (w_futs w !! f); [|done]. cbn in H.
  repeat case_match; simplify_eq; (apply works_same; [cbn; by rewrite ?give_fut_cells|cbn; lia]).
Qed.

Lemma reg_failed_work cb l : sum_work (reg_failed cb l) <= work_cb cb + sum_work l.
Proof. destruct cb; cbn [reg_failed]; unfold xtc_promise_drop; rewrite !sum_work_app; cbn; lia. Qed.

Lemma exec_works i e w ins w' l : exec i e w ins = Some (w', l) -> works w ins w' l.
Proof.
  intros H. destruct ins; cbn [exec] in H; try (apply no_more_inv in H as [H ->]).
  - by apply works_set in H.
  - by apply works_fire in H.
  - by eapply works_unref.
  - unfold drop_prom in H. opt_cases H. destruct (cell_unref w _) as [w1|] eqn:Hu; [|done]. simplify_eq/=. by apply (works_unref _ _ _ (IDropProm p)) in Hu.
  - unfold drop_fut in H. opt_cases H. destruct (cell_unref w _) as [w1|] eqn:Hu; [|done]. simplify_eq/=. by apply (works_unref _ _ _ (IDropFut f)) in Hu.
  - simplify_eq. apply works_same; [apply give_fut_cells|done].
  - unfold free_one in H. opt_cases H. simplify_eq. by apply works_same.
  - destruct (e_mem e).
    + unfold on_complete_ref in H. opt_cases H. simplify_eq. eapply (works_put _ _ _ _ _ _ _ 0); [done|done|unfold cell_work; cbn; lia|cbn; lia].
    + simplify_eq. apply works_same; [done|]. rewrite sum_work_app. pose proof (reg_failed_work cb []). cbn in *. lia.
  - destruct (e_mem e).
    + unfold on_complete_ref in H. opt_cases H. simplify_eq. eapply (works_put _ _ _ _ _ _ _ 0); [done|done|unfold cell_work; cbn; lia|cbn; lia].
    + simplify_eq. apply works_same; [done|]. rewrite sum_work_app. pose proof (reg_failed_work cb [IDropFut res]). cbn in *. lia.
  - unfold on_complete_locked in H. opt_cases H. case_match; simplify_eq; [apply works_same; [done|cbn; lia]|].
    eapply (works_put _ _ _ _ _ _ _ (work_cb cb + 1)); [done|done|unfold cell_work; cbn; lia|cbn; lia].
  - unfold all_store in H. opt_cases H. simplify_eq. by apply works_same.
  - unfold all_dec in H. opt_cases H. simplify_eq. apply works_same; [done|]. case_decide; cbn; lia.
  - unfold all_free in H. opt_cases H. simplify_eq. by apply works_same.
  - unfold any_dec in H. opt_cases H. simplify_eq. by apply works_same.
  - unfold any_retire_failed in H. opt_cases H. repeat case_match; simplify_eq; by apply works_same.
  - unfold any_free in H. opt_cases H. simplify_eq. by apply works_same.
  - unfold timeout_cancel in H. opt_cases H. repeat case_match; simplify_eq; by apply works_same.
  - unfold timeout_fire in H. opt_cases H. repeat case_match; simplify_eq; by apply works_same.
  - unfold timeout_retire in H. opt_cases H. simplify_eq. case_decide; by apply works_same.
  - unfold future_get, get_done, get_again, cond_wait in H. destruct (w_futs w !! f) as [h|]; [|done]. cbn in H.
    destruct (w_cells w !! fu_cell h) as [x|] eqn:Hx; [|done]. cbn in H.
    case_match; [simplify_eq; by eapply (works_put _ (fu_cell h) x x _ _ _ 0); [..|lia|]|].
    case_decide; [simplify_eq; by eapply (works_put _ (fu_cell h) x x _ _ _ 0); [|rewrite give_fut_cells|lia|]|].
    destruct fiber; injection H; [intros; by eapply works_turn|].
    intros <- <-. eapply (works_put _ _ x _ _ _ _ 0); [done|done|unfold cell_work; cbn; lia|done].
  - unfold fiber_resume in H. destruct (w_futs w !! f) as [h|]; [|done]. cbn in H.
    destruct (w_cells w !! fu_cell h) as [x|] eqn:Hx; [|done]. cbn in H. injection H as H. by eapply works_turn.
  - unfold fut_kill_deliver in H. case_match; [|simplify_eq; apply works_same; [apply give_fut_cells|done]].
    destruct (w_futs w !! f) as [h|]; [|done]. cbn in H.
    destruct (w_cells w !! fu_cell h) as [x|] eqn:Hx; [|done]. cbn in H. injection H as H. eapply works_turn; [exact H|exact Hx| |done].
    by case_match.
  - unfold cond_resume, get_done, get_again, cond_wait in H. destruct (w_futs w !! f) as [h|]; [|done]. cbn in H.
    destruct (w_cells w !! fu_cell h) as [x|] eqn:Hx; [|done]. cbn in H.
    repeat case_match; simplify_eq; (eapply (works_put _ _ x _ _ _ _ 0); [done|cbn; rewrite ?give_fut_cells; done|unfold cell_work; cbn; lia|done]).
Qed.

(** [fut_run k c c']: a run of [k] instructions and any number of turns of
    waits, with no new call. *)
Inductive fut_run : nat -> world * gmap nat (list instr) -> world * gmap nat (list instr) -> Prop :=
  | fr_refl c : fut_run 0 c c
  | fr_wait k w pool i e ins rest w' l c :
      pool !! i = Some (ins :: rest) -> is_wait ins = true -> fair_env w e -> exec i e w ins = Some (w', l) ->
      fut_run k (w', <[i := l ++ rest]> pool) c -> fut_run k (w, pool) c
  | fr_work k w pool i e ins rest w' l c :
      pool !! i = Some (ins :: rest) -> is_wait ins = false -> fair_env w e -> exec i e w ins = Some (w', l) ->
      fut_run k (w', <[i := l ++ rest]> pool) c -> fut_run (S k) (w, pool) c.

Lemma total_work_exec w pool i e ins rest w' l :
  pool !! i = Some (ins :: rest) -> exec i e w ins = Some (w', l) ->
  total_work w' (<[i := l ++ rest]> pool) + (if is_wait ins then 0 else 1) <= total_work w pool.
Proof.
  intros Hi Hex. apply exec_works in Hex. unfold works in Hex. unfold total_work.
  rewrite (pool_sum_insert _ _ _ (ins :: rest)) by done. rewrite sum_work_app. cbn [sum_work foldr]. fold (sum_work rest). lia.
Qed.

Lemma fut_run_bounded k c c' : fut_run k c c' -> Z.of_nat k + total_work c'.1 c'.2 <= total_work c.1 c.2.
Proof.
  induction 1 as [c|k w pool i e ins rest w' l c Hi Hw He Hex Hr IH|k w pool i e ins rest w' l c Hi Hw He Hex Hr IH]; cbn [fst snd] in *; [lia|..];
    pose proof (total_work_exec _ _ _ _ _ _ _ _ Hi Hex) as Hd; rewrite Hw in Hd; lia.
Qed.

(** ** Schedules *)

(** What a thread does next: a call, or its next instruction. *)
Definition fair_envb (w : world) (e : env) : bool := match e_next e with Some f => my_fut w f | None => true end.

Definition play1 (c : world * gmap nat (list instr)) (act : nat * (call + env)) : option (world * gmap nat (list instr)) :=
  let (i, a) := act in
  match a, c.2 !! i with
  | inl k, Some [] => '(w', l) ← start c.1 k; Some (w', <[i := l]> c.2)
  | inr e, Some (ins :: rest) =>
      if fair_envb c.1 e then '(w', l) ← exec i e c.1 ins; Some (w', <[i := l ++ rest]> c.2) else None
  | _, _ => None
  end.

Fixpoint play (acts : list (nat * (call + env))) (c : world * gmap nat (list instr)) : option (world * gmap nat (list instr)) :=
  match acts with [] => Some c | act :: acts => c1 ← play1 c act; play acts c1 end.

Lemma play_reachable acts c c' : play acts c = Some c' -> reachable fut_step c c'.
Proof.
  revert c. induction acts as [|[i a] acts IH]; intros [w pool] H; cbn in H; [simplify_eq; apply rtc_refl|].
  destruct a as [k|e], (pool !! i) as [[|ins rest]|] eqn:Hi; cbn in H; try done.
  - destruct (start w k) as [[w' l]|] eqn:Hk; [|done]. cbn in H. eapply rtc_l; [|by apply IH]. by eapply pool_step_at, fs_call.
  - destruct (fair_envb w e) eqn:He; [|done]. destruct (exec i e w ins) as [[w' l]|] eqn:Hex; [|done]. cbn in H.
    eapply rtc_l; [|by apply IH]. eapply pool_step_at; [done|]. apply (fs_exec i w e); [|done].
    unfold fair_env. unfold fair_envb in He. by destruct (e_next e).
Qed.

(** Allocations succeed, nothing is killed, the clock stands still. *)
Definition calm : env := mk_env true 0 None true false false 0 0 false.
Definition mem3 : bool * bool * bool := (true, true, true).
Definition steps (i n : nat) : list (nat * (call + env)) := replicate n (i, inr calm).

(** ** What every run guarantees *)

(** C12: whatever the interleaving of sets, drops, waits, combinators, timers
    and callbacks, no instruction touches freed memory; a cell's count is
    exactly the number of references to it; and whenever a promise is set,
    its cell is still to be completed. *)
Theorem fut_safe n w pool :
  reachable fut_step (fut_init n) (w, pool) ->
  (forall i e ins rest, pool !! i = Some (ins :: rest) -> fair_env w e -> is_Some (exec i e w ins)) /\
  (forall c x, w_cells w !! c = Some x -> 1 <= fc_refcnt x /\ fc_refcnt x = thread_tokens pool (TRef c) + held w (TRef c)) /\
  (forall i p v st rest, pool !! i = Some (ISet p v st :: rest) ->
     exists h x, w_proms w !! p = Some h /\ set_or_dropped h = false /\ w_cells w !! pr_cell h = Some x /\ fc_ready x = false).
Proof.
  intros Hinv%fut_inv_reachable. cbn in Hinv. split_and!.
  - intros i e ins rest Hi He. destruct (instr_inv w pool i e ins rest Hinv Hi He) as (w' & l & -> & _). eauto.
  - intros c x Hx. destruct (ho_cells _ (fi_heap _ _ Hinv) _ _ Hx) as [? _]. split; [done|].
    pose proof (fi_due _ _ Hinv (TRef c)) as Hd. unfold due in Hd. rewrite supply_ref, Hx in Hd. lia.
  - intros i p v st rest Hi. destruct (others_ok w pool i _ rest Hinv Hi) as (HR & _ & _ & _ & Hb).
    destruct (prom_live w _ Hb p) as (h & Hp & Hs & _).
    { cbn beta. cbn [hold]. rewrite d_eq. specialize (HR (TProm p)). cbn [hold] in HR. rewrite d_eq in HR. lia. }
    destruct (cell_pending w _ Hb p h Hp Hs) as (x & Hx & _ & Hr). eauto 6.
Qed.

(** C13: when no thread runs, every promise was set or dropped and the client
    has released its futures, the heap is empty: no cell, handle, context,
    callback or timer handle leaks, also when a source beats its timeout or
    an allocation fails. *)
Theorem fut_no_leak n w pool :
  reachable fut_step (fut_init n) (w, pool) -> at_rest pool -> w_proms w = ∅ ->
  (forall f h, w_futs w !! f = Some h -> fu_mine h = false) ->
  w_cells w = ∅ /\ w_futs w = ∅ /\ w_one w = ∅ /\ w_alls w = ∅ /\ w_anys w = ∅ /\ w_tmos w = ∅ /\ w_timers w = 0.
Proof. intros [Hinv Ht]%tmo_inv_reachable. by apply (rest_empty w pool). Qed.

(** C17: a cell is completed at most once; what a get returned is what the cell
    was completed with, and so is what a callback runs with. *)
Theorem fut_one_value n w pool :
  reachable fut_step (fut_init n) (w, pool) ->
  NoDup (w_set w).*1 /\ (forall y, y ∈ w_got w -> y ∈ w_set w) /\
  (forall c x, w_cells w !! c = Some x -> fc_ready x = true -> (c, (fc_value x, fc_status x)) ∈ w_set w) /\
  map_Forall (fun _ l => fires_ok (w_set w) l) pool.
Proof. intros [_ [Hr _ Hd Hg Hf]]%val_inv_reachable. done. Qed.

(** C18: a fiber that is parked on a future, and a thread in its condition
    variable, has been woken if the future is complete; otherwise it is in
    the queue that the completion will wake. *)
Theorem fut_no_lost_wakeup n w pool i ins rest :
  reachable fut_step (fut_init n) (w, pool) -> pool !! i = Some (ins :: rest) -> waiting w i ins.
Proof. intros [_ Hw]%wake_inv_reachable Hi. apply (Hw _ _ Hi). Qed.

(** A thread that is not waiting can go on, and has less to do then. *)
Lemma busy_step w pool i ins rest :
  fut_inv w pool -> pool !! i = Some (ins :: rest) -> is_wait ins = false ->
  exists w' l, exec i calm w ins = Some (w', l) /\ fut_inv w' (<[i := l ++ rest]> pool) /\
    total_work w' (<[i := l ++ rest]> pool) + 1 <= total_work w pool.
Proof.
  intros Hinv Hi Hw. destruct (instr_inv w pool i calm ins rest Hinv Hi I) as (w' & l & Hex & _). exists w', l. split_and!; [done|..].
  - eapply fut_inv_step; [done|done|]. by apply (fs_exec i w calm).
  - pose proof (total_work_exec _ _ _ _ _ _ _ _ Hi Hex) as Hd. by rewrite Hw in Hd.
Qed.

(** A thread is idle or at a wait. *)
Definition paused (l : list instr) : bool := match l with [] => true | ins :: _ => is_wait ins end.
Definition settled (pool : gmap nat (list instr)) : Prop := map_Forall (fun _ l => paused l = true) pool.

Lemma cascade_settles m w pool :
  total_work w pool < Z.of_nat m -> fut_inv w pool -> exists k w' pool', fut_run k (w, pool) (w', pool') /\ settled pool'.
Proof.
  revert w pool. induction m as [|m IH]; intros w pool Hm Hinv; [pose proof (total_work_nonneg w pool); lia|].
  destruct (decide (map_Forall (fun _ l => paused l = true) pool)) as [Hs|Hs]; [exists 0%nat, w, pool; split; [constructor|done]|].
  apply map_not_Forall in Hs as (i & l & Hi & Hn); [|intros; apply _]. destruct l as [|ins rest]; [done|].
  destruct (is_wait ins) eqn:Hw; [by cbn in Hn; rewrite Hw in Hn|].
  destruct (busy_step w pool i ins rest Hinv Hi Hw) as (w1 & l1 & Hex & Hinv1 & Hd).
  assert (total_work w1 (<[i := l1 ++ rest]> pool) < Z.of_nat m) as Hm1 by lia.
  destruct (IH w1 _ Hm1 Hinv1) as (k & w' & pool' & Hr & Hset). exists (S k), w', pool'. split; [|done].
  by eapply (fr_work _ _ _ i calm).
Qed.

(** C25: a cascade of callbacks ends: in any run without new calls the number
    of instructions is bounded by the work there was, however often waits
    turn; and from every state some run brings all threads to rest or to a
    wait. *)
Theorem fut_cascade_ends n w pool :
  reachable fut_step (fut_init n) (w, pool) ->
  (forall k c', fut_run k (w, pool) c' -> Z.of_nat k <= total_work w pool) /\
  exists k w' pool', fut_run k (w, pool) (w', pool') /\ settled pool'.
Proof.
  intros Hinv%fut_inv_reachable. split.
  - intros k c' Hr%fut_run_bounded. pose proof (total_work_nonneg c'.1 c'.2). cbn in Hr. lia.
  - apply (cascade_settles (Z.to_nat (total_work w pool + 1))); [|done]. pose proof (total_work_nonneg w pool). lia.
Qed.

(** The last retirement of a when_all. *)
Lemma all_last w pool i a x rest :
  fut_inv w pool -> pool !! i = Some (IAllDec a :: rest) -> w_alls w !! a = Some x -> al_remaining x = 1 ->
  Z.of_nat (length (al_fired x)) = al_total x /\ (if al_err_set x then al_first_err x else OK) = first_error (al_fired x).
Proof.
  intros Hinv Hi Hx H1. pose proof (fi_heap _ _ Hinv) as Hok. destruct (others_ok w pool i _ rest Hinv Hi) as (HR & HP & HU & HE & Hb).
  pose proof (unfired_le w _ HU a x _ Hb Hx) as Hu. cbn [hold] in Hu. rewrite d_eq, d_ne in Hu by done.
  pose proof (stored w _ HE a x _ Hb Hx ltac:(cbn [hold]; rewrite d_eq; lia) ltac:(intros; by apply d_ne)) as Hs.
  destruct (ho_alls _ Hok _ _ Hx) as (_ & [He1 He2] & _). split; [lia|].
  destruct (al_err_set x) eqn:He; cbn in Hs.
  - apply bool_decide_eq_false in Hs. destruct (decide (al_first_err x = first_error (al_fired x))); [done|by destruct Hs].
  - destruct (decide (first_error (al_fired x) = OK)); [done|]. by apply He1 in n.
Qed.

(** C26: what the combinators resolve to.  The last input of a when_all to
    retire has seen all of them fire and sets the number of inputs and the
    first error in the order they fired, or OK; the first input of a
    when_any sets its value, later ones nothing, and if none could be
    registered the last one sets NOMEM; of a source and its timeout the first
    to fire sets the result. *)
Theorem fut_combinators_resolve n w pool :
  reachable fut_step (fut_init n) (w, pool) ->
  (forall i a x rest, pool !! i = Some (IAllDec a :: rest) -> w_alls w !! a = Some x -> al_remaining x = 1 ->
     Z.of_nat (length (al_fired x)) = al_total x /\
     exists w', all_dec w a = Some (w', [ISet (al_prom x) (al_total x) (first_error (al_fired x)); IAllFree a])) /\
  (forall a x, w_anys w !! a = Some x -> an_remaining x <> 0 ->
     (forall e v st, exists w', fire e w (any_on_complete a) v st =
        Some (w', if decide (an_fired x = []) then [ISet (an_prom x) v st; IAnyDec a] else [IAnyDec a])) /\
     (an_remaining x = 1 -> an_fired x = [] ->
        exists w', any_retire_failed w a = Some (w', [ISet (an_prom x) 0 NOMEM; IAnyFree a]))) /\
  (forall a x, w_tmos w !! a = Some x ->
     (forall e v st, exists w', fire e w (timeout_src_complete a) v st =
        Some (w', if decide (tx_fired x = []) then [ISet (tx_prom x) v st; ITmoCancel a] else [ITmoRetire a])) /\
     exists w', timeout_fire w a =
        Some (w', if decide (tx_fired x = []) then [ISet (tx_prom x) 0 AGAIN; ITmoRetire a] else [ITmoRetire a])).
Proof.
  intros Hinv%fut_inv_reachable. cbn in Hinv. pose proof (fi_heap _ _ Hinv) as Hok. split_and!.
  - intros i a x rest Hi Hx H1. destruct (all_last w pool i a x rest Hinv Hi Hx H1) as [Hn He]. split; [done|].
    unfold all_dec. rewrite Hx. cbn. rewrite decide_True by done. change 0 with OK. rewrite He. eauto.
  - intros a x Hx Hr. destruct (ho_anys _ Hok _ _ Hx) as (_ & _ & Hd & _). specialize (Hd Hr). split.
    + intros e v st. unfold fire, any_fire, source_fire. rewrite Hx. cbn. rewrite Hd. eexists. f_equal. f_equal. case_bool_decide; case_decide; done.
    + intros H1 Hf. unfold any_retire_failed. rewrite Hx. cbn. rewrite decide_True by done. rewrite Hd, bool_decide_true by done. eauto.
  - intros a x Hx. destruct (ho_tmos _ Hok _ _ Hx) as (_ & Hd & _). split.
    + intros e v st. unfold fire, any_fire, source_fire. rewrite Hx. cbn. rewrite Hd. eexists. f_equal. f_equal. case_bool_decide; case_decide; done.
    + unfold timeout_fire. rewrite Hx. cbn. rewrite Hd. eexists. f_equal. f_equal. case_bool_decide; case_decide; done.
Qed.

(** ** Runs

    A promise, a future mapped by a successor function, a fiber that waits
    for the mapped future; then the promise is set. *)

Definition succ_fn (v _ : Z) : Z := v + 1.

Definition mapped_wait : list (nat * (call + env)) :=
  [(0%nat, inl (CNew mem3)); (0%nat, inl (CMap 2 succ_fn true mem3))] ++ steps 0 4 ++
  [(1%nat, inl (CGet 6 (-1) true))] ++ steps 1 1 ++ [(0%nat, inl (CSet 1 41 0))] ++ steps 0 1.

(** The callback runs and the fiber takes the value. *)
Definition mapped_done : list (nat * (call + env)) := mapped_wait ++ steps 0 6 ++ steps 1 2.

(** Two futures, the first of which failed, combined by a when_all that is
    about to resolve. *)
Definition all_fails : list (nat * (call + env)) :=
  [(0%nat, inl (CNew mem3)); (0%nat, inl (CNew mem3)); (0%nat, inl (CAll [2%nat; 5%nat] true mem3))] ++ steps 0 7 ++
  [(0%nat, inl (CSet 1 7 (-4)))] ++ steps 0 6 ++ [(0%nat, inl (CSet 4 8 0))] ++ steps 0 2.

Definition conf (acts : list (nat * (call + env))) : world * gmap nat (list instr) := default (fut_init 2) (play acts (fut_init 2)).

Lemma conf_reachable acts : is_Some (play acts (fut_init 2)) -> reachable fut_step (fut_init 2) ((conf acts).1, (conf acts).2).
Proof. intros [c Hc]. unfold conf. rewrite Hc. cbn. rewrite <- surjective_pairing. by eapply play_reachable. Qed.

Lemma mapped_wait_reached : reachable fut_step (fut_init 2) ((conf mapped_wait).1, (conf mapped_wait).2).
Proof. apply conf_reachable. vm_compute. eauto. Qed.

Lemma mapped_done_reached : reachable fut_step (fut_init 2) ((conf mapped_done).1, (conf mapped_done).2).
Proof. apply conf_reachable. vm_compute. eauto. Qed.

Lemma all_fails_reached : reachable fut_step (fut_init 2) ((conf all_fails).1, (conf all_fails).2).
Proof. apply conf_reachable. vm_compute. eauto. Qed.

Lemma fut_safe_witness : is_Some (exec 0 calm (conf mapped_wait).1 (IFire (map_on_complete 3 5 succ_fn) 41 0)).
Proof.
  destruct (fut_safe 2 _ _ mapped_wait_reached) as [H _].
  apply (H 0%nat calm _ [IUnref 0; IDropProm 1]); [vm_compute; reflexivity|exact I].
Defined.

Lemma fut_no_leak_witness : w_cells (conf mapped_done).1 = ∅ /\ w_one (conf mapped_done).1 = ∅.
Proof.
  destruct (fut_no_leak 2 _ _ mapped_done_reached) as (H1 & _ & H2 & _).
  - apply map_Forall_to_list. vm_compute. repeat constructor.
  - vm_compute. reflexivity.
  - intros f h Hf. vm_compute in Hf. destruct f; discriminate.
  - split; [exact H1|exact H2].
Defined.

Lemma fut_one_value_witness : (4%nat, (42, 0)) ∈ w_set (conf mapped_done).1 /\ (4%nat, (42, 0)) ∈ w_got (conf mapped_done).1.
Proof.
  assert ((4%nat, (42, 0)) ∈ w_got (conf mapped_done).1) as Hg by (vm_compute; apply list_elem_of_here).
  split; [|exact Hg]. destruct (fut_one_value 2 _ _ mapped_done_reached) as (_ & H & _). exact (H _ Hg).
Defined.

Lemma fut_no_lost_wakeup_witness : waiting (conf mapped_wait).1 1 (IPark 6 (-1) 1).
Proof. apply (fut_no_lost_wakeup 2 _ (conf mapped_wait).2 1 _ [] mapped_wait_reached). vm_compute. reflexivity. Defined.

Lemma fut_cascade_ends_witness : exists k w' pool', fut_run k ((conf mapped_wait).1, (conf mapped_wait).2) (w', pool') /\ settled pool'.
Proof. exact (proj2 (fut_cascade_ends 2 _ _ mapped_wait_reached)). Defined.

Lemma fut_combinators_resolve_witness : exists w', all_dec (conf all_fails).1 6 = Some (w', [ISet 8 2 (-4); IAllFree 6]).
Proof.
  destruct (fut_combinators_resolve 2 _ _ all_fails_reached) as [H _].
  destruct (H 0%nat 6%nat (mk_all 8 1 2 (-4) true [-4; 0]) [IUnref 3; IDropProm 4]) as [_ [w' Hw]];
    [vm_compute; reflexivity..|]. exists w'. exact Hw.
Defined.

(** ** Where the code differs from what it says *)

(** A second set of a promise does not return XTC_E_INVAL: the first one has
    freed the handle, and the second reads its flag there. *)
Theorem second_set_reads_freed :
  (0%nat, (41, 0)) ∈ w_set (conf mapped_done).1 /\ promise_set (conf mapped_done).1 1 8 0 = None.
Proof. split; [vm_compute; apply list_elem_of_here|vm_compute; reflexivity]. Qed.

(** The time a thread waits until is the sum, while that does not overflow. *)
Lemma thread_timespec_exact timeout_ns now :
  0 <= now -> 0 < timeout_ns -> now + timeout_ns < 2 ^ 63 ->
  timespec_valid (thread_timespec timeout_ns now) = true /\
  (thread_timespec timeout_ns now).1 * 1000000000 + (thread_timespec timeout_ns now).2 = now + timeout_ns.
Proof.
  intros Hn Ht Hs. unfold thread_timespec, timespec_valid. rewrite swrap_small by lia. cbn [fst snd].
  pose proof (Z.rem_bound_pos (now + timeout_ns) 1000000000 ltac:(lia) ltac:(lia)).
  pose proof (Z.quot_rem' (now + timeout_ns) 1000000000). rewrite !bool_decide_true by lia. split; [done|lia].
Qed.

(** A thread that waits with the largest timeout is refused by the condition
    variable, so that the wait gives up at once; a fiber waits for ever. *)
Theorem huge_wait_gives_up :
  timespec_valid (thread_timespec INT64_MAX 1750000000123456789) = false /\
  fiber_deadline INT64_MAX 1750000000123456789 < 0.
Proof. vm_compute. done. Qed.
